(* ===== verification/_CoqProject ===== *)
-Q . S2P
Prelude.v
Effects.v
BTree.v
Bytesrepr.v
Encoding.v
Struct.v
Uint.v
Units.v
Digest.v
PublicKey.v
Access.v
CLType.v
Account.v
Key.v
Contracts.v
Bids.v
BidKinds.v
Trie.v
TrieOps.v
TrieRep.v
TrieRead.v
TrieKeys.v
TrieZip.v
TrieWrite.v
TriePrune.v
TrieProof.v
Transform.v
GlobalState.v
KeyState.v
KeyPrefix.v
Query.v
TrackingCopy.v
Execution.v
Balances.v
Mint.v
MintNative.v
HandlePayment.v
Auction.v
AuctionRewards.v
AuctionBooks.v
AuctionSteps.v
AuctionBacked.v
AuctionMemory.v
Validators.v
Wal.v
ZugTypes.v
Zug.v
ZugQuorum.v
ZugInv.v
ZugNode.v
ZugFinal.v
ZugUpdate.v
ZugHandlers.v
ZugSync.v
ZugReplay.v
ZugNet.v
ZugSafety.v
