(* ===== verification/Prelude.v ===== *)
(** * Casper node: verification library

    A model of the parts of casper-node (Rust, under [src/]) that decide what is in the
    blockchain's global state, who may change it, how money moves and which blocks are
    final, with the theorems that make these parts correct.

    ** The program and its parts

    The global state is a map from keys to values, kept in a Merkle trie whose nodes are
    stored under their hashes; a block fixes the hash of the root. Execution sees a state
    through a tracking copy, which caches reads, keeps writes and records them as
    transforms; committing applies the transforms to the trie and gives the next root. The
    system contracts (mint, handle payment, auction) run on a tracking copy. Clients that
    know only a root check answers by Merkle proofs. Validators agree on the blocks of an
    era by a consensus protocol, Zug, in which each node keeps a log that lets it restart
    without contradicting itself.

    ** Files, and the code they model

    Foundations: [Prelude] (outcomes of fallible code, machine integers, bytes, lists,
    tactics), [Effects] (methods on [&mut self] as a state and error monad), [BTree]
    (ordered maps and sets).

    Serialization, in [types/src]: [Bytesrepr] ([bytesrepr.rs]) with the operations and the
    laws as two classes, [Encoding] (the laws of encoding alone), [Struct] (structs, enums and newtypes in general), [Uint]
    ([uint.rs]), [Units] (eras, times, gas, motes, versions), [Digest] ([digest.rs],
    Merkle proofs of lists, chunks), [PublicKey] ([crypto/asymmetric_key.rs]), [CLType]
    ([cl_type.rs], [cl_value.rs]), [Trie] ([storage/src/global_state/trie]).

    Rights and records, in [types/src]: [Access] ([access_rights.rs], [uref.rs]),
    [Account] ([account.rs]), [Key] ([key.rs] and all addresses), [Contracts]
    ([contracts.rs], [package.rs]), [Bids] (vesting), [BidKinds] (the records of the
    auction, unbonding, migration).

    The global state, in [storage/src]: [TrieOps] (the operations on the trie store:
    [global_state/trie_store/operations/mod.rs]), [TrieRep] (what a root represents),
    [TrieRead], [TrieKeys], [TrieZip], [TrieWrite], [TriePrune], [TrieProof] (one file of
    proofs per operation), [Transform] ([types/src/execution/transform_kind.rs]),
    [GlobalState] ([commit] in [global_state/state/mod.rs], and the theorems on the trie),
    [KeyState], [KeyPrefix] (the trie under the node's own keys and prefixes),
    [TrackingCopy] ([tracking_copy/mod.rs]), [Query] (queries and the validation of their
    proofs), [Execution] (a tracking copy over a trie, and its commit).

    Money, in [storage/src]: [Balances] ([tracking_copy/ext.rs],
    [data_access_layer/balance.rs]), [Mint] ([system/mint.rs] over a class of providers),
    [MintNative] (the providers of [system/runtime_native.rs], which satisfy the laws of
    the class), [HandlePayment] ([system/handle_payment.rs]), [Auction]
    ([system/auction.rs], [auction/detail.rs] and the weights of validators, over a class
    of providers); the proofs are in [AuctionRewards] (the split of rewards),
    [AuctionBooks] (what the records owe, and the laws of the providers), [AuctionSteps]
    and [AuctionBacked] (every operation and entry point keeps the records backed);
    [AuctionMemory] satisfies the laws and runs the auction on concrete data.

    Consensus, in [node/src/components/consensus]: [Validators] ([utils/validators.rs],
    [protocols/common.rs], [leader_sequence.rs]), [Wal] ([utils/wal.rs]), [ZugTypes] (the
    data and the rounds of [protocols/zug]), [Zug] (the state and every handler of
    [protocols/zug.rs]); the proofs are in [ZugQuorum] (quorum arithmetic and certified
    chains), [ZugInv] (the invariant of a node), [ZugNode], [ZugFinal], [ZugUpdate],
    [ZugHandlers], [ZugSync], [ZugReplay] (every operation and event keeps it), [ZugNet]
    (a network of nodes as a step relation) and [ZugSafety] (the theorems).

    ** How code is modelled

    A fallible function returns [result E A]: [Ok], [Err], [Panic] for a Rust panic and
    [Diverge] for a loop that ran out of fuel. A method on [&mut self] is a function on the
    state or a computation of [Effects]. Integers are [Z] with the range and the wrapping
    written where the code computes; [u_max w] is the largest of width [w]. Ordered maps
    are sorted association lists where the order is observable and [gmap] otherwise.

    Code that is not in the repository is an argument: BLAKE2b, the curve crates, bincode,
    the random generators, floating point numbers, ratios of the crate [num_rational], the
    iteration order of hash maps, the standard library's binary search. What a theorem needs of it is a named hypothesis or a
    class of laws, and a witness instantiates it. Hashes are never assumed injective:
    theorems about Merkle proofs and content-addressed storage hold unless bytes that the
    run hashes collide.

    ** What the theorems show

    - Consensus: no two nodes announce different blocks at the same height, and correct
      validators never contradict themselves, although faulty validators (up to the
      threshold) send anything, messages are lost and reordered, and nodes crash at any
      write and restart; every handler returns. An era is assumed to be set to collect only
      evidence after its validator was deactivated. The validators of an era and the leaders
      are computed without overflow; the log loses nothing that was recorded.
    - Global state: read, write, prune, listing and proofs on the trie are those of a
      finite map and keep all earlier roots valid; they never panic for keys that are stored
      or long enough ([read_safe], [long_enough]). Committing the effects of an execution
      gives the state that the execution saw, for prunes of keys in normal form. A validated
      answer is true.
    - Money: the mint conserves the sum of balances against the supply, unless the system
      reduces the supply by itself, and moves exactly what it says; available balances, holds, refunds and fees add up. In every state that
      the entry points of the auction lead to, the purses hold what its records owe: stakes
      and amounts that wait to be unbonded. A reward is split exactly.
    - Rights and records: rights of a context, authorization by weighted keys, histories of
      package versions, vesting and unbonding do what they promise.
    - Serialization: no encoding of a value of a described type is a prefix of another;
      values round trip, and arbitrary bytes never make the parser panic, exactly at the
      types without lists of zero-sized values.

    ** Fuel

    Loops that are not structural take fuel that their definitions compute from the input:
    walks through the trie from the length of the path and the size of the store
    ([walk_fuel]), walks to ancestors in consensus from the round number (parents are
    earlier rounds), the iterator of a bit field from its 128 bits, [Zug::update] from the
    range of [u32] round numbers, Stein's algorithm from the bits of its arguments. The
    theorems say what is returned, so they also say that the fuel is enough.

    ** Not modelled

    - Wasm: the interpreter and host functions of [execution_engine] and [executor], and
      the contracts in [smart_contracts]; the state they change is reached through the
      modelled tracking copy and rights.
    - I/O and concurrency of the node: reactor, effects, networking, LMDB, servers; the
      components that are driven by events of the reactor.
    - Highway, the older consensus protocol, and the era supervisor.
    - Transactions and blocks as data, genesis, protocol upgrades apart from the migration
      of unbonding purses.
    - The providers of the auction in [auction_native.rs]; their laws are assumed.
    - JSON, formatting, sampling, log output and metrics everywhere. *)
From stdpp Require Export prelude gmap strings countable fin_maps sorting.
From Stdlib Require Export Sorting.Sorted.
From Stdlib Require Export ZArith Lia.
From Stdlib Require Strings.Byte.

Open Scope Z_scope.

(** ** Outcomes of fallible code

    [Ok] and [Err] are Rust's [Result].  [Panic] is a Rust panic: a failed
    [assert!], an [expect] on [None], an index out of range, an explicit
    [panic!].  [Diverge] is only produced by a loop modelled with fuel when the
    fuel runs out; every theorem that says what such a loop returns proves that
    it is not this value. *)

Inductive result (E A : Type) : Type :=
| Ok (a : A)
| Err (e : E)
| Panic
| Diverge.
Arguments Ok {E A} a.
Arguments Err {E A} e.
Arguments Panic {E A}.
Arguments Diverge {E A}.

#[global] Instance result_ret E : MRet (result E) := fun A a => Ok a.
#[global] Instance result_bind E : MBind (result E) := fun A B f r =>
  match r with
  | Ok a => f a
  | Err e => Err e
  | Panic => Panic
  | Diverge => Diverge
  end.
#[global] Instance result_fmap E : FMap (result E) := fun A B f r =>
  match r with
  | Ok a => Ok (f a)
  | Err e => Err e
  | Panic => Panic
  | Diverge => Diverge
  end.

Definition map_err {E F A} (f : E -> F) (r : result E A) : result F A :=
  match r with
  | Ok a => Ok a
  | Err e => Err (f e)
  | Panic => Panic
  | Diverge => Diverge
  end.

(** [Option::ok_or] and [Option::expect]. *)
Definition ok_or {E A} (o : option A) (e : E) : result E A :=
  match o with Some a => Ok a | None => Err e end.
Definition expect {E A} (o : option A) : result E A :=
  match o with Some a => Ok a | None => Panic end.
(** [assert!]. *)
Definition assert_that {E} (b : bool) : result E () :=
  if b then Ok () else Panic.
(** An early [return Err(e)] guarded by a condition. *)
Definition guard_err {E} (b : bool) (e : E) : result E () :=
  if b then Err e else Ok ().

Definition is_ok {E A} (r : result E A) : bool :=
  match r with Ok _ => true | _ => false end.

#[global] Instance result_eq_dec E A `{EqDecision E, EqDecision A} :
  EqDecision (result E A).
Proof. solve_decision. Defined.

Lemma bind_Ok E A B (r : result E A) (f : A -> result E B) b :
  r ≫= f = Ok b <-> exists a, r = Ok a /\ f a = Ok b.
Proof. destruct r; cbn; naive_solver. Qed.

Lemma fmap_Ok E A B (r : result E A) (f : A -> B) b :
  f <$> r = Ok b <-> exists a, r = Ok a /\ f a = b.
Proof. destruct r; cbn; naive_solver. Qed.

Lemma map_err_Ok E F A (f : E -> F) (r : result E A) a :
  map_err f r = Ok a <-> r = Ok a.
Proof. destruct r; cbn; naive_solver. Qed.

Lemma ok_or_Ok E A (o : option A) (e : E) a : ok_or o e = Ok a <-> o = Some a.
Proof. destruct o; cbn; naive_solver. Qed.

Lemma expect_Ok E A (o : option A) a : expect (E:=E) o = Ok a <-> o = Some a.
Proof. destruct o; cbn; naive_solver. Qed.

Lemma guard_err_Ok E b (e : E) u : guard_err b e = Ok u <-> b = false.
Proof. destruct b, u; cbn; naive_solver. Qed.

Lemma assert_that_Ok E b u : assert_that (E:=E) b = Ok u <-> b = true.
Proof. destruct b, u; cbn; naive_solver. Qed.

(** Decompose every hypothesis that says a monadic computation returned [Ok]. *)
Ltac inv_ok :=
  repeat match goal with
  | H : Ok _ = Ok _ |- _ => injection H as H; try subst
  | H : Err _ = Err _ |- _ => injection H as H; try subst
  | H : Ok _ = Err _ |- _ => discriminate H
  | H : Err _ = Ok _ |- _ => discriminate H
  | H : Panic = _ |- _ => discriminate H
  | H : Diverge = _ |- _ => discriminate H
  | H : mret _ = Ok _ |- _ => cbv [mret result_ret] in H
  | H : _ ≫= _ = Ok _ |- _ =>
      let a := fresh "a" in let H1 := fresh H in
      apply bind_Ok in H as (a & H1 & H);
      try (lazymatch type of a with
           | unit => destruct a
           | (_ * _)%type => destruct a
           end); cbn beta iota in H
  | H : _ <$> _ = Ok _ |- _ =>
      let a := fresh "a" in let H1 := fresh H in
      apply fmap_Ok in H as (a & H1 & H)
  | H : map_err _ _ = Ok _ |- _ => apply map_err_Ok in H
  | H : ok_or _ _ = Ok _ |- _ => apply ok_or_Ok in H
  | H : expect _ = Ok _ |- _ => apply expect_Ok in H
  | H : guard_err _ _ = Ok _ |- _ => apply guard_err_Ok in H
  | H : assert_that _ = Ok _ |- _ => apply assert_that_Ok in H
  end.

(** Case analysis on the scrutinee of a [match] or [if] in a hypothesis. *)
Ltac case_in H :=
  match type of H with
  | context [match ?x with _ => _ end] =>
      lazymatch x with
      | context [match _ with _ => _ end] => fail
      | _ => let E := fresh "E" in destruct x eqn:E
      end
  end.
Ltac case_goal :=
  match goal with
  | |- context [match ?x with _ => _ end] =>
      lazymatch x with
      | context [match _ with _ => _ end] => fail
      | _ => let E := fresh "E" in destruct x eqn:E
      end
  end.

(** ** Bytes *)

Abbreviation u8 := Byte.byte.

#[global] Instance u8_eq_dec : EqDecision u8 := Byte.byte_eq_dec.

Definition u8_to_Z (b : u8) : Z := Z.of_N (Byte.to_N b).
Definition u8_of_Z (z : Z) : u8 := default Byte.x00 (Byte.of_N (Z.to_N (z mod 256))).
(** Index of a byte in an array of 256 entries. *)
Definition u8_to_nat (b : u8) : nat := N.to_nat (Byte.to_N b).
Definition u8_of_nat (n : nat) : u8 := u8_of_Z (Z.of_nat n).

Lemma u8_to_Z_range b : 0 <= u8_to_Z b < 256.
Proof. unfold u8_to_Z. pose proof (Byte.to_N_bounded b). lia. Qed.

Lemma u8_of_to_Z b : u8_of_Z (u8_to_Z b) = b.
Proof.
  unfold u8_of_Z. rewrite Z.mod_small by apply u8_to_Z_range.
  unfold u8_to_Z. by rewrite N2Z.id, Byte.of_to_N.
Qed.

Lemma u8_to_of_Z z : u8_to_Z (u8_of_Z z) = z mod 256.
Proof.
  unfold u8_of_Z. pose proof (Z.mod_pos_bound z 256 ltac:(lia)) as Hb.
  destruct (Byte.of_N (Z.to_N (z mod 256))) as [b|] eqn:E; cbn.
  - apply Byte.to_of_N in E. unfold u8_to_Z. rewrite E. lia.
  - apply Byte.of_N_None_iff in E. lia.
Qed.

Lemma u8_to_nat_lt b : (u8_to_nat b < 256)%nat.
Proof. unfold u8_to_nat. pose proof (Byte.to_N_bounded b). lia. Qed.

Lemma u8_to_nat_Z b : Z.of_nat (u8_to_nat b) = u8_to_Z b.
Proof. unfold u8_to_nat, u8_to_Z. lia. Qed.

Lemma u8_of_to_nat b : u8_of_nat (u8_to_nat b) = b.
Proof. unfold u8_of_nat. by rewrite u8_to_nat_Z, u8_of_to_Z. Qed.

Lemma u8_to_of_nat n : (n < 256)%nat -> u8_to_nat (u8_of_nat n) = n.
Proof.
  intros H. apply Nat2Z.inj. rewrite u8_to_nat_Z. unfold u8_of_nat.
  rewrite u8_to_of_Z, Z.mod_small; lia.
Qed.

#[global] Instance u8_to_nat_inj : Inj (=) (=) u8_to_nat.
Proof. intros x y H. by rewrite <- (u8_of_to_nat x), H, u8_of_to_nat. Qed.

#[global] Instance u8_to_Z_inj : Inj (=) (=) u8_to_Z.
Proof. intros x y H. by rewrite <- (u8_of_to_Z x), H, u8_of_to_Z. Qed.

#[global] Instance u8_countable : Countable u8 :=
  inj_countable' u8_to_Z u8_of_Z u8_of_to_Z.

#[global] Instance u8_inhabited : Inhabited u8 := populate Byte.x00.

(** ** Machine integers: a [w]-bit unsigned integer is a [Z] in range *)

Definition in_u (w : Z) (z : Z) : Prop := 0 <= z < 2 ^ w.
Definition in_i (w : Z) (z : Z) : Prop := - 2 ^ (w - 1) <= z < 2 ^ (w - 1).
#[global] Instance in_u_dec w z : Decision (in_u w z).
Proof. unfold in_u. apply _. Defined.
#[global] Instance in_i_dec w z : Decision (in_i w z).
Proof. unfold in_i. apply _. Defined.

Definition u_max (w : Z) : Z := 2 ^ w - 1.

(** [checked_add], [checked_sub], [checked_mul], [checked_div] and the
    saturating versions. *)
Definition checked (w : Z) (z : Z) : option Z :=
  if decide (in_u w z) then Some z else None.
Definition checked_add (w a b : Z) : option Z := checked w (a + b).
Definition checked_sub (w a b : Z) : option Z := checked w (a - b).
Definition checked_mul (w a b : Z) : option Z := checked w (a * b).
Definition checked_div (w a b : Z) : option Z :=
  if Z.eqb b 0 then None else Some (a / b).
Definition saturating_add (w a b : Z) : Z := Z.min (a + b) (u_max w).
Definition saturating_sub (a b : Z) : Z := Z.max (a - b) 0.
Definition saturating_mul (w a b : Z) : Z := Z.min (a * b) (u_max w).

Lemma checked_Some w z r : checked w z = Some r <-> r = z /\ in_u w z.
Proof. unfold checked. case_decide; naive_solver. Qed.

Lemma checked_None w z : checked w z = None <-> ~ in_u w z.
Proof. unfold checked. case_decide; naive_solver. Qed.

(** Sums of integers. *)
Definition zsum (l : list Z) : Z := foldr Z.add 0 l.
Lemma zsum_app l k : zsum (l ++ k) = zsum l + zsum k.
Proof. unfold zsum. induction l as [|a l IH]; cbn; [done|]. lia. Qed.
#[global] Instance zsum_perm : Proper ((≡ₚ) ==> (=)) zsum.
Proof. unfold zsum. intros l k H. induction H; cbn; lia. Qed.
Lemma zsum_nonneg l : Forall (Z.le 0) l -> 0 <= zsum l.
Proof. unfold zsum. induction 1; cbn; lia. Qed.
Lemma zsum_elem_le (l : list Z) x : Forall (Z.le 0) l -> x ∈ l -> x <= zsum l.
Proof.
  induction 1 as [|y l Hy Hl IH]; intros Hx; [by apply elem_of_nil in Hx|]. change (zsum (y :: l)) with (y + zsum l).
  pose proof (zsum_nonneg l Hl). apply elem_of_cons in Hx as [->|Hx]; [lia|]. specialize (IH Hx). lia.
Qed.
(** A loop that adds with [checked_add] fails exactly when the total does not fit:
    the partial sums only grow. *)
Lemma checked_sum_from w a l :
  in_u w a -> Forall (in_u w) l ->
  foldl (fun total x => total ← total; checked_add w total x) (Some a) l = checked w (a + zsum l).
Proof.
  intros Ha Hl. revert a Ha. induction Hl as [|x l Hx Hl IH]; intros a Ha; cbn [foldl].
  - unfold checked. by rewrite decide_True by (cbn; by rewrite Z.add_0_r); cbn; rewrite Z.add_0_r.
  - change (zsum (x :: l)) with (x + zsum l).
    assert (0 <= zsum l) by (apply zsum_nonneg; eapply Forall_impl; [exact Hl|]; by intros ? []).
    cbn [mbind option_bind]. destruct (checked_add w a x) as [b|] eqn:E.
    + apply checked_Some in E as [-> ?]. rewrite IH by done. f_equal. lia.
    + apply checked_None in E. unfold checked. rewrite decide_False by (unfold in_u in *; lia). by clear; induction l.
Qed.


(** ** Lists *)

Lemma prefix_app_inv_len {A} (l1 l2 k1 k2 : list A) :
  length l1 = length l2 -> l1 ++ k1 = l2 ++ k2 -> l1 = l2 /\ k1 = k2.
Proof. intros ? ?. by apply app_inj_1. Qed.

(** Two prefixes of one list are comparable. *)
Lemma prefix_comparable {A} (l1 l2 l : list A) :
  l1 `prefix_of` l -> l2 `prefix_of` l -> l1 `prefix_of` l2 \/ l2 `prefix_of` l1.
Proof. intros H1 H2. by apply (prefix_weak_total l1 l2 l). Qed.

(** ** Sums over finite maps *)

Section map_sum.
Context {K : Type} `{Countable K}.
Implicit Types m : gmap K Z.

Definition map_sum m : Z := map_fold (fun _ v acc => v + acc) 0 m.

Lemma map_sum_empty : map_sum ∅ = 0.
Proof. done. Qed.

Lemma map_sum_insert_fresh m k v : m !! k = None -> map_sum (<[k := v]> m) = v + map_sum m.
Proof.
  intros Hk. unfold map_sum.
  rewrite (map_fold_insert_L (fun _ v acc => v + acc) 0 k v m); [done|lia|done].
Qed.

Lemma map_sum_delete m k v : m !! k = Some v -> map_sum m = v + map_sum (delete k m).
Proof.
  intros Hk. rewrite <- (insert_id m k v) at 1 by done. rewrite <- insert_delete_eq.
  apply map_sum_insert_fresh, lookup_delete_eq.
Qed.

Lemma map_sum_insert m k v :
  map_sum (<[k := v]> m) = map_sum m + v - default 0 (m !! k).
Proof.
  destruct (m !! k) as [v'|] eqn:E; cbn.
  - rewrite <- insert_delete_eq, map_sum_insert_fresh by apply lookup_delete_eq.
    rewrite (map_sum_delete m k v') by done. lia.
  - rewrite map_sum_insert_fresh by done. lia.
Qed.

Lemma map_sum_remove m k : map_sum (delete k m) = map_sum m - default 0 (m !! k).
Proof.
  destruct (m !! k) as [v|] eqn:E; cbn; [rewrite (map_sum_delete m k v) by done; lia|].
  rewrite delete_id by done. lia.
Qed.

Lemma map_sum_nonneg m : (forall k v, m !! k = Some v -> 0 <= v) -> 0 <= map_sum m.
Proof.
  induction m as [|k v m Hk IH] using map_ind; intros Hm; [done|].
  rewrite map_sum_insert_fresh by done. apply Z.add_nonneg_nonneg.
  - apply (Hm k). by rewrite lookup_insert_eq.
  - apply IH. intros k' v' Hk'. apply (Hm k'). rewrite lookup_insert_ne by congruence. done.
Qed.

(** The part of a map is at most the whole. *)
Lemma map_sum_lookup_le m k v :
  (forall k v, m !! k = Some v -> 0 <= v) -> m !! k = Some v -> v <= map_sum m.
Proof.
  intros Hm Hk. rewrite (map_sum_delete m k v) by done.
  assert (0 <= map_sum (delete k m)); [|lia]. apply map_sum_nonneg.
  intros k' v' [_ Hk']%lookup_delete_Some. eauto.
Qed.

(** The sum over a list of entries with distinct keys. *)
Lemma map_sum_list (l : list (K * Z)) :
  NoDup l.*1 -> map_sum (list_to_map l) = foldr Z.add 0 l.*2.
Proof.
  induction l as [|[k v] l IH]; cbn; [done|]. intros [Hk Hl]%NoDup_cons.
  rewrite map_sum_insert_fresh by (by apply not_elem_of_list_to_map). by rewrite IH.
Qed.

Lemma map_sum_to_list m : map_sum m = foldr Z.add 0 (map_to_list m).*2.
Proof.
  rewrite <- (list_to_map_to_list m) at 1. apply map_sum_list, NoDup_fst_map_to_list.
Qed.

Lemma map_sum_union (m1 m2 : gmap K Z) : m1 ##ₘ m2 -> map_sum (m1 ∪ m2) = map_sum m1 + map_sum m2.
Proof.
  revert m2. induction m1 as [|k v m1 Hk IH] using map_ind; intros m2 Hd.
  - by rewrite (left_id_L ∅ (∪)).
  - apply map_disjoint_insert_l in Hd as [Hk2 Hd]. rewrite <- insert_union_l.
    rewrite !map_sum_insert_fresh by (done || by apply lookup_union_None). rewrite IH by done. lia.
Qed.

Lemma map_sum_subseteq (m1 m2 : gmap K Z) :
  (forall k v, m2 !! k = Some v -> 0 <= v) -> m1 ⊆ m2 -> map_sum m1 <= map_sum m2.
Proof.
  intros Hm Hs. rewrite <- (map_difference_union m1 m2) by done.
  rewrite map_sum_union by (by apply map_disjoint_difference_r1).
  assert (0 <= map_sum (m2 ∖ m1)); [|lia]. apply map_sum_nonneg.
  intros k v [Hk _]%lookup_difference_Some. eauto.
Qed.

(** The sum of the values that a list of distinct keys picks. *)
Lemma map_sum_omap m (ks : list K) :
  NoDup ks -> foldr Z.add 0 (omap (m !!.) ks) = map_sum (filter (fun kv => kv.1 ∈ ks) m).
Proof.
  induction ks as [|x ks IH]; intros Hn.
  - cbn. replace (filter _ m) with (∅ : gmap K Z); [done|]. symmetry. apply map_empty. intros k.
    apply map_lookup_filter_None. right. intros v _. apply not_elem_of_nil.
  - apply NoDup_cons in Hn as [Hx Hn]. specialize (IH Hn).
    assert (forall v, m !! x = Some v ->
      filter (fun kv => kv.1 ∈ x :: ks) m = <[x := v]> (filter (fun kv => kv.1 ∈ ks) m)) as Hv.
    { intros v Hv. apply map_eq. intros k. apply option_eq. intros w.
      rewrite map_lookup_filter_Some. cbn. destruct (decide (k = x)) as [->|Hne].
      - rewrite lookup_insert_eq, elem_of_cons. rewrite Hv. naive_solver.
      - rewrite lookup_insert_ne, map_lookup_filter_Some, elem_of_cons by done. cbn. naive_solver. }
    cbn [omap list_omap]. destruct (m !! x) as [v|] eqn:E.
    + cbn [foldr]. rewrite (Hv v), map_sum_insert_fresh, IH; [done| |done].
      apply map_lookup_filter_None. right. intros w _. done.
    + rewrite IH. f_equal. apply map_filter_ext. intros k v Hk. cbn. rewrite elem_of_cons.
      split; [by right|]. intros [->|]; [congruence|done].
Qed.
End map_sum.

Lemma Sorted_impl {A} (R S : A -> A -> Prop) l : (forall a b, R a b -> S a b) -> Sorted R l -> Sorted S l.
Proof. intros HRS. induction 1 as [|a l Hl IH Hd]; constructor; [done|]. destruct Hd; constructor. auto. Qed.
