(* ===== verification/Effects.v ===== *)
(** * Fallible code on a mutable state

    Methods that take [&mut self] and return a [Result]: the state that is left
    behind is part of the outcome, also when an error is returned. *)
From S2P Require Import Prelude.

Definition st (S E A : Type) : Type := S -> result E A * S.

#[global] Instance st_ret S E : MRet (st S E) := fun A a s => (Ok a, s).
#[global] Instance st_bind S E : MBind (st S E) := fun A B f m s =>
  match m s with
  | (Ok a, s) => f a s
  | (Err e, s) => (Err e, s)
  | (Panic, s) => (Panic, s)
  | (Diverge, s) => (Diverge, s)
  end.

(** A computation without effects, reading and updating the state, an early return. *)
Definition lift {S E A} (r : result E A) : st S E A := fun s => (r, s).
Definition asks {S E A} (f : S -> A) : st S E A := fun s => (Ok (f s), s).
Definition modify {S E} (f : S -> S) : st S E () := fun s => (Ok (), f s).
Definition throw {S E A} (e : E) : st S E A := fun s => (Err e, s).
Definition st_map_err {S E F A} (f : E -> F) (m : st S E A) : st S F A := fun s => let '(r, s) := m s in (map_err f r, s).
(** [return Err(e)] under a condition. *)
Definition fail_if {S E} (b : bool) (e : E) : st S E () := lift (guard_err b e).

Lemma st_bind_eq {S E A B} (m : st S E A) (f : A -> st S E B) s a s' :
  m s = (Ok a, s') -> (m ≫= f) s = f a s'.
Proof. intros H. unfold mbind, st_bind. by rewrite H. Qed.
Lemma st_bind_Err {S E A B} (m : st S E A) (f : A -> st S E B) s e s' :
  m s = (Err e, s') -> (m ≫= f) s = (Err e, s').
Proof. intros H. unfold mbind, st_bind. by rewrite H. Qed.

(** What holds of the outcome and of the state left behind. *)
Definition yields {S E A} (m : st S E A) (s : S) (Q : result E A -> S -> Prop) : Prop := Q (m s).1 (m s).2.
Lemma yields_bind {S E A B} (m : st S E A) (f : A -> st S E B) s Q :
  yields m s (fun r s' => match r with Ok a => yields (f a) s' Q | Err e => Q (Err e) s' | Panic => Q Panic s' | Diverge => Q Diverge s' end) ->
  yields (m ≫= f) s Q.
Proof. unfold yields, mbind, st_bind. by destruct (m s) as [[] ?]. Qed.
Lemma yields_impl {S E A} (m : st S E A) s (P Q : result E A -> S -> Prop) :
  yields m s P -> (forall r s', P r s' -> Q r s') -> yields m s Q.
Proof. unfold yields. auto. Qed.
Lemma yields_eq {S E A} (m : st S E A) s r s' (Q : result E A -> S -> Prop) : m s = (r, s') -> Q r s' -> yields m s Q.
Proof. unfold yields. by intros ->. Qed.

(** Steps of a method *)
Section steps.
Context {S E : Type}.
Implicit Types s : S.

Lemma yields_ret {A} (a : A) s (Q : result E A -> S -> Prop) : Q (Ok a) s -> yields (mret a) s Q.
Proof. done. Qed.
Lemma yields_throw {A} (e : E) s (Q : result E A -> S -> Prop) : Q (Err e) s -> yields (throw e) s Q.
Proof. done. Qed.
Lemma yields_lift {A} (r : result E A) s (Q : result E A -> S -> Prop) : Q r s -> yields (lift r) s Q.
Proof. done. Qed.
Lemma yields_asks {A B} (f : S -> A) (k : A -> st S E B) s Q : yields (k (f s)) s Q -> yields (asks f ≫= k) s Q.
Proof. done. Qed.
Lemma yields_modify {A} (f : S -> S) (k : () -> st S E A) s Q : yields (k ()) (f s) Q -> yields (modify f ≫= k) s Q.
Proof. done. Qed.
Lemma yields_fail_if {A} (b : bool) (e : E) (k : () -> st S E A) s Q :
  (b = true -> Q (Err e) s) -> (b = false -> yields (k ()) s Q) -> yields (fail_if b e ≫= k) s Q.
Proof. destruct b; [intros H _; exact (H eq_refl)|intros _ H; exact (H eq_refl)]. Qed.
Lemma yields_ok_or {A B} (o : option A) (e : E) (k : A -> st S E B) s (Q : result E B -> S -> Prop) :
  match o with Some a => yields (k a) s Q | None => Q (Err e) s end -> yields (lift (ok_or o e) ≫= k) s Q.
Proof. by destruct o. Qed.
(** A call whose outcome is known. *)
Lemma yields_call {A B} (m : st S E A) (k : A -> st S E B) s (P : result E A -> S -> Prop) Q :
  yields m s P ->
  (forall r s', P r s' -> match r with Ok a => yields (k a) s' Q | Err e => Q (Err e) s' | Panic => Q Panic s' | Diverge => Q Diverge s' end) ->
  yields (m ≫= k) s Q.
Proof. intros Hm Hk. apply yields_bind. by eapply yields_impl. Qed.
End steps.
