(* ===== verification/BTree.v ===== *)
(** * Ordered maps and sets

    Rust's [BTreeMap] and [BTreeSet], as the standard library documents them: the
    entries in strictly increasing key order, which is the order of iteration. *)
From S2P Require Import Prelude.

Open Scope Z_scope.

(** A total order given by its strict comparison ([Ord]). *)
Class TotalOrd (K : Type) : Type := ord_ltb : K -> K -> bool.
#[global] Hint Mode TotalOrd ! : typeclass_instances.

Class TotalOrdLaws (K : Type) `{TotalOrd K} : Prop := {
  ord_irrefl : forall a : K, ord_ltb a a = false;
  ord_trans : forall a b c : K, ord_ltb a b = true -> ord_ltb b c = true -> ord_ltb a c = true;
  ord_total : forall a b : K, ord_ltb a b = false -> ord_ltb b a = false -> a = b
}.

#[global] Instance Z_ord : TotalOrd Z := Z.ltb.
#[global] Instance Z_ord_laws : TotalOrdLaws Z.
Proof. split; unfold ord_ltb, Z_ord; lia. Qed.

#[global] Instance u8_ord : TotalOrd u8 := fun a b => u8_to_Z a <? u8_to_Z b.
#[global] Instance u8_ord_laws : TotalOrdLaws u8.
Proof.
  split; unfold ord_ltb, u8_ord; intros; try lia. apply (inj u8_to_Z). lia.
Qed.

(** Lexicographic order on lists (byte strings, arrays of bytes). *)
Fixpoint list_ltb {A} `{TotalOrd A} (l k : list A) : bool :=
  match l, k with
  | _, [] => false
  | [], _ :: _ => true
  | a :: l, b :: k => ord_ltb a b || (negb (ord_ltb b a) && list_ltb l k)
  end.
#[global] Instance list_ord {A} `{TotalOrd A} : TotalOrd (list A) := list_ltb.

Section ord.
Context {K : Type} `{TotalOrdLaws K}.

Lemma ord_asym (a b : K) : ord_ltb a b = true -> ord_ltb b a = false.
Proof.
  intros H1. destruct (ord_ltb b a) eqn:E; [|done].
  pose proof (ord_trans _ _ _ H1 E). by rewrite ord_irrefl in *.
Qed.

#[global] Instance list_ord_laws : TotalOrdLaws (list K).
Proof.
  split; unfold ord_ltb, list_ord.
  - induction a as [|a l IH]; cbn; [done|]. by rewrite ord_irrefl, IH.
  - induction a as [|a l IH]; intros [|b m] [|c n]; cbn; try done.
    rewrite !orb_true_iff, !andb_true_iff, !negb_true_iff.
    intros [?|[Hba ?]] [?|[Hcb ?]].
    + left. eauto using ord_trans.
    + left. destruct (ord_ltb b c) eqn:E; [eauto using ord_trans|].
      by rewrite <- (ord_total b c E Hcb).
    + left. destruct (ord_ltb a b) eqn:E; [eauto using ord_trans|].
      by rewrite (ord_total a b E Hba).
    + destruct (ord_ltb a b) eqn:E1; destruct (ord_ltb b c) eqn:E2.
      * left. eauto using ord_trans.
      * left. by rewrite <- (ord_total b c E2 Hcb).
      * left. by rewrite (ord_total a b E1 Hba).
      * right. rewrite (ord_total a b E1 Hba), (ord_total b c E2 Hcb).
        split; [apply ord_irrefl|]. by eapply IH.
  - induction a as [|a l IH]; intros [|b m]; cbn; try done.
    rewrite !orb_false_iff, !andb_false_iff, !negb_false_iff.
    intros [H1 [?|H2]] [H3 [?|H4]]; try congruence.
    f_equal; [by apply ord_total|auto].
Qed.
End ord.

(** The orders of the other standard types: [false < true], [None < Some _],
    [Ok _ < Err _], pairs lexicographically, and a type ordered by a key. *)
#[global] Instance unit_ord : TotalOrd () := fun _ _ => false.
#[global] Instance unit_ord_laws : TotalOrdLaws ().
Proof. split; try done. by intros [] []. Qed.

#[global] Instance bool_ord : TotalOrd bool := fun a b => negb a && b.
#[global] Instance bool_ord_laws : TotalOrdLaws bool.
Proof. split; unfold ord_ltb, bool_ord; [intros []|intros [] [] []|intros [] []]; done. Qed.

#[global] Instance option_ord {A} `{TotalOrd A} : TotalOrd (option A) := fun a b =>
  match a, b with
  | None, Some _ => true
  | Some a, Some b => ord_ltb a b
  | _, None => false
  end.
#[global] Instance option_ord_laws {A} `{TotalOrdLaws A} : TotalOrdLaws (option A).
Proof.
  split; unfold ord_ltb, option_ord.
  - intros [a|]; [apply ord_irrefl|done].
  - intros [a|] [b|] [c|]; try done. apply ord_trans.
  - intros [a|] [b|]; try done. intros. f_equal. by apply ord_total.
Qed.

#[global] Instance sum_ord {A B} `{TotalOrd A, TotalOrd B} : TotalOrd (A + B) := fun a b =>
  match a, b with
  | inl a, inl b => ord_ltb a b
  | inl _, inr _ => true
  | inr _, inl _ => false
  | inr a, inr b => ord_ltb a b
  end.
#[global] Instance sum_ord_laws {A B} `{TotalOrdLaws A, TotalOrdLaws B} : TotalOrdLaws (A + B).
Proof.
  split; unfold ord_ltb, sum_ord.
  - intros [a|a]; apply ord_irrefl.
  - intros [a|a] [b|b] [c|c]; try done; apply ord_trans.
  - intros [a|a] [b|b]; try done; intros; f_equal; by apply ord_total.
Qed.

#[global] Instance prod_ord {A B} `{TotalOrd A, TotalOrd B} : TotalOrd (A * B) := fun p q =>
  ord_ltb p.1 q.1 || (negb (ord_ltb q.1 p.1) && ord_ltb p.2 q.2).
Lemma prod_ltb {A B} `{TotalOrd A, TotalOrd B} (p q : A * B) :
  ord_ltb p q = ord_ltb p.1 q.1 || (negb (ord_ltb q.1 p.1) && ord_ltb p.2 q.2).
Proof. done. Qed.
#[global] Instance prod_ord_laws {A B} `{TotalOrdLaws A, TotalOrdLaws B} : TotalOrdLaws (A * B).
Proof.
  split.
  - intros [a b]. rewrite prod_ltb. cbn [fst snd]. by rewrite !ord_irrefl.
  - intros [a x] [b y] [c z]. rewrite !prod_ltb. cbn [fst snd].
    rewrite !orb_true_iff, !andb_true_iff, !negb_true_iff.
    intros [?|[Hba ?]] [?|[Hcb ?]].
    + left. eauto using ord_trans.
    + left. destruct (ord_ltb b c) eqn:E; [eauto using ord_trans|].
      by rewrite <- (ord_total b c E Hcb).
    + left. destruct (ord_ltb a b) eqn:E; [eauto using ord_trans|].
      by rewrite (ord_total a b E Hba).
    + destruct (ord_ltb a b) eqn:E1; [left|].
      * destruct (ord_ltb b c) eqn:E2; [eauto using ord_trans|].
        by rewrite <- (ord_total b c E2 Hcb).
      * rewrite (ord_total a b E1 Hba). destruct (ord_ltb b c) eqn:E2; [by left|right].
        split; [done|]. eauto using ord_trans.
  - intros [a x] [b y]. rewrite !prod_ltb. cbn [fst snd].
    rewrite !orb_false_iff, !andb_false_iff, !negb_false_iff.
    intros [H1' [?|H2']] [H3' [?|H4']]; try congruence.
    f_equal; by apply ord_total.
Qed.

Definition ord_by {A B} `{TotalOrd B} (f : A -> B) : TotalOrd A := fun a b => ord_ltb (f a) (f b).
Lemma ord_by_laws {A B} `{TotalOrdLaws B} (f : A -> B) :
  Inj (=) (=) f -> @TotalOrdLaws A (ord_by f).
Proof.
  intros Hf. split.
  - intros a. exact (ord_irrefl (f a)).
  - intros a b c. exact (ord_trans (f a) (f b) (f c)).
  - intros a b H1 H2. apply Hf. exact (ord_total (f a) (f b) H1 H2).
Qed.

(** ** [BTreeMap] *)

Section btree_map.
Context {K V : Type} `{TotalOrd K}.

(** [BTreeMap::insert]: the value of an existing key is replaced. *)
Fixpoint btree_insert (k : K) (v : V) (m : list (K * V)) : list (K * V) :=
  match m with
  | [] => [(k, v)]
  | (k', v') :: rest =>
      if ord_ltb k k' then (k, v) :: m
      else if ord_ltb k' k then (k', v') :: btree_insert k v rest
      else (k, v) :: rest
  end.

(** [BTreeMap::get]. *)
Fixpoint btree_get (k : K) (m : list (K * V)) : option V :=
  match m with
  | [] => None
  | (k', v') :: rest =>
      if ord_ltb k k' then None
      else if ord_ltb k' k then btree_get k rest
      else Some v'
  end.

(** [BTreeMap::remove]. *)
Fixpoint btree_remove (k : K) (m : list (K * V)) : list (K * V) :=
  match m with
  | [] => []
  | (k', v') :: rest =>
      if ord_ltb k k' then m
      else if ord_ltb k' k then (k', v') :: btree_remove k rest
      else rest
  end.

(** Keys strictly increasing. *)
Definition key_lt (a b : K * V) : Prop := ord_ltb a.1 b.1 = true.
Definition btree_sorted (m : list (K * V)) : Prop := StronglySorted key_lt m.
End btree_map.

Section btree_laws.
Context {K V : Type} `{TotalOrdLaws K}.
Implicit Types m : list (K * V).

Lemma btree_insert_Forall k v m k0 :
  ord_ltb k0 k = true -> Forall (fun p => ord_ltb k0 p.1 = true) m ->
  Forall (fun p : K * V => ord_ltb k0 p.1 = true) (btree_insert k v m).
Proof.
  intros Hk. induction 1 as [|[k' v'] m Hk' Hm IH]; cbn; [by repeat constructor|].
  destruct (ord_ltb k k'); [by repeat constructor|].
  destruct (ord_ltb k' k); by repeat constructor.
Qed.

(** Insertion keeps the keys strictly increasing. *)
Lemma btree_insert_sorted k v m : btree_sorted m -> btree_sorted (btree_insert k v m).
Proof.
  unfold btree_sorted.
  induction 1 as [|[k' v'] m Hs IH Hf]; cbn; [by repeat constructor|].
  destruct (ord_ltb k k') eqn:E1.
  - constructor; [by constructor|]. constructor; [done|].
    eapply Forall_impl; [exact Hf|]. unfold key_lt; cbn. intros p ?.
    by eapply ord_trans.
  - destruct (ord_ltb k' k) eqn:E2.
    + constructor; [done|]. by apply btree_insert_Forall.
    + constructor; [done|]. rewrite (ord_total k k' E1 E2). exact Hf.
Qed.

(** Appending a key above all others is inserting it. *)
Lemma btree_insert_last k v m :
  Forall (fun p => ord_ltb p.1 k = true) m -> btree_insert k v m = m ++ [(k, v)].
Proof.
  induction 1 as [|[k' v'] m Hk _ IH]; cbn; [done|]. cbn in Hk.
  by rewrite (ord_asym _ _ Hk), Hk, IH.
Qed.

Lemma btree_sorted_app m1 m2 :
  btree_sorted (m1 ++ m2) ->
  btree_sorted m1 /\ btree_sorted m2 /\
  Forall (fun p => Forall (key_lt p) m2) m1.
Proof.
  unfold btree_sorted. induction m1 as [|a m1 IH]; cbn; [by repeat constructor|].
  intros [Hs Hf]%StronglySorted_inv. apply Forall_app in Hf as [Hf1 Hf2].
  destruct (IH Hs) as (? & ? & ?). split_and!; [by constructor|done|by constructor].
Qed.

Lemma btree_get_insert_eq k v m : btree_get k (btree_insert k v m) = Some v.
Proof.
  induction m as [|[k' v'] m IH]; cbn; [by rewrite ord_irrefl|].
  destruct (ord_ltb k k') eqn:E1; cbn; [by rewrite ord_irrefl|].
  destruct (ord_ltb k' k) eqn:E2; cbn; [by rewrite E1, E2|by rewrite ord_irrefl].
Qed.

(** The keys above [k] are not touched when [k] is looked up. *)
Lemma btree_get_above k m :
  Forall (fun p => ord_ltb k p.1 = true) m -> btree_get k m = None.
Proof. destruct 1 as [|[k' v'] m Hk _]; cbn in *; [done|by rewrite Hk]. Qed.

Lemma btree_get_insert_ne k k0 v m :
  btree_sorted m -> k <> k0 -> btree_get k (btree_insert k0 v m) = btree_get k m.
Proof.
  unfold btree_sorted.
  intros Hs Hne. induction Hs as [|[k' v'] m Hs IH Hf]; cbn.
  - destruct (ord_ltb k k0) eqn:E1, (ord_ltb k0 k) eqn:E2; try done.
    destruct Hne. by apply ord_total.
  - destruct (ord_ltb k0 k') eqn:E1; cbn.
    + destruct (ord_ltb k k0) eqn:E2, (ord_ltb k0 k) eqn:E3; try done.
      * by rewrite (ord_trans _ _ _ E2 E1).
      * by rewrite (ord_trans _ _ _ E2 E1).
      * destruct Hne. by apply ord_total.
    + destruct (ord_ltb k' k0) eqn:E2; cbn; [by rewrite IH|].
      pose proof (ord_total _ _ E1 E2) as ->.
      destruct (ord_ltb k k') eqn:E3, (ord_ltb k' k) eqn:E4; try done.
      destruct Hne. by apply ord_total.
Qed.

Lemma btree_get_remove_eq k m : btree_sorted m -> btree_get k (btree_remove k m) = None.
Proof.
  unfold btree_sorted. induction 1 as [|[k' v'] m Hs IH Hf]; cbn; [done|].
  destruct (ord_ltb k k') eqn:E1; cbn; [by rewrite E1|].
  destruct (ord_ltb k' k) eqn:E2; cbn; [by rewrite E1, E2|].
  apply btree_get_above. by rewrite (ord_total _ _ E1 E2).
Qed.

Lemma btree_get_remove_ne k k0 m :
  btree_sorted m -> k <> k0 -> btree_get k (btree_remove k0 m) = btree_get k m.
Proof.
  unfold btree_sorted. intros Hs Hne. induction Hs as [|[k' v'] m Hs IH Hf]; cbn; [done|].
  destruct (ord_ltb k0 k') eqn:E1; cbn; [done|].
  destruct (ord_ltb k' k0) eqn:E2; cbn; [by rewrite IH|].
  pose proof (ord_total _ _ E1 E2) as ->.
  destruct (ord_ltb k k') eqn:E3; [|destruct (ord_ltb k' k) eqn:E4; [done|]].
  - apply btree_get_above. eapply Forall_impl; [exact Hf|].
    unfold key_lt. intros p ?. by eapply ord_trans.
  - destruct Hne. by apply ord_total.
Qed.

Lemma btree_remove_sorted k m : btree_sorted m -> btree_sorted (btree_remove k m).
Proof.
  unfold btree_sorted. induction 1 as [|[k' v'] m Hs IH Hf]; cbn; [constructor|].
  destruct (ord_ltb k k'); [by constructor|].
  destruct (ord_ltb k' k); [|done]. constructor; [done|].
  clear -Hf. induction Hf as [|[k1 v1] m H1 H2 IH]; cbn; [constructor|].
  destruct (ord_ltb k k1); [by constructor|].
  destruct (ord_ltb k1 k); [by constructor|done].
Qed.

Lemma btree_get_elem k v m : btree_sorted m -> btree_get k m = Some v <-> (k, v) ∈ m.
Proof.
  unfold btree_sorted. induction 1 as [|[k' v'] m Hs IH Hf]; cbn.
  - split; [done|]. by intros ?%not_elem_of_nil.
  - rewrite elem_of_cons. destruct (ord_ltb k k') eqn:E1.
    + split; [done|]. intros [[= -> ->]|Hin]; [by rewrite ord_irrefl in E1|].
      rewrite Forall_forall in Hf. specialize (Hf _ Hin). unfold key_lt in Hf. cbn in Hf.
      by rewrite (ord_asym _ _ E1) in Hf.
    + destruct (ord_ltb k' k) eqn:E2.
      * rewrite IH. split; [auto|]. intros [[= -> ->]|]; [by rewrite ord_irrefl in E2|done].
      * pose proof (ord_total _ _ E1 E2) as ->. split; [intros [= ->]; auto|].
        intros [[= ->]|Hin]; [done|]. rewrite Forall_forall in Hf. specialize (Hf _ Hin).
        unfold key_lt in Hf. cbn in Hf. by rewrite ord_irrefl in Hf.
Qed.

Lemma btree_filter_sorted (P : K * V -> Prop) `{forall x, Decision (P x)} m :
  btree_sorted m -> btree_sorted (filter P m).
Proof.
  unfold btree_sorted. induction 1 as [|p m Hs IH Hf]; [constructor|]. rewrite filter_cons. case_decide; [|done].
  constructor; [done|]. rewrite Forall_forall in Hf |- *. intros q [_ Hq]%list_elem_of_filter. auto.
Qed.

(** The entry with the greatest key. *)
Lemma btree_last m p :
  btree_sorted m -> last m = Some p <-> p ∈ m /\ forall q, q ∈ m -> ord_ltb p.1 q.1 = false.
Proof.
  intros Hs. destruct m as [|q m _] using rev_ind.
  - split; [done|]. by intros [?%not_elem_of_nil _].
  - rewrite last_snoc. apply btree_sorted_app in Hs as (_ & _ & Hf). rewrite Forall_forall in Hf.
    assert (forall x, x ∈ m -> ord_ltb x.1 q.1 = true) as Hq.
    { intros x Hx. specialize (Hf x Hx). by apply Forall_cons in Hf as [? _]. }
    split.
    + intros [= <-]. split; [set_solver|]. intros x [Hx| ->%list_elem_of_singleton]%elem_of_app.
      * by apply ord_asym, Hq.
      * apply ord_irrefl.
    + intros [[Hp| ->%list_elem_of_singleton]%elem_of_app Hmax]; [|done].
      specialize (Hmax q). rewrite (Hq p Hp) in Hmax. discriminate Hmax. set_solver.
Qed.

Lemma btree_keys_nodup m : btree_sorted m -> NoDup m.*1.
Proof.
  unfold btree_sorted. induction 1 as [|[k v] m Hs IH Hf]; cbn; [constructor|].
  constructor; [|done]. rewrite list_elem_of_fmap. intros ([k' v'] & E & Hin). cbn in E. subst k'.
  rewrite Forall_forall in Hf. specialize (Hf _ Hin). unfold key_lt in Hf. cbn in Hf.
  by rewrite ord_irrefl in Hf.
Qed.
End btree_laws.

(** The finite map of a [BTreeMap]. *)
Section btree_gmap.
Context {K V : Type} `{TotalOrdLaws K} `{Countable K}.
Implicit Types m : list (K * V).
Abbreviation gm m := (list_to_map m : gmap K V).

Lemma btree_get_gmap k m : btree_sorted m -> btree_get k m = gm m !! k.
Proof.
  unfold btree_sorted. induction 1 as [|[k' v'] m Hs IH Hf]; cbn; [done|].
  destruct (ord_ltb k k') eqn:E1.
  - symmetry. rewrite lookup_insert_ne.
    + rewrite <- IH. apply btree_get_above. eapply Forall_impl; [exact Hf|].
      intros p ?. by eapply ord_trans.
    + intros ->. by rewrite ord_irrefl in E1.
  - destruct (ord_ltb k' k) eqn:E2.
    + rewrite lookup_insert_ne; [done|]. intros ->. by rewrite ord_irrefl in E2.
    + rewrite (ord_total _ _ E1 E2). by rewrite lookup_insert_eq.
Qed.

Lemma btree_insert_gmap k v m : btree_sorted m -> gm (btree_insert k v m) = <[k := v]> (gm m).
Proof.
  intros Hs. apply map_eq. intros k'.
  rewrite <- btree_get_gmap by (by apply btree_insert_sorted).
  destruct (decide (k' = k)) as [->|].
  - by rewrite lookup_insert_eq, btree_get_insert_eq.
  - by rewrite lookup_insert_ne, btree_get_insert_ne, btree_get_gmap.
Qed.

Lemma btree_remove_gmap k m : btree_sorted m -> gm (btree_remove k m) = delete k (gm m).
Proof.
  intros Hs. apply map_eq. intros k'.
  rewrite <- btree_get_gmap by (by apply btree_remove_sorted).
  destruct (decide (k' = k)) as [->|].
  - by rewrite lookup_delete_eq, btree_get_remove_eq.
  - by rewrite lookup_delete_ne, btree_get_remove_ne, btree_get_gmap.
Qed.
End btree_gmap.

(** ** [BTreeSet]: a [BTreeMap] with unit values *)

Definition btree_set_insert {K} `{TotalOrd K} (k : K) (s : list K) : list K :=
  (btree_insert k () ((fun x => (x, ())) <$> s)).*1.
Definition btree_set_sorted {K} `{TotalOrd K} (s : list K) : Prop :=
  StronglySorted (fun a b => ord_ltb a b = true) s.
Definition btree_set_remove {K} `{TotalOrd K} (k : K) (s : list K) : list K :=
  (btree_remove k ((fun x => (x, ())) <$> s)).*1.
Definition btree_set_contains {K} `{TotalOrd K} (k : K) (s : list K) : bool :=
  match btree_get k ((fun x => (x, ())) <$> s) with Some _ => true | None => false end.
(** [extend], [collect] *)
Definition btree_set_extend {K} `{TotalOrd K} (s ks : list K) : list K :=
  foldl (fun s k => btree_set_insert k s) s ks.

Section btree_set_laws.
Context {K : Type} `{TotalOrdLaws K}.
Implicit Types s : list K.
Abbreviation as_map s := ((fun x : K => (x, ())) <$> s).

Lemma as_map_keys s : (as_map s).*1 = s.
Proof. induction s as [|k s IH]; cbn; [done|by rewrite IH]. Qed.
Lemma as_map_of (m : list (K * ())) : as_map m.*1 = m.
Proof. induction m as [|[k []] m IH]; cbn; [done|by rewrite IH]. Qed.
Lemma as_map_sorted s : btree_set_sorted s <-> btree_sorted (as_map s).
Proof.
  unfold btree_set_sorted, btree_sorted. split.
  - induction 1 as [|k s Hs IH Hf]; cbn; constructor; [done|].
    apply Forall_fmap. eapply Forall_impl; [exact Hf|]. by intros x Hx.
  - induction s as [|k s IH]; cbn; [constructor|]. intros [Hs Hf]%StronglySorted_inv. constructor; [auto|].
    rewrite Forall_fmap in Hf. eapply Forall_impl; [exact Hf|]. by intros x Hx.
Qed.

Lemma btree_set_contains_elem k s : btree_set_sorted s -> btree_set_contains k s = true <-> k ∈ s.
Proof.
  unfold btree_set_contains, btree_set_sorted. induction 1 as [|k' s Hs IH Hf]; cbn.
  - split; [done|]. by intros ?%not_elem_of_nil.
  - rewrite elem_of_cons. destruct (ord_ltb k k') eqn:E1.
    + split; [done|]. intros [->|Hin]; [by rewrite ord_irrefl in E1|].
      rewrite Forall_forall in Hf. specialize (Hf _ Hin). cbn in Hf.
      by rewrite (ord_asym _ _ E1) in Hf.
    + destruct (ord_ltb k' k) eqn:E2.
      * rewrite IH. split; [auto|]. intros [->|]; [by rewrite ord_irrefl in E2|done].
      * split; [|done]. intros _. left. by apply ord_total.
Qed.

Lemma btree_set_insert_spec k s k0 :
  btree_set_sorted s ->
  btree_set_sorted (btree_set_insert k s) /\ (k0 ∈ btree_set_insert k s <-> k0 = k \/ k0 ∈ s).
Proof.
  intros Hs. assert (btree_set_sorted (btree_set_insert k s)) as Hi.
  { unfold btree_set_insert. apply as_map_sorted. rewrite as_map_of. by apply btree_insert_sorted, as_map_sorted. }
  split; [done|]. rewrite <- !btree_set_contains_elem by done. unfold btree_set_contains, btree_set_insert.
  rewrite as_map_of. split.
  - intros E. destruct (ord_ltb k0 k) eqn:E1; [|destruct (ord_ltb k k0) eqn:E2]; [..|left; by apply ord_total];
      right; (rewrite btree_get_insert_ne in E; [done|by apply as_map_sorted|]); intros ->; by rewrite ord_irrefl in *.
  - intros [->|E]; [by rewrite btree_get_insert_eq|].
    destruct (ord_ltb k0 k) eqn:E1; [|destruct (ord_ltb k k0) eqn:E2];
      [rewrite btree_get_insert_ne; [done|by apply as_map_sorted|]; intros ->; by rewrite ord_irrefl in *..|].
    rewrite (ord_total _ _ E1 E2). by rewrite btree_get_insert_eq.
Qed.

Lemma btree_set_remove_spec k s k0 :
  btree_set_sorted s ->
  btree_set_sorted (btree_set_remove k s) /\ (k0 ∈ btree_set_remove k s <-> k0 <> k /\ k0 ∈ s).
Proof.
  intros Hs. assert (btree_set_sorted (btree_set_remove k s)) as Hi.
  { unfold btree_set_remove. apply as_map_sorted. rewrite as_map_of. by apply btree_remove_sorted, as_map_sorted. }
  split; [done|]. rewrite <- !btree_set_contains_elem by done. unfold btree_set_contains, btree_set_remove.
  rewrite as_map_of. split.
  - intros E. assert (k0 <> k) as Hne.
    { intros ->. by rewrite btree_get_remove_eq in E by (by apply as_map_sorted). }
    split; [done|]. by rewrite btree_get_remove_ne in E by (done || by apply as_map_sorted).
  - intros [Hne E]. by rewrite btree_get_remove_ne by (done || by apply as_map_sorted).
Qed.
End btree_set_laws.

(** A [BTreeMap] built from an iterator: by [collect] or by [insert] in a loop. *)
Definition btree_collect {K V} `{TotalOrd K} (l : list (K * V)) : list (K * V) :=
  foldl (fun m p => btree_insert p.1 p.2 m) [] l.

Section collect.
Context {K V : Type} `{TotalOrdLaws K}.

Lemma btree_collect_sorted (l : list (K * V)) : btree_sorted l -> btree_collect l = l.
Proof.
  unfold btree_collect. intros Hl. change l with ([] ++ l) in Hl |- * at 2.
  generalize dependent (@nil (K * V)). induction l as [|[k v] l IH]; intros acc Hl; cbn [foldl]; [by rewrite app_nil_r|].
  pose proof (btree_sorted_app _ _ Hl) as (_ & _ & Hlt).
  rewrite btree_insert_last by (eapply Forall_impl; [exact Hlt|]; intros p Hp; by inversion_clear Hp).
  change ((k, v) :: l) with ([(k, v)] ++ l) in Hl |- *. rewrite (assoc_L (++)) in Hl |- *. by apply IH.
Qed.

(** Sortedness only depends on the order of the keys. *)
Lemma btree_sorted_map {K' V'} `{TotalOrd K'} (f : K -> K') (g : K * V -> V') (l : list (K * V)) :
  (forall a b, ord_ltb a b = true -> ord_ltb (f a) (f b) = true) ->
  btree_sorted l -> btree_sorted ((fun p => (f p.1, g p)) <$> l).
Proof.
  unfold btree_sorted. intros Hf. induction 1 as [|p l Hl IH Hp]; cbn; constructor; [done|].
  apply Forall_fmap. eapply Forall_impl; [exact Hp|]. intros q Hq. by apply Hf.
Qed.
End collect.
