(* ===== verification/Bytesrepr.v ===== *)
(** * Bytesrepr: the node's serialization format

    Models [types/src/bytesrepr.rs] and [types/src/bytesrepr/bytes.rs]: the
    traits [ToBytes] and [FromBytes] as the operations of one class, an instance
    per Rust implementation, and the laws every implementation has to satisfy
    (the ones [test_serialization_roundtrip] asserts, and totality) as a second
    class that each instance discharges. *)
From S2P Require Import Prelude BTree.
From stdpp Require Export vector.

Open Scope Z_scope.

(** ** Errors *)

Inductive Error : Type :=
| EarlyEndOfStream
| Formatting
| LeftOverBytes
| OutOfMemory
| NotRepresentable
| ExceededRecursionDepth.

#[global] Instance Error_eq_dec : EqDecision Error.
Proof. solve_decision. Defined.

(** ** The traits *)

Class Bytesrepr (T : Type) : Type := {
  to_bytes : T -> result Error (list u8);
  write_bytes : T -> list u8 -> result Error (list u8);
  serialized_length : T -> Z;
  from_bytes : list u8 -> result Error (T * list u8)
}.

#[global] Hint Mode Bytesrepr ! : typeclass_instances.

(** [ToBytes::into_bytes], with its provided body; the impls for vectors, [Bytes] and
    [CLValue] override it. *)
Class IntoBytes (T : Type) (D : Bytesrepr T) : Type := into_bytes : T -> result Error (list u8).
#[global] Hint Mode IntoBytes ! - : typeclass_instances.
#[global] Instance default_into_bytes T (D : Bytesrepr T) : IntoBytes T D | 100 := to_bytes.

(** Whether [size_of::<T>()] is zero: the unit type, empty arrays and products of such
    types occupy no memory.  The other sizes are up to the compiler. *)
Class SizeOf (T : Type) : Type := zero_sized : bool.
Arguments zero_sized T {_}.
#[global] Hint Mode SizeOf ! : typeclass_instances.
#[global] Instance unit_size : SizeOf () := true.
#[global] Instance pair_size {A B} `{SizeOf A, SizeOf B} : SizeOf (A * B) := zero_sized A && zero_sized B.
#[global] Instance array_size {A} n : SizeOf (vec A n) := bool_decide (n = 0%nat).
#[global] Instance bool_size : SizeOf bool := false.
#[global] Instance u8_size : SizeOf u8 := false.
#[global] Instance integer_size : SizeOf Z := false.
#[global] Instance vec_size {A} : SizeOf (list A) := false.
#[global] Instance option_size {A} : SizeOf (option A) := false.
#[global] Instance result_size {A B} : SizeOf (A + B) := false.
Class NonZeroSized (T : Type) `{SizeOf T} : Prop := nonzero_sized : zero_sized T = false.
#[global] Hint Extern 0 (NonZeroSized _) => reflexivity : typeclass_instances.

(** The provided body of [ToBytes::write_bytes]. *)
Definition default_write_bytes {T} (tb : T -> result Error (list u8))
    (t : T) (writer : list u8) : result Error (list u8) :=
  bytes ← tb t; Ok (writer ++ bytes).

Definition u32_max : Z := u_max 32.

(** [allocate_buffer] and [allocate_buffer_for_size]: the buffer itself carries
    no data, only the size check is observable. *)
Definition allocate_buffer_for_size (expected_size : Z) : result Error (list u8) :=
  if u32_max <? expected_size then Err OutOfMemory else Ok [].
Definition allocate_buffer (serialized_len : Z) : result Error (list u8) :=
  allocate_buffer_for_size serialized_len.

Definition deserialize {T} `{Bytesrepr T} (bytes : list u8) : result Error T :=
  '(t, remainder) ← from_bytes bytes;
  match remainder with
  | [] => Ok t
  | _ => Err LeftOverBytes
  end.

(** [deserialize_from_slice] has the body of [deserialize], on a borrowed slice. *)
Definition deserialize_from_slice {T} `{Bytesrepr T} (bytes : list u8) : result Error T :=
  '(t, remainder) ← from_bytes bytes;
  match remainder with
  | [] => Ok t
  | _ => Err LeftOverBytes
  end.

Definition safe_split_at (bytes : list u8) (n : Z) : result Error (list u8 * list u8) :=
  if Z.of_nat (length bytes) <? n then Err EarlyEndOfStream
  else Ok (take (Z.to_nat n) bytes, drop (Z.to_nat n) bytes).

(** ** Little-endian integers *)

Fixpoint le_encode (n : nat) (z : Z) : list u8 :=
  match n with
  | O => []
  | S n => u8_of_Z z :: le_encode n (z / 256)
  end.
Fixpoint le_decode (bs : list u8) : Z :=
  match bs with
  | [] => 0
  | b :: bs => u8_to_Z b + 256 * le_decode bs
  end.

(** The two's complement reading of an unsigned [w]-bit value. *)
Definition to_signed (w z : Z) : Z := if z <? 2 ^ (w - 1) then z else z - 2 ^ w.

Lemma length_le_encode n z : length (le_encode n z) = n.
Proof. revert z; induction n; intros; cbn; auto. Qed.

Lemma le_decode_encode n z : le_decode (le_encode n z) = z mod 2 ^ (8 * Z.of_nat n).
Proof.
  revert z. induction n as [|n IH]; intros z; cbn [le_encode le_decode].
  - by rewrite Z.mod_1_r.
  - rewrite IH, u8_to_of_Z.
    replace (8 * Z.of_nat (S n)) with (8 + 8 * Z.of_nat n) by lia.
    rewrite Z.pow_add_r by lia. change (2 ^ 8) with 256.
    rewrite Z.rem_mul_r by lia. lia.
Qed.

Lemma le_decode_range bs : 0 <= le_decode bs < 2 ^ (8 * Z.of_nat (length bs)).
Proof.
  induction bs as [|b bs IH]; cbn [le_decode length]; [lia|].
  pose proof (u8_to_Z_range b).
  replace (8 * Z.of_nat (S (length bs))) with (8 + 8 * Z.of_nat (length bs)) by lia.
  rewrite Z.pow_add_r by lia. change (2 ^ 8) with 256. nia.
Qed.

Arguments le_encode : simpl never.
Arguments le_decode : simpl never.

Lemma to_signed_wrap w z : 0 < w -> in_i w z -> to_signed w (z mod 2 ^ w) = z.
Proof.
  intros Hw [H1 H2]. unfold to_signed.
  assert (2 ^ w = 2 * 2 ^ (w - 1)) as E.
  { replace w with (1 + (w - 1)) at 1 by lia. rewrite Z.pow_add_r by lia. lia. }
  destruct (decide (0 <= z)).
  - rewrite Z.mod_small by lia. destruct (Z.ltb_spec z (2 ^ (w - 1))); lia.
  - rewrite <- (Z.mod_add _ 1), Z.mod_small by lia.
    destruct (Z.ltb_spec (z + 1 * 2 ^ w) (2 ^ (w - 1))); lia.
Qed.

Lemma to_signed_range w z : 0 < w -> in_u w z -> in_i w (to_signed w z).
Proof.
  intros Hw [H1 H2]. unfold to_signed, in_i.
  assert (2 ^ w = 2 * 2 ^ (w - 1)) as E.
  { replace w with (1 + (w - 1)) at 1 by lia. rewrite Z.pow_add_r by lia. lia. }
  destruct (Z.ltb_spec z (2 ^ (w - 1))); lia.
Qed.

(** [to_le_bytes]/[from_le_bytes] of an unsigned integer of [n] bytes. *)
Definition uint_from_bytes (n : nat) (bytes : list u8) : result Error (Z * list u8) :=
  '(bytes, remainder) ← safe_split_at bytes (Z.of_nat n);
  Ok (le_decode bytes, remainder).
Definition uint_bytesrepr (n : nat) : Bytesrepr Z := {|
  to_bytes z := Ok (le_encode n z);
  write_bytes z writer := Ok (writer ++ le_encode n z);
  serialized_length _ := Z.of_nat n;
  from_bytes := uint_from_bytes n
|}.
Definition int_from_bytes (n : nat) (bytes : list u8) : result Error (Z * list u8) :=
  '(bytes, remainder) ← safe_split_at bytes (Z.of_nat n);
  Ok (to_signed (8 * Z.of_nat n) (le_decode bytes), remainder).
Definition int_bytesrepr (n : nat) : Bytesrepr Z := {|
  to_bytes z := Ok (le_encode n z);
  write_bytes z writer := Ok (writer ++ le_encode n z);
  serialized_length _ := Z.of_nat n;
  from_bytes := int_from_bytes n
|}.

Definition i32_bytesrepr : Bytesrepr Z := int_bytesrepr 4.
Definition i64_bytesrepr : Bytesrepr Z := int_bytesrepr 8.
Definition u16_bytesrepr : Bytesrepr Z := uint_bytesrepr 2.
Definition u32_bytesrepr : Bytesrepr Z := uint_bytesrepr 4.
Definition u64_bytesrepr : Bytesrepr Z := uint_bytesrepr 8.
Definition u128_bytesrepr : Bytesrepr Z := uint_bytesrepr 16.

(** The [u32] conversions [len().try_into().map_err(|_| NotRepresentable)]. *)
Definition length_u32 (len : nat) : result Error Z :=
  if u32_max <? Z.of_nat len then Err NotRepresentable else Ok (Z.of_nat len).
Definition u32_to_bytes (z : Z) : list u8 := le_encode 4 z.
Definition u32_from_bytes (bytes : list u8) : result Error (Z * list u8) :=
  uint_from_bytes 4 bytes.

(** ** Unit, [bool] and [u8] *)

#[global] Instance unit_bytesrepr : Bytesrepr () := {|
  to_bytes _ := Ok [];
  write_bytes := default_write_bytes (fun _ => Ok []);
  serialized_length _ := 0;
  from_bytes bytes := Ok ((), bytes)
|}.

Definition u8_from_bytes (bytes : list u8) : result Error (u8 * list u8) :=
  match bytes with
  | [] => Err EarlyEndOfStream
  | byte :: rem => Ok (byte, rem)
  end.
#[global] Instance u8_bytesrepr : Bytesrepr u8 := {|
  to_bytes b := Ok [b];
  write_bytes b writer := Ok (writer ++ [b]);
  serialized_length _ := 1;
  from_bytes := u8_from_bytes
|}.

Definition u8_of_bool (b : bool) : u8 := if b then Byte.x01 else Byte.x00.
Definition bool_from_bytes (bytes : list u8) : result Error (bool * list u8) :=
  match bytes with
  | [] => Err EarlyEndOfStream
  | Byte.x01 :: rem => Ok (true, rem)
  | Byte.x00 :: rem => Ok (false, rem)
  | _ :: _ => Err Formatting
  end.
#[global] Instance bool_bytesrepr : Bytesrepr bool := {|
  to_bytes b := Ok [u8_of_bool b];
  write_bytes b writer := Ok (writer ++ [u8_of_bool b]);
  serialized_length _ := 1;
  from_bytes := bool_from_bytes
|}.

(** [impl ToBytes for Error]: the discriminant as one byte. *)
Definition Error_tag (e : Error) : u8 :=
  match e with
  | EarlyEndOfStream => Byte.x00
  | Formatting => Byte.x01
  | LeftOverBytes => Byte.x02
  | OutOfMemory => Byte.x03
  | NotRepresentable => Byte.x04
  | ExceededRecursionDepth => Byte.x05
  end.
Definition Error_from_bytes (bytes : list u8) : result Error (Error * list u8) :=
  '(value, remainder) ← u8_from_bytes bytes;
  if decide (value = Error_tag EarlyEndOfStream) then Ok (EarlyEndOfStream, remainder)
  else if decide (value = Error_tag Formatting) then Ok (Formatting, remainder)
  else if decide (value = Error_tag LeftOverBytes) then Ok (LeftOverBytes, remainder)
  else if decide (value = Error_tag OutOfMemory) then Ok (OutOfMemory, remainder)
  else if decide (value = Error_tag NotRepresentable) then Ok (NotRepresentable, remainder)
  else if decide (value = Error_tag ExceededRecursionDepth)
  then Ok (ExceededRecursionDepth, remainder)
  else Err Formatting.
#[global] Instance Error_bytesrepr : Bytesrepr Error := {|
  to_bytes e := Ok [Error_tag e];
  write_bytes e writer := Ok (writer ++ [Error_tag e]);
  serialized_length _ := 1;
  from_bytes := Error_from_bytes
|}.

(** ** Byte slices: [Bytes], [String] and [[u8; COUNT]] *)

Definition u8_slice_serialized_length (bytes : list u8) : Z :=
  4 + Z.of_nat (length bytes).
Definition u8_slice_to_bytes (bytes : list u8) : result Error (list u8) :=
  length_prefix ← length_u32 (length bytes);
  Ok (u32_to_bytes length_prefix ++ bytes).
Definition write_u8_slice (bytes writer : list u8) : result Error (list u8) :=
  length_32 ← length_u32 (length bytes);
  Ok (writer ++ u32_to_bytes length_32 ++ bytes).

(** The [Bytes] newtype. *)
Record Bytes : Type := mkBytes { inner_bytes : list u8 }.
#[global] Instance Bytes_eq_dec : EqDecision Bytes.
Proof. solve_decision. Defined.
Definition Bytes_from_bytes (bytes : list u8) : result Error (Bytes * list u8) :=
  '(size, remainder) ← u32_from_bytes bytes;
  '(result, remainder) ← safe_split_at remainder size;
  Ok (mkBytes result, remainder).
#[global] Instance Bytes_bytesrepr : Bytesrepr Bytes := {|
  to_bytes b := u8_slice_to_bytes (inner_bytes b);
  write_bytes b writer := write_u8_slice (inner_bytes b) writer;
  serialized_length b := u8_slice_serialized_length (inner_bytes b);
  from_bytes := Bytes_from_bytes
|}.

(** [String::from_utf8]: well-formed UTF-8 byte sequences (Unicode table 3-7). *)
Definition between (lo hi : Z) (b : u8) : bool := (lo <=? u8_to_Z b) && (u8_to_Z b <=? hi).
Fixpoint utf8_valid (bs : list u8) : bool :=
  match bs with
  | [] => true
  | b0 :: r0 =>
      if between 0x00 0x7F b0 then utf8_valid r0 else
      match r0 with
      | [] => false
      | b1 :: r1 =>
          if between 0xC2 0xDF b0 && between 0x80 0xBF b1 then utf8_valid r1 else
          match r1 with
          | [] => false
          | b2 :: r2 =>
              if ((between 0xE0 0xE0 b0 && between 0xA0 0xBF b1)
                  || (between 0xE1 0xEC b0 && between 0x80 0xBF b1)
                  || (between 0xED 0xED b0 && between 0x80 0x9F b1)
                  || (between 0xEE 0xEF b0 && between 0x80 0xBF b1))
                 && between 0x80 0xBF b2
              then utf8_valid r2 else
              match r2 with
              | [] => false
              | b3 :: r3 =>
                  if ((between 0xF0 0xF0 b0 && between 0x90 0xBF b1)
                      || (between 0xF1 0xF3 b0 && between 0x80 0xBF b1)
                      || (between 0xF4 0xF4 b0 && between 0x80 0x8F b1))
                     && between 0x80 0xBF b2 && between 0x80 0xBF b3
                  then utf8_valid r3 else false
              end
          end
      end
  end.

(** A Rust [String] is its UTF-8 bytes. *)
Record RString : Type := mkRString { as_bytes : list u8 }.
#[global] Instance RString_size : SizeOf RString := false.
#[global] Instance RString_eq_dec : EqDecision RString.
Proof. solve_decision. Defined.
#[global] Instance RString_countable : Countable RString :=
  inj_countable' as_bytes mkRString (fun s => match s with mkRString b => eq_refl end).
Definition String_from_bytes (bytes : list u8) : result Error (RString * list u8) :=
  '(size, remainder) ← u32_from_bytes bytes;
  '(str_bytes, remainder) ← safe_split_at remainder size;
  if utf8_valid str_bytes then Ok (mkRString str_bytes, remainder) else Err Formatting.
#[global] Instance String_bytesrepr : Bytesrepr RString := {|
  to_bytes s := u8_slice_to_bytes (as_bytes s);
  write_bytes s writer := write_u8_slice (as_bytes s) writer;
  serialized_length s := u8_slice_serialized_length (as_bytes s);
  from_bytes := String_from_bytes
|}.

(** [[u8; COUNT]]; [vec_of_list] is the copy of a slice of [COUNT] bytes. *)
Fixpoint vec_of_list (n : nat) (l : list u8) : vec u8 n :=
  match n with
  | O => [#]
  | S n => default Byte.x00 (head l) ::: vec_of_list n (tail l)
  end.
Definition array_from_bytes (COUNT : nat) (bytes : list u8) :
    result Error (vec u8 COUNT * list u8) :=
  '(bytes, rem) ← safe_split_at bytes (Z.of_nat COUNT);
  Ok (vec_of_list COUNT bytes, rem).
#[global] Instance array_bytesrepr (COUNT : nat) : Bytesrepr (vec u8 COUNT) := {|
  to_bytes a := Ok (vec_to_list a);
  write_bytes a writer := Ok (writer ++ vec_to_list a);
  serialized_length _ := Z.of_nat COUNT;
  from_bytes := array_from_bytes COUNT
|}.

(** ** Generic containers *)

Section containers.
Context {T : Type} `{Bytesrepr T}.

(** [for item in iter { result.append(&mut item.to_bytes()?) }] *)
Fixpoint append_items (result : list u8) (items : list T) : Prelude.result Error (list u8) :=
  match items with
  | [] => Ok result
  | item :: items => b ← to_bytes item; append_items (result ++ b) items
  end.
(** [for item in iter { item.write_bytes(writer)? }] *)
Fixpoint write_items (writer : list u8) (items : list T) : Prelude.result Error (list u8) :=
  match items with
  | [] => Ok writer
  | item :: items => writer ← write_bytes item writer; write_items writer items
  end.
Definition items_length (items : list T) : Z :=
  foldr (fun t acc => serialized_length t + acc) 0 items.
Definition iterator_serialized_length (items : list T) : Z := 4 + items_length items.

Definition vec_to_bytes (v : list T) : result Error (list u8) :=
  length_32 ← length_u32 (length v);
  append_items (u32_to_bytes length_32) v.
(** [Vec::into_bytes] checks the size of the buffer first and consumes the items. *)
Fixpoint append_consumed `{!IntoBytes T _} (result : list u8) (items : list T) : Prelude.result Error (list u8) :=
  match items with
  | [] => Ok result
  | item :: items => b ← into_bytes item; append_consumed (result ++ b) items
  end.
Definition vec_into_bytes `{!IntoBytes T _} (v : list T) : result Error (list u8) :=
  buf ← allocate_buffer (iterator_serialized_length v);
  length_32 ← length_u32 (length v);
  append_consumed (buf ++ u32_to_bytes length_32) v.
Definition vec_write_bytes (v : list T) (writer : list u8) : result Error (list u8) :=
  length_32 ← length_u32 (length v);
  write_items (writer ++ u32_to_bytes length_32) v.
(** [for _ in 0..count { .. result.push(value); stream = remainder }] *)
Fixpoint read_items (count : nat) (result : list T) (stream : list u8) :
    Prelude.result Error (list T * list u8) :=
  match count with
  | O => Ok (result, stream)
  | S count =>
      '(value, remainder) ← from_bytes stream;
      read_items count (result ++ [value]) remainder
  end.
(** [cautious::<T>(hint)], the capacity to start with: [4096 / size_of::<T>()] at most. The
    capacity cannot be observed, the division by zero can. *)
Definition cautious `{SizeOf T} (hint : Z) : result Error () := if zero_sized T then Panic else Ok ().
Definition vec_from_bytes `{SizeOf T} (bytes : list u8) : result Error (list T * list u8) :=
  '(count, stream) ← u32_from_bytes bytes;
  if Z.eqb count 0 then Ok ([], stream)
  else _ ← cautious count; read_items (Z.to_nat count) [] stream.

(** [VecDeque]: the same format; [to_bytes] also checks the buffer size. *)
Definition vecdeque_to_bytes (v : list T) : result Error (list u8) :=
  buf ← allocate_buffer (iterator_serialized_length v);
  length_32 ← length_u32 (length v);
  append_items (buf ++ u32_to_bytes length_32) v.

(** [BTreeSet] *)
Definition btree_set_to_bytes (s : list T) : result Error (list u8) :=
  buf ← allocate_buffer (iterator_serialized_length s);
  num_keys ← length_u32 (length s);
  append_items (buf ++ u32_to_bytes num_keys) s.
Context `{TotalOrd T}.
Fixpoint read_set (num_keys : nat) (result : list T) (stream : list u8) :
    Prelude.result Error (list T * list u8) :=
  match num_keys with
  | O => Ok (result, stream)
  | S num_keys =>
      '(v, rem) ← from_bytes stream;
      read_set num_keys (btree_set_insert v result) rem
  end.
Definition btree_set_from_bytes (bytes : list u8) : result Error (list T * list u8) :=
  '(num_keys, stream) ← u32_from_bytes bytes;
  read_set (Z.to_nat num_keys) [] stream.

Definition option_to_bytes (o : option T) : result Error (list u8) :=
  match o with
  | None => Ok [Byte.x00]
  | Some v =>
      buf ← allocate_buffer (1 + serialized_length v);
      value ← to_bytes v;
      Ok (buf ++ [Byte.x01] ++ value)
  end.
Definition option_write_bytes (o : option T) (writer : list u8) : result Error (list u8) :=
  match o with
  | None => Ok (writer ++ [Byte.x00])
  | Some v => write_bytes v (writer ++ [Byte.x01])
  end.
Definition option_from_bytes (bytes : list u8) : result Error (option T * list u8) :=
  '(tag, rem) ← u8_from_bytes bytes;
  match tag with
  | Byte.x00 => Ok (None, rem)
  | Byte.x01 => '(t, rem) ← from_bytes rem; Ok (Some t, rem)
  | _ => Err Formatting
  end.
End containers.

(** [ensure_efficient_serialization] is a debug assertion: it is empty in a release build. *)
#[global] Instance vec_bytesrepr {T} `{Bytesrepr T, SizeOf T} : Bytesrepr (list T) := {|
  to_bytes := vec_to_bytes;
  write_bytes := vec_write_bytes;
  serialized_length := iterator_serialized_length;
  from_bytes := vec_from_bytes
|}.
#[global] Instance vec_into {T} `{Bytesrepr T, SizeOf T, !IntoBytes T _} : IntoBytes (list T) vec_bytesrepr := vec_into_bytes.
#[global] Instance option_bytesrepr {T} `{Bytesrepr T} : Bytesrepr (option T) := {|
  to_bytes := option_to_bytes;
  write_bytes := option_write_bytes;
  serialized_length o := 1 + match o with Some v => serialized_length v | None => 0 end;
  from_bytes := option_from_bytes
|}.
(** Not an instance, because it shares its carrier with [Vec]. *)
Definition vecdeque_bytesrepr {T} `{Bytesrepr T, SizeOf T} : Bytesrepr (list T) := {|
  to_bytes := vecdeque_to_bytes;
  write_bytes := default_write_bytes vecdeque_to_bytes;
  serialized_length := iterator_serialized_length;
  from_bytes := vec_from_bytes
|}.
Definition btree_set_bytesrepr {T} `{Bytesrepr T, TotalOrd T} : Bytesrepr (list T) := {|
  to_bytes := btree_set_to_bytes;
  write_bytes := vec_write_bytes;
  serialized_length := iterator_serialized_length;
  from_bytes := btree_set_from_bytes
|}.

Section products.
Context {A B : Type} `{Bytesrepr A, Bytesrepr B}.

Definition pair_length (p : A * B) : Z := serialized_length p.1 + serialized_length p.2.
Definition pair_to_bytes (p : A * B) : result Error (list u8) :=
  buf ← allocate_buffer (pair_length p);
  b1 ← to_bytes p.1;
  b2 ← to_bytes p.2;
  Ok (buf ++ b1 ++ b2).
Definition pair_from_bytes (bytes : list u8) : result Error ((A * B) * list u8) :=
  '(t1, remainder) ← from_bytes bytes;
  '(t2, remainder) ← from_bytes remainder;
  Ok ((t1, t2), remainder).

(** [Result<T, E>], as a sum: [inl] for [Ok], [inr] for [Err]. *)
Definition result_length (r : A + B) : Z :=
  1 + match r with inl ok => serialized_length ok | inr error => serialized_length error end.
Definition result_to_bytes (r : A + B) : result Error (list u8) :=
  buf ← allocate_buffer (result_length r);
  '(variant, value) ←
    match r with
    | inr error => v ← to_bytes error; Ok (Byte.x00, v)
    | inl ok => v ← to_bytes ok; Ok (Byte.x01, v)
    end;
  Ok (buf ++ [variant] ++ value).
Definition result_write_bytes (r : A + B) (writer : list u8) : result Error (list u8) :=
  match r with
  | inr error => write_bytes error (writer ++ [Byte.x00])
  | inl ok => write_bytes ok (writer ++ [Byte.x01])
  end.
Definition result_from_bytes (bytes : list u8) : result Error ((A + B) * list u8) :=
  '(variant, rem) ← u8_from_bytes bytes;
  match variant with
  | Byte.x00 => '(value, rem) ← from_bytes rem; Ok (inr value, rem)
  | Byte.x01 => '(value, rem) ← from_bytes rem; Ok (inl value, rem)
  | _ => Err Formatting
  end.

(** [BTreeMap<K, V>] *)
Fixpoint append_entries (result : list u8) (entries : list (A * B)) :
    Prelude.result Error (list u8) :=
  match entries with
  | [] => Ok result
  | (key, value) :: entries =>
      bk ← to_bytes key;
      bv ← to_bytes value;
      append_entries ((result ++ bk) ++ bv) entries
  end.
Fixpoint write_entries (writer : list u8) (entries : list (A * B)) :
    Prelude.result Error (list u8) :=
  match entries with
  | [] => Ok writer
  | (key, value) :: entries =>
      writer ← write_bytes key writer;
      writer ← write_bytes value writer;
      write_entries writer entries
  end.
Definition btree_map_length (m : list (A * B)) : Z :=
  4 + foldr (fun e acc => pair_length e + acc) 0 m.
Definition btree_map_to_bytes (m : list (A * B)) : result Error (list u8) :=
  buf ← allocate_buffer (btree_map_length m);
  num_keys ← length_u32 (length m);
  append_entries (buf ++ u32_to_bytes num_keys) m.
Definition btree_map_write_bytes (m : list (A * B)) (writer : list u8) :
    result Error (list u8) :=
  length_32 ← length_u32 (length m);
  write_entries (writer ++ u32_to_bytes length_32) m.
Context `{TotalOrd A}.
Fixpoint read_map (num_keys : nat) (result : list (A * B)) (stream : list u8) :
    Prelude.result Error (list (A * B) * list u8) :=
  match num_keys with
  | O => Ok (result, stream)
  | S num_keys =>
      '(k, rem) ← from_bytes stream;
      '(v, rem) ← from_bytes rem;
      read_map num_keys (btree_insert k v result) rem
  end.
Definition btree_map_from_bytes (bytes : list u8) : result Error (list (A * B) * list u8) :=
  '(num_keys, stream) ← u32_from_bytes bytes;
  read_map (Z.to_nat num_keys) [] stream.
End products.

#[global] Instance pair_bytesrepr {A B} `{Bytesrepr A, Bytesrepr B} : Bytesrepr (A * B) := {|
  to_bytes := pair_to_bytes;
  write_bytes := default_write_bytes pair_to_bytes;
  serialized_length := pair_length;
  from_bytes := pair_from_bytes
|}.
#[global] Instance result_bytesrepr {A B} `{Bytesrepr A, Bytesrepr B} : Bytesrepr (A + B) := {|
  to_bytes := result_to_bytes;
  write_bytes := result_write_bytes;
  serialized_length := result_length;
  from_bytes := result_from_bytes
|}.
Definition btree_map_bytesrepr {A B} `{Bytesrepr A, Bytesrepr B, TotalOrd A} :
    Bytesrepr (list (A * B)) := {|
  to_bytes := btree_map_to_bytes;
  write_bytes := btree_map_write_bytes;
  serialized_length := btree_map_length;
  from_bytes := btree_map_from_bytes
|}.

(** ** Tuples of any arity

    The impls for tuples of three to ten components are the same code: allocate
    for the total length, append the components in order; read them in order. *)
Fixpoint tuple (Ts : list {T : Type & Bytesrepr T}) : Type :=
  match Ts with
  | [] => ()
  | T :: Ts => projT1 T * tuple Ts
  end.
Fixpoint tuple_length (Ts : list {T : Type & Bytesrepr T}) : tuple Ts -> Z :=
  match Ts with
  | [] => fun _ => 0
  | existT T D :: Ts => fun t => serialized_length t.1 + tuple_length Ts t.2
  end.
(** [result.append(&mut self.i.to_bytes()?)] for each component *)
Fixpoint tuple_append (Ts : list {T : Type & Bytesrepr T}) :
    tuple Ts -> list u8 -> result Error (list u8) :=
  match Ts with
  | [] => fun _ result => Ok result
  | existT T D :: Ts => fun t result =>
      b ← to_bytes t.1;
      tuple_append Ts t.2 (result ++ b)
  end.
Definition tuple_to_bytes (Ts : list {T : Type & Bytesrepr T}) (t : tuple Ts) :
    result Error (list u8) :=
  result ← allocate_buffer (tuple_length Ts t);
  tuple_append Ts t result.
Fixpoint tuple_from_bytes (Ts : list {T : Type & Bytesrepr T}) :
    list u8 -> result Error (tuple Ts * list u8) :=
  match Ts with
  | [] => fun bytes => Ok ((), bytes)
  | existT T D :: Ts => fun bytes =>
      '(t, remainder) ← from_bytes bytes;
      '(ts, remainder) ← tuple_from_bytes Ts remainder;
      Ok ((t, ts), remainder)
  end.
Definition tuple_bytesrepr (Ts : list {T : Type & Bytesrepr T}) : Bytesrepr (tuple Ts) := {|
  to_bytes := tuple_to_bytes Ts;
  write_bytes := default_write_bytes (tuple_to_bytes Ts);
  serialized_length := tuple_length Ts;
  from_bytes := tuple_from_bytes Ts
|}.
(** [(T1,)] *)
Definition tuple1_bytesrepr {T} `{Bytesrepr T} : Bytesrepr T := {|
  to_bytes := to_bytes;
  write_bytes := default_write_bytes to_bytes;
  serialized_length := serialized_length;
  from_bytes := from_bytes
|}.

(** ** What an implementation promises

    [representable t]: [t] is a value of the Rust type (a [u32] is in range, an
    array has its length) and its element counts fit the [u32] length prefix. *)

Definition no_panic {E A} (r : result E A) : Prop :=
  match r with Ok _ | Err _ => True | _ => False end.

Class BytesreprSpec (T : Type) (D : Bytesrepr T) : Type := {
  representable : T -> Prop;
  (** [serialized_length] is the exact size of the output. *)
  spec_length : forall t b, representable t ->
    to_bytes t = Ok b -> Z.of_nat (length b) = serialized_length t;
  spec_length_nonneg : forall t, representable t -> 0 <= serialized_length t;
  (** [write_bytes] appends what [to_bytes] returns. *)
  spec_write : forall t b w, representable t ->
    to_bytes t = Ok b -> write_bytes t w = Ok (w ++ b);
  (** Serialization succeeds when the output fits in [u32::MAX] bytes. *)
  spec_total : forall t, representable t ->
    serialized_length t <= u32_max -> exists b, to_bytes t = Ok b;
  (** Deserialization inverts serialization, and stops exactly at its end. *)
  spec_roundtrip : forall t b r, representable t ->
    to_bytes t = Ok b -> from_bytes (b ++ r) = Ok (t, r);
  (** Deserializing arbitrary bytes never panics ... *)
  spec_no_panic : forall bs, no_panic (from_bytes (T:=T) bs);
  (** ... consumes a prefix of the input, and yields a representable value. *)
  spec_from : forall bs t r, from_bytes (T:=T) bs = Ok (t, r) ->
    representable t /\ exists p, bs = p ++ r
}.
Arguments representable {T D _} t.
#[global] Hint Mode BytesreprSpec ! - : typeclass_instances.

Lemma no_panic_bind {E A B} (r : result E A) (f : A -> result E B) :
  no_panic r -> (forall a, r = Ok a -> no_panic (f a)) -> no_panic (r ≫= f).
Proof. destruct r; cbn; auto. Qed.

(** ** Lemmas on the building blocks *)

Lemma safe_split_at_app b r :
  safe_split_at (b ++ r) (Z.of_nat (length b)) = Ok (b, r).
Proof.
  unfold safe_split_at. rewrite length_app.
  destruct (Z.ltb_spec (Z.of_nat (length b + length r)) (Z.of_nat (length b))); [lia|].
  by rewrite Nat2Z.id, take_app_length, drop_app_length.
Qed.

Lemma safe_split_at_Ok bs n p r :
  0 <= n -> safe_split_at bs n = Ok (p, r) -> bs = p ++ r /\ Z.of_nat (length p) = n.
Proof.
  intros Hn. unfold safe_split_at. destruct (Z.ltb_spec (Z.of_nat (length bs)) n); [done|].
  intros [= <- <-]. split; [by rewrite take_drop|]. rewrite length_take. lia.
Qed.

Lemma safe_split_at_no_panic bs n : no_panic (safe_split_at bs n).
Proof. unfold safe_split_at. by case_match. Qed.

Lemma u32_roundtrip z r :
  in_u 32 z -> u32_from_bytes (u32_to_bytes z ++ r) = Ok (z, r).
Proof.
  intros Hz. unfold u32_from_bytes, uint_from_bytes, u32_to_bytes.
  pose proof (safe_split_at_app (le_encode 4 z) r) as E.
  rewrite length_le_encode in E. rewrite E. cbn -[le_decode le_encode].
  by rewrite le_decode_encode, Z.mod_small.
Qed.

Lemma u32_from_bytes_Ok bs z r :
  u32_from_bytes bs = Ok (z, r) -> in_u 32 z /\ exists p, bs = p ++ r.
Proof.
  unfold u32_from_bytes, uint_from_bytes. intros H. inv_ok.
  apply safe_split_at_Ok in H0 as [-> Hl]; [|lia]. simplify_eq/=. split; [|eauto].
  pose proof (le_decode_range l). unfold in_u. by replace 32 with (8 * Z.of_nat (length l)) by lia.
Qed.

Lemma u32_from_bytes_no_panic bs : no_panic (u32_from_bytes bs).
Proof.
  apply no_panic_bind; [apply safe_split_at_no_panic|]. by intros [? ?].
Qed.

Lemma length_u32_Ok n z : length_u32 n = Ok z -> z = Z.of_nat n /\ in_u 32 z.
Proof.
  unfold length_u32, u32_max, u_max, in_u.
  destruct (Z.ltb_spec (2 ^ 32 - 1) (Z.of_nat n)); naive_solver lia.
Qed.

Lemma length_u32_fits n : Z.of_nat n <= u32_max -> length_u32 n = Ok (Z.of_nat n).
Proof. intros. unfold length_u32. destruct (Z.ltb_spec u32_max (Z.of_nat n)); [lia|done]. Qed.

Lemma allocate_buffer_Ok n b : allocate_buffer n = Ok b -> b = [] /\ n <= u32_max.
Proof.
  unfold allocate_buffer, allocate_buffer_for_size.
  destruct (Z.ltb_spec u32_max n); naive_solver.
Qed.

Lemma allocate_buffer_fits n : n <= u32_max -> allocate_buffer n = Ok [].
Proof.
  intros. unfold allocate_buffer, allocate_buffer_for_size.
  destruct (Z.ltb_spec u32_max n); [lia|done].
Qed.

(** Use the lemmas above on every hypothesis they apply to. *)
Ltac bytes_inv :=
  inv_ok;
  repeat match goal with
  | a : _ * _ |- _ => destruct a
  | H : allocate_buffer _ = Ok _ |- _ => apply allocate_buffer_Ok in H as [-> ?]
  | H : length_u32 _ = Ok _ |- _ => apply length_u32_Ok in H as [-> ?]
  end; simplify_eq/=.

(** Replace the serialized form of every value by its length. *)
Ltac use_lengths :=
  repeat match goal with
  | H : to_bytes _ = Ok _ |- _ => apply spec_length in H; [|done]
  end.

(** ** The instances satisfy the laws *)

#[global] Instance unit_spec : BytesreprSpec () unit_bytesrepr.
Proof.
  refine {| representable _ := True |}; cbn; try naive_solver lia.
  - by intros [] b r _ [= <-].
  - intros bs [] r [= <-]. split; [done|]. by exists [].
Defined.

#[global] Instance u8_spec : BytesreprSpec u8 u8_bytesrepr.
Proof.
  refine {| representable _ := True |}; cbn; try naive_solver lia.
  - by intros [|??].
  - intros [|c bs] t r [= <- <-]. split; [done|]. by exists [c].
Defined.

#[global] Instance bool_spec : BytesreprSpec bool bool_bytesrepr.
Proof.
  refine {| representable _ := True |}; cbn; try naive_solver lia.
  - intros [] b r _ [= <-]; done.
  - intros [|[] ?]; done.
  - intros [|[] bs] t r; try done; intros [= <- <-]; (split; [done|]);
      [by exists [Byte.x00] | by exists [Byte.x01]].
Defined.

#[global] Instance Error_spec : BytesreprSpec Error Error_bytesrepr.
Proof.
  refine {| representable _ := True |}; cbn; try naive_solver lia.
  - intros [] b r _ [= <-]; done.
  - intros [|c bs]; [done|]. unfold Error_from_bytes; cbn. by repeat case_decide.
  - intros [|c bs] t r; [done|]. unfold Error_from_bytes; cbn.
    intros H. split; [done|]. exists [c]. repeat case_decide; by simplify_eq/=.
Defined.

Definition uint_spec (n : nat) : BytesreprSpec Z (uint_bytesrepr n).
Proof.
  refine {| representable := in_u (8 * Z.of_nat n) : Z -> Prop |}; cbn; try naive_solver lia.
  - intros t b _ [= <-]. by rewrite length_le_encode.
  - intros t b r Ht [= <-]. unfold uint_from_bytes.
    pose proof (safe_split_at_app (le_encode n t) r) as E.
    rewrite length_le_encode in E. rewrite E. cbn.
    by rewrite le_decode_encode, Z.mod_small.
  - intros bs. apply no_panic_bind; [apply safe_split_at_no_panic|]. by intros [? ?].
  - intros bs t r H. unfold uint_from_bytes in H. bytes_inv.
    apply safe_split_at_Ok in H0 as [-> <-%Nat2Z.inj]; [|lia].
    split; [apply le_decode_range|eauto].
Defined.

Definition int_spec (n : nat) (Hn : (0 < n)%nat) : BytesreprSpec Z (int_bytesrepr n).
Proof.
  refine {| representable := in_i (8 * Z.of_nat n) : Z -> Prop |}; cbn; try naive_solver lia.
  - intros t b _ [= <-]. by rewrite length_le_encode.
  - intros t b r Ht [= <-]. unfold int_from_bytes.
    pose proof (safe_split_at_app (le_encode n t) r) as E.
    rewrite length_le_encode in E. rewrite E. cbn.
    rewrite le_decode_encode, to_signed_wrap by (done || lia). done.
  - intros bs. apply no_panic_bind; [apply safe_split_at_no_panic|]. by intros [? ?].
  - intros bs t r H. unfold int_from_bytes in H. bytes_inv.
    apply safe_split_at_Ok in H0 as [-> <-%Nat2Z.inj]; [|lia].
    split; [apply to_signed_range, le_decode_range; lia|eauto].
Defined.

Lemma u8_slice_to_bytes_Ok l b :
  u8_slice_to_bytes l = Ok b ->
  b = u32_to_bytes (Z.of_nat (length l)) ++ l /\ in_u 32 (Z.of_nat (length l)).
Proof. unfold u8_slice_to_bytes. intros H. by bytes_inv. Qed.

Lemma u8_slice_to_bytes_fits l :
  u8_slice_serialized_length l <= u32_max -> exists b, u8_slice_to_bytes l = Ok b.
Proof.
  unfold u8_slice_to_bytes, u8_slice_serialized_length. intros.
  rewrite length_u32_fits by lia. by eexists.
Qed.

Lemma u8_slice_write l b w : u8_slice_to_bytes l = Ok b -> write_u8_slice l w = Ok (w ++ b).
Proof.
  unfold u8_slice_to_bytes, write_u8_slice. intros H. bytes_inv.
  rewrite length_u32_fits; [done|]. unfold in_u, u32_max, u_max in *. lia.
Qed.

Lemma u8_slice_length l b :
  u8_slice_to_bytes l = Ok b -> Z.of_nat (length b) = u8_slice_serialized_length l.
Proof.
  intros [-> _]%u8_slice_to_bytes_Ok. unfold u8_slice_serialized_length, u32_to_bytes.
  rewrite length_app, length_le_encode. lia.
Qed.

(** Reading a length-prefixed slice back. *)
Lemma u8_slice_read l b r :
  u8_slice_to_bytes l = Ok b ->
  (u32_from_bytes (b ++ r) ≫= fun '(size, remainder) => safe_split_at remainder size)
  = Ok (l, r).
Proof.
  intros [-> Hr]%u8_slice_to_bytes_Ok. rewrite <- app_assoc, u32_roundtrip by done.
  cbn. apply safe_split_at_app.
Qed.

Lemma u8_slice_read_Ok bs n r0 l r :
  u32_from_bytes bs = Ok (n, r0) -> safe_split_at r0 n = Ok (l, r) ->
  (exists p, bs = p ++ r) /\ Z.of_nat (length l) <= u32_max.
Proof.
  intros [Hn [p ->]]%u32_from_bytes_Ok H2. unfold in_u, u32_max, u_max in *.
  apply safe_split_at_Ok in H2 as [-> Hl]; [|lia].
  split; [|lia]. exists (p ++ l). by rewrite app_assoc.
Qed.

#[global] Instance Bytes_spec : BytesreprSpec Bytes Bytes_bytesrepr.
Proof.
  refine {| representable b := Z.of_nat (length (inner_bytes b)) <= u32_max |}; cbn.
  - intros [l] b _. apply u8_slice_length.
  - intros [l] _. unfold u8_slice_serialized_length. lia.
  - intros [l] b w _. apply u8_slice_write.
  - intros [l] _. apply u8_slice_to_bytes_fits.
  - intros [l] b r _ Hb%(u8_slice_read _ _ r). unfold Bytes_from_bytes.
    destruct (u32_from_bytes (b ++ r)) as [[]| | |]; try done. cbn in *. by rewrite Hb.
  - intros bs. apply no_panic_bind; [apply u32_from_bytes_no_panic|]. intros [n r] _.
    apply no_panic_bind; [apply safe_split_at_no_panic|]. by intros [? ?].
  - intros bs [t] r H. unfold Bytes_from_bytes in H. bytes_inv.
    edestruct u8_slice_read_Ok; eauto.
Defined.

#[global] Instance String_spec : BytesreprSpec RString String_bytesrepr.
Proof.
  refine {| representable s :=
    Z.of_nat (length (as_bytes s)) <= u32_max /\ utf8_valid (as_bytes s) = true |}; cbn.
  - intros [l] b _. apply u8_slice_length.
  - intros [l] _. unfold u8_slice_serialized_length. lia.
  - intros [l] b w _. apply u8_slice_write.
  - intros [l] _. apply u8_slice_to_bytes_fits.
  - intros [l] b r [_ Hu] Hb%(u8_slice_read _ _ r). unfold String_from_bytes.
    destruct (u32_from_bytes (b ++ r)) as [[]| | |]; try done. cbn in *. by rewrite Hb; cbn; rewrite Hu.
  - intros bs. apply no_panic_bind; [apply u32_from_bytes_no_panic|]. intros [n r] _.
    apply no_panic_bind; [apply safe_split_at_no_panic|]. intros [l ?] _. by destruct (utf8_valid l).
  - intros bs [t] r H. unfold String_from_bytes in H. bytes_inv.
    destruct (utf8_valid l0) eqn:Hu; bytes_inv. edestruct u8_slice_read_Ok; eauto.
Defined.

Lemma vec_of_to_list n (v : vec u8 n) : vec_of_list n (vec_to_list v) = v.
Proof. induction v; cbn; congruence. Qed.

(** An instance that computes, unlike the library's. *)
#[global] Instance array_countable n : Countable (vec u8 n) :=
  inj_countable' vec_to_list (vec_of_list n) (vec_of_to_list n).

Lemma vec_to_of_list n l : length l = n -> vec_to_list (vec_of_list n l) = l.
Proof. intros <-. induction l; cbn; congruence. Qed.

#[global] Instance array_spec n : BytesreprSpec (vec u8 n) (array_bytesrepr n).
Proof.
  refine {| representable _ := True |}; cbn; try naive_solver lia.
  - intros t b _ [= <-]. by rewrite length_vec_to_list.
  - intros t b r _ [= <-]. unfold array_from_bytes.
    pose proof (safe_split_at_app t r) as E. rewrite length_vec_to_list in E.
    rewrite E. cbn. by rewrite vec_of_to_list.
  - intros bs. apply no_panic_bind; [apply safe_split_at_no_panic|]. by intros [? ?].
  - intros bs t r H. unfold array_from_bytes in H. bytes_inv.
    apply safe_split_at_Ok in H0 as [-> _]; [eauto|lia].
Defined.

(** *** Containers of [T] *)

Section container_laws.
Context {T : Type} {D : Bytesrepr T} {S : BytesreprSpec T D}.
Implicit Types items acc : list T.

(** The chunks a list of items is serialized into. *)
Definition chunks_of (items : list T) (bs : list (list u8)) : Prop :=
  Forall2 (fun t b => to_bytes t = Ok b) items bs.

Lemma append_items_Ok w items out :
  append_items w items = Ok out <-> exists bs, chunks_of items bs /\ out = w ++ concat bs.
Proof.
  revert w. induction items as [|t items IH]; intros w; cbn.
  - split.
    + intros [= <-]. exists []. split; [constructor|by rewrite app_nil_r].
    + intros (bs & Hbs & ->). inversion Hbs; subst. cbn. by rewrite app_nil_r.
  - rewrite bind_Ok. split.
    + intros (b & Hb & (bs & Hbs & ->)%IH). exists (b :: bs).
      split; [by constructor|]. cbn. by rewrite app_assoc.
    + intros (bs & Hbs & ->). inversion Hbs as [|? b ? bs' Hb Hbs']; subst.
      exists b. split; [done|]. apply IH. exists bs'. cbn. by rewrite app_assoc.
Qed.

Lemma chunks_length items bs :
  Forall representable items -> chunks_of items bs ->
  Z.of_nat (length (concat bs)) = items_length items.
Proof.
  intros Hr Hc. induction Hc as [|t b items bs Hb Hc IH]; cbn; [done|].
  inversion Hr; subst. specialize (IH ltac:(done)). rewrite length_app.
  use_lengths. unfold items_length in *. lia.
Qed.

Lemma items_length_nonneg items : Forall representable items -> 0 <= items_length items.
Proof.
  induction 1 as [|t items Ht _ IH]; cbn; [lia|].
  pose proof (spec_length_nonneg t Ht). unfold items_length in IH. lia.
Qed.

Lemma chunks_total items :
  Forall representable items -> items_length items <= u32_max ->
  exists bs, chunks_of items bs.
Proof.
  induction 1 as [|t items Ht Hi IH]; cbn; [by exists []; constructor|].
  pose proof (items_length_nonneg items Hi). pose proof (spec_length_nonneg t Ht).
  unfold items_length in *. intros Hl. destruct IH as [bs Hbs]; [lia|].
  destruct (spec_total t Ht) as [b Hb]; [lia|]. exists (b :: bs). by constructor.
Qed.

Lemma write_items_chunks w items bs :
  Forall representable items -> chunks_of items bs ->
  write_items w items = Ok (w ++ concat bs).
Proof.
  intros Hr Hc. revert w. induction Hc as [|t b items bs Hb Hc IH]; intros w; cbn.
  - by rewrite app_nil_r.
  - inversion Hr; subst. erewrite spec_write by done. cbn. rewrite IH by done.
    by rewrite app_assoc.
Qed.

Lemma read_items_chunks acc items bs r :
  Forall representable items -> chunks_of items bs ->
  read_items (length items) acc (concat bs ++ r) = Ok (acc ++ items, r).
Proof.
  intros Hr Hc. revert acc. induction Hc as [|t b items bs Hb Hc IH]; intros acc; cbn.
  - by rewrite app_nil_r.
  - inversion Hr; subst. rewrite <- app_assoc. erewrite spec_roundtrip by done. cbn.
    rewrite IH by done. by rewrite <- app_assoc.
Qed.

Lemma read_items_no_panic n acc bs : no_panic (read_items (T:=T) n acc bs).
Proof.
  revert acc bs. induction n; intros; cbn; [done|].
  apply no_panic_bind; [apply spec_no_panic|]. intros [? ?] _; auto.
Qed.

Lemma read_items_Ok n acc bs l r :
  Forall representable acc -> read_items n acc bs = Ok (l, r) ->
  Forall representable l /\ length l = (length acc + n)%nat /\ exists p, bs = p ++ r.
Proof.
  revert acc bs. induction n as [|n IH]; intros acc bs Ha H; cbn in H.
  - bytes_inv. split_and!; [done|lia|by exists []].
  - bytes_inv. apply spec_from in H0 as [Ht [p ->]]. apply IH in H as (? & Hl & [p' ->]).
    + rewrite length_app in Hl. cbn in Hl. split_and!; [done|lia|].
      exists (p ++ p'). by rewrite app_assoc.
    + apply Forall_app. auto.
Qed.
End container_laws.

Section container_specs.
Context {T : Type} {D : Bytesrepr T} {S : BytesreprSpec T D}.
Implicit Types v acc items : list T.

(** Element counts fit the length prefix. *)
Definition vec_representable (v : list T) : Prop :=
  Forall representable v /\ Z.of_nat (length v) <= u32_max.

(** The output of [Vec::to_bytes]: the count, then the chunks. *)
Lemma vec_to_bytes_Ok v b :
  vec_to_bytes v = Ok b -> exists bs, chunks_of v bs /\
    b = u32_to_bytes (Z.of_nat (length v)) ++ concat bs /\ in_u 32 (Z.of_nat (length v)).
Proof.
  unfold vec_to_bytes. intros H. bytes_inv.
  apply append_items_Ok in H as (bs & Hbs & ->). eauto.
Qed.

(** With the buffer check, the output is that of [Vec::to_bytes]. *)
Lemma checked_to_bytes_Ok v b :
  vecdeque_to_bytes v = Ok b -> vec_to_bytes v = Ok b.
Proof.
  unfold vecdeque_to_bytes, vec_to_bytes. intros H. bytes_inv.
  rewrite length_u32_fits; [done|]. unfold in_u, u32_max, u_max in *. lia.
Qed.

Lemma checked_to_bytes_fits v :
  iterator_serialized_length v <= u32_max -> vecdeque_to_bytes v = vec_to_bytes v.
Proof. intros. unfold vecdeque_to_bytes, vec_to_bytes. by rewrite allocate_buffer_fits. Qed.

Lemma vec_length_law v b :
  vec_representable v -> vec_to_bytes v = Ok b ->
  Z.of_nat (length b) = iterator_serialized_length v.
Proof.
  intros [Hr _] (bs & Hbs & -> & _)%vec_to_bytes_Ok. unfold u32_to_bytes.
  rewrite length_app, length_le_encode, Nat2Z.inj_add.
  by erewrite chunks_length.
Qed.

Lemma vec_write_law v b w :
  vec_representable v -> vec_to_bytes v = Ok b -> vec_write_bytes v w = Ok (w ++ b).
Proof.
  intros [Hr Hl] (bs & Hbs & -> & _)%vec_to_bytes_Ok. unfold vec_write_bytes.
  rewrite length_u32_fits by done. cbn. erewrite write_items_chunks by done.
  by rewrite app_assoc.
Qed.

Lemma vec_total_law v :
  vec_representable v -> iterator_serialized_length v <= u32_max ->
  exists b, vec_to_bytes v = Ok b.
Proof.
  unfold iterator_serialized_length. intros [Hr Hl] Hs.
  destruct (chunks_total v) as [bs Hbs]; [done|lia|]. unfold vec_to_bytes.
  rewrite length_u32_fits by done. cbn. eexists. apply append_items_Ok. eauto.
Qed.

Context `{!SizeOf T}.
Lemma vec_roundtrip_law v b r :
  (zero_sized T = true -> v = []) -> vec_representable v -> vec_to_bytes v = Ok b -> vec_from_bytes (b ++ r) = Ok (v, r).
Proof.
  intros Hz [Hr Hl] (bs & Hbs & -> & Hu)%vec_to_bytes_Ok. unfold vec_from_bytes, cautious.
  rewrite <- app_assoc, u32_roundtrip by done. cbn.
  destruct (Z.eqb_spec (Z.of_nat (length v)) 0).
  - destruct v; [|cbn in *; lia]. inversion Hbs; by subst.
  - destruct (zero_sized T); [by rewrite Hz in *|]. cbn. rewrite Nat2Z.id. by erewrite read_items_chunks.
Qed.

Lemma vec_no_panic_law bs : zero_sized T = false -> no_panic (vec_from_bytes (T:=T) bs).
Proof.
  intros Hz. apply no_panic_bind; [apply u32_from_bytes_no_panic|]. intros [n r] _. cbn.
  case_match; [done|]. unfold cautious. rewrite Hz. apply read_items_no_panic.
Qed.

Lemma vec_from_law bs v r :
  vec_from_bytes bs = Ok (v, r) -> vec_representable v /\ exists p, bs = p ++ r.
Proof.
  unfold vec_from_bytes. intros H. bytes_inv.
  apply u32_from_bytes_Ok in H0 as [Hn [p ->]].
  unfold vec_representable, in_u, u32_max, u_max, cautious in *. case_match; bytes_inv.
  - split; [|eauto]. split; [constructor|cbn; lia].
  - destruct (zero_sized T); [done|]. apply read_items_Ok in H as (? & Hl & [p' ->]); [|constructor].
    split; [|exists (p ++ p'); by rewrite app_assoc]. split; [done|cbn in *; lia].
Qed.

Context {Hsize : NonZeroSized T}.
#[global] Instance vec_spec : BytesreprSpec (list T) vec_bytesrepr.
Proof.
  refine {| representable := vec_representable |}; cbn.
  - apply vec_length_law.
  - intros v [Hr _]. unfold iterator_serialized_length.
    pose proof (items_length_nonneg v Hr). lia.
  - apply vec_write_law.
  - apply vec_total_law.
  - intros v b r. apply vec_roundtrip_law. by rewrite Hsize.
  - intros bs. by apply vec_no_panic_law.
  - apply vec_from_law.
Defined.

Definition vecdeque_spec : BytesreprSpec (list T) vecdeque_bytesrepr.
Proof.
  refine {| representable := vec_representable |}; cbn.
  - intros v b Hv Hb%checked_to_bytes_Ok. by apply vec_length_law.
  - intros v [Hr _]. unfold iterator_serialized_length.
    pose proof (items_length_nonneg v Hr). lia.
  - intros v b w _ Hb. unfold default_write_bytes. by rewrite Hb.
  - intros v Hv Hl. rewrite checked_to_bytes_fits by done. by apply vec_total_law.
  - intros v b r Hv Hb%checked_to_bytes_Ok. apply vec_roundtrip_law; [by rewrite Hsize|done|done].
  - intros bs. by apply vec_no_panic_law.
  - apply vec_from_law.
Defined.

#[global] Instance option_spec : BytesreprSpec (option T) option_bytesrepr.
Proof.
  refine {| representable o := from_option representable True o |}; cbn.
  - intros [t|] b Ht H; cbn in *; bytes_inv; [|done].
    use_lengths. lia.
  - intros [t|] Ht; cbn in *; [|lia]. pose proof (spec_length_nonneg t Ht). lia.
  - intros [t|] b w Ht H; cbn in *; bytes_inv; [|done].
    erewrite spec_write by done. by rewrite <- app_assoc.
  - intros [t|] Ht Hl; cbn in *; [|by eexists].
    destruct (spec_total t Ht) as [b Hb]; [lia|].
    rewrite allocate_buffer_fits by done. cbn. rewrite Hb. by eexists.
  - intros [t|] b r Ht H; cbn in *; bytes_inv; [|done].
    unfold option_from_bytes. cbn. by erewrite spec_roundtrip.
  - intros [|c bs]; [done|]. unfold option_from_bytes. cbn.
    destruct c; try done. apply no_panic_bind; [apply spec_no_panic|]. by intros [? ?].
  - intros [|c bs] t r; [done|]. unfold option_from_bytes. cbn. intros H.
    destruct c; try done; bytes_inv.
    + split; [done|]. by exists [Byte.x00].
    + apply spec_from in H0 as [Ht [p ->]]. split; [done|].
      by exists (Byte.x01 :: p).
Defined.

(** *** [BTreeSet]: reading re-inserts the elements one by one *)
Context `{!TotalOrd T} `{!TotalOrdLaws T}.

Lemma btree_set_insert_last (k : T) s :
  Forall (fun x => ord_ltb x k = true) s -> btree_set_insert k s = s ++ [k].
Proof.
  intros Hs. unfold btree_set_insert. rewrite btree_insert_last.
  - rewrite fmap_app, <- list_fmap_compose. cbn. f_equal. by apply list_fmap_id.
  - apply Forall_fmap. exact Hs.
Qed.

Lemma read_set_chunks acc items bs r :
  Forall representable items -> chunks_of items bs -> btree_set_sorted (acc ++ items) ->
  read_set (length items) acc (concat bs ++ r) = Ok (acc ++ items, r).
Proof.
  intros Hr Hc. revert acc. induction Hc as [|t b items bs Hb Hc IH]; intros acc Hs; cbn.
  - by rewrite app_nil_r.
  - inversion Hr; subst. rewrite <- app_assoc. erewrite spec_roundtrip by done. cbn.
    rewrite btree_set_insert_last.
    + rewrite IH by (done || by rewrite <- app_assoc). by rewrite <- app_assoc.
    + clear -Hs. unfold btree_set_sorted in Hs. induction acc as [|a acc IH]; [constructor|].
      apply StronglySorted_inv in Hs as [Hs Hf]. constructor; [|by apply IH].
      rewrite Forall_app in Hf. destruct Hf as [_ Hf]. by inversion Hf.
Qed.

Lemma btree_set_insert_sorted (k : T) s :
  btree_set_sorted s -> btree_set_sorted (btree_set_insert k s).
Proof.
  intros Hs.
  assert (btree_sorted (btree_insert k () ((fun x => (x, ())) <$> s))) as Hm.
  { apply btree_insert_sorted. unfold btree_sorted.
    induction Hs as [|x s Hs IH Hf]; cbn; constructor; [done|].
    apply Forall_fmap. exact Hf. }
  unfold btree_set_sorted, btree_set_insert. revert Hm.
  generalize (btree_insert k () ((fun x => (x, ())) <$> s)). intros m Hm.
  induction Hm as [|x m Hm IH Hf]; cbn; constructor; [done|].
  apply Forall_fmap. exact Hf.
Qed.

Lemma btree_set_insert_elem (k : T) s :
  Forall representable s -> representable k -> Forall representable (btree_set_insert k s).
Proof.
  intros Hs Hk. unfold btree_set_insert.
  induction Hs as [|x s Hx Hs IH]; cbn; [by repeat constructor|].
  destruct (ord_ltb k x); cbn.
  - repeat constructor; try done. rewrite <- list_fmap_compose. by apply Forall_fmap.
  - destruct (ord_ltb x k); cbn; constructor; try done.
    rewrite <- list_fmap_compose. by apply Forall_fmap.
Qed.

Lemma btree_insert_length {V} (k : T) (v : V) m :
  (length (btree_insert k v m) <= 1 + length m)%nat.
Proof.
  induction m as [|[k' v'] m IH]; cbn; [lia|].
  repeat case_match; cbn; lia.
Qed.

Lemma btree_set_insert_length (k : T) s :
  (length (btree_set_insert k s) <= 1 + length s)%nat.
Proof.
  unfold btree_set_insert. rewrite length_fmap.
  pose proof (btree_insert_length k () ((fun x => (x, ())) <$> s)) as H.
  rewrite length_fmap in H. lia.
Qed.

Lemma read_set_Ok n acc bs l r :
  Forall representable acc -> btree_set_sorted acc -> read_set n acc bs = Ok (l, r) ->
  Forall representable l /\ btree_set_sorted l /\
  (length l <= length acc + n)%nat /\ exists p, bs = p ++ r.
Proof.
  revert acc bs. induction n as [|n IH]; intros acc bs Ha Hs H; cbn in H.
  - bytes_inv. split_and!; [done..|lia|by exists []].
  - bytes_inv. apply spec_from in H0 as [Ht [p ->]].
    apply IH in H as (? & ? & Hl & [p' ->]);
      [|by apply btree_set_insert_elem|by apply btree_set_insert_sorted].
    pose proof (btree_set_insert_length t acc).
    split_and!; [done..|lia|exists (p ++ p'); by rewrite app_assoc].
Qed.

Lemma read_set_no_panic n acc bs : no_panic (read_set (T:=T) n acc bs).
Proof.
  revert acc bs. induction n; intros; cbn; [done|].
  apply no_panic_bind; [apply spec_no_panic|]. intros [? ?] _; auto.
Qed.

Definition btree_set_spec : BytesreprSpec (list T) btree_set_bytesrepr.
Proof.
  refine {| representable s := vec_representable s /\ btree_set_sorted s |}; cbn;
    change (@btree_set_to_bytes T D) with (@vecdeque_to_bytes T D).
  - intros v b [Hv _] Hb%checked_to_bytes_Ok. by apply vec_length_law.
  - intros v [[Hr _] _]. unfold iterator_serialized_length.
    pose proof (items_length_nonneg v Hr). lia.
  - intros v b w [Hv _] Hb%checked_to_bytes_Ok. by apply vec_write_law.
  - intros v [Hv _] Hl. rewrite checked_to_bytes_fits by done. by apply vec_total_law.
  - intros v b r [[Hr Hl] Hs] Hb%checked_to_bytes_Ok.
    apply vec_to_bytes_Ok in Hb as (bs & Hbs & -> & Hu). unfold btree_set_from_bytes.
    rewrite <- app_assoc, u32_roundtrip by done. cbn. rewrite Nat2Z.id.
    by erewrite (read_set_chunks []).
  - intros bs. apply no_panic_bind; [apply u32_from_bytes_no_panic|]. intros [n r] _.
    apply read_set_no_panic.
  - intros bs v r H. unfold btree_set_from_bytes in H. bytes_inv.
    apply u32_from_bytes_Ok in H0 as [Hn [p ->]].
    apply read_set_Ok in H as (? & ? & Hl & [p' ->]); [|constructor..].
    unfold vec_representable, in_u, u32_max, u_max in *. cbn in Hl.
    split; [split; [split; [done|lia]|done]|exists (p ++ p'); by rewrite app_assoc].
Defined.
End container_specs.

Section product_specs.
Context {A B : Type} {DA : Bytesrepr A} {SA : BytesreprSpec A DA}.
Context {DB : Bytesrepr B} {SB : BytesreprSpec B DB}.

Definition pair_representable (p : A * B) : Prop := representable p.1 /\ representable p.2.

Lemma pair_length_nonneg p :
  pair_representable p ->
  0 <= serialized_length p.1 /\ 0 <= serialized_length p.2 /\ 0 <= pair_length p.
Proof.
  intros [Ha Hb]. pose proof (spec_length_nonneg _ Ha). pose proof (spec_length_nonneg _ Hb).
  unfold pair_length. lia.
Qed.

#[global] Instance pair_spec : BytesreprSpec (A * B) pair_bytesrepr.
Proof.
  refine {| representable := pair_representable |}; cbn.
  - intros [x y] b [Hx Hy] H. unfold pair_to_bytes, pair_length in *. cbn in *. bytes_inv.
    rewrite length_app, Nat2Z.inj_add.
    use_lengths. lia.
  - intros p Hp%pair_length_nonneg. lia.
  - intros p b w _ Hb. unfold default_write_bytes. by rewrite Hb.
  - intros [x y] Hp Hl. pose proof (pair_length_nonneg _ Hp) as Hn. destruct Hp as [Hx Hy].
    unfold pair_to_bytes. rewrite allocate_buffer_fits by done. unfold pair_length in *. cbn in *.
    destruct (spec_total x Hx) as [b1 ->]; [lia|].
    destruct (spec_total y Hy) as [b2 ->]; [lia|]. by eexists.
  - intros [x y] b r [Hx Hy] H. unfold pair_to_bytes, pair_from_bytes in *. cbn in *. bytes_inv.
    rewrite <- app_assoc. erewrite spec_roundtrip by done. cbn.
    by erewrite spec_roundtrip by done.
  - intros bs. apply no_panic_bind; [apply spec_no_panic|]. intros [? ?] _.
    apply no_panic_bind; [apply spec_no_panic|]. by intros [? ?] _.
  - intros bs [x y] r H. unfold pair_from_bytes in H. bytes_inv.
    apply spec_from in H0 as [Hx [p ->]]. apply spec_from in H1 as [Hy [q ->]].
    split; [done|]. exists (p ++ q). by rewrite app_assoc.
Defined.

Definition sum_representable (r : A + B) : Prop :=
  match r with inl a => representable a | inr b => representable b end.

#[global] Instance result_spec : BytesreprSpec (A + B) result_bytesrepr.
Proof.
  refine {| representable := sum_representable |}; cbn.
  - intros [x|x] b Hx H; unfold result_to_bytes, result_length in *; cbn in *; bytes_inv;
      use_lengths; lia.
  - intros [x|x] Hx; unfold result_length; cbn in *; pose proof (spec_length_nonneg x Hx); lia.
  - intros [x|x] b w Hx H; unfold result_to_bytes in *; cbn in *; bytes_inv;
      erewrite spec_write by done; by rewrite <- app_assoc.
  - intros [x|x] Hx Hl; unfold result_to_bytes; rewrite allocate_buffer_fits by done;
      unfold result_length in *; cbn in *;
      (destruct (spec_total x Hx) as [b ->]; [lia|]); by eexists.
  - intros [x|x] b r Hx H; unfold result_to_bytes, result_from_bytes in *; cbn in *; bytes_inv;
      by erewrite spec_roundtrip by done.
  - intros [|c bs]; [done|]. unfold result_from_bytes. cbn.
    destruct c; try done; (apply no_panic_bind; [apply spec_no_panic|]); by intros [? ?].
  - intros [|c bs] t r; [done|]. unfold result_from_bytes. cbn. intros H.
    destruct c; try done; bytes_inv; apply spec_from in H0 as [Hx [p ->]];
      (split; [done|]); [by exists (Byte.x00 :: p)|by exists (Byte.x01 :: p)].
Defined.
End product_specs.

Section tuple_specs.

Inductive tuple_specs : list {T : Type & Bytesrepr T} -> Type :=
| tuple_specs_nil : tuple_specs []
| tuple_specs_cons T D Ts : BytesreprSpec T D -> tuple_specs Ts -> tuple_specs (existT T D :: Ts).

Fixpoint tuple_representable {Ts} (Ss : tuple_specs Ts) : tuple Ts -> Prop :=
  match Ss with
  | tuple_specs_nil => fun _ => True
  | tuple_specs_cons T D Ts ST Ss => fun t => representable t.1 /\ tuple_representable Ss t.2
  end.

Lemma tuple_length_nonneg {Ts} (Ss : tuple_specs Ts) t :
  tuple_representable Ss t -> 0 <= tuple_length Ts t.
Proof.
  induction Ss as [|T D Ts ST Ss IH]; cbn; [done|]. intros [H1 H2].
  pose proof (spec_length_nonneg _ H1). specialize (IH _ H2). lia.
Qed.

Lemma tuple_append_Ok {Ts} (Ss : tuple_specs Ts) t buf b :
  tuple_representable Ss t -> tuple_append Ts t buf = Ok b ->
  exists p, b = buf ++ p /\ Z.of_nat (length p) = tuple_length Ts t /\
    forall r, tuple_from_bytes Ts (p ++ r) = Ok (t, r).
Proof.
  revert buf. induction Ss as [|T D Ts ST Ss IH]; cbn; intros buf.
  - intros _ [= <-]. exists []. rewrite app_nil_r. by destruct t.
  - destruct t as [x t]. cbn. intros [Hx Ht] (bx & Hbx & H)%bind_Ok.
    destruct (IH _ _ Ht H) as (p & -> & Hl & Hr). exists (bx ++ p). rewrite <- app_assoc.
    split_and!; [done| |].
    + rewrite length_app. apply spec_length in Hbx; [|done]. lia.
    + intros r. rewrite <- app_assoc, (spec_roundtrip _ _ _ Hx Hbx). cbn. by rewrite Hr.
Qed.

Lemma tuple_append_total {Ts} (Ss : tuple_specs Ts) t buf :
  tuple_representable Ss t -> tuple_length Ts t <= u32_max ->
  exists b, tuple_append Ts t buf = Ok b.
Proof.
  revert buf. induction Ss as [|T D Ts ST Ss IH]; cbn; intros buf; [eauto|].
  intros [Hx Ht] Hl. pose proof (spec_length_nonneg _ Hx). pose proof (tuple_length_nonneg Ss _ Ht).
  destruct (spec_total _ Hx) as [b ->]; [lia|]. cbn. apply IH; [done|lia].
Qed.

Definition tuple_spec {Ts} (Ss : tuple_specs Ts) : BytesreprSpec (tuple Ts) (tuple_bytesrepr Ts).
Proof.
  refine {| representable := tuple_representable Ss |};
    cbn [to_bytes from_bytes write_bytes serialized_length tuple_bytesrepr].
  - intros t b Ht (buf & [-> _]%allocate_buffer_Ok & H)%bind_Ok.
    by destruct (tuple_append_Ok Ss t [] b Ht H) as (p & -> & Hl & _).
  - apply tuple_length_nonneg.
  - intros t b w _ Hb. unfold default_write_bytes. by rewrite Hb.
  - intros t Ht Hl. unfold tuple_to_bytes. rewrite allocate_buffer_fits by done.
    by apply (tuple_append_total Ss).
  - intros t b r Ht (buf & [-> _]%allocate_buffer_Ok & H)%bind_Ok.
    by destruct (tuple_append_Ok Ss t [] b Ht H) as (p & -> & _ & Hr).
  - induction Ss as [|T D Ts ST Ss IH]; intros bs; cbn; [done|].
    apply no_panic_bind; [apply spec_no_panic|]. intros [? ?] _.
    apply no_panic_bind; [apply IH|]. by intros [? ?] _.
  - induction Ss as [|T D Ts ST Ss IH]; intros bs t r; cbn.
    + intros [= <- <-]. split; [done|]. by exists [].
    + intros ([x r1] & [Hx [p ->]]%spec_from & ([t' r2] & [Ht [q ->]]%IH & [= <- <-])%bind_Ok)%bind_Ok.
      split; [done|]. exists (p ++ q). by rewrite app_assoc.
Defined.

Definition tuple1_spec {T} {D : Bytesrepr T} {S : BytesreprSpec T D} : BytesreprSpec T tuple1_bytesrepr.
Proof.
  refine {| representable := representable |};
    cbn [to_bytes from_bytes write_bytes serialized_length tuple1_bytesrepr].
  - apply spec_length.
  - apply spec_length_nonneg.
  - intros t b w _ Hb. unfold default_write_bytes. by rewrite Hb.
  - apply spec_total.
  - apply spec_roundtrip.
  - apply spec_no_panic.
  - apply spec_from.
Defined.
End tuple_specs.

Section map_spec.
Context {A B : Type} {DA : Bytesrepr A} {SA : BytesreprSpec A DA}.
Context {DB : Bytesrepr B} {SB : BytesreprSpec B DB}.
Context `{!TotalOrd A} `{!TotalOrdLaws A}.
Implicit Types m : list (A * B).

Definition map_representable m : Prop :=
  Forall pair_representable m /\ Z.of_nat (length m) <= u32_max /\ btree_sorted m.

(** The chunk of an entry is its key's followed by its value's. *)
Definition entry_chunk (e : A * B) (b : list u8) : Prop :=
  exists bk bv, to_bytes e.1 = Ok bk /\ to_bytes e.2 = Ok bv /\ b = bk ++ bv.
Definition entry_chunks m (bs : list (list u8)) : Prop := Forall2 entry_chunk m bs.

Lemma append_entries_Ok w m out :
  append_entries w m = Ok out <-> exists bs, entry_chunks m bs /\ out = w ++ concat bs.
Proof.
  revert w. induction m as [|[k v] m IH]; intros w; cbn.
  - split.
    + intros [= <-]. exists []. split; [constructor|by rewrite app_nil_r].
    + intros (bs & Hbs & ->). inversion Hbs; subst. cbn. by rewrite app_nil_r.
  - rewrite bind_Ok. split.
    + intros (bk & Hk & (bv & Hv & (bs & Hbs & ->)%IH)%bind_Ok).
      exists ((bk ++ bv) :: bs). cbn. rewrite !app_assoc. split; [|done].
      constructor; [by exists bk, bv|done].
    + intros (bs & Hbs & ->).
      inversion Hbs as [|? b ? bs' (bk & bv & Hk & Hv & ->) Hbs']; subst.
      exists bk. split; [done|]. apply bind_Ok. exists bv. split; [done|].
      apply IH. exists bs'. cbn. by rewrite !app_assoc.
Qed.

Lemma entry_chunk_length e b :
  pair_representable e -> entry_chunk e b -> Z.of_nat (length b) = pair_length e.
Proof.
  intros [Hk Hv] (bk & bv & H1 & H2 & ->). unfold pair_length.
  rewrite length_app, Nat2Z.inj_add. apply spec_length in H1, H2; [|done..]. lia.
Qed.

Lemma entry_chunks_length m bs :
  Forall pair_representable m -> entry_chunks m bs ->
  Z.of_nat (4 + length (concat bs)) = btree_map_length m.
Proof.
  intros Hr Hc. unfold btree_map_length. induction Hc as [|e b m bs Hb Hc IH]; cbn; [done|].
  inversion Hr; subst. rewrite length_app.
  rewrite <- (entry_chunk_length e b) by done. specialize (IH ltac:(done)). lia.
Qed.

Lemma write_entries_chunks w m bs :
  Forall pair_representable m -> entry_chunks m bs ->
  write_entries w m = Ok (w ++ concat bs).
Proof.
  intros Hr Hc. revert w.
  induction Hc as [|[k v] b m bs (bk & bv & H1 & H2 & ->) Hc IH]; intros w; cbn.
  - by rewrite app_nil_r.
  - inversion Hr as [|? ? [Hk Hv]]; subst. cbn in *.
    erewrite (spec_write k) by done. cbn. erewrite (spec_write v) by done. cbn.
    rewrite IH by done. by rewrite !app_assoc.
Qed.

Lemma entry_chunks_total m :
  Forall pair_representable m -> btree_map_length m <= u32_max ->
  0 <= btree_map_length m /\ exists bs, entry_chunks m bs.
Proof.
  unfold btree_map_length.
  induction 1 as [|e m He Hm IH]; cbn; [by split; [lia|exists []; constructor]|].
  pose proof (pair_length_nonneg e He) as (? & ? & ?). unfold pair_length in *. intros Hl.
  assert (0 <= foldr (fun e acc => serialized_length e.1 + serialized_length e.2 + acc) 0 m).
  { clear -Hm SA SB. induction Hm as [|e m He Hm IH]; cbn; [lia|].
    pose proof (pair_length_nonneg e He). lia. }
  destruct IH as [_ [bs Hbs]]; [lia|]. destruct He as [Hk Hv].
  destruct (spec_total e.1 Hk) as [bk Hbk]; [lia|].
  destruct (spec_total e.2 Hv) as [bv Hbv]; [lia|].
  split; [lia|]. exists ((bk ++ bv) :: bs). constructor; [by exists bk, bv|done].
Qed.

Lemma read_map_chunks acc m bs r :
  Forall pair_representable m -> entry_chunks m bs -> btree_sorted (acc ++ m) ->
  read_map (length m) acc (concat bs ++ r) = Ok (acc ++ m, r).
Proof.
  intros Hr Hc. revert acc.
  induction Hc as [|[k v] b m bs (bk & bv & H1 & H2 & ->) Hc IH]; intros acc Hs; cbn.
  - by rewrite app_nil_r.
  - inversion Hr as [|? ? [Hk Hv]]; subst. cbn in *. rewrite <- !app_assoc.
    erewrite spec_roundtrip by done. cbn. erewrite spec_roundtrip by done. cbn.
    rewrite btree_insert_last.
    + rewrite IH by (done || by rewrite <- app_assoc). by rewrite <- app_assoc.
    + apply btree_sorted_app in Hs as (_ & _ & Hs).
      eapply Forall_impl; [exact Hs|]. cbn. intros p Hp. by inversion Hp.
Qed.

Lemma btree_map_to_bytes_Ok m b :
  btree_map_to_bytes m = Ok b -> exists bs, entry_chunks m bs /\
    b = u32_to_bytes (Z.of_nat (length m)) ++ concat bs /\ in_u 32 (Z.of_nat (length m)).
Proof.
  unfold btree_map_to_bytes. intros H. bytes_inv.
  apply append_entries_Ok in H as (bs & Hbs & ->). eauto.
Qed.

Lemma btree_insert_Forall_pred (P : A * B -> Prop) k v m :
  P (k, v) -> Forall P m -> Forall P (btree_insert k v m).
Proof.
  intros Hk. induction 1 as [|[k' v'] m H1 H2 IH]; cbn; [by repeat constructor|].
  repeat case_match; by repeat constructor.
Qed.

Lemma read_map_Ok n acc bs m r :
  Forall pair_representable acc -> btree_sorted acc -> read_map n acc bs = Ok (m, r) ->
  Forall pair_representable m /\ btree_sorted m /\
  (length m <= length acc + n)%nat /\ exists p, bs = p ++ r.
Proof.
  revert acc bs. induction n as [|n IH]; intros acc bs Ha Hs H; cbn in H.
  - bytes_inv. split_and!; [done..|lia|by exists []].
  - bytes_inv. apply spec_from in H0 as [Hk [p ->]]. apply spec_from in H1 as [Hv [q ->]].
    apply IH in H as (? & ? & Hl & [p' ->]);
      [|by apply btree_insert_Forall_pred|by apply btree_insert_sorted].
    pose proof (btree_insert_length a b acc).
    split_and!; [done..|lia|exists (p ++ q ++ p'); by rewrite <- !app_assoc].
Qed.

Lemma read_map_no_panic n acc bs : no_panic (read_map (A:=A) (B:=B) n acc bs).
Proof.
  revert acc bs. induction n; intros; cbn; [done|].
  apply no_panic_bind; [apply spec_no_panic|]. intros [? ?] _.
  apply no_panic_bind; [apply spec_no_panic|]. intros [? ?] _; auto.
Qed.

Definition btree_map_spec : BytesreprSpec (list (A * B)) btree_map_bytesrepr.
Proof.
  refine {| representable := map_representable |}; cbn.
  - intros m b (Hr & _ & _) (bs & Hbs & -> & _)%btree_map_to_bytes_Ok. unfold u32_to_bytes.
    rewrite length_app, length_le_encode. by apply entry_chunks_length.
  - intros m (Hr & _). unfold btree_map_length.
    induction Hr as [|e m He Hm IH]; cbn; [lia|].
    pose proof (pair_length_nonneg e He). lia.
  - intros m b w (Hr & Hl & _) (bs & Hbs & -> & _)%btree_map_to_bytes_Ok.
    unfold btree_map_write_bytes. rewrite length_u32_fits by done. cbn.
    erewrite write_entries_chunks by done. by rewrite app_assoc.
  - intros m (Hr & Hl & _) Hs. destruct (entry_chunks_total m) as [_ [bs Hbs]]; [done..|].
    unfold btree_map_to_bytes. rewrite allocate_buffer_fits, length_u32_fits by done. cbn.
    eexists. apply append_entries_Ok. eauto.
  - intros m b r (Hr & Hl & Hs) (bs & Hbs & -> & Hu)%btree_map_to_bytes_Ok.
    unfold btree_map_from_bytes. rewrite <- app_assoc, u32_roundtrip by done. cbn.
    rewrite Nat2Z.id. by erewrite (read_map_chunks []).
  - intros bs. apply no_panic_bind; [apply u32_from_bytes_no_panic|]. intros [n r] _.
    apply read_map_no_panic.
  - intros bs m r H. unfold btree_map_from_bytes in H. bytes_inv.
    apply u32_from_bytes_Ok in H0 as [Hn [p ->]].
    apply read_map_Ok in H as (? & ? & Hl & [p' ->]); [|constructor..].
    unfold map_representable, in_u, u32_max, u_max in *. cbn in Hl.
    split; [split_and!; [done|lia|done]|exists (p ++ p'); by rewrite app_assoc].
Defined.
End map_spec.

(** ** Consequences for clients *)

Section client.
Context {T : Type} {D : Bytesrepr T} {S : BytesreprSpec T D}.

Lemma deserialize_roundtrip (t : T) b :
  representable t -> to_bytes t = Ok b -> deserialize b = Ok t.
Proof.
  intros Ht Hb%(spec_roundtrip _ _ []); [|done]. rewrite app_nil_r in Hb.
  unfold deserialize. by rewrite Hb.
Qed.

Lemma to_bytes_prefix (t1 t2 : T) b1 b2 :
  representable t1 -> representable t2 -> to_bytes t1 = Ok b1 -> to_bytes t2 = Ok b2 ->
  b1 `prefix_of` b2 -> t1 = t2.
Proof.
  intros Ht1 Ht2 H1 H2 [k ->].
  apply (spec_roundtrip _ _ k) in H1; [|done]. apply (spec_roundtrip _ _ []) in H2; [|done].
  rewrite app_nil_r in H2. congruence.
Qed.
End client.
