(* ===== verification/Encoding.v ===== *)
(** * Encodings

    What holds of the serialization of values by itself, whether or not they can be read
    back: no encoding is a prefix of another.  [BytesreprSpec] implies it; unlike
    [BytesreprSpec] it also holds of vectors of zero-sized values, which cannot be read. *)
From S2P Require Import Prelude BTree Bytesrepr.

Open Scope Z_scope.

Class EncodeSpec (T : Type) (D : Bytesrepr T) : Type := {
  (** A value of the Rust type whose element counts fit the length prefixes. *)
  encodable : T -> Prop;
  enc_prefix : forall v1 v2 b1 b2 r1 r2, encodable v1 -> encodable v2 ->
    to_bytes v1 = Ok b1 -> to_bytes v2 = Ok b2 -> b1 ++ r1 = b2 ++ r2 -> v1 = v2 /\ r1 = r2
}.
Arguments encodable {T D _} t.
#[global] Hint Mode EncodeSpec ! - : typeclass_instances.

Definition encode_of_spec {T} {D : Bytesrepr T} (S : BytesreprSpec T D) : EncodeSpec T D.
Proof.
  refine {| encodable := representable |}. intros v1 v2 b1 b2 r1 r2 H1 H2 Hb1 Hb2 E.
  apply (spec_roundtrip _ _ r1) in Hb1; [|done]. apply (spec_roundtrip _ _ r2) in Hb2; [|done].
  rewrite E, Hb2 in Hb1. by injection Hb1.
Defined.

(** [into_bytes] gives what [to_bytes] gives, when it succeeds. *)
Class IntoBytesLaw (T : Type) (D : Bytesrepr T) (I : IntoBytes T D) : Prop :=
  into_to : forall (t : T) b, into_bytes t = Ok b -> to_bytes t = Ok b.
#[global] Instance default_into_law T (D : Bytesrepr T) : IntoBytesLaw T D (default_into_bytes T D).
Proof. by intros t b. Qed.

Lemma u32_prefix n1 n2 r1 r2 : in_u 32 n1 -> in_u 32 n2 -> u32_to_bytes n1 ++ r1 = u32_to_bytes n2 ++ r2 -> n1 = n2 /\ r1 = r2.
Proof.
  intros H1 H2 E. pose proof (u32_roundtrip n1 r1 H1) as R1. rewrite E, (u32_roundtrip n2 r2 H2) in R1. by injection R1.
Qed.

Section one.
Context {T : Type} {D : Bytesrepr T} {S : EncodeSpec T D}.

Lemma chunks_prefix (l1 l2 : list T) bs1 bs2 r1 r2 :
  Forall encodable l1 -> Forall encodable l2 -> chunks_of l1 bs1 -> chunks_of l2 bs2 -> length l1 = length l2 ->
  concat bs1 ++ r1 = concat bs2 ++ r2 -> l1 = l2 /\ r1 = r2.
Proof.
  intros E1 E2 H1. revert l2 bs2 E2. induction H1 as [|t1 b1 l1 bs1 Hb1 H1 IH]; intros l2 bs2 E2 H2 Hl E.
  { destruct l2; [|done]. inversion H2; by subst. }
  inversion H2 as [|t2 b2 l2' bs2' Hb2 H2']; subst; [done|]. apply Forall_cons in E1 as [Et1 E1], E2 as [Et2 E2].
  cbn in E. rewrite <- !app_assoc in E. destruct (enc_prefix t1 t2 _ _ _ _ Et1 Et2 Hb1 Hb2 E) as [-> E'].
  injection Hl as Hl. by destruct (IH E1 l2' bs2' E2 H2' Hl E') as [-> ->].
Qed.

Definition vec_encode `{!SizeOf T} : EncodeSpec (list T) vec_bytesrepr.
Proof.
  refine {| encodable v := Forall encodable v /\ Z.of_nat (length v) <= u32_max |}. cbn [to_bytes vec_bytesrepr].
  intros v1 v2 b1 b2 r1 r2 [E1 _] [E2 _] (bs1 & H1 & -> & U1)%vec_to_bytes_Ok (bs2 & H2 & -> & U2)%vec_to_bytes_Ok E.
  rewrite <- !app_assoc in E. apply u32_prefix in E as [Hl E]; [|done..]. apply Nat2Z.inj in Hl. by apply (chunks_prefix _ _ bs1 bs2).
Defined.

Definition option_encode : EncodeSpec (option T) option_bytesrepr.
Proof.
  refine {| encodable o := from_option encodable True o |}. cbn [to_bytes option_bytesrepr].
  intros [t1|] [t2|] b1 b2 r1 r2 H1 H2 Hb1 Hb2 E; cbn in *; bytes_inv; try done.
  by destruct (enc_prefix t1 t2 _ _ _ _ H1 H2 ltac:(done) ltac:(done) ltac:(done)) as [-> ->].
Defined.

Definition tuple1_encode : EncodeSpec T tuple1_bytesrepr.
Proof. refine {| encodable := encodable |}. cbn [to_bytes tuple1_bytesrepr]. apply enc_prefix. Defined.

Lemma append_consumed_Ok `{!IntoBytes T D} `{!IntoBytesLaw T D _} w (l : list T) b :
  append_consumed w l = Ok b -> append_items w l = Ok b.
Proof.
  revert w. induction l as [|t l IH]; intros w; cbn; [done|]. intros (bt & Ht%into_to & H)%bind_Ok.
  rewrite Ht. cbn. by apply IH.
Qed.
#[global] Instance vec_into_law `{!IntoBytes T D} `{!IntoBytesLaw T D _} `{!SizeOf T} : IntoBytesLaw (list T) vec_bytesrepr vec_into.
Proof.
  intros v b (buf & [-> _]%allocate_buffer_Ok & (n & Hn & H%append_consumed_Ok)%bind_Ok)%bind_Ok.
  cbn [to_bytes vec_bytesrepr]. unfold vec_to_bytes. by rewrite Hn.
Qed.
End one.

Section two.
Context {A B : Type} {DA : Bytesrepr A} {SA : EncodeSpec A DA} {DB : Bytesrepr B} {SB : EncodeSpec B DB}.

Definition pair_encode : EncodeSpec (A * B) pair_bytesrepr.
Proof.
  refine {| encodable p := encodable p.1 /\ encodable p.2 |}. cbn [to_bytes pair_bytesrepr]. unfold pair_to_bytes.
  intros [x1 y1] [x2 y2] b1 b2 r1 r2 [Hx1 Hy1] [Hx2 Hy2] Hb1 Hb2 E. cbn in *. bytes_inv. rewrite <- !app_assoc in E.
  destruct (enc_prefix x1 x2 _ _ _ _ Hx1 Hx2 ltac:(done) ltac:(done) E) as [-> E'].
  by destruct (enc_prefix y1 y2 _ _ _ _ Hy1 Hy2 ltac:(done) ltac:(done) E') as [-> ->].
Defined.

Definition result_encode : EncodeSpec (A + B) result_bytesrepr.
Proof.
  refine {| encodable r := match r with inl a => encodable a | inr b => encodable b end |}. cbn [to_bytes result_bytesrepr]. unfold result_to_bytes.
  intros [x1|x1] [x2|x2] b1 b2 r1 r2 H1 H2 Hb1 Hb2 E; cbn in *; bytes_inv; try done;
    by destruct (enc_prefix x1 x2 _ _ _ _ H1 H2 ltac:(done) ltac:(done) ltac:(done)) as [-> ->].
Defined.

Lemma entry_chunks_prefix (m1 m2 : list (A * B)) bs1 bs2 r1 r2 :
  Forall (encodable (EncodeSpec := pair_encode)) m1 -> Forall (encodable (EncodeSpec := pair_encode)) m2 ->
  entry_chunks m1 bs1 -> entry_chunks m2 bs2 -> length m1 = length m2 -> concat bs1 ++ r1 = concat bs2 ++ r2 -> m1 = m2 /\ r1 = r2.
Proof.
  intros E1 E2 H1. revert m2 bs2 E2. induction H1 as [|[k1 v1] b1 m1 bs1 (bk1 & bv1 & Hk1 & Hv1 & ->) H1 IH]; intros m2 bs2 E2 H2 Hl E.
  { destruct m2; [|done]. inversion H2; by subst. }
  inversion H2 as [|[k2 v2] b2 m2' bs2' (bk2 & bv2 & Hk2 & Hv2 & ->) H2']; subst; [done|].
  apply Forall_cons in E1 as [[Ek1 Ev1] E1], E2 as [[Ek2 Ev2] E2]. cbn in *. rewrite <- !app_assoc in E.
  destruct (enc_prefix k1 k2 _ _ _ _ Ek1 Ek2 Hk1 Hk2 E) as [-> E']. destruct (enc_prefix v1 v2 _ _ _ _ Ev1 Ev2 Hv1 Hv2 E') as [-> E''].
  injection Hl as Hl. by destruct (IH E1 m2' bs2' E2 H2' Hl E'') as [-> ->].
Qed.
Definition map_encode `{!TotalOrd A} : EncodeSpec (list (A * B)) btree_map_bytesrepr.
Proof.
  refine {| encodable m := Forall (encodable (EncodeSpec := pair_encode)) m /\ Z.of_nat (length m) <= u32_max /\ btree_sorted m |}.
  cbn [to_bytes btree_map_bytesrepr].
  intros m1 m2 b1 b2 r1 r2 (E1 & _) (E2 & _) (bs1 & H1 & -> & U1)%btree_map_to_bytes_Ok (bs2 & H2 & -> & U2)%btree_map_to_bytes_Ok E.
  rewrite <- !app_assoc in E. apply u32_prefix in E as [Hl E]; [|done..]. apply Nat2Z.inj in Hl. by apply (entry_chunks_prefix _ _ bs1 bs2).
Defined.
End two.

(** Tuples of any arity *)
Inductive tuple_encodes : list {T : Type & Bytesrepr T} -> Type :=
| tuple_encodes_nil : tuple_encodes []
| tuple_encodes_cons T D Ts : EncodeSpec T D -> tuple_encodes Ts -> tuple_encodes (existT T D :: Ts).
Fixpoint tuple_encodable {Ts} (Ss : tuple_encodes Ts) : tuple Ts -> Prop :=
  match Ss with
  | tuple_encodes_nil => fun _ => True
  | tuple_encodes_cons T D Ts ST Ss => fun t => encodable t.1 /\ tuple_encodable Ss t.2
  end.
Lemma tuple_append_prefix {Ts} (Ss : tuple_encodes Ts) t1 t2 w1 w2 o1 o2 :
  tuple_encodable Ss t1 -> tuple_encodable Ss t2 -> tuple_append Ts t1 w1 = Ok o1 -> tuple_append Ts t2 w2 = Ok o2 ->
  exists p1 p2, o1 = w1 ++ p1 /\ o2 = w2 ++ p2 /\ forall r1 r2, p1 ++ r1 = p2 ++ r2 -> t1 = t2 /\ r1 = r2.
Proof.
  revert w1 w2. induction Ss as [|T D Ts ST Ss IH]; cbn; intros w1 w2.
  - intros _ _ [= <-] [= <-]. exists [], []. rewrite !app_nil_r. by destruct t1, t2.
  - destruct t1 as [x1 t1], t2 as [x2 t2]. cbn. intros [Hx1 Ht1] [Hx2 Ht2] (b1 & Hb1 & H1)%bind_Ok (b2 & Hb2 & H2)%bind_Ok.
    destruct (IH _ _ _ _ Ht1 Ht2 H1 H2) as (p1 & p2 & -> & -> & Hp). exists (b1 ++ p1), (b2 ++ p2). rewrite <- !app_assoc. split_and!; [done|done|].
    intros r1 r2 E. rewrite <- !app_assoc in E. destruct (enc_prefix x1 x2 _ _ _ _ Hx1 Hx2 Hb1 Hb2 E) as [-> E']. by destruct (Hp _ _ E') as [-> ->].
Qed.
Definition tuple_encode {Ts} (Ss : tuple_encodes Ts) : EncodeSpec (tuple Ts) (tuple_bytesrepr Ts).
Proof.
  refine {| encodable := tuple_encodable Ss |}. cbn [to_bytes tuple_bytesrepr].
  intros t1 t2 b1 b2 r1 r2 E1 E2 (buf1 & [-> _]%allocate_buffer_Ok & H1)%bind_Ok (buf2 & [-> _]%allocate_buffer_Ok & H2)%bind_Ok E.
  destruct (tuple_append_prefix Ss t1 t2 [] [] b1 b2 E1 E2 H1 H2) as (p1 & p2 & -> & -> & Hp). by apply Hp.
Defined.
