(* ===== verification/Struct.v ===== *)
(** * Serialization of structs, enums and newtypes

    Almost every type of the repository serializes in one of three ways: a struct
    writes its fields in order, an enum writes a tag byte and then the payload of
    its variant, a newtype delegates to its content.  The three ways are defined
    once, with their laws; a type's own impl is an instance of them. *)
From S2P Require Import Prelude BTree Bytesrepr.

Open Scope Z_scope.

Definition field (T : Type) {D : Bytesrepr T} : {T : Type & Bytesrepr T} := existT T D.

(** A [BTreeMap] and a [BTreeSet] as fields. *)
Abbreviation map_field K V := (field (list (K * V)) (D := btree_map_bytesrepr)).
Abbreviation set_field T := (field (list T) (D := btree_set_bytesrepr)).
#[export] Existing Instances btree_map_spec btree_set_spec.

(** ** Structs *)

(** [self.field.write_bytes(writer)?] for each field *)
Fixpoint struct_write (Ts : list {T : Type & Bytesrepr T}) : tuple Ts -> list u8 -> result Error (list u8) :=
  match Ts with
  | [] => fun _ writer => Ok writer
  | existT T D :: Ts => fun t writer => writer ← write_bytes t.1 writer; struct_write Ts t.2 writer
  end.
(** [let mut buffer = bytesrepr::allocate_buffer(self)?; self.write_bytes(&mut buffer)?] *)
Definition struct_to_bytes (Ts : list {T : Type & Bytesrepr T}) (t : tuple Ts) : result Error (list u8) :=
  buffer ← allocate_buffer (tuple_length Ts t);
  struct_write Ts t buffer.
Definition struct_bytesrepr (Ts : list {T : Type & Bytesrepr T}) : Bytesrepr (tuple Ts) := {|
  to_bytes := struct_to_bytes Ts;
  write_bytes := struct_write Ts;
  serialized_length := tuple_length Ts;
  from_bytes := tuple_from_bytes Ts
|}.

(** ** Enums *)

(** The variants: a tag and the type of the payload. *)
Abbreviation variant_types := (list (u8 * {T : Type & Bytesrepr T})).
Fixpoint variant (Vs : variant_types) : Type :=
  match Vs with
  | [] => Empty_set
  | (_, T) :: Vs => projT1 T + variant Vs
  end.
Fixpoint payload_length (Vs : variant_types) : variant Vs -> Z :=
  match Vs with
  | [] => fun v => match v with end
  | (_, existT T D) :: Vs => fun v => match v with inl x => serialized_length x | inr v => payload_length Vs v end
  end.
Definition enum_length (Vs : variant_types) (v : variant Vs) : Z := 1 + payload_length Vs v.
Fixpoint enum_write (Vs : variant_types) : variant Vs -> list u8 -> result Error (list u8) :=
  match Vs with
  | [] => fun v _ => match v with end
  | (tag, existT T D) :: Vs => fun v writer =>
      match v with inl x => write_bytes x (writer ++ [tag]) | inr v => enum_write Vs v writer end
  end.
Definition enum_to_bytes (Vs : variant_types) (v : variant Vs) : result Error (list u8) :=
  buffer ← allocate_buffer (enum_length Vs v);
  enum_write Vs v buffer.
Fixpoint enum_read (Vs : variant_types) (tag : u8) (bytes : list u8) : result Error (variant Vs * list u8) :=
  match Vs with
  | [] => Err Formatting
  | (t, existT T D) :: Vs =>
      if decide (tag = t) then '(x, remainder) ← from_bytes bytes; Ok (inl x, remainder)
      else '(v, remainder) ← enum_read Vs tag bytes; Ok (inr v, remainder)
  end.
Definition enum_from_bytes (Vs : variant_types) (bytes : list u8) : result Error (variant Vs * list u8) :=
  '(tag, remainder) ← u8_from_bytes bytes;
  enum_read Vs tag remainder.
Definition enum_bytesrepr (Vs : variant_types) : Bytesrepr (variant Vs) := {|
  to_bytes := enum_to_bytes Vs;
  write_bytes := enum_write Vs;
  serialized_length := enum_length Vs;
  from_bytes := enum_from_bytes Vs
|}.

(** ** Newtypes: [A] as a [B] *)

Definition via {A B} (f : A -> B) (g : B -> A) (D : Bytesrepr B) : Bytesrepr A := {|
  to_bytes a := to_bytes (f a);
  write_bytes a := write_bytes (f a);
  serialized_length a := serialized_length (f a);
  from_bytes bytes := '(b, remainder) ← from_bytes bytes; Ok (g b, remainder)
|}.

(** ** Laws *)

(** [p] is the serialization of [t]: what is appended to any buffer, of the
    announced length, and read back in front of any remainder. *)
Definition serializes {T} (D : Bytesrepr T) (t : T) (p : list u8) : Prop :=
  (forall w, write_bytes t w = Ok (w ++ p)) /\ Z.of_nat (length p) = serialized_length t /\
  forall r, from_bytes (p ++ r) = Ok (t, r).

Lemma spec_serializes {T} {D : Bytesrepr T} {ST : BytesreprSpec T D} (t : T) :
  representable t -> serialized_length t <= u32_max -> exists p, serializes D t p.
Proof.
  intros Ht Hl. destruct (spec_total t Ht Hl) as [p Hp]. exists p. split_and!.
  - intros w. by apply spec_write.
  - by apply spec_length.
  - intros r. by apply spec_roundtrip.
Qed.

Lemma struct_serializes {Ts} (Ss : tuple_specs Ts) t :
  tuple_representable Ss t -> tuple_length Ts t <= u32_max -> exists p, serializes (struct_bytesrepr Ts) t p.
Proof.
  unfold serializes. cbn [write_bytes serialized_length from_bytes struct_bytesrepr].
  induction Ss as [|T D Ts' ST Ss' IH]; cbn.
  - intros _ _. exists []. split_and!; [intros w; by rewrite app_nil_r|done|]. by destruct t.
  - destruct t as [x t]. cbn in x |- *. intros [Hx Ht] Hl.
    pose proof (spec_length_nonneg _ Hx). pose proof (tuple_length_nonneg Ss' _ Ht).
    destruct (spec_serializes x Hx) as (px & Hw & Hlx & Hrx); [lia|].
    destruct (IH t Ht) as (p & Hw' & Hlp & Hr'); [lia|]. exists (px ++ p). split_and!.
    + intros w. rewrite Hw. cbn. by rewrite Hw', app_assoc.
    + rewrite length_app. lia.
    + intros r. rewrite <- app_assoc, Hrx. cbn. by rewrite Hr'.
Qed.

Lemma struct_to_bytes_Ok {Ts} (Ss : tuple_specs Ts) t b :
  tuple_representable Ss t -> struct_to_bytes Ts t = Ok b -> serializes (struct_bytesrepr Ts) t b.
Proof.
  intros Ht (buf & [-> Hl]%allocate_buffer_Ok & Hb)%bind_Ok.
  destruct (struct_serializes Ss t Ht Hl) as (p & Hp). pose proof (proj1 Hp []) as E.
  cbn [write_bytes struct_bytesrepr] in E. rewrite Hb in E. by injection E as ->.
Qed.

Definition struct_spec {Ts} (Ss : tuple_specs Ts) : BytesreprSpec (tuple Ts) (struct_bytesrepr Ts).
Proof.
  refine {| representable := tuple_representable Ss |}; cbn [to_bytes struct_bytesrepr].
  - intros t b Ht Hb. by apply (struct_to_bytes_Ok Ss t b).
  - apply tuple_length_nonneg.
  - intros t b w Ht Hb. by apply (struct_to_bytes_Ok Ss t b).
  - intros t Ht Hl. destruct (struct_serializes Ss t Ht Hl) as (p & Hw & _). exists p.
    unfold struct_to_bytes. rewrite allocate_buffer_fits by done. apply Hw.
  - intros t b r Ht Hb. by apply (struct_to_bytes_Ok Ss t b).
  - apply (spec_no_panic (BytesreprSpec := tuple_spec Ss)).
  - apply (spec_from (BytesreprSpec := tuple_spec Ss)).
Defined.

Inductive variant_specs : variant_types -> Type :=
| variant_specs_nil : variant_specs []
| variant_specs_cons tag T D Vs :
    BytesreprSpec T D -> variant_specs Vs -> variant_specs ((tag, existT T D) :: Vs).

Fixpoint variant_representable {Vs} (Ss : variant_specs Vs) : variant Vs -> Prop :=
  match Ss with
  | variant_specs_nil => fun v => match v with end
  | variant_specs_cons tag T D Vs ST Ss => fun v =>
      match v with inl x => representable x | inr v => variant_representable Ss v end
  end.

Lemma payload_length_nonneg {Vs} (Ss : variant_specs Vs) v : variant_representable Ss v -> 0 <= payload_length Vs v.
Proof.
  induction Ss as [|tag T D Vs' ST Ss' IH]; [by destruct v|]. destruct v as [x|v]; cbn in *; [|apply IH].
  apply spec_length_nonneg.
Qed.

Lemma enum_read_known {Vs} (Ss : variant_specs Vs) tag bs v r :
  enum_read Vs tag bs = Ok (v, r) -> tag ∈ Vs.*1 /\ variant_representable Ss v /\ exists p, bs = p ++ r.
Proof.
  induction Ss as [|t T D Vs' ST Ss' IH]; cbn; [done|]. case_decide as E.
  - intros ([x r'] & [Hx Hp]%spec_from & [= <- <-])%bind_Ok. subst. split; [by left|done].
  - intros ([v' r'] & H & [= <- <-])%bind_Ok. apply IH in H as (? & ? & ?). split; [by right|done].
Qed.

Lemma enum_serializes {Vs} (Ss : variant_specs Vs) v :
  NoDup Vs.*1 -> variant_representable Ss v -> enum_length Vs v <= u32_max ->
  exists tag p, tag ∈ Vs.*1 /\ (forall w, enum_write Vs v w = Ok (w ++ tag :: p)) /\
    Z.of_nat (length p) = payload_length Vs v /\ forall r, enum_read Vs tag (p ++ r) = Ok (v, r).
Proof.
  unfold enum_length. induction Ss as [|t T D Vs' ST Ss' IH]; [by destruct v|].
  cbn [fmap list_fmap fst]. intros [Ht Hn]%NoDup_cons. destruct v as [x|v]; cbn in *.
  - intros Hx Hl. destruct (spec_serializes x Hx) as (p & Hw & Hlp & Hr); [lia|].
    exists t, p. split_and!; [by left| |done|].
    + intros w. rewrite Hw. by rewrite <- app_assoc.
    + intros r. rewrite decide_True by done. by rewrite Hr.
  - intros Hv Hl. destruct (IH v Hn Hv Hl) as (tag & p & Hin & Hw & Hlp & Hr).
    exists tag, p. split_and!; [by right|done|done|].
    intros r. rewrite decide_False by (by intros ->). by rewrite Hr.
Qed.

Lemma enum_to_bytes_Ok {Vs} (Ss : variant_specs Vs) v b :
  NoDup Vs.*1 -> variant_representable Ss v -> enum_to_bytes Vs v = Ok b ->
  serializes (enum_bytesrepr Vs) v b.
Proof.
  intros Hn Hv (buf & [-> Hl]%allocate_buffer_Ok & Hb)%bind_Ok.
  destruct (enum_serializes Ss v Hn Hv Hl) as (tag & p & _ & Hw & Hlp & Hr).
  rewrite Hw in Hb. injection Hb as <-. split_and!; [exact Hw| |].
  - cbn. unfold enum_length. lia.
  - intros r. cbn. unfold enum_from_bytes. cbn. apply Hr.
Qed.

Definition enum_spec {Vs} (Ss : variant_specs Vs) (Hn : NoDup Vs.*1) : BytesreprSpec (variant Vs) (enum_bytesrepr Vs).
Proof.
  refine {| representable := variant_representable Ss |}; cbn [to_bytes enum_bytesrepr].
  - intros v b Hv Hb. by apply (enum_to_bytes_Ok Ss v b).
  - intros v Hv. cbn. unfold enum_length. pose proof (payload_length_nonneg Ss v Hv). lia.
  - intros v b w Hv Hb. by apply (enum_to_bytes_Ok Ss v b).
  - intros v Hv Hl. destruct (enum_serializes Ss v Hn Hv Hl) as (tag & p & _ & Hw & _).
    eexists. unfold enum_to_bytes. rewrite allocate_buffer_fits by done. apply Hw.
  - intros v b r Hv Hb. by apply (enum_to_bytes_Ok Ss v b).
  - intros [|tag bs]; [done|]. cbn. clear Hn. induction Ss as [|t T D Vs' ST Ss' IH]; cbn; [done|].
    case_decide; apply no_panic_bind; [apply spec_no_panic|by intros [? ?]|apply IH|by intros [? ?]].
  - intros [|tag bs] v r; [done|]. cbn. intros (_ & Hv & p & ->)%(enum_read_known Ss).
    split; [done|]. by exists (tag :: p).
Defined.

Definition via_spec {A B} (f : A -> B) (g : B -> A) {D : Bytesrepr B} {SB : BytesreprSpec B D}
    (P : A -> Prop) (Hf : forall a, P a -> representable (f a)) (Hgf : forall a, P a -> g (f a) = a)
    (Hg : forall b, representable b -> P (g b)) : BytesreprSpec A (via f g D).
Proof.
  refine {| representable := P |};
    cbn [to_bytes write_bytes serialized_length from_bytes via].
  - intros a b Ha. apply spec_length; auto.
  - intros a Ha. apply spec_length_nonneg; auto.
  - intros a b w Ha. apply spec_write; auto.
  - intros a Ha. apply spec_total; auto.
  - intros a b r Ha Hb. rewrite (spec_roundtrip _ _ r (Hf a Ha) Hb). cbn. by rewrite Hgf.
  - intros bs. apply no_panic_bind; [apply spec_no_panic|]. by intros [x r].
  - intros bs a r ([x r'] & [Hx Hp]%spec_from & [= <- <-])%bind_Ok. auto.
Defined.

(** The laws of the components are found by the type class mechanism. *)
Existing Class tuple_specs.
#[export] Existing Instances tuple_specs_nil tuple_specs_cons.
Existing Class variant_specs.
#[export] Existing Instances variant_specs_nil variant_specs_cons.

(** Distinct tags are checked by evaluation. *)
Ltac distinct_tags := apply (bool_decide_eq_true (NoDup _)); vm_compute; reflexivity.

(** ** A type given by its fields or by its variants *)

Definition struct_as {A} (Ts : list {T : Type & Bytesrepr T}) (f : A -> tuple Ts) (g : tuple Ts -> A) :
    Bytesrepr A := via f g (struct_bytesrepr Ts).
Definition struct_as_spec {A} (Ts : list {T : Type & Bytesrepr T}) {Ss : tuple_specs Ts}
    (f : A -> tuple Ts) (g : tuple Ts -> A) (Hgf : forall a, g (f a) = a) (Hfg : forall t, f (g t) = t) :
    BytesreprSpec A (struct_as Ts f g) :=
  via_spec f g (SB := struct_spec Ss) (fun a => tuple_representable Ss (f a))
    (fun a Ha => Ha) (fun a _ => Hgf a)
    (fun t Ht => eq_ind_r (tuple_representable Ss) Ht (Hfg t)).

Definition enum_as {A} (Vs : variant_types) (f : A -> variant Vs) (g : variant Vs -> A) :
    Bytesrepr A := via f g (enum_bytesrepr Vs).
Definition enum_as_spec {A} (Vs : variant_types) {Ss : variant_specs Vs}
    (f : A -> variant Vs) (g : variant Vs -> A) (Hn : NoDup Vs.*1)
    (Hgf : forall a, g (f a) = a) (Hfg : forall v, f (g v) = v) : BytesreprSpec A (enum_as Vs f g) :=
  via_spec f g (SB := enum_spec Ss Hn) (fun a => variant_representable Ss (f a))
    (fun a Ha => Ha) (fun a _ => Hgf a)
    (fun v Hv => eq_ind_r (variant_representable Ss) Hv (Hfg v)).

(** ** Other ways to write the same bytes

    Some impls of [to_bytes] append the serialized fields or payload instead of
    writing them in place; the provided [write_bytes] then copies the result, and
    a written one writes in place. *)

Definition append_as {A} (Ts : list {T : Type & Bytesrepr T}) (f : A -> tuple Ts) (g : tuple Ts -> A) :
    Bytesrepr A := via f g (tuple_bytesrepr Ts).
Definition append_as_spec {A} (Ts : list {T : Type & Bytesrepr T}) {Ss : tuple_specs Ts}
    (f : A -> tuple Ts) (g : tuple Ts -> A) (Hgf : forall a, g (f a) = a) (Hfg : forall t, f (g t) = t) :
    BytesreprSpec A (append_as Ts f g) :=
  via_spec f g (SB := tuple_spec Ss) (fun a => tuple_representable Ss (f a))
    (fun a Ha => Ha) (fun a _ => Hgf a)
    (fun t Ht => eq_ind_r (tuple_representable Ss) Ht (Hfg t)).

(** Two impls that agree on the values that can be represented. *)
Definition same_spec {T} {D : Bytesrepr T} (S : BytesreprSpec T D) (D' : Bytesrepr T)
    (Ht : forall t b, representable t -> @to_bytes T D' t = Ok b -> @to_bytes T D t = Ok b)
    (Htot : forall t b, representable t -> @serialized_length T D t <= u32_max ->
      @to_bytes T D t = Ok b -> exists b', @to_bytes T D' t = Ok b')
    (Hw : forall t b w, representable t -> @to_bytes T D' t = Ok b -> @write_bytes T D' t w = Ok (w ++ b))
    (Hl : forall t, @serialized_length T D' t = @serialized_length T D t)
    (Hf : forall bs, @from_bytes T D' bs = @from_bytes T D bs) : BytesreprSpec T D'.
Proof.
  refine {| representable := @representable T D S |}.
  - intros t b Hr Hb. rewrite Hl. by eapply spec_length, Ht.
  - intros t Hr. rewrite Hl. by apply spec_length_nonneg.
  - exact Hw.
  - intros t Hr Hle. rewrite Hl in Hle. destruct (spec_total t Hr Hle) as [b Hb]. exact (Htot t b Hr Hle Hb).
  - intros t b r Hr Hb. rewrite Hf. by eapply spec_roundtrip, Ht.
  - intros bs. rewrite Hf. apply spec_no_panic.
  - intros bs t r. rewrite Hf. apply spec_from.
Defined.

Definition mixed_bytesrepr (Ts : list {T : Type & Bytesrepr T}) : Bytesrepr (tuple Ts) := {|
  to_bytes := tuple_to_bytes Ts;
  write_bytes := struct_write Ts;
  serialized_length := tuple_length Ts;
  from_bytes := tuple_from_bytes Ts
|}.
Lemma tuple_append_write {Ts} (Ss : tuple_specs Ts) t buf b w :
  tuple_representable Ss t -> tuple_append Ts t buf = Ok b ->
  exists p, b = buf ++ p /\ struct_write Ts t w = Ok (w ++ p).
Proof.
  revert buf w. induction Ss as [|T D Ts ST Ss IH]; cbn; intros buf w.
  - intros _ [= <-]. exists []. by rewrite !app_nil_r.
  - intros [Hx Ht] (bx & Hbx & H)%bind_Ok. destruct (IH t.2 (buf ++ bx) (w ++ bx) Ht H) as (p & -> & Hp).
    exists (bx ++ p). rewrite (spec_write _ _ w Hx Hbx). cbn [mbind result_bind]. rewrite app_assoc. split; [done|].
    rewrite app_assoc. exact Hp.
Qed.
Definition mixed_spec {Ts} (Ss : tuple_specs Ts) : BytesreprSpec (tuple Ts) (mixed_bytesrepr Ts).
Proof.
  refine (same_spec (tuple_spec Ss) (mixed_bytesrepr Ts) _ _ _ _ _); try done; [eauto|].
  intros t b w Ht. cbn. intros (buf & [-> _]%allocate_buffer_Ok & H)%bind_Ok.
  by destruct (tuple_append_write Ss t [] b w Ht H) as (p & -> & Hp).
Defined.
Definition mixed_as {A} (Ts : list {T : Type & Bytesrepr T}) (f : A -> tuple Ts) (g : tuple Ts -> A) :
    Bytesrepr A := via f g (mixed_bytesrepr Ts).
Definition mixed_as_spec {A} (Ts : list {T : Type & Bytesrepr T}) {Ss : tuple_specs Ts}
    (f : A -> tuple Ts) (g : tuple Ts -> A) (Hgf : forall a, g (f a) = a) (Hfg : forall t, f (g t) = t) :
    BytesreprSpec A (mixed_as Ts f g) :=
  via_spec f g (SB := mixed_spec Ss) (fun a => tuple_representable Ss (f a))
    (fun a Ha => Ha) (fun a _ => Hgf a)
    (fun t Ht => eq_ind_r (tuple_representable Ss) Ht (Hfg t)).

(** Fields appended without checking the total size: [unchecked_allocate_buffer],
    or the buffer of the first field. *)
Definition unchecked_bytesrepr (Ts : list {T : Type & Bytesrepr T}) : Bytesrepr (tuple Ts) := {|
  to_bytes t := tuple_append Ts t [];
  write_bytes := struct_write Ts;
  serialized_length := tuple_length Ts;
  from_bytes := tuple_from_bytes Ts
|}.
Definition unchecked_spec {Ts} (Ss : tuple_specs Ts) : BytesreprSpec (tuple Ts) (unchecked_bytesrepr Ts).
Proof.
  refine {| representable := tuple_representable Ss |};
    cbn [to_bytes from_bytes write_bytes serialized_length unchecked_bytesrepr].
  - intros t b Ht H. by destruct (tuple_append_Ok Ss t [] b Ht H) as (p & -> & Hl & _).
  - apply tuple_length_nonneg.
  - intros t b w Ht H. by destruct (tuple_append_write Ss t [] b w Ht H) as (p & -> & Hp).
  - intros t Ht Hl. by apply (tuple_append_total Ss).
  - intros t b r Ht H. by destruct (tuple_append_Ok Ss t [] b Ht H) as (p & -> & _ & Hr).
  - apply (spec_no_panic (BytesreprSpec := tuple_spec Ss)).
  - apply (spec_from (BytesreprSpec := tuple_spec Ss)).
Defined.
Definition unchecked_as {A} (Ts : list {T : Type & Bytesrepr T}) (f : A -> tuple Ts) (g : tuple Ts -> A) :
    Bytesrepr A := via f g (unchecked_bytesrepr Ts).
Definition unchecked_as_spec {A} (Ts : list {T : Type & Bytesrepr T}) {Ss : tuple_specs Ts}
    (f : A -> tuple Ts) (g : tuple Ts -> A) (Hgf : forall a, g (f a) = a) (Hfg : forall t, f (g t) = t) :
    BytesreprSpec A (unchecked_as Ts f g) :=
  via_spec f g (SB := unchecked_spec Ss) (fun a => tuple_representable Ss (f a))
    (fun a Ha => Ha) (fun a _ => Hgf a)
    (fun t Ht => eq_ind_r (tuple_representable Ss) Ht (Hfg t)).

(** Arrays of a fixed length: the elements in order. *)
Fixpoint array_to_tuple {T} {D : Bytesrepr T} {n} (v : vec T n) : tuple (replicate n (field T)) :=
  match v with
  | [#] => ()
  | x ::: v => (x, array_to_tuple v)
  end.
Fixpoint array_of_tuple {T} {D : Bytesrepr T} (n : nat) : tuple (replicate n (field T)) -> vec T n :=
  match n with
  | O => fun _ => [#]
  | S n => fun t => t.1 ::: array_of_tuple n t.2
  end.
Definition fixed_array_bytesrepr {T} {D : Bytesrepr T} (n : nat) : Bytesrepr (vec T n) :=
  struct_as (replicate n (field T)) array_to_tuple (array_of_tuple n).
Definition replicate_specs {T} {D : Bytesrepr T} {S : BytesreprSpec T D} (n : nat) :
  tuple_specs (replicate n (field T)).
Proof. induction n; cbn; constructor; done. Defined.
Definition fixed_array_spec {T} {D : Bytesrepr T} {S : BytesreprSpec T D} (n : nat) :
  BytesreprSpec (vec T n) (fixed_array_bytesrepr n).
Proof.
  apply (struct_as_spec _ (Ss := replicate_specs n)).
  - intros v. induction v as [|x n v IH]; cbn; [done|]. by rewrite IH.
  - induction n as [|n IH]; cbn; [by intros []|]. intros [x t]. cbn. by rewrite IH.
Defined.

(** The fields of a variant, written in place. *)
Abbreviation fields Ts := (field (tuple Ts) (D := struct_bytesrepr Ts)).
Definition fields_spec Ts {Ss : tuple_specs Ts} : BytesreprSpec (tuple Ts) (struct_bytesrepr Ts) := struct_spec Ss.
#[export] Existing Instance fields_spec.

(** Enums: [buffer.push(tag); buffer.append(&mut payload.to_bytes()?)]. *)
Fixpoint enum_append (Vs : variant_types) : variant Vs -> list u8 -> result Error (list u8) :=
  match Vs with
  | [] => fun v _ => match v with end
  | (tag, existT T D) :: Vs => fun v buffer =>
      match v with inl x => b ← to_bytes x; Ok ((buffer ++ [tag]) ++ b) | inr v => enum_append Vs v buffer end
  end.
Definition enum_append_to_bytes (Vs : variant_types) (v : variant Vs) : result Error (list u8) :=
  buffer ← allocate_buffer (enum_length Vs v);
  enum_append Vs v buffer.
(** With a [write_bytes] in place, or the provided one. *)
Definition mixed_enum_bytesrepr (Vs : variant_types) : Bytesrepr (variant Vs) := {|
  to_bytes := enum_append_to_bytes Vs;
  write_bytes := enum_write Vs;
  serialized_length := enum_length Vs;
  from_bytes := enum_from_bytes Vs
|}.
Definition append_enum_bytesrepr (Vs : variant_types) : Bytesrepr (variant Vs) := {|
  to_bytes := enum_append_to_bytes Vs;
  write_bytes := default_write_bytes (enum_append_to_bytes Vs);
  serialized_length := enum_length Vs;
  from_bytes := enum_from_bytes Vs
|}.
Lemma enum_append_write {Vs} (Ss : variant_specs Vs) v buf b w :
  variant_representable Ss v -> enum_append Vs v buf = Ok b ->
  exists p, b = buf ++ p /\ enum_write Vs v w = Ok (w ++ p).
Proof.
  induction Ss as [|tag T D Vs' ST Ss' IH]; [by destruct v|]. destruct v as [x|v]; cbn; [|apply IH].
  intros Hx (bx & Hbx & [= <-])%bind_Ok. exists (tag :: bx).
  rewrite (spec_write _ _ _ Hx Hbx). by rewrite <- !app_assoc.
Qed.
Lemma enum_append_total {Vs} (Ss : variant_specs Vs) v buf :
  variant_representable Ss v -> payload_length Vs v <= u32_max -> exists b, enum_append Vs v buf = Ok b.
Proof.
  induction Ss as [|tag T D Vs' ST Ss' IH]; [by destruct v|]. destruct v as [x|v]; cbn in *; [|apply IH].
  intros Hx Hl. destruct (spec_total x Hx Hl) as [b ->]. by eexists.
Qed.

Section enum_appends.
Context {Vs : variant_types} (Ss : variant_specs Vs) (Hn : NoDup Vs.*1).
Lemma enum_append_to_bytes_Ok v b w :
  variant_representable Ss v -> enum_append_to_bytes Vs v = Ok b ->
  enum_to_bytes Vs v = Ok b /\ enum_write Vs v w = Ok (w ++ b).
Proof.
  intros Hv (buf & [-> Hl]%allocate_buffer_Ok & H)%bind_Ok. unfold enum_to_bytes.
  rewrite allocate_buffer_fits by done. cbn.
  destruct (enum_append_write Ss v [] b [] Hv H) as (p & -> & Hp).
  by destruct (enum_append_write Ss v [] _ w Hv H) as (q & E & Hq); cbn in E; subst.
Qed.
Lemma enum_append_to_bytes_total v :
  variant_representable Ss v -> enum_length Vs v <= u32_max -> exists b', enum_append_to_bytes Vs v = Ok b'.
Proof.
  intros Hv Hl. unfold enum_append_to_bytes. rewrite allocate_buffer_fits by done.
  apply (enum_append_total Ss); [done|]. unfold enum_length in Hl. lia.
Qed.
Definition mixed_enum_spec : BytesreprSpec (variant Vs) (mixed_enum_bytesrepr Vs).
Proof.
  refine (same_spec (enum_spec Ss Hn) (mixed_enum_bytesrepr Vs) _ _ _ _ _); try done.
  - intros t b Ht Hb. by apply (enum_append_to_bytes_Ok t b []).
  - intros t b Ht Hl _. by apply enum_append_to_bytes_total.
  - intros t b w Ht Hb. by apply (enum_append_to_bytes_Ok t b w).
Defined.
Definition append_enum_spec : BytesreprSpec (variant Vs) (append_enum_bytesrepr Vs).
Proof.
  refine (same_spec (enum_spec Ss Hn) (append_enum_bytesrepr Vs) _ _ _ _ _); try done.
  - intros t b Ht Hb. by apply (enum_append_to_bytes_Ok t b []).
  - intros t b Ht Hl _. by apply enum_append_to_bytes_total.
  - intros t b w Ht Hb. cbn in *. unfold default_write_bytes. by rewrite Hb.
Defined.
End enum_appends.
Definition mixed_enum_as {A} (Vs : variant_types) (f : A -> variant Vs) (g : variant Vs -> A) :
    Bytesrepr A := via f g (mixed_enum_bytesrepr Vs).
Definition mixed_enum_as_spec {A} (Vs : variant_types) {Ss : variant_specs Vs}
    (f : A -> variant Vs) (g : variant Vs -> A) (Hn : NoDup Vs.*1)
    (Hgf : forall a, g (f a) = a) (Hfg : forall v, f (g v) = v) : BytesreprSpec A (mixed_enum_as Vs f g) :=
  via_spec f g (SB := mixed_enum_spec Ss Hn) (fun a => variant_representable Ss (f a))
    (fun a Ha => Ha) (fun a _ => Hgf a)
    (fun v Hv => eq_ind_r (variant_representable Ss) Hv (Hfg v)).
Definition append_enum_as {A} (Vs : variant_types) (f : A -> variant Vs) (g : variant Vs -> A) :
    Bytesrepr A := via f g (append_enum_bytesrepr Vs).
Definition append_enum_as_spec {A} (Vs : variant_types) {Ss : variant_specs Vs}
    (f : A -> variant Vs) (g : variant Vs -> A) (Hn : NoDup Vs.*1)
    (Hgf : forall a, g (f a) = a) (Hfg : forall v, f (g v) = v) : BytesreprSpec A (append_enum_as Vs f g) :=
  via_spec f g (SB := append_enum_spec Ss Hn) (fun a => variant_representable Ss (f a))
    (fun a Ha => Ha) (fun a _ => Hgf a)
    (fun v Hv => eq_ind_r (variant_representable Ss) Hv (Hfg v)).

(** ** Laws of a hand-written impl

    For a type whose serialization always fits in a buffer the laws follow from
    the serialization of each value and two facts on the parser. *)

Definition small_spec {T} (D : Bytesrepr T) (ok : T -> Prop)
    (Hs : forall t, ok t -> exists p, to_bytes t = Ok p /\ serializes D t p)
    (Hn : forall bs, no_panic (from_bytes (T:=T) bs))
    (Hf : forall bs t r, from_bytes (T:=T) bs = Ok (t, r) -> ok t /\ exists p, bs = p ++ r) :
    BytesreprSpec T D.
Proof.
  assert (forall t b, ok t -> to_bytes t = Ok b -> serializes D t b) as Hb.
  { intros t b Ht E. destruct (Hs t Ht) as (p & E' & Hp). rewrite E in E'. by injection E' as ->. }
  refine {| representable := ok |}.
  - intros t b Ht E. apply (Hb t b Ht E).
  - intros t Ht. destruct (Hs t Ht) as (p & _ & _ & <- & _). lia.
  - intros t b w Ht E. apply (Hb t b Ht E).
  - intros t Ht _. destruct (Hs t Ht) as (p & E & _). eauto.
  - intros t b r Ht E. apply (Hb t b Ht E).
  - exact Hn.
  - exact Hf.
Defined.

(** Enums without payloads: one byte. *)
Definition unit_enum {A} (to_u8 : A -> u8) (from_u8 : u8 -> option A) : Bytesrepr A := {|
  to_bytes a := Ok [to_u8 a];
  write_bytes a writer := Ok (writer ++ [to_u8 a]);
  serialized_length _ := 1;
  from_bytes bytes :=
    '(value, remainder) ← from_bytes (T:=u8) bytes;
    a ← ok_or (from_u8 value) Formatting;
    Ok (a, remainder)
|}.
Definition unit_enum_spec {A} (to_u8 : A -> u8) (from_u8 : u8 -> option A)
    (H : forall a, from_u8 (to_u8 a) = Some a) : BytesreprSpec A (unit_enum to_u8 from_u8).
Proof.
  apply (small_spec _ (fun _ => True)).
  - intros a _. exists [to_u8 a]. split; [done|]. split_and!; [done|done|]. intros r. cbn. by rewrite H.
  - intros [|b bs]; cbn; [done|]. by destruct (from_u8 b).
  - intros [|b bs] a r E; cbn in E; [done|]. destruct (from_u8 b); [|done]. injection E as <- <-.
    split; [done|]. by exists [b].
Defined.

(** A bound on the size of all values of a type. *)
Class Bounded (T : Type) {D : Bytesrepr T} : Prop := bounded : forall t : T, serialized_length t <= 128.

Lemma bounded_serializes {T} {D : Bytesrepr T} {ST : BytesreprSpec T D} {BT : Bounded T} (t : T) :
  representable t -> exists p, to_bytes t = Ok p /\ serializes D t p.
Proof.
  intros Ht. assert (serialized_length t <= u32_max) as Hl.
  { pose proof (bounded t). change u32_max with 4294967295. lia. }
  destruct (spec_total t Ht Hl) as [p Hp]. exists p. split; [done|]. split_and!.
  - intros w. by apply spec_write.
  - by apply spec_length.
  - intros r. by apply spec_roundtrip.
Qed.

#[global] Instance array_bounded n : TCEq (Nat.leb n 128) true -> Bounded (vec u8 n).
Proof. intros H v. apply TCEq_eq, Nat.leb_le in H. cbn. lia. Qed.

Lemma allocate_small n : n <= 256 -> allocate_buffer n = Ok [].
Proof. intros H. apply allocate_buffer_fits. change u32_max with 4294967295. lia. Qed.

(** The serializations of the fields named by [representable] hypotheses. *)
Ltac field_bytes :=
  repeat match goal with
  | H : _ /\ _ |- _ => destruct H
  | H : @representable _ _ _ ?x |- _ =>
      let p := fresh "p" in let Ht := fresh "Ht" in let Hw := fresh "Hw" in
      let Hl := fresh "Hl" in let Hr := fresh "Hr" in
      destruct (bounded_serializes x H) as (p & Ht & Hw & Hl & Hr); clear H
  end.
(** Run a writer or a parser on serialized fields. *)
Ltac run_bytes :=
  repeat (progress (cbn [mbind result_bind app] || rewrite <- ?app_assoc ||
    match goal with
    | H : to_bytes ?x = Ok _ |- context [to_bytes ?x] => rewrite H
    | H : forall w, write_bytes ?x w = Ok _ |- context [write_bytes ?x _] => rewrite H
    | H : forall r, from_bytes (?p ++ r) = Ok _ |- context [from_bytes (?p ++ _)] => rewrite H
    end)).
(** Decompose the run of a parser. *)
Ltac parse_inv :=
  repeat (inv_ok; match goal with
    | H : from_bytes _ = Ok (_, _) |- _ => apply spec_from in H as [? [? ->]]
    end); inv_ok.
Ltac parse_no_panic :=
  repeat first
    [ exact I | apply spec_no_panic
    | apply no_panic_bind; [|intros [? ?] _]
    | progress cbn beta iota ].
