(* ===== verification/Uint.v ===== *)
(** * Large unsigned integers: [U128], [U256], [U512]

    Models [types/src/uint.rs].  The types are generated by the [uint] crate's
    [construct_uint!]; a value is the integer it denotes, and the crate's
    arithmetic is arithmetic on integers that panics outside of the range.  The
    code of the file is modelled on top: the length-prefixed serialization,
    Stein's algorithm, and the conversions to and from primitive integers. *)
From S2P Require Import Prelude BTree Bytesrepr Struct.

Open Scope Z_scope.

(** [buf.iter().rev().skip_while(|b| **b == 0)] *)
Fixpoint skip_zeros (bs : list u8) : list u8 :=
  match bs with
  | Byte.x00 :: bs => skip_zeros bs
  | _ => bs
  end.

Section uint.
(** The number of bytes: 16, 32 or 64. *)
Context (total_bytes : nat).

Definition biguint_to_bytes (z : Z) : result Error (list u8) :=
  let non_zero_bytes := skip_zeros (reverse (le_encode total_bytes z)) in
  let num_bytes := u8_of_nat (length non_zero_bytes) in
  Ok (reverse (non_zero_bytes ++ [num_bytes])).
Definition biguint_length (z : Z) : Z :=
  1 + Z.of_nat (length (skip_zeros (reverse (le_encode total_bytes z)))).
Definition biguint_from_bytes (bytes : list u8) : result Error (Z * list u8) :=
  '(num_bytes, rem) ← u8_from_bytes bytes;
  if (total_bytes <? u8_to_nat num_bytes)%nat then Err Formatting
  else
    '(value, rem) ← safe_split_at rem (u8_to_Z num_bytes);
    Ok (le_decode value, rem).
Definition biguint_bytesrepr : Bytesrepr Z := {|
  to_bytes := biguint_to_bytes;
  write_bytes := default_write_bytes biguint_to_bytes;
  serialized_length := biguint_length;
  from_bytes := biguint_from_bytes
|}.
End uint.

Definition U128_bytesrepr : Bytesrepr Z := biguint_bytesrepr 16.
Definition U256_bytesrepr : Bytesrepr Z := biguint_bytesrepr 32.
Definition U512_bytesrepr : Bytesrepr Z := biguint_bytesrepr 64.

(** ** Arithmetic *)

Section arith.
(** The width in bits. *)
Context (w : Z).

Definition wrapping_add (a b : Z) : Z := (a + b) mod 2 ^ w.
Definition wrapping_sub (a b : Z) : Z := (a - b) mod 2 ^ w.

(** The number of trailing zero bits of a non-zero integer. *)
Fixpoint pos_trailing_zeros (p : positive) : Z :=
  match p with
  | xO p => 1 + pos_trailing_zeros p
  | _ => 0
  end.
Definition trailing_zeros (z : Z) : Z :=
  match z with
  | Zpos p => pos_trailing_zeros p
  | _ => w
  end.
Definition shift_out (z : Z) : Z := Z.shiftr z (trailing_zeros z).

(** [while m != n { .. }] of [gcd] *)
Fixpoint gcd_loop (fuel : nat) (m n : Z) : option Z :=
  if m =? n then Some m
  else match fuel with
       | O => None
       | S fuel =>
           if n <? m then gcd_loop fuel (shift_out (m - n)) n
           else gcd_loop fuel m (shift_out (n - m))
       end.
Definition gcd (m n : Z) : option Z :=
  if (m =? 0) || (n =? 0) then Some (Z.lor m n)
  else
    let shift := trailing_zeros (Z.lor m n) in
    (fun r => Z.shiftl r shift mod 2 ^ w) <$> gcd_loop (Z.to_nat (2 * w)) (shift_out m) (shift_out n).

(** [gcd_lcm]; the multiplication panics on overflow. *)
Definition gcd_lcm (m n : Z) : result () (Z * Z) :=
  if (m =? 0) && (n =? 0) then Ok (0, 0)
  else match gcd m n with
       | None => Diverge
       | Some g => lcm ← expect (checked_mul w m (n / g)); Ok (g, lcm)
       end.

(** The remainder panics on a zero divisor. *)
Definition is_multiple_of (a b : Z) : result () bool :=
  if b =? 0 then Panic else Ok (a mod b =? 0).

(** [AsPrimitive] from and to the primitive integers; [self.0[0]] is the lowest
    64-bit word. *)
Definition as_from_signed (bits : Z) (z : Z) : Z :=
  if 0 <=? z then z
  else
    let abs := (0 - z mod 2 ^ bits) mod 2 ^ bits in
    wrapping_sub 0 abs.
Definition word0 (z : Z) : Z := z mod 2 ^ 64.
Definition as_i32 (z : Z) : Z := to_signed 32 (word0 z mod 2 ^ 32).
Definition as_i64 (z : Z) : Z := to_signed 64 (word0 z).
Definition as_u8 (z : Z) : Z := word0 z mod 2 ^ 8.
Definition as_u32 (z : Z) : Z := word0 z mod 2 ^ 32.
Definition as_u64 (z : Z) : Z := word0 z.

(** [Sum]: a fold of the panicking addition. *)
Definition uint_sum (l : list Z) : result () Z :=
  foldl (fun acc x => a ← acc; expect (checked_add w a x)) (Ok 0) l.
End arith.

(** [AsPrimitive] between the large types copies the words that fit. *)
Definition as_biguint (w : Z) (z : Z) : Z := z mod 2 ^ w.

(** ** Serialization laws *)

Lemma skip_zeros_spec bs : exists k, bs = replicate k Byte.x00 ++ skip_zeros bs.
Proof.
  induction bs as [|b bs [k IH]]; [by exists 0%nat|].
  destruct b; try by exists 0%nat. exists (S k). cbn. by rewrite <- IH.
Qed.

Lemma le_decode_app a b :
  le_decode (a ++ b) = le_decode a + 2 ^ (8 * Z.of_nat (length a)) * le_decode b.
Proof.
  induction a as [|x a IH]; [cbn [app length]; change (le_decode []) with 0; lia|].
  change (le_decode ((x :: a) ++ b)) with (u8_to_Z x + 256 * le_decode (a ++ b)).
  change (le_decode (x :: a)) with (u8_to_Z x + 256 * le_decode a). rewrite IH.
  cbn [length]. replace (8 * Z.of_nat (S (length a))) with (8 + 8 * Z.of_nat (length a)) by lia.
  rewrite Z.pow_add_r by lia. change (2 ^ 8) with 256. lia.
Qed.

Lemma le_decode_zeros k : le_decode (replicate k Byte.x00) = 0.
Proof.
  induction k as [|k IH]; [done|]. cbn [replicate].
  change (u8_to_Z Byte.x00 + 256 * le_decode (replicate k Byte.x00) = 0). rewrite IH. done.
Qed.

(** The bytes that are kept: the little-endian bytes without trailing zeros. *)
Lemma trimmed_spec bs :
  let t := reverse (skip_zeros (reverse bs)) in
  le_decode t = le_decode bs /\ (length t <= length bs)%nat.
Proof.
  cbn. destruct (skip_zeros_spec (reverse bs)) as [k E].
  apply (f_equal reverse) in E. rewrite reverse_involutive, reverse_app, reverse_replicate in E.
  split.
  - rewrite E at 2. by rewrite le_decode_app, le_decode_zeros, Z.mul_0_r, Z.add_0_r.
  - rewrite E at 2. rewrite length_app. lia.
Qed.

Section uint_spec.
Context (n : nat) (Hn : (n < 256)%nat).

Lemma biguint_to_bytes_eq z :
  let t := reverse (skip_zeros (reverse (le_encode n z))) in
  biguint_to_bytes n z = Ok (u8_of_nat (length t) :: t).
Proof.
  cbn. unfold biguint_to_bytes. by rewrite reverse_app, length_reverse.
Qed.

Definition biguint_spec : BytesreprSpec Z (biguint_bytesrepr n).
Proof.
  refine {| representable := in_u (8 * Z.of_nat n) : Z -> Prop |};
    cbn [to_bytes from_bytes write_bytes serialized_length biguint_bytesrepr].
  - intros z b _ Hb. rewrite biguint_to_bytes_eq in Hb. injection Hb as <-.
    cbn [length]. rewrite length_reverse. unfold biguint_length. lia.
  - intros z _. unfold biguint_length. lia.
  - intros z b w _ Hb. unfold default_write_bytes. by rewrite Hb.
  - intros z _ _. rewrite biguint_to_bytes_eq. by eexists.
  - intros z b r Hz Hb. rewrite biguint_to_bytes_eq in Hb. injection Hb as <-.
    destruct (trimmed_spec (le_encode n z)) as [Ht Hl]. rewrite length_le_encode in Hl.
    unfold biguint_from_bytes. cbn [app u8_from_bytes mbind result_bind].
    set (t := reverse _) in *. rewrite u8_to_of_nat by lia.
    destruct (Nat.ltb_spec n (length t)); [lia|].
    rewrite <- u8_to_nat_Z, u8_to_of_nat by lia.
    rewrite safe_split_at_app. cbn [mbind result_bind].
    by rewrite Ht, le_decode_encode, Z.mod_small.
  - intros bs. unfold biguint_from_bytes. destruct bs as [|c bs]; [done|].
    cbn [u8_from_bytes mbind result_bind]. destruct (_ <? _)%nat; [done|].
    apply no_panic_bind; [apply safe_split_at_no_panic|]. by intros [? ?].
  - intros bs z r. unfold biguint_from_bytes. destruct bs as [|c bs]; [done|].
    cbn [u8_from_bytes mbind result_bind]. destruct (Nat.ltb_spec n (u8_to_nat c)); [done|].
    pose proof (u8_to_Z_range c). pose proof (u8_to_nat_Z c).
    intros ([v r'] & [-> Hl]%safe_split_at_Ok & [= <- <-])%bind_Ok; [|lia]. split.
    + pose proof (le_decode_range v). unfold in_u.
      assert (2 ^ (8 * Z.of_nat (length v)) <= 2 ^ (8 * Z.of_nat n)); [|lia].
      apply Z.pow_le_mono_r; lia.
    + by exists (c :: v).
Defined.
End uint_spec.

(** ** Stein's algorithm computes the greatest common divisor *)

Lemma pos_trailing_zeros_spec p :
  0 <= pos_trailing_zeros p /\
  exists q, Zpos p = 2 ^ pos_trailing_zeros p * q /\ Z.Odd q /\ 0 < q.
Proof.
  induction p as [p _|p [IH (q & E & Ho & Hq)]|].
  - split; [done|]. exists (Zpos p~1). split_and!; [cbn [pos_trailing_zeros]; lia| |lia].
    exists (Zpos p). lia.
  - cbn [pos_trailing_zeros]. split; [lia|]. exists q. split_and!; [|done|done].
    rewrite Z.pow_add_r by lia. lia.
  - split; [done|]. exists 1. split_and!; [done|by exists 0|lia].
Qed.

Lemma shift_out_spec w z :
  0 < z -> 0 <= trailing_zeros w z /\ z = 2 ^ trailing_zeros w z * shift_out w z /\
  Z.Odd (shift_out w z) /\ 0 < shift_out w z.
Proof.
  intros Hz. destruct z as [|p|]; [lia| |lia]. unfold shift_out. cbn [trailing_zeros].
  destruct (pos_trailing_zeros_spec p) as [H0 (q & E & Ho & Hq)].
  assert (Z.shiftr (Zpos p) (pos_trailing_zeros p) = q) as ->.
  { rewrite Z.shiftr_div_pow2 by done. rewrite E at 1. rewrite Z.mul_comm, Z.div_mul; [done|].
    apply Z.pow_nonzero; lia. }
  done.
Qed.

Lemma odd_gcd_2 m n : Z.Odd n -> Z.gcd (2 * m) n = Z.gcd m n.
Proof.
  intros [x Hx]. apply Z.gcd_unique; [apply Z.gcd_nonneg| | |].
  - apply Z.divide_mul_r, Z.gcd_divide_l.
  - apply Z.gcd_divide_r.
  - intros q Hq1 Hq2. apply Z.gcd_greatest; [|done].
    apply Z.gauss with 2; [done|]. apply Z.divide_1_r_nonneg; [apply Z.gcd_nonneg|].
    apply (Z.divide_add_cancel_r _ (2 * x)).
    + apply Z.divide_mul_l, Z.gcd_divide_r.
    + rewrite <- Hx. transitivity q; [apply Z.gcd_divide_l|done].
Qed.

Lemma odd_gcd_pow2 k m n : 0 <= k -> Z.Odd n -> Z.gcd (2 ^ k * m) n = Z.gcd m n.
Proof.
  intros Hk Hn. revert k Hk. apply natlike_ind; [f_equal; lia|].
  intros k Hk IH. rewrite <- IH, Z.pow_succ_r, <- Z.mul_assoc by done. by apply odd_gcd_2.
Qed.

Lemma gcd_loop_spec w fuel m n :
  0 < m -> 0 < n -> Z.Odd m -> Z.Odd n -> Z.log2 m + Z.log2 n <= Z.of_nat fuel ->
  gcd_loop w fuel m n = Some (Z.gcd m n).
Proof.
  (* one subtraction and shift lowers the logarithm *)
  assert (forall m n, 0 < n -> n < m -> Z.Odd m -> Z.Odd n ->
    let m' := shift_out w (m - n) in
    0 < m' /\ Z.Odd m' /\ Z.log2 m' < Z.log2 m /\ Z.gcd m' n = Z.gcd m n) as Hstep.
  { intros a b Hb Hab [x Ha] [y Hb'] a'.
    destruct (shift_out_spec w (a - b)) as (Ht & E & Ho & Hp); [lia|]. fold a' in E, Ho, Hp. clearbody a'.
    split_and!; [done|done| |].
    - set (t := trailing_zeros w (a - b)) in *.
      assert (t <> 0) as Ht0.
      { intros E0. rewrite E0, Z.pow_0_r, Z.mul_1_l in E. destruct Ho as [z Ho]. lia. }
      assert (2 * a' <= a - b).
      { rewrite E. apply Z.mul_le_mono_nonneg_r; [lia|].
        change 2 with (2 ^ 1) at 1. apply Z.pow_le_mono_r; lia. }
      pose proof (Z.log2_double a' Hp). pose proof (Z.log2_le_mono (2 * a') a ltac:(lia)). lia.
    - rewrite <- (odd_gcd_pow2 (trailing_zeros w (a - b)) a' b) by (done || by exists y).
      rewrite <- E. rewrite Z.gcd_comm, Z.gcd_sub_diag_r, Z.gcd_comm. done. }
  revert m n. induction fuel as [|fuel IH]; intros m n Hm Hn Hom Hon Hf.
  - pose proof (Z.log2_nonneg m). pose proof (Z.log2_nonneg n).
    assert (m <= 1) by (apply Z.log2_null; lia). assert (n <= 1) by (apply Z.log2_null; lia).
    by replace m with 1 by lia; replace n with 1 by lia.
  - cbn [gcd_loop]. destruct (Z.eqb_spec m n) as [->|Hne]; [by rewrite Z.gcd_diag_nonneg by lia|].
    destruct (Z.ltb_spec n m).
    + destruct (Hstep m n) as (? & ? & ? & <-); [done..|]. apply IH; try done. lia.
    + destruct (Hstep n m) as (? & ? & ? & E); [done|lia|done|done|].
      rewrite (Z.gcd_comm m n), <- E, Z.gcd_comm. apply IH; try done. lia.
Qed.

Lemma trailing_zeros_lor w m n :
  0 < m -> 0 < n -> trailing_zeros w (Z.lor m n) = Z.min (trailing_zeros w m) (trailing_zeros w n).
Proof.
  destruct m as [|p|], n as [|q|]; try lia. intros _ _.
  change (pos_trailing_zeros (Pos.lor p q) =
    Z.min (pos_trailing_zeros p) (pos_trailing_zeros q)). revert q. induction p as [p _|p IH|]; intros [q|q|];
    try (pose proof (proj1 (pos_trailing_zeros_spec p)));
    try (pose proof (proj1 (pos_trailing_zeros_spec q))); try (simpl; lia).
  simpl. rewrite IH. lia.
Qed.

Lemma gcd_split a b m n :
  0 <= a -> 0 <= b -> Z.Odd m -> Z.Odd n ->
  Z.gcd (2 ^ a * m) (2 ^ b * n) = 2 ^ Z.min a b * Z.gcd m n.
Proof.
  assert (forall a b m n, 0 <= a <= b -> Z.Odd m -> Z.Odd n ->
    Z.gcd (2 ^ a * m) (2 ^ b * n) = 2 ^ a * Z.gcd m n) as H.
  { intros a' b' m' n' [Ha Hb] Hm Hn. replace b' with (a' + (b' - a')) by lia.
    rewrite Z.pow_add_r, <- Z.mul_assoc, Z.gcd_mul_mono_l_nonneg by (lia || apply Z.pow_nonneg; lia).
    f_equal. rewrite Z.gcd_comm, odd_gcd_pow2 by (lia || done). apply Z.gcd_comm. }
  intros Ha Hb Hm Hn. destruct (Z.le_ge_cases a b).
  - rewrite Z.min_l by done. by apply H.
  - rewrite Z.min_r by done. rewrite Z.gcd_comm, H by done. f_equal. apply Z.gcd_comm.
Qed.

Lemma gcd_spec w m n :
  0 <= w -> in_u w m -> in_u w n -> gcd w m n = Some (Z.gcd m n).
Proof.
  intros Hw [Hm1 Hm2] [Hn1 Hn2]. unfold gcd.
  destruct (Z.eqb_spec m 0) as [->|]; [by rewrite Z.lor_0_l, Z.gcd_0_l_nonneg|].
  destruct (Z.eqb_spec n 0) as [->|]; [by rewrite Z.lor_0_r, Z.gcd_0_r_nonneg|].
  cbn [orb]. destruct (shift_out_spec w m) as (Ht & E & Ho & Hp); [lia|].
  destruct (shift_out_spec w n) as (Ht' & E' & Ho' & Hp'); [lia|].
  rewrite (gcd_loop_spec w _ _ _ Hp Hp' Ho Ho').
  - cbn [fmap option_fmap option_map]. f_equal.
    rewrite trailing_zeros_lor, Z.shiftl_mul_pow2 by lia.
    rewrite Z.mul_comm, <- gcd_split, <- E, <- E' by done.
    apply Z.mod_small. split; [apply Z.gcd_nonneg|].
    pose proof (Z.gcd_divide_l m n) as Hd. apply Z.divide_pos_le in Hd; lia.
  - pose proof (Z.log2_lt_pow2 (shift_out w m) w Hp) as [H1 _].
    pose proof (Z.log2_lt_pow2 (shift_out w n) w Hp') as [H2 _].
    assert (forall k x, 0 <= k -> 0 < x -> x <= 2 ^ k * x) as Hle.
    { intros k x Hk Hx. pose proof (Z.pow_pos_nonneg 2 k). nia. }
    pose proof (Hle _ _ Ht Hp). pose proof (Hle _ _ Ht' Hp'). lia.
Qed.

Lemma as_from_signed_spec w bits z :
  0 < bits <= w -> in_i bits z -> as_from_signed w bits z = z mod 2 ^ w.
Proof.
  intros [Hb Hw] [H1 H2]. unfold as_from_signed.
  assert (2 ^ bits = 2 * 2 ^ (bits - 1)) as E.
  { replace bits with (1 + (bits - 1)) at 1 by lia. rewrite Z.pow_add_r by lia. lia. }
  pose proof (Z.pow_le_mono_r 2 bits w ltac:(lia) ltac:(lia)).
  destruct (Z.leb_spec 0 z); [rewrite Z.mod_small; lia|].
  rewrite <- (Z.mod_add z 1 (2 ^ bits)), (Z.mod_small (z + 1 * 2 ^ bits)) by lia.
  replace (0 - (z + 1 * 2 ^ bits)) with (- z + (-1) * 2 ^ bits) by lia.
  rewrite Z.mod_add, (Z.mod_small (- z)) by lia.
  unfold wrapping_sub. f_equal. lia.
Qed.

Lemma uint_sum_spec w l :
  0 <= w -> Forall (fun x => 0 <= x) l ->
  uint_sum w l = let s := foldr Z.add 0 l in if decide (in_u w s) then Ok s else Panic.
Proof.
  intros Hw Hl. unfold uint_sum.
  assert (forall l acc, Forall (fun x => 0 <= x) l -> 0 <= acc ->
    foldl (fun acc x => a ← acc; expect (checked_add w a x))
      (if decide (in_u w acc) then Ok acc else Panic) l
    = (if decide (in_u w (acc + foldr Z.add 0 l)) then Ok (acc + foldr Z.add 0 l)
       else @Panic () Z)) as H.
  { clear l Hl. induction l as [|x l IH]; intros acc Hl Hacc; cbn [foldl foldr].
    - by rewrite Z.add_0_r.
    - apply Forall_cons in Hl as [Hx Hl]. rewrite (Z.add_assoc acc x).
      rewrite <- IH by (done || lia). f_equal. unfold checked_add, checked, in_u in *.
      repeat case_decide; cbn; try case_decide; try done; lia. }
  specialize (H l 0 Hl ltac:(lia)). rewrite decide_True in H; [exact H|].
  split; [lia|]. by apply Z.pow_pos_nonneg.
Qed.

Lemma lcm_quotient m n :
  0 <= m -> 0 <= n -> (m <> 0 \/ n <> 0) -> m * (n / Z.gcd m n) = Z.lcm m n.
Proof.
  intros Hm Hn Hne. unfold Z.lcm. rewrite Z.abs_eq; [done|].
  apply Z.mul_nonneg_nonneg; [done|]. apply Z.div_pos; [done|].
  pose proof (Z.gcd_nonneg m n). pose proof (Z.gcd_eq_0_l m n). pose proof (Z.gcd_eq_0_r m n). lia.
Qed.

(** On integers of any width, Stein's algorithm terminates with the greatest
    common divisor, and [gcd_lcm] returns it with the least common multiple, or
    panics exactly when the least common multiple does not fit in the width. *)
Theorem gcd_lcm_correct w m n :
  0 <= w -> in_u w m -> in_u w n ->
  gcd w m n = Some (Z.gcd m n) /\
  gcd_lcm w m n = (if decide (Z.lcm m n < 2 ^ w) then Ok (Z.gcd m n, Z.lcm m n) else Panic).
Proof.
  intros Hw Hm Hn. split; [by apply gcd_spec|]. unfold gcd_lcm.
  destruct ((m =? 0) && (n =? 0)) eqn:E.
  - apply andb_true_iff in E as [->%Z.eqb_eq ->%Z.eqb_eq].
    rewrite decide_True; [done|]. by apply Z.pow_pos_nonneg.
  - rewrite gcd_spec by done. destruct Hm, Hn. unfold checked_mul, checked, in_u.
    rewrite lcm_quotient by lia. pose proof (Z.lcm_nonneg m n).
    repeat case_decide; cbn; done || lia.
Qed.

Lemma gcd_lcm_correct_witness :
  gcd 512 (2 ^ 200 * 21) (2 ^ 199 * 35) = Some (2 ^ 199 * 7) /\
  gcd_lcm 8 12 18 = Ok (6, 36) /\ gcd_lcm 8 51 64 = Panic.
Proof.
  split_and!.
  - refine (eq_trans (proj1 (gcd_lcm_correct 512 (2 ^ 200 * 21) (2 ^ 199 * 35) _ _ _)) _);
      [lia|split; vm_compute; done..|vm_compute; reflexivity].
  - refine (eq_trans (proj2 (gcd_lcm_correct 8 12 18 _ _ _)) _);
      [lia|split; vm_compute; done..|vm_compute; reflexivity].
  - refine (eq_trans (proj2 (gcd_lcm_correct 8 51 64 _ _ _)) _);
      [lia|split; vm_compute; done..|vm_compute; reflexivity].
Defined.

(** ** Numbers as fields of structs *)

Abbreviation byte_field := (field Z (D := uint_bytesrepr 1)).
Abbreviation u32_field := (field Z (D := u32_bytesrepr)).
Abbreviation u64_field := (field Z (D := u64_bytesrepr)).
Abbreviation u512_field := (field Z (D := U512_bytesrepr)).
Definition byte_spec : BytesreprSpec Z (uint_bytesrepr 1) := uint_spec 1.
Definition u32_spec : BytesreprSpec Z u32_bytesrepr := uint_spec 4.
Definition u64_spec : BytesreprSpec Z u64_bytesrepr := uint_spec 8.
Definition u512_spec : BytesreprSpec Z U512_bytesrepr := biguint_spec 64 (proj1 (Nat.ltb_lt 64 256) eq_refl).
#[export] Existing Instances byte_spec u32_spec u64_spec u512_spec.
