(* ===== verification/Units.v ===== *)
(** * Eras, times, amounts and protocol versions

    Models the newtypes of [types/src/era_id.rs], [block_time.rs],
    [timestamp.rs], [gas.rs], [motes.rs], [semver.rs] and [protocol_version.rs]:
    their saturating and checked arithmetic, their serialization, and the rule
    that decides whether one protocol version may follow another. *)
From S2P Require Import Prelude BTree Bytesrepr Struct Uint.

Open Scope Z_scope.

(** ** [EraId] *)

Record EraId : Type := mkEraId { era_value : Z }.
#[global] Instance EraId_eq_dec : EqDecision EraId.
Proof. solve_decision. Defined.
Definition EraId_MAX : EraId := mkEraId (u_max 64).
Definition era_successor (e : EraId) : EraId := mkEraId (saturating_add 64 (era_value e) 1).
Definition era_predecessor (e : EraId) : option EraId := mkEraId <$> checked_sub 64 (era_value e) 1.
Definition era_checked_add (e : EraId) (x : Z) : option EraId := mkEraId <$> checked_add 64 (era_value e) x.
Definition era_checked_sub (e : EraId) (x : Z) : option EraId := mkEraId <$> checked_sub 64 (era_value e) x.
Definition era_saturating_sub (e : EraId) (x : Z) : EraId := mkEraId (saturating_sub (era_value e) x).
Definition era_saturating_add (e : EraId) (x : Z) : EraId := mkEraId (saturating_add 64 (era_value e) x).
Definition era_saturating_mul (e : EraId) (x : Z) : EraId := mkEraId (saturating_mul 64 (era_value e) x).
Definition is_genesis (e : EraId) : bool := era_value e =? 0.
(** [start.0..=end.0] *)
Definition era_iter_range_inclusive (start end_ : EraId) : list EraId :=
  mkEraId <$> seqZ (era_value start) (era_value end_ - era_value start + 1).
#[global] Instance EraId_bytesrepr : Bytesrepr EraId := via era_value mkEraId u64_bytesrepr.

(** ** Times, in milliseconds *)

Record BlockTime : Type := mkBlockTime { block_time_value : Z }.
#[global] Instance BlockTime_eq_dec : EqDecision BlockTime.
Proof. solve_decision. Defined.
Definition block_time_saturating_sub (t u : BlockTime) : BlockTime :=
  mkBlockTime (saturating_sub (block_time_value t) (block_time_value u)).
#[global] Instance BlockTime_bytesrepr : Bytesrepr BlockTime := via block_time_value mkBlockTime u64_bytesrepr.

Record Timestamp : Type := mkTimestamp { timestamp_millis : Z }.
Record TimeDiff : Type := mkTimeDiff { diff_millis : Z }.
#[global] Instance Timestamp_eq_dec : EqDecision Timestamp.
Proof. solve_decision. Defined.
#[global] Instance TimeDiff_eq_dec : EqDecision TimeDiff.
Proof. solve_decision. Defined.
Definition timestamp_saturating_diff (t u : Timestamp) : TimeDiff :=
  mkTimeDiff (saturating_sub (timestamp_millis t) (timestamp_millis u)).
Definition timestamp_saturating_sub (t : Timestamp) (d : TimeDiff) : Timestamp :=
  mkTimestamp (saturating_sub (timestamp_millis t) (diff_millis d)).
Definition timestamp_saturating_add (t : Timestamp) (d : TimeDiff) : Timestamp :=
  mkTimestamp (saturating_add 64 (timestamp_millis t) (diff_millis d)).
Definition diff_from_seconds (seconds : Z) : TimeDiff := mkTimeDiff (seconds * 1000).
Definition diff_saturating_add (d : TimeDiff) (rhs : Z) : TimeDiff := mkTimeDiff (saturating_add 64 (diff_millis d) rhs).
Definition diff_saturating_mul (d : TimeDiff) (rhs : Z) : TimeDiff := mkTimeDiff (saturating_mul 64 (diff_millis d) rhs).
Definition diff_checked_mul (d : TimeDiff) (rhs : Z) : option TimeDiff := mkTimeDiff <$> checked_mul 64 (diff_millis d) rhs.
#[global] Instance Timestamp_bytesrepr : Bytesrepr Timestamp := via timestamp_millis mkTimestamp u64_bytesrepr.
#[global] Instance TimeDiff_bytesrepr : Bytesrepr TimeDiff := via diff_millis mkTimeDiff u64_bytesrepr.

(** [HoldsEpoch]; [None] is [NOT_APPLICABLE]. *)
Abbreviation HoldsEpoch := (option Z).
Definition HoldsEpoch_from_block_time (t : BlockTime) (hold_interval : TimeDiff) : HoldsEpoch :=
  Some (saturating_sub (block_time_value t) (diff_millis hold_interval)).
Definition HoldsEpoch_from_timestamp (t : Timestamp) (hold_interval : TimeDiff) : HoldsEpoch :=
  Some (saturating_sub (timestamp_millis t) (diff_millis hold_interval)).
Definition HoldsEpoch_from_millis (timestamp hold_interval : Z) : HoldsEpoch :=
  Some (saturating_sub timestamp hold_interval).

(** ** [Gas] and [Motes]: amounts in [U512] *)

Record Gas : Type := mkGas { gas_value : Z }.
Record Motes : Type := mkMotes { motes_value : Z }.
Definition gas_from_motes (motes : Motes) (motes_per_unit_of_gas : Z) : option Gas :=
  mkGas <$> checked_div 512 (motes_value motes) motes_per_unit_of_gas.
Definition gas_from_price (base_amount gas_price : Z) : option Gas := mkGas <$> checked_div 512 base_amount gas_price.
Definition gas_checked_add (a b : Gas) : option Gas := mkGas <$> checked_add 512 (gas_value a) (gas_value b).
Definition gas_saturating_add (a b : Gas) : Gas := mkGas (saturating_add 512 (gas_value a) (gas_value b)).
Definition gas_saturating_sub (a b : Gas) : Gas := mkGas (saturating_sub (gas_value a) (gas_value b)).
Definition gas_checked_sub (a b : Gas) : option Gas := mkGas <$> checked_sub 512 (gas_value a) (gas_value b).
Definition gas_checked_mul (a b : Gas) : option Gas := mkGas <$> checked_mul 512 (gas_value a) (gas_value b).
Definition gas_checked_div (a b : Gas) : option Gas := mkGas <$> checked_div 512 (gas_value a) (gas_value b).
Definition motes_checked_add (a b : Motes) : option Motes := mkMotes <$> checked_add 512 (motes_value a) (motes_value b).
Definition motes_checked_sub (a b : Motes) : option Motes := mkMotes <$> checked_sub 512 (motes_value a) (motes_value b).
Definition motes_checked_mul (a b : Motes) : option Motes := mkMotes <$> checked_mul 512 (motes_value a) (motes_value b).
Definition motes_checked_div (a b : Motes) : option Motes := mkMotes <$> checked_div 512 (motes_value a) (motes_value b).
Definition motes_from_gas (gas : Gas) (conv_rate : Z) : option Motes := mkMotes <$> checked_mul 512 (gas_value gas) conv_rate.
Definition motes_from_price (amount price : Z) : option Motes := mkMotes <$> checked_mul 512 amount price.
#[global] Instance Gas_bytesrepr : Bytesrepr Gas := via gas_value mkGas U512_bytesrepr.
#[global] Instance Motes_bytesrepr : Bytesrepr Motes := via motes_value mkMotes U512_bytesrepr.

(** ** [SemVer] and [ProtocolVersion] *)

Record SemVer : Type := mkSemVer { major : Z; minor : Z; patch : Z }.
#[global] Instance SemVer_eq_dec : EqDecision SemVer.
Proof. solve_decision. Defined.
Definition semver_to_bytes (v : SemVer) : result Error (list u8) :=
  Ok (u32_to_bytes (major v) ++ u32_to_bytes (minor v) ++ u32_to_bytes (patch v)).
Definition semver_from_bytes (bytes : list u8) : result Error (SemVer * list u8) :=
  '(major, rem) ← u32_from_bytes bytes;
  '(minor, rem) ← u32_from_bytes rem;
  '(patch, rem) ← u32_from_bytes rem;
  Ok (mkSemVer major minor patch, rem).
#[global] Instance SemVer_bytesrepr : Bytesrepr SemVer := {|
  to_bytes := semver_to_bytes;
  write_bytes := default_write_bytes semver_to_bytes;
  serialized_length _ := 12;
  from_bytes := semver_from_bytes
|}.

Record ProtocolVersion : Type := mkProtocolVersion { version : SemVer }.
#[global] Instance ProtocolVersion_eq_dec : EqDecision ProtocolVersion.
Proof. solve_decision. Defined.
Definition protocol_version_write_bytes (v : ProtocolVersion) (writer : list u8) : result Error (list u8) :=
  Ok (((writer ++ u32_to_bytes (major (version v))) ++ u32_to_bytes (minor (version v)))
        ++ u32_to_bytes (patch (version v))).
#[global] Instance ProtocolVersion_bytesrepr : Bytesrepr ProtocolVersion := {|
  to_bytes v := to_bytes (version v);
  write_bytes := protocol_version_write_bytes;
  serialized_length v := serialized_length (version v);
  from_bytes bytes := '(v, rem) ← from_bytes bytes; Ok (mkProtocolVersion v, rem)
|}.

Inductive VersionCheckResult : Type :=
| Valid (is_major_version : bool)
| Invalid.
#[global] Instance VersionCheckResult_eq_dec : EqDecision VersionCheckResult.
Proof. solve_decision. Defined.
Definition is_invalid (r : VersionCheckResult) : bool := match r with Invalid => true | _ => false end.
Definition is_major_version (r : VersionCheckResult) : bool := match r with Valid b => b | Invalid => false end.

Definition check_next_version (self next : ProtocolVersion) : VersionCheckResult :=
  let s := version self in let n := version next in
  let major_bumped := saturating_add 32 (major s) 1 in
  if (major n <? major s) || (major_bumped <? major n) then Invalid
  else if major n =? major_bumped then Valid true
  else if minor n <? minor s then Invalid
  else if minor s <? minor n then Valid false
  else if patch n <=? patch s then Invalid
  else Valid false.
Definition is_compatible_with (self v : ProtocolVersion) : bool := major (version self) =? major (version v).

(** ** Laws of the serialization *)

Definition u64_newtype_spec {A} (f : A -> Z) (g : Z -> A) (Hgf : forall a, g (f a) = a) (Hfg : forall z, f (g z) = z) :
  BytesreprSpec A (via f g u64_bytesrepr) :=
  via_spec f g (SB := uint_spec 8) (fun a => in_u 64 (f a)) (fun a Ha => Ha) (fun a _ => Hgf a)
    (fun z Hz => eq_ind_r (in_u 64) Hz (Hfg z)).
#[global] Instance EraId_spec : BytesreprSpec EraId EraId_bytesrepr.
Proof. apply u64_newtype_spec; [by intros []|done]. Defined.
#[global] Instance BlockTime_spec : BytesreprSpec BlockTime BlockTime_bytesrepr.
Proof. apply u64_newtype_spec; [by intros []|done]. Defined.
#[global] Instance Timestamp_spec : BytesreprSpec Timestamp Timestamp_bytesrepr.
Proof. apply u64_newtype_spec; [by intros []|done]. Defined.
#[global] Instance TimeDiff_spec : BytesreprSpec TimeDiff TimeDiff_bytesrepr.
Proof. apply u64_newtype_spec; [by intros []|done]. Defined.
#[global] Instance EraId_bounded : Bounded EraId.
Proof. by intros []. Qed.
#[global] Instance BlockTime_bounded : Bounded BlockTime.
Proof. by intros []. Qed.
#[global] Instance Timestamp_bounded : Bounded Timestamp.
Proof. by intros []. Qed.
#[global] Instance TimeDiff_bounded : Bounded TimeDiff.
Proof. by intros []. Qed.

Definition version_ok (v : SemVer) : Prop := in_u 32 (major v) /\ in_u 32 (minor v) /\ in_u 32 (patch v).
#[global] Instance SemVer_spec : BytesreprSpec SemVer SemVer_bytesrepr.
Proof.
  apply (small_spec _ version_ok).
  - intros [a b c] (Ha & Hb & Hc). eexists. split; [done|]. split_and!; [done|done|].
    intros r. cbn [from_bytes SemVer_bytesrepr major minor patch] in *. unfold semver_from_bytes.
    rewrite <- !app_assoc. do 3 (rewrite u32_roundtrip by done; cbn [mbind result_bind]). done.
  - intros bs. repeat (apply no_panic_bind; [apply u32_from_bytes_no_panic|intros [? ?] _]). done.
  - intros bs v r H. cbn [from_bytes SemVer_bytesrepr] in H. unfold semver_from_bytes in H. inv_ok.
    repeat match goal with H : u32_from_bytes _ = Ok _ |- _ => apply u32_from_bytes_Ok in H as [? [? ->]] end.
    split; [done|]. eexists. by rewrite !app_assoc.
Defined.

#[global] Instance SemVer_bounded : Bounded SemVer.
Proof. by intros []. Qed.
#[global] Instance ProtocolVersion_spec : BytesreprSpec ProtocolVersion ProtocolVersion_bytesrepr.
Proof.
  apply (small_spec _ (fun v => representable (version v))).
  - intros [v] Hv. cbn [version] in Hv. destruct (bounded_serializes v Hv) as (p & Hp & Hw & Hl & Hr).
    exists p. split; [exact Hp|]. split_and!; [|exact Hl|].
    + intros w. injection Hp as <-. cbn. unfold protocol_version_write_bytes. by rewrite <- !app_assoc.
    + intros r. cbn [from_bytes ProtocolVersion_bytesrepr]. by rewrite Hr.
  - intros bs. apply no_panic_bind; [apply spec_no_panic|by intros [? ?]].
  - intros bs v r H. cbn [from_bytes ProtocolVersion_bytesrepr] in H. parse_inv. eauto.
Defined.
#[global] Instance ProtocolVersion_bounded : Bounded ProtocolVersion.
Proof. by intros []. Qed.

#[global] Instance Gas_spec : BytesreprSpec Gas Gas_bytesrepr.
Proof. unshelve eapply (via_spec _ _ (SB := biguint_spec 64 _) (fun g => in_u 512 (gas_value g))); [lia|done|by intros []|done]. Defined.
#[global] Instance Motes_spec : BytesreprSpec Motes Motes_bytesrepr.
Proof. unshelve eapply (via_spec _ _ (SB := biguint_spec 64 _) (fun g => in_u 512 (motes_value g))); [lia|done|by intros []|done]. Defined.

(** ** Which protocol version may follow another *)

(** The derived order of [ProtocolVersion]: lexicographic. *)
Definition version_lt (a b : ProtocolVersion) : Prop :=
  let v := version a in let w := version b in
  major v < major w \/ major v = major w /\ (minor v < minor w \/ minor v = minor w /\ patch v < patch w).
#[global] Instance version_lt_trans : Transitive version_lt.
Proof. intros [[]] [[]] [[]]. unfold version_lt. cbn. lia. Qed.
Lemma version_lt_irrefl a : ~ version_lt a a.
Proof. unfold version_lt. lia. Qed.

Definition may_follow (a b : ProtocolVersion) : Prop := is_invalid (check_next_version a b) = false.

Lemma check_next_version_major a b :
  version_ok (version a) -> version_ok (version b) -> major (version a) < u_max 32 ->
  check_next_version a b =
    if major (version b) =? major (version a) + 1 then Valid true
    else if bool_decide (version_lt a b /\ major (version b) = major (version a)) then Valid false else Invalid.
Proof.
  destruct a as [[a1 a2 a3]], b as [[b1 b2 b3]]. unfold version_ok, version_lt, check_next_version, saturating_add.
  cbn. intros Ha Hb Hm. replace (Z.min (a1 + 1) (u_max 32)) with (a1 + 1) by lia.
  repeat (match goal with |- context [Z.ltb ?x ?y] => destruct (Z.ltb_spec x y) | |- context [Z.leb ?x ?y] => destruct (Z.leb_spec x y) | |- context [Z.eqb ?x ?y] => destruct (Z.eqb_spec x y) end; cbn [orb]; try lia); try done;
  first [rewrite bool_decide_eq_true_2 by lia | rewrite bool_decide_eq_false_2 by lia]; done.
Qed.

Lemma may_follow_lt a b :
  version_ok (version a) -> version_ok (version b) -> major (version a) < u_max 32 ->
  may_follow a b <-> version_lt a b /\ major (version b) <= major (version a) + 1.
Proof.
  intros Ha Hb Hm. unfold may_follow. rewrite check_next_version_major by done.
  destruct (Z.eqb_spec (major (version b)) (major (version a) + 1)); cbn.
  - split; [|done]. unfold version_lt. lia.
  - case_bool_decide as E; cbn; split; try done; unfold version_lt in *; lia.
Qed.

(** Along any sequence of protocol versions in which each version is accepted
    by [check_next_version] as the successor of the one before, the versions
    strictly increase in the order of [ProtocolVersion] and the major version
    never grows by more than one at a time; so a chain of upgrades never returns
    to a version it has left.  The major versions are below [u32::MAX]. *)
Theorem upgrades_increase (path : list ProtocolVersion) :
  Forall (fun v => version_ok (version v) /\ major (version v) < u_max 32) path ->
  Sorted may_follow path ->
  StronglySorted version_lt path /\ NoDup path /\
  Sorted (fun a b => major (version b) <= major (version a) + 1) path.
Proof.
  intros Hok Hp. assert (Sorted (fun a b => version_lt a b /\ major (version b) <= major (version a) + 1) path) as Hs.
  { induction Hp as [|a path Hp IH Hd]; [done|]. apply Forall_cons in Hok as [[Ha Hm] Hok].
    constructor; [by apply IH|]. destruct Hd as [|b l Hd]; constructor.
    apply Forall_cons in Hok as [[Hb _] _]. by apply may_follow_lt. }
  assert (StronglySorted version_lt path) as Hss.
  { apply Sorted_StronglySorted; [exact version_lt_trans|]. eapply Sorted_impl; [|exact Hs]. naive_solver. }
  split_and!; [done| |eapply Sorted_impl; [|exact Hs]; naive_solver].
  clear Hs Hp Hok. induction Hss as [|a l Hl IH Hf]; constructor; [|done].
  intros Hin. rewrite Forall_forall in Hf. by apply (version_lt_irrefl a), Hf.
Qed.

(** At the largest major version [saturating_add] makes every version with that
    major version pass as a major upgrade, a downgrade included. *)
Lemma saturated_major_accepts_all a b :
  major (version a) = u_max 32 -> major (version b) = u_max 32 -> check_next_version a b = Valid true.
Proof.
  destruct a as [[a1 a2 a3]], b as [[b1 b2 b3]]. cbn. intros -> ->. done.
Qed.

Lemma upgrades_increase_witness :
  let path := mkProtocolVersion <$> [mkSemVer 1 0 0; mkSemVer 1 5 8; mkSemVer 2 0 0; mkSemVer 2 0 3] in
  StronglySorted version_lt path /\ NoDup path /\
  Sorted (fun a b => major (version b) <= major (version a) + 1) path.
Proof.
  apply upgrades_increase.
  - repeat constructor; cbn; unfold u_max; lia.
  - repeat constructor.
Defined.
