(* ===== verification/Digest.v ===== *)
(** * Digests, Merkle trees and chunk proofs

    Models [types/src/digest.rs], [types/src/digest/indexed_merkle_proof.rs] and
    [types/src/digest/chunk_with_proof.rs].  BLAKE2b (crate [blake2]) and the
    tree-shaped fold (crate [itertools]) are parameters. *)
From S2P Require Import Prelude BTree Bytesrepr.

Open Scope Z_scope.

(** [struct Digest([u8; 32])] *)
Definition DIGEST_LENGTH : nat := 32.
Abbreviation Digest := (vec u8 DIGEST_LENGTH).

Definition Digest_filled (b : u8) : Digest := vreplicate DIGEST_LENGTH b.
Definition SENTINEL_NONE : Digest := Digest_filled Byte.x00.
Definition SENTINEL_RFOLD : Digest := Digest_filled Byte.x01.
Definition SENTINEL_MERKLE_TREE : Digest := Digest_filled Byte.x02.

(** ** [itertools::tree_fold1]

    The crate documents the shape: the elements are combined pairwise, then the
    results pairwise, so that a sequence of [n >= 2] elements is split at the
    largest power of two below [n]. *)
Definition pivot (n : nat) : nat := 2 ^ Nat.log2 (n - 1).

Class TreeFold1 : Type := {
  tree_fold1 : forall {A : Type}, (A -> A -> A) -> list A -> option A;
  tree_fold1_nil : forall A (f : A -> A -> A), tree_fold1 f [] = None;
  tree_fold1_one : forall A (f : A -> A -> A) x, tree_fold1 f [x] = Some x;
  tree_fold1_split : forall A (f : A -> A -> A) l, (2 <= length l)%nat ->
    tree_fold1 f l =
      x ← tree_fold1 f (take (pivot (length l)) l);
      y ← tree_fold1 f (drop (pivot (length l)) l);
      Some (f x y)
}.

Lemma pivot_bounds n : (2 <= n)%nat -> (1 <= pivot n < n)%nat /\ (n <= 2 * pivot n)%nat.
Proof.
  intros Hn. unfold pivot.
  destruct (Nat.log2_spec (n - 1)) as [H1 H2]; [lia|]. cbn [Nat.pow] in H2.
  pose proof (Nat.pow_nonzero 2 (Nat.log2 (n - 1))). lia.
Qed.

(** A function with that shape exists. *)
Fixpoint tree_fold_fuel {A} (fuel : nat) (f : A -> A -> A) (l : list A) : option A :=
  match fuel with
  | O => None
  | S fuel =>
      match l with
      | [] => None
      | [x] => Some x
      | _ =>
          x ← tree_fold_fuel fuel f (take (pivot (length l)) l);
          y ← tree_fold_fuel fuel f (drop (pivot (length l)) l);
          Some (f x y)
      end
  end.

Lemma tree_fold_fuel_enough {A} (f : A -> A -> A) n m l :
  (length l <= n)%nat -> (length l <= m)%nat ->
  tree_fold_fuel (S n) f l = tree_fold_fuel (S m) f l.
Proof.
  revert m l. induction n as [|n IH]; intros m l Hn Hm.
  - destruct l; [done|cbn in *; lia].
  - destruct l as [|x [|y l]]; try done. set (k := x :: y :: l) in *.
    assert (2 <= length k)%nat as Hk by (cbn; lia).
    destruct (pivot_bounds _ Hk) as [[??] ?].
    destruct m as [|m]; [cbn in *; lia|].
    change (tree_fold_fuel (S (S n)) f k) with
      (x ← tree_fold_fuel (S n) f (take (pivot (length k)) k);
       y ← tree_fold_fuel (S n) f (drop (pivot (length k)) k); Some (f x y)).
    change (tree_fold_fuel (S (S m)) f k) with
      (x ← tree_fold_fuel (S m) f (take (pivot (length k)) k);
       y ← tree_fold_fuel (S m) f (drop (pivot (length k)) k); Some (f x y)).
    rewrite (IH m (take _ k)), (IH m (drop _ k));
      rewrite ?length_take, ?length_drop; done || lia.
Qed.

Definition tree_fold_ref {A} (f : A -> A -> A) (l : list A) : option A :=
  tree_fold_fuel (S (length l)) f l.

Definition TreeFold1_ref : TreeFold1.
Proof.
  refine {| tree_fold1 := @tree_fold_ref |}; try done.
  intros A f l Hl. unfold tree_fold_ref. destruct (pivot_bounds _ Hl) as [[??] ?].
  rewrite (tree_fold_fuel_enough f (length (take _ l)) (length l - 1));
    [|done|rewrite length_take; lia].
  rewrite (tree_fold_fuel_enough f (length (drop _ l)) (length l - 1));
    [|done|rewrite length_drop; lia].
  destruct l as [|x [|y l]]; cbn in Hl; try lia. set (k := x :: y :: l) in *.
  replace (S (length k - 1)) with (length k) by (cbn; lia). done.
Defined.

(** ** Hashing *)

Section hashing.
(** [VarBlake2b] over the concatenation of the data fed to [update]. *)
Context (blake2b : list u8 -> Digest).
Context {TF : TreeFold1}.
(** [ChunkWithProof::CHUNK_SIZE_BYTES]: 8 MiB, and 10 under [cfg(test)]. *)
Context (CHUNK_SIZE_BYTES : nat).

Definition blake2b_hash (data : list u8) : Digest := blake2b data.
Definition hash (data : list u8) : Digest := blake2b_hash data.
Definition hash_pair (data1 data2 : list u8) : Digest := blake2b (data1 ++ data2).
Definition hash_digests (d1 d2 : Digest) : Digest :=
  hash_pair (vec_to_list d1) (vec_to_list d2).

Definition CHUNK_DATA_ZEROED : list u8 := replicate CHUNK_SIZE_BYTES Byte.x00.
Definition hash_merkle_root (leaf_count : Z) (root : Digest) : Digest :=
  blake2b (CHUNK_DATA_ZEROED ++ le_encode 8 leaf_count ++ vec_to_list root).

Definition hash_merkle_tree (leaves : list Digest) : Digest :=
  let leaf_count := Z.of_nat (length leaves) mod 2 ^ 64 in
  match tree_fold1 hash_digests leaves with
  | None => SENTINEL_MERKLE_TREE
  | Some raw_root => hash_merkle_root leaf_count raw_root
  end.

Definition hash_slice_with_proof (slice : list Digest) (proof : Digest) : Digest :=
  foldr (fun next prev => hash_digests next prev) proof slice.
Definition hash_slice_rfold (slice : list Digest) : Digest :=
  hash_slice_with_proof slice SENTINEL_RFOLD.

(** [hash_btree_map]: one pair hash per entry, then the Merkle tree. *)
Fixpoint kv_hashes {K V} `{Bytesrepr K, Bytesrepr V} (m : list (K * V)) :
    result Error (list Digest) :=
  match m with
  | [] => Ok []
  | (key, value) :: m =>
      k ← to_bytes key;
      v ← to_bytes value;
      rest ← kv_hashes m;
      Ok (hash_digests (hash k) (hash v) :: rest)
  end.
Definition hash_btree_map {K V} `{Bytesrepr K, Bytesrepr V} (m : list (K * V)) :
    result Error Digest :=
  hashes ← kv_hashes m; Ok (hash_merkle_tree hashes).

(** [slice::chunks]: consecutive pieces of [n] bytes, the last one shorter. *)
Fixpoint chunks_fuel (fuel n : nat) (bytes : list u8) : list (list u8) :=
  match fuel with
  | O => []
  | S fuel =>
      match bytes with
      | [] => []
      | _ => take n bytes :: chunks_fuel fuel n (drop n bytes)
      end
  end.
Definition chunks (n : nat) (bytes : list u8) : list (list u8) :=
  chunks_fuel (length bytes) n bytes.

Definition hash_into_chunks_if_necessary (bytes : list u8) : Digest :=
  if (length bytes <=? CHUNK_SIZE_BYTES)%nat then blake2b_hash bytes
  else hash_merkle_tree (blake2b_hash <$> chunks CHUNK_SIZE_BYTES bytes).

(** ** [IndexedMerkleProof] *)

Record IndexedMerkleProof : Type := mkIndexedMerkleProof {
  index : Z;
  count : Z;
  merkle_proof : list Digest
}.

Inductive MerkleConstructionError : Type :=
| TooManyLeaves
| ConstructionIndexOutOfBounds (count index : Z).
Inductive MerkleVerificationError : Type :=
| IndexOutOfBounds (count index : Z)
| UnexpectedProofLength (count index expected_proof_length : Z) (actual_proof_length : nat).

Inductive HashOrProof : Type :=
| HP_Hash (hash : Digest)
| HP_Proof (proof : list Digest).

(** The combining closure of [new]; [None] is [unreachable!()]. *)
Definition combine_hash_or_proof (x y : option HashOrProof) : option HashOrProof :=
  match x, y with
  | Some (HP_Hash hash_x), Some (HP_Hash hash_y) => Some (HP_Hash (hash_digests hash_x hash_y))
  | Some (HP_Hash hash), Some (HP_Proof proof) => Some (HP_Proof (proof ++ [hash]))
  | Some (HP_Proof proof), Some (HP_Hash hash) => Some (HP_Proof (proof ++ [hash]))
  | _, _ => None
  end.
Definition mark_leaf (index : Z) (i : nat) (hash : Digest) : option HashOrProof :=
  Some (if Z.of_nat i =? index then HP_Proof [hash] else HP_Hash hash).

Definition IndexedMerkleProof_new (leaves : list Digest) (index : Z) :
    result MerkleConstructionError IndexedMerkleProof :=
  count ← (if 2 ^ 64 <=? Z.of_nat (length leaves) then Err TooManyLeaves
           else Ok (Z.of_nat (length leaves)));
  match tree_fold1 combine_hash_or_proof (imap (mark_leaf index) leaves) with
  | None | Some (Some (HP_Hash _)) => Err (ConstructionIndexOutOfBounds count index)
  | Some (Some (HP_Proof proof)) => Ok (mkIndexedMerkleProof index count proof)
  | Some None => Panic
  end.

(** The loop of [compute_root_hash] that finds the path: 1 is "hash right".
    the pivot is [1u64 << (63 - (n - 1).leading_zeros())]. *)
Definition leading_zeros (n : Z) : Z := if n =? 0 then 64 else 63 - Z.log2 n.
Definition u64_pivot (n : Z) : Z := Z.shiftl 1 (63 - leading_zeros (n - 1)).
Fixpoint path_loop (fuel : nat) (path n i : Z) : option Z :=
  match fuel with
  | O => if n >? 1 then None else Some path
  | S fuel =>
      if n >? 1 then
        let path := Z.shiftl path 1 mod 2 ^ 64 in
        let pivot := u64_pivot n in
        if i <? pivot then path_loop fuel path pivot i
        else path_loop fuel (Z.lor path 1) (n - pivot) (i - pivot)
      else Some path
  end.
Fixpoint fold_proof (path : Z) (acc : Digest) (hashes : list Digest) : Digest :=
  match hashes with
  | [] => acc
  | hash :: hashes =>
      let digest := if Z.land path 1 =? 1 then hash_digests hash acc
                    else hash_digests acc hash in
      fold_proof (Z.shiftr path 1) digest hashes
  end.
(** 64 iterations are enough: see [path_loop_total]. *)
Definition compute_root_hash (p : IndexedMerkleProof) : option Digest :=
  raw_root ←
    match merkle_proof p with
    | leaf_hash :: hashes =>
        path ← path_loop 64 0 (count p) (index p);
        Some (fold_proof path leaf_hash hashes)
    | [] => Some SENTINEL_MERKLE_TREE
    end;
  Some (hash_merkle_root (count p) raw_root).

Fixpoint proof_length_loop (fuel : nat) (l n i : Z) : option Z :=
  match fuel with
  | O => if n >? 1 then None else Some l
  | S fuel =>
      if n >? 1 then
        let pivot := u64_pivot n in
        if i <? pivot then proof_length_loop fuel (l + 1) pivot i
        else proof_length_loop fuel (l + 1) (n - pivot) (i - pivot)
      else Some l
  end.
Definition compute_expected_proof_length (p : IndexedMerkleProof) : option Z :=
  if count p =? 0 then Some 0 else proof_length_loop 64 1 (count p) (index p).

Definition verify (p : IndexedMerkleProof) : result MerkleVerificationError () :=
  if index p >=? count p then Err (IndexOutOfBounds (count p) (index p)) else
  match compute_expected_proof_length p with
  | None => Diverge
  | Some expected_proof_length =>
      if Z.of_nat (length (merkle_proof p)) =? expected_proof_length then Ok ()
      else Err (UnexpectedProofLength (count p) (index p) expected_proof_length
                  (length (merkle_proof p)))
  end.

(** ** [ChunkWithProof] *)

Record ChunkWithProof : Type := mkChunkWithProof {
  proof : IndexedMerkleProof;
  chunk : list u8
}.

Inductive ChunkWithProofVerificationError : Type :=
| MerkleVerification (e : MerkleVerificationError)
| ChunkWithProofHasEmptyMerkleProof
| FirstDigestInMerkleProofDidNotMatchHashOfChunk (first hash_of_chunk : Digest).

Definition ChunkWithProof_new (data : list u8) (index : Z) :
    result MerkleConstructionError ChunkWithProof :=
  match data with
  | [] =>
      proof ← IndexedMerkleProof_new [blake2b_hash []] index;
      Ok (mkChunkWithProof proof [])
  | _ =>
      proof ← IndexedMerkleProof_new (blake2b_hash <$> chunks CHUNK_SIZE_BYTES data) index;
      chunk ← ok_or (chunks CHUNK_SIZE_BYTES data !! Z.to_nat index)
                (ConstructionIndexOutOfBounds
                   (Z.of_nat (length (chunks CHUNK_SIZE_BYTES data))) index);
      Ok (mkChunkWithProof proof chunk)
  end.

Definition ChunkWithProof_verify (c : ChunkWithProof) :
    result ChunkWithProofVerificationError () :=
  _ ← map_err MerkleVerification (verify (proof c));
  first ← ok_or (head (merkle_proof (proof c))) ChunkWithProofHasEmptyMerkleProof;
  let hash_of_chunk := hash (chunk c) in
  if decide (first = hash_of_chunk) then Ok ()
  else Err (FirstDigestInMerkleProofDidNotMatchHashOfChunk first hash_of_chunk).
End hashing.

(** ** The path of an index *)

(** The directions taken from the root, [true] for "right". *)
Inductive Path : Z -> Z -> list bool -> Prop :=
| Path_done n i : n <= 1 -> Path n i []
| Path_left n i ds : 1 < n -> i < u64_pivot n -> Path (u64_pivot n) i ds ->
    Path n i (false :: ds)
| Path_right n i ds : 1 < n -> u64_pivot n <= i -> Path (n - u64_pivot n) (i - u64_pivot n) ds ->
    Path n i (true :: ds).

(** The bits of a path, most significant first. *)
Definition path_bits (start : Z) (ds : list bool) : Z :=
  foldl (fun p (b : bool) => 2 * p + (if b then 1 else 0)) start ds.

Lemma u64_pivot_pow n : 1 < n -> u64_pivot n = 2 ^ Z.log2 (n - 1).
Proof.
  intros Hn. unfold u64_pivot, leading_zeros.
  destruct (Z.eqb_spec (n - 1) 0); [lia|].
  pose proof (Z.log2_nonneg (n - 1)). rewrite Z.shiftl_mul_pow2 by lia.
  rewrite Z.mul_1_l. f_equal. lia.
Qed.

Lemma u64_pivot_bounds n : 1 < n -> 1 <= u64_pivot n < n /\ n <= 2 * u64_pivot n.
Proof.
  intros Hn. rewrite u64_pivot_pow by done.
  pose proof (Z.log2_spec (n - 1)) as [H1 H2]; [lia|].
  rewrite Z.pow_succ_r in H2 by apply Z.log2_nonneg.
  pose proof (Z.pow_pos_nonneg 2 (Z.log2 (n - 1))). pose proof (Z.log2_nonneg (n - 1)). lia.
Qed.

Lemma u64_pivot_nat n : (2 <= n)%nat -> u64_pivot (Z.of_nat n) = Z.of_nat (pivot n).
Proof.
  intros Hn. rewrite u64_pivot_pow by lia. unfold pivot. rewrite Nat2Z.inj_pow. f_equal.
  destruct (Nat.log2_spec (n - 1)) as [H1 H2]; [lia|].
  apply Z.log2_unique; [lia|]. rewrite <- Nat2Z.inj_succ, <- !(Nat2Z.inj_pow 2). lia.
Qed.

(** Both halves are at most half of the next power of two. *)
Lemma pivot_log n k :
  1 < n -> n <= 2 ^ Z.of_nat (S k) ->
  u64_pivot n <= 2 ^ Z.of_nat k /\ n - u64_pivot n <= 2 ^ Z.of_nat k.
Proof.
  intros Hn Hk. pose proof (u64_pivot_bounds n Hn). rewrite u64_pivot_pow in * by done.
  assert (2 ^ Z.log2 (n - 1) <= 2 ^ Z.of_nat k).
  { apply Z.pow_le_mono_r; [lia|].
    pose proof (Z.log2_le_mono (n - 1) (Z.pred (2 ^ Z.of_nat (S k))) ltac:(lia)) as Hl.
    rewrite Z.log2_pred_pow2 in Hl by lia. lia. }
  lia.
Qed.

(** A count below [2^k] gives a path of at most [k] directions. *)
Lemma Path_total k n i : n <= 2 ^ Z.of_nat k -> exists ds, Path n i ds /\ (length ds <= k)%nat.
Proof.
  revert n i. induction k as [|k IH]; intros n i Hn.
  - exists []. split; [by constructor|cbn; lia].
  - destruct (decide (n <= 1)); [exists []; split; [by constructor|cbn; lia]|].
    destruct (pivot_log n k) as [H1 H2]; [lia|done|].
    destruct (decide (i < u64_pivot n)).
    + destruct (IH _ i H1) as (ds & ? & ?). exists (false :: ds).
      split; [apply Path_left; auto; lia|cbn; lia].
    + destruct (IH _ (i - u64_pivot n) H2) as (ds & ? & ?). exists (true :: ds).
      split; [apply Path_right; auto; lia|cbn; lia].
Qed.

Lemma Path_det n i ds1 ds2 : Path n i ds1 -> Path n i ds2 -> ds1 = ds2.
Proof.
  intros H1. revert ds2. induction H1; inversion 1; subst; try lia; f_equal; auto.
Qed.

Lemma path_loop_Path fuel path n i ds :
  Path n i ds -> (length ds <= fuel)%nat ->
  0 <= path < 2 ^ (64 - Z.of_nat (length ds)) -> Z.of_nat (length ds) <= 64 ->
  path_loop fuel path n i = Some (path_bits path ds).
Proof.
  intros HP. revert fuel path. induction HP as [n i Hn|n i ds Hn Hi HP IH|n i ds Hn Hi HP IH];
    intros fuel path Hf Hp Hl.
  - destruct fuel; cbn; destruct (Z.gtb_spec n 1); done || lia.
  - destruct fuel as [|fuel]; cbn in Hf, Hl, Hp; [lia|]. cbn [path_loop].
    destruct (Z.gtb_spec n 1); [|lia]. destruct (Z.ltb_spec i (u64_pivot n)); [|lia].
    assert (2 ^ (64 - Z.of_nat (length ds)) = 2 * 2 ^ (64 - Z.of_nat (S (length ds)))) as Hpow.
    { rewrite <- Z.pow_succ_r by lia. f_equal. lia. }
    assert (2 ^ (64 - Z.of_nat (length ds)) <= 2 ^ 64) by (apply Z.pow_le_mono_r; lia).
    rewrite Z.shiftl_mul_pow2, Z.mod_small by lia.
    rewrite IH by lia. cbn. f_equal. f_equal. lia.
  - destruct fuel as [|fuel]; cbn in Hf, Hl, Hp; [lia|]. cbn [path_loop].
    destruct (Z.gtb_spec n 1); [|lia]. destruct (Z.ltb_spec i (u64_pivot n)); [lia|].
    assert (2 ^ (64 - Z.of_nat (length ds)) = 2 * 2 ^ (64 - Z.of_nat (S (length ds)))) as Hpow.
    { rewrite <- Z.pow_succ_r by lia. f_equal. lia. }
    assert (2 ^ (64 - Z.of_nat (length ds)) <= 2 ^ 64) by (apply Z.pow_le_mono_r; lia).
    rewrite Z.shiftl_mul_pow2, Z.mod_small by lia.
    assert (Z.lor (path * 2 ^ 1) 1 = 2 * path + 1) as ->.
    { pose proof (Z.add_lor_land (path * 2 ^ 1) 1) as E.
      rewrite Z.land_comm in E. change 1 with (Z.ones 1) in E at 3.
      rewrite Z.land_comm, Z.land_ones, Z.mod_mul in E by lia. lia. }
    rewrite IH by lia. done.
Qed.

Lemma proof_length_loop_Path fuel l n i ds :
  Path n i ds -> (length ds <= fuel)%nat ->
  proof_length_loop fuel l n i = Some (l + Z.of_nat (length ds)).
Proof.
  intros HP. revert fuel l. induction HP; intros fuel l Hf.
  - destruct fuel; cbn; destruct (Z.gtb_spec n 1); f_equal; lia.
  - destruct fuel as [|fuel]; cbn in Hf; [lia|]. cbn [proof_length_loop].
    destruct (Z.gtb_spec n 1); [|lia]. destruct (Z.ltb_spec i (u64_pivot n)); [|lia].
    rewrite IHHP by lia. cbn. f_equal. lia.
  - destruct fuel as [|fuel]; cbn in Hf; [lia|]. cbn [proof_length_loop].
    destruct (Z.gtb_spec n 1); [|lia]. destruct (Z.ltb_spec i (u64_pivot n)); [lia|].
    rewrite IHHP by lia. cbn. f_equal. lia.
Qed.

(** Every 64-bit count has a path of at most 64 directions, so both loops
    terminate within their fuel. *)
Lemma path_loop_total n i :
  in_u 64 n -> exists ds, Path n i ds /\ (length ds <= 64)%nat /\
    path_loop 64 0 n i = Some (path_bits 0 ds) /\
    proof_length_loop 64 1 n i = Some (1 + Z.of_nat (length ds)).
Proof.
  intros Hn. destruct (Path_total 64 n i) as (ds & HP & Hl).
  { unfold in_u in Hn. change (Z.of_nat 64) with 64. lia. }
  exists ds. split_and!; [done|done| |by apply proof_length_loop_Path].
  apply path_loop_Path; [done..| |lia].
  split; [lia|]. apply Z.pow_pos_nonneg; lia.
Qed.

Lemma path_bits_snoc ds b :
  path_bits 0 (ds ++ [b]) = 2 * path_bits 0 ds + (if b then 1 else 0).
Proof. unfold path_bits. by rewrite foldl_snoc. Qed.

Lemma path_bits_nonneg s ds : 0 <= s -> 0 <= path_bits s ds.
Proof.
  revert s. induction ds as [|b ds IH]; intros s Hs; [done|]. cbn. apply IH. destruct b; lia.
Qed.

Section merkle_laws.
Context (blake2b : list u8 -> Digest) {TF : TreeFold1} (CHUNK_SIZE_BYTES : nat).
Abbreviation hd := (hash_digests blake2b).
Abbreviation raw_root := (tree_fold1 hd).
Abbreviation combine := (combine_hash_or_proof blake2b).

(** One step up: [true] means the known node is the right child. *)
Definition step_up (b : bool) (acc sibling : Digest) : Digest :=
  if b then hd sibling acc else hd acc sibling.
(** Folding with the directions read from the leaf upwards. *)
Fixpoint fold_dirs (rs : list bool) (acc : Digest) (hs : list Digest) : Digest :=
  match rs, hs with
  | b :: rs, h :: hs => fold_dirs rs (step_up b acc h) hs
  | _, _ => acc
  end.

Lemma path_low_bit ds b : Z.land (path_bits 0 (ds ++ [b])) 1 =? 1 = b.
Proof.
  rewrite path_bits_snoc. change 1 with (Z.ones 1) at 2. rewrite Z.land_ones by lia.
  change (2 ^ 1) with 2. rewrite Z.mul_comm, Z.add_comm, Z.mod_add by lia. by destruct b.
Qed.

Lemma path_high_bits ds b : Z.shiftr (path_bits 0 (ds ++ [b])) 1 = path_bits 0 ds.
Proof.
  rewrite path_bits_snoc, Z.shiftr_div_pow2 by lia. change (2 ^ 1) with 2.
  rewrite Z.mul_comm, Z.div_add_l by lia. destruct b; apply Z.add_0_r.
Qed.

Lemma fold_proof_dirs ds acc hs :
  length hs = length ds ->
  fold_proof blake2b (path_bits 0 ds) acc hs = fold_dirs (reverse ds) acc hs.
Proof.
  revert acc hs. induction ds as [|b ds IH] using rev_ind; intros acc hs Hl.
  - by destruct hs.
  - rewrite length_app in Hl. cbn in Hl. destruct hs as [|h hs]; cbn in Hl; [lia|].
    rewrite reverse_snoc. cbn [fold_proof fold_dirs].
    rewrite path_low_bit, path_high_bits, IH by lia. done.
Qed.

Lemma fold_dirs_snoc rs b acc hs h :
  length hs = length rs ->
  fold_dirs (rs ++ [b]) acc (hs ++ [h]) = step_up b (fold_dirs rs acc hs) h.
Proof.
  revert acc hs. induction rs as [|r rs IH]; intros acc [|h' hs] Hl; cbn in *; try lia; [done|].
  apply IH. lia.
Qed.

(** The leaves of one subtree, numbered from [off]. *)
Definition marked (idx : Z) (off : nat) (l : list Digest) : list (option HashOrProof) :=
  imap (fun j => mark_leaf idx (off + j)) l.

Lemma marked_app idx off l1 l2 :
  marked idx off (l1 ++ l2) = marked idx off l1 ++ marked idx (off + length l1) l2.
Proof.
  unfold marked. rewrite imap_app. f_equal. apply imap_ext. intros. cbn. f_equal. lia.
Qed.

Lemma length_marked idx off l : length (marked idx off l) = length l.
Proof. apply length_imap. Qed.

Lemma marked_take idx off l n : (n <= length l)%nat ->
  take n (marked idx off l) = marked idx off (take n l).
Proof.
  intros Hn. rewrite <- (take_drop n l) at 1. rewrite marked_app.
  rewrite take_app_le by (rewrite length_marked, length_take; lia).
  apply take_ge. rewrite length_marked, length_take. lia.
Qed.

Lemma marked_drop idx off l n : (n <= length l)%nat ->
  drop n (marked idx off l) = marked idx (off + n) (drop n l).
Proof.
  intros Hn. rewrite <- (take_drop n l) at 1. rewrite marked_app.
  rewrite drop_app_ge by (rewrite length_marked, length_take; lia).
  rewrite length_marked, length_take, Nat.min_l by lia.
  by rewrite Nat.sub_diag.
Qed.

(** Folding a subtree: a plain hash when the marked leaf is elsewhere, and the
    proof of the marked leaf when it is inside. *)
Definition fold_outcome (idx : Z) (off : nat) (l : list Digest) : Prop :=
  exists root, raw_root l = Some root /\
  ((idx < Z.of_nat off \/ Z.of_nat (off + length l) <= idx) ->
     tree_fold1 combine (marked idx off l) = Some (Some (HP_Hash root))) /\
  (Z.of_nat off <= idx < Z.of_nat (off + length l) ->
     exists leaf sibs ds,
       l !! Z.to_nat (idx - Z.of_nat off) = Some leaf /\
       tree_fold1 combine (marked idx off l) = Some (Some (HP_Proof (leaf :: sibs))) /\
       Path (Z.of_nat (length l)) (idx - Z.of_nat off) ds /\
       length sibs = length ds /\ fold_dirs (reverse ds) leaf sibs = root).

Lemma fold_outcome_one idx off x : fold_outcome idx off [x].
Proof.
  exists x. unfold marked, mark_leaf. cbn.
  rewrite !tree_fold1_one, Nat.add_0_r. split; [done|]. split.
  - intros ?. destruct (Z.eqb_spec (Z.of_nat off) idx); [lia|done].
  - intros ?. destruct (Z.eqb_spec (Z.of_nat off) idx); [|lia]. subst.
    exists x, [], []. rewrite Z.sub_diag. split_and!; try done. by constructor.
Qed.

Lemma fold_outcome_split idx off l :
  (2 <= length l)%nat ->
  fold_outcome idx off (take (pivot (length l)) l) ->
  fold_outcome idx (off + pivot (length l)) (drop (pivot (length l)) l) ->
  fold_outcome idx off l.
Proof.
  intros Hl (rl & Hrl & Hl1 & Hl2) (rr & Hrr & Hr1 & Hr2).
  pose proof (pivot_bounds _ Hl) as [[Hp1 Hp2] _].
  exists (hd rl rr). rewrite length_take, length_drop in *.
  rewrite (tree_fold1_split _ hd l), Hrl, Hrr by done. split; [done|].
  rewrite (tree_fold1_split _ combine) by (rewrite length_marked; lia).
  rewrite length_marked, marked_take, marked_drop by lia.
  rewrite Nat.min_l in * by lia. split.
  - intros Hout. rewrite Hl1, Hr1 by lia. done.
  - intros Hin. destruct (decide (idx < Z.of_nat (off + pivot (length l)))).
    + destruct Hl2 as (leaf & sibs & ds & Hleaf & -> & HP & Hlen & Hf); [lia|].
      rewrite Hr1 by lia. exists leaf, (sibs ++ [rr]), (false :: ds).
      split_and!; [|done| | |].
      * rewrite lookup_take_lt in Hleaf; [done|]. lia.
      * apply Path_left; rewrite ?u64_pivot_nat by done; [lia..|done].
      * rewrite length_app, Hlen. cbn. lia.
      * rewrite reverse_cons, fold_dirs_snoc, Hf; [done|].
        by rewrite length_reverse.
    + destruct Hr2 as (leaf & sibs & ds & Hleaf & -> & HP & Hlen & Hf); [lia|].
      rewrite Hl1 by lia. exists leaf, (sibs ++ [rl]), (true :: ds).
      split_and!; [|done| | |].
      * rewrite lookup_drop in Hleaf. rewrite <- Hleaf. f_equal. lia.
      * apply Path_right; rewrite ?u64_pivot_nat by done; [lia..|].
        rewrite Nat2Z.inj_sub in HP by lia.
        by replace (idx - Z.of_nat off - Z.of_nat (pivot (length l)))
          with (idx - Z.of_nat (off + pivot (length l))) by lia.
      * rewrite length_app, Hlen. cbn. lia.
      * rewrite reverse_cons, fold_dirs_snoc, Hf; [done|].
        by rewrite length_reverse.
Qed.

Lemma fold_outcome_all idx off l : l <> [] -> fold_outcome idx off l.
Proof.
  remember (length l) as n eqn:Hn. revert off l Hn.
  induction n as [n IH] using lt_wf_ind. intros off l -> Hne.
  destruct l as [|x [|y l]]; [done|apply fold_outcome_one|].
  set (k := x :: y :: l) in *. assert (2 <= length k)%nat as Hk by (cbn; lia).
  pose proof (pivot_bounds _ Hk) as [[Hp1 Hp2] _].
  assert (length (take (pivot (length k)) k) = pivot (length k)) as Ht
    by (rewrite length_take; lia).
  assert (length (drop (pivot (length k)) k) = length k - pivot (length k))%nat as Hd
    by apply length_drop.
  apply fold_outcome_split; [done|..]; eapply IH; try reflexivity; try lia.
  - intros E%(f_equal length). rewrite Ht in E. change (length []) with 0%nat in E. lia.
  - intros E%(f_equal length). rewrite Hd in E. change (length []) with 0%nat in E. lia.
Qed.

(** *** The operations *)

Abbreviation proof_new := (IndexedMerkleProof_new blake2b).
Abbreviation root_of := (compute_root_hash blake2b CHUNK_SIZE_BYTES).
Abbreviation tree_hash := (hash_merkle_tree blake2b CHUNK_SIZE_BYTES).

Lemma marked_imap idx l : imap (mark_leaf idx) l = marked idx 0 l.
Proof. done. Qed.

Lemma proof_new_complete leaves idx :
  Z.of_nat (length leaves) < 2 ^ 64 -> 0 <= idx < Z.of_nat (length leaves) ->
  exists p leaf,
    proof_new leaves idx = Ok p /\ index p = idx /\ count p = Z.of_nat (length leaves) /\
    verify p = Ok () /\ leaves !! Z.to_nat idx = Some leaf /\
    head (merkle_proof p) = Some leaf /\ root_of p = Some (tree_hash leaves).
Proof.
  intros Hlt Hi. destruct (fold_outcome_all idx 0 leaves) as (root & Hroot & _ & Hin).
  { by destruct leaves; [cbn in *; lia|]. }
  destruct Hin as (leaf & sibs & ds & Hleaf & Hfold & HP & Hlen & Hf); [cbn; lia|].
  cbn in Hleaf, HP. rewrite Z.sub_0_r in *.
  destruct (path_loop_total (Z.of_nat (length leaves)) idx) as (ds' & HP' & _ & Hp & Hlp).
  { unfold in_u. lia. }
  rewrite (Path_det _ _ _ _ HP' HP) in *. clear ds' HP'.
  exists (mkIndexedMerkleProof idx (Z.of_nat (length leaves)) (leaf :: sibs)), leaf.
  unfold IndexedMerkleProof_new, verify, compute_expected_proof_length, compute_root_hash,
    hash_merkle_tree. cbn -[path_loop proof_length_loop].
  destruct (Z.leb_spec (2 ^ 64) (Z.of_nat (length leaves))); [lia|]. cbn -[path_loop proof_length_loop].
  rewrite marked_imap, Hfold. rewrite Hp, Hlp, Hroot. cbn.
  split_and!; try done.
  - destruct (Z.geb_spec idx (Z.of_nat (length leaves))); [lia|].
    destruct (Z.eqb_spec (Z.of_nat (length leaves)) 0); [lia|].
    destruct (Z.eqb_spec (Z.of_nat (S (length sibs))) (1 + Z.of_nat (length ds))); [done|lia].
  - by rewrite fold_proof_dirs, Hf, Z.mod_small by lia.
Qed.

Lemma proof_new_out_of_bounds leaves idx :
  Z.of_nat (length leaves) < 2 ^ 64 -> Z.of_nat (length leaves) <= idx ->
  proof_new leaves idx = Err (ConstructionIndexOutOfBounds (Z.of_nat (length leaves)) idx).
Proof.
  intros Hlt Hi. unfold IndexedMerkleProof_new.
  destruct (Z.leb_spec (2 ^ 64) (Z.of_nat (length leaves))); [lia|]. cbn -[Z.pow].
  rewrite marked_imap. destruct leaves as [|x leaves]; [by rewrite tree_fold1_nil|].
  destruct (fold_outcome_all idx 0 (x :: leaves)) as (root & _ & Hout & _); [done|].
  rewrite Hout; [done|cbn in *; lia].
Qed.

(** *** Soundness, from the absence of collisions *)

(** [blake2b] is injective on the listed inputs. *)
Definition no_collision (xs : list (list u8)) : Prop :=
  forall x y, x ∈ xs -> y ∈ xs -> blake2b x = blake2b y -> x = y.

(** What [fold_proof] and [compute_root_hash] feed to the hash function. *)
Definition step_input (b : bool) (acc sibling : Digest) : list u8 :=
  if b then vec_to_list sibling ++ vec_to_list acc else vec_to_list acc ++ vec_to_list sibling.
Fixpoint fold_inputs (rs : list bool) (acc : Digest) (hs : list Digest) : list (list u8) :=
  match rs, hs with
  | b :: rs, h :: hs => step_input b acc h :: fold_inputs rs (step_up b acc h) hs
  | _, _ => []
  end.

Lemma step_up_input b acc h : step_up b acc h = blake2b (step_input b acc h).
Proof. by destruct b. Qed.

Lemma digests_app_inj (a b c d : Digest) :
  vec_to_list a ++ vec_to_list b = vec_to_list c ++ vec_to_list d -> a = c /\ b = d.
Proof.
  intros E. apply app_inj_1 in E as [E1 E2]; [|by rewrite !length_vec_to_list].
  split; by apply vec_to_list_inj2.
Qed.

Lemma step_input_inj b a1 a2 h1 h2 :
  step_input b a1 h1 = step_input b a2 h2 -> a1 = a2 /\ h1 = h2.
Proof. destruct b; cbn; intros [? ?]%digests_app_inj; auto. Qed.

Lemma fold_dirs_inj rs a1 a2 hs1 hs2 xs :
  length hs1 = length rs -> length hs2 = length rs -> no_collision xs ->
  fold_inputs rs a1 hs1 ⊆ xs -> fold_inputs rs a2 hs2 ⊆ xs ->
  fold_dirs rs a1 hs1 = fold_dirs rs a2 hs2 -> a1 = a2 /\ hs1 = hs2.
Proof.
  intros H1 H2 Hc. revert a1 a2 hs1 hs2 H1 H2.
  induction rs as [|b rs IH]; intros a1 a2 [|h1 hs1] [|h2 hs2] H1 H2 S1 S2 E; cbn in *; try lia;
    [done|].
  apply IH in E as [E ->]; [|lia..|set_solver|set_solver].
  rewrite !step_up_input in E. apply Hc in E; [|set_solver..].
  apply step_input_inj in E as [-> ->]. done.
Qed.

(** The inputs hashed to recompute the root of a proof. *)
Fixpoint path_inputs (path : Z) (acc : Digest) (hs : list Digest) : list (list u8) :=
  match hs with
  | [] => []
  | h :: hs =>
      let b := Z.land path 1 =? 1 in
      step_input b acc h :: path_inputs (Z.shiftr path 1) (step_up b acc h) hs
  end.
Definition root_input (count : Z) (raw : Digest) : list u8 :=
  CHUNK_DATA_ZEROED CHUNK_SIZE_BYTES ++ le_encode 8 count ++ vec_to_list raw.
Definition proof_inputs (p : IndexedMerkleProof) : list (list u8) :=
  match merkle_proof p, path_loop 64 0 (count p) (index p) with
  | leaf :: hs, Some path =>
      root_input (count p) (fold_proof blake2b path leaf hs) :: path_inputs path leaf hs
  | _, _ => []
  end.

Lemma path_inputs_dirs ds acc hs :
  length hs = length ds -> path_inputs (path_bits 0 ds) acc hs = fold_inputs (reverse ds) acc hs.
Proof.
  revert acc hs. induction ds as [|b ds IH] using rev_ind; intros acc hs Hl.
  - by destruct hs.
  - rewrite length_app in Hl. cbn in Hl. destruct hs as [|h hs]; cbn in Hl; [lia|].
    rewrite reverse_snoc. cbn [path_inputs fold_inputs].
    by rewrite path_low_bit, path_high_bits, IH by lia.
Qed.

(** The fields are [u64]s. *)
Definition proof_wf (p : IndexedMerkleProof) : Prop := in_u 64 (index p) /\ in_u 64 (count p).

(** What a successful [verify] says. *)
Lemma verify_Ok p :
  proof_wf p -> verify p = Ok () ->
  index p < count p /\ exists leaf hs ds,
    merkle_proof p = leaf :: hs /\ Path (count p) (index p) ds /\ length hs = length ds /\
    root_of p = Some (blake2b (root_input (count p) (fold_dirs (reverse ds) leaf hs))) /\
    proof_inputs p = root_input (count p) (fold_dirs (reverse ds) leaf hs)
                     :: fold_inputs (reverse ds) leaf hs.
Proof.
  intros [Hi Hc]. unfold verify, compute_expected_proof_length.
  destruct (Z.geb_spec (index p) (count p)) as [|Hlt]; [done|]. intros Hv.
  split; [done|]. unfold in_u in Hi. destruct (Z.eqb_spec (count p) 0); [lia|].
  destruct (path_loop_total (count p) (index p) Hc) as (ds & HP & Hl & Hp & Hlp).
  rewrite Hlp in Hv. unfold compute_root_hash, proof_inputs. rewrite Hp.
  destruct (merkle_proof p) as [|leaf hs]; cbn -[Z.of_nat] in Hv.
  - destruct (Z.eqb_spec (Z.of_nat 0) (1 + Z.of_nat (length ds))); [lia|done].
  - destruct (Z.eqb_spec (Z.of_nat (S (length hs))) (1 + Z.of_nat (length ds))); [|done].
    exists leaf, hs, ds. cbn. rewrite fold_proof_dirs, path_inputs_dirs by lia.
    split_and!; done || lia.
Qed.

Lemma root_input_inj c1 c2 r1 r2 :
  in_u 64 c1 -> in_u 64 c2 -> root_input c1 r1 = root_input c2 r2 -> c1 = c2 /\ r1 = r2.
Proof.
  intros H1 H2. unfold root_input. intros E%app_inv_head.
  apply app_inj_1 in E as [E1 E2]; [|by rewrite !length_le_encode].
  apply (f_equal le_decode) in E1. rewrite !le_decode_encode in E1.
  change (8 * Z.of_nat 8) with 64 in E1. rewrite !Z.mod_small in E1 by done.
  split; [done|]. by apply vec_to_list_inj2.
Qed.

Lemma proof_ext p1 p2 :
  index p1 = index p2 -> count p1 = count p2 -> merkle_proof p1 = merkle_proof p2 -> p1 = p2.
Proof. destruct p1, p2. cbn. congruence. Qed.

(** Two verified proofs of the same index with the same root are the same proof. *)
Lemma verify_unique p1 p2 :
  proof_wf p1 -> proof_wf p2 -> verify p1 = Ok () -> verify p2 = Ok () ->
  index p1 = index p2 -> no_collision (proof_inputs p1 ++ proof_inputs p2) ->
  root_of p1 = root_of p2 -> p1 = p2.
Proof.
  intros W1 W2 V1 V2 Hi Hc Hr.
  destruct (verify_Ok p1 W1 V1) as (_ & l1 & h1 & d1 & M1 & P1 & L1 & R1 & I1).
  destruct (verify_Ok p2 W2 V2) as (_ & l2 & h2 & d2 & M2 & P2 & L2 & R2 & I2).
  rewrite R1, R2 in Hr. injection Hr as Hr. rewrite I1, I2 in Hc.
  apply Hc in Hr; [|apply elem_of_app; left; left|apply elem_of_app; right; left].
  destruct W1 as [_ W1], W2 as [_ W2].
  apply root_input_inj in Hr as [Hcnt Hraw]; [|done..].
  rewrite Hcnt, Hi in P1. pose proof (Path_det _ _ _ _ P1 P2) as ->.
  eapply fold_dirs_inj in Hraw as [-> ->];
    [|by rewrite length_reverse|by rewrite length_reverse|exact Hc
     |intros x Hx; apply elem_of_app; left; by right
     |intros x Hx; apply elem_of_app; right; by right].
  apply proof_ext; congruence.
Qed.
End merkle_laws.

(** ** Chunks *)

Lemma chunks_fuel_concat fuel n bytes :
  (0 < n)%nat -> (length bytes <= fuel)%nat -> concat (chunks_fuel fuel n bytes) = bytes.
Proof.
  intros Hn. revert bytes. induction fuel as [|fuel IH]; intros bytes Hf.
  - by destruct bytes; [|cbn in *; lia].
  - destruct bytes as [|b bytes]; [done|]. cbn [chunks_fuel concat].
    rewrite IH; [by rewrite take_drop|]. rewrite length_drop. cbn in *. lia.
Qed.

Lemma chunks_concat n bytes : (0 < n)%nat -> concat (chunks n bytes) = bytes.
Proof. intros. by apply chunks_fuel_concat. Qed.

Lemma chunks_fuel_length fuel n bytes : (length (chunks_fuel fuel n bytes) <= fuel)%nat.
Proof.
  revert bytes. induction fuel as [|fuel IH]; intros [|b bytes]; cbn; try lia.
  specialize (IH (drop n (b :: bytes))). lia.
Qed.

Lemma chunk_verify_Ok blake2b c :
  ChunkWithProof_verify blake2b c = Ok () ->
  verify (proof c) = Ok () /\ head (merkle_proof (proof c)) = Some (hash blake2b (chunk c)).
Proof.
  unfold ChunkWithProof_verify. intros H. inv_ok. split; [done|].
  match goal with
  | H : context [decide (?a = ?b)] |- _ => destruct (decide (a = b)); [congruence|done]
  end.
Qed.

Lemma no_collision_check blake2b xs :
  bool_decide (Forall (fun x => Forall (fun y => blake2b x = blake2b y -> x = y) xs) xs) = true ->
  no_collision blake2b xs.
Proof.
  intros H%bool_decide_eq_true_1 x y Hx Hy. rewrite Forall_forall in H.
  specialize (H x Hx). rewrite Forall_forall in H. auto.
Qed.

(** C27: Merkle proofs are complete: for every leaf of a list of up to [2^64 - 1]
    leaves, [IndexedMerkleProof::new] builds a proof that starts with that leaf,
    that [verify] accepts, and whose root hash is [hash_merkle_tree] of the
    leaves. *)
Theorem merkle_proof_complete blake2b {TF : TreeFold1} CHUNK_SIZE_BYTES leaves idx :
  Z.of_nat (length leaves) < 2 ^ 64 -> 0 <= idx < Z.of_nat (length leaves) ->
  exists p leaf,
    IndexedMerkleProof_new blake2b leaves idx = Ok p /\ verify p = Ok () /\
    leaves !! Z.to_nat idx = Some leaf /\ head (merkle_proof p) = Some leaf /\
    compute_root_hash blake2b CHUNK_SIZE_BYTES p
    = Some (hash_merkle_tree blake2b CHUNK_SIZE_BYTES leaves).
Proof.
  intros H1 H2.
  destruct (proof_new_complete blake2b CHUNK_SIZE_BYTES leaves idx H1 H2)
    as (p & leaf & ? & _ & _ & ? & ? & ? & ?). eauto 10.
Qed.

(** A concrete hash function for the witnesses: a 32-byte polynomial checksum. *)
Definition checksum (data : list u8) : Digest :=
  vec_of_list DIGEST_LENGTH (le_encode 32
    (foldl (fun acc b => (acc * 257 + u8_to_Z b + 1) mod 65521) 7 data)).

Definition example_leaves : list Digest :=
  (fun b => checksum [b]) <$> [Byte.x0a; Byte.x0b; Byte.x0c; Byte.x0d; Byte.x0e].

Lemma merkle_proof_complete_witness :
  exists p leaf,
    IndexedMerkleProof_new (TF:=TreeFold1_ref) checksum example_leaves 4 = Ok p /\
    verify p = Ok () /\ example_leaves !! Z.to_nat 4 = Some leaf /\
    head (merkle_proof p) = Some leaf /\
    compute_root_hash checksum 10 p
    = Some (hash_merkle_tree (TF:=TreeFold1_ref) checksum 10 example_leaves).
Proof.
  apply (merkle_proof_complete (TF:=TreeFold1_ref) checksum 10 example_leaves 4);
    [vm_compute; reflexivity|split; vm_compute; [discriminate|reflexivity]].
Defined.

(** C28: A chunk that verifies is determined by its index and the root hash: two
    verified [ChunkWithProof]s with the same index and root hash carry the same
    chunk, unless the hash function collides on one of the inputs hashed to check
    them. *)
Theorem chunk_with_proof_sound blake2b CHUNK_SIZE_BYTES c1 c2 :
  proof_wf (proof c1) -> proof_wf (proof c2) ->
  ChunkWithProof_verify blake2b c1 = Ok () -> ChunkWithProof_verify blake2b c2 = Ok () ->
  index (proof c1) = index (proof c2) ->
  no_collision blake2b
    ([chunk c1; chunk c2] ++ proof_inputs blake2b CHUNK_SIZE_BYTES (proof c1)
       ++ proof_inputs blake2b CHUNK_SIZE_BYTES (proof c2)) ->
  compute_root_hash blake2b CHUNK_SIZE_BYTES (proof c1)
  = compute_root_hash blake2b CHUNK_SIZE_BYTES (proof c2) ->
  c1 = c2.
Proof.
  intros W1 W2 V1 V2 Hi Hc Hr.
  apply chunk_verify_Ok in V1 as [V1 F1], V2 as [V2 F2].
  assert (proof c1 = proof c2) as Hp.
  { apply (verify_unique blake2b CHUNK_SIZE_BYTES); try done.
    intros x y Hx Hy. apply Hc; right; right; done. }
  assert (chunk c1 = chunk c2) as Hch.
  { apply Hc; [left|right; left|]. unfold hash, blake2b_hash in *. congruence. }
  clear -Hp Hch. destruct c1, c2; cbn in *. congruence.
Qed.

Definition example_data : list u8 := replicate 25 Byte.x2a.
Lemma chunk_with_proof_sound_witness :
  exists c, ChunkWithProof_new (TF:=TreeFold1_ref) checksum 10 example_data 2 = Ok c /\
    ChunkWithProof_verify checksum c = Ok () /\ c = c.
Proof.
  eexists. split; [vm_compute; reflexivity|]. split; [vm_compute; reflexivity|].
  apply (chunk_with_proof_sound checksum 10);
    [split; vm_compute; (split; [discriminate|reflexivity])..
    |vm_compute; reflexivity|vm_compute; reflexivity|reflexivity| |reflexivity].
  apply no_collision_check. vm_compute. reflexivity.
Defined.

(** C29: Large values are transferred in chunks: data longer than one chunk is
    split into pieces that concatenate back to the data, and for every index the
    constructed chunk verifies, is that piece, and has
    [hash_into_chunks_if_necessary] of the data as its root hash. *)
Theorem chunk_with_proof_complete blake2b {TF : TreeFold1} CHUNK_SIZE_BYTES data idx :
  (0 < CHUNK_SIZE_BYTES < length data)%nat -> Z.of_nat (length data) < 2 ^ 64 ->
  0 <= idx < Z.of_nat (length (chunks CHUNK_SIZE_BYTES data)) ->
  concat (chunks CHUNK_SIZE_BYTES data) = data /\
  exists c,
    ChunkWithProof_new blake2b CHUNK_SIZE_BYTES data idx = Ok c /\
    chunks CHUNK_SIZE_BYTES data !! Z.to_nat idx = Some (chunk c) /\
    ChunkWithProof_verify blake2b c = Ok () /\
    compute_root_hash blake2b CHUNK_SIZE_BYTES (proof c)
    = Some (hash_into_chunks_if_necessary blake2b CHUNK_SIZE_BYTES data).
Proof.
  intros Hs Hl Hi. split; [apply chunks_concat; lia|].
  pose proof (chunks_fuel_length (length data) CHUNK_SIZE_BYTES data) as Hc.
  fold (chunks CHUNK_SIZE_BYTES data) in Hc.
  destruct (proof_new_complete blake2b CHUNK_SIZE_BYTES
              (blake2b_hash blake2b <$> chunks CHUNK_SIZE_BYTES data) idx)
    as (p & leaf & Hnew & _ & _ & Hv & Hleaf & Hhead & Hroot);
    [rewrite length_fmap; lia..|].
  apply list_lookup_fmap_Some in Hleaf as (ch & -> & Hch).
  exists (mkChunkWithProof p ch).
  unfold ChunkWithProof_new, ChunkWithProof_verify, hash_into_chunks_if_necessary.
  destruct (Nat.leb_spec (length data) CHUNK_SIZE_BYTES); [lia|].
  split_and!; [|done| |done].
  - destruct data; [cbn in *; lia|]. rewrite Hnew. cbn [mbind result_bind].
    by rewrite Hch.
  - cbn [proof chunk]. rewrite Hv. cbn [mbind result_bind map_err]. rewrite Hhead. cbn.
    by rewrite decide_True.
Qed.

Lemma chunk_with_proof_complete_witness :
  exists c, ChunkWithProof_new (TF:=TreeFold1_ref) checksum 10 example_data 2 = Ok c /\
    ChunkWithProof_verify checksum c = Ok ().
Proof.
  destruct (chunk_with_proof_complete (TF:=TreeFold1_ref) checksum 10 example_data 2)
    as (_ & c & H1 & _ & H2 & _);
    [vm_compute; lia|vm_compute; reflexivity|split; vm_compute; [discriminate|reflexivity]|].
  exists c. split; [exact H1|exact H2].
Defined.
