(* ===== verification/PublicKey.v ===== *)
(** * Public keys and signatures

    Models [PublicKey] and [Signature] of [types/src/crypto/asymmetric_key.rs] and
    [AccountHash::from_public_key] of [types/src/account/account_hash.rs].  Points
    and signatures of the two curves come from the crates [ed25519_dalek] and
    [k256]: they are types with a byte encoding and a fallible decoding. *)
From S2P Require Import Prelude BTree Bytesrepr Struct.

Open Scope Z_scope.

(** A type of a curve library with a fixed-size encoding. *)
Class Encoded (n : nat) : Type := {
  point : Type;
  point_to_bytes : point -> vec u8 n;
  point_try_from : vec u8 n -> option point
}.
Arguments point {n} _.
Arguments point_to_bytes {n _} _.
Arguments point_try_from {n _} _.
(** Encoding and decoding are inverse: an accepted encoding is canonical. *)
Class EncodedLaws {n} (C : Encoded n) : Prop := {
  point_roundtrip (k : point C) : point_try_from (point_to_bytes k) = Some k;
  point_canonical (b : vec u8 n) (k : point C) : point_try_from b = Some k -> point_to_bytes k = b
}.

Definition SYSTEM_TAG : u8 := Byte.x00.
Definition ED25519_TAG : u8 := Byte.x01.
Definition SECP256K1_TAG : u8 := Byte.x02.

(** ** The common shape: [System], or an element of one of the two curves *)

Section asymmetric.
Context {n m : nat} (Ed25519 : Encoded n) (Secp256k1 : Encoded m).

Inductive Asymmetric : Type :=
| A_System
| A_Ed25519 (k : point Ed25519)
| A_Secp256k1 (k : point Secp256k1).

Definition asymmetric_tag (k : Asymmetric) : u8 :=
  match k with A_System => SYSTEM_TAG | A_Ed25519 _ => ED25519_TAG | A_Secp256k1 _ => SECP256K1_TAG end.
(** [Into::<Vec<u8>>::into] *)
Definition asymmetric_into (k : Asymmetric) : list u8 :=
  match k with
  | A_System => []
  | A_Ed25519 k => vec_to_list (point_to_bytes k)
  | A_Secp256k1 k => vec_to_list (point_to_bytes k)
  end.
Definition asymmetric_length (k : Asymmetric) : Z :=
  1 + match k with A_System => 0 | A_Ed25519 _ => Z.of_nat n | A_Secp256k1 _ => Z.of_nat m end.
Definition asymmetric_write_bytes (k : Asymmetric) (writer : list u8) : result Error (list u8) :=
  match k with
  | A_System => Ok (writer ++ [SYSTEM_TAG])
  | A_Ed25519 k => Ok ((writer ++ [ED25519_TAG]) ++ vec_to_list (point_to_bytes k))
  | A_Secp256k1 k => Ok ((writer ++ [SECP256K1_TAG]) ++ vec_to_list (point_to_bytes k))
  end.
Definition asymmetric_from_bytes (bytes : list u8) : result Error (Asymmetric * list u8) :=
  '(tag, remainder) ← from_bytes (T:=u8) bytes;
  match tag with
  | Byte.x00 => Ok (A_System, remainder)
  | Byte.x01 =>
      '(raw_bytes, remainder) ← from_bytes (T:=vec u8 n) remainder;
      k ← ok_or (point_try_from raw_bytes) Formatting;
      Ok (A_Ed25519 k, remainder)
  | Byte.x02 =>
      '(raw_bytes, remainder) ← from_bytes (T:=vec u8 m) remainder;
      k ← ok_or (point_try_from raw_bytes) Formatting;
      Ok (A_Secp256k1 k, remainder)
  | _ => Err Formatting
  end.
Definition asymmetric_bytesrepr : Bytesrepr Asymmetric := {|
  to_bytes k := buffer ← allocate_buffer (asymmetric_length k); asymmetric_write_bytes k buffer;
  write_bytes := asymmetric_write_bytes;
  serialized_length := asymmetric_length;
  from_bytes := asymmetric_from_bytes
|}.

(** [Ord]: by tag, then by the encoding *)
Definition asymmetric_ord : TotalOrd Asymmetric := ord_by (fun k => (u8_to_Z (asymmetric_tag k), asymmetric_into k)).

(** ** Laws *)

Context {LE : EncodedLaws Ed25519} {LS : EncodedLaws Secp256k1}.

Lemma point_to_bytes_inj {l} (C : Encoded l) {L : EncodedLaws C} (a b : point C) :
  point_to_bytes a = point_to_bytes b -> a = b.
Proof. intros H. apply (f_equal point_try_from) in H. rewrite !point_roundtrip in H. by injection H. Qed.

Lemma asymmetric_inj a b : asymmetric_tag a = asymmetric_tag b -> asymmetric_into a = asymmetric_into b -> a = b.
Proof.
  destruct a, b; cbn; intros Ht Hi; try done; f_equal; apply vec_to_list_inj2 in Hi; by apply point_to_bytes_inj in Hi.
Qed.

Lemma asymmetric_ord_laws : @TotalOrdLaws Asymmetric asymmetric_ord.
Proof.
  apply ord_by_laws. intros a b [= Ht Hi]. apply asymmetric_inj; [|done]. by apply u8_to_Z_inj.
Qed.

Lemma array_read {l} (v : vec u8 l) r : from_bytes (vec_to_list v ++ r) = Ok (v, r).
Proof. by apply (spec_roundtrip (BytesreprSpec := array_spec l)). Qed.

Definition asymmetric_spec (Hn : Z.of_nat n <= 128) (Hm : Z.of_nat m <= 128) :
  BytesreprSpec Asymmetric asymmetric_bytesrepr.
Proof.
  apply (small_spec _ (fun _ => True)).
  - intros k _. exists (asymmetric_tag k :: asymmetric_into k).
    split; [|split_and!]; cbn [to_bytes write_bytes serialized_length from_bytes asymmetric_bytesrepr].
    + rewrite allocate_small; [by destruct k|]. destruct k; unfold asymmetric_length; lia.
    + intros w. destruct k; cbn; by rewrite <- ?app_assoc.
    + destruct k; unfold asymmetric_length; cbn [asymmetric_into length]; rewrite ?length_vec_to_list; lia.
    + intros r. unfold asymmetric_from_bytes. destruct k as [|k|k]; cbn [app asymmetric_into];
        cbn [from_bytes u8_bytesrepr u8_from_bytes mbind result_bind asymmetric_tag SYSTEM_TAG ED25519_TAG SECP256K1_TAG];
        try done; rewrite array_read; cbn [mbind result_bind]; by rewrite point_roundtrip.
  - intros [|tag bs]; [done|]. cbn [from_bytes asymmetric_bytesrepr]. unfold asymmetric_from_bytes.
    cbn [from_bytes u8_bytesrepr u8_from_bytes mbind result_bind].
    destruct tag; try done; (apply no_panic_bind; [apply (spec_no_panic (BytesreprSpec := array_spec _))|]);
      intros [b r] _; cbn; by destruct (point_try_from b).
  - intros [|tag bs] k r H; [done|]. split; [done|]. cbn [from_bytes asymmetric_bytesrepr] in H.
    unfold asymmetric_from_bytes in H. cbn [from_bytes u8_bytesrepr u8_from_bytes mbind result_bind] in H.
    destruct tag; try discriminate H; [by injection H as <- <-; exists [Byte.x00]|..]; parse_inv;
      match goal with |- exists p, ?tag :: ?x ++ _ = _ => by exists (tag :: x) end.
Defined.

#[export] Instance asymmetric_eq_dec : EqDecision Asymmetric.
Proof.
  intros a b. destruct (decide (asymmetric_tag a = asymmetric_tag b)) as [Ht|Ht]; [|right; congruence].
  destruct (decide (asymmetric_into a = asymmetric_into b)) as [Hi|Hi]; [left; by apply asymmetric_inj|right; congruence].
Defined.
End asymmetric.

(** ** [PublicKey] and [Signature] *)

(** The two curves: 32 and 33 bytes for a key, 64 bytes for a signature. *)
Class Curves : Type := {
  ed25519_key :: Encoded 32;
  secp256k1_key :: Encoded 33;
  ed25519_signature :: Encoded 64;
  secp256k1_signature :: Encoded 64
}.
Class CurvesLaws (C : Curves) : Prop := {
  ed25519_key_laws :: EncodedLaws ed25519_key;
  secp256k1_key_laws :: EncodedLaws secp256k1_key;
  ed25519_signature_laws :: EncodedLaws ed25519_signature;
  secp256k1_signature_laws :: EncodedLaws secp256k1_signature
}.

Section keys.
Context {C : Curves}.

Definition PublicKey : Type := Asymmetric ed25519_key secp256k1_key.
Definition Signature : Type := Asymmetric ed25519_signature secp256k1_signature.
#[global] Instance PublicKey_bytesrepr : Bytesrepr PublicKey := asymmetric_bytesrepr _ _.
#[global] Instance Signature_bytesrepr : Bytesrepr Signature := asymmetric_bytesrepr _ _.
#[global] Instance PublicKey_ord : TotalOrd PublicKey := asymmetric_ord _ _.
#[global] Instance Signature_ord : TotalOrd Signature := asymmetric_ord _ _.
Definition is_system_key (k : PublicKey) : bool := match k with A_System _ _ => true | _ => false end.

(** [AccountHash::from_public_key], with the lower-case names of the algorithms *)
Definition account_hash_preimage (algorithm_name public_key_bytes : list u8) : list u8 :=
  algorithm_name ++ [Byte.x00] ++ public_key_bytes.
Definition algorithm_name (k : PublicKey) : list u8 :=
  match k with
  | A_System _ _ => String.list_byte_of_string "system"
  | A_Ed25519 _ _ _ => String.list_byte_of_string "ed25519"
  | A_Secp256k1 _ _ _ => String.list_byte_of_string "secp256k1"
  end.
Definition from_public_key (public_key : PublicKey) (blake2b_hash_fn : list u8 -> vec u8 32) : vec u8 32 :=
  blake2b_hash_fn (account_hash_preimage (algorithm_name public_key) (asymmetric_into _ _ public_key)).

Context {LC : CurvesLaws C}.
#[global] Instance PublicKey_spec : BytesreprSpec PublicKey PublicKey_bytesrepr.
Proof. apply (asymmetric_spec _ _); cbn; lia. Defined.
#[global] Instance Signature_spec : BytesreprSpec Signature Signature_bytesrepr.
Proof. apply (asymmetric_spec _ _); cbn; lia. Defined.
#[global] Instance PublicKey_ord_laws : TotalOrdLaws PublicKey.
Proof. apply (asymmetric_ord_laws _ _). Qed.
#[global] Instance PublicKey_eq_dec : EqDecision PublicKey.
Proof. unfold PublicKey. apply _. Defined.
#[global] Instance PublicKey_bounded : Bounded PublicKey.
Proof. by intros []. Qed.
#[global] Instance Signature_bounded : Bounded Signature.
Proof. by intros []. Qed.
End keys.

(** Curves on which every array of the right length encodes a point: they satisfy
    the laws, and the examples of other files use them. *)
Definition raw_encoded (n : nat) : Encoded n := {| point := vec u8 n; point_to_bytes v := v; point_try_from := Some |}.
#[export] Instance raw_encoded_laws n : EncodedLaws (raw_encoded n).
Proof. by split; [|intros ? ? [= ->]]. Qed.
Definition raw_curves : Curves := {|
  ed25519_key := raw_encoded 32; secp256k1_key := raw_encoded 33;
  ed25519_signature := raw_encoded 64; secp256k1_signature := raw_encoded 64
|}.
#[export] Instance raw_curves_laws : CurvesLaws raw_curves.
Proof. by split; apply raw_encoded_laws. Qed.
