(* ===== verification/Access.v ===== *)
(** * Access rights, unforgeable references and the rights of a context

    Models [types/src/access_rights.rs] and [types/src/uref.rs]: the bit flags,
    the serialization of [URef]s, and [ContextAccessRights], the set of
    references a running contract may use.  [context_rights_refine] relates the
    bit arithmetic on its map to the abstract set of (address, flag) pairs that
    are held. *)
From S2P Require Import Prelude BTree Bytesrepr Digest.

Open Scope Z_scope.

(** ** The flags: the [bitflags] type over [u8] with three flags *)

Abbreviation AccessRights := Z (only parsing).
Definition NONE : AccessRights := 0.
Definition READ : AccessRights := 1.
Definition WRITE : AccessRights := 2.
Definition ADD : AccessRights := 4.
Definition READ_ADD : AccessRights := Z.lor READ ADD.
Definition READ_WRITE : AccessRights := Z.lor READ WRITE.
Definition ADD_WRITE : AccessRights := Z.lor ADD WRITE.
Definition READ_ADD_WRITE : AccessRights := Z.lor (Z.lor READ ADD) WRITE.

Definition is_readable (r : AccessRights) : bool := Z.land r READ =? READ.
Definition is_writeable (r : AccessRights) : bool := Z.land r WRITE =? WRITE.
Definition is_addable (r : AccessRights) : bool := Z.land r ADD =? ADD.
Definition is_none (r : AccessRights) : bool := r =? NONE.

(** What [bitflags] generates: [from_bits], [union], [difference] (and
    [remove]), [contains]. *)
Definition from_bits (b : Z) : option AccessRights :=
  if Z.land b (Z.lnot READ_ADD_WRITE) =? 0 then Some b else None.
Definition rights_union (a b : AccessRights) : AccessRights := Z.lor a b.
Definition rights_difference (a b : AccessRights) : AccessRights := Z.ldiff a b.
Definition rights_contains (a b : AccessRights) : bool := Z.land a b =? b.

Definition rights_from_bytes (bytes : list u8) : result Error (AccessRights * list u8) :=
  '(id, rem) ← u8_from_bytes bytes;
  match from_bits (u8_to_Z id) with
  | Some rights => Ok (rights, rem)
  | None => Err Formatting
  end.
Definition AccessRights_bytesrepr : Bytesrepr AccessRights := {|
  to_bytes r := Ok [u8_of_Z r];
  write_bytes r writer := Ok (writer ++ [u8_of_Z r]);
  serialized_length _ := 1;
  from_bytes := rights_from_bytes
|}.

(** ** [URef] *)

Definition UREF_ADDR_LENGTH : nat := 32.
Abbreviation URefAddr := (vec u8 UREF_ADDR_LENGTH).
Record URef : Type := mkURef { addr : URefAddr; access_rights : AccessRights }.
#[global] Instance URef_size : SizeOf URef := false.

#[global] Instance URef_eq_dec : EqDecision URef.
Proof. solve_decision. Defined.
#[global] Instance URef_countable : Countable URef :=
  inj_countable' (fun u => (addr u, access_rights u)) (fun '(a, r) => mkURef a r) ltac:(by intros []).
Definition with_access_rights (u : URef) (r : AccessRights) : URef := mkURef (addr u) r.
Definition remove_access_rights (u : URef) : URef := mkURef (addr u) NONE.
Definition into_read (u : URef) : URef := mkURef (addr u) READ.
Definition into_write (u : URef) : URef := mkURef (addr u) WRITE.
Definition into_add (u : URef) : URef := mkURef (addr u) ADD.
Definition into_read_add_write (u : URef) : URef := mkURef (addr u) READ_ADD_WRITE.
Definition into_read_write (u : URef) : URef := mkURef (addr u) READ_WRITE.
Definition disable_access_rights (u : URef) (r : AccessRights) : URef :=
  mkURef (addr u) (rights_difference (access_rights u) r).

Definition uref_from_bytes (bytes : list u8) : result Error (URef * list u8) :=
  '(id, rem) ← array_from_bytes UREF_ADDR_LENGTH bytes;
  '(r, rem) ← rights_from_bytes rem;
  Ok (mkURef id r, rem).
#[global] Instance URef_bytesrepr : Bytesrepr URef := {|
  to_bytes u := Ok (vec_to_list (addr u) ++ [u8_of_Z (access_rights u)]);
  write_bytes u writer := Ok ((writer ++ vec_to_list (addr u)) ++ [u8_of_Z (access_rights u)]);
  serialized_length _ := Z.of_nat UREF_ADDR_LENGTH + 1;
  from_bytes := uref_from_bytes
|}.

(** ** [ContextAccessRights] *)

Inductive GrantedAccess : Type :=
| PreExisting
| Granted (uref_addr : URefAddr) (newly_granted_access_rights : AccessRights).

Record ContextAccessRights : Type := mkContext {
  hash_addr : vec u8 32;
  rights_map : gmap URefAddr AccessRights
}.

Definition set_rights (c : ContextAccessRights) (m : gmap URefAddr AccessRights) :=
  mkContext (hash_addr c) m.

(** One iteration of [extend_access_rights] and of [do_extend]. *)
Definition extend_entry (m : gmap URefAddr AccessRights) (a : URefAddr) (r : AccessRights) :=
  match m !! a with
  | Some rights => <[a := rights_union rights r]> m
  | None => <[a := r]> m
  end.
Definition do_extend (c : ContextAccessRights) (urefs : list URef) : ContextAccessRights :=
  set_rights c (foldl (fun m u => extend_entry m (addr u) (access_rights u)) (rights_map c) urefs).
Definition ContextAccessRights_new (h : vec u8 32) (urefs : list URef) : ContextAccessRights :=
  do_extend (mkContext h ∅) urefs.
Definition extend (c : ContextAccessRights) (urefs : list URef) : ContextAccessRights :=
  do_extend c urefs.
(** The entries of the argument map in key order. *)
Definition extend_access_rights (c : ContextAccessRights) (ars : list (URefAddr * AccessRights)) :
    ContextAccessRights :=
  set_rights c (foldl (fun m '(a, r) => extend_entry m a r) (rights_map c) ars).

Definition has_access_rights_to_uref (c : ContextAccessRights) (u : URef) : bool :=
  match rights_map c !! addr u with
  | Some known_rights => rights_contains known_rights (access_rights u)
  | None => false
  end.

Definition grant_access (c : ContextAccessRights) (u : URef) :
    ContextAccessRights * GrantedAccess :=
  match rights_map c !! addr u with
  | Some existing =>
      let newly_granted := rights_difference (access_rights u) existing in
      (set_rights c (<[addr u := rights_union existing (access_rights u)]> (rights_map c)),
       if is_none newly_granted then PreExisting else Granted (addr u) newly_granted)
  | None =>
      (set_rights c (<[addr u := access_rights u]> (rights_map c)),
       Granted (addr u) (access_rights u))
  end.

Definition remove_access (c : ContextAccessRights) (a : URefAddr) (r : AccessRights) :
    ContextAccessRights :=
  match rights_map c !! a with
  | Some current => set_rights c (<[a := rights_difference current r]> (rights_map c))
  | None => c
  end.

(** ** Flags as sets of bits *)

Lemma rights_contains_spec a b :
  rights_contains a b = true <-> forall i, Z.testbit b i = true -> Z.testbit a i = true.
Proof.
  unfold rights_contains. rewrite Z.eqb_eq. split.
  - intros E i Hi. rewrite <- E, Z.land_spec in Hi. by apply andb_true_iff in Hi as [? _].
  - intros H. apply Z.bits_inj. intros i. rewrite Z.land_spec. specialize (H i).
    destruct (Z.testbit b i); [by rewrite H|by rewrite andb_false_r].
Qed.

Lemma rights_difference_none a b :
  is_none (rights_difference a b) = rights_contains b a.
Proof.
  apply eq_true_iff_eq. rewrite rights_contains_spec. unfold is_none, NONE, rights_difference.
  rewrite Z.eqb_eq. split.
  - intros E i Hi. apply (f_equal (fun z => Z.testbit z i)) in E.
    rewrite Z.ldiff_spec, Z.testbit_0_l, Hi in E. by destruct (Z.testbit b i).
  - intros H. apply Z.bits_inj. intros i. rewrite Z.ldiff_spec, Z.testbit_0_l. specialize (H i).
    destruct (Z.testbit a i); [by rewrite H|done].
Qed.

Definition rights_valid (r : AccessRights) : Prop := 0 <= r < 8.

Lemma from_bits_valid b : 0 <= b -> from_bits b = Some b <-> rights_valid b.
Proof.
  intros Hb. unfold from_bits, rights_valid.
  change (Z.land b (Z.lnot READ_ADD_WRITE)) with (Z.land b (Z.lnot (Z.ones 3))).
  rewrite <- Z.ldiff_land, Z.ldiff_ones_r by lia.
  rewrite Z.shiftr_div_pow2, Z.shiftl_mul_pow2 by lia. change (2 ^ 3) with 8.
  pose proof (Z.div_mod b 8 ltac:(lia)). pose proof (Z.mod_pos_bound b 8 ltac:(lia)).
  destruct (Z.eqb_spec (b / 8 * 8) 0); split; intros; try done; lia.
Qed.

Lemma from_bits_Some b r : from_bits b = Some r -> r = b.
Proof. unfold from_bits. case_match; congruence. Qed.

#[global] Instance URef_spec : BytesreprSpec URef URef_bytesrepr.
Proof.
  refine {| representable u := rights_valid (access_rights u) |};
    cbn [to_bytes from_bytes write_bytes serialized_length URef_bytesrepr].
  - intros u b _ [= <-]. rewrite length_app, length_vec_to_list. cbn [length]. unfold UREF_ADDR_LENGTH. lia.
  - intros u _. lia.
  - intros u b w _ [= <-]. by rewrite <- app_assoc.
  - intros u _ _. by eexists.
  - intros [a r] b rem Hr [= <-]. unfold uref_from_bytes. rewrite <- app_assoc.
    pose proof (spec_roundtrip (BytesreprSpec:=array_spec _) a _ ([u8_of_Z r] ++ rem) I eq_refl) as E.
    cbn [from_bytes array_bytesrepr] in E. cbn [addr]. rewrite E. cbn [mbind result_bind].
    unfold rights_from_bytes. cbn [app u8_from_bytes mbind result_bind].
    cbn in Hr. rewrite u8_to_of_Z, Z.mod_small by (unfold rights_valid in Hr; lia).
    rewrite (proj2 (from_bits_valid r ltac:(unfold rights_valid in Hr; lia)) Hr). done.
  - intros bs. apply no_panic_bind; [apply (spec_no_panic (BytesreprSpec:=array_spec _))|].
    intros [id rem] _. apply no_panic_bind; [|by intros [? ?]].
    unfold rights_from_bytes. destruct rem as [|c rem]; [done|]. cbn. by case_match.
  - intros bs u r ([id rem] & [_ [p ->]]%(spec_from (BytesreprSpec:=array_spec _)) &
      ([x rem'] & Hx & [= <- <-])%bind_Ok)%bind_Ok.
    unfold rights_from_bytes in Hx. destruct rem as [|c rem]; [done|].
    cbn [u8_from_bytes mbind result_bind] in Hx.
    destruct (from_bits (u8_to_Z c)) as [y|] eqn:E; [|done]. injection Hx as <- <-.
    pose proof (u8_to_Z_range c). pose proof (from_bits_Some _ _ E) as ->. split.
    + apply from_bits_valid in E; [done|lia].
    + exists (p ++ [c]). by rewrite <- app_assoc.
Defined.

(** ** The rights of a context, as a set of (address, flag) pairs *)

Inductive ContextOp : Type :=
| OpExtend (urefs : list URef)
| OpExtendRights (ars : list (URefAddr * AccessRights))
| OpGrant (u : URef)
| OpRemove (a : URefAddr) (r : AccessRights).

Definition context_step (c : ContextAccessRights) (op : ContextOp) : ContextAccessRights :=
  match op with
  | OpExtend us => extend c us
  | OpExtendRights ars => extend_access_rights c ars
  | OpGrant u => (grant_access c u).1
  | OpRemove a r => remove_access c a r
  end.
Definition context_run (c : ContextAccessRights) (ops : list ContextOp) : ContextAccessRights :=
  foldl context_step c ops.

(** The abstract state: which addresses are known, and which flags are held. *)
Record Held : Type := mkHeld { knows : URefAddr -> bool; holds : URefAddr -> Z -> bool }.
Definition held_of (c : ContextAccessRights) : Held := mkHeld
  (fun a => bool_decide (is_Some (rights_map c !! a)))
  (fun a i => Z.testbit (default 0 (rights_map c !! a)) i).

Definition mentions (ars : list (URefAddr * AccessRights)) (a : URefAddr) : bool :=
  existsb (fun '(b, _) => bool_decide (a = b)) ars.
Definition gives (ars : list (URefAddr * AccessRights)) (a : URefAddr) (i : Z) : bool :=
  existsb (fun '(b, r) => bool_decide (a = b) && Z.testbit r i) ars.
(** The pairs an operation adds. *)
Definition op_gives (op : ContextOp) : list (URefAddr * AccessRights) :=
  match op with
  | OpExtend us => (fun u => (addr u, access_rights u)) <$> us
  | OpExtendRights ars => ars
  | OpGrant u => [(addr u, access_rights u)]
  | OpRemove _ _ => []
  end.
(** The pairs an operation takes away. *)
Definition op_takes (op : ContextOp) (a : URefAddr) (i : Z) : bool :=
  match op with
  | OpRemove b r => bool_decide (a = b) && Z.testbit r i
  | _ => false
  end.
Definition held_step (h : Held) (op : ContextOp) : Held := mkHeld
  (fun a => knows h a || mentions (op_gives op) a)
  (fun a i => (holds h a i || gives (op_gives op) a i) && negb (op_takes op a i)).

Definition held_eq (h k : Held) : Prop :=
  (forall a, knows h a = knows k a) /\ (forall a i, holds h a i = holds k a i).
#[global] Instance held_eq_equiv : Equivalence held_eq.
Proof.
  split; [by split| |].
  - by intros h k [H1 H2]; split; intros; rewrite ?H1, ?H2.
  - intros h k l [H1 H2] [H3 H4]. split; intros; by rewrite ?H1, ?H2, ?H3, ?H4.
Qed.
#[global] Instance held_step_proper : Proper (held_eq ==> (=) ==> held_eq) held_step.
Proof. intros h k [H1 H2] op _ <-. split; intros; cbn; by rewrite ?H1, ?H2. Qed.

Lemma extend_entry_held h m a r :
  held_eq (held_of (mkContext h (extend_entry m a r)))
    (held_step (held_of (mkContext h m)) (OpExtendRights [(a, r)])).
Proof.
  unfold extend_entry, held_of. cbn. split; intros b; cbn.
  - rewrite orb_false_r. destruct (m !! a) as [x|] eqn:E; destruct (decide (b = a)) as [->|Hne];
      rewrite ?lookup_insert_eq, ?lookup_insert_ne by done; rewrite ?E;
      rewrite ?(bool_decide_eq_true_2 (a = a)) by done;
      rewrite ?(bool_decide_eq_false_2 (b = a)) by done; rewrite ?orb_true_r, ?orb_false_r; done.
  - intros i. rewrite orb_false_r, andb_true_r.
    destruct (m !! a) as [x|] eqn:E; destruct (decide (b = a)) as [->|Hne];
      rewrite ?lookup_insert_eq, ?lookup_insert_ne by done; rewrite ?E;
      rewrite ?(bool_decide_eq_true_2 (a = a)) by done;
      rewrite ?(bool_decide_eq_false_2 (b = a)) by done; cbn; rewrite ?orb_false_r; try done.
    + unfold rights_union. apply Z.lor_spec.
    + by rewrite Z.testbit_0_l.
Qed.

Lemma held_extend_cons h a r ars :
  held_eq (held_step (held_step h (OpExtendRights [(a, r)])) (OpExtendRights ars))
    (held_step h (OpExtendRights ((a, r) :: ars))).
Proof.
  split; intros b; cbn.
  - by rewrite orb_false_r, orb_assoc.
  - intros i. by rewrite orb_false_r, !andb_true_r, orb_assoc.
Qed.

Lemma extend_entries_held h m ars :
  held_eq (held_of (mkContext h (foldl (fun m '(a, r) => extend_entry m a r) m ars)))
    (held_step (held_of (mkContext h m)) (OpExtendRights ars)).
Proof.
  revert m. induction ars as [|[a r] ars IH]; intros m; cbn [foldl].
  - split; intros; cbn; by rewrite ?orb_false_r, ?andb_true_r.
  - rewrite IH, extend_entry_held. apply held_extend_cons.
Qed.

Lemma context_step_held c op : held_eq (held_of (context_step c op)) (held_step (held_of c) op).
Proof.
  destruct c as [h m], op as [us|ars|u|a r]; cbn [context_step].
  - unfold extend, do_extend, set_rights. cbn [hash_addr rights_map].
    pose proof (extend_entries_held h m ((fun u => (addr u, access_rights u)) <$> us)) as E.
    by rewrite foldl_fmap in E.
  - apply extend_entries_held.
  - assert ((grant_access (mkContext h m) u).1
      = mkContext h (extend_entry m (addr u) (access_rights u))) as ->.
    { unfold grant_access, extend_entry. cbn. by destruct (m !! addr u). }
    rewrite extend_entry_held. done.
  - unfold remove_access, held_of. cbn. destruct (m !! a) as [x|] eqn:E; split; cbn; intros b;
      [destruct (decide (b = a)) as [->|Hne]|intros i; destruct (decide (b = a)) as [->|Hne]| |intros i];
      rewrite ?lookup_insert_eq, ?lookup_insert_ne by done; rewrite ?E;
      rewrite ?(bool_decide_eq_true_2 (a = a)) by done;
      rewrite ?(bool_decide_eq_false_2 (b = a)) by done;
      rewrite ?orb_false_r, ?andb_true_r; cbn; rewrite ?andb_true_r; try done.
    + unfold rights_difference. apply Z.ldiff_spec.
    + destruct (decide (b = a)) as [->|]; [|by rewrite bool_decide_eq_false_2, andb_true_r].
      by rewrite E; cbn; rewrite Z.testbit_0_l.
Qed.

#[global] Instance held_run_proper : Proper (held_eq ==> (=) ==> held_eq) (foldl held_step).
Proof.
  intros h k E ops _ <-. revert h k E.
  induction ops as [|op ops IH]; intros h k E; cbn; [done|]. apply IH. by rewrite E.
Qed.

Lemma context_run_held c ops : held_eq (held_of (context_run c ops)) (foldl held_step (held_of c) ops).
Proof.
  revert c. unfold context_run. induction ops as [|op ops IH]; intros c; cbn [foldl]; [done|].
  by rewrite IH, context_step_held.
Qed.

Lemma has_access_held c u :
  has_access_rights_to_uref c u = true <->
  knows (held_of c) (addr u) = true /\
  forall i, Z.testbit (access_rights u) i = true -> holds (held_of c) (addr u) i = true.
Proof.
  unfold has_access_rights_to_uref, held_of. cbn. rewrite bool_decide_eq_true.
  destruct (rights_map c !! addr u) as [r|]; cbn; [|split; [done|by intros [[? ?] _]]].
  rewrite rights_contains_spec. naive_solver.
Qed.

(** C32: The access check is exact: after any sequence of [extend],
    [extend_access_rights], [grant_access] and [remove_access] calls, a reference
    passes [has_access_rights_to_uref] exactly when its address was mentioned by
    a call that adds rights and every flag it asks for is in the abstract set of
    held (address, flag) pairs, where adding is union and removing is
    difference. *)
Theorem context_rights_refine c ops u :
  has_access_rights_to_uref (context_run c ops) u = true <->
  let h := foldl held_step (held_of c) ops in
  knows h (addr u) = true /\
  forall i, Z.testbit (access_rights u) i = true -> holds h (addr u) i = true.
Proof.
  rewrite has_access_held. cbn zeta. destruct (context_run_held c ops) as [E1 E2].
  rewrite E1. by setoid_rewrite E2.
Qed.

(** [grant_access] reports truthfully: it answers [PreExisting] exactly when
    the reference was already usable, otherwise the reported rights are exactly
    the flags that were not held before, and afterwards the reference is
    usable. *)
Theorem grant_access_exact c u :
  let '(c', granted) := grant_access c u in
  has_access_rights_to_uref c' u = true /\
  match granted with
  | PreExisting => has_access_rights_to_uref c u = true
  | Granted a r =>
      has_access_rights_to_uref c u = false /\ a = addr u /\
      forall i, Z.testbit r i = Z.testbit (access_rights u) i && negb (holds (held_of c) a i)
  end.
Proof.
  pose proof (context_step_held c (OpGrant u)) as [E1 E2]. cbn [context_step] in E1, E2.
  assert (has_access_rights_to_uref (grant_access c u).1 u = true) as Hafter.
  { apply has_access_held. rewrite E1. cbn [held_step knows op_gives mentions existsb]. rewrite (bool_decide_eq_true_2 (addr u = addr u)) by done.
    split; [by rewrite orb_true_r|]. intros i Hi. rewrite E2. cbn [held_step holds op_gives gives existsb op_takes].
    rewrite (bool_decide_eq_true_2 (addr u = addr u)), Hi by done. by rewrite orb_true_r. }
  revert Hafter. clear E1 E2. unfold grant_access. unfold has_access_rights_to_uref at 3 4.
  cbn [held_of holds]. destruct (rights_map c !! addr u) as [r|] eqn:E; intros Hafter.
  - rewrite rights_difference_none in Hafter |- *. destruct (rights_contains r (access_rights u)) eqn:Hc;
      [by split; [exact Hafter|]|].
    split_and!; [exact Hafter|done|done|]. intros i. rewrite E. unfold rights_difference.
    by rewrite Z.ldiff_spec.
  - split_and!; [exact Hafter|done|done|]. intros i. rewrite E. cbn. by rewrite Z.testbit_0_l, andb_true_r.
Qed.
