(* ===== verification/CLType.v ===== *)
(** * Casper types and values

    Models [types/src/cl_type.rs] and [types/src/cl_value.rs]: the type
    descriptions with their depth-limited parser, and [CLValue], a serialized
    value next to its type.  [cl_pack] gives, for every description except
    [Key], [PublicKey] and [Any], the type it describes with its serialization
    and its order: the types a contract can store, of any nesting. *)
From S2P Require Import Prelude BTree Bytesrepr Encoding Digest Uint Access.

Open Scope Z_scope.

Definition CL_TYPE_RECURSION_DEPTH : nat := 50.

Inductive CLType : Type :=
| CL_Bool | CL_I32 | CL_I64 | CL_U8 | CL_U32 | CL_U64 | CL_U128 | CL_U256 | CL_U512
| CL_Unit | CL_String | CL_Key | CL_URef | CL_PublicKey
| CL_Option (t : CLType)
| CL_List (t : CLType)
| CL_ByteArray (len : Z)
| CL_Result (ok err : CLType)
| CL_Map (key value : CLType)
| CL_Tuple1 (t1 : CLType)
| CL_Tuple2 (t1 t2 : CLType)
| CL_Tuple3 (t1 t2 t3 : CLType)
| CL_Any.

#[global] Instance CLType_eq_dec : EqDecision CLType.
Proof. solve_decision. Defined.

Fixpoint cl_serialized_length (t : CLType) : Z :=
  1 + match t with
      | CL_Option t | CL_List t => cl_serialized_length t
      | CL_ByteArray _ => 4
      | CL_Result a b | CL_Map a b => cl_serialized_length a + cl_serialized_length b
      | CL_Tuple1 a => cl_serialized_length a
      | CL_Tuple2 a b => cl_serialized_length a + cl_serialized_length b
      | CL_Tuple3 a b c => cl_serialized_length a + cl_serialized_length b + cl_serialized_length c
      | _ => 0
      end.

(** The [CL_TYPE_TAG_*] constants. *)
Definition cl_tag (t : CLType) : u8 :=
  match t with
  | CL_Bool => Byte.x00 | CL_I32 => Byte.x01 | CL_I64 => Byte.x02 | CL_U8 => Byte.x03
  | CL_U32 => Byte.x04 | CL_U64 => Byte.x05 | CL_U128 => Byte.x06 | CL_U256 => Byte.x07
  | CL_U512 => Byte.x08 | CL_Unit => Byte.x09 | CL_String => Byte.x0a | CL_Key => Byte.x0b
  | CL_URef => Byte.x0c | CL_Option _ => Byte.x0d | CL_List _ => Byte.x0e
  | CL_ByteArray _ => Byte.x0f | CL_Result _ _ => Byte.x10 | CL_Map _ _ => Byte.x11
  | CL_Tuple1 _ => Byte.x12 | CL_Tuple2 _ _ => Byte.x13 | CL_Tuple3 _ _ _ => Byte.x14
  | CL_Any => Byte.x15 | CL_PublicKey => Byte.x16
  end.

Fixpoint append_bytes (t : CLType) (stream : list u8) : result Error (list u8) :=
  let stream := stream ++ [cl_tag t] in
  match t with
  | CL_Option t | CL_List t => append_bytes t stream
  | CL_ByteArray len => Ok (stream ++ u32_to_bytes len)
  | CL_Result a b | CL_Map a b => stream ← append_bytes a stream; append_bytes b stream
  | CL_Tuple1 a => append_bytes a stream
  | CL_Tuple2 a b => stream ← append_bytes a stream; append_bytes b stream
  | CL_Tuple3 a b c =>
      stream ← append_bytes a stream;
      stream ← append_bytes b stream;
      append_bytes c stream
  | _ => Ok stream
  end.

(** The loop of [parse_cl_tuple_types]; [parse] is the recursive call at the
    increased depth. *)
Fixpoint parse_cl_tuple_types (parse : list u8 -> result Error (CLType * list u8))
    (count : nat) (cl_types : list CLType) (bytes : list u8) :
    result Error (list CLType * list u8) :=
  match count with
  | O => Ok (cl_types, bytes)
  | S count =>
      '(cl_type, remainder) ← parse bytes;
      parse_cl_tuple_types parse count (cl_types ++ [cl_type]) remainder
  end.

(** [depth_limited_from_bytes]; [budget] is [CL_TYPE_RECURSION_DEPTH - depth]. *)
Fixpoint depth_limited_from_bytes (budget : nat) (bytes : list u8) :
    result Error (CLType * list u8) :=
  match budget with
  | O => Err ExceededRecursionDepth
  | S budget =>
      let parse := depth_limited_from_bytes budget in
      '(tag, remainder) ← u8_from_bytes bytes;
      match tag with
      | Byte.x00 => Ok (CL_Bool, remainder)
      | Byte.x01 => Ok (CL_I32, remainder)
      | Byte.x02 => Ok (CL_I64, remainder)
      | Byte.x03 => Ok (CL_U8, remainder)
      | Byte.x04 => Ok (CL_U32, remainder)
      | Byte.x05 => Ok (CL_U64, remainder)
      | Byte.x06 => Ok (CL_U128, remainder)
      | Byte.x07 => Ok (CL_U256, remainder)
      | Byte.x08 => Ok (CL_U512, remainder)
      | Byte.x09 => Ok (CL_Unit, remainder)
      | Byte.x0a => Ok (CL_String, remainder)
      | Byte.x0b => Ok (CL_Key, remainder)
      | Byte.x0c => Ok (CL_URef, remainder)
      | Byte.x16 => Ok (CL_PublicKey, remainder)
      | Byte.x0d => '(inner, remainder) ← parse remainder; Ok (CL_Option inner, remainder)
      | Byte.x0e => '(inner, remainder) ← parse remainder; Ok (CL_List inner, remainder)
      | Byte.x0f => '(len, remainder) ← u32_from_bytes remainder; Ok (CL_ByteArray len, remainder)
      | Byte.x10 =>
          '(ok_type, remainder) ← parse remainder;
          '(err_type, remainder) ← parse remainder;
          Ok (CL_Result ok_type err_type, remainder)
      | Byte.x11 =>
          '(key_type, remainder) ← parse remainder;
          '(value_type, remainder) ← parse remainder;
          Ok (CL_Map key_type value_type, remainder)
      | Byte.x12 =>
          '(inner_types, remainder) ← parse_cl_tuple_types parse 1 [] remainder;
          match inner_types with
          | a :: _ => Ok (CL_Tuple1 a, remainder)
          | _ => Panic
          end
      | Byte.x13 =>
          '(inner_types, remainder) ← parse_cl_tuple_types parse 2 [] remainder;
          match inner_types with
          | a :: b :: _ => Ok (CL_Tuple2 a b, remainder)
          | _ => Panic
          end
      | Byte.x14 =>
          '(inner_types, remainder) ← parse_cl_tuple_types parse 3 [] remainder;
          match inner_types with
          | a :: b :: c :: _ => Ok (CL_Tuple3 a b c, remainder)
          | _ => Panic
          end
      | Byte.x15 => Ok (CL_Any, remainder)
      | _ => Err Formatting
      end
  end.
Definition CLType_from_bytes (bytes : list u8) : result Error (CLType * list u8) :=
  depth_limited_from_bytes CL_TYPE_RECURSION_DEPTH bytes.

(** ** [CLValue] *)

Class CLTyped (T : Type) : Type := cl_type : CLType.
Arguments cl_type T {_}.

Inductive CLValueError : Type :=
| Serialization (e : Error)
| TypeMismatch (expected found : CLType).

Record CLValue : Type := mkCLValue { value_type : CLType; value_bytes : Bytes }.

Definition from_t {T} `{H : Bytesrepr T} {I : IntoBytes T H} `{H0 : CLTyped T} (t : T) : result CLValueError CLValue :=
  bytes ← map_err Serialization (into_bytes t);
  Ok (mkCLValue (cl_type T) (mkBytes bytes)).
(** [to_t] and [into_t] *)
Definition into_t {T} `{Bytesrepr T, CLTyped T} (v : CLValue) : result CLValueError T :=
  let expected := cl_type T in
  if decide (value_type v = expected)
  then map_err Serialization (deserialize_from_slice (inner_bytes (value_bytes v)))
  else Err (TypeMismatch expected (value_type v)).

Definition CLValue_to_bytes (v : CLValue) : result Error (list u8) :=
  result ← to_bytes (value_bytes v);
  append_bytes (value_type v) result.
Definition CLValue_write_bytes (v : CLValue) (writer : list u8) : result Error (list u8) :=
  writer ← write_bytes (value_bytes v) writer;
  append_bytes (value_type v) writer.
Definition CLValue_from_bytes (bytes : list u8) : result Error (CLValue * list u8) :=
  '(bytes, remainder) ← from_bytes (T:=Bytes) bytes;
  '(cl_type, remainder) ← CLType_from_bytes remainder;
  Ok (mkCLValue cl_type bytes, remainder).
#[global] Instance CLValue_bytesrepr : Bytesrepr CLValue := {|
  to_bytes := CLValue_to_bytes;
  write_bytes := CLValue_write_bytes;
  serialized_length v := serialized_length (value_bytes v) + cl_serialized_length (value_type v);
  from_bytes := CLValue_from_bytes
|}.

(** ** The parser of type descriptions *)

(** Nesting depth, and that array lengths are [u32]s. *)
Fixpoint cl_depth (t : CLType) : nat :=
  match t with
  | CL_Option t | CL_List t | CL_Tuple1 t => S (cl_depth t)
  | CL_Result a b | CL_Map a b | CL_Tuple2 a b => S (cl_depth a `max` cl_depth b)
  | CL_Tuple3 a b c => S (cl_depth a `max` cl_depth b `max` cl_depth c)
  | _ => 1
  end.
Fixpoint cl_wf (t : CLType) : Prop :=
  match t with
  | CL_Option t | CL_List t | CL_Tuple1 t => cl_wf t
  | CL_ByteArray len => in_u 32 len
  | CL_Result a b | CL_Map a b | CL_Tuple2 a b => cl_wf a /\ cl_wf b
  | CL_Tuple3 a b c => cl_wf a /\ cl_wf b /\ cl_wf c
  | _ => True
  end.
Fixpoint cl_bytes (t : CLType) : list u8 :=
  cl_tag t ::
  match t with
  | CL_Option t | CL_List t | CL_Tuple1 t => cl_bytes t
  | CL_ByteArray len => u32_to_bytes len
  | CL_Result a b | CL_Map a b | CL_Tuple2 a b => cl_bytes a ++ cl_bytes b
  | CL_Tuple3 a b c => cl_bytes a ++ cl_bytes b ++ cl_bytes c
  | _ => []
  end.

Lemma append_bytes_eq t stream : append_bytes t stream = Ok (stream ++ cl_bytes t).
Proof.
  revert stream.
  induction t as [| | | | | | | | | | | | | |t IH|t IH|len|a IHa b IHb|a IHa b IHb|t IH
    |a IHa b IHb|a IHa b IHb c IHc|]; intros stream; cbn [append_bytes cl_bytes];
    rewrite ?IH, ?IHa; cbn [mbind result_bind];
    rewrite ?IHb; cbn [mbind result_bind]; rewrite ?IHc; by rewrite <- ?app_assoc.
Qed.

Lemma cl_bytes_length t : Z.of_nat (length (cl_bytes t)) = cl_serialized_length t.
Proof.
  induction t; cbn [cl_bytes cl_serialized_length length]; rewrite ?length_app;
    unfold u32_to_bytes; rewrite ?length_le_encode; lia.
Qed.

Lemma cl_parse_bytes t budget r :
  cl_wf t ->
  depth_limited_from_bytes budget (cl_bytes t ++ r)
  = if decide (cl_depth t <= budget)%nat then Ok (t, r) else Err ExceededRecursionDepth.
Proof.
  revert budget r.
  induction t as [| | | | | | | | | | | | | |t IH|t IH|len|a IHa b IHb|a IHa b IHb|t IH
    |a IHa b IHb|a IHa b IHb c IHc|]; intros [|budget] r Hwf; cbn [cl_wf] in Hwf;
    repeat match goal with H : _ /\ _ |- _ => destruct H end;
    cbn [depth_limited_from_bytes cl_depth];
    try (rewrite decide_False by lia; reflexivity);
    cbn [cl_bytes cl_tag app u8_from_bytes mbind result_bind parse_cl_tuple_types].
  all: try (rewrite decide_True by lia; reflexivity).
  all: rewrite <- ?app_assoc.
  all: try rewrite u32_roundtrip by done.
  all: rewrite ?IH, ?IHa by done; repeat (case_decide; cbn [mbind result_bind app]; try lia; try done).
  all: rewrite ?IHb by done; repeat (case_decide; cbn [mbind result_bind app]; try lia; try done).
  all: rewrite ?IHc by done; repeat (case_decide; cbn [mbind result_bind app]; try lia; try done).
Qed.

(** What a successful parse says about the input. *)
Definition parses_to (budget : nat) (parse : list u8 -> result Error (CLType * list u8)) : Prop :=
  forall bs, match parse bs with
             | Ok (t, r) => cl_wf t /\ (cl_depth t <= budget)%nat /\ exists p, bs = p ++ r
             | Err _ => True
             | _ => False
             end.

Lemma parse_tuple_types_spec budget parse count acc bs :
  parses_to budget parse ->
  match parse_cl_tuple_types parse count acc bs with
  | Ok (ts, r) => exists ts', ts = acc ++ ts' /\ length ts' = count /\
      Forall (fun t => cl_wf t /\ (cl_depth t <= budget)%nat) ts' /\ exists p, bs = p ++ r
  | Err _ => True
  | _ => False
  end.
Proof.
  intros Hp. revert acc bs. induction count as [|count IH]; intros acc bs; cbn.
  - exists []. rewrite app_nil_r. split_and!; [done|done|constructor|by exists []].
  - specialize (Hp bs). destruct (parse bs) as [[t r]| | |]; [|done..]. cbn.
    destruct Hp as (Hwf & Hd & p & ->). specialize (IH (acc ++ [t]) r).
    destruct (parse_cl_tuple_types _ _ _ _) as [[ts r']| | |]; [|done..].
    destruct IH as (ts' & -> & Hl & Hf & q & ->). exists (t :: ts').
    split_and!; [by rewrite <- app_assoc|cbn; lia|by constructor|].
    exists (p ++ q). by rewrite app_assoc.
Qed.

Lemma cl_parse_spec budget : parses_to budget (depth_limited_from_bytes budget).
Proof.
  induction budget as [|budget IH]; intros bs; [done|]. cbn [depth_limited_from_bytes].
  destruct bs as [|c bs]; [done|]. cbn [u8_from_bytes mbind result_bind].
  assert (forall r, (exists p, bs = p ++ r) -> exists p, c :: bs = p ++ r) as Hcons.
  { intros r [p ->]. by exists (c :: p). }
  assert (forall (f : CLType -> CLType), (forall t, cl_wf t -> cl_wf (f t)) ->
      (forall t, cl_depth (f t) = S (cl_depth t)) ->
      match ('(t, r) ← depth_limited_from_bytes budget bs; Ok (f t, r)) with
      | Ok (t, r) => cl_wf t /\ (cl_depth t <= S budget)%nat /\ exists p, c :: bs = p ++ r
      | Err _ => True | _ => False end) as H1.
  { intros f Hf Hd. specialize (IH bs).
    destruct (depth_limited_from_bytes budget bs) as [[t r]| | |]; [|done..]. cbn.
    destruct IH as (? & ? & ?). rewrite Hd. split_and!; [auto|lia|auto]. }
  assert (forall (f : CLType -> CLType -> CLType),
      (forall a b, cl_wf a -> cl_wf b -> cl_wf (f a b)) ->
      (forall a b, cl_depth (f a b) = S (cl_depth a `max` cl_depth b)) ->
      match ('(a, r) ← depth_limited_from_bytes budget bs;
             '(b, r) ← depth_limited_from_bytes budget r; Ok (f a b, r)) with
      | Ok (t, r) => cl_wf t /\ (cl_depth t <= S budget)%nat /\ exists p, c :: bs = p ++ r
      | Err _ => True | _ => False end) as H2.
  { intros f Hf Hd. pose proof (IH bs) as Ha.
    destruct (depth_limited_from_bytes budget bs) as [[a r]| | |]; [|done..]. cbn.
    destruct Ha as (? & ? & p & ->). pose proof (IH r) as Hb.
    destruct (depth_limited_from_bytes budget r) as [[b r']| | |]; [|done..]. cbn.
    destruct Hb as (? & ? & q & ->). rewrite Hd. split_and!; [auto|lia|].
    exists (c :: p ++ q). cbn. by rewrite app_assoc. }
  pose proof (fun count => parse_tuple_types_spec budget _ count [] bs IH) as Ht.
  destruct c; try done;
    try (split_and!; [done|cbn; lia|by eexists [_]]);
    try (apply H1; [done|reflexivity]); try (apply H2; [done|reflexivity]).
  - pose proof (u32_from_bytes_no_panic bs) as Hn.
    destruct (u32_from_bytes bs) as [[len r]| | |] eqn:E; [|done..]. cbn.
    apply u32_from_bytes_Ok in E as [? ?]. split_and!; [done|lia|auto].
  - specialize (Ht 1%nat). destruct (parse_cl_tuple_types _ _ _ _) as [[ts r]| | |]; [|done..].
    destruct Ht as ([|x [|]] & -> & Hl & Hf & Hs); try done. cbn.
    inversion_clear Hf as [|? ? [? ?] _]. split_and!; [done|lia|auto].
  - specialize (Ht 2%nat). destruct (parse_cl_tuple_types _ _ _ _) as [[ts r]| | |]; [|done..].
    destruct Ht as ([|x [|y [|]]] & -> & Hl & Hf & Hs); try done. cbn.
    inversion_clear Hf as [|? ? [? ?] Hf']. inversion_clear Hf' as [|? ? [? ?] _].
    split_and!; [done|done|lia|auto].
  - specialize (Ht 3%nat). destruct (parse_cl_tuple_types _ _ _ _) as [[ts r]| | |]; [|done..].
    destruct Ht as ([|x [|y [|z [|]]]] & -> & Hl & Hf & Hs); try done. cbn.
    inversion_clear Hf as [|? ? [? ?] Hf']. inversion_clear Hf' as [|? ? [? ?] Hf''].
    inversion_clear Hf'' as [|? ? [? ?] _]. split_and!; [done|done|done|lia|auto].
Qed.

Lemma CLType_parse_spec : parses_to CL_TYPE_RECURSION_DEPTH CLType_from_bytes.
Proof. exact (cl_parse_spec CL_TYPE_RECURSION_DEPTH). Qed.

Lemma CLType_parse_bytes t r :
  cl_wf t ->
  CLType_from_bytes (cl_bytes t ++ r)
  = if decide (cl_depth t <= CL_TYPE_RECURSION_DEPTH)%nat then Ok (t, r)
    else Err ExceededRecursionDepth.
Proof. exact (cl_parse_bytes t CL_TYPE_RECURSION_DEPTH r). Qed.

(** [append_bytes], [serialized_length] and [from_bytes] of a type description
    where it is a part of a larger value. *)
Definition CLType_bytesrepr : Bytesrepr CLType := {|
  to_bytes t := append_bytes t [];
  write_bytes := append_bytes;
  serialized_length := cl_serialized_length;
  from_bytes := CLType_from_bytes
|}.
Definition CLType_spec : BytesreprSpec CLType CLType_bytesrepr.
Proof.
  refine {| representable t := cl_wf t /\ (cl_depth t <= CL_TYPE_RECURSION_DEPTH)%nat |};
    cbn [to_bytes write_bytes serialized_length from_bytes CLType_bytesrepr].
  - intros t b _ Hb. rewrite append_bytes_eq in Hb. injection Hb as <-. apply cl_bytes_length.
  - intros t _. rewrite <- cl_bytes_length. lia.
  - intros t b w _ Hb. rewrite append_bytes_eq in Hb |- *. by injection Hb as <-.
  - intros t _ _. rewrite append_bytes_eq. by eexists.
  - intros t b r [Hw Hd] Hb. rewrite append_bytes_eq in Hb. injection Hb as <-. cbn [app].
    rewrite CLType_parse_bytes by done. by rewrite decide_True.
  - intros bs. pose proof (CLType_parse_spec bs) as H. by destruct (CLType_from_bytes bs).
  - intros bs t r E. pose proof (CLType_parse_spec bs) as H. rewrite E in H. tauto.
Defined.

#[local] Opaque CLType_from_bytes CL_TYPE_RECURSION_DEPTH.

(** A [CLValue] whose type is nested at most [CL_TYPE_RECURSION_DEPTH] deep obeys
    the laws of the serialization. *)
Definition CLValue_representable (v : CLValue) : Prop :=
  representable (value_bytes v) /\ cl_wf (value_type v) /\
  (cl_depth (value_type v) <= CL_TYPE_RECURSION_DEPTH)%nat.

Lemma CLValue_to_bytes_Ok v b :
  CLValue_to_bytes v = Ok b -> exists p, to_bytes (value_bytes v) = Ok p /\ b = p ++ cl_bytes (value_type v).
Proof.
  intros (p & Hp & H)%bind_Ok. rewrite append_bytes_eq in H. injection H as <-. eauto.
Qed.

Lemma CLValue_length_law v b :
  CLValue_representable v -> CLValue_to_bytes v = Ok b ->
  Z.of_nat (length b) = serialized_length (value_bytes v) + cl_serialized_length (value_type v).
Proof.
  intros (Hb & _) (p & Hp & ->)%CLValue_to_bytes_Ok. rewrite length_app.
  apply spec_length in Hp; [|done]. rewrite Nat2Z.inj_add, cl_bytes_length. by rewrite Hp.
Qed.

Lemma CLValue_write_law v b w :
  CLValue_representable v -> CLValue_to_bytes v = Ok b -> CLValue_write_bytes v w = Ok (w ++ b).
Proof.
  intros (Hb & _) (p & Hp & ->)%CLValue_to_bytes_Ok. unfold CLValue_write_bytes.
  rewrite (spec_write _ _ w Hb Hp). cbn [mbind result_bind].
  by rewrite append_bytes_eq, <- app_assoc.
Qed.

Lemma CLValue_total_law v :
  CLValue_representable v ->
  serialized_length (value_bytes v) + cl_serialized_length (value_type v) <= u32_max ->
  exists b, CLValue_to_bytes v = Ok b.
Proof.
  intros (Hb & _) Hl. pose proof (cl_bytes_length (value_type v)).
  destruct (spec_total _ Hb) as [p Hp]; [lia|]. unfold CLValue_to_bytes.
  rewrite Hp. cbn [mbind result_bind]. rewrite append_bytes_eq. by eexists.
Qed.

Lemma CLValue_roundtrip_law v b r :
  CLValue_representable v -> CLValue_to_bytes v = Ok b -> CLValue_from_bytes (b ++ r) = Ok (v, r).
Proof.
  destruct v as [ty bs]. intros (Hb & Hwf & Hd) (p & Hp & ->)%CLValue_to_bytes_Ok.
  assert (CLType_from_bytes (cl_bytes ty ++ r) = Ok (ty, r)) as E.
  { rewrite CLType_parse_bytes by done. by rewrite decide_True. }
  rewrite <- app_assoc. apply bind_Ok. eexists. split; [exact (spec_roundtrip _ _ _ Hb Hp)|].
  cbn beta iota. apply bind_Ok. by exists (ty, r).
Qed.

Lemma CLValue_no_panic_law bs : no_panic (CLValue_from_bytes bs).
Proof.
  apply no_panic_bind; [apply (spec_no_panic (BytesreprSpec:=Bytes_spec))|].
  intros [? r] _. apply no_panic_bind; [|by intros [? ?]].
  pose proof (CLType_parse_spec r) as H. by destruct (CLType_from_bytes r).
Qed.

Lemma CLValue_from_law bs v r :
  CLValue_from_bytes bs = Ok (v, r) -> CLValue_representable v /\ exists p, bs = p ++ r.
Proof.
  intros ([x r1] & [Hx [p ->]]%(spec_from (BytesreprSpec:=Bytes_spec)) &
    ([t r2] & Ht & [= <- <-])%bind_Ok)%bind_Ok.
  pose proof (CLType_parse_spec r1) as H. rewrite Ht in H.
  destruct H as (? & ? & q & ->). split; [done|].
  exists (p ++ q). by rewrite app_assoc.
Qed.

#[global] Instance CLValue_spec : BytesreprSpec CLValue CLValue_bytesrepr.
Proof.
  refine {| representable := CLValue_representable;
    spec_length := CLValue_length_law;
    spec_write := CLValue_write_law;
    spec_total := CLValue_total_law;
    spec_roundtrip := CLValue_roundtrip_law;
    spec_no_panic := CLValue_no_panic_law;
    spec_from := CLValue_from_law |}.
  intros v (Hb & _). pose proof (spec_length_nonneg _ Hb).
  pose proof (cl_bytes_length (value_type v)). cbn [serialized_length CLValue_bytesrepr]. lia.
Defined.

(** ** The types that are described *)

(** A type with what the system needs of it: its serialization and order, and the
    proofs that they obey their laws. *)
Record pack : Type := mkPack {
  pack_type : Type;
  pack_repr : Bytesrepr pack_type;
  pack_into : IntoBytes pack_type pack_repr;
  pack_into_law : IntoBytesLaw pack_type pack_repr pack_into;
  pack_size : SizeOf pack_type;
  pack_encode : EncodeSpec pack_type pack_repr;
  pack_ord : TotalOrd pack_type;
  pack_ord_laws : @TotalOrdLaws pack_type pack_ord
}.

Definition RString_ord : TotalOrd RString := ord_by as_bytes.
Lemma RString_ord_laws : @TotalOrdLaws RString RString_ord.
Proof. apply ord_by_laws. intros [a] [b]. cbn. by intros ->. Qed.
Definition array_ord (n : nat) : TotalOrd (vec u8 n) := ord_by vec_to_list.
Lemma array_ord_laws n : @TotalOrdLaws (vec u8 n) (array_ord n).
Proof. apply ord_by_laws. intros a b. apply vec_to_list_inj2. Qed.
Definition URef_ord : TotalOrd URef := ord_by (fun u => (vec_to_list (addr u), access_rights u)).
Lemma URef_ord_laws : @TotalOrdLaws URef URef_ord.
Proof.
  apply ord_by_laws. intros [a r] [b s]. cbn. intros E. injection E as E1 ->.
  by apply vec_to_list_inj2 in E1 as ->.
Qed.

(** A type whose serialization is lawful both ways; [into_bytes] has its provided body. *)
Definition plain_pack {T} {D : Bytesrepr T} (S : BytesreprSpec T D) {Z : SizeOf T} (O : TotalOrd T) (L : TotalOrdLaws T) : pack :=
  mkPack T D _ (default_into_law T D) Z (encode_of_spec S) O L.
Definition int_pack (n : nat) (Hn : (0 < n)%nat) : pack := plain_pack (int_spec n Hn) Z_ord Z_ord_laws.
Definition uint_pack (n : nat) : pack := plain_pack (uint_spec n) Z_ord Z_ord_laws.
Definition biguint_pack (n : nat) (Hn : (n < 256)%nat) : pack := plain_pack (biguint_spec n Hn) Z_ord Z_ord_laws.
#[local] Existing Instances pack_repr pack_into pack_into_law pack_size pack_encode pack_ord pack_ord_laws.
Definition option_pack (p : pack) : pack :=
  mkPack (option (pack_type p)) option_bytesrepr _ (default_into_law _ _) _ option_encode option_ord option_ord_laws.
Definition list_pack (p : pack) : pack :=
  mkPack (list (pack_type p)) vec_bytesrepr vec_into vec_into_law _ vec_encode list_ord list_ord_laws.
Definition result_pack (p q : pack) : pack :=
  mkPack (pack_type p + pack_type q) result_bytesrepr _ (default_into_law _ _) _ result_encode sum_ord sum_ord_laws.
Definition map_pack (p q : pack) : pack :=
  mkPack (list (pack_type p * pack_type q)) btree_map_bytesrepr _ (default_into_law _ _) _ map_encode list_ord list_ord_laws.
Definition tuple1_pack (p : pack) : pack :=
  mkPack (pack_type p) tuple1_bytesrepr _ (default_into_law _ _) _ tuple1_encode (pack_ord p) (pack_ord_laws p).
Definition tuple2_pack (p q : pack) : pack :=
  mkPack (pack_type p * pack_type q) pair_bytesrepr _ (default_into_law _ _) _ pair_encode prod_ord prod_ord_laws.
Definition pack_repr_of (p : pack) : {T : Type & Bytesrepr T} := existT (pack_type p) (pack_repr p).
Definition tuple3_pack (p q r : pack) : pack :=
  mkPack (pack_type p * (pack_type q * (pack_type r * ())))
    (tuple_bytesrepr [pack_repr_of p; pack_repr_of q; pack_repr_of r]) _ (default_into_law _ _) _
    (tuple_encode (tuple_encodes_cons _ _ _ (pack_encode p) (tuple_encodes_cons _ _ _ (pack_encode q)
      (tuple_encodes_cons _ _ _ (pack_encode r) tuple_encodes_nil))))
    prod_ord prod_ord_laws.

(** The impls of [CLTyped], read from the description to the type.  [Key],
    [PublicKey] and [Any] are not modelled. *)
Fixpoint cl_pack (t : CLType) : option pack :=
  match t with
  | CL_Bool => Some (plain_pack bool_spec bool_ord bool_ord_laws)
  | CL_I32 => Some (int_pack 4 (Nat.lt_0_succ _))
  | CL_I64 => Some (int_pack 8 (Nat.lt_0_succ _))
  | CL_U8 => Some (plain_pack u8_spec u8_ord u8_ord_laws)
  | CL_U32 => Some (uint_pack 4)
  | CL_U64 => Some (uint_pack 8)
  | CL_U128 => Some (biguint_pack 16 (proj1 (Nat.ltb_lt 16 256) eq_refl))
  | CL_U256 => Some (biguint_pack 32 (proj1 (Nat.ltb_lt 32 256) eq_refl))
  | CL_U512 => Some (biguint_pack 64 (proj1 (Nat.ltb_lt 64 256) eq_refl))
  | CL_Unit => Some (plain_pack unit_spec unit_ord unit_ord_laws)
  | CL_String => Some (plain_pack String_spec RString_ord RString_ord_laws)
  | CL_URef => Some (plain_pack URef_spec URef_ord URef_ord_laws)
  | CL_Key | CL_PublicKey | CL_Any => None
  | CL_Option t => p ← cl_pack t; Some (option_pack p)
  | CL_List t => p ← cl_pack t; Some (list_pack p)
  | CL_ByteArray len => Some (plain_pack (array_spec (Z.to_nat len)) (array_ord _) (array_ord_laws _))
  | CL_Result a b => p ← cl_pack a; q ← cl_pack b; Some (result_pack p q)
  | CL_Map a b => p ← cl_pack a; q ← cl_pack b; Some (map_pack p q)
  | CL_Tuple1 a => p ← cl_pack a; Some (tuple1_pack p)
  | CL_Tuple2 a b => p ← cl_pack a; q ← cl_pack b; Some (tuple2_pack p q)
  | CL_Tuple3 a b c => p ← cl_pack a; q ← cl_pack b; r ← cl_pack c; Some (tuple3_pack p q r)
  end.

(** Types whose values occupy no memory, and types without lists of such values. *)
Fixpoint cl_zero_sized (t : CLType) : bool :=
  match t with
  | CL_Unit => true
  | CL_ByteArray len => bool_decide (Z.to_nat len = 0%nat)
  | CL_Tuple1 a => cl_zero_sized a
  | CL_Tuple2 a b => cl_zero_sized a && cl_zero_sized b
  | CL_Tuple3 a b c => cl_zero_sized a && (cl_zero_sized b && cl_zero_sized c)
  | _ => false
  end.
Fixpoint lists_sized (t : CLType) : bool :=
  match t with
  | CL_List t => negb (cl_zero_sized t) && lists_sized t
  | CL_Option t | CL_Tuple1 t => lists_sized t
  | CL_Result a b | CL_Map a b | CL_Tuple2 a b => lists_sized a && lists_sized b
  | CL_Tuple3 a b c => lists_sized a && (lists_sized b && lists_sized c)
  | _ => true
  end.

(** Read the packs of the parts of a type. *)
Ltac pack_inv := cbn [cl_pack] in *; repeat match goal with
  | H : _ ≫= _ = Some _ |- _ => apply bind_Some in H as (? & ? & ?)
  | H : Some _ = Some _ |- _ => injection H as <-
  end; try discriminate.
Lemma cl_zero_sized_pack ty p : cl_pack ty = Some p -> zero_sized (pack_type p) = cl_zero_sized ty.
Proof.
  revert p. induction ty; intros p Hp; pack_inv; try done; cbn [cl_zero_sized].
  - exact (IHty _ H).
  - cbn. unfold pair_size. by rewrite (IHty1 _ H), (IHty2 _ H0).
  - cbn. unfold pair_size. by rewrite (IHty1 _ H), (IHty2 _ H0), (IHty3 _ H1), andb_true_r.
Qed.

(** Away from lists of zero-sized values, what is encoded can be decoded. *)
Definition decodable (p : pack) : Prop :=
  exists S : BytesreprSpec (pack_type p) (pack_repr p), forall t, representable (BytesreprSpec := S) t <-> encodable t.
Lemma plain_decodable {T} {D : Bytesrepr T} (S : BytesreprSpec T D) {Z : SizeOf T} O L : decodable (plain_pack S O L).
Proof. by exists S. Qed.
Lemma list_decodable p : decodable p -> zero_sized (pack_type p) = false -> decodable (list_pack p).
Proof.
  intros [S HS] Hz. exists (@vec_spec _ _ S _ Hz). intros l. cbn. unfold vec_representable.
  by rewrite (Forall_iff _ _ _ HS).
Qed.
Lemma map_decodable p q : decodable p -> decodable q -> decodable (map_pack p q).
Proof.
  intros [S HS] [S' HS']. exists (btree_map_spec (SA := S) (SB := S')). intros l. cbn. unfold map_representable.
  rewrite (Forall_iff _ _ (encodable (EncodeSpec := pair_encode))); [done|].
  intros e. cbn. unfold pair_representable. by rewrite HS, HS'.
Qed.
Lemma cl_pack_decodable ty p : cl_pack ty = Some p -> lists_sized ty = true -> decodable p.
Proof.
  revert p. induction ty; intros p Hp Hl; pack_inv; cbn [lists_sized] in Hl;
    repeat match goal with H : _ && _ = true |- _ => apply andb_true_iff in H as [] end;
    repeat match goal with IH : forall p, cl_pack ?t = Some p -> _, H : cl_pack ?t = Some _ |- _ => specialize (IH _ H ltac:(done)) end;
    try apply plain_decodable.
  - destruct IHty as [S HS]. exists option_spec. by intros [t|]; cbn.
  - apply list_decodable; [done|]. rewrite (cl_zero_sized_pack ty) by done. by apply negb_true_iff.
  - destruct IHty1 as [S HS], IHty2 as [S' HS']. exists result_spec. by intros [t|t]; cbn.
  - by apply map_decodable.
  - destruct IHty as [S HS]. by exists tuple1_spec.
  - destruct IHty1 as [S HS], IHty2 as [S' HS']. exists pair_spec. intros [t t']. cbn. unfold pair_representable. cbn. by rewrite HS, HS'.
  - destruct IHty1 as [S HS], IHty2 as [S' HS'], IHty3 as [S'' HS''].
    exists (tuple_spec (tuple_specs_cons _ _ _ S (tuple_specs_cons _ _ _ S' (tuple_specs_cons _ _ _ S'' tuple_specs_nil)))).
    intros t. cbn. by rewrite HS, HS', HS''.
Qed.

(** Every type has a value that can be read, and a type with a list of zero-sized
    values has bytes whose reading divides by zero. *)
Definition readable (p : pack) : Prop := exists b (v : pack_type p), forall r, from_bytes (b ++ r) = Ok (v, r).
Definition panics (p : pack) : Prop := exists b, from_bytes (T := pack_type p) b = Panic.
Lemma plain_readable {T} {D : Bytesrepr T} (S : BytesreprSpec T D) {Z : SizeOf T} O L (v : T) b :
  representable v -> to_bytes v = Ok b -> readable (plain_pack S O L).
Proof. intros Hv Hb. exists b, v. intros r. by apply spec_roundtrip. Qed.
Ltac parts := repeat match goal with IH : forall p, cl_pack ?t = Some p -> _, H : cl_pack ?t = Some _ |- _ => specialize (IH _ H) end.
Lemma cl_readable ty p : cl_pack ty = Some p -> readable p.
Proof.
  revert p. induction ty; intros p Hp; pack_inv; parts; try (by eapply (plain_readable _ _ _ 0)).
  - by eapply (plain_readable _ _ _ false).
  - by eapply (plain_readable _ _ _ Byte.x00).
  - by eapply (plain_readable _ _ _ ()).
  - by eapply (plain_readable _ _ _ (mkRString [])).
  - by eapply (plain_readable _ _ _ (mkURef (vreplicate 32 Byte.x00) NONE)).
  - exists [Byte.x00], None. done.
  - exists (u32_to_bytes 0), []. intros r. cbn. unfold vec_from_bytes. by rewrite u32_roundtrip.
  - by eapply (plain_readable _ _ _ (vreplicate _ Byte.x00)).
  - destruct IHty1 as (b & v & R1). exists (Byte.x01 :: b), (inl v). intros r. cbn. unfold result_from_bytes. cbn. by rewrite R1.
  - exists (u32_to_bytes 0), []. intros r. cbn. unfold btree_map_from_bytes. by rewrite u32_roundtrip.
  - done.
  - destruct IHty1 as (b & v & R1), IHty2 as (b' & v' & R2). exists (b ++ b'), (v, v'). intros r. cbn. unfold pair_from_bytes.
    rewrite <- app_assoc, R1. cbn. by rewrite R2.
  - destruct IHty1 as (b & v & R1), IHty2 as (b' & v' & R2), IHty3 as (b'' & v'' & R3). exists (b ++ b' ++ b''), (v, (v', (v'', ()))).
    intros r. cbn. rewrite <- !app_assoc, R1. cbn. rewrite R2. cbn. by rewrite R3.
Qed.
Lemma list_panics p : zero_sized (pack_type p) = true \/ panics p -> panics (list_pack p).
Proof.
  intros Hp. destruct (zero_sized (pack_type p)) eqn:Hz.
  - exists (u32_to_bytes 1 ++ []). cbn. unfold vec_from_bytes. rewrite u32_roundtrip by done. cbn. unfold cautious. by rewrite Hz.
  - destruct Hp as [|[b Hb]]; [done|]. exists (u32_to_bytes 1 ++ b). cbn. unfold vec_from_bytes. rewrite u32_roundtrip by done. cbn.
    unfold cautious. rewrite Hz. cbn. change (Z.to_nat 1) with 1%nat. cbn. by rewrite Hb.
Qed.
Lemma map_panics p q : readable p -> panics p \/ panics q -> panics (map_pack p q).
Proof.
  intros (b & v & Hv) [[b' Hb]|[b' Hb]].
  - exists (u32_to_bytes 1 ++ b'). cbn. unfold btree_map_from_bytes. rewrite u32_roundtrip by done. cbn. change (Z.to_nat 1) with 1%nat. cbn. by rewrite Hb.
  - exists (u32_to_bytes 1 ++ b ++ b'). cbn. unfold btree_map_from_bytes. rewrite u32_roundtrip by done. cbn. change (Z.to_nat 1) with 1%nat. cbn. rewrite Hv. cbn. by rewrite Hb.
Qed.
Lemma result_panics p q : panics p \/ panics q -> panics (result_pack p q).
Proof.
  intros [[b Hb]|[b Hb]]; [exists (Byte.x01 :: b)|exists (Byte.x00 :: b)]; cbn; unfold result_from_bytes; cbn; by rewrite Hb.
Qed.
Lemma tuple2_panics p q : readable p -> panics p \/ panics q -> panics (tuple2_pack p q).
Proof.
  intros (b & v & Hv) [[b' Hb]|[b' Hb]]; [exists b'|exists (b ++ b')]; cbn; unfold pair_from_bytes.
  - by rewrite Hb.
  - rewrite Hv. cbn. by rewrite Hb.
Qed.
Lemma tuple3_panics p q r : readable p -> readable q -> panics p \/ panics q \/ panics r -> panics (tuple3_pack p q r).
Proof.
  intros (b & v & Hv) (b' & v' & Hv') [[c Hc]|[[c Hc]|[c Hc]]]; [exists c|exists (b ++ c)|exists (b ++ b' ++ c)]; cbn.
  - by rewrite Hc.
  - rewrite Hv. cbn. by rewrite Hc.
  - rewrite Hv. cbn. rewrite Hv'. cbn. by rewrite Hc.
Qed.
Lemma cl_panics ty p : cl_pack ty = Some p -> lists_sized ty = false -> panics p.
Proof.
  revert p. induction ty; intros p Hp Hl; pack_inv; cbn [lists_sized] in Hl; try done; parts;
    repeat match goal with H : cl_pack _ = Some _ |- _ => pose proof (cl_zero_sized_pack _ _ H); apply cl_readable in H end;
    rewrite ?andb_false_iff, ?negb_false_iff in Hl.
  - destruct (IHty Hl) as [b Hb]. exists (Byte.x01 :: b). cbn. unfold option_from_bytes. cbn. by rewrite Hb.
  - apply list_panics. naive_solver congruence.
  - apply result_panics. naive_solver.
  - apply map_panics; naive_solver.
  - by apply IHty.
  - apply tuple2_panics; naive_solver.
  - apply tuple3_panics; naive_solver.
Qed.
Lemma from_t_type {T} {D : Bytesrepr T} {I : IntoBytes T D} {C : CLTyped T} (t : T) v : from_t t = Ok v -> value_type v = cl_type T.
Proof. by intros (b & Hb & [= <-])%bind_Ok. Qed.
Lemma from_t_into_t {T} {D : Bytesrepr T} {I : IntoBytes T D} {L : IntoBytesLaw T D I} {ST : BytesreprSpec T D} {C : CLTyped T} (t : T) v :
  representable t -> from_t t = Ok v -> into_t v = Ok t.
Proof.
  intros Ht (b & Hb%map_err_Ok%into_to & [= <-])%bind_Ok. unfold into_t. cbn [value_type].
  rewrite decide_True by done. cbn [value_bytes inner_bytes].
  apply map_err_Ok. unfold deserialize_from_slice.
  rewrite <- (app_nil_r b), (spec_roundtrip _ _ _ Ht Hb). done.
Qed.

Lemma CLValue_too_deep v b :
  representable (value_bytes v) -> cl_wf (value_type v) ->
  (CL_TYPE_RECURSION_DEPTH < cl_depth (value_type v))%nat ->
  CLValue_to_bytes v = Ok b -> CLValue_from_bytes b = Err ExceededRecursionDepth.
Proof.
  intros Hb Hwf Hd (p & Hp & ->)%CLValue_to_bytes_Ok.
  pose proof (CLType_parse_bytes (value_type v) [] Hwf) as E.
  rewrite decide_False, app_nil_r in E by lia. revert E. unfold CLValue_from_bytes.
  pose proof (spec_roundtrip _ _ (cl_bytes (value_type v)) Hb Hp) as E2. revert E2.
  generalize CLType_from_bytes. intros parse E2 E.
  rewrite E2. cbn [mbind result_bind]. by rewrite E.
Qed.

(** C20: Serialization is prefix free, for every Casper type: if the bytes of one
    value are a prefix of the bytes of another value of the same type, the two
    values are equal.  In particular serialization is injective, so a serialized
    key is an unambiguous path in the global state trie. *)
Theorem serialization_prefix_free ty p (v1 v2 : pack_type p) b1 b2 :
  cl_pack ty = Some p -> encodable v1 -> encodable v2 ->
  to_bytes v1 = Ok b1 -> to_bytes v2 = Ok b2 -> b1 `prefix_of` b2 -> v1 = v2.
Proof.
  intros _ H1 H2 Hb1 Hb2 [r Hr]. apply (enc_prefix v1 v2 b1 b2 r [] H1 H2 Hb1 Hb2). by rewrite app_nil_r.
Qed.

(** [Vec<(u64, Option<String>)>] *)
Definition example_type : CLType := CL_List (CL_Tuple2 CL_U64 (CL_Option CL_String)).
Definition example_pack : pack :=
  list_pack (tuple2_pack (uint_pack 8) (option_pack (plain_pack String_spec RString_ord RString_ord_laws))).
Definition example_value : pack_type example_pack :=
  [(7, Some (mkRString [Byte.x61; Byte.x62])); (2 ^ 64 - 1, None)].

Lemma example_encodable : encodable example_value.
Proof.
  split; [|done]. repeat constructor; try done; cbn; unfold u32_max, u_max; lia.
Qed.

Lemma serialization_prefix_free_witness :
  cl_pack example_type = Some example_pack /\ example_value = example_value.
Proof.
  split; [reflexivity|].
  eapply (serialization_prefix_free example_type example_pack example_value example_value);
    [reflexivity|apply example_encodable|apply example_encodable
    |vm_compute; reflexivity|vm_compute; reflexivity|reflexivity].
Defined.

(** C21: A value of any Casper type without lists of zero-sized values survives the
    whole way: wrapped in a [CLValue], serialized, deserialized and unwrapped at its
    type it is the same value.  For every type, unwrapping at another type is a type
    error, and the [CLValue] itself survives when its type is nested up to
    [CL_TYPE_RECURSION_DEPTH] deep; the serialized form of a deeper type is rejected
    when it is read. *)
Theorem cl_value_roundtrip ty p (t : pack_type p) v b :
  cl_pack ty = Some p -> cl_wf ty -> encodable t ->
  from_t (H0:=ty) t = Ok v -> to_bytes v = Ok b ->
  deserialize (T:=CLValue) b =
    (if decide (cl_depth ty <= CL_TYPE_RECURSION_DEPTH)%nat then Ok v else Err ExceededRecursionDepth) /\
  (lists_sized ty = true -> into_t (H0:=ty) v = Ok t) /\
  forall ty' p', cl_pack ty' = Some p' -> ty' <> ty ->
    into_t (T:=pack_type p') (H0:=ty') v = Err (TypeMismatch ty' ty).
Proof.
  intros Hp Hwf Ht Hv Hb. pose proof (from_t_type (C:=ty) t v Hv) as Hty.
  cbv [cl_type] in Hty. split_and!.
  - assert (representable (value_bytes v)) as Hr.
    { destruct (CLValue_to_bytes_Ok v b Hb) as (q & Hq & _).
      apply u8_slice_to_bytes_Ok in Hq as [_ [_ Hq]]. cbn. unfold u32_max, u_max. lia. }
    case_decide as Hd.
    + apply deserialize_roundtrip; [|done]. split_and!; [done|by rewrite Hty..].
    + rewrite <- Hty in Hwf, Hd. unfold deserialize. cbn [from_bytes CLValue_bytesrepr].
      by rewrite (CLValue_too_deep v b Hr Hwf ltac:(lia) Hb).
  - intros Hl. destruct (cl_pack_decodable ty p Hp Hl) as [S HS].
    by apply (from_t_into_t (ST := S) (C := ty)); [apply HS|].
  - intros ty' p' _ Hne. unfold into_t. cbv [cl_type]. rewrite decide_False by congruence.
    by rewrite Hty.
Qed.

Lemma cl_value_roundtrip_witness :
  exists v b, from_t (H0:=example_type) example_value = Ok v /\ to_bytes v = Ok b /\
    deserialize (T:=CLValue) b = Ok v /\ into_t (H0:=example_type) v = Ok example_value.
Proof.
  destruct (from_t (H0:=example_type) example_value) as [v| | |] eqn:Ev;
    [|vm_compute in Ev; discriminate..].
  destruct (to_bytes v) as [b| | |] eqn:Eb;
    [|vm_compute in Ev; injection Ev as <-; vm_compute in Eb; discriminate..].
  exists v, b.
  destruct (cl_value_roundtrip example_type example_pack example_value v b) as (H1 & H2 & _);
    [reflexivity|done|apply example_encodable|done|done|].
  split_and!; [done|done|done|by apply H2].
Defined.

(** C22: Deserializing at a Casper type without lists of zero-sized values is safe on
    arbitrary, possibly malformed bytes: it never panics, and when it succeeds the value
    is a value of the type (numbers in range, map keys strictly increasing, access rights
    valid) and the remainder is a suffix of the input.  At a type with such a list, as
    [Vec<()>], there are bytes on which it panics. *)
Theorem cl_from_bytes_safe ty p :
  cl_pack ty = Some p ->
  if lists_sized ty then forall bytes,
    match from_bytes (T:=pack_type p) bytes with
    | Ok (v, rem) => encodable v /\ exists consumed, bytes = consumed ++ rem
    | Err _ => True
    | Panic | Diverge => False
    end
  else exists bytes, from_bytes (T:=pack_type p) bytes = Panic.
Proof.
  intros Hty. destruct (lists_sized ty) eqn:Hl; [|by apply (cl_panics ty)]. intros bytes.
  destruct (cl_pack_decodable ty p Hty Hl) as [S HS]. pose proof (spec_no_panic (T:=pack_type p) bytes) as Hp.
  destruct (from_bytes (T:=pack_type p) bytes) as [[v rem]| | |] eqn:E; try done.
  apply spec_from in E as [Hv E]. split; [by apply HS|done].
Qed.

Lemma cl_from_bytes_safe_witness :
  (exists p, cl_pack (CL_Map CL_U8 CL_Bool) = Some p /\
    match from_bytes (T:=pack_type p) [Byte.x01; Byte.x00] with
    | Ok (v, rem) => encodable v /\ exists consumed, [Byte.x01; Byte.x00] = consumed ++ rem
    | Err _ => True
    | Panic | Diverge => False
    end) /\
  exists p, cl_pack (CL_Option (CL_List CL_Unit)) = Some p /\ exists bytes, from_bytes (T:=pack_type p) bytes = Panic.
Proof.
  split.
  - eexists. split; [reflexivity|]. exact (cl_from_bytes_safe (CL_Map CL_U8 CL_Bool) _ eq_refl [Byte.x01; Byte.x00]).
  - eexists. split; [reflexivity|]. exact (cl_from_bytes_safe (CL_Option (CL_List CL_Unit)) _ eq_refl).
Defined.
