(* ===== verification/Account.v ===== *)
(** * Accounts: associated keys and action thresholds

    Models [types/src/account.rs] with [associated_keys.rs], [action_thresholds.rs]
    and [weight.rs]: who may sign for an account, and how this is changed.  The
    keys in an account's named keys are a type parameter. *)
From S2P Require Import Prelude BTree Bytesrepr Struct Digest Uint Access CLType.

Open Scope Z_scope.

Abbreviation AccountHash := (vec u8 32).
(** A [u8]. *)
Abbreviation Weight := Z.
#[export] Existing Instances array_ord array_ord_laws RString_ord RString_ord_laws.

(** ** Associated keys *)

Abbreviation AssociatedKeys := (list (AccountHash * Weight)).

Inductive AddKeyFailure : Type := MaxKeysLimit | DuplicateKey | AddPermissionDenied.
Inductive RemoveKeyFailure : Type := RemoveMissingKey | RemovePermissionDenied | RemoveThresholdViolation.
Inductive UpdateKeyFailure : Type := UpdateMissingKey | UpdatePermissionDenied | UpdateThresholdViolation.

Definition AssociatedKeys_new (key : AccountHash) (weight : Weight) : AssociatedKeys :=
  btree_insert key weight [].

Definition add_key (keys : AssociatedKeys) (key : AccountHash) (weight : Weight) :
    result AddKeyFailure AssociatedKeys :=
  match btree_get key keys with
  | None => Ok (btree_insert key weight keys)
  | Some _ => Err DuplicateKey
  end.
Definition remove_key (keys : AssociatedKeys) (key : AccountHash) :
    result RemoveKeyFailure AssociatedKeys :=
  match btree_get key keys with
  | Some _ => Ok (btree_remove key keys)
  | None => Err RemoveMissingKey
  end.
Definition update_key (keys : AssociatedKeys) (key : AccountHash) (weight : Weight) :
    result UpdateKeyFailure AssociatedKeys :=
  match btree_get key keys with
  | None => Err UpdateMissingKey
  | Some _ => Ok (btree_insert key weight keys)
  end.
Definition contains_key (keys : AssociatedKeys) (key : AccountHash) : bool :=
  match btree_get key keys with Some _ => true | None => false end.

Definition calculate_any_keys_weight (self : AssociatedKeys) (keys : list AccountHash) : Weight :=
  foldl (saturating_add 8) 0 (omap (fun key => btree_get key self) keys).
(** The argument is a [BTreeSet]. *)
Definition calculate_keys_weight (self : AssociatedKeys) (authorization_keys : list AccountHash) : Weight :=
  calculate_any_keys_weight self authorization_keys.
Definition total_keys_weight (self : AssociatedKeys) : Weight :=
  calculate_any_keys_weight self self.*1.
Definition total_keys_weight_excluding (self : AssociatedKeys) (account_hash : AccountHash) : Weight :=
  calculate_any_keys_weight self (filter (fun element => element <> account_hash) self.*1).

(** ** Action thresholds *)

Inductive ActionType : Type := Deployment | KeyManagement.
Inductive SetThresholdFailure : Type :=
| KeyManagementThreshold | DeploymentThreshold | PermissionDeniedError | InsufficientTotalWeight.

Record ActionThresholds : Type := mkThresholds { deployment : Weight; key_management : Weight }.

Definition ActionThresholds_new (deployment key_management : Weight) :
    result SetThresholdFailure ActionThresholds :=
  if key_management <? deployment then Err DeploymentThreshold
  else Ok (mkThresholds deployment key_management).
Definition set_deployment_threshold (t : ActionThresholds) (new_threshold : Weight) :
    result SetThresholdFailure ActionThresholds :=
  if key_management t <? new_threshold then Err DeploymentThreshold
  else Ok (mkThresholds new_threshold (key_management t)).
Definition set_key_management_threshold (t : ActionThresholds) (new_threshold : Weight) :
    result SetThresholdFailure ActionThresholds :=
  if new_threshold <? deployment t then Err KeyManagementThreshold
  else Ok (mkThresholds (deployment t) new_threshold).
Definition set_threshold (t : ActionThresholds) (action_type : ActionType) (new_threshold : Weight) :
    result SetThresholdFailure ActionThresholds :=
  match action_type with
  | Deployment => set_deployment_threshold t new_threshold
  | KeyManagement => set_key_management_threshold t new_threshold
  end.
Definition ActionThresholds_default : ActionThresholds := mkThresholds 1 1.

(** ** Accounts *)

Section account.
Context {K : Type}.

Abbreviation NamedKeys := (list (RString * K)).
Record Account : Type := mkAccount {
  account_hash : AccountHash;
  named_keys : NamedKeys;
  main_purse : URef;
  associated_keys : AssociatedKeys;
  action_thresholds : ActionThresholds
}.

Definition Account_create (account : AccountHash) (named_keys : NamedKeys) (main_purse : URef) : Account :=
  mkAccount account named_keys main_purse (AssociatedKeys_new account 1) ActionThresholds_default.

Definition with_associated_keys (a : Account) (keys : AssociatedKeys) : Account :=
  mkAccount (account_hash a) (named_keys a) (main_purse a) keys (action_thresholds a).
Definition with_action_thresholds (a : Account) (t : ActionThresholds) : Account :=
  mkAccount (account_hash a) (named_keys a) (main_purse a) (associated_keys a) t.
Definition with_named_keys (a : Account) (keys : NamedKeys) : Account :=
  mkAccount (account_hash a) keys (main_purse a) (associated_keys a) (action_thresholds a).

(** [NamedKeys::append], a [BTreeMap::append]; [Account::named_keys_append] *)
Definition NamedKeys_append (m keys : NamedKeys) : NamedKeys :=
  foldl (fun m '(name, key) => btree_insert name key m) m keys.
Definition named_keys_append (a : Account) (keys : NamedKeys) : Account :=
  with_named_keys a (NamedKeys_append (named_keys a) keys).
Definition remove_named_key (a : Account) (name : RString) : option K * Account :=
  (btree_get name (named_keys a), with_named_keys a (btree_remove name (named_keys a))).
Definition main_purse_add_only (a : Account) : URef := mkURef (addr (main_purse a)) ADD.

Definition add_associated_key (a : Account) (account_hash : AccountHash) (weight : Weight) :
    result AddKeyFailure Account :=
  keys ← add_key (associated_keys a) account_hash weight;
  Ok (with_associated_keys a keys).

Definition can_remove_key (a : Account) (account_hash : AccountHash) : bool :=
  let total_weight_without := total_keys_weight_excluding (associated_keys a) account_hash in
  (deployment (action_thresholds a) <=? total_weight_without) &&
  (key_management (action_thresholds a) <=? total_weight_without).
Definition can_update_key (a : Account) (account_hash : AccountHash) (weight : Weight) : bool :=
  let total_weight := total_keys_weight_excluding (associated_keys a) account_hash in
  let new_weight := saturating_add 8 total_weight weight in
  (deployment (action_thresholds a) <=? new_weight) &&
  (key_management (action_thresholds a) <=? new_weight).

Definition remove_associated_key (a : Account) (account_hash : AccountHash) :
    result RemoveKeyFailure Account :=
  _ ← guard_err (contains_key (associated_keys a) account_hash && negb (can_remove_key a account_hash))
        RemoveThresholdViolation;
  keys ← remove_key (associated_keys a) account_hash;
  Ok (with_associated_keys a keys).
Definition update_associated_key (a : Account) (account_hash : AccountHash) (weight : Weight) :
    result UpdateKeyFailure Account :=
  _ ← guard_err
        match btree_get account_hash (associated_keys a) with
        | Some current_weight => (weight <? current_weight) && negb (can_update_key a account_hash weight)
        | None => false
        end UpdateThresholdViolation;
  keys ← update_key (associated_keys a) account_hash weight;
  Ok (with_associated_keys a keys).

Definition set_action_threshold_unchecked (a : Account) (action_type : ActionType) (threshold : Weight) :
    result SetThresholdFailure Account :=
  t ← set_threshold (action_thresholds a) action_type threshold;
  Ok (with_action_thresholds a t).
Definition can_set_threshold (a : Account) (new_threshold : Weight) : result SetThresholdFailure () :=
  let total_weight := total_keys_weight (associated_keys a) in
  if total_weight <? new_threshold then Err InsufficientTotalWeight else Ok ().
Definition set_action_threshold (a : Account) (action_type : ActionType) (weight : Weight) :
    result SetThresholdFailure Account :=
  _ ← can_set_threshold a weight;
  t ← set_threshold (action_thresholds a) action_type weight;
  Ok (with_action_thresholds a t).

Definition can_authorize (a : Account) (authorization_keys : list AccountHash) : bool :=
  negb (match authorization_keys with [] => true | _ => false end) &&
  forallb (contains_key (associated_keys a)) authorization_keys.
Definition can_deploy_with (a : Account) (authorization_keys : list AccountHash) : bool :=
  deployment (action_thresholds a) <=? calculate_keys_weight (associated_keys a) authorization_keys.
Definition can_manage_keys_with (a : Account) (authorization_keys : list AccountHash) : bool :=
  key_management (action_thresholds a) <=? calculate_keys_weight (associated_keys a) authorization_keys.
End account.
Arguments Account : clear implicits.

(** ** Serialization *)

Definition Weight_bytesrepr : Bytesrepr Weight := uint_bytesrepr 1.
Definition AssociatedKeys_bytesrepr : Bytesrepr AssociatedKeys := btree_map_bytesrepr (H0 := Weight_bytesrepr).
Definition ActionThresholds_bytesrepr : Bytesrepr ActionThresholds :=
  struct_as [field Weight (D:=Weight_bytesrepr); field Weight (D:=Weight_bytesrepr)]
    (fun t => (deployment t, (key_management t, ()))) (fun t => mkThresholds t.1 t.2.1).

Section serialization.
Context {K : Type} {DK : Bytesrepr K} {SK : BytesreprSpec K DK}.

Definition NamedKeys_bytesrepr : Bytesrepr (list (RString * K)) := btree_map_bytesrepr.
Definition account_fields : list {T : Type & Bytesrepr T} :=
  [field AccountHash; field (list (RString * K)) (D:=NamedKeys_bytesrepr); field URef;
   field AssociatedKeys (D:=AssociatedKeys_bytesrepr); field ActionThresholds (D:=ActionThresholds_bytesrepr)].
Definition account_to_tuple (a : Account K) : tuple account_fields :=
  (account_hash a, (named_keys a, (main_purse a, (associated_keys a, (action_thresholds a, ()))))).
Definition account_of_tuple (t : tuple account_fields) : Account K :=
  let '(h, (n, (p, (k, (t, _))))) := t in mkAccount h n p k t.
#[global] Instance Account_bytesrepr : Bytesrepr (Account K) :=
  struct_as account_fields account_to_tuple account_of_tuple.

#[local] Instance Weight_spec : BytesreprSpec Weight Weight_bytesrepr := uint_spec 1.
#[local] Instance AssociatedKeys_spec : BytesreprSpec AssociatedKeys AssociatedKeys_bytesrepr := btree_map_spec.
#[local] Instance NamedKeys_spec : BytesreprSpec (list (RString * K)) NamedKeys_bytesrepr := btree_map_spec.
#[local] Instance ActionThresholds_spec : BytesreprSpec ActionThresholds ActionThresholds_bytesrepr.
Proof. apply struct_as_spec; [apply _|by intros []|by intros (? & ? & [])]. Defined.
#[global] Instance Account_spec : BytesreprSpec (Account K) Account_bytesrepr.
Proof. apply struct_as_spec; [apply _|by intros []|by intros (? & ? & ? & ? & ? & [])]. Defined.
End serialization.

(** ** Weights *)

Definition u8_max : Z := 255.
Abbreviation weights keys := (list_to_map keys : gmap AccountHash Z).

Definition keys_ok (keys : AssociatedKeys) : Prop :=
  btree_sorted keys /\ forall k w, weights keys !! k = Some w -> in_u 8 w.

Lemma saturating_fold acc l :
  acc <= u8_max -> Forall (Z.le 0) l -> foldl (saturating_add 8) acc l = Z.min (acc + foldr Z.add 0 l) u8_max.
Proof.
  intros Ha Hl. revert acc Ha. induction Hl as [|w l Hw Hl IH]; intros acc Ha; cbn [foldl foldr]; [lia|].
  unfold u8_max in *. rewrite IH; unfold saturating_add, u_max; change (2 ^ 8 - 1) with 255; [|lia].
  assert (0 <= foldr Z.add 0 l); [|lia]. clear -Hl. induction Hl; cbn; lia.
Qed.

(** The weight of distinct keys is the sum of their weights, up to 255. *)
Lemma any_keys_weight_sum keys ks :
  keys_ok keys -> NoDup ks ->
  calculate_any_keys_weight keys ks =
  Z.min (map_sum (filter (fun kv => kv.1 ∈ ks) (weights keys))) u8_max.
Proof.
  intros [Hs Hr] Hn. unfold calculate_any_keys_weight.
  assert (omap (fun key => btree_get key keys) ks = omap (weights keys !!.) ks) as ->.
  { clear -Hs. induction ks as [|k ks IH]; cbn; [done|]. by rewrite btree_get_gmap, IH. }
  rewrite saturating_fold; [|done|].
  - by rewrite map_sum_omap by done.
  - apply Forall_forall. intros w (k & _ & Hk)%list_elem_of_omap. by apply Hr in Hk as [? _].
Qed.

Lemma weight_range keys k w : keys_ok keys -> weights keys !! k = Some w -> 0 <= w.
Proof. intros [_ Hr] Hk. by apply Hr in Hk as [? _]. Qed.

Lemma total_keys_weight_sum keys :
  keys_ok keys -> total_keys_weight keys = Z.min (map_sum (weights keys)) u8_max.
Proof.
  intros Hk. pose proof (btree_keys_nodup keys (proj1 Hk)) as Hn.
  unfold total_keys_weight. rewrite any_keys_weight_sum by done. f_equal. f_equal.
  apply map_filter_id. intros k w Hw. cbn.
  apply elem_of_list_to_map_2 in Hw. apply list_elem_of_fmap. by exists (k, w).
Qed.

Lemma total_excluding_sum keys k :
  keys_ok keys -> total_keys_weight_excluding keys k = Z.min (map_sum (delete k (weights keys))) u8_max.
Proof.
  intros Hk. pose proof (btree_keys_nodup keys (proj1 Hk)) as Hn.
  unfold total_keys_weight_excluding. rewrite any_keys_weight_sum by (done || by apply NoDup_filter).
  f_equal. f_equal. apply map_eq. intros k'. apply option_eq. intros w.
  rewrite map_lookup_filter_Some, lookup_delete_Some, list_elem_of_filter. cbn. split; [naive_solver|].
  intros [Hne Hw]. split; [done|]. split; [done|].
  apply elem_of_list_to_map_2 in Hw. apply list_elem_of_fmap. by exists (k', w).
Qed.

Lemma weights_ok_insert keys k w : keys_ok keys -> in_u 8 w -> keys_ok (btree_insert k w keys).
Proof.
  intros [Hs Hr] Hw. split; [by apply btree_insert_sorted|].
  intros k' w'. rewrite btree_insert_gmap by done.
  intros [[-> <-]|[_ Hk]]%lookup_insert_Some; eauto.
Qed.

Lemma keys_ok_remove keys k : keys_ok keys -> keys_ok (btree_remove k keys).
Proof.
  intros [Hs Hr]. split; [by apply btree_remove_sorted|].
  intros k' w'. rewrite btree_remove_gmap by done. intros [_ Hk]%lookup_delete_Some. eauto.
Qed.

(** ** The invariant: thresholds are ordered, and without administrators met by all keys *)

Section invariant.
Context {K : Type}.
Implicit Types a : Account K.

Record account_ok a : Prop := {
  ok_keys : keys_ok (associated_keys a);
  ok_ordered : deployment (action_thresholds a) <= key_management (action_thresholds a)
}.
(** All keys together meet the thresholds. *)
Definition met a : Prop := key_management (action_thresholds a) <= total_keys_weight (associated_keys a).

(** A successful operation that is not authorized by an administrator. *)
Inductive owner_step a : Account K -> Prop :=
| step_add k w a' : in_u 8 w -> add_associated_key a k w = Ok a' -> owner_step a a'
| step_remove k a' : remove_associated_key a k = Ok a' -> owner_step a a'
| step_update k w a' : in_u 8 w -> update_associated_key a k w = Ok a' -> owner_step a a'
| step_threshold t w a' : in_u 8 w -> set_action_threshold a t w = Ok a' -> owner_step a a'
| step_append keys : owner_step a (named_keys_append a keys)
| step_remove_name name : owner_step a (remove_named_key a name).2.
(** Any successful operation: an administrator sets thresholds unchecked. *)
Inductive account_step a : Account K -> Prop :=
| step_owner a' : owner_step a a' -> account_step a a'
| step_unchecked t w a' : in_u 8 w -> set_action_threshold_unchecked a t w = Ok a' -> account_step a a'.

Lemma account_create_ok h keys purse :
  account_ok (Account_create h keys purse : Account K) /\ met (Account_create h keys purse : Account K).
Proof.
  assert (keys_ok (AssociatedKeys_new h 1)) as Hk.
  { split; [by repeat constructor|]. intros k w. cbn.
    by intros [[_ <-]|[_ Hk]]%lookup_insert_Some; [|by apply lookup_empty_Some in Hk]. }
  split; [done|]. unfold met. rewrite total_keys_weight_sum by done. cbn.
  rewrite map_sum_insert_fresh by apply lookup_empty. by rewrite map_sum_empty.
Qed.

Lemma add_ok a k w a' : in_u 8 w -> account_ok a -> add_associated_key a k w = Ok a' -> account_ok a' /\ (met a -> met a').
Proof.
  intros Hw [Hk Ho] (keys & Ek & [= <-])%bind_Ok. unfold add_key in Ek.
  destruct (btree_get k (associated_keys a)) as [w0|] eqn:E; [done|]. injection Ek as <-.
  split; [split|unfold met]; cbn [associated_keys with_associated_keys action_thresholds]; [by apply weights_ok_insert|done|].
  intros Hm. rewrite total_keys_weight_sum in Hm by done. rewrite total_keys_weight_sum by (by apply weights_ok_insert).
  rewrite btree_get_gmap in E by apply Hk.
  rewrite btree_insert_gmap, map_sum_insert_fresh by (done || apply Hk). destruct Hw. lia.
Qed.

Lemma remove_ok a k a' : account_ok a -> remove_associated_key a k = Ok a' -> account_ok a' /\ met a'.
Proof.
  intros [Hk Ho] (? & Hg%guard_err_Ok & (keys & Ek & [= <-])%bind_Ok)%bind_Ok.
  unfold remove_key, contains_key in *. destruct (btree_get k (associated_keys a)) as [w0|] eqn:E; [|done].
  injection Ek as <-. unfold can_remove_key in Hg. cbn [andb] in Hg. apply negb_false_iff, andb_prop in Hg as [H1 H2].
  split; [split|unfold met]; cbn [associated_keys with_associated_keys action_thresholds]; [by apply keys_ok_remove|done|].
  rewrite total_keys_weight_sum by (by apply keys_ok_remove).
  rewrite total_excluding_sum in * by done. rewrite btree_remove_gmap by apply Hk. lia.
Qed.

Lemma update_ok a k w a' : in_u 8 w -> account_ok a -> update_associated_key a k w = Ok a' -> account_ok a' /\ (met a -> met a').
Proof.
  intros Hw [Hk Ho] (? & Hg%guard_err_Ok & (keys & Ek & [= <-])%bind_Ok)%bind_Ok.
  unfold update_key in Ek. destruct (btree_get k (associated_keys a)) as [w0|] eqn:E; [|done].
  injection Ek as <-. rewrite btree_get_gmap in E by apply Hk.
  split; [split|unfold met]; cbn [associated_keys with_associated_keys action_thresholds]; [by apply weights_ok_insert|done|].
  intros Hm. rewrite total_keys_weight_sum in Hm by done. rewrite total_keys_weight_sum by (by apply weights_ok_insert).
  rewrite btree_insert_gmap by apply Hk. rewrite map_sum_insert, E. cbn [default from_option id].
  destruct (Z.ltb_spec w w0) as [Hlt|Hge]; [|lia]. cbn [andb] in Hg.
  unfold can_update_key in Hg. apply negb_false_iff, andb_prop in Hg as [H1 H2].
  rewrite total_excluding_sum, map_sum_remove, E in * by done. cbn [default from_option id] in *.
  unfold saturating_add, u_max, u8_max in *. change (2 ^ 8 - 1) with 255 in *. lia.
Qed.

Lemma unchecked_ok a t w a' : account_ok a -> set_action_threshold_unchecked a t w = Ok a' ->
  account_ok a' /\ (met a -> w <= total_keys_weight (associated_keys a) -> met a').
Proof.
  intros [Hk Ho] (t' & Et & [= <-])%bind_Ok.
  destruct t; cbn in Et; unfold set_deployment_threshold, set_key_management_threshold in Et;
    case_match eqn:Eb; try done; apply Z.ltb_ge in Eb; injection Et as <-; (split; [split|unfold met]);
      cbn [associated_keys with_action_thresholds action_thresholds deployment key_management]; lia || done.
Qed.

Lemma threshold_ok a t w a' : account_ok a -> set_action_threshold a t w = Ok a' -> account_ok a' /\ (met a -> met a').
Proof.
  intros Ha (? & Hc & E)%bind_Ok. apply (unchecked_ok a t w a' Ha) in E as [H1 H2]. split; [done|]. intros Hm.
  apply H2; [done|]. unfold can_set_threshold in Hc. by destruct (Z.ltb_spec (total_keys_weight (associated_keys a)) w).
Qed.

Lemma owner_step_ok a a' : account_ok a -> owner_step a a' -> account_ok a' /\ (met a -> met a').
Proof.
  intros Ha. destruct 1 as [k w a' Hw E|k a' E|k w a' Hw E|t w a' Hw E| |].
  - by eapply add_ok.
  - apply remove_ok in E as [? ?]; [|done]. by split.
  - by eapply update_ok.
  - by eapply threshold_ok.
  - by destruct Ha.
  - by destruct Ha.
Qed.

Lemma account_steps_ok a a' : account_ok a -> rtc account_step a a' -> account_ok a'.
Proof.
  intros Ha. induction 1 as [|a b c Hs _ IH]; [done|]. apply IH. destruct Hs as [b Hs|t w b Hw Hs].
  - by apply (owner_step_ok a b).
  - by apply (unchecked_ok a t w b).
Qed.
Lemma owner_steps_ok a a' : account_ok a -> met a -> rtc owner_step a a' -> account_ok a' /\ met a'.
Proof.
  intros Ha Hm Hs. induction Hs as [|a b c Hs _ IH]; [done|].
  destruct (owner_step_ok a b Ha Hs) as [Hb Hmb]. by apply IH; [|apply Hmb].
Qed.
Lemma can_authorize_spec a ks : keys_ok (associated_keys a) ->
  can_authorize a ks = true <-> ks <> [] /\ forall k, k ∈ ks -> is_Some (weights (associated_keys a) !! k).
Proof.
  intros [Hs _]. unfold can_authorize. rewrite andb_true_iff, forallb_forall. unfold contains_key.
  split; intros [H1 H2]; (split; [by destruct ks|]); intros k Hk.
  - specialize (H2 k ltac:(by apply list_elem_of_In)). rewrite btree_get_gmap in H2 by done. by destruct (weights _ !! k).
  - rewrite btree_get_gmap by done. apply list_elem_of_In in Hk. by destruct (H2 k Hk) as [? ->].
Qed.
Lemma met_can a : can_manage_keys_with a (associated_keys a).*1 = true <-> met a.
Proof. unfold can_manage_keys_with, calculate_keys_weight, met, total_keys_weight. lia. Qed.
Lemma met_can_both a : account_ok a -> met a ->
  can_deploy_with a (associated_keys a).*1 = true /\ can_manage_keys_with a (associated_keys a).*1 = true.
Proof.
  intros [_ Ho] Hm. unfold can_deploy_with, can_manage_keys_with, calculate_keys_weight.
  unfold met, total_keys_weight in Hm. lia.
Qed.
End invariant.

(** ** Theorems *)

Section theorems.
Context {K : Type}.
Implicit Types a : Account K.

(** C30: only an administrator can lock an account out.  After any sequence of successful
    key and threshold changes since the creation of an account, those of administrators
    included, its deployment threshold is at most its key management threshold.  When
    all its keys together can manage it, as at its creation, every further sequence of
    operations that no administrator authorizes leaves all its keys together able to
    deploy and to manage. *)
Theorem account_never_locked_out h keys purse a :
  rtc account_step (Account_create h keys purse) a ->
  deployment (action_thresholds a) <= key_management (action_thresholds a) /\
  (a = Account_create h keys purse \/ can_manage_keys_with a (associated_keys a).*1 = true ->
   forall a', rtc owner_step a a' ->
     can_deploy_with a' (associated_keys a').*1 = true /\ can_manage_keys_with a' (associated_keys a').*1 = true).
Proof.
  intros Hs. destruct (account_create_ok h keys purse) as [Hc Hcm].
  pose proof (account_steps_ok _ _ Hc Hs) as Ha. split; [apply Ha|].
  intros Hm a' Hs'. assert (met a) as Hmet by (destruct Hm as [->|Hm]; [done|by apply met_can]).
  destruct (owner_steps_ok a a' Ha Hmet Hs') as [Ha' Hm']. by apply met_can_both.
Qed.

(** C31: signing.  Keys authorize exactly when there are any and all are associated with
    the account, so an unknown key among them takes the authorization away.  Distinct
    keys may deploy, or manage, exactly when the weights of the associated ones, summed
    and capped at 255, reach the threshold: keys that may manage may deploy, and the
    thresholds stay reached when keys are added. *)
Theorem authorization_exact h keys purse a ks :
  rtc account_step (Account_create h keys purse) a -> NoDup ks ->
  let weight ks := Z.min (map_sum (filter (fun kv => kv.1 ∈ ks) (weights (associated_keys a)))) 255 in
  (can_authorize a ks = true <-> ks <> [] /\ forall k, k ∈ ks -> is_Some (weights (associated_keys a) !! k)) /\
  (can_deploy_with a ks = true <-> deployment (action_thresholds a) <= weight ks) /\
  (can_manage_keys_with a ks = true <-> key_management (action_thresholds a) <= weight ks) /\
  (can_manage_keys_with a ks = true -> can_deploy_with a ks = true) /\
  (forall more, NoDup more -> ks ⊆ more ->
     (can_deploy_with a ks = true -> can_deploy_with a more = true) /\
     (can_manage_keys_with a ks = true -> can_manage_keys_with a more = true) /\
     (can_authorize a more = true -> ks <> [] -> can_authorize a ks = true)).
Proof.
  intros Hs Hn weight. destruct (account_steps_ok _ _ (proj1 (account_create_ok h keys purse)) Hs) as [Hk Ho].
  unfold can_deploy_with, can_manage_keys_with, calculate_keys_weight.
  rewrite any_keys_weight_sum by done. change u8_max with 255. fold (weight ks). split; [by apply can_authorize_spec|]. split; [lia|]. split; [lia|]. split; [lia|].
  intros more Hn' Hsub. rewrite any_keys_weight_sum by done. change u8_max with 255. fold (weight more). rewrite !can_authorize_spec by done.
  assert (weight ks <= weight more); [|split_and!; [lia|lia|set_solver]]. unfold weight.
  assert (map_sum (filter (fun kv => kv.1 ∈ ks) (weights (associated_keys a))) <=
    map_sum (filter (fun kv => kv.1 ∈ more) (weights (associated_keys a)))); [|lia].
  apply map_sum_subseteq.
  - intros k w [Hw _]%map_lookup_filter_Some. by eapply weight_range.
  - apply map_subseteq_spec. intros k w. rewrite !map_lookup_filter_Some. cbn. set_solver.
Qed.
End theorems.

(** An account with a second key of weight 2 and raised thresholds. *)
Definition hash_of (b : u8) : AccountHash := vreplicate 32 b.
Definition example_account : Account () :=
  Account_create (hash_of Byte.x01) [] (mkURef (hash_of Byte.x09) READ_ADD_WRITE).
Definition get_or {E A} (a : A) (r : result E A) : A := match r with Ok x => x | _ => a end.
Definition example_account2 : Account () :=
  get_or example_account (add_associated_key example_account (hash_of Byte.x02) 2).
Definition example_account3 : Account () :=
  get_or example_account (set_action_threshold example_account2 KeyManagement 3).

Lemma example_owner_steps : rtc owner_step example_account example_account3.
Proof.
  apply rtc_l with example_account2; [|apply rtc_once].
  - apply step_add with (hash_of Byte.x02) 2; [by vm_compute|]. vm_compute. reflexivity.
  - apply step_threshold with KeyManagement 3; [by vm_compute|]. vm_compute. reflexivity.
Qed.
(** An administrator sets a threshold that all keys together do not reach. *)
Definition example_account4 : Account () :=
  get_or example_account (set_action_threshold_unchecked example_account3 KeyManagement 4).
Lemma example_steps : rtc account_step example_account example_account4.
Proof.
  apply rtc_r with example_account3.
  - eapply rtc_subrel; [|apply example_owner_steps]. by intros ??; apply step_owner.
  - apply step_unchecked with KeyManagement 4; [by vm_compute|]. vm_compute. reflexivity.
Qed.

Lemma account_never_locked_out_witness :
  key_management (action_thresholds example_account3) = 3 /\
  can_manage_keys_with example_account3 (associated_keys example_account3).*1 = true /\
  can_manage_keys_with example_account4 (associated_keys example_account4).*1 = false.
Proof.
  split; [vm_compute; reflexivity|]. split; [|vm_compute; reflexivity].
  apply (proj2 (account_never_locked_out (hash_of Byte.x01) [] _ example_account (rtc_refl _ _)) (or_introl eq_refl)
    example_account3 example_owner_steps).
Defined.

Lemma authorization_exact_witness :
  can_manage_keys_with example_account4 [hash_of Byte.x01] = false /\
  can_deploy_with example_account4 [hash_of Byte.x01; hash_of Byte.x02] = true.
Proof.
  split; [vm_compute; reflexivity|].
  pose proof (authorization_exact (hash_of Byte.x01) [] _ example_account4 [hash_of Byte.x01; hash_of Byte.x02]
    example_steps) as (_ & H & _).
  - apply NoDup_cons; split; [|apply NoDup_singleton]. intros E%list_elem_of_singleton. discriminate E.
  - apply H. vm_compute. discriminate.
Defined.
