(* ===== verification/Key.v ===== *)
(** * Keys of the global state

    Models [types/src/key.rs] and the addresses a key can hold:
    [types/src/addressable_entity.rs] ([EntityAddr], [NamedKeyAddr]),
    [addressable_entity/entry_points.rs] ([EntryPointAddr]), [byte_code.rs]
    ([ByteCodeAddr]), [contract_messages.rs] ([MessageAddr]),
    [block/block_global.rs] ([BlockGlobalAddr]), [system/mint/balance_hold.rs]
    ([BalanceHoldAddr]) and [system/auction/bid_addr.rs] ([BidAddr]), with their
    serialization and the rules that say who may read, write and extend the
    record under a key. *)
From S2P Require Import Prelude BTree Bytesrepr Struct Uint Units Digest PublicKey Access CLType.

Open Scope Z_scope.

Abbreviation HashAddr := (vec u8 32).
Abbreviation AccountHash := (vec u8 32).
Abbreviation PackageAddr := (vec u8 32).
Abbreviation DictionaryAddr := (vec u8 32).
Abbreviation TransferAddr := (vec u8 32).
Abbreviation DeployHash := Digest.
Abbreviation TopicNameHash := (vec u8 32).

(** ** [EntityAddr] *)

Inductive EntityKindTag : Type := EK_System | EK_Account | EK_SmartContract.
#[global] Instance EntityKindTag_eq_dec : EqDecision EntityKindTag.
Proof. solve_decision. Defined.
Definition EntityKindTag_to_u8 (t : EntityKindTag) : u8 :=
  match t with EK_System => Byte.x00 | EK_Account => Byte.x01 | EK_SmartContract => Byte.x02 end.
Definition EntityKindTag_try_from (value : u8) : result Error EntityKindTag :=
  match value with
  | Byte.x00 => Ok EK_System
  | Byte.x01 => Ok EK_Account
  | Byte.x02 => Ok EK_SmartContract
  | _ => Err Formatting
  end.
#[global] Instance EntityKindTag_bytesrepr : Bytesrepr EntityKindTag := {|
  to_bytes t := to_bytes (EntityKindTag_to_u8 t);
  write_bytes t := write_bytes (EntityKindTag_to_u8 t);
  serialized_length _ := 1;
  from_bytes bytes :=
    '(entity_kind_tag, remainder) ← from_bytes (T:=u8) bytes;
    t ← EntityKindTag_try_from entity_kind_tag;
    Ok (t, remainder)
|}.

Inductive EntityAddr : Type :=
| EA_System (hash_addr : HashAddr)
| EA_Account (hash_addr : HashAddr)
| EA_SmartContract (hash_addr : HashAddr).
#[global] Instance EntityAddr_eq_dec : EqDecision EntityAddr.
Proof. solve_decision. Defined.
Definition entity_tag (a : EntityAddr) : EntityKindTag :=
  match a with EA_System _ => EK_System | EA_Account _ => EK_Account | EA_SmartContract _ => EK_SmartContract end.
Definition entity_value (a : EntityAddr) : HashAddr :=
  match a with EA_System h | EA_Account h | EA_SmartContract h => h end.
Definition entity_is_contract (a : EntityAddr) : bool := bool_decide (entity_tag a = EK_SmartContract).
Definition entity_is_account (a : EntityAddr) : bool := bool_decide (entity_tag a = EK_Account).
Definition into_smart_contract (a : EntityAddr) : option HashAddr :=
  match a with EA_SmartContract h => Some h | _ => None end.
Definition entity_write_bytes (a : EntityAddr) (writer : list u8) : result Error (list u8) :=
  match a with
  | EA_System addr => writer ← write_bytes EK_System writer; write_bytes addr writer
  | EA_Account addr => writer ← write_bytes EK_Account writer; write_bytes addr writer
  | EA_SmartContract addr => writer ← write_bytes EK_SmartContract writer; write_bytes addr writer
  end.
Definition EntityAddr_LENGTH : Z := 1 + 32.
Definition entity_from_bytes (bytes : list u8) : result Error (EntityAddr * list u8) :=
  '(tag, remainder) ← from_bytes (T:=EntityKindTag) bytes;
  '(addr, remainder) ← from_bytes (T:=HashAddr) remainder;
  Ok (match tag with
      | EK_System => EA_System addr
      | EK_Account => EA_Account addr
      | EK_SmartContract => EA_SmartContract addr
      end, remainder).
#[global] Instance EntityAddr_bytesrepr : Bytesrepr EntityAddr := {|
  to_bytes a := buffer ← allocate_buffer EntityAddr_LENGTH; entity_write_bytes a buffer;
  write_bytes := entity_write_bytes;
  serialized_length _ := EntityAddr_LENGTH;
  from_bytes := entity_from_bytes
|}.

(** ** [NamedKeyAddr] *)

Record NamedKeyAddr : Type := mkNamedKeyAddr { base_addr : EntityAddr; string_bytes : HashAddr }.
#[global] Instance NamedKeyAddr_eq_dec : EqDecision NamedKeyAddr.
Proof. solve_decision. Defined.
Definition named_key_length (a : NamedKeyAddr) : Z :=
  serialized_length (base_addr a) + serialized_length (string_bytes a).
Definition named_key_to_bytes (a : NamedKeyAddr) : result Error (list u8) :=
  buffer ← allocate_buffer (named_key_length a);
  b ← to_bytes (base_addr a); let buffer := buffer ++ b in
  b ← to_bytes (string_bytes a); let buffer := buffer ++ b in
  Ok buffer.
#[global] Instance NamedKeyAddr_bytesrepr : Bytesrepr NamedKeyAddr := {|
  to_bytes := named_key_to_bytes;
  write_bytes := default_write_bytes named_key_to_bytes;
  serialized_length := named_key_length;
  from_bytes bytes :=
    '(base_addr, remainder) ← from_bytes (T:=EntityAddr) bytes;
    '(string_bytes, remainder) ← from_bytes (T:=HashAddr) remainder;
    Ok (mkNamedKeyAddr base_addr string_bytes, remainder)
|}.

(** ** [EntryPointAddr] *)

Inductive EntryPointAddr : Type := VmCasperV1 (entity_addr : EntityAddr) (name_bytes : HashAddr).
#[global] Instance EntryPointAddr_eq_dec : EqDecision EntryPointAddr.
Proof. solve_decision. Defined.
Definition V1_ENTRY_POINT_TAG : u8 := Byte.x00.
Definition entry_point_length (a : EntryPointAddr) : Z :=
  1 + match a with VmCasperV1 entity_addr named_bytes => serialized_length entity_addr + serialized_length named_bytes end.
Definition entry_point_to_bytes (a : EntryPointAddr) : result Error (list u8) :=
  buffer ← allocate_buffer (entry_point_length a);
  match a with
  | VmCasperV1 entity_addr named_bytes =>
      let buffer := V1_ENTRY_POINT_TAG :: buffer in
      b ← to_bytes entity_addr; let buffer := buffer ++ b in
      b ← to_bytes named_bytes; let buffer := buffer ++ b in
      Ok buffer
  end.
Definition entry_point_from_bytes (bytes : list u8) : result Error (EntryPointAddr * list u8) :=
  '(tag, bytes) ← from_bytes (T:=u8) bytes;
  if decide (tag = V1_ENTRY_POINT_TAG) then
    '(entity_addr, bytes) ← from_bytes (T:=EntityAddr) bytes;
    '(name_bytes, bytes) ← from_bytes (T:=HashAddr) bytes;
    Ok (VmCasperV1 entity_addr name_bytes, bytes)
  else Err Formatting.
#[global] Instance EntryPointAddr_bytesrepr : Bytesrepr EntryPointAddr := {|
  to_bytes := entry_point_to_bytes;
  write_bytes := default_write_bytes entry_point_to_bytes;
  serialized_length := entry_point_length;
  from_bytes := entry_point_from_bytes
|}.

(** ** [ByteCodeAddr] *)

Inductive ByteCodeKind : Type := BC_Empty | BC_V1CasperWasm | BC_V2CasperWasm.
#[global] Instance ByteCodeKind_eq_dec : EqDecision ByteCodeKind.
Proof. solve_decision. Defined.
Definition ByteCodeKind_to_u8 (k : ByteCodeKind) : u8 :=
  match k with BC_Empty => Byte.x00 | BC_V1CasperWasm => Byte.x01 | BC_V2CasperWasm => Byte.x02 end.
#[global] Instance ByteCodeKind_bytesrepr : Bytesrepr ByteCodeKind := {|
  to_bytes k := to_bytes (ByteCodeKind_to_u8 k);
  write_bytes k := write_bytes (ByteCodeKind_to_u8 k);
  serialized_length _ := 1;
  from_bytes bytes :=
    '(byte_code_kind, remainder) ← from_bytes (T:=u8) bytes;
    match byte_code_kind with
    | Byte.x00 => Ok (BC_Empty, remainder)
    | Byte.x01 => Ok (BC_V1CasperWasm, remainder)
    | Byte.x02 => Ok (BC_V2CasperWasm, remainder)
    | _ => Err Formatting
    end
|}.

Inductive ByteCodeAddr : Type :=
| BCA_V1CasperWasm (hash_addr : HashAddr)
| BCA_V2CasperWasm (hash_addr : HashAddr)
| BCA_Empty.
#[global] Instance ByteCodeAddr_eq_dec : EqDecision ByteCodeAddr.
Proof. solve_decision. Defined.
Definition byte_code_tag (a : ByteCodeAddr) : ByteCodeKind :=
  match a with
  | BCA_Empty => BC_Empty
  | BCA_V1CasperWasm _ => BC_V1CasperWasm
  | BCA_V2CasperWasm _ => BC_V2CasperWasm
  end.
Definition byte_code_length (a : ByteCodeAddr) : Z :=
  1 + match a with BCA_Empty => 0 | BCA_V1CasperWasm _ => 32 | BCA_V2CasperWasm _ => 32 end.
Definition byte_code_write_bytes (a : ByteCodeAddr) (writer : list u8) : result Error (list u8) :=
  match a with
  | BCA_Empty => Ok (writer ++ [ByteCodeKind_to_u8 (byte_code_tag a)])
  | BCA_V1CasperWasm addr =>
      b ← to_bytes addr; Ok ((writer ++ [ByteCodeKind_to_u8 (byte_code_tag a)]) ++ b)
  | BCA_V2CasperWasm addr =>
      b ← to_bytes addr; Ok ((writer ++ [ByteCodeKind_to_u8 (byte_code_tag a)]) ++ b)
  end.
Definition byte_code_from_bytes (bytes : list u8) : result Error (ByteCodeAddr * list u8) :=
  '(tag, remainder) ← from_bytes (T:=ByteCodeKind) bytes;
  match tag with
  | BC_Empty => Ok (BCA_Empty, remainder)
  | BC_V1CasperWasm =>
      '(addr, remainder) ← from_bytes (T:=HashAddr) remainder; Ok (BCA_V1CasperWasm addr, remainder)
  | BC_V2CasperWasm =>
      '(addr, remainder) ← from_bytes (T:=HashAddr) remainder; Ok (BCA_V2CasperWasm addr, remainder)
  end.
#[global] Instance ByteCodeAddr_bytesrepr : Bytesrepr ByteCodeAddr := {|
  to_bytes a := buffer ← allocate_buffer (byte_code_length a); byte_code_write_bytes a buffer;
  write_bytes := byte_code_write_bytes;
  serialized_length := byte_code_length;
  from_bytes := byte_code_from_bytes
|}.

(** ** [MessageAddr] *)

(** [Option<u32>], the index of a message *)
Definition message_index_bytesrepr : Bytesrepr (option Z) := option_bytesrepr (H := u32_bytesrepr).
Record MessageAddr : Type := mkMessageAddr {
  message_entity_addr : EntityAddr;
  topic_name_hash : TopicNameHash;
  message_index : option Z
}.
#[global] Instance MessageAddr_eq_dec : EqDecision MessageAddr.
Proof. solve_decision. Defined.
Definition new_topic_addr (entity_addr : EntityAddr) (topic : TopicNameHash) : MessageAddr :=
  mkMessageAddr entity_addr topic None.
Definition new_message_addr (entity_addr : EntityAddr) (topic : TopicNameHash) (index : Z) : MessageAddr :=
  mkMessageAddr entity_addr topic (Some index).
Definition message_length (a : MessageAddr) : Z :=
  serialized_length (message_entity_addr a) + serialized_length (topic_name_hash a)
    + serialized_length (Bytesrepr := message_index_bytesrepr) (message_index a).
Definition message_to_bytes (a : MessageAddr) : result Error (list u8) :=
  buffer ← allocate_buffer (message_length a);
  b ← to_bytes (message_entity_addr a); let buffer := buffer ++ b in
  b ← to_bytes (topic_name_hash a); let buffer := buffer ++ b in
  b ← to_bytes (Bytesrepr := message_index_bytesrepr) (message_index a); let buffer := buffer ++ b in
  Ok buffer.
Definition message_from_bytes (bytes : list u8) : result Error (MessageAddr * list u8) :=
  '(entity_addr, rem) ← from_bytes (T:=EntityAddr) bytes;
  '(topic_hash, rem) ← from_bytes (T:=TopicNameHash) rem;
  '(message_index, rem) ← from_bytes (Bytesrepr := message_index_bytesrepr) rem;
  Ok (mkMessageAddr entity_addr topic_hash message_index, rem).
#[global] Instance MessageAddr_bytesrepr : Bytesrepr MessageAddr := {|
  to_bytes := message_to_bytes;
  write_bytes := default_write_bytes message_to_bytes;
  serialized_length := message_length;
  from_bytes := message_from_bytes
|}.

(** ** [BlockGlobalAddr] *)

Inductive BlockGlobalAddr : Type := BG_BlockTime | BG_MessageCount | BG_ProtocolVersion | BG_AddressableEntity.
#[global] Instance BlockGlobalAddr_eq_dec : EqDecision BlockGlobalAddr.
Proof. solve_decision. Defined.
(** [self.tag() as u8] *)
Definition block_global_tag (a : BlockGlobalAddr) : u8 :=
  match a with
  | BG_BlockTime => Byte.x00 | BG_MessageCount => Byte.x01
  | BG_ProtocolVersion => Byte.x02 | BG_AddressableEntity => Byte.x03
  end.
Definition block_global_to_bytes (a : BlockGlobalAddr) : result Error (list u8) :=
  buffer ← allocate_buffer 1; Ok (buffer ++ [block_global_tag a]).
#[global] Instance BlockGlobalAddr_bytesrepr : Bytesrepr BlockGlobalAddr := {|
  to_bytes := block_global_to_bytes;
  write_bytes := default_write_bytes block_global_to_bytes;
  serialized_length _ := 1;
  from_bytes bytes :=
    '(tag, remainder) ← from_bytes (T:=u8) bytes;
    match tag with
    | Byte.x00 => Ok (BG_BlockTime, remainder)
    | Byte.x01 => Ok (BG_MessageCount, remainder)
    | Byte.x02 => Ok (BG_ProtocolVersion, remainder)
    | Byte.x03 => Ok (BG_AddressableEntity, remainder)
    | _ => Err Formatting
    end
|}.

(** ** [BalanceHoldAddr] *)

Inductive BalanceHoldAddr : Type :=
| BH_Gas (purse_addr : URefAddr) (block_time : BlockTime)
| BH_Processing (purse_addr : URefAddr) (block_time : BlockTime).
#[global] Instance BalanceHoldAddr_eq_dec : EqDecision BalanceHoldAddr.
Proof. solve_decision. Defined.
Definition hold_tag (a : BalanceHoldAddr) : u8 :=
  match a with BH_Gas _ _ => Byte.x00 | BH_Processing _ _ => Byte.x01 end.
Definition hold_purse_addr (a : BalanceHoldAddr) : URefAddr :=
  match a with BH_Gas purse_addr _ | BH_Processing purse_addr _ => purse_addr end.
Definition hold_block_time (a : BalanceHoldAddr) : BlockTime :=
  match a with BH_Gas _ block_time | BH_Processing _ block_time => block_time end.
Definition hold_length (a : BalanceHoldAddr) : Z :=
  match a with
  | BH_Gas purse_addr block_time | BH_Processing purse_addr block_time =>
      1 + serialized_length purse_addr + serialized_length block_time
  end.
Definition hold_to_bytes (a : BalanceHoldAddr) : result Error (list u8) :=
  buffer ← allocate_buffer (hold_length a);
  let buffer := buffer ++ [hold_tag a] in
  match a with
  | BH_Gas purse_addr block_time | BH_Processing purse_addr block_time =>
      b ← to_bytes purse_addr; let buffer := buffer ++ b in
      b ← to_bytes block_time; let buffer := buffer ++ b in
      Ok buffer
  end.
Definition hold_from_bytes (bytes : list u8) : result Error (BalanceHoldAddr * list u8) :=
  '(tag, remainder) ← from_bytes (T:=u8) bytes;
  match tag with
  | Byte.x00 =>
      '(purse_addr, rem) ← from_bytes (T:=URefAddr) remainder;
      '(block_time, rem) ← from_bytes (T:=BlockTime) rem;
      Ok (BH_Gas purse_addr block_time, rem)
  | Byte.x01 =>
      '(purse_addr, rem) ← from_bytes (T:=URefAddr) remainder;
      '(block_time, rem) ← from_bytes (T:=BlockTime) rem;
      Ok (BH_Processing purse_addr block_time, rem)
  | _ => Err Formatting
  end.
#[global] Instance BalanceHoldAddr_bytesrepr : Bytesrepr BalanceHoldAddr := {|
  to_bytes := hold_to_bytes;
  write_bytes := default_write_bytes hold_to_bytes;
  serialized_length := hold_length;
  from_bytes := hold_from_bytes
|}.

(** ** [BidAddr] *)

Inductive BidAddr : Type :=
| BA_Unified (account_hash : AccountHash)
| BA_Validator (account_hash : AccountHash)
| BA_DelegatedAccount (validator delegator : AccountHash)
| BA_DelegatedPurse (validator : AccountHash) (delegator : URefAddr)
| BA_Credit (validator : AccountHash) (era_id : EraId)
| BA_ReservedDelegationAccount (validator delegator : AccountHash)
| BA_ReservedDelegationPurse (validator : AccountHash) (delegator : URefAddr)
| BA_UnbondAccount (validator unbonder : AccountHash)
| BA_UnbondPurse (validator : AccountHash) (unbonder : URefAddr)
| BA_ValidatorRev (account_hash : AccountHash).
#[global] Instance BidAddr_eq_dec : EqDecision BidAddr.
Proof. solve_decision. Defined.
(** [self.tag() as u8] *)
Definition bid_tag (a : BidAddr) : u8 :=
  match a with
  | BA_Unified _ => Byte.x00
  | BA_Validator _ => Byte.x01
  | BA_DelegatedAccount _ _ => Byte.x02
  | BA_DelegatedPurse _ _ => Byte.x03
  | BA_Credit _ _ => Byte.x04
  | BA_ReservedDelegationAccount _ _ => Byte.x05
  | BA_ReservedDelegationPurse _ _ => Byte.x06
  | BA_UnbondAccount _ _ => Byte.x07
  | BA_UnbondPurse _ _ => Byte.x08
  | BA_ValidatorRev _ => Byte.x09
  end.
Definition validator_account_hash (a : BidAddr) : AccountHash :=
  match a with
  | BA_Unified account_hash | BA_Validator account_hash | BA_ValidatorRev account_hash => account_hash
  | BA_DelegatedAccount validator _ | BA_DelegatedPurse validator _ | BA_Credit validator _
  | BA_ReservedDelegationAccount validator _ | BA_ReservedDelegationPurse validator _
  | BA_UnbondAccount validator _ | BA_UnbondPurse validator _ => validator
  end.
Definition maybe_delegator_account_hash (a : BidAddr) : option AccountHash :=
  match a with
  | BA_DelegatedAccount _ delegator | BA_ReservedDelegationAccount _ delegator => Some delegator
  | BA_UnbondAccount _ unbonder => Some unbonder
  | _ => None
  end.
Definition maybe_delegator_purse (a : BidAddr) : option URefAddr :=
  match a with
  | BA_DelegatedPurse _ delegator | BA_ReservedDelegationPurse _ delegator => Some delegator
  | BA_UnbondPurse _ unbonder => Some unbonder
  | _ => None
  end.
Definition maybe_era_id (a : BidAddr) : option EraId :=
  match a with BA_Credit _ era_id => Some era_id | _ => None end.
Definition is_delegator_bid_addr (a : BidAddr) : bool :=
  match a with BA_DelegatedAccount _ _ | BA_DelegatedPurse _ _ => true | _ => false end.
Definition bid_length (a : BidAddr) : Z :=
  match a with
  | BA_Unified account_hash | BA_Validator account_hash | BA_ValidatorRev account_hash =>
      serialized_length account_hash + 1
  | BA_DelegatedAccount validator delegator | BA_ReservedDelegationAccount validator delegator
  | BA_UnbondAccount validator delegator
  | BA_DelegatedPurse validator delegator | BA_ReservedDelegationPurse validator delegator
  | BA_UnbondPurse validator delegator =>
      serialized_length validator + serialized_length delegator + 1
  | BA_Credit validator era_id => serialized_length validator + serialized_length era_id + 1
  end.
(** [if let Some(x) = o { buffer.append(&mut x.to_bytes()?); }] *)
Definition append_some {T} `{Bytesrepr T} (buffer : list u8) (o : option T) : result Error (list u8) :=
  match o with
  | Some x => b ← to_bytes x; Ok (buffer ++ b)
  | None => Ok buffer
  end.
Definition bid_to_bytes (a : BidAddr) : result Error (list u8) :=
  buffer ← allocate_buffer (bid_length a);
  let buffer := buffer ++ [bid_tag a] in
  b ← to_bytes (validator_account_hash a); let buffer := buffer ++ b in
  buffer ← append_some buffer (maybe_delegator_purse a);
  buffer ← append_some buffer (maybe_delegator_account_hash a);
  append_some buffer (maybe_era_id a).
(** Two hashes, as the variants with two addresses are read. *)
Definition read_two (mk : HashAddr -> HashAddr -> BidAddr) (remainder : list u8) : result Error (BidAddr * list u8) :=
  '(validator, remainder) ← from_bytes (T:=AccountHash) remainder;
  '(delegator, remainder) ← from_bytes (T:=HashAddr) remainder;
  Ok (mk validator delegator, remainder).
Definition bid_from_bytes (bytes : list u8) : result Error (BidAddr * list u8) :=
  '(tag, remainder) ← from_bytes (T:=u8) bytes;
  match tag with
  | Byte.x00 =>
      '(account_hash, remainder) ← from_bytes (T:=AccountHash) remainder; Ok (BA_Unified account_hash, remainder)
  | Byte.x01 =>
      '(account_hash, remainder) ← from_bytes (T:=AccountHash) remainder; Ok (BA_Validator account_hash, remainder)
  | Byte.x09 =>
      '(account_hash, remainder) ← from_bytes (T:=AccountHash) remainder; Ok (BA_ValidatorRev account_hash, remainder)
  | Byte.x02 => read_two BA_DelegatedAccount remainder
  | Byte.x03 => read_two BA_DelegatedPurse remainder
  | Byte.x04 =>
      '(validator, remainder) ← from_bytes (T:=AccountHash) remainder;
      '(era_id, remainder) ← from_bytes (T:=EraId) remainder;
      Ok (BA_Credit validator era_id, remainder)
  | Byte.x05 => read_two BA_ReservedDelegationAccount remainder
  | Byte.x06 => read_two BA_ReservedDelegationPurse remainder
  | Byte.x07 => read_two BA_UnbondAccount remainder
  | Byte.x08 => read_two BA_UnbondPurse remainder
  | _ => Err Formatting
  end.
#[global] Instance BidAddr_bytesrepr : Bytesrepr BidAddr := {|
  to_bytes := bid_to_bytes;
  write_bytes := default_write_bytes bid_to_bytes;
  serialized_length := bid_length;
  from_bytes := bid_from_bytes
|}.

(** ** [KeyTag] and [Key] *)

Inductive KeyTag : Type :=
| KT_Account | KT_Hash | KT_URef | KT_Transfer | KT_DeployInfo | KT_EraInfo | KT_Balance | KT_Bid
| KT_Withdraw | KT_Dictionary | KT_SystemEntityRegistry | KT_EraSummary | KT_Unbond | KT_ChainspecRegistry
| KT_ChecksumRegistry | KT_BidAddr | KT_Package | KT_AddressableEntity | KT_ByteCode | KT_Message
| KT_NamedKey | KT_BlockGlobal | KT_BalanceHold | KT_EntryPoint | KT_State | KT_RewardsHandling.
#[global] Instance KeyTag_eq_dec : EqDecision KeyTag.
Proof. solve_decision. Defined.
Definition KeyTag_to_u8 (t : KeyTag) : u8 :=
  match t with
  | KT_Account => Byte.x00
  | KT_Hash => Byte.x01
  | KT_URef => Byte.x02
  | KT_Transfer => Byte.x03
  | KT_DeployInfo => Byte.x04
  | KT_EraInfo => Byte.x05
  | KT_Balance => Byte.x06
  | KT_Bid => Byte.x07
  | KT_Withdraw => Byte.x08
  | KT_Dictionary => Byte.x09
  | KT_SystemEntityRegistry => Byte.x0a
  | KT_EraSummary => Byte.x0b
  | KT_Unbond => Byte.x0c
  | KT_ChainspecRegistry => Byte.x0d
  | KT_ChecksumRegistry => Byte.x0e
  | KT_BidAddr => Byte.x0f
  | KT_Package => Byte.x10
  | KT_AddressableEntity => Byte.x11
  | KT_ByteCode => Byte.x12
  | KT_Message => Byte.x13
  | KT_NamedKey => Byte.x14
  | KT_BlockGlobal => Byte.x15
  | KT_BalanceHold => Byte.x16
  | KT_EntryPoint => Byte.x17
  | KT_State => Byte.x18
  | KT_RewardsHandling => Byte.x19
  end.
Definition KeyTag_from_bytes (bytes : list u8) : result Error (KeyTag * list u8) :=
  '(id, rem) ← from_bytes (T:=u8) bytes;
  match id with
  | Byte.x00 => Ok (KT_Account, rem)
  | Byte.x01 => Ok (KT_Hash, rem)
  | Byte.x02 => Ok (KT_URef, rem)
  | Byte.x03 => Ok (KT_Transfer, rem)
  | Byte.x04 => Ok (KT_DeployInfo, rem)
  | Byte.x05 => Ok (KT_EraInfo, rem)
  | Byte.x06 => Ok (KT_Balance, rem)
  | Byte.x07 => Ok (KT_Bid, rem)
  | Byte.x08 => Ok (KT_Withdraw, rem)
  | Byte.x09 => Ok (KT_Dictionary, rem)
  | Byte.x0a => Ok (KT_SystemEntityRegistry, rem)
  | Byte.x0b => Ok (KT_EraSummary, rem)
  | Byte.x0c => Ok (KT_Unbond, rem)
  | Byte.x0d => Ok (KT_ChainspecRegistry, rem)
  | Byte.x0e => Ok (KT_ChecksumRegistry, rem)
  | Byte.x0f => Ok (KT_BidAddr, rem)
  | Byte.x10 => Ok (KT_Package, rem)
  | Byte.x11 => Ok (KT_AddressableEntity, rem)
  | Byte.x12 => Ok (KT_ByteCode, rem)
  | Byte.x13 => Ok (KT_Message, rem)
  | Byte.x14 => Ok (KT_NamedKey, rem)
  | Byte.x15 => Ok (KT_BlockGlobal, rem)
  | Byte.x16 => Ok (KT_BalanceHold, rem)
  | Byte.x17 => Ok (KT_EntryPoint, rem)
  | Byte.x18 => Ok (KT_State, rem)
  | Byte.x19 => Ok (KT_RewardsHandling, rem)
  | _ => Err Formatting
  end.
#[global] Instance KeyTag_bytesrepr : Bytesrepr KeyTag := {|
  to_bytes t := Ok [KeyTag_to_u8 t];
  write_bytes t writer := Ok (writer ++ [KeyTag_to_u8 t]);
  serialized_length _ := 1;
  from_bytes := KeyTag_from_bytes
|}.

Inductive Key : Type :=
| Key_Account (account_hash : AccountHash)
| Key_Hash (hash : HashAddr)
| Key_URef (uref : URef)
| Key_Transfer (addr : TransferAddr)
| Key_DeployInfo (deploy_hash : DeployHash)
| Key_EraInfo (era_id : EraId)
| Key_Balance (uref_addr : URefAddr)
| Key_Bid (account_hash : AccountHash)
| Key_Withdraw (account_hash : AccountHash)
| Key_Dictionary (addr : DictionaryAddr)
| Key_SystemEntityRegistry
| Key_EraSummary
| Key_Unbond (account_hash : AccountHash)
| Key_ChainspecRegistry
| Key_ChecksumRegistry
| Key_BidAddr (bid_addr : BidAddr)
| Key_SmartContract (package_addr : PackageAddr)
| Key_AddressableEntity (entity_addr : EntityAddr)
| Key_ByteCode (byte_code_addr : ByteCodeAddr)
| Key_Message (message_addr : MessageAddr)
| Key_NamedKey (named_key_addr : NamedKeyAddr)
| Key_BlockGlobal (addr : BlockGlobalAddr)
| Key_BalanceHold (balance_hold_addr : BalanceHoldAddr)
| Key_EntryPoint (entry_point_addr : EntryPointAddr)
| Key_State (entity_addr : EntityAddr)
| Key_RewardsHandling.
#[global] Instance Key_size : SizeOf Key := false.
#[global] Instance Key_eq_dec : EqDecision Key.
Proof. solve_decision. Defined.
(** [Tagged<KeyTag>] *)
Definition key_tag (k : Key) : KeyTag :=
  match k with
  | Key_Account _ => KT_Account
  | Key_Hash _ => KT_Hash
  | Key_URef _ => KT_URef
  | Key_Transfer _ => KT_Transfer
  | Key_DeployInfo _ => KT_DeployInfo
  | Key_EraInfo _ => KT_EraInfo
  | Key_Balance _ => KT_Balance
  | Key_Bid _ => KT_Bid
  | Key_Withdraw _ => KT_Withdraw
  | Key_Dictionary _ => KT_Dictionary
  | Key_SystemEntityRegistry => KT_SystemEntityRegistry
  | Key_EraSummary => KT_EraSummary
  | Key_Unbond _ => KT_Unbond
  | Key_ChainspecRegistry => KT_ChainspecRegistry
  | Key_ChecksumRegistry => KT_ChecksumRegistry
  | Key_BidAddr _ => KT_BidAddr
  | Key_SmartContract _ => KT_Package
  | Key_AddressableEntity _ => KT_AddressableEntity
  | Key_ByteCode _ => KT_ByteCode
  | Key_Message _ => KT_Message
  | Key_NamedKey _ => KT_NamedKey
  | Key_BlockGlobal _ => KT_BlockGlobal
  | Key_BalanceHold _ => KT_BalanceHold
  | Key_EntryPoint _ => KT_EntryPoint
  | Key_State _ => KT_State
  | Key_RewardsHandling => KT_RewardsHandling
  end.

Definition PADDING_BYTES : vec u8 32 := vreplicate 32 Byte.x00.
Definition BLOCK_GLOBAL_PADDING_BYTES : vec u8 31 := vreplicate 31 Byte.x00.
Definition MAX_SERIALIZED_LENGTH : Z := 1 + 1 + 32 + 32 + 1 + 4.
Definition key_length (k : Key) : Z :=
  match k with
  | Key_Account account_hash => 1 + serialized_length account_hash
  | Key_Hash _ => 1 + 32
  | Key_URef _ => 1 + (32 + 1)
  | Key_Transfer _ => 1 + 32
  | Key_DeployInfo _ => 1 + 32
  | Key_EraInfo _ => 1 + 8
  | Key_Balance _ => 1 + 32
  | Key_Bid _ => 1 + 32
  | Key_Withdraw _ => 1 + 32
  | Key_Dictionary _ => 1 + 32
  | Key_SystemEntityRegistry => 1 + 32
  | Key_EraSummary => 1 + 32
  | Key_Unbond _ => 1 + 32
  | Key_ChainspecRegistry => 1 + 32
  | Key_ChecksumRegistry => 1 + 32
  | Key_BidAddr bid_addr => 1 + serialized_length bid_addr
  | Key_SmartContract _ => 1 + 32
  | Key_AddressableEntity entity_addr => 1 + serialized_length entity_addr
  | Key_ByteCode byte_code_addr => 1 + serialized_length byte_code_addr
  | Key_Message message_addr => 1 + serialized_length message_addr
  | Key_NamedKey named_key_addr => 1 + serialized_length named_key_addr
  | Key_BlockGlobal addr => 1 + serialized_length addr + 31
  | Key_BalanceHold balance_hold_addr => 1 + serialized_length balance_hold_addr
  | Key_EntryPoint entry_point_addr => 1 + serialized_length entry_point_addr
  | Key_State entity_addr => 1 + serialized_length entity_addr
  | Key_RewardsHandling => 1 + 32
  end.
Definition key_write_bytes (k : Key) (writer : list u8) : result Error (list u8) :=
  let writer := writer ++ [KeyTag_to_u8 (key_tag k)] in
  match k with
  | Key_Account account_hash => write_bytes account_hash writer
  | Key_Hash hash => write_bytes hash writer
  | Key_URef uref => write_bytes uref writer
  | Key_Transfer addr => write_bytes addr writer
  | Key_DeployInfo deploy_hash => write_bytes deploy_hash writer
  | Key_EraInfo era_id => write_bytes era_id writer
  | Key_Balance uref_addr => write_bytes uref_addr writer
  | Key_Bid account_hash => write_bytes account_hash writer
  | Key_Withdraw account_hash => write_bytes account_hash writer
  | Key_Dictionary addr => write_bytes addr writer
  | Key_Unbond account_hash => write_bytes account_hash writer
  | Key_BidAddr bid_addr => write_bytes bid_addr writer
  | Key_SmartContract package_addr => write_bytes package_addr writer
  | Key_AddressableEntity entity_addr => write_bytes entity_addr writer
  | Key_ByteCode byte_code_addr => write_bytes byte_code_addr writer
  | Key_Message message_addr => write_bytes message_addr writer
  | Key_NamedKey named_key_addr => write_bytes named_key_addr writer
  | Key_BlockGlobal addr => writer ← write_bytes addr writer; write_bytes BLOCK_GLOBAL_PADDING_BYTES writer
  | Key_BalanceHold balance_hold_addr => write_bytes balance_hold_addr writer
  | Key_EntryPoint entry_point_addr => write_bytes entry_point_addr writer
  | Key_State entity_addr => write_bytes entity_addr writer
  | Key_SystemEntityRegistry | Key_EraSummary | Key_ChainspecRegistry | Key_ChecksumRegistry | Key_RewardsHandling =>
      write_bytes PADDING_BYTES writer
  end.
Definition key_from_bytes (bytes : list u8) : result Error (Key * list u8) :=
  '(tag, remainder) ← from_bytes (T:=KeyTag) bytes;
  match tag with
  | KT_Account => '(account_hash, rem) ← from_bytes (T:=AccountHash) remainder; Ok (Key_Account account_hash, rem)
  | KT_Hash => '(hash, rem) ← from_bytes (T:=HashAddr) remainder; Ok (Key_Hash hash, rem)
  | KT_URef => '(uref, rem) ← from_bytes (T:=URef) remainder; Ok (Key_URef uref, rem)
  | KT_Transfer => '(addr, rem) ← from_bytes (T:=TransferAddr) remainder; Ok (Key_Transfer addr, rem)
  | KT_DeployInfo => '(deploy_hash, rem) ← from_bytes (T:=DeployHash) remainder; Ok (Key_DeployInfo deploy_hash, rem)
  | KT_EraInfo => '(era_id, rem) ← from_bytes (T:=EraId) remainder; Ok (Key_EraInfo era_id, rem)
  | KT_Balance => '(uref_addr, rem) ← from_bytes (T:=URefAddr) remainder; Ok (Key_Balance uref_addr, rem)
  | KT_Bid => '(account_hash, rem) ← from_bytes (T:=AccountHash) remainder; Ok (Key_Bid account_hash, rem)
  | KT_Withdraw => '(account_hash, rem) ← from_bytes (T:=AccountHash) remainder; Ok (Key_Withdraw account_hash, rem)
  | KT_Dictionary => '(addr, rem) ← from_bytes (T:=DictionaryAddr) remainder; Ok (Key_Dictionary addr, rem)
  | KT_SystemEntityRegistry => '(_, rem) ← from_bytes (T:=vec u8 32) remainder; Ok (Key_SystemEntityRegistry, rem)
  | KT_EraSummary => '(_, rem) ← from_bytes (T:=vec u8 32) remainder; Ok (Key_EraSummary, rem)
  | KT_Unbond => '(account_hash, rem) ← from_bytes (T:=AccountHash) remainder; Ok (Key_Unbond account_hash, rem)
  | KT_ChainspecRegistry => '(_, rem) ← from_bytes (T:=vec u8 32) remainder; Ok (Key_ChainspecRegistry, rem)
  | KT_ChecksumRegistry => '(_, rem) ← from_bytes (T:=vec u8 32) remainder; Ok (Key_ChecksumRegistry, rem)
  | KT_BidAddr => '(bid_addr, rem) ← from_bytes (T:=BidAddr) remainder; Ok (Key_BidAddr bid_addr, rem)
  | KT_Package => '(package_addr, rem) ← from_bytes (T:=PackageAddr) remainder; Ok (Key_SmartContract package_addr, rem)
  | KT_AddressableEntity => '(entity_addr, rem) ← from_bytes (T:=EntityAddr) remainder; Ok (Key_AddressableEntity entity_addr, rem)
  | KT_ByteCode => '(byte_code_addr, rem) ← from_bytes (T:=ByteCodeAddr) remainder; Ok (Key_ByteCode byte_code_addr, rem)
  | KT_Message => '(message_addr, rem) ← from_bytes (T:=MessageAddr) remainder; Ok (Key_Message message_addr, rem)
  | KT_NamedKey => '(named_key_addr, rem) ← from_bytes (T:=NamedKeyAddr) remainder; Ok (Key_NamedKey named_key_addr, rem)
  | KT_BlockGlobal =>
      '(addr, rem) ← from_bytes (T:=BlockGlobalAddr) remainder;
      '(_, rem) ← from_bytes (T:=vec u8 31) rem;
      Ok (Key_BlockGlobal addr, rem)
  | KT_BalanceHold => '(balance_hold_addr, rem) ← from_bytes (T:=BalanceHoldAddr) remainder; Ok (Key_BalanceHold balance_hold_addr, rem)
  | KT_EntryPoint => '(entry_point_addr, rem) ← from_bytes (T:=EntryPointAddr) remainder; Ok (Key_EntryPoint entry_point_addr, rem)
  | KT_State => '(entity_addr, rem) ← from_bytes (T:=EntityAddr) remainder; Ok (Key_State entity_addr, rem)
  | KT_RewardsHandling => '(_, rem) ← from_bytes (T:=vec u8 32) remainder; Ok (Key_RewardsHandling, rem)
  end.
#[global] Instance Key_bytesrepr : Bytesrepr Key := {|
  to_bytes k := key_write_bytes k [];
  write_bytes := key_write_bytes;
  serialized_length := key_length;
  from_bytes := key_from_bytes
|}.

(** ** Operations on keys *)

Definition max_serialized_length : Z := MAX_SERIALIZED_LENGTH.
Definition normalize (k : Key) : Key :=
  match k with Key_URef uref => Key_URef (remove_access_rights uref) | other => other end.
Definition into_account (k : Key) : option AccountHash := match k with Key_Account bytes => Some bytes | _ => None end.
Definition into_hash_addr (k : Key) : option HashAddr := match k with Key_Hash hash => Some hash | _ => None end.
Definition into_entity_hash_addr (k : Key) : option HashAddr :=
  match k with
  | Key_AddressableEntity entity_addr => Some (entity_value entity_addr)
  | Key_Account account_hash => Some account_hash
  | Key_Hash hash => Some hash
  | _ => None
  end.
Definition into_package_addr (k : Key) : option PackageAddr :=
  match k with Key_Hash hash => Some hash | Key_SmartContract package_addr => Some package_addr | _ => None end.
Definition into_named_key_addr (k : Key) : option NamedKeyAddr := match k with Key_NamedKey addr => Some addr | _ => None end.
Definition into_uref (k : Key) : option URef := match k with Key_URef uref => Some uref | _ => None end.
Definition as_balance (k : Key) : option URefAddr := match k with Key_Balance v => Some v | _ => None end.
Definition as_balance_hold (k : Key) : option BalanceHoldAddr := match k with Key_BalanceHold addr => Some addr | _ => None end.
Definition as_dictionary (k : Key) : option DictionaryAddr := match k with Key_Dictionary v => Some v | _ => None end.
Definition as_bid_addr (k : Key) : option BidAddr := match k with Key_BidAddr addr => Some addr | _ => None end.
Definition as_message_topic_name_hash (k : Key) : option TopicNameHash :=
  match k with Key_Message addr => Some (topic_name_hash addr) | _ => None end.
Definition uref_to_hash (k : Key) : option Key := uref ← into_uref k; Some (Key_Hash (addr uref)).
Definition withdraw_to_unbond (k : Key) : option Key :=
  match k with Key_Withdraw account_hash => Some (Key_Unbond account_hash) | _ => None end.
Definition into_entity_addr (k : Key) : option EntityAddr :=
  match k with Key_AddressableEntity entity_addr => Some entity_addr | _ => None end.
Definition addressable_entity_key (t : EntityKindTag) (entity_hash : HashAddr) : Key :=
  Key_AddressableEntity
    match t with
    | EK_System => EA_System entity_hash
    | EK_Account => EA_Account entity_hash
    | EK_SmartContract => EA_SmartContract entity_hash
    end.
Definition key_message (entity_addr : EntityAddr) (topic : TopicNameHash) (index : Z) : Key :=
  Key_Message (new_message_addr entity_addr topic index).
Definition key_message_topic (entity_addr : EntityAddr) (topic : TopicNameHash) : Key :=
  Key_Message (new_topic_addr entity_addr topic).
Definition is_dictionary_key (k : Key) : bool := match k with Key_Dictionary _ => true | _ => false end.
Definition is_balance_key (k : Key) : bool := match k with Key_Balance _ => true | _ => false end.
Definition is_bid_addr_key (k : Key) : bool := match k with Key_BidAddr _ => true | _ => false end.
Definition is_named_key (k : Key) : bool := match k with Key_NamedKey _ => true | _ => false end.
Definition is_system_entity_key (k : Key) : bool :=
  match k with
  | Key_AddressableEntity entity_addr =>
      match entity_tag entity_addr with EK_System => true | EK_SmartContract | EK_Account => false end
  | _ => false
  end.
Definition is_smart_contract_key (k : Key) : bool :=
  match k with Key_AddressableEntity (EA_SmartContract _) | Key_Hash _ => true | _ => false end.
Definition is_entry_for_base (k : Key) (entity_addr : EntityAddr) : bool :=
  match k with Key_NamedKey a => bool_decide (base_addr a = entity_addr) | _ => false end.

(** The prefixes under which the records of one validator are found. *)
Definition bid_prefix (tag : u8) (a : BidAddr) : result Error (list u8) :=
  write_bytes (validator_account_hash a) [KeyTag_to_u8 KT_BidAddr; tag].
Definition delegated_account_prefix : BidAddr -> result Error (list u8) := bid_prefix Byte.x02.
Definition delegated_purse_prefix : BidAddr -> result Error (list u8) := bid_prefix Byte.x03.
Definition reserved_account_prefix : BidAddr -> result Error (list u8) := bid_prefix Byte.x05.
Definition reserved_purse_prefix : BidAddr -> result Error (list u8) := bid_prefix Byte.x06.

Section hashing.
Context (blake2b : list u8 -> Digest) {C : Curves}.

Definition key_dictionary (seed_uref : URef) (dictionary_item_key : list u8) : Key :=
  Key_Dictionary (blake2b (vec_to_list (addr seed_uref) ++ dictionary_item_key)).
Definition named_key_from_string (entity_addr : EntityAddr) (entry : RString) : result Error NamedKeyAddr :=
  bytes ← to_bytes entry; Ok (mkNamedKeyAddr entity_addr (blake2b bytes)).
Definition new_v1_entry_point_addr (entity_addr : EntityAddr) (name : RString) : result Error EntryPointAddr :=
  bytes ← to_bytes name; Ok (VmCasperV1 entity_addr (blake2b bytes)).

(** ** Who may access the record under a key *)

Definition entity_is_system (a : EntityAddr) : bool :=
  bool_decide (entity_tag a = EK_System) ||
  bool_decide (entity_value a = from_public_key (A_System _ _) blake2b).

Definition key_is_readable (k : Key) (entity_addr : EntityAddr) : bool :=
  if entity_is_system entity_addr then true else
  match k with
  | Key_BidAddr _ => true
  | Key_URef uref => is_readable (access_rights uref)
  | Key_SystemEntityRegistry | Key_SmartContract _ => true
  | Key_Unbond account_hash =>
      bool_decide (entity_tag entity_addr = EK_Account) && bool_decide (entity_value entity_addr = account_hash)
  | Key_NamedKey named_key_addr => bool_decide (base_addr named_key_addr = entity_addr)
  | Key_ByteCode _ | Key_Account _ | Key_Hash _ | Key_AddressableEntity _ | Key_Balance _ | Key_BalanceHold _
  | Key_Dictionary _ | Key_Message _ | Key_BlockGlobal _ | Key_EntryPoint _ => true
  | _ => false
  end.
Definition key_is_addable (k : Key) (entity_addr : EntityAddr) : bool :=
  match k with
  | Key_URef uref => is_addable (access_rights uref)
  | Key_AddressableEntity addr_entity_addr => bool_decide (entity_addr = addr_entity_addr)
  | Key_NamedKey named_key_addr => bool_decide (base_addr named_key_addr = entity_addr)
  | _ => false
  end.
Definition key_is_writeable (k : Key) (entity_addr : EntityAddr) : bool :=
  if entity_is_system entity_addr then true else
  match k with
  | Key_URef uref => is_writeable (access_rights uref)
  | Key_NamedKey named_key_addr => bool_decide (base_addr named_key_addr = entity_addr)
  | _ => false
  end.
End hashing.

(** ** Laws of the serialization *)

#[global] Instance u8_bounded : Bounded u8.
Proof. by intros []. Qed.
#[global] Instance URef_bounded : Bounded URef.
Proof. by intros []. Qed.

Lemma u8_read b r : from_bytes (b :: r) = Ok (b, r).
Proof. done. Qed.

#[global] Instance EntityKindTag_spec : BytesreprSpec EntityKindTag EntityKindTag_bytesrepr.
Proof.
  apply (small_spec _ (fun _ => True)).
  - intros t _. exists [EntityKindTag_to_u8 t]. destruct t; by split_and!.
  - intros [|[] bs]; done.
  - intros [|b bs] t r H; [done|]. split; [done|]. exists [b].
    cbn in H. destruct b; cbn in H; inv_ok; done.
Defined.
#[global] Instance EntityKindTag_bounded : Bounded EntityKindTag.
Proof. by intros []. Qed.

#[global] Instance EntityAddr_bounded : Bounded EntityAddr.
Proof. by intros []. Qed.
#[global] Instance EntityAddr_spec : BytesreprSpec EntityAddr EntityAddr_bytesrepr.
Proof.
  apply (small_spec _ (fun _ => True)).
  - intros a _. exists (EntityKindTag_to_u8 (entity_tag a) :: vec_to_list (entity_value a)). split; [|split_and!].
    + by destruct a.
    + intros w. destruct a; cbn; by rewrite <- app_assoc.
    + cbn [length]. rewrite length_vec_to_list. done.
    + intros r. cbn [from_bytes EntityAddr_bytesrepr]. unfold entity_from_bytes.
      destruct a; cbn [from_bytes EntityKindTag_bytesrepr]; cbn [app entity_tag entity_value EntityKindTag_to_u8];
        rewrite u8_read; cbn [mbind result_bind EntityKindTag_try_from]; rewrite array_read; done.
  - intros bs. cbn [from_bytes EntityAddr_bytesrepr]. unfold entity_from_bytes. parse_no_panic.
  - intros bs a r H. cbn [from_bytes EntityAddr_bytesrepr] in H. unfold entity_from_bytes in H. parse_inv.
    split; [done|]. eexists. by rewrite app_assoc.
Defined.

(** An impl with the provided [write_bytes]. *)
Lemma default_write_serializes {T} (D : Bytesrepr T) (t : T) p :
  (forall w, write_bytes t w = default_write_bytes to_bytes t w) -> to_bytes t = Ok p ->
  Z.of_nat (length p) = serialized_length t -> (forall r, from_bytes (p ++ r) = Ok (t, r)) ->
  exists p, to_bytes t = Ok p /\ serializes D t p.
Proof.
  intros Hd Hp Hl Hr. exists p. split; [done|]. split_and!; [|done|done].
  intros w. rewrite Hd. unfold default_write_bytes. by rewrite Hp.
Qed.

#[global] Instance NamedKeyAddr_spec : BytesreprSpec NamedKeyAddr NamedKeyAddr_bytesrepr.
Proof.
  apply (small_spec _ (fun _ => True)).
  - intros [a s] _. destruct (bounded_serializes (ST := EntityAddr_spec) a I) as (p & Ht & Hw & Hl & Hr).
    apply (default_write_serializes _ _ (p ++ vec_to_list s)); [done|..].
    + cbn [to_bytes NamedKeyAddr_bytesrepr]. unfold named_key_to_bytes.
      rewrite allocate_small by (by cbn). cbn [mbind result_bind base_addr]. by rewrite Ht.
    + rewrite length_app, length_vec_to_list, Nat2Z.inj_add, Hl. done.
    + intros r. cbn [from_bytes NamedKeyAddr_bytesrepr]. rewrite <- app_assoc, Hr.
      cbn [mbind result_bind]. by rewrite array_read.
  - intros bs. cbn [from_bytes NamedKeyAddr_bytesrepr]. parse_no_panic.
  - intros bs a r H. cbn [from_bytes NamedKeyAddr_bytesrepr] in H. parse_inv.
    split; [done|]. eexists. by rewrite app_assoc.
Defined.
#[global] Instance NamedKeyAddr_bounded : Bounded NamedKeyAddr.
Proof. by intros []. Qed.

#[global] Instance EntryPointAddr_spec : BytesreprSpec EntryPointAddr EntryPointAddr_bytesrepr.
Proof.
  apply (small_spec _ (fun _ => True)).
  - intros [a s] _. destruct (bounded_serializes (ST := EntityAddr_spec) a I) as (p & Ht & Hw & Hl & Hr).
    apply (default_write_serializes _ _ (V1_ENTRY_POINT_TAG :: p ++ vec_to_list s)); [done|..].
    + cbn [to_bytes EntryPointAddr_bytesrepr]. unfold entry_point_to_bytes.
      rewrite allocate_small by (by cbn). cbn [mbind result_bind base_addr]. by rewrite Ht.
    + cbn [length]. rewrite length_app, length_vec_to_list, Nat2Z.inj_succ, Nat2Z.inj_add, Hl. done.
    + intros r. cbn [from_bytes EntryPointAddr_bytesrepr]. unfold entry_point_from_bytes. cbn [app].
      rewrite u8_read. cbn [mbind result_bind]. rewrite decide_True by done. rewrite <- app_assoc, Hr.
      cbn [mbind result_bind]. by rewrite array_read.
  - intros bs. cbn [from_bytes EntryPointAddr_bytesrepr]. unfold entry_point_from_bytes. parse_no_panic.
    case_decide; parse_no_panic.
  - intros bs a r H. cbn [from_bytes EntryPointAddr_bytesrepr] in H. unfold entry_point_from_bytes in H. inv_ok.
    case_decide; [|done]. parse_inv. split; [done|]. eexists. by rewrite !app_assoc.
Defined.
#[global] Instance EntryPointAddr_bounded : Bounded EntryPointAddr.
Proof. by intros []. Qed.

#[global] Instance ByteCodeKind_spec : BytesreprSpec ByteCodeKind ByteCodeKind_bytesrepr.
Proof.
  apply (small_spec _ (fun _ => True)).
  - intros t _. exists [ByteCodeKind_to_u8 t]. destruct t; by split_and!.
  - intros [|[] bs]; done.
  - intros [|b bs] t r H; [done|]. split; [done|]. exists [b].
    cbn in H. destruct b; cbn in H; inv_ok; done.
Defined.

#[global] Instance ByteCodeAddr_spec : BytesreprSpec ByteCodeAddr ByteCodeAddr_bytesrepr.
Proof.
  apply (small_spec _ (fun _ => True)).
  - intros a _. exists (ByteCodeKind_to_u8 (byte_code_tag a) ::
      match a with BCA_Empty => [] | BCA_V1CasperWasm h | BCA_V2CasperWasm h => vec_to_list h end). split; [|split_and!].
    + by destruct a.
    + intros w. destruct a; cbn; by rewrite <- ?app_assoc.
    + destruct a; cbn [length]; rewrite ?length_vec_to_list; done.
    + intros r. cbn [from_bytes ByteCodeAddr_bytesrepr]. unfold byte_code_from_bytes.
      destruct a; cbn [from_bytes ByteCodeKind_bytesrepr]; cbn [app byte_code_tag ByteCodeKind_to_u8];
        rewrite u8_read; cbn [mbind result_bind]; rewrite ?array_read; done.
  - intros bs. cbn [from_bytes ByteCodeAddr_bytesrepr]. unfold byte_code_from_bytes. parse_no_panic.
    destruct b; parse_no_panic.
  - intros bs a r H. cbn [from_bytes ByteCodeAddr_bytesrepr] in H. unfold byte_code_from_bytes in H. inv_ok.
    split; [done|]. destruct b; parse_inv; eexists; by rewrite ?app_assoc.
Defined.
#[global] Instance ByteCodeAddr_bounded : Bounded ByteCodeAddr.
Proof. by intros []. Qed.

#[local] Instance message_index_spec : BytesreprSpec (option Z) message_index_bytesrepr :=
  option_spec (S := uint_spec 4).
#[local] Instance message_index_bounded : @Bounded (option Z) message_index_bytesrepr.
Proof. by intros []. Qed.
Definition message_ok (a : MessageAddr) : Prop := representable (BytesreprSpec := message_index_spec) (message_index a).

#[global] Instance MessageAddr_spec : BytesreprSpec MessageAddr MessageAddr_bytesrepr.
Proof.
  apply (small_spec _ message_ok).
  - intros [a h i] Hi. unfold message_ok in Hi. cbn [message_index] in Hi.
    destruct (bounded_serializes (ST := EntityAddr_spec) a I) as (p & Ht & Hw & Hl & Hr).
    destruct (bounded_serializes (ST := message_index_spec) i Hi) as (q & Ht' & Hw' & Hl' & Hr').
    apply (default_write_serializes _ _ ((p ++ vec_to_list h) ++ q)); [done|..].
    + cbn [to_bytes MessageAddr_bytesrepr]. unfold message_to_bytes.
      rewrite allocate_small by (by destruct i). cbn [mbind result_bind message_entity_addr message_index topic_name_hash].
      rewrite Ht. cbn [mbind result_bind to_bytes array_bytesrepr]. by rewrite Ht'.
    + rewrite !length_app, length_vec_to_list, !Nat2Z.inj_add, Hl, Hl'. done.
    + intros r. cbn [from_bytes MessageAddr_bytesrepr]. unfold message_from_bytes. rewrite <- !app_assoc, Hr.
      cbn [mbind result_bind]. rewrite array_read. cbn [mbind result_bind]. by rewrite Hr'.
  - intros bs. cbn [from_bytes MessageAddr_bytesrepr]. unfold message_from_bytes. parse_no_panic.
  - intros bs a r H. cbn [from_bytes MessageAddr_bytesrepr] in H. unfold message_from_bytes in H. parse_inv.
    split; [done|]. eexists. by rewrite !app_assoc.
Defined.
#[global] Instance MessageAddr_bounded : Bounded MessageAddr.
Proof. intros [? ? i]. by destruct i. Qed.

#[global] Instance BlockGlobalAddr_spec : BytesreprSpec BlockGlobalAddr BlockGlobalAddr_bytesrepr.
Proof.
  apply (small_spec _ (fun _ => True)).
  - intros t _. by apply (default_write_serializes _ _ [block_global_tag t]); destruct t.
  - intros [|[] bs]; done.
  - intros [|b bs] t r H; [done|]. split; [done|]. exists [b].
    cbn in H. destruct b; cbn in H; inv_ok; done.
Defined.
#[global] Instance BlockGlobalAddr_bounded : Bounded BlockGlobalAddr.
Proof. by intros []. Qed.

Definition hold_ok (a : BalanceHoldAddr) : Prop := representable (hold_block_time a).
#[global] Instance BalanceHoldAddr_spec : BytesreprSpec BalanceHoldAddr BalanceHoldAddr_bytesrepr.
Proof.
  apply (small_spec _ hold_ok).
  - intros a Ha. destruct (bounded_serializes (hold_block_time a) Ha) as (p & Ht & Hw & Hl & Hr).
    apply (default_write_serializes _ _ (([hold_tag a] ++ vec_to_list (hold_purse_addr a)) ++ p)); [done|..].
    + cbn [to_bytes BalanceHoldAddr_bytesrepr]. unfold hold_to_bytes.
      rewrite allocate_small by (by destruct a). cbn [mbind result_bind app].
      destruct a; cbn [to_bytes array_bytesrepr mbind result_bind hold_block_time] in *; by rewrite Ht.
    + rewrite !length_app, length_vec_to_list, !Nat2Z.inj_add, Hl. by destruct a.
    + intros r. cbn [from_bytes BalanceHoldAddr_bytesrepr]. unfold hold_from_bytes.
      destruct a; cbn [hold_tag app hold_purse_addr hold_block_time] in *; rewrite u8_read;
        cbn [mbind result_bind]; rewrite <- app_assoc, array_read; cbn [mbind result_bind]; by rewrite Hr.
  - intros bs. cbn [from_bytes BalanceHoldAddr_bytesrepr]. unfold hold_from_bytes. parse_no_panic.
    destruct b; parse_no_panic.
  - intros bs a r H. cbn [from_bytes BalanceHoldAddr_bytesrepr] in H. unfold hold_from_bytes in H. inv_ok.
    destruct b; parse_inv; (split; [done|]); eexists; by rewrite !app_assoc.
Defined.
#[global] Instance BalanceHoldAddr_bounded : Bounded BalanceHoldAddr.
Proof. by intros []. Qed.

Definition bid_ok (a : BidAddr) : Prop := from_option representable True (maybe_era_id a).
(** What follows the validator in the serialization of a bid address. *)
Definition bid_rest (a : BidAddr) : list u8 :=
  match maybe_delegator_purse a, maybe_delegator_account_hash a, maybe_era_id a with
  | Some h, _, _ | _, Some h, _ => vec_to_list h
  | _, _, Some e => le_encode 8 (era_value e)
  | _, _, _ => []
  end.
Lemma bid_to_bytes_eq a : bid_to_bytes a = Ok (([bid_tag a] ++ vec_to_list (validator_account_hash a)) ++ bid_rest a).
Proof.
  unfold bid_to_bytes. rewrite allocate_small by (by destruct a). destruct a; cbn; by rewrite ?app_nil_r.
Qed.
Lemma era_read e r : representable e -> from_bytes (le_encode 8 (era_value e) ++ r) = Ok (e, r).
Proof. intros He. by apply (spec_roundtrip (BytesreprSpec := EraId_spec)). Qed.

#[global] Instance BidAddr_spec : BytesreprSpec BidAddr BidAddr_bytesrepr.
Proof.
  apply (small_spec _ bid_ok).
  - intros a Ha. eapply default_write_serializes; [done|apply bid_to_bytes_eq|..].
    + rewrite !length_app, length_vec_to_list. destruct a; cbn [bid_rest maybe_delegator_purse
        maybe_delegator_account_hash maybe_era_id]; rewrite ?length_vec_to_list, ?length_le_encode; done.
    + intros r. cbn [from_bytes BidAddr_bytesrepr]. unfold bid_from_bytes, read_two. rewrite <- !app_assoc. cbn [app].
      rewrite u8_read. destruct a; cbn [bid_tag mbind result_bind validator_account_hash bid_rest maybe_delegator_purse
        maybe_delegator_account_hash maybe_era_id]; rewrite array_read; cbn [mbind result_bind app]; try done;
        rewrite ?array_read; try done. rewrite era_read; done.
  - intros bs. cbn [from_bytes BidAddr_bytesrepr]. unfold bid_from_bytes, read_two. parse_no_panic.
    destruct b; parse_no_panic.
  - intros bs a r H. cbn [from_bytes BidAddr_bytesrepr] in H. unfold bid_from_bytes, read_two in H. inv_ok.
    destruct b; parse_inv; (split; [done|]); eexists; by rewrite !app_assoc.
Defined.
#[global] Instance BidAddr_bounded : Bounded BidAddr.
Proof. by intros []. Qed.

Definition key_ok (k : Key) : Prop :=
  match k with
  | Key_URef uref => representable uref
  | Key_EraInfo era_id => representable era_id
  | Key_BidAddr bid_addr => representable bid_addr
  | Key_Message message_addr => representable message_addr
  | Key_BalanceHold balance_hold_addr => representable balance_hold_addr
  | _ => True
  end.

Lemma KeyTag_read t r : from_bytes (KeyTag_to_u8 t :: r) = Ok (t, r).
Proof. by destruct t. Qed.

Ltac payload_bytes x :=
  let H := fresh in
  unshelve epose proof (bounded_serializes x _) as H; [first [exact I | assumption]|];
  destruct H as (p & _ & Hw & Hl & Hr).

Lemma key_serializes k :
  key_ok k -> exists p, (forall w, key_write_bytes k w = Ok (w ++ KeyTag_to_u8 (key_tag k) :: p)) /\
    1 + Z.of_nat (length p) = key_length k /\
    forall r, key_from_bytes (KeyTag_to_u8 (key_tag k) :: p ++ r) = Ok (k, r).
Proof.
  intros Hk. unfold key_from_bytes. destruct k as [x|x|x|x|x|x|x|x|x|x| | |x| | |x|x|x|x|x|x|x|x|x|x| ]; cbn [key_ok] in Hk.
  all: try (exists (vec_to_list PADDING_BYTES); split_and!;
    [intros w; cbn; by rewrite <- app_assoc|done|intros r; rewrite KeyTag_read; cbn [mbind result_bind key_tag]; by rewrite array_read]).
  18: { payload_bytes x. exists (p ++ vec_to_list BLOCK_GLOBAL_PADDING_BYTES). split_and!.
    - intros w. cbn [key_write_bytes]. rewrite Hw. cbn [mbind result_bind write_bytes array_bytesrepr].
      by rewrite <- !app_assoc.
    - rewrite length_app, length_vec_to_list, Nat2Z.inj_add, Hl. done.
    - intros r. rewrite KeyTag_read. cbn [mbind result_bind key_tag]. rewrite <- app_assoc, Hr.
      cbn [mbind result_bind]. by rewrite array_read. }
  all: payload_bytes x; exists p; split_and!;
    [intros w; cbn [key_write_bytes]; rewrite Hw; by rewrite <- app_assoc
    |rewrite Hl; done
    |intros r; rewrite KeyTag_read; cbn [mbind result_bind key_tag]; by rewrite Hr].
Qed.

#[global] Instance Key_spec : BytesreprSpec Key Key_bytesrepr.
Proof.
  apply (small_spec _ key_ok).
  - intros k Hk. destruct (key_serializes k Hk) as (p & Hw & Hl & Hr).
    exists (KeyTag_to_u8 (key_tag k) :: p). split; [apply (Hw [])|]. split_and!; [done|cbn [length]|done].
    cbn [serialized_length Key_bytesrepr]. lia.
  - intros [|b bs]; [done|]. cbn [from_bytes Key_bytesrepr]. unfold key_from_bytes.
    apply no_panic_bind; [by destruct b|]. intros [t r] _. destruct t; parse_no_panic.
  - intros bs k r H. cbn [from_bytes Key_bytesrepr] in H. unfold key_from_bytes in H.
    apply bind_Ok in H as ([t rem] & Ht & H).
    assert (exists b, bs = b :: rem) as [b ->].
    { destruct bs as [|b bs]; [done|]. exists b. destruct b; cbn in Ht; by inv_ok. }
    clear Ht. destruct t; parse_inv; (split; [done|]); eexists; rewrite app_comm_cons; by rewrite ?app_assoc.
Defined.
#[global] Instance Key_bounded : Bounded Key.
Proof. by intros [ | | | | | | | | | | | | | | |[]| | |[]|[? ? []]| | |[]|[]| | ]. Qed.

Lemma key_length_bounds k : 9 <= key_length k <= max_serialized_length \/ k = Key_ByteCode BCA_Empty.
Proof.
  destruct k as [ | | | | | | | | | | | | | | |[]| | |[]|[? ? []]| | |[]|[]| | ]; try (left; by vm_compute). by right.
Qed.

#[global] Instance EntityAddr_countable : Countable EntityAddr :=
  inj_countable' (fun a => (EntityKindTag_to_u8 (entity_tag a), entity_value a))
    (fun '(t, h) => match t with Byte.x00 => EA_System h | Byte.x01 => EA_Account h | _ => EA_SmartContract h end)
    ltac:(by intros []).
#[global] Instance NamedKeyAddr_countable : Countable NamedKeyAddr :=
  inj_countable' (fun a => (base_addr a, string_bytes a)) (fun '(a, s) => mkNamedKeyAddr a s) ltac:(by intros []).
#[global] Instance EntryPointAddr_countable : Countable EntryPointAddr :=
  inj_countable' (fun '(VmCasperV1 a s) => (a, s)) (fun '(a, s) => VmCasperV1 a s) ltac:(by intros []).
#[global] Instance ByteCodeAddr_countable : Countable ByteCodeAddr :=
  inj_countable' (fun a => match a with BCA_V1CasperWasm h => Some (true, h) | BCA_V2CasperWasm h => Some (false, h) | BCA_Empty => None end)
    (fun o => match o with Some (true, h) => BCA_V1CasperWasm h | Some (false, h) => BCA_V2CasperWasm h | None => BCA_Empty end)
    ltac:(by intros []).
#[global] Instance MessageAddr_countable : Countable MessageAddr :=
  inj_countable' (fun a => (message_entity_addr a, topic_name_hash a, message_index a))
    (fun '(a, h, i) => mkMessageAddr a h i) ltac:(by intros []).
#[global] Instance BlockGlobalAddr_countable : Countable BlockGlobalAddr :=
  inj_countable' block_global_tag
    (fun b => match b with Byte.x00 => BG_BlockTime | Byte.x01 => BG_MessageCount | Byte.x02 => BG_ProtocolVersion | _ => BG_AddressableEntity end)
    ltac:(by intros []).
#[global] Instance BalanceHoldAddr_countable : Countable BalanceHoldAddr :=
  inj_countable' (fun a => (hold_tag a, hold_purse_addr a, block_time_value (hold_block_time a)))
    (fun '(b, a, t) => match b with Byte.x00 => BH_Gas a (mkBlockTime t) | _ => BH_Processing a (mkBlockTime t) end)
    ltac:(by intros [? []|? []]).
#[global] Instance BidAddr_countable : Countable BidAddr :=
  inj_countable' (fun a => (bid_tag a, validator_account_hash a,
      (maybe_delegator_purse a, maybe_delegator_account_hash a, era_value <$> maybe_era_id a)))
    (fun '(b, v, o) =>
       match b, o with
       | Byte.x00, _ => BA_Unified v
       | Byte.x02, (_, Some d, _) => BA_DelegatedAccount v d
       | Byte.x03, (Some d, _, _) => BA_DelegatedPurse v d
       | Byte.x04, (_, _, Some e) => BA_Credit v (mkEraId e)
       | Byte.x05, (_, Some d, _) => BA_ReservedDelegationAccount v d
       | Byte.x06, (Some d, _, _) => BA_ReservedDelegationPurse v d
       | Byte.x07, (_, Some d, _) => BA_UnbondAccount v d
       | Byte.x08, (Some d, _, _) => BA_UnbondPurse v d
       | Byte.x09, _ => BA_ValidatorRev v
       | _, _ => BA_Validator v
       end)
    ltac:(by intros [| | | |? []| | | | | ]).

(** The payload of a key, by shape. *)
Definition key_shape : Type :=
  HashAddr + (URef + (Z + (BidAddr + (EntityAddr + (ByteCodeAddr + (MessageAddr + (NamedKeyAddr +
    (BlockGlobalAddr + (BalanceHoldAddr + EntryPointAddr))))))))).
Definition key_shape_of (k : Key) : u8 * option key_shape :=
  (KeyTag_to_u8 (key_tag k),
   match k with
   | Key_Account h | Key_Hash h | Key_Transfer h | Key_DeployInfo h | Key_Balance h | Key_Bid h | Key_Withdraw h
   | Key_Dictionary h | Key_Unbond h | Key_SmartContract h => Some (inl h)
   | Key_URef u => Some (inr (inl u))
   | Key_EraInfo e => Some (inr (inr (inl (era_value e))))
   | Key_BidAddr a => Some (inr (inr (inr (inl a))))
   | Key_AddressableEntity a | Key_State a => Some (inr (inr (inr (inr (inl a)))))
   | Key_ByteCode a => Some (inr (inr (inr (inr (inr (inl a))))))
   | Key_Message a => Some (inr (inr (inr (inr (inr (inr (inl a)))))))
   | Key_NamedKey a => Some (inr (inr (inr (inr (inr (inr (inr (inl a))))))))
   | Key_BlockGlobal a => Some (inr (inr (inr (inr (inr (inr (inr (inr (inl a)))))))))
   | Key_BalanceHold a => Some (inr (inr (inr (inr (inr (inr (inr (inr (inr (inl a))))))))))
   | Key_EntryPoint a => Some (inr (inr (inr (inr (inr (inr (inr (inr (inr (inr a))))))))))
   | _ => None
   end).
#[global] Instance Key_countable : Countable Key.
Proof.
  apply (inj_countable key_shape_of (fun '(b, o) =>
    match o with
    | Some (inl h) =>
        match b with
        | Byte.x00 => Some (Key_Account h) | Byte.x01 => Some (Key_Hash h) | Byte.x03 => Some (Key_Transfer h)
        | Byte.x04 => Some (Key_DeployInfo h) | Byte.x06 => Some (Key_Balance h) | Byte.x07 => Some (Key_Bid h)
        | Byte.x08 => Some (Key_Withdraw h) | Byte.x09 => Some (Key_Dictionary h) | Byte.x0c => Some (Key_Unbond h)
        | _ => Some (Key_SmartContract h)
        end
    | Some (inr (inl u)) => Some (Key_URef u)
    | Some (inr (inr (inl e))) => Some (Key_EraInfo (mkEraId e))
    | Some (inr (inr (inr (inl a)))) => Some (Key_BidAddr a)
    | Some (inr (inr (inr (inr (inl a))))) =>
        match b with Byte.x11 => Some (Key_AddressableEntity a) | _ => Some (Key_State a) end
    | Some (inr (inr (inr (inr (inr (inl a)))))) => Some (Key_ByteCode a)
    | Some (inr (inr (inr (inr (inr (inr (inl a))))))) => Some (Key_Message a)
    | Some (inr (inr (inr (inr (inr (inr (inr (inl a)))))))) => Some (Key_NamedKey a)
    | Some (inr (inr (inr (inr (inr (inr (inr (inr (inl a))))))))) => Some (Key_BlockGlobal a)
    | Some (inr (inr (inr (inr (inr (inr (inr (inr (inr (inl a)))))))))) => Some (Key_BalanceHold a)
    | Some (inr (inr (inr (inr (inr (inr (inr (inr (inr (inr a)))))))))) => Some (Key_EntryPoint a)
    | None =>
        match b with
        | Byte.x0a => Some Key_SystemEntityRegistry | Byte.x0b => Some Key_EraSummary
        | Byte.x0d => Some Key_ChainspecRegistry | Byte.x0e => Some Key_ChecksumRegistry
        | _ => Some Key_RewardsHandling
        end
    end)).
  intros k. destruct k as [ | | | | |[]| | | | | | | | | | | | | | | | | | | | ]; reflexivity.
Defined.
