(* ===== verification/Contracts.v ===== *)
(** * Contracts, contract packages and their versions

    Models [types/src/contracts.rs] ([Contract], [ContractPackage], entry points),
    [types/src/package.rs] ([Package], [Groups]), [types/src/contract_wasm.rs] and
    the entry points of [types/src/addressable_entity/entry_points.rs].  The two
    kinds of packages do the same with their versions, over contract hashes and
    over entity addresses. *)
From S2P Require Import Prelude BTree Bytesrepr Struct Digest Uint Units Access CLType Account Key.

Open Scope Z_scope.
#[local] Existing Instances CLType_bytesrepr CLType_spec URef_ord URef_ord_laws.

(** ** Entry points *)

Inductive EntryPointType : Type := EPT_Caller | EPT_Called | EPT_Factory.
#[global] Instance EntryPointType_eq_dec : EqDecision EntryPointType.
Proof. solve_decision. Defined.
Definition EntryPointType_bits (t : EntryPointType) : u8 :=
  match t with EPT_Caller => Byte.x00 | EPT_Called => Byte.x01 | EPT_Factory => Byte.x80 end.
Definition EntryPointType_from_u8 (b : u8) : option EntryPointType :=
  match b with
  | Byte.x00 => Some EPT_Caller | Byte.x01 => Some EPT_Called | Byte.x80 => Some EPT_Factory
  | _ => None
  end.
Definition is_legacy_pattern (t : EntryPointType) : bool :=
  Z.land (u8_to_Z (EntryPointType_bits t)) 128 =? 0.
Definition is_invalid_context (t : EntryPointType) : bool :=
  match t with EPT_Caller => true | EPT_Called | EPT_Factory => false end.
#[global] Instance EntryPointType_bytesrepr : Bytesrepr EntryPointType :=
  unit_enum EntryPointType_bits EntryPointType_from_u8.
#[global] Instance EntryPointType_spec : BytesreprSpec EntryPointType EntryPointType_bytesrepr.
Proof. apply unit_enum_spec. by intros []. Defined.

Inductive EntryPointPayment : Type := EPP_Caller | EPP_DirectInvocationOnly | EPP_SelfOnward.
#[global] Instance EntryPointPayment_eq_dec : EqDecision EntryPointPayment.
Proof. solve_decision. Defined.
Definition EntryPointPayment_to_u8 (p : EntryPointPayment) : u8 :=
  match p with EPP_Caller => Byte.x00 | EPP_DirectInvocationOnly => Byte.x01 | EPP_SelfOnward => Byte.x02 end.
Definition EntryPointPayment_from_u8 (b : u8) : option EntryPointPayment :=
  match b with
  | Byte.x00 => Some EPP_Caller | Byte.x01 => Some EPP_DirectInvocationOnly | Byte.x02 => Some EPP_SelfOnward
  | _ => None
  end.
Definition will_pay_direct_invocation (p : EntryPointPayment) : bool :=
  match p with EPP_Caller => false | EPP_DirectInvocationOnly | EPP_SelfOnward => true end.
#[global] Instance EntryPointPayment_bytesrepr : Bytesrepr EntryPointPayment :=
  unit_enum EntryPointPayment_to_u8 EntryPointPayment_from_u8.
#[global] Instance EntryPointPayment_spec : BytesreprSpec EntryPointPayment EntryPointPayment_bytesrepr.
Proof. apply unit_enum_spec. by intros []. Defined.

(** A [Group] is its label. *)
Abbreviation Group := RString.
Inductive EntryPointAccess : Type := EPA_Public | EPA_Groups (groups : list Group) | EPA_Template.
#[global] Instance EntryPointAccess_eq_dec : EqDecision EntryPointAccess.
Proof. solve_decision. Defined.
#[global] Instance EntryPointAccess_bytesrepr : Bytesrepr EntryPointAccess :=
  mixed_enum_as [(Byte.x01, field ()); (Byte.x02, field (list Group)); (Byte.x03, field ())]
    (fun a => match a with EPA_Public => inl () | EPA_Groups g => inr (inl g) | EPA_Template => inr (inr (inl ())) end)
    (fun v => match v with inl _ => EPA_Public | inr (inl g) => EPA_Groups g | inr (inr _) => EPA_Template end).
#[global] Instance EntryPointAccess_spec : BytesreprSpec EntryPointAccess EntryPointAccess_bytesrepr.
Proof. apply mixed_enum_as_spec; [apply _|distinct_tags|by intros []|by intros [[]|[|[[]|[]]]]]. Defined.

Record Parameter_ : Type := mkParameter { parameter_name : RString; parameter_type : CLType }.
#[global] Instance Parameter_size : SizeOf Parameter_ := false.
#[global] Instance Parameter_eq_dec : EqDecision Parameter_.
Proof. solve_decision. Defined.
#[global] Instance Parameter_bytesrepr : Bytesrepr Parameter_ :=
  unchecked_as [field RString; field CLType]
    (fun p => (parameter_name p, (parameter_type p, ()))) (fun t => mkParameter t.1 t.2.1).
#[global] Instance Parameter_spec : BytesreprSpec Parameter_ Parameter_bytesrepr.
Proof. apply unchecked_as_spec; [apply _|by intros []|by intros (? & ? & [])]. Defined.
Abbreviation Parameters := (list Parameter_).

(** An entry point of a contract, and of an addressable entity. *)
Record EntryPoint : Type := mkEntryPoint {
  ep_name : RString; ep_args : Parameters; ep_ret : CLType; ep_access : EntryPointAccess;
  ep_type : EntryPointType
}.
#[global] Instance EntryPoint_eq_dec : EqDecision EntryPoint.
Proof. solve_decision. Defined.
#[global] Instance EntryPoint_bytesrepr : Bytesrepr EntryPoint :=
  struct_as [field RString; field Parameters; field CLType; field EntryPointAccess; field EntryPointType]
    (fun e => (ep_name e, (ep_args e, (ep_ret e, (ep_access e, (ep_type e, ()))))))
    (fun t => mkEntryPoint t.1 t.2.1 t.2.2.1 t.2.2.2.1 t.2.2.2.2.1).
#[global] Instance EntryPoint_spec : BytesreprSpec EntryPoint EntryPoint_bytesrepr.
Proof. apply struct_as_spec; [apply _|by intros []|by intros (? & ? & ? & ? & ? & [])]. Defined.

Record EntityEntryPoint : Type := mkEntityEntryPoint {
  eep_name : RString; eep_args : Parameters; eep_ret : CLType; eep_access : EntryPointAccess;
  eep_type : EntryPointType; eep_payment : EntryPointPayment
}.
#[global] Instance EntityEntryPoint_eq_dec : EqDecision EntityEntryPoint.
Proof. solve_decision. Defined.
#[global] Instance EntityEntryPoint_bytesrepr : Bytesrepr EntityEntryPoint :=
  struct_as [field RString; field Parameters; field CLType; field EntryPointAccess; field EntryPointType;
             field EntryPointPayment]
    (fun e => (eep_name e, (eep_args e, (eep_ret e, (eep_access e, (eep_type e, (eep_payment e, ())))))))
    (fun t => mkEntityEntryPoint t.1 t.2.1 t.2.2.1 t.2.2.2.1 t.2.2.2.2.1 t.2.2.2.2.2.1).
#[global] Instance EntityEntryPoint_spec : BytesreprSpec EntityEntryPoint EntityEntryPoint_bytesrepr.
Proof. apply struct_as_spec; [apply _|by intros []|by intros (? & ? & ? & ? & ? & ? & [])]. Defined.

Inductive EntryPointValue : Type := V1CasperVm (entry_point : EntityEntryPoint).
Definition value_will_pay_direct_invocation (v : EntryPointValue) : bool :=
  match v with V1CasperVm e => will_pay_direct_invocation (eep_payment e) end.
#[global] Instance EntryPointValue_bytesrepr : Bytesrepr EntryPointValue :=
  enum_as [(Byte.x00, field EntityEntryPoint)]
    (fun v => match v with V1CasperVm e => inl e end) (fun v => match v with inl e => V1CasperVm e | inr v => match v with end end).
#[global] Instance EntryPointValue_spec : BytesreprSpec EntryPointValue EntryPointValue_bytesrepr.
Proof. apply enum_as_spec; [apply _|distinct_tags|by intros []|by intros [|[]]]. Defined.

(** [EntryPoints]: a [BTreeMap] from names, of either kind. *)
Abbreviation EntryPoints := (list (RString * EntryPoint)).
Abbreviation EntityEntryPoints := (list (RString * EntityEntryPoint)).
Definition add_entry_point (es : EntryPoints) (e : EntryPoint) : EntryPoints := btree_insert (ep_name e) e es.
Definition add_entity_entry_point (es : EntityEntryPoints) (e : EntityEntryPoint) : EntityEntryPoints :=
  btree_insert (eep_name e) e es.
Definition has_entry_point (es : EntryPoints) (name : RString) : bool :=
  match btree_get name es with Some _ => true | None => false end.
Definition contains_stored_session (es : EntryPoints) : bool :=
  existsb (fun e => bool_decide (ep_type e = EPT_Caller)) es.*2.
(** [From<Vec<EntryPoint>>] *)
Definition entry_points_from (l : list EntryPoint) : EntryPoints := foldl add_entry_point [] l.

(** Conversions: an entity's entry point has a payment, a contract's has none. *)
Definition entry_point_to_entity (e : EntryPoint) : EntityEntryPoint :=
  mkEntityEntryPoint (ep_name e) (ep_args e) (ep_ret e) (ep_access e) (ep_type e) EPP_Caller.
Definition entry_point_of_entity (e : EntityEntryPoint) : EntryPoint :=
  mkEntryPoint (eep_name e) (eep_args e) (eep_ret e) (eep_access e) (eep_type e).
Definition entry_points_to_entity (es : EntryPoints) : EntityEntryPoints :=
  foldl (fun acc e => add_entity_entry_point acc (entry_point_to_entity e)) [] es.*2.
Definition entry_points_of_entity (es : EntityEntryPoints) : EntryPoints :=
  foldl (fun acc e => add_entry_point acc (entry_point_of_entity e)) [] es.*2.

(** ** Contracts *)

Abbreviation NamedKeys := (list (RString * Key)).
Record Contract : Type := mkContract {
  contract_package_hash : HashAddr; contract_wasm_hash : HashAddr; contract_named_keys : NamedKeys;
  contract_entry_points : EntryPoints; contract_protocol_version : ProtocolVersion
}.
Definition contract_named_keys_append (c : Contract) (keys : NamedKeys) : Contract :=
  mkContract (contract_package_hash c) (contract_wasm_hash c) (NamedKeys_append (contract_named_keys c) keys)
    (contract_entry_points c) (contract_protocol_version c).
Definition contract_remove_named_key (c : Contract) (name : RString) : Contract * option Key :=
  (mkContract (contract_package_hash c) (contract_wasm_hash c) (btree_remove name (contract_named_keys c))
     (contract_entry_points c) (contract_protocol_version c), btree_get name (contract_named_keys c)).
Definition contract_add_entry_point (c : Contract) (e : EntryPoint) : Contract :=
  mkContract (contract_package_hash c) (contract_wasm_hash c) (contract_named_keys c)
    (add_entry_point (contract_entry_points c) e) (contract_protocol_version c).
Definition contract_set_protocol_version (c : Contract) (v : ProtocolVersion) : Contract :=
  mkContract (contract_package_hash c) (contract_wasm_hash c) (contract_named_keys c) (contract_entry_points c) v.
Definition contract_is_compatible (c : Contract) (v : ProtocolVersion) : bool :=
  major (version (contract_protocol_version c)) =? major (version v).
#[global] Instance Contract_bytesrepr : Bytesrepr Contract :=
  struct_as [field HashAddr; field HashAddr; map_field RString Key; map_field RString EntryPoint; field ProtocolVersion]
    (fun c => (contract_package_hash c, (contract_wasm_hash c, (contract_named_keys c,
      (contract_entry_points c, (contract_protocol_version c, ()))))))
    (fun t => mkContract t.1 t.2.1 t.2.2.1 t.2.2.2.1 t.2.2.2.2.1).
#[global] Instance Contract_spec : BytesreprSpec Contract Contract_bytesrepr.
Proof. apply struct_as_spec; [apply _|by intros []|by intros (? & ? & ? & ? & ? & [])]. Defined.

(** [ContractWasm]: the bytes of a module. *)
Record ContractWasm : Type := mkContractWasm { wasm_bytes : Bytes }.
#[global] Instance ContractWasm_bytesrepr : Bytesrepr ContractWasm := via wasm_bytes mkContractWasm Bytes_bytesrepr.
#[global] Instance ContractWasm_spec : BytesreprSpec ContractWasm ContractWasm_bytesrepr.
Proof. by apply (via_spec _ _ (SB := Bytes_spec) (fun w => representable (wasm_bytes w))); [|intros []|]. Defined.

(** ** Versions of a package *)

(** [ContractVersionKey] and [EntityVersionKey]: a major protocol version and a
    version, in lexicographic order. *)
Abbreviation VersionKey := (Z * Z)%type.
Definition ContractVersionKey_bytesrepr : Bytesrepr VersionKey :=
  unchecked_as [u32_field; u32_field] (fun k => (k.1, (k.2, ()))) (fun t => (t.1, t.2.1)).
Definition EntityVersionKey_bytesrepr : Bytesrepr VersionKey :=
  struct_as [u32_field; u32_field] (fun k => (k.1, (k.2, ()))) (fun t => (t.1, t.2.1)).
#[local] Instance ContractVersionKey_spec : BytesreprSpec VersionKey ContractVersionKey_bytesrepr.
Proof. apply unchecked_as_spec; [apply _|by intros []|by intros (? & ? & [])]. Defined.
#[local] Instance EntityVersionKey_spec : BytesreprSpec VersionKey EntityVersionKey_bytesrepr.
Proof. apply struct_as_spec; [apply _|by intros []|by intros (? & ? & [])]. Defined.

Abbreviation Groups := (list (Group * list URef)).
Definition total_urefs (groups : Groups) : nat := sum_list_with length groups.*2.
Definition groups_bytesrepr : Bytesrepr Groups := btree_map_bytesrepr (H0 := btree_set_bytesrepr).
#[local] Instance groups_spec : BytesreprSpec Groups groups_bytesrepr := btree_map_spec.

Section versions.
Context {H : Type} {EH : EqDecision H}.
Abbreviation Versions := (list (VersionKey * H)).
Implicit Types versions : Versions.
Implicit Types disabled : list VersionKey.

(** [find_contract_version_key_by_hash]: the first version that has the hash *)
Fixpoint find_version_key_by_hash versions (hash : H) : option VersionKey :=
  match versions with
  | [] => None
  | (k, v) :: versions => if decide (v = hash) then Some k else find_version_key_by_hash versions hash
  end.
(** [keys().rev().find_map(..)]: the last version of a major protocol version *)
Fixpoint last_version_for (keys : list VersionKey) (protocol_version : Z) : option Z :=
  match keys with
  | [] => None
  | k :: keys =>
      match last_version_for keys protocol_version with
      | Some v => Some v
      | None => if k.1 =? protocol_version then Some k.2 else None
      end
  end.
(** A [u32] addition: in a release build it wraps around. *)
Definition next_version_for versions (protocol_version : Z) : Z :=
  (default 0 (last_version_for versions.*1 protocol_version) + 1) mod 2 ^ 32.
Definition is_version_enabled versions disabled (k : VersionKey) : bool :=
  negb (btree_set_contains k disabled) && match btree_get k versions with Some _ => true | None => false end.
Definition enabled_versions versions disabled : Versions :=
  foldl (fun ret version =>
    if is_version_enabled versions disabled version.1 then btree_insert version.1 version.2 ret else ret) [] versions.
Definition current_version versions disabled : option VersionKey := last (enabled_versions versions disabled).*1.
Definition current_hash versions disabled : option H := last (enabled_versions versions disabled).*2.
Definition insert_version versions (protocol_version_major : Z) (hash : H) : Versions * VersionKey :=
  let key := (protocol_version_major, next_version_for versions protocol_version_major) in
  (btree_insert key hash versions, key).
Definition disable_version versions disabled (hash : H) : option (list VersionKey) :=
  k ← find_version_key_by_hash versions hash;
  Some (if btree_set_contains k disabled then disabled else btree_set_insert k disabled).
Definition enable_version versions disabled (hash : H) : option (list VersionKey) :=
  k ← find_version_key_by_hash versions hash;
  Some (btree_set_remove k disabled).
End versions.

(** [ContractPackageStatus] and [PackageStatus]: a [bool] *)
Inductive PackageStatus : Type := Locked | Unlocked.
#[global] Instance PackageStatus_eq_dec : EqDecision PackageStatus.
Proof. solve_decision. Defined.
Definition PackageStatus_new (is_locked : bool) : PackageStatus := if is_locked then Locked else Unlocked.
Definition status_bool (s : PackageStatus) : bool := match s with Locked => true | Unlocked => false end.
#[global] Instance PackageStatus_bytesrepr : Bytesrepr PackageStatus := via status_bool PackageStatus_new bool_bytesrepr.
#[global] Instance PackageStatus_spec : BytesreprSpec PackageStatus PackageStatus_bytesrepr.
Proof.
  apply (via_spec _ _ (SB := bool_spec) (fun s => representable (status_bool s))); [done|by intros []|by intros []].
Defined.

Inductive PackageError : Type :=
| PreviouslyUsedVersion | ContractNotFound | EntityNotFound | GroupAlreadyExists | MaxGroupsExceeded
| MaxTotalURefsExceeded | GroupDoesNotExist | UnableToRemoveURef | GroupInUse | URefAlreadyExists.

(** ** [ContractPackage] *)

Record ContractPackage : Type := mkContractPackage {
  cp_access_key : URef; cp_versions : list (VersionKey * HashAddr); cp_disabled : list VersionKey;
  cp_groups : Groups; cp_lock_status : PackageStatus
}.
Definition cp_with_versions (p : ContractPackage) (v : list (VersionKey * HashAddr)) : ContractPackage :=
  mkContractPackage (cp_access_key p) v (cp_disabled p) (cp_groups p) (cp_lock_status p).
Definition cp_with_disabled (p : ContractPackage) (d : list VersionKey) : ContractPackage :=
  mkContractPackage (cp_access_key p) (cp_versions p) d (cp_groups p) (cp_lock_status p).
Definition insert_contract_version (p : ContractPackage) (protocol_version_major : Z) (hash : HashAddr) :
    ContractPackage * VersionKey :=
  let '(versions, key) := insert_version (cp_versions p) protocol_version_major hash in
  (cp_with_versions p versions, key).
Definition disable_contract_version (p : ContractPackage) (hash : HashAddr) : result PackageError ContractPackage :=
  d ← ok_or (disable_version (cp_versions p) (cp_disabled p) hash) ContractNotFound;
  Ok (cp_with_disabled p d).
Definition enable_contract_version (p : ContractPackage) (hash : HashAddr) : result PackageError ContractPackage :=
  d ← ok_or (enable_version (cp_versions p) (cp_disabled p) hash) ContractNotFound;
  Ok (cp_with_disabled p d).
Definition cp_is_version_enabled (p : ContractPackage) (k : VersionKey) : bool :=
  is_version_enabled (cp_versions p) (cp_disabled p) k.
Definition current_contract_version (p : ContractPackage) : option VersionKey :=
  current_version (cp_versions p) (cp_disabled p).
Definition current_contract_hash (p : ContractPackage) : option HashAddr :=
  current_hash (cp_versions p) (cp_disabled p).
Definition cp_is_locked (p : ContractPackage) : bool := status_bool (cp_lock_status p).
Definition cp_remove_group (p : ContractPackage) (group : Group) : ContractPackage * bool :=
  (mkContractPackage (cp_access_key p) (cp_versions p) (cp_disabled p) (btree_remove group (cp_groups p))
     (cp_lock_status p),
   match btree_get group (cp_groups p) with Some _ => true | None => false end).
#[global] Instance ContractPackage_bytesrepr : Bytesrepr ContractPackage :=
  struct_as [field URef;
             field (list (VersionKey * HashAddr)) (D := btree_map_bytesrepr (H := ContractVersionKey_bytesrepr));
             field (list VersionKey) (D := btree_set_bytesrepr (H := ContractVersionKey_bytesrepr));
             field Groups (D := groups_bytesrepr); field PackageStatus]
    (fun p => (cp_access_key p, (cp_versions p, (cp_disabled p, (cp_groups p, (cp_lock_status p, ()))))))
    (fun t => mkContractPackage t.1 t.2.1 t.2.2.1 t.2.2.2.1 t.2.2.2.2.1).
#[global] Instance ContractPackage_spec : BytesreprSpec ContractPackage ContractPackage_bytesrepr.
Proof. apply struct_as_spec; [apply _|by intros []|by intros (? & ? & ? & ? & ? & [])]. Defined.

(** ** [Package] *)

Record Package : Type := mkPackage {
  pkg_versions : list (VersionKey * EntityAddr); pkg_disabled : list VersionKey;
  pkg_groups : Groups; pkg_lock_status : PackageStatus
}.
Definition pkg_with_versions (p : Package) (v : list (VersionKey * EntityAddr)) : Package :=
  mkPackage v (pkg_disabled p) (pkg_groups p) (pkg_lock_status p).
Definition pkg_with_disabled (p : Package) (d : list VersionKey) : Package :=
  mkPackage (pkg_versions p) d (pkg_groups p) (pkg_lock_status p).
Definition insert_entity_version (p : Package) (protocol_version_major : Z) (hash : EntityAddr) :
    Package * VersionKey :=
  let '(versions, key) := insert_version (pkg_versions p) protocol_version_major hash in
  (pkg_with_versions p versions, key).
Definition disable_entity_version (p : Package) (hash : EntityAddr) : result PackageError Package :=
  d ← ok_or (disable_version (pkg_versions p) (pkg_disabled p) hash) EntityNotFound;
  Ok (pkg_with_disabled p d).
Definition enable_entity_version (p : Package) (hash : EntityAddr) : result PackageError Package :=
  d ← ok_or (enable_version (pkg_versions p) (pkg_disabled p) hash) EntityNotFound;
  Ok (pkg_with_disabled p d).
Definition pkg_is_version_enabled (p : Package) (k : VersionKey) : bool :=
  is_version_enabled (pkg_versions p) (pkg_disabled p) k.
Definition is_entity_enabled (p : Package) (hash : EntityAddr) : bool :=
  match find_version_key_by_hash (pkg_versions p) hash with
  | Some k => negb (btree_set_contains k (pkg_disabled p))
  | None => false
  end.
Definition current_entity_version_for (p : Package) (protocol_version : Z) : VersionKey :=
  (protocol_version, default 0 (last_version_for (enabled_versions (pkg_versions p) (pkg_disabled p)).*1 protocol_version)).
Definition current_entity_version (p : Package) : option VersionKey := current_version (pkg_versions p) (pkg_disabled p).
Definition current_entity_hash (p : Package) : option EntityAddr := current_hash (pkg_versions p) (pkg_disabled p).
Definition pkg_is_locked (p : Package) : bool :=
  match pkg_versions p with [] => false | _ => status_bool (pkg_lock_status p) end.
Definition add_group (p : Package) (group : Group) (urefs : list URef) : Package :=
  let v := btree_set_extend (default [] (btree_get group (pkg_groups p))) urefs in
  mkPackage (pkg_versions p) (pkg_disabled p) (btree_insert group v (pkg_groups p)) (pkg_lock_status p).
Definition pkg_remove_group (p : Package) (group : Group) : Package * bool :=
  (mkPackage (pkg_versions p) (pkg_disabled p) (btree_remove group (pkg_groups p)) (pkg_lock_status p),
   match btree_get group (pkg_groups p) with Some _ => true | None => false end).
#[global] Instance Package_bytesrepr : Bytesrepr Package :=
  struct_as [field (list (VersionKey * EntityAddr)) (D := btree_map_bytesrepr (H := EntityVersionKey_bytesrepr));
             field (list VersionKey) (D := btree_set_bytesrepr (H := EntityVersionKey_bytesrepr));
             field Groups (D := groups_bytesrepr); field PackageStatus]
    (fun p => (pkg_versions p, (pkg_disabled p, (pkg_groups p, (pkg_lock_status p, ())))))
    (fun t => mkPackage t.1 t.2.1 t.2.2.1 t.2.2.2.1).
#[global] Instance Package_spec : BytesreprSpec Package Package_bytesrepr.
Proof. apply struct_as_spec; [apply _|by intros []|by intros (? & ? & ? & ? & [])]. Defined.

(** [impl From<ContractPackage> for Package]: the maps are collected anew. *)
Definition package_of_contract_package (p : ContractPackage) : Package :=
  mkPackage
    (foldl (fun acc kv => btree_insert kv.1 (EA_SmartContract kv.2) acc) [] (cp_versions p))
    (btree_set_extend [] (cp_disabled p))
    (cp_groups p)
    (if decide (cp_lock_status p = Locked) then Locked else Unlocked).

(** ** The history of a package *)

(** The operations on versions; a failed one leaves the package as it is. *)
Inductive VersionOp (H : Type) : Type :=
| Insert (protocol_version_major : Z) (hash : H)
| Disable (hash : H)
| Enable (hash : H).
Arguments Insert {H}. Arguments Disable {H}. Arguments Enable {H}.

Section history.
Context {H : Type} {EH : EqDecision H}.
Abbreviation Versions := (list (VersionKey * H)).
Implicit Types versions : Versions.
Implicit Types disabled : list VersionKey.
Implicit Types ops : list (VersionOp H).

Definition version_op (s : Versions * list VersionKey) (op : VersionOp H) : Versions * list VersionKey :=
  match op with
  | Insert m h => ((insert_version s.1 m h).1, s.2)
  | Disable h => (s.1, default s.2 (disable_version s.1 s.2 h))
  | Enable h => (s.1, default s.2 (enable_version s.1 s.2 h))
  end.

(** The hashes inserted for a major version in order, and all of them. *)
Definition inserted (m : Z) ops : list H :=
  omap (fun op => match op with Insert m' h => if decide (m' = m) then Some h else None | _ => None end) ops.
Definition all_inserted ops : list H :=
  omap (fun op => match op with Insert _ h => Some h | _ => None end) ops.
(** Whether a hash has been inserted, and whether it has been disabled since. *)
Definition track (h : H) (s : bool * bool) (op : VersionOp H) : bool * bool :=
  match op with
  | Insert _ h' => if decide (h' = h) then (true, s.2) else s
  | Disable h' => if decide (h' = h) then (s.1, s.1 || s.2) else s
  | Enable h' => if decide (h' = h) then (s.1, false) else s
  end.
Definition is_disabled (h : H) ops : bool := (foldl (track h) (false, false) ops).2.

(** *** Looking up and inserting versions *)

Lemma find_version_key_Some versions h k :
  btree_sorted versions -> find_version_key_by_hash versions h = Some k -> btree_get k versions = Some h.
Proof.
  intros Hs E. apply btree_get_elem; [done|]. clear Hs. induction versions as [|[k' h'] versions IH]; cbn in E; [done|].
  case_decide as Hd; [injection E as <-; subst; set_solver|]. apply IH in E. set_solver.
Qed.
Lemma find_version_key_None versions h k :
  btree_sorted versions -> find_version_key_by_hash versions h = None -> btree_get k versions <> Some h.
Proof.
  intros Hs E G. apply btree_get_elem in G; [|done]. clear Hs. induction versions as [|[k' h'] versions IH]; cbn in E; [set_solver|].
  case_decide as Hd; [done|]. apply elem_of_cons in G as [[= <- <-]|G]; [done|auto].
Qed.

Lemma version_key_ltb (a b : VersionKey) : ord_ltb a b = true <-> a.1 < b.1 \/ a.1 = b.1 /\ a.2 < b.2.
Proof. rewrite prod_ltb. unfold ord_ltb, Z_ord. lia. Qed.

Lemma last_version_Some keys m v :
  btree_set_sorted keys -> last_version_for keys m = Some v ->
  (m, v) ∈ keys /\ forall v', (m, v') ∈ keys -> v' <= v.
Proof.
  unfold btree_set_sorted. induction 1 as [|k keys Hs IH Hf] in v |- *; cbn; [done|].
  destruct (last_version_for keys m) as [w|] eqn:E.
  - intros [= <-]. destruct (IH w eq_refl) as [Hin Hmax]. split; [set_solver|].
    intros v' [<-|Hv']%elem_of_cons; [|auto]. rewrite Forall_forall in Hf.
    specialize (Hf _ Hin). apply version_key_ltb in Hf. cbn in Hf. lia.
  - destruct (Z.eqb_spec k.1 m) as [<-|]; [|done]. intros [= <-]. split; [destruct k; set_solver|].
    intros v' [Hk|Hv']%elem_of_cons; [by rewrite <- Hk|]. exfalso.
    clear -E Hv'. induction keys as [|k' keys IH]; [set_solver|]. cbn in E.
    destruct (last_version_for keys k.1) eqn:E'; [done|]. apply elem_of_cons in Hv' as [<-|]; [|auto].
    cbn in E. by rewrite Z.eqb_refl in E.
Qed.
Lemma last_version_None keys m v : last_version_for keys m = None -> (m, v) ∉ keys.
Proof.
  induction keys as [|k keys IH]; cbn; [set_solver|]. destruct (last_version_for keys m); [done|].
  destruct (Z.eqb_spec k.1 m) as [|Hm]; [done|]. intros _ [<-|Hin]%elem_of_cons; [done|]. by apply IH.
Qed.

Lemma btree_sorted_keys versions : btree_sorted versions -> btree_set_sorted versions.*1.
Proof.
  unfold btree_sorted, btree_set_sorted. induction 1 as [|p m Hs IH Hf]; cbn; constructor; [done|].
  apply Forall_fmap. eapply Forall_impl; [exact Hf|]. by intros x Hx.
Qed.

(** The versions of each major version are the numbers from 1 on. *)
Definition versions_rep versions (hist : Z -> list H) : Prop :=
  btree_sorted versions /\
  forall m v, btree_get (m, v) versions = if 1 <=? v then hist m !! Z.to_nat (v - 1) else None.

Lemma versions_rep_length versions hist m :
  versions_rep versions hist ->
  default 0 (last_version_for versions.*1 m) = Z.of_nat (length (hist m)).
Proof.
  intros [Hs Hg]. assert (forall v, (m, v) ∈ versions.*1 <-> 1 <= v <= Z.of_nat (length (hist m))) as Hin.
  { intros v. transitivity (is_Some (btree_get (m, v) versions)).
    - rewrite list_elem_of_fmap. split.
      + intros ([k h] & E & Hk). cbn in E. subst k. exists h. by apply btree_get_elem.
      + intros [h Hh%btree_get_elem]; [|done]. by exists ((m, v), h).
    - rewrite Hg. destruct (Z.leb_spec 1 v).
      + rewrite lookup_lt_is_Some. lia.
      + split; [by intros []|lia]. }
  destruct (last_version_for versions.*1 m) as [v|] eqn:E; cbn.
  - apply last_version_Some in E as [Hv Hmax]; [|by apply btree_sorted_keys]. apply Hin in Hv.
    specialize (Hmax (Z.of_nat (length (hist m)))). rewrite Hin in Hmax. lia.
  - destruct (hist m) as [|h l] eqn:El; [done|]. exfalso. apply (last_version_None _ _ 1) in E. apply E, Hin. cbn. lia.
Qed.

(** Inserting a version appends to the history. *)
Lemma insert_version_rep versions hist m h :
  versions_rep versions hist -> Z.of_nat (length (hist m)) < u_max 32 ->
  versions_rep (insert_version versions m h).1 (fun m' => if decide (m' = m) then hist m ++ [h] else hist m') /\
  (insert_version versions m h).2 = (m, Z.of_nat (length (hist m)) + 1).
Proof.
  intros Hrep Hl. unfold insert_version, next_version_for. rewrite (versions_rep_length versions hist) by done.
  rewrite Z.mod_small by (unfold u_max in Hl; lia). split; [|done]. destruct Hrep as [Hs Hg]. cbn [fst]. split.
  - by apply btree_insert_sorted.
  - intros m' v. destruct (decide ((m', v) = (m, Z.of_nat (length (hist m)) + 1))) as [[= -> ->]|Hne].
    + rewrite btree_get_insert_eq, decide_True by done. destruct (Z.leb_spec 1 (Z.of_nat (length (hist m)) + 1)); [|lia].
      rewrite lookup_app_r by lia. by replace (_ - _)%nat with 0%nat by lia.
    + rewrite btree_get_insert_ne, Hg by done. destruct (Z.leb_spec 1 v); [|done]. case_decide; [|done]. subst m'.
      destruct (decide (Z.to_nat (v - 1) < length (hist m))%nat); [by rewrite lookup_app_l|].
      rewrite lookup_ge_None_2 by lia. rewrite lookup_app_r by lia. symmetry. apply lookup_ge_None_2. cbn.
      assert (v <> Z.of_nat (length (hist m)) + 1) by congruence. lia.
Qed.

(** *** Enabled versions *)

Lemma is_version_enabled_spec versions disabled k :
  btree_sorted versions -> btree_set_sorted disabled ->
  is_version_enabled versions disabled k = true <-> k ∉ disabled /\ exists h, btree_get k versions = Some h.
Proof.
  intros Hs Hd. unfold is_version_enabled. rewrite andb_true_iff, negb_true_iff, <- not_true_iff_false.
  rewrite btree_set_contains_elem by done. destruct (btree_get k versions); naive_solver.
Qed.

Lemma enabled_versions_filter versions disabled :
  btree_sorted versions ->
  enabled_versions versions disabled = filter (fun kv => is_version_enabled versions disabled kv.1 = true) versions.
Proof.
  unfold enabled_versions. generalize (is_version_enabled versions disabled) as P. intros P.
  change (filter (fun kv => P kv.1 = true) versions) with ([] ++ filter (fun kv => P kv.1 = true) versions).
  assert (Forall (fun a => Forall (key_lt a) versions) (@nil (VersionKey * H))) as Ha by constructor.
  revert Ha. generalize (@nil (VersionKey * H)) as acc.
  induction versions as [|kv versions IH]; intros acc Ha Hs; [cbn; by rewrite app_nil_r|].
  cbn [foldl]. unfold btree_sorted in Hs. apply StronglySorted_inv in Hs as [Hs Hf].
  assert (Forall (fun a => key_lt a kv) acc /\ Forall (fun a => Forall (key_lt a) versions) acc) as [Hkv Ha'].
  { split; (eapply Forall_impl; [exact Ha|]); by intros a [? ?]%Forall_cons. }
  rewrite filter_cons. destruct (P kv.1).
  - rewrite decide_True by done. rewrite btree_insert_last by exact Hkv. rewrite <- surjective_pairing, IH; [|apply Forall_app|done].
    + by rewrite <- app_assoc.
    + split; [done|]. by repeat constructor.
  - rewrite decide_False by done. by apply IH.
Qed.

(** The current version is the greatest enabled one. *)
Lemma current_version_spec versions disabled k :
  btree_sorted versions -> btree_set_sorted disabled ->
  current_version versions disabled = Some k <->
  is_version_enabled versions disabled k = true /\
  forall k', is_version_enabled versions disabled k' = true -> ord_ltb k k' = false.
Proof.
  intros Hs Hd. unfold current_version. rewrite enabled_versions_filter by done. rewrite fmap_last, fmap_Some.
  set (l := filter _ versions). assert (btree_sorted l) as Hl by by apply btree_filter_sorted.
  assert (forall k', is_version_enabled versions disabled k' = true <-> exists h, (k', h) ∈ l) as Hen.
  { intros k'. split.
    - intros E. destruct (proj1 (is_version_enabled_spec _ _ _ Hs Hd) E) as [_ [h Hh]]. exists h.
      apply list_elem_of_filter. split; [done|]. by apply btree_get_elem.
    - by intros [h [E _]%list_elem_of_filter]. }
  split.
  - intros ([k0 h] & Hp%btree_last & ->); [|done]. destruct Hp as [Hin Hmax]. cbn. split; [apply Hen; eauto|].
    intros k' [h' Hh']%Hen. exact (Hmax _ Hh').
  - intros [[h Hh]%Hen Hmax]. exists (k, h). split; [|done]. apply btree_last; [done|]. split; [done|].
    intros [k' h'] Hin. apply Hmax, Hen. eauto.
Qed.

(** *** Runs *)

Lemma inserted_app m ops ops' : inserted m (ops ++ ops') = inserted m ops ++ inserted m ops'.
Proof. apply omap_app. Qed.
Lemma all_inserted_app ops ops' : all_inserted (ops ++ ops') = all_inserted ops ++ all_inserted ops'.
Proof. apply omap_app. Qed.

Record history_ok ops (s : Versions * list VersionKey) : Prop := {
  ho_rep : versions_rep s.1 (fun m => inserted m ops);
  ho_sorted : btree_set_sorted s.2;
  ho_present : forall h, (exists k, btree_get k s.1 = Some h) <-> h ∈ all_inserted ops;
  ho_unique : forall k k' h, btree_get k s.1 = Some h -> btree_get k' s.1 = Some h -> k = k';
  ho_stored : forall k, k ∈ s.2 -> is_Some (btree_get k s.1);
  ho_disabled : forall k h, btree_get k s.1 = Some h -> k ∈ s.2 <-> is_disabled h ops = true
}.

Lemma track_fresh h ops : h ∉ all_inserted ops -> foldl (track h) (false, false) ops = (false, false).
Proof.
  induction ops as [|op ops IH] using rev_ind; [done|]. rewrite all_inserted_app, foldl_app, not_elem_of_app.
  intros [Hf Hop]. rewrite IH by done. destruct op as [m h'|h'|h']; cbn in *; case_decide; subst; try done. set_solver.
Qed.
Lemma track_present h ops : (foldl (track h) (false, false) ops).1 = true <-> h ∈ all_inserted ops.
Proof.
  induction ops as [|op ops IH] using rev_ind; [cbn; set_solver|]. rewrite all_inserted_app, foldl_app, elem_of_app, <- IH.
  destruct op as [m h'|h'|h']; cbn; case_decide; cbn; subst; set_solver.
Qed.

Lemma history_insert ops s m h :
  history_ok ops s -> h ∉ all_inserted ops -> Z.of_nat (length (inserted m ops)) < u_max 32 ->
  history_ok (ops ++ [Insert m h]) (version_op s (Insert m h)).
Proof.
  intros [Hrep Hsd Hp Hu Hst Hdis] Hf Hl. destruct s as [versions disabled]. cbn [fst snd] in *.
  destruct (insert_version_rep versions _ m h Hrep Hl) as [Hrep' Hk].
  unfold version_op, insert_version in *. cbn [fst snd] in *. rewrite Hk in *.
  set (k0 := (m, Z.of_nat (length (inserted m ops)) + 1)) in *.
  assert (btree_get k0 versions = None) as Hk0.
  { destruct Hrep as [_ Hg]. unfold k0. rewrite Hg. case_match; [|done]. apply lookup_ge_None_2. lia. }
  assert (forall k h', btree_get k (btree_insert k0 h versions) = Some h' <->
    k = k0 /\ h' = h \/ k <> k0 /\ btree_get k versions = Some h') as Hget.
  { intros k h'. destruct (decide (k = k0)) as [->|Hne]; [rewrite btree_get_insert_eq; naive_solver|].
    rewrite btree_get_insert_ne by (done || apply Hrep). naive_solver. }
  assert (forall k, btree_get k versions = Some h -> False) as Hno by (intros k Hk'; apply Hf, Hp; eauto).
  split; cbn [fst snd].
  - destruct Hrep' as [Hs Hg]. split; [done|]. intros m' v. rewrite Hg, inserted_app.
    replace (inserted m' [Insert m h]) with (if decide (m' = m) then [h] else []).
    + case_decide as Hm; [by rewrite Hm|by rewrite app_nil_r].
    + cbn. destruct (decide (m' = m)) as [->|]; [by rewrite decide_True|]. by rewrite decide_False by congruence.
  - done.
  - intros h'. rewrite all_inserted_app, elem_of_app, <- Hp. setoid_rewrite Hget. cbn. rewrite list_elem_of_singleton. split.
    + naive_solver.
    + intros [[k Hh]| ->]; [|eauto]. exists k. right. split; [congruence|done].
  - intros k k' h'. rewrite !Hget. intros [[-> ->]|[Hne Hh]] [[-> E]|[Hne' Hh']]; [done|by apply Hno in Hh'|subst h'; by apply Hno in Hh|eauto].
  - intros k Hk'. destruct (Hst k Hk') as [h' Hh']. exists h'. apply Hget. right. split; [congruence|done].
  - intros k h'. rewrite Hget. unfold is_disabled. rewrite foldl_app. cbn. intros [[-> ->]|[Hne Hh]].
    + rewrite decide_True by done. rewrite track_fresh by done. cbn. split; [|done].
      intros Hin. destruct (Hst _ Hin). congruence.
    + rewrite (Hdis k h' Hh). unfold is_disabled. case_decide; [|done]. done.
Qed.

Lemma history_toggle ops s op :
  history_ok ops s -> (forall m h, op <> Insert m h) -> history_ok (ops ++ [op]) (version_op s op).
Proof.
  intros [Hrep Hsd Hp Hu Hst Hdis] Hop. destruct s as [versions disabled]. cbn [fst snd] in *.
  assert (forall m, inserted m (ops ++ [op]) = inserted m ops) as Hin.
  { intros m. rewrite inserted_app. destruct op; [by destruct (Hop _ _ eq_refl)|..]; apply app_nil_r. }
  assert (all_inserted (ops ++ [op]) = all_inserted ops) as Hai.
  { rewrite all_inserted_app. destruct op; [by destruct (Hop _ _ eq_refl)|..]; apply app_nil_r. }
  assert ((version_op (versions, disabled) op).1 = versions) as Hv.
  { destruct op; [by destruct (Hop _ _ eq_refl)|done..]. }
  assert (btree_set_sorted (version_op (versions, disabled) op).2 /\
    (forall k, k ∈ (version_op (versions, disabled) op).2 -> is_Some (btree_get k versions)) /\
    forall k h, btree_get k versions = Some h ->
      k ∈ (version_op (versions, disabled) op).2 <-> is_disabled h (ops ++ [op]) = true) as (H1 & H2 & H3).
  { destruct Hrep as [Hs _]. destruct op as [m h|h|h]; [by destruct (Hop _ _ eq_refl)|..];
      cbn [version_op fst snd]; unfold disable_version, enable_version, is_disabled;
      setoid_rewrite foldl_app; cbn [foldl track];
      destruct (find_version_key_by_hash versions h) as [k0|] eqn:E; cbn [mbind option_bind default].
    - apply find_version_key_Some in E; [|done].
      assert (forall k, k ∈ (if btree_set_contains k0 disabled then disabled else btree_set_insert k0 disabled)
        <-> k = k0 \/ k ∈ disabled) as Hd.
      { intros k. destruct (btree_set_contains k0 disabled) eqn:Ec; [|by apply btree_set_insert_spec].
        apply btree_set_contains_elem in Ec; [|done]. naive_solver. }
      split_and!.
      + case_match; [done|]. by apply (btree_set_insert_spec k0 disabled k0).
      + intros k [->|Hk]%Hd; eauto.
      + intros k h' Hh'. rewrite Hd. case_decide as Hh; cbn.
        * subst h'. rewrite orb_true_iff. rewrite track_present, <- Hp, (Hdis k h Hh'). unfold is_disabled.
          split; [intros [->|]; eauto|]. intros [_|]; [|auto]. left. by eapply Hu.
        * rewrite (Hdis k h' Hh'). unfold is_disabled. split; [intros [->|]; [congruence|done]|auto].
    - split_and!; [done|done|]. intros k h' Hh'. case_decide as Hh; cbn; [|by apply Hdis].
      subst h'. by apply (find_version_key_None _ _ k) in E.
    - apply find_version_key_Some in E; [|done]. split_and!.
      + by apply (btree_set_remove_spec k0 disabled k0).
      + intros k Hk. apply btree_set_remove_spec in Hk as [_ Hk]; [|done]. auto.
      + intros k h' Hh'. destruct (btree_set_remove_spec k0 disabled k Hsd) as [_ ->].
        rewrite (Hdis k h' Hh'). unfold is_disabled. case_decide as Hh; cbn; [|].
        * subst h'. split; [|done]. intros [Hne _]. destruct Hne. by eapply Hu.
        * split; [tauto|]. intros Ht. split; [|done]. intros ->. congruence.
    - split_and!; [done|done|]. intros k h' Hh'. case_decide as Hh; cbn; [|by apply Hdis].
      subst h'. by apply (find_version_key_None _ _ k) in E. }
  split; rewrite ?Hv; try done.
  - destruct Hrep as [Hs Hg]. split; [done|]. intros m v. by rewrite Hg, Hin.
  - intros h. by rewrite Hai.
Qed.

Lemma history_run ops :
  NoDup (all_inserted ops) -> (forall m, Z.of_nat (length (inserted m ops)) <= u_max 32) ->
  history_ok ops (foldl version_op ([], []) ops).
Proof.
  induction ops as [|op ops IH] using rev_ind.
  - intros _ _. split; cbn; try done; try constructor; try set_solver.
    + constructor.
    + intros m v. by destruct (1 <=? v).
  - rewrite all_inserted_app, foldl_app. intros (Hn & Hd & _)%NoDup_app Hl.
    assert (history_ok ops (foldl version_op ([], []) ops)) as Hok.
    { apply IH; [done|]. intros m. specialize (Hl m). rewrite inserted_app, length_app in Hl. lia. }
    cbn. destruct op as [m h|h|h]; [|by apply history_toggle..]. apply history_insert; [done| |].
    + intros Hin. apply (Hd h Hin). cbn. set_solver.
    + specialize (Hl m). rewrite inserted_app, length_app in Hl. cbn in Hl. rewrite decide_True in Hl by done. cbn in Hl. lia.
Qed.

(** Numbering does not need the inserted hashes to be distinct. *)
Lemma numbering_run ops :
  (forall m, Z.of_nat (length (inserted m ops)) <= u_max 32) ->
  versions_rep (foldl version_op ([], []) ops).1 (fun m => inserted m ops) /\
  btree_set_sorted (foldl version_op ([], []) ops).2.
Proof.
  induction ops as [|op ops IH] using rev_ind.
  - intros _. split; [split|]; cbn; [constructor| |constructor]. intros m v. by destruct (1 <=? v).
  - intros Hl. destruct IH as [Hrep Hsd].
    { intros m. specialize (Hl m). rewrite inserted_app, length_app in Hl. lia. }
    rewrite foldl_app. destruct (foldl version_op ([], []) ops) as [versions disabled]. cbn [fst snd foldl] in *.
    destruct op as [m h|h|h]; cbn [version_op].
    + specialize (Hl m). rewrite inserted_app, length_app in Hl. cbn in Hl. rewrite decide_True in Hl by done. cbn in Hl.
      destruct (insert_version_rep versions _ m h Hrep ltac:(lia)) as [[Hs Hg] _]. cbn [fst snd]. split; [|done]. split; [done|].
      intros m' v. rewrite Hg, inserted_app. cbn [inserted omap list_omap]. case_decide as Hm.
      * subst m'. by rewrite decide_True by done.
      * rewrite decide_False by congruence. by rewrite app_nil_r.
    + cbn [fst snd]. split; [split; [apply Hrep|]; intros m v; rewrite inserted_app, app_nil_r; apply Hrep|].
      unfold disable_version. destruct (find_version_key_by_hash versions h) as [k|]; cbn; [|done].
      case_match; [done|]. by apply (btree_set_insert_spec k disabled k).
    + cbn [fst snd]. split; [split; [apply Hrep|]; intros m v; rewrite inserted_app, app_nil_r; apply Hrep|].
      unfold enable_version. destruct (find_version_key_by_hash versions h) as [k|]; cbn; [|done].
      by apply (btree_set_remove_spec k disabled k).
Qed.
(** The current hash is that of the current version. *)
Lemma current_hash_version versions disabled :
  btree_sorted versions -> current_hash versions disabled = k ← current_version versions disabled; btree_get k versions.
Proof.
  intros Hs. unfold current_hash, current_version. rewrite enabled_versions_filter by done. rewrite !fmap_last.
  destruct (last _) as [[k h]|] eqn:E; [|done]. cbn. symmetry. apply btree_get_elem; [done|].
  apply last_Some_elem_of in E. by apply list_elem_of_filter in E as [_ ?].
Qed.
End history.

(** *** The two kinds of packages *)

Definition contract_package_op (p : ContractPackage) (op : VersionOp HashAddr) : ContractPackage :=
  match op with
  | Insert m h => (insert_contract_version p m h).1
  | Disable h => match disable_contract_version p h with Ok p => p | _ => p end
  | Enable h => match enable_contract_version p h with Ok p => p | _ => p end
  end.
Definition package_op (p : Package) (op : VersionOp EntityAddr) : Package :=
  match op with
  | Insert m h => (insert_entity_version p m h).1
  | Disable h => match disable_entity_version p h with Ok p => p | _ => p end
  | Enable h => match enable_entity_version p h with Ok p => p | _ => p end
  end.

Lemma contract_package_op_versions p op :
  let p' := contract_package_op p op in
  (cp_versions p', cp_disabled p') = version_op (cp_versions p, cp_disabled p) op /\
  cp_groups p' = cp_groups p /\ cp_lock_status p' = cp_lock_status p /\ cp_access_key p' = cp_access_key p.
Proof.
  destruct op as [m h|h|h]; cbn; [done|..]; unfold disable_contract_version, enable_contract_version;
    by destruct (_ : option (list VersionKey)).
Qed.
Lemma package_op_versions p op :
  let p' := package_op p op in
  (pkg_versions p', pkg_disabled p') = version_op (pkg_versions p, pkg_disabled p) op /\
  pkg_groups p' = pkg_groups p /\ pkg_lock_status p' = pkg_lock_status p.
Proof.
  destruct op as [m h|h|h]; cbn; [done|..]; unfold disable_entity_version, enable_entity_version;
    by destruct (_ : option (list VersionKey)).
Qed.

Lemma contract_package_run p ops :
  let p' := foldl contract_package_op p ops in
  (cp_versions p', cp_disabled p') = foldl version_op (cp_versions p, cp_disabled p) ops.
Proof.
  revert p. induction ops as [|op ops IH]; intros p; cbn; [done|].
  rewrite IH. by destruct (contract_package_op_versions p op) as [-> _].
Qed.

(** C36: the versions of a contract package are an append-only history.  After any
    sequence of operations on a new package, with at most [u32::MAX] insertions for each
    major protocol version, version [v] of a major version is the [v]-th contract inserted
    for it; the current version is the greatest enabled one, and the current contract is
    the contract of that version.  When no contract was inserted twice, a version is
    enabled exactly when its contract has not been disabled since it was inserted or last
    enabled. *)
Theorem contract_package_history access groups status ops :
  (forall m, Z.of_nat (length (inserted m ops)) <= u_max 32) ->
  let p := foldl contract_package_op (mkContractPackage access [] [] groups status) ops in
  (forall m v, btree_get (m, v) (cp_versions p) = if 1 <=? v then inserted m ops !! Z.to_nat (v - 1) else None) /\
  (forall k, current_contract_version p = Some k <->
     cp_is_version_enabled p k = true /\ forall k', cp_is_version_enabled p k' = true -> ord_ltb k k' = false) /\
  current_contract_hash p = (k ← current_contract_version p; btree_get k (cp_versions p)) /\
  (NoDup (all_inserted ops) ->
   forall k h, btree_get k (cp_versions p) = Some h -> cp_is_version_enabled p k = negb (is_disabled h ops)).
Proof.
  intros Hl p. pose proof (contract_package_run (mkContractPackage access [] [] groups status) ops) as Hrun.
  fold p in Hrun. cbn in Hrun. pose proof (numbering_run ops Hl) as Hok. rewrite <- Hrun in Hok.
  destruct Hok as [[Hs Hg] Hsd]. cbn [fst snd] in *. split_and!.
  - exact Hg.
  - intros k. by apply current_version_spec.
  - by apply current_hash_version.
  - intros Hn k h Hh. pose proof (history_run ops Hn Hl) as Ho. rewrite <- Hrun in Ho.
    apply eq_true_iff_eq. unfold cp_is_version_enabled. rewrite is_version_enabled_spec by done.
    rewrite (ho_disabled _ _ Ho k h Hh), negb_true_iff, not_true_iff_false. naive_solver.
Qed.

(** *** Converting a contract package *)

Section convert.
Context {H H' : Type} {EH : EqDecision H} {EH' : EqDecision H'} (f : H -> H') {Hf : Inj (=) (=) f}.
Implicit Types versions : list (VersionKey * H).
Definition convert versions : list (VersionKey * H') := prod_map id f <$> versions.
Definition convert_op (op : VersionOp H) : VersionOp H' :=
  match op with Insert m h => Insert m (f h) | Disable h => Disable (f h) | Enable h => Enable (f h) end.

Lemma convert_keys versions : (convert versions).*1 = versions.*1.
Proof. induction versions as [|[] versions IH]; [done|]. cbn. f_equal. exact IH. Qed.
Lemma convert_get k versions : btree_get k (convert versions) = f <$> btree_get k versions.
Proof. induction versions as [|[k' h] versions IH]; cbn; [done|]. destruct (ord_ltb k k'), (ord_ltb k' k); done || exact IH. Qed.
Lemma convert_insert k h versions : btree_insert k (f h) (convert versions) = convert (btree_insert k h versions).
Proof.
  induction versions as [|[k' h'] versions IH]; cbn; [done|].
  destruct (ord_ltb k k'); [done|]. destruct (ord_ltb k' k); [|done]. cbn. f_equal. exact IH.
Qed.
Lemma convert_find versions h :
  find_version_key_by_hash (convert versions) (f h) = find_version_key_by_hash versions h.
Proof.
  induction versions as [|[k h'] versions IH]; cbn; [done|]. fold (convert versions). rewrite IH.
  destruct (decide (h' = h)) as [->|]; [by rewrite decide_True|]. rewrite decide_False; [done|]. by intros ?%(inj f).
Qed.

Lemma convert_version_op versions disabled op :
  version_op (convert versions, disabled) (convert_op op) =
  (convert (version_op (versions, disabled) op).1, (version_op (versions, disabled) op).2).
Proof.
  destruct op as [m h|h|h]; cbn; unfold insert_version, disable_version, enable_version, next_version_for; cbn.
  - by rewrite convert_keys, convert_insert.
  - by rewrite convert_find.
  - by rewrite convert_find.
Qed.

Lemma convert_enabled versions disabled k :
  is_version_enabled (convert versions) disabled k = is_version_enabled versions disabled k.
Proof. unfold is_version_enabled. rewrite convert_get. by destruct (btree_get k versions). Qed.
Lemma convert_sorted versions : btree_sorted versions -> btree_sorted (convert versions).
Proof.
  unfold btree_sorted, convert. induction 1 as [|p m Hs IH Hm]; cbn; constructor; [done|].
  apply Forall_fmap. eapply Forall_impl; [exact Hm|]. by intros x Hx.
Qed.
Lemma convert_enabled_versions versions disabled :
  btree_sorted versions -> enabled_versions (convert versions) disabled = convert (enabled_versions versions disabled).
Proof.
  intros Hs. rewrite !enabled_versions_filter by (done || by apply convert_sorted).
  assert (forall k, is_version_enabled (convert versions) disabled k = is_version_enabled versions disabled k) as E
    by apply convert_enabled.
  revert E. generalize (is_version_enabled (convert versions) disabled), (is_version_enabled versions disabled).
  intros P Q E. clear Hs. induction versions as [|[k h] versions IH]; [done|].
  cbn [convert fmap list_fmap]. rewrite !filter_cons. cbn. rewrite E. fold (convert versions). rewrite IH.
  destruct (Q k); [by rewrite !decide_True|by rewrite !decide_False].
Qed.

(** Collecting the converted entries of a [BTreeMap]. *)
Lemma collect_convert versions :
  btree_sorted versions ->
  foldl (fun acc kv => btree_insert kv.1 (f kv.2) acc) [] versions = convert versions.
Proof.
  intros Hs. rewrite <- (app_nil_l (convert versions)).
  assert (Forall (fun a : VersionKey * H' => Forall (fun b => ord_ltb a.1 b.1 = true) versions) []) as Ha by constructor.
  revert Ha. generalize (@nil (VersionKey * H')) as acc.
  unfold btree_sorted in Hs. induction Hs as [|[k h] versions Hs IH Hk]; intros acc Ha; cbn; [by rewrite app_nil_r|].
  rewrite btree_insert_last by (eapply Forall_impl; [exact Ha|]; by intros a [? ?]%Forall_cons).
  rewrite IH; [by rewrite <- app_assoc|]. apply Forall_app. split.
  - eapply Forall_impl; [exact Ha|]. by intros a [? ?]%Forall_cons.
  - repeat constructor. eapply Forall_impl; [exact Hk|]. by intros x Hx.
Qed.
End convert.

Lemma btree_set_collect {K} `{TotalOrdLaws K} (s : list K) : btree_set_sorted s -> btree_set_extend [] s = s.
Proof.
  intros Hs. unfold btree_set_extend. rewrite <- (app_nil_l s) at 2.
  assert (Forall (fun a : K => Forall (fun b => ord_ltb a b = true) s) []) as Ha by constructor.
  revert Ha. generalize (@nil K) as acc. unfold btree_set_sorted in Hs.
  induction Hs as [|k s Hs IH Hk]; intros acc Ha; cbn; [by rewrite app_nil_r|].
  rewrite btree_set_insert_last by (eapply Forall_impl; [exact Ha|]; by intros a [? ?]%Forall_cons).
  rewrite IH; [by rewrite <- app_assoc|]. apply Forall_app. split; [|by repeat constructor].
  eapply Forall_impl; [exact Ha|]. by intros a [? ?]%Forall_cons.
Qed.

#[local] Instance EA_SmartContract_inj : Inj (=) (=) EA_SmartContract.
Proof. by intros a b [= ->]. Qed.

Definition contract_package_ok (p : ContractPackage) : Prop :=
  btree_sorted (cp_versions p) /\ btree_set_sorted (cp_disabled p).
Lemma package_of_ok p : contract_package_ok p ->
  package_of_contract_package p =
  mkPackage (convert EA_SmartContract (cp_versions p)) (cp_disabled p) (cp_groups p) (cp_lock_status p).
Proof.
  intros [Hv Hd]. unfold package_of_contract_package. rewrite collect_convert, btree_set_collect by done.
  f_equal. by destruct (cp_lock_status p).
Qed.
Lemma contract_package_op_ok p op : contract_package_ok p -> contract_package_ok (contract_package_op p op).
Proof.
  intros [Hv Hd]. destruct (contract_package_op_versions p op) as [E _]. cbn in E. unfold contract_package_ok.
  replace (cp_versions (contract_package_op p op)) with (version_op (cp_versions p, cp_disabled p) op).1 by by rewrite <- E.
  replace (cp_disabled (contract_package_op p op)) with (version_op (cp_versions p, cp_disabled p) op).2 by by rewrite <- E.
  clear E. destruct op as [m h|h|h]; cbn.
  - split; [by apply btree_insert_sorted|done].
  - split; [done|]. unfold disable_version. destruct (find_version_key_by_hash _ _) as [k|]; [|done]. cbn.
    case_match; [done|]. by apply (btree_set_insert_spec k _ k).
  - split; [done|]. unfold enable_version. destruct (find_version_key_by_hash _ _) as [k|]; [|done]. cbn.
    by apply (btree_set_remove_spec k _ k).
Qed.

Lemma package_of_op p op : contract_package_ok p ->
  package_of_contract_package (contract_package_op p op) =
  package_op (package_of_contract_package p) (convert_op EA_SmartContract op).
Proof.
  intros Hp. rewrite !package_of_ok by (done || by apply contract_package_op_ok).
  destruct (contract_package_op_versions p op) as (E & Hg & Hl & _). rewrite Hg, Hl.
  match goal with |- _ = package_op ?q ?o => destruct (package_op_versions q o) as (E' & Hg' & Hl'); set (r := package_op q o) in * end.
  cbn [pkg_versions pkg_disabled pkg_groups pkg_lock_status] in E', Hg', Hl'. rewrite convert_version_op, <- E in E' by apply _.
  cbn [fst snd] in E'. injection E' as E1 E2. destruct r. cbn in *. by subst.
Qed.

(** Converting contract packages to packages is a simulation: operating on a
    contract package and converting it gives the same package as converting it
    first, and the current version and hash and the enabled versions are the same. *)
Theorem package_conversion p ops :
  contract_package_ok p ->
  let q := foldl contract_package_op p ops in
  package_of_contract_package q = foldl package_op (package_of_contract_package p) (convert_op EA_SmartContract <$> ops) /\
  (forall k, pkg_is_version_enabled (package_of_contract_package q) k = cp_is_version_enabled q k) /\
  current_entity_version (package_of_contract_package q) = current_contract_version q /\
  current_entity_hash (package_of_contract_package q) = EA_SmartContract <$> current_contract_hash q.
Proof.
  intros Hp q. assert (contract_package_ok q /\
    package_of_contract_package q = foldl package_op (package_of_contract_package p) (convert_op EA_SmartContract <$> ops)) as [Hq E].
  { unfold q. clear q. revert p Hp. induction ops as [|op ops IH]; intros p Hp; cbn [foldl fmap list_fmap]; [done|].
    destruct (IH _ (contract_package_op_ok p op Hp)) as [? ->]. by rewrite package_of_op. }
  split; [done|]. rewrite package_of_ok by done. destruct Hq as [Hv Hd]. split_and!.
  - intros k. apply convert_enabled.
  - unfold current_entity_version, current_contract_version, current_version. cbn [pkg_versions pkg_disabled].
    by rewrite convert_enabled_versions, convert_keys by done.
  - unfold current_entity_hash, current_contract_hash, current_hash. cbn [pkg_versions pkg_disabled].
    rewrite convert_enabled_versions by done. unfold convert.
    rewrite <- fmap_last. f_equal. by rewrite <- !list_fmap_compose.
Qed.

(** ** Examples *)

Definition hash32 (b : u8) : HashAddr := Vector.const b 32.
Definition example_ops : list (VersionOp HashAddr) :=
  [Insert 1 (hash32 Byte.x0a); Insert 1 (hash32 Byte.x0b); Insert 2 (hash32 Byte.x0c); Disable (hash32 Byte.x0c);
   Disable (hash32 Byte.x0b); Enable (hash32 Byte.x0b)].
Definition example_access : URef := mkURef (hash32 Byte.x00) READ_ADD_WRITE.

Lemma example_ops_distinct : NoDup (all_inserted example_ops).
Proof. apply (bool_decide_eq_true_1 _). vm_compute. reflexivity. Qed.
Lemma example_ops_few m : Z.of_nat (length (inserted m example_ops)) <= u_max 32.
Proof.
  transitivity (Z.of_nat (length example_ops)); [|by vm_compute].
  apply inj_le. unfold inserted. generalize example_ops as l. intros l.
  induction l as [|op l IH]; cbn; [done|]. case_match; cbn; lia.
Qed.
Lemma contract_package_history_witness :
  let p := foldl contract_package_op (mkContractPackage example_access [] [] [] Unlocked) example_ops in
  btree_get (2, 1) (cp_versions p) = Some (hash32 Byte.x0c) /\ cp_is_version_enabled p (2, 1) = false /\
  cp_is_version_enabled p (1, 2) = true.
Proof.
  destruct (contract_package_history example_access [] Unlocked example_ops example_ops_few)
    as (Hget & _ & _ & Henabled). specialize (Henabled example_ops_distinct).
  split_and!.
  - rewrite Hget. reflexivity.
  - rewrite (Henabled (2, 1) (hash32 Byte.x0c)); [vm_compute; reflexivity|]. rewrite Hget. reflexivity.
  - rewrite (Henabled (1, 2) (hash32 Byte.x0b)); [vm_compute; reflexivity|]. rewrite Hget. reflexivity.
Defined.

Lemma package_conversion_witness :
  let p := mkContractPackage example_access [] [] [] Locked in
  package_of_contract_package (foldl contract_package_op p example_ops) =
  foldl package_op (package_of_contract_package p) (convert_op EA_SmartContract <$> example_ops).
Proof. apply package_conversion. split; constructor. Defined.
