(* ===== verification/Bids.v ===== *)
(** * Vesting schedules and stakes

    Models [types/src/system/auction/bid/vesting.rs], the vesting schedule of
    founding validators, and the operations on a stake under such a schedule that
    the bids share: [decrease_stake], [increase_stake],
    [is_locked_with_vesting_schedule] and the loop body of
    [process_with_vesting_schedule]. *)
From S2P Require Import Prelude BTree Bytesrepr Struct Digest Uint Units PublicKey Access CLType Account Key.

Open Scope Z_scope.

Inductive AuctionError : Type :=
| AE_MissingKey | InvalidKeyVariant | MissingValue | AE_Serialization | TransferToBidPurse | InvalidAmount | BidNotFound
| ValidatorNotFound | DelegatorNotFound | AE_Storage | Bonding | Unbonding | ReleaseFounderStake | AE_GetBalance
| AE_InvalidContext | ValidatorFundsLocked | AE_InvalidCaller | InvalidPublicKey | BondNotFound | CreatePurseFailed
| UnbondTooLarge | BondTooSmall | MissingDelegations | MismatchedEraValidators | MintReward | InvalidValidatorSlotsValue
| MintReduceTotalSupply | TransferToDelegatorPurse | ValidatorRewardTransfer | DelegatorRewardTransfer
| WithdrawDelegatorReward | WithdrawValidatorReward | TransferToUnbondingPurse | RecordEraInfo | AE_CLValue
| MissingSeigniorageRecipients | AE_Transfer | DelegationRateTooLarge | DelegatorFundsLocked | AE_ArithmeticOverflow
| AE_GasLimit | RuntimeStackOverflow | AE_MintError | ExceededDelegatorSizeLimit | GlobalDelegatorCapacityReached
| DelegationAmountTooSmall | RuntimeStack | AuctionBidsDisabled | GetAccumulationPurse | TransferToAdministrator
| AE_ForgedReference | MissingPurse | ValidatorBidExistsAlready | BridgeRecordChainTooLong | UnexpectedBidVariant
| DelegationAmountTooLarge | ReservationNotFound | ExceededReservationSlotsLimit | ExceededReservationsLimit
| ReservationSlotsCountTooSmall | UnexpectedUnbondVariant | UnexpectedStoredValueVariant
| RedelegationValidatorNotFound | VestingLockout | DelegationRateTooSmall.
#[global] Instance AuctionError_eq_dec : EqDecision AuctionError.
Proof. solve_decision. Defined.

(** ** Vesting schedules *)

Definition DAY_MILLIS : Z := 24 * 60 * 60 * 1000.
Definition DAYS_IN_WEEK : Z := 7.
Definition WEEK_MILLIS : Z := DAYS_IN_WEEK * DAY_MILLIS.
Definition VESTING_SCHEDULE_LENGTH_DAYS : Z := 91.
Definition VESTING_SCHEDULE_LENGTH_MILLIS : Z := VESTING_SCHEDULE_LENGTH_DAYS * DAY_MILLIS.
(** [VESTING_SCHEDULE_LENGTH_DAYS / DAYS_IN_WEEK + 1] *)
Definition LOCKED_AMOUNTS_MAX_LENGTH : nat := 14.

Record VestingSchedule : Type := mkVestingSchedule {
  initial_release_timestamp_millis : Z;
  locked_amounts : option (vec Z LOCKED_AMOUNTS_MAX_LENGTH)
}.
Definition VestingSchedule_new (initial_release : Z) : VestingSchedule := mkVestingSchedule initial_release None.

Definition vesting_schedule_period_to_weeks (vesting_schedule_period_millis : Z) : nat :=
  Z.to_nat (vesting_schedule_period_millis / DAY_MILLIS / DAYS_IN_WEEK).

(** The loop over [locked_amounts.iter_mut().take(n)]. *)
Fixpoint fill_locked {E m} (amounts : vec Z m) (n : nat) (remaining_locked weekly_release : Z) : result E (vec Z m) :=
  match amounts with
  | [#] => Ok [#]
  | a ::: amounts =>
      match n with
      | O => Ok (a ::: amounts)
      | S n =>
          remaining_locked ← expect (checked_sub 512 remaining_locked weekly_release);
          amounts ← fill_locked amounts n remaining_locked weekly_release;
          Ok (remaining_locked ::: amounts)
      end
  end.
Definition zero_amounts : vec Z LOCKED_AMOUNTS_MAX_LENGTH := Vector.const 0 LOCKED_AMOUNTS_MAX_LENGTH.
(** The schedule and whether it has been initialized by this call. *)
Definition initialize_with_schedule {E} (s : VestingSchedule) (staked_amount vesting_schedule_period_millis : Z) :
    result E (VestingSchedule * bool) :=
  match locked_amounts s with
  | Some _ => Ok (s, false)
  | None =>
      let n := vesting_schedule_period_to_weeks vesting_schedule_period_millis in
      _ ← assert_that (Nat.ltb n LOCKED_AMOUNTS_MAX_LENGTH);
      if Nat.eqb n 0 || (vesting_schedule_period_millis =? 0)
      then Ok (mkVestingSchedule (initial_release_timestamp_millis s) (Some zero_amounts), true)
      else
        let release_period := Z.of_nat n + 1 in
        let weekly_release := staked_amount / release_period in
        amounts ← fill_locked zero_amounts n staked_amount weekly_release;
        _ ← assert_that (bool_decide (vec_to_list amounts !! n = Some 0));
        Ok (mkVestingSchedule (initial_release_timestamp_millis s) (Some amounts), true)
  end.
Definition initialize {E} (s : VestingSchedule) (staked_amount : Z) : result E (VestingSchedule * bool) :=
  initialize_with_schedule s staked_amount VESTING_SCHEDULE_LENGTH_MILLIS.

Definition locked_amount (s : VestingSchedule) (timestamp_millis : Z) : option Z :=
  amounts ← locked_amounts s;
  index_timestamp ← checked_sub 64 timestamp_millis (initial_release_timestamp_millis s);
  let index := index_timestamp / WEEK_MILLIS in
  Some (default 0 (vec_to_list amounts !! Z.to_nat index)).

(** [Iterator::position] of the first zero *)
Fixpoint position_zero (amounts : list Z) : option nat :=
  match amounts with
  | [] => None
  | a :: amounts => if a =? 0 then Some O else S <$> position_zero amounts
  end.
Definition is_vesting {E} (s : VestingSchedule) (timestamp_millis vesting_schedule_period_millis : Z) : result E bool :=
  vested_period ← match locked_amounts s with
    | Some amounts =>
        vesting_weeks ← expect (position_zero amounts);
        Ok (saturating_add 64 (initial_release_timestamp_millis s)
              (saturating_mul 64 (Z.of_nat vesting_weeks) WEEK_MILLIS))
    | None => Ok (saturating_add 64 (initial_release_timestamp_millis s) vesting_schedule_period_millis)
    end;
  Ok (timestamp_millis <? vested_period).

Definition locked_amounts_bytesrepr : Bytesrepr (vec Z LOCKED_AMOUNTS_MAX_LENGTH) :=
  fixed_array_bytesrepr (D := U512_bytesrepr) LOCKED_AMOUNTS_MAX_LENGTH.
#[global] Instance VestingSchedule_bytesrepr : Bytesrepr VestingSchedule :=
  append_as [u64_field; field (option (vec Z LOCKED_AMOUNTS_MAX_LENGTH)) (D := option_bytesrepr (H := locked_amounts_bytesrepr))]
    (fun s => (initial_release_timestamp_millis s, (locked_amounts s, ())))
    (fun t => mkVestingSchedule t.1 t.2.1).
#[local] Instance locked_amounts_spec : BytesreprSpec (vec Z LOCKED_AMOUNTS_MAX_LENGTH) locked_amounts_bytesrepr :=
  fixed_array_spec LOCKED_AMOUNTS_MAX_LENGTH.
#[global] Instance VestingSchedule_spec : BytesreprSpec VestingSchedule VestingSchedule_bytesrepr.
Proof. apply append_as_spec; [apply _|by intros []|by intros (? & ? & [])]. Defined.

(** ** Stakes *)

(** The body shared by the four [decrease_stake]; validators and delegators
    report different errors. *)
Definition decrease_stake (too_large funds_locked : AuctionError) (staked_amount : Z)
    (vesting_schedule : option VestingSchedule) (amount era_end_timestamp_millis : Z) : result AuctionError Z :=
  updated_staked_amount ← ok_or (checked_sub 512 staked_amount amount) too_large;
  match vesting_schedule with
  | None => Ok updated_staked_amount
  | Some vesting_schedule =>
      match locked_amount vesting_schedule era_end_timestamp_millis with
      | Some locked_amount => if updated_staked_amount <? locked_amount then Err funds_locked else Ok updated_staked_amount
      | None => Err funds_locked
      end
  end.
Definition increase_stake (staked_amount amount : Z) : result AuctionError Z :=
  ok_or (checked_add 512 staked_amount amount) InvalidAmount.
Definition is_locked_with_vesting_schedule {E} (vesting_schedule : option VestingSchedule)
    (timestamp_millis vesting_schedule_period_millis : Z) : result E bool :=
  match vesting_schedule with
  | Some s => is_vesting s timestamp_millis vesting_schedule_period_millis
  | None => Ok false
  end.
(** [process_with_vesting_schedule] of one record: initialize its schedule once
    the release timestamp has been reached. *)
Definition process_schedule {E} (vesting_schedule : option VestingSchedule) (staked_amount : Z)
    (timestamp_millis vesting_schedule_period_millis : Z) : result E (option VestingSchedule * bool) :=
  match vesting_schedule with
  | None => Ok (None, false)
  | Some s =>
      if timestamp_millis <? initial_release_timestamp_millis s then Ok (Some s, false)
      else '(s, b) ← initialize_with_schedule s staked_amount vesting_schedule_period_millis; Ok (Some s, b)
  end.

(** ** What a vesting schedule promises *)

Lemma fill_locked_spec {E m} (v : vec Z m) n rem weekly :
  0 <= weekly -> Z.of_nat n * weekly <= rem -> rem < 2 ^ 512 -> (n <= m)%nat ->
  exists a, fill_locked (E:=E) v n rem weekly = Ok a /\
    forall i, vec_to_list a !! i =
      if decide (i < n)%nat then Some (rem - (Z.of_nat i + 1) * weekly) else vec_to_list v !! i.
Proof.
  intros Hw. revert n rem. induction v as [|x m v IH]; intros n rem Hn Hr Hm.
  - exists [#]. split; [done|]. intros i. rewrite decide_False by lia. done.
  - destruct n as [|n].
    + exists (x ::: v). split; [done|]. intros i. by rewrite decide_False by lia.
    + destruct (IH n (rem - weekly)) as (a & Ha & Hi); [nia|lia|lia|]. exists ((rem - weekly) ::: a). split.
      * cbn [fill_locked]. unfold checked_sub, checked. rewrite decide_True by (unfold in_u; nia).
        cbn [expect mbind result_bind]. by rewrite Ha.
      * intros [|i].
        { rewrite decide_True by lia. cbn. f_equal. lia. }
        cbn [vec_to_list lookup list_lookup]. rewrite Hi. destruct (decide (i < n)%nat).
        { rewrite decide_True by lia. f_equal. lia. }
        by rewrite decide_False by lia.
Qed.

(** The amount locked in week [week] of a schedule over [n] weeks. *)
Definition locked_in_week (staked : Z) (n : nat) (week : Z) : Z :=
  if week <? Z.of_nat n then staked - (week + 1) * (staked / (Z.of_nat n + 1)) else 0.

Lemma locked_in_week_bounds staked n week : 0 <= staked -> 0 <= week -> 0 <= locked_in_week staked n week <= staked.
Proof.
  intros Hs Hw. unfold locked_in_week. destruct (Z.ltb_spec week (Z.of_nat n)); [|lia].
  pose proof (Z.mul_div_le staked (Z.of_nat n + 1)). pose proof (Z.div_pos staked (Z.of_nat n + 1)). nia.
Qed.
Lemma locked_in_week_positive staked n week :
  0 < staked -> 0 <= week < Z.of_nat n -> 0 < locked_in_week staked n week.
Proof.
  intros Hs Hw. unfold locked_in_week. destruct (Z.ltb_spec week (Z.of_nat n)); [|lia].
  pose proof (Z.mul_div_le staked (Z.of_nat n + 1)). pose proof (Z.div_pos staked (Z.of_nat n + 1)).
  destruct (decide (staked / (Z.of_nat n + 1) = 0)) as [->|]; nia.
Qed.
Lemma locked_in_week_antitone staked n week week' :
  0 <= staked -> 0 <= week <= week' -> locked_in_week staked n week' <= locked_in_week staked n week.
Proof.
  intros Hs Hw. pose proof (locked_in_week_bounds staked n week Hs ltac:(lia)) as Hb.
  unfold locked_in_week in *. pose proof (Z.div_pos staked (Z.of_nat n + 1)).
  destruct (Z.ltb_spec week (Z.of_nat n)), (Z.ltb_spec week' (Z.of_nat n)); nia.
Qed.

(** The schedule that [initialize_with_schedule] writes. *)
Definition schedule_ok (s : VestingSchedule) (staked : Z) (n : nat) : Prop :=
  exists a, locked_amounts s = Some a /\ (n < LOCKED_AMOUNTS_MAX_LENGTH)%nat /\ 0 <= staked /\
    forall i, vec_to_list a !! i =
      if decide (i < LOCKED_AMOUNTS_MAX_LENGTH)%nat then Some (locked_in_week staked n (Z.of_nat i)) else None.

Lemma zero_amounts_lookup i :
  vec_to_list zero_amounts !! i = if decide (i < LOCKED_AMOUNTS_MAX_LENGTH)%nat then Some 0 else None.
Proof. unfold LOCKED_AMOUNTS_MAX_LENGTH. by do 15 (destruct i as [|i]; [done|]). Qed.

Lemma initialize_schedule_ok {E} s staked period :
  locked_amounts s = None -> in_u 512 staked ->
  let n := vesting_schedule_period_to_weeks period in
  (n < LOCKED_AMOUNTS_MAX_LENGTH)%nat ->
  exists s', initialize_with_schedule (E:=E) s staked period = Ok (s', true) /\
    initial_release_timestamp_millis s' = initial_release_timestamp_millis s /\ schedule_ok s' staked n.
Proof.
  intros Hnone [Hs0 Hs1] n Hn. unfold initialize_with_schedule. rewrite Hnone. fold n.
  rewrite (proj2 (Nat.ltb_lt _ _) Hn). cbn [assert_that mbind result_bind].
  destruct (Nat.eqb_spec n 0) as [E0|E0]; [|destruct (Z.eqb_spec period 0) as [Ep|Ep]]; cbn [orb].
  1-2: assert (n = O) as -> by (try done; unfold n; by rewrite Ep).
  1-2: eexists; split_and!; [done|done|]; exists zero_amounts; split_and!; [done|lia|done|];
    intros i; rewrite zero_amounts_lookup; case_decide; [|done]; f_equal; unfold locked_in_week;
    destruct (Z.ltb_spec (Z.of_nat i) (Z.of_nat 0)); lia.
  destruct (fill_locked_spec (E:=E) zero_amounts n staked (staked / (Z.of_nat n + 1))) as (a & Ha & Hi).
  { apply Z.div_pos; lia. }
  { pose proof (Z.mul_div_le staked (Z.of_nat n + 1) ltac:(lia)). pose proof (Z.div_pos staked (Z.of_nat n + 1) Hs0 ltac:(lia)). nia. }
  { done. }
  { unfold LOCKED_AMOUNTS_MAX_LENGTH in *. lia. }
  rewrite Ha. cbn [mbind result_bind].
  rewrite bool_decide_eq_true_2; [|rewrite Hi, decide_False, zero_amounts_lookup by lia; by rewrite decide_True].
  eexists. split_and!; [done|done|]. exists a. split_and!; [done|done|done|]. intros i. rewrite Hi, zero_amounts_lookup.
  unfold locked_in_week. repeat case_decide; destruct (Z.ltb_spec (Z.of_nat i) (Z.of_nat n)); try lia; done.
Qed.

Lemma locked_amount_ok s staked n t :
  schedule_ok s staked n -> in_u 64 t -> in_u 64 (initial_release_timestamp_millis s) ->
  locked_amount s t =
  if t <? initial_release_timestamp_millis s then None
  else Some (locked_in_week staked n ((t - initial_release_timestamp_millis s) / WEEK_MILLIS)).
Proof.
  intros (a & Ha & Hn & Hs & Hi) Ht Hr. unfold locked_amount. rewrite Ha. cbn [mbind option_bind].
  unfold checked_sub, checked, in_u in *. destruct (Z.ltb_spec t (initial_release_timestamp_millis s)).
  - rewrite decide_False by lia. done.
  - rewrite decide_True by lia. cbn [mbind option_bind]. f_equal.
    set (week := (t - initial_release_timestamp_millis s) / WEEK_MILLIS).
    assert (0 <= week) by (apply Z.div_pos; unfold WEEK_MILLIS, DAYS_IN_WEEK, DAY_MILLIS; lia).
    rewrite Hi, Z2Nat.id by done. case_decide; [done|].
    change (default 0 None) with 0. unfold locked_in_week. destruct (Z.ltb_spec week (Z.of_nat n)); [lia|done].
Qed.

Lemma position_zero_spec l n :
  (forall i, (i < n)%nat -> exists a, l !! i = Some a /\ a <> 0) -> l !! n = Some 0 -> position_zero l = Some n.
Proof.
  revert n. induction l as [|a l IH]; intros n Hlt Hn; [done|]. destruct n as [|n].
  - cbn in Hn. injection Hn as ->. done.
  - destruct (Hlt O) as (a' & [= <-] & Ha); [lia|]. cbn. destruct (Z.eqb_spec a 0); [done|].
    rewrite (IH n); [done| |done]. intros i Hi. apply (Hlt (S i)). lia.
Qed.

(** The number of weeks in which something is locked. *)
Lemma position_zero_ok s staked n a :
  schedule_ok s staked n -> locked_amounts s = Some a ->
  position_zero a = Some (if decide (staked = 0) then O else n).
Proof.
  intros (a' & Ha & Hn & Hs & Hi) E. rewrite E in Ha. injection Ha as <-.
  destruct (decide (staked = 0)) as [Hz|Hz]; apply position_zero_spec.
  - lia.
  - rewrite Hi, decide_True by (unfold LOCKED_AMOUNTS_MAX_LENGTH; lia). f_equal.
    pose proof (locked_in_week_bounds staked n (Z.of_nat 0)). lia.
  - intros i Hlt. rewrite Hi, decide_True by lia. eexists. split; [done|].
    pose proof (locked_in_week_positive staked n (Z.of_nat i)). lia.
  - rewrite Hi, decide_True by done. f_equal. unfold locked_in_week. by rewrite Z.ltb_irrefl.
Qed.

Lemma is_vesting_ok {E} s staked n t period :
  schedule_ok s staked n -> in_u 64 t -> 0 <= initial_release_timestamp_millis s ->
  initial_release_timestamp_millis s + Z.of_nat LOCKED_AMOUNTS_MAX_LENGTH * WEEK_MILLIS <= u_max 64 ->
  is_vesting (E:=E) s t period =
  Ok ((t <? initial_release_timestamp_millis s) ||
      (0 <? locked_in_week staked n ((t - initial_release_timestamp_millis s) / WEEK_MILLIS))).
Proof.
  intros Hok Ht H0 Hr. pose proof Hok as (a & Ha & Hn & Hs & _). unfold is_vesting. rewrite Ha.
  rewrite (position_zero_ok s staked n a Hok Ha). cbn [expect mbind result_bind]. f_equal.
  set (r := initial_release_timestamp_millis s) in *. set (k := if decide (staked = 0) then O else n).
  assert (0 < WEEK_MILLIS) by (unfold WEEK_MILLIS, DAYS_IN_WEEK, DAY_MILLIS; lia).
  assert (Z.of_nat k <= Z.of_nat LOCKED_AMOUNTS_MAX_LENGTH) by (unfold k; case_decide; lia).
  unfold saturating_mul, saturating_add. rewrite (Z.min_l (Z.of_nat k * WEEK_MILLIS)) by nia. rewrite Z.min_l by nia.
  destruct (Z.ltb_spec t r); cbn [orb]; [apply Z.ltb_lt; nia|].
  set (week := (t - r) / WEEK_MILLIS).
  assert (0 <= week) by (apply Z.div_pos; lia).
  assert (t < r + Z.of_nat k * WEEK_MILLIS <-> week < Z.of_nat k) as Hweek.
  { pose proof (Z.div_mod (t - r) WEEK_MILLIS). pose proof (Z.mod_pos_bound (t - r) WEEK_MILLIS). fold week in H3. nia. }
  assert (0 < locked_in_week staked n week <-> week < Z.of_nat k) as Hlock.
  { unfold k. case_decide as Hz.
    - pose proof (locked_in_week_bounds staked n week). lia.
    - split; [|intros; apply locked_in_week_positive; lia].
      unfold locked_in_week. destruct (Z.ltb_spec week (Z.of_nat n)); lia. }
  apply eq_true_iff_eq. rewrite !Z.ltb_lt. by rewrite Hweek, Hlock.
Qed.

(** C38: initializing a vesting schedule of fewer than 14 weeks succeeds, and the
    schedule releases the stake in equal weekly parts: in week [w] after the
    release timestamp [w + 1] of the [n + 1] parts have been released, and
    everything after [n] weeks.  Before the timestamp everything is locked; from
    then on [is_vesting] says, without panicking, exactly whether something is
    still locked. *)
Theorem vesting_schedule_correct (s : VestingSchedule) (staked period : Z) :
  let n := vesting_schedule_period_to_weeks period in
  let release := initial_release_timestamp_millis s in
  locked_amounts s = None -> in_u 512 staked -> (n < LOCKED_AMOUNTS_MAX_LENGTH)%nat ->
  0 <= release -> release + Z.of_nat LOCKED_AMOUNTS_MAX_LENGTH * WEEK_MILLIS <= u_max 64 ->
  exists s', initialize_with_schedule (E:=AuctionError) s staked period = Ok (s', true) /\
    forall t, in_u 64 t ->
      let locked := locked_in_week staked n ((t - release) / WEEK_MILLIS) in
      (t < release -> locked_amount s' t = None /\ is_vesting (E:=AuctionError) s' t period = Ok true) /\
      (release <= t -> locked_amount s' t = Some locked /\ is_vesting (E:=AuctionError) s' t period = Ok (0 <? locked)).
Proof.
  intros n release Hnone Hs Hn H0 Hr.
  destruct (initialize_schedule_ok (E:=AuctionError) s staked period Hnone Hs Hn) as (s' & Hi & Er & Hok).
  exists s'. split; [done|]. intros t Ht locked.
  assert (in_u 64 release) as Hu by (unfold in_u, u_max, WEEK_MILLIS, DAYS_IN_WEEK, DAY_MILLIS in *; lia).
  rewrite (locked_amount_ok s' staked n t), (is_vesting_ok s' staked n t) by (done || by rewrite Er).
  rewrite Er. fold release. fold locked.
  split; intros Hlt; destruct (Z.ltb_spec t release); try lia; done.
Qed.

(** The stake of one record over time: stakes change by the two operations, and
    time passes. *)
Inductive stake_step (s : VestingSchedule) : Z * Z -> Z * Z -> Prop :=
| stake_time staked t t' : t <= t' -> in_u 64 t' -> stake_step s (staked, t) (staked, t')
| stake_increase staked t amount staked' :
    0 <= amount -> increase_stake staked amount = Ok staked' -> stake_step s (staked, t) (staked', t)
| stake_decrease e1 e2 staked t amount staked' :
    0 <= amount -> decrease_stake e1 e2 staked (Some s) amount t = Ok staked' -> stake_step s (staked, t) (staked', t).

Definition stake_ok (s : VestingSchedule) (staked0 : Z) (n : nat) (st : Z * Z) : Prop :=
  in_u 64 st.2 /\ initial_release_timestamp_millis s <= st.2 /\ in_u 512 st.1 /\
  locked_in_week staked0 n ((st.2 - initial_release_timestamp_millis s) / WEEK_MILLIS) <= st.1.

Lemma stake_step_ok s staked0 n st st' :
  schedule_ok s staked0 n -> in_u 64 (initial_release_timestamp_millis s) ->
  stake_ok s staked0 n st -> stake_step s st st' -> stake_ok s staked0 n st'.
Proof.
  intros Hsch Hr (Ht & Hrt & Hu & Hl) Hstep. pose proof Hsch as (_ & _ & _ & Hs0 & _).
  destruct Hstep as [staked t t' Hle Ht'|staked t amount staked' Ha Hinc|e1 e2 staked t amount staked' Ha Hdec];
    cbn [fst snd] in *.
  - split_and!; [done|cbn; lia|done|]. cbn. etransitivity; [|exact Hl]. apply locked_in_week_antitone; [done|].
    split; [apply Z.div_pos; unfold WEEK_MILLIS, DAYS_IN_WEEK, DAY_MILLIS; lia|].
    apply Z.div_le_mono; [unfold WEEK_MILLIS, DAYS_IN_WEEK, DAY_MILLIS; lia|lia].
  - apply ok_or_Ok, checked_Some in Hinc as [-> Hin]. split_and!; try done. cbn. lia.
  - unfold decrease_stake in Hdec. apply bind_Ok in Hdec as (u & [-> Hin]%ok_or_Ok%checked_Some & Hdec).
    rewrite (locked_amount_ok s staked0 n) in Hdec by done.
    destruct (Z.ltb_spec t (initial_release_timestamp_millis s)); [lia|].
    destruct (Z.ltb_spec (staked - amount)
      (locked_in_week staked0 n ((t - initial_release_timestamp_millis s) / WEEK_MILLIS))); [done|].
    injection Hdec as <-. split_and!; try done; cbn; lia.
Qed.

(** C37: once the vesting schedule of a stake has been initialized, whatever
    increases and decreases follow, the stake covers what is locked at that time;
    and a decrease succeeds exactly when it leaves the locked amount, so that
    everything else can be withdrawn. *)
Theorem vested_stake_safe (s0 s : VestingSchedule) (period staked0 t0 staked t : Z) :
  let n := vesting_schedule_period_to_weeks period in
  let release := initial_release_timestamp_millis s0 in
  locked_amounts s0 = None -> in_u 512 staked0 -> (n < LOCKED_AMOUNTS_MAX_LENGTH)%nat ->
  in_u 64 release -> release <= t0 -> in_u 64 t0 ->
  initialize_with_schedule (E:=AuctionError) s0 staked0 period = Ok (s, true) ->
  rtc (stake_step s) (staked0, t0) (staked, t) ->
  exists locked, locked_amount s t = Some locked /\ 0 <= locked <= staked /\
    forall e1 e2 amount, 0 <= amount ->
      decrease_stake e1 e2 staked (Some s) amount t =
        if amount <=? staked - locked then Ok (staked - amount)
        else if amount <=? staked then Err e2 else Err e1.
Proof.
  intros n release Hnone Hs Hn Hr Hrt Ht0 Hinit Hrtc.
  destruct (initialize_schedule_ok (E:=AuctionError) s0 staked0 period Hnone Hs Hn) as (s' & Hi & Er & Hok).
  rewrite Hinit in Hi. injection Hi as <-. fold release in Er. rewrite <- Er in *. clear Hinit release s0 Hnone Er.
  assert (stake_ok s staked0 n (staked0, t0)) as Hst.
  { split_and!; try done. apply locked_in_week_bounds; [apply Hs|].
    apply Z.div_pos; cbn; unfold WEEK_MILLIS, DAYS_IN_WEEK, DAY_MILLIS; lia. }
  assert (stake_ok s staked0 n (staked, t)) as (Ht & Hrel & Hu & Hl).
  { clear -Hrtc Hok Hr Hst. remember (staked0, t0) as st0 eqn:E. clear E. remember (staked, t) as st1 eqn:E. clear E.
    induction Hrtc; [done|]. eauto using stake_step_ok. }
  cbn [fst snd] in *. set (locked := locked_in_week _ _ _) in *.
  assert (locked_amount s t = Some locked) as Hla.
  { rewrite (locked_amount_ok s staked0 n) by done. destruct (Z.ltb_spec t (initial_release_timestamp_millis s)); [lia|done]. }
  assert (0 <= locked).
  { apply locked_in_week_bounds; [apply Hs|]. apply Z.div_pos; unfold WEEK_MILLIS, DAYS_IN_WEEK, DAY_MILLIS; lia. }
  exists locked. split_and!; [done|done|done|]. intros e1 e2 amount Ha.
  unfold decrease_stake, checked_sub, checked. unfold in_u in Hu. case_decide as Hd; unfold in_u in Hd; cbn [ok_or mbind result_bind].
  - rewrite Hla. destruct (Z.ltb_spec (staked - amount) locked), (Z.leb_spec amount (staked - locked)); try lia; [|done].
    destruct (Z.leb_spec amount staked); [done|lia].
  - destruct (Z.leb_spec amount (staked - locked)), (Z.leb_spec amount staked); try lia; done.
Qed.

Definition example_schedule : VestingSchedule := VestingSchedule_new 1000.
Lemma vesting_schedule_correct_witness :
  exists s', initialize_with_schedule (E:=AuctionError) example_schedule 140 VESTING_SCHEDULE_LENGTH_MILLIS = Ok (s', true) /\
    locked_amount s' (1000 + WEEK_MILLIS) = Some 120.
Proof.
  destruct (vesting_schedule_correct example_schedule 140 VESTING_SCHEDULE_LENGTH_MILLIS) as (s' & Hi & Hs);
    [done|split; vm_compute; done|apply Nat.ltb_lt; vm_compute; done|done|vm_compute; done|].
  exists s'. split; [exact Hi|]. apply (Hs (1000 + WEEK_MILLIS)); [split; vm_compute; done|vm_compute; done].
Defined.
Definition example_vested : VestingSchedule :=
  match initialize_with_schedule (E:=AuctionError) example_schedule 140 VESTING_SCHEDULE_LENGTH_MILLIS with
  | Ok (s, _) => s
  | _ => example_schedule
  end.
Lemma vested_stake_safe_witness :
  exists locked, locked_amount example_vested (1000 + WEEK_MILLIS) = Some locked /\ 0 <= locked <= 125.
Proof.
  destruct (vested_stake_safe example_schedule example_vested VESTING_SCHEDULE_LENGTH_MILLIS 140 1000
    125 (1000 + WEEK_MILLIS)) as (locked & Hl & Hb & _).
  - done.
  - split; vm_compute; done.
  - apply Nat.ltb_lt. vm_compute. done.
  - split; vm_compute; done.
  - done.
  - split; vm_compute; done.
  - vm_compute. reflexivity.
  - eapply rtc_l; [apply (stake_time _ 140 1000 (1000 + WEEK_MILLIS)); [by vm_compute|split; by vm_compute]|].
    eapply rtc_l; [|apply rtc_refl].
    apply (stake_decrease _ UnbondTooLarge ValidatorFundsLocked 140 _ 15); [done|vm_compute; reflexivity].
  - exists locked. split; [exact Hl|exact Hb].
Defined.
