(* ===== verification/BidKinds.v ===== *)
(** * The records of the auction

    Models the bids of [types/src/system/auction]: [bid.rs], [delegator.rs],
    [delegator_kind.rs], [delegator_bid.rs], [validator_bid.rs],
    [validator_credit.rs], [reservation.rs], [bridge.rs], [unbond.rs],
    [withdraw_purse.rs], [unbonding_purse.rs], [bid_kind.rs], the rewards of an era
    ([era_info.rs]) and their recipients ([seigniorage_recipient.rs]), with their
    serialization and the migration of unbonding purses
    ([storage/src/system/protocol_upgrade.rs]). *)
From S2P Require Import Prelude BTree Bytesrepr Struct Digest Uint Units PublicKey Access CLType Account Key Bids.

Open Scope Z_scope.

(** ** The records of the auction *)

(** The loop of [SeigniorageRecipient::delegator_total_stake], and of [Bid::total_staked_amount]. *)
Definition checked_total (stakes : list Z) : option Z :=
  foldl (fun total stake => total ← total; checked_add 512 total stake) (Some 0) stakes.

Section records.
Context {C : Curves}.

(** A [DelegationRate] is a [u8]. *)
Abbreviation DelegationRate := Z.
Abbreviation vesting_field := (field (option VestingSchedule)).

Record Delegator : Type := mkDelegator {
  dl_public_key : PublicKey; dl_staked_amount : Z; dl_bonding_purse : URef; dl_validator : PublicKey;
  dl_vesting : option VestingSchedule
}.
#[global] Instance Delegator_bytesrepr : Bytesrepr Delegator :=
  mixed_as [field PublicKey; u512_field; field URef; field PublicKey; vesting_field]
    (fun d => (dl_public_key d, (dl_staked_amount d, (dl_bonding_purse d, (dl_validator d, (dl_vesting d, ()))))))
    (fun t => mkDelegator t.1 t.2.1 t.2.2.1 t.2.2.2.1 t.2.2.2.2.1).

Record Bid : Type := mkBid {
  bid_validator : PublicKey; bid_bonding_purse : URef; bid_staked_amount : Z; bid_delegation_rate : DelegationRate;
  bid_vesting : option VestingSchedule; bid_delegators : list (PublicKey * Delegator); bid_inactive : bool
}.
#[global] Instance Bid_bytesrepr : Bytesrepr Bid :=
  struct_as [field PublicKey; field URef; u512_field; byte_field; vesting_field; map_field PublicKey Delegator; field bool]
    (fun b => (bid_validator b, (bid_bonding_purse b, (bid_staked_amount b, (bid_delegation_rate b,
      (bid_vesting b, (bid_delegators b, (bid_inactive b, ()))))))))
    (fun t => mkBid t.1 t.2.1 t.2.2.1 t.2.2.2.1 t.2.2.2.2.1 t.2.2.2.2.2.1 t.2.2.2.2.2.2.1).
Definition bid_total_staked_amount (b : Bid) : result AuctionError Z :=
  ok_or (delegators_sum ← checked_total (dl_staked_amount <$> (bid_delegators b).*2);
         checked_add 512 delegators_sum (bid_staked_amount b)) InvalidAmount.
Definition bid_decrease_stake (b : Bid) (amount era_end : Z) : result AuctionError Bid :=
  staked ← decrease_stake UnbondTooLarge ValidatorFundsLocked (bid_staked_amount b) (bid_vesting b) amount era_end;
  Ok (mkBid (bid_validator b) (bid_bonding_purse b) staked (bid_delegation_rate b) (bid_vesting b) (bid_delegators b) (bid_inactive b)).
Definition bid_increase_stake (b : Bid) (amount : Z) : result AuctionError Bid :=
  staked ← increase_stake (bid_staked_amount b) amount;
  Ok (mkBid (bid_validator b) (bid_bonding_purse b) staked (bid_delegation_rate b) (bid_vesting b) (bid_delegators b) (bid_inactive b)).
(** The loop over the delegators in [process_with_vesting_schedule]. *)
Fixpoint process_delegators {E} (delegators : list (PublicKey * Delegator)) (timestamp period : Z) (initialized : bool) :
    result E (list (PublicKey * Delegator) * bool) :=
  match delegators with
  | [] => Ok ([], initialized)
  | (k, d) :: delegators =>
      '(v, b) ← process_schedule (dl_vesting d) (dl_staked_amount d) timestamp period;
      '(rest, initialized) ← process_delegators delegators timestamp period (initialized || b);
      Ok ((k, mkDelegator (dl_public_key d) (dl_staked_amount d) (dl_bonding_purse d) (dl_validator d) v) :: rest, initialized)
  end.
Definition bid_process {E} (b : Bid) (timestamp period : Z) : result E (Bid * bool) :=
  match bid_vesting b with
  | None => Ok (b, false)
  | Some v =>
      if timestamp <? initial_release_timestamp_millis v then Ok (b, false)
      else
        '(v, initialized) ← initialize_with_schedule v (bid_staked_amount b) period;
        '(ds, initialized) ← process_delegators (bid_delegators b) timestamp period initialized;
        Ok (mkBid (bid_validator b) (bid_bonding_purse b) (bid_staked_amount b) (bid_delegation_rate b) (Some v) ds (bid_inactive b), initialized)
  end.

Inductive DelegatorKind : Type := DK_PublicKey (k : PublicKey) | DK_Purse (addr : URefAddr).
#[global] Instance DelegatorKind_bytesrepr : Bytesrepr DelegatorKind :=
  mixed_enum_as [(Byte.x00, field PublicKey); (Byte.x01, field URefAddr)]
    (fun k => match k with DK_PublicKey k => inl k | DK_Purse a => inr (inl a) end)
    (fun v => match v with inl k => DK_PublicKey k | inr (inl a) => DK_Purse a | inr (inr v) => match v with end end).

Record DelegatorBid : Type := mkDelegatorBid {
  db_kind : DelegatorKind; db_staked_amount : Z; db_bonding_purse : URef; db_validator : PublicKey;
  db_vesting : option VestingSchedule
}.
#[global] Instance DelegatorBid_bytesrepr : Bytesrepr DelegatorBid :=
  mixed_as [field DelegatorKind; u512_field; field URef; field PublicKey; vesting_field]
    (fun d => (db_kind d, (db_staked_amount d, (db_bonding_purse d, (db_validator d, (db_vesting d, ()))))))
    (fun t => mkDelegatorBid t.1 t.2.1 t.2.2.1 t.2.2.2.1 t.2.2.2.2.1).
Definition delegator_decrease_stake (d : DelegatorBid) (amount era_end : Z) : result AuctionError DelegatorBid :=
  staked ← decrease_stake InvalidAmount DelegatorFundsLocked (db_staked_amount d) (db_vesting d) amount era_end;
  Ok (mkDelegatorBid (db_kind d) staked (db_bonding_purse d) (db_validator d) (db_vesting d)).
Definition delegator_increase_stake (d : DelegatorBid) (amount : Z) : result AuctionError DelegatorBid :=
  staked ← increase_stake (db_staked_amount d) amount;
  Ok (mkDelegatorBid (db_kind d) staked (db_bonding_purse d) (db_validator d) (db_vesting d)).
(** [From<Delegator>] *)
Definition delegator_bid_of (d : Delegator) : DelegatorBid :=
  mkDelegatorBid (DK_PublicKey (dl_public_key d)) (dl_staked_amount d) (dl_bonding_purse d) (dl_validator d) (dl_vesting d).

Record ValidatorBid : Type := mkValidatorBid {
  vb_validator : PublicKey; vb_bonding_purse : URef; vb_staked_amount : Z; vb_delegation_rate : DelegationRate;
  vb_vesting : option VestingSchedule; vb_inactive : bool; vb_minimum_delegation_amount : Z;
  vb_maximum_delegation_amount : Z; vb_reserved_slots : Z
}.
#[global] Instance ValidatorBid_bytesrepr : Bytesrepr ValidatorBid :=
  struct_as [field PublicKey; field URef; u512_field; byte_field; vesting_field; field bool; u64_field; u64_field; u32_field]
    (fun b => (vb_validator b, (vb_bonding_purse b, (vb_staked_amount b, (vb_delegation_rate b, (vb_vesting b,
      (vb_inactive b, (vb_minimum_delegation_amount b, (vb_maximum_delegation_amount b, (vb_reserved_slots b, ()))))))))))
    (fun t => mkValidatorBid t.1 t.2.1 t.2.2.1 t.2.2.2.1 t.2.2.2.2.1 t.2.2.2.2.2.1 t.2.2.2.2.2.2.1
      t.2.2.2.2.2.2.2.1 t.2.2.2.2.2.2.2.2.1).
Definition vb_with_stake (b : ValidatorBid) (staked : Z) : ValidatorBid :=
  mkValidatorBid (vb_validator b) (vb_bonding_purse b) staked (vb_delegation_rate b) (vb_vesting b) (vb_inactive b)
    (vb_minimum_delegation_amount b) (vb_maximum_delegation_amount b) (vb_reserved_slots b).
Definition validator_decrease_stake (b : ValidatorBid) (amount era_end : Z) : result AuctionError ValidatorBid :=
  staked ← decrease_stake UnbondTooLarge ValidatorFundsLocked (vb_staked_amount b) (vb_vesting b) amount era_end;
  Ok (vb_with_stake b staked).
Definition validator_increase_stake (b : ValidatorBid) (amount : Z) : result AuctionError ValidatorBid :=
  staked ← increase_stake (vb_staked_amount b) amount;
  Ok (vb_with_stake b staked).
(** [From<Bid>] *)
Definition validator_bid_of (b : Bid) : ValidatorBid :=
  mkValidatorBid (bid_validator b) (bid_bonding_purse b) (bid_staked_amount b) (bid_delegation_rate b) (bid_vesting b)
    (bid_inactive b) 0 (u_max 64) 0.

Record ValidatorCredit : Type := mkValidatorCredit { vc_validator : PublicKey; vc_era_id : EraId; vc_amount : Z }.
#[global] Instance ValidatorCredit_bytesrepr : Bytesrepr ValidatorCredit :=
  struct_as [field PublicKey; field EraId; u512_field]
    (fun c => (vc_validator c, (vc_era_id c, (vc_amount c, ())))) (fun t => mkValidatorCredit t.1 t.2.1 t.2.2.1).
(** The sum is computed and dropped; the credit and the returned amount stay. *)
Definition credit_increase (c : ValidatorCredit) (additional_amount : Z) : ValidatorCredit * Z :=
  let _ := saturating_add 512 (vc_amount c) additional_amount in
  (c, vc_amount c).

Record Reservation : Type := mkReservation {
  rs_kind : DelegatorKind; rs_validator : PublicKey; rs_delegation_rate : DelegationRate
}.
#[global] Instance Reservation_bytesrepr : Bytesrepr Reservation :=
  mixed_as [field DelegatorKind; field PublicKey; byte_field]
    (fun r => (rs_kind r, (rs_validator r, (rs_delegation_rate r, ())))) (fun t => mkReservation t.1 t.2.1 t.2.2.1).

Record Bridge : Type := mkBridge { br_old : PublicKey; br_new : PublicKey; br_era_id : EraId }.
#[global] Instance Bridge_bytesrepr : Bytesrepr Bridge :=
  struct_as [field PublicKey; field PublicKey; field EraId]
    (fun b => (br_old b, (br_new b, (br_era_id b, ())))) (fun t => mkBridge t.1 t.2.1 t.2.2.1).

Inductive UnbondKind : Type :=
| UK_Validator (k : PublicKey) | UK_DelegatedPublicKey (k : PublicKey) | UK_DelegatedPurse (addr : URefAddr).
#[global] Instance UnbondKind_bytesrepr : Bytesrepr UnbondKind :=
  mixed_enum_as [(Byte.x00, field PublicKey); (Byte.x01, field PublicKey); (Byte.x02, field URefAddr)]
    (fun k => match k with UK_Validator k => inl k | UK_DelegatedPublicKey k => inr (inl k) | UK_DelegatedPurse a => inr (inr (inl a)) end)
    (fun v => match v with inl k => UK_Validator k | inr (inl k) => UK_DelegatedPublicKey k | inr (inr (inl a)) => UK_DelegatedPurse a | inr (inr (inr v)) => match v with end end).
Definition maybe_public_key (k : UnbondKind) : option PublicKey :=
  match k with UK_Validator k | UK_DelegatedPublicKey k => Some k | UK_DelegatedPurse _ => None end.
Definition unbond_kind_is_validator (k : UnbondKind) : bool := match k with UK_Validator _ => true | _ => false end.

Record UnbondEra : Type := mkUnbondEra {
  ue_bonding_purse : URef; ue_era_of_creation : EraId; ue_amount : Z; ue_new_validator : option PublicKey
}.
#[global] Instance UnbondEra_size : SizeOf UnbondEra := false.
#[global] Instance UnbondEra_bytesrepr : Bytesrepr UnbondEra :=
  mixed_as [field URef; field EraId; u512_field; field (option PublicKey)]
    (fun u => (ue_bonding_purse u, (ue_era_of_creation u, (ue_amount u, (ue_new_validator u, ())))))
    (fun t => mkUnbondEra t.1 t.2.1 t.2.2.1 t.2.2.2.1).
Record Unbond : Type := mkUnbond { ub_validator : PublicKey; ub_kind : UnbondKind; ub_eras : list UnbondEra }.
#[global] Instance Unbond_bytesrepr : Bytesrepr Unbond :=
  mixed_as [field PublicKey; field UnbondKind; field (list UnbondEra)]
    (fun u => (ub_validator u, (ub_kind u, (ub_eras u, ())))) (fun t => mkUnbond t.1 t.2.1 t.2.2.1).
(** The loop of [expired]: the retained and the expired eras. *)
Definition era_expired (era_id : EraId) (unbonding_delay : Z) (era : UnbondEra) : bool :=
  saturating_add 64 (era_value (ue_era_of_creation era)) unbonding_delay <=? era_value era_id.
Definition expired (u : Unbond) (era_id : EraId) (unbonding_delay : Z) : Unbond * option (list UnbondEra) :=
  let '(retained, expired) :=
    foldl (fun '(retained, expired) era =>
      if era_expired era_id unbonding_delay era then (retained, expired ++ [era]) else (retained ++ [era], expired))
      ([], []) (ub_eras u) in
  (mkUnbond (ub_validator u) (ub_kind u) retained, match expired with [] => None | _ => Some expired end).

Record WithdrawPurse : Type := mkWithdrawPurse {
  wp_bonding_purse : URef; wp_validator : PublicKey; wp_unbonder : PublicKey; wp_era_of_creation : EraId; wp_amount : Z
}.
#[global] Instance WithdrawPurse_bytesrepr : Bytesrepr WithdrawPurse :=
  append_as [field URef; field PublicKey; field PublicKey; field EraId; u512_field]
    (fun w => (wp_bonding_purse w, (wp_validator w, (wp_unbonder w, (wp_era_of_creation w, (wp_amount w, ()))))))
    (fun t => mkWithdrawPurse t.1 t.2.1 t.2.2.1 t.2.2.2.1 t.2.2.2.2.1).
Record UnbondingPurse : Type := mkUnbondingPurse {
  up_bonding_purse : URef; up_validator : PublicKey; up_unbonder : PublicKey; up_era_of_creation : EraId; up_amount : Z;
  up_new_validator : option PublicKey
}.
#[global] Instance UnbondingPurse_bytesrepr : Bytesrepr UnbondingPurse :=
  mixed_as [field URef; field PublicKey; field PublicKey; field EraId; u512_field; field (option PublicKey)]
    (fun w => (up_bonding_purse w, (up_validator w, (up_unbonder w, (up_era_of_creation w, (up_amount w, (up_new_validator w, ())))))))
    (fun t => mkUnbondingPurse t.1 t.2.1 t.2.2.1 t.2.2.2.1 t.2.2.2.2.1 t.2.2.2.2.2.1).
(** [From<WithdrawPurse>] *)
Definition unbonding_purse_of (w : WithdrawPurse) : UnbondingPurse :=
  mkUnbondingPurse (wp_bonding_purse w) (wp_validator w) (wp_unbonder w) (wp_era_of_creation w) (wp_amount w) None.

(** The last of the greatest elements, as [Iterator::max_by] returns it. *)
Definition target_unbond_era (u : Unbond) : option UnbondEra :=
  foldl (fun best y =>
    match best with
    | None => Some y
    | Some x => Some (if era_value (ue_era_of_creation y) <? era_value (ue_era_of_creation x) then x else y)
    end) None (ub_eras u).
(** [From<DelegatorKind> for UnbondKind], and [DelegatorBid::unbond_kind] *)
Definition unbond_kind_of (k : DelegatorKind) : UnbondKind :=
  match k with DK_PublicKey k => UK_DelegatedPublicKey k | DK_Purse a => UK_DelegatedPurse a end.
Definition delegator_unbond_kind (d : DelegatorBid) : UnbondKind := unbond_kind_of (db_kind d).

Inductive BidKind : Type :=
| BK_Unified (b : Bid) | BK_Validator (b : ValidatorBid) | BK_Delegator (b : DelegatorBid) | BK_Bridge (b : Bridge)
| BK_Credit (c : ValidatorCredit) | BK_Reservation (r : Reservation) | BK_Unbond (u : Unbond).
#[global] Instance BidKind_bytesrepr : Bytesrepr BidKind :=
  mixed_enum_as [(Byte.x00, field Bid); (Byte.x01, field ValidatorBid); (Byte.x02, field DelegatorBid);
      (Byte.x03, field Bridge); (Byte.x04, field ValidatorCredit); (Byte.x05, field Reservation); (Byte.x06, field Unbond)]
    (fun k => match k with
      | BK_Unified b => inl b | BK_Validator b => inr (inl b) | BK_Delegator b => inr (inr (inl b))
      | BK_Bridge b => inr (inr (inr (inl b))) | BK_Credit c => inr (inr (inr (inr (inl c))))
      | BK_Reservation r => inr (inr (inr (inr (inr (inl r))))) | BK_Unbond u => inr (inr (inr (inr (inr (inr (inl u))))))
      end)
    (fun v => match v with
      | inl b => BK_Unified b | inr (inl b) => BK_Validator b | inr (inr (inl b)) => BK_Delegator b
      | inr (inr (inr (inl b))) => BK_Bridge b | inr (inr (inr (inr (inl c)))) => BK_Credit c
      | inr (inr (inr (inr (inr (inl r))))) => BK_Reservation r
      | inr (inr (inr (inr (inr (inr (inl u)))))) => BK_Unbond u
      | inr (inr (inr (inr (inr (inr (inr v)))))) => match v with end
      end).
Definition validator_public_key (k : BidKind) : PublicKey :=
  match k with
  | BK_Unified b => bid_validator b | BK_Validator b => vb_validator b | BK_Delegator b => db_validator b
  | BK_Bridge b => br_old b | BK_Credit c => vc_validator c | BK_Reservation r => rs_validator r
  | BK_Unbond u => ub_validator u
  end.
Definition new_validator_public_key (k : BidKind) : option PublicKey :=
  match k with BK_Bridge b => Some (br_new b) | _ => None end.
Definition bid_kind_staked_amount (k : BidKind) : option Z :=
  match k with
  | BK_Unified b => Some (bid_staked_amount b) | BK_Validator b => Some (vb_staked_amount b)
  | BK_Delegator b => Some (db_staked_amount b) | BK_Credit c => Some (vc_amount c)
  | BK_Bridge _ | BK_Reservation _ | BK_Unbond _ => None
  end.
Definition bid_kind_inactive (k : BidKind) : bool :=
  match k with
  | BK_Unified b => bid_inactive b | BK_Validator b => vb_inactive b
  | BK_Delegator b => db_staked_amount b =? 0 | BK_Credit c => vc_amount c =? 0
  | BK_Bridge _ | BK_Reservation _ | BK_Unbond _ => false
  end.
Definition bid_kind_delegator_kind (k : BidKind) : option DelegatorKind :=
  match k with
  | BK_Unbond u =>
      match ub_kind u with
      | UK_Validator _ => None
      | UK_DelegatedPublicKey k => Some (DK_PublicKey k)
      | UK_DelegatedPurse a => Some (DK_Purse a)
      end
  | BK_Delegator b => Some (db_kind b)
  | BK_Reservation r => Some (rs_kind r)
  | _ => None
  end.
Definition bid_kind_era_id (k : BidKind) : option EraId :=
  match k with BK_Bridge b => Some (br_era_id b) | BK_Credit c => Some (vc_era_id c) | _ => None end.

Section addresses.
(** [PublicKey::to_account_hash], over the hash function. *)
Context (blake2b : list u8 -> vec u8 32).
Definition to_account_hash (k : PublicKey) : AccountHash := from_public_key k blake2b.

Definition delegator_bid_addr (d : DelegatorBid) : BidAddr :=
  match db_kind d with
  | DK_PublicKey k => BA_DelegatedAccount (to_account_hash (db_validator d)) (to_account_hash k)
  | DK_Purse a => BA_DelegatedPurse (to_account_hash (db_validator d)) a
  end.
Definition unbond_kind_bid_addr (k : UnbondKind) (validator : PublicKey) : BidAddr :=
  match k with
  | UK_Validator k => BA_UnbondAccount (to_account_hash validator) (to_account_hash k)
  | UK_DelegatedPublicKey k => BA_DelegatedAccount (to_account_hash validator) (to_account_hash k)
  | UK_DelegatedPurse a => BA_DelegatedPurse (to_account_hash validator) a
  end.
Definition bid_addr (k : BidKind) : BidAddr :=
  match k with
  | BK_Unified b => BA_Unified (to_account_hash (bid_validator b))
  | BK_Validator b => BA_Validator (to_account_hash (vb_validator b))
  | BK_Delegator b =>
      let validator := to_account_hash (db_validator b) in
      match db_kind b with
      | DK_PublicKey k => BA_DelegatedAccount validator (to_account_hash k)
      | DK_Purse a => BA_DelegatedPurse validator a
      end
  | BK_Bridge b => BA_Validator (to_account_hash (br_old b))
  | BK_Credit c => BA_Credit (to_account_hash (vc_validator c)) (vc_era_id c)
  | BK_Reservation r =>
      let validator := to_account_hash (rs_validator r) in
      match rs_kind r with
      | DK_PublicKey k => BA_ReservedDelegationAccount validator (to_account_hash k)
      | DK_Purse a => BA_ReservedDelegationPurse validator a
      end
  | BK_Unbond u =>
      let validator := to_account_hash (ub_validator u) in
      match ub_kind u with
      | UK_Validator k | UK_DelegatedPublicKey k => BA_UnbondAccount validator (to_account_hash k)
      | UK_DelegatedPurse a => BA_UnbondPurse validator a
      end
  end.
End addresses.
End records.

(** ** Rewards and their recipients *)

Section rewards.
Context {C : Curves}.

(** [Ord] of [DelegatorKind], derived: public keys before purses. *)
Definition delegator_kind_sum (k : DelegatorKind) : PublicKey + URefAddr :=
  match k with DK_PublicKey k => inl k | DK_Purse a => inr a end.
#[global] Instance DelegatorKind_ord : TotalOrd DelegatorKind := ord_by delegator_kind_sum.

Inductive SeigniorageAllocation : Type :=
| SA_Validator (validator_public_key : PublicKey) (amount : Z)
| SA_Delegator (delegator_public_key validator_public_key : PublicKey) (amount : Z)
| SA_DelegatorKind (delegator_kind : DelegatorKind) (validator_public_key : PublicKey) (amount : Z).
Definition allocation_amount (a : SeigniorageAllocation) : Z :=
  match a with SA_Validator _ amount | SA_Delegator _ _ amount | SA_DelegatorKind _ _ amount => amount end.
#[global] Instance SeigniorageAllocation_size : SizeOf SeigniorageAllocation := false.
#[global] Instance SeigniorageAllocation_bytesrepr : Bytesrepr SeigniorageAllocation :=
  enum_as [(Byte.x00, fields [field PublicKey; u512_field]);
      (Byte.x01, fields [field PublicKey; field PublicKey; u512_field]);
      (Byte.x02, fields [field DelegatorKind; field PublicKey; u512_field])]
    (fun a => match a with
      | SA_Validator v n => inl (v, (n, ()))
      | SA_Delegator d v n => inr (inl (d, (v, (n, ()))))
      | SA_DelegatorKind d v n => inr (inr (inl (d, (v, (n, ())))))
      end)
    (fun v => match v with
      | inl t => SA_Validator t.1 t.2.1
      | inr (inl t) => SA_Delegator t.1 t.2.1 t.2.2.1
      | inr (inr (inl t)) => SA_DelegatorKind t.1 t.2.1 t.2.2.1
      | inr (inr (inr v)) => match v with end
      end).

Record EraInfo : Type := mkEraInfo { seigniorage_allocations : list SeigniorageAllocation }.
#[global] Instance EraInfo_bytesrepr : Bytesrepr EraInfo :=
  struct_as [field (list SeigniorageAllocation)] (fun e => (seigniorage_allocations e, ())) (fun t => mkEraInfo t.1).

Record SeigniorageRecipientV1 : Type := mkRecipientV1 {
  r1_stake : Z; r1_delegation_rate : Z; r1_delegator_stake : list (PublicKey * Z)
}.
Record SeigniorageRecipientV2 : Type := mkRecipientV2 {
  r2_stake : Z; r2_delegation_rate : Z; r2_delegator_stake : list (DelegatorKind * Z);
  r2_reservation_delegation_rates : list (DelegatorKind * Z)
}.
Abbreviation stakes_field K := (field (list (K * Z)) (D := btree_map_bytesrepr (H0 := U512_bytesrepr))).
Abbreviation rates_field K := (field (list (K * Z)) (D := btree_map_bytesrepr (H0 := uint_bytesrepr 1))).
#[global] Instance SeigniorageRecipientV1_bytesrepr : Bytesrepr SeigniorageRecipientV1 :=
  append_as [u512_field; byte_field; stakes_field PublicKey]
    (fun r => (r1_stake r, (r1_delegation_rate r, (r1_delegator_stake r, ())))) (fun t => mkRecipientV1 t.1 t.2.1 t.2.2.1).
#[global] Instance SeigniorageRecipientV2_bytesrepr : Bytesrepr SeigniorageRecipientV2 :=
  append_as [u512_field; byte_field; stakes_field DelegatorKind; rates_field DelegatorKind]
    (fun r => (r2_stake r, (r2_delegation_rate r, (r2_delegator_stake r, (r2_reservation_delegation_rates r, ())))))
    (fun t => mkRecipientV2 t.1 t.2.1 t.2.2.1 t.2.2.2.1).

Definition r1_delegator_total_stake (r : SeigniorageRecipientV1) : option Z := checked_total (r1_delegator_stake r).*2.
Definition r1_total_stake (r : SeigniorageRecipientV1) : option Z :=
  total ← r1_delegator_total_stake r; checked_add 512 total (r1_stake r).
Definition r2_delegator_total_stake (r : SeigniorageRecipientV2) : option Z := checked_total (r2_delegator_stake r).*2.
Definition r2_total_stake (r : SeigniorageRecipientV2) : option Z :=
  total ← r2_delegator_total_stake r; checked_add 512 total (r2_stake r).

(** [From<&Bid>] for either version, and [From<SeigniorageRecipientV1>] *)
Definition recipient_v1_of_bid (b : Bid) : SeigniorageRecipientV1 :=
  mkRecipientV1 (bid_staked_amount b) (bid_delegation_rate b)
    (btree_collect ((fun p : PublicKey * Delegator => (p.1, dl_staked_amount p.2)) <$> bid_delegators b)).
Definition recipient_v2_of_bid (b : Bid) : SeigniorageRecipientV2 :=
  mkRecipientV2 (bid_staked_amount b) (bid_delegation_rate b)
    (btree_collect ((fun p : PublicKey * Delegator => (DK_PublicKey p.1, dl_staked_amount p.2)) <$> bid_delegators b)) [].
Definition recipient_v2_of_v1 (r : SeigniorageRecipientV1) : SeigniorageRecipientV2 :=
  mkRecipientV2 (r1_stake r) (r1_delegation_rate r)
    (btree_collect ((fun p : PublicKey * Z => (DK_PublicKey p.1, p.2)) <$> r1_delegator_stake r)) [].

Inductive SeigniorageRecipient : Type := SR_V1 (r : SeigniorageRecipientV1) | SR_V2 (r : SeigniorageRecipientV2).
Definition recipient_stake (r : SeigniorageRecipient) : Z := match r with SR_V1 r => r1_stake r | SR_V2 r => r2_stake r end.
Definition recipient_total_stake (r : SeigniorageRecipient) : option Z :=
  match r with SR_V1 r => r1_total_stake r | SR_V2 r => r2_total_stake r end.
Definition recipient_delegator_stake (r : SeigniorageRecipient) : list (DelegatorKind * Z) :=
  match r with SR_V1 r => r2_delegator_stake (recipient_v2_of_v1 r) | SR_V2 r => r2_delegator_stake r end.

(** [Bid::from_non_unified] *)
Definition bid_of_non_unified (v : ValidatorBid) (delegators : list (DelegatorKind * DelegatorBid)) : Bid :=
  mkBid (vb_validator v) (vb_bonding_purse v) (vb_staked_amount v) (vb_delegation_rate v) (vb_vesting v)
    (foldl (fun m '(kind, bid) =>
      match kind with
      | DK_PublicKey pk =>
          btree_insert pk (mkDelegator pk (db_staked_amount bid) (db_bonding_purse bid) (db_validator bid) None) m
      | DK_Purse _ => m
      end) [] delegators)
    (vb_inactive v).
End rewards.

(** ** Serialization *)

Section laws.
Context {C : Curves} {LC : CurvesLaws C}.

#[global] Instance DelegatorKind_ord_laws : TotalOrdLaws DelegatorKind.
Proof. apply ord_by_laws. by intros [] [] [= ->]. Qed.
#[global] Instance Delegator_spec : BytesreprSpec Delegator Delegator_bytesrepr.
Proof. apply mixed_as_spec; [apply _|by intros []|by intros (? & ? & ? & ? & ? & [])]. Defined.
#[global] Instance Bid_spec : BytesreprSpec Bid Bid_bytesrepr.
Proof. apply struct_as_spec; [apply _|by intros []|by intros (? & ? & ? & ? & ? & ? & ? & [])]. Defined.
#[global] Instance DelegatorKind_spec : BytesreprSpec DelegatorKind DelegatorKind_bytesrepr.
Proof. apply mixed_enum_as_spec; [apply _|distinct_tags|by intros []|by intros [|[|[]]]]. Defined.
#[global] Instance DelegatorBid_spec : BytesreprSpec DelegatorBid DelegatorBid_bytesrepr.
Proof. apply mixed_as_spec; [apply _|by intros []|by intros (? & ? & ? & ? & ? & [])]. Defined.
#[global] Instance ValidatorBid_spec : BytesreprSpec ValidatorBid ValidatorBid_bytesrepr.
Proof. apply struct_as_spec; [apply _|by intros []|by intros (? & ? & ? & ? & ? & ? & ? & ? & ? & [])]. Defined.
#[global] Instance ValidatorCredit_spec : BytesreprSpec ValidatorCredit ValidatorCredit_bytesrepr.
Proof. apply struct_as_spec; [apply _|by intros []|by intros (? & ? & ? & [])]. Defined.
#[global] Instance Reservation_spec : BytesreprSpec Reservation Reservation_bytesrepr.
Proof. apply mixed_as_spec; [apply _|by intros []|by intros (? & ? & ? & [])]. Defined.
#[global] Instance Bridge_spec : BytesreprSpec Bridge Bridge_bytesrepr.
Proof. apply struct_as_spec; [apply _|by intros []|by intros (? & ? & ? & [])]. Defined.
#[global] Instance UnbondKind_spec : BytesreprSpec UnbondKind UnbondKind_bytesrepr.
Proof. apply mixed_enum_as_spec; [apply _|distinct_tags|by intros []|by intros [|[|[|[]]]]]. Defined.
#[global] Instance UnbondEra_spec : BytesreprSpec UnbondEra UnbondEra_bytesrepr.
Proof. apply mixed_as_spec; [apply _|by intros []|by intros (? & ? & ? & ? & [])]. Defined.
#[global] Instance Unbond_spec : BytesreprSpec Unbond Unbond_bytesrepr.
Proof. apply mixed_as_spec; [apply _|by intros []|by intros (? & ? & ? & [])]. Defined.
#[global] Instance WithdrawPurse_spec : BytesreprSpec WithdrawPurse WithdrawPurse_bytesrepr.
Proof. apply append_as_spec; [apply _|by intros []|by intros (? & ? & ? & ? & ? & [])]. Defined.
#[global] Instance UnbondingPurse_spec : BytesreprSpec UnbondingPurse UnbondingPurse_bytesrepr.
Proof. apply mixed_as_spec; [apply _|by intros []|by intros (? & ? & ? & ? & ? & ? & [])]. Defined.
#[global] Instance BidKind_spec : BytesreprSpec BidKind BidKind_bytesrepr.
Proof.
  apply mixed_enum_as_spec; [apply _|distinct_tags|by intros []|by intros [|[|[|[|[|[|[|[]]]]]]]]].
Defined.
#[global] Instance SeigniorageAllocation_spec : BytesreprSpec SeigniorageAllocation SeigniorageAllocation_bytesrepr.
Proof.
  apply enum_as_spec; [apply _|distinct_tags|by intros []|
    by intros [(? & ? & [])|[(? & ? & ? & [])|[(? & ? & ? & [])|[]]]]].
Defined.
#[global] Instance EraInfo_spec : BytesreprSpec EraInfo EraInfo_bytesrepr.
Proof. apply struct_as_spec; [apply _|by intros []|by intros (? & [])]. Defined.
#[global] Instance SeigniorageRecipientV1_spec : BytesreprSpec SeigniorageRecipientV1 SeigniorageRecipientV1_bytesrepr.
Proof. apply append_as_spec; [apply _|by intros []|by intros (? & ? & ? & [])]. Defined.
#[global] Instance SeigniorageRecipientV2_spec : BytesreprSpec SeigniorageRecipientV2 SeigniorageRecipientV2_bytesrepr.
Proof. apply append_as_spec; [apply _|by intros []|by intros (? & ? & ? & ? & [])]. Defined.

(** ** Operations that compare public keys *)

Definition unbond_is_validator (u : Unbond) : bool :=
  match maybe_public_key (ub_kind u) with
  | Some pk => bool_decide (pk = ub_validator u)
  | None => false
  end.
(** [EraInfo::select] *)
Definition allocation_for (public_key : PublicKey) (a : SeigniorageAllocation) : bool :=
  match a with
  | SA_Validator validator _ => bool_decide (public_key = validator)
  | SA_Delegator delegator _ _ => bool_decide (public_key = delegator)
  | SA_DelegatorKind (DK_PublicKey delegator) _ _ => bool_decide (public_key = delegator)
  | SA_DelegatorKind (DK_Purse _) _ _ => false
  end.
Definition select (e : EraInfo) (public_key : PublicKey) : list SeigniorageAllocation :=
  filter (allocation_for public_key) (seigniorage_allocations e).

Definition unbond_kind_from (validator unbonder : PublicKey) : UnbondKind :=
  if bool_decide (validator = unbonder) then UK_Validator validator else UK_DelegatedPublicKey unbonder.
(** [From<UnbondingPurse>] and [From<WithdrawPurse>]: neither keeps a validator to
    redelegate to. *)
Definition unbond_of_unbonding_purse (p : UnbondingPurse) : Unbond :=
  mkUnbond (up_validator p) (unbond_kind_from (up_validator p) (up_unbonder p))
    [mkUnbondEra (up_bonding_purse p) (up_era_of_creation p) (up_amount p) None].
Definition unbond_of_withdraw_purse (p : WithdrawPurse) : Unbond :=
  mkUnbond (wp_validator p) (unbond_kind_from (wp_validator p) (wp_unbonder p))
    [mkUnbondEra (wp_bonding_purse p) (wp_era_of_creation p) (wp_amount p) None].

(** ** The migration of unbonding purses

    The loop of [handle_unbonds_migration] over the purses of one record; the
    state is what is stored under [Key::BidAddr]. *)
Section migration.
Context (blake2b : list u8 -> vec u8 32).
Definition migrated_addr (p : UnbondingPurse) : BidAddr :=
  BA_UnbondAccount (to_account_hash blake2b (up_validator p)) (to_account_hash blake2b (up_unbonder p)).
Definition migrate_purse (bids : gmap BidAddr BidKind) (p : UnbondingPurse) : gmap BidAddr BidKind :=
  let unbond := unbond_of_unbonding_purse p in
  match ub_eras unbond with
  | [] => bids
  | _ => <[migrated_addr p := BK_Unbond unbond]> bids
  end.
Definition migrate_unbonding_purses (purses : list UnbondingPurse) (bids : gmap BidAddr BidKind) : gmap BidAddr BidKind :=
  foldl migrate_purse bids purses.
End migration.
End laws.

(** ** Stakes are counted alike by every representation of a bid *)

Lemma checked_total_spec (stakes : list Z) :
  Forall (in_u 512) stakes -> checked_total stakes = checked 512 (zsum stakes).
Proof. intros H. apply (checked_sum_from 512 0); [split; lia|done]. Qed.

Lemma sorted_kinds {V} `{C : Curves} (l : list (PublicKey * V)) :
  btree_sorted l -> btree_sorted ((fun p => (DK_PublicKey p.1, p.2)) <$> l).
Proof. by apply (btree_sorted_map DK_PublicKey). Qed.

Lemma checked_then_add w s x : 0 <= s -> 0 <= x -> (total ← checked w s; checked_add w total x) = checked w (s + x).
Proof.
  intros Hs Hx. destruct (checked w s) as [t|] eqn:E; cbn.
  - by apply checked_Some in E as [-> _].
  - apply checked_None in E. symmetry. apply checked_None. unfold in_u in *. lia.
Qed.

Section totals.
Context {C : Curves} {LC : CurvesLaws C}.

Definition stake_list (b : Bid) : list Z := dl_staked_amount <$> (bid_delegators b).*2.
(** The delegators of a bid, as the separate bids of the 2.x format. *)
Definition split_delegators (b : Bid) : list (DelegatorKind * DelegatorBid) :=
  (fun p : PublicKey * Delegator => (DK_PublicKey p.1, delegator_bid_of p.2)) <$> bid_delegators b.
Definition well_formed_bid (b : Bid) : Prop :=
  btree_sorted (bid_delegators b) /\ Forall (in_u 512) (stake_list b) /\ in_u 512 (bid_staked_amount b).

Lemma recipient_v1_stakes b : btree_sorted (bid_delegators b) ->
  r1_delegator_stake (recipient_v1_of_bid b) = (fun p : PublicKey * Delegator => (p.1, dl_staked_amount p.2)) <$> bid_delegators b.
Proof. intros Hs. apply btree_collect_sorted. by apply (btree_sorted_map id). Qed.
Lemma recipient_v2_stakes b : btree_sorted (bid_delegators b) ->
  r2_delegator_stake (recipient_v2_of_bid b) =
    (fun p : PublicKey * Delegator => (DK_PublicKey p.1, dl_staked_amount p.2)) <$> bid_delegators b.
Proof. intros Hs. apply btree_collect_sorted. by apply (btree_sorted_map DK_PublicKey). Qed.
Lemma non_unified_delegators b : btree_sorted (bid_delegators b) ->
  bid_delegators (bid_of_non_unified (validator_bid_of b) (split_delegators b)) =
    (fun p : PublicKey * Delegator =>
      (p.1, mkDelegator p.1 (dl_staked_amount p.2) (dl_bonding_purse p.2) (dl_validator p.2) None)) <$> bid_delegators b.
Proof.
  intros Hs. rewrite <- btree_collect_sorted by by apply (btree_sorted_map id). unfold btree_collect, split_delegators.
  cbn [bid_of_non_unified bid_delegators]. generalize (@nil (PublicKey * Delegator)).
  induction (bid_delegators b) as [|[k d] l IH]; intros acc; [done|]. cbn. apply IH.
  by apply StronglySorted_inv in Hs as [Hs _].
Qed.

(** Whichever representation of a bid the auction reads, the legacy record,
    either version of a seigniorage recipient, or the separate bids put together
    again, the stakes of the delegators and the total stake are the same, and the
    total is the exact sum, or an error if it does not fit in 512 bits. *)
Theorem recipients_agree (b : Bid) :
  well_formed_bid b ->
  let total := zsum (stake_list b) + bid_staked_amount b in
  let joined := bid_of_non_unified (validator_bid_of b) (split_delegators b) in
  recipient_v2_of_v1 (recipient_v1_of_bid b) = recipient_v2_of_bid b /\
  recipient_v1_of_bid joined = recipient_v1_of_bid b /\ recipient_v2_of_bid joined = recipient_v2_of_bid b /\
  recipient_total_stake (SR_V1 (recipient_v1_of_bid b)) = checked 512 total /\
  recipient_total_stake (SR_V2 (recipient_v2_of_bid b)) = checked 512 total /\
  bid_total_staked_amount b = ok_or (checked 512 total) InvalidAmount.
Proof.
  intros (Hs & Hl & Hb) total joined.
  assert (0 <= zsum (stake_list b)) by (apply zsum_nonneg; eapply Forall_impl; [exact Hl|by intros ? []]).
  assert (btree_sorted (bid_delegators joined)) as Hj.
  { unfold joined. rewrite non_unified_delegators by done. by apply (btree_sorted_map id). }
  split_and!.
  - unfold recipient_v2_of_v1. rewrite recipient_v1_stakes by done. unfold recipient_v2_of_bid. by rewrite <- list_fmap_compose.
  - unfold recipient_v1_of_bid at 1. unfold joined. rewrite non_unified_delegators by done. by rewrite <- list_fmap_compose.
  - unfold recipient_v2_of_bid at 1. unfold joined. rewrite non_unified_delegators by done. by rewrite <- list_fmap_compose.
  - cbn [recipient_total_stake]. unfold r1_total_stake, r1_delegator_total_stake. rewrite recipient_v1_stakes by done.
    rewrite <- list_fmap_compose. change (snd ∘ _) with (dl_staked_amount ∘ @snd PublicKey Delegator).
    rewrite list_fmap_compose, checked_total_spec by done. apply checked_then_add; [done|apply Hb].
  - cbn [recipient_total_stake]. unfold r2_total_stake, r2_delegator_total_stake. rewrite recipient_v2_stakes by done.
    rewrite <- list_fmap_compose. change (snd ∘ _) with (dl_staked_amount ∘ @snd PublicKey Delegator).
    rewrite list_fmap_compose, checked_total_spec by done. apply checked_then_add; [done|apply Hb].
  - unfold bid_total_staked_amount. rewrite checked_total_spec by done. f_equal. apply checked_then_add; [done|apply Hb].
Qed.
End totals.

(** ** Unbonding *)

Section unbonding.
Context {C : Curves} {LC : CurvesLaws C}.

Lemma expired_spec (u : Unbond) (era_id : EraId) (delay : Z) :
  let out := filter (fun era => era_expired era_id delay era = true) (ub_eras u) in
  expired u era_id delay =
    (mkUnbond (ub_validator u) (ub_kind u) (filter (fun era => era_expired era_id delay era = false) (ub_eras u)),
     match out with [] => None | _ => Some out end).
Proof.
  intros out. unfold expired.
  assert (forall l r o, foldl (fun '(retained, expired) era =>
      if era_expired era_id delay era then (retained, expired ++ [era]) else (retained ++ [era], expired)) (r, o) l =
    (r ++ filter (fun era => era_expired era_id delay era = false) l,
     o ++ filter (fun era => era_expired era_id delay era = true) l)) as Hf.
  { induction l as [|era l IH]; intros r o; cbn [foldl]; [by rewrite !app_nil_r|]. rewrite !filter_cons.
    destruct (era_expired era_id delay era); rewrite IH, <- app_assoc; repeat case_decide; done. }
  by rewrite Hf.
Qed.

(** The unbond after [expired] has been called in each of the given eras, and what
    was released, with the era of its release. *)
Fixpoint release (u : Unbond) (delay : Z) (eras : list EraId) : Unbond * list (EraId * UnbondEra) :=
  match eras with
  | [] => (u, [])
  | era_id :: eras =>
      let '(retained, out) := expired u era_id delay in
      let '(u, later) := release retained delay eras in
      (u, (pair era_id <$> default [] out) ++ later)
  end.

Lemma default_nonempty {A} (l : list A) : default [] (match l with [] => None | _ => Some l end) = l.
Proof. by destruct l. Qed.

Lemma release_parts (u : Unbond) (delay : Z) (eras : list EraId) :
  let '(u', out) := release u delay eras in
  out.*2 ++ ub_eras u' ≡ₚ ub_eras u /\ ub_validator u' = ub_validator u /\ ub_kind u' = ub_kind u /\
  (forall era_id part, (era_id, part) ∈ out ->
    exists before after, eras = before ++ era_id :: after /\ era_expired era_id delay part = true /\
      forall e, e ∈ before -> era_expired e delay part = false) /\
  (forall era_id part, era_id ∈ eras -> part ∈ ub_eras u' -> era_expired era_id delay part = false).
Proof.
  revert u. induction eras as [|era_id eras IH]; intros u; cbn [release].
  { split_and!; [done|done|done|..]; intros ?? ?; set_solver. }
  rewrite expired_spec. set (retained := mkUnbond _ _ _). set (out := filter (fun era => era_expired era_id delay era = true) (ub_eras u)).
  specialize (IH retained). destruct (release retained delay eras) as [u' later] eqn:E.
  destruct IH as (Hp & Hv & Hk & Hout & Hin). rewrite default_nonempty.
  assert (forall part, part ∈ later.*2 ++ ub_eras u' -> era_expired era_id delay part = false) as Hret.
  { intros part Hpart. rewrite Hp in Hpart. cbn in Hpart. by apply list_elem_of_filter in Hpart as [? _]. }
  split_and!; [|done|done|..].
  - rewrite fmap_app, <- list_fmap_compose. change (snd ∘ pair era_id) with (@id UnbondEra). rewrite list_fmap_id, <- app_assoc, Hp.
    cbn [ub_eras retained]. unfold out. clear. induction (ub_eras u) as [|part l IH]; [done|].
    rewrite !filter_cons. destruct (era_expired era_id delay part); repeat case_decide; try done; cbn; [by rewrite IH|].
    rewrite <- Permutation_middle. by rewrite IH.
  - intros e part [(? & [= -> ->] & Hpart)%list_elem_of_fmap|Hpart]%elem_of_app.
    + exists [], eras. unfold out in Hpart. apply list_elem_of_filter in Hpart as [? _]. split_and!; [done|done|set_solver].
    + destruct (Hout _ _ Hpart) as (before & after & -> & He & Hb). exists (era_id :: before), after.
      split_and!; [done|done|]. intros e' [->|He']%elem_of_cons; [|by apply Hb].
      apply Hret, elem_of_app. left. by apply (list_elem_of_fmap_2 snd) in Hpart.
  - intros e part [->|He]%elem_of_cons Hpart; [|by eapply Hin]. apply Hret, elem_of_app. by right.
Qed.

(** C39: processed in any eras, an unbond loses nothing and releases nothing twice:
    what was released and what is left are together what there was.  A part created in
    era [c] is due in era [c + delay], or in the last era there can be when that does not
    fit a [u64].  Every part is released in the first processed era that is not before the
    era it is due in, and what is left is due after all of them; so every part is released
    once such an era is processed. *)
Theorem unbonds_released_when_due (u : Unbond) (delay : Z) (eras : list EraId) :
  let due part := Z.min (era_value (ue_era_of_creation part) + delay) (2 ^ 64 - 1) in
  let '(u', out) := release u delay eras in
  out.*2 ++ ub_eras u' ≡ₚ ub_eras u /\ ub_validator u' = ub_validator u /\ ub_kind u' = ub_kind u /\
  (forall era_id part, (era_id, part) ∈ out ->
    exists before after, eras = before ++ era_id :: after /\ due part <= era_value era_id /\
      forall e, e ∈ before -> era_value e < due part) /\
  (forall era_id part, era_id ∈ eras -> part ∈ ub_eras u' -> era_value era_id < due part).
Proof.
  pose proof (release_parts u delay eras) as H. cbv zeta. destruct (release u delay eras) as [u' out].
  destruct H as (Hp & Hv & Hk & Hout & Hin). split_and!; [done|done|done|..].
  - intros e part (before & after & -> & He & Hb)%Hout. exists before, after. split_and!; [done|by apply Z.leb_le|].
    intros e' He'. by apply Z.leb_gt, Hb.
  - intros e part He Hpart. by apply Z.leb_gt, (Hin _ _ He Hpart).
Qed.
End unbonding.

Section migration_laws.
Context {C : Curves} {LC : CurvesLaws C} (blake2b : list u8 -> vec u8 32).

(** What the record of an unbond owes. *)
Definition unbond_total (k : BidKind) : Z :=
  match k with BK_Unbond u => zsum (ue_amount <$> ub_eras u) | _ => 0 end.

Lemma migrate_lookup purses bids a :
  migrate_unbonding_purses blake2b purses bids !! a =
    match last (filter (fun p => migrated_addr blake2b p = a) purses) with
    | Some p => Some (BK_Unbond (unbond_of_unbonding_purse p))
    | None => bids !! a
    end.
Proof.
  unfold migrate_unbonding_purses. revert bids. induction purses as [|p purses IH] using rev_ind; intros bids; [done|].
  rewrite foldl_app, filter_app. cbn [foldl]. unfold migrate_purse at 1. cbn [ub_eras unbond_of_unbonding_purse].
  rewrite filter_cons, filter_nil. destruct (decide (migrated_addr blake2b p = a)) as [->|Hne].
  - by rewrite last_snoc, lookup_insert_eq.
  - by rewrite app_nil_r, lookup_insert_ne, IH.
Qed.

(** After the purses of one record have been migrated, the bid record of a
    validator and an unbonder is the unbond made from the last of their purses alone,
    without the validator it was to be redelegated to.  So an earlier purse of the
    same validator and unbonder leaves no trace: what it owed is owed by no record. *)
Theorem migration_keeps_last_purse (purses : list UnbondingPurse) (p : UnbondingPurse) :
  let bids := migrate_unbonding_purses blake2b (purses ++ [p]) ∅ in
  bids !! migrated_addr blake2b p = Some (BK_Unbond (unbond_of_unbonding_purse p)) /\
  unbond_total (BK_Unbond (unbond_of_unbonding_purse p)) = up_amount p /\
  ue_new_validator <$> ub_eras (unbond_of_unbonding_purse p) = [None] /\
  ((forall q, q ∈ purses -> migrated_addr blake2b q = migrated_addr blake2b p) ->
    bids = {[ migrated_addr blake2b p := BK_Unbond (unbond_of_unbonding_purse p) ]}).
Proof.
  intros bids. unfold bids. split_and!.
  - rewrite migrate_lookup, filter_app, filter_cons, filter_nil, decide_True by done. by rewrite last_snoc.
  - cbn. lia.
  - done.
  - intros Hq. apply map_eq. intros a. rewrite migrate_lookup, filter_app, filter_cons, filter_nil, lookup_empty.
    destruct (decide (migrated_addr blake2b p = a)) as [<-|Hne]; [by rewrite last_snoc, lookup_singleton_eq|].
    rewrite app_nil_r, lookup_singleton_ne by done. destruct (last _) as [q|] eqn:El; [|done].
    apply last_Some_elem_of, list_elem_of_filter in El as [<- Hin]. destruct Hne. symmetry. by apply Hq.
Qed.

(** The address of an unbond by its kind and by its record: the former is the address
    of the delegation itself when the unbonder is a delegator. *)
Lemma unbond_kind_bid_addr_delegation (d : DelegatorBid) eras :
  let u := mkUnbond (db_validator d) (delegator_unbond_kind d) eras in
  unbond_kind_bid_addr blake2b (ub_kind u) (ub_validator u) = bid_addr blake2b (BK_Delegator d) /\
  unbond_kind_bid_addr blake2b (ub_kind u) (ub_validator u) <> bid_addr blake2b (BK_Unbond u).
Proof. by destruct d as [[] ? ? ? ?]. Qed.
(** Increasing a credit changes nothing. *)
Lemma credit_increase_ineffective (c : ValidatorCredit) amount : credit_increase c amount = (c, vc_amount c).
Proof. done. Qed.
End migration_laws.

(** ** Examples *)

Definition example_key (n : Z) : @PublicKey raw_curves := A_Ed25519 (raw_encoded 32) (raw_encoded 33) (vreplicate 32 (u8_of_Z n)).
Definition example_purse (n : Z) : URef := mkURef (vreplicate 32 (u8_of_Z n)) READ_ADD_WRITE.
Definition example_bid : Bid :=
  mkBid (example_key 1) (example_purse 1) 500 10 None
    [(example_key 2, mkDelegator (example_key 2) 300 (example_purse 2) (example_key 1) None);
     (example_key 3, mkDelegator (example_key 3) 200 (example_purse 3) (example_key 1) None)] false.
Lemma recipients_agree_witness :
  well_formed_bid example_bid /\ recipient_total_stake (SR_V2 (recipient_v2_of_bid example_bid)) = Some 1000.
Proof.
  assert (well_formed_bid example_bid) as H.
  { split_and!; [|repeat constructor; cbn; lia|done]. repeat constructor. }
  split; [exact H|]. apply (recipients_agree example_bid H).
Defined.

Definition purse_of_era (era amount : Z) : UnbondingPurse :=
  mkUnbondingPurse (example_purse 2) (example_key 1) (example_key 2) (mkEraId era) amount None.
Lemma migration_keeps_last_purse_witness :
  migrate_unbonding_purses (fun _ => vreplicate 32 Byte.x00) [purse_of_era 7 100; purse_of_era 8 25] ∅ =
    {[ migrated_addr (fun _ => vreplicate 32 Byte.x00) (purse_of_era 8 25) :=
       BK_Unbond (unbond_of_unbonding_purse (purse_of_era 8 25)) ]}.
Proof.
  apply (migration_keeps_last_purse (fun _ => vreplicate 32 Byte.x00) [purse_of_era 7 100] (purse_of_era 8 25)).
  intros q ->%list_elem_of_singleton. reflexivity.
Defined.

Lemma unbonds_released_when_due_witness :
  let u := mkUnbond (example_key 1) (UK_DelegatedPublicKey (example_key 2))
    [mkUnbondEra (example_purse 2) (mkEraId 3) 10 None; mkUnbondEra (example_purse 2) (mkEraId 5) 20 None] in
  let out := release u 7 [mkEraId 9; mkEraId 10; mkEraId 11] in
  out.2.*2 ++ ub_eras out.1 ≡ₚ ub_eras u /\ (fun p => (era_value p.1, ue_amount p.2)) <$> out.2 = [(10, 10)].
Proof.
  intros u out. split; [|vm_compute; reflexivity].
  pose proof (unbonds_released_when_due u 7 [mkEraId 9; mkEraId 10; mkEraId 11]) as H. cbv zeta in H.
  unfold out. destruct (release u 7 _). apply H.
Defined.
