(* ===== verification/Trie.v ===== *)
(** * Trie nodes, pointers and Merkle proofs of the global state

    Models [types/src/global_state/pointer.rs],
    [types/src/global_state/merkle_proof.rs] and
    [storage/src/global_state/trie/mod.rs]: the data types with their
    serialization, and the proof that it satisfies the laws of [Bytesrepr]. *)
From S2P Require Import Prelude BTree Bytesrepr Digest.

Open Scope Z_scope.

(** ** Pointers *)

Inductive Pointer : Type :=
| LeafPointer (d : Digest)
| NodePointer (d : Digest).

#[global] Instance Pointer_size : SizeOf Pointer := false.
#[global] Instance Pointer_eq_dec : EqDecision Pointer.
Proof. solve_decision. Defined.

Definition pointer_hash (p : Pointer) : Digest :=
  match p with LeafPointer h => h | NodePointer h => h end.
(** [Pointer::update] *)
Definition pointer_update (p : Pointer) (hash : Digest) : Pointer :=
  match p with LeafPointer _ => LeafPointer hash | NodePointer _ => NodePointer hash end.
Definition pointer_tag (p : Pointer) : u8 :=
  match p with LeafPointer _ => Byte.x00 | NodePointer _ => Byte.x01 end.

Definition pointer_write_bytes (p : Pointer) (writer : list u8) : result Error (list u8) :=
  Ok ((writer ++ [pointer_tag p]) ++ vec_to_list (pointer_hash p)).
Definition pointer_from_bytes (bytes : list u8) : result Error (Pointer * list u8) :=
  '(tag, rem) ← u8_from_bytes bytes;
  match tag with
  | Byte.x00 => '(hash, rem) ← array_from_bytes DIGEST_LENGTH rem; Ok (LeafPointer hash, rem)
  | Byte.x01 => '(hash, rem) ← array_from_bytes DIGEST_LENGTH rem; Ok (NodePointer hash, rem)
  | _ => Err Formatting
  end.
#[global] Instance Pointer_bytesrepr : Bytesrepr Pointer := {|
  to_bytes p := pointer_write_bytes p [];
  write_bytes := pointer_write_bytes;
  serialized_length _ := 1 + Z.of_nat DIGEST_LENGTH;
  from_bytes := pointer_from_bytes
|}.

(** ** Pointer blocks

    [PointerBlock] is an array of 256 optional pointers indexed by a byte: a
    partial map from bytes to pointers.  [block[i] = None] is deletion and
    [block[i] = Some(p)] insertion. *)

Definition RADIX : nat := 256.
Abbreviation PointerBlock := (gmap u8 Pointer).

(** The indices 0 to 255 in order. *)
Definition all_indices : list u8 := u8_of_nat <$> seq 0 RADIX.

Definition from_indexed_pointers (indexed_pointers : list (u8 * Pointer)) : PointerBlock :=
  foldl (fun ret '(idx, ptr) => <[idx := ptr]> ret) ∅ indexed_pointers.
Definition as_indexed_pointers (pb : PointerBlock) : list (u8 * Pointer) :=
  omap (fun index => (fun pointer => (index, pointer)) <$> pb !! index) all_indices.
Definition child_count (pb : PointerBlock) : nat := length (as_indexed_pointers pb).

(** The array as the list of its 256 entries. *)
Definition block_entries (pb : PointerBlock) : list (option Pointer) :=
  (fun i => pb !! i) <$> all_indices.

Definition block_to_bytes (pb : PointerBlock) : result Error (list u8) :=
  buf ← allocate_buffer (items_length (block_entries pb));
  append_items buf (block_entries pb).
(** [for i in 0..RADIX { .. }] of [PointerBlock::from_bytes] *)
Fixpoint block_read (indices : list u8) (result : PointerBlock) (bytes : list u8) :
    Prelude.result Error (PointerBlock * list u8) :=
  match indices with
  | [] => Ok (result, bytes)
  | i :: indices =>
      '(t, remainder) ← from_bytes (T:=option Pointer) bytes;
      block_read indices (partial_alter (fun _ => t) i result) remainder
  end.
#[global] Instance PointerBlock_bytesrepr : Bytesrepr PointerBlock := {|
  to_bytes := block_to_bytes;
  write_bytes pb writer := write_items writer (block_entries pb);
  serialized_length pb := items_length (block_entries pb);
  from_bytes := block_read all_indices ∅
|}.

Arguments all_indices : simpl never.
Arguments block_entries : simpl never.

(** ** Tries *)

Inductive TrieTag : Type := TagLeaf | TagNode | TagExtension.
Definition TrieTag_to_u8 (t : TrieTag) : u8 :=
  match t with TagLeaf => Byte.x00 | TagNode => Byte.x01 | TagExtension => Byte.x02 end.
Definition TrieTag_from_u8 (b : u8) : option TrieTag :=
  match b with
  | Byte.x00 => Some TagLeaf
  | Byte.x01 => Some TagNode
  | Byte.x02 => Some TagExtension
  | _ => None
  end.

Inductive Trie (K V : Type) : Type :=
| Leaf (key : K) (value : V)
| Node (pointer_block : PointerBlock)
| Extension (affix : list u8) (pointer : Pointer).
Arguments Leaf {K V} key value.
Arguments Node {K V} pointer_block.
Arguments Extension {K V} affix pointer.

(** Like [Trie], with the leaf still in serialized form (tag included). *)
Inductive LazilyDeserializedTrie : Type :=
| LazyLeaf (leaf_bytes : list u8)
| LazyNode (pointer_block : PointerBlock)
| LazyExtension (affix : list u8) (pointer : Pointer).

Section trie.
Context {K V : Type} {DK : Bytesrepr K} {DV : Bytesrepr V}.

Definition trie_tag (t : Trie K V) : TrieTag :=
  match t with Leaf _ _ => TagLeaf | Node _ => TagNode | Extension _ _ => TagExtension end.

(** [Trie::node] and [Trie::key] *)
Definition trie_node (indexed_pointers : list (u8 * Pointer)) : Trie K V :=
  Node (from_indexed_pointers indexed_pointers).
Definition trie_key (t : Trie K V) : option K :=
  match t with Leaf key _ => Some key | _ => None end.

Definition trie_serialized_length (t : Trie K V) : Z :=
  1 + match t with
      | Leaf key value => serialized_length key + serialized_length value
      | Node pb => serialized_length pb
      | Extension affix pointer => serialized_length (mkBytes affix) + serialized_length pointer
      end.
Definition trie_write_bytes (t : Trie K V) (writer : list u8) : result Error (list u8) :=
  let writer := writer ++ [TrieTag_to_u8 (trie_tag t)] in
  match t with
  | Leaf key value => writer ← write_bytes key writer; write_bytes value writer
  | Node pb => write_bytes pb writer
  | Extension affix pointer =>
      writer ← write_bytes (mkBytes affix) writer; write_bytes pointer writer
  end.
Definition trie_to_bytes (t : Trie K V) : result Error (list u8) :=
  ret ← allocate_buffer (trie_serialized_length t);
  trie_write_bytes t ret.
Definition trie_from_bytes (bytes : list u8) : result Error (Trie K V * list u8) :=
  '(tag_byte, rem) ← u8_from_bytes bytes;
  tag ← ok_or (TrieTag_from_u8 tag_byte) Formatting;
  match tag with
  | TagLeaf =>
      '(key, rem) ← from_bytes rem;
      '(value, rem) ← from_bytes rem;
      Ok (Leaf key value, rem)
  | TagNode => '(pb, rem) ← from_bytes rem; Ok (Node pb, rem)
  | TagExtension =>
      '(affix, rem) ← from_bytes (T:=Bytes) rem;
      '(pointer, rem) ← from_bytes rem;
      Ok (Extension (inner_bytes affix) pointer, rem)
  end.
#[global] Instance Trie_bytesrepr : Bytesrepr (Trie K V) := {|
  to_bytes := trie_to_bytes;
  write_bytes := trie_write_bytes;
  serialized_length := trie_serialized_length;
  from_bytes := trie_from_bytes
|}.

(** [impl FromBytes for LazilyDeserializedTrie] *)
Definition lazy_from_bytes (bytes : list u8) :
    result Error (LazilyDeserializedTrie * list u8) :=
  '(tag_byte, rem) ← u8_from_bytes bytes;
  tag ← ok_or (TrieTag_from_u8 tag_byte) Formatting;
  match tag with
  | TagLeaf => Ok (LazyLeaf bytes, [])
  | TagNode => '(pb, rem) ← from_bytes rem; Ok (LazyNode pb, rem)
  | TagExtension =>
      '(affix, rem) ← from_bytes (T:=Bytes) rem;
      '(pointer, rem) ← from_bytes rem;
      Ok (LazyExtension (inner_bytes affix) pointer, rem)
  end.
(** [bytesrepr::deserialize_from_slice::<_, LazilyDeserializedTrie>] *)
Definition lazy_deserialize (bytes : list u8) : result Error LazilyDeserializedTrie :=
  '(t, remainder) ← lazy_from_bytes bytes;
  match remainder with [] => Ok t | _ => Err LeftOverBytes end.

(** [TrieLeafBytes::try_deserialize_leaf_key] *)
Definition try_deserialize_leaf_key (leaf_bytes : list u8) : result Error (K * list u8) :=
  '(tag_byte, rem) ← u8_from_bytes leaf_bytes;
  tag ← ok_or (TrieTag_from_u8 tag_byte) Formatting;
  match tag with
  | TagLeaf => from_bytes rem
  | _ => Panic
  end.

(** [impl TryFrom<LazilyDeserializedTrie> for Trie] *)
Definition trie_try_from_lazy (t : LazilyDeserializedTrie) : result Error (Trie K V) :=
  match t with
  | LazyLeaf leaf_bytes =>
      '(key, value_bytes) ← try_deserialize_leaf_key leaf_bytes;
      value ← deserialize_from_slice value_bytes;
      Ok (Leaf key value)
  | LazyNode pb => Ok (Node pb)
  | LazyExtension affix pointer => Ok (Extension affix pointer)
  end.
(** [impl TryFrom<Trie> for LazilyDeserializedTrie] *)
Definition lazy_try_from_trie (t : Trie K V) : result Error LazilyDeserializedTrie :=
  match t with
  | Leaf _ _ => b ← trie_to_bytes t; Ok (LazyLeaf b)
  | Node pb => Ok (LazyNode pb)
  | Extension affix pointer => Ok (LazyExtension affix pointer)
  end.

(** [iter_children]: the hashes of the children. *)
Definition iter_children (t : Trie K V) : list Digest :=
  match t with
  | Leaf _ _ => []
  | Node pb => pointer_hash <$> omap id (block_entries pb)
  | Extension _ pointer => [pointer_hash pointer]
  end.
End trie.

(** ** Merkle proofs of the trie *)

Inductive TrieMerkleProofStep : Type :=
| StepNode (hole_index : u8) (indexed_pointers_with_hole : list (u8 * Pointer))
| StepExtension (affix : list u8).
#[global] Instance TrieMerkleProofStep_size : SizeOf TrieMerkleProofStep := false.

Definition step_length (s : TrieMerkleProofStep) : Z :=
  1 + match s with
      | StepNode hole_index ips => serialized_length hole_index + serialized_length ips
      | StepExtension affix => serialized_length (mkBytes affix)
      end.
Definition step_to_bytes (s : TrieMerkleProofStep) : result Error (list u8) :=
  ret ← allocate_buffer (step_length s);
  match s with
  | StepNode hole_index ips =>
      b ← to_bytes ips; Ok (ret ++ [Byte.x00] ++ [hole_index] ++ b)
  | StepExtension affix =>
      b ← to_bytes (mkBytes affix); Ok (ret ++ [Byte.x01] ++ b)
  end.
Definition step_from_bytes (bytes : list u8) : result Error (TrieMerkleProofStep * list u8) :=
  '(tag, rem) ← u8_from_bytes bytes;
  match tag with
  | Byte.x00 =>
      '(hole_index, rem) ← u8_from_bytes rem;
      '(ips, rem) ← from_bytes (T:=list (u8 * Pointer)) rem;
      Ok (StepNode hole_index ips, rem)
  | Byte.x01 =>
      '(affix, rem) ← from_bytes (T:=Bytes) rem;
      Ok (StepExtension (inner_bytes affix), rem)
  | _ => Err Formatting
  end.
#[global] Instance step_bytesrepr : Bytesrepr TrieMerkleProofStep := {|
  to_bytes := step_to_bytes;
  write_bytes := default_write_bytes step_to_bytes;
  serialized_length := step_length;
  from_bytes := step_from_bytes
|}.

Record TrieMerkleProof (K V : Type) : Type := mkTrieMerkleProof {
  proof_key : K;
  proof_value : V;
  proof_steps : list TrieMerkleProofStep
}.
Arguments mkTrieMerkleProof {K V} _ _ _.
Arguments proof_key {K V} _.
Arguments proof_value {K V} _.
Arguments proof_steps {K V} _.

Section trie_proof.
Context {K V : Type} {DK : Bytesrepr K} {DV : Bytesrepr V}.
Definition trie_proof_length (p : TrieMerkleProof K V) : Z :=
  serialized_length (proof_key p) + serialized_length (proof_value p)
  + iterator_serialized_length (proof_steps p).
Definition trie_proof_to_bytes (p : TrieMerkleProof K V) : result Error (list u8) :=
  ret ← allocate_buffer (trie_proof_length p);
  bk ← to_bytes (proof_key p);
  bv ← to_bytes (proof_value p);
  bs ← vecdeque_to_bytes (proof_steps p);
  Ok (ret ++ bk ++ bv ++ bs).
Definition trie_proof_from_bytes (bytes : list u8) :
    result Error (TrieMerkleProof K V * list u8) :=
  '(key, rem) ← from_bytes bytes;
  '(value, rem) ← from_bytes rem;
  '(steps, rem) ← vec_from_bytes rem;
  Ok (mkTrieMerkleProof key value steps, rem).
#[global] Instance trie_proof_bytesrepr : Bytesrepr (TrieMerkleProof K V) := {|
  to_bytes := trie_proof_to_bytes;
  write_bytes := default_write_bytes trie_proof_to_bytes;
  serialized_length := trie_proof_length;
  from_bytes := trie_proof_from_bytes
|}.
End trie_proof.

(** ** The serialization laws *)

Lemma array_from_bytes_app n (d : vec u8 n) r :
  array_from_bytes n (vec_to_list d ++ r) = Ok (d, r).
Proof. exact (spec_roundtrip (BytesreprSpec:=array_spec n) d _ r I eq_refl). Qed.

#[global] Instance Pointer_spec : BytesreprSpec Pointer Pointer_bytesrepr.
Proof.
  refine {| representable _ := True |}; cbn -[array_from_bytes].
  - intros [d|d] b _ [= <-]; cbn; by rewrite length_vec_to_list.
  - lia.
  - intros [d|d] b w _ [= <-]; cbn; unfold pointer_write_bytes; cbn; by rewrite <- app_assoc.
  - intros [d|d] _ _; cbn; by eexists.
  - intros [d|d] b r _ [= <-]; unfold pointer_from_bytes; cbn -[array_from_bytes];
      by rewrite array_from_bytes_app.
  - intros [|[] bs]; try done; unfold pointer_from_bytes; cbn -[array_from_bytes];
      (apply no_panic_bind; [apply (spec_no_panic (BytesreprSpec:=array_spec _))|]);
      by intros [? ?].
  - intros [|[] bs] t r; try done; unfold pointer_from_bytes; cbn -[array_from_bytes];
      intros H; bytes_inv;
      match goal with
      | H : array_from_bytes _ _ = Ok _ |- _ =>
          apply (spec_from (BytesreprSpec:=array_spec _)) in H as [_ [p ->]]
      end; (split; [done|]); [by exists (Byte.x00 :: p)|by exists (Byte.x01 :: p)].
Defined.

Lemma all_indices_complete i : i ∈ all_indices.
Proof.
  apply list_elem_of_fmap. exists (u8_to_nat i). split; [by rewrite u8_of_to_nat|].
  apply elem_of_seq. pose proof (u8_to_nat_lt i). unfold RADIX. lia.
Qed.

Lemma all_indices_nodup : NoDup all_indices.
Proof.
  apply NoDup_fmap_2_strong; [|apply NoDup_seq].
  intros x y Hx Hy E%(f_equal u8_to_nat). apply elem_of_seq in Hx, Hy. unfold RADIX in *.
  rewrite !u8_to_of_nat in E; lia.
Qed.

Lemma length_all_indices : length all_indices = RADIX.
Proof. unfold all_indices. by rewrite length_fmap, length_seq. Qed.

Lemma block_entries_representable pb : Forall representable (block_entries pb).
Proof. apply Forall_fmap, Forall_true. intros i. cbn. by destruct (pb !! i). Qed.

(** Reading the entries back one by one rebuilds the block. *)
Lemma block_read_chunks indices acc (pb : PointerBlock) bs r :
  Forall2 (fun i b => to_bytes (pb !! i) = Ok b) indices bs ->
  block_read indices acc (concat bs ++ r)
  = Ok (foldl (fun m i => partial_alter (fun _ => pb !! i) i m) acc indices, r).
Proof.
  intros Hf. revert acc. induction Hf as [|i b indices bs Hb Hf IH]; intros acc; [done|].
  cbn [block_read concat foldl]. rewrite <- app_assoc.
  erewrite (spec_roundtrip (BytesreprSpec:=option_spec) (pb !! i)); [cbn; apply IH| |done].
  cbn. by destruct (pb !! i).
Qed.

Lemma block_rebuild (pb : PointerBlock) indices (acc : PointerBlock) :
  (forall i, i ∉ indices -> acc !! i = pb !! i) ->
  foldl (fun m i => partial_alter (fun _ => pb !! i) i m) acc indices = pb.
Proof.
  revert acc. induction indices as [|i indices IH]; intros acc Hacc; cbn.
  - apply map_eq. intros i. apply Hacc. set_solver.
  - apply IH. intros j Hj. destruct (decide (i = j)) as [->|].
    + by rewrite lookup_partial_alter_eq.
    + rewrite lookup_partial_alter_ne by done. apply Hacc. set_solver.
Qed.

Lemma block_chunks (pb : PointerBlock) bs :
  chunks_of (block_entries pb) bs -> Forall2 (fun i b => to_bytes (pb !! i) = Ok b) all_indices bs.
Proof. unfold chunks_of, block_entries. intros H. by apply Forall2_fmap_l in H. Qed.

Lemma block_read_no_panic indices acc bs : no_panic (block_read indices acc bs).
Proof.
  revert acc bs. induction indices; intros; cbn; [done|].
  apply no_panic_bind; [apply (spec_no_panic (BytesreprSpec:=option_spec))|]. intros [? ?] _; auto.
Qed.

Lemma block_read_suffix indices acc bs pb r :
  block_read indices acc bs = Ok (pb, r) -> exists p, bs = p ++ r.
Proof.
  revert acc bs. induction indices as [|i indices IH]; intros acc bs H; cbn in H.
  - bytes_inv. by exists [].
  - bytes_inv. apply (spec_from (BytesreprSpec:=option_spec)) in H0 as [_ [p ->]].
    apply IH in H as [q ->]. exists (p ++ q). by rewrite app_assoc.
Qed.

Lemma block_to_bytes_Ok pb b :
  block_to_bytes pb = Ok b -> exists bs, chunks_of (block_entries pb) bs /\ b = concat bs.
Proof.
  unfold block_to_bytes. intros (buf & [-> _]%allocate_buffer_Ok & H)%bind_Ok.
  apply append_items_Ok in H as (bs & Hbs & ->). exists bs. split; [exact Hbs|reflexivity].
Qed.

#[global] Instance PointerBlock_spec : BytesreprSpec PointerBlock PointerBlock_bytesrepr.
Proof.
  refine {| representable _ := True |}; cbn -[all_indices].
  - intros pb b _ (bs & Hbs & ->)%block_to_bytes_Ok.
    apply chunks_length; [apply block_entries_representable|done].
  - intros pb _. apply items_length_nonneg, block_entries_representable.
  - intros pb b w _ (bs & Hbs & ->)%block_to_bytes_Ok.
    apply write_items_chunks; [apply block_entries_representable|done].
  - intros pb _ Hl. destruct (chunks_total _ (block_entries_representable pb) Hl) as [bs Hbs].
    unfold block_to_bytes. rewrite allocate_buffer_fits by done. eexists.
    apply append_items_Ok. eauto.
  - intros pb b r _ (bs & Hbs & ->)%block_to_bytes_Ok.
    rewrite (block_read_chunks _ _ pb) by (by apply block_chunks).
    rewrite block_rebuild; [done|]. intros i []. apply all_indices_complete.
  - intros. apply block_read_no_panic.
  - intros bs pb r H. split; [done|]. by eapply block_read_suffix.
Defined.

Section trie_spec.
Context {K V : Type} {DK : Bytesrepr K} {SK : BytesreprSpec K DK}.
Context {DV : Bytesrepr V} {SV : BytesreprSpec V DV}.

Definition trie_representable (t : Trie K V) : Prop :=
  match t with
  | Leaf k v => representable k /\ representable v
  | Node _ => True
  | Extension affix _ => representable (mkBytes affix)
  end.

(** The bytes after the tag. *)
Definition trie_payload (t : Trie K V) (b : list u8) : Prop :=
  match t with
  | Leaf k v => exists bk bv, to_bytes k = Ok bk /\ to_bytes v = Ok bv /\ b = bk ++ bv
  | Node pb => to_bytes pb = Ok b
  | Extension affix ptr => exists ba bp,
      to_bytes (mkBytes affix) = Ok ba /\ to_bytes ptr = Ok bp /\ b = ba ++ bp
  end.

Lemma trie_length_parts t :
  trie_representable t -> trie_serialized_length t <= u32_max ->
  0 <= trie_serialized_length t /\ exists b, trie_payload t b.
Proof.
  destruct t as [k v|pb|affix ptr]; cbn [trie_representable trie_payload];
    unfold trie_serialized_length.
  - intros [Hk Hv] Hl. pose proof (spec_length_nonneg k Hk). pose proof (spec_length_nonneg v Hv).
    destruct (spec_total k Hk) as [bk Hbk]; [lia|].
    destruct (spec_total v Hv) as [bv Hbv]; [lia|]. split; [lia|eauto 6].
  - intros _ Hl. pose proof (spec_length_nonneg (BytesreprSpec:=PointerBlock_spec) pb I).
    destruct (spec_total (BytesreprSpec:=PointerBlock_spec) pb I) as [b Hb]; [lia|]. split; [lia|eauto].
  - intros Ha Hl. pose proof (spec_length_nonneg _ Ha). pose proof (spec_length_nonneg (BytesreprSpec:=Pointer_spec) ptr I).
    destruct (spec_total _ Ha) as [ba Hba]; [lia|].
    destruct (spec_total (BytesreprSpec:=Pointer_spec) ptr I) as [bp Hbp]; [lia|]. split; [lia|eauto 6].
Qed.

Lemma trie_write_payload t b w :
  trie_representable t -> trie_payload t b ->
  trie_write_bytes t w = Ok (w ++ TrieTag_to_u8 (trie_tag t) :: b).
Proof.
  destruct t as [k v|pb|affix ptr]; cbn [trie_representable trie_payload]; unfold trie_write_bytes.
  - intros [Hk Hv] (bk & bv & Hbk & Hbv & ->). rewrite (spec_write k bk) by done.
    cbn [mbind result_bind]. rewrite (spec_write v bv) by done. cbn. by rewrite <- !app_assoc.
  - intros _ Hb. rewrite (spec_write pb b) by done. cbn. by rewrite <- !app_assoc.
  - intros Ha (ba & bp & Hba & Hbp & ->). rewrite (spec_write _ ba) by done.
    cbn [mbind result_bind]. rewrite (spec_write ptr bp) by done. cbn. by rewrite <- !app_assoc.
Qed.

(** What a trie serializes to: its tag followed by its payload. *)
Lemma trie_to_bytes_Ok t b :
  trie_representable t ->
  trie_to_bytes t = Ok b <->
  trie_serialized_length t <= u32_max /\
  exists p, trie_payload t p /\ b = TrieTag_to_u8 (trie_tag t) :: p.
Proof.
  intros Ht. unfold trie_to_bytes. split.
  - intros (buf & [-> Hl]%allocate_buffer_Ok & H)%bind_Ok. split; [done|].
    destruct (trie_length_parts t Ht Hl) as [_ [p Hp]].
    erewrite trie_write_payload in H by done. exists p. by injection H as <-.
  - intros (Hl & p & Hp & ->). rewrite allocate_buffer_fits by done. cbn [mbind result_bind].
    by rewrite (trie_write_payload t p).
Qed.

Lemma trie_payload_length t p :
  trie_representable t -> trie_payload t p ->
  Z.of_nat (S (length p)) = trie_serialized_length t.
Proof.
  destruct t as [k v|pb|affix ptr]; cbn [trie_representable trie_payload];
    unfold trie_serialized_length.
  - intros [Hk Hv] (bk & bv & Hbk & Hbv & ->). rewrite length_app. use_lengths. lia.
  - intros _ Hb. apply spec_length in Hb; [|done]. lia.
  - intros Ha (ba & bp & Hba & Hbp & ->). rewrite length_app.
    apply spec_length in Hba; [|done]. apply spec_length in Hbp; [|done]. lia.
Qed.

Lemma trie_roundtrip t b r :
  trie_representable t -> trie_to_bytes t = Ok b -> trie_from_bytes (b ++ r) = Ok (t, r).
Proof.
  intros Ht (_ & p & Hp & ->)%trie_to_bytes_Ok; [|done].
  unfold trie_from_bytes. cbn [u8_from_bytes app mbind result_bind].
  destruct t as [k v|pb|affix ptr]; cbn [trie_representable trie_payload trie_tag
    TrieTag_to_u8 TrieTag_from_u8 ok_or mbind result_bind] in *.
  - destruct Ht as [Hk Hv]. destruct Hp as (bk & bv & Hbk & Hbv & ->). rewrite <- app_assoc.
    erewrite (spec_roundtrip k) by done. cbn [mbind result_bind].
    erewrite (spec_roundtrip v) by done. done.
  - erewrite (spec_roundtrip pb) by done. done.
  - destruct Hp as (ba & bp & Hba & Hbp & ->). rewrite <- app_assoc.
    erewrite (spec_roundtrip (mkBytes affix)) by done. cbn [mbind result_bind].
    erewrite (spec_roundtrip ptr) by done. done.
Qed.

Lemma trie_from_bytes_Ok bs t r :
  trie_from_bytes bs = Ok (t, r) -> trie_representable t /\ exists p, bs = p ++ r.
Proof.
  unfold trie_from_bytes. destruct bs as [|c bs]; [done|].
  cbn [u8_from_bytes mbind result_bind].
  destruct (TrieTag_from_u8 c) as [[]|]; cbn [ok_or mbind result_bind]; try done.
  - intros ([k r1] & [Hk [p ->]]%spec_from & ([v r2] & [Hv [q ->]]%spec_from & H)%bind_Ok)%bind_Ok.
    injection H as <- <-. split; [done|]. exists (c :: p ++ q). cbn. by rewrite app_assoc.
  - intros ([pb r1] & [_ [p ->]]%spec_from & H)%bind_Ok.
    injection H as <- <-. split; [done|]. by exists (c :: p).
  - intros ([a r1] & [Ha [p ->]]%spec_from & ([ptr r2] & [_ [q ->]]%spec_from & H)%bind_Ok)%bind_Ok.
    injection H as <- <-. split; [by destruct a|].
    exists (c :: p ++ q). cbn. by rewrite app_assoc.
Qed.

#[global] Instance Trie_spec : BytesreprSpec (Trie K V) Trie_bytesrepr.
Proof.
  refine {| representable := trie_representable |};
    cbn [to_bytes from_bytes write_bytes serialized_length Trie_bytesrepr].
  - intros t b Ht (_ & p & Hp & ->)%trie_to_bytes_Ok; [|done]. by apply trie_payload_length.
  - intros [k v|pb|affix ptr] Ht; unfold trie_serialized_length; cbn [trie_representable] in Ht.
    + destruct Ht as [Hk Hv].
      pose proof (spec_length_nonneg k Hk). pose proof (spec_length_nonneg v Hv). lia.
    + pose proof (spec_length_nonneg (BytesreprSpec:=PointerBlock_spec) pb I). lia.
    + pose proof (spec_length_nonneg _ Ht). pose proof (spec_length_nonneg (BytesreprSpec:=Pointer_spec) ptr I). lia.
  - intros t b w Ht (_ & p & Hp & ->)%trie_to_bytes_Ok; [|done]. by apply trie_write_payload.
  - intros t Ht Hl. destruct (trie_length_parts t Ht Hl) as [_ [p Hp]].
    eexists. apply trie_to_bytes_Ok; [done|]. eauto.
  - apply trie_roundtrip.
  - intros [|c bs]; [done|]. unfold trie_from_bytes. cbn [u8_from_bytes mbind result_bind].
    destruct (TrieTag_from_u8 c) as [[]|]; cbn [ok_or mbind result_bind]; try done.
    + apply no_panic_bind; [apply spec_no_panic|]. intros [? ?] _.
      apply no_panic_bind; [apply spec_no_panic|]. by intros [? ?] _.
    + apply no_panic_bind; [apply spec_no_panic|]. by intros [? ?] _.
    + apply no_panic_bind; [apply spec_no_panic|]. intros [? ?] _.
      apply no_panic_bind; [apply spec_no_panic|]. by intros [? ?] _.
  - apply trie_from_bytes_Ok.
Defined.

(** *** Lazy deserialization agrees with eager deserialization *)

Definition lazy_of (t : Trie K V) (b : list u8) : LazilyDeserializedTrie :=
  match t with
  | Leaf _ _ => LazyLeaf b
  | Node pb => LazyNode pb
  | Extension affix ptr => LazyExtension affix ptr
  end.

Lemma lazy_deserialize_trie t b :
  trie_representable t -> trie_to_bytes t = Ok b -> lazy_deserialize b = Ok (lazy_of t b).
Proof.
  intros Ht (_ & p & Hp & ->)%trie_to_bytes_Ok; [|done].
  unfold lazy_deserialize, lazy_from_bytes. cbn [u8_from_bytes mbind result_bind].
  destruct t as [k v|pb|affix ptr]; cbn [trie_representable trie_payload trie_tag lazy_of
    TrieTag_to_u8 TrieTag_from_u8 ok_or mbind result_bind] in *; [done|..].
  - apply (spec_roundtrip _ _ []) in Hp; [|done]. rewrite app_nil_r in Hp. by rewrite Hp.
  - destruct Hp as (ba & bp & Hba & Hbp & ->).
    erewrite (spec_roundtrip (mkBytes affix)) by done. cbn [mbind result_bind].
    apply (spec_roundtrip _ _ []) in Hbp; [|done]. rewrite app_nil_r in Hbp. by rewrite Hbp.
Qed.

Lemma leaf_key_of_bytes k v b :
  trie_representable (Leaf k v) -> trie_to_bytes (Leaf k v) = Ok b ->
  exists bv, to_bytes v = Ok bv /\ try_deserialize_leaf_key b = Ok (k, bv).
Proof.
  intros [Hk Hv] (_ & p & (bk & bv & Hbk & Hbv & ->) & ->)%trie_to_bytes_Ok; [|done].
  exists bv. split; [done|]. unfold try_deserialize_leaf_key. cbn.
  by apply (spec_roundtrip k).
Qed.
End trie_spec.

Definition step_representable (s : TrieMerkleProofStep) : Prop :=
  match s with
  | StepNode _ ips => representable ips
  | StepExtension affix => representable (mkBytes affix)
  end.

#[global] Instance step_spec : BytesreprSpec TrieMerkleProofStep step_bytesrepr.
Proof.
  refine {| representable := step_representable |};
    cbn [to_bytes from_bytes write_bytes serialized_length step_bytesrepr].
  - intros [i ips|affix] b Hs (buf & [-> _]%allocate_buffer_Ok & (bs & Hbs & [= <-])%bind_Ok)%bind_Ok;
      cbn [step_representable] in Hs; apply spec_length in Hbs; [|done| |done];
      unfold step_length; cbn [length app]; [change (serialized_length i) with 1|]; lia.
  - intros [i ips|affix] Hs; cbn [step_representable] in Hs; unfold step_length;
      pose proof (spec_length_nonneg _ Hs); [change (serialized_length i) with 1|]; lia.
  - intros s b w _ Hb. unfold default_write_bytes. by rewrite Hb.
  - intros [i ips|affix] Hs Hl; unfold step_to_bytes; rewrite allocate_buffer_fits by done;
      cbn [mbind result_bind step_representable] in *; unfold step_length in Hl;
      (destruct (spec_total _ Hs) as [b ->];
        [try change (serialized_length i) with 1 in Hl; lia|]); by eexists.
  - intros [i ips|affix] b r Hs (buf & [-> _]%allocate_buffer_Ok & (bs & Hbs & [= <-])%bind_Ok)%bind_Ok;
      cbn [step_representable] in Hs; unfold step_from_bytes;
      cbn [app u8_from_bytes mbind result_bind];
      by rewrite (spec_roundtrip _ _ r Hs Hbs).
  - intros [|[] bs]; try done; unfold step_from_bytes; cbn [u8_from_bytes mbind result_bind].
    + destruct bs as [|i bs]; [done|]. cbn [u8_from_bytes mbind result_bind].
      apply no_panic_bind; [apply spec_no_panic|]. by intros [? ?].
    + apply no_panic_bind; [apply spec_no_panic|]. by intros [? ?].
  - intros [|[] bs] t r; try done; unfold step_from_bytes; cbn [u8_from_bytes mbind result_bind].
    + destruct bs as [|i bs]; [done|]. cbn [u8_from_bytes mbind result_bind].
      intros ([ips r1] & [Hs [p ->]]%spec_from & [= <- <-])%bind_Ok.
      split; [done|]. by exists (Byte.x00 :: i :: p).
    + intros ([a r1] & [Hs [p ->]]%spec_from & [= <- <-])%bind_Ok.
      split; [by destruct a|]. by exists (Byte.x01 :: p).
Defined.

Section trie_proof_spec.
Context {K V : Type} {DK : Bytesrepr K} {SK : BytesreprSpec K DK}.
Context {DV : Bytesrepr V} {SV : BytesreprSpec V DV}.

Definition trie_proof_representable (p : TrieMerkleProof K V) : Prop :=
  representable (proof_key p) /\ representable (proof_value p) /\
  representable (proof_steps p).

Lemma trie_proof_to_bytes_Ok (p : TrieMerkleProof K V) b :
  trie_proof_to_bytes p = Ok b ->
  exists bk bv bs, to_bytes (proof_key p) = Ok bk /\ to_bytes (proof_value p) = Ok bv /\
    to_bytes (proof_steps p) = Ok bs /\ b = bk ++ bv ++ bs.
Proof.
  intros (buf & [-> _]%allocate_buffer_Ok & (bk & Hbk & (bv & Hbv &
    (bs & Hbs%checked_to_bytes_Ok & [= <-])%bind_Ok)%bind_Ok)%bind_Ok)%bind_Ok. eauto 10.
Qed.

#[global] Instance trie_proof_spec : BytesreprSpec (TrieMerkleProof K V) trie_proof_bytesrepr.
Proof.
  refine {| representable := trie_proof_representable |};
    cbn [to_bytes from_bytes write_bytes serialized_length trie_proof_bytesrepr].
  - intros p b (Hk & Hv & Hs) (bk & bv & bs & Hbk & Hbv & Hbs & ->)%trie_proof_to_bytes_Ok.
    rewrite !length_app. apply spec_length in Hbk, Hbv, Hbs; [|done..].
    unfold trie_proof_length. change (iterator_serialized_length (proof_steps p))
      with (serialized_length (proof_steps p)). lia.
  - intros p (Hk & Hv & Hs). unfold trie_proof_length.
    pose proof (spec_length_nonneg _ Hk). pose proof (spec_length_nonneg _ Hv).
    pose proof (spec_length_nonneg _ Hs) as H1. cbn in H1. lia.
  - intros p b w _ Hb. unfold default_write_bytes. by rewrite Hb.
  - intros p (Hk & Hv & Hs) Hl. unfold trie_proof_to_bytes.
    rewrite allocate_buffer_fits by done. cbn [mbind result_bind].
    unfold trie_proof_length in Hl.
    pose proof (spec_length_nonneg _ Hk). pose proof (spec_length_nonneg _ Hv).
    pose proof (spec_length_nonneg _ Hs) as H1. cbn in H1.
    destruct (spec_total _ Hk) as [bk ->]; [lia|]. cbn [mbind result_bind].
    destruct (spec_total _ Hv) as [bv ->]; [lia|]. cbn [mbind result_bind].
    rewrite checked_to_bytes_fits by lia.
    destruct (spec_total _ Hs) as [bs Hbs]; [cbn; lia|]. cbn in Hbs. rewrite Hbs. by eexists.
  - intros p b r (Hk & Hv & Hs) (bk & bv & bs & Hbk & Hbv & Hbs & ->)%trie_proof_to_bytes_Ok.
    unfold trie_proof_from_bytes. rewrite <- !app_assoc.
    rewrite (spec_roundtrip _ _ _ Hk Hbk). cbn [mbind result_bind].
    rewrite (spec_roundtrip _ _ _ Hv Hbv). cbn [mbind result_bind].
    pose proof (spec_roundtrip _ _ r Hs Hbs) as H1. cbn in H1. rewrite H1. by destruct p.
  - intros bs. unfold trie_proof_from_bytes.
    apply no_panic_bind; [apply spec_no_panic|]. intros [? ?] _.
    apply no_panic_bind; [apply spec_no_panic|]. intros [? ?] _.
    apply no_panic_bind; [by apply vec_no_panic_law|]. by intros [? ?] _.
  - intros bs p r ([k r1] & [Hk [p1 ->]]%spec_from & ([v r2] & [Hv [p2 ->]]%spec_from &
      ([s r3] & [Hs [p3 ->]]%vec_from_law & [= <- <-])%bind_Ok)%bind_Ok)%bind_Ok.
    split; [done|]. exists (p1 ++ p2 ++ p3). by rewrite <- !app_assoc.
Defined.
End trie_proof_spec.

(** ** Pointer blocks and lists of indexed pointers *)

Lemma from_indexed_pointers_snoc l i ptr :
  from_indexed_pointers (l ++ [(i, ptr)]) = <[i := ptr]> (from_indexed_pointers l).
Proof. unfold from_indexed_pointers. by rewrite foldl_app. Qed.

Lemma as_indexed_pointers_elem (pb : PointerBlock) i ptr :
  (i, ptr) ∈ as_indexed_pointers pb <-> pb !! i = Some ptr.
Proof.
  unfold as_indexed_pointers. rewrite list_elem_of_omap. split.
  - intros (j & _ & E). destruct (pb !! j) as [p|] eqn:Ej; [|done]. by injection E as <- <-.
  - intros E. exists i. split; [apply all_indices_complete|]. by rewrite E.
Qed.

(** A list whose pairs agree with a block builds the block's part it lists. *)
Lemma from_indexed_pointers_lookup (pb : PointerBlock) l i ptr :
  (forall j p, (j, p) ∈ l -> pb !! j = Some p) ->
  from_indexed_pointers l !! i = Some ptr <-> (i, ptr) ∈ l.
Proof.
  induction l as [|[j p] l IH] using rev_ind; intros Hl.
  - unfold from_indexed_pointers. cbn. rewrite lookup_empty. split; [done|]. by intros ?%not_elem_of_nil.
  - rewrite from_indexed_pointers_snoc, elem_of_app, list_elem_of_singleton.
    assert (forall j p, (j, p) ∈ l -> pb !! j = Some p) as Hl'.
    { intros j' p' Hj. apply Hl, elem_of_app. by left. }
    pose proof (Hl j p ltac:(apply elem_of_app; right; by left)) as Hj.
    destruct (decide (i = j)) as [->|Hne].
    + rewrite lookup_insert_eq. split; [intros [= ->]; by right|].
      intros [Hi%Hl'|[= ->]]; congruence.
    + rewrite lookup_insert_ne by done. rewrite IH by done. split; [by left|].
      intros [?|[= -> ->]]; done.
Qed.

(** A block is rebuilt from its other pointers and the one in the hole. *)
Lemma fill_hole (pb : PointerBlock) i ptr :
  pb !! i = Some ptr ->
  from_indexed_pointers (filter (fun ip => ip.1 <> i) (as_indexed_pointers pb) ++ [(i, ptr)]) = pb.
Proof.
  intros Hi. apply map_eq. intros j. rewrite from_indexed_pointers_snoc.
  destruct (decide (j = i)) as [->|Hne]; [by rewrite lookup_insert_eq|].
  rewrite lookup_insert_ne by done. apply option_eq. intros p.
  rewrite (from_indexed_pointers_lookup pb).
  - rewrite list_elem_of_filter, as_indexed_pointers_elem. naive_solver.
  - intros k q. rewrite list_elem_of_filter, as_indexed_pointers_elem. naive_solver.
Qed.

Lemma child_count_elem (pb : PointerBlock) : child_count pb = length (map_to_list pb).
Proof.
  unfold child_count. apply Permutation_length, NoDup_Permutation.
  - unfold as_indexed_pointers. pose proof all_indices_nodup as Hn. revert Hn.
    generalize all_indices. intros l. induction l as [|j l IH]; [constructor|].
    intros [Hj Hl]%NoDup_cons.
    cbn. destruct (pb !! j) as [p|]; cbn; [|by apply IH]. constructor; [|by apply IH].
    rewrite list_elem_of_omap. intros (k & Hk & E). destruct (pb !! k); [|done].
    by injection E as -> ->.
  - apply NoDup_map_to_list.
  - intros [i p]. by rewrite as_indexed_pointers_elem, elem_of_map_to_list.
Qed.

(** ** Sizes *)

Definition NODE_MAX_LENGTH : Z := 1 + 256 * 34.

Lemma block_length_le (pb : PointerBlock) : serialized_length pb <= 256 * 34.
Proof.
  cbn [serialized_length PointerBlock_bytesrepr]. unfold block_entries.
  change 256 with (Z.of_nat RADIX). rewrite <- length_all_indices.
  generalize all_indices. intros l. unfold items_length.
  induction l as [|i l IH]; [done|]. cbn [fmap list_fmap foldr length].
  assert (serialized_length (pb !! i) <= 34) by (by destruct (pb !! i) as [[]|]). lia.
Qed.

Section sizes.
Context {K V : Type} {DK : Bytesrepr K} {SK : BytesreprSpec K DK}.
Context {DV : Bytesrepr V} {SV : BytesreprSpec V DV}.

Lemma node_to_bytes (pb : PointerBlock) :
  exists b, trie_to_bytes (Node pb : Trie K V) = Ok b /\ Z.of_nat (length b) <= NODE_MAX_LENGTH.
Proof.
  pose proof (block_length_le pb) as Hl. unfold NODE_MAX_LENGTH.
  destruct (spec_total (BytesreprSpec:=Trie_spec) (Node pb : Trie K V) I) as [b Hb].
  { change (serialized_length (Node pb : Trie K V)) with (1 + serialized_length pb).
    unfold u32_max, u_max. lia. }
  exists b. split; [exact Hb|]. apply (spec_length (BytesreprSpec:=Trie_spec)) in Hb; [|done].
  change (serialized_length (Node pb : Trie K V)) with (1 + serialized_length pb) in Hb. lia.
Qed.

Lemma extension_to_bytes affix ptr :
  Z.of_nat (length affix) + 38 <= u32_max ->
  trie_representable (Extension affix ptr : Trie K V) /\
  exists b, trie_to_bytes (Extension affix ptr : Trie K V) = Ok b /\
    Z.of_nat (length b) = Z.of_nat (length affix) + 38.
Proof.
  intros Ha. assert (trie_representable (Extension affix ptr : Trie K V)) as Hr.
  { cbn. lia. }
  assert (trie_serialized_length (Extension affix ptr : Trie K V) = Z.of_nat (length affix) + 38) as Hs.
  { change (1 + ((4 + Z.of_nat (length affix)) + 33) = Z.of_nat (length affix) + 38). lia. }
  split; [done|]. destruct (spec_total (BytesreprSpec:=Trie_spec) _ Hr) as [b Hb].
  { cbn [serialized_length Trie_bytesrepr]. lia. }
  exists b. split; [exact Hb|]. apply (spec_length (BytesreprSpec:=Trie_spec)) in Hb; [|done].
  cbn [serialized_length Trie_bytesrepr] in Hb. lia.
Qed.
End sizes.
