(* ===== verification/TrieOps.v ===== *)
(** * Operations on the trie store of the global state

    Models [storage/src/global_state/trie_store/operations/mod.rs] on a store
    that maps a hash to the bytes stored under it (the key-value database, whose
    own I/O errors are not modelled).  A [Vec] used as a stack is a list with its
    top first. *)
From S2P Require Import Prelude BTree Bytesrepr Digest Trie.

Open Scope Z_scope.

Abbreviation store := (gmap Digest (list u8)).

Inductive ReadResult (V : Type) : Type :=
| Found (v : V)
| NotFound
| RootNotFound.
Arguments Found {V} v.
Arguments NotFound {V}.
Arguments RootNotFound {V}.

Inductive TriePruneResult : Type :=
| Pruned (root : Digest)
| MissingKey
| PruneRootNotFound.

Inductive WriteResult : Type :=
| Written (root : Digest)
| AlreadyExists
| WriteRootNotFound.

(** [&path[from..to]] and [&path[from..]], which panic when out of range. *)
Definition slice {E A} (path : list A) (from to : nat) : result E (list A) :=
  if (from <=? to)%nat && (to <=? length path)%nat
  then Ok (take (to - from) (drop from path)) else Panic.
Definition slice_from {E A} (path : list A) (from : nat) : result E (list A) :=
  slice path from (length path).

(** [zip], [take_while], [map] *)
Fixpoint common_prefix {A} `{EqDecision A} (ls rs : list A) : list A :=
  match ls, rs with
  | l :: ls, r :: rs => if decide (l = r) then l :: common_prefix ls rs else []
  | _, _ => []
  end.

Section operations.
Context (blake2b : list u8 -> Digest) {TF : TreeFold1} (CHUNK_SIZE_BYTES : nat).
Context {K V : Type} {DK : Bytesrepr K} {DV : Bytesrepr V} `{EqDecision K}.

Abbreviation trie := (Trie K V).
Abbreviation chunk_hash := (hash_into_chunks_if_necessary blake2b CHUNK_SIZE_BYTES).

(** [Trie::trie_hash] *)
Definition trie_hash (t : trie) : result Error Digest :=
  bytes ← trie_to_bytes t;
  Ok (chunk_hash bytes).

Definition create_hashed_empty_trie : result Error (Digest * trie) :=
  let root : trie := Node ∅ in
  root_bytes ← trie_to_bytes root;
  Ok (hash blake2b root_bytes, root).

(** [Store::get] and [Store::put] *)
Definition get (s : store) (key : Digest) : result Error (option trie) :=
  match s !! key with
  | Some bytes => value ← deserialize_from_slice bytes; Ok (Some value)
  | None => Ok None
  end.
Definition put (s : store) (key : Digest) (value : trie) : result Error store :=
  bytes ← trie_to_bytes value;
  Ok (<[key := bytes]> s).

(** A walk visits at most one state per depth and stored trie, or never ends. *)
Definition walk_fuel (s : store) (path : list u8) : nat := S (S (length path) * S (size s)).

(** ** Reading *)

Fixpoint read_loop (fuel : nat) (s : store) (key : K) (path : list u8) (depth : nat)
    (current : trie) : result Error (ReadResult V) :=
  match fuel with
  | O => Diverge
  | S fuel =>
      match current with
      | Leaf leaf_key leaf_value =>
          Ok (if decide (key = leaf_key) then Found leaf_value else NotFound)
      | Node pointer_block =>
          index ← expect (path !! depth);
          match pointer_block !! index with
          | Some pointer =>
              next ← get s (pointer_hash pointer);
              match next with
              | Some next => read_loop fuel s key path (depth + 1) next
              | None => Ok NotFound
              end
          | None => Ok NotFound
          end
      | Extension affix pointer =>
          sub_path ← slice path depth (depth + length affix);
          if decide (sub_path = affix) then
            next ← get s (pointer_hash pointer);
            match next with
            | Some next => read_loop fuel s key path (depth + length affix) next
            | None => Ok NotFound
            end
          else Ok NotFound
      end
  end.
Definition read (s : store) (root : Digest) (key : K) : result Error (ReadResult V) :=
  path ← to_bytes key;
  current ← get s root;
  match current with
  | Some current => read_loop (walk_fuel s path) s key path 0 current
  | None => Ok RootNotFound
  end.

Fixpoint read_with_proof_loop (fuel : nat) (s : store) (key : K) (path : list u8) (depth : nat)
    (current : trie) (proof_steps : list TrieMerkleProofStep) :
    result Error (ReadResult (TrieMerkleProof K V)) :=
  match fuel with
  | O => Diverge
  | S fuel =>
      match current with
      | Leaf leaf_key value =>
          if decide (key = leaf_key)
          then Ok (Found (mkTrieMerkleProof leaf_key value proof_steps))
          else Ok NotFound
      | Node pointer_block =>
          hole_index ← expect (path !! depth);
          match pointer_block !! hole_index with
          | None => Ok NotFound
          | Some pointer =>
              let indexed_pointers_with_hole :=
                filter (fun ip => ip.1 <> hole_index) (as_indexed_pointers pointer_block) in
              next ← get s (pointer_hash pointer);
              match next with
              | Some next =>
                  read_with_proof_loop fuel s key path (depth + 1) next
                    (StepNode hole_index indexed_pointers_with_hole :: proof_steps)
              | None => Ok NotFound
              end
          end
      | Extension affix pointer =>
          sub_path ← slice path depth (depth + length affix);
          if decide (sub_path = affix) then
            next ← get s (pointer_hash pointer);
            match next with
            | Some next =>
                read_with_proof_loop fuel s key path (depth + length affix) next
                  (StepExtension affix :: proof_steps)
            | None => Ok NotFound
            end
          else Ok NotFound
      end
  end.
Definition read_with_proof (s : store) (root : Digest) (key : K) :
    result Error (ReadResult (TrieMerkleProof K V)) :=
  path ← to_bytes key;
  current ← get s root;
  match current with
  | Some current => read_with_proof_loop (walk_fuel s path) s key path 0 current []
  | None => Ok RootNotFound
  end.

(** [compute_state_hash]; [first] is [proof_step_index == 0]. *)
Fixpoint state_hash_loop (first : bool) (hash : Digest) (steps : list TrieMerkleProofStep) :
    result Error Digest :=
  match steps with
  | [] => Ok hash
  | step :: steps =>
      let pointer := if first then LeafPointer hash else NodePointer hash in
      proof_step_bytes ←
        match step with
        | StepNode hole_index indexed_pointers_with_hole =>
            trie_to_bytes (trie_node (indexed_pointers_with_hole ++ [(hole_index, pointer)]) : trie)
        | StepExtension affix => trie_to_bytes (Extension affix pointer : trie)
        end;
      state_hash_loop false (Digest.hash blake2b proof_step_bytes) steps
  end.
Definition compute_state_hash (proof : TrieMerkleProof K V) : result Error Digest :=
  hash ← trie_hash (Leaf (proof_key proof) (proof_value proof));
  state_hash_loop true hash (proof_steps proof).

(** ** Synchronization: which children of a trie are not stored *)

Definition missing_children (s : store) (trie_raw : list u8) : result Error (list Digest) :=
  match head trie_raw ≫= TrieTag_from_u8 with
  | Some TagLeaf => Ok []
  | _ =>
      t ← deserialize_from_slice (T:=trie) trie_raw;
      match t with
      | Leaf _ _ => Ok []
      | Node pointer_block =>
          Ok (filter (fun h => s !! h = None)
                ((fun ip => pointer_hash ip.2) <$> as_indexed_pointers pointer_block))
      | Extension _ pointer =>
          Ok (match s !! pointer_hash pointer with
              | Some _ => []
              | None => [pointer_hash pointer]
              end)
      end
  end.

Definition put_trie (s : store) (trie_bytes : list u8) : Digest * store :=
  let trie_hash := chunk_hash trie_bytes in
  (trie_hash, <[trie_hash := trie_bytes]> s).

(** ** Scanning *)

Fixpoint scan_raw_loop (fuel : nat) (s : store) (path : list u8) (depth : nat)
    (current : list u8) (acc : list (u8 * trie)) :
    result Error (LazilyDeserializedTrie * list (u8 * trie)) :=
  match fuel with
  | O => Diverge
  | S fuel =>
      maybe_trie_leaf ← lazy_deserialize current;
      match maybe_trie_leaf with
      | LazyLeaf leaf_bytes => Ok (LazyLeaf leaf_bytes, acc)
      | LazyNode pointer_block =>
          index ← expect (path !! depth);
          match pointer_block !! index with
          | None => Ok (LazyNode pointer_block, acc)
          | Some pointer =>
              match s !! pointer_hash pointer with
              | Some next =>
                  scan_raw_loop fuel s path (depth + 1) next ((index, Node pointer_block) :: acc)
              | None => Panic
              end
          end
      | LazyExtension affix pointer =>
          if (length path <? depth + length affix)%nat then Ok (LazyExtension affix pointer, acc)
          else
            sub_path ← slice path depth (depth + length affix);
            if decide (sub_path = affix) then
              match s !! pointer_hash pointer with
              | Some next =>
                  index ← expect (path !! depth);
                  scan_raw_loop fuel s path (depth + length affix) next
                    ((index, Extension affix pointer) :: acc)
              | None => Panic
              end
            else Ok (LazyExtension affix pointer, acc)
      end
  end.
Definition scan_raw (s : store) (key_bytes root_bytes : list u8) :
    result Error (LazilyDeserializedTrie * list (u8 * trie)) :=
  scan_raw_loop (walk_fuel s key_bytes) s key_bytes 0 root_bytes [].

(** ** Pruning *)

(** The [while let Some((idx, parent)) = parents.pop()] loop of [prune].  The
    last of [new_elements] is the head of the list. *)
Fixpoint prune_loop (s : store) (parents : list (u8 * trie)) (new_elements : list (Digest * trie)) :
    result Error (list (Digest * trie)) :=
  match parents with
  | [] => Ok new_elements
  | (idx, parent) :: parents =>
      match new_elements, parent with
      | _, Leaf _ _ => Panic
      | [], Extension _ _ => Panic
      | (_, Leaf _ _) :: _, _ => Panic
      | [], Node pointer_block =>
          if (2 <? child_count pointer_block)%nat then
            let trie_node := Node (delete idx pointer_block) in
            trie_key ← trie_hash trie_node;
            prune_loop s parents [(trie_key, trie_node)]
          else
            match find (fun '(jdx, _) => bool_decide (idx <> jdx)) (as_indexed_pointers pointer_block) with
            | None =>
                let trie_node := Node ∅ in
                trie_key ← trie_hash trie_node;
                Ok [(trie_key, trie_node)]
            | Some (sibling_idx, sibling_pointer) =>
                match sibling_pointer, parents with
                | _, (_, Leaf _ _) :: _ => Panic
                | _, [] =>
                    let trie_node := Node (delete idx pointer_block) in
                    trie_key ← trie_hash trie_node;
                    Ok [(trie_key, trie_node)]
                | LeafPointer _, (idx, Node pointer_block) :: parents =>
                    let trie_node := Node (<[idx := sibling_pointer]> pointer_block) in
                    trie_key ← trie_hash trie_node;
                    prune_loop s parents [(trie_key, trie_node)]
                | LeafPointer _, (_, Extension _ _) :: parents =>
                    match parents with
                    | (idx, Node pointer_block) :: parents =>
                        let trie_node := Node (<[idx := sibling_pointer]> pointer_block) in
                        trie_key ← trie_hash trie_node;
                        prune_loop s parents [(trie_key, trie_node)]
                    | _ => Panic
                    end
                | NodePointer sibling_trie_key, _ =>
                    maybe_sibling ← get s sibling_trie_key;
                    sibling_trie ← expect maybe_sibling;
                    match sibling_trie with
                    | Leaf _ _ => Panic
                    | Node _ =>
                        let new_extension := Extension [sibling_idx] sibling_pointer in
                        trie_key ← trie_hash new_extension;
                        prune_loop s parents [(trie_key, new_extension)]
                    | Extension extension_affix pointer =>
                        let new_extension := Extension (sibling_idx :: extension_affix) pointer in
                        trie_key ← trie_hash new_extension;
                        prune_loop s parents [(trie_key, new_extension)]
                    end
                end
            end
      | (trie_key, _) :: _, Node pointer_block =>
          let trie_node := Node (<[idx := NodePointer trie_key]> pointer_block) in
          trie_key ← trie_hash trie_node;
          prune_loop s parents ((trie_key, trie_node) :: new_elements)
      | (_, Extension child_affix pointer) :: rest, Extension affix _ =>
          let new_extension := Extension (affix ++ child_affix) pointer in
          trie_key ← trie_hash new_extension;
          prune_loop s parents ((trie_key, new_extension) :: rest)
      | (trie_key, Node _) :: _, Extension affix _ =>
          let trie_extension := Extension affix (NodePointer trie_key) in
          trie_key ← trie_hash trie_extension;
          prune_loop s parents ((trie_key, trie_extension) :: new_elements)
      end
  end.

(** [for (hash, element) in new_elements.iter() { store.put(..)? }] *)
Fixpoint put_all (s : store) (elements : list (Digest * trie)) : result Error store :=
  match elements with
  | [] => Ok s
  | (hash, element) :: elements => s ← put s hash element; put_all s elements
  end.

(** The part of [prune] that computes the new elements, last one first; [None]
    when the root or the key is missing. *)
Definition prune_elements (s : store) (root_trie_bytes : list u8) (key : K) :
    result Error (option (list (Digest * trie))) :=
  key_bytes ← to_bytes key;
  '(tip, parents) ← scan_raw s key_bytes root_trie_bytes;
  is_key ←
    match tip with
    | LazyLeaf leaf_bytes =>
        '(k, _) ← try_deserialize_leaf_key leaf_bytes;
        Ok (bool_decide (k = key))
    | _ => Ok false
    end;
  if is_key : bool then
    new_elements ← prune_loop s parents [];
    Ok (Some new_elements)
  else Ok None.
Definition prune (s : store) (root : Digest) (key : K) : result Error (TriePruneResult * store) :=
  match s !! root with
  | None => Ok (PruneRootNotFound, s)
  | Some root_trie_bytes =>
      maybe_elements ← prune_elements s root_trie_bytes key;
      match maybe_elements with
      | None => Ok (MissingKey, s)
      | Some new_elements =>
          s ← put_all s (reverse new_elements);
          Ok (Pruned (match new_elements with (hash, _) :: _ => hash | [] => root end), s)
      end
  end.

(** ** Writing *)

Definition tip_pointer (tip : trie) (tip_hash : Digest) : Pointer :=
  match tip with Leaf _ _ => LeafPointer tip_hash | _ => NodePointer tip_hash end.

(** The loop of [rehash], from the deepest parent to the root. *)
Fixpoint rehash_loop (tip : trie) (tip_hash : Digest) (parents : list (u8 * trie)) :
    result Error (list (Digest * trie)) :=
  match parents with
  | [] => Ok []
  | (index, parent) :: parents =>
      match parent with
      | Leaf _ _ => Panic
      | Node pointer_block =>
          let tip := Node (<[index := tip_pointer tip tip_hash]> pointer_block) in
          tip_hash ← trie_hash tip;
          ret ← rehash_loop tip tip_hash parents;
          Ok ((tip_hash, tip) :: ret)
      | Extension affix pointer =>
          let tip := Extension affix (pointer_update pointer tip_hash) in
          tip_hash ← trie_hash tip;
          ret ← rehash_loop tip tip_hash parents;
          Ok ((tip_hash, tip) :: ret)
      end
  end.
Definition rehash (tip : trie) (parents : list (u8 * trie)) : result Error (list (Digest * trie)) :=
  tip_hash ← trie_hash tip;
  ret ← rehash_loop tip tip_hash parents;
  Ok ((tip_hash, tip) :: ret).

(** The path of the parents, which are deepest first. *)
Definition parent_path (p : u8 * trie) : list u8 :=
  match p with (_, Extension affix _) => affix | (index, _) => [index] end.
Definition get_parents_path (parents : list (u8 * trie)) : list u8 :=
  concat (parent_path <$> reverse parents).

Definition add_node_to_parents (path_to_leaf : list u8) (new_parent_node : trie)
    (parents : list (u8 * trie)) : result Error (list (u8 * trie)) :=
  _ ← assert_that (match new_parent_node with Node _ => true | _ => false end);
  let path_to_node := get_parents_path parents in
  let current_path := common_prefix path_to_leaf path_to_node in
  _ ← assert_that (bool_decide (current_path = path_to_node));
  let depth := length path_to_node in
  index ← expect (path_to_leaf !! depth);
  Ok ((index, new_parent_node) :: parents).

Definition reparent_leaf (new_leaf_path existing_leaf_path : list u8) (parents : list (u8 * trie)) :
    result Error (trie * list (u8 * trie)) :=
  match parents with
  | (child_index, Node pointer_block) :: _ =>
      let shared_path := common_prefix new_leaf_path existing_leaf_path in
      index ← expect (existing_leaf_path !! length shared_path);
      existing_leaf_pointer ← expect (pointer_block !! child_index);
      let new_node := trie_node [(index, existing_leaf_pointer)] in
      let parents_path := get_parents_path parents in
      affix ← slice_from shared_path (length parents_path);
      match affix with
      | [] => Ok (new_node, parents)
      | _ =>
          new_node_hash ← trie_hash new_node;
          let new_extension := Extension affix (NodePointer new_node_hash) in
          Ok (new_node, (child_index, new_extension) :: parents)
      end
  | _ => Panic
  end.

(** [SplitResult] as a triple. *)
Definition split_extension (new_leaf_path : list u8) (existing_extension : trie)
    (parents : list (u8 * trie)) :
    result Error (trie * list (u8 * trie) * option (Digest * trie)) :=
  match existing_extension with
  | Extension affix pointer =>
      let parents_path := get_parents_path parents in
      let existing_extension_path := parents_path ++ affix in
      let shared_path := common_prefix new_leaf_path existing_extension_path in
      parent_extension_affix ← slice_from shared_path (length parents_path);
      child_extension_affix ← slice_from affix (length parent_extension_affix + 1);
      maybe_hashed_child_extension ←
        match child_extension_affix with
        | [] => Ok None
        | _ =>
            let child_extension := Extension child_extension_affix pointer in
            child_extension_hash ← trie_hash child_extension;
            Ok (Some (child_extension_hash, child_extension))
        end;
      index ← expect (existing_extension_path !! length shared_path);
      let pointer :=
        match maybe_hashed_child_extension with
        | Some (hash, _) => NodePointer hash
        | None => pointer
        end in
      let new_node := trie_node [(index, pointer)] in
      parents ←
        match parent_extension_affix with
        | [] => Ok parents
        | index :: _ =>
            new_node_hash ← trie_hash new_node;
            Ok ((index, Extension parent_extension_affix (NodePointer new_node_hash)) :: parents)
        end;
      Ok (new_node, parents, maybe_hashed_child_extension)
  | _ => Panic
  end.

(** The part of [write] that computes the new elements. *)
Definition write_elements (s : store) (current_root_bytes : list u8) (key : K) (value : V) :
    result Error (list (Digest * trie)) :=
  let new_leaf := Leaf key value in
  path ← to_bytes key;
  '(tip, parents) ← scan_raw s path current_root_bytes;
  match tip with
  | LazyLeaf leaf_bytes =>
      '(existing_leaf_key, existing_value_bytes) ← try_deserialize_leaf_key leaf_bytes;
      if decide (key <> existing_leaf_key) then
        existing_leaf_path ← to_bytes existing_leaf_key;
        '(new_node, parents) ← reparent_leaf path existing_leaf_path parents;
        parents ← add_node_to_parents path new_node parents;
        rehash new_leaf parents
      else
        new_value_bytes ← to_bytes value;
        if decide (new_value_bytes <> existing_value_bytes) then rehash new_leaf parents
        else Ok []
  | LazyNode _ =>
      node ← trie_try_from_lazy tip;
      parents ← add_node_to_parents path node parents;
      rehash new_leaf parents
  | LazyExtension _ _ =>
      extension ← trie_try_from_lazy tip;
      '(new_node, parents, maybe_hashed_child_extension) ← split_extension path extension parents;
      parents ← add_node_to_parents path new_node parents;
      match maybe_hashed_child_extension with
      | Some hashed_extension =>
          ret ← rehash new_leaf parents;
          Ok (hashed_extension :: ret)
      | None => rehash new_leaf parents
      end
  end.
Definition write (s : store) (root : Digest) (key : K) (value : V) :
    result Error (WriteResult * store) :=
  match s !! root with
  | None => Ok (WriteRootNotFound, s)
  | Some current_root_bytes =>
      new_elements ← write_elements s current_root_bytes key value;
      match new_elements with
      | [] => Ok (AlreadyExists, s)
      | _ =>
          s ← put_all s new_elements;
          Ok (Written (default root (fst <$> last new_elements)), s)
      end
  end.
End operations.
