(* ===== verification/TrieRep.v ===== *)
(** * What a trie store represents

    [root_rep s M root]: the trie stored in [s] under [root] is the radix tree of
    the finite map [M] from keys to values.  The paths are the serialized keys.
    [rep] is the same for the subtrie at a prefix.  It states the invariants the
    operations rely on: leaf pointers point to leaves and node pointers to nodes
    or extensions; a node that is not the root has at least two children; the
    affix of an extension is not empty and leads to a node; the root is a node. *)
From S2P Require Import Prelude BTree Bytesrepr Digest Trie TrieOps.

Open Scope Z_scope.

(** ** Slices and common prefixes *)

Lemma slice_app {E A} (pre q : list A) n :
  (n <= length q)%nat -> slice (E:=E) (pre ++ q) (length pre) (length pre + n) = Ok (take n q).
Proof.
  intros Hn. unfold slice. rewrite length_app.
  destruct (Nat.leb_spec (length pre) (length pre + n)); [|lia].
  destruct (Nat.leb_spec (length pre + n) (length pre + length q)); [|lia].
  cbn. rewrite drop_app_length. f_equal. f_equal. lia.
Qed.

Lemma slice_from_app {E A} (pre q : list A) :
  slice_from (E:=E) (pre ++ q) (length pre) = Ok q.
Proof. unfold slice_from. rewrite length_app, slice_app by lia. by rewrite take_ge. Qed.

Lemma lookup_after {A} (pre q : list A) : (pre ++ q) !! length pre = head q.
Proof. rewrite lookup_app_r by lia. rewrite Nat.sub_diag. by destruct q. Qed.

Section common_prefix.
Context {A : Type} `{EqDecision A}.
Implicit Types l k : list A.

Lemma common_prefix_l l k : common_prefix l k `prefix_of` l.
Proof.
  revert k. induction l as [|a l IH]; intros [|b k]; cbn; try apply prefix_nil.
  case_decide; [apply prefix_cons, IH|apply prefix_nil].
Qed.

Lemma common_prefix_app pre l k : common_prefix (pre ++ l) (pre ++ k) = pre ++ common_prefix l k.
Proof. induction pre as [|a pre IH]; cbn; [done|]. rewrite decide_True by done. by rewrite IH. Qed.

Lemma common_prefix_full l k : l `prefix_of` k -> common_prefix k l = l.
Proof.
  intros [q ->]. rewrite <- (app_nil_r l) at 2. rewrite common_prefix_app.
  destruct q; cbn; by rewrite app_nil_r.
Qed.

(** Two lists split at their common prefix; when neither is a prefix of the
    other they continue with different elements. *)
Lemma common_prefix_split l k :
  exists l' k', l = common_prefix l k ++ l' /\ k = common_prefix l k ++ k' /\
    match l', k' with a :: _, b :: _ => a <> b | _, _ => True end.
Proof.
  revert k. induction l as [|a l IH]; intros [|b k].
  - by exists [], [].
  - by exists [], (b :: k).
  - by exists (a :: l), [].
  - cbn. case_decide as E.
    + subst b. destruct (IH k) as (l' & k' & E1 & E2 & H). exists l', k'. cbn.
      by rewrite <- E1, <- E2.
    + by exists (a :: l), (b :: k).
Qed.
End common_prefix.

Lemma prefix_snoc_inv {A} (pre p : list A) i j :
  pre ++ [i] `prefix_of` p -> pre ++ [j] `prefix_of` p -> i = j.
Proof. intros [q ->] [q' E]. rewrite <- !app_assoc in E. apply app_inv_head in E. by injection E. Qed.

Lemma prefix_snoc_cons {A} (pre q : list A) i : pre ++ [i] `prefix_of` pre ++ i :: q.
Proof. exists q. by rewrite <- app_assoc. Qed.

Lemma prefix_weaken {A} (pre q p : list A) : pre ++ q `prefix_of` p -> pre `prefix_of` p.
Proof. intros H. etrans; [|exact H]. by apply prefix_app_r. Qed.

(** ** Representation *)

Section rep.
Context (blake2b : list u8 -> Digest) {TF : TreeFold1} (CHUNK_SIZE_BYTES : nat).
Context {K V : Type} {DK : Bytesrepr K} {SK : BytesreprSpec K DK}.
Context {DV : Bytesrepr V} {SV : BytesreprSpec V DV} `{Countable K}.

Abbreviation trie := (Trie K V).
Implicit Types (k : K) (s : store) (M : gmap K V) (pre : list u8) (pb : PointerBlock).

(** [p] is the path of the key [k]: not empty, and short enough that an
    extension with it as affix can be serialized and hashed in one chunk. *)
Definition key_path (k : K) (p : list u8) : Prop :=
  representable k /\ to_bytes k = Ok p /\ p <> [] /\
  Z.of_nat (length p) + 38 <= Z.min u32_max (Z.of_nat CHUNK_SIZE_BYTES).

Definition keys_ok M : Prop :=
  forall k v, M !! k = Some v -> representable v /\ exists p, key_path k p.

(** The keys of [M] whose path starts with [pre]. *)
Definition under M pre (k : K) : Prop :=
  is_Some (M !! k) /\ exists p, key_path k p /\ pre `prefix_of` p.

(** [t] is stored under the hash [h]. *)
Definition stores s (h : Digest) (t : trie) : Prop :=
  trie_representable t /\ exists b, trie_to_bytes t = Ok b /\ s !! h = Some b.
Definition points s (ptr : Pointer) (t : trie) : Prop :=
  stores s (pointer_hash ptr) t /\ ptr = tip_pointer t (pointer_hash ptr).

Inductive rep s M : trie -> list u8 -> Prop :=
| rep_leaf k v p pre :
    M !! k = Some v -> key_path k p -> pre `prefix_of` p ->
    (forall k', under M pre k' -> k' = k) ->
    rep s M (Leaf k v) pre
| rep_node pb f i j pre :
    i <> j -> is_Some (pb !! i) -> is_Some (pb !! j) ->
    (forall x ptr, pb !! x = Some ptr -> points s ptr (f x)) ->
    (forall x ptr, pb !! x = Some ptr -> rep s M (f x) (pre ++ [x])) ->
    (forall x k, pb !! x = None -> ~ under M (pre ++ [x]) k) ->
    rep s M (Node pb) pre
| rep_ext affix ptr pb pre :
    affix <> [] -> points s ptr (Node pb) -> rep s M (Node pb) (pre ++ affix) ->
    (forall k, under M pre k -> under M (pre ++ affix) k) ->
    rep s M (Extension affix ptr) pre.

(** The children of a node, without the condition on their number. *)
Definition children s M pb (f : u8 -> trie) pre : Prop :=
  (forall x ptr, pb !! x = Some ptr -> points s ptr (f x)) /\
  (forall x ptr, pb !! x = Some ptr -> rep s M (f x) (pre ++ [x])) /\
  (forall x k, pb !! x = None -> ~ under M (pre ++ [x]) k).

Definition root_rep s M (root : Digest) : Prop :=
  keys_ok M /\ exists pb f, stores s root (Node pb) /\ children s M pb f [].

(** ** Basic lemmas *)

Lemma key_path_fun k p p' : key_path k p -> key_path k p' -> p = p'.
Proof. intros (_ & H1 & _) (_ & H2 & _). congruence. Qed.

Lemma key_path_prefix k k' p p' : key_path k p -> key_path k' p' -> p `prefix_of` p' -> k = k'.
Proof. intros (H1 & H2 & _) (H3 & H4 & _). by apply to_bytes_prefix. Qed.

Lemma under_path M pre k p : under M pre k -> key_path k p -> pre `prefix_of` p.
Proof. intros (_ & p' & H1 & H2) H3. by rewrite (key_path_fun k p p'). Qed.

Lemma under_weaken M pre q k : under M (pre ++ q) k -> under M pre k.
Proof. intros (H1 & p & H2 & H3). split; [done|]. eauto using prefix_weaken. Qed.

Lemma get_stores s h t : stores s h t -> get (K:=K) (V:=V) s h = Ok (Some t).
Proof.
  intros (Hr & b & Hb & Hs). unfold get. rewrite Hs.
  assert (deserialize_from_slice (T:=trie) b = Ok t) as ->; [|done].
  unfold deserialize_from_slice. cbn [from_bytes Trie_bytesrepr].
  rewrite <- (app_nil_r b), (trie_roundtrip t b [] Hr Hb). done.
Qed.

Lemma stores_mono s s' h t : s ⊆ s' -> stores s h t -> stores s' h t.
Proof. intros Hs (Hr & b & Hb & Hl). split; [done|]. exists b. eauto using lookup_weaken. Qed.

Lemma points_mono s s' ptr t : s ⊆ s' -> points s ptr t -> points s' ptr t.
Proof. intros Hs [H1 H2]. split; [|done]. by eapply stores_mono. Qed.

Lemma rep_nonempty s M t pre : rep s M t pre -> exists k, under M pre k.
Proof.
  induction 1 as [k v p pre Hk Hp Hpre _|pb f i j pre Hij [ptr Hi] _ _ _ IH _|affix ptr pb pre _ _ _ [k IH] _].
  - exists k. split; [by eexists|]. eauto.
  - destruct (IH i ptr Hi) as [k Hk]. exists k. by eapply under_weaken.
  - exists k. by eapply under_weaken.
Qed.

(** The keys under a node diverge there. *)
Lemma node_two_keys s M pb pre :
  rep s M (Node pb) pre -> exists k1 k2, k1 <> k2 /\ under M pre k1 /\ under M pre k2.
Proof.
  inversion 1 as [|? f i j ? Hij [pi Hi] [pj Hj] _ Hrep _|]; subst.
  destruct (rep_nonempty _ _ _ _ (Hrep i pi Hi)) as [k1 H1], (rep_nonempty _ _ _ _ (Hrep j pj Hj)) as [k2 H2].
  exists k1, k2. split_and!; [|by eapply under_weaken..]. intros <-.
  destruct H1 as (_ & p & Hp & Hi'). pose proof (under_path _ _ _ _ H2 Hp) as Hj'.
  destruct Hi' as [q Eq], Hj' as [r Er]. rewrite Eq, <- !app_assoc in Er. by apply app_inv_head in Er as [= ->].
Qed.

Lemma rep_children s M pb pre :
  rep s M (Node pb) pre -> exists f, children s M pb f pre.
Proof. inversion 1; subst. by exists f. Qed.

(** A subtrie depends only on the entries of the map below its prefix, and stays
    valid when the store grows. *)
Definition agree M M' pre : Prop :=
  forall k p, key_path k p -> pre `prefix_of` p -> M !! k = M' !! k.

Lemma agree_weaken M M' pre q : agree M M' pre -> agree M M' (pre ++ q).
Proof. intros Ha k p Hp Hq. eapply Ha; [done|]. by eapply prefix_weaken. Qed.

Lemma agree_under M M' pre k : agree M M' pre -> under M' pre k -> under M pre k.
Proof. intros Ha (Hk & p & Hp & Hpre). split; [|eauto]. by rewrite (Ha k p). Qed.

Lemma agree_sym M M' pre : agree M M' pre -> agree M' M pre.
Proof. intros Ha k p Hp Hq. symmetry. by eapply Ha. Qed.

Lemma rep_agree s s' M M' t pre : s ⊆ s' -> agree M M' pre -> rep s M t pre -> rep s' M' t pre.
Proof.
  intros Hs Ha Hrep. revert Ha.
  induction Hrep as [k v p pre Hk Hp Hpre Hu|pb f i j pre Hij Hi Hj Hpts Hrep IH Habs
    |affix ptr pb pre Haff Hpt Hrep IH Hu]; intros Ha.
  - apply rep_leaf with p; [by rewrite <- (Ha k p)|done|done|].
    intros k' Hk'. apply Hu. by eapply agree_under.
  - apply rep_node with f i j; [done..| | |].
    + intros. eapply points_mono; eauto.
    + intros x px Hx. eapply IH; [done|]. by apply agree_weaken.
    + intros x k Hx Hk. apply (Habs x k Hx). eapply agree_under; [|done]. by apply agree_weaken.
  - apply rep_ext with pb; [done|by eapply points_mono|apply IH; by apply agree_weaken|].
    intros k Hk. eapply (agree_under M'); [apply agree_weaken; by apply agree_sym|].
    apply Hu. by eapply agree_under.
Qed.

Lemma root_rep_mono s s' M root : s ⊆ s' -> root_rep s M root -> root_rep s' M root.
Proof.
  intros Hs (Hk & pb & f & Hst & H1 & H2 & H3). split; [done|]. exists pb, f.
  split; [by eapply stores_mono|]. split_and!; [| |done].
  - intros. eapply points_mono; eauto.
  - intros. eapply rep_agree; [done| |eauto]. by intros ?.
Qed.

(** A key's path cannot end at a node. *)
Lemma path_continues s M t pre x k p :
  rep s M t (pre ++ [x]) -> key_path k p -> pre `prefix_of` p -> exists i q, p = pre ++ i :: q.
Proof.
  intros Hrep Hp [[|i q] ->]; [|by eexists _, _].
  destruct (rep_nonempty _ _ _ _ Hrep) as (k' & Hk' & p' & Hp' & Hpre).
  rewrite app_nil_r in Hp. exfalso.
  assert (k = k') as -> by (eapply key_path_prefix; [done|done|by eapply prefix_weaken]).
  rewrite (key_path_fun _ _ _ Hp' Hp) in Hpre. apply prefix_length in Hpre.
  rewrite length_app in Hpre. cbn in Hpre. lia.
Qed.

Lemma node_path_continues s M pb pre k p :
  rep s M (Node pb) pre -> key_path k p -> pre `prefix_of` p -> exists i q, p = pre ++ i :: q.
Proof.
  inversion 1 as [|? f i j ? ? [ptr Hi] ? ? Hc ?|]; subst.
  eapply path_continues. by apply (Hc i ptr).
Qed.
End rep.
