(* ===== verification/TrieRead.v ===== *)
(** * Reading from the trie store

    [read] returns what the represented map holds. *)
From S2P Require Import Prelude BTree Bytesrepr Digest Trie TrieOps TrieRep.

Open Scope Z_scope.

Section read.
Context (blake2b : list u8 -> Digest) {TF : TreeFold1} (CHUNK_SIZE_BYTES : nat).
Context {K V : Type} {DK : Bytesrepr K} {SK : BytesreprSpec K DK}.
Context {DV : Bytesrepr V} {SV : BytesreprSpec V DV} `{Countable K}.

Abbreviation trie := (Trie K V).
Abbreviation rep := (rep CHUNK_SIZE_BYTES).
Abbreviation root_rep := (root_rep CHUNK_SIZE_BYTES).
Abbreviation key_path := (key_path CHUNK_SIZE_BYTES).
Abbreviation under := (under CHUNK_SIZE_BYTES).
Implicit Types (k : K) (s : store) (M : gmap K V) (pre : list u8).

(** The key is stored, or wherever all stored keys below a part of the key's path
    go on with the same bytes, these end no later than the key's path. *)
Definition long_enough M (k : K) (p : list u8) : Prop :=
  is_Some (M !! k) \/
  forall pre c k1 k2, pre <> [] -> pre `prefix_of` p -> pre `prefix_of` c -> k1 <> k2 ->
    under M c k1 -> under M c k2 -> (forall k', under M pre k' -> under M c k') ->
    (length c <= length p)%nat.

Lemma longest_enough M k p :
  (forall k' p', is_Some (M !! k') -> key_path k' p' -> (length p' <= length p)%nat) -> long_enough M k p.
Proof.
  intros Hmax. right. intros pre c k1 k2 _ _ _ _ (Hk & p' & Hp & Hc%prefix_length) _ _. specialize (Hmax k1 p' Hk Hp). lia.
Qed.

Definition answer (o : option V) : ReadResult V :=
  match o with Some v => Found v | None => NotFound end.

Lemma absent_none M pre k p :
  key_path k p -> pre `prefix_of` p -> ~ under M pre k -> M !! k = None.
Proof.
  intros Hp Hpre Hu. apply eq_None_not_Some. intros Hs. apply Hu. split; [done|]. by exists p.
Qed.

(** The affix of an extension on the way to a key is within the key's path. *)
Lemma ext_in_range s M affix ptr pre k q :
  rep s M (Extension affix ptr) pre -> pre <> [] -> key_path k (pre ++ q) -> long_enough M k (pre ++ q) ->
  (length affix <= length q)%nat.
Proof.
  inversion 1 as [| |? ? pb ? Haff Hpt Hrep Hu]; subst. intros Hne Hp [Hk|Hlen].
  - assert (under M pre k) as Hk'%Hu by (split; [done|]; exists (pre ++ q); split; [done|by eexists]).
    pose proof (under_path _ _ _ _ _ Hk' Hp) as Hpre. apply prefix_length in Hpre.
    rewrite !length_app in Hpre. lia.
  - destruct (node_two_keys _ _ _ _ _ Hrep) as (k1 & k2 & Hk & H1 & H2).
    specialize (Hlen pre (pre ++ affix) k1 k2 Hne (prefix_app_r _ _ _ (reflexivity _))
      (prefix_app_r _ _ _ (reflexivity _)) Hk H1 H2 Hu).
    rewrite !length_app in Hlen. lia.
Qed.

Lemma read_loop_rep s M t pre k p fuel :
  rep s M t pre -> pre <> [] -> key_path k p -> pre `prefix_of` p -> long_enough M k p ->
  (length p < length pre + fuel)%nat ->
  read_loop fuel s k p (length pre) t = Ok (answer (M !! k)).
Proof.
  intros Hrep. revert p fuel.
  induction Hrep as [k0 v p0 pre Hk Hp Hpre Hu|pb f i j pre Hij Hi Hj Hpts Hrep IH Habs
    |affix ptr pb pre Haff Hpt Hrep IH Hu]; intros p [|fuel] Hnil Hkp Hpp Hlong Hfuel;
    try (apply prefix_length in Hpp; lia); cbn [read_loop].
  - destruct (decide (k = k0)) as [->|Hne]; [by rewrite Hk|]. f_equal.
    destruct (M !! k) eqn:E; [|done]. destruct Hne. apply Hu. split; [by eexists|]. eauto.
  - destruct (node_path_continues CHUNK_SIZE_BYTES s M pb pre k p) as (x & q & ->);
      [by eapply rep_node|done|done|].
    rewrite lookup_after. cbn [head expect mbind result_bind].
    assert (pre ++ [x] `prefix_of` pre ++ x :: q) as Hx.
    { exists q. by rewrite <- app_assoc. }
    destruct (pb !! x) as [ptr|] eqn:Ex.
    + destruct (Hpts x ptr Ex) as [Hst _]. rewrite (get_stores _ _ _ Hst). cbn [mbind result_bind].
      replace (length pre + 1)%nat with (length (pre ++ [x])) by (rewrite length_app; cbn; lia).
      apply (IH x ptr Ex); [by destruct pre|done..|]. rewrite !length_app in *. cbn [length] in *. lia.
    + by rewrite (absent_none M _ k _ Hkp Hx) by auto.
  - destruct Hpp as [q ->].
    assert (length affix <= length q)%nat as Hr.
    { eapply ext_in_range; [|done|exact Hkp|done]. by eapply rep_ext. }
    rewrite slice_app by done. cbn [mbind result_bind]. case_decide as E.
    + destruct Hpt as [Hst _]. rewrite (get_stores _ _ _ Hst). cbn [mbind result_bind].
      assert (q = affix ++ drop (length affix) q) as Eq by (rewrite <- E at 1; by rewrite take_drop).
      replace (length pre + length affix)%nat with (length (pre ++ affix)) by (by rewrite length_app).
      apply IH; [by destruct pre|done| |done|].
      * rewrite Eq, app_assoc. by eexists.
      * destruct affix; [done|]. rewrite !length_app in *. cbn [length] in *. lia.
    + destruct (M !! k) as [v|] eqn:Ek; [|done]. exfalso. apply E.
      assert (under M pre k) as Hk%Hu.
      { split; [by eexists|]. exists (pre ++ q). split; [done|]. by eexists. }
      pose proof (under_path _ _ _ _ _ Hk Hkp) as [r Er].
      rewrite <- app_assoc in Er. apply app_inv_head in Er as ->. by rewrite take_app_length.
Qed.

Lemma read_rep s M root k p :
  root_rep s M root -> key_path k p -> long_enough M k p ->
  read s root k = Ok (answer (M !! k)).
Proof.
  intros (Hk & pb & f & Hst & Hpts & Hrep & Habs) Hkp Hlong. unfold read.
  pose proof Hkp as (Hr & Hp & Hne & Hsz). rewrite Hp. cbn [mbind result_bind].
  rewrite (get_stores _ _ _ Hst). cbn [mbind result_bind]. unfold walk_fuel. cbn [read_loop].
  destruct p as [|x q]; [done|]. cbn [lookup list_lookup expect mbind result_bind].
  assert ([] ++ [x] `prefix_of` x :: q) as Hx by (by exists q).
  destruct (pb !! x) as [ptr|] eqn:Ex.
  - destruct (Hpts x ptr Ex) as [Hst' _]. rewrite (get_stores _ _ _ Hst'). cbn [mbind result_bind].
    apply (read_loop_rep s M (f x) ([] ++ [x]) k (x :: q)); [by eapply Hrep|done..|].
    cbn [length app]. nia.
  - rewrite (absent_none M ([] ++ [x]) k (x :: q)); [done|done|done|]. by apply Habs.
Qed.
End read.
