(* ===== verification/TrieKeys.v ===== *)
(** * Listing the keys of the trie store by prefix

    Models [KeysIterator] and [keys_with_prefix] of
    [storage/src/global_state/trie_store/operations/mod.rs] and the loop over the
    iterator in [storage/src/global_state/state/lmdb.rs]: the walk through the trie
    with a stack of visited nodes lists exactly the keys whose bytes start with the
    prefix, in the order of their bytes. *)
From S2P Require Import Prelude BTree Bytesrepr Digest Trie TrieOps TrieRep.

Open Scope Z_scope.

Fixpoint starts_with (bytes prefix : list u8) {struct prefix} : bool :=
  match prefix, bytes with
  | [], _ => true
  | p :: prefix, b :: bytes => bool_decide (b = p) && starts_with bytes prefix
  | _ :: _, [] => false
  end.

(** ** The iterator *)

Record VisitedTrieNode : Type := mkVisited {
  visited_trie : LazilyDeserializedTrie;
  maybe_index : option nat;
  visited_path : list u8
}.
Inductive KeysIteratorState : Type := KS_Ok | KS_ReturnError (e : Error) | KS_Failed.
(** The last of [visited] is the head of the list. *)
Record KeysIterator : Type := mkIterator {
  initial_descend : list u8;
  visited : list VisitedTrieNode;
  iterator_state : KeysIteratorState
}.

(** The next trie, read without deserializing leaves. *)
Definition load (s : store) (hash : Digest) : result Error (option LazilyDeserializedTrie) :=
  match s !! hash with
  | Some trie_bytes => lazy_trie ← lazy_deserialize trie_bytes; Ok (Some lazy_trie)
  | None => Ok None
  end.
Definition push_next (next : option LazilyDeserializedTrie) (path : list u8) (visited : list VisitedTrieNode) :
    list VisitedTrieNode :=
  match next with Some trie => mkVisited trie None path :: visited | None => visited end.
(** [while index < RADIX]; at most [RADIX] rounds. *)
Fixpoint next_child (fuel : nat) (descending : bool) (pb : PointerBlock) (index : nat) : option (nat * Pointer) :=
  match fuel with
  | O => None
  | S fuel =>
      if (index <? RADIX)%nat then
        match pb !! u8_of_nat index with
        | Some pointer => Some (index, pointer)
        | None => if descending then None else next_child fuel descending pb (index + 1)
        end
      else None
  end.

Section keys.
Context {K : Type} {DK : Bytesrepr K}.

(** One round of the loop of [next], on the node popped from [visited]: the key to
    return, the rest of the initial descent and the nodes to visit.  An error puts
    the iterator into the state [Failed]. *)
Definition visit_node (s : store) (initial_descend : list u8) (visited : list VisitedTrieNode) (node : VisitedTrieNode) :
    result Error (option K * list u8 * list VisitedTrieNode) :=
  let path := visited_path node in
  match visited_trie node with
  | LazyLeaf [] => Err Formatting
  | LazyLeaf (_ :: key_bytes) =>
      if starts_with key_bytes (path ++ initial_descend) then
        '(key, _) ← from_bytes key_bytes; Ok (Some key, initial_descend, visited)
      else Ok (None, initial_descend, visited)
  | LazyNode pointer_block =>
      let '(descending, index) :=
        match initial_descend with
        | d :: _ => (true, u8_to_nat d)
        | [] => (false, default 0%nat (maybe_index node))
        end in
      match next_child RADIX descending pointer_block index with
      | None => Ok (None, initial_descend, visited)
      | Some (index, pointer) =>
          maybe_next_trie ← load s (pointer_hash pointer);
          let visited :=
            match initial_descend with
            | [] => mkVisited (visited_trie node) (Some (index + 1)%nat) path :: visited
            | _ :: _ => visited
            end in
          Ok (None, tail initial_descend, push_next maybe_next_trie (path ++ [u8_of_nat index]) visited)
      end
  | LazyExtension affix pointer =>
      let descend_len := Nat.min (length initial_descend) (length affix) in
      if starts_with affix (take descend_len initial_descend) then
        maybe_next_trie ← load s (pointer_hash pointer);
        Ok (None, drop descend_len initial_descend, push_next maybe_next_trie (path ++ affix) visited)
      else Ok (None, drop descend_len initial_descend, visited)
  end.

(** [Iterator::next]: [None], or the next key or error. *)
Fixpoint next_loop (fuel : nat) (s : store) (initial_descend : list u8) (visited : list VisitedTrieNode) :
    result Error (option (K + Error) * KeysIterator) :=
  match fuel with
  | O => Diverge
  | S fuel =>
      match visited with
      | [] => Ok (None, mkIterator initial_descend [] KS_Ok)
      | node :: visited =>
          match visit_node s initial_descend visited node with
          | Ok (Some key, initial_descend, visited) => Ok (Some (inl key), mkIterator initial_descend visited KS_Ok)
          | Ok (None, initial_descend, visited) => next_loop fuel s initial_descend visited
          | Err e => Ok (Some (inr e), mkIterator initial_descend visited KS_Failed)
          | Panic => Panic
          | Diverge => Diverge
          end
      end
  end.
Definition next (fuel : nat) (s : store) (it : KeysIterator) : result Error (option (K + Error) * KeysIterator) :=
  match iterator_state it with
  | KS_Ok => next_loop fuel s (initial_descend it) (visited it)
  | KS_ReturnError e => Ok (Some (inr e), mkIterator (initial_descend it) (visited it) KS_Failed)
  | KS_Failed => Ok (None, mkIterator (initial_descend it) (visited it) KS_Ok)
  end.

Definition keys_with_prefix (s : store) (root : Digest) (prefix : list u8) : result Error KeysIterator :=
  match s !! root with
  | None => Ok (mkIterator prefix [] KS_Ok)
  | Some current_root_bytes =>
      match lazy_deserialize current_root_bytes with
      | Ok lazy_trie => Ok (mkIterator prefix [mkVisited lazy_trie None []] KS_Ok)
      | Err error => Ok (mkIterator prefix [] (KS_ReturnError error))
      | Panic => Panic
      | Diverge => Diverge
      end
  end.

(** [LmdbGlobalStateView::keys_with_prefix]: the keys until the iterator ends. *)
Fixpoint collect_keys (fuel next_fuel : nat) (s : store) (it : KeysIterator) (ret : list K) : result Error (list K) :=
  match fuel with
  | O => Diverge
  | S fuel =>
      '(item, it) ← next next_fuel s it;
      match item with
      | None => Ok ret
      | Some (inl key) => collect_keys fuel next_fuel s it (ret ++ [key])
      | Some (inr error) => Err error
      end
  end.
Definition view_keys_with_prefix (fuel : nat) (s : store) (root_hash : Digest) (prefix : list u8) : result Error (list K) :=
  it ← keys_with_prefix s root_hash prefix;
  collect_keys fuel fuel s it [].
End keys.

(** ** Lemmas on prefixes and children *)

Lemma starts_with_spec bytes prefix : starts_with bytes prefix = true <-> prefix `prefix_of` bytes.
Proof.
  revert bytes. induction prefix as [|p prefix IH]; intros bytes; cbn [starts_with].
  { split; [by exists bytes|done]. }
  destruct bytes as [|b bytes]; [split; [done|by intros [? [=]]]|].
  rewrite andb_true_iff, bool_decide_eq_true, IH. split.
  - intros [-> [r ->]]. by exists r.
  - intros [r [= -> ->]]. split; [done|by exists r].
Qed.
Lemma starts_with_false bytes prefix : starts_with bytes prefix = false <-> ~ prefix `prefix_of` bytes.
Proof. rewrite <- starts_with_spec. by destruct (starts_with bytes prefix). Qed.

Lemma next_child_spec fuel pb index :
  (RADIX <= index + fuel)%nat ->
  match next_child fuel false pb index with
  | Some (x, ptr) => (index <= x < RADIX)%nat /\ pb !! u8_of_nat x = Some ptr /\
      forall y, (index <= y < x)%nat -> pb !! u8_of_nat y = None
  | None => forall y, (index <= y < RADIX)%nat -> pb !! u8_of_nat y = None
  end.
Proof.
  revert index. induction fuel as [|fuel IH]; intros index Hf; cbn [next_child]; [lia|].
  destruct (Nat.ltb_spec index RADIX); [|lia]. destruct (pb !! u8_of_nat index) as [ptr|] eqn:E.
  { split; [lia|]. split; [done|]. lia. }
  specialize (IH (index + 1)%nat ltac:(lia)). destruct (next_child fuel false pb (index + 1)) as [[x ptr]|].
  - destruct IH as (Hx & Hp & Hn). split; [lia|]. split; [done|]. intros y Hy.
    destruct (decide (y = index)) as [->|]; [done|]. apply Hn. lia.
  - intros y Hy. destruct (decide (y = index)) as [->|]; [done|]. apply IH. lia.
Qed.
Lemma next_child_descend pb d :
  next_child RADIX true pb (u8_to_nat d) = (fun ptr => (u8_to_nat d, ptr)) <$> pb !! d.
Proof.
  unfold RADIX. cbn [next_child]. pose proof (u8_to_nat_lt d). destruct (Nat.ltb_spec (u8_to_nat d) RADIX); [|unfold RADIX in *; lia].
  rewrite u8_of_to_nat. by destruct (pb !! d).
Qed.

(** ** Correctness *)

Section correctness.
Context (CHUNK_SIZE_BYTES : nat).
Context {K V : Type} {DK : Bytesrepr K} {SK : BytesreprSpec K DK}.
Context {DV : Bytesrepr V} {SV : BytesreprSpec V DV} `{Countable K}.
Abbreviation trie := (Trie K V).
Abbreviation rep := (rep CHUNK_SIZE_BYTES).
Abbreviation root_rep := (root_rep CHUNK_SIZE_BYTES (K:=K) (V:=V)).
Abbreviation key_path := (key_path CHUNK_SIZE_BYTES (K:=K)).
Abbreviation under := (under CHUNK_SIZE_BYTES (K:=K) (V:=V)).
Abbreviation children := (children CHUNK_SIZE_BYTES).
Implicit Types (k : K) (s : store) (M : gmap K V) (pre d : list u8) (pb : PointerBlock) (ks : list K).

(** Rounds of [next], with the keys they return. *)
Inductive rounds s : list u8 -> list VisitedTrieNode -> list K -> list u8 -> list VisitedTrieNode -> Prop :=
| rounds_refl d v : rounds s d v [] d v
| rounds_step d node v o d1 v1 ks d2 v2 :
    visit_node s d v node = Ok (o, d1, v1) -> rounds s d1 v1 ks d2 v2 ->
    rounds s d (node :: v) (option_list o ++ ks) d2 v2.

Lemma rounds_trans s d v ks d1 v1 ks' d2 v2 :
  rounds s d v ks d1 v1 -> rounds s d1 v1 ks' d2 v2 -> rounds s d v (ks ++ ks') d2 v2.
Proof.
  induction 1 as [|d node v o d1 v1 ks d3 v3 E _ IH]; [done|]. intros H2. rewrite <- app_assoc.
  by eapply rounds_step; [|apply IH].
Qed.

(** *** With enough fuel the loops do all the rounds *)

Lemma next_loop_mono fuel s d v r : next_loop (K:=K) fuel s d v = Ok r -> next_loop (S fuel) s d v = Ok r.
Proof.
  revert d v. induction fuel as [|fuel IH]; intros d v; [done|].
  cbn [next_loop]. destruct v as [|node v]; [done|].
  destruct (visit_node s d v node) as [[[[k|] d1] v1]| | |]; try done. intros E. apply IH in E. exact E.
Qed.
Lemma collect_rounds s d v ks d' :
  rounds s d v ks d' [] ->
  exists n, forall fuel next_fuel acc, (n <= fuel)%nat -> (n <= next_fuel)%nat ->
    collect_keys fuel next_fuel s (mkIterator d v KS_Ok) acc = Ok (acc ++ ks).
Proof.
  remember [] as v' eqn:Ev. induction 1 as [d v|d node v o d1 v1 ks d2 v2 E _ IH]; subst.
  { exists 1%nat. intros [|fuel] [|next_fuel] acc ? ?; try lia. cbn. by rewrite app_nil_r. }
  destruct (IH eq_refl) as [n Hn]. exists (S (S n)). intros [|fuel] [|next_fuel] acc Hf Hn'; try lia.
  cbn [collect_keys]. unfold next. cbn [iterator_state initial_descend visited next_loop]. rewrite E.
  destruct o as [k|]; cbn [option_list].
  - cbn [mbind result_bind]. rewrite Hn by lia. by rewrite <- app_assoc.
  - cbn [app]. pose proof (Hn (S fuel) next_fuel acc ltac:(lia) ltac:(lia)) as H1.
    pose proof (Hn (S fuel) (S next_fuel) acc ltac:(lia) ltac:(lia)) as H2.
    cbn [collect_keys] in H1, H2. unfold next in H1, H2. cbn [iterator_state initial_descend visited] in H1, H2.
    destruct (next_loop next_fuel s d1 v1) as [r| | |] eqn:En; try discriminate H1.
    rewrite (next_loop_mono _ _ _ _ _ En) in H2. exact H2.
Qed.

(** *** Keys in the order of their bytes *)

Definition before k k' : Prop :=
  exists p p', key_path k p /\ key_path k' p' /\ ord_ltb p p' = true.
(** [ks] are the keys whose bytes start with [pre]. *)
Definition lists M pre ks : Prop := StronglySorted before ks /\ forall k, k ∈ ks <-> under M pre k.

Lemma before_irrefl k : ~ before k k.
Proof. intros (p & p' & Hp & Hp' & E). by rewrite (key_path_fun _ _ _ _ Hp Hp'), ord_irrefl in E. Qed.
Lemma lists_nodup M pre ks : lists M pre ks -> NoDup ks.
Proof.
  intros [Hs _]. induction Hs as [|k ks _ IH Hk]; constructor; [|done]. intros Hin. rewrite Forall_forall in Hk.
  by apply (before_irrefl k), Hk.
Qed.
Lemma ord_app_cons pre (x y : u8) q q' : ord_ltb x y = true -> ord_ltb (pre ++ x :: q) (pre ++ y :: q') = true.
Proof.
  intros Hxy. unfold ord_ltb at 1, list_ord. induction pre as [|a pre IH]; cbn; [by rewrite Hxy|].
  by rewrite ord_irrefl, IH.
Qed.
Lemma under_before M pre x y k k' :
  under M (pre ++ [x]) k -> under M (pre ++ [y]) k' -> ord_ltb x y = true -> before k k'.
Proof.
  intros (_ & p & Hp & [q ->]) (_ & p' & Hp' & [q' ->]) Hxy. eexists _, _. split; [exact Hp|]. split; [exact Hp'|].
  rewrite <- !app_assoc. cbn. by apply ord_app_cons.
Qed.
Lemma sorted_app ks ks' :
  StronglySorted before ks -> StronglySorted before ks' -> (forall k k', k ∈ ks -> k' ∈ ks' -> before k k') ->
  StronglySorted before (ks ++ ks').
Proof.
  intros H1 H2 Hb. induction H1 as [|k ks H1 IH Hk]; [done|]. cbn. constructor.
  - apply IH. intros k1 k2 ?. apply Hb. apply elem_of_cons. by right.
  - apply Forall_app. split; [done|]. rewrite Forall_forall. intros k2 Hk2. apply Hb; [apply elem_of_cons; by left|done].
Qed.

(** *** The walk *)

Lemma load_stores s h (t : trie) :
  stores s h t -> exists b, (trie_representable t /\ trie_to_bytes t = Ok b) /\ load s h = Ok (Some (lazy_of t b)).
Proof.
  intros (Hr & b & Hb & Hs). exists b. split; [done|]. unfold load. rewrite Hs.
  by rewrite (lazy_deserialize_trie _ _ Hr Hb).
Qed.
(** What a subtrie must do when it is visited: return its keys. *)
Definition walks s M (t : trie) pre : Prop :=
  forall b, trie_representable t /\ trie_to_bytes t = Ok b ->
  exists ks, lists M pre ks /\ forall v, rounds s [] (mkVisited (lazy_of t b) None pre :: v) ks [] v.

Lemma node_walks_from s M pb f pre :
  children s M pb f pre -> (forall x ptr, pb !! x = Some ptr -> walks s M (f x) (pre ++ [x])) ->
  forall n index, (RADIX <= index + n)%nat -> exists ks, StronglySorted before ks /\
    (forall k, k ∈ ks <-> exists x, (index <= u8_to_nat x)%nat /\ under M (pre ++ [x]) k) /\
    forall i v, default 0%nat i = index -> rounds s [] (mkVisited (LazyNode pb) i pre :: v) ks [] v.
Proof.
  intros (Hpts & Hrep & Habs) Hw. induction n as [n IH] using lt_wf_ind. intros index Hf.
  pose proof (next_child_spec RADIX pb index ltac:(lia)) as Hnext.
  destruct (next_child RADIX false pb index) as [[x ptr]|] eqn:En; last first.
  - exists []. split; [constructor|]. split.
    + intros k. split; [by intros ?%not_elem_of_nil|]. intros (x & Hx & Hu). exfalso.
      apply (Habs x k); [|done]. rewrite <- (u8_of_to_nat x). apply Hnext. pose proof (u8_to_nat_lt x). unfold RADIX. lia.
    + intros i v <-. apply (rounds_step s [] _ v None [] v [] [] v); [|constructor]. unfold visit_node. cbn [visited_trie visited_path maybe_index]. by rewrite En.
  - destruct Hnext as (Hx & Hp & Hno). destruct n as [|n]; [lia|].
    destruct (Hpts _ _ Hp) as [Hst _]. destruct (load_stores _ _ _ Hst) as (b & Hb & Hload).
    destruct (Hw _ _ Hp b Hb) as (ks1 & [Hs1 He1] & Hr1).
    destruct (IH n ltac:(lia) (x + 1)%nat) as (ks2 & Hs2 & He2 & Hr2); [lia|].
    exists (ks1 ++ ks2). split; [|split].
    + apply sorted_app; [done..|]. intros k k' Hk%He1 Hk'%He2. destruct Hk' as (y & Hy & Hk').
      eapply under_before; [done|done|]. cbv [ord_ltb u8_ord]. rewrite <- !u8_to_nat_Z, u8_to_of_nat by (unfold RADIX in *; lia). lia.
    + intros k. rewrite elem_of_app, He1, He2. split.
      * intros [Hu|(y & Hy & Hu)]; [exists (u8_of_nat x)|exists y]; (split; [|done]); [rewrite u8_to_of_nat|]; unfold RADIX in *; lia.
      * intros (y & Hy & Hu). destruct (decide (u8_to_nat y = x)) as [<-|Hne]; [left; by rewrite u8_of_to_nat|].
        right. exists y. split; [|done]. destruct (decide (x < u8_to_nat y)%nat); [lia|]. exfalso.
        apply (Habs y k); [|done]. rewrite <- (u8_of_to_nat y). apply Hno. lia.
    + intros i v <-. eapply (rounds_step s [] _ v None [] _ (ks1 ++ ks2)).
      * unfold visit_node. cbn [visited_trie visited_path maybe_index]. rewrite En, Hload. cbn [mbind result_bind]. reflexivity.
      * eapply rounds_trans; [apply Hr1|]. by apply Hr2.
Qed.

Lemma leaf_bytes k v b p :
  key_path k p -> trie_representable (Leaf k v : trie) /\ trie_to_bytes (Leaf k v : trie) = Ok b -> exists t vb, b = t :: p ++ vb.
Proof.
  intros (_ & Hp & _) [Hr (_ & q & (bk & bv & Hbk & _ & ->) & ->)%trie_to_bytes_Ok]; [|done].
  assert (bk = p) as -> by congruence. by eexists _, bv.
Qed.
(** The rest of a node's keys, from its first child on. *)
Lemma node_walks s M pb f pre :
  children s M pb f pre -> (forall x ptr, pb !! x = Some ptr -> walks s M (f x) (pre ++ [x])) ->
  (forall k, under M pre k -> exists x, under M (pre ++ [x]) k) -> walks s M (Node pb) pre.
Proof.
  intros Hc Hw Hcont b _. destruct (node_walks_from s M pb f pre Hc Hw RADIX 0%nat) as (ks & Hs & He & Hr); [lia|].
  exists ks. split; [|intros v; by apply Hr]. split; [done|]. intros k. rewrite He. split.
  - intros (x & _ & Hu). by eapply under_weaken.
  - intros [x Hx]%Hcont. exists x. split; [lia|done].
Qed.
Lemma node_continues s M pb pre k :
  rep s M (Node pb) pre -> under M pre k -> exists x, under M (pre ++ [x]) k.
Proof.
  intros Hr (Hk & p & Hp & Hpre). destruct (node_path_continues CHUNK_SIZE_BYTES s M pb pre k p Hr Hp Hpre) as (x & q & ->).
  exists x. split; [done|]. eexists. split; [exact Hp|]. apply prefix_snoc_cons.
Qed.
Lemma rep_walks s M t pre : rep s M t pre -> walks s M t pre.
Proof.
  induction 1 as [k v p pre Hk Hp Hpre Hu|pb f i j pre Hij Hi Hj Hpts Hrep IH Habs|affix ptr pb pre Haff [Hst _] Hrep IH Hu].
  - intros b Hb. exists [k]. split.
    + split; [repeat constructor|]. intros k'. rewrite list_elem_of_singleton. split; [intros ->|apply Hu].
      split; [by eexists|]. by exists p.
    + intros v0. destruct (leaf_bytes k v b p Hp Hb) as (tag & vb & ->). cbn [lazy_of].
      apply (rounds_step s [] _ v0 (Some k) [] v0 [] [] v0); [|constructor].
      unfold visit_node. cbn [visited_trie visited_path]. rewrite app_nil_r.
      rewrite (proj2 (starts_with_spec _ _)) by (by apply prefix_app_r).
      destruct Hp as (Hrk & Hbk & _). by rewrite (spec_roundtrip k p vb Hrk Hbk).
  - apply (node_walks s M pb f); [done|done|]. intros k. apply (node_continues s M pb). by eapply rep_node.
  - intros b _. destruct (load_stores _ _ _ Hst) as (b' & Hb' & Hload). destruct (IH b' Hb') as (ks & [Hs He] & Hr).
    exists ks. split.
    + split; [done|]. intros k. rewrite He. split; [apply under_weaken|apply Hu].
    + intros v. eapply (rounds_step s [] _ v None [] _ ks); [|apply Hr].
      unfold visit_node. cbn [visited_trie visited_path length Nat.min take drop starts_with lazy_of]. by rewrite Hload.
Qed.

(** *** The descent along the prefix *)

(** No stored key ends within the prefix. *)
Definition not_within M d : Prop := forall k p, is_Some (M !! k) -> key_path k p -> p `prefix_of` d -> p = d.
Definition descends s M (t : trie) pre : Prop :=
  forall b d, trie_representable t /\ trie_to_bytes t = Ok b -> not_within M (pre ++ d) ->
  exists ks d', lists M (pre ++ d) ks /\ rounds s d [mkVisited (lazy_of t b) None pre] ks d' [].

Lemma lists_nil M pre : (forall k, ~ under M pre k) -> lists M pre [].
Proof. intros Hn. split; [constructor|]. intros k. split; [by intros ?%not_elem_of_nil|by intros ?%Hn]. Qed.
Lemma node_descends s M pb f pre (x : u8) d b :
  children s M pb f pre -> (forall y ptr, pb !! y = Some ptr -> descends s M (f y) (pre ++ [y])) ->
  not_within M (pre ++ x :: d) ->
  exists ks d', lists M (pre ++ x :: d) ks /\ rounds s (x :: d) [mkVisited (lazy_of (Node pb : trie) b) None pre] ks d' [].
Proof.
  intros (Hpts & _ & Habs) IH Hnw. pose proof (next_child_descend pb x) as En.
  destruct (pb !! x) as [ptr|] eqn:Ed; cbn [fmap option_fmap option_map] in En.
  - destruct (Hpts _ _ Ed) as [Hst _]. destruct (load_stores _ _ _ Hst) as (b' & Hb' & Hload).
    rewrite cons_middle, app_assoc in Hnw. destruct (IH x ptr Ed b' d Hb' Hnw) as (ks & d' & Hl & Hr).
    rewrite <- app_assoc in Hl. exists ks, d'. split; [done|].
    eapply (rounds_step s (x :: d) _ [] None d _ ks); [|exact Hr].
    unfold visit_node. cbn [visited_trie visited_path lazy_of]. rewrite En, Hload. cbn [mbind result_bind tail push_next].
    by rewrite u8_of_to_nat.
  - exists [], (x :: d). split.
    + apply lists_nil. intros k Hu. apply (Habs x k Ed). rewrite cons_middle, app_assoc in Hu. by eapply under_weaken.
    + apply (rounds_step s (x :: d) _ [] None (x :: d) [] [] _ []); [|constructor].
      unfold visit_node. cbn [visited_trie visited_path lazy_of]. by rewrite En.
Qed.

Lemma leaf_descends s M k v p pre :
  M !! k = Some v -> key_path k p -> pre `prefix_of` p -> (forall k', under M pre k' -> k' = k) -> descends s M (Leaf k v) pre.
Proof.
  intros Hk Hp Hpre Hu b d Hb Hnw. destruct (leaf_bytes k v b p Hp Hb) as (tag & vb & ->). cbn [lazy_of].
  assert (under M pre k) as Huk by (split; [by eexists|by exists p]).
  destruct (starts_with (p ++ vb) (pre ++ d)) eqn:E.
  - assert (pre ++ d `prefix_of` p) as Hd.
    { apply starts_with_spec in E as [r Er]. destruct (app_eq_inv _ _ _ _ Er) as [(l & -> & _)|(l & Hl & _)]; [by exists l|].
      rewrite (Hnw k p); [done|by eexists|done|]. by exists l. }
    exists [k], d. split.
    + split; [repeat constructor|]. intros k'. rewrite list_elem_of_singleton. split; [intros ->|].
      * split; [by eexists|by exists p].
      * intros Hk'. apply Hu. by eapply under_weaken.
    + apply (rounds_step s d _ [] (Some k) d [] [] d []); [|constructor].
      unfold visit_node. cbn [visited_trie visited_path]. rewrite E. destruct Hp as (Hrk & Hbk & _).
      by rewrite (spec_roundtrip k p vb Hrk Hbk).
  - apply starts_with_false in E. exists [], d. split.
    + apply lists_nil. intros k' Hk'. apply E. rewrite (Hu k') in Hk' by (by eapply under_weaken).
      pose proof (under_path _ _ _ _ _ Hk' Hp) as [r ->]. exists (r ++ vb). by rewrite app_assoc.
    + apply (rounds_step s d _ [] None d [] [] d []); [|constructor].
      unfold visit_node. cbn [visited_trie visited_path]. by rewrite (proj2 (starts_with_false _ _) E).
Qed.
Lemma lists_below M pre c d ks :
  (forall k, under M pre k -> under M (pre ++ c ++ d) k) -> lists M (pre ++ c ++ d) ks -> lists M (pre ++ c) ks.
Proof.
  intros Hu [Hs He]. split; [done|]. intros k. rewrite He. split.
  - rewrite app_assoc. apply under_weaken.
  - intros Hk. apply Hu. by eapply under_weaken.
Qed.
Lemma ext_descends s M affix ptr pb pre :
  stores s (pointer_hash ptr) (Node pb : trie) -> (forall k, under M pre k -> under M (pre ++ affix) k) ->
  walks s M (Node pb) (pre ++ affix) -> descends s M (Node pb) (pre ++ affix) -> descends s M (Extension affix ptr) pre.
Proof.
  intros Hst Hu Hw Hd b d _ Hnw. destruct (load_stores _ _ _ Hst) as (b' & Hb' & Hload). cbn [lazy_of].
  set (m := Nat.min (length d) (length affix)).
  destruct (starts_with affix (take m d)) eqn:E.
  - apply starts_with_spec in E as [r Er].
    assert (exists ks d', lists M (pre ++ d) ks /\
      rounds s (drop m d) [mkVisited (lazy_of (Node pb : trie) b') None (pre ++ affix)] ks d' []) as (ks & d' & Hl & Hr).
    { destruct (decide (length d <= length affix)%nat) as [Hlen|Hlen].
      - unfold m in *. rewrite Nat.min_l in * by done. rewrite firstn_all in Er. rewrite drop_all.
        destruct (Hw b' Hb') as (ks & Hl & Hr). exists ks, []. split; [|apply Hr]. subst affix. by apply (lists_below _ _ _ r).
      - unfold m in *. rewrite Nat.min_r in * by lia. assert (r = []) as ->.
        { apply (f_equal length) in Er. rewrite length_app, length_take in Er. destruct r; [done|]. cbn in Er. lia. }
        rewrite app_nil_r in Er. assert (d = affix ++ drop (length affix) d) as Ed by (rewrite Er at 1; by rewrite take_drop).
        rewrite Ed, app_assoc in Hnw. destruct (Hd b' _ Hb' Hnw) as (ks & d' & Hl & Hr). exists ks, d'.
        rewrite <- app_assoc, <- Ed in Hl. done. }
    exists ks, d'. split; [done|]. eapply (rounds_step s d _ [] None _ _ ks); [|exact Hr].
    unfold visit_node. cbn [visited_trie visited_path]. fold m. rewrite (proj2 (starts_with_spec _ _)) by (by exists r).
    by rewrite Hload.
  - apply starts_with_false in E. exists [], (drop m d). split.
    + apply lists_nil. intros k Hk. apply E. pose proof (Hu k (under_weaken _ _ _ _ _ Hk)) as Hk'.
      destruct Hk as (_ & p & Hp & [q Eq]). pose proof (under_path _ _ _ _ _ Hk' Hp) as [q' Eq'].
      rewrite Eq, <- !app_assoc in Eq'. apply app_inv_head in Eq'.
      assert (take m d = take m affix) as ->; [|apply prefix_take].
      apply (f_equal (take m)) in Eq'. unfold m in *. by rewrite !take_app_le in Eq' by lia.
    + apply (rounds_step s d _ [] None (drop m d) [] [] _ []); [|constructor].
      unfold visit_node. cbn [visited_trie visited_path]. fold m. by rewrite (proj2 (starts_with_false _ _) E).
Qed.
Lemma rep_descends s M t pre : rep s M t pre -> descends s M t pre.
Proof.
  intros Hrep. pose proof (rep_walks _ _ _ _ Hrep) as Hw. revert Hw.
  induction Hrep as [k v p pre Hk Hp Hpre Hu|pb f i j pre Hij Hi Hj Hpts Hrep IH Habs|affix ptr pb pre Haff [Hst _] Hrep IH Hu];
    intros Hw.
  - by apply (leaf_descends s M k v p).
  - intros b [|x d] Hb Hnw.
    { destruct (Hw b Hb) as (ks & Hl & Hr). exists ks, []. rewrite app_nil_r. split; [done|apply Hr]. }
    apply (node_descends s M pb f); [done| |done]. intros y ptr Hy. apply (IH y ptr Hy), rep_walks. eauto.
  - apply (ext_descends s M affix ptr pb); [done|done|by apply rep_walks|by apply IH, rep_walks].
Qed.
Lemma root_descends s M root :
  root_rep s M root -> exists pb, stores s root (Node pb : trie) /\ descends s M (Node pb) [].
Proof.
  intros (_ & pb & f & Hst & Hc). exists pb. split; [done|]. pose proof Hc as (_ & Hrep & _).
  intros b [|x d] Hb Hnw.
  - destruct (node_walks s M pb f [] Hc) with (b := b) as (ks & Hl & Hr); [| |done|].
    + intros x ptr Hx. by apply rep_walks, (Hrep x ptr).
    + intros k (Hk & p & Hp & _). destruct p as [|x p]; [by destruct Hp as (_ & _ & ? & _)|].
      exists x. split; [done|]. exists (x :: p). split; [done|]. by exists p.
    + exists ks, []. split; [done|apply Hr].
  - apply (node_descends s M pb f []); [done| |done]. intros y ptr Hy. by apply rep_descends, (Hrep y ptr).
Qed.

Lemma view_keys_ok s M root prefix :
  root_rep s M root -> not_within M prefix ->
  exists ks n, lists M prefix ks /\ forall fuel, (n <= fuel)%nat -> view_keys_with_prefix fuel s root prefix = Ok ks.
Proof.
  intros Hroot Hnw. destruct (root_descends s M root Hroot) as (pb & Hst & Hd).
  pose proof Hst as (Hr & b & Hb & Hs). destruct (Hd b prefix (conj Hr Hb) Hnw) as (ks & d' & Hl & Hrounds).
  destruct (collect_rounds _ _ _ _ _ Hrounds) as [n Hn]. exists ks, n. split; [done|]. intros fuel Hf.
  unfold view_keys_with_prefix, keys_with_prefix. rewrite Hs, (lazy_deserialize_trie _ _ Hr Hb). cbn [mbind result_bind].
  by rewrite Hn.
Qed.
End correctness.
