(* ===== verification/TrieZip.v ===== *)
(** * The way from the root to a subtrie

    [zip s M parents pre]: the stack of parents built by [scan_raw] leads to the
    prefix [pre], and everything that hangs off this path represents the part of
    [M] that is not below [pre].  Also: what [scan_raw] returns, and what storing
    new elements does to a content-addressed store. *)
From S2P Require Import Prelude BTree Bytesrepr Digest Trie TrieOps TrieRep.

Open Scope Z_scope.

Section zip.
Context (blake2b : list u8 -> Digest) {TF : TreeFold1} (CHUNK_SIZE_BYTES : nat).
Context {K V : Type} {DK : Bytesrepr K} {SK : BytesreprSpec K DK}.
Context {DV : Bytesrepr V} {SV : BytesreprSpec V DV} `{Countable K}.

Abbreviation trie := (Trie K V).
Abbreviation rep := (rep CHUNK_SIZE_BYTES).
Abbreviation root_rep := (root_rep CHUNK_SIZE_BYTES).
Abbreviation key_path := (key_path CHUNK_SIZE_BYTES).
Abbreviation under := (under CHUNK_SIZE_BYTES).
Abbreviation children := (children CHUNK_SIZE_BYTES).
Abbreviation chunk_hash := (hash_into_chunks_if_necessary blake2b CHUNK_SIZE_BYTES).
Abbreviation trie_hash := (trie_hash blake2b CHUNK_SIZE_BYTES).
Implicit Types (k : K) (s : store) (M : gmap K V) (pre : list u8) (pb : PointerBlock)
  (parents : list (u8 * trie)) (elements : list (Digest * trie)).

Definition affix_fits (affix : list u8) : Prop :=
  affix <> [] /\ Z.of_nat (length affix) + 38 <= Z.min u32_max (Z.of_nat CHUNK_SIZE_BYTES).

(** The siblings of the child at [idx]. *)
Definition siblings s M pb (f : u8 -> trie) (idx : u8) pre : Prop :=
  (forall x ptr, x <> idx -> pb !! x = Some ptr -> points s ptr (f x)) /\
  (forall x ptr, x <> idx -> pb !! x = Some ptr -> rep s M (f x) (pre ++ [x])) /\
  (forall x k, x <> idx -> pb !! x = None -> ~ under M (pre ++ [x]) k).

Inductive zip s M : list (u8 * trie) -> list u8 -> Prop :=
| zip_root : zip s M [] []
| zip_node idx pb f parents pre :
    zip s M parents pre ->
    (parents <> [] -> exists j, j <> idx /\ is_Some (pb !! j)) ->
    siblings s M pb f idx pre ->
    zip s M ((idx, Node pb) :: parents) (pre ++ [idx])
| zip_ext i affix h idx pb parents pre :
    zip s M ((idx, Node pb) :: parents) pre ->
    affix_fits affix ->
    (forall k, under M pre k -> under M (pre ++ affix) k) ->
    zip s M ((i, Extension affix (NodePointer h)) :: (idx, Node pb) :: parents) (pre ++ affix).

Lemma zip_node_inv s M idx pb parents q :
  zip s M ((idx, Node pb) :: parents) q ->
  exists f pre, q = pre ++ [idx] /\ zip s M parents pre /\
    (parents <> [] -> exists j, j <> idx /\ is_Some (pb !! j)) /\ siblings s M pb f idx pre.
Proof. inversion 1; subst. by eexists _, _. Qed.

Lemma zip_ext_inv s M i affix ptr parents q :
  zip s M ((i, Extension affix ptr) :: parents) q ->
  exists idx pb rest pre h, parents = (idx, Node pb) :: rest /\ q = pre ++ affix /\
    ptr = NodePointer h /\ zip s M parents pre /\ affix_fits affix /\
    forall k, under M pre k -> under M (pre ++ affix) k.
Proof. inversion 1; subst. by eexists _, _, _, _, _. Qed.

Lemma zip_path s M parents pre : zip s M parents pre -> get_parents_path parents = pre.
Proof.
  unfold get_parents_path.
  induction 1 as [|idx pb f parents pre _ IH _ _|i affix h idx pb parents pre _ IH _ _]; [done|..];
    rewrite reverse_cons, fmap_app, concat_app; rewrite IH; cbn; by rewrite ?app_nil_r.
Qed.

(** A path to [pre] stays valid when the map changes only below [pre]. *)
Definition agree_off M M' pre : Prop :=
  forall k p, key_path k p -> ~ pre `prefix_of` p -> M !! k = M' !! k.

Lemma agree_off_weaken M M' pre q : agree_off M M' (pre ++ q) -> forall k p,
  key_path k p -> ~ pre `prefix_of` p -> M !! k = M' !! k.
Proof. intros Ha k p Hp Hn. eapply Ha; [done|]. intros Hpre. apply Hn. by eapply prefix_weaken. Qed.

Lemma agree_off_sibling M M' pre idx x :
  x <> idx -> agree_off M M' (pre ++ [idx]) -> agree CHUNK_SIZE_BYTES M M' (pre ++ [x]).
Proof.
  intros Hne Ha k p Hp Hx. eapply Ha; [done|]. intros Hidx. apply Hne.
  by eapply prefix_snoc_inv.
Qed.

Lemma siblings_agree s s' M M' pb f idx pre :
  s ⊆ s' -> agree_off M M' (pre ++ [idx]) -> siblings s M pb f idx pre -> siblings s' M' pb f idx pre.
Proof.
  intros Hs Ha (H1 & H2 & H3). split_and!.
  - intros. eapply points_mono; eauto.
  - intros x ptr Hx Hp. eapply rep_agree; [done| |by eapply H2]. by eapply agree_off_sibling.
  - intros x k Hx Hn Hu. apply (H3 x k Hx Hn). eapply agree_under; [|done].
    by eapply agree_off_sibling.
Qed.

Lemma zip_agree s s' M M' parents pre :
  s ⊆ s' -> agree_off M M' pre -> zip s M parents pre -> zip s' M' parents pre.
Proof.
  intros Hs Ha Hz. revert Ha.
  induction Hz as [|idx pb f parents pre Hz IH Hj Hsib|i affix h idx pb parents pre Hz IH Hfit Hu]; intros Ha.
  - constructor.
  - apply zip_node with f; [|done|by eapply siblings_agree].
    apply IH. intros k p. by eapply agree_off_weaken.
  - apply zip_ext; [|done|].
    + apply IH. intros k p. by eapply agree_off_weaken.
    + intros k (Hk & p & Hp & Hpre). destruct (decide (pre ++ affix `prefix_of` p)) as [Hin|Hout].
      * split; [done|]. by exists p.
      * exfalso. apply Hout. rewrite <- (Ha k p Hp Hout) in Hk.
        eapply under_path; [apply Hu|done]. split; [done|]. by exists p.
Qed.

Lemma zip_mono s s' M parents pre : s ⊆ s' -> zip s M parents pre -> zip s' M parents pre.
Proof. intros Hs. apply zip_agree; [done|]. by intros ?. Qed.

(** A node with the child at [idx] set. *)
Lemma children_insert s M pb f idx pre t ptr :
  siblings s M pb f idx pre -> points s ptr t -> rep s M t (pre ++ [idx]) ->
  children s M (<[idx := ptr]> pb) (fun x => if decide (x = idx) then t else f x) pre.
Proof.
  intros (H1 & H2 & H3) Hp Hr. split_and!; intros x y Hx; destruct (decide (x = idx)) as [->|Hne];
    rewrite ?lookup_insert_eq, ?lookup_insert_ne in Hx by done; simplify_eq; try done; eauto.
Qed.

Lemma children_siblings s M pb f idx pre : children s M pb f pre -> siblings s M pb f idx pre.
Proof. intros (H1 & H2 & H3). split_and!; eauto. Qed.

Lemma rep_of_children s M pb f pre i j :
  children s M pb f pre -> i <> j -> is_Some (pb !! i) -> is_Some (pb !! j) -> rep s M (Node pb) pre.
Proof. intros (H1 & H2 & H3) Hij Hi Hj. by eapply rep_node. Qed.

Lemma rep_ext_fits s M affix ptr pre : rep s M (Extension affix ptr) pre -> affix_fits affix.
Proof.
  inversion 1 as [| |? ? pb ? Haff _ Hrep _]; subst. split; [done|].
  destruct (rep_nonempty _ _ _ _ _ Hrep) as (k & _ & p & (_ & _ & _ & Hb) & Hpre).
  apply prefix_length in Hpre. rewrite length_app in Hpre. lia.
Qed.

(** ** Scanning *)

Inductive scanned s M (p : list u8) : LazilyDeserializedTrie -> list (u8 * trie) -> Prop :=
| scanned_leaf k0 v0 b idx pb rest ptr pre :
    zip s M ((idx, Node pb) :: rest) pre -> pre `prefix_of` p -> rep s M (Leaf k0 v0) pre ->
    pb !! idx = Some ptr -> points s ptr (Leaf k0 v0) -> trie_to_bytes (Leaf k0 v0) = Ok b ->
    scanned s M p (LazyLeaf b) ((idx, Node pb) :: rest)
| scanned_node pb f parents pre x q :
    zip s M parents pre -> p = pre ++ x :: q -> pb !! x = None -> children s M pb f pre ->
    (parents <> [] -> exists j, is_Some (pb !! j)) ->
    scanned s M p (LazyNode pb) parents
| scanned_ext affix ptr idx pb rest pre :
    zip s M ((idx, Node pb) :: rest) pre -> pre `prefix_of` p -> ~ pre ++ affix `prefix_of` p ->
    rep s M (Extension affix ptr) pre ->
    scanned s M p (LazyExtension affix ptr) ((idx, Node pb) :: rest).

(** What is known of the parents of a subtrie [t] that is not the root. *)
Definition linked s (t : trie) parents : Prop :=
  match t with
  | Leaf _ _ => exists idx pb rest ptr,
      parents = (idx, Node pb) :: rest /\ pb !! idx = Some ptr /\ points s ptr t
  | Extension _ _ => exists idx pb rest, parents = (idx, Node pb) :: rest
  | Node _ => parents <> []
  end.

Lemma linked_child s t idx pb parents ptr :
  pb !! idx = Some ptr -> points s ptr t -> linked s t ((idx, Node pb) :: parents).
Proof. intros Hi Hp. destruct t; cbn; [by eexists _, _, _, _|done|by eexists _, _, _]. Qed.

Lemma scan_loop_rep s M t pre k p :
  rep s M t pre -> key_path k p -> pre `prefix_of` p ->
  forall parents b fuel,
  zip s M parents pre -> linked s t parents -> trie_representable t -> trie_to_bytes t = Ok b ->
  (length p < length pre + fuel)%nat ->
  exists tip parents', scan_raw_loop fuel s p (length pre) b parents = Ok (tip, parents') /\
    scanned s M p tip parents'.
Proof.
  intros Hrep Hkp.
  induction Hrep as [k0 v p0 pre Hk Hp Hpre Hu|pb f i j pre Hij Hi Hj Hpts Hrep IH Habs
    |affix ptr pb pre Haff Hpt Hrep IH Hu]; intros Hpp parents b [|fuel] Hz Hl Hr Hb Hfuel;
    try (apply prefix_length in Hpp; lia); cbn [scan_raw_loop];
    rewrite (lazy_deserialize_trie _ _ Hr Hb); cbn [mbind result_bind lazy_of].
  - destruct Hl as (idx & pb & rest & ptr & -> & Hidx & Hpt). eexists _, _. split; [done|].
    eapply scanned_leaf; [done|done|by eapply rep_leaf|done|done|done].
  - assert (rep s M (Node pb) pre) as Hnode by (by eapply rep_node).
    destruct (node_path_continues _ _ _ _ _ _ _ Hnode Hkp Hpp) as (x & q & ->).
    rewrite lookup_after. cbn [head expect mbind result_bind].
    destruct (pb !! x) as [ptr|] eqn:Ex.
    + pose proof (Hpts x ptr Ex) as Hpt. pose proof Hpt as [(Hr' & b' & Hb' & Hs') _].
      rewrite Hs'. replace (length pre + 1)%nat with (length (pre ++ [x])) by (by rewrite length_app).
      apply (IH x ptr Ex); [| |by eapply linked_child|done|done|].
      * apply prefix_snoc_cons.
      * apply zip_node with f; [done| |by apply children_siblings].
        intros _. destruct (decide (i = x)) as [->|]; [by exists j|by exists i].
      * rewrite !length_app in *. cbn [length] in *. lia.
    + eexists _, _. split; [done|]. eapply scanned_node with f pre x q; [done|done|done|done|].
      intros _. by exists i.
  - destruct Hl as (idx & pb0 & rest & ->). destruct Hpp as [q ->].
    assert (rep s M (Extension affix ptr) pre) as Hext by (by eapply rep_ext).
    rewrite length_app. destruct (Nat.ltb_spec (length pre + length q) (length pre + length affix)).
    + eexists _, _. split; [done|]. eapply scanned_ext; [done|by eexists| |done].
      intros Hpre%prefix_length. rewrite !length_app in Hpre. lia.
    + rewrite slice_app by lia. cbn [mbind result_bind]. case_decide as E.
      * destruct Hpt as [(Hr' & b' & Hb' & Hs') Hptr]. rewrite Hs'.
        assert (q = affix ++ drop (length affix) q) as Eq by (rewrite <- E at 1; by rewrite take_drop).
        rewrite lookup_after. destruct q as [|x q]; [destruct affix; [done|cbn in *; lia]|].
        cbn [head expect mbind result_bind].
        replace (length pre + length affix)%nat with (length (pre ++ affix)) by (by rewrite length_app).
        apply IH; [| |done|done|done|].
        -- rewrite Eq, app_assoc. by eexists.
        -- rewrite Hptr. cbn [tip_pointer]. apply zip_ext; [done|by eapply rep_ext_fits|done].
        -- destruct affix; [done|]. rewrite !length_app in *. cbn [length] in *. lia.
      * eexists _, _. split; [done|]. eapply scanned_ext; [done|by eexists| |done].
        intros [r Er]. rewrite <- app_assoc in Er. apply app_inv_head in Er as ->.
        apply E. by rewrite take_app_length.
Qed.

Lemma scan_raw_rep s M root k p :
  root_rep s M root -> key_path k p ->
  exists root_bytes tip parents, s !! root = Some root_bytes /\
    scan_raw s p root_bytes = Ok (tip, parents) /\ scanned s M p tip parents.
Proof.
  intros (_ & pb & f & (Hr & b & Hb & Hs) & Hc) Hkp. exists b.
  pose proof Hkp as (Hrk & Hp & Hne & Hsz).
  destruct p as [|x q]; [done|]. unfold scan_raw, walk_fuel. cbn [scan_raw_loop].
  rewrite (lazy_deserialize_trie _ _ Hr Hb). cbn [mbind result_bind lazy_of].
  cbn [lookup list_lookup expect mbind result_bind].
  destruct (pb !! x) as [ptr|] eqn:Ex.
  - pose proof Hc as (Hpts & Hrep & _). pose proof (Hpts x ptr Ex) as Hpt.
    pose proof Hpt as [(Hr' & b' & Hb' & Hs') _]. rewrite Hs'.
    destruct (scan_loop_rep s M (f x) ([] ++ [x]) k (x :: q)) with
      (parents := [(x, Node pb : trie)]) (b := b')
      (fuel := (S (length (x :: q)) * S (size s))%nat) as (tip & parents & E & H').
    + by eapply Hrep.
    + done.
    + by exists q.
    + apply (zip_node s M x pb f [] []); [constructor|done|by apply children_siblings].
    + by eapply linked_child.
    + done.
    + done.
    + cbn [length app]. nia.
    + by exists tip, parents.
  - eexists _, _. split; [done|]. split; [done|].
    eapply scanned_node with f [] x q; [constructor|done|done|done|done].
Qed.

(** ** Storing new elements *)

Definition content_addressed s : Prop := forall h b, s !! h = Some b -> chunk_hash b = h.

(** The bytes hashed so far or now, on which a collision would matter. *)
Definition in_play s elements (b : list u8) : Prop :=
  (exists h, s !! h = Some b) \/ (exists h t, (h, t) ∈ elements /\ trie_to_bytes t = Ok b).
Definition no_clash s elements : Prop :=
  forall b1 b2, in_play s elements b1 -> in_play s elements b2 ->
    chunk_hash b1 = chunk_hash b2 -> b1 = b2.

Definition elements_ok elements : Prop :=
  forall h t, (h, t) ∈ elements -> trie_representable t /\ trie_hash t = Ok h.
Definition stored_all s elements : Prop := forall h t, (h, t) ∈ elements -> stores s h t.

Lemma trie_hash_Ok (t : trie) h :
  trie_hash t = Ok h <-> exists b, trie_to_bytes t = Ok b /\ h = chunk_hash b.
Proof.
  unfold TrieOps.trie_hash. rewrite bind_Ok. split; intros (b & Hb & E); exists b.
  - by injection E as <-.
  - by subst.
Qed.

Lemma put_all_ok s elements :
  content_addressed s -> elements_ok elements -> no_clash s elements ->
  exists s', put_all s elements = Ok s' /\ s ⊆ s' /\ stored_all s' elements /\ content_addressed s'.
Proof.
  revert s. induction elements as [|[h t] elements IH]; intros s Hca Hok Hnc.
  - exists s. split_and!; [done|done| |done]. by intros ? ? ?%not_elem_of_nil.
  - destruct (Hok h t) as [Hr (b & Hb & Eh)%trie_hash_Ok]; [by left|].
    assert (s ⊆ <[h := b]> s) as Hsub.
    { destruct (s !! h) as [b0|] eqn:E; [|by apply insert_subseteq].
      assert (b0 = b) as ->; [|by rewrite insert_id].
      apply Hnc; [left; by exists h|right; exists h, t; split; [by left|done]|].
      by rewrite (Hca h b0 E), Eh. }
    destruct (IH (<[h := b]> s)) as (s' & Hput & Hsub' & Hst & Hca').
    + intros h' b' Hl. destruct (decide (h' = h)) as [->|].
      * rewrite lookup_insert_eq in Hl. by simplify_eq.
      * rewrite lookup_insert_ne in Hl by done. by apply Hca.
    + intros h' t' Hin. apply Hok. by right.
    + assert (forall x, in_play (<[h := b]> s) elements x -> in_play s ((h, t) :: elements) x) as Hin.
      { intros x [[h' Hx]|(h' & t' & Hx & Hbx)].
        - destruct (decide (h' = h)) as [->|].
          + rewrite lookup_insert_eq in Hx. simplify_eq. right. exists (chunk_hash x), t.
            split; [by left|done].
          + rewrite lookup_insert_ne in Hx by done. left. by exists h'.
        - right. exists h', t'. split; [by right|done]. }
      intros b1 b2 H1 H2. apply Hnc; by apply Hin.
    + exists s'. cbn [put_all]. unfold put. rewrite Hb. cbn [mbind result_bind].
      split_and!; [done|by etrans| |done].
      intros h' t' [E|Hin]%elem_of_cons; [|by apply Hst]. injection E as -> ->.
      split; [done|]. exists b. split; [done|]. eapply lookup_weaken; [|done].
      by rewrite lookup_insert_eq.
Qed.
End zip.
