(* ===== verification/TrieWrite.v ===== *)
(** * Writing to the trie store

    [write] updates the represented map and keeps every root that was valid. *)
From S2P Require Import Prelude BTree Bytesrepr Digest Trie TrieOps TrieRep TrieZip.

Open Scope Z_scope.

Section write.
Context (blake2b : list u8 -> Digest) {TF : TreeFold1} (CHUNK_SIZE_BYTES : nat).
Context {K V : Type} {DK : Bytesrepr K} {SK : BytesreprSpec K DK}.
Context {DV : Bytesrepr V} {SV : BytesreprSpec V DV} `{Countable K}.

Abbreviation trie := (Trie K V).
Abbreviation rep := (rep CHUNK_SIZE_BYTES).
Abbreviation root_rep := (root_rep CHUNK_SIZE_BYTES).
Abbreviation keys_ok := (keys_ok CHUNK_SIZE_BYTES).
Abbreviation key_path := (key_path CHUNK_SIZE_BYTES).
Abbreviation under := (under CHUNK_SIZE_BYTES).
Abbreviation children := (children CHUNK_SIZE_BYTES).
Abbreviation zip := (zip CHUNK_SIZE_BYTES).
Abbreviation trie_hash := (trie_hash blake2b CHUNK_SIZE_BYTES).
Abbreviation rehash_loop := (rehash_loop blake2b CHUNK_SIZE_BYTES).
Abbreviation rehash := (rehash blake2b CHUNK_SIZE_BYTES).
Abbreviation elements_ok := (elements_ok blake2b CHUNK_SIZE_BYTES).
Abbreviation affix_fits := (affix_fits CHUNK_SIZE_BYTES).
Abbreviation write := (write blake2b CHUNK_SIZE_BYTES).
Abbreviation write_elements := (write_elements blake2b CHUNK_SIZE_BYTES).
Implicit Types (k : K) (s : store) (M : gmap K V) (pre : list u8) (pb : PointerBlock)
  (parents : list (u8 * trie)) (elements : list (Digest * trie)).

(** ** Rehashing *)

(** The parents can be rebuilt: they are nodes and extensions of nodes, and the
    extensions can be serialized. *)
Inductive well_shaped : list (u8 * trie) -> Prop :=
| shaped_root : well_shaped []
| shaped_node idx pb parents : well_shaped parents -> well_shaped ((idx, Node pb) :: parents)
| shaped_ext i affix h idx pb parents :
    affix_fits affix -> well_shaped ((idx, Node pb) :: parents) ->
    well_shaped ((i, Extension affix (NodePointer h)) :: (idx, Node pb) :: parents).

Lemma zip_shaped s M parents pre : zip s M parents pre -> well_shaped parents.
Proof. induction 1; by constructor. Qed.

(** Below an extension there is a node. *)
Definition fits_below (t : trie) parents : Prop :=
  match parents with
  | (_, Extension _ _) :: _ => exists pb, t = Node pb
  | _ => True
  end.

(** [t] is right for its place: the root, or below [parents]. *)
Definition rep_at s M parents (t : trie) pre : Prop :=
  match parents with
  | [] => exists pb f, t = Node pb /\ children s M pb f []
  | _ => rep s M t pre
  end.

Lemma node_hash pb : exists h, trie_hash (Node pb : trie) = Ok h.
Proof.
  destruct (node_to_bytes (K:=K) (V:=V) pb) as (b & Hb & _). eexists.
  apply trie_hash_Ok. by exists b.
Qed.

Lemma extension_hash affix ptr :
  affix_fits affix ->
  trie_representable (Extension affix ptr : trie) /\ exists h, trie_hash (Extension affix ptr : trie) = Ok h.
Proof.
  intros [_ Hf]. destruct (extension_to_bytes (K:=K) (V:=V) affix ptr) as (Hr & b & Hb & _); [lia|].
  split; [done|]. eexists. apply trie_hash_Ok. by exists b.
Qed.

Lemma points_tip s h (t : trie) : stores s h t -> points s (tip_pointer t h) t.
Proof. intros Hs. by destruct t. Qed.

Lemma elements_ok_cons h t elements :
  trie_representable t -> trie_hash t = Ok h -> elements_ok elements -> elements_ok ((h, t) :: elements).
Proof. intros Hr Hh Hok h' t' [[= -> ->]|?]%elem_of_cons; [done|by apply Hok]. Qed.

Lemma stored_all_cons s h (t : trie) elements :
  stored_all s ((h, t) :: elements) -> stores s h t /\ stored_all s elements.
Proof. intros Hs. split; [apply Hs; by left|]. intros h' t' Hin. apply Hs. by right. Qed.

Lemma stored_all_app s elements elements' :
  stored_all s (elements ++ elements') -> stored_all s elements /\ stored_all s elements'.
Proof. intros Hs. split; intros h t Hin; apply Hs, elem_of_app; (by left) || by right. Qed.

Lemma rehash_loop_ok parents (t : trie) h :
  well_shaped parents -> fits_below t parents -> trie_hash t = Ok h ->
  exists elements, rehash_loop t h parents = Ok elements /\ elements_ok elements /\
    forall s M pre, zip s M parents pre -> stores s h t -> stored_all s elements ->
      rep_at s M parents t pre ->
      exists pb f, stores s (default h (fst <$> last elements)) (Node pb : trie) /\ children s M pb f [].
Proof.
  intros Hw. revert t h.
  induction Hw as [|idx pb parents Hw IH|i affix h0 idx pb parents Hfit Hw IH]; intros t h Hfb Hh.
  - exists []. split; [done|]. split; [by intros ? ? ?%not_elem_of_nil|].
    intros s M pre _ Hst _ (pb & f & -> & Hc). by exists pb, f.
  - cbn [TrieOps.rehash_loop]. destruct (node_hash (<[idx := tip_pointer t h]> pb)) as [h' Hh'].
    destruct (IH (Node (<[idx := tip_pointer t h]> pb)) h') as (elements & Hre & Hok & Hroot);
      [by destruct parents as [|[? []]]; cbn; eauto|done|].
    rewrite Hh'. cbn [mbind result_bind]. rewrite Hre. cbn [mbind result_bind].
    eexists. split; [done|]. split; [by apply elements_ok_cons|].
    intros s M pre Hz Hst [Hst' Hall]%stored_all_cons Hrep. cbn [rep_at] in Hrep.
    inversion Hz as [|? ? f ? pre0 Hz0 Hj Hsib|]; subst.
    assert (children s M (<[idx := tip_pointer t h]> pb)
      (fun x => if decide (x = idx) then t else f x) pre0) as Hc.
    { eapply children_insert; [done|by apply points_tip|done]. }
    rewrite last_cons. destruct (Hroot s M pre0) as (pb' & f' & Hs' & Hc'); [done..| |].
    + destruct parents as [|pp parents].
      * inversion Hz0; subst. by eexists _, _.
      * destruct Hj as (j & Hji & [ptr Hpj]); [done|].
        eapply rep_of_children; [done|exact (not_eq_sym Hji)| |].
        -- rewrite lookup_insert_eq. by eexists.
        -- rewrite lookup_insert_ne by done. by eexists.
    + exists pb', f'. split; [|done]. by destruct (last elements).
  - destruct Hfb as [pbt ->]. remember ((idx, Node pb) :: parents) as ps eqn:Eps.
    cbn [TrieOps.rehash_loop pointer_update].
    destruct (extension_hash affix (NodePointer h) Hfit) as [Hr [h' Hh']].
    destruct (IH (Extension affix (NodePointer h)) h') as (elements & Hre & Hok & Hroot); [by subst ps|done|].
    rewrite Hh'. cbn [mbind result_bind]. rewrite Hre. cbn [mbind result_bind].
    eexists. split; [done|]. split; [by apply elements_ok_cons|].
    intros s M pre Hz Hst [Hst' Hall]%stored_all_cons Hrep. cbn [rep_at] in Hrep. subst ps.
    inversion Hz as [| |? ? ? ? ? ? pre0 Hz0 _ Hu]; subst.
    rewrite last_cons. destruct (Hroot s M pre0) as (pb' & f' & Hs' & Hc'); [done..| |].
    + cbn [rep_at]. eapply rep_ext; [by destruct Hfit|by apply (points_tip s h (Node pbt))|done|done].
    + exists pb', f'. split; [|done]. by destruct (last elements).
Qed.

(** ** Placing the new leaf *)

Lemma agree_off_insert M k v p pre :
  key_path k p -> pre `prefix_of` p -> agree_off CHUNK_SIZE_BYTES M (<[k := v]> M) pre.
Proof.
  intros Hp Hpre k' p' Hp' Hn. rewrite lookup_insert_ne; [done|]. intros ->. apply Hn.
  by rewrite (key_path_fun _ _ _ _ Hp' Hp).
Qed.

Lemma under_insert M k v pre k' : under (<[k := v]> M) pre k' -> k' = k \/ under M pre k'.
Proof.
  intros (Hk & p & Hp). destruct (decide (k' = k)) as [->|Hne]; [by left|right].
  rewrite lookup_insert_ne in Hk by done. split; [done|]. by exists p.
Qed.

Lemma under_insert_other M k v pre k' : k' <> k -> under M pre k' -> under (<[k := v]> M) pre k'.
Proof.
  intros Hne (Hk & p & Hp). split; [by rewrite lookup_insert_ne|]. by exists p.
Qed.

Lemma under_new M k v p pre : key_path k p -> pre `prefix_of` p -> under (<[k := v]> M) pre k.
Proof. intros Hp Hpre. split; [rewrite lookup_insert_eq; by eexists|]. by exists p. Qed.

Lemma keys_ok_insert M k v p :
  keys_ok M -> key_path k p -> representable v -> keys_ok (<[k := v]> M).
Proof.
  intros Hok Hp Hv k' v' Hk. destruct (decide (k' = k)) as [->|Hne].
  - rewrite lookup_insert_eq in Hk. simplify_eq. eauto.
  - rewrite lookup_insert_ne in Hk by done. by apply Hok.
Qed.

(** The root hash of a list of new elements. *)
Definition root_of (root : Digest) elements : Digest := default root (fst <$> last elements).

(** [M'] is the new map; [extra] are elements stored besides the rehashed ones. *)
Lemma rehash_leaf_ok M' k v p b parents pre root extra s :
  key_path k p -> representable v -> trie_to_bytes (Leaf k v) = Ok b -> keys_ok M' ->
  well_shaped parents -> (exists idx pb rest, parents = (idx, Node pb) :: rest) ->
  M' !! k = Some v -> pre `prefix_of` p -> (forall k', under M' pre k' -> k' = k) ->
  (forall s', s ⊆ s' -> stored_all s' extra -> zip s' M' parents pre) ->
  exists elements, rehash (Leaf k v) parents = Ok elements /\ elements <> [] /\ elements_ok elements /\
    forall s', s ⊆ s' -> stored_all s' (extra ++ elements) ->
      root_rep s' M' (root_of root (extra ++ elements)).
Proof.
  intros Hp Hv Hb Hkeys Hw (idx & pb & rest & ->) Hk Hpre Hu Hz.
  assert (trie_representable (Leaf k v : trie)) as Hr by (by destruct Hp).
  assert (trie_hash (Leaf k v) = Ok (hash_into_chunks_if_necessary blake2b CHUNK_SIZE_BYTES b)) as Hh.
  { apply trie_hash_Ok. by exists b. }
  destruct (rehash_loop_ok _ _ _ Hw I Hh) as (elements & Hre & Hok & Hroot).
  unfold TrieOps.rehash. rewrite Hh. cbn [mbind result_bind]. rewrite Hre. cbn [mbind result_bind].
  eexists. split; [done|]. split; [done|]. split; [by apply elements_ok_cons|].
  intros s' Hs [Hextra [Hleaf Hall]%stored_all_cons]%stored_all_app.
  destruct (Hroot s' M' pre) as (pb' & f' & Hs' & Hc'); [by apply Hz|done|done|by eapply rep_leaf|].
  split; [done|]. exists pb', f'. split; [|done].
  unfold root_of. rewrite last_app, last_cons. by destruct (last elements).
Qed.

(** A new node between [parents] and two subtries: the existing one at [b], and
    the place of the new leaf at [a]; an extension leads to it if the two share
    more of their paths. *)
Lemma branch_zip s M idx pb rest pre cp a b i h ptr t :
  zip s M ((idx, Node pb) :: rest) pre -> a <> b ->
  points s ptr t -> rep s M t ((pre ++ cp) ++ [b]) ->
  (forall k', under M pre k' -> under M ((pre ++ cp) ++ [a]) k' \/ under M ((pre ++ cp) ++ [b]) k') ->
  (cp <> [] -> affix_fits cp) ->
  zip s M ((a, trie_node [(b, ptr)]) ::
    match cp with [] => (idx, Node pb) :: rest
    | _ => (i, Extension cp (NodePointer h)) :: (idx, Node pb) :: rest end) ((pre ++ cp) ++ [a]).
Proof.
  intros Hz Hab Hpt Hrep Hu Hfit.
  apply zip_node with (fun _ => t).
  - destruct cp as [|c cp]; [by rewrite app_nil_r|]. apply zip_ext; [done|by apply Hfit|].
    intros k' [?|?]%Hu; by eapply under_weaken.
  - intros _. exists b. split; [done|]. cbn. rewrite lookup_insert_eq. by eexists.
  - split_and!; cbn; intros x y Hx Hy.
    + destruct (decide (x = b)) as [->|]; [|by rewrite lookup_insert_ne, lookup_empty in Hy].
      rewrite lookup_insert_eq in Hy. by simplify_eq.
    + destruct (decide (x = b)) as [->|]; [|by rewrite lookup_insert_ne, lookup_empty in Hy].
      done.
    + destruct (decide (x = b)) as [->|]; [by rewrite lookup_insert_eq in Hy|].
      intros Hin. pose proof Hin as (_ & p' & Hp' & Hpre').
      destruct (Hu y) as [Hy2|Hy2]; [rewrite <- app_assoc in Hin; by eapply under_weaken| |].
      * pose proof (under_path _ _ _ _ _ Hy2 Hp') as Hpre2.
        by pose proof (prefix_snoc_inv _ _ _ _ Hpre' Hpre2).
      * pose proof (under_path _ _ _ _ _ Hy2 Hp') as Hpre2.
        by pose proof (prefix_snoc_inv _ _ _ _ Hpre' Hpre2).
Qed.

(** ** The cases of [write] *)

Definition wrote s M' root elements : Prop :=
  elements <> [] /\ elements_ok elements /\
  forall s', s ⊆ s' -> stored_all s' elements -> root_rep s' M' (root_of root elements).

Lemma add_node_path parents pb pre x q :
  get_parents_path parents = pre ->
  add_node_to_parents (pre ++ x :: q) (Node pb) parents = Ok ((x, Node pb) :: parents).
Proof.
  intros Hpath. unfold add_node_to_parents. rewrite Hpath. cbn [assert_that mbind result_bind].
  rewrite common_prefix_full by (by eexists). rewrite bool_decide_eq_true_2 by done.
  cbn [assert_that mbind result_bind]. rewrite lookup_after. done.
Qed.

(** The conditions on the written entry, shared by the cases. *)
Context (k : K) (v : V) (p b : list u8) (Hp : key_path k p) (Hv : representable v)
  (Hb : trie_to_bytes (Leaf k v) = Ok b).

Lemma write_at_node s M root pb f parents pre x q :
  keys_ok M -> zip s M parents pre -> p = pre ++ x :: q -> pb !! x = None -> children s M pb f pre ->
  (parents <> [] -> exists j, is_Some (pb !! j)) ->
  exists elements, (parents ← add_node_to_parents p (Node pb) parents;
                    rehash (Leaf k v) parents) = Ok elements /\ wrote s (<[k := v]> M) root elements.
Proof.
  intros Hkeys Hz Ep Hx Hc Hj. rewrite Ep, (add_node_path parents pb pre x q) by (by eapply zip_path).
  cbn [mbind result_bind].
  assert (pre ++ [x] `prefix_of` p) as Hpx by (rewrite Ep; apply prefix_snoc_cons).
  assert (zip s M ((x, Node pb) :: parents) (pre ++ [x])) as Hz'.
  { apply zip_node with f; [done| |by apply children_siblings].
    intros [j Hpj]%Hj. exists j. split; [|done]. intros ->. rewrite Hx in Hpj. by destruct Hpj. }
  destruct (rehash_leaf_ok (<[k := v]> M) k v p b ((x, Node pb) :: parents) (pre ++ [x]) root [] s)
    as (elements & Hre & Hne & Hok & Hroot); [done|done|done|by eapply keys_ok_insert| | |
      by rewrite lookup_insert_eq|done| | |].
  - by eapply zip_shaped.
  - by eexists _, _, _.
  - intros k' [->|Hk']%under_insert; [done|]. destruct Hc as (_ & _ & Habs). by destruct (Habs x k' Hx).
  - intros s' Hs _. eapply zip_agree; [done|by apply (agree_off_insert M k v p)|done].
  - exists elements. done.
Qed.

Lemma write_same_key s M root v0 idx pb rest pre :
  keys_ok M -> zip s M ((idx, Node pb) :: rest) pre -> pre `prefix_of` p -> rep s M (Leaf k v0) pre ->
  exists elements, rehash (Leaf k v) ((idx, Node pb) :: rest) = Ok elements /\
    wrote s (<[k := v]> M) root elements.
Proof.
  intros Hkeys Hz Hpre Hrep. inversion Hrep as [? ? p' ? Hk Hp' _ Hu| |]; subst.
  destruct (rehash_leaf_ok (<[k := v]> M) k v p b ((idx, Node pb) :: rest) pre root [] s)
    as (elements & Hre & Hne & Hok & Hroot); [done|done|done|by eapply keys_ok_insert| | |
      by rewrite lookup_insert_eq|done| | |].
  - by eapply zip_shaped.
  - by eexists _, _, _.
  - intros k' [->|Hk']%under_insert; [done|]. by apply Hu.
  - intros s' Hs _. eapply zip_agree; [done|exact (agree_off_insert M k v p pre Hp Hpre)|done].
  - exists elements. done.
Qed.

(** The new leaf goes next to an existing subtrie [t], where their paths part:
    [p] continues with [a] after [pre ++ cp], the keys of the subtrie with
    [c]. *)
Lemma write_at_branch s M root extra idx pb rest pre cp a q c i h ptr t :
  keys_ok M -> zip s M ((idx, Node pb) :: rest) pre -> p = (pre ++ cp) ++ a :: q -> a <> c ->
  (forall k', under M pre k' -> under M ((pre ++ cp) ++ [c]) k') ->
  (forall s', s ⊆ s' -> stored_all s' extra -> points s' ptr t) ->
  (forall s', s ⊆ s' -> stored_all s' extra -> rep s' (<[k := v]> M) t ((pre ++ cp) ++ [c])) ->
  elements_ok extra ->
  exists elements,
    (parents ← add_node_to_parents p (trie_node [(c, ptr)])
       match cp with [] => (idx, Node pb) :: rest
       | _ => (i, Extension cp (NodePointer h)) :: (idx, Node pb) :: rest end;
     rehash (Leaf k v) parents) = Ok elements /\ wrote s (<[k := v]> M) root (extra ++ elements).
Proof.
  intros Hkeys Hz Ep Hac Hu Hpt Hrep Hextra.
  assert (cp <> [] -> affix_fits cp) as Hfit.
  { intros Hcp. split; [done|]. destruct Hp as (_ & _ & _ & Hl). rewrite Ep in Hl.
    rewrite !length_app in Hl. lia. }
  assert (pre `prefix_of` p) as Hpre by (apply (prefix_weaken pre cp); rewrite Ep; by eexists).
  assert ((pre ++ cp) ++ [a] `prefix_of` p) as Hpa by (rewrite Ep; apply prefix_snoc_cons).
  assert (forall k', k' <> k -> under (<[k := v]> M) pre k' -> under (<[k := v]> M) ((pre ++ cp) ++ [c]) k') as Hu'.
  { intros k' Hne [?|Hk']%under_insert; [done|]. apply under_insert_other; [done|]. by apply Hu. }
  set (parents := match cp with [] => _ | _ => _ end).
  assert (get_parents_path parents = pre ++ cp) as Hpath.
  { pose proof (zip_path _ _ _ _ _ Hz) as E. subst parents. destruct cp as [|x cp]; [by rewrite app_nil_r|].
    unfold get_parents_path in *. rewrite reverse_cons, fmap_app, concat_app, E. cbn. by rewrite app_nil_r. }
  assert (add_node_to_parents p (trie_node [(c, ptr)]) parents
    = Ok ((a, trie_node [(c, ptr)]) :: parents)) as Hadd by (rewrite Ep; by apply add_node_path).
  rewrite Hadd. cbn [mbind result_bind].
  assert (forall s', s ⊆ s' -> stored_all s' extra ->
    zip s' (<[k := v]> M) ((a, trie_node [(c, ptr)]) :: parents) ((pre ++ cp) ++ [a])) as Hz'.
  { intros s' Hs Hst. eapply (branch_zip s' (<[k := v]> M)); [|done|by apply Hpt|by apply Hrep| |done].
    - eapply zip_agree; [done|by apply (agree_off_insert M k v p)|done].
    - intros k' Hk'. destruct (decide (k' = k)) as [->|Hne]; [left; exact (under_new M k v p _ Hp Hpa)|right; by apply Hu']. }
  destruct (rehash_leaf_ok (<[k := v]> M) k v p b ((a, trie_node [(c, ptr)]) :: parents)
    ((pre ++ cp) ++ [a]) root extra s) as (elements & Hre & Hne & Hok & Hroot);
    [done|done|done|by eapply keys_ok_insert| |by eexists _, _, _|by rewrite lookup_insert_eq|done| |done|].
  - constructor. pose proof (zip_shaped _ _ _ _ Hz) as Hw. subst parents.
    destruct cp as [|x cp]; [done|]. constructor; [by apply Hfit|done].
  - intros k' Hk'. destruct (decide (k' = k)) as [->|Hne]; [done|]. exfalso. apply Hac.
    pose proof Hk' as (_ & p' & Hp' & Hpre').
    assert (under (<[k := v]> M) pre k') as Hk2 by (rewrite <- app_assoc in Hk'; by eapply under_weaken).
    pose proof (under_path _ _ _ _ _ (Hu' k' Hne Hk2) Hp') as Hpre2.
    by eapply prefix_snoc_inv.
  - exists elements. split; [done|]. split_and!; [|  |done].
    + intros [_ ?]%app_eq_nil. done.
    + intros h' t' [?|?]%elem_of_app; auto.
Qed.

Lemma common_prefix_branch pre a c (q q0 : list u8) :
  a <> c -> common_prefix (pre ++ a :: q) (pre ++ c :: q0) = pre.
Proof.
  intros Hac. rewrite common_prefix_app. cbn. rewrite decide_False by done. by rewrite app_nil_r.
Qed.

Lemma reparent_leaf_eq idx pb rest pre cp a c q q0 ptr :
  get_parents_path ((idx, Node pb) :: rest : list (u8 * trie)) = pre ->
  p = (pre ++ cp) ++ a :: q -> a <> c -> pb !! idx = Some ptr ->
  exists h, reparent_leaf blake2b CHUNK_SIZE_BYTES p ((pre ++ cp) ++ c :: q0) ((idx, Node pb) :: rest) =
    Ok (trie_node [(c, ptr)],
        match cp with [] => (idx, Node pb) :: rest
        | _ => (idx, Extension cp (NodePointer h)) :: (idx, Node pb) :: rest end).
Proof.
  intros Hpath Ep Hac Hidx. unfold reparent_leaf. rewrite Ep, common_prefix_branch by done.
  rewrite lookup_after. cbn [head expect mbind result_bind]. rewrite Hidx.
  cbn [expect mbind result_bind]. rewrite Hpath, slice_from_app. cbn [mbind result_bind].
  destruct (node_hash (from_indexed_pointers [(c, ptr)])) as [h Hh]. exists h.
  destruct cp as [|x cp]; [done|]. unfold trie_node. rewrite Hh. done.
Qed.

Lemma write_reparent s M root k0 v0 p0 idx pb rest ptr pre :
  keys_ok M -> zip s M ((idx, Node pb) :: rest) pre -> pre `prefix_of` p -> rep s M (Leaf k0 v0) pre ->
  pb !! idx = Some ptr -> points s ptr (Leaf k0 v0) -> k <> k0 -> to_bytes k0 = Ok p0 ->
  exists elements,
    ('(new_node, parents) ← reparent_leaf blake2b CHUNK_SIZE_BYTES p p0 ((idx, Node pb) :: rest);
     parents ← add_node_to_parents p new_node parents;
     rehash (Leaf k v) parents) = Ok elements /\ wrote s (<[k := v]> M) root elements.
Proof.
  intros Hkeys Hz [q1 Ep] Hrep Hidx Hpt Hne Hp0.
  inversion Hrep as [? ? p0' ? Hk0 Hp0' [q2 Eq2] Hu| |]; subst k1 v1 pre0.
  assert (p0' = p0) as -> by (destruct Hp0' as (_ & ? & _); congruence).
  destruct (common_prefix_split q1 q2) as (l & m & E1 & E2 & Hbranch).
  remember (common_prefix q1 q2) as cp eqn:Ecp. clear Ecp. subst q1 q2.
  rewrite app_assoc in Ep, Eq2.
  destruct l as [|a q].
  { exfalso. apply Hne. eapply key_path_prefix; [exact Hp|exact Hp0'|].
    rewrite Ep, Eq2, app_nil_r. by eexists. }
  destruct m as [|c q0].
  { exfalso. apply Hne. symmetry. eapply key_path_prefix; [exact Hp0'|exact Hp|].
    rewrite Ep, Eq2, app_nil_r. by eexists. }
  destruct (reparent_leaf_eq idx pb rest pre cp a c q q0 ptr) as [h Hre]; [by eapply zip_path|done..|].
  rewrite Eq2, Hre. cbn [mbind result_bind].
  destruct (write_at_branch s M root [] idx pb rest pre cp a q c idx h ptr (Leaf k0 v0))
    as (elements & Hel & Hw); try done.
  - intros k' Hk'. rewrite (Hu k' Hk'). split; [by eexists|]. exists p0. split; [done|].
    rewrite Eq2. apply prefix_snoc_cons.
  - intros s' Hs _. by eapply points_mono.
  - intros s' Hs _. apply rep_leaf with p0; [by rewrite lookup_insert_ne|done| |].
    + rewrite Eq2. apply prefix_snoc_cons.
    + intros k' Hk'. pose proof Hk' as (_ & p' & Hp' & Hpre').
      destruct (decide (k' = k)) as [->|Hne'].
      * exfalso. apply Hbranch. eapply prefix_snoc_inv; [|exact Hpre'].
        rewrite (key_path_fun _ _ _ _ Hp' Hp), Ep. apply prefix_snoc_cons.
      * apply Hu. apply under_insert in Hk' as [?|Hk']; [done|].
        rewrite <- app_assoc in Hk'. by eapply under_weaken.
  - by intros ? ? ?%not_elem_of_nil.
  - exists elements. done.
Qed.

(** The child of the new node on the side of the split extension, and the
    element that is stored for it. *)
Definition split_child (tail : list u8) (ptr : Pointer) (hc : Digest) : Pointer * list (Digest * trie) :=
  match tail with
  | [] => (ptr, [])
  | _ => (NodePointer hc, [(hc, Extension tail ptr)])
  end.

Lemma split_extension_eq parents pre cp a c q tail ptr :
  get_parents_path parents = pre -> p = (pre ++ cp) ++ a :: q -> a <> c ->
  (tail <> [] -> affix_fits tail) ->
  exists hc i h, (tail <> [] -> trie_hash (Extension tail ptr : trie) = Ok hc) /\
    split_extension blake2b CHUNK_SIZE_BYTES p (Extension (cp ++ c :: tail) ptr) parents =
    Ok (trie_node [(c, (split_child tail ptr hc).1)],
        match cp with [] => parents | _ => (i, Extension cp (NodePointer h)) :: parents end,
        head (split_child tail ptr hc).2).
Proof.
  intros Hpath Ep Hac Hfit. unfold split_extension. rewrite Hpath, Ep.
  rewrite (app_assoc pre cp (c :: tail)), common_prefix_branch, slice_from_app by done.
  cbn [mbind result_bind].
  assert (slice_from (E:=Error) (cp ++ c :: tail) (length cp + 1) = Ok tail) as ->.
  { replace (cp ++ c :: tail) with ((cp ++ [c]) ++ tail) by (by rewrite <- app_assoc).
    replace (length cp + 1)%nat with (length (cp ++ [c])) by (by rewrite length_app).
    apply slice_from_app. }
  cbn [mbind result_bind]. rewrite lookup_after. cbn [head].
  assert (exists hc, tail <> [] -> trie_hash (Extension tail ptr : trie) = Ok hc) as [hc Hhc].
  { destruct (decide (tail = [])) as [->|Ht]; [by exists (SENTINEL_NONE)|].
    destruct (extension_hash tail ptr (Hfit Ht)) as [_ [hc Hhc]]. by exists hc. }
  exists hc.
  destruct (node_hash (from_indexed_pointers [(c, (split_child tail ptr hc).1)])) as [h Hh].
  exists (hd c cp), h. split; [done|].
  destruct tail as [|x tail].
  - cbn [mbind result_bind expect split_child fst snd head] in *.
    destruct cp as [|y cp]; [done|]. unfold trie_node. rewrite Hh. done.
  - rewrite Hhc by done. cbn [mbind result_bind expect split_child fst snd head] in *.
    destruct cp as [|y cp]; [done|]. unfold trie_node. rewrite Hh. done.
Qed.

Lemma write_split s M root affix ptr idx pb rest pre :
  keys_ok M -> zip s M ((idx, Node pb) :: rest) pre -> pre `prefix_of` p ->
  ~ pre ++ affix `prefix_of` p -> rep s M (Extension affix ptr) pre ->
  exists elements,
    ('(new_node, parents, maybe_hashed_child_extension) ←
       split_extension blake2b CHUNK_SIZE_BYTES p (Extension affix ptr) ((idx, Node pb) :: rest);
     parents ← add_node_to_parents p new_node parents;
     match maybe_hashed_child_extension with
     | Some hashed_extension => ret ← rehash (Leaf k v) parents; Ok (hashed_extension :: ret)
     | None => rehash (Leaf k v) parents
     end) = Ok elements /\ wrote s (<[k := v]> M) root elements.
Proof.
  intros Hkeys Hz [q1 Ep] Hnp Hrep. pose proof (rep_ext_fits _ _ _ _ _ _ Hrep) as Hfit.
  inversion Hrep as [| |? ? pbn ? Haff Hpt Hnode Hu]; subst affix0 ptr0 pre0.
  destruct (common_prefix_split q1 affix) as (l & m & E1 & E2 & Hbranch).
  remember (common_prefix q1 affix) as cp eqn:Ecp. clear Ecp. subst q1 affix.
  rewrite app_assoc in Ep.
  destruct m as [|c tail].
  { exfalso. apply Hnp. rewrite Ep, app_nil_r. by eexists. }
  destruct l as [|a q].
  { exfalso. destruct (rep_nonempty _ _ _ _ _ Hnode) as (k' & _ & p' & Hp' & Hpre').
    assert (k = k') as <-.
    { eapply key_path_prefix; [exact Hp|exact Hp'|]. rewrite Ep, app_nil_r.
      rewrite app_assoc in Hpre'. by eapply prefix_weaken. }
    rewrite (key_path_fun _ _ _ _ Hp' Hp), Ep, app_nil_r in Hpre'. apply prefix_length in Hpre'.
    rewrite !length_app in Hpre'. cbn in Hpre'. lia. }
  destruct (split_extension_eq ((idx, Node pb) :: rest) pre cp a c q tail ptr) as (hc & i & h & Hhc & Hsplit);
    [by eapply zip_path|done|done| |].
  { intros Ht. split; [done|]. destruct Hfit as [_ Hfit]. rewrite length_app in Hfit. cbn in Hfit. lia. }
  rewrite Hsplit. cbn [mbind result_bind].
  (* the subtrie of the split extension *)
  set (t := match tail with [] => Node pbn | _ => Extension tail ptr end : trie).
  assert (forall s', s ⊆ s' -> stored_all s' (split_child tail ptr hc).2 ->
    points s' (split_child tail ptr hc).1 t) as Hpts.
  { intros s' Hs Hst. destruct tail as [|x tail]; [by eapply points_mono|].
    cbn in *. apply (points_tip s' hc (Extension (x :: tail) ptr)). apply Hst. by left. }
  assert (forall k', k' <> k -> under (<[k := v]> M) pre k' ->
    under (<[k := v]> M) (pre ++ cp ++ c :: tail) k') as Hu'.
  { intros k' Hne [?|Hk']%under_insert; [done|]. apply under_insert_other; [done|]. by apply Hu. }
  assert (agree CHUNK_SIZE_BYTES M (<[k := v]> M) (pre ++ cp ++ c :: tail)) as Hagree.
  { intros k' p' Hp' Hpre'. rewrite lookup_insert_ne; [done|]. intros ->. apply Hnp.
    by rewrite <- (key_path_fun _ _ _ _ Hp' Hp). }
  assert (forall s', s ⊆ s' -> rep s' (<[k := v]> M) t ((pre ++ cp) ++ [c])) as Hreps.
  { intros s' Hs. pose proof (rep_agree _ _ s' _ _ _ _ Hs Hagree Hnode) as Hn'.
    destruct tail as [|x tail]; [by rewrite <- app_assoc|]. cbn in t. subst t.
    apply rep_ext with pbn; [done|by eapply points_mono| |].
    - by rewrite <- !app_assoc.
    - intros k' Hk'. assert (k' <> k) as Hne.
      { intros ->. apply Hbranch. apply under_path with (p := p) in Hk'; [|done].
        eapply prefix_snoc_inv; [|exact Hk']. rewrite Ep. apply prefix_snoc_cons. }
      rewrite <- !app_assoc in *. apply Hu'; [done|]. by eapply under_weaken. }
  destruct (write_at_branch s M root (split_child tail ptr hc).2 idx pb rest pre cp a q c i h
    (split_child tail ptr hc).1 t) as (elements & Hel & Hw); try done.
  - intros k' Hk'%Hu. rewrite <- app_assoc. eapply (under_weaken _ _ _ tail).
    rewrite <- !app_assoc. done.
  - intros s' Hs _. by apply Hreps.
  - intros h' t' Hin. destruct tail as [|x tail]; [by apply not_elem_of_nil in Hin|].
    apply list_elem_of_singleton in Hin as [= -> ->]. split; [|by apply Hhc].
    destruct Hfit as [_ Hfit]. rewrite length_app in Hfit. cbn in Hfit |- *. lia.
  - apply bind_Ok in Hel as (parents & Hadd & Hreh). rewrite Hadd. cbn [mbind result_bind].
    exists ((split_child tail ptr hc).2 ++ elements). split; [|done].
    destruct tail as [|x tail]; cbn [split_child snd head]; [done|]. rewrite Hreh. done.
Qed.

Lemma value_unchanged s M v0 bv pre :
  keys_ok M -> rep s M (Leaf k v0) pre -> to_bytes v0 = Ok bv -> to_bytes v = Ok bv -> M !! k = Some v.
Proof.
  intros Hkeys Hrep H0 H1. inversion Hrep as [? ? p' ? Hk Hp' _ _| |]; subst.
  destruct (Hkeys k v0 Hk) as [Hv0 _]. rewrite Hk. f_equal.
  eapply to_bytes_prefix; [exact Hv0|exact Hv|exact H0|exact H1|done].
Qed.

Lemma write_elements_ok s M root :
  root_rep s M root ->
  exists root_bytes elements, s !! root = Some root_bytes /\
    write_elements s root_bytes k v = Ok elements /\
    ((elements = [] /\ M !! k = Some v) \/
     (M !! k <> Some v /\ wrote s (<[k := v]> M) root elements)).
Proof.
  intros Hroot. pose proof Hroot as [Hkeys _].
  destruct (scan_raw_rep _ _ _ _ k p Hroot Hp) as (rb & tip & parents & Hrb & Hscan & Hsc).
  exists rb. unfold TrieOps.write_elements.
  assert (to_bytes k = Ok p) as -> by (by destruct Hp as (_ & ? & _)). cbn [mbind result_bind].
  rewrite Hscan. cbn [mbind result_bind].
  destruct Hsc as [k0 v0 bl idx pb rest ptr pre Hz Hpre Hrep Hidx Hpt Hbl
    |pb f parents pre x q Hz Ep Hx Hc Hj|affix ptr idx pb rest pre Hz Hpre Hnp Hrep].
  - pose proof Hpt as [(Hrl & _) _]. destruct (leaf_key_of_bytes k0 v0 bl Hrl Hbl) as (bv & Hbv & ->).
    cbn [mbind result_bind].
    inversion Hrep as [? ? p0 ? Hk0 Hp0 _ Hu| |]; subst k1 v1 pre0.
    assert (to_bytes k0 = Ok p0) as Hp0b by (by destruct Hp0 as (_ & ? & _)).
    case_decide as Hne.
    + rewrite Hp0b. cbn [mbind result_bind].
      destruct (write_reparent s M root k0 v0 p0 idx pb rest ptr pre) as (elements & Hel & Hw); try done.
      exists elements. split; [done|]. split; [exact Hel|]. right. split; [|done].
      intros Hk. apply Hne. apply Hu. split; [by eexists|]. by exists p.
    + subst k0.
      destruct (spec_total v Hv) as [bv' Hbv'].
      { apply (spec_length (BytesreprSpec:=Trie_spec)) in Hb as Hl; [|by destruct Hp].
        pose proof (spec_length_nonneg k ltac:(by destruct Hp)). pose proof (spec_length_nonneg v Hv).
        apply trie_to_bytes_Ok in Hb as [Hle _]; [|by destruct Hp].
        cbn [trie_serialized_length] in Hle. unfold trie_serialized_length in Hle. lia. }
      rewrite Hbv'. cbn [mbind result_bind]. case_decide as Hneq.
      * destruct (write_same_key s M root v0 idx pb rest pre) as (elements & Hel & Hw); try done.
        exists elements. split; [done|]. split; [exact Hel|]. right. split; [|done].
        intros Hk. apply Hneq. congruence.
      * subst bv'. exists []. split; [done|]. split; [done|]. left.
        split; [done|]. by apply (value_unchanged s M v0 bv pre).
  - cbn [trie_try_from_lazy mbind result_bind].
    destruct (write_at_node s M root pb f parents pre x q) as (elements & Hel & Hw); try done.
    exists elements. split; [done|]. split; [exact Hel|]. right. split; [|done].
    intros Hk. destruct Hc as (_ & _ & Habs). apply (Habs x k Hx). split; [by eexists|].
    exists p. split; [done|]. rewrite Ep. apply prefix_snoc_cons.
  - cbn [trie_try_from_lazy mbind result_bind].
    destruct (write_split s M root affix ptr idx pb rest pre) as (elements & Hel & Hw); try done.
    exists elements. split; [done|]. split; [exact Hel|]. right. split; [|done].
    intros Hk. inversion Hrep as [| |? ? pbn ? Haff Hpt Hnode Hu]; subst affix0 ptr0 pre0.
    apply Hnp. eapply under_path; [apply Hu|exact Hp]. split; [by eexists|]. by exists p.
Qed.

(** The hypothesis on collisions: the bytes of the new elements and of the store. *)
Definition write_no_clash s root : Prop :=
  forall root_bytes elements, s !! root = Some root_bytes ->
    write_elements s root_bytes k v = Ok elements -> no_clash blake2b CHUNK_SIZE_BYTES s elements.

Lemma write_rep s M root :
  root_rep s M root -> content_addressed blake2b CHUNK_SIZE_BYTES s -> write_no_clash s root ->
  exists result s', write s root k v = Ok (result, s') /\
    s ⊆ s' /\ content_addressed blake2b CHUNK_SIZE_BYTES s' /\
    match result with
    | Written root' => M !! k <> Some v /\ root_rep s' (<[k := v]> M) root'
    | AlreadyExists => M !! k = Some v /\ s' = s
    | WriteRootNotFound => False
    end.
Proof.
  intros Hroot Hca Hnc.
  destruct (write_elements_ok s M root Hroot) as (rb & elements & Hrb & Hel & Hres).
  unfold TrieOps.write. rewrite Hrb, Hel. cbn [mbind result_bind].
  destruct Hres as [[-> Hk]|[Hk (Hne & Hok & Hrep)]]; [by eexists _, _|].
  destruct (put_all_ok _ _ s elements Hca Hok (Hnc rb elements Hrb Hel)) as (s' & Hput & Hs & Hst & Hca').
  destruct elements as [|e elements]; [done|]. rewrite Hput. cbn [mbind result_bind].
  eexists _, s'. split; [done|]. split_and!; [done|done|done|]. by apply Hrep.
Qed.
End write.
