(* ===== verification/TriePrune.v ===== *)
(** * Pruning from the trie store

    [prune] removes a key from the represented map: the parents of the removed
    leaf are rebuilt, a node left with one child is merged away, and extensions
    that meet are joined. *)
From S2P Require Import Prelude BTree Bytesrepr Digest Trie TrieOps TrieRep TrieZip TrieWrite.

Open Scope Z_scope.

Lemma child_count_size (pb : PointerBlock) : child_count pb = size pb.
Proof. by rewrite child_count_elem, length_map_to_list. Qed.

Lemma two_children (pb : PointerBlock) :
  (2 <= size pb)%nat -> exists i j, i <> j /\ is_Some (pb !! i) /\ is_Some (pb !! j).
Proof.
  intros Hm. destruct (map_choose pb) as (i & x & Hi).
  { intros ->. rewrite map_size_empty in Hm. lia. }
  destruct (map_choose (delete i pb)) as (j & y & Hj).
  { intros E. apply (f_equal size) in E. rewrite map_size_delete, Hi, map_size_empty in E. lia. }
  apply lookup_delete_Some in Hj as [Hij Hj]. exists i, j. split_and!; [done|by eexists|by eexists].
Qed.

Lemma find_sibling (pb : PointerBlock) idx :
  match find (fun '(jdx, _) => bool_decide (idx <> jdx)) (as_indexed_pointers pb) with
  | Some (j, ptr) => j <> idx /\ pb !! j = Some ptr
  | None => forall j, j <> idx -> pb !! j = None
  end.
Proof.
  destruct (find _ _) as [[j ptr]|] eqn:E.
  - apply find_some in E as [Hin Hne%bool_decide_eq_true]. split; [done|].
    by apply as_indexed_pointers_elem, list_elem_of_In.
  - intros j Hne. destruct (pb !! j) as [ptr|] eqn:Ej; [|done]. exfalso.
    apply as_indexed_pointers_elem, list_elem_of_In in Ej.
    pose proof (find_none _ _ E _ Ej) as Hf. cbn in Hf.
    by rewrite bool_decide_eq_true_2 in Hf.
Qed.

(** A node with at most two children: the one at [idx], and one sibling. *)
Lemma only_two (pb : PointerBlock) idx j :
  (size pb <= 2)%nat -> is_Some (pb !! idx) -> is_Some (pb !! j) -> j <> idx ->
  forall x, x <> idx -> x <> j -> pb !! x = None.
Proof.
  intros Hs H1 H2 Hj x Hx1 Hx2. apply eq_None_not_Some. intros [p3 H3].
  pose proof (map_size_delete_Some idx pb H1) as E1.
  pose proof (map_size_delete_Some j (delete idx pb)) as E2. rewrite lookup_delete_ne in E2 by done.
  specialize (E2 H2).
  assert (size (delete j (delete idx pb)) <> 0)%nat; [|lia].
  intros E%map_size_empty_iff. apply (f_equal (lookup x)) in E.
  by rewrite !lookup_delete_ne, H3, lookup_empty in E by done.
Qed.

Section prune.
Context (blake2b : list u8 -> Digest) {TF : TreeFold1} (CHUNK_SIZE_BYTES : nat).
Context {K V : Type} {DK : Bytesrepr K} {SK : BytesreprSpec K DK}.
Context {DV : Bytesrepr V} {SV : BytesreprSpec V DV} `{Countable K}.

Abbreviation trie := (Trie K V).
Abbreviation rep := (rep CHUNK_SIZE_BYTES).
Abbreviation root_rep := (root_rep CHUNK_SIZE_BYTES).
Abbreviation keys_ok := (keys_ok CHUNK_SIZE_BYTES).
Abbreviation key_path := (key_path CHUNK_SIZE_BYTES).
Abbreviation under := (under CHUNK_SIZE_BYTES).
Abbreviation children := (children CHUNK_SIZE_BYTES).
Abbreviation siblings := (siblings CHUNK_SIZE_BYTES).
Abbreviation zip := (zip CHUNK_SIZE_BYTES).
Abbreviation rep_at := (rep_at CHUNK_SIZE_BYTES).
Abbreviation trie_hash := (trie_hash blake2b CHUNK_SIZE_BYTES).
Abbreviation elements_ok := (elements_ok blake2b CHUNK_SIZE_BYTES).
Abbreviation affix_fits := (affix_fits CHUNK_SIZE_BYTES).
Abbreviation prune_loop := (prune_loop blake2b CHUNK_SIZE_BYTES).
Abbreviation prune_elements := (prune_elements blake2b CHUNK_SIZE_BYTES (K:=K) (V:=V)).
Abbreviation prune := (prune blake2b CHUNK_SIZE_BYTES (K:=K) (V:=V)).
Implicit Types (k : K) (s : store) (M : gmap K V) (pre : list u8) (pb : PointerBlock)
  (parents : list (u8 * trie)) (elements : list (Digest * trie)).

(** ** Rebuilding the parents *)

Definition bounded (l : list u8) : Prop :=
  Z.of_nat (length l) + 38 <= Z.min u32_max (Z.of_nat CHUNK_SIZE_BYTES).

(** What is propagated upwards: a node, or an extension that is not the root and
    whose affix, with the path to it, is within a stored path. *)
Definition propagated parents pre (t : trie) : Prop :=
  match t with
  | Leaf _ _ => False
  | Node _ => True
  | Extension affix _ => parents <> [] /\ affix <> [] /\ bounded (pre ++ affix)
  end.

Lemma propagated_hash parents pre t :
  propagated parents pre t -> trie_representable t /\ exists h, trie_hash t = Ok h.
Proof.
  destruct t as [k v|pb|affix ptr]; cbn [propagated]; [done| |].
  - intros _. split; [done|]. apply (node_hash blake2b CHUNK_SIZE_BYTES (K:=K) (V:=V)).
  - intros (_ & Hne & Hb). apply (extension_hash blake2b CHUNK_SIZE_BYTES). split; [done|]. unfold bounded in Hb.
    rewrite length_app in Hb. lia.
Qed.

Lemma prune_loop_ok s M p parents pre :
  zip s M parents pre -> bounded p -> pre `prefix_of` p ->
  forall t h older, propagated parents pre t -> trie_hash t = Ok h -> elements_ok older ->
  (forall s', s ⊆ s' -> stored_all s' older -> rep_at s' M parents t pre) ->
  exists h' t' rest, prune_loop s parents ((h, t) :: older) = Ok ((h', t') :: rest) /\
    elements_ok ((h', t') :: rest) /\
    forall s', s ⊆ s' -> stored_all s' ((h', t') :: rest) ->
      stored_all s' older /\ exists pb f, stores s' h' (Node pb : trie) /\ children s' M pb f [].
Proof.
  intros Hz Hbp.
  induction Hz as [|idx pb f parents pre Hz IH Hj Hsib|i affix h0 idx pb parents pre Hz IH Hfit Hu];
    intros Hpp t h older Ht Hh Hok Hrep; destruct (propagated_hash _ _ _ Ht) as [Hr _].
  - exists h, t, older. split; [done|]. split; [by apply elements_ok_cons|].
    intros s' Hs [Hst Hall]%stored_all_cons. split; [done|].
    destruct (Hrep s' Hs Hall) as (pb & f & -> & Hc). by exists pb, f.
  - assert (forall x, prune_loop s ((idx, Node pb) :: parents) ((h, t) :: older) = Ok x <->
      (h' ← trie_hash (Node (<[idx := NodePointer h]> pb) : trie);
       prune_loop s parents ((h', Node (<[idx := NodePointer h]> pb)) :: (h, t) :: older)) = Ok x) as Heq.
    { intros x. by destruct t. }
    destruct (node_hash blake2b CHUNK_SIZE_BYTES (K:=K) (V:=V) (<[idx := NodePointer h]> pb)) as [h' Hh'].
    destruct (IH ltac:(by eapply prefix_weaken) (Node (<[idx := NodePointer h]> pb)) h' ((h, t) :: older))
      as (h'' & t'' & rest & Hloop & Hok' & Hres); [done|done|by apply elements_ok_cons| |].
    + intros s' Hs [Hst Hall]%stored_all_cons.
      assert (children s' M (<[idx := NodePointer h]> pb)
        (fun x => if decide (x = idx) then t else f x) pre) as Hc.
      { eapply children_insert; [eapply siblings_agree; [done| |done]; by intros ?| |by apply Hrep].
        replace (NodePointer h) with (tip_pointer t h) by (by destruct t). by apply points_tip. }
      destruct parents as [|pp parents]; [inversion Hz; subst; by eexists _, _|].
      destruct Hj as (j & Hji & [ptr Hpj]); [done|].
      eapply rep_of_children; [done|exact (not_eq_sym Hji)| |].
      * rewrite lookup_insert_eq. by eexists.
      * rewrite lookup_insert_ne by done. by eexists.
    + exists h'', t'', rest. split; [apply Heq; rewrite Hh'; exact Hloop|]. split; [done|].
      intros s' Hs Hst. destruct (Hres s' Hs Hst) as [[_ Hall]%stored_all_cons Hroot]. done.
  - destruct t as [k v|pbt|ca ptr]; [done| |].
    + assert (propagated ((idx, Node pb) :: parents) pre (Extension affix (NodePointer h) : trie)) as Hprop.
      { split_and!; [done|by destruct Hfit|]. unfold bounded in *.
        apply prefix_length in Hpp. lia. }
      destruct (propagated_hash _ _ _ Hprop) as [Hr' [h' Hh']].
      destruct (IH ltac:(by eapply prefix_weaken) (Extension affix (NodePointer h)) h' ((h, Node pbt) :: older))
        as (h'' & t'' & rest & Hloop & Hok' & Hres); [done|done|by apply elements_ok_cons| |].
      * intros s' Hs [Hst Hall]%stored_all_cons. cbn [TrieWrite.rep_at].
        eapply rep_ext; [by destruct Hfit|by apply (points_tip s' h (Node pbt))|by apply (Hrep s')|done].
      * exists h'', t'', rest. split; [|split; [done|]].
        -- remember ((idx, Node pb) :: parents) as ps. cbn [TrieOps.prune_loop]. rewrite Hh'. exact Hloop.
        -- intros s' Hs Hst. destruct (Hres s' Hs Hst) as [[_ Hall]%stored_all_cons Hroot]. done.
    + destruct Ht as (_ & Hca & Hbca).
      assert (propagated ((idx, Node pb) :: parents) pre (Extension (affix ++ ca) ptr : trie)) as Hprop.
      { split_and!; [done|by intros [? ?]%app_eq_nil|]. by rewrite app_assoc. }
      destruct (propagated_hash _ _ _ Hprop) as [Hr' [h' Hh']].
      destruct (IH ltac:(by eapply prefix_weaken) (Extension (affix ++ ca) ptr) h' older)
        as (h'' & t'' & rest & Hloop & Hok' & Hres); [done|done|done| |].
      * intros s' Hs Hall. cbn [TrieWrite.rep_at]. pose proof (Hrep s' Hs Hall) as Hext.
        cbn [TrieWrite.rep_at] in Hext. inversion Hext as [| |? ? pbn ? _ Hpt Hn Hu']; subst.
        apply rep_ext with pbn; [by intros [? ?]%app_eq_nil|done|by rewrite app_assoc|].
        intros k Hk. rewrite app_assoc. by apply Hu', Hu.
      * exists h'', t'', rest. split; [|done].
        remember ((idx, Node pb) :: parents) as ps. cbn [TrieOps.prune_loop]. rewrite Hh'. exact Hloop.
Qed.

(** ** Removing the leaf *)

Lemma rep_at_mono s s' M parents t pre : s ⊆ s' -> rep_at s M parents t pre -> rep_at s' M parents t pre.
Proof.
  intros Hs. destruct parents as [|pp parents]; cbn [TrieWrite.rep_at].
  - intros (pb & f & -> & H1 & H2 & H3). exists pb, f. split; [done|]. split_and!; [| |done].
    + intros. eapply points_mono; eauto.
    + intros. eapply rep_agree; [done| |eauto]. by intros ?.
  - apply rep_agree; [done|]. by intros ?.
Qed.

Context (k : K) (p : list u8) (Hp : key_path k p).

Lemma agree_off_delete M pre : pre `prefix_of` p -> agree_off CHUNK_SIZE_BYTES M (delete k M) pre.
Proof.
  intros Hpre k' p' Hp' Hn. rewrite lookup_delete_ne; [done|]. intros ->. apply Hn.
  by rewrite (key_path_fun _ _ _ _ Hp' Hp).
Qed.

Lemma under_delete M pre k' : under (delete k M) pre k' -> k' <> k /\ under M pre k'.
Proof.
  intros ([v Hk]%lookup_delete_is_Some & p' & Hp'). split; [naive_solver|].
  split; [naive_solver|]. by exists p'.
Qed.

Lemma keys_ok_delete M : keys_ok M -> keys_ok (delete k M).
Proof. intros Hok k' v' [_ Hk]%lookup_delete_Some. by apply Hok. Qed.

(** The state of the loop after the first new element. *)
Definition first_element s M parents : Prop :=
  exists parents' pre t h, prune_loop s parents [] = prune_loop s parents' [(h, t)] /\
    trie_hash t = Ok h /\ zip s M parents' pre /\ pre `prefix_of` p /\
    propagated parents' pre t /\ rep_at s M parents' t pre.

(** The node that lost its child at [idx]. *)
Lemma first_node s M pb f idx parents pre :
  zip s M parents pre -> pre `prefix_of` p -> children s M (delete idx pb) f pre ->
  (parents <> [] -> (2 <= size (delete idx pb))%nat) ->
  exists h, trie_hash (Node (delete idx pb) : trie) = Ok h /\
    (prune_loop s ((idx, Node pb) :: parents) [] = prune_loop s parents [(h, Node (delete idx pb))] ->
     first_element s M ((idx, Node pb) :: parents)).
Proof.
  intros Hz Hpre Hc Hsz.
  destruct (node_hash blake2b CHUNK_SIZE_BYTES (K:=K) (V:=V) (delete idx pb)) as [h Hh].
  exists h. split; [done|]. intros E. exists parents, pre, (Node (delete idx pb)), h.
  split_and!; [done|done|done|done|done|].
  destruct parents as [|pp parents]; cbn [TrieWrite.rep_at].
  - inversion Hz; subst. by eexists _, _.
  - destruct (two_children (delete idx pb)) as (i & j & Hij & Hi & Hj); [by apply Hsz|].
    by eapply rep_of_children.
Qed.

(** A leaf moved up to the node at [pre], in place of the subtrie below [idx]. *)
Lemma first_reseat s M k1 v1 p1 ptr idx pb parents pre parents0 :
  zip s M ((idx, Node pb) :: parents) (pre ++ [idx]) -> pre ++ [idx] `prefix_of` p ->
  points s ptr (Leaf k1 v1) -> M !! k1 = Some v1 -> key_path k1 p1 -> pre ++ [idx] `prefix_of` p1 ->
  (forall k', under M (pre ++ [idx]) k' -> k' = k1) ->
  exists h, trie_hash (Node (<[idx := ptr]> pb) : trie) = Ok h /\
    (prune_loop s parents0 [] = prune_loop s parents [(h, Node (<[idx := ptr]> pb))] ->
     first_element s M parents0).
Proof.
  intros Hz Hpre Hpt Hk1 Hp1 Hpre1 Hu.
  destruct (node_hash blake2b CHUNK_SIZE_BYTES (K:=K) (V:=V) (<[idx := ptr]> pb)) as [h Hh].
  exists h. split; [done|]. intros E.
  apply zip_node_inv in Hz as (f & pre' & [<- _]%app_inj_tail & Hz' & Hj & Hsib).
  assert (children s M (<[idx := ptr]> pb)
    (fun x => if decide (x = idx) then Leaf k1 v1 else f x) pre) as Hc.
  { eapply children_insert; [done|done|by eapply rep_leaf]. }
  exists parents, pre, (Node (<[idx := ptr]> pb)), h.
  split_and!; [done|done|done|by eapply prefix_weaken|done|].
  destruct parents as [|pp parents]; cbn [TrieWrite.rep_at].
  - inversion Hz'; subst. by eexists _, _.
  - destruct Hj as (j & Hji & [ptr' Hpj]); [done|].
    eapply rep_of_children; [done|exact (not_eq_sym Hji)| |].
    + rewrite lookup_insert_eq. by eexists.
    + rewrite lookup_insert_ne by done. by eexists.
Qed.

(** An extension that replaces a node with one child. *)
Lemma first_extension s M affix ptr pbn parents pre parents0 :
  parents <> [] -> zip s M parents pre -> pre `prefix_of` p -> affix <> [] ->
  points s ptr (Node pbn : trie) -> rep s M (Node pbn) (pre ++ affix) ->
  (forall k', under M pre k' -> under M (pre ++ affix) k') ->
  exists h, trie_hash (Extension affix ptr : trie) = Ok h /\
    (prune_loop s parents0 [] = prune_loop s parents [(h, Extension affix ptr)] ->
     first_element s M parents0).
Proof.
  intros Hne Hz Hpre Haff Hpt Hrep Hu.
  assert (rep s M (Extension affix ptr) pre) as Hext by (by eapply rep_ext).
  assert (propagated parents pre (Extension affix ptr : trie)) as Hprop.
  { split_and!; [done|done|]. destruct (rep_nonempty _ _ _ _ _ Hrep) as (k' & _ & p' & (_ & _ & _ & Hb) & Hpre').
    apply prefix_length in Hpre'. unfold bounded. lia. }
  destruct (propagated_hash _ _ _ Hprop) as [_ [h Hh]]. exists h. split; [done|]. intros E.
  exists parents, pre, (Extension affix ptr), h. split_and!; try done.
  by destruct parents.
Qed.

(** When a node has lost its child at [idx] and has one other child, at [j], all
    remaining keys are below [j]. *)
Lemma under_sibling s M pb f idx j ptr pre :
  siblings s M pb f idx pre -> pb !! j = Some ptr -> j <> idx ->
  (forall k', ~ under M (pre ++ [idx]) k') -> (forall x, x <> idx -> x <> j -> pb !! x = None) ->
  forall k', under M pre k' -> under M (pre ++ [j]) k'.
Proof.
  intros (_ & Hrep & Habs) Hj Hne Hgone Honly k' (Hk' & p' & Hp' & Hpre').
  destruct (path_continues CHUNK_SIZE_BYTES s M (f j) pre j k' p') as (x & q & ->); [by eapply Hrep|done|done|].
  assert (under M (pre ++ [x]) k') as Hx.
  { split; [done|]. eexists. split; [done|]. apply prefix_snoc_cons. }
  destruct (decide (x = idx)) as [->|Hx1]; [by destruct (Hgone k')|].
  destruct (decide (x = j)) as [->|Hx2]; [done|].
  exfalso. eapply Habs; [exact Hx1|by apply Honly|exact Hx].
Qed.

Lemma prune_sibling s M pb f idx j ptr parents pre :
  zip s M parents pre -> pre `prefix_of` p -> parents <> [] -> siblings s M pb f idx pre ->
  pb !! j = Some ptr -> j <> idx -> (forall k', under M pre k' -> under M (pre ++ [j]) k') ->
  (2 <? child_count pb)%nat = false ->
  find (fun '(jdx, _) => bool_decide (idx <> jdx)) (as_indexed_pointers pb) = Some (j, ptr) ->
  first_element s M ((idx, Node pb) :: parents).
Proof.
  intros Hz Hpre Hne (Hpts & Hrep & _) Hj Hji Hu Hcount Hfind.
  pose proof (Hpts j ptr Hji Hj) as Hpt. pose proof (Hrep j ptr Hji Hj) as Hrj.
  pose proof Hpt as [Hst Hptr].
  destruct (f j) as [k1 v1|pbn|ea eptr] eqn:Efj; cbn [tip_pointer] in Hptr.
  - (* the sibling is a leaf *)
    inversion Hrj as [? ? p1 ? Hk1 Hp1 Hpre1 Hu1| |]; subst k0 v pre0.
    assert (forall k', under M pre k' -> k' = k1) as Hk1u by (intros k' Hk'; by apply Hu1, Hu).
    assert (pre `prefix_of` p1) as Hpre1' by (by eapply prefix_weaken).
    destruct parents as [|[gi [| |]] parents]; [done|by inversion Hz| |].
    + pose proof (zip_node_inv _ _ _ _ _ _ _ Hz) as (f1 & pre1 & -> & _).
      destruct (first_reseat s M k1 v1 p1 ptr gi pointer_block parents pre1
        ((idx, Node pb) :: (gi, Node pointer_block) :: parents)) as (h & Hh & Hfirst); try done.
      apply Hfirst. cbn [TrieOps.prune_loop]. rewrite Hcount, Hfind, Hptr. cbn [pointer_hash].
      rewrite Hptr in Hh. cbn [pointer_hash] in Hh. rewrite Hh. done.
    + pose proof (zip_ext_inv _ _ _ _ _ _ _ _ Hz) as (gidx & gpb & rest & pre1 & gh & -> & -> & -> & Hz1 & _ & Hu2).
      pose proof (zip_node_inv _ _ _ _ _ _ _ Hz1) as (f1 & pre2 & -> & _).
      destruct (first_reseat s M k1 v1 p1 ptr gidx gpb rest pre2
        ((idx, Node pb) :: (gi, Extension affix (NodePointer gh)) :: (gidx, Node gpb) :: rest))
        as (h & Hh & Hfirst); try done.
      * by eapply prefix_weaken.
      * by eapply prefix_weaken.
      * intros k' Hk'. by apply Hk1u, Hu2.
      * apply Hfirst. cbn [TrieOps.prune_loop]. rewrite Hcount, Hfind, Hptr. cbn [pointer_hash].
        rewrite Hptr in Hh. cbn [pointer_hash] in Hh. rewrite Hh. done.
  - (* the sibling is a node *)
    destruct (first_extension s M [j] ptr pbn parents pre ((idx, Node pb) :: parents))
      as (h & Hh & Hfirst); try done.
    apply Hfirst. cbn [TrieOps.prune_loop]. rewrite Hcount, Hfind.
    destruct ptr as [h1|h1]; [done|]. cbn [pointer_hash] in *.
    destruct parents as [|[gi [| |]] parents]; [done|by inversion Hz| |];
      rewrite (get_stores _ _ _ Hst); cbn [mbind result_bind expect]; rewrite Hh; done.
  - (* the sibling is an extension *)
    inversion Hrj as [| |? ? pbn ? Hea Hpe Hrn Hue]; subst.
    destruct (first_extension s M (j :: ea) eptr pbn parents pre ((idx, Node pb) :: parents))
      as (h & Hh & Hfirst); try done.
    + by rewrite <- app_assoc in Hrn.
    + intros k' Hk'%Hu%Hue. by rewrite <- app_assoc in Hk'.
    + apply Hfirst. cbn [TrieOps.prune_loop]. rewrite Hcount, Hfind.
      destruct ptr as [h1|h1]; [done|]. cbn [pointer_hash] in *.
      destruct parents as [|[gi [| |]] parents]; [done|by inversion Hz| |];
        rewrite (get_stores _ _ _ Hst); cbn [mbind result_bind expect]; rewrite Hh; done.
Qed.

Lemma prune_first s M v idx pb rest pre :
  zip s M ((idx, Node pb) :: rest) pre -> pre `prefix_of` p -> rep s M (Leaf k v) pre ->
  is_Some (pb !! idx) -> first_element s (delete k M) ((idx, Node pb) :: rest).
Proof.
  intros Hz Hpre Hrep Hidx. inversion Hrep as [? ? p' ? Hk Hp' _ Hu| |]; subst k0 v0 pre0.
  pose proof (zip_agree _ s s _ _ _ _ (reflexivity s) (agree_off_delete M pre Hpre) Hz) as Hz'.
  assert (forall k', ~ under (delete k M) pre k') as Hgone.
  { intros k' [Hne Hk']%under_delete. by apply Hne, Hu. }
  apply zip_node_inv in Hz' as (f & pre0 & -> & Hz' & Hj & Hsib).
  assert (pre0 `prefix_of` p) as Hpre0 by (by eapply prefix_weaken).
  assert (children s (delete k M) (delete idx pb) f pre0) as Hc.
  { destruct Hsib as (H1 & H2 & H3). split_and!.
    - intros x ptr [? ?]%lookup_delete_Some. by eapply H1.
    - intros x ptr [? ?]%lookup_delete_Some. by eapply H2.
    - intros x k' Hx. destruct (decide (x = idx)) as [->|Hne]; [by apply Hgone|].
      rewrite lookup_delete_ne in Hx by done. by eapply H3. }
  pose proof (map_size_delete_Some idx pb Hidx) as Hsize.
  destruct (2 <? child_count pb)%nat eqn:Hcount.
  { pose proof Hcount as Hc2%Nat.ltb_lt. rewrite child_count_size in Hc2.
    destruct (first_node s (delete k M) pb f idx rest pre0) as (h & Hh & Hfirst); try done; [lia|].
    apply Hfirst. cbn [TrieOps.prune_loop]. rewrite Hcount, Hh. done. }
  pose proof (find_sibling pb idx) as Hfind.
  destruct (find _ _) as [[j ptr]|] eqn:Efind.
  - destruct Hfind as [Hji Hpj]. destruct rest as [|pp rest].
    + destruct (first_node s (delete k M) pb f idx [] pre0) as (h & Hh & Hfirst); try done.
      apply Hfirst. cbn [TrieOps.prune_loop]. rewrite Hcount, Efind. destruct ptr; by rewrite Hh.
    + eapply prune_sibling; [exact Hz'|done|done|exact Hsib|exact Hpj|done| |done|done].
      eapply under_sibling; [exact Hsib|exact Hpj|done|done|].
      apply Nat.ltb_ge in Hcount. rewrite child_count_size in Hcount.
      apply only_two; [done|done|by eexists|done].
  - destruct rest as [|pp rest].
    2: { destruct Hj as (j & Hji & [ptr Hpj]); [done|]. by rewrite Hfind in Hpj. }
    assert (delete idx pb = ∅) as Hempty.
    { apply map_eq. intros x. rewrite lookup_empty. destruct (decide (x = idx)) as [->|Hne].
      - by rewrite lookup_delete_eq.
      - rewrite lookup_delete_ne by done. by apply Hfind. }
    destruct (first_node s (delete k M) pb f idx [] pre0) as (h & Hh & Hfirst); try done.
    apply Hfirst. cbn [TrieOps.prune_loop]. rewrite Hempty in *. rewrite Hcount, Efind, Hh. done.
Qed.

Definition pruned s M' elements : Prop :=
  exists h t rest, elements = (h, t) :: rest /\ elements_ok elements /\
    forall s', s ⊆ s' -> stored_all s' elements -> root_rep s' M' h.

Lemma prune_elements_ok s M root :
  root_rep s M root ->
  exists root_bytes result, s !! root = Some root_bytes /\
    prune_elements s root_bytes k = Ok result /\
    match result with
    | None => M !! k = None
    | Some elements => is_Some (M !! k) /\ pruned s (delete k M) elements
    end.
Proof.
  intros Hroot. pose proof Hroot as [Hkeys _].
  destruct (scan_raw_rep _ _ _ _ k p Hroot Hp) as (rb & tip & parents & Hrb & Hscan & Hsc).
  exists rb. unfold TrieOps.prune_elements.
  assert (to_bytes k = Ok p) as -> by (by destruct Hp as (_ & ? & _)). cbn [mbind result_bind].
  rewrite Hscan. cbn [mbind result_bind].
  destruct Hsc as [k0 v0 bl idx pb rest ptr pre Hz Hpre Hrep Hidx Hpt Hbl
    |pb f parents pre x q Hz Ep Hx Hc Hj|affix ptr idx pb rest pre Hz Hpre Hnp Hrep].
  - pose proof Hpt as [(Hrl & _) _]. destruct (leaf_key_of_bytes k0 v0 bl Hrl Hbl) as (bv & Hbv & ->).
    cbn [mbind result_bind].
    inversion Hrep as [? ? p0 ? Hk0 Hp0 _ Hu| |]; subst k1 v pre0.
    destruct (decide (k0 = k)) as [->|Hne].
    + rewrite bool_decide_eq_true_2 by done.
      destruct (prune_first s M v0 idx pb rest pre) as (ps & q & t & h & Eloop & Hh & Hz' & Hq & Hprop & Hat);
        [done|done|done|by eexists|].
      rewrite Eloop.
      destruct (prune_loop_ok s (delete k M) p ps q Hz') with t h (@nil (Digest * trie))
        as (h' & t' & older & Hloop & Hok & Hres); [|done|done|done| | |].
      * by destruct Hp as (_ & _ & _ & ?).
      * by intros ? ? ?%not_elem_of_nil.
      * intros s' Hs _. by eapply rep_at_mono.
      * rewrite Hloop. cbn [mbind result_bind]. eexists. split; [done|]. split; [done|].
        split; [by eexists|]. eexists _, _, _. split; [done|]. split; [done|].
        intros s' Hs Hst. split; [by apply keys_ok_delete|].
        destruct (Hres s' Hs Hst) as (_ & pbr & fr & Hstr & Hcr). by exists pbr, fr.
    + rewrite bool_decide_eq_false_2 by done. eexists. split; [done|]. split; [done|].
      apply eq_None_not_Some. intros Hk. apply Hne. symmetry. apply Hu. split; [done|]. by exists p.
  - eexists. split; [done|]. split; [done|]. apply eq_None_not_Some. intros Hk.
    destruct Hc as (_ & _ & Habs). apply (Habs x k Hx). split; [done|].
    exists p. split; [done|]. rewrite Ep. apply prefix_snoc_cons.
  - eexists. split; [done|]. split; [done|]. apply eq_None_not_Some. intros Hk.
    inversion Hrep as [| |? ? pbn ? Haff Hpt Hnode Hu]; subst affix0 ptr0 pre0.
    apply Hnp. eapply under_path; [apply Hu|exact Hp]. split; [done|]. by exists p.
Qed.

Definition prune_no_clash s root : Prop :=
  forall root_bytes elements, s !! root = Some root_bytes ->
    prune_elements s root_bytes k = Ok (Some elements) ->
    no_clash blake2b CHUNK_SIZE_BYTES s (reverse elements).

Lemma prune_rep s M root :
  root_rep s M root -> content_addressed blake2b CHUNK_SIZE_BYTES s -> prune_no_clash s root ->
  exists result s', prune s root k = Ok (result, s') /\
    s ⊆ s' /\ content_addressed blake2b CHUNK_SIZE_BYTES s' /\
    match result with
    | Pruned root' => is_Some (M !! k) /\ root_rep s' (delete k M) root'
    | MissingKey => M !! k = None /\ s' = s
    | PruneRootNotFound => False
    end.
Proof.
  intros Hroot Hca Hnc.
  destruct (prune_elements_ok s M root Hroot) as (rb & result & Hrb & Hel & Hres).
  unfold TrieOps.prune. rewrite Hrb, Hel. cbn [mbind result_bind].
  destruct result as [elements|]; [|by eexists _, _].
  destruct Hres as (Hk & h & t & rest & -> & Hok & Hrep).
  assert (forall h' t', (h', t') ∈ reverse ((h, t) :: rest) <-> (h', t') ∈ (h, t) :: rest) as Hin.
  { intros. apply elem_of_reverse. }
  destruct (put_all_ok blake2b CHUNK_SIZE_BYTES s (reverse ((h, t) :: rest)))
    as (s' & Hput & Hs & Hst & Hca'); [done| |by eapply Hnc|].
  { intros h' t' Ht. by apply Hok, Hin. }
  rewrite Hput. cbn [mbind result_bind]. eexists _, s'. split; [done|].
  split_and!; [done|done|done|]. apply Hrep; [done|]. intros h' t' Ht. by apply Hst, Hin.
Qed.
End prune.
