(* ===== verification/TrieProof.v ===== *)
(** * Merkle proofs of the trie store

    [read_with_proof] returns a proof from which [compute_state_hash] computes
    the root hash, and a proof from which the root hash is computed is right
    about the represented map. *)
From S2P Require Import Prelude BTree Bytesrepr Digest Trie TrieOps TrieRep TrieRead TrieZip.

Open Scope Z_scope.

Section proof.
Context (blake2b : list u8 -> Digest) {TF : TreeFold1} (CHUNK_SIZE_BYTES : nat).
Context {K V : Type} {DK : Bytesrepr K} {SK : BytesreprSpec K DK}.
Context {DV : Bytesrepr V} {SV : BytesreprSpec V DV} `{Countable K}.
(** A chunk holds a node. *)
Context (Hchunk : NODE_MAX_LENGTH <= Z.of_nat CHUNK_SIZE_BYTES).

Abbreviation trie := (Trie K V).
Abbreviation rep := (rep CHUNK_SIZE_BYTES).
Abbreviation root_rep := (root_rep CHUNK_SIZE_BYTES).
Abbreviation key_path := (key_path CHUNK_SIZE_BYTES).
Abbreviation under := (under CHUNK_SIZE_BYTES).
Abbreviation children := (children CHUNK_SIZE_BYTES).
Abbreviation chunk_hash := (hash_into_chunks_if_necessary blake2b CHUNK_SIZE_BYTES).
Abbreviation content_addressed := (content_addressed blake2b CHUNK_SIZE_BYTES).
Abbreviation state_hash_loop := (state_hash_loop blake2b (K:=K) (V:=V)).
Abbreviation compute_state_hash := (compute_state_hash blake2b CHUNK_SIZE_BYTES (K:=K) (V:=V)).
Abbreviation long_enough := (long_enough CHUNK_SIZE_BYTES).
Implicit Types (k : K) (s : store) (M : gmap K V) (pre : list u8) (pb : PointerBlock).

Definition is_leaf (t : trie) : bool := match t with Leaf _ _ => true | _ => false end.

(** Nodes and extensions are hashed in one chunk. *)
Lemma one_chunk b : (length b <= CHUNK_SIZE_BYTES)%nat -> chunk_hash b = hash blake2b b.
Proof. intros Hl. unfold hash_into_chunks_if_necessary. by apply Nat.leb_le in Hl as ->. Qed.

Lemma node_one_chunk pb b : trie_to_bytes (Node pb : trie) = Ok b -> chunk_hash b = hash blake2b b.
Proof.
  intros Hb. apply one_chunk. destruct (node_to_bytes (K:=K) (V:=V) pb) as (b' & Hb' & Hl).
  assert (b' = b) as -> by congruence. lia.
Qed.

Lemma extension_one_chunk affix ptr b :
  affix_fits CHUNK_SIZE_BYTES affix -> trie_to_bytes (Extension affix ptr : trie) = Ok b ->
  chunk_hash b = hash blake2b b.
Proof.
  intros [_ Hf] Hb. apply one_chunk.
  destruct (extension_to_bytes (K:=K) (V:=V) affix ptr) as (_ & b' & Hb' & Hl); [lia|].
  assert (b' = b) as -> by congruence. lia.
Qed.

(** The pointer used for a child is the pointer stored in its parent. *)
Lemma proof_pointer s ptr (t : trie) b :
  content_addressed s -> points s ptr t -> trie_to_bytes t = Ok b ->
  (if is_leaf t then LeafPointer (chunk_hash b) else NodePointer (chunk_hash b)) = ptr.
Proof.
  intros Hca [(_ & b' & Hb' & Hs) Hptr] Hb. assert (b' = b) as -> by congruence.
  rewrite (Hca _ _ Hs), Hptr. by destruct t.
Qed.

(** What the steps of a proof compute: from the leaf's hash, the hash of the
    subtrie. *)
Definition steps_to (steps : list TrieMerkleProofStep) k (v : V) (t : trie) : Prop :=
  forall b rest, trie_to_bytes t = Ok b ->
    exists bl, trie_to_bytes (Leaf k v : trie) = Ok bl /\
      state_hash_loop true (chunk_hash bl) (steps ++ rest)
      = state_hash_loop (is_leaf t) (chunk_hash b) rest.

Lemma steps_node s steps k v pb x ptr t :
  content_addressed s -> pb !! x = Some ptr -> points s ptr t -> steps_to steps k v t ->
  steps_to (steps ++ [StepNode x (filter (fun ip => ip.1 <> x) (as_indexed_pointers pb))]) k v (Node pb).
Proof.
  intros Hca Hx Hpt Hsteps b rest Hb. pose proof Hpt as [(_ & bt & Hbt & _) _].
  destruct (Hsteps bt (StepNode x (filter (fun ip => ip.1 <> x) (as_indexed_pointers pb)) :: rest) Hbt)
    as (bl & Hbl & E). exists bl. split; [done|].
  rewrite <- app_assoc. cbn [app]. rewrite E. cbn [TrieOps.state_hash_loop].
  rewrite (proof_pointer s ptr t bt) by done. unfold trie_node. rewrite fill_hole by done.
  rewrite Hb. cbn [mbind result_bind]. by rewrite (node_one_chunk pb b).
Qed.

Lemma steps_extension s steps k v affix ptr t :
  content_addressed s -> affix_fits CHUNK_SIZE_BYTES affix -> points s ptr t -> steps_to steps k v t ->
  steps_to (steps ++ [StepExtension affix]) k v (Extension affix ptr).
Proof.
  intros Hca Hfit Hpt Hsteps b rest Hb. pose proof Hpt as [(_ & bt & Hbt & _) _].
  destruct (Hsteps bt (StepExtension affix :: rest) Hbt) as (bl & Hbl & E).
  exists bl. split; [done|]. rewrite <- app_assoc. cbn [app]. rewrite E. cbn [TrieOps.state_hash_loop].
  rewrite (proof_pointer s ptr t bt) by done. rewrite Hb. cbn [mbind result_bind].
  by rewrite (extension_one_chunk affix ptr b).
Qed.

(** The outcome of the loop of [read_with_proof]. *)
Definition proved M k (t : trie) (acc : list TrieMerkleProofStep)
    (r : result Error (ReadResult (TrieMerkleProof K V))) : Prop :=
  match M !! k with
  | None => r = Ok NotFound
  | Some v => exists steps, r = Ok (Found (mkTrieMerkleProof k v (steps ++ acc))) /\ steps_to steps k v t
  end.

Lemma proof_loop_rep s M t pre k p fuel acc :
  content_addressed s -> rep s M t pre -> pre <> [] -> key_path k p -> pre `prefix_of` p -> long_enough M k p ->
  (length p < length pre + fuel)%nat ->
  proved M k t acc (read_with_proof_loop fuel s k p (length pre) t acc).
Proof.
  intros Hca Hrep. revert p fuel acc.
  induction Hrep as [k0 v p0 pre Hk Hp Hpre Hu|pb f i j pre Hij Hi Hj Hpts Hrep IH Habs
    |affix ptr pb pre Haff Hpt Hrep IH Hu]; intros p [|fuel] acc Hnil Hkp Hpp Hlong Hfuel;
    try (apply prefix_length in Hpp; lia); cbn [read_with_proof_loop].
  - unfold proved. destruct (decide (k = k0)) as [->|Hne].
    + rewrite Hk. exists []. split; [done|]. intros b rest Hb. exists b. done.
    + destruct (M !! k) eqn:E; [|done]. destruct Hne. apply Hu. split; [by eexists|]. eauto.
  - assert (rep s M (Node pb) pre) as Hnode by (by eapply rep_node).
    destruct (node_path_continues _ _ _ _ _ _ _ Hnode Hkp Hpp) as (x & q & ->).
    rewrite lookup_after. cbn [head expect mbind result_bind].
    destruct (pb !! x) as [ptr|] eqn:Ex.
    + pose proof (Hpts x ptr Ex) as Hpt. pose proof Hpt as [Hst _].
      rewrite (get_stores _ _ _ Hst). cbn [mbind result_bind].
      replace (length pre + 1)%nat with (length (pre ++ [x])) by (by rewrite length_app).
      specialize (IH x ptr Ex (pre ++ x :: q) fuel
        (StepNode x (filter (fun ip => ip.1 <> x) (as_indexed_pointers pb)) :: acc) ltac:(by destruct pre) Hkp).
      unfold proved in *. destruct (M !! k) as [v|].
      * destruct IH as (steps & -> & Hsteps); [apply prefix_snoc_cons|done| |].
        { rewrite !length_app in *. cbn [length] in *. lia. }
        eexists. split; [by rewrite (cons_middle _ steps acc), app_assoc|]. by eapply steps_node.
      * apply IH; [apply prefix_snoc_cons|done|]. rewrite !length_app in *. cbn [length] in *. lia.
    + unfold proved. rewrite (absent_none _ M _ k _ Hkp (prefix_snoc_cons pre q x)); [done|]. by apply Habs.
  - destruct Hpp as [q ->].
    assert (rep s M (Extension affix ptr) pre) as Hext by (by eapply rep_ext).
    assert (length affix <= length q)%nat as Hr by (eapply ext_in_range; [exact Hext|done|exact Hkp|done]).
    rewrite slice_app by done. cbn [mbind result_bind]. case_decide as E.
    + pose proof Hpt as [Hst _]. rewrite (get_stores _ _ _ Hst). cbn [mbind result_bind].
      assert (q = affix ++ drop (length affix) q) as Eq by (rewrite <- E at 1; by rewrite take_drop).
      replace (length pre + length affix)%nat with (length (pre ++ affix)) by (by rewrite length_app).
      specialize (IH (pre ++ q) fuel (StepExtension affix :: acc) ltac:(by destruct pre) Hkp).
      assert (pre ++ affix `prefix_of` pre ++ q) as Hpq by (rewrite Eq, app_assoc; by eexists).
      assert (length (pre ++ q) < length (pre ++ affix) + fuel)%nat as Hf.
      { destruct affix; [done|]. rewrite !length_app in *. cbn [length] in *. lia. }
      specialize (IH Hpq Hlong Hf). unfold proved in *. destruct (M !! k) as [v|]; [|done].
      destruct IH as (steps & -> & Hsteps). eexists.
      split; [by rewrite (cons_middle _ steps acc), app_assoc|].
      eapply steps_extension; [done|by eapply rep_ext_fits|done|done].
    + unfold proved. destruct (M !! k) as [v|] eqn:Ek; [|done]. exfalso. apply E.
      assert (under M pre k) as Hk%Hu.
      { split; [by eexists|]. exists (pre ++ q). split; [done|]. by eexists. }
      pose proof (under_path _ _ _ _ _ Hk Hkp) as [r Er].
      rewrite <- app_assoc in Er. apply app_inv_head in Er as ->. by rewrite take_app_length.
Qed.

Lemma read_with_proof_rep s M root k p :
  content_addressed s -> root_rep s M root -> key_path k p -> long_enough M k p ->
  match M !! k with
  | None => read_with_proof s root k = Ok (NotFound : ReadResult (TrieMerkleProof K V))
  | Some v => exists proof, read_with_proof s root k = Ok (Found proof) /\
      proof_key proof = k /\ proof_value proof = v /\ compute_state_hash proof = Ok root
  end.
Proof.
  intros Hca (Hkeys & pb & f & Hst & Hpts & Hrep & Habs) Hkp Hlong.
  pose proof Hkp as (Hr & Hp & Hne & Hsz). unfold read_with_proof. rewrite Hp. cbn [mbind result_bind].
  rewrite (get_stores _ _ _ Hst). cbn [mbind result_bind]. unfold walk_fuel. cbn [read_with_proof_loop].
  destruct p as [|x q]; [done|]. cbn [lookup list_lookup expect mbind result_bind].
  assert ([] ++ [x] `prefix_of` x :: q) as Hx by (by exists q).
  destruct (pb !! x) as [ptr|] eqn:Ex.
  - pose proof (Hpts x ptr Ex) as Hpt. pose proof Hpt as [Hst' _].
    rewrite (get_stores _ _ _ Hst'). cbn [mbind result_bind].
    pose proof (proof_loop_rep s M (f x) ([] ++ [x]) k (x :: q) (S (length (x :: q)) * S (size s))%nat
      [StepNode x (filter (fun ip => ip.1 <> x) (as_indexed_pointers pb))] Hca (Hrep x ptr Ex) ltac:(done) Hkp Hx Hlong)
      as Hloop.
    specialize (Hloop ltac:(cbn [length app]; nia)). unfold proved in Hloop.
    destruct (M !! k) as [v|]; [|done].
    destruct Hloop as (steps & E & Hsteps). cbn [length app] in E. exists (mkTrieMerkleProof k v
      (steps ++ [StepNode x (filter (fun ip => ip.1 <> x) (as_indexed_pointers pb))])).
    split_and!; [exact E|done|done|].
    destruct Hst as (_ & b & Hb & Hsb).
    destruct (steps_node s steps k v pb x ptr (f x) Hca Ex Hpt Hsteps b [] Hb) as (bl & Hbl & El).
    unfold TrieOps.compute_state_hash. cbn [proof_key proof_value proof_steps].
    unfold trie_hash. rewrite Hbl. cbn [mbind result_bind].
    rewrite app_nil_r in El. rewrite El. cbn [TrieOps.state_hash_loop]. by rewrite (Hca _ _ Hsb).
  - rewrite (absent_none CHUNK_SIZE_BYTES M ([] ++ [x]) k (x :: q)); [done|done|done|]. by apply Habs.
Qed.

(** ** Soundness *)

(** The bytes that the steps of a proof hash. *)
Fixpoint step_inputs (first : bool) (h : Digest) (steps : list TrieMerkleProofStep) : list (list u8) :=
  match steps with
  | [] => []
  | step :: steps =>
      let pointer := if first then LeafPointer h else NodePointer h in
      let input :=
        match step with
        | StepNode i l => trie_to_bytes (trie_node (l ++ [(i, pointer)]) : trie)
        | StepExtension affix => trie_to_bytes (Extension affix pointer : trie)
        end in
      match input with
      | Ok b => b :: step_inputs false (hash blake2b b) steps
      | _ => []
      end
  end.

(** No bytes of the store collide with other bytes that the proof hashes. *)
Definition proof_no_clash s (proof : TrieMerkleProof K V) : Prop :=
  forall bl b h, trie_to_bytes (Leaf (proof_key proof) (proof_value proof)) = Ok bl ->
    s !! h = Some b ->
    (chunk_hash b = chunk_hash bl -> b = bl) /\
    (forall b', b' ∈ step_inputs true (chunk_hash bl) (proof_steps proof) ->
       chunk_hash b = hash blake2b b' -> b = b').

(** A subtrie of the represented map, or its root. *)
Definition within s M (t : trie) : Prop :=
  (exists pre, rep s M t pre) \/ (exists pb f, t = Node pb /\ children s M pb f []).

Lemma within_node s M pb x ptr :
  within s M (Node pb) -> pb !! x = Some ptr -> exists t, points s ptr t /\ within s M t.
Proof.
  intros [(pre & (f & H1 & H2 & _)%rep_children)|(pb' & f & E & H1 & H2 & _)] Hx.
  - exists (f x). split; [by apply H1|]. left. eauto.
  - injection E as <-. exists (f x). split; [by apply H1|]. left. eauto.
Qed.

Lemma within_extension s M affix ptr :
  within s M (Extension affix ptr) -> exists t, points s ptr t /\ within s M t.
Proof.
  intros [[pre Hrep]|(pb & f & E & _)]; [|done].
  inversion Hrep as [| |? ? pb ? _ Hpt Hn _]; subst. exists (Node pb). split; [done|]. left. eauto.
Qed.

(** A trie stored under the hash of other bytes has these bytes. *)
Lemma same_trie s h (t t' : trie) b :
  stores s h t -> trie_representable t' -> trie_to_bytes t' = Ok b ->
  (forall b0, s !! h = Some b0 -> b0 = b) -> t = t'.
Proof.
  intros (Hr & b0 & Hb0 & Hs) Hr' Hb Heq. rewrite (Heq _ Hs) in Hb0.
  pose proof (trie_roundtrip t b [] Hr Hb0) as E. rewrite (trie_roundtrip t' b [] Hr' Hb) in E.
  by injection E as ->.
Qed.

(** The steps of the proof, from the root of a subtrie down: its hash is the one
    computed, so it is on the way to the proof's leaf. *)
Lemma state_hash_loop_app first h steps step :
  state_hash_loop first h (steps ++ [step]) =
  (h' ← state_hash_loop first h steps;
   state_hash_loop (match steps with [] => first | _ => false end) h' [step]).
Proof.
  revert first h. induction steps as [|st steps IH]; intros first h; [done|].
  cbn [app TrieOps.state_hash_loop]. destruct st as [i l|affix].
  - destruct (trie_to_bytes _) as [b|e| |]; cbn [mbind result_bind]; [|done..].
    rewrite IH. by destruct steps.
  - destruct (trie_to_bytes _) as [b|e| |]; cbn [mbind result_bind]; [|done..].
    rewrite IH. by destruct steps.
Qed.

Lemma step_inputs_app first h steps step h' :
  state_hash_loop first h steps = Ok h' ->
  step_inputs first h (steps ++ [step]) =
  step_inputs first h steps ++ step_inputs (match steps with [] => first | _ => false end) h' [step].
Proof.
  revert first h. induction steps as [|st steps IH]; intros first h E.
  - cbn in E. by injection E as ->.
  - cbn [app TrieOps.state_hash_loop step_inputs] in *.
    destruct st as [i l|affix]; destruct (trie_to_bytes _) as [b|e| |]; cbn [mbind result_bind] in E;
      try done; rewrite (IH _ _ E); by destruct steps.
Qed.

Lemma extension_representable affix ptr b :
  trie_to_bytes (Extension affix ptr : trie) = Ok b -> trie_representable (Extension affix ptr : trie).
Proof.
  unfold trie_to_bytes. intros (buf & [-> Hl]%allocate_buffer_Ok & _)%bind_Ok.
  change (1 + ((4 + Z.of_nat (length affix)) + 33) <= u32_max) in Hl. cbn. lia.
Qed.

Lemma steps_sound s M k v bl steps h t :
  content_addressed s -> trie_representable (Leaf k v : trie) -> trie_to_bytes (Leaf k v : trie) = Ok bl ->
  (forall b, s !! chunk_hash bl = Some b -> b = bl) ->
  (forall b b' h, s !! h = Some b -> b' ∈ step_inputs true (chunk_hash bl) steps ->
     chunk_hash b = hash blake2b b' -> b = b') ->
  state_hash_loop true (chunk_hash bl) steps = Ok h -> stores s h t -> within s M t ->
  M !! k = Some v.
Proof.
  intros Hca Hr Hbl Hleaf. revert h t. induction steps as [|step steps IH] using rev_ind; intros h t Hnc E Hst Hin.
  - cbn in E. injection E as <-. assert (t = Leaf k v) as -> by (by eapply same_trie).
    destruct Hin as [[pre Hrep]|(pb & f & E & _)]; [|done]. by inversion Hrep.
  - rewrite state_hash_loop_app in E. apply bind_Ok in E as (h' & E' & E).
    rewrite (step_inputs_app _ _ _ _ _ E') in Hnc.
    set (first := match steps with [] => true | _ => false end) in *.
    set (ptr := if first then LeafPointer h' else NodePointer h') in *.
    assert (pointer_hash ptr = h') as Hptr by (unfold ptr; by destruct first).
    assert (forall t', points s ptr t' -> within s M t' -> M !! k = Some v) as Hnext.
    { intros t' [Hst' _] Hin'. rewrite Hptr in Hst'. apply (IH h' t'); [|done..].
      intros b b' h0 Hb Hb'. apply (Hnc b b' h0 Hb). apply elem_of_app. by left. }
    assert (forall b', step_inputs first h' [step] = [b'] -> hash blake2b b' = h ->
      forall b0, s !! h = Some b0 -> b0 = b') as Hsame.
    { intros b' Hb' Eh b0 Hb0. apply (Hnc b0 b' h Hb0).
      - apply elem_of_app. right. rewrite Hb'. by left.
      - by rewrite (Hca _ _ Hb0). }
    cbn [TrieOps.state_hash_loop step_inputs] in E, Hsame. fold ptr in E, Hsame.
    destruct step as [i l|affix]; apply bind_Ok in E as (b' & Hb' & E); injection E as E;
      rewrite Hb' in Hsame; specialize (Hsame b' eq_refl E).
    + assert (t = trie_node (l ++ [(i, ptr)])) as -> by (by eapply same_trie).
      destruct (within_node s M _ i ptr Hin) as (t' & Hpt & Hin'); [|by eapply Hnext].
      by rewrite from_indexed_pointers_snoc, lookup_insert_eq.
    + assert (t = Extension affix ptr) as ->.
      { eapply same_trie; [done| |done|done]. by eapply extension_representable. }
      destruct (within_extension s M affix ptr Hin) as (t' & Hpt & Hin'). by eapply Hnext.
Qed.

Lemma proof_sound_rep s M root proof :
  content_addressed s -> root_rep s M root -> proof_no_clash s proof ->
  representable (proof_key proof) -> representable (proof_value proof) ->
  compute_state_hash proof = Ok root -> M !! proof_key proof = Some (proof_value proof).
Proof.
  intros Hca (_ & pb & f & Hst & Hch) Hnc Hk Hv E.
  unfold TrieOps.compute_state_hash in E. apply bind_Ok in E as (hl & (bl & Hbl & ->)%trie_hash_Ok & E).
  eapply steps_sound; [done| |done| | |exact E|exact Hst|].
  - done.
  - intros b Hb. destruct (Hnc bl b _ Hbl Hb) as [Hc _]. apply Hc. by apply Hca in Hb.
  - intros b b' h Hb Hin. destruct (Hnc bl b h Hbl Hb) as [_ Hc]. by apply Hc.
  - right. by exists pb, f.
Qed.
End proof.
