(* ===== verification/Transform.v ===== *)
(** * Transforms of stored values

    Models [types/src/execution/transform_kind.rs] ([TransformKindV2] and its
    [apply]), [types/src/execution/transform_error.rs] and the part of
    [types/src/stored_value.rs] it uses.  The payloads of the stored values that
    [apply] does not look into are given by [payload]. *)
From stdpp Require Import pretty strings.
From S2P Require Import Prelude BTree Bytesrepr Digest Uint Access CLType.

Open Scope Z_scope.

(** ** Numbers a value can hold *)

Inductive num : Type := I32 | I64 | U8 | U32 | U64 | U128 | U256 | U512.

Definition bits (n : num) : Z :=
  match n with
  | U8 => 8 | I32 | U32 => 32 | I64 | U64 => 64 | U128 => 128 | U256 => 256 | U512 => 512
  end.
Definition signed (n : num) : bool := match n with I32 | I64 => true | _ => false end.
Definition in_num (n : num) (z : Z) : Prop := if signed n then in_i (bits n) z else in_u (bits n) z.

(** The representative of [z] modulo the width. *)
Definition wrap (n : num) (z : Z) : Z :=
  if signed n then to_signed (bits n) (z mod 2 ^ bits n) else z mod 2 ^ bits n.

Definition num_repr (n : num) : Bytesrepr Z :=
  match n with
  | I32 => i32_bytesrepr | I64 => i64_bytesrepr
  | U8 => uint_bytesrepr 1 | U32 => u32_bytesrepr | U64 => u64_bytesrepr
  | U128 => U128_bytesrepr | U256 => U256_bytesrepr | U512 => U512_bytesrepr
  end.
Definition num_cl_type (n : num) : CLType :=
  match n with
  | I32 => CL_I32 | I64 => CL_I64 | U8 => CL_U8 | U32 => CL_U32 | U64 => CL_U64
  | U128 => CL_U128 | U256 => CL_U256 | U512 => CL_U512
  end.
Definition big (n : num) : bool := match n with U128 | U256 | U512 => true | _ => false end.

(** [AsPrimitive::as_] from [from] to [to]: a cast between primitives, and the
    impls of [uint.rs] where a large type is involved. *)
Definition as_ (from to : num) (z : Z) : Z :=
  match big from, big to with
  | false, false => wrap to z
  | false, true => if signed from then as_from_signed (bits to) (bits from) z else z
  | true, false =>
      match to with
      | I32 => as_i32 z | I64 => as_i64 z | U8 => as_u8 z | U32 => as_u32 z | _ => as_u64 z
      end
  | true, true => as_biguint (bits to) z
  end.

(** [WrappingAdd::wrapping_add] *)
Definition num_wrapping_add (n : num) (a b : Z) : Z :=
  if big n then wrapping_add (bits n) a b else wrap n (a + b).

(** ** Debug output of type descriptions *)

Open Scope string_scope.
Fixpoint debug (t : CLType) : string :=
  match t with
  | CL_Bool => "Bool" | CL_I32 => "I32" | CL_I64 => "I64" | CL_U8 => "U8" | CL_U32 => "U32"
  | CL_U64 => "U64" | CL_U128 => "U128" | CL_U256 => "U256" | CL_U512 => "U512"
  | CL_Unit => "Unit" | CL_String => "String" | CL_Key => "Key" | CL_URef => "URef"
  | CL_PublicKey => "PublicKey"
  | CL_Option t => "Option(" +:+ debug t +:+ ")"
  | CL_List t => "List(" +:+ debug t +:+ ")"
  | CL_ByteArray len => "ByteArray(" +:+ pretty len +:+ ")"
  | CL_Result a b => "Result { ok: " +:+ debug a +:+ ", err: " +:+ debug b +:+ " }"
  | CL_Map a b => "Map { key: " +:+ debug a +:+ ", value: " +:+ debug b +:+ " }"
  | CL_Tuple1 a => "Tuple1([" +:+ debug a +:+ "])"
  | CL_Tuple2 a b => "Tuple2([" +:+ debug a +:+ ", " +:+ debug b +:+ "])"
  | CL_Tuple3 a b c => "Tuple3([" +:+ debug a +:+ ", " +:+ debug b +:+ ", " +:+ debug c +:+ "])"
  | CL_Any => "Any"
  end.
Close Scope string_scope.

Inductive TransformError : Type :=
| TE_Serialization (e : Error)
| TE_TypeMismatch (expected found : string)
| TE_Deprecated.

(** [impl From<CLValueError> for TransformError] *)
Definition TransformError_from (e : CLValueError) : TransformError :=
  match e with
  | Serialization e => TE_Serialization e
  | TypeMismatch expected found => TE_TypeMismatch (debug expected) (debug found)
  end.

(** ** Stored values *)

Inductive StoredValueTag : Type :=
| T_CLValue | T_Account | T_ContractWasm | T_Contract | T_ContractPackage | T_Transfer | T_DeployInfo
| T_EraInfo | T_Bid | T_Withdraw | T_Unbonding | T_BidKind | T_Package | T_AddressableEntity
| T_ByteCode | T_MessageTopic | T_Message | T_NamedKey | T_Prepayment | T_EntryPoint | T_RawBytes.

Section stored.
(** Keys; the payloads, an account's or a contract's without its named keys; the
    serialization of the payloads that can become a [CLValue]. *)
Context {K : Type} (payload : StoredValueTag -> Type).
Context {DB : Bytesrepr (payload T_BidKind)} {DP : Bytesrepr (payload T_ContractPackage)}.

Abbreviation NamedKeys := (list (RString * K)).
Record Account : Type := mkAccount { account_named_keys : NamedKeys; account_rest : payload T_Account }.
Record Contract : Type := mkContract { contract_named_keys : NamedKeys; contract_rest : payload T_Contract }.

Inductive StoredValue : Type :=
| SV_CLValue (v : CLValue)
| SV_Account (a : Account)
| SV_ContractWasm (p : payload T_ContractWasm)
| SV_Contract (c : Contract)
| SV_ContractPackage (p : payload T_ContractPackage)
| SV_Transfer (p : payload T_Transfer)
| SV_DeployInfo (p : payload T_DeployInfo)
| SV_EraInfo (p : payload T_EraInfo)
| SV_Bid (p : payload T_Bid)
| SV_Withdraw (p : payload T_Withdraw)
| SV_Unbonding (p : payload T_Unbonding)
| SV_AddressableEntity (p : payload T_AddressableEntity)
| SV_BidKind (p : payload T_BidKind)
| SV_SmartContract (p : payload T_Package)
| SV_ByteCode (p : payload T_ByteCode)
| SV_MessageTopic (p : payload T_MessageTopic)
| SV_Message (p : payload T_Message)
| SV_NamedKey (p : payload T_NamedKey)
| SV_Prepayment (p : payload T_Prepayment)
| SV_EntryPoint (p : payload T_EntryPoint)
| SV_RawBytes (bytes : list u8).

Definition type_name (v : StoredValue) : string :=
  match v with
  | SV_CLValue v => debug (value_type v)
  | SV_Account _ => "Account"
  | SV_ContractWasm _ => "ContractWasm"
  | SV_Contract _ => "Contract"
  | SV_ContractPackage _ => "ContractPackage"
  | SV_Transfer _ => "Transfer"
  | SV_DeployInfo _ => "DeployInfo"
  | SV_EraInfo _ => "EraInfo"
  | SV_Bid _ => "Bid"
  | SV_Withdraw _ => "Withdraw"
  | SV_Unbonding _ => "Unbonding"
  | SV_AddressableEntity _ => "AddressableEntity"
  | SV_BidKind _ => "BidKind"
  | SV_ByteCode _ => "ByteCode"
  | SV_SmartContract _ => "SmartContract"
  | SV_MessageTopic _ => "MessageTopic"
  | SV_Message _ => "Message"
  | SV_NamedKey _ => "NamedKey"
  | SV_Prepayment _ => "Prepayment"
  | SV_EntryPoint _ => "EntryPoint"
  | SV_RawBytes _ => "RawBytes"
  end.

(** [impl TryFrom<StoredValue> for CLValue]; [BidKind] and [ContractPackage] are
    [CLTyped] as [Any]. *)
Definition CLValue_try_from (v : StoredValue) : result TransformError CLValue :=
  match v with
  | SV_CLValue cl_value => Ok cl_value
  | SV_BidKind bid_kind =>
      map_err (fun _ => TE_TypeMismatch "BidKind" (type_name v)) (from_t (H0 := CL_Any) bid_kind)
  | SV_ContractPackage contract_package =>
      map_err (fun _ => TE_TypeMismatch "ContractPackage" (type_name v))
        (from_t (H0 := CL_Any) contract_package)
  | _ => Err (TE_TypeMismatch "StoredValue" (type_name v))
  end.

Inductive RetValue : Type :=
| RetCLValue (v : CLValue)
| RetBytes (bytes : Bytes)
| RetUnit.

Inductive TransformKindV2 : Type :=
| Identity
| Write (v : StoredValue)
| AddInt32 (z : Z)
| AddUInt64 (z : Z)
| AddUInt128 (z : Z)
| AddUInt256 (z : Z)
| AddUInt512 (z : Z)
| AddKeys (keys : NamedKeys)
| Prune (key : K)
| Failure (error : TransformError)
| Ret (value : RetValue)
| EntryPointCalled (hash_addr : option (vec u8 32)) (name : RString).

Inductive TransformInstruction : Type :=
| Store (v : StoredValue)
| PruneKey (key : K).

(** [any::type_name::<Y>()] is chosen by the compiler. *)
Context (rust_type_name : num -> string).

Definition do_wrapping_addition (X Y : num) (cl_value : CLValue) (to_add : Z) :
    result TransformError TransformInstruction :=
  x ← map_err TransformError_from (into_t (H := num_repr X) (H0 := num_cl_type X) cl_value);
  let result := num_wrapping_add X x (as_ Y X to_add) in
  v ← map_err TransformError_from (from_t (H := num_repr X) (H0 := num_cl_type X) result);
  Ok (Store (SV_CLValue v)).

Definition wrapping_addition (Y : num) (stored_value : StoredValue) (to_add : Z) :
    result TransformError TransformInstruction :=
  cl_value ← CLValue_try_from stored_value;
  match value_type cl_value with
  | CL_I32 => do_wrapping_addition I32 Y cl_value to_add
  | CL_I64 => do_wrapping_addition I64 Y cl_value to_add
  | CL_U8 => do_wrapping_addition U8 Y cl_value to_add
  | CL_U32 => do_wrapping_addition U32 Y cl_value to_add
  | CL_U64 => do_wrapping_addition U64 Y cl_value to_add
  | CL_U128 => do_wrapping_addition U128 Y cl_value to_add
  | CL_U256 => do_wrapping_addition U256 Y cl_value to_add
  | CL_U512 => do_wrapping_addition U512 Y cl_value to_add
  | other => Err (TE_TypeMismatch ("integral type compatible with " +:+ rust_type_name Y) (debug other))
  end.

(** [NamedKeys::append], a [BTreeMap::append] *)
Definition named_keys_append (m keys : NamedKeys) : NamedKeys :=
  foldl (fun m '(name, key) => btree_insert (H := RString_ord) name key m) m keys.

(** [TransformKindV2::apply] *)
Definition apply (kind : TransformKindV2) (stored_value : StoredValue) :
    result TransformError TransformInstruction :=
  let mismatch found := Err (TE_TypeMismatch "Contract or Account" found) in
  match kind with
  | Identity => Ok (Store stored_value)
  | Write new_value => Ok (Store new_value)
  | Prune key => Ok (PruneKey key)
  | AddInt32 to_add => wrapping_addition I32 stored_value to_add
  | AddUInt64 to_add => wrapping_addition U64 stored_value to_add
  | AddUInt128 to_add => wrapping_addition U128 stored_value to_add
  | AddUInt256 to_add => wrapping_addition U256 stored_value to_add
  | AddUInt512 to_add => wrapping_addition U512 stored_value to_add
  | AddKeys keys =>
      match stored_value with
      | SV_Contract c =>
          Ok (Store (SV_Contract
            (mkContract (named_keys_append (contract_named_keys c) keys) (contract_rest c))))
      | SV_Account a =>
          Ok (Store (SV_Account
            (mkAccount (named_keys_append (account_named_keys a) keys) (account_rest a))))
      | SV_AddressableEntity _ => Err TE_Deprecated
      | SV_CLValue v => mismatch (debug (value_type v))
      | SV_SmartContract _ => mismatch "ContractPackage"
      | SV_ByteCode _ => mismatch "ByteCode"
      | SV_Transfer _ => mismatch "Transfer"
      | SV_DeployInfo _ => mismatch "DeployInfo"
      | SV_EraInfo _ => mismatch "EraInfo"
      | SV_Bid _ => mismatch "Bid"
      | SV_BidKind _ => mismatch "BidKind"
      | SV_Withdraw _ => mismatch "Withdraw"
      | SV_Unbonding _ => mismatch "Unbonding"
      | SV_ContractWasm _ => mismatch "ContractWasm"
      | SV_ContractPackage _ => mismatch "ContractPackage"
      | SV_NamedKey _ => mismatch "NamedKeyValue"
      | SV_MessageTopic _ => mismatch "MessageTopic"
      | SV_Message _ => mismatch "Message"
      | SV_RawBytes _ => mismatch "RawBytes"
      | SV_Prepayment _ => mismatch "Prepayment"
      | SV_EntryPoint _ => mismatch "EntryPoint"
      end
  | Failure error => Err error
  | Ret _ => Ok (Store stored_value)
  | EntryPointCalled _ _ => Ok (Store stored_value)
  end.
End stored.

(** ** Arithmetic of the additions *)

Lemma bits_pos n : 0 < bits n.
Proof. by destruct n. Qed.

Lemma wrap_range n z : in_num n (wrap n z).
Proof.
  pose proof (bits_pos n). unfold wrap, in_num.
  assert (in_u (bits n) (z mod 2 ^ bits n)) as Hr by (apply Z.mod_pos_bound; lia).
  destruct (signed n); [|done]. by apply to_signed_range.
Qed.

Lemma wrap_eqm n z : wrap n z mod 2 ^ bits n = z mod 2 ^ bits n.
Proof.
  pose proof (bits_pos n). unfold wrap, to_signed.
  destruct (signed n); [|by rewrite Z.mod_mod by lia].
  destruct (_ <? _); [by rewrite Z.mod_mod by lia|].
  replace (z mod 2 ^ bits n - 2 ^ bits n) with (z mod 2 ^ bits n + (-1) * 2 ^ bits n) by lia.
  by rewrite Z.mod_add, Z.mod_mod by lia.
Qed.

Lemma wrap_cong n a b : a mod 2 ^ bits n = b mod 2 ^ bits n -> wrap n a = wrap n b.
Proof. unfold wrap. by intros ->. Qed.

Lemma wrap_add_l n a b : wrap n (wrap n a + b) = wrap n (a + b).
Proof.
  pose proof (bits_pos n). apply wrap_cong.
  rewrite Z.add_mod, wrap_eqm, <- Z.add_mod by lia. done.
Qed.

Lemma num_wrapping_add_wrap n a b : num_wrapping_add n a b = wrap n (a + b).
Proof. by destruct n. Qed.

Lemma mod_pow_mod z a b : 0 <= b <= a -> (z mod 2 ^ a) mod 2 ^ b = z mod 2 ^ b.
Proof.
  intros Hab. rewrite (Z.mod_eq z (2 ^ a)) by lia.
  assert (2 ^ a = 2 ^ b * 2 ^ (a - b)) as E by (rewrite <- Z.pow_add_r by lia; f_equal; lia).
  rewrite E at 1. rewrite <- (Z.mod_add z (- (2 ^ (a - b) * (z / 2 ^ a))) (2 ^ b)) by lia. f_equal. lia.
Qed.

(** A cast keeps the value modulo the width of the target. *)
Lemma as_eqm Y X y : in_num Y y -> as_ Y X y mod 2 ^ bits X = y mod 2 ^ bits X.
Proof.
  pose proof (bits_pos X). intros Hy. unfold as_. destruct (big Y) eqn:EY, (big X) eqn:EX.
  - unfold as_biguint. by rewrite Z.mod_mod by lia.
  - assert (forall w, 0 <= w <= 64 -> word0 y mod 2 ^ w = y mod 2 ^ w) as Hw.
    { intros w Hw. unfold word0. by apply mod_pow_mod. }
    pose proof (wrap_eqm X y) as E. destruct X; try done; unfold wrap in E; cbn [signed bits] in E;
      unfold as_i32, as_i64, as_u8, as_u32, as_u64; rewrite ?Hw by lia; done.
  - destruct (signed Y) eqn:EsY; [|done]. rewrite as_from_signed_spec, Z.mod_mod; [done|lia| |].
    + by destruct Y, X.
    + unfold in_num in Hy. by rewrite EsY in Hy.
  - apply wrap_eqm.
Qed.

Lemma wrap_add_as Y X x y : in_num Y y -> wrap X (x + as_ Y X y) = wrap X (x + y).
Proof.
  pose proof (bits_pos X). intros Hy. apply wrap_cong.
  rewrite Z.add_mod, as_eqm, <- Z.add_mod by (done || lia). done.
Qed.

Definition num_spec (n : num) : BytesreprSpec Z (num_repr n) :=
  match n with
  | I32 => int_spec 4 (Nat.lt_0_succ _) | I64 => int_spec 8 (Nat.lt_0_succ _)
  | U8 => uint_spec 1 | U32 => uint_spec 4 | U64 => uint_spec 8
  | U128 => biguint_spec 16 (proj1 (Nat.ltb_lt 16 256) eq_refl)
  | U256 => biguint_spec 32 (proj1 (Nat.ltb_lt 32 256) eq_refl)
  | U512 => biguint_spec 64 (proj1 (Nat.ltb_lt 64 256) eq_refl)
  end.

Lemma num_representable n z : representable (BytesreprSpec := num_spec n) z <-> in_num n z.
Proof. by destruct n. Qed.

Abbreviation num_from_t n := (from_t (H := num_repr n) (H0 := num_cl_type n)).
Abbreviation num_into_t n := (into_t (H := num_repr n) (H0 := num_cl_type n)).

Lemma num_to_bytes n z : exists b, to_bytes (Bytesrepr := num_repr n) z = Ok b.
Proof. destruct n; cbn; eauto. Qed.

Lemma num_from_t_Ok n z : exists v, num_from_t n z = Ok v /\ value_type v = num_cl_type n.
Proof. unfold from_t, into_bytes, default_into_bytes. destruct (num_to_bytes n z) as [b ->]. cbn. eauto. Qed.

Lemma num_into_from n z v : in_num n z -> num_from_t n z = Ok v -> num_into_t n v = Ok z.
Proof.
  intros Hz Hv. eapply (from_t_into_t (ST := num_spec n)); [|done]. by apply num_representable.
Qed.

Lemma num_into_range n v z : num_into_t n v = Ok z -> in_num n z.
Proof.
  unfold into_t. case_decide; [|done]. intros E%map_err_Ok. apply num_representable.
  unfold deserialize_from_slice in E. apply bind_Ok in E as ([z' r] & E & E').
  apply (spec_from (BytesreprSpec := num_spec n)) in E as [Hr _]. destruct r; [|done].
  by injection E' as <-.
Qed.

Section additions.
Context {K : Type} (payload : StoredValueTag -> Type).
Context {DB : Bytesrepr (payload T_BidKind)} {DP : Bytesrepr (payload T_ContractPackage)}.
Context (rust_type_name : num -> string).
Abbreviation kind := (TransformKindV2 (K:=K) payload).
Abbreviation value := (StoredValue (K:=K) payload).
Abbreviation apply := (apply payload rust_type_name).
Abbreviation wrapping_addition := (wrapping_addition (K:=K) payload rust_type_name).

(** The type and the amount of an addition. *)
Definition adds (k : kind) : option (num * Z) :=
  match k with
  | AddInt32 _ z => Some (I32, z)
  | AddUInt64 _ z => Some (U64, z)
  | AddUInt128 _ z => Some (U128, z)
  | AddUInt256 _ z => Some (U256, z)
  | AddUInt512 _ z => Some (U512, z)
  | _ => None
  end.

Lemma apply_adds k Y y sv : adds k = Some (Y, y) -> apply k sv = wrapping_addition Y sv y.
Proof. destruct k; cbn; intros [= <- <-]; done. Qed.

Lemma num_type_cases (v : CLValue) :
  (exists X, value_type v = num_cl_type X) \/
  (forall (sv : value) Y y, CLValue_try_from payload sv = Ok v -> exists e, wrapping_addition Y sv y = Err e).
Proof.
  destruct (value_type v) eqn:E;
    try (right; intros sv Y y Hv; unfold Transform.wrapping_addition; rewrite Hv; cbn; rewrite E; by eexists);
    left; [by exists I32|by exists I64|by exists U8|by exists U32|by exists U64|by exists U128|by exists U256
          |by exists U512].
Qed.

Lemma wrapping_addition_num X Y (sv : value) v y :
  CLValue_try_from payload sv = Ok v -> value_type v = num_cl_type X ->
  wrapping_addition Y sv y =
  (x ← map_err TransformError_from (num_into_t X v);
   v' ← map_err TransformError_from (num_from_t X (wrap X (x + as_ Y X y)));
   Ok (Store payload (SV_CLValue payload v'))).
Proof.
  intros Hv E. unfold Transform.wrapping_addition. rewrite Hv. cbn [mbind result_bind]. rewrite E.
  transitivity (do_wrapping_addition (K:=K) payload X Y v y); [by destruct X|].
  unfold do_wrapping_addition. destruct (map_err _ (num_into_t X v)); [|done..].
  cbn [mbind result_bind]. by rewrite num_wrapping_add_wrap.
Qed.

Lemma wrapping_addition_Ok X Y (sv : value) v x y :
  CLValue_try_from payload sv = Ok v -> value_type v = num_cl_type X -> num_into_t X v = Ok x ->
  exists v', num_from_t X (wrap X (x + as_ Y X y)) = Ok v' /\ value_type v' = num_cl_type X /\
    wrapping_addition Y sv y = Ok (Store payload (SV_CLValue payload v')).
Proof.
  intros Hv E Hx. rewrite (wrapping_addition_num X) with (v := v) by done. rewrite Hx. cbn [map_err mbind result_bind].
  destruct (num_from_t_Ok X (wrap X (x + as_ Y X y))) as (v' & -> & Ht). by exists v'.
Qed.

(** One transform after another. *)
Definition apply_both (k1 k2 : kind) (sv : value) : result TransformError (TransformInstruction payload) :=
  i ← apply k1 sv;
  match i with
  | Store _ sv => apply k2 sv
  | PruneKey _ _ => Ok i
  end.

(** C40: an addition to a number of any of the eight numeric types, of an [i32],
    [u64], [U128], [U256] or [U512], stores the sum reduced to the width and sign
    of the stored number. *)
Theorem add_transform_correct k Y y X x v :
  adds k = Some (Y, y) -> in_num Y y -> in_num X x -> num_from_t X x = Ok v ->
  exists v', num_from_t X (wrap X (x + y)) = Ok v' /\
    apply k (SV_CLValue payload v) = Ok (Store payload (SV_CLValue payload v')).
Proof.
  intros Hk Hy Hx Hv. rewrite (apply_adds k Y y) by done.
  destruct (wrapping_addition_Ok X Y (SV_CLValue payload v) v x y) as (v' & Hv' & _ & E); [done| | |].
  - destruct (num_from_t_Ok X x) as (v0 & E & Ht). congruence.
  - by apply num_into_from.
  - exists v'. split; [|done]. by rewrite wrap_add_as in Hv'.
Qed.

(** Additions commute: applying two of them in either order, to any stored
    value, gives the same result, or fails in both orders. *)
Theorem add_transforms_commute k1 k2 Y1 y1 Y2 y2 (sv : value) :
  adds k1 = Some (Y1, y1) -> adds k2 = Some (Y2, y2) ->
  apply_both k1 k2 sv = apply_both k2 k1 sv \/
  (exists e1 e2, apply_both k1 k2 sv = Err e1 /\ apply_both k2 k1 sv = Err e2).
Proof.
  intros H1 H2. unfold apply_both. rewrite (apply_adds k1 Y1 y1), (apply_adds k2 Y2 y2) by done.
  destruct (CLValue_try_from payload sv) as [v|e| |] eqn:Hv;
    try (unfold Transform.wrapping_addition; rewrite Hv; cbn; eauto; fail).
  destruct (num_type_cases v) as [[X HX]|Herr]; last first.
  { destruct (Herr sv Y1 y1 Hv) as [e1 ->], (Herr sv Y2 y2 Hv) as [e2 ->]. cbn. eauto. }
  destruct (num_into_t X v) as [x|e| |] eqn:Hx;
    try (rewrite !(wrapping_addition_num X) with (v := v) by done; rewrite Hx; cbn; eauto; fail).
  left. destruct (wrapping_addition_Ok X Y1 sv v x y1) as (v1 & F1 & T1 & ->); [done..|].
  destruct (wrapping_addition_Ok X Y2 sv v x y2) as (v2 & F2 & T2 & ->); [done..|]. cbn [mbind result_bind].
  rewrite (apply_adds k1 Y1 y1), (apply_adds k2 Y2 y2) by done.
  apply num_into_from in F1; [|apply wrap_range]. apply num_into_from in F2; [|apply wrap_range].
  destruct (wrapping_addition_Ok X Y2 (SV_CLValue payload v1) v1 _ y2 eq_refl T1 F1) as (w1 & G1 & _ & ->).
  destruct (wrapping_addition_Ok X Y1 (SV_CLValue payload v2) v2 _ y1 eq_refl T2 F2) as (w2 & G2 & _ & ->).
  rewrite wrap_add_l in G1, G2.
  replace (x + as_ Y1 X y1 + as_ Y2 X y2) with (x + as_ Y2 X y2 + as_ Y1 X y1) in G1 by lia. congruence.
Qed.
End additions.

(** Stored values with no payload, for the witnesses. *)
Definition no_payload (t : StoredValueTag) : Type := ().
Definition unnamed (n : num) : string := "".

Lemma add_transform_correct_witness :
  exists v v', num_from_t U8 250 = Ok v /\ num_from_t U8 244 = Ok v' /\
    apply (K:=()) no_payload (DB:=unit_bytesrepr) (DP:=unit_bytesrepr) unnamed (AddInt32 no_payload (-6)) (SV_CLValue no_payload v)
    = Ok (Store no_payload (SV_CLValue no_payload v')).
Proof.
  destruct (num_from_t U8 250) as [v| | |] eqn:Hv; try (vm_compute in Hv; discriminate Hv).
  destruct (add_transform_correct (K:=()) no_payload (DB:=unit_bytesrepr) (DP:=unit_bytesrepr) unnamed
    (AddInt32 no_payload (-6)) I32 (-6) U8 250 v) as (v' & Hv' & E).
  - reflexivity.
  - cbn; unfold in_i; lia.
  - cbn; unfold in_u; lia.
  - exact Hv.
  - exists v, v'. split; [reflexivity|]. split; [exact Hv'|exact E].
Defined.

Lemma add_transforms_commute_witness :
  let sv := SV_CLValue (K:=()) no_payload (mkCLValue CL_U8 (mkBytes [Byte.xfa])) in
  let k1 := AddInt32 no_payload (-6) in
  let k2 := AddUInt512 no_payload 1000 in
  let both := apply_both no_payload (DB:=unit_bytesrepr) (DP:=unit_bytesrepr) unnamed in
  both k1 k2 sv = both k2 k1 sv \/ (exists e1 e2, both k1 k2 sv = Err e1 /\ both k2 k1 sv = Err e2).
Proof.
  exact (add_transforms_commute (K:=()) no_payload (DB:=unit_bytesrepr) (DP:=unit_bytesrepr) unnamed
    (AddInt32 no_payload (-6)) (AddUInt512 no_payload 1000) I32 (-6) U512 1000
    (SV_CLValue no_payload (mkCLValue CL_U8 (mkBytes [Byte.xfa]))) eq_refl eq_refl).
Defined.
