(* ===== verification/GlobalState.v ===== *)
(** * The global state: committing effects, and what its operations guarantee

    Models [commit] of [storage/src/global_state/state/mod.rs], which applies a
    list of transforms to the trie under a state root, and states the theorems on
    the trie store. *)
From S2P Require Import Prelude BTree Bytesrepr Digest Uint Access CLType Trie TrieOps.
From S2P Require Import TrieRep TrieRead TrieKeys TrieZip TrieWrite TriePrune TrieProof Transform.

Open Scope Z_scope.

Section commit.
Context (blake2b : list u8 -> Digest) {TF : TreeFold1} (CHUNK_SIZE_BYTES : nat).
Context {K : Type} (payload : StoredValueTag -> Type).
Context {DB : Bytesrepr (payload T_BidKind)} {DP : Bytesrepr (payload T_ContractPackage)}.
Context (rust_type_name : num -> string).
Abbreviation V := (StoredValue (K:=K) payload).
Abbreviation kind := (TransformKindV2 (K:=K) payload).
Context {DK : Bytesrepr K} {DV : Bytesrepr V} `{EqDecision K}.

(** [CommitError], with the serialization errors of the trie operations. *)
Inductive CommitError : Type :=
| CE_RootNotFound (root : Digest)
| CE_ReadRootNotFound (root : Digest)
| CE_WriteRootNotFound (root : Digest)
| CE_KeyNotFound (key : K)
| CE_TransformError (e : TransformError)
| CE_BytesRepr (e : Error).

(** The [instruction] for a transform; [None] is [continue]. *)
Definition instruction (state_root : Digest) (key : K) (read_result : ReadResult V) (k : kind) :
    result CommitError (option (TransformInstruction payload)) :=
  match read_result, k with
  | _, Identity _ | _, Ret _ _ | _, EntryPointCalled _ _ _ => Ok None
  | NotFound, Write _ new_value => Ok (Some (Store payload new_value))
  | NotFound, Prune _ _ => Ok None
  | NotFound, _ => Err (CE_KeyNotFound key)
  | Found current_value, k =>
      i ← map_err CE_TransformError (apply payload rust_type_name k current_value);
      Ok (Some i)
  | RootNotFound, _ => Err (CE_ReadRootNotFound state_root)
  end.

(** One round of the loop of [commit]. *)
Definition commit_step (s : store) (state_root : Digest) (t : K * kind) :
    result CommitError (Digest * store) :=
  let '(key, k) := t in
  read_result ← map_err CE_BytesRepr (read s state_root key);
  i ← instruction state_root key read_result k;
  match i with
  | None => Ok (state_root, s)
  | Some (Store _ value) =>
      '(write_result, s) ← map_err CE_BytesRepr (write blake2b CHUNK_SIZE_BYTES s state_root key value);
      match write_result with
      | Written root_hash => Ok (root_hash, s)
      | AlreadyExists => Ok (state_root, s)
      | WriteRootNotFound => Err (CE_WriteRootNotFound state_root)
      end
  | Some (PruneKey _ key) =>
      '(prune_result, s) ←
        map_err CE_BytesRepr (prune blake2b CHUNK_SIZE_BYTES (V:=V) s state_root key);
      match prune_result with
      | Pruned root_hash => Ok (root_hash, s)
      | MissingKey => Ok (state_root, s)
      | PruneRootNotFound => Err (CE_WriteRootNotFound state_root)
      end
  end.
Fixpoint commit_loop (s : store) (state_root : Digest) (effects : list (K * kind)) :
    result CommitError (Digest * store) :=
  match effects with
  | [] => Ok (state_root, s)
  | t :: effects =>
      '(state_root, s) ← commit_step s state_root t;
      commit_loop s state_root effects
  end.

(** The store after a successful commit; a failed one leaves the transaction
    uncommitted. *)
Definition commit (s : store) (prestate_hash : Digest) (effects : list (K * kind)) :
    result CommitError (Digest * store) :=
  maybe_root ← map_err CE_BytesRepr (get (K:=K) (V:=V) s prestate_hash);
  match maybe_root with
  | None => Err (CE_RootNotFound prestate_hash)
  | Some _ => commit_loop s prestate_hash effects
  end.
End commit.

(** ** Abstract specification: the effects on a finite map *)

Section spec.
Context {K : Type} (payload : StoredValueTag -> Type).
Context {DB : Bytesrepr (payload T_BidKind)} {DP : Bytesrepr (payload T_ContractPackage)}.
Context (rust_type_name : num -> string) `{Countable K}.
Abbreviation V := (StoredValue (K:=K) payload).
Abbreviation kind := (TransformKindV2 (K:=K) payload).
Implicit Types M : gmap K V.

(** What a transform asks for, given the current value. *)
Definition wanted (key : K) (current : option V) (k : kind) :
    result (CommitError (K:=K)) (option (TransformInstruction payload)) :=
  match k, current with
  | Identity _, _ | Ret _ _, _ | EntryPointCalled _ _ _, _ => Ok None
  | Write _ v, _ => Ok (Some (Store payload v))
  | Prune _ _, None => Ok None
  | _, None => Err (CE_KeyNotFound key)
  | k, Some v =>
      i ← map_err CE_TransformError (apply payload rust_type_name k v);
      Ok (Some i)
  end.
Definition effect_on M (t : K * kind) : result CommitError (gmap K V) :=
  i ← wanted t.1 (M !! t.1) t.2;
  Ok (match i with
      | None => M
      | Some (Store _ v) => <[t.1 := v]> M
      | Some (PruneKey _ key) => delete key M
      end).
Fixpoint effects_on M (effects : list (K * kind)) : result CommitError (gmap K V) :=
  match effects with
  | [] => Ok M
  | t :: effects => M ← effect_on M t; effects_on M effects
  end.
End spec.

(** ** Refinement *)

Section refinement.
Context (blake2b : list u8 -> Digest) {TF : TreeFold1} (CHUNK_SIZE_BYTES : nat).
Context {K : Type} (payload : StoredValueTag -> Type).
Context {DB : Bytesrepr (payload T_BidKind)} {DP : Bytesrepr (payload T_ContractPackage)}.
Context (rust_type_name : num -> string).
Abbreviation V := (StoredValue (K:=K) payload).
Abbreviation kind := (TransformKindV2 (K:=K) payload).
Context {DK : Bytesrepr K} {SK : BytesreprSpec K DK}.
Context {DV : Bytesrepr V} {SV : BytesreprSpec V DV} `{Countable K}.
Abbreviation root_rep := (root_rep CHUNK_SIZE_BYTES (K:=K) (V:=V)).
Abbreviation content_addressed := (content_addressed blake2b CHUNK_SIZE_BYTES).
Abbreviation commit_step := (commit_step blake2b CHUNK_SIZE_BYTES payload rust_type_name).
Abbreviation commit_loop := (commit_loop blake2b CHUNK_SIZE_BYTES payload rust_type_name).
Abbreviation wanted := (wanted payload rust_type_name).
Abbreviation effect_on := (effect_on payload rust_type_name).
Implicit Types (s : store) (M : gmap K V).

(** The key of a transform can be read and its instruction carried out: the paths
    and leaves fit, and the bytes to be stored do not collide with stored ones. *)
Definition step_safe s (root : Digest) M (t : K * kind) : Prop :=
  (exists p, key_path CHUNK_SIZE_BYTES t.1 p /\ long_enough CHUNK_SIZE_BYTES M t.1 p) /\
  match wanted t.1 (M !! t.1) t.2 with
  | Ok (Some (Store _ v)) =>
      representable v /\ (exists b, trie_to_bytes (Leaf t.1 v) = Ok b) /\
      write_no_clash blake2b CHUNK_SIZE_BYTES t.1 v s root
  | Ok (Some (PruneKey _ key)) =>
      (exists p, key_path CHUNK_SIZE_BYTES key p) /\
      prune_no_clash blake2b CHUNK_SIZE_BYTES (V:=V) key s root
  | _ => True
  end.
Fixpoint commit_safe s (root : Digest) M (effects : list (K * kind)) : Prop :=
  match effects with
  | [] => True
  | t :: effects =>
      step_safe s root M t /\
      forall root' s' M', commit_step s root t = Ok (root', s') -> effect_on M t = Ok M' ->
        commit_safe s' root' M' effects
  end.

(** The state [(root, s')] after a commit on [s] represents [M']. *)
Definition committed s M' (c : Digest * store) : Prop :=
  let '(root, s') := c in
  root_rep s' M' root /\ content_addressed s' /\ s ⊆ s'.

(** A commit and its specification have the same outcome. *)
Definition same_outcome {A B} (R : A -> B -> Prop) (r : result CommitError A)
    (r' : result (CommitError (K:=K)) B) : Prop :=
  match r, r' with
  | Ok a, Ok b => R a b
  | Err e, Err e' => e = e'
  | Panic, Panic | Diverge, Diverge => True
  | _, _ => False
  end.

Lemma instruction_wanted root key M k :
  instruction payload rust_type_name root key (answer (M !! key)) k = wanted key (M !! key) k.
Proof. by destruct k, (M !! key). Qed.

Lemma commit_step_refines s M root t :
  root_rep s M root -> content_addressed s -> step_safe s root M t ->
  same_outcome (committed s) (effect_on M t) (commit_step s root t).
Proof.
  intros Hroot Hca [(p & Hp & Hlong) Hsafe]. destruct t as [key k]. cbn [fst snd] in *.
  unfold GlobalState.commit_step, GlobalState.effect_on.
  rewrite (read_rep CHUNK_SIZE_BYTES s M root key p) by done.
  cbn [map_err mbind result_bind fst snd]. rewrite instruction_wanted.
  destruct (wanted key (M !! key) k) as [[[v|key']|]|e| |]; cbn [mbind result_bind]; [| | |done..].
  - destruct Hsafe as (Hv & [b Hb] & Hnc).
    destruct (write_rep blake2b CHUNK_SIZE_BYTES key v p b Hp Hv Hb s M root Hroot Hca Hnc)
      as (result & s' & -> & Hs & Hca' & Hres). cbn [map_err mbind result_bind].
    destruct result as [root'| |]; cbn; [by destruct Hres| |done].
    destruct Hres as [Hk ->]. by rewrite insert_id.
  - destruct Hsafe as ([p' Hp'] & Hnc).
    destruct (prune_rep blake2b CHUNK_SIZE_BYTES key' p' Hp' s M root Hroot Hca Hnc)
      as (result & s' & -> & Hs & Hca' & Hres). cbn [map_err mbind result_bind].
    destruct result as [root'| |]; cbn; [by destruct Hres| |done].
    destruct Hres as [Hk ->]. by rewrite delete_id.
  - done.
Qed.

Lemma commit_loop_refines s M root effects :
  root_rep s M root -> content_addressed s -> commit_safe s root M effects ->
  same_outcome (committed s) (effects_on payload rust_type_name M effects) (commit_loop s root effects).
Proof.
  revert s M root. induction effects as [|t effects IH]; intros s M root Hroot Hca Hsafe; [done|].
  destruct Hsafe as [Hstep Hrest]. cbn [effects_on GlobalState.commit_loop].
  pose proof (commit_step_refines s M root t Hroot Hca Hstep) as Ht.
  destruct (effect_on M t) as [M'|e| |], (commit_step s root t) as [[root' s']|e'| |];
    cbn [mbind result_bind] in *; try done.
  destruct Ht as (Hroot' & Hca' & Hs).
  specialize (IH s' M' root' Hroot' Hca' (Hrest _ _ _ eq_refl eq_refl)).
  destruct (effects_on _ _ M' effects), (commit_loop s' root' effects) as [[root'' s'']| | |]; try done.
  destruct IH as (? & ? & ?). split_and!; [done|done|by etrans].
Qed.

(** C10: committing effects that are safe to commit refines their meaning on the map
    that the state root represents: it fails exactly when the meaning fails and with the same
    error, and otherwise the new root represents the resulting map, in a store
    where all earlier roots still represent what they did. *)
Theorem commit_refines s M root effects :
  root_rep s M root -> content_addressed s -> commit_safe s root M effects ->
  same_outcome (fun M' '(root', s') => root_rep s' M' root' /\ content_addressed s' /\
      forall M0 root0, root_rep s M0 root0 -> root_rep s' M0 root0)
    (effects_on payload rust_type_name M effects)
    (commit blake2b CHUNK_SIZE_BYTES payload rust_type_name s root effects).
Proof.
  intros Hroot Hca Hsafe. unfold commit.
  pose proof Hroot as (_ & pb & f & Hst & _). rewrite (get_stores _ _ _ Hst). cbn [map_err mbind result_bind].
  pose proof (commit_loop_refines s M root effects Hroot Hca Hsafe) as Hl.
  destruct (effects_on _ _ M effects), (commit_loop s root effects) as [[root' s']| | |]; try done.
  destruct Hl as (? & ? & ?). split_and!; [done|done|]. intros. by eapply root_rep_mono.
Qed.
End refinement.

(** ** The operations of the trie store *)

Section operations.
Context (blake2b : list u8 -> Digest) {TF : TreeFold1} (CHUNK_SIZE_BYTES : nat).
Context {K V : Type} {DK : Bytesrepr K} {SK : BytesreprSpec K DK}.
Context {DV : Bytesrepr V} {SV : BytesreprSpec V DV} `{Countable K}.
Abbreviation root_rep := (root_rep CHUNK_SIZE_BYTES (K:=K) (V:=V)).
Abbreviation content_addressed := (content_addressed blake2b CHUNK_SIZE_BYTES).
Implicit Types (s : store) (M : gmap K V) (k : K) (v : V).

(** The store after the creation of an empty state. *)
Definition empty_state : result Error (Digest * store) :=
  '(root_hash, root) ← create_hashed_empty_trie blake2b (K:=K) (V:=V);
  s ← put ∅ root_hash root;
  Ok (root_hash, s).

Lemma empty_state_rep :
  NODE_MAX_LENGTH <= Z.of_nat CHUNK_SIZE_BYTES ->
  exists root s, empty_state = Ok (root, s) /\ root_rep s ∅ root /\ content_addressed s.
Proof.
  intros Hc. unfold empty_state, create_hashed_empty_trie.
  destruct (node_to_bytes (K:=K) (V:=V) ∅) as (b & Hb & Hl). rewrite Hb. cbn [mbind result_bind].
  unfold put. rewrite Hb. cbn [mbind result_bind]. eexists _, _. split; [done|]. split.
  - split; [by intros ? ? ?%lookup_empty_Some|]. exists ∅, (fun _ => Node ∅). split.
    + split; [done|]. exists b. by rewrite lookup_insert_eq.
    + split_and!; [by intros ? ? ?%lookup_empty_Some..|].
      intros x k _ ([v Hv] & _). by apply lookup_empty_Some in Hv.
  - intros h b' E. destruct (decide (h = hash blake2b b)) as [->|].
    + rewrite lookup_insert_eq in E. injection E as <-.
      unfold hash_into_chunks_if_necessary. destruct (Nat.leb_spec (length b) CHUNK_SIZE_BYTES); [done|lia].
    + rewrite lookup_insert_ne in E by done. by apply lookup_empty_Some in E.
Qed.

(** C35: [read] returns exactly what the map represented by the root holds. *)
Theorem read_correct s M root k p :
  root_rep s M root -> key_path CHUNK_SIZE_BYTES k p -> long_enough CHUNK_SIZE_BYTES M k p ->
  read s root k = Ok (match M !! k with Some v => Found v | None => NotFound end).
Proof.
  intros Hroot Hp Hlong. exact (read_rep CHUNK_SIZE_BYTES s M root k p Hroot Hp Hlong).
Qed.

(** C6: [write] stores the entry under a new root, says so when it is already
    there, and leaves every earlier root with its map. *)
Theorem write_correct s M root k v p b :
  root_rep s M root -> content_addressed s ->
  key_path CHUNK_SIZE_BYTES k p -> representable v -> trie_to_bytes (Leaf k v) = Ok b ->
  write_no_clash blake2b CHUNK_SIZE_BYTES k v s root ->
  exists result s', write blake2b CHUNK_SIZE_BYTES s root k v = Ok (result, s') /\
    content_addressed s' /\
    (forall M0 root0, root_rep s M0 root0 -> root_rep s' M0 root0) /\
    match result with
    | Written root' => M !! k <> Some v /\ root_rep s' (<[k := v]> M) root'
    | AlreadyExists => M !! k = Some v /\ s' = s
    | WriteRootNotFound => False
    end.
Proof.
  intros Hroot Hca Hp Hv Hb Hnc.
  destruct (write_rep _ _ k v p b Hp Hv Hb s M root Hroot Hca Hnc) as (result & s' & E & Hs & Hca' & Hr).
  exists result, s'. split_and!; [done|done| |done]. intros. by eapply root_rep_mono.
Qed.

(** C11: [prune] removes the key under a new root, says so when it is not there,
    and leaves every earlier root with its map. *)
Theorem prune_correct s M root k p :
  root_rep s M root -> content_addressed s -> key_path CHUNK_SIZE_BYTES k p ->
  prune_no_clash blake2b CHUNK_SIZE_BYTES (V:=V) k s root ->
  exists result s', prune blake2b CHUNK_SIZE_BYTES (V:=V) s root k = Ok (result, s') /\
    content_addressed s' /\
    (forall M0 root0, root_rep s M0 root0 -> root_rep s' M0 root0) /\
    match result with
    | Pruned root' => is_Some (M !! k) /\ root_rep s' (delete k M) root'
    | MissingKey => M !! k = None /\ s' = s
    | PruneRootNotFound => False
    end.
Proof.
  intros Hroot Hca Hp Hnc.
  destruct (prune_rep _ _ k p Hp s M root Hroot Hca Hnc) as (result & s' & E & Hs & Hca' & Hr).
  exists result, s'. split_and!; [done|done| |done]. intros. by eapply root_rep_mono.
Qed.

(** [read_with_proof] finds exactly the keys of the represented map, and
    from the proof it returns [compute_state_hash] computes the root. *)
Theorem read_with_proof_complete s M root k p :
  NODE_MAX_LENGTH <= Z.of_nat CHUNK_SIZE_BYTES ->
  content_addressed s -> root_rep s M root ->
  key_path CHUNK_SIZE_BYTES k p -> long_enough CHUNK_SIZE_BYTES M k p ->
  match M !! k with
  | None => read_with_proof (V:=V) s root k = Ok NotFound
  | Some v => exists proof, read_with_proof s root k = Ok (Found proof) /\
      proof_key proof = k /\ proof_value proof = v /\
      compute_state_hash blake2b CHUNK_SIZE_BYTES proof = Ok root
  end.
Proof.
  intros Hc Hca Hroot Hp Hlong.
  exact (read_with_proof_rep blake2b CHUNK_SIZE_BYTES Hc s M root k p Hca Hroot Hp Hlong).
Qed.

(** C14: a Merkle proof from which a state root is computed is right about the
    map that the root represents, unless bytes it hashes collide with stored
    ones. *)
Theorem merkle_proof_sound s M root (proof : TrieMerkleProof K V) :
  content_addressed s -> root_rep s M root -> proof_no_clash blake2b CHUNK_SIZE_BYTES s proof ->
  representable (proof_key proof) -> representable (proof_value proof) ->
  compute_state_hash blake2b CHUNK_SIZE_BYTES proof = Ok root ->
  M !! proof_key proof = Some (proof_value proof).
Proof. exact (proof_sound_rep blake2b CHUNK_SIZE_BYTES s M root proof). Qed.

(** C15: listing the keys of a state by a prefix of their bytes ends, and yields each
    stored key whose bytes start with the prefix exactly once and no other, in the
    order of their bytes, provided no stored key ends within the prefix. *)
Theorem keys_with_prefix_exact s M root prefix :
  root_rep s M root -> not_within CHUNK_SIZE_BYTES M prefix ->
  exists ks n, StronglySorted (before CHUNK_SIZE_BYTES) ks /\
    (forall k, k ∈ ks <-> is_Some (M !! k) /\ exists p, key_path CHUNK_SIZE_BYTES k p /\ prefix `prefix_of` p) /\
    forall fuel, (n <= fuel)%nat -> view_keys_with_prefix fuel s root prefix = Ok ks.
Proof.
  intros Hroot Hnw. destruct (view_keys_ok CHUNK_SIZE_BYTES s M root prefix Hroot Hnw) as (ks & n & [Hs He] & Hf). eauto.
Qed.
End operations.

(** ** Examples *)

(** Hashes that are all different rule out a clash. *)
Section clash.
Context (blake2b : list u8 -> Digest) {TF : TreeFold1} (CHUNK_SIZE_BYTES : nat).
Context {K V : Type} {DK : Bytesrepr K} {DV : Bytesrepr V}.
Abbreviation chunk_hash := (hash_into_chunks_if_necessary blake2b CHUNK_SIZE_BYTES).

Definition element_bytes (e : Digest * Trie K V) : option (list u8) :=
  match trie_to_bytes e.2 with Ok b => Some b | _ => None end.
Definition all_bytes (s : store) (elements : list (Digest * Trie K V)) : list (list u8) :=
  remove_dups ((map_to_list s).*2 ++ omap element_bytes elements).

Lemma all_bytes_in_play s elements b : in_play s elements b -> b ∈ all_bytes s elements.
Proof.
  intros Hb. apply elem_of_remove_dups, elem_of_app.
  destruct Hb as [[h Hh]|(h & t & Hin & Hb)].
  - left. apply list_elem_of_fmap. exists (h, b). split; [done|]. by apply elem_of_map_to_list.
  - right. apply list_elem_of_omap. exists (h, t). split; [done|]. unfold element_bytes. cbn. by rewrite Hb.
Qed.

Lemma no_clash_check s elements :
  NoDup (chunk_hash <$> all_bytes s elements) -> no_clash blake2b CHUNK_SIZE_BYTES s elements.
Proof.
  intros Hnd b1 b2 H1%all_bytes_in_play H2%all_bytes_in_play E.
  apply list_elem_of_lookup in H1 as [i Hi], H2 as [j Hj].
  assert (i = j) as <-; [|congruence].
  eapply NoDup_lookup; [exact Hnd|by rewrite list_lookup_fmap, Hi|by rewrite list_lookup_fmap, Hj, E].
Qed.

Context `{EqDecision K}.
Definition write_clash_free (k : K) (v : V) (s : store) (root : Digest) : bool :=
  match s !! root with
  | Some root_bytes =>
      match write_elements blake2b CHUNK_SIZE_BYTES s root_bytes k v with
      | Ok elements => bool_decide (NoDup (chunk_hash <$> all_bytes s elements))
      | _ => true
      end
  | None => true
  end.
Definition prune_clash_free (k : K) (s : store) (root : Digest) : bool :=
  match s !! root with
  | Some root_bytes =>
      match prune_elements blake2b CHUNK_SIZE_BYTES (V:=V) s root_bytes k with
      | Ok (Some elements) => bool_decide (NoDup (chunk_hash <$> all_bytes s (reverse elements)))
      | _ => true
      end
  | None => true
  end.

Lemma write_no_clash_check k v s root :
  write_clash_free k v s root = true -> write_no_clash blake2b CHUNK_SIZE_BYTES k v s root.
Proof.
  unfold write_clash_free. intros Hc rb elements Hrb Hel. rewrite Hrb, Hel in Hc.
  apply no_clash_check. by apply bool_decide_eq_true in Hc.
Qed.

Lemma prune_no_clash_check k s root :
  prune_clash_free k s root = true -> prune_no_clash blake2b CHUNK_SIZE_BYTES (V:=V) k s root.
Proof.
  unfold prune_clash_free. intros Hc rb elements Hrb Hel. rewrite Hrb, Hel in Hc.
  apply no_clash_check. by apply bool_decide_eq_true in Hc.
Qed.
End clash.

(** Keys of different lengths: a byte, then nothing or two more. *)
Abbreviation example_key := (u8 * option (u8 * u8))%type.
Definition example_chunk : nat := Z.to_nat 9000.
Abbreviation ex_write := (write (TF:=TreeFold1_ref) checksum example_chunk (K:=example_key) (V:=u8)).
Abbreviation ex_prune := (prune (TF:=TreeFold1_ref) checksum example_chunk (K:=example_key) (V:=u8)).
Definition key1 : example_key := (Byte.x07, Some (Byte.x01, Byte.x02)).
Definition key2 : example_key := (Byte.x07, Some (Byte.x01, Byte.x03)).

Definition example_empty : Digest * store :=
  match empty_state checksum (K:=example_key) (V:=u8) with Ok r => r | _ => (checksum [], ∅) end.
Definition written_root (r : result Error (WriteResult * store)) : Digest :=
  match r with Ok (Written root, _) => root | _ => checksum [] end.
Definition result_store {A} (r : result Error (A * store)) : store :=
  match r with Ok (_, s) => s | _ => ∅ end.
Definition example_written := ex_write example_empty.2 example_empty.1 key1 Byte.x05.
Definition example_root := written_root example_written.
Definition example_store := result_store example_written.

Lemma example_key_path k p :
  to_bytes k = Ok p -> p <> [] -> Z.of_nat (length p) <= 8000 -> representable k -> key_path example_chunk (K:=example_key) k p.
Proof.
  intros Hk Hne Hl Hr. split; [done|]. split; [done|]. split; [done|].
  unfold example_chunk. rewrite Z2Nat.id by lia. change (Z.min u32_max 9000) with 9000. lia.
Qed.

Lemma key1_path : key_path example_chunk key1 [Byte.x07; Byte.x01; Byte.x01; Byte.x02].
Proof. apply example_key_path; [done|done|cbn; lia|done]. Qed.

Lemma example_chunk_node : NODE_MAX_LENGTH <= Z.of_nat example_chunk.
Proof. unfold example_chunk. rewrite Z2Nat.id by lia. by vm_compute. Qed.

Lemma example_empty_rep :
  root_rep example_chunk (K:=example_key) (V:=u8) example_empty.2 ∅ example_empty.1 /\
  content_addressed (TF:=TreeFold1_ref) checksum example_chunk example_empty.2.
Proof.
  destruct (empty_state_rep (TF:=TreeFold1_ref) checksum example_chunk (K:=example_key) (V:=u8) example_chunk_node)
    as (root & s & E & Hr & Hc). unfold example_empty. by rewrite E.
Qed.

Lemma example_no_clash :
  write_no_clash (TF:=TreeFold1_ref) checksum example_chunk key1 Byte.x05 example_empty.2 example_empty.1.
Proof. apply write_no_clash_check. vm_compute. reflexivity. Qed.

Lemma key1_leaf : exists b, trie_to_bytes (Leaf key1 Byte.x05) = Ok b.
Proof. vm_compute. by eexists. Qed.

Lemma example_rep :
  root_rep example_chunk (K:=example_key) (V:=u8) example_store {[ key1 := Byte.x05 ]} example_root /\
  content_addressed (TF:=TreeFold1_ref) checksum example_chunk example_store.
Proof.
  destruct example_empty_rep as [Hr Hc]. destruct key1_leaf as [b Hb].
  destruct (write_rep (TF:=TreeFold1_ref) checksum example_chunk (K:=example_key) (V:=u8) (SV:=u8_spec) key1 Byte.x05 _ b key1_path I Hb
    _ ∅ _ Hr Hc example_no_clash) as (result & s' & E & _ & Hc' & Hres).
  fold example_written in E. unfold example_store, example_root. rewrite E. unfold result_store, written_root.
  destruct result as [root'| |].
  - destruct Hres as [_ Hr']. exact (conj Hr' Hc').
  - destruct Hres as [Hn _]. discriminate Hn.
  - destruct Hres.
Qed.

Lemma keys_with_prefix_exact_witness :
  exists ks n, (forall k, k ∈ ks <-> is_Some (({[ key1 := Byte.x05 ]} : gmap example_key u8) !! k) /\
      exists p, key_path example_chunk k p /\ [Byte.x07] `prefix_of` p) /\
    forall fuel, (n <= fuel)%nat -> view_keys_with_prefix fuel example_store example_root [Byte.x07] = Ok ks.
Proof.
  destruct (keys_with_prefix_exact example_chunk (K:=example_key) (V:=u8) example_store {[ key1 := Byte.x05 ]} example_root
    [Byte.x07]) as (ks & n & _ & He & Hf); [exact (proj1 example_rep)| |exists ks, n; split; [exact He|exact Hf]].
  intros k p [v Hk] Hp Hpre. apply lookup_singleton_Some in Hk as [<- _].
  destruct Hp as (_ & Hp & _). injection Hp as <-. apply prefix_length in Hpre. cbn in Hpre. lia.
Defined.

Lemma read_correct_witness :
  read (K:=example_key) (V:=u8) example_store example_root key1 = Ok (Found Byte.x05).
Proof.
  exact (read_correct example_chunk (K:=example_key) (V:=u8) example_store {[ key1 := Byte.x05 ]} example_root key1 _
    (proj1 example_rep) key1_path (or_introl (ex_intro _ Byte.x05 eq_refl))).
Defined.

Lemma write_correct_witness :
  exists root' s', ex_write example_empty.2 example_empty.1 key1 Byte.x05 = Ok (Written root', s') /\
    root_rep example_chunk (K:=example_key) (V:=u8) s' {[ key1 := Byte.x05 ]} root'.
Proof.
  destruct key1_leaf as [b Hb].
  destruct (write_correct (TF:=TreeFold1_ref) checksum example_chunk (K:=example_key) (V:=u8) (SV:=u8_spec)
    example_empty.2 ∅ example_empty.1 key1 Byte.x05 _ b (proj1 example_empty_rep) (proj2 example_empty_rep)
    key1_path I Hb example_no_clash) as (result & s' & E & _ & _ & Hres).
  destruct result as [root'| |].
  - exists root', s'. destruct Hres as [_ Hr]. exact (conj E Hr).
  - destruct Hres as [Hn _]. discriminate Hn.
  - destruct Hres.
Defined.

Lemma prune_correct_witness :
  exists root' s', ex_prune example_store example_root key1 = Ok (Pruned root', s') /\
    root_rep example_chunk (K:=example_key) (V:=u8) s' (delete key1 {[ key1 := Byte.x05 ]}) root'.
Proof.
  destruct (prune_correct (TF:=TreeFold1_ref) checksum example_chunk (K:=example_key) (V:=u8) (SV:=u8_spec)
    example_store {[ key1 := Byte.x05 ]} example_root key1 _ (proj1 example_rep) (proj2 example_rep) key1_path)
    as (result & s' & E & _ & _ & Hres).
  - apply prune_no_clash_check. vm_compute. reflexivity.
  - destruct result as [root'| |].
    + exists root', s'. destruct Hres as [_ Hr]. exact (conj E Hr).
    + destruct Hres as [Hn _]. discriminate Hn.
    + destruct Hres.
Defined.

Lemma read_with_proof_complete_witness :
  exists proof, read_with_proof (K:=example_key) (V:=u8) example_store example_root key1 = Ok (Found proof) /\
    proof_key proof = key1 /\ proof_value proof = Byte.x05 /\
    compute_state_hash (TF:=TreeFold1_ref) checksum example_chunk proof = Ok example_root.
Proof.
  exact (read_with_proof_complete (TF:=TreeFold1_ref) checksum example_chunk (K:=example_key) (V:=u8)
    example_store {[ key1 := Byte.x05 ]} example_root key1 _ example_chunk_node (proj2 example_rep)
    (proj1 example_rep) key1_path (or_introl (ex_intro _ Byte.x05 eq_refl))).
Defined.

Definition proof_clash_free {K V} `{Bytesrepr K, Bytesrepr V} (s : store) (proof : TrieMerkleProof K V) : bool :=
  let h := hash_into_chunks_if_necessary (TF:=TreeFold1_ref) checksum example_chunk in
  match trie_to_bytes (Leaf (proof_key proof) (proof_value proof)) with
  | Ok bl =>
      forallb (fun b =>
        (bool_decide (b = bl) || negb (bool_decide (h b = h bl))) &&
        forallb (fun b' => bool_decide (b = b') || negb (bool_decide (h b = hash checksum b')))
          (step_inputs checksum (K:=K) (V:=V) true (h bl) (proof_steps proof)))
        (map_to_list s).*2
  | _ => true
  end.

Lemma proof_no_clash_check {K V} `{Bytesrepr K, Bytesrepr V} s (proof : TrieMerkleProof K V) :
  proof_clash_free s proof = true -> proof_no_clash (TF:=TreeFold1_ref) checksum example_chunk s proof.
Proof.
  unfold proof_clash_free. intros Hc bl b h Hbl Hs. rewrite Hbl in Hc.
  rewrite forallb_forall in Hc.
  assert (In b (map_to_list s).*2) as Hin.
  { apply list_elem_of_In, list_elem_of_fmap. exists (h, b). split; [done|]. by apply elem_of_map_to_list. }
  apply Hc, andb_prop in Hin as [H1 H2]. split.
  - intros E. apply orb_prop in H1 as [H1|H1]; [by apply bool_decide_eq_true in H1|].
    by rewrite bool_decide_true in H1.
  - intros b' Hb' E. rewrite forallb_forall in H2. apply list_elem_of_In, H2, orb_prop in Hb' as [H3|H3];
      [by apply bool_decide_eq_true in H3|]. by rewrite bool_decide_true in H3.
Qed.

Definition example_proof : TrieMerkleProof example_key u8 :=
  match read_with_proof example_store example_root key1 with
  | Ok (Found p) => p
  | _ => mkTrieMerkleProof key2 Byte.x00 []
  end.

Lemma merkle_proof_sound_witness :
  ({[ key1 := Byte.x05 ]} : gmap example_key u8) !! proof_key example_proof = Some (proof_value example_proof).
Proof.
  apply (merkle_proof_sound (TF:=TreeFold1_ref) checksum example_chunk (K:=example_key) (V:=u8)
    (SK:=pair_spec) (SV:=u8_spec) example_store _ example_root example_proof).
  - exact (proj2 example_rep).
  - exact (proj1 example_rep).
  - apply proof_no_clash_check. vm_compute. reflexivity.
  - vm_compute. repeat split.
  - exact I.
  - vm_compute. reflexivity.
Defined.

(** Stored values that are a [CLValue] or raw bytes, for the last witness. *)
Definition nothing (t : StoredValueTag) : Type := Empty_set.
Abbreviation ex_value := (StoredValue (K:=example_key) nothing).
Definition value_to_sum (v : ex_value) : CLValue + Bytes :=
  match v with
  | SV_CLValue _ v => inl v
  | SV_RawBytes _ b => inr (mkBytes b)
  | SV_Account _ (mkAccount _ _ e) | SV_Contract _ (mkContract _ _ e) => match e with end
  | SV_ContractWasm _ e | SV_ContractPackage _ e | SV_Transfer _ e | SV_DeployInfo _ e | SV_EraInfo _ e
  | SV_Bid _ e | SV_Withdraw _ e | SV_Unbonding _ e | SV_AddressableEntity _ e | SV_BidKind _ e
  | SV_SmartContract _ e | SV_ByteCode _ e | SV_MessageTopic _ e | SV_Message _ e | SV_NamedKey _ e
  | SV_Prepayment _ e | SV_EntryPoint _ e => match e with end
  end.
Definition value_of_sum (x : CLValue + Bytes) : ex_value :=
  match x with inl v => SV_CLValue nothing v | inr (mkBytes b) => SV_RawBytes nothing b end.
Lemma value_of_to_sum v : value_of_sum (value_to_sum v) = v.
Proof. by destruct v as [|[? []]|[]|[? []]|[]|[]|[]|[]|[]|[]|[]|[]|[]|[]|[]|[]|[]|[]|[]|[]|]. Qed.

#[local] Instance ex_value_repr : Bytesrepr ex_value := {|
  to_bytes v := to_bytes (value_to_sum v);
  write_bytes v := write_bytes (value_to_sum v);
  serialized_length v := serialized_length (value_to_sum v);
  from_bytes bs := '(x, r) ← from_bytes bs; Ok (value_of_sum x, r)
|}.
#[local] Instance ex_value_spec : BytesreprSpec ex_value ex_value_repr.
Proof.
  refine {| representable v := representable (value_to_sum v) |};
    cbn [to_bytes write_bytes serialized_length from_bytes ex_value_repr].
  - intros v b. apply spec_length.
  - intros v. apply spec_length_nonneg.
  - intros v b w. apply spec_write.
  - intros v. apply spec_total.
  - intros v b r Hr Hb. rewrite (spec_roundtrip _ _ r Hr Hb). cbn. by rewrite value_of_to_sum.
  - intros bs. apply no_panic_bind; [apply spec_no_panic|]. by intros [x r].
  - intros bs v r ([x r'] & E & [= <- <-])%bind_Ok. apply spec_from in E.
    by destruct x as [x|[b]].
Defined.

#[local] Instance ex_bid_repr : Bytesrepr (nothing T_BidKind) :=
  {| to_bytes := Empty_set_rect _; write_bytes := Empty_set_rect _;
     serialized_length := Empty_set_rect _; from_bytes _ := Err Formatting |}.
#[local] Instance ex_package_repr : Bytesrepr (nothing T_ContractPackage) := ex_bid_repr.
Definition ex_effects : list (example_key * TransformKindV2 (K:=example_key) nothing) :=
  [(key1, Write nothing (SV_CLValue nothing (mkCLValue CL_U8 (mkBytes [Byte.xfa]))));
   (key1, AddInt32 nothing (-6))].
Definition ex_empty_state : Digest * store :=
  match empty_state checksum (K:=example_key) (V:=ex_value) with Ok r => r | _ => (checksum [], ∅) end.
Abbreviation ex_step := (commit_step (TF:=TreeFold1_ref) checksum example_chunk nothing unnamed (K:=example_key)).
Abbreviation ex_commit := (commit (TF:=TreeFold1_ref) checksum example_chunk nothing unnamed (K:=example_key)).
Definition ex_state1 : Digest * store :=
  match ex_step ex_empty_state.2 ex_empty_state.1
    (key1, Write nothing (SV_CLValue nothing (mkCLValue CL_U8 (mkBytes [Byte.xfa])))) with
  | Ok r => r
  | _ => (checksum [], ∅)
  end.

Lemma ex_empty_rep :
  root_rep example_chunk (K:=example_key) (V:=ex_value) ex_empty_state.2 ∅ ex_empty_state.1 /\
  content_addressed (TF:=TreeFold1_ref) checksum example_chunk ex_empty_state.2.
Proof.
  destruct (empty_state_rep (TF:=TreeFold1_ref) checksum example_chunk (K:=example_key) (V:=ex_value) example_chunk_node)
    as (root & s & E & Hr & Hc). unfold ex_empty_state. by rewrite E.
Qed.

Lemma ex_value_leaf (b : u8) :
  representable (SV_CLValue nothing (mkCLValue CL_U8 (mkBytes [b])) : ex_value) /\
  exists bl, trie_to_bytes (Leaf key1 (SV_CLValue nothing (mkCLValue CL_U8 (mkBytes [b])) : ex_value)) = Ok bl.
Proof.
  split; [|vm_compute; by eexists].
  split; [by vm_compute|]. split; [done|]. unfold CL_TYPE_RECURSION_DEPTH. cbn. lia.
Qed.

Lemma ex_commit_safe :
  commit_safe (TF:=TreeFold1_ref) checksum example_chunk nothing unnamed ex_empty_state.2 ex_empty_state.1 ∅ ex_effects.
Proof.
  assert (forall M : gmap example_key ex_value, long_enough example_chunk M key1 [Byte.x07; Byte.x01; Byte.x01; Byte.x02])
    as Hlong.
  { intros M. apply longest_enough. intros [a o] p' _ (_ & E & _). destruct o as [[x y]|]; injection E as <-; cbn; lia. }
  split; [split|].
  - eexists. split; [exact key1_path|]. apply Hlong.
  - cbn. destruct (ex_value_leaf Byte.xfa) as [Hr Hb]. split; [exact Hr|]. split; [exact Hb|].
    apply write_no_clash_check. vm_compute. reflexivity.
  - intros root' s' M' E EM. assert (ex_state1 = (root', s')) as Est by (unfold ex_state1; by rewrite E).
    cbn in EM. injection EM as <-. split; [split|done].
    + eexists. split; [exact key1_path|]. apply Hlong.
    + cbn [fst snd]. rewrite lookup_insert_eq.
      change (wanted nothing unnamed key1 _ _) with
        (Ok (Some (Store nothing (SV_CLValue nothing (mkCLValue CL_U8 (mkBytes [Byte.xf4]))))) :
         result (CommitError (K:=example_key)) (option (TransformInstruction (K:=example_key) nothing))).
      cbv iota. destruct (ex_value_leaf Byte.xf4) as [Hr Hb]. split; [exact Hr|]. split; [exact Hb|].
      replace s' with (ex_state1.2) by (by rewrite Est). replace root' with (ex_state1.1) by (by rewrite Est).
      apply write_no_clash_check. vm_compute. reflexivity.
Qed.

Lemma commit_refines_witness :
  exists root' s', ex_commit ex_empty_state.2 ex_empty_state.1 ex_effects = Ok (root', s') /\
    root_rep example_chunk (K:=example_key) (V:=ex_value) s'
      (<[ key1 := SV_CLValue nothing (mkCLValue CL_U8 (mkBytes [Byte.xf4])) ]>
        (<[ key1 := SV_CLValue nothing (mkCLValue CL_U8 (mkBytes [Byte.xfa])) ]> ∅)) root'.
Proof.
  pose proof (commit_refines (TF:=TreeFold1_ref) checksum example_chunk nothing unnamed (K:=example_key)
    (SV:=ex_value_spec) ex_empty_state.2 ∅ ex_empty_state.1 ex_effects (proj1 ex_empty_rep) (proj2 ex_empty_rep)
    ex_commit_safe) as R.
  destruct (ex_commit ex_empty_state.2 ex_empty_state.1 ex_effects) as [[root' s']|e| |]; [|destruct R..].
  exists root', s'. split; [reflexivity|]. exact (proj1 R).
Defined.
