(* ===== verification/KeyState.v ===== *)
(** * The global state under its real keys

    The trie store of [storage/src/global_state] is generic in the type of its
    keys; the node uses it with [Key].  Every key is a path the trie accepts, no
    key's path is a prefix of another's, and [read] answers for every key except
    where a shorter key meets an extension made of longer ones. *)
From S2P Require Import Prelude BTree Bytesrepr Struct Digest Uint Units Access CLType PublicKey Key.
From S2P Require Import Trie TrieOps TrieRep TrieRead TrieZip TrieWrite TrieProof GlobalState.

Open Scope Z_scope.

(** ** Paths of keys *)

Lemma key_bytes k :
  key_ok k -> exists p, to_bytes k = Ok (KeyTag_to_u8 (key_tag k) :: p) /\ 1 + Z.of_nat (length p) = key_length k.
Proof.
  intros Hk. destruct (key_serializes k Hk) as (p & Hw & Hl & _). exists p. split; [apply (Hw [])|done].
Qed.

Lemma KeyTag_to_u8_inj t t' : KeyTag_to_u8 t = KeyTag_to_u8 t' -> t = t'.
Proof. intros H. pose proof (KeyTag_read t []) as E. rewrite H, KeyTag_read in E. by injection E. Qed.

Lemma key_length_range k : 2 <= key_length k <= max_serialized_length.
Proof. destruct (key_length_bounds k) as [H| ->]; [lia|by vm_compute]. Qed.

(** The second byte of the keys with variants of different lengths. *)
Definition key_second (k : Key) : option u8 :=
  match k with
  | Key_BidAddr a => Some (bid_tag a)
  | Key_ByteCode a => Some (ByteCodeKind_to_u8 (byte_code_tag a))
  | _ => None
  end.
Lemma key_second_byte k t b q : to_bytes k = Ok (t :: b :: q) -> from_option (eq b) True (key_second k).
Proof.
  destruct k as [ | | | | | | | | | | | | | | |a| | |a| | | | | | | ]; try done; cbn [to_bytes Key_bytesrepr key_write_bytes key_second from_option].
  - cbn [write_bytes BidAddr_bytesrepr]. unfold default_write_bytes. rewrite bid_to_bytes_eq. by intros [= _ <- _].
  - destruct a; cbn; by intros [= _ <- _].
Qed.
Lemma key_second_length k k' :
  key_tag k' = key_tag k -> key_tag k <> KT_Message -> key_second k' = key_second k -> key_length k' = key_length k.
Proof.
  destruct k as [ | | | | | | | | | | | | | | |a| | |a| | | |a|[]| | ], k' as [ | | | | | | | | | | | | | | |b| | |b| | | |b|[]| | ];
    try done; intros _ _ E; try (injection E as E).
  - destruct a, b; try discriminate E; done.
  - destruct a, b; try discriminate E; done.
  - by destruct a, b.
Qed.

Section state.
Context (CHUNK_SIZE_BYTES : nat) (Hchunk : 128 <= Z.of_nat CHUNK_SIZE_BYTES).
Context {V : Type} {DV : Bytesrepr V} {SV : BytesreprSpec V DV}.
Implicit Types (M : gmap Key V).

Abbreviation key_path := (key_path CHUNK_SIZE_BYTES (K:=Key)).

Lemma key_has_path k : key_ok k -> exists p, key_path k p /\ Z.of_nat (length p) = key_length k.
Proof.
  intros Hk. destruct (key_bytes k Hk) as (p & Hp & Hl). exists (KeyTag_to_u8 (key_tag k) :: p).
  assert (Z.of_nat (length (KeyTag_to_u8 (key_tag k) :: p)) = key_length k) as E by (cbn [length]; lia).
  split; [|done]. split_and!; [done|done|done|]. rewrite E. pose proof (key_length_range k).
  change max_serialized_length with 71 in *. change u32_max with 4294967295. lia.
Qed.

Lemma key_path_tag k p : key_path k p -> exists q, p = KeyTag_to_u8 (key_tag k) :: q /\ Z.of_nat (length p) = key_length k.
Proof.
  intros (Hk & Hp & _). destruct (key_bytes k Hk) as (q & Hq & Hl). rewrite Hq in Hp. injection Hp as <-.
  exists q. split; [done|]. cbn [length]. lia.
Qed.

(** Keys stored below a non-empty part of a key's path have its tag. *)
Lemma under_tag M pre k k' p :
  key_path k p -> pre <> [] -> pre `prefix_of` p -> under CHUNK_SIZE_BYTES M pre k' -> key_tag k' = key_tag k.
Proof.
  intros Hp Hne [r ->] (_ & p' & Hp' & [r' ->]). destruct pre as [|x pre]; [done|].
  apply key_path_tag in Hp as (q & [= -> _] & _). apply key_path_tag in Hp' as (q' & [= E _] & _).
  by apply KeyTag_to_u8_inj.
Qed.

(** ** When a key can be looked up *)

(** A key is at least as long as some stored key with its tag, or as long as any
    key with its tag can be.  The topics of messages are left out: their keys are
    shorter than those of the messages of the same topic. *)
Definition read_safe M (k : Key) : Prop :=
  is_Some (M !! k) \/
  (forall k', key_tag k' = key_tag k -> key_length k' <= key_length k) \/
  key_tag k <> KT_Message /\
  exists k', is_Some (M !! k') /\ key_tag k' = key_tag k /\ key_length k' <= key_length k.

Lemma key_second_path k k' x y q q' :
  key_path k (x :: y :: q) -> key_path k' (x :: y :: q') -> key_tag k' = key_tag k /\ key_second k' = key_second k.
Proof.
  intros Hp Hp'. assert (key_tag k' = key_tag k) as Ht.
  { apply key_path_tag in Hp as (? & [= -> _] & _). apply key_path_tag in Hp' as (? & [= E _] & _).
    by apply KeyTag_to_u8_inj. }
  split; [done|]. destruct Hp as (_ & Hp%key_second_byte & _), Hp' as (_ & Hp'%key_second_byte & _).
  destruct k, k'; try discriminate Ht; try done; cbn in *; congruence.
Qed.

Lemma read_safe_long M k p :
  keys_ok CHUNK_SIZE_BYTES M -> key_path k p -> read_safe M k -> long_enough CHUNK_SIZE_BYTES M k p.
Proof.
  intros Hok Hp [Hk|Hk]; [by left|right]. intros pre c k1 k2 Hne Hpre Hc _ H1 _ Hall.
  assert (under CHUNK_SIZE_BYTES M pre k1) as Hu1 by (destruct Hc as [r ->]; by eapply under_weaken).
  assert (forall k', under CHUNK_SIZE_BYTES M c k' -> key_length k' <= key_length k -> (length c <= length p)%nat) as Hfin.
  { intros k' (_ & p' & Hp' & Hl%prefix_length) Hle. apply key_path_tag in Hp as (_ & _ & Hp).
    apply key_path_tag in Hp' as (_ & _ & Hp'). lia. }
  destruct Hk as [Hmax|[Hm (k' & Hs & Ht & Hl)]]; [by apply (Hfin k1), Hmax; [|by eapply under_tag]|].
  destruct pre as [|x [|y pre]]; [done| |].
  - apply (Hfin k'); [|done]. apply Hall. split; [done|]. destruct Hs as [v Hs].
    destruct (Hok k' v Hs) as (_ & p' & Hp'). exists p'. split; [done|].
    apply key_path_tag in Hp as (q & -> & _). apply key_path_tag in Hp' as (q' & -> & _).
    destruct Hpre as [? [= <- _]]. rewrite Ht. by eexists.
  - apply (Hfin k1); [done|]. destruct Hu1 as (_ & p1 & Hp1 & [r1 ->]), Hpre as [r ->]. cbn [app] in *.
    destruct (key_second_path k k1 x y _ _ Hp Hp1) as [Ht1 Hs1]. by rewrite (key_second_length k k1).
Qed.

(** C34: [read] of a key that can be looked up returns exactly what the map
    represented by the root holds; in particular it never panics for a key of the
    tags whose keys all have the same length. *)
Theorem read_key_correct (s : store) M root k :
  root_rep CHUNK_SIZE_BYTES s M root -> key_ok k -> read_safe M k ->
  read s root k = Ok (match M !! k with Some v => Found v | None => NotFound end).
Proof.
  intros Hroot Hk Hsafe. destruct (key_has_path k Hk) as (p & Hp & _).
  apply (read_rep CHUNK_SIZE_BYTES s M root k p Hroot Hp), read_safe_long; [by destruct Hroot|done|done].
Qed.
End state.

(** ** Encodings of keys *)

Lemma bid_key_bytes a : to_bytes (Key_BidAddr a) =
  Ok (KeyTag_to_u8 KT_BidAddr :: bid_tag a :: vec_to_list (validator_account_hash a) ++ bid_rest a).
Proof.
  cbn [to_bytes Key_bytesrepr key_write_bytes write_bytes BidAddr_bytesrepr].
  unfold default_write_bytes. by rewrite bid_to_bytes_eq.
Qed.

Lemma bid_prefix_spec tag a k b p :
  key_ok k -> to_bytes k = Ok b -> bid_prefix tag a = Ok p ->
  p `prefix_of` b <-> exists ba, k = Key_BidAddr ba /\ bid_tag ba = tag /\
                                 validator_account_hash ba = validator_account_hash a.
Proof.
  intros Hk Hb [= <-]. split.
  - intros [r Hr]. assert (exists ba, k = Key_BidAddr ba) as [ba ->].
    { destruct (key_bytes k Hk) as (q & Hq & _). rewrite Hq, Hr in Hb. injection Hb as Ht _.
      apply (KeyTag_to_u8_inj _ KT_BidAddr) in Ht. destruct k; try discriminate Ht. by eexists. }
    exists ba. split; [done|]. rewrite bid_key_bytes, Hr in Hb. injection Hb as E1 E2. split; [done|].
    apply app_inj_1 in E2 as [E2 _]; [|by rewrite !length_vec_to_list]. by apply vec_to_list_inj2.
  - intros (ba & -> & <- & E). rewrite bid_key_bytes, E in Hb. injection Hb as <-. by eexists.
Qed.

(** The serialization of a key is at most [max_serialized_length] bytes long,
    deserializes to the key whatever follows it, and is a prefix of the
    serialization of no other key. *)
Theorem key_encoding_sound k b :
  key_ok k -> to_bytes k = Ok b ->
  2 <= Z.of_nat (length b) <= max_serialized_length /\
  (forall r, from_bytes (b ++ r) = Ok (k, r)) /\
  forall k' b', key_ok k' -> to_bytes k' = Ok b' -> b `prefix_of` b' -> k = k'.
Proof.
  intros Hk Hb. split_and!.
  1-2: rewrite (spec_length (BytesreprSpec := Key_spec) k b Hk Hb); apply key_length_range.
  - intros r. by apply spec_roundtrip.
  - intros k' b' Hk' Hb' Hp. by eapply (to_bytes_prefix (T:=Key)).
Qed.

(** ** Concrete keys and a concrete state *)

Definition zeros : HashAddr := vreplicate 32 Byte.x00.
Definition hash_of_bytes (x y : u8) : HashAddr := x ::: y ::: vreplicate 30 Byte.x00.
Definition purse_hold : Key := Key_BalanceHold (BH_Gas zeros (mkBlockTime 5)).
Definition delegation : Key := Key_BidAddr (BA_DelegatedAccount zeros (hash_of_bytes Byte.x01 Byte.x02)).

Lemma key_encoding_sound_witness :
  exists b, to_bytes purse_hold = Ok b /\ 2 <= Z.of_nat (length b) <= max_serialized_length /\
    from_bytes (b ++ [Byte.x2a]) = Ok (purse_hold, [Byte.x2a]).
Proof.
  eexists. split; [vm_compute; reflexivity|].
  edestruct (key_encoding_sound purse_hold) as (H1 & H2 & _); [vm_compute; split; congruence|vm_compute; reflexivity|].
  split; [exact H1|exact (H2 [Byte.x2a])].
Defined.

Abbreviation key_write := (write (TF:=TreeFold1_ref) checksum example_chunk (K:=Key) (V:=u8)).
Definition key_empty : Digest * store :=
  match empty_state checksum (K:=Key) (V:=u8) with Ok r => r | _ => (checksum [], ∅) end.
(** Two byte codes whose addresses start with the same byte. *)
Definition wasm1 : Key := Key_ByteCode (BCA_V1CasperWasm (hash_of_bytes Byte.x07 Byte.x01)).
Definition wasm2 : Key := Key_ByteCode (BCA_V1CasperWasm (hash_of_bytes Byte.x07 Byte.x02)).
Definition key_written := key_write key_empty.2 key_empty.1 wasm1 Byte.x05.
Definition key_written2 := key_write (result_store key_written) (written_root key_written) wasm2 Byte.x06.

Lemma key_empty_rep :
  root_rep example_chunk (K:=Key) (V:=u8) key_empty.2 ∅ key_empty.1 /\
  content_addressed (TF:=TreeFold1_ref) checksum example_chunk key_empty.2.
Proof.
  destruct (empty_state_rep (TF:=TreeFold1_ref) checksum example_chunk (K:=Key) (V:=u8) example_chunk_node)
    as (root & s & E & Hr & Hc). unfold key_empty. by rewrite E.
Qed.

Lemma wasm1_no_clash :
  write_no_clash (TF:=TreeFold1_ref) checksum example_chunk wasm1 Byte.x05 key_empty.2 key_empty.1.
Proof. apply write_no_clash_check. vm_compute. reflexivity. Qed.

Lemma wasm1_leaf : exists b, trie_to_bytes (Leaf wasm1 Byte.x05) = Ok b.
Proof. vm_compute. by eexists. Qed.

Lemma example_chunk_128 : 128 <= Z.of_nat example_chunk.
Proof. unfold example_chunk. rewrite Z2Nat.id; lia. Qed.

Lemma key_written_rep :
  root_rep example_chunk (K:=Key) (V:=u8) (result_store key_written) {[ wasm1 := Byte.x05 ]} (written_root key_written).
Proof.
  destruct key_empty_rep as [Hr Hc]. destruct wasm1_leaf as [b Hb].
  destruct (key_has_path example_chunk example_chunk_128 wasm1 I) as (p & Hp & _).
  destruct (write_rep (TF:=TreeFold1_ref) checksum example_chunk (K:=Key) (V:=u8) (SV:=u8_spec) wasm1 Byte.x05 p b Hp I Hb
    _ ∅ _ Hr Hc wasm1_no_clash) as (result & s' & E & _ & _ & Hres).
  fold key_written in E. rewrite E. unfold result_store, written_root. destruct result as [root'| |].
  - destruct Hres as [_ Hr']. exact Hr'.
  - destruct Hres as [Hn _]. discriminate Hn.
  - destruct Hres.
Qed.

(** [read] of a key that is not stored, at a root that holds another one *)
Lemma read_key_correct_witness :
  read (K:=Key) (V:=u8) (result_store key_written) (written_root key_written) (Key_Account zeros) = Ok NotFound.
Proof.
  apply (read_key_correct example_chunk example_chunk_128 (result_store key_written)
    {[ wasm1 := Byte.x05 ]} (written_root key_written) (Key_Account zeros) key_written_rep I).
  right. left. intros [ | | | | | | | | | | | | | | |[]| | |[]| | | |[]|[]| | ] Ht; try discriminate Ht. reflexivity.
Defined.

(** [read] takes a slice of a key's path without checking the path's length:
    after the byte codes of two contracts whose addresses start with the same byte
    have been written to the empty state, reading the key [Key::ByteCode(Empty)],
    whose path is two bytes long, panics. *)
Theorem read_short_key_panics :
  read (K:=Key) (V:=u8) (result_store key_written2) (written_root key_written2) (Key_ByteCode BCA_Empty) = Panic /\
  read_with_proof (K:=Key) (V:=u8) (result_store key_written2) (written_root key_written2) (Key_ByteCode BCA_Empty) = Panic.
Proof. split; vm_compute; reflexivity. Qed.
