(* ===== verification/KeyPrefix.v ===== *)
(** * Prefixes of keys

    Models [storage/src/data_access_layer/key_prefix.rs]: the prefixes by which
    delegations, messages, named keys, balance holds and entry points are listed. *)
From S2P Require Import Prelude BTree Bytesrepr Struct Digest Uint Access CLType Key KeyState.

Open Scope Z_scope.

Inductive KeyPrefix : Type :=
| KP_DelegatorBidAddrsByValidator (validator : AccountHash)
| KP_MessageEntriesByEntity (hash_addr : EntityAddr)
| KP_MessagesByEntityAndTopic (hash_addr : EntityAddr) (topic : TopicNameHash)
| KP_NamedKeysByEntity (entity : EntityAddr)
| KP_GasBalanceHoldsByPurse (uref : URefAddr)
| KP_ProcessingBalanceHoldsByPurse (uref : URefAddr)
| KP_EntryPointsV1ByEntity (entity : EntityAddr)
| KP_EntryPointsV2ByEntity (entity : EntityAddr).

Definition key_prefix_length (kp : KeyPrefix) : Z :=
  1 + match kp with
      | KP_DelegatorBidAddrsByValidator validator => 1 + serialized_length validator
      | KP_MessageEntriesByEntity hash_addr => serialized_length hash_addr
      | KP_MessagesByEntityAndTopic hash_addr topic => serialized_length hash_addr + serialized_length topic
      | KP_NamedKeysByEntity entity => serialized_length entity
      | KP_GasBalanceHoldsByPurse uref | KP_ProcessingBalanceHoldsByPurse uref => 1 + serialized_length uref
      | KP_EntryPointsV1ByEntity entity | KP_EntryPointsV2ByEntity entity => 1 + serialized_length entity
      end.
Definition key_prefix_write_bytes (kp : KeyPrefix) (writer : list u8) : result Error (list u8) :=
  match kp with
  | KP_DelegatorBidAddrsByValidator validator => write_bytes validator (writer ++ [KeyTag_to_u8 KT_BidAddr; Byte.x02])
  | KP_MessageEntriesByEntity hash_addr => write_bytes hash_addr (writer ++ [KeyTag_to_u8 KT_Message])
  | KP_MessagesByEntityAndTopic hash_addr topic =>
      writer ← write_bytes hash_addr (writer ++ [KeyTag_to_u8 KT_Message]);
      write_bytes topic writer
  | KP_NamedKeysByEntity entity => write_bytes entity (writer ++ [KeyTag_to_u8 KT_NamedKey])
  | KP_GasBalanceHoldsByPurse uref => write_bytes uref (writer ++ [KeyTag_to_u8 KT_BalanceHold; Byte.x00])
  | KP_ProcessingBalanceHoldsByPurse uref => write_bytes uref (writer ++ [KeyTag_to_u8 KT_BalanceHold; Byte.x01])
  | KP_EntryPointsV1ByEntity entity => write_bytes entity (writer ++ [KeyTag_to_u8 KT_EntryPoint; Byte.x00])
  | KP_EntryPointsV2ByEntity entity => write_bytes entity (writer ++ [KeyTag_to_u8 KT_EntryPoint; Byte.x01])
  end.
Definition key_prefix_to_bytes (kp : KeyPrefix) : result Error (list u8) := key_prefix_write_bytes kp [].
Definition key_prefix_from_bytes (bytes : list u8) : result Error (KeyPrefix * list u8) :=
  '(tag, remainder) ← from_bytes (T:=u8) bytes;
  if decide (tag = KeyTag_to_u8 KT_BidAddr) then
    '(bid_addr_tag, remainder) ← from_bytes (T:=u8) remainder;
    if decide (bid_addr_tag = Byte.x02) then
      '(validator, remainder) ← from_bytes (T:=AccountHash) remainder;
      Ok (KP_DelegatorBidAddrsByValidator validator, remainder)
    else Err Formatting
  else if decide (tag = KeyTag_to_u8 KT_Message) then
    '(hash_addr, remainder) ← from_bytes (T:=EntityAddr) remainder;
    match remainder with
    | [] => Ok (KP_MessageEntriesByEntity hash_addr, remainder)
    | _ =>
        '(topic, remainder) ← from_bytes (T:=TopicNameHash) remainder;
        Ok (KP_MessagesByEntityAndTopic hash_addr topic, remainder)
    end
  else if decide (tag = KeyTag_to_u8 KT_NamedKey) then
    '(entity, remainder) ← from_bytes (T:=EntityAddr) remainder;
    Ok (KP_NamedKeysByEntity entity, remainder)
  else if decide (tag = KeyTag_to_u8 KT_BalanceHold) then
    '(balance_hold_addr_tag, remainder) ← from_bytes (T:=u8) remainder;
    '(uref, remainder) ← from_bytes (T:=URefAddr) remainder;
    match balance_hold_addr_tag with
    | Byte.x00 => Ok (KP_GasBalanceHoldsByPurse uref, remainder)
    | Byte.x01 => Ok (KP_ProcessingBalanceHoldsByPurse uref, remainder)
    | _ => Err Formatting
    end
  else if decide (tag = KeyTag_to_u8 KT_EntryPoint) then
    '(entry_point_type, remainder) ← from_bytes (T:=u8) remainder;
    '(entity, remainder) ← from_bytes (T:=EntityAddr) remainder;
    match entry_point_type with
    | Byte.x00 => Ok (KP_EntryPointsV1ByEntity entity, remainder)
    | Byte.x01 => Ok (KP_EntryPointsV2ByEntity entity, remainder)
    | _ => Err Formatting
    end
  else Err Formatting.

(** ** What the prefixes select *)

Definition selects (kp : KeyPrefix) (k : Key) : Prop :=
  match kp, k with
  | KP_DelegatorBidAddrsByValidator v, Key_BidAddr (BA_DelegatedAccount v' _) => v' = v
  | KP_MessageEntriesByEntity e, Key_Message a => message_entity_addr a = e
  | KP_MessagesByEntityAndTopic e t, Key_Message a => message_entity_addr a = e /\ topic_name_hash a = t
  | KP_NamedKeysByEntity e, Key_NamedKey a => base_addr a = e
  | KP_GasBalanceHoldsByPurse u, Key_BalanceHold (BH_Gas u' _) => u' = u
  | KP_ProcessingBalanceHoldsByPurse u, Key_BalanceHold (BH_Processing u' _) => u' = u
  | KP_EntryPointsV1ByEntity e, Key_EntryPoint (VmCasperV1 e' _) => e' = e
  | _, _ => False
  end.

(** The bytes after the tag: the part a prefix fixes, and the rest. *)
Definition entity_bytes (a : EntityAddr) : list u8 := EntityKindTag_to_u8 (entity_tag a) :: vec_to_list (entity_value a).
Lemma entity_bytes_length a : length (entity_bytes a) = 33%nat.
Proof. cbn. by rewrite length_vec_to_list. Qed.
Lemma entity_bytes_inj a a' : entity_bytes a = entity_bytes a' -> a = a'.
Proof. destruct a, a'; intros [= E%vec_to_list_inj2]; congruence. Qed.
Lemma entity_write a w : write_bytes a w = Ok (w ++ entity_bytes a).
Proof. destruct a; cbn; by rewrite <- app_assoc. Qed.
Definition prefix_bytes (kp : KeyPrefix) : KeyTag * list u8 :=
  match kp with
  | KP_DelegatorBidAddrsByValidator v => (KT_BidAddr, Byte.x02 :: vec_to_list v)
  | KP_MessageEntriesByEntity e => (KT_Message, entity_bytes e)
  | KP_MessagesByEntityAndTopic e t => (KT_Message, entity_bytes e ++ vec_to_list t)
  | KP_NamedKeysByEntity e => (KT_NamedKey, entity_bytes e)
  | KP_GasBalanceHoldsByPurse u => (KT_BalanceHold, Byte.x00 :: vec_to_list u)
  | KP_ProcessingBalanceHoldsByPurse u => (KT_BalanceHold, Byte.x01 :: vec_to_list u)
  | KP_EntryPointsV1ByEntity e => (KT_EntryPoint, Byte.x00 :: entity_bytes e)
  | KP_EntryPointsV2ByEntity e => (KT_EntryPoint, Byte.x01 :: entity_bytes e)
  end.
Lemma key_prefix_bytes kp :
  key_prefix_to_bytes kp = Ok (KeyTag_to_u8 (prefix_bytes kp).1 :: (prefix_bytes kp).2).
Proof. destruct kp as [v|e|e t|e|u|u|e|e]; try done; unfold key_prefix_to_bytes; cbn; by destruct e. Qed.

Lemma named_key_bytes a : to_bytes (Key_NamedKey a) = Ok (KeyTag_to_u8 KT_NamedKey :: entity_bytes (base_addr a) ++ vec_to_list (string_bytes a)).
Proof. by destruct a as [[] s]. Qed.
Lemma entry_point_key_bytes e n : to_bytes (Key_EntryPoint (VmCasperV1 e n)) = Ok (KeyTag_to_u8 KT_EntryPoint :: Byte.x00 :: entity_bytes e ++ vec_to_list n).
Proof. by destruct e. Qed.
Lemma hold_key_bytes a : exists t,
  to_bytes (Key_BalanceHold a) = Ok (KeyTag_to_u8 KT_BalanceHold :: hold_tag a :: vec_to_list (hold_purse_addr a) ++ t).
Proof. destruct a as [u [t]|u [t]]; by eexists. Qed.
Lemma message_key_bytes a b : to_bytes (Key_Message a) = Ok b -> exists t,
  b = KeyTag_to_u8 KT_Message :: entity_bytes (message_entity_addr a) ++ vec_to_list (topic_name_hash a) ++ t.
Proof. destruct a as [[] h [i|]]; cbn; intros [= <-]; eexists; by rewrite <- ?app_assoc. Qed.

Lemma app_prefix_iff {A} (x y r : list A) : length x = length y -> x `prefix_of` y ++ r <-> x = y.
Proof. intros Hl. split; [|intros ->; by apply prefix_app_r]. intros [q E]. by apply app_inj_1 in E as [-> _]. Qed.
Lemma cons_prefix_iff {A} (a b : A) (x y : list A) : a :: x `prefix_of` b :: y <-> b = a /\ x `prefix_of` y.
Proof.
  split; [|intros [-> [r ->]]; by exists r]. intros [r [= -> ->]]. split; [done|by exists r].
Qed.

Lemma and_iff_l (P Q : Prop) : P -> P /\ Q <-> Q.
Proof. tauto. Qed.
(** The keys whose bytes start with a prefix are exactly the keys it selects. *)
Lemma key_prefix_selects kp k b p :
  key_ok k -> to_bytes k = Ok b -> key_prefix_to_bytes kp = Ok p -> p `prefix_of` b <-> selects kp k.
Proof.
  intros Hk Hb Hp. rewrite key_prefix_bytes in Hp. injection Hp as <-.
  destruct (key_bytes k Hk) as (q & Hq & _). rewrite Hq in Hb. injection Hb as <-. rewrite cons_prefix_iff.
  assert (KeyTag_to_u8 (key_tag k) = KeyTag_to_u8 (prefix_bytes kp).1 <-> key_tag k = (prefix_bytes kp).1) as ->
    by (split; [apply KeyTag_to_u8_inj|congruence]).
  destruct (decide (key_tag k = (prefix_bytes kp).1)) as [Et|Et].
  2: { split; [by intros []|]. intros Hs. exfalso. apply Et. destruct kp, k as [ | | | | | | | | | | | | | | |a| | | | | | |a|a| | ]; try done; by destruct a. }
  rewrite (and_iff_l _ _ Et).
  destruct kp as [v|e|e t|e|u|u|e|e], k as [ | | | | | | | | | | | | | | |a| | | |a|a| |a|[e' n]| | ];
    try discriminate Et; cbn [prefix_bytes snd selects].
  - rewrite bid_key_bytes in Hq. injection Hq as <-. rewrite cons_prefix_iff, app_prefix_iff by (by rewrite !length_vec_to_list).
    destruct a; cbn; (split; [intros [Ht Hv]; try discriminate Ht; symmetry; by apply vec_to_list_inj2|]); try done. by intros ->.
  - apply message_key_bytes in Hq as [r E%(f_equal tail)]. cbn [tail] in E. subst q. rewrite app_prefix_iff by (by rewrite !entity_bytes_length).
    split; [intros E; symmetry; by apply entity_bytes_inj|by intros ->].
  - apply message_key_bytes in Hq as [r E%(f_equal tail)]. cbn [tail] in E. subst q. rewrite app_assoc, app_prefix_iff
      by (rewrite !length_app, !entity_bytes_length; by rewrite !length_vec_to_list).
    split; [|by intros [-> ->]]. intros [E1%entity_bytes_inj E2%vec_to_list_inj2]%app_inj_1; [by subst|by rewrite !entity_bytes_length].
  - rewrite named_key_bytes in Hq. injection Hq as E. change (entity_bytes (base_addr a) ++ vec_to_list (string_bytes a) = q) in E. subst q. rewrite app_prefix_iff by (by rewrite !entity_bytes_length).
    split; [intros E; symmetry; by apply entity_bytes_inj|by intros ->].
  - destruct (hold_key_bytes a) as [r Er]. rewrite Er in Hq. injection Hq as <-.
    rewrite cons_prefix_iff, app_prefix_iff by (by rewrite !length_vec_to_list).
    destruct a; cbn; (split; [intros [Ht Hv]; try discriminate Ht; symmetry; by apply vec_to_list_inj2|]); try done. by intros ->.
  - destruct (hold_key_bytes a) as [r Er]. rewrite Er in Hq. injection Hq as <-.
    rewrite cons_prefix_iff, app_prefix_iff by (by rewrite !length_vec_to_list).
    destruct a; cbn; (split; [intros [Ht Hv]; try discriminate Ht; symmetry; by apply vec_to_list_inj2|]); try done. by intros ->.
  - rewrite entry_point_key_bytes in Hq. injection Hq as E. change (Byte.x00 :: entity_bytes e' ++ vec_to_list n = q) in E. subst q. rewrite cons_prefix_iff, app_prefix_iff by (by rewrite !entity_bytes_length).
    split; [intros [_ E]; symmetry; by apply entity_bytes_inj|by intros ->].
  - rewrite entry_point_key_bytes in Hq. injection Hq as <-. rewrite cons_prefix_iff. split; [by intros [[=] _]|done].
Qed.

(** C33: listing by prefix finds exactly what it is meant to find: the keys whose
    serialization starts with a [KeyPrefix] are the keys of its kind for its entity,
    purse, topic or validator (for a validator, its delegations by accounts and not those
    by purses), and those that start with a prefix made from a bid
    address are the delegations or reservations of its validator. *)
Theorem prefixes_select_exactly k b :
  key_ok k -> to_bytes k = Ok b ->
  (forall kp p, key_prefix_to_bytes kp = Ok p -> p `prefix_of` b <-> selects kp k) /\
  forall a, let v := validator_account_hash a in
  (forall p, delegated_account_prefix a = Ok p -> p `prefix_of` b <-> exists d, k = Key_BidAddr (BA_DelegatedAccount v d)) /\
  (forall p, delegated_purse_prefix a = Ok p -> p `prefix_of` b <-> exists d, k = Key_BidAddr (BA_DelegatedPurse v d)) /\
  (forall p, reserved_account_prefix a = Ok p -> p `prefix_of` b <-> exists d, k = Key_BidAddr (BA_ReservedDelegationAccount v d)) /\
  (forall p, reserved_purse_prefix a = Ok p -> p `prefix_of` b <-> exists d, k = Key_BidAddr (BA_ReservedDelegationPurse v d)).
Proof.
  intros Hk Hb. split; [intros kp p; by apply key_prefix_selects|]. intros a v.
  split_and!; intros p Hp; rewrite (bid_prefix_spec _ a k b p Hk Hb Hp);
    (split; [intros ([] & -> & Ht & Hv); try discriminate Ht; cbn in Hv; subst; by eexists|intros [d ->]; by eexists]).
Qed.

Lemma prefixes_select_exactly_witness :
  exists p b, key_prefix_to_bytes (KP_GasBalanceHoldsByPurse zeros) = Ok p /\ to_bytes purse_hold = Ok b /\ p `prefix_of` b.
Proof.
  eexists _, _. split; [vm_compute; reflexivity|]. split; [vm_compute; reflexivity|].
  edestruct (prefixes_select_exactly purse_hold) as (H & _); [vm_compute; split; congruence|vm_compute; reflexivity|].
  apply (H (KP_GasBalanceHoldsByPurse zeros)); [vm_compute; reflexivity|reflexivity].
Defined.
