(* ===== verification/Query.v ===== *)
(** * Queries of the global state and the validation of their proofs

    Models [TrackingCopy::query] and [validate_query_proof],
    [validate_query_merkle_proof] and [validate_balance_proof] of
    [storage/src/tracking_copy/mod.rs], and the values of dictionaries
    ([types/src/cl_value/dictionary.rs]).  A query follows named keys from value to
    value and collects a Merkle proof of each; who trusts only a state root can
    validate the answer. *)
From S2P Require Import Prelude BTree Bytesrepr Struct Digest Uint Access CLType Account Key Trie TrieOps.
From S2P Require Import TrieRep TrieRead TrieZip TrieWrite TrieProof Transform GlobalState KeyState.

Open Scope Z_scope.

(** ** Values that wrap others *)

(** [NamedKeyValue] *)
Record NamedKeyValue : Type := mkNamedKeyValue { named_key : CLValue; name : CLValue }.
#[global] Instance NamedKeyValue_bytesrepr : Bytesrepr NamedKeyValue :=
  append_as [field CLValue; field CLValue] (fun x => (named_key x, (name x, tt))) (fun '(k, (n, _)) => mkNamedKeyValue k n).
#[global] Instance NamedKeyValue_spec : BytesreprSpec NamedKeyValue NamedKeyValue_bytesrepr.
Proof. apply append_as_spec; [apply _|by intros []|by intros (? & ? & [])]. Defined.
Definition named_key_value_from (named_key : Key) (name : RString) : result CLValueError NamedKeyValue :=
  key_cl_value ← from_t (H0 := CL_Key) named_key;
  string_cl_value ← from_t (H0 := CL_String) name;
  Ok (mkNamedKeyValue key_cl_value string_cl_value).
Definition get_key (v : NamedKeyValue) : result CLValueError Key := into_t (H0 := CL_Key) (named_key v).
Definition get_name (v : NamedKeyValue) : result CLValueError RString := into_t (H0 := CL_String) (name v).

(** [DictionaryValue] *)
Record DictionaryValue : Type := mkDictionaryValue {
  dictionary_cl_value : CLValue; seed_uref_addr : Bytes; dictionary_item_key_bytes : Bytes
}.
#[global] Instance DictionaryValue_bytesrepr : Bytesrepr DictionaryValue :=
  mixed_as [field CLValue; field Bytes; field Bytes] (fun x => (dictionary_cl_value x, (seed_uref_addr x, (dictionary_item_key_bytes x, tt))))
    (fun '(v, (u, (k, _))) => mkDictionaryValue v u k).
#[global] Instance DictionaryValue_spec : BytesreprSpec DictionaryValue DictionaryValue_bytesrepr.
Proof. apply mixed_as_spec; [apply _|by intros []|by intros (? & ? & ? & [])]. Defined.

(** ** Queries *)

Section query.
Context (blake2b : list u8 -> Digest) {TF : TreeFold1} (CHUNK_SIZE_BYTES : nat).
Context (payload : StoredValueTag -> Type).
Context {DB : Bytesrepr (payload T_BidKind)} {DP : Bytesrepr (payload T_ContractPackage)}.
(** A stored named key is a [NamedKeyValue]. *)
Context (as_named_key : payload T_NamedKey -> NamedKeyValue).
Abbreviation V := (StoredValue (K:=Key) payload).
Context {DV : Bytesrepr V} `{EqDecision V}.
Abbreviation proof_of := (TrieMerkleProof Key V).

Definition handle_stored_dictionary_value (key : Key) (stored_value : V) : result CLValueError V :=
  match key, stored_value with
  | Key_Dictionary _, SV_CLValue _ cl_value =>
      wrapped_cl_value ← into_t (T := DictionaryValue) (H0 := CL_Any) cl_value;
      Ok (SV_CLValue payload (dictionary_cl_value wrapped_cl_value))
  | _, stored_value => Ok stored_value
  end.

(** [TrackingCopyQueryResult]: of a message, the base key and the names visited. *)
Inductive QueryResult : Type :=
| QR_ValueNotFound (base_key : Key) (visited_names : list RString)
| QR_CircularReference (current_key base_key : Key) (visited_names : list RString)
| QR_DepthLimit (depth : Z)
| QR_Success (value : V) (proofs : list proof_of).

Record Query : Type := mkQuery {
  base_key : Key;
  visited_keys : gset Key;
  current_key : Key;
  unvisited_names : list RString;
  visited_names : list RString;
  depth : Z
}.
Definition query_new (base_key : Key) (path : list RString) : Query :=
  mkQuery base_key ∅ (normalize base_key) path [] 0.
Definition next_name (q : Query) : option (RString * Query) :=
  match unvisited_names q with
  | [] => None
  | n :: names => Some (n, mkQuery (base_key q) (visited_keys q) (current_key q) names (visited_names q ++ [n]) (depth q))
  end.
Definition navigate (q : Query) (key : Key) : Query :=
  mkQuery (base_key q) (visited_keys q) (normalize key) (unvisited_names q) (visited_names q) (depth q + 1).
Definition navigate_for_named_key (q : Query) (named_key : Key) : Query :=
  match named_key with
  | Key_NamedKey _ =>
      mkQuery (base_key q) (visited_keys q) (normalize named_key) (unvisited_names q) (visited_names q) (depth q)
  | _ => q
  end.
Definition visit (q : Query) : Query :=
  mkQuery (base_key q) ({[ current_key q ]} ∪ visited_keys q) (current_key q) (unvisited_names q) (visited_names q) (depth q).
Definition not_found (q : Query) : QueryResult := QR_ValueNotFound (base_key q) (visited_names q).

(** The [match] on the stored value: where the query goes on, or its result. *)
Definition follow_name (q : Query) (named_keys : list (RString * Key)) : QueryResult + Query :=
  match next_name q with
  | None => inl (not_found q)
  | Some (n, q) =>
      match btree_get n named_keys with
      | Some key => inr (navigate q key)
      | None => inl (not_found q)
      end
  end.
Definition query_follow (path : list RString) (q : Query) (stored_value value : V) (proofs : list proof_of) :
    result Error (QueryResult + Query) :=
  match stored_value with
  | SV_Account _ account => Ok (follow_name q (account_named_keys payload account))
  | SV_Contract _ contract => Ok (follow_name q (contract_named_keys payload contract))
  | SV_AddressableEntity _ _ =>
      match next_name q with
      | None => Ok (inl (not_found q))
      | Some (n, q') =>
          match current_key q with
          | Key_AddressableEntity addr =>
              match named_key_from_string blake2b addr n with
              | Ok named_key_addr => Ok (inr (navigate_for_named_key q' (Key_NamedKey named_key_addr)))
              | Err _ => Ok (inl (not_found q'))
              | Panic => Panic
              | Diverge => Diverge
              end
          | _ => Ok (inl (not_found q'))
          end
      end
  | SV_NamedKey _ named_key_value =>
      match last (visited_names q) with
      | Some expected_name =>
          match get_name (as_named_key named_key_value) with
          | Ok actual_name =>
              if decide (actual_name = expected_name) then
                match get_key (as_named_key named_key_value) with
                | Ok key => Ok (inr (navigate q key))
                | Err _ => Ok (inl (not_found q))
                | Panic => Panic
                | Diverge => Diverge
                end
              else Ok (inl (not_found q))
          | Err _ => Ok (inl (not_found q))
          | Panic => Panic
          | Diverge => Diverge
          end
      | None => Ok (inl (match path with [] => QR_Success value proofs | _ => not_found q end))
      end
  | SV_CLValue _ cl_value =>
      if decide (value_type cl_value = CL_Key) then
        match into_t (T := Key) (H0 := CL_Key) cl_value with
        | Ok key => Ok (inr (navigate q key))
        | Err _ => Ok (inl (not_found q))
        | Panic => Panic
        | Diverge => Diverge
        end
      else Ok (inl (not_found q))
  | _ => Ok (inl (not_found q))
  end.
(** One round of the loop. *)
Definition query_step (read_with_proof : Key -> result Error (option proof_of)) (max_query_depth : Z)
    (path : list RString) (q : Query) (proofs : list proof_of) :
    result Error (QueryResult + Query * list proof_of) :=
  if max_query_depth <=? depth q then Ok (inl (QR_DepthLimit (depth q)))
  else if decide (current_key q ∈ visited_keys q) then
    Ok (inl (QR_CircularReference (current_key q) (base_key q) (visited_names q)))
  else
    let q := visit q in
    stored_value ← read_with_proof (current_key q);
    match stored_value with
    | None => Ok (inl (not_found q))
    | Some stored_value =>
        match handle_stored_dictionary_value (current_key q) (proof_value stored_value) with
        | Err _ => Ok (inl (not_found q))
        | Panic => Panic
        | Diverge => Diverge
        | Ok value =>
            let proofs := proofs ++ [stored_value] in
            match unvisited_names q, is_named_key (current_key q) with
            | [], false => Ok (inl (QR_Success value proofs))
            | _, _ =>
                next ← query_follow path q (proof_value stored_value) value proofs;
                match next with
                | inl r => Ok (inl r)
                | inr q => Ok (inr (q, proofs))
                end
            end
        end
    end.
Fixpoint query_loop (fuel : nat) (read_with_proof : Key -> result Error (option proof_of)) (max_query_depth : Z)
    (path : list RString) (q : Query) (proofs : list proof_of) : result Error QueryResult :=
  match fuel with
  | O => Diverge
  | S fuel =>
      next ← query_step read_with_proof max_query_depth path q proofs;
      match next with
      | inl r => Ok r
      | inr (q, proofs) => query_loop fuel read_with_proof max_query_depth path q proofs
      end
  end.
(** At most two rounds end without another unit of depth. *)
Definition query (read_with_proof : Key -> result Error (option proof_of)) (max_query_depth : Z)
    (base_key : Key) (path : list RString) : result Error QueryResult :=
  query_loop (2 * Z.to_nat max_query_depth + 2) read_with_proof max_query_depth path (query_new base_key path) [].

(** [LmdbGlobalStateView::read_with_proof] *)
Definition view_read_with_proof (s : store) (root_hash : Digest) (key : Key) : result Error (option proof_of) :=
  r ← read_with_proof s root_hash key;
  match r with
  | Found proof => Ok (Some proof)
  | NotFound => Ok None
  | RootNotFound => Panic
  end.

(** ** Validation *)

Inductive ValidationError : Type :=
| PathLengthDifferentThanProofLessOne
| UnexpectedKey
| UnexpectedValue
| InvalidProofHash
| PathCold
| VE_BytesRepr (e : Error)
| KeyIsNotAURef (key : Key)
| ValueToCLValueConversion
| VE_CLValueError (e : CLValueError).

Definition check_proof (hash : Digest) (expected_key : Key) (proof : proof_of) : result ValidationError unit :=
  if decide (proof_key proof = normalize expected_key) then
    h ← map_err VE_BytesRepr (compute_state_hash blake2b CHUNK_SIZE_BYTES proof);
    if decide (hash = h) then Ok tt else Err InvalidProofHash
  else Err UnexpectedKey.
Definition value_named_keys (v : V) : option (list (RString * Key)) :=
  match v with
  | SV_Account _ account => Some (account_named_keys payload account)
  | SV_Contract _ contract => Some (contract_named_keys payload contract)
  | _ => None
  end.
(** The loop of [validate_query_proof]; returns the last proof's value. *)
Fixpoint validate_loop (hash : Digest) (proof_value : V) (proofs : list proof_of) (path : list RString) :
    result ValidationError V :=
  match proofs with
  | [] => Ok proof_value
  | proof :: proofs =>
      match value_named_keys proof_value, path with
      | Some named_keys, path_component :: path =>
          match btree_get path_component named_keys with
          | Some key => _ ← check_proof hash key proof; validate_loop hash (Trie.proof_value proof) proofs path
          | None => Err PathCold
          end
      | _, _ => Err PathCold
      end
  end.
Definition validate_query_proof (hash : Digest) (proofs : list proof_of) (expected_first_key : Key)
    (path : list RString) (expected_value : V) : result ValidationError unit :=
  if decide (length proofs = length path + 1)%nat then
    match proofs with
    | [] => Err PathLengthDifferentThanProofLessOne
    | first_proof :: proofs =>
        _ ← check_proof hash expected_first_key first_proof;
        value ← validate_loop hash (proof_value first_proof) proofs path;
        if decide (value = expected_value) then Ok tt else Err UnexpectedValue
    end
  else Err PathLengthDifferentThanProofLessOne.

(** [proofs\[expected_len - 1\]] panics when the trace is empty. *)
Definition validate_query_merkle_proof (hash : Digest) (proofs : list proof_of) (expected_key_trace : list Key)
    (expected_value : V) : result ValidationError unit :=
  if decide (length proofs = length expected_key_trace) then
    if decide (expected_key_trace = proof_key <$> proofs) then
      match last proofs, proofs with
      | Some last_proof, first_proof :: _ =>
          if decide (expected_value = proof_value last_proof) then
            h ← map_err VE_BytesRepr (compute_state_hash blake2b CHUNK_SIZE_BYTES first_proof);
            if decide (hash = h) then Ok tt else Err InvalidProofHash
          else Err UnexpectedValue
      | _, _ => Panic
      end
    else Err UnexpectedKey
  else Err PathLengthDifferentThanProofLessOne.

Definition validate_balance_proof (hash : Digest) (balance_proof : proof_of) (expected_purse_key : Key)
    (expected_motes : Z) : result ValidationError unit :=
  match into_uref expected_purse_key with
  | None => Err (KeyIsNotAURef expected_purse_key)
  | Some uref =>
      _ ← check_proof hash (Key_Balance (addr uref)) balance_proof;
      match CLValue_try_from payload (proof_value balance_proof) with
      | Ok balance_proof_clvalue =>
          balance_motes ← map_err VE_CLValueError (into_t (H := num_repr U512) (H0 := num_cl_type U512) balance_proof_clvalue);
          if decide (expected_motes = balance_motes) then Ok tt else Err UnexpectedValue
      | Err _ => Err ValueToCLValueConversion
      | Panic => Panic
      | Diverge => Diverge
      end
  end.
End query.

(** ** Correctness *)

Section correctness.
Context (blake2b : list u8 -> Digest) {TF : TreeFold1} (CHUNK_SIZE_BYTES : nat).
Context (payload : StoredValueTag -> Type).
Context {DB : Bytesrepr (payload T_BidKind)} {DP : Bytesrepr (payload T_ContractPackage)}.
Context (as_named_key : payload T_NamedKey -> NamedKeyValue).
Abbreviation V := (StoredValue (K:=Key) payload).
Context {DV : Bytesrepr V} {SV : BytesreprSpec V DV} `{EqDecision V}.
Abbreviation proof_of := (TrieMerkleProof Key V).
Abbreviation query := (query blake2b payload as_named_key).
Abbreviation query_loop := (query_loop blake2b payload as_named_key).
Abbreviation query_step := (query_step blake2b payload as_named_key).
Abbreviation check_proof := (check_proof blake2b CHUNK_SIZE_BYTES payload).
Abbreviation validate_loop := (validate_loop blake2b CHUNK_SIZE_BYTES payload).
Abbreviation validate_query_proof := (validate_query_proof blake2b CHUNK_SIZE_BYTES payload).
Abbreviation validate_balance_proof := (validate_balance_proof blake2b CHUNK_SIZE_BYTES payload).
Abbreviation root_rep := (root_rep CHUNK_SIZE_BYTES (K:=Key) (V:=V)).
Abbreviation content_addressed := (content_addressed blake2b CHUNK_SIZE_BYTES).
Implicit Types (M : gmap Key V) (q : Query).

(** What a path of names means from a key on: the keys passed and the value found. *)
Fixpoint resolve M (key : Key) (path : list RString) : option (list Key * V) :=
  match M !! normalize key, path with
  | None, _ => None
  | Some v, [] => Some ([normalize key], v)
  | Some v, n :: path =>
      match value_named_keys payload v with
      | Some named_keys =>
          match btree_get n named_keys with
          | Some key' =>
              match resolve M key' path with
              | Some (keys, v') => Some (normalize key :: keys, v')
              | None => None
              end
          | None => None
          end
      | None => None
      end
  end.
(** A key whose value a query returns as it is stored. *)
Definition plain_key (key : Key) : Prop := is_dictionary_key key = false /\ is_named_key key = false.

(** *** Every query ends *)

Lemma into_t_no_panic {T} {D : Bytesrepr T} {ST : BytesreprSpec T D} {C : CLTyped T} (v : CLValue) : no_panic (into_t (T := T) v).
Proof.
  unfold into_t. case_decide; [|done]. unfold deserialize_from_slice.
  pose proof (spec_no_panic (T := T) (inner_bytes (value_bytes v))) as Hn.
  destruct (from_bytes (T := T) (inner_bytes (value_bytes v))) as [[t r]| | |]; cbn in *; [by destruct r|done..].
Qed.
Lemma named_key_from_string_no_panic addr n : no_panic (named_key_from_string blake2b addr n).
Proof. unfold named_key_from_string. cbn. unfold u8_slice_to_bytes, length_u32. by case_match. Qed.

(** Depth left, and whether the next round may stay at the same depth. *)
Definition rounds_left (max_query_depth : Z) q : Z :=
  2 * (max_query_depth - depth q) + match current_key q with Key_AddressableEntity _ => 1 | _ => 0 end.

Lemma follow_name_next q named_keys q' :
  follow_name payload q named_keys = inr q' -> exists key, q' = navigate (match next_name q with Some (_, q1) => q1 | None => q end) key.
Proof. unfold follow_name. repeat case_match; intros [= <-]; eauto. Qed.
Lemma next_name_same q n q' : next_name q = Some (n, q') -> depth q' = depth q /\ current_key q' = current_key q.
Proof. unfold next_name. by case_match; intros [= <- <-]. Qed.
Lemma navigate_rounds max q key : rounds_left max (navigate q key) <= 2 * (max - depth q) - 1.
Proof. unfold rounds_left. cbn. case_match; lia. Qed.
Lemma query_follow_rounds path q (sv value : V) proofs q' max :
  query_follow blake2b payload as_named_key path q sv value proofs = Ok (inr q') -> rounds_left max q' < rounds_left max q.
Proof.
  assert (forall q1 key, depth q1 = depth q -> rounds_left max (navigate q1 key) < rounds_left max q) as Hnav.
  { intros q1 key E. pose proof (navigate_rounds max q1 key). unfold rounds_left at 2. case_match; lia. }
  assert (forall nk, follow_name payload q nk = inr q' -> rounds_left max q' < rounds_left max q) as Hf.
  { intros nk [key ->]%follow_name_next. destruct (next_name q) as [[n q1]|] eqn:E; apply Hnav; [|done]. by apply next_name_same in E as [? _]. }
  unfold query_follow. destruct sv; try done.
  - repeat case_match; intros [= <-]. by apply Hnav.
  - intros [= E]. by apply (Hf _ E).
  - intros [= E]. by apply (Hf _ E).
  - destruct (next_name q) as [[n q1]|] eqn:E; [|done]. apply next_name_same in E as [Ed _].
    destruct (current_key q) eqn:Ek; try done. case_match; intros [= <-]. unfold rounds_left. rewrite Ek. cbn. lia.
  - repeat case_match; intros [= <-]. by apply Hnav.
Qed.
Lemma query_follow_no_panic path q (sv value : V) proofs :
  no_panic (query_follow blake2b payload as_named_key path q sv value proofs).
Proof.
  unfold query_follow. destruct sv; try done.
  - case_decide; [|done]. by pose proof (into_t_no_panic (T := Key) (ST := Key_spec) (C := CL_Key) v) as Hn; destruct (into_t _).
  - destruct (next_name q) as [[n q1]|]; [|done]. destruct (current_key q); try done.
    pose proof (named_key_from_string_no_panic entity_addr n) as Hn. by destruct (named_key_from_string _ _ _).
  - destruct (last _) as [n|]; [|done]. unfold get_name, get_key.
    pose proof (into_t_no_panic (T := RString) (C := CL_String) (name (as_named_key p))) as Hn.
    pose proof (into_t_no_panic (T := Key) (ST := Key_spec) (C := CL_Key) (named_key (as_named_key p))) as Hn'.
    destruct (into_t (name _)); try done. case_decide; [|done]. by destruct (into_t (named_key _)).
Qed.

Lemma dictionary_no_panic key (sv : V) : no_panic (handle_stored_dictionary_value payload key sv).
Proof.
  unfold handle_stored_dictionary_value. destruct key, sv; try done.
  apply no_panic_bind; [apply into_t_no_panic|done].
Qed.
Lemma query_step_ok read max path q proofs :
  (forall key, no_panic (read key)) ->
  no_panic (query_step read max path q proofs) /\
  forall q' proofs', query_step read max path q proofs = Ok (inr (q', proofs')) ->
    depth q < max /\ rounds_left max q' < rounds_left max q.
Proof.
  intros Hread. unfold Query.query_step. destruct (Z.leb_spec max (depth q)); [done|]. case_decide; [done|].
  specialize (Hread (current_key (visit q))).
  destruct (read (current_key (visit q))) as [[sv|]| | |]; cbn [mbind result_bind]; try done.
  pose proof (dictionary_no_panic (current_key (visit q)) (proof_value sv)) as Hd.
  destruct (handle_stored_dictionary_value _ _ _) as [value| | |]; try done.
  pose proof (query_follow_no_panic path (visit q) (proof_value sv) value (proofs ++ [sv])) as Hp.
  assert (forall q', query_follow blake2b payload as_named_key path (visit q) (proof_value sv) value (proofs ++ [sv]) = Ok (inr q') ->
    rounds_left max q' < rounds_left max q) as Hr.
  { intros q' E. exact (query_follow_rounds path (visit q) _ _ _ q' max E). }
  set (next := query_follow _ _ _ _ _ _ _ _) in *. clearbody next.
  destruct (unvisited_names (visit q)), (is_named_key (current_key (visit q))); try done;
    (destruct next as [[res|q1]| | |]; cbn; try done; split; [done|]; intros q' proofs' [= <- <-]; split; [lia|by apply Hr]).
Qed.
(** Whatever the state, and whatever cycles it has, a query ends. *)
Lemma query_ends read max base_key path :
  (forall key, no_panic (read key)) -> no_panic (query read max base_key path).
Proof.
  intros Hread. unfold Query.query.
  assert (forall fuel q proofs, (0 < fuel)%nat -> rounds_left max q < Z.of_nat fuel ->
    no_panic (query_loop fuel read max path q proofs)) as Hloop.
  { induction fuel as [|fuel IH]; intros q proofs Hpos Hf; [lia|]. cbn [Query.query_loop].
    destruct (query_step_ok read max path q proofs Hread) as [Hn Hr].
    destruct (query_step read max path q proofs) as [[r|[q' proofs']]| | |]; cbn; try done.
    destruct (Hr q' proofs' eq_refl) as [Hd Hlt].
    assert (2 <= rounds_left max q) by (unfold rounds_left; case_match; lia). apply IH; lia. }
  apply Hloop; [lia|]. unfold rounds_left. cbn. case_match; lia.
Qed.

(** *** Queries find what paths mean, with valid proofs *)

Lemma normalize_idem k : normalize (normalize k) = normalize k.
Proof. by destruct k. Qed.
Lemma view_read_found s M root k v :
  NODE_MAX_LENGTH <= Z.of_nat CHUNK_SIZE_BYTES -> content_addressed s -> root_rep s M root -> M !! k = Some v ->
  exists proof, view_read_with_proof payload s root k = Ok (Some proof) /\ proof_key proof = k /\ proof_value proof = v /\
    compute_state_hash blake2b CHUNK_SIZE_BYTES proof = Ok root.
Proof.
  intros Hchunk Hca Hroot Hk. destruct Hroot as [Hkeys Hr]. destruct (Hkeys k v Hk) as (_ & p & Hp).
  pose proof (read_with_proof_rep blake2b CHUNK_SIZE_BYTES Hchunk s M root k p Hca (conj Hkeys Hr) Hp) as H.
  rewrite Hk in H. destruct H as (proof & E & H); [left; by eexists|]. exists proof. unfold view_read_with_proof. by rewrite E.
Qed.
Lemma check_proof_ok root key (proof : proof_of) :
  check_proof root key proof = Ok tt <->
  proof_key proof = normalize key /\ compute_state_hash blake2b CHUNK_SIZE_BYTES proof = Ok root.
Proof.
  unfold Query.check_proof. case_decide as E; [|split; [done|by intros []]].
  destruct (compute_state_hash _ _ _) as [h| | |]; cbn; [|by split; [|intros []]..].
  case_decide as Eh; [by subst|]. split; [done|]. intros [_ [= ->]]. done.
Qed.
Lemma named_value_unwrapped key (v : V) nk :
  value_named_keys payload v = Some nk -> handle_stored_dictionary_value payload key v = Ok v.
Proof. by destruct key, v. Qed.
Lemma query_follow_named path q (v value : V) proofs nk :
  value_named_keys payload v = Some nk -> query_follow blake2b payload as_named_key path q v value proofs = Ok (follow_name payload q nk).
Proof. by destruct v; intros [= <-]. Qed.

Lemma query_loop_resolves s M root max path0 path :
  NODE_MAX_LENGTH <= Z.of_nat CHUNK_SIZE_BYTES -> content_addressed s -> root_rep s M root ->
  forall fuel q acc key keys v,
  resolve M key path = Some (keys, v) -> current_key q = normalize key -> unvisited_names q = path ->
  NoDup keys -> (forall k, k ∈ keys -> k ∉ visited_keys q) -> depth q + Z.of_nat (length path) < max ->
  from_option plain_key True (last keys) -> (length path < fuel)%nat ->
  exists first rest,
    query_loop fuel (view_read_with_proof payload s root) max path0 q acc = Ok (QR_Success payload v (acc ++ first :: rest)) /\
    length rest = length path /\ check_proof root key first = Ok tt /\ validate_loop root (proof_value first) rest path = Ok v.
Proof.
  intros Hchunk Hca Hroot. induction path as [|n path IH]; intros [|fuel] q acc key keys v Hres Ecur Eun Hnd Hvis Hdep Hlast Hfuel;
    [cbn in Hfuel; lia| |cbn in Hfuel; lia|]; cbn [resolve] in Hres;
    destruct (M !! normalize key) as [v0|] eqn:Ek; try done;
    destruct (view_read_found s M root (normalize key) v0 Hchunk Hca Hroot Ek) as (proof & Eread & Epk & Epv & Eh);
    assert (check_proof root key proof = Ok tt) as Hcheck by (by apply check_proof_ok);
    cbn [Query.query_loop]; unfold Query.query_step at 1;
    destruct (Z.leb_spec max (depth q)); [cbn in Hdep; lia| |cbn in Hdep; lia|];
    (rewrite decide_False by (rewrite Ecur; apply Hvis; repeat case_match; simplify_eq/=; apply elem_of_cons; by left));
    change (current_key (visit q)) with (current_key q); change (unvisited_names (visit q)) with (unvisited_names q);
    rewrite Ecur, Eread, Eun; cbn [mbind result_bind]; rewrite Epv.
  - injection Hres as <- <-. cbn in Hlast. destruct Hlast as [Hd Hn]. rewrite Hn.
    assert (handle_stored_dictionary_value payload (normalize key) v0 = Ok v0) as -> by (by destruct (normalize key)).
    exists proof, []. cbn. by rewrite Epv.
  - destruct (value_named_keys payload v0) as [nk|] eqn:Enk; [|done].
    destruct (btree_get n nk) as [key'|] eqn:Eg; [|done].
    destruct (resolve M key' path) as [[keys' v']|] eqn:Er; [|done]. injection Hres as <- <-.
    rewrite (named_value_unwrapped _ _ _ Enk), (query_follow_named _ _ _ _ _ _ Enk).
    unfold follow_name, next_name. cbn [unvisited_names visit]. rewrite Eun, Eg. cbn [mbind result_bind].
    apply NoDup_cons in Hnd as [Hnin Hnd].
    match goal with |- context [navigate ?q1 key'] => set (q' := navigate q1 key') end.
    destruct (IH fuel q' (acc ++ [proof]) key' keys' v' Er eq_refl eq_refl Hnd) as (first & rest & E & Hl & Hc & Hv).
    5: { exists proof, (first :: rest). split; [|split; [|split; [done|]]].
         - etrans; [exact E|]. by rewrite <- app_assoc.
         - cbn. by rewrite Hl.
         - cbn [Query.validate_loop]. rewrite Epv, Enk, Eg, Hc. cbn. exact Hv. }
    + intros k Hk. cbn. rewrite Ecur. intros [->%elem_of_singleton|Hin]%elem_of_union; [done|].
      apply (Hvis k); [apply elem_of_cons; by right|done].
    + cbn. cbn in Hdep. lia.
    + destruct keys' as [|k1 keys']; [done|exact Hlast].
    + cbn in Hfuel. lia.
Qed.

(** C13: a query finds what a path of names through accounts and contracts leads to,
    as long as no key is passed twice, the path is shorter than the depth limit and
    the last key is not one of a dictionary or a named key; the proofs it returns
    with the value convince [validate_query_proof] of it under the same state root. *)
Theorem query_answers_validate s M root max base_key path keys v :
  NODE_MAX_LENGTH <= Z.of_nat CHUNK_SIZE_BYTES -> content_addressed s -> root_rep s M root ->
  resolve M base_key path = Some (keys, v) -> NoDup keys -> Z.of_nat (length path) < max ->
  from_option plain_key True (last keys) ->
  exists proofs, query (view_read_with_proof payload s root) max base_key path = Ok (QR_Success payload v proofs) /\
    validate_query_proof root proofs base_key path v = Ok tt.
Proof.
  intros Hchunk Hca Hroot Hres Hnd Hmax Hlast. unfold Query.query.
  destruct (query_loop_resolves s M root max path path Hchunk Hca Hroot (2 * Z.to_nat max + 2)%nat
    (query_new base_key path) [] base_key keys v Hres eq_refl eq_refl Hnd) as (first & rest & E & Hl & Hc & Hv);
    [by intros k _ ?%not_elem_of_empty|done|done|lia|].
  exists (first :: rest). split; [exact E|]. unfold Query.validate_query_proof. rewrite decide_True by (cbn; lia).
  rewrite Hc. cbn. rewrite Hv. cbn. by rewrite decide_True.
Qed.

(** A proof that can be relied on: what it hashes does not collide with what is
    stored. *)
Definition reliable s (proof : proof_of) : Prop :=
  proof_no_clash blake2b CHUNK_SIZE_BYTES s proof /\ key_ok (proof_key proof) /\ representable (proof_value proof).
Lemma check_proof_sound s M root key (proof : proof_of) :
  content_addressed s -> root_rep s M root -> reliable s proof -> check_proof root key proof = Ok tt ->
  M !! normalize key = Some (proof_value proof).
Proof.
  intros Hca Hroot (Hnc & Hk & Hv) [<- E]%check_proof_ok.
  exact (proof_sound_rep blake2b CHUNK_SIZE_BYTES (SK := Key_spec) s M root proof Hca Hroot Hnc Hk Hv E).
Qed.
Lemma validate_loop_sound s M root path :
  content_addressed s -> root_rep s M root ->
  forall (first : proof_of) rest key v, Forall (reliable s) (first :: rest) -> length rest = length path ->
  check_proof root key first = Ok tt -> validate_loop root (proof_value first) rest path = Ok v ->
  exists keys, resolve M key path = Some (keys, v).
Proof.
  intros Hca Hroot. induction path as [|n path IH]; intros first rest key v [Hf Hr]%Forall_cons_1 Hl Hc Hv;
    pose proof (check_proof_sound s M root key first Hca Hroot Hf Hc) as Ek; cbn [resolve]; rewrite Ek.
  - destruct rest; [|done]. injection Hv as <-. by eexists.
  - destruct rest as [|second rest]; [done|]. cbn [Query.validate_loop] in Hv.
    destruct (value_named_keys payload (proof_value first)) as [nk|]; [|done].
    destruct (btree_get n nk) as [key'|]; [|done]. apply bind_Ok in Hv as ([] & Hc' & Hv).
    destruct (IH second rest key' v Hr ltac:(cbn in Hl; lia) Hc' Hv) as [keys ->]. by eexists.
Qed.

(** C9: a validated answer is true: if [validate_query_proof] accepts proofs for a
    value at a path, the state with that root holds the value at the path; if
    [validate_balance_proof] accepts a balance of a purse, the state holds it. *)
Theorem validated_answers_true s M root :
  content_addressed s -> root_rep s M root ->
  (forall proofs base_key path v, Forall (reliable s) proofs ->
    validate_query_proof root proofs base_key path v = Ok tt -> exists keys, resolve M base_key path = Some (keys, v)) /\
  (forall proof purse motes, reliable s proof ->
    validate_balance_proof root proof purse motes = Ok tt ->
    exists uref v cv, purse = Key_URef uref /\ M !! Key_Balance (addr uref) = Some v /\ CLValue_try_from payload v = Ok cv /\
      into_t (H := num_repr U512) (H0 := num_cl_type U512) cv = Ok motes).
Proof.
  intros Hca Hroot. split.
  - intros proofs base_key path v Hrel H. unfold Query.validate_query_proof in H. case_decide as El; [|done].
    destruct proofs as [|first rest]; [done|]. apply bind_Ok in H as ([] & Hc & (v' & Hv & H)%bind_Ok).
    case_decide as E; [|done]. subst v'.
    apply (validate_loop_sound s M root path Hca Hroot first rest base_key v Hrel); [cbn in El; lia|done|done].
  - intros proof purse motes Hrel H. unfold Query.validate_balance_proof in H.
    destruct (into_uref purse) as [uref|] eqn:Eu; [|done]. destruct purse; try done. injection Eu as ->.
    apply bind_Ok in H as ([] & Hc & H). apply (check_proof_sound s M root _ _ Hca Hroot Hrel) in Hc.
    destruct (CLValue_try_from payload (proof_value proof)) as [cv| | |] eqn:Ev; [|done..].
    apply bind_Ok in H as (b & Hb%map_err_Ok & H). case_decide as E; [|done]. subst b. by exists uref, (proof_value proof), cv.
Qed.

(** [validate_query_merkle_proof] checks the hash of the first proof only: with any
    true proof in front, it accepts any value for any key; without a trace it
    panics. *)
Lemma merkle_trace_forgeable root (first : proof_of) key v :
  compute_state_hash blake2b CHUNK_SIZE_BYTES first = Ok root ->
  validate_query_merkle_proof blake2b CHUNK_SIZE_BYTES payload root [first; mkTrieMerkleProof key v []] [proof_key first; key] v = Ok tt.
Proof.
  intros E. unfold validate_query_merkle_proof. rewrite !decide_True by done. cbn [last proof_value].
  rewrite decide_True by done. rewrite E. cbn. by rewrite decide_True.
Qed.
Lemma merkle_trace_empty root v : validate_query_merkle_proof blake2b CHUNK_SIZE_BYTES payload root [] [] v = Panic.
Proof. done. Qed.
End correctness.

(** ** A concrete state: a contract whose named key leads to a number *)

Definition with_named_keys (t : StoredValueTag) : Type := match t with T_Account | T_Contract => unit | _ => Empty_set end.
Abbreviation nk_value := (StoredValue (K:=Key) with_named_keys).
Abbreviation nk_sum := (CLValue + (Bytes + (list (RString * Key) + list (RString * Key))))%type.
Definition nk_to_sum (v : nk_value) : nk_sum :=
  match v with
  | SV_CLValue _ v => inl v
  | SV_RawBytes _ b => inr (inl (mkBytes b))
  | SV_Account _ a => inr (inr (inl (account_named_keys _ a)))
  | SV_Contract _ c => inr (inr (inr (contract_named_keys _ c)))
  | SV_ContractWasm _ e | SV_ContractPackage _ e | SV_Transfer _ e | SV_DeployInfo _ e | SV_EraInfo _ e
  | SV_Bid _ e | SV_Withdraw _ e | SV_Unbonding _ e | SV_AddressableEntity _ e | SV_BidKind _ e
  | SV_SmartContract _ e | SV_ByteCode _ e | SV_MessageTopic _ e | SV_Message _ e | SV_NamedKey _ e
  | SV_Prepayment _ e | SV_EntryPoint _ e => match e with end
  end.
Definition nk_of_sum (x : nk_sum) : nk_value :=
  match x with
  | inl v => SV_CLValue with_named_keys v
  | inr (inl (mkBytes b)) => SV_RawBytes with_named_keys b
  | inr (inr (inl k)) => SV_Account with_named_keys (mkAccount with_named_keys k tt)
  | inr (inr (inr k)) => SV_Contract with_named_keys (mkContract with_named_keys k tt)
  end.
Lemma nk_of_to_sum v : nk_of_sum (nk_to_sum v) = v.
Proof. by destruct v as [|[? []]|[]|[? []]|[]|[]|[]|[]|[]|[]|[]|[]|[]|[]|[]|[]|[]|[]|[]|[]|]. Qed.
Lemma nk_to_of_sum x : nk_to_sum (nk_of_sum x) = x.
Proof. by destruct x as [|[[]|[]]]. Qed.
#[local] Instance CLValue_eq_dec : EqDecision CLValue.
Proof. solve_decision. Defined.
#[local] Instance nk_eq_dec : EqDecision nk_value.
Proof.
  intros v w. destruct (decide (nk_to_sum v = nk_to_sum w)) as [E|E]; [left|right; congruence].
  by rewrite <- (nk_of_to_sum v), E, nk_of_to_sum.
Defined.
#[local] Instance nk_value_repr : Bytesrepr nk_value := via nk_to_sum nk_of_sum _.
#[local] Existing Instance Key_spec.
#[local] Instance nk_value_spec : BytesreprSpec nk_value nk_value_repr.
Proof.
  refine (via_spec nk_to_sum nk_of_sum (fun v => representable (nk_to_sum v)) (fun v H => H) (fun v _ => nk_of_to_sum v) _).
  intros x Hx. by rewrite nk_to_of_sum.
Defined.

Abbreviation nk_write := (write (TF:=TreeFold1_ref) checksum example_chunk (K:=Key) (V:=nk_value)).
Abbreviation nk_rep := (root_rep example_chunk (K:=Key) (V:=nk_value)).
Abbreviation nk_addressed := (content_addressed (TF:=TreeFold1_ref) checksum example_chunk).
#[local] Instance no_bid : Bytesrepr (with_named_keys T_BidKind) :=
  {| to_bytes := Empty_set_rect _; write_bytes := Empty_set_rect _;
     serialized_length := Empty_set_rect _; from_bytes _ := Err Formatting |}.
#[local] Instance no_package : Bytesrepr (with_named_keys T_ContractPackage) := no_bid.
Definition no_named_key (p : with_named_keys T_NamedKey) : NamedKeyValue := match p with end.

Definition the_contract : Key := Key_Hash zeros.
Definition the_number : Key := Key_URef (mkURef zeros READ_ADD).
Definition the_name : RString := mkRString [Byte.x61].
Definition contract_value : nk_value := SV_Contract _ (mkContract with_named_keys [(the_name, the_number)] tt).
Definition number_value : nk_value := SV_CLValue _ (mkCLValue CL_U8 (mkBytes [Byte.x05])).

Lemma nk_write_rep s M root k v :
  nk_rep s M root -> nk_addressed s -> key_ok k -> representable v -> (exists b, trie_to_bytes (Leaf k v) = Ok b) ->
  write_clash_free (TF:=TreeFold1_ref) checksum example_chunk k v s root = true -> M !! k = None ->
  nk_rep (result_store (nk_write s root k v)) (<[k := v]> M) (written_root (nk_write s root k v)) /\
  nk_addressed (result_store (nk_write s root k v)).
Proof.
  intros Hr Hc Hk Hv [b Hb] Hclash Hnone. apply write_no_clash_check in Hclash.
  destruct (key_has_path example_chunk example_chunk_128 k Hk) as (p & Hp & _).
  destruct (write_rep (TF:=TreeFold1_ref) checksum example_chunk (K:=Key) (V:=nk_value) k v p b Hp Hv Hb
    _ M _ Hr Hc Hclash) as (result & s' & E & _ & Hc' & Hres).
  rewrite E. cbn [result_store written_root]. destruct result as [root'| |].
  - by destruct Hres.
  - destruct Hres as [Hn _]. congruence.
  - destruct Hres.
Qed.
Definition nk_empty : Digest * store :=
  match empty_state checksum (K:=Key) (V:=nk_value) with Ok r => r | _ => (checksum [], ∅) end.
Definition nk_first := nk_write nk_empty.2 nk_empty.1 the_contract contract_value.
Definition nk_second := nk_write (result_store nk_first) (written_root nk_first) (normalize the_number) number_value.
Definition nk_store : store := result_store nk_second.
Definition nk_root : Digest := written_root nk_second.
Definition nk_map : gmap Key nk_value := <[normalize the_number := number_value]> (<[the_contract := contract_value]> ∅).
Lemma the_number_ok : key_ok the_number /\ key_ok (normalize the_number).
Proof. cbn. vm_compute. intuition congruence. Qed.
Lemma contract_value_ok : representable contract_value.
Proof. split; [|done]. constructor; [|constructor]. split; [by split|exact (proj1 the_number_ok)]. Qed.
Lemma number_value_ok : representable number_value.
Proof. cbn. split_and!; try done. vm_compute. lia. Qed.
Lemma number_leaf : exists b, trie_to_bytes (Leaf (normalize the_number) number_value) = Ok b.
Proof. eexists. vm_compute. reflexivity. Qed.
Lemma number_clash_free :
  write_clash_free (TF:=TreeFold1_ref) checksum example_chunk (normalize the_number) number_value
    (result_store nk_first) (written_root nk_first) = true.
Proof. vm_compute. reflexivity. Qed.
Lemma nk_state_rep : nk_rep nk_store nk_map nk_root /\ nk_addressed nk_store.
Proof.
  destruct (empty_state_rep (TF:=TreeFold1_ref) checksum example_chunk (K:=Key) (V:=nk_value) example_chunk_node)
    as (root & s & E & Hr & Hc).
  assert (nk_empty = (root, s)) as E0 by (unfold nk_empty; by rewrite E).
  destruct (nk_write_rep nk_empty.2 ∅ nk_empty.1 the_contract contract_value) as [Hr1 Hc1];
    [by rewrite E0|by rewrite E0|exact I|exact contract_value_ok|eexists; vm_compute; reflexivity|vm_compute; reflexivity|done|].
  exact (nk_write_rep _ _ _ (normalize the_number) number_value Hr1 Hc1 (proj2 the_number_ok) number_value_ok
    number_leaf number_clash_free eq_refl).
Qed.

Lemma query_answers_validate_witness :
  exists proofs,
    query checksum with_named_keys no_named_key (view_read_with_proof with_named_keys nk_store nk_root) 5 the_contract [the_name] =
      Ok (QR_Success with_named_keys number_value proofs) /\
    validate_query_proof (TF:=TreeFold1_ref) checksum example_chunk with_named_keys nk_root proofs the_contract [the_name] number_value = Ok tt.
Proof.
  apply (query_answers_validate (TF:=TreeFold1_ref) checksum example_chunk with_named_keys no_named_key nk_store nk_map nk_root 5
    the_contract [the_name] [the_contract; normalize the_number] number_value).
  - exact example_chunk_node.
  - exact (proj2 nk_state_rep).
  - exact (proj1 nk_state_rep).
  - vm_compute. reflexivity.
  - apply (bool_decide_eq_true (NoDup _)). vm_compute. reflexivity.
  - reflexivity.
  - vm_compute. split; reflexivity.
Defined.

Definition nk_proofs : list (TrieMerkleProof Key nk_value) :=
  match query checksum with_named_keys no_named_key (view_read_with_proof with_named_keys nk_store nk_root) 5 the_contract [the_name] with
  | Ok (QR_Success _ _ proofs) => proofs
  | _ => []
  end.
Lemma nk_proofs_about :
  (fun p => (proof_key p, proof_value p)) <$> nk_proofs = [(the_contract, contract_value); (normalize the_number, number_value)] /\
  forallb (proof_clash_free nk_store) nk_proofs = true.
Proof. split; vm_compute; reflexivity. Qed.
Lemma nk_proofs_reliable :
  Forall (reliable (TF:=TreeFold1_ref) checksum example_chunk with_named_keys nk_store) nk_proofs.
Proof.
  destruct nk_proofs_about as [E Hc]. destruct nk_proofs as [|p1 [|p2 [|]]]; try discriminate E. cbn in Hc.
  apply andb_prop in Hc as [Hc1 Hc2]. apply andb_prop in Hc2 as [Hc2 _]. injection E as E1 E2 E3 E4.
  constructor; [|constructor; [|constructor]].
  - split; [by apply proof_no_clash_check|]. rewrite E1, E2. split; [exact I|exact contract_value_ok].
  - split; [by apply proof_no_clash_check|]. rewrite E3, E4. split; [exact (proj2 the_number_ok)|exact number_value_ok].
Qed.

Lemma validated_answers_true_witness :
  exists keys, resolve with_named_keys nk_map the_contract [the_name] = Some (keys, number_value).
Proof.
  destruct (validated_answers_true (TF:=TreeFold1_ref) checksum example_chunk with_named_keys nk_store nk_map nk_root
    (proj2 nk_state_rep) (proj1 nk_state_rep)) as [H _].
  apply (H nk_proofs); [exact nk_proofs_reliable|]. vm_compute. reflexivity.
Defined.
