(* ===== verification/TrackingCopy.v ===== *)
(** * Tracking copies: a state with pending changes

    Models [storage/src/tracking_copy/mod.rs]: the cache of reads, writes and prunes
    in front of a reader of the global state, the effects that record what was done,
    listing keys by prefix, and forks.  Execution sees the state through a tracking
    copy; its effects are what is committed.  Messages are not modelled. *)
From S2P Require Import Prelude BTree Bytesrepr Struct Digest Uint Access CLType Key Trie TrieOps.
From S2P Require Import TrieKeys Transform GlobalState.

Open Scope Z_scope.

(** ** Keys with their bytes *)

(** [KeyWithByteRepr::new]; [key_repr_ok] shows that its [expect] does not fail. *)
Definition key_repr (key : Key) : list u8 :=
  match to_bytes key with Ok bytes => bytes | _ => [] end.

(** [take_while] and, for [BTreeMap::range], the part of a map from a key on. *)
Fixpoint take_while {A} (f : A -> bool) (l : list A) : list A :=
  match l with
  | [] => []
  | a :: l => if f a then a :: take_while f l else []
  end.
Fixpoint drop_while {A} (f : A -> bool) (l : list A) : list A :=
  match l with
  | [] => []
  | a :: l' => if f a then drop_while f l' else l
  end.
Definition btree_range {V} (from : list u8) (m : list (list u8 * V)) : list (list u8 * V) :=
  drop_while (fun p => ord_ltb p.1 from) m.

Section tracking_copy.
Context (payload : StoredValueTag -> Type).
Context {DB : Bytesrepr (payload T_BidKind)} {DP : Bytesrepr (payload T_ContractPackage)}.
Context (rust_type_name : num -> string).
Abbreviation V := (StoredValue (K:=Key) payload).
Abbreviation kind := (TransformKindV2 (K:=Key) payload).
(** [Meter::measure] *)
Context (measure : Key -> V -> Z).

(** ** The cache *)

(** The reads are a [LinkedHashMap], oldest first; the writes are sorted by the
    bytes of their keys. *)
Record TrackingCopyCache : Type := mkCache {
  max_cache_size : Z;
  current_cache_size : Z;
  reads_cached : list (Key * V);
  muts_cached : list (list u8 * (Key * V));
  prunes_cached : gset Key
}.
Definition cache_new (max_cache_size : Z) : TrackingCopyCache := mkCache max_cache_size 0 [] [] ∅.

Inductive CacheEntry : Type := CE_Pruned | CE_NotFound | CE_Exists (v : V).

(** [LinkedHashMap::insert] and [get_refresh] move the key to the back. *)
Definition without (key : Key) (l : list (Key * V)) : list (Key * V) := filter (fun p => p.1 <> key) l.
Fixpoint reads_get (key : Key) (l : list (Key * V)) : option V :=
  match l with
  | [] => None
  | (k, v) :: l => if decide (k = key) then Some v else reads_get key l
  end.
Definition get_refresh (key : Key) (l : list (Key * V)) : option V * list (Key * V) :=
  match reads_get key l with
  | Some v => (Some v, without key l ++ [(key, v)])
  | None => (None, l)
  end.

(** The loop of [insert_read]: the oldest reads go while the cache is too large. *)
Fixpoint evict (max current : Z) (reads : list (Key * V)) : Z * list (Key * V) :=
  if current <=? max then (current, reads)
  else match reads with
       | [] => (current, [])
       | (k, v) :: reads => evict max (current - measure k v) reads
       end.
Definition insert_read (c : TrackingCopyCache) (key : Key) (value : V) : TrackingCopyCache :=
  let '(current, reads) :=
    evict (max_cache_size c) (current_cache_size c + measure key value) (without key (reads_cached c) ++ [(key, value)]) in
  mkCache (max_cache_size c) current reads (muts_cached c) (prunes_cached c).
Definition insert_write (c : TrackingCopyCache) (key : Key) (value : V) : TrackingCopyCache :=
  mkCache (max_cache_size c) (current_cache_size c) (reads_cached c)
    (btree_insert (key_repr key) (key, value) (muts_cached c)) (prunes_cached c ∖ {[ key ]}).
Definition insert_prune (c : TrackingCopyCache) (key : Key) : TrackingCopyCache :=
  mkCache (max_cache_size c) (current_cache_size c) (reads_cached c)
    (btree_remove (key_repr key) (muts_cached c)) (prunes_cached c ∪ {[ key ]}).
Definition cache_get (c : TrackingCopyCache) (key : Key) : CacheEntry * TrackingCopyCache :=
  if decide (key ∈ prunes_cached c) then (CE_Pruned, c)
  else match btree_get (key_repr key) (muts_cached c) with
       | Some (_, value) => (CE_Exists value, c)
       | None =>
           let '(found, reads) := get_refresh key (reads_cached c) in
           (match found with Some value => CE_Exists value | None => CE_NotFound end,
            mkCache (max_cache_size c) (current_cache_size c) reads (muts_cached c) (prunes_cached c))
       end.
Definition get_muts_cached_by_byte_prefix (c : TrackingCopyCache) (prefix : list u8) : list Key :=
  (fun p => p.2.1) <$> take_while (fun p => starts_with p.1 prefix) (btree_range prefix (muts_cached c)).

(** ** The tracking copy *)

(** [StateReader]: what the state behind a tracking copy offers. *)
Record StateReader : Type := mkReader {
  reader_read : Key -> result Error (option V);
  reader_keys_with_prefix : list u8 -> result Error (list Key)
}.

Record TrackingCopy : Type := mkTrackingCopy {
  tc_reader : StateReader;
  tc_cache : TrackingCopyCache;
  tc_effects : list (Key * kind)
}.
Definition tracking_copy_new (reader : StateReader) : TrackingCopy := mkTrackingCopy reader (cache_new (1024 * 16)) [].
Definition with_cache (tc : TrackingCopy) (c : TrackingCopyCache) : TrackingCopy :=
  mkTrackingCopy (tc_reader tc) c (tc_effects tc).
Definition push_effect (tc : TrackingCopy) (key : Key) (k : kind) : TrackingCopy :=
  mkTrackingCopy (tc_reader tc) (tc_cache tc) (tc_effects tc ++ [(key, k)]).

Definition get (tc : TrackingCopy) (key : Key) : result Error (option V * TrackingCopy) :=
  let '(entry, cache) := cache_get (tc_cache tc) key in
  let tc := with_cache tc cache in
  match entry with
  | CE_Exists value => Ok (Some value, tc)
  | CE_Pruned => Ok (None, tc)
  | CE_NotFound =>
      ret ← reader_read (tc_reader tc) key;
      match ret with
      | Some value => Ok (Some value, with_cache tc (insert_read (tc_cache tc) key value))
      | None => Ok (None, tc)
      end
  end.
Definition tc_read (tc : TrackingCopy) (key : Key) : result Error (option V * TrackingCopy) :=
  let normalized_key := normalize key in
  '(value, tc) ← get tc normalized_key;
  match value with
  | Some value => Ok (Some value, push_effect tc normalized_key (Identity payload))
  | None => Ok (None, tc)
  end.
Fixpoint read_first (tc : TrackingCopy) (keys : list Key) : result Error (option V * TrackingCopy) :=
  match keys with
  | [] => Ok (None, tc)
  | key :: keys =>
      '(value, tc) ← tc_read tc key;
      match value with
      | Some value => Ok (Some value, tc)
      | None => read_first tc keys
      end
  end.
Definition tc_write (tc : TrackingCopy) (key : Key) (value : V) : TrackingCopy :=
  let normalized_key := normalize key in
  push_effect (with_cache tc (insert_write (tc_cache tc) normalized_key value)) normalized_key (Write payload value).
Definition tc_prune (tc : TrackingCopy) (key : Key) : TrackingCopy :=
  let normalized_key := normalize key in
  push_effect (with_cache tc (insert_prune (tc_cache tc) normalized_key)) normalized_key (Prune payload key).
Definition tc_ret (tc : TrackingCopy) (key : Key) (value : RetValue) : TrackingCopy :=
  push_effect tc (normalize key) (Ret payload value).
Definition tc_entry_point_called (tc : TrackingCopy) (key : Key) (hash_addr : option (vec u8 32)) (name : RString) : TrackingCopy :=
  push_effect tc (normalize key) (EntryPointCalled payload hash_addr name).

Inductive AddResult : Type :=
| AR_Success
| AR_KeyNotFound (key : Key)
| AR_TypeMismatch (expected found : string)
| AR_Serialization (e : Error)
| AR_Transform (e : TransformError).
(** [From<CLValueError> for AddResult] *)
Definition AddResult_from (e : CLValueError) : AddResult :=
  match e with
  | Serialization error => AR_Serialization error
  | TypeMismatch expected found => AR_TypeMismatch (debug expected) (debug found)
  end.
(** [casper_types::named_key_type()] *)
Definition named_key_type : CLType := CL_Tuple2 CL_String CL_Key.
(** The transform that adds a value, or the result that is returned at once. *)
Definition add_number (n : num) (mk : Z -> kind) (v : CLValue) : result Error (AddResult + kind) :=
  match into_t (H := num_repr n) (H0 := num_cl_type n) v with
  | Ok z => Ok (inr (mk z))
  | Err e => Ok (inl (AddResult_from e))
  | Panic => Panic
  | Diverge => Diverge
  end.
Definition add_transform (value : V) : result Error (AddResult + kind) :=
  let mismatch := Ok (inl (AR_TypeMismatch "I32, U64, U128, U256, U512 or (String, Key) tuple" (type_name payload value))) in
  match value with
  | SV_CLValue _ v =>
      match value_type v with
      | CL_I32 => add_number I32 (AddInt32 payload) v
      | CL_U64 => add_number U64 (AddUInt64 payload) v
      | CL_U128 => add_number U128 (AddUInt128 payload) v
      | CL_U256 => add_number U256 (AddUInt256 payload) v
      | CL_U512 => add_number U512 (AddUInt512 payload) v
      | t =>
          if decide (t = named_key_type) then
            match into_t (T := RString * Key) (H0 := named_key_type) v with
            | Ok (name, key) => Ok (inr (AddKeys payload [(name, key)]))
            | Err e => Ok (inl (AddResult_from e))
            | Panic => Panic
            | Diverge => Diverge
            end
          else mismatch
      end
  | _ => mismatch
  end.
Definition tc_add (tc : TrackingCopy) (key : Key) (value : V) : result Error (AddResult * TrackingCopy) :=
  let normalized_key := normalize key in
  '(current, tc) ← get tc normalized_key;
  match current with
  | None => Ok (AR_KeyNotFound normalized_key, tc)
  | Some current_value =>
      t ← add_transform value;
      match t with
      | inl r => Ok (r, tc)
      | inr transform_kind =>
          match apply payload rust_type_name transform_kind current_value with
          | Ok (Store _ new_value) =>
              Ok (AR_Success,
                  push_effect (with_cache tc (insert_write (tc_cache tc) normalized_key new_value)) normalized_key transform_kind)
          | Ok (PruneKey _ key) =>
              Ok (AR_Success,
                  push_effect (with_cache tc (insert_prune (tc_cache tc) normalized_key)) normalized_key (Prune payload key))
          | Err (TE_TypeMismatch expected found) => Ok (AR_TypeMismatch expected found, tc)
          | Err (TE_Serialization error) => Ok (AR_Serialization error, tc)
          | Err e => Ok (AR_Transform e, tc)
          | Panic => Panic
          | Diverge => Diverge
          end
      end
  end.

(** ** Listing keys, snapshots and forks *)

(** [StateReader for &TrackingCopy] *)
Definition snapshot_read (tc : TrackingCopy) (key : Key) : result Error (option V) :=
  match btree_get (key_repr key) (muts_cached (tc_cache tc)) with
  | Some (_, value) => Ok (Some value)
  | None => reader_read (tc_reader tc) key
  end.
Definition keys_with_prefix (tc : TrackingCopy) (byte_prefix : list u8) : result Error (list Key) :=
  keys ← reader_keys_with_prefix (tc_reader tc) byte_prefix;
  Ok (filter (fun key => key ∉ prunes_cached (tc_cache tc)) keys ++ get_muts_cached_by_byte_prefix (tc_cache tc) byte_prefix).
Definition get_by_byte_prefix (tc : TrackingCopy) (byte_prefix : list u8) : result Error (gset Key) :=
  keys ← keys_with_prefix tc byte_prefix;
  Ok (list_to_set keys).
(** The loop of [keys_with_prefix_cached] *)
Fixpoint dedup_normalized (seen : gset Key) (keys : list Key) : list Key :=
  match keys with
  | [] => []
  | key :: keys =>
      if decide (normalize key ∈ seen) then dedup_normalized seen keys
      else key :: dedup_normalized ({[ normalize key ]} ∪ seen) keys
  end.
Definition keys_with_prefix_cached (tc : TrackingCopy) (byte_prefix : list u8) : result Error (list Key) :=
  keys ← keys_with_prefix tc byte_prefix;
  Ok (dedup_normalized ∅ keys).
Definition fork (tc : TrackingCopy) : TrackingCopy :=
  tracking_copy_new (mkReader (snapshot_read tc) (keys_with_prefix tc)).
Definition fork2 (tc : TrackingCopy) : TrackingCopy := mkTrackingCopy (tc_reader tc) (tc_cache tc) (tc_effects tc).
Definition apply_changes (tc : TrackingCopy) (effects : list (Key * kind)) (cache : TrackingCopyCache) : TrackingCopy :=
  mkTrackingCopy (tc_reader tc) cache effects.
Definition destructure (tc : TrackingCopy) : list (Key * V) * gset Key * list (Key * kind) :=
  ((muts_cached (tc_cache tc)).*2, prunes_cached (tc_cache tc), tc_effects tc).

(** ** Sequences of operations, and the same on a map *)

Inductive TcOp : Type :=
| OpRead (key : Key) | OpWrite (key : Key) (value : V) | OpPrune (key : Key) | OpAdd (key : Key) (value : V)
| OpKeys (byte_prefix : list u8).
Inductive TcOut : Type := OutValue (v : option V) | OutDone | OutAdd (r : AddResult) | OutKeys (keys : gset Key).

Definition tc_step (tc : TrackingCopy) (op : TcOp) : result Error (TcOut * TrackingCopy) :=
  match op with
  | OpRead key => '(v, tc) ← tc_read tc key; Ok (OutValue v, tc)
  | OpWrite key value => Ok (OutDone, tc_write tc key value)
  | OpPrune key => Ok (OutDone, tc_prune tc key)
  | OpAdd key value => '(r, tc) ← tc_add tc key value; Ok (OutAdd r, tc)
  | OpKeys prefix => keys ← get_by_byte_prefix tc prefix; Ok (OutKeys keys, tc)
  end.
Fixpoint tc_run (tc : TrackingCopy) (ops : list TcOp) : result Error (list TcOut * TrackingCopy) :=
  match ops with
  | [] => Ok ([], tc)
  | op :: ops => '(out, tc) ← tc_step tc op; '(outs, tc) ← tc_run tc ops; Ok (out :: outs, tc)
  end.

(** What the operations mean, on the map of the whole state. *)
Definition map_step (M : gmap Key V) (op : TcOp) : result Error (TcOut * gmap Key V) :=
  match op with
  | OpRead key => Ok (OutValue (M !! normalize key), M)
  | OpWrite key value => Ok (OutDone, <[normalize key := value]> M)
  | OpPrune key => Ok (OutDone, delete (normalize key) M)
  | OpAdd key value =>
      match M !! normalize key with
      | None => Ok (OutAdd (AR_KeyNotFound (normalize key)), M)
      | Some current =>
          t ← add_transform value;
          match t with
          | inl r => Ok (OutAdd r, M)
          | inr k =>
              match apply payload rust_type_name k current with
              | Ok (Store _ v) => Ok (OutAdd AR_Success, <[normalize key := v]> M)
              | Ok (PruneKey _ _) => Ok (OutAdd AR_Success, delete (normalize key) M)
              | Err (TE_TypeMismatch expected found) => Ok (OutAdd (AR_TypeMismatch expected found), M)
              | Err (TE_Serialization error) => Ok (OutAdd (AR_Serialization error), M)
              | Err e => Ok (OutAdd (AR_Transform e), M)
              | Panic => Panic
              | Diverge => Diverge
              end
          end
      end
  | OpKeys prefix => Ok (OutKeys (filter (fun key => starts_with (key_repr key) prefix) (dom M)), M)
  end.
Fixpoint map_run (M : gmap Key V) (ops : list TcOp) : result Error (list TcOut * gmap Key V) :=
  match ops with
  | [] => Ok ([], M)
  | op :: ops => '(out, M) ← map_step M op; '(outs, M) ← map_run M ops; Ok (out :: outs, M)
  end.

(** A reader of a state that holds a map, for the keys and the prefixes it can be
    asked for. *)
Record reads (readable : Key -> Prop) (listable : list u8 -> Prop) (r : StateReader) (M : gmap Key V) : Prop := {
  reads_read key : readable key -> reader_read r key = Ok (M !! key);
  reads_prefix prefix : listable prefix -> exists keys, reader_keys_with_prefix r prefix = Ok keys /\ NoDup keys /\
    forall key, key ∈ keys <-> key ∈ dom M /\ starts_with (key_repr key) prefix
}.
(** Keys are in range and can be asked for; a key that is pruned is normalized. *)
Definition op_ok (readable : Key -> Prop) (listable : list u8 -> Prop) (op : TcOp) : Prop :=
  match op with
  | OpRead key | OpAdd key _ => key_ok key /\ readable (normalize key)
  | OpWrite key _ => key_ok key
  | OpPrune key => key_ok key /\ normalize key = key
  | OpKeys prefix => listable prefix
  end.
End tracking_copy.

(** ** Serialized keys *)

Lemma key_repr_ok k : key_ok k -> to_bytes k = Ok (key_repr k).
Proof. intros Hk. unfold key_repr. by destruct (bounded_serializes (ST := Key_spec) k Hk) as (b & -> & _). Qed.
Lemma key_repr_inj k k' : key_ok k -> key_ok k' -> key_repr k = key_repr k' -> k = k'.
Proof.
  intros Hk Hk' E. pose proof (spec_roundtrip (BytesreprSpec := Key_spec) k _ [] Hk (key_repr_ok k Hk)) as H.
  rewrite E, (spec_roundtrip (BytesreprSpec := Key_spec) k' _ [] Hk' (key_repr_ok k' Hk')) in H. by injection H.
Qed.
Lemma normalize_ok k : key_ok k -> key_ok (normalize k).
Proof. by destruct k. Qed.

(** What lies between a prefix and one of its extensions extends it. *)
Lemma prefix_below (prefix a : list u8) : ord_ltb a prefix = true -> starts_with a prefix = false.
Proof.
  unfold ord_ltb, list_ord. revert a. induction prefix as [|p prefix IH]; intros [|b a]; cbn; try done.
  case_bool_decide as E; [|done]. subst b. rewrite ord_irrefl. apply IH.
Qed.
Lemma prefix_between (prefix a b : list u8) :
  ord_ltb a prefix = false -> ord_ltb a b = true -> starts_with b prefix = true -> starts_with a prefix = true.
Proof.
  unfold ord_ltb, list_ord. revert a b. induction prefix as [|p prefix IH]; intros [|x a] [|y b]; cbn; try done.
  case_bool_decide as E; [|done]. subst y.
  intros [Hxp Hpx]%orb_false_iff [?|[Hpx' Hab]%andb_true_iff]%orb_true_iff Hb; [congruence|].
  apply negb_true_iff in Hpx'. pose proof (ord_total x p Hxp Hpx') as ->.
  rewrite Hpx' in Hpx. rewrite bool_decide_true by done. by eapply IH.
Qed.

Lemma take_while_prefix {V} (prefix : list u8) (l : list (list u8 * V)) :
  btree_sorted l -> Forall (fun p => ord_ltb p.1 prefix = false) l ->
  take_while (fun p => starts_with p.1 prefix) l = filter (fun p => starts_with p.1 prefix) l.
Proof.
  induction 1 as [|p l Hl IH Hp]; intros [Ep El]%Forall_cons_1 || intros _; [done|]. specialize (IH El).
  cbn [take_while]. destruct (starts_with p.1 prefix) eqn:E.
  { by rewrite filter_cons_True, IH by (by rewrite E). }
  rewrite filter_cons_False by (rewrite E; by intros []). symmetry. apply elem_of_nil_inv. intros q [Eq Hq]%list_elem_of_filter.
  apply Is_true_true in Eq. rewrite Forall_forall in Hp. specialize (Hp q Hq). unfold key_lt in Hp.
  by rewrite (prefix_between prefix p.1 q.1) in E.
Qed.
Lemma range_prefix {V} (prefix : list u8) (l : list (list u8 * V)) :
  btree_sorted l ->
  take_while (fun p => starts_with p.1 prefix) (btree_range prefix l) = filter (fun p => starts_with p.1 prefix) l.
Proof.
  unfold btree_range. induction 1 as [|p l Hl IH Hp]; [done|]. cbn [drop_while].
  destruct (ord_ltb p.1 prefix) eqn:E.
  { rewrite IH, filter_cons_False; [done|]. rewrite (prefix_below _ _ E). by intros []. }
  apply take_while_prefix; [by constructor|]. constructor; [done|].
  rewrite Forall_forall in Hp |- *. intros q Hq. specialize (Hp q Hq). unfold key_lt in Hp.
  destruct (ord_ltb q.1 prefix) eqn:Eq; [|done]. assert (ord_ltb p.1 prefix = true) by (by apply (BTree.ord_trans _ q.1)). congruence.
Qed.

(** ** Refinement *)

Section refinement.
Context (payload : StoredValueTag -> Type).
Context {DB : Bytesrepr (payload T_BidKind)} {DP : Bytesrepr (payload T_ContractPackage)}.
Context (rust_type_name : num -> string).
Abbreviation V := (StoredValue (K:=Key) payload).
Abbreviation kind := (TransformKindV2 (K:=Key) payload).
Context (measure : Key -> V -> Z).
Context (readable : Key -> Prop) (listable : list u8 -> Prop).
Abbreviation TrackingCopy := (TrackingCopy payload).
Abbreviation TrackingCopyCache := (TrackingCopyCache payload).
Abbreviation effects_on := (effects_on payload rust_type_name).
Abbreviation effect_on := (effect_on payload rust_type_name).
Implicit Types (M : gmap Key V) (tc : TrackingCopy) (c : TrackingCopyCache).

Definition in_range M : Prop := forall k, k ∈ dom M -> key_ok k.

(** The value a cache gives a key of the state [M0] behind it. *)
Definition cached_view M0 c (k : Key) : option V :=
  if decide (k ∈ prunes_cached payload c) then None
  else match btree_get (key_repr k) (muts_cached payload c) with
       | Some (_, v) => Some v
       | None => M0 !! k
       end.

(** A well-formed cache over [M0]. *)
Record cache_ok M0 c : Prop := {
  muts_sorted : btree_sorted (muts_cached payload c);
  muts_keys : Forall (fun p => p.1 = key_repr p.2.1 /\ key_ok p.2.1) (muts_cached payload c);
  reads_true : Forall (fun p => M0 !! p.1 = Some p.2) (reads_cached payload c);
  prunes_gone k : k ∈ prunes_cached payload c -> key_ok k /\ btree_get (key_repr k) (muts_cached payload c) = None
}.
(** The tracking copy over [M0] stands for [M]. *)
Record tracks M0 tc M : Prop := {
  tracks_reader : reads payload readable listable (tc_reader payload tc) M0;
  tracks_base : in_range M0;
  tracks_keys : in_range M;
  tracks_cache : cache_ok M0 (tc_cache payload tc);
  tracks_view k : key_ok k -> M !! k = cached_view M0 (tc_cache payload tc) k;
  tracks_effects : effects_on M0 (tc_effects payload tc) = Ok M
}.

Lemma effects_on_app M es e : effects_on M (es ++ [e]) = (M' ← effects_on M es; effect_on M' e).
Proof.
  revert M. induction es as [|e0 es IH]; intros M; cbn [app GlobalState.effects_on]; [by cbn; destruct (effect_on M e)|].
  destruct (effect_on M e0) as [M'| | |]; cbn; [apply IH|done..].
Qed.
Lemma without_true M (k : Key) (l : list (Key * V)) :
  Forall (fun p => M !! p.1 = Some p.2) l -> Forall (fun p => M !! p.1 = Some p.2) (without payload k l).
Proof. rewrite !Forall_forall. unfold without. intros H p [_ Hp]%list_elem_of_filter. auto. Qed.
Lemma evict_suffix max current (l : list (Key * V)) : exists pre, l = pre ++ (evict payload measure max current l).2.
Proof.
  revert current. induction l as [|[k v] l IH]; intros current; cbn; (case_match; [by exists []|]); [by exists []|].
  destruct (IH (current - measure k v)) as [pre E]. exists ((k, v) :: pre). cbn. by f_equal.
Qed.
Lemma reads_get_true M (k : Key) v (l : list (Key * V)) :
  Forall (fun p => M !! p.1 = Some p.2) l -> reads_get payload k l = Some v -> M !! k = Some v.
Proof.
  induction 1 as [|[k' v'] l E _ IH]; cbn; [done|]. case_decide as Ek; [|done]. intros [= ->]. by rewrite <- Ek.
Qed.
Lemma muts_key M0 c k k' v :
  cache_ok M0 c -> key_ok k -> btree_get (key_repr k) (muts_cached payload c) = Some (k', v) -> k' = k.
Proof.
  intros Hc Hk Hg. apply btree_get_elem in Hg; [|by apply (muts_sorted M0)]. pose proof (muts_keys _ _ Hc) as H.
  rewrite Forall_forall in H. destruct (H _ Hg) as [E Hk']. cbn in E, Hk'. symmetry. by apply key_repr_inj.
Qed.

(** Reading caches what was read, and nothing else changes. *)
Lemma insert_read_ok M0 c k v :
  cache_ok M0 c -> M0 !! k = Some v ->
  cache_ok M0 (insert_read payload measure c k v) /\
  forall k', cached_view M0 (insert_read payload measure c k v) k' = cached_view M0 c k'.
Proof.
  intros [Hs Hk Hr Hp] E. unfold insert_read.
  destruct (evict_suffix (max_cache_size payload c) (current_cache_size payload c + measure k v)
    (without payload k (reads_cached payload c) ++ [(k, v)])) as [pre Epre].
  destruct (evict _ _ _ _ _) as [current l]. cbn in Epre. split; [|done]. split; cbn; try done.
  assert (Forall (fun p => M0 !! p.1 = Some p.2) (pre ++ l)) as HF; [|by apply Forall_app in HF as [_ ?]].
  rewrite <- Epre. apply Forall_app. split; [by apply without_true|by constructor].
Qed.
Lemma cache_get_ok M0 c k entry c' :
  cache_ok M0 c -> cache_get payload c k = (entry, c') ->
  cache_ok M0 c' /\ (forall k', cached_view M0 c' k' = cached_view M0 c k') /\
  match entry with
  | CE_Pruned _ => cached_view M0 c k = None
  | CE_Exists _ v => cached_view M0 c k = Some v
  | CE_NotFound _ => cached_view M0 c k = M0 !! k
  end.
Proof.
  intros Hc. unfold cache_get. case_decide as Hp.
  { intros [= <- <-]. split; [done|]. split; [done|]. unfold cached_view. by rewrite decide_True. }
  assert (cached_view M0 c k = match btree_get (key_repr k) (muts_cached payload c) with Some (_, v) => Some v | None => M0 !! k end) as Ev.
  { unfold cached_view. by rewrite decide_False. }
  destruct (btree_get _ _) as [[k' v]|]; [by intros [= <- <-]|].
  unfold get_refresh. destruct (reads_get _ k _) as [v|] eqn:Er; intros [= <- <-]; (split; [|split; [done|]]).
  - destruct Hc as [Hs Hk Hr Hpr]. split; cbn; try done. apply Forall_app. split; [by apply without_true|].
    constructor; [|done]. by apply (reads_get_true _ _ _ _ Hr).
  - rewrite Ev. destruct Hc as [Hs Hk Hr Hpr]. by apply (reads_get_true _ _ _ _ Hr).
  - by destruct Hc.
  - done.
Qed.

(** [get] returns the value of the state the copy stands for. *)
Lemma get_ok M0 tc M k :
  tracks M0 tc M -> key_ok k -> readable k ->
  exists tc', get payload measure tc k = Ok (M !! k, tc') /\ tracks M0 tc' M.
Proof.
  intros [Hr Hb HM Hc Hv He] Hk Hread. unfold get. destruct (cache_get payload (tc_cache payload tc) k) as [entry c'] eqn:Eg.
  destruct (cache_get_ok M0 _ _ _ _ Hc Eg) as (Hc' & Hview & Hentry).
  assert (tracks M0 (with_cache payload tc c') M) as HT.
  { split; try done. intros k' Hk'. cbn. by rewrite Hview, Hv. }
  destruct entry as [| |v]; rewrite (Hv k Hk), Hentry; [by eauto| |by eauto].
  cbn [tc_reader with_cache]. rewrite (reads_read _ _ _ _ _ Hr k Hread). cbn. destruct (M0 !! k) as [v|] eqn:E; [|by eauto].
  eexists. split; [done|]. destruct (insert_read_ok M0 c' k v Hc' E) as [Hi Hiv].
  split; try done. intros k' Hk'. cbn. by rewrite Hiv, Hview, Hv.
Qed.

Lemma push_ok M0 tc M M' k (e : kind) c :
  tracks M0 tc M -> cache_ok M0 c -> in_range M' -> (forall k', key_ok k' -> M' !! k' = cached_view M0 c k') ->
  effect_on M (k, e) = Ok M' -> tracks M0 (push_effect payload (with_cache payload tc c) k e) M'.
Proof.
  intros [Hr Hb HM Hc Hv He] Hc' HM' Hv' E. split; try done. cbn. by rewrite effects_on_app, He.
Qed.
Lemma push_read_ok M0 tc M k (e : kind) :
  tracks M0 tc M -> effect_on M (k, e) = Ok M -> tracks M0 (push_effect payload tc k e) M.
Proof. intros [Hr Hb HM Hc Hv He] E. split; try done. cbn. by rewrite effects_on_app, He. Qed.

Lemma insert_write_ok M0 c k v :
  cache_ok M0 c -> key_ok k ->
  cache_ok M0 (insert_write payload c k v) /\
  forall k', key_ok k' ->
    cached_view M0 (insert_write payload c k v) k' = if decide (k' = k) then Some v else cached_view M0 c k'.
Proof.
  intros [Hs Hk Hr Hp] Hok. unfold insert_write. split; [split; cbn; [| |done|]|].
  - by apply btree_insert_sorted.
  - rewrite Forall_forall. intros [b [k1 v1]] Hin. apply btree_get_elem in Hin; [|by apply btree_insert_sorted].
    destruct (decide (b = key_repr k)) as [->|Hne].
    + rewrite btree_get_insert_eq in Hin. by injection Hin as <- <-.
    + rewrite btree_get_insert_ne in Hin by done. apply btree_get_elem in Hin; [|done].
      rewrite Forall_forall in Hk. by apply Hk.
  - intros k' [Hk' Hne]%elem_of_difference. rewrite not_elem_of_singleton in Hne. destruct (Hp _ Hk') as [Hok' Hg].
    split; [done|]. rewrite btree_get_insert_ne; [done..|]. intros E. by apply Hne, key_repr_inj.
  - intros k' Hk'. unfold cached_view. cbn. case_decide as Hin; case_decide as E.
    + subst. set_solver.
    + rewrite decide_True by set_solver. done.
    + subst. by rewrite btree_get_insert_eq.
    + rewrite decide_False by set_solver. rewrite btree_get_insert_ne; [done..|]. intros E'. by apply E, key_repr_inj.
Qed.
Lemma insert_prune_ok M0 c k :
  cache_ok M0 c -> key_ok k ->
  cache_ok M0 (insert_prune payload c k) /\
  forall k', key_ok k' ->
    cached_view M0 (insert_prune payload c k) k' = if decide (k' = k) then None else cached_view M0 c k'.
Proof.
  intros [Hs Hk Hr Hp] Hok. unfold insert_prune. split; [split; cbn; [| |done|]|].
  - by apply btree_remove_sorted.
  - rewrite Forall_forall. intros [b [k1 v1]] Hin. apply btree_get_elem in Hin; [|by apply btree_remove_sorted].
    destruct (decide (b = key_repr k)) as [->|Hne].
    + by rewrite btree_get_remove_eq in Hin.
    + rewrite btree_get_remove_ne in Hin by done. apply btree_get_elem in Hin; [|done].
      rewrite Forall_forall in Hk. by apply Hk.
  - intros k'. rewrite elem_of_union, elem_of_singleton. destruct (decide (k' = k)) as [->|Hne].
    + intros _. split; [done|]. by apply btree_get_remove_eq.
    + intros [Hk'|?]; [|done]. destruct (Hp _ Hk') as [Hok' Hg]. split; [done|].
      rewrite btree_get_remove_ne; [done..|]. intros E. by apply Hne, key_repr_inj.
  - intros k' Hk'. unfold cached_view. cbn. case_decide as Hin; case_decide as E.
    + done.
    + rewrite decide_True by set_solver. done.
    + subst. set_solver.
    + rewrite decide_False by set_solver. rewrite btree_get_remove_ne; [done..|]. intros E'. by apply E, key_repr_inj.
Qed.

Lemma in_range_insert M k v : in_range M -> key_ok k -> in_range (<[k := v]> M).
Proof. intros HM Hk k'. rewrite dom_insert, elem_of_union, elem_of_singleton. intros [->|?]; auto. Qed.
Lemma in_range_delete M k : in_range M -> in_range (delete k M).
Proof. intros HM k'. rewrite dom_delete, elem_of_difference. intros [? _]; auto. Qed.

Lemma write_tracks M0 tc M k v (e : kind) :
  tracks M0 tc M -> key_ok k -> effect_on M (k, e) = Ok (<[k := v]> M) ->
  tracks M0 (push_effect payload (with_cache payload tc (insert_write payload (tc_cache payload tc) k v)) k e) (<[k := v]> M).
Proof.
  intros HT Hk E. destruct (insert_write_ok M0 (tc_cache payload tc) k v) as [Hc Hv]; [by apply (tracks_cache _ _ M)|done|].
  apply (push_ok M0 tc M); try done; [apply in_range_insert; [by apply (tracks_keys M0 tc)|done]|].
  intros k' Hk'. rewrite Hv by done. destruct (decide (k' = k)) as [->|Hne]; [by rewrite lookup_insert_eq|].
  rewrite lookup_insert_ne by done. by apply (tracks_view M0 tc M).
Qed.
Lemma prune_tracks M0 tc M k (e : kind) :
  tracks M0 tc M -> key_ok k -> effect_on M (k, e) = Ok (delete k M) ->
  tracks M0 (push_effect payload (with_cache payload tc (insert_prune payload (tc_cache payload tc) k)) k e) (delete k M).
Proof.
  intros HT Hk E. destruct (insert_prune_ok M0 (tc_cache payload tc) k) as [Hc Hv]; [by apply (tracks_cache _ _ M)|done|].
  apply (push_ok M0 tc M); try done; [apply in_range_delete; by apply (tracks_keys M0 tc)|].
  intros k' Hk'. rewrite Hv by done. destruct (decide (k' = k)) as [->|Hne]; [by rewrite lookup_delete_eq|].
  rewrite lookup_delete_ne by done. by apply (tracks_view M0 tc M).
Qed.

(** The keys listed are those of the state with the prefix. *)
Lemma muts_by_prefix M0 c prefix k :
  cache_ok M0 c ->
  k ∈ get_muts_cached_by_byte_prefix payload c prefix <->
  (exists v, btree_get (key_repr k) (muts_cached payload c) = Some (k, v)) /\ starts_with (key_repr k) prefix.
Proof.
  intros [Hs Hk Hr Hp]. unfold get_muts_cached_by_byte_prefix. rewrite range_prefix by done.
  rewrite list_elem_of_fmap. setoid_rewrite list_elem_of_filter. rewrite Forall_forall in Hk. split.
  - intros ([b [k' v]] & -> & Hb & Hin). destruct (Hk _ Hin) as [E _]. cbn in E, Hb |- *. subst b. split; [|done].
    exists v. by apply btree_get_elem.
  - intros [[v Hg] Hb]. exists (key_repr k, (k, v)). split; [done|]. split; [done|]. by apply btree_get_elem.
Qed.
Lemma iff_under (P A B : Prop) : (A -> P) -> (B -> P) -> (P -> A <-> B) -> A <-> B.
Proof. tauto. Qed.
Lemma keys_with_prefix_ok M0 tc M prefix :
  tracks M0 tc M -> listable prefix ->
  exists keys, keys_with_prefix payload tc prefix = Ok keys /\
    forall k, k ∈ keys <-> k ∈ dom M /\ starts_with (key_repr k) prefix.
Proof.
  intros [Hr Hb HM Hc Hv He] Hlist. unfold keys_with_prefix. destruct (reads_prefix _ _ _ _ _ Hr prefix Hlist) as (keys & -> & _ & Hkeys).
  cbn. eexists. split; [done|]. intros k. rewrite elem_of_app, list_elem_of_filter, Hkeys, (muts_by_prefix M0) by done.
  apply (iff_under (key_ok k)); [|by intros [?%HM _]|intros Hk].
  { intros [(_ & ?%Hb & _)|[[v Hg] _]]; [done|]. pose proof (muts_keys _ _ Hc) as H. rewrite Forall_forall in H.
    apply btree_get_elem in Hg; [|by apply (muts_sorted M0)]. by destruct (H _ Hg). }
  rewrite !elem_of_dom, (Hv k Hk). unfold cached_view. case_decide as Hin.
  - destruct (prunes_gone _ _ Hc k Hin) as [_ ->]. split; [|by intros [[]%is_Some_None _]]. by intros [[]|[[? [=]] _]].
  - destruct (btree_get _ _) as [[k' v]|] eqn:Hg.
    + pose proof (muts_key _ _ _ _ _ Hc Hk Hg) as ->. split; [|intros [_ ?]; right; split; [by exists v|done]].
      intros [(_ & _ & ?)|[_ ?]]; (split; [by eexists|done]).
    + split; [|intros [? ?]; by left]. intros [(_ & ? & ?)|[[? [=]] _]]; done.
Qed.

(** An addition stores a value; it is not one of the transforms without effect. *)
Definition is_add (k : kind) : bool :=
  match k with
  | AddInt32 _ _ | AddUInt64 _ _ | AddUInt128 _ _ | AddUInt256 _ _ | AddUInt512 _ _ | AddKeys _ _ => true
  | _ => false
  end.
Lemma add_transform_add (value : V) (k : kind) : add_transform payload value = Ok (inr k) -> is_add k.
Proof.
  unfold add_transform, add_number. destruct value; try done.
  intros H. repeat (case_match; simplify_eq/=; try done).
Qed.
Lemma wrapping_addition_stores n (v : V) z i :
  wrapping_addition payload rust_type_name n v z = Ok i -> exists v', i = Store payload v'.
Proof.
  unfold wrapping_addition. intros H. inv_ok. destruct (value_type a); try done; unfold do_wrapping_addition in H; inv_ok; eauto.
Qed.
Lemma apply_add_stores (k : kind) (v : V) i :
  is_add k -> apply payload rust_type_name k v = Ok i -> exists v', i = Store payload v'.
Proof.
  destruct k as [| | | | | | | |ks| | |]; try done; intros _; cbn [apply]; try apply wrapping_addition_stores.
  destruct v; try done; intros [= <-]; eauto.
Qed.
Lemma effect_on_add M k (e : kind) v v' :
  is_add e -> M !! k = Some v -> apply payload rust_type_name e v = Ok (Store payload v') ->
  effect_on M (k, e) = Ok (<[k := v']> M).
Proof. intros He Hk Ha. unfold GlobalState.effect_on. cbn [fst snd]. rewrite Hk. unfold wanted. destruct e; try done; by rewrite Ha. Qed.
Lemma effect_on_prune M k : effect_on M (k, Prune payload k) = Ok (delete k M).
Proof.
  unfold GlobalState.effect_on. cbn. destruct (M !! k) eqn:E; cbn; [done|]. by rewrite delete_id.
Qed.

(** What a run of the tracking copy has to do with the run on the map. *)
Definition tracked {A} M0 (r : result Error (A * TrackingCopy)) (r' : result Error (A * gmap Key V)) : Prop :=
  match r' with
  | Ok (a, M) => exists tc, r = Ok (a, tc) /\ tracks M0 tc M
  | Err e => r = Err e
  | Panic => r = Panic
  | Diverge => r = Diverge
  end.

Lemma tc_add_tracked M0 tc M key value :
  tracks M0 tc M -> key_ok key -> readable (normalize key) ->
  tracked M0 (tc_step payload rust_type_name measure tc (OpAdd payload key value))
    (map_step payload rust_type_name M (OpAdd payload key value)).
Proof.
  intros HT Hk%normalize_ok Hread. cbn [tc_step map_step]. unfold tc_add.
  destruct (get_ok M0 tc M (normalize key) HT Hk Hread) as (tc' & -> & HT'). cbn [mbind result_bind].
  destruct (M !! normalize key) as [current|] eqn:E; [|cbn; eauto].
  destruct (add_transform payload value) as [[r|k]| | |] eqn:Et; cbn [mbind result_bind]; [cbn; eauto| |done..].
  pose proof (add_transform_add _ _ Et) as Hadd.
  destruct (apply payload rust_type_name k current) as [i|e| |] eqn:Ea; [|destruct e; cbn; eauto|done..].
  destruct (apply_add_stores k current i Hadd Ea) as [v ->]. cbn. eexists. split; [done|].
  apply write_tracks; [done..|]. by apply (effect_on_add _ _ _ current).
Qed.
Lemma tc_step_tracked M0 tc M op :
  tracks M0 tc M -> op_ok payload readable listable op ->
  tracked M0 (tc_step payload rust_type_name measure tc op) (map_step payload rust_type_name M op).
Proof.
  intros HT Hop. destruct op as [key|key v|key|key v|prefix]; cbn [op_ok] in Hop.
  - destruct Hop as [Hop Hread]. cbn. unfold tc_read. destruct (get_ok M0 tc M (normalize key) HT (normalize_ok _ Hop) Hread) as (tc' & -> & HT').
    cbn. destruct (M !! normalize key); cbn; [|eauto]. eexists. split; [done|]. by apply push_read_ok.
  - cbn. eexists. split; [done|]. apply write_tracks; [done|by apply normalize_ok|done].
  - destruct Hop as [Hop E]. cbn. eexists. split; [done|]. unfold tc_prune. rewrite E.
    apply prune_tracks; [done..|]. apply effect_on_prune.
  - destruct Hop. by apply tc_add_tracked.
  - cbn. unfold get_by_byte_prefix. destruct (keys_with_prefix_ok M0 tc M prefix HT Hop) as (keys & -> & Hkeys). cbn.
    exists tc. split; [|done]. do 3 f_equal. apply set_eq. intros k. rewrite elem_of_list_to_set, Hkeys, elem_of_filter. tauto.
Qed.
Lemma tc_run_tracked M0 tc M ops :
  tracks M0 tc M -> Forall (op_ok payload readable listable) ops ->
  tracked M0 (tc_run payload rust_type_name measure tc ops) (map_run payload rust_type_name M ops).
Proof.
  intros HT Hops. revert tc M HT. induction Hops as [|op ops Hop _ IH]; intros tc M HT; cbn [tc_run map_run]; [by exists tc|].
  pose proof (tc_step_tracked M0 tc M op HT Hop) as Hs.
  destruct (map_step payload rust_type_name M op) as [[out M1]| | |]; cbn in Hs |- *; try by rewrite Hs.
  destruct Hs as (tc1 & -> & HT1). cbn. specialize (IH tc1 M1 HT1).
  destruct (map_run payload rust_type_name M1 ops) as [[outs M2]| | |]; cbn in IH |- *; try by rewrite IH.
  destruct IH as (tc2 & -> & HT2). cbn. eauto.
Qed.
Lemma new_tracks r M0 : reads payload readable listable r M0 -> in_range M0 -> tracks M0 (tracking_copy_new payload r) M0.
Proof.
  intros Hr Hk. split; try done. cbn. split; cbn; [constructor|constructor|constructor|]. intros k Hin. set_solver.
Qed.

(** C8: a tracking copy is a faithful view of the state with its changes: whatever
    its cache keeps or drops and whatever values measure, a sequence of reads,
    writes, prunes of normalized keys, additions and listings by prefix returns what
    the same operations return on the map of the whole state, and committing the
    recorded effects to the original state yields exactly the resulting map. *)
Theorem tracking_copy_refines r M0 ops :
  reads payload readable listable r M0 -> in_range M0 -> Forall (op_ok payload readable listable) ops ->
  match map_run payload rust_type_name M0 ops with
  | Ok (outs, M) =>
      exists tc, tc_run payload rust_type_name measure (tracking_copy_new payload r) ops = Ok (outs, tc) /\
        effects_on M0 (tc_effects payload tc) = Ok M
  | Err e => tc_run payload rust_type_name measure (tracking_copy_new payload r) ops = Err e
  | Panic => tc_run payload rust_type_name measure (tracking_copy_new payload r) ops = Panic
  | Diverge => tc_run payload rust_type_name measure (tracking_copy_new payload r) ops = Diverge
  end.
Proof.
  intros Hr Hk Hops. pose proof (tc_run_tracked M0 _ M0 ops (new_tracks r M0 Hr Hk) Hops) as H.
  destruct (map_run payload rust_type_name M0 ops) as [[outs M]| | |]; [|done..].
  destruct H as (tc & -> & HT). exists tc. split; [done|]. by apply (tracks_effects M0 tc M).
Qed.

(** A fork of a copy without prunes reads the state the copy stands for; with
    prunes, reading through the fork does not. *)
Lemma fork_reads M0 tc M k :
  tracks M0 tc M -> key_ok k -> readable k -> k ∉ prunes_cached payload (tc_cache payload tc) ->
  reader_read payload (tc_reader payload (fork payload tc)) k = Ok (M !! k).
Proof.
  intros [Hr Hb HM Hc Hv He] Hk Hread Hp. cbn. unfold snapshot_read. rewrite (Hv k Hk). unfold cached_view.
  rewrite decide_False by done. destruct (btree_get _ _) as [[k' v]|]; [done|]. by rewrite (reads_read _ _ _ _ _ Hr).
Qed.
Lemma fork_reads_pruned r M k :
  reads payload readable listable r M -> key_ok k -> readable k -> normalize k = k ->
  let tc := tc_prune payload (tracking_copy_new payload r) k in
  (exists tc', get payload measure tc k = Ok (None, tc')) /\
  reader_read payload (tc_reader payload (fork payload tc)) k = Ok (M !! k).
Proof.
  intros Hr Hk Hread E. cbn. unfold tc_prune, get, cache_get. rewrite E. cbn. rewrite decide_True by set_solver.
  split; [by eexists|]. unfold snapshot_read. cbn. by rewrite (reads_read _ _ _ _ _ Hr).
Qed.
(** Pruning a [URef] that carries access rights hides it from the copy, but the
    recorded effect leaves the value in the committed state. *)
Lemma prune_with_rights_lost r M (u : URef) v :
  reads payload readable listable r M -> M !! Key_URef u = None -> M !! normalize (Key_URef u) = Some v ->
  let tc := tc_prune payload (tracking_copy_new payload r) (Key_URef u) in
  (exists tc', get payload measure tc (normalize (Key_URef u)) = Ok (None, tc')) /\
  effects_on M (tc_effects payload tc) = Ok M.
Proof.
  intros Hr Hu Hn. cbn zeta. split.
  - unfold tc_prune, get, cache_get. cbn -[normalize]. rewrite decide_True by set_solver. by eexists.
  - cbn -[normalize]. unfold GlobalState.effect_on. cbn [fst snd]. rewrite Hn. cbn. by rewrite delete_id.
Qed.
End refinement.

(** ** A concrete copy *)

(** A reader of a map. *)
Definition map_reader (payload : StoredValueTag -> Type) (M : gmap Key (StoredValue (K:=Key) payload)) : StateReader payload :=
  mkReader payload (fun key => Ok (M !! key))
    (fun prefix => Ok (filter (fun key => starts_with (key_repr key) prefix) (elements (dom M)))).
Lemma map_reader_reads payload M : reads payload (fun _ => True) (fun _ => True) (map_reader payload M) M.
Proof.
  split; [done|]. intros prefix _. eexists. split; [done|]. split; [apply NoDup_filter, NoDup_elements|]. intros key.
  rewrite list_elem_of_filter, elem_of_elements. tauto.
Qed.

#[local] Instance no_bid_repr : Bytesrepr (nothing T_BidKind) :=
  {| to_bytes := Empty_set_rect _; write_bytes := Empty_set_rect _;
     serialized_length := Empty_set_rect _; from_bytes _ := Err Formatting |}.
#[local] Instance no_package_repr : Bytesrepr (nothing T_ContractPackage) := no_bid_repr.

Definition some_hash : Key := Key_Hash (vreplicate 32 Byte.x00).
Definition some_purse : Key := Key_URef (mkURef (vreplicate 32 Byte.x01) ADD_WRITE).
Definition number (b : u8) : StoredValue (K:=Key) nothing := SV_CLValue nothing (mkCLValue CL_U8 (mkBytes [b])).
Definition number_u64 (b : u8) : StoredValue (K:=Key) nothing :=
  SV_CLValue nothing (mkCLValue CL_U64 (mkBytes (b :: replicate 7 Byte.x00))).
Definition some_state : gmap Key (StoredValue (K:=Key) nothing) := {[ some_hash := number Byte.x05 ]}.
Definition some_ops : list (TcOp nothing) :=
  [OpWrite nothing some_purse (number_u64 Byte.x02); OpAdd nothing some_purse (number_u64 Byte.x03);
   OpPrune nothing some_hash; OpRead nothing some_hash; OpRead nothing some_purse].
Definition some_outs : list (TcOut nothing) :=
  [OutDone nothing; OutAdd nothing AR_Success; OutDone nothing; OutValue nothing None;
   OutValue nothing (Some (number_u64 Byte.x05))].

Lemma some_run : exists M, map_run nothing unnamed some_state some_ops = Ok (some_outs, M).
Proof.
  assert (match map_run nothing unnamed some_state some_ops with Ok (outs, _) => Some outs | _ => None end = Some some_outs) as E
    by (vm_compute; reflexivity).
  destruct (map_run nothing unnamed some_state some_ops) as [[outs M]| | |]; [|discriminate E..].
  injection E as ->. by exists M.
Qed.

Lemma tracking_copy_refines_witness :
  exists M tc,
    map_run nothing unnamed some_state some_ops = Ok (some_outs, M) /\
    tc_run nothing unnamed (fun _ _ => 100) (tracking_copy_new nothing (map_reader nothing some_state)) some_ops =
      Ok (some_outs, tc) /\
    effects_on nothing unnamed some_state (tc_effects nothing tc) = Ok M.
Proof.
  pose proof (tracking_copy_refines nothing unnamed (fun _ _ => 100) (fun _ => True) (fun _ => True) (map_reader nothing some_state) some_state some_ops
    (map_reader_reads nothing some_state)) as H.
  pose proof some_run as [M E].
  rewrite E in H. exists M. destruct H as (tc & H1 & H2).
  - intros k Hk. unfold some_state in Hk. rewrite dom_singleton, elem_of_singleton in Hk. by subst k.
  - repeat constructor; vm_compute; intuition congruence.
  - exists tc. done.
Defined.
