(* ===== verification/Execution.v ===== *)
(** * Executing on the global state and committing the effects

    Puts the parts together: a tracking copy over a view of the trie store
    ([LmdbGlobalStateView] of [storage/src/global_state/state/lmdb.rs]), the
    operations of an execution on it, and the commit of the effects it recorded. *)
From S2P Require Import Prelude BTree Bytesrepr Struct Digest Uint Access CLType Key Trie TrieOps.
From S2P Require Import TrieRep TrieRead TrieKeys TrieZip TrieWrite Transform GlobalState KeyState Query TrackingCopy.

Open Scope Z_scope.

Section execution.
Context (blake2b : list u8 -> Digest) {TF : TreeFold1} (CHUNK_SIZE_BYTES : nat).
Context (Hchunk : 128 <= Z.of_nat CHUNK_SIZE_BYTES).
Context (payload : StoredValueTag -> Type).
Context {DB : Bytesrepr (payload T_BidKind)} {DP : Bytesrepr (payload T_ContractPackage)}.
Context (rust_type_name : num -> string).
Abbreviation V := (StoredValue (K:=Key) payload).
Context {DV : Bytesrepr V} {SV : BytesreprSpec V DV}.
Context (measure : Key -> V -> Z).
Abbreviation root_rep := (root_rep CHUNK_SIZE_BYTES (K:=Key) (V:=V)).
Abbreviation content_addressed := (content_addressed blake2b CHUNK_SIZE_BYTES).
Implicit Types (s : store) (M : gmap Key V).

(** [LmdbGlobalStateView::read] *)
Definition view_read s (root_hash : Digest) (key : Key) : result Error (option V) :=
  r ← read s root_hash key;
  match r with
  | Found value => Ok (Some value)
  | NotFound => Ok None
  | RootNotFound => Panic
  end.
(** [impl StateReader for LmdbGlobalStateView] *)
Definition view_reader (fuel : nat) s (root_hash : Digest) : StateReader payload :=
  mkReader payload (view_read s root_hash) (view_keys_with_prefix fuel s root_hash).

(** Keys that can be looked up and prefixes that can be listed in a state. *)
Definition readable M (key : Key) : Prop := key_ok key /\ read_safe M key.
Definition listable M (prefix : list u8) : Prop := not_within CHUNK_SIZE_BYTES M prefix.

Lemma view_read_ok s M root key : root_rep s M root -> readable M key -> view_read s root key = Ok (M !! key).
Proof.
  intros Hroot [Hk Hsafe]. destruct (key_has_path CHUNK_SIZE_BYTES Hchunk key Hk) as (p & Hp & _).
  unfold view_read. rewrite (read_rep CHUNK_SIZE_BYTES s M root key p Hroot Hp); [by destruct (M !! key)|].
  apply (read_safe_long CHUNK_SIZE_BYTES (V:=V) M key p); [by destruct Hroot|done|done].
Qed.
Lemma view_keys_exact s M root prefix :
  root_rep s M root -> listable M prefix ->
  exists n keys, (forall fuel, (n <= fuel)%nat -> view_keys_with_prefix fuel s root prefix = Ok keys) /\ NoDup keys /\
    forall key, key ∈ keys <-> key ∈ dom M /\ starts_with (key_repr key) prefix.
Proof.
  intros Hroot Hl. destruct (view_keys_ok CHUNK_SIZE_BYTES s M root prefix Hroot Hl) as (keys & n & Hl' & Hf).
  exists n, keys. split; [done|]. split; [by eapply lists_nodup|]. destruct Hl' as [_ He]. intros key. rewrite He, elem_of_dom. destruct Hroot as [Hkeys _].
  assert (forall p, key_path CHUNK_SIZE_BYTES key p -> key_repr key = p) as Hrepr.
  { intros p (_ & E & _). unfold key_repr. by rewrite E. }
  split.
  - intros (Hk & p & Hp & Hpre). split; [done|]. rewrite (Hrepr p Hp). by apply Is_true_true, starts_with_spec.
  - intros [Hk Hst]. destruct Hk as [v Hv]. destruct (Hkeys key v Hv) as (_ & p & Hp). split; [by eexists|].
    exists p. split; [done|]. rewrite (Hrepr p Hp) in Hst. by apply starts_with_spec, Is_true_true.
Qed.
(** With enough fuel for all the prefixes asked for, the view reads the map. *)
Lemma view_reader_reads s M root prefixes :
  root_rep s M root -> Forall (listable M) prefixes ->
  exists n, forall fuel, (n <= fuel)%nat ->
    reads payload (readable M) (fun prefix => prefix ∈ prefixes) (view_reader fuel s root) M.
Proof.
  intros Hroot Hl.
  assert (exists n, forall fuel prefix, (n <= fuel)%nat -> prefix ∈ prefixes -> exists keys,
    view_keys_with_prefix fuel s root prefix = Ok keys /\ NoDup keys /\
    forall key, key ∈ keys <-> key ∈ dom M /\ starts_with (key_repr key) prefix) as [n Hn].
  { induction Hl as [|prefix prefixes Hp _ IH]; [exists 0%nat; by intros ? ? _ ?%not_elem_of_nil|].
    destruct IH as [n Hn]. destruct (view_keys_exact s M root prefix Hroot Hp) as (n' & keys & Hk & Hnd & He).
    exists (Nat.max n n'). intros fuel prefix' Hf [->|Hin]%elem_of_cons; [|apply Hn; [lia|done]].
    exists keys. split; [apply Hk; lia|done]. }
  exists n. intros fuel Hf. split; [|intros prefix Hp; by apply Hn].
  intros key Hk. by apply view_read_ok.
Qed.

Definition op_prefix (op : TcOp payload) : option (list u8) := match op with OpKeys _ prefix => Some prefix | _ => None end.
Lemma op_ok_weaken M ops :
  Forall (op_ok payload (readable M) (listable M)) ops ->
  Forall (listable M) (omap op_prefix ops) /\
  Forall (op_ok payload (readable M) (fun prefix => prefix ∈ omap op_prefix ops)) ops.
Proof.
  intros H. rewrite Forall_forall in H. split; apply Forall_forall.
  - intros prefix (op & Hin & E)%list_elem_of_omap. specialize (H op Hin). destruct op; try done. by injection E as ->.
  - intros op Hin. specialize (H op Hin). destruct op as [| | | |prefix]; try done. apply list_elem_of_omap.
    by exists (OpKeys payload prefix).
Qed.

(** C2: execution on the global state, end to end: operations run on a tracking
    copy over the state under a root give the results they have on the map that the
    root represents; committing the recorded effects, if they are safe to commit,
    succeeds, and the new root represents the map after the operations, in a store that
    still holds everything it held.  The operations read and add to keys that can be
    looked up, prune keys in normal form and list prefixes within which no key ends. *)
Theorem execute_and_commit s M root ops outs M' :
  root_rep s M root -> content_addressed s -> Forall (op_ok payload (readable M) (listable M)) ops ->
  map_run payload rust_type_name M ops = Ok (outs, M') ->
  exists n, forall fuel, (n <= fuel)%nat -> exists tc,
    tc_run payload rust_type_name measure (tracking_copy_new payload (view_reader fuel s root)) ops = Ok (outs, tc) /\
    (commit_safe blake2b CHUNK_SIZE_BYTES payload rust_type_name s root M (tc_effects payload tc) ->
     exists root' s',
       commit blake2b CHUNK_SIZE_BYTES payload rust_type_name s root (tc_effects payload tc) = Ok (root', s') /\
       root_rep s' M' root' /\ content_addressed s' /\ s ⊆ s').
Proof.
  intros Hroot Hca [Hpre Hops]%op_ok_weaken Hrun. destruct (view_reader_reads s M root _ Hroot Hpre) as [n Hn].
  exists n. intros fuel Hf. assert (TrackingCopy.in_range payload M) as Hkeys.
  { intros k [v Hk]%elem_of_dom. destruct Hroot as [Hok _]. by destruct (Hok k v Hk) as (_ & p & Hp & _). }
  pose proof (tc_run_tracked payload rust_type_name measure (readable M) _ M _ M ops
    (new_tracks payload rust_type_name (readable M) _ _ M (Hn fuel Hf) Hkeys) Hops) as Ht.
  rewrite Hrun in Ht. destruct Ht as (tc & E & HT). exists tc. split; [done|]. intros Hsafe.
  pose proof (commit_loop_refines blake2b CHUNK_SIZE_BYTES payload rust_type_name s M root _ Hroot Hca Hsafe) as Hl.
  rewrite (tracks_effects _ _ _ _ _ _ _ HT) in Hl. unfold commit.
  pose proof Hroot as (_ & pb & f & Hst & _). rewrite (get_stores _ _ _ Hst). cbn [map_err mbind result_bind].
  destruct (commit_loop _ _ _ _ _ _ _) as [[root' s']| | |]; try done. by exists root', s'.
Qed.
End execution.

(** ** A concrete execution *)

#[local] Existing Instances nk_value_repr nk_value_spec no_bid no_package.
Definition new_number : nk_value := SV_CLValue _ (mkCLValue CL_U8 (mkBytes [Byte.x07])).
Definition nk_ops : list (TcOp with_named_keys) :=
  [OpRead _ the_contract; OpWrite _ the_number new_number; OpRead _ the_number].
Definition nk_effects : list (Key * TransformKindV2 (K:=Key) with_named_keys) :=
  [(the_contract, Identity _); (normalize the_number, Write _ new_number); (normalize the_number, Identity _)].
Definition nk_outs : list (TcOut with_named_keys) :=
  [OutValue _ (Some contract_value); OutDone _; OutValue _ (Some new_number)].

Abbreviation nk_safe := (commit_safe (TF:=TreeFold1_ref) checksum example_chunk with_named_keys unnamed).
Abbreviation nk_commit := (commit (TF:=TreeFold1_ref) checksum example_chunk with_named_keys unnamed).

Lemma nk_present : is_Some (nk_map !! the_contract) /\ is_Some (nk_map !! normalize the_number).
Proof. split; vm_compute; by eexists. Qed.
Lemma nk_path M k : key_ok k -> is_Some (M !! k) ->
  exists p, key_path example_chunk k p /\ long_enough example_chunk (V:=nk_value) M k p.
Proof.
  intros Hk HM. destruct (key_has_path example_chunk example_chunk_128 k Hk) as (p & Hp & _). exists p. split; [done|by left].
Qed.
Lemma new_number_ok : representable new_number.
Proof. cbn. split_and!; try done. vm_compute. lia. Qed.
Lemma new_number_leaf : exists b, trie_to_bytes (Leaf (normalize the_number) new_number) = Ok b.
Proof. eexists. vm_compute. reflexivity. Qed.
Lemma new_number_clash_free :
  write_clash_free (TF:=TreeFold1_ref) checksum example_chunk (normalize the_number) new_number nk_store nk_root = true.
Proof. vm_compute. reflexivity. Qed.
Lemma effect_identity (M : gmap Key nk_value) k : effect_on with_named_keys unnamed M (k, Identity with_named_keys) = Ok M.
Proof. reflexivity. Qed.
Lemma effect_write (M : gmap Key nk_value) k v : effect_on with_named_keys unnamed M (k, Write with_named_keys v) = Ok (<[k := v]> M).
Proof. reflexivity. Qed.
Lemma step_identity s root k root' s' :
  commit_step (TF:=TreeFold1_ref) checksum example_chunk with_named_keys unnamed s root (k, Identity with_named_keys) = Ok (root', s') ->
  root' = root /\ s' = s.
Proof. intros (r & _ & E)%bind_Ok. by destruct r; injection E as <- <-. Qed.
Lemma nk_commit_safe : nk_safe nk_store nk_root nk_map nk_effects.
Proof.
  destruct nk_present as [H1 H2]. cbn [commit_safe nk_effects].
  split; [split; [exact (nk_path nk_map the_contract I H1)|exact I]|].
  intros root1 s1 M1 E1. rewrite effect_identity. intros [= <-].
  apply step_identity in E1 as [-> ->].
  split; [split; [exact (nk_path nk_map _ (proj2 the_number_ok) H2)|]|].
  - cbn [fst snd wanted]. split; [exact new_number_ok|]. split; [exact new_number_leaf|].
    apply write_no_clash_check. exact new_number_clash_free.
  - intros root2 s2 M2 _. rewrite effect_write. intros [= <-]. split; [split; [|exact I]|done].
    apply nk_path; [exact (proj2 the_number_ok)|]. cbn [fst]. rewrite lookup_insert_eq. by eexists.
Qed.
Lemma nk_run : exists M, map_run with_named_keys unnamed nk_map nk_ops = Ok (nk_outs, M).
Proof.
  assert (match map_run with_named_keys unnamed nk_map nk_ops with Ok (outs, _) => Some outs | _ => None end = Some nk_outs) as E
    by (vm_compute; reflexivity).
  destruct (map_run with_named_keys unnamed nk_map nk_ops) as [[outs M]| | |]; [|discriminate E..].
  injection E as ->. by exists M.
Qed.
Lemma nk_run_effects fuel :
  match tc_run with_named_keys unnamed (fun _ _ => 1) (tracking_copy_new _ (view_reader with_named_keys fuel nk_store nk_root)) nk_ops with
  | Ok (_, tc) => Some (tc_effects _ tc)
  | _ => None
  end = Some nk_effects.
Proof. vm_compute. reflexivity. Qed.

Lemma execute_and_commit_witness :
  exists M' root' s', map_run with_named_keys unnamed nk_map nk_ops = Ok (nk_outs, M') /\
    nk_commit nk_store nk_root nk_effects = Ok (root', s') /\ root_rep example_chunk s' M' root'.
Proof.
  destruct nk_run as [M' Hrun]. destruct nk_state_rep as [Hroot Hca]. destruct nk_present as [H1 H2].
  destruct (execute_and_commit (TF:=TreeFold1_ref) checksum example_chunk example_chunk_128 with_named_keys unnamed (fun _ _ => 1)
    nk_store nk_map nk_root nk_ops nk_outs M' Hroot Hca) as [n Hn]; [|exact Hrun|].
  - pose proof the_number_ok as [Hn1 Hn2]. constructor; [split; [exact I|split; [exact I|left; exact H1]]|].
    constructor; [exact Hn1|]. constructor; [split; [exact Hn1|split; [exact Hn2|left; exact H2]]|constructor].
  - destruct (Hn n (le_n n)) as (tc & E & Hc). pose proof (nk_run_effects n) as He. rewrite E in He. injection He as He.
    rewrite He in Hc. destruct (Hc nk_commit_safe) as (root' & s' & Ec & Hr & _). exists M', root', s'.
    split; [exact Hrun|]. split; [exact Ec|exact Hr].
Defined.
