(* ===== verification/Balances.v ===== *)
(** * Balances and balance holds

    Models the balances of purses in [storage/src/tracking_copy/ext.rs] and
    [storage/src/data_access_layer/balance.rs], [HoldsEpoch] of
    [types/src/block_time.rs] and [HoldBalanceHandling]: a purse has a total
    balance; what is available of it is the total less what is held for gas, in full
    or amortized over the hold interval, and for processing. *)
From S2P Require Import Prelude Effects BTree Bytesrepr Struct Digest Uint Units Access CLType Account Key KeyState KeyPrefix.
From S2P Require Import Trie TrieOps TrieKeys Transform GlobalState TrackingCopy.

Open Scope Z_scope.

(** ** Holds *)

Inductive HoldBalanceHandling : Type := Accrued | Amortized.
Definition handling_from_tag (tag : u8) : option HoldBalanceHandling :=
  match tag with Byte.x00 => Some Accrued | Byte.x01 => Some Amortized | _ => None end.
Definition handling_tag (h : HoldBalanceHandling) : u8 := match h with Accrued => Byte.x00 | Amortized => Byte.x01 end.

Inductive BalanceHoldAddrTag : Type := HT_Gas | HT_Processing.
#[global] Instance BalanceHoldAddrTag_eq_dec : EqDecision BalanceHoldAddrTag.
Proof. solve_decision. Defined.
Definition hold_kind (a : BalanceHoldAddr) : BalanceHoldAddrTag :=
  match a with BH_Gas _ _ => HT_Gas | BH_Processing _ _ => HT_Processing end.
Definition hold_kind_order (t : BalanceHoldAddrTag) : Z := match t with HT_Gas => 0 | HT_Processing => 1 end.
#[global] Instance hold_kind_ord : TotalOrd BalanceHoldAddrTag := ord_by hold_kind_order.
#[global] Instance hold_kind_ord_laws : TotalOrdLaws BalanceHoldAddrTag.
Proof. apply ord_by_laws. by intros [] []. Qed.

(** [num_rational]: the checked product of two ratios, given as numerators and
    denominators. *)
Class RatioOps : Type := ratio_checked_mul : Z * Z -> Z * Z -> result Error (option (Z * Z)).
(** Documented: the product is exact; [None] only if a factor does not fit. *)
Class RatioLaws `{RatioOps} : Prop := {
  ratio_mul_exact n1 d1 n2 d2 : in_u 512 n1 -> in_u 512 n2 -> in_u 512 d1 -> in_u 512 d2 -> 0 < d1 -> 0 < d2 ->
    exists o, ratio_checked_mul (n1, d1) (n2, d2) = Ok o /\
      match o with
      | Some (n, d) => 0 <= n /\ 0 < d /\ n * (d1 * d2) = n1 * n2 * d
      | None => ~ (in_u 512 (n1 * n2) /\ in_u 512 (d1 * d2))
      end
}.
Definition to_integer (r : Z * Z) : Z := r.1 `div` r.2.

Inductive BalanceFailure : Type := AmortizationFailure | HeldExceedsTotal.

(** [BTreeMap<BlockTime, BalanceHolds>] *)
Abbreviation BalanceHolds := (list (BalanceHoldAddrTag * Z)).
Abbreviation HoldsByTime := (list (Z * BalanceHolds)).

(** [Sum] of a [U512], whose addition panics when it overflows. *)
Definition u512_sum {E} (l : list Z) : result E Z := foldl (fun acc x => a ← acc; expect (checked_add 512 a x)) (Ok 0) l.
Definition accrued {E} (hs : HoldsByTime) (kind : BalanceHoldAddrTag) : result E Z :=
  u512_sum (omap (fun h => btree_get kind h.2) hs).
Definition holds_of (hs : HoldsByTime) (kind : BalanceHoldAddrTag) : HoldsByTime :=
  omap (fun h => (fun hold => (h.1, [(kind, hold)])) <$> btree_get kind h.2) hs.

Section amortization.
Context `{RatioOps}.

(** One round of the loop of [amortization]. *)
Definition amortize (block_time interval : Z) (held : Z) (h : Z * BalanceHolds) : result (Error + BalanceFailure) Z :=
  let '(hold_created_time, holds) := h in
  if block_time <? hold_created_time then Ok held
  else
    let expiry := saturating_add 64 hold_created_time interval in
    if expiry <? block_time then Ok held
    else
      held_amount ← u512_sum holds.*2;
      let remaining_time := saturating_sub expiry block_time in
      product ← map_err inl (ratio_checked_mul (held_amount, 1) (remaining_time, interval));
      match product with
      | Some amortized => expect (checked_add 512 held (to_integer amortized))
      | None => Err (inr AmortizationFailure)
      end.
Definition amortization (hs : HoldsByTime) (kind : BalanceHoldAddrTag) (block_time interval : Z) :
    result (Error + BalanceFailure) Z :=
  foldl (fun acc h => held ← acc; amortize block_time interval held h) (Ok 0) (holds_of hs kind).

(** [AvailableBalanceChecker::available_balance]; processing holds are accrued. *)
Definition available_balance (hs : HoldsByTime) (block_time total_balance : Z) (handling : HoldBalanceHandling) (interval : Z) :
    result (Error + BalanceFailure) Z :=
  match hs with
  | [] => Ok total_balance
  | _ =>
      gas_held ← match handling with
                 | Accrued => accrued hs HT_Gas
                 | Amortized => amortization hs HT_Gas block_time interval
                 end;
      processing_held ← accrued hs HT_Processing;
      let held := saturating_add 512 gas_held processing_held in
      if total_balance <? held then Ok 0
      else ok_or (checked_sub 512 total_balance held) (inr HeldExceedsTotal)
  end.
End amortization.

(** ** Balances in a tracking copy *)

Inductive TrackingCopyError : Type :=
| TCE_Storage (e : Error)
| TCE_BytesRepr (e : Error)
| TCE_KeyNotFound (key : Key)
| TCE_TypeMismatch (e : TransformError)
| TCE_CLValue (e : CLValueError)
| TCE_UnexpectedKeyVariant (key : Key)
| TCE_UnexpectedStoredValueVariant
| TCE_MissingSystemContractHash
| TCE_NamedKeyNotFound (name : RString)
| TCE_ValueNotFound
| TCE_Balance (e : BalanceFailure).

(** Names of the mint and its named keys *)
Definition rstring (s : string) : RString := mkRString (String.list_byte_of_string s).
Definition MINT : RString := rstring "mint".
Definition MINT_GAS_HOLD_HANDLING_KEY : RString := rstring "gas_hold_handling".
Definition MINT_GAS_HOLD_INTERVAL_KEY : RString := rstring "gas_hold_interval".

(** [into_t] at a type of numbers *)
Definition into_num (n : num) (v : CLValue) : result CLValueError Z := into_t (H := num_repr n) (H0 := num_cl_type n) v.
Abbreviation into_u512 := (into_num U512).

Section balances.
Context (payload : StoredValueTag -> Type).
Context {DB : Bytesrepr (payload T_BidKind)} {DP : Bytesrepr (payload T_ContractPackage)}.
Context (measure : Key -> StoredValue (K:=Key) payload -> Z).
Context `{RatioOps}.
Abbreviation V := (StoredValue (K:=Key) payload).
Abbreviation TrackingCopy := (TrackingCopy payload).
Abbreviation NamedKeys := (list (RString * Key)).
(** The named keys of an addressable entity *)
Context (entity_named_keys : TrackingCopy -> Key -> EntityAddr -> result TrackingCopyError NamedKeys).


(** [self.read] on a shared reference *)
Definition shared_read (tc : TrackingCopy) (key : Key) : result TrackingCopyError (option V) :=
  map_err TCE_Storage (snapshot_read payload tc key).
Definition shared_keys_with_prefix (tc : TrackingCopy) (kp : KeyPrefix) : result TrackingCopyError (list Key) :=
  prefix ← map_err TCE_BytesRepr (key_prefix_to_bytes kp);
  map_err TCE_Storage (keys_with_prefix payload tc prefix).

(** Methods on [&self] and [self.read] on [&mut self]; an error of the reader leaves
    the copy as it was. *)
Definition shared {A} (f : TrackingCopy -> result TrackingCopyError A) : st TrackingCopy TrackingCopyError A := fun tc => (f tc, tc).
Definition copy_read (key : Key) : st TrackingCopy TrackingCopyError (option V) := fun tc =>
  match tc_read payload measure tc key with
  | Ok (value, tc) => (Ok value, tc)
  | Err e => (Err (TCE_Storage e), tc)
  | Panic => (Panic, tc)
  | Diverge => (Diverge, tc)
  end.

Definition get_total_balance (tc : TrackingCopy) (key : Key) : result TrackingCopyError Z :=
  let key := match key with Key_URef uref => Key_Balance (addr uref) | key => key end in
  match key with
  | Key_Balance _ =>
      o ← shared_read tc key;
      stored_value ← ok_or o (TCE_KeyNotFound key);
      cl_value ← map_err TCE_TypeMismatch (CLValue_try_from payload stored_value);
      map_err TCE_CLValue (into_u512 cl_value)
  | _ => Err (TCE_UnexpectedKeyVariant key)
  end.

Definition get_block_time (tc : TrackingCopy) : result TrackingCopyError (option Z) :=
  o ← shared_read tc (Key_BlockGlobal BG_BlockTime);
  match o with
  | None => Ok None
  | Some (SV_CLValue _ cl_value) => block_time ← map_err TCE_CLValue (into_num U64 cl_value); Ok (Some block_time)
  | Some _ => Err TCE_UnexpectedStoredValueVariant
  end.

(** [SystemHashRegistry] *)
Definition registry_type : CLType := CL_Map CL_String (CL_ByteArray 32).
Definition get_system_entity_registry (tc : TrackingCopy) : result TrackingCopyError (list (RString * vec u8 32)) :=
  o ← shared_read tc Key_SystemEntityRegistry;
  match o with
  | Some (SV_CLValue _ registry) => map_err TCE_CLValue (into_t (T := list (RString * vec u8 32)) (H0 := registry_type) registry)
  | Some other => Err (TCE_TypeMismatch (TE_TypeMismatch "CLValue" (type_name payload other)))
  | None => Err (TCE_KeyNotFound Key_SystemEntityRegistry)
  end.
Definition registry_exists (registry : list (RString * vec u8 32)) (hash_addr : vec u8 32) : bool :=
  existsb (fun h => bool_decide (h = hash_addr)) registry.*2.

Definition into_key (v : CLValue) : result TrackingCopyError Key := map_err TCE_CLValue (into_t (T := Key) (H0 := CL_Key) v).
(** The named keys of a runtime footprint; those of an addressable entity are listed
    by [entity_named_keys]. *)
Definition get_named_keys (tc : TrackingCopy) (entity_addr : EntityAddr) : result TrackingCopyError NamedKeys :=
  match entity_addr with
  | EA_Account account_addr =>
      o ← shared_read tc (Key_Account account_addr);
      match o with
      | Some (SV_Account _ account) => Ok (account_named_keys payload account)
      | Some (SV_CLValue _ cl_value) => entity_key ← into_key cl_value; entity_named_keys tc entity_key entity_addr
      | Some other => Err (TCE_TypeMismatch (TE_TypeMismatch "Account or Key" (type_name payload other)))
      | None => Err (TCE_KeyNotFound (Key_Account account_addr))
      end
  | EA_SmartContract hash_addr | EA_System hash_addr =>
      o ← shared_read tc (Key_Hash hash_addr);
      match o with
      | Some (SV_Contract _ contract) =>
          _ ← get_system_entity_registry tc;
          Ok (contract_named_keys payload contract)
      | Some (SV_CLValue _ cl_value) => entity_key ← into_key cl_value; entity_named_keys tc entity_key entity_addr
      | _ => entity_named_keys tc (Key_AddressableEntity entity_addr) entity_addr
      end
  end.

(** The value under a named key that is a [URef]. *)
Definition named_value (tc : TrackingCopy) (named_keys : NamedKeys) (name : RString) : result TrackingCopyError CLValue :=
  named_key ← ok_or (btree_get name named_keys) (TCE_NamedKeyNotFound name);
  _ ← ok_or (into_uref named_key) (TCE_UnexpectedKeyVariant named_key);
  o ← shared_read tc (normalize named_key);
  match o with
  | Some (SV_CLValue _ cl_value) => Ok cl_value
  | Some _ => Err TCE_UnexpectedStoredValueVariant
  | None => Err TCE_ValueNotFound
  end.
Definition get_balance_hold_config (tc : TrackingCopy) (kind : BalanceHoldAddrTag) :
    result TrackingCopyError (option (Z * HoldBalanceHandling * Z)) :=
  o ← get_block_time tc;
  match o with
  | None => Ok None
  | Some block_time =>
      match kind with
      | HT_Processing => Ok (Some (block_time, Accrued, 0))
      | HT_Gas =>
          registry ← get_system_entity_registry tc;
          entity_hash ← ok_or (btree_get MINT registry) TCE_MissingSystemContractHash;
          named_keys ← get_named_keys tc (EA_System entity_hash);
          tag_value ← named_value tc named_keys MINT_GAS_HOLD_HANDLING_KEY;
          handling_tag ← map_err TCE_CLValue (into_num U8 tag_value);
          handling ← ok_or (handling_from_tag (u8_of_Z handling_tag)) TCE_ValueNotFound;
          interval_value ← named_value tc named_keys MINT_GAS_HOLD_INTERVAL_KEY;
          interval ← map_err TCE_CLValue (into_num U64 interval_value);
          Ok (Some (block_time, handling, interval))
      end
  end.

Fixpoint hold_addrs (keys : list Key) : result TrackingCopyError (list BalanceHoldAddr) :=
  match keys with
  | [] => Ok []
  | key :: keys =>
      match key with
      | Key_BalanceHold addr => ret ← hold_addrs keys; Ok (addr :: ret)
      | _ => Err (TCE_UnexpectedKeyVariant key)
      end
  end.
Definition get_balance_hold_addresses (tc : TrackingCopy) (purse_addr : URefAddr) :
    result TrackingCopyError (list BalanceHoldAddr) :=
  gas_keys ← shared_keys_with_prefix tc (KP_GasBalanceHoldsByPurse purse_addr);
  gas ← hold_addrs gas_keys;
  processing_keys ← shared_keys_with_prefix tc (KP_ProcessingBalanceHoldsByPurse purse_addr);
  processing ← hold_addrs processing_keys;
  Ok (gas ++ processing).

(** The entry of a hold; a second one for the same time and kind is unreachable. *)
Definition add_hold (ret : HoldsByTime) (a : BalanceHoldAddr) (hold_amount : Z) : result TrackingCopyError HoldsByTime :=
  let time := block_time_value (hold_block_time a) in
  match btree_get time ret with
  | None => Ok (btree_insert time [(hold_kind a, hold_amount)] ret)
  | Some inner =>
      match btree_get (hold_kind a) inner with
      | None => Ok (btree_insert time (btree_insert (hold_kind a) hold_amount inner) ret)
      | Some _ => Panic
      end
  end.
Fixpoint collect_holds (epoch : HoldsEpoch) (holds : list BalanceHoldAddr) (ret : HoldsByTime) : st TrackingCopy TrackingCopyError HoldsByTime :=
  match holds with
  | [] => mret ret
  | a :: holds =>
      if match epoch with Some timestamp => block_time_value (hold_block_time a) <? timestamp | None => false end then
        collect_holds epoch holds ret
      else
        value ← copy_read (Key_BalanceHold a);
        hold_amount ← lift match value with
                           | Some (SV_CLValue _ cl_value) => map_err TCE_CLValue (into_u512 cl_value)
                           | Some _ => Err TCE_UnexpectedStoredValueVariant
                           | None => Err (TCE_KeyNotFound (Key_BalanceHold a))
                           end;
        ret ← lift (add_hold ret a hold_amount);
        collect_holds epoch holds ret
  end.
Definition get_balance_holds (purse_addr : URefAddr) (block_time interval : Z) : st TrackingCopy TrackingCopyError HoldsByTime :=
  holds ← shared (fun tc => get_balance_hold_addresses tc purse_addr);
  collect_holds (HoldsEpoch_from_millis block_time interval) holds [].

Definition balance_error (e : Error + BalanceFailure) : TrackingCopyError :=
  match e with inl e => TCE_Storage e | inr e => TCE_Balance e end.
Definition get_available_balance (key : Key) : st TrackingCopy TrackingCopyError Z :=
  match match key with Key_URef uref => Some (addr uref) | Key_Balance uref_addr => Some uref_addr | _ => None end with
  | None => throw (TCE_UnexpectedKeyVariant key)
  | Some purse_addr =>
      total_balance ← shared (fun tc => get_total_balance tc (Key_Balance purse_addr));
      config ← shared (fun tc => get_balance_hold_config tc HT_Gas);
      match config with
      | None => mret total_balance
      | Some (block_time, handling, interval) =>
          balance_holds ← get_balance_holds purse_addr block_time interval;
          lift (map_err balance_error (available_balance balance_holds block_time total_balance handling interval))
      end
  end.

(** The loops of [clear_expired_balance_holds] *)
Fixpoint prune_holds (epoch : HoldsEpoch) (hold_keys : list Key) : st TrackingCopy TrackingCopyError () :=
  match hold_keys with
  | [] => mret ()
  | hold_key :: hold_keys =>
      match hold_key with
      | Key_BalanceHold a =>
          if match epoch with Some earliest => earliest <? block_time_value (hold_block_time a) | None => false end then
            prune_holds epoch hold_keys
          else
            _ ← modify (fun tc => tc_prune payload tc hold_key);
            prune_holds epoch hold_keys
      | _ => throw (TCE_UnexpectedKeyVariant hold_key)
      end
  end.
Fixpoint clear_expired_balance_holds (purse_addr : URefAddr) (filter : list (BalanceHoldAddrTag * HoldsEpoch)) :
    st TrackingCopy TrackingCopyError () :=
  match filter with
  | [] => mret ()
  | (tag, epoch) :: filter =>
      hold_keys ← shared (fun tc => shared_keys_with_prefix tc
        match tag with HT_Gas => KP_GasBalanceHoldsByPurse purse_addr | HT_Processing => KP_ProcessingBalanceHoldsByPurse purse_addr end);
      _ ← prune_holds epoch hold_keys;
      clear_expired_balance_holds purse_addr filter
  end.
End balances.

(** ** Sums of holds *)

Lemma in_u_max w z : 0 <= z <= u_max w -> in_u w z.
Proof. unfold in_u, u_max. lia. Qed.

Lemma u512_sum_ok {E} l : Forall (Z.le 0) l -> zsum l <= u_max 512 -> u512_sum (E := E) l = Ok (zsum l).
Proof.
  unfold u512_sum. assert (forall a, 0 <= a -> Forall (Z.le 0) l -> a + zsum l <= u_max 512 ->
    foldl (fun acc x => a0 ← acc; expect (checked_add 512 a0 x)) (Ok a : result E Z) l = Ok (a + zsum l)) as H.
  { induction l as [|x l IH]; intros a Ha Hl Hs; cbn [foldl]; [cbn; by rewrite Z.add_0_r|].
    apply Forall_cons_1 in Hl as [Hx Hl]. pose proof (zsum_nonneg l Hl). cbn [zsum foldr] in Hs |- *. fold (zsum l) in Hs |- *.
    cbn [mbind result_bind]. unfold checked_add, checked. rewrite decide_True by (apply in_u_max; lia). cbn [expect].
    rewrite IH by (done || lia). f_equal. lia. }
  intros Hl Hs. by rewrite H.
Qed.

(** The times and amounts of the holds of a kind. *)
Definition pairs_of (hs : HoldsByTime) (kind : BalanceHoldAddrTag) : list (Z * Z) :=
  omap (fun h => (fun hold => (h.1, hold)) <$> btree_get kind h.2) hs.
Lemma accrued_pairs {E} hs kind : accrued (E := E) hs kind = u512_sum (pairs_of hs kind).*2.
Proof.
  unfold accrued, pairs_of. f_equal. induction hs as [|h hs IH]; cbn; [done|]. destruct (btree_get kind h.2); cbn; by rewrite IH.
Qed.
Lemma holds_of_pairs hs kind : holds_of hs kind = (fun p => (p.1, [(kind, p.2)])) <$> pairs_of hs kind.
Proof.
  unfold holds_of, pairs_of. induction hs as [|h hs IH]; cbn; [done|]. destruct (btree_get kind h.2); cbn; by rewrite IH.
Qed.

(** What remains held of an amount: the share of the interval that is left. *)
Definition remaining_held (block_time interval : Z) (p : Z * Z) : Z :=
  let '(created, amount) := p in
  if block_time <? created then 0
  else if created + interval <? block_time then 0
  else (amount * (created + interval - block_time)) `div` interval.
Lemma remaining_held_bounds t i p : 0 < i -> 0 <= p.2 -> 0 <= remaining_held t i p <= p.2.
Proof.
  destruct p as [c a]. cbn. intros Hi Ha. destruct (Z.ltb_spec t c); [lia|]. destruct (Z.ltb_spec (c + i) t); [lia|].
  split; [apply Z.div_pos; nia|]. apply Z.div_le_upper_bound; nia.
Qed.
(** As time passes, less is held, from everything at first to nothing in the end. *)
Lemma remaining_held_mono t t' i p : 0 < i -> 0 <= p.2 -> p.1 <= t -> t <= t' -> remaining_held t' i p <= remaining_held t i p.
Proof.
  destruct p as [c a]. cbn. intros Hi Ha Hc Ht. destruct (Z.ltb_spec t' c); [lia|]. destruct (Z.ltb_spec t c); [lia|].
  destruct (Z.ltb_spec (c + i) t'); destruct (Z.ltb_spec (c + i) t); try lia; [apply Z.div_pos; nia|].
  apply Z.div_le_mono; nia.
Qed.
Lemma remaining_held_ends c i a : 0 < i -> 0 <= a -> remaining_held c i (c, a) = a /\ remaining_held (c + i) i (c, a) = 0.
Proof.
  intros Hi Ha. cbn. rewrite Z.ltb_irrefl. destruct (Z.ltb_spec (c + i) c); [lia|]. destruct (Z.ltb_spec (c + i) (c + i)); [lia|].
  split; [replace (c + i - c) with i by lia; by apply Z.div_mul; lia|]. replace (c + i - (c + i)) with 0 by lia. by rewrite Z.mul_0_r.
Qed.

Section amortization_laws.
Context `{RatioLaws}.

(** Times and intervals for which the sum of a time and the interval does not
    saturate. *)
Definition times_fit (interval : Z) (p : Z * Z) : Prop :=
  0 <= p.1 /\ p.1 + interval <= u_max 64 /\ 0 <= p.2 /\ p.2 * interval <= u_max 512.

Lemma u64_in_u512 z : 0 <= z -> z <= u_max 64 -> in_u 512 z.
Proof. intros H1 H2. apply in_u_max. split; [done|]. etrans; [exact H2|]. by vm_compute. Qed.

Lemma amortize_ok t i held kind p :
  0 < i -> i <= u_max 64 -> 0 <= t -> times_fit i p -> 0 <= held -> held + p.2 <= u_max 512 ->
  amortize t i held (p.1, [(kind, p.2)]) = Ok (held + remaining_held t i p).
Proof.
  destruct p as [c a]. unfold times_fit. cbn [fst snd]. intros Hi Hi' Ht (Hc & Hci & Ha & Hai) Hh Hs.
  unfold amortize, remaining_held. destruct (Z.ltb_spec t c); [f_equal; lia|].
  unfold saturating_add. rewrite Z.min_l by lia. destruct (Z.ltb_spec (c + i) t); [f_equal; lia|].
  cbn [fmap list_fmap snd]. rewrite u512_sum_ok; [|constructor; [lia|constructor]|cbn; lia]. cbn [zsum foldr mbind result_bind].
  rewrite Z.add_0_r. unfold saturating_sub. rewrite Z.max_l by lia.
  assert (a * 1 <= a * i) as Hai1 by (apply Z.mul_le_mono_nonneg_l; lia).
  assert (0 <= a * (c + i - t) <= a * i) as Hai2 by (split; [apply Z.mul_nonneg_nonneg|apply Z.mul_le_mono_nonneg_l]; lia).
  assert (in_u 512 1) as Hu1 by (apply u64_in_u512; [lia|by vm_compute]).
  destruct (ratio_mul_exact a 1 (c + i - t) i) as (o & -> & Ho);
    [apply in_u_max; lia|apply u64_in_u512; lia|exact Hu1|apply u64_in_u512; lia|lia|lia|].
  cbn [map_err mbind result_bind]. destruct o as [[n d]|].
  - destruct Ho as (Hn & Hd & E). assert (to_integer (n, d) = (a * (c + i - t)) `div` i) as ->.
    { unfold to_integer. cbn [fst snd]. rewrite <- (Z.div_mul_cancel_r n d i), <- (Z.div_mul_cancel_r (a * (c + i - t)) i d) by lia.
      f_equal; lia. }
    pose proof (remaining_held_bounds t i (c, a) Hi Ha) as Hb. cbn in Hb. destruct (Z.ltb_spec t c); [lia|].
    destruct (Z.ltb_spec (c + i) t); [lia|]. unfold checked_add, checked. by rewrite decide_True by (apply in_u_max; lia).
  - exfalso. apply Ho. split; [apply in_u_max; lia|]. apply u64_in_u512; lia.
Qed.
Lemma amortization_ok hs kind t i :
  0 < i -> i <= u_max 64 -> 0 <= t -> Forall (times_fit i) (pairs_of hs kind) -> zsum (pairs_of hs kind).*2 <= u_max 512 ->
  amortization hs kind t i = Ok (zsum (remaining_held t i <$> pairs_of hs kind)).
Proof.
  intros Hi Hi' Ht Hf Hs. unfold amortization. rewrite holds_of_pairs. revert Hf Hs.
  generalize (pairs_of hs kind) as ps. intros ps Hf Hs.
  assert (forall held, 0 <= held -> held + zsum ps.*2 <= u_max 512 ->
    foldl (fun acc h => held0 ← acc; amortize t i held0 h) (Ok held) ((fun p => (p.1, [(kind, p.2)])) <$> ps) =
    Ok (held + zsum (remaining_held t i <$> ps))) as Hfold; [|by rewrite Hfold].
  clear Hs. induction Hf as [|p ps Hp Hf IH]; intros held Hh Hs; [cbn; by rewrite Z.add_0_r|].
  rewrite !fmap_cons. cbn [foldl].
  assert (0 <= p.2) as Hp2 by apply Hp. assert (0 <= zsum ps.*2) as Hz.
  { apply zsum_nonneg, Forall_fmap. eapply Forall_impl; [exact Hf|]. by intros q (_ & _ & ? & _). }
  cbn in Hs. fold (zsum ps.*2) in Hs.
  cbn [mbind result_bind]. rewrite amortize_ok by (done || lia).
  pose proof (remaining_held_bounds t i p Hi Hp2). rewrite IH by lia. f_equal. unfold zsum. cbn. lia.
Qed.

(** Held amounts by the handling. *)
Definition held_by (handling : HoldBalanceHandling) (t i : Z) (p : Z * Z) : Z :=
  match handling with Accrued => p.2 | Amortized => remaining_held t i p end.
Lemma available_balance_ok hs t total handling i :
  (handling = Amortized -> 0 < i) -> i <= u_max 64 -> 0 <= t -> 0 <= total <= u_max 512 ->
  Forall (times_fit i) (pairs_of hs HT_Gas) -> Forall (times_fit i) (pairs_of hs HT_Processing) ->
  zsum (pairs_of hs HT_Gas).*2 + zsum (pairs_of hs HT_Processing).*2 <= u_max 512 ->
  available_balance hs t total handling i =
  Ok (Z.max 0 (total - (zsum (held_by handling t i <$> pairs_of hs HT_Gas) + zsum (pairs_of hs HT_Processing).*2))).
Proof.
  intros Hi Hi' Ht Htot Hg Hp Hs.
  assert (forall ps, Forall (times_fit i) ps -> Forall (Z.le 0) ps.*2) as Hnn.
  { intros ps Hps. apply Forall_fmap. eapply Forall_impl; [exact Hps|]. by intros q (_ & _ & ? & _). }
  pose proof (zsum_nonneg _ (Hnn _ Hg)). pose proof (zsum_nonneg _ (Hnn _ Hp)).
  assert (0 <= zsum (held_by handling t i <$> pairs_of hs HT_Gas) <= zsum (pairs_of hs HT_Gas).*2) as Hh.
  { clear -Hg Hi. induction Hg as [|p ps Hp _ IH]; cbn; [lia|]. destruct Hp as (_ & _ & Hp2 & _).
    unfold zsum in *. destruct handling; cbn in *; [lia|]. pose proof (remaining_held_bounds t i p (Hi eq_refl) Hp2). lia. }
  unfold available_balance. destruct hs as [|h hs]; [cbn; f_equal; lia|]. remember (h :: hs) as hs' eqn:E. clear E.
  assert (match handling with Accrued => accrued hs' HT_Gas | Amortized => amortization hs' HT_Gas t i end =
    Ok (zsum (held_by handling t i <$> pairs_of hs' HT_Gas))) as ->.
  { destruct handling; [|apply amortization_ok; (done || lia || by apply Hi)].
    rewrite accrued_pairs, u512_sum_ok by (auto || lia). done. }
  cbn [mbind result_bind]. rewrite accrued_pairs, u512_sum_ok by (auto || lia). cbn [mbind result_bind].
  unfold saturating_add. rewrite Z.min_l by lia.
  match goal with |- (if total <? ?held then _ else _) = _ => destruct (Z.ltb_spec total held) end; [f_equal; lia|].
  unfold checked_sub, checked. rewrite decide_True by (apply in_u_max; lia). cbn. f_equal. lia.
Qed.
End amortization_laws.

(** ** Collecting the holds of a purse *)

Lemma btree_insert_perm {K W} `{TotalOrdLaws K} `{EqDecision K} (k : K) (w : W) (m : list (K * W)) :
  btree_sorted m -> btree_insert k w m ≡ₚ (k, w) :: filter (fun p => p.1 <> k) m.
Proof.
  intros Hs. pose proof (btree_insert_sorted k w m Hs) as Hs'. apply NoDup_Permutation.
  - eapply NoDup_fmap_1, btree_keys_nodup. exact Hs'.
  - constructor; [by intros [? _]%list_elem_of_filter|]. apply NoDup_filter. eapply NoDup_fmap_1, btree_keys_nodup. exact Hs.
  - intros [k' w']. rewrite elem_of_cons, list_elem_of_filter. rewrite <- btree_get_elem by done. cbn.
    destruct (decide (k' = k)) as [->|Hne].
    + rewrite btree_get_insert_eq. split; [intros [= ->]; by left|]. intros [[= ->]|[? _]]; done.
    + rewrite btree_get_insert_ne, btree_get_elem by done. split; [intros ?; by right|]. intros [[= ? ?]|[_ ?]]; done.
Qed.
Lemma btree_split_perm {K W} `{TotalOrdLaws K} `{EqDecision K} (k : K) (m : list (K * W)) :
  btree_sorted m -> m ≡ₚ option_list ((fun w => (k, w)) <$> btree_get k m) ++ filter (fun p => p.1 <> k) m.
Proof.
  intros Hs. pose proof (NoDup_fmap_1 _ _ (btree_keys_nodup m Hs)) as Hnd. apply NoDup_Permutation; [done| |].
  - apply NoDup_app. split; [destruct (btree_get k m); cbn; [apply NoDup_singleton|constructor]|]. split; [|by apply NoDup_filter].
    intros p Hp [Hne _]%list_elem_of_filter. destruct (btree_get k m); cbn in Hp; [|by apply not_elem_of_nil in Hp].
    apply list_elem_of_singleton in Hp. by subst p.
  - intros [k' w']. rewrite elem_of_app, list_elem_of_filter. cbn. destruct (decide (k' = k)) as [->|Hne].
    + rewrite <- btree_get_elem by done. destruct (btree_get k m) as [w|]; cbn.
      * rewrite list_elem_of_singleton. split; [intros [= ->]; by left|]. intros [[= ->]|[? _]]; done.
      * split; [done|]. intros [?%not_elem_of_nil|[? _]]; done.
    + split; [intros ?; by right|]. intros [Hp|[_ ?]]; [|done]. destruct (btree_get k m); cbn in Hp; [|by apply not_elem_of_nil in Hp].
      apply list_elem_of_singleton in Hp. congruence.
Qed.

Definition hold_time (a : BalanceHoldAddr) : Z := block_time_value (hold_block_time a).
(** The times and amounts of the holds of a kind in a list of holds. *)
Definition of_kind (kind : BalanceHoldAddrTag) (l : list (BalanceHoldAddr * Z)) : list (Z * Z) :=
  omap (fun p => if decide (hold_kind p.1 = kind) then Some (hold_time p.1, p.2) else None) l.
Lemma of_kind_cons kind a z l :
  of_kind kind ((a, z) :: l) = if decide (hold_kind a = kind) then (hold_time a, z) :: of_kind kind l else of_kind kind l.
Proof. unfold of_kind. cbn. by case_decide. Qed.
(** [ret] holds what the holds [l] say. *)
Definition collected (ret : HoldsByTime) (l : list (BalanceHoldAddr * Z)) : Prop :=
  btree_sorted ret /\ Forall (fun h => btree_sorted h.2) ret /\ forall kind, pairs_of ret kind ≡ₚ of_kind kind l.

Lemma pairs_of_get ret kind t inner w :
  btree_sorted ret -> btree_get t ret = Some inner -> btree_get kind inner = Some w -> (t, w) ∈ pairs_of ret kind.
Proof.
  intros Hs Ht Hk. apply list_elem_of_omap. exists (t, inner). split; [by apply btree_get_elem|]. cbn. by rewrite Hk.
Qed.
Lemma add_hold_ok ret l a amount :
  collected ret l -> (forall p, p ∈ l -> (hold_time p.1, hold_kind p.1) <> (hold_time a, hold_kind a)) ->
  exists ret', add_hold ret a amount = Ok ret' /\ collected ret' ((a, amount) :: l).
Proof.
  intros (Hs & Hin & Hp) Hnew. unfold add_hold. fold (hold_time a).
  assert (forall inner, btree_get (hold_time a) ret = Some inner -> btree_get (hold_kind a) inner = None) as Hfree.
  { intros inner Hg. destruct (btree_get (hold_kind a) inner) as [w|] eqn:E; [|done]. exfalso.
    pose proof (pairs_of_get ret _ _ _ _ Hs Hg E) as Hel. rewrite Hp in Hel. apply list_elem_of_omap in Hel as (p & Hpl & Ep).
    case_decide as Ek; [|done]. injection Ep as Et _. apply (Hnew p Hpl). congruence. }
  (* the entry that is written, and what it adds to the pairs of each kind *)
  assert (exists inner', (match btree_get (hold_time a) ret with
      | None => Ok (btree_insert (hold_time a) [(hold_kind a, amount)] ret)
      | Some inner =>
          match btree_get (hold_kind a) inner with
          | None => Ok (btree_insert (hold_time a) (btree_insert (hold_kind a) amount inner) ret)
          | Some _ => Panic
          end
      end : result TrackingCopyError HoldsByTime) = Ok (btree_insert (hold_time a) inner' ret) /\ btree_sorted inner' /\
      forall kind, btree_get kind inner' = if decide (hold_kind a = kind) then Some amount
        else btree_get (hold_time a) ret ≫= btree_get kind) as (inner' & -> & Hs' & Hget).
  { destruct (btree_get (hold_time a) ret) as [inner|] eqn:Eg.
    - rewrite (Hfree inner eq_refl). exists (btree_insert (hold_kind a) amount inner). split; [done|].
      assert (btree_sorted inner) as Hsi by (apply btree_get_elem in Eg; [|done]; rewrite Forall_forall in Hin; exact (Hin _ Eg)).
      split; [by apply btree_insert_sorted|]. intros kind. case_decide as Ek; [subst; apply btree_get_insert_eq|].
      by rewrite btree_get_insert_ne.
    - exists [(hold_kind a, amount)]. split; [done|]. split; [repeat constructor|]. intros kind.
      case_decide as Ek; [subst; by destruct (hold_kind a)|]. by destruct (hold_kind a), kind. }
  exists (btree_insert (hold_time a) inner' ret). split; [done|]. split; [by apply btree_insert_sorted|]. split.
  - rewrite (btree_insert_perm _ _ _ Hs). constructor; [done|]. rewrite Forall_forall in Hin |- *.
    intros h [_ Hh]%list_elem_of_filter. by apply Hin.
  - intros kind. unfold pairs_of. rewrite (btree_insert_perm _ _ _ Hs). cbn [omap list_omap].
    specialize (Hp kind). unfold pairs_of in Hp. rewrite (btree_split_perm (hold_time a) ret Hs), omap_app in Hp.
    cbn [fst snd]. rewrite Hget, of_kind_cons.
    case_decide as Ek; rewrite <- Hp; [|destruct (btree_get (hold_time a) ret) as [inner|]; cbn; [by destruct (btree_get kind inner)|done]].
    subst kind. cbn. constructor. destruct (btree_get (hold_time a) ret) as [inner|]; cbn; [|done]. by rewrite (Hfree inner eq_refl).
Qed.

(** ** The available balance of a purse in a state *)

Lemma NoDup_omap_inj {A B} (f : A -> option B) (l : list A) :
  (forall x y z, f x = Some z -> f y = Some z -> x = y) -> NoDup l -> NoDup (omap f l).
Proof.
  intros Hf. induction 1 as [|x l Hx _ IH]; cbn; [constructor|]. destruct (f x) as [z|] eqn:E; [|done].
  constructor; [|done]. intros (y & Hy & Ey)%list_elem_of_omap. by rewrite (Hf x y z E Ey) in Hx.
Qed.

Section in_state.
Context (payload : StoredValueTag -> Type).
Context {DB : Bytesrepr (payload T_BidKind)} {DP : Bytesrepr (payload T_ContractPackage)}.
Context (rust_type_name : num -> string).
Abbreviation V := (StoredValue (K:=Key) payload).
Context (measure : Key -> V -> Z).
Context `{RatioLaws}.
Context (entity_named_keys : TrackingCopy payload -> Key -> EntityAddr -> result TrackingCopyError (list (RString * Key))).
Context (readable : Key -> Prop) (listable : list u8 -> Prop).
Abbreviation tracks := (tracks payload rust_type_name readable listable).
Abbreviation muts tc := (muts_cached payload (tc_cache payload tc)).
Implicit Types (M : gmap Key V).

Definition amount_of (v : V) : option Z :=
  match v with
  | SV_CLValue _ c => match into_u512 c with Ok z => Some z | _ => None end
  | _ => None
  end.
Definition balance_of M (purse : URefAddr) : option Z := M !! Key_Balance purse ≫= amount_of.
Definition hold_of M (a : BalanceHoldAddr) : option Z := M !! Key_BalanceHold a ≫= amount_of.
(** The holds of a purse from a time on, with their amounts. *)
Definition since M (epoch : Z) (l : list BalanceHoldAddr) : list (BalanceHoldAddr * Z) :=
  omap (fun a => if decide (epoch <= hold_time a) then (fun z => (a, z)) <$> hold_of M a else None) l.
Definition addrs_of M (purse : URefAddr) : list BalanceHoldAddr :=
  omap (fun k => match k with Key_BalanceHold a => if decide (hold_purse_addr a = purse) then Some a else None | _ => None end)
    (elements (dom M)).
Definition purse_holds M (purse : URefAddr) (epoch : Z) : list (BalanceHoldAddr * Z) := since M epoch (addrs_of M purse).

Lemma elem_of_addrs M purse a : a ∈ addrs_of M purse <-> hold_purse_addr a = purse /\ Key_BalanceHold a ∈ dom M.
Proof.
  unfold addrs_of. rewrite list_elem_of_omap. setoid_rewrite elem_of_elements. split.
  - intros (k & Hk & E). destruct k; try done. case_decide; [|done]. by injection E as ->.
  - intros [Hp Hk]. exists (Key_BalanceHold a). split; [done|]. by rewrite decide_True.
Qed.
Lemma addrs_nodup M purse : NoDup (addrs_of M purse).
Proof.
  apply NoDup_omap_inj; [|apply NoDup_elements]. intros x y z. destruct x; try done. case_decide; [|done]. intros [= ->].
  destruct y; try done. case_decide; [|done]. by intros [= ->].
Qed.
Lemma hold_addr_eq a b : hold_purse_addr a = hold_purse_addr b -> hold_time a = hold_time b -> hold_kind a = hold_kind b -> a = b.
Proof. destruct a as [u [t]|u [t]], b as [u' [t']|u' [t']]; cbn; intros -> E ?; try done; unfold hold_time in E; cbn in E; by subst. Qed.

(** Listing without repetition, when what is written is not also in the state. *)
Lemma keys_with_prefix_nodup M0 tc M prefix :
  tracks M0 tc M -> listable prefix ->
  (forall k, k ∈ dom M0 -> starts_with (key_repr k) prefix -> btree_get (key_repr k) (muts tc) = None) ->
  exists keys, keys_with_prefix payload tc prefix = Ok keys /\ NoDup keys /\
    forall k, k ∈ keys <-> k ∈ dom M /\ starts_with (key_repr k) prefix.
Proof.
  intros HT Hl Hfresh. destruct (keys_with_prefix_ok _ _ _ _ M0 tc M prefix HT Hl) as (keys & E & Hkeys). exists keys.
  split; [done|]. split; [|done]. unfold keys_with_prefix in E.
  destruct (reads_prefix _ _ _ _ _ (tracks_reader _ _ _ _ _ _ _ HT) prefix Hl) as (keys0 & E0 & Hnd & Hk0).
  rewrite E0 in E. cbn in E. injection E as <-. pose proof (tracks_cache _ _ _ _ _ _ _ HT) as Hc.
  apply NoDup_app. split; [by apply NoDup_filter|]. split.
  - intros k [_ [Hk Hp]%Hk0]%list_elem_of_filter [[v Hg] _]%(muts_by_prefix _ M0); [|done]. by rewrite (Hfresh k Hk Hp) in Hg.
  - unfold get_muts_cached_by_byte_prefix. pose proof (muts_sorted _ _ _ Hc) as Hs. rewrite range_prefix by done.
    apply (NoDup_fmap_1 key_repr). rewrite <- list_fmap_compose.
    assert (forall l : list (list u8 * (Key * V)), Forall (fun p => p.1 = key_repr p.2.1 /\ key_ok p.2.1) l ->
      (fun p => key_repr p.2.1) <$> l = l.*1) as Hfst.
    { induction 1 as [|p l [Hp _] _ IH]; cbn; [done|]. by rewrite IH, Hp. }
    change (key_repr ∘ (fun p : list u8 * (Key * V) => p.2.1)) with (fun p : list u8 * (Key * V) => key_repr p.2.1).
    pose proof (muts_keys _ _ _ Hc) as Hmk. rewrite Hfst.
    + apply (sublist_NoDup _ (muts tc).*1); [by apply btree_keys_nodup|]. apply fmap_sublist, sublist_filter.
    + rewrite Forall_forall in Hmk |- *. intros p [_ Hp]%list_elem_of_filter. by apply Hmk.
Qed.

Lemma amount_of_Some v z : amount_of v = Some z -> exists c, v = SV_CLValue payload c /\ into_u512 c = Ok z.
Proof. destruct v as [c| | | | | | | | | | | | | | | | | | | |]; try done. cbn. destruct (into_u512 c) eqn:E; try done. intros [= ->]. eauto. Qed.

Lemma since_cons M epoch a l :
  since M epoch (a :: l) =
  option_list (if decide (epoch <= hold_time a) then (fun z => (a, z)) <$> hold_of M a else None) ++ since M epoch l.
Proof. unfold since. cbn. by destruct (if decide (epoch <= hold_time a) then _ else _). Qed.

(** Reading the holds one by one collects them. *)
Lemma collect_holds_ok M0 M purse epoch l : forall tc ret done_holds,
  tracks M0 tc M -> NoDup l ->
  (forall a, a ∈ l -> hold_purse_addr a = purse /\ key_ok (Key_BalanceHold a) /\ readable (Key_BalanceHold a) /\
    (epoch <= hold_time a -> is_Some (hold_of M a))) ->
  collected ret done_holds -> (forall p, p ∈ done_holds -> hold_purse_addr p.1 = purse /\ p.1 ∉ l) ->
  exists ret' tc', collect_holds payload measure (Some epoch) l ret tc = (Ok ret', tc') /\ tracks M0 tc' M /\
    collected ret' (reverse (since M epoch l) ++ done_holds).
Proof.
  induction l as [|a l IH]; intros tc ret done_holds HT Hnd Hl Hc Hd; [by exists ret, tc|].
  apply NoDup_cons in Hnd as [Ha Hnd]. rewrite since_cons. cbn [collect_holds]. fold (hold_time a).
  destruct (Hl a) as (Hpu & Hk & Hr & Hdec); [left|]. assert (forall b, b ∈ l -> b ∈ a :: l) as Hsub by (intros; by right).
  case_decide as He.
  2: { destruct (Z.ltb_spec (hold_time a) epoch); [|lia]. cbn. apply IH; auto. intros p Hp. destruct (Hd p Hp) as [? Hn]. by split; [|intros ?%Hsub]. }
  destruct (Z.ltb_spec (hold_time a) epoch); [lia|]. destruct (Hdec He) as [z Hz]. rewrite Hz. unfold option_list. cbn [fmap option_fmap option_map option_rect].
  pose proof (tc_step_tracked payload rust_type_name measure readable listable M0 tc M (OpRead payload (Key_BalanceHold a)) HT (conj Hk Hr)) as Hs.
  unfold hold_of in Hz. destruct (M !! Key_BalanceHold a) as [v|] eqn:Ev; [|done]. cbn in Hz.
  destruct (amount_of_Some v z Hz) as (c & -> & Hu). cbn in Hs. rewrite Ev in Hs. destruct Hs as (tc1 & E1 & HT1).
  assert (copy_read payload measure (Key_BalanceHold a) tc = (Ok (Some (SV_CLValue payload c)), tc1)) as E2.
  { unfold copy_read. destruct (tc_read payload measure tc (Key_BalanceHold a)) as [[v1 tc1']| | |]; try done. cbn in E1. by injection E1 as -> ->. }
  rewrite (st_bind_eq _ _ _ _ _ E2), Hu. cbn [map_err].
  destruct (add_hold_ok ret done_holds a z Hc) as (ret1 & Ea & Hc1).
  { intros p Hp [=]. destruct (Hd p Hp) as [Hpp Hn]. apply Hn. rewrite (hold_addr_eq p.1 a) by congruence. left. }
  rewrite (st_bind_eq _ _ _ z tc1) by done. rewrite Ea, (st_bind_eq _ _ _ ret1 tc1) by done.
  cbn [app]. rewrite reverse_cons, <- app_assoc. cbn [app]. apply IH; auto.
  intros p [->|Hp]%elem_of_cons; [done|]. destruct (Hd p Hp) as [? Hn]. by split; [|intros ?%Hsub].
Qed.

(** A purse whose holds can be listed and read, none of them both in the state
    behind the copy and rewritten in it. *)
Record purse_ready M0 (tc : TrackingCopy payload) (purse : URefAddr) : Prop := {
  ready_balance : readable (Key_Balance purse);
  ready_unpruned : Key_Balance purse ∉ prunes_cached payload (tc_cache payload tc);
  ready_holds a : hold_purse_addr a = purse -> key_ok (Key_BalanceHold a) -> readable (Key_BalanceHold a);
  ready_lists kp p : kp = KP_GasBalanceHoldsByPurse purse \/ kp = KP_ProcessingBalanceHoldsByPurse purse ->
    key_prefix_to_bytes kp = Ok p -> listable p;
  ready_fresh a : hold_purse_addr a = purse -> Key_BalanceHold a ∈ dom M0 -> btree_get (key_repr (Key_BalanceHold a)) (muts tc) = None
}.

Lemma total_balance_ok M0 tc M purse total :
  tracks M0 tc M -> purse_ready M0 tc purse -> balance_of M purse = Some total ->
  get_total_balance payload tc (Key_Balance purse) = Ok total.
Proof.
  intros HT Hr Hb. unfold get_total_balance, shared_read.
  pose proof (fork_reads payload rust_type_name readable listable M0 tc M (Key_Balance purse) HT I (ready_balance _ _ _ Hr) (ready_unpruned _ _ _ Hr)) as Hf.
  cbn in Hf. rewrite Hf. unfold balance_of in Hb. destruct (M !! Key_Balance purse) as [v|]; [|done].
  destruct (amount_of_Some v total Hb) as (c & -> & Hu). cbn. by rewrite Hu.
Qed.

(** The holds of one kind that are listed. *)
Lemma hold_keys_ok M0 tc M purse kind kp :
  tracks M0 tc M -> purse_ready M0 tc purse ->
  kp = match kind with HT_Gas => KP_GasBalanceHoldsByPurse purse | HT_Processing => KP_ProcessingBalanceHoldsByPurse purse end ->
  exists l, (keys ← shared_keys_with_prefix payload tc kp; hold_addrs keys) = Ok l /\ NoDup l /\
    forall a, a ∈ l <-> a ∈ addrs_of M purse /\ hold_kind a = kind.
Proof.
  intros HT Hr Ekp. pose proof (key_prefix_bytes kp) as Hp. unfold shared_keys_with_prefix. rewrite Hp. cbn [map_err mbind result_bind].
  remember (KeyTag_to_u8 (prefix_bytes kp).1 :: (prefix_bytes kp).2) as p eqn:Ep. clear Ep.
  assert (forall k, key_ok k -> starts_with (key_repr k) p <-> selects kp k) as Hsel.
  { intros k Hk. rewrite <- (key_prefix_selects kp k _ p Hk (key_repr_ok k Hk) Hp), Is_true_true. apply starts_with_spec. }
  assert (forall k, selects kp k <-> exists a, k = Key_BalanceHold a /\ hold_purse_addr a = purse /\ hold_kind a = kind) as Hk.
  { intros k. subst kp. split.
    - destruct kind, k as [ | | | | | | | | | | | | | | | | | | | | | |[]| | | ]; try done; cbn; intros ->; eauto.
    - intros (a & -> & Hpu & <-). by destruct a. }
  destruct (keys_with_prefix_nodup M0 tc M p HT) as (keys & -> & Hnd & Hkeys).
  - apply (ready_lists _ _ _ Hr kp); [|done]. destruct kind; auto.
  - intros k Hin Hst. assert (key_ok k) as Hok by (by apply (tracks_base _ _ _ _ _ _ _ HT)).
    rewrite (Hsel k Hok), Hk in Hst. destruct Hst as (a & -> & Hpu & _). by apply (ready_fresh _ _ _ Hr).
  - cbn [map_err mbind result_bind]. assert (exists l, keys = Key_BalanceHold <$> l) as [l ->].
    { assert (Forall (fun k => exists a, k = Key_BalanceHold a) keys) as HF.
      { apply Forall_forall. intros k [Hin Hst]%Hkeys. assert (key_ok k) as Hok by (by apply (tracks_keys _ _ _ _ _ _ _ HT)).
        rewrite (Hsel k Hok), Hk in Hst. destruct Hst as (a & -> & _). eauto. }
      clear -HF. induction HF as [|k keys [a ->] _ [l ->]]; [by exists []|by exists (a :: l)]. }
    assert (hold_addrs (Key_BalanceHold <$> l) = Ok l) as -> by (clear; induction l as [|a l IH]; cbn; [done|]; by rewrite IH).
    exists l. split; [done|]. split; [by eapply NoDup_fmap_1|]. intros a. rewrite elem_of_addrs.
    assert (a ∈ l <-> Key_BalanceHold a ∈ Key_BalanceHold <$> l) as ->.
    { rewrite list_elem_of_fmap. split; [eauto|]. by intros (b & [= ->] & ?). }
    rewrite Hkeys. apply (iff_under (key_ok (Key_BalanceHold a))).
    + intros [Hin _]. by apply (tracks_keys _ _ _ _ _ _ _ HT).
    + intros [[_ Hin] _]. by apply (tracks_keys _ _ _ _ _ _ _ HT).
    + intros Hok. rewrite (Hsel _ Hok), Hk. split; [|by intros [[? ?] ?]; split; [|exists a]].
      intros (Hin & b & [= <-] & ? & ?). done.
Qed.
Lemma hold_addresses_ok M0 tc M purse :
  tracks M0 tc M -> purse_ready M0 tc purse ->
  exists l, get_balance_hold_addresses payload tc purse = Ok l /\ l ≡ₚ addrs_of M purse.
Proof.
  intros HT Hr. destruct (hold_keys_ok M0 tc M purse HT_Gas _ HT Hr eq_refl) as (gas & Eg & Ng & Hg).
  destruct (hold_keys_ok M0 tc M purse HT_Processing _ HT Hr eq_refl) as (proc & Ep & Np & Hp).
  unfold get_balance_hold_addresses. apply bind_Ok in Eg as (gk & -> & Eg). apply bind_Ok in Ep as (pk & -> & Ep).
  cbn [mbind result_bind]. rewrite Eg. cbn [mbind result_bind]. rewrite Ep. cbn. exists (gas ++ proc). split; [done|].
  apply NoDup_Permutation; [|apply addrs_nodup|].
  - apply NoDup_app. split; [done|]. split; [|done]. intros a [_ Ea]%Hg [_ Ea']%Hp. congruence.
  - intros a. rewrite elem_of_app, Hg, Hp. destruct (hold_kind a); intuition congruence.
Qed.

#[export] Instance of_kind_perm kind : Proper ((≡ₚ) ==> (≡ₚ)) (of_kind kind).
Proof. intros l l' E. unfold of_kind. by rewrite E. Qed.
#[export] Instance since_perm M epoch : Proper ((≡ₚ) ==> (≡ₚ)) (since M epoch).
Proof. intros l l' E. unfold since. by rewrite E. Qed.

Lemma balance_holds_ok M0 tc M purse t i :
  tracks M0 tc M -> purse_ready M0 tc purse ->
  (forall a, a ∈ addrs_of M purse -> Z.max (t - i) 0 <= hold_time a -> is_Some (hold_of M a)) ->
  exists hs tc', get_balance_holds payload measure purse t i tc = (Ok hs, tc') /\ tracks M0 tc' M /\
    forall kind, pairs_of hs kind ≡ₚ of_kind kind (purse_holds M purse (Z.max (t - i) 0)).
Proof.
  intros HT Hr Hd. destruct (hold_addresses_ok M0 tc M purse HT Hr) as (l & E & Hl). unfold get_balance_holds.
  rewrite (st_bind_eq _ _ _ l tc) by (unfold shared; by rewrite E). unfold HoldsEpoch_from_millis, saturating_sub.
  destruct (collect_holds_ok M0 M purse (Z.max (t - i) 0) l tc [] [] HT) as (hs & tc' & -> & HT' & _ & _ & Hc).
  - rewrite Hl. apply addrs_nodup.
  - intros a Ha. rewrite Hl in Ha. pose proof Ha as [Hp Hk]%elem_of_addrs. split; [done|].
    split; [by apply (tracks_keys _ _ _ _ _ _ _ HT)|]. split; [apply (ready_holds _ _ _ Hr); [done|by apply (tracks_keys _ _ _ _ _ _ _ HT)]|by apply Hd].
  - by split; [constructor|].
  - by intros p ?%not_elem_of_nil.
  - exists hs, tc'. split; [done|]. split; [done|]. intros kind. rewrite (Hc kind), app_nil_r, reverse_Permutation, Hl. done.
Qed.

(** The settings of holds in a state: the block time is [t]; the registry of system
    contracts names the contract of the mint, whose named keys for the handling and the
    interval of gas holds are [URef]s with the tag of [handling] and the number [i]. *)
Record hold_settings M (t : Z) (handling : HoldBalanceHandling) (i : Z) (hu iu : URef) : Prop := {
  set_time : exists c, M !! Key_BlockGlobal BG_BlockTime = Some (SV_CLValue payload c) /\ into_num U64 c = Ok t;
  set_mint : exists r reg hash c, M !! Key_SystemEntityRegistry = Some (SV_CLValue payload r) /\
    into_t (T := list (RString * vec u8 32)) (H0 := registry_type) r = Ok reg /\ btree_get MINT reg = Some hash /\
    M !! Key_Hash hash = Some (SV_Contract payload c) /\
    btree_get MINT_GAS_HOLD_HANDLING_KEY (contract_named_keys payload c) = Some (Key_URef hu) /\
    btree_get MINT_GAS_HOLD_INTERVAL_KEY (contract_named_keys payload c) = Some (Key_URef iu);
  set_handling : exists c tag, M !! normalize (Key_URef hu) = Some (SV_CLValue payload c) /\ into_num U8 c = Ok tag /\
    handling_from_tag (u8_of_Z tag) = Some handling;
  set_interval : exists c, M !! normalize (Key_URef iu) = Some (SV_CLValue payload c) /\ into_num U64 c = Ok i
}.
Definition settings_key (k : Key) : Prop :=
  match k with
  | Key_BlockGlobal BG_BlockTime | Key_SystemEntityRegistry | Key_Hash _ => True
  | Key_URef u => access_rights u = NONE
  | _ => False
  end.
(** The keys of the settings can be read, and the copy has pruned none of them. *)
Definition settings_ready (tc : TrackingCopy payload) : Prop :=
  forall k, key_ok k -> settings_key k -> readable k /\ k ∉ prunes_cached payload (tc_cache payload tc).

Lemma uref_none_ok u : key_ok (normalize (Key_URef u)).
Proof. by vm_compute. Qed.
Lemma hold_config_ok M0 tc M t handling i hu iu :
  tracks M0 tc M -> settings_ready tc -> hold_settings M t handling i hu iu ->
  get_balance_hold_config payload entity_named_keys tc HT_Gas = Ok (Some (t, handling, i)).
Proof.
  intros HT Hready [(bt & Hbt & Ebt) (r & reg & hash & c & Hr & Er & Em & Hh & Ehk & Eik) (tv & tag & Htv & Etv & Etag) (iv & Hiv & Eiv)].
  assert (forall k, key_ok k -> settings_key k -> shared_read payload tc k = Ok (M !! k)) as Hsr.
  { intros k Hk Hs. destruct (Hready k Hk Hs) as [Hrd Hp]. unfold shared_read.
    pose proof (fork_reads payload rust_type_name readable listable M0 tc M k HT Hk Hrd Hp) as Hf. cbn in Hf. by rewrite Hf. }
  assert (get_system_entity_registry payload tc = Ok reg) as Hreg.
  { unfold get_system_entity_registry. rewrite Hsr, Hr by done. cbn [mbind result_bind]. by rewrite Er. }
  unfold get_balance_hold_config, get_block_time. rewrite Hsr, Hbt by done. cbn [mbind result_bind]. rewrite Ebt.
  cbn [map_err mbind result_bind]. rewrite Hreg. cbn [mbind result_bind]. rewrite Em. cbn [ok_or mbind result_bind].
  unfold get_named_keys. rewrite Hsr, Hh by done. cbn [mbind result_bind]. rewrite Hreg. cbn [mbind result_bind].
  unfold named_value. rewrite Ehk, Eik. cbn [ok_or mbind result_bind into_uref].
  rewrite !Hsr, Htv by (done || apply uref_none_ok). cbn [mbind result_bind]. rewrite Etv. cbn [map_err mbind result_bind]. rewrite Etag.
  cbn [ok_or mbind result_bind]. rewrite Hiv. cbn [mbind result_bind]. by rewrite Eiv.
Qed.

Lemma available_balance_spec M0 tc M key purse total t handling i :
  tracks M0 tc M -> purse_ready M0 tc purse -> key = Key_Balance purse \/ (exists u, key = Key_URef u /\ addr u = purse) ->
  get_balance_hold_config payload entity_named_keys tc HT_Gas = Ok (Some (t, handling, i)) ->
  (handling = Amortized -> 0 < i) -> i <= u_max 64 -> 0 <= t ->
  balance_of M purse = Some total -> 0 <= total <= u_max 512 ->
  (forall a, a ∈ addrs_of M purse -> Z.max (t - i) 0 <= hold_time a -> is_Some (hold_of M a)) ->
  let gas := of_kind HT_Gas (purse_holds M purse (Z.max (t - i) 0)) in
  let processing := of_kind HT_Processing (purse_holds M purse (Z.max (t - i) 0)) in
  Forall (times_fit i) gas -> Forall (times_fit i) processing -> zsum gas.*2 + zsum processing.*2 <= u_max 512 ->
  exists tc', get_available_balance payload measure entity_named_keys key tc =
    (Ok (Z.max 0 (total - (zsum (held_by handling t i <$> gas) + zsum processing.*2))), tc') /\ tracks M0 tc' M.
Proof.
  intros HT Hr Hkey Hcfg Hi Hi' Ht Hb Htot Hd gas processing Hg Hp Hs.
  destruct (balance_holds_ok M0 tc M purse t i HT Hr Hd) as (hs & tc' & E & HT' & Hpairs).
  exists tc'. split; [|done]. unfold get_available_balance.
  assert (match key with Key_URef uref => Some (addr uref) | Key_Balance uref_addr => Some uref_addr | _ => None end = Some purse) as ->
    by (destruct Hkey as [->|(u & -> & <-)]; done).
  rewrite (st_bind_eq _ _ _ total tc) by (unfold shared; by rewrite (total_balance_ok M0 tc M purse total HT Hr Hb)).
  rewrite (st_bind_eq _ _ _ (Some (t, handling, i)) tc) by (unfold shared; by rewrite Hcfg).
  rewrite (st_bind_eq _ _ _ _ _ E). unfold lift.
  rewrite available_balance_ok; [|done..| | |]; unfold gas, processing in *; cbn [map_err];
    rewrite ?(Hpairs HT_Gas), ?(Hpairs HT_Processing); done.
Qed.

(** C16: the available balance of a purse, through a tracking copy that stands for a
    state with settings for holds: the total balance, less the gas holds of the hold
    interval (in full when they accrue, and when they are amortized over a positive
    interval the share of each amount that is left of its interval, rounded down) and less
    the processing holds in full, and zero when more is held than there is.  Reading it
    changes nothing in the state.  The copy has rewritten no hold of the purse that is in
    the state behind it and pruned neither the balance nor the settings; the amounts of the
    holds are numbers whose sum, and product with the interval, fit 512 bits. *)
Theorem available_balance_correct M0 tc M key purse total t handling i hu iu :
  tracks M0 tc M -> purse_ready M0 tc purse -> key = Key_Balance purse \/ (exists u, key = Key_URef u /\ addr u = purse) ->
  settings_ready tc -> hold_settings M t handling i hu iu -> (handling = Amortized -> 0 < i) -> i <= u_max 64 -> 0 <= t ->
  balance_of M purse = Some total -> 0 <= total <= u_max 512 ->
  (forall a, a ∈ addrs_of M purse -> Z.max (t - i) 0 <= hold_time a -> is_Some (hold_of M a)) ->
  let gas := of_kind HT_Gas (purse_holds M purse (Z.max (t - i) 0)) in
  let processing := of_kind HT_Processing (purse_holds M purse (Z.max (t - i) 0)) in
  Forall (times_fit i) gas -> Forall (times_fit i) processing -> zsum gas.*2 + zsum processing.*2 <= u_max 512 ->
  exists tc', get_available_balance payload measure entity_named_keys key tc =
    (Ok (Z.max 0 (total - (zsum (held_by handling t i <$> gas) + zsum processing.*2))), tc') /\ tracks M0 tc' M.
Proof. intros HT Hr Hk Hsr Hs. apply available_balance_spec; [done|done|done|]. by eapply hold_config_ok. Qed.
End in_state.

(** ** A concrete purse *)

(** A hold interval of zero makes the ratio of the remaining time ill-formed: with
    ratios that refuse a zero denominator, as the library's [Ratio::new] does, a
    hold made at the block time panics. *)
Lemma zero_interval_panics (R : RatioOps) :
  (forall r n, ratio_checked_mul r (n, 0) = Panic) ->
  amortization [(5, [(HT_Gas, 7)])] HT_Gas 5 0 = Panic.
Proof.
  intros H. unfold amortization. change (holds_of [(5, [(HT_Gas, 7)])] HT_Gas) with [(5, [(HT_Gas, 7)])]. cbn [foldl mbind result_bind].
  unfold amortize. change (saturating_add 64 5 0) with 5. cbn [fmap list_fmap snd Z.ltb Z.compare Pos.compare Pos.compare_cont].
  rewrite u512_sum_ok; [|by repeat constructor|by vm_compute]. cbn [mbind result_bind]. by rewrite H.
Qed.

#[local] Existing Instances no_bid_repr no_package_repr.
(** Ratios that are not reduced. *)
#[local] Instance plain_ratio : RatioOps := fun r1 r2 =>
  Ok (if decide (in_u 512 (r1.1 * r2.1) /\ in_u 512 (r1.2 * r2.2)) then Some (r1.1 * r2.1, r1.2 * r2.2) else None).
#[local] Instance plain_ratio_laws : RatioLaws.
Proof.
  split. intros n1 d1 n2 d2 [Hn1 _] [Hn2 _] _ _ H1 H2. eexists. split; [reflexivity|]. cbn.
  case_decide; [|done]. split; [by apply Z.mul_nonneg_nonneg|]. split; [by apply Z.mul_pos_pos|done].
Qed.

(** Contracts, and none of the other values that are not needed here. *)
Definition contracts (tag : StoredValueTag) : Type := match tag with T_Contract => unit | _ => Empty_set end.
#[local] Instance contracts_bid_repr : Bytesrepr (contracts T_BidKind) := no_bid_repr.
#[local] Instance contracts_package_repr : Bytesrepr (contracts T_ContractPackage) := no_bid_repr.
Abbreviation value := (StoredValue (K:=Key) contracts).
Definition no_entities (_ : TrackingCopy contracts) (entity_key : Key) (_ : EntityAddr) : result TrackingCopyError (list (RString * Key)) :=
  Err (TCE_KeyNotFound entity_key).

Definition cl (t : CLType) (bytes : list u8) : value := SV_CLValue contracts (mkCLValue t (mkBytes bytes)).
Definition cl_u64 (b : u8) : value := cl CL_U64 (b :: replicate 7 Byte.x00).
Definition motes (b : u8) : value := cl CL_U512 [Byte.x01; b].
Definition hold_uref (b : u8) : URef := mkURef (vreplicate 32 b) NONE.
Definition gas_hold (time : Z) : Key := Key_BalanceHold (BH_Gas zeros (mkBlockTime time)).
Definition mint_entry : list u8 :=
  [Byte.x01; Byte.x00; Byte.x00; Byte.x00; Byte.x04; Byte.x00; Byte.x00; Byte.x00] ++ as_bytes MINT ++ vec_to_list (zeros : vec u8 32).
Definition mint_contract : value :=
  SV_Contract contracts (mkContract contracts
    [(MINT_GAS_HOLD_HANDLING_KEY, Key_URef (hold_uref Byte.x01)); (MINT_GAS_HOLD_INTERVAL_KEY, Key_URef (hold_uref Byte.x02))] tt).
(** At the time 100, with gas holds amortized over 100: a purse with 100 motes, of
    which 40 are held for gas since the time 50. *)
Definition purse_entries : list (Key * value) :=
  [(Key_BlockGlobal BG_BlockTime, cl_u64 Byte.x64);
   (Key_SystemEntityRegistry, cl registry_type mint_entry);
   (Key_Hash zeros, mint_contract);
   (Key_URef (hold_uref Byte.x01), cl CL_U8 [Byte.x01]);
   (Key_URef (hold_uref Byte.x02), cl_u64 Byte.x64);
   (Key_Balance zeros, motes Byte.x64);
   (gas_hold 50, motes Byte.x28)].
Definition purse_state : gmap Key value := list_to_map purse_entries.
Abbreviation purse_copy := (tracking_copy_new contracts (map_reader contracts purse_state)).

Lemma in_range_list payload (l : list (Key * StoredValue (K:=Key) payload)) :
  Forall (fun p => key_ok p.1) l -> in_range payload (list_to_map l).
Proof.
  rewrite Forall_forall. intros H k [v Hk%elem_of_list_to_map_2]%elem_of_dom. exact (H _ Hk).
Qed.
Lemma purse_keys_ok : Forall (fun p => key_ok p.1) purse_entries.
Proof. repeat constructor; vm_compute; intuition congruence. Qed.
Lemma purse_copy_tracks : tracks contracts unnamed (fun _ => True) (fun _ => True) purse_state purse_copy purse_state.
Proof. apply new_tracks; [apply map_reader_reads|]. apply in_range_list, purse_keys_ok. Qed.
Lemma purse_copy_ready : purse_ready contracts (fun _ => True) (fun _ => True) purse_state purse_copy zeros.
Proof. by split. Qed.
Lemma purse_hold_only : addrs_of contracts purse_state zeros = [BH_Gas zeros (mkBlockTime 50)].
Proof. vm_compute. reflexivity. Qed.

Lemma purse_settings : hold_settings contracts purse_state 100 Amortized 100 (hold_uref Byte.x01) (hold_uref Byte.x02).
Proof.
  split.
  - eexists. split; [reflexivity|]. vm_compute. reflexivity.
  - eexists _, _, zeros, _. split; [reflexivity|]. split; [vm_compute; reflexivity|]. split; [vm_compute; reflexivity|].
    split; [reflexivity|]. split; vm_compute; reflexivity.
  - eexists _, 1. split; [reflexivity|]. split; vm_compute; reflexivity.
  - eexists. split; [reflexivity|]. vm_compute. reflexivity.
Qed.

(** Half of the interval is left, so half of the hold. *)
Lemma available_balance_correct_witness :
  exists tc, get_available_balance contracts (fun _ _ => 1) no_entities (Key_Balance zeros) purse_copy = (Ok 80, tc) /\
    tracks contracts unnamed (fun _ => True) (fun _ => True) purse_state tc purse_state.
Proof.
  edestruct (available_balance_correct contracts unnamed (fun _ _ => 1) no_entities (fun _ => True) (fun _ => True)
    purse_state purse_copy purse_state (Key_Balance zeros) zeros 100 100 Amortized 100 (hold_uref Byte.x01) (hold_uref Byte.x02)) as (tc & E & Ht).
  - exact purse_copy_tracks.
  - exact purse_copy_ready.
  - by left.
  - by split.
  - exact purse_settings.
  - lia.
  - by vm_compute.
  - lia.
  - vm_compute. reflexivity.
  - vm_compute. split; congruence.
  - rewrite purse_hold_only. intros a ->%list_elem_of_singleton _. vm_compute. by eexists.
  - assert (of_kind HT_Gas (purse_holds contracts purse_state zeros (Z.max (100 - 100) 0)) = [(50, 40)]) as -> by (vm_compute; reflexivity).
    repeat constructor; vm_compute; congruence.
  - assert (of_kind HT_Processing (purse_holds contracts purse_state zeros (Z.max (100 - 100) 0)) = []) as -> by (vm_compute; reflexivity).
    constructor.
  - vm_compute. congruence.
  - exists tc. split; [|exact Ht]. rewrite E. by f_equal.
Defined.

(** A hold of the state that is written again in the same copy is listed twice, and
    asking for the available balance then hits [unreachable!]. *)
Lemma rewritten_hold_panics :
  (get_available_balance contracts (fun _ _ => 1) no_entities (Key_Balance zeros)
    (tc_write contracts purse_copy (gas_hold 50) (motes Byte.x28))).1 = Panic.
Proof. vm_compute. reflexivity. Qed.
