(* ===== verification/Mint.v ===== *)
(** * The mint

    Models [storage/src/system/mint.rs] and [mint/detail.rs]: the trait [Mint] over
    its providers ([runtime_provider.rs], [storage_provider.rs],
    [system_provider.rs]), with the errors of [types/src/system/mint/error.rs] and
    the callers of [types/src/system/caller.rs].  The providers are a class of
    operations on a state; its laws say what they do to a ledger of purses, and the
    methods of the mint are shown correct against the laws. *)
From S2P Require Import Prelude Effects BTree Bytesrepr Struct Digest PublicKey Uint Units Access CLType Account Key Balances.

Open Scope Z_scope.

(** ** Data *)

Inductive MintError : Type :=
| InsufficientFunds | SourceNotFound | DestNotFound | InvalidURef | InvalidAccessRights
| InvalidNonEmptyPurseCreation | ME_Storage | PurseNotFound | MissingKey | TotalSupplyNotFound
| RecordTransferFailure | InvalidTotalSupplyReductionAttempt | NewURef | PutKey | WriteDictionary | ME_CLValue
| Serialize | EqualSourceAndTarget | ArithmeticOverflow | GasLimit | InvalidContext
| UnapprovedSpendingAmount | DisabledUnrestrictedTransfers | ForgedReference | InconsistentBalances
| UnableToGetSystemRegistry.

Inductive Caller : Type :=
| Initiator (account_hash : AccountHash)
| Entity (package_hash : vec u8 32) (entity_addr : EntityAddr)
| SmartContract (contract_package_hash contract_hash : vec u8 32).

Inductive Phase : Type := P_System | P_Payment | P_Session | P_FinalizePayment.
#[global] Instance Phase_eq_dec : EqDecision Phase.
Proof. solve_decision. Defined.

Inductive ProviderError : Type := PE_SystemEntityRegistry | PE_AccountHash (account_hash : AccountHash).

Definition TOTAL_SUPPLY_KEY : RString := rstring "total_supply".
Definition ROUND_SEIGNIORAGE_RATE_KEY : RString := rstring "round_seigniorage_rate".

(** ** Providers *)

(** [RuntimeProvider], [StorageProvider] and [SystemProvider], and [purse_exists];
    [read] at the two types it is used at. *)
Class MintProvider (S : Type) : Type := {
  get_caller : S -> AccountHash;
  get_immediate_caller : S -> option Caller;
  is_called_from_standard_payment : S -> bool;
  get_system_registry : S -> result ProviderError (list (RString * vec u8 32));
  main_purse_by_account_hash : AccountHash -> st S ProviderError (option (option URef));
  get_key : S -> RString -> option Key;
  get_approved_spending_limit : S -> Z;
  sub_approved_spending_limit : Z -> S -> S;
  get_main_purse : S -> option URef;
  is_administrator : S -> AccountHash -> bool;
  allow_unrestricted_transfers : S -> bool;
  is_valid_uref : S -> URef -> bool;
  new_uref : st S MintError URef;
  read_u512 : URef -> st S MintError (option Z);
  read_ratio : URef -> st S MintError (option (Z * Z));
  write_amount : URef -> Z -> st S MintError ();
  add : URef -> Z -> st S MintError ();
  total_balance : URef -> st S MintError Z;
  available_balance_of : URef -> st S MintError (option Z);
  write_balance : URef -> Z -> st S MintError ();
  add_balance : URef -> Z -> st S MintError ();
  record_transfer : option AccountHash -> URef -> URef -> Z -> option Z -> st S MintError ();
  purse_exists : URef -> st S MintError bool
}.

Section mint.
Context (blake2b : list u8 -> AccountHash).
Context {S : Type} {P : MintProvider S} `{RatioOps}.

(** [PublicKey::System.to_account_hash()] *)
Definition system_account : AccountHash := blake2b (account_hash_preimage (String.list_byte_of_string "system") []).
Definition is_system (a : AccountHash) : bool := bool_decide (a = system_account).

(** The [URef] under a named key, or [e] when there is none. *)
Definition key_uref (name : RString) (e : MintError) : st S MintError URef :=
  key ← asks (fun s => get_key s name);
  match key with
  | None => throw e
  | Some (Key_URef uref) => mret uref
  | Some _ => throw MissingKey
  end.

Definition mint (initial_balance : Z) : st S MintError URef :=
  caller ← asks get_caller;
  let is_empty_purse := initial_balance =? 0 in
  _ ← fail_if (negb is_empty_purse && negb (is_system caller)) InvalidNonEmptyPurseCreation;
  purse_uref ← new_uref;
  _ ← write_balance purse_uref initial_balance;
  _ ← if is_empty_purse then mret ()
      else
        total_supply_uref ← key_uref TOTAL_SUPPLY_KEY TotalSupplyNotFound;
        add total_supply_uref initial_balance;
  mret purse_uref.

Definition reduce_total_supply_unsafe (amount : Z) : st S MintError () :=
  if amount =? 0 then mret ()
  else
    total_supply_uref ← key_uref TOTAL_SUPPLY_KEY MissingKey;
    o ← read_u512 total_supply_uref;
    total_supply ← lift (ok_or o TotalSupplyNotFound);
    reduced_total_supply ← lift (ok_or (checked_sub 512 total_supply amount) ArithmeticOverflow);
    write_amount total_supply_uref reduced_total_supply.

(** Spending from the caller's own main purse counts against the approved limit. *)
Definition spend_approved (amount : Z) : st S MintError () :=
  limit ← asks get_approved_spending_limit;
  _ ← fail_if (limit <? amount) UnapprovedSpendingAmount;
  modify (sub_approved_spending_limit amount).

Definition burn (purse : URef) (amount : Z) : st S MintError () :=
  _ ← fail_if (negb (is_writeable (access_rights purse))) InvalidAccessRights;
  valid ← asks (fun s => is_valid_uref s purse);
  _ ← fail_if (negb valid) ForgedReference;
  o ← available_balance_of purse;
  source_available_balance ← lift (ok_or o PurseNotFound);
  source_total_balance ← total_balance purse;
  let burned_amount := if source_available_balance <? amount then source_available_balance else amount in
  caller ← asks get_caller;
  _ ← if is_system caller then mret ()
      else
        main_purse ← asks get_main_purse;
        main_purse ← lift (ok_or main_purse InvalidURef);
        if decide (addr main_purse = addr purse) then spend_approved burned_amount else mret ();
  let new_balance := saturating_sub source_total_balance burned_amount in
  _ ← write_balance purse new_balance;
  reduce_total_supply_unsafe burned_amount.

Definition reduce_total_supply (amount : Z) : st S MintError () :=
  caller ← asks get_caller;
  _ ← fail_if (negb (is_system caller)) InvalidTotalSupplyReductionAttempt;
  reduce_total_supply_unsafe amount.

Definition balance (purse : URef) : st S MintError (option Z) :=
  o ← available_balance_of purse;
  match o with
  | Some _ => mret o
  | None => throw PurseNotFound
  end.

(** The restrictions on a transfer when unrestricted transfers are not allowed. *)
Definition restrict_account (account_hash : AccountHash) (maybe_to : option AccountHash) (target : URef) : st S MintError () :=
  is_source_admin ← asks (fun s => is_administrator s account_hash);
  match maybe_to with
  | Some to =>
      maybe_account ← st_map_err (fun _ => ME_Storage) (main_purse_by_account_hash to);
      match maybe_account with
      | Some None => throw InvalidContext
      | Some (Some uref) =>
          _ ← fail_if (negb (bool_decide (addr uref = addr target))) DisabledUnrestrictedTransfers;
          is_target_administrator ← asks (fun s => is_administrator s to);
          fail_if (negb (is_source_admin || is_system to || is_target_administrator)) DisabledUnrestrictedTransfers
      | None => fail_if (negb is_source_admin) DisabledUnrestrictedTransfers
      end
  | None => fail_if (negb is_source_admin) DisabledUnrestrictedTransfers
  end.
Definition restrict_contract : st S MintError () :=
  caller ← asks get_caller;
  is_admin ← asks (fun s => is_administrator s caller);
  fail_if (negb (is_system caller) && negb is_admin) DisabledUnrestrictedTransfers.
Definition check_restrictions (maybe_to : option AccountHash) (target : URef) : st S MintError () :=
  unrestricted ← asks allow_unrestricted_transfers;
  if (unrestricted : bool) then mret ()
  else
    registry ← st_map_err (fun _ => UnableToGetSystemRegistry) (fun s => (get_system_registry s, s));
    immediate_caller ← asks get_immediate_caller;
    from_payment ← asks is_called_from_standard_payment;
    match immediate_caller with
    | Some (Entity _ entity_addr) =>
        if registry_exists registry (entity_value entity_addr) then mret () else restrict_contract
    | Some (Initiator account_hash) =>
        if (from_payment : bool) then mret ()
        else if is_system account_hash then mret ()
        else restrict_account account_hash maybe_to target
    | Some (SmartContract _ _) => restrict_contract
    | None => throw DisabledUnrestrictedTransfers
    end.

Definition transfer (maybe_to : option AccountHash) (source target : URef) (amount : Z) (id : option Z) : st S MintError () :=
  _ ← check_restrictions maybe_to target;
  _ ← fail_if (negb (is_writeable (access_rights source)) || negb (is_addable (access_rights target))) InvalidAccessRights;
  o ← available_balance_of source;
  source_available_balance ← lift (ok_or o SourceNotFound);
  _ ← fail_if (source_available_balance <? amount) InsufficientFunds;
  source_total_balance ← total_balance source;
  _ ← lift (assert_that (source_available_balance <=? source_total_balance));
  o ← available_balance_of target;
  _ ← lift (ok_or o DestNotFound);
  main_purse ← asks get_main_purse;
  main_purse ← lift (ok_or main_purse InvalidURef);
  caller ← asks get_caller;
  _ ← if negb (is_system caller) && bool_decide (addr main_purse = addr source) then spend_approved amount else mret ();
  let new_balance := saturating_sub source_total_balance amount in
  _ ← write_balance source new_balance;
  _ ← add_balance target amount;
  record_transfer maybe_to source target amount id.

Definition read_base_round_reward : st S MintError Z :=
  total_supply_uref ← key_uref TOTAL_SUPPLY_KEY MissingKey;
  o ← read_u512 total_supply_uref;
  total_supply ← lift (ok_or o TotalSupplyNotFound);
  round_seigniorage_rate_uref ← key_uref ROUND_SEIGNIORAGE_RATE_KEY MissingKey;
  o ← read_ratio round_seigniorage_rate_uref;
  round_seigniorage_rate ← lift (ok_or o TotalSupplyNotFound);
  product ← lift (map_err (fun _ => ArithmeticOverflow) (ratio_checked_mul round_seigniorage_rate (total_supply, 1)));
  ratio ← lift (ok_or product ArithmeticOverflow);
  mret (to_integer ratio).

Definition mint_into_existing_purse (existing_purse : URef) (amount : Z) : st S MintError () :=
  caller ← asks get_caller;
  _ ← fail_if (negb (is_system caller)) InvalidContext;
  if amount =? 0 then mret ()
  else
    exists_ ← purse_exists existing_purse;
    _ ← fail_if (negb exists_) PurseNotFound;
    _ ← add_balance existing_purse amount;
    total_supply_uref ← key_uref TOTAL_SUPPLY_KEY TotalSupplyNotFound;
    add total_supply_uref amount.
End mint.

(** ** The ledger *)

(** What the state means to the mint: the total supply, the balance of each purse and
    how much of it is held, how much the caller may still spend from the main
    purse, and how many fresh addresses there are for new purses. *)
Record Ledger : Type := mkLedger {
  supply : Z;
  purses : gmap URefAddr Z;
  held : URefAddr -> Z;
  limit : Z;
  unused : nat
}.
Definition available (L : Ledger) (purse : URefAddr) (total : Z) : Z := Z.max 0 (total - held L purse).
Definition with_supply (L : Ledger) (z : Z) : Ledger := mkLedger z (purses L) (held L) (limit L) (unused L).
Definition with_purse (L : Ledger) (purse : URefAddr) (z : Z) : Ledger := mkLedger (supply L) (<[purse := z]> (purses L)) (held L) (limit L) (unused L).
Definition with_limit (L : Ledger) (z : Z) : Ledger := mkLedger (supply L) (purses L) (held L) z (unused L).
Definition with_unused (L : Ledger) (n : nat) : Ledger := mkLedger (supply L) (purses L) (held L) (limit L) n.

(** The sum of all balances. *)
Definition balances (m : gmap URefAddr Z) : Z := zsum (map_to_list m).*2.
(** The supply is what the purses hold, and fits its type. *)
Record sound (L : Ledger) : Prop := {
  sound_supply : supply L = balances (purses L);
  sound_fits : supply L <= u_max 512;
  sound_purses : map_Forall (fun _ => Z.le 0) (purses L);
  sound_held a : 0 <= held L a;
  sound_limit : 0 <= limit L
}.

Lemma balances_empty : balances ∅ = 0.
Proof. unfold balances. by rewrite map_to_list_empty. Qed.
Lemma balances_new (m : gmap URefAddr Z) a z : m !! a = None -> balances (<[a := z]> m) = z + balances m.
Proof. intros Ha. unfold balances. rewrite map_to_list_insert by done. done. Qed.
Lemma balances_set (m : gmap URefAddr Z) a b z : m !! a = Some b -> balances (<[a := z]> m) = z - b + balances m.
Proof.
  intros Ha. rewrite <- (insert_delete_id m a b Ha) at 2.
  rewrite <- insert_delete_eq, !balances_new by apply lookup_delete_eq. lia.
Qed.
Lemma balances_le (m : gmap URefAddr Z) a b : map_Forall (fun _ => Z.le 0) m -> m !! a = Some b -> b <= balances m.
Proof.
  intros Hm Ha. rewrite <- (insert_delete_id m a b Ha), balances_new by apply lookup_delete_eq.
  assert (0 <= balances (delete a m)); [|lia]. apply zsum_nonneg, Forall_fmap, Forall_forall. intros [a' z] Hin.
  apply elem_of_map_to_list in Hin. apply lookup_delete_Some in Hin as [_ Hin]. exact (Hm _ _ Hin).
Qed.

(** ** What the providers promise *)

Section laws.
Context {S : Type} {P : MintProvider S}.

(** What an operation on storage leaves alone. *)
Record same_env (s s' : S) : Prop := {
  same_caller : get_caller s' = get_caller s;
  same_immediate_caller : get_immediate_caller s' = get_immediate_caller s;
  same_payment : is_called_from_standard_payment s' = is_called_from_standard_payment s;
  same_keys name : get_key s' name = get_key s name;
  same_main_purse : get_main_purse s' = get_main_purse s;
  same_administrators a : is_administrator s' a = is_administrator s a;
  same_unrestricted : allow_unrestricted_transfers s' = allow_unrestricted_transfers s
}.
#[export] Instance same_env_refl : Reflexive same_env.
Proof. by split. Qed.
#[export] Instance same_env_trans : Transitive same_env.
Proof. intros s1 s2 s3 [] []. split; intros; congruence. Qed.

Class MintLaws (system : AccountHash) (ledger : S -> Ledger -> Prop) : Prop := {
  law_limit s L : ledger s L -> get_approved_spending_limit s = limit L;
  law_spend s L z : ledger s L -> 0 <= z <= limit L ->
    ledger (sub_approved_spending_limit z s) (with_limit L (limit L - z)) /\ same_env s (sub_approved_spending_limit z s);
  law_available s L u : ledger s L -> yields (available_balance_of u) s (fun r s' => ledger s' L /\ same_env s s' /\
    match purses L !! addr u with
    | Some b => r = Ok (Some (available L (addr u) b))
    | None => r = Ok None \/ exists e, r = Err e
    end);
  law_total s L u b : ledger s L -> purses L !! addr u = Some b ->
    yields (total_balance u) s (fun r s' => ledger s' L /\ same_env s s' /\ r = Ok b);
  law_write s L u z : ledger s L -> is_Some (purses L !! addr u) -> in_u 512 z ->
    yields (write_balance u z) s (fun r s' => ledger s' (with_purse L (addr u) z) /\ same_env s s' /\ r = Ok ());
  law_add s L u b z : ledger s L -> purses L !! addr u = Some b -> in_u 512 z -> in_u 512 (b + z) ->
    yields (add_balance u z) s (fun r s' => ledger s' (with_purse L (addr u) (b + z)) /\ same_env s s' /\ r = Ok ());
  law_supply_key s L : ledger s L -> exists su, get_key s TOTAL_SUPPLY_KEY = Some (Key_URef su);
  law_read_supply s L su : ledger s L -> get_key s TOTAL_SUPPLY_KEY = Some (Key_URef su) ->
    yields (read_u512 su) s (fun r s' => ledger s' L /\ same_env s s' /\ r = Ok (Some (supply L)));
  law_write_supply s L su z : ledger s L -> get_key s TOTAL_SUPPLY_KEY = Some (Key_URef su) -> in_u 512 z ->
    yields (write_amount su z) s (fun r s' => ledger s' (with_supply L z) /\ same_env s s' /\ r = Ok ());
  law_add_supply s L su z : ledger s L -> get_key s TOTAL_SUPPLY_KEY = Some (Key_URef su) -> in_u 512 z -> in_u 512 (supply L + z) ->
    yields (add su z) s (fun r s' => ledger s' (with_supply L (supply L + z)) /\ same_env s s' /\ r = Ok ());
  law_new s L : ledger s L -> (0 < unused L)%nat -> yields new_uref s (fun r s' => same_env s s' /\
    match r with
    | Ok u =>
        let L' := with_unused L (unused L - 1) in
        ledger s' L' /\ purses L !! addr u = None /\ held L (addr u) = 0 /\
        forall z, in_u 512 z ->
        yields (write_balance u z) s' (fun r s'' => ledger s'' (with_purse L' (addr u) z) /\ same_env s' s'' /\ r = Ok ())
    | Err _ => ledger s' L
    | _ => False
    end);
  law_rate s L u : ledger s L -> yields (read_ratio u) s (fun r s' => ledger s' L /\ same_env s s' /\
    match r with Ok o => forall q, o = Some q -> 0 < q.2 /\ in_u 512 q.1 /\ in_u 512 q.2 | Err _ => True | _ => False end);
  law_record s L to source target z id : ledger s L ->
    yields (record_transfer to source target z id) s (fun r s' => ledger s' L /\ same_env s s' /\ r = Ok ());
  law_exists s L u : ledger s L ->
    yields (purse_exists u) s (fun r s' => ledger s' L /\ same_env s s' /\ r = Ok (bool_decide (is_Some (purses L !! addr u))));
  law_registry s L : ledger s L -> match get_system_registry s with Ok _ | Err _ => True | _ => False end;
  law_account s L a h : ledger s L -> get_immediate_caller s = Some (Initiator h) -> h <> system -> yields (main_purse_by_account_hash a) s (fun r s' => ledger s' L /\ same_env s s' /\
    match r with Ok _ | Err _ => True | _ => False end)
}.
End laws.

(** ** The methods of the mint on the ledger *)

Section correct.
Context (blake2b : list u8 -> AccountHash).
Context {S : Type} {P : MintProvider S} `{RatioLaws}.
Context (ledger : S -> Ledger -> Prop) {ML : MintLaws (system_account blake2b) ledger}.
Abbreviation is_system := (is_system blake2b).
Implicit Types (s : S) (L : Ledger).

(** Is the purse the main purse of a caller that is not the system? *)
Definition own_main_purse s (u : URef) : bool :=
  negb (is_system (get_caller s)) &&
  match get_main_purse s with Some m => bool_decide (addr m = addr u) | None => false end.
(** What is taken off the limit when [z] leaves a purse. *)
Definition spend s L (u : URef) (z : Z) : Ledger := if own_main_purse s u then with_limit L (limit L - z) else L.

Lemma spend_fields s L u z : supply (spend s L u z) = supply L /\ purses (spend s L u z) = purses L /\ held (spend s L u z) = held L /\
  unused (spend s L u z) = unused L.
Proof. unfold spend. by destruct (own_main_purse s u). Qed.

(** An outcome, with the state it leaves behind: the ledger after a success, and the
    same ledger after an error. *)
Definition leaves {A} s L (Q : A -> Ledger -> Prop) (r : result MintError A) s' : Prop :=
  same_env s s' /\
  match r with
  | Ok a => exists L', ledger s' L' /\ Q a L'
  | Err _ => ledger s' L
  | _ => False
  end.

Lemma leaves_trans {A} s s' L (Q : A -> Ledger -> Prop) r s'' : same_env s s' -> leaves s' L Q r s'' -> leaves s L Q r s''.
Proof. intros E [E' Hr]. split; [by etrans|done]. Qed.

Lemma key_uref_supply s L e :
  ledger s L -> yields (key_uref TOTAL_SUPPLY_KEY e) s (fun r s' => s' = s /\ exists su, r = Ok su /\ get_key s TOTAL_SUPPLY_KEY = Some (Key_URef su)).
Proof.
  intros HL. destruct (law_supply_key s L HL) as [su E]. unfold key_uref. apply yields_asks. rewrite E. apply yields_ret.
  split; [done|]. by exists su.
Qed.

Lemma with_supply_0 L : with_supply L (supply L - 0) = L.
Proof. destruct L; cbv [with_supply]; cbn. f_equal. lia. Qed.
Lemma reduce_unsafe_ok s L z :
  ledger s L -> 0 <= z -> in_u 512 (supply L) ->
  yields (reduce_total_supply_unsafe z) s (fun r s' => same_env s s' /\
    if z <=? supply L then r = Ok () /\ ledger s' (with_supply L (supply L - z)) else r = Err ArithmeticOverflow /\ ledger s' L).
Proof.
  intros HL Hz Hs. unfold reduce_total_supply_unsafe. destruct (Z.eqb_spec z 0) as [->|Hne].
  { apply yields_ret. split; [done|]. destruct (Z.leb_spec 0 (supply L)); [|destruct Hs; lia]. by rewrite with_supply_0. }
  eapply yields_call; [by eapply key_uref_supply|]. intros r s' [-> (su & -> & Ek)].
  eapply yields_call; [by eapply law_read_supply|]. intros r s1 (HL1 & E1 & ->). cbn [ok_or].
  apply yields_bind, yields_lift. unfold checked_sub, checked. destruct (Z.leb_spec z (supply L)).
  - rewrite decide_True by (unfold in_u in *; lia). apply yields_bind, yields_lift. cbn [ok_or].
    eapply yields_impl; [eapply law_write_supply; [done|by rewrite (same_keys s s1)|unfold in_u in *; lia]|].
    intros r s2 (HL2 & E2 & ->). split; [by etrans|done].
  - rewrite decide_False by (unfold in_u in *; lia). apply yields_bind, yields_lift. done.
Qed.

(** Approved spending *)
Lemma spend_approved_ok s L z :
  ledger s L -> 0 <= z -> yields (spend_approved z) s (fun r s' => same_env s s' /\
    if z <=? limit L then r = Ok () /\ ledger s' (with_limit L (limit L - z)) else r = Err UnapprovedSpendingAmount /\ s' = s).
Proof.
  intros HL Hz. unfold spend_approved. apply yields_asks. rewrite (law_limit s L HL). apply yields_fail_if; intros Hb.
  - split; [done|]. destruct (Z.leb_spec z (limit L)), (Z.ltb_spec (limit L) z); done || lia.
  - destruct (Z.leb_spec z (limit L)), (Z.ltb_spec (limit L) z); try done; try lia. by destruct (law_spend s L z HL (conj Hz ltac:(eassumption))).
Qed.

Lemma available_bounds L a b : 0 <= b -> 0 <= held L a -> 0 <= available L a b <= b.
Proof. unfold available. lia. Qed.

(** A purse that is not there *)
Definition missing {A} s L (r : result MintError A) s' : Prop := leaves s L (fun _ _ => False) r s'.

Lemma sound_supply_u L : sound L -> in_u 512 (supply L).
Proof.
  intros [Hs Hf Hp _ _]. apply in_u_max. split; [|done]. rewrite Hs. apply zsum_nonneg, Forall_fmap, Forall_forall.
  intros [a z] Hin%elem_of_map_to_list. exact (Hp _ _ Hin).
Qed.
Lemma sound_purse L a b : sound L -> purses L !! a = Some b -> 0 <= b <= supply L.
Proof. intros [Hs Hf Hp _ _] Ha. split; [exact (Hp _ _ Ha)|]. rewrite Hs. by eapply balances_le. Qed.

Lemma burn_ok s L u z :
  ledger s L -> sound L -> 0 <= z ->
  yields (burn blake2b u z) s (leaves s L (fun _ L' => exists b, purses L !! addr u = Some b /\
    is_writeable (access_rights u) /\ is_valid_uref s u /\
    let burned := Z.min z (available L (addr u) b) in
    (own_main_purse s u -> burned <= limit L) /\
    L' = with_supply (with_purse (spend s L u burned) (addr u) (b - burned)) (supply L - burned))).
Proof.
  intros HL Hsound Hz. unfold burn. apply yields_fail_if; intros Hw; [by split|]. apply negb_false_iff in Hw.
  apply yields_asks. apply yields_fail_if; intros Hv; [by split|]. apply negb_false_iff in Hv.
  eapply yields_call; [by eapply law_available|]. intros r s1 (HL1 & E1 & Hr).
  destruct (purses L !! addr u) as [b|] eqn:Eb; [subst r|destruct Hr as [->|[e ->]]; [apply yields_bind, yields_lift|]; by split].
  apply yields_ok_or. eapply yields_call; [by apply (law_total s1 L u b)|]. intros r s2 (HL2 & E2 & ->).
  apply yields_asks. pose proof (sound_purse L (addr u) b Hsound Eb) as Hb.
  pose proof (available_bounds L (addr u) b (proj1 Hb) (sound_held L Hsound _)) as Ha.
  assert ((if available L (addr u) b <? z then available L (addr u) b else z) = Z.min z (available L (addr u) b)) as ->
    by (destruct (Z.ltb_spec (available L (addr u) b) z); lia).
  set (burned := Z.min z (available L (addr u) b)). assert (0 <= burned <= b) as Hbu by lia.
  assert (same_env s s2) as E02 by (by etrans). clear E1 E2 HL1.
  assert (yields (if is_system (get_caller s2) then mret () else
      main_purse ← asks get_main_purse;
      main_purse ← lift (ok_or main_purse InvalidURef);
      if decide (addr main_purse = addr u) then spend_approved burned else mret ()) s2
    (leaves s2 L (fun _ L' => (own_main_purse s u -> burned <= limit L) /\ L' = spend s L u burned))) as Hspend.
  { unfold spend, own_main_purse. rewrite <- (same_caller s s2 E02), <- (same_main_purse s s2 E02).
    destruct (is_system (get_caller s2)); [apply yields_ret; split; [done|]; by exists L|]. cbn [negb andb]. apply yields_asks.
    destruct (get_main_purse s2) as [mp|]; apply yields_bind, yields_lift; cbn [ok_or]; [|by split].
    case_decide as Em; [rewrite bool_decide_true by done|rewrite bool_decide_false by done; apply yields_ret; split; [done|]; by exists L].
    eapply yields_impl; [apply spend_approved_ok; [done|lia]|]. intros r s3 [E3 Hr]. split; [done|].
    destruct (Z.leb_spec burned (limit L)); [destruct Hr as [-> HL3]; by eexists|]. by destruct Hr as [-> ->]. }
  eapply yields_call; [exact Hspend|]. intros r s3 [E3 Hr]. assert (same_env s s3) as E03 by (by etrans).
  destruct r as [[]| | |]; [|by split|done..]. destruct Hr as (L3 & HL3 & Hlim & ->).
  assert (saturating_sub b burned = b - burned) as -> by (unfold saturating_sub; lia).
  pose proof (sound_supply_u L Hsound) as Hu. pose proof (sound_fits L Hsound) as Hfit.
  eapply yields_call; [apply (law_write s3 (spend s L u burned) u (b - burned)); [done|..]|].
  { rewrite (proj1 (proj2 (spend_fields s L u burned))), Eb. by eexists. }
  { apply in_u_max. lia. }
  intros r s4 (HL4 & E4 & ->). assert (supply (with_purse (spend s L u burned) (addr u) (b - burned)) = supply L) as Es
    by (unfold spend; by destruct (own_main_purse s u)).
  eapply yields_impl; [apply (reduce_unsafe_ok s4 _ burned HL4); [lia|by rewrite Es]|]. intros r s5 [E5 Hr]. rewrite Es in Hr.
  destruct (Z.leb_spec burned (supply L)); [|lia]. destruct Hr as [-> HL5].
  split; [etrans; [exact E03|]; by etrans|]. eexists. split; [done|]. exists b. rewrite Hw, Hv. done.
Qed.

(** The checks on callers leave the ledger alone. *)
Definition keeps {A} s L (r : result MintError A) s' : Prop := leaves s L (fun _ L' => L' = L) r s'.
Lemma keeps_fail_if s L b e : ledger s L -> yields (fail_if b e) s (keeps s L).
Proof. intros HL. by destruct b; (split; [done|]); [|exists L]. Qed.
Lemma keeps_call {A B} s L (m : st S MintError A) (k : A -> st S MintError B) (Q : B -> Ledger -> Prop) :
  yields m s (keeps s L) -> (forall a s', same_env s s' -> ledger s' L -> yields (k a) s' (leaves s' L Q)) ->
  yields (m ≫= k) s (leaves s L Q).
Proof.
  intros Hm Hk. eapply yields_call; [exact Hm|]. intros r s' [E Hr]. destruct r as [a| | |]; [|by split|done..].
  destruct Hr as (L' & HL & ->). eapply yields_impl; [by apply Hk|]. intros r s2. by apply leaves_trans.
Qed.
Lemma restrict_account_ok s L h to target :
  ledger s L -> get_immediate_caller s = Some (Initiator h) -> h <> system_account blake2b ->
  yields (restrict_account blake2b h to target) s (keeps s L).
Proof.
  intros HL Hi Hh. unfold restrict_account. apply yields_asks. destruct to as [to|]; [|by apply keeps_fail_if].
  apply (keeps_call s L (st_map_err (fun _ : ProviderError => ME_Storage) (main_purse_by_account_hash to))).
  { pose proof (law_account s L to h HL Hi Hh) as Ha. unfold yields, st_map_err in *.
    destruct (main_purse_by_account_hash to s) as [r s']. cbn in *. destruct Ha as (HL' & E & Hr).
    split; [done|]. destruct r; cbn; try done. by exists L. }
  intros [[uref|]|] s' E HL'; [|by apply yields_throw|by apply keeps_fail_if].
  apply keeps_call; [by apply keeps_fail_if|]. intros _ s2 E2 HL2. apply yields_asks. by apply keeps_fail_if.
Qed.
Lemma restrict_contract_ok s L : ledger s L -> yields (restrict_contract blake2b) s (keeps s L).
Proof. intros HL. unfold restrict_contract. do 2 apply yields_asks. by apply keeps_fail_if. Qed.
Lemma check_restrictions_ok s L to target : ledger s L -> yields (check_restrictions blake2b to target) s (keeps s L).
Proof.
  intros HL. unfold check_restrictions. assert (yields (mret () : st S MintError ()) s (keeps s L)) as Hret
    by (apply yields_ret; split; [done|]; by exists L).
  apply yields_asks. destruct (allow_unrestricted_transfers s); [done|].
  apply keeps_call.
  { unfold yields, st_map_err. cbn. pose proof (law_registry s L HL) as Hr. split; [done|].
    destruct (get_system_registry s); cbn; try done. by exists L. }
  clear Hret. intros registry s' E HL'. assert (yields (mret () : st S MintError ()) s' (keeps s' L)) as Hret
    by (apply yields_ret; split; [done|]; by exists L).
  do 2 apply yields_asks. destruct (get_immediate_caller s') as [[h|h e|h c]|] eqn:Ei.
  - destruct (is_called_from_standard_payment s'); [done|]. unfold is_system. case_bool_decide; [done|]. by apply restrict_account_ok.
  - destruct (registry_exists _ _); [done|]. by apply restrict_contract_ok.
  - by apply restrict_contract_ok.
  - by apply yields_throw.
Qed.

(** Moving an amount between purses: the sum of the balances stays. *)
Lemma moved_fits (m : gmap URefAddr Z) a b z t bt :
  map_Forall (fun _ => Z.le 0) m -> m !! a = Some b -> 0 <= z <= b -> <[a := b - z]> m !! t = Some bt ->
  0 <= bt /\ bt + z <= balances m /\ balances (<[t := bt + z]> (<[a := b - z]> m)) = balances m.
Proof.
  intros Hm Ha Hz Ht. assert (map_Forall (fun _ => Z.le 0) (<[a := b - z]> m)) as Hm' by (apply map_Forall_insert_2; [lia|done]).
  pose proof (balances_le _ _ _ Hm' Ht) as Hb. rewrite (balances_set m a b) in Hb by done.
  split; [exact (Hm' _ _ Ht)|]. split; [lia|]. rewrite (balances_set _ t bt), (balances_set m a b) by done. lia.
Qed.

(** What a transfer does to the purses. *)
Definition moved L (a t : URefAddr) (b z : Z) (m : gmap URefAddr Z) : Prop :=
  exists bt, <[a := b - z]> (purses L) !! t = Some bt /\ m = <[t := bt + z]> (<[a := b - z]> (purses L)).

Lemma spend_if_ok s s0 L u z :
  ledger s L -> 0 <= z -> same_env s0 s -> is_Some (get_main_purse s) ->
  yields (if own_main_purse s u then spend_approved z else mret ()) s
    (leaves s L (fun _ L' => (own_main_purse s0 u -> z <= limit L) /\ L' = spend s0 L u z)).
Proof.
  intros HL Hz E Hm. assert (own_main_purse s u = own_main_purse s0 u) as Eo
    by (unfold own_main_purse; by rewrite (same_caller s0 s E), (same_main_purse s0 s E)).
  unfold spend. rewrite Eo. destruct (own_main_purse s0 u) eqn:Ez; [|apply yields_ret; split; [done|]; by exists L].
  eapply yields_impl; [apply spend_approved_ok; [done|lia]|]. intros r s3 [E3 Hr]. split; [done|].
  destruct (Z.leb_spec z (limit L)); [destruct Hr as [-> HL3]; by eexists|]. by destruct Hr as [-> ->].
Qed.

Lemma transfer_ok s L to source target z id :
  ledger s L -> sound L -> 0 <= z ->
  yields (transfer blake2b to source target z id) s (leaves s L (fun _ L' => exists b m,
    purses L !! addr source = Some b /\ is_Some (purses L !! addr target) /\
    is_writeable (access_rights source) /\ is_addable (access_rights target) /\
    z <= available L (addr source) b /\ (own_main_purse s source -> z <= limit L) /\
    moved L (addr source) (addr target) b z m /\
    L' = mkLedger (supply L) m (held L) (limit (spend s L source z)) (unused L))).
Proof.
  intros HL Hsound Hz. unfold transfer. apply keeps_call; [by apply check_restrictions_ok|]. intros _ s1 E1 HL1.
  apply yields_fail_if; intros Hrights; [by split|]. apply orb_false_iff in Hrights as [Hw%negb_false_iff Ha%negb_false_iff].
  eapply yields_call; [by eapply law_available|]. intros r s2 (HL2 & E2 & Hr).
  destruct (purses L !! addr source) as [b|] eqn:Eb; [subst r|destruct Hr as [->|[e ->]]; [apply yields_bind, yields_lift|]; by split].
  apply yields_ok_or. apply yields_fail_if; intros Hfunds; [by split|]. apply Z.ltb_ge in Hfunds.
  eapply yields_call; [by apply (law_total s2 L source b)|]. intros r s3 (HL3 & E3 & ->).
  pose proof (sound_purse L (addr source) b Hsound Eb) as Hb.
  pose proof (available_bounds L (addr source) b (proj1 Hb) (sound_held L Hsound _)) as Hav.
  apply yields_bind, yields_lift. destruct (Z.leb_spec (available L (addr source) b) b); [cbn [assert_that]|lia].
  assert (same_env s1 s3) as E13 by (by etrans). clear E2 E3 HL2.
  eapply yields_call; [by eapply law_available|]. intros r s4 (HL4 & E4 & Hr). assert (same_env s1 s4) as E14 by (by etrans).
  destruct (purses L !! addr target) as [bt|] eqn:Et; [subst r|destruct Hr as [->|[e ->]]; [apply yields_bind, yields_lift|]; by split].
  apply yields_ok_or. apply yields_asks. destruct (get_main_purse s4) as [mp|] eqn:Em; apply yields_ok_or; [|by split].
  apply yields_asks. assert (negb (is_system (get_caller s4)) && bool_decide (addr mp = addr source) = own_main_purse s4 source) as ->
    by (unfold own_main_purse; by rewrite Em).
  eapply yields_call; [apply (spend_if_ok s4 s L source z HL4 Hz); [by etrans|by rewrite Em]|]. intros r s5 [E5 Hr].
  assert (same_env s1 s5) as E15 by (by etrans). destruct r as [[]| | |]; [|by split|done..]. destruct Hr as (L5 & HL5 & Hlim & ->).
  assert (saturating_sub b z = b - z) as -> by (unfold saturating_sub; lia). pose proof (sound_fits L Hsound).
  eapply yields_call; [apply (law_write s5 (spend s L source z) source (b - z) HL5);
    [by rewrite (proj1 (proj2 (spend_fields s L source z))), Eb|apply in_u_max; lia]|]. intros r s6 (HL6 & E6 & ->).
  assert (exists bt', <[addr source := b - z]> (purses L) !! addr target = Some bt') as [bt' Ebt].
  { destruct (decide (addr source = addr target)) as [<-|Hne]; [rewrite lookup_insert_eq; eauto|]. rewrite lookup_insert_ne by done. eauto. }
  destruct (moved_fits (purses L) (addr source) b z (addr target) bt' (sound_purses L Hsound) Eb) as (Hbt & Hfit & _); [lia|done|].
  rewrite <- (sound_supply L Hsound) in Hfit. assert (purses (spend s L source z) = purses L) as Ep by (unfold spend; by destruct (own_main_purse s source)).
  eapply yields_call; [apply (law_add s6 _ target bt' z HL6)|].
  { cbn. by rewrite Ep. }
  { apply in_u_max. lia. }
  { apply in_u_max. lia. }
  intros r s7 (HL7 & E7 & ->). eapply yields_impl; [by apply law_record|]. intros r s8 (HL8 & E8 & ->).
  split; [etrans; [exact E15|]; etrans; [exact E6|]; by etrans|]. eexists. split; [exact HL8|].
  exists b, (<[addr target := bt' + z]> (<[addr source := b - z]> (purses L))). rewrite Hw, Ha.
  split; [done|]. split; [by eexists|]. split; [done|]. split; [done|]. split; [done|]. split; [done|].
  split; [by exists bt'|]. unfold with_purse. cbn. rewrite Ep. unfold spend. by destruct (own_main_purse s source).
Qed.

Lemma supply_add_ok s L z e :
  ledger s L -> in_u 512 z -> in_u 512 (supply L + z) ->
  yields (total_supply_uref ← key_uref TOTAL_SUPPLY_KEY e; add total_supply_uref z) s
    (fun r s' => ledger s' (with_supply L (supply L + z)) /\ same_env s s' /\ r = Ok ()).
Proof.
  intros HL Hz Hs. eapply yields_call; [by eapply key_uref_supply|]. intros r s' [-> (su & -> & Ek)]. by apply law_add_supply.
Qed.

Lemma mint_ok s L z :
  ledger s L -> sound L -> 0 <= z -> supply L + z <= u_max 512 -> (0 < unused L)%nat ->
  yields (mint blake2b z) s (leaves s L (fun u L' => purses L !! addr u = None /\ held L (addr u) = 0 /\
    (z = 0 \/ get_caller s = system_account blake2b) /\
    L' = with_supply (with_purse (with_unused L (unused L - 1)) (addr u) z) (supply L + z))).
Proof.
  intros HL Hsound Hz Hfit Hun. unfold mint. apply yields_asks. apply yields_fail_if; intros Hb; [by split|].
  assert (z = 0 \/ get_caller s = system_account blake2b) as Hc.
  { apply andb_false_iff in Hb as [Hb|Hb]; apply negb_false_iff in Hb; [left; lia|right; by apply bool_decide_eq_true in Hb]. }
  pose proof (sound_supply_u L Hsound) as [Hu _].
  eapply yields_call; [by apply law_new|]. intros r s1 (E1 & Hr). destruct r as [u| | |]; [|by split|done..].
  destruct Hr as (_ & Hu1 & Hu2 & Hw). eapply yields_call; [apply Hw, in_u_max; lia|]. intros r s2 (HL2 & E2 & ->).
  destruct (Z.eqb_spec z 0) as [->|Hne].
  { apply yields_bind, yields_ret, yields_ret. split; [by etrans|]. eexists. split; [exact HL2|]. rewrite Z.add_0_r. done. }
  eapply yields_call; [apply (supply_add_ok s2 _ z TotalSupplyNotFound HL2); apply in_u_max; cbn; lia|]. intros r s3 (HL3 & E3 & ->).
  apply yields_ret. split; [etrans; [exact E1|]; by etrans|]. eexists. split; [exact HL3|]. done.
Qed.

Lemma mint_into_ok s L u z :
  ledger s L -> sound L -> 0 <= z -> supply L + z <= u_max 512 ->
  yields (mint_into_existing_purse blake2b u z) s (leaves s L (fun _ L' => get_caller s = system_account blake2b /\
    (z = 0 /\ L' = L \/ exists b, purses L !! addr u = Some b /\ L' = with_supply (with_purse L (addr u) (b + z)) (supply L + z)))).
Proof.
  intros HL Hsound Hz Hfit. unfold mint_into_existing_purse. apply yields_asks. apply yields_fail_if; intros Hc; [by split|].
  apply negb_false_iff, bool_decide_eq_true in Hc. destruct (Z.eqb_spec z 0) as [->|Hne].
  { apply yields_ret. split; [done|]. exists L. split; [done|]. split; [done|by left]. }
  eapply yields_call; [by eapply law_exists|]. intros r s1 (HL1 & E1 & ->). apply yields_fail_if; intros Hx; [by split|].
  apply negb_false_iff, bool_decide_eq_true in Hx as [b Eb]. pose proof (sound_purse L (addr u) b Hsound Eb).
  eapply yields_call; [apply (law_add s1 L u b z HL1 Eb); apply in_u_max; lia|]. intros r s2 (HL2 & E2 & ->).
  eapply yields_impl; [apply (supply_add_ok s2 _ z TotalSupplyNotFound HL2); apply in_u_max; cbn; lia|]. intros r s3 (HL3 & E3 & ->).
  split; [etrans; [exact E1|]; by etrans|]. eexists. split; [exact HL3|]. split; [done|]. right. by exists b.
Qed.

Lemma reduce_ok s L z :
  ledger s L -> sound L -> 0 <= z ->
  yields (reduce_total_supply blake2b z) s (leaves s L (fun _ L' =>
    get_caller s = system_account blake2b /\ z <= supply L /\ L' = with_supply L (supply L - z))).
Proof.
  intros HL Hsound Hz. unfold reduce_total_supply. apply yields_asks. apply yields_fail_if; intros Hc; [by split|].
  apply negb_false_iff, bool_decide_eq_true in Hc. eapply yields_impl; [apply (reduce_unsafe_ok s L z HL Hz), sound_supply_u, Hsound|].
  intros r s' [E Hr]. split; [done|]. destruct (Z.leb_spec z (supply L)); destruct Hr as [-> Hr]; [|done]. by eexists.
Qed.

Lemma reduce_exact s L z :
  ledger s L -> get_caller s = system_account blake2b -> 0 <= z -> in_u 512 (supply L) -> z <= supply L ->
  yields (reduce_total_supply blake2b z) s (fun r s' => same_env s s' /\ ledger s' (with_supply L (supply L - z)) /\ r = Ok ()).
Proof.
  intros HL Hc Hz Hu Hle. unfold reduce_total_supply. apply yields_asks. apply yields_fail_if; intros Hb.
  { unfold is_system in Hb. by rewrite Hc, bool_decide_true in Hb. }
  eapply yields_impl; [by apply (reduce_unsafe_ok s L z)|]. intros r s' [E Hr]. destruct (Z.leb_spec z (supply L)); [|lia].
  by destruct Hr.
Qed.

Lemma balance_ok s L u :
  ledger s L ->
  yields (balance u) s (leaves s L (fun o L' => L' = L /\ exists b, purses L !! addr u = Some b /\ o = Some (available L (addr u) b))).
Proof.
  intros HL. unfold balance. eapply yields_call; [by eapply law_available|]. intros r s' (HL' & E & Hr).
  destruct (purses L !! addr u) as [b|]; [subst r|destruct Hr as [->|[e ->]]; [apply yields_throw|]; by split].
  apply yields_ret. split; [done|]. exists L. split; [done|]. split; [done|]. by exists b.
Qed.

Lemma reward_ok s L :
  ledger s L -> sound L -> yields read_base_round_reward s (leaves s L (fun _ L' => L' = L)).
Proof.
  intros HL Hsound. unfold read_base_round_reward. eapply yields_call; [by eapply key_uref_supply|]. intros r s' [-> (su & -> & Ek)].
  eapply yields_call; [by eapply law_read_supply|]. intros r s1 (HL1 & E1 & ->). apply yields_ok_or.
  assert (yields (key_uref ROUND_SEIGNIORAGE_RATE_KEY MissingKey) s1 (keeps s1 L)) as Hk.
  { unfold key_uref. apply yields_asks. destruct (get_key s1 ROUND_SEIGNIORAGE_RATE_KEY) as [[]|]; try by split.
    apply yields_ret. split; [done|]. by exists L. }
  eapply yields_impl; [eapply (keeps_call s1 L _ _ (fun _ L' => L' = L) Hk)|intros r s'; by apply leaves_trans].
  clear Hk. intros ru s2 E2 HL2. eapply yields_call; [by eapply law_rate|]. intros r s3 (HL3 & E3 & Hr).
  destruct r as [o| | |]; [|by split|done..]. apply yields_ok_or. destruct o as [[n d]|]; [|by split].
  destruct (Hr (n, d) eq_refl) as (Hd & Hn' & Hd'). cbn [fst snd] in Hd, Hn', Hd'.
  assert (in_u 512 1) as H1 by (by split; [|vm_compute]).
  destruct (ratio_mul_exact n d (supply L) 1) as (o & -> & _); try done; [by apply sound_supply_u|]. apply yields_bind, yields_lift. cbn [map_err].
  apply yields_ok_or. destruct o; [|by split]. apply yields_ret. split; [done|]. by exists L.
Qed.

(** ** Sequences of calls *)

Inductive MintOp : Type :=
| MO_mint (initial_balance : Z)
| MO_burn (purse : URef) (amount : Z)
| MO_reduce_total_supply (amount : Z)
| MO_balance (purse : URef)
| MO_transfer (maybe_to : option AccountHash) (source target : URef) (amount : Z) (id : option Z)
| MO_read_base_round_reward
| MO_mint_into_existing_purse (existing_purse : URef) (amount : Z).
Inductive MintOut : Type := MR_purse (u : URef) | MR_done | MR_balance (o : option Z) | MR_amount (z : Z).

Definition mint_step (op : MintOp) : st S MintError MintOut :=
  match op with
  | MO_mint z => u ← mint blake2b z; mret (MR_purse u)
  | MO_burn u z => _ ← burn blake2b u z; mret MR_done
  | MO_reduce_total_supply z => _ ← reduce_total_supply blake2b z; mret MR_done
  | MO_balance u => o ← balance u; mret (MR_balance o)
  | MO_transfer to source target z id => _ ← transfer blake2b to source target z id; mret MR_done
  | MO_read_base_round_reward => z ← read_base_round_reward; mret (MR_amount z)
  | MO_mint_into_existing_purse u z => _ ← mint_into_existing_purse blake2b u z; mret MR_done
  end.
(** A session goes on after an error. *)
Fixpoint mint_run (ops : list MintOp) s : S :=
  match ops with
  | [] => s
  | op :: ops => mint_run ops (mint_step op s).2
  end.

(** The amount of a call, and how much it may create. *)
Definition amount_of_op (op : MintOp) : Z :=
  match op with
  | MO_mint z | MO_burn _ z | MO_reduce_total_supply z | MO_transfer _ _ _ z _ | MO_mint_into_existing_purse _ z => z
  | MO_balance _ | MO_read_base_round_reward => 0
  end.
Definition minted (op : MintOp) : Z :=
  match op with MO_mint z | MO_mint_into_existing_purse _ z => z | _ => 0 end.
(** The addresses a call draws. *)
Definition drawn (op : MintOp) : nat := match op with MO_mint _ => 1 | _ => 0 end.
Definition is_reduction (op : MintOp) : bool := match op with MO_reduce_total_supply _ => true | _ => false end.

(** What a successful call does to the ledger. *)
Definition mint_effect s L (op : MintOp) (out : MintOut) (L' : Ledger) : Prop :=
  match op, out with
  | MO_mint z, MR_purse u =>
      purses L !! addr u = None /\ held L (addr u) = 0 /\
      (z = 0 \/ get_caller s = system_account blake2b) /\
      L' = with_supply (with_purse (with_unused L (unused L - 1)) (addr u) z) (supply L + z)
  | MO_burn u z, MR_done =>
      exists b, purses L !! addr u = Some b /\ is_writeable (access_rights u) /\ is_valid_uref s u /\
      let burned := Z.min z (available L (addr u) b) in
      (own_main_purse s u -> burned <= limit L) /\
      L' = with_supply (with_purse (spend s L u burned) (addr u) (b - burned)) (supply L - burned)
  | MO_reduce_total_supply z, MR_done =>
      get_caller s = system_account blake2b /\ z <= supply L /\ L' = with_supply L (supply L - z)
  | MO_balance u, MR_balance o => L' = L /\ exists b, purses L !! addr u = Some b /\ o = Some (available L (addr u) b)
  | MO_transfer to source target z id, MR_done =>
      exists b m, purses L !! addr source = Some b /\ is_Some (purses L !! addr target) /\
      is_writeable (access_rights source) /\ is_addable (access_rights target) /\
      z <= available L (addr source) b /\ (own_main_purse s source -> z <= limit L) /\
      moved L (addr source) (addr target) b z m /\ L' = mkLedger (supply L) m (held L) (limit (spend s L source z)) (unused L)
  | MO_read_base_round_reward, MR_amount _ => L' = L
  | MO_mint_into_existing_purse u z, MR_done =>
      get_caller s = system_account blake2b /\
      (z = 0 /\ L' = L \/ exists b, purses L !! addr u = Some b /\ L' = with_supply (with_purse L (addr u) (b + z)) (supply L + z))
  | _, _ => False
  end.

Lemma leaves_ret {A B} s L (m : st S MintError A) (f : A -> B) (Q : A -> Ledger -> Prop) (R : B -> Ledger -> Prop) :
  yields m s (leaves s L Q) -> (forall a L', Q a L' -> R (f a) L') -> yields (a ← m; mret (f a)) s (leaves s L R).
Proof.
  intros Hm HR. eapply yields_call; [exact Hm|]. intros r s' [E Hr]. destruct r; [|by split|done..].
  destruct Hr as (L' & HL' & HQ). split; [done|]. exists L'. auto.
Qed.
Lemma mint_step_ok s L op :
  ledger s L -> sound L -> 0 <= amount_of_op op -> supply L + minted op <= u_max 512 -> (drawn op <= unused L)%nat ->
  yields (mint_step op) s (leaves s L (mint_effect s L op)).
Proof.
  intros HL Hsound Hz Hfit Hun. destruct op; cbn [mint_step amount_of_op minted] in *; (eapply leaves_ret; [|intros a L' HQ; exact HQ]).
  - by apply mint_ok.
  - by apply burn_ok.
  - by apply reduce_ok.
  - by apply balance_ok.
  - by apply transfer_ok.
  - by apply reward_ok.
  - by apply mint_into_ok.
Qed.

Lemma spend_limit s L u z : 0 <= limit L -> (own_main_purse s u -> z <= limit L) -> 0 <= limit (spend s L u z).
Proof. unfold spend. destruct (own_main_purse s u); [|done]. intros _ Hz. specialize (Hz I). cbn. lia. Qed.
Lemma effect_sound s L op out L' :
  sound L -> 0 <= amount_of_op op -> supply L + minted op <= u_max 512 -> (is_reduction op = true -> get_caller s <> system_account blake2b) ->
  mint_effect s L op out L' -> sound L'.
Proof.
  intros Hsound Hz Hfit Hred. pose proof Hsound as [Hs Hf Hp Hh Hl].
  destruct op, out; cbn [mint_effect amount_of_op minted is_reduction] in *; try done.
  - intros (Hu & _ & _ & ->). split; cbn; [rewrite balances_new by done; lia|done|by apply map_Forall_insert_2|done|done].
  - intros (b & Hb & _ & _ & Hlim & ->). pose proof (spend_fields s L purse (Z.min amount (available L (addr purse) b))) as (_ & Ep & Eh & _).
    pose proof (available_bounds L (addr purse) b (Hp _ _ Hb) (Hh _)) as Ha.
    split; cbn; rewrite ?Ep, ?Eh; [rewrite (balances_set _ _ b) by done; lia|lia|apply map_Forall_insert_2; [lia|done]|done|by apply spend_limit].
  - intros (Hc & _). by specialize (Hred eq_refl).
  - by intros [-> _].
  - intros (b & m & Hb & _ & _ & _ & Hav & Hlim & (bt & Ebt & ->) & ->).
    pose proof (available_bounds L (addr source) b (Hp _ _ Hb) (Hh _)) as Ha.
    destruct (moved_fits _ _ _ amount _ _ Hp Hb ltac:(lia) Ebt) as (Hbt & Hbf & Hbal).
    split; cbn; [by rewrite Hbal|done|repeat (apply map_Forall_insert_2; [lia|]); done|done|by apply spend_limit].
  - by intros ->.
  - intros (_ & [[_ ->]|(b & Hb & ->)]); [done|]. pose proof (Hp _ _ Hb).
    split; cbn; [rewrite (balances_set _ _ b) by done; lia|done|apply map_Forall_insert_2; [cbn in *; lia|done]|done|done].
Qed.

Lemma effect_supply s L op out L' : sound L -> 0 <= amount_of_op op -> mint_effect s L op out L' -> supply L' <= supply L + minted op.
Proof.
  intros [Hs Hf Hp Hh Hl] Hz. destruct op, out; cbn [mint_effect amount_of_op minted] in *; try done.
  - intros (_ & _ & _ & ->). cbn. lia.
  - intros (b & Hb & _ & _ & _ & ->). pose proof (available_bounds L (addr purse) b (Hp _ _ Hb) (Hh _)). cbn. lia.
  - intros (_ & _ & ->). cbn. lia.
  - intros [-> _]. lia.
  - intros (b & m & _ & _ & _ & _ & _ & _ & _ & ->). cbn. lia.
  - intros ->. lia.
  - intros (_ & [[-> ->]|(b & _ & ->)]); cbn; lia.
Qed.
(** A caller that is not the system. *)
Lemma effect_user s L op out L' mp b :
  sound L -> 0 <= amount_of_op op -> get_caller s <> system_account blake2b -> get_main_purse s = Some mp ->
  purses L !! addr mp = Some b -> mint_effect s L op out L' ->
  supply L' <= supply L /\ limit L' <= limit L /\ exists b', purses L' !! addr mp = Some b' /\ b - b' <= limit L - limit L'.
Proof.
  intros [Hs Hf Hp Hh Hl] Hz Hc Hm Hb.
  assert (forall u, own_main_purse s u = bool_decide (addr mp = addr u)) as Hown.
  { intros u. unfold own_main_purse, is_system. by rewrite bool_decide_false, Hm. }
  assert (supply L <= supply L /\ limit L <= limit L /\ exists b', purses L !! addr mp = Some b' /\ b - b' <= limit L - limit L) as Hsame.
  { split; [lia|]. split; [lia|]. exists b. split; [done|lia]. }
  destruct op, out; cbn [mint_effect amount_of_op minted] in *; try done.
  - intros (Hu & _ & [->|?] & ->); [|done]. cbn. split; [lia|]. split; [lia|]. exists b. split; [|lia].
    rewrite lookup_insert_ne; [done|]. congruence.
  - intros (b0 & Hb0 & _ & _ & Hlim & ->). pose proof (available_bounds L (addr purse) b0 (Hp _ _ Hb0) (Hh _)).
    unfold spend. rewrite (Hown purse) in *. cbn. split; [lia|]. case_bool_decide as E.
    + cbn. split; [lia|]. rewrite E in Hb. rewrite Hb in Hb0. injection Hb0 as <-. rewrite E, lookup_insert_eq. eexists. split; [done|lia].
    + split; [lia|]. rewrite lookup_insert_ne by congruence. exists b. split; [done|lia].
  - by intros (? & _).
  - by intros [-> _].
  - intros (b0 & m & Hb0 & _ & _ & _ & Hav & Hlim & (bt & Ebt & ->) & ->). cbn. split; [lia|].
    unfold spend. rewrite (Hown source) in *. destruct (decide (addr target = addr mp)) as [Et|Et].
    + rewrite Et in *. rewrite lookup_insert_eq. case_bool_decide as E; cbn; (split; [lia|]); eexists; (split; [done|]).
      * rewrite <- E, lookup_insert_eq in Ebt. injection Ebt as <-. rewrite E in Hb. rewrite Hb in Hb0. injection Hb0 as <-. lia.
      * rewrite lookup_insert_ne in Ebt by congruence. rewrite Hb in Ebt. injection Ebt as <-. lia.
    + rewrite lookup_insert_ne by done. case_bool_decide as E; cbn; (split; [lia|]).
      * rewrite E, lookup_insert_eq. rewrite E in Hb. rewrite Hb in Hb0. injection Hb0 as <-. eexists. split; [done|lia].
      * rewrite lookup_insert_ne by congruence. exists b. split; [done|lia].
  - by intros ->.
  - by intros (? & _).
Qed.

(** C12: one call of the mint, whoever makes it: it does not panic; on an error the
    ledger is as it was; a success has the effect of its method, under the method's
    guards (only the system creates money, a burn takes at most what is available, a
    transfer moves an amount that is available and approved from a writeable purse to an
    existing addable one); and afterwards the total supply is again the sum of all balances. *)
Theorem mint_call_correct s L op :
  ledger s L -> sound L -> 0 <= amount_of_op op -> supply L + minted op <= u_max 512 -> (drawn op <= unused L)%nat ->
  yields (mint_step op) s (fun r s' => same_env s s' /\
    match r with
    | Ok out => exists L', ledger s' L' /\ mint_effect s L op out L' /\ (is_reduction op = false -> sound L')
    | Err _ => ledger s' L
    | Panic | Diverge => False
    end).
Proof.
  intros HL Hsound Hz Hfit Hun. eapply yields_impl; [by apply mint_step_ok|]. intros r s' [E Hr]. split; [done|].
  destruct r; try done. destruct Hr as (L' & HL' & HQ). exists L'. split; [done|]. split; [done|]. intros Hred.
  eapply (effect_sound s L op); [done..|by rewrite Hred|done].
Qed.

Lemma effect_unused s L op out L' : mint_effect s L op out L' -> (unused L <= unused L' + drawn op)%nat.
Proof.
  destruct op, out; cbn [mint_effect drawn]; try done.
  - intros (_ & _ & _ & ->). cbn. lia.
  - intros (b & _ & _ & _ & _ & ->). unfold spend. cbn. destruct (own_main_purse s purse); cbn; lia.
  - intros (_ & _ & ->). cbn. lia.
  - intros [-> _]. lia.
  - intros (b & m & _ & _ & _ & _ & _ & _ & _ & ->). cbn. lia.
  - intros ->. lia.
  - intros (_ & [[_ ->]|(b & _ & ->)]); cbn; lia.
Qed.
Lemma mint_run_ok ops : forall s L,
  ledger s L -> sound L -> Forall (fun op => 0 <= amount_of_op op /\ (is_reduction op = true -> get_caller s <> system_account blake2b)) ops ->
  supply L + zsum (minted <$> ops) <= u_max 512 -> (sum_list (drawn <$> ops) <= unused L)%nat ->
  exists L', ledger (mint_run ops s) L' /\ sound L' /\ same_env s (mint_run ops s) /\ supply L' <= supply L + zsum (minted <$> ops) /\
    (forall mp b, get_caller s <> system_account blake2b -> get_main_purse s = Some mp -> purses L !! addr mp = Some b ->
      supply L' <= supply L /\ limit L' <= limit L /\ exists b', purses L' !! addr mp = Some b' /\ b - b' <= limit L - limit L').
Proof.
  induction ops as [|op ops IH]; intros s L HL Hsound Hops Hfit Hun.
  { exists L. split; [done|]. split; [done|]. split; [done|]. cbn in *. split; [lia|]. intros mp b _ _ Hb. split; [lia|]. split; [lia|].
    exists b. split; [done|lia]. }
  apply Forall_cons_1 in Hops as [[Hz Hred] Hops].
  assert (0 <= minted op /\ 0 <= zsum (minted <$> ops)) as [Hm Hms].
  { split; [by destruct op|]. apply zsum_nonneg, Forall_fmap. eapply Forall_impl; [exact Hops|]. by intros [] []. }
  change (minted <$> op :: ops) with (minted op :: (minted <$> ops)) in *. cbn [zsum foldr] in *. fold (zsum (minted <$> ops)) in *.
  change (sum_list (drawn <$> op :: ops)) with (drawn op + sum_list (drawn <$> ops))%nat in Hun.
  pose proof (mint_step_ok s L op HL Hsound Hz ltac:(lia) ltac:(lia)) as Hstep. unfold yields in Hstep. cbn [mint_run].
  destruct (mint_step op s) as [r s1]. cbn [fst snd] in *. destruct Hstep as [E Hr].
  assert (exists L1, ledger s1 L1 /\ sound L1 /\ supply L1 <= supply L + minted op /\ (unused L <= unused L1 + drawn op)%nat /\
    (forall mp b, get_caller s <> system_account blake2b -> get_main_purse s = Some mp -> purses L !! addr mp = Some b ->
      supply L1 <= supply L /\ limit L1 <= limit L /\ exists b', purses L1 !! addr mp = Some b' /\ b - b' <= limit L - limit L1))
    as (L1 & HL1 & Hs1 & Hsup & Hun1 & Huser).
  { destruct r as [out| | |]; [|exists L|done..].
    - destruct Hr as (L1 & HL1 & HQ). exists L1. split; [done|].
      split; [eapply (effect_sound s L op out); (done || lia)|]. split; [by eapply effect_supply|]. split; [by eapply effect_unused|].
      intros mp b Hc Hmp Hb. by eapply effect_user.
    - split; [done|]. split; [done|]. split; [lia|]. split; [lia|]. intros mp b _ _ Hb. split; [lia|]. split; [lia|]. exists b. split; [done|lia]. }
  rewrite <- (same_caller s s1 E) in Hops.
  destruct (IH s1 L1 HL1 Hs1 Hops ltac:(lia) ltac:(lia)) as (L2 & HL2 & Hs2 & E2 & Hsup2 & Huser2).
  exists L2. split; [done|]. split; [done|]. split; [by etrans|]. split; [lia|]. intros mp b Hc Hmp Hb.
  destruct (Huser mp b Hc Hmp Hb) as (Hsu & Hli & b1 & Hb1 & Hd1).
  destruct (Huser2 mp b1) as (Hsu2 & Hli2 & b2 & Hb2 & Hd2); [by rewrite (same_caller s s1 E)|by rewrite (same_main_purse s s1 E)|done|].
  split; [lia|]. split; [lia|]. exists b2. split; [done|lia].
Qed.

(** C5: money is conserved: after any sequence of calls, failed ones included, other than
    calls of [reduce_total_supply] by the system, the total supply is the sum of all balances
    and grew at most by what was minted.  When the caller is not the system it did not grow
    at all, and the main purse lost no more than was taken off the approved spending limit. *)
Theorem mint_conserves_money ops s L :
  ledger s L -> sound L -> Forall (fun op => 0 <= amount_of_op op /\ (is_reduction op = true -> get_caller s <> system_account blake2b)) ops ->
  supply L + zsum (minted <$> ops) <= u_max 512 -> (sum_list (drawn <$> ops) <= unused L)%nat ->
  exists L', ledger (mint_run ops s) L' /\ sound L' /\ supply L' <= supply L + zsum (minted <$> ops) /\
    (forall mp b, get_caller s <> system_account blake2b -> get_main_purse s = Some mp -> purses L !! addr mp = Some b ->
      supply L' <= supply L /\ exists b', purses L' !! addr mp = Some b' /\ b - b' <= limit L - limit L' <= limit L).
Proof.
  intros HL Hsound Hops Hfit Hun. destruct (mint_run_ok ops s L HL Hsound Hops Hfit Hun) as (L' & HL' & Hs' & _ & Hsup & Huser).
  exists L'. split; [done|]. split; [done|]. split; [done|]. intros mp b Hc Hm Hb.
  destruct (Huser mp b Hc Hm Hb) as (Hsu & Hli & b' & Hb' & Hd). split; [done|]. exists b'. split; [done|].
  pose proof (sound_limit L' Hs'). lia.
Qed.
End correct.
