(* ===== verification/MintNative.v ===== *)
(** * The mint on a tracking copy

    Models [RuntimeNative] ([storage/src/system/runtime_native.rs]) with its
    [TransferConfig] and the providers it implements for the mint
    ([storage/src/system/mint/mint_native.rs]): purses are balances in a tracking
    copy, the total supply is a number under a [URef] of the mint.  The laws of
    the mint's providers hold for it. *)
From S2P Require Import Prelude Effects BTree Bytesrepr Struct Digest PublicKey Uint Units Access CLType Account Key KeyState.
From S2P Require Import KeyPrefix Trie TrieOps TrieKeys Transform GlobalState TrackingCopy Balances Mint.

Open Scope Z_scope.

(** ** [TransferConfig] *)

Inductive TransferConfig : Type :=
| Administered (administrative_accounts : gset AccountHash) (allow_unrestricted_transfers : bool)
| Unadministered.
Definition TransferConfig_new (administrative_accounts : gset AccountHash) (allow_unrestricted_transfers : bool) : TransferConfig :=
  if bool_decide (administrative_accounts = ∅) && allow_unrestricted_transfers then Unadministered
  else Administered administrative_accounts allow_unrestricted_transfers.
Definition config_is_administrator (c : TransferConfig) (account_hash : AccountHash) : bool :=
  match c with Administered accounts _ => bool_decide (account_hash ∈ accounts) | Unadministered => false end.
Definition administrative_accounts (c : TransferConfig) : gset AccountHash :=
  match c with Administered accounts _ => accounts | Unadministered => ∅ end.
Definition config_allow_unrestricted (c : TransferConfig) : bool :=
  match c with Administered _ allow => allow | Unadministered => true end.
Definition enforce_transfer_restrictions (c : TransferConfig) (account_hash : AccountHash) : bool :=
  negb (config_allow_unrestricted c) && negb (config_is_administrator c account_hash).

(** ** [RuntimeNative] *)

Inductive Id : Type := Id_Transaction (hash : Digest) | Id_Seed (bytes : list u8).

(** [TransferV2] *)
Record Transfer : Type := mkTransfer {
  transfer_transaction_hash : Digest;
  transfer_from : AccountHash;
  transfer_to : option AccountHash;
  transfer_source : URef;
  transfer_target : URef;
  transfer_amount : Z;
  transfer_gas : Z;
  transfer_id : option Z
}.

(** [ChaChaRng], which the address generator draws from. *)
Class Rng : Type := { rng : Type; fill_bytes : rng -> vec u8 32 * rng }.

Section native.
Context {G : Rng}.
Context (payload : StoredValueTag -> Type).
Context {DB : Bytesrepr (payload T_BidKind)} {DP : Bytesrepr (payload T_ContractPackage)}.
Context (rust_type_name : num -> string).
Context (measure : Key -> StoredValue (K:=Key) payload -> Z).
Context `{RatioOps}.
Abbreviation V := (StoredValue (K:=Key) payload).
Abbreviation TrackingCopy := (TrackingCopy payload).
(** The named keys of an addressable entity and the main purse of an account's runtime
    footprint *)
Context (entity_named_keys : TrackingCopy -> Key -> EntityAddr -> result TrackingCopyError (list (RString * Key))).
Context (footprint_main_purse : AccountHash -> st TrackingCopy TrackingCopyError (option URef)).

(** [AddressGenerator] *)
Definition generator_new_uref (g : rng) (rights : AccessRights) : URef * rng :=
  let '(address, g) := fill_bytes g in (mkURef address rights, g).

Record RuntimeNative : Type := mkRuntime {
  transfer_config : TransferConfig;
  native_transfer_cost : Z;
  runtime_id : Id;
  address_generator : rng;
  tracking_copy : TrackingCopy;
  address : AccountHash;
  runtime_named_keys : list (RString * Key);
  runtime_main_purse : option URef;
  runtime_access_rights : ContextAccessRights;
  remaining_spending_limit : Z;
  transfers : list Transfer;
  phase : Phase
}.
Definition set_tracking_copy (s : RuntimeNative) (tc : TrackingCopy) : RuntimeNative :=
  mkRuntime (transfer_config s) (native_transfer_cost s) (runtime_id s) (address_generator s) tc (address s)
    (runtime_named_keys s) (runtime_main_purse s) (runtime_access_rights s) (remaining_spending_limit s) (transfers s) (phase s).
Definition set_remaining_spending_limit (z : Z) (s : RuntimeNative) : RuntimeNative :=
  mkRuntime (transfer_config s) (native_transfer_cost s) (runtime_id s) (address_generator s) (tracking_copy s) (address s)
    (runtime_named_keys s) (runtime_main_purse s) (runtime_access_rights s) z (transfers s) (phase s).
Definition push_transfer (t : Transfer) (s : RuntimeNative) : RuntimeNative :=
  mkRuntime (transfer_config s) (native_transfer_cost s) (runtime_id s) (address_generator s) (tracking_copy s) (address s)
    (runtime_named_keys s) (runtime_main_purse s) (runtime_access_rights s) (remaining_spending_limit s) (transfers s ++ [t]) (phase s).
(** [new_uref] of the generator and [extend_access_rights] *)
Definition take_uref (s : RuntimeNative) : URef * RuntimeNative :=
  let '(uref, g) := generator_new_uref (address_generator s) READ_ADD_WRITE in
  (uref, mkRuntime (transfer_config s) (native_transfer_cost s) (runtime_id s) g (tracking_copy s) (address s)
    (runtime_named_keys s) (runtime_main_purse s) (extend (runtime_access_rights s) [uref]) (remaining_spending_limit s) (transfers s) (phase s)).

(** A call on the tracking copy. *)
Definition on_copy {E A} (f : E -> MintError) (m : st TrackingCopy E A) : st RuntimeNative MintError A := fun s =>
  let '(r, tc) := m (tracking_copy s) in (map_err f r, set_tracking_copy s tc).
Definition storage_error {E} (_ : E) : MintError := ME_Storage.
Definition copy_write (key : Key) (value : V) : st TrackingCopy TrackingCopyError () := modify (fun tc => tc_write payload tc key value).
Definition copy_add (key : Key) (value : V) : st TrackingCopy TrackingCopyError AddResult := fun tc =>
  match tc_add payload rust_type_name measure tc key value with
  | Ok (r, tc) => (Ok r, tc)
  | Err e => (Err (TCE_Storage e), tc)
  | Panic => (Panic, tc)
  | Diverge => (Diverge, tc)
  end.

Definition u512_value (z : Z) : st RuntimeNative MintError V :=
  v ← lift (map_err (fun _ => ME_CLValue) (num_from_t U512 z));
  mret (SV_CLValue payload v).

(** [Ratio<U512>]: a pair with a denominator that is not zero, in lowest terms *)
Definition Ratio_new (n d : Z) : Z * Z := (n `div` Z.gcd n d, d `div` Z.gcd n d).
Definition ratio_from_bytes (bytes : list u8) : result Error ((Z * Z) * list u8) :=
  '(numer, bytes) ← from_bytes (Bytesrepr := num_repr U512) bytes;
  '(denom, bytes) ← from_bytes (Bytesrepr := num_repr U512) bytes;
  if denom =? 0 then Err Formatting else Ok (Ratio_new numer denom, bytes).
Definition into_ratio (v : CLValue) : result CLValueError (Z * Z) :=
  if decide (value_type v = CL_Tuple2 CL_U512 CL_U512) then
    '(r, rest) ← map_err Serialization (ratio_from_bytes (inner_bytes (value_bytes v)));
    match rest with [] => Ok r | _ => Err (Serialization LeftOverBytes) end
  else Err (TypeMismatch (CL_Tuple2 CL_U512 CL_U512) (value_type v)).

(** [StorageProvider] *)
Definition native_new_uref : st RuntimeNative MintError URef :=
  cl_value ← lift (map_err (fun _ => ME_CLValue) (from_t (T := ()) (H0 := CL_Unit) tt));
  uref ← (fun s => let '(uref, s) := take_uref s in (Ok uref, s));
  _ ← on_copy storage_error (copy_write (Key_URef uref) (SV_CLValue payload cl_value));
  mret uref.
Definition native_read {T} (into : CLValue -> result CLValueError T) (uref : URef) : st RuntimeNative MintError (option T) :=
  ok ← asks (fun s => has_access_rights_to_uref (runtime_access_rights s) uref);
  _ ← fail_if (negb ok) ForgedReference;
  stored_value ← on_copy storage_error (copy_read payload measure (Key_URef uref));
  match stored_value with
  | None => mret None
  | Some (SV_CLValue _ value) => t ← lift (map_err (fun _ => ME_CLValue) (into value)); mret (Some t)
  | Some _ => throw ME_CLValue
  end.
Definition native_write_amount (uref : URef) (amount : Z) : st RuntimeNative MintError () :=
  value ← u512_value amount;
  _ ← fail_if (negb (is_writeable (access_rights uref))) ME_Storage;
  ok ← asks (fun s => has_access_rights_to_uref (runtime_access_rights s) uref);
  _ ← fail_if (negb ok) ForgedReference;
  on_copy storage_error (copy_write (Key_URef uref) value).
(** The result of the addition is not looked at. *)
Definition native_add (key : Key) (amount : Z) : st RuntimeNative MintError () :=
  value ← u512_value amount;
  _ ← on_copy storage_error (copy_add key value);
  mret ().
Definition native_total_balance (purse : URef) : st RuntimeNative MintError Z :=
  on_copy storage_error (shared payload (fun tc => get_total_balance payload tc (Key_URef purse))).
Definition native_available_balance (purse : URef) : st RuntimeNative MintError (option Z) :=
  motes ← on_copy storage_error (get_available_balance payload measure entity_named_keys (Key_Balance (addr purse)));
  mret (Some motes).
Definition native_write_balance (uref : URef) (amount : Z) : st RuntimeNative MintError () :=
  value ← u512_value amount;
  on_copy storage_error (copy_write (Key_Balance (addr uref)) value).

(** [RuntimeProvider], [SystemProvider] and [Mint] *)
Definition native_sub_limit (amount : Z) (s : RuntimeNative) : RuntimeNative :=
  match checked_sub 512 (remaining_spending_limit s) amount with
  | Some remaining => set_remaining_spending_limit remaining s
  | None => set_remaining_spending_limit 0 s
  end.
Definition native_record_transfer (maybe_to : option AccountHash) (source target : URef) (amount : Z) (id : option Z) :
    st RuntimeNative MintError () := fun s =>
  if decide (phase s = P_Session) then
    match runtime_id s with
    | Id_Transaction txn_hash =>
        (Ok (), push_transfer (mkTransfer txn_hash (address s) maybe_to source target amount (native_transfer_cost s) id) s)
    | Id_Seed _ => (Ok (), s)
    end
  else (Ok (), s).
Definition native_purse_exists (uref : URef) : st RuntimeNative MintError bool :=
  value ← on_copy storage_error (copy_read payload measure (Key_Balance (addr uref)));
  match value with
  | Some (SV_CLValue _ value) => mret (bool_decide (value_type value = CL_U512))
  | Some _ => throw ME_CLValue
  | None => mret false
  end.
Definition native_footprint (account_hash : AccountHash) : st RuntimeNative ProviderError (option (option URef)) := fun s =>
  let '(r, tc) := footprint_main_purse account_hash (tracking_copy s) in
  (map_err (fun _ => PE_AccountHash account_hash) (Some <$> r), set_tracking_copy s tc).

Context (blake2b : list u8 -> AccountHash).
#[global] Instance native_mint : MintProvider RuntimeNative := {|
  get_caller := address;
  get_immediate_caller _ := Some (Initiator (system_account blake2b));
  is_called_from_standard_payment s := bool_decide (phase s = P_Payment);
  get_system_registry s := map_err (fun _ => PE_SystemEntityRegistry) (get_system_entity_registry payload (tracking_copy s));
  main_purse_by_account_hash := native_footprint;
  get_key s name := btree_get name (runtime_named_keys s);
  get_approved_spending_limit := remaining_spending_limit;
  sub_approved_spending_limit := native_sub_limit;
  get_main_purse := runtime_main_purse;
  is_administrator s := config_is_administrator (transfer_config s);
  allow_unrestricted_transfers s := config_allow_unrestricted (transfer_config s);
  is_valid_uref s := has_access_rights_to_uref (runtime_access_rights s);
  new_uref := native_new_uref;
  read_u512 := native_read (into_num U512);
  read_ratio := native_read into_ratio;
  write_amount := native_write_amount;
  add uref := native_add (Key_URef uref);
  total_balance := native_total_balance;
  available_balance_of := native_available_balance;
  write_balance := native_write_balance;
  add_balance uref := native_add (Key_Balance (addr uref));
  record_transfer := native_record_transfer;
  purse_exists := native_purse_exists
|}.
End native.

(** ** Reads and writes of a copy *)

Section copies.
Context (payload : StoredValueTag -> Type).
Context {DB : Bytesrepr (payload T_BidKind)} {DP : Bytesrepr (payload T_ContractPackage)}.
Context (rust_type_name : num -> string).
Abbreviation V := (StoredValue (K:=Key) payload).
Context (measure : Key -> V -> Z) `{RatioOps}.
Context (entity_named_keys : TrackingCopy payload -> Key -> EntityAddr -> result TrackingCopyError (list (RString * Key))).
Context (readable : Key -> Prop) (listable : list u8 -> Prop).
Abbreviation TrackingCopy := (TrackingCopy payload).
Abbreviation muts tc := (muts_cached payload (tc_cache payload tc)).
Abbreviation prunes tc := (prunes_cached payload (tc_cache payload tc)).
Abbreviation tracks := (tracks payload rust_type_name readable listable).

(** The same pending writes and prunes. *)
Definition same_pending (tc tc' : TrackingCopy) : Prop := muts tc' = muts tc /\ prunes tc' = prunes tc.

Lemma get_pending tc k v tc' : get payload measure tc k = Ok (v, tc') -> same_pending tc tc'.
Proof.
  unfold get, cache_get. case_decide; [by intros [= <- <-]|]. destruct (btree_get _ _) as [[k' v0]|]; [by intros [= <- <-]|].
  destruct (get_refresh payload k _) as [[v0|] reads]; [by intros [= <- <-]|]. cbn.
  intros (o & _ & E)%bind_Ok. destruct o as [v0|]; injection E as <- <-; [|done]. unfold insert_read. cbn.
  by destruct (evict _ _ _ _ _).
Qed.
Lemma read_pending k tc r tc' : copy_read payload measure k tc = (r, tc') -> same_pending tc tc'.
Proof.
  unfold copy_read, tc_read. destruct (get payload measure tc (normalize k)) as [[[v|] tc1]| | |] eqn:E; cbn; intros [= <- <-]; try done;
    by apply get_pending in E.
Qed.
Lemma collect_pending epoch l : forall ret tc r tc', collect_holds payload measure epoch l ret tc = (r, tc') -> same_pending tc tc'.
Proof.
  induction l as [|a l IH]; intros ret tc r tc'; cbn [collect_holds]; [by intros [= <- <-]|]. destruct (match epoch with Some _ => _ | None => _ end); [apply IH|].
  unfold mbind, st_bind. destruct (copy_read payload measure (Key_BalanceHold a) tc) as [[v| | |] tc1] eqn:E1; apply read_pending in E1 as [Em Ep];
    try (by intros [= <- <-]). unfold lift.
  destruct (match v with Some _ => _ | None => _ end) as [z| | |]; try (by intros [= <- <-]).
  destruct (add_hold ret a z) as [ret1| | |]; try (by intros [= <- <-]). intros [Em' Ep']%IH. split; congruence.
Qed.
Lemma available_pending k tc r tc' : get_available_balance payload measure entity_named_keys k tc = (r, tc') -> same_pending tc tc'.
Proof.
  unfold get_available_balance. destruct (match k with Key_URef _ => _ | _ => _ end) as [p|]; [|by intros [= <- <-]].
  unfold mbind, st_bind, shared. destruct (get_total_balance _ _ _); try (by intros [= <- <-]).
  destruct (get_balance_hold_config _ _ _ _) as [[[[t h] i]|]| | |]; try (by intros [= <- <-]).
  unfold get_balance_holds, mbind, st_bind, shared. destruct (get_balance_hold_addresses _ _ _) as [l| | |]; try (by intros [= <- <-]).
  destruct (collect_holds payload measure _ l [] tc) as [[hs| | |] tc1] eqn:E; apply collect_pending in E; try (by intros [= <- <-]).
Qed.

(** What the mint needs of a copy: it stands for a state, has pruned nothing but holds,
    and has not rewritten a hold of the state behind it. *)
Record copy_ok (M0 : gmap Key V) (tc : TrackingCopy) (M : gmap Key V) : Prop := {
  copy_tracks : tracks M0 tc M;
  copy_prunes k : k ∈ prunes tc -> exists a, k = Key_BalanceHold a;
  copy_fresh a : Key_BalanceHold a ∈ dom M0 -> btree_get (key_repr (Key_BalanceHold a)) (muts tc) = None
}.
Lemma copy_ok_pending M0 tc tc' M : copy_ok M0 tc M -> same_pending tc tc' -> tracks M0 tc' M -> copy_ok M0 tc' M.
Proof. intros [HT Hp Hf] [Em Ep] HT'. split; [done|by rewrite Ep|by rewrite Em]. Qed.

Lemma copy_read_ok M0 tc M k :
  copy_ok M0 tc M -> key_ok (normalize k) -> readable (normalize k) ->
  exists tc', copy_read payload measure k tc = (Ok (M !! normalize k), tc') /\ copy_ok M0 tc' M.
Proof.
  intros Hc Hk Hr.
  destruct (get_ok _ rust_type_name measure readable listable M0 tc M (normalize k) (copy_tracks _ _ _ Hc) Hk Hr) as (tc1 & Eg & HT1).
  pose proof (get_pending _ _ _ _ Eg) as Hp. pose proof (copy_ok_pending _ _ _ _ Hc Hp HT1) as Hc1.
  unfold copy_read, tc_read. rewrite Eg. cbn [mbind result_bind]. destruct (M !! normalize k) as [v|]; [|by exists tc1].
  eexists. split; [done|]. eapply copy_ok_pending; [exact Hc1|done|]. by apply push_read_ok.
Qed.

Definition is_hold (k : Key) : bool := match k with Key_BalanceHold _ => true | _ => false end.
Lemma copy_ok_write M0 tc tc' M k v :
  copy_ok M0 tc M -> key_ok k -> is_hold k = false -> tracks M0 tc' (<[k := v]> M) ->
  muts tc' = btree_insert (key_repr k) (k, v) (muts tc) -> prunes tc' = prunes tc ∖ {[ k ]} -> copy_ok M0 tc' (<[k := v]> M).
Proof.
  intros [HT Hp Hf] Hk Hh HT' Em Ep. split; [done| |].
  - rewrite Ep. intros k' [Hk' _]%elem_of_difference. by apply Hp.
  - intros a Ha. rewrite Em, btree_get_insert_ne; [by apply Hf|apply (muts_sorted payload M0), (tracks_cache _ _ _ _ _ _ _ HT)|].
    intros E%key_repr_inj; [by subst k|by apply (tracks_base _ _ _ _ _ _ _ HT)|done].
Qed.
Lemma normalize_hold k : is_hold (normalize k) = is_hold k.
Proof. by destruct k. Qed.
Lemma copy_write_ok M0 tc M k v :
  copy_ok M0 tc M -> key_ok k -> is_hold k = false -> copy_ok M0 (tc_write payload tc k v) (<[normalize k := v]> M).
Proof.
  intros Hc Hk Hh. apply (copy_ok_write M0 tc); [done|by apply normalize_ok|by rewrite normalize_hold| |done|done].
  apply (write_tracks payload rust_type_name measure); [exact (copy_tracks _ _ _ Hc)|by apply normalize_ok|done].
Qed.

Lemma u512_from z : in_u 512 z -> exists v, num_from_t U512 z = Ok v /\ value_type v = CL_U512 /\ into_num U512 v = Ok z.
Proof.
  intros Hz. destruct (num_from_t_Ok U512 z) as (v & E & Ht). exists v. split; [done|]. split; [done|]. by apply num_into_from.
Qed.
Lemma into_num_type v z : into_num U512 v = Ok z -> value_type v = CL_U512.
Proof. unfold into_num, into_t. by case_decide. Qed.

Lemma wrap_u512 z : in_u 512 z -> wrap U512 z = z.
Proof. intros [H1 H2]. apply Z.mod_small. done. Qed.

Lemma add_transform_u512 v z :
  value_type v = CL_U512 -> into_num U512 v = Ok z -> add_transform payload (SV_CLValue payload v) = Ok (inr (AddUInt512 payload z)).
Proof. intros Ht Hv. cbn. rewrite Ht. unfold add_number. unfold into_num in Hv. cbn in Hv |- *. by rewrite Hv. Qed.
Lemma apply_u512 c b z v :
  into_num U512 c = Ok b -> in_u 512 z -> in_u 512 (b + z) -> num_from_t U512 (b + z) = Ok v ->
  apply payload rust_type_name (AddUInt512 payload z) (SV_CLValue payload c) = Ok (Store (K:=Key) payload (SV_CLValue payload v)).
Proof.
  intros Hc Hz Hbz Hv. pose proof (num_into_range U512 c b Hc) as Hb. cbn [apply].
  destruct (wrapping_addition_Ok (K:=Key) payload rust_type_name U512 U512 (SV_CLValue payload c) c b z) as (v' & Hv' & _ & E);
    [done|by apply (into_num_type c b)|done|].
  rewrite E. do 3 f_equal. rewrite wrap_add_as, wrap_u512 in Hv' by done. congruence.
Qed.
Lemma copy_add_ok M0 tc M k c b z v :
  copy_ok M0 tc M -> key_ok k -> readable (normalize k) -> is_hold k = false ->
  M !! normalize k = Some (SV_CLValue payload c) -> into_num U512 c = Ok b -> in_u 512 z -> in_u 512 (b + z) ->
  num_from_t U512 z = Ok v ->
  exists v' tc', copy_add payload rust_type_name measure k (SV_CLValue payload v) tc = (Ok AR_Success, tc') /\
    num_from_t U512 (b + z) = Ok v' /\ copy_ok M0 tc' (<[normalize k := SV_CLValue payload v']> M).
Proof.
  intros Hc Hk Hr Hh HM Hb Hz Hbz Hv. destruct (u512_from (b + z) Hbz) as (v' & Ev' & _ & _).
  destruct (get_ok _ rust_type_name measure readable listable M0 tc M (normalize k) (copy_tracks _ _ _ Hc) (normalize_ok k Hk) Hr) as (tc1 & Eg & HT1).
  pose proof (get_pending _ _ _ _ Eg) as Hp. pose proof (copy_ok_pending _ _ _ _ Hc Hp HT1) as Hc1.
  assert (value_type v = CL_U512 /\ into_num U512 v = Ok z) as [Hvt Hvi].
  { destruct (u512_from z Hz) as (v0 & E & ? & ?). rewrite Hv in E. by injection E as ->. }
  pose proof (add_transform_u512 v z Hvt Hvi) as Ht. pose proof (apply_u512 c b z v' Hb Hz Hbz Ev') as Ha.
  eexists v', _. split; [|split; [done|]].
  - unfold copy_add, tc_add. rewrite Eg. cbn [mbind result_bind]. rewrite HM, Ht. cbn [mbind result_bind]. rewrite Ha. reflexivity.
  - eapply (copy_ok_write M0 tc1); [done|by apply normalize_ok|by rewrite normalize_hold| |done|done].
    apply (write_tracks payload rust_type_name measure); [done|by apply normalize_ok|]. by apply (effect_on_add _ _ _ _ _ (SV_CLValue payload c)).
Qed.
End copies.

(** ** The ledger of a copy *)

(** The addresses a generator is going to return. *)
Fixpoint nth_address `{Rng} (g : rng) (n : nat) : vec u8 32 :=
  match n with
  | O => (fill_bytes g).1
  | Datatypes.S n => nth_address (fill_bytes g).2 n
  end.

Section ledgers.
Context {G : Rng}.
Context (payload : StoredValueTag -> Type).
Context {DB : Bytesrepr (payload T_BidKind)} {DP : Bytesrepr (payload T_ContractPackage)}.
Context (rust_type_name : num -> string).
Abbreviation V := (StoredValue (K:=Key) payload).
Context (measure : Key -> V -> Z) `{RatioLaws}.
Context (entity_named_keys : TrackingCopy payload -> Key -> EntityAddr -> result TrackingCopyError (list (RString * Key))).
Context (footprint_main_purse : AccountHash -> st (TrackingCopy payload) TrackingCopyError (option URef)).
Context (blake2b : list u8 -> AccountHash).
Context (readable : Key -> Prop) (listable : list u8 -> Prop).
Abbreviation TrackingCopy := (TrackingCopy payload).
Abbreviation RuntimeNative := (RuntimeNative payload).
Abbreviation copy_ok := (copy_ok payload rust_type_name readable listable).
Abbreviation tc_of := (tracking_copy payload).
#[local] Instance the_mint : MintProvider RuntimeNative :=
  native_mint payload rust_type_name measure entity_named_keys footprint_main_purse blake2b.
Implicit Types (M : gmap Key V) (s : RuntimeNative) (L : Ledger).

(** The keys the mint reads and the prefixes it lists, all of which can be asked for. *)
Definition mint_key (k : Key) : Prop :=
  match k with
  | Key_Balance _ | Key_BalanceHold _ | Key_BlockGlobal BG_BlockTime | Key_SystemEntityRegistry | Key_Hash _ => True
  | Key_URef u => access_rights u = NONE
  | _ => False
  end.
Context (Hread : forall k, key_ok k -> mint_key k -> readable k).
Context (Hlist : forall purse kp p, kp = KP_GasBalanceHoldsByPurse purse \/ kp = KP_ProcessingBalanceHoldsByPurse purse ->
  key_prefix_to_bytes kp = Ok p -> listable p).

(** The time, and how gas holds are handled: the values of the state that the hold
    configuration is read from. *)
Context (now interval : Z) (handling : HoldBalanceHandling) (hu iu su : URef).
Abbreviation settings M := (hold_settings payload M now handling interval hu iu).

Lemma copy_shared_read M0 tc M k :
  copy_ok M0 tc M -> key_ok k -> mint_key k -> is_hold k = false -> shared_read payload tc k = Ok (M !! k).
Proof.
  intros Hc Hk Hm Hh. unfold shared_read.
  pose proof (fork_reads payload rust_type_name readable listable M0 tc M k (copy_tracks _ _ _ _ _ _ _ Hc) Hk (Hread k Hk Hm)) as Hf.
  cbn in Hf. rewrite Hf; [done|]. intros [a ->]%(copy_prunes _ _ _ _ _ _ _ Hc). done.
Qed.
Lemma settings_config M0 tc M :
  copy_ok M0 tc M -> settings M ->
  get_balance_hold_config payload entity_named_keys tc HT_Gas = Ok (Some (now, handling, interval)).
Proof.
  intros Hc. eapply (hold_config_ok payload rust_type_name entity_named_keys readable listable); [exact (copy_tracks _ _ _ _ _ _ _ Hc)|].
  intros k Hk Hs. split; [apply Hread; [done|by destruct k]|]. intros [a ->]%(copy_prunes _ _ _ _ _ _ _ Hc). done.
Qed.

(** What the mint writes: balances, and [URef]s other than those of the settings. *)
Definition mint_write (k : Key) : Prop :=
  (exists p, k = Key_Balance p) \/ (exists u, k = Key_URef u /\ addr u <> addr hu /\ addr u <> addr iu).
Lemma settings_write M k v : settings M -> mint_write k -> settings (<[k := v]> M).
Proof.
  intros [Ht Hmint Hh Hi] Hk. assert (forall k', k' <> k -> <[k := v]> M !! k' = M !! k') as Hne by (intros; by apply lookup_insert_ne).
  split.
  - rewrite Hne; [done|]. destruct Hk as [[p ->]|(u & -> & _)]; discriminate.
  - destruct Hmint as (r & reg & hash & c & Hm). exists r, reg, hash, c. rewrite !Hne; [done|..]; destruct Hk as [[p ->]|(u & -> & _)]; discriminate.
  - rewrite Hne; [done|]. destruct Hk as [[p ->]|(u & -> & Hu & _)]; [discriminate|]. cbn. by intros [= <-].
  - rewrite Hne; [done|]. destruct Hk as [[p ->]|(u & -> & _ & Hu)]; [discriminate|]. cbn. by intros [= <-].
Qed.

(** What is held in a purse. *)
Definition gas_holds M (p : URefAddr) : list (Z * Z) := of_kind HT_Gas (purse_holds payload M p (Z.max (now - interval) 0)).
Definition processing_holds M (p : URefAddr) : list (Z * Z) := of_kind HT_Processing (purse_holds payload M p (Z.max (now - interval) 0)).
Definition held_in M (p : URefAddr) : Z := zsum (held_by handling now interval <$> gas_holds M p) + zsum (processing_holds M p).*2.
Definition holds_ok M (p : URefAddr) : Prop :=
  (forall a, a ∈ addrs_of payload M p -> Z.max (now - interval) 0 <= hold_time a -> is_Some (hold_of payload M a)) /\
  Forall (times_fit interval) (gas_holds M p) /\ Forall (times_fit interval) (processing_holds M p) /\
  zsum (gas_holds M p).*2 + zsum (processing_holds M p).*2 <= u_max 512.

Lemma purse_holds_write M k v p e : is_hold k = false -> purse_holds payload (<[k := v]> M) p e ≡ₚ purse_holds payload M p e.
Proof.
  intros Hk. assert (forall a, <[k := v]> M !! Key_BalanceHold a = M !! Key_BalanceHold a) as Hl
    by (intros a; apply lookup_insert_ne; by intros ->).
  assert (addrs_of payload (<[k := v]> M) p ≡ₚ addrs_of payload M p) as Ha.
  { apply NoDup_Permutation; [apply addrs_nodup..|]. intros a. rewrite !elem_of_addrs, !elem_of_dom, Hl. done. }
  unfold purse_holds. rewrite Ha. unfold since. clear Ha. induction (addrs_of payload M p) as [|a l IH]; [done|].
  cbn [omap list_omap]. unfold hold_of at 1 3. rewrite Hl. by destruct (if decide _ then _ else _); rewrite IH.
Qed.
Lemma holds_write M k v p : is_hold k = false ->
  holds_ok M p -> holds_ok (<[k := v]> M) p /\ held_in (<[k := v]> M) p = held_in M p.
Proof.
  intros Hk (Hd & Hg & Hp & Hs). assert (forall kind e, of_kind kind (purse_holds payload (<[k := v]> M) p e) ≡ₚ of_kind kind (purse_holds payload M p e)) as Hh
    by (intros kind e; by rewrite (purse_holds_write M k v p e Hk)).
  assert (gas_holds (<[k := v]> M) p ≡ₚ gas_holds M p) as Eg by apply Hh.
  assert (processing_holds (<[k := v]> M) p ≡ₚ processing_holds M p) as Ep by apply Hh.
  split; [|unfold held_in; by rewrite Eg, Ep]. split; [|split; [by rewrite Eg|split; [by rewrite Ep|by rewrite Eg, Ep]]].
  intros a Ha He. unfold hold_of. rewrite lookup_insert_ne by (by intros ->). apply Hd; [|done].
  apply elem_of_addrs in Ha as [Hpu Ha]. apply elem_of_addrs. split; [done|]. rewrite dom_insert in Ha. apply elem_of_union in Ha as [Ha|Ha]; [|done].
  apply elem_of_singleton in Ha. by subst k.
Qed.

(** A number of a state. *)
Definition holds_u512 M (k : Key) (z : Z) : Prop := exists c, M !! k = Some (SV_CLValue payload c) /\ into_num U512 c = Ok z.

(** A runtime over the state [M] and the ledger it stands for. *)
Record native_rep M s L : Prop := {
  rep_purses p : match purses L !! p with Some b => holds_u512 M (Key_Balance p) b | None => M !! Key_Balance p = None end;
  rep_supply : holds_u512 M (normalize (Key_URef su)) (supply L);
  rep_key : btree_get TOTAL_SUPPLY_KEY (runtime_named_keys payload s) = Some (Key_URef su);
  rep_uref : key_ok (Key_URef su) /\ is_writeable (access_rights su) /\ has_access_rights_to_uref (runtime_access_rights payload s) su;
  rep_settings : settings M;
  rep_distinct : addr su <> addr hu /\ addr su <> addr iu;
  rep_times : 0 < interval <= u_max 64 /\ 0 <= now;
  rep_holds p : holds_ok M p /\ held_in M p = held L p;
  rep_fresh n : (n < unused L)%nat -> let a := nth_address (address_generator payload s) n in
    purses L !! a = None /\ held L a = 0 /\ a <> addr su /\ a <> addr hu /\ a <> addr iu /\
    forall m, (m < unused L)%nat -> m <> n -> nth_address (address_generator payload s) m <> a;
  rep_limit : remaining_spending_limit payload s = limit L /\ in_u 512 (limit L)
}.
Definition native_ledger M0 s L : Prop := exists M, copy_ok M0 (tc_of s) M /\ native_rep M s L.

Lemma holds_u512_write M k v k' z : k' <> k -> holds_u512 M k' z -> holds_u512 (<[k := v]> M) k' z.
Proof. intros Hne (c & Hc & Hz). exists c. by rewrite lookup_insert_ne. Qed.

(** Writing a balance. *)
Lemma rep_write_balance M s L p z c :
  native_rep M s L -> into_num U512 c = Ok z -> (forall n, (n < unused L)%nat -> nth_address (address_generator payload s) n <> p) ->
  native_rep (<[Key_Balance p := SV_CLValue payload c]> M) s (with_purse L p z).
Proof.
  intros [Hp Hs Hk Hu Hset Hd Ht Hh Hf Hl] Hc Hn. split; try done; cbn [purses supply held limit unused with_purse].
  - intros p'. destruct (decide (p' = p)) as [->|Hne].
    + rewrite lookup_insert_eq. exists c. by rewrite lookup_insert_eq.
    + rewrite lookup_insert_ne by done. specialize (Hp p'). destruct (purses L !! p'); [apply holds_u512_write; [congruence|done]|].
      by rewrite lookup_insert_ne by congruence.
  - by apply holds_u512_write.
  - apply settings_write; [done|]. left. by exists p.
  - intros p'. destruct (Hh p') as [Ho He]. rewrite <- He. by apply holds_write.
  - intros n Hlt. destruct (Hf n Hlt) as (H1 & H2). split; [rewrite lookup_insert_ne; [done|]; intros E; by apply (Hn n)|done].
Qed.
(** Writing the supply. *)
Lemma rep_write_supply M s L z c :
  native_rep M s L -> into_num U512 c = Ok z -> native_rep (<[normalize (Key_URef su) := SV_CLValue payload c]> M) s (with_supply L z).
Proof.
  intros [Hp Hs Hk Hu Hset Hd Ht Hh Hf Hl] Hc. split; try done; cbn [purses supply held limit unused with_supply].
  - intros p'. specialize (Hp p'). destruct (purses L !! p'); [by apply holds_u512_write|]. by rewrite lookup_insert_ne.
  - exists c. by rewrite lookup_insert_eq.
  - apply settings_write; [done|]. right. by eexists.
  - intros p'. destruct (Hh p') as [Ho He]. rewrite <- He. by apply holds_write.
Qed.
(** Writing some other [URef]. *)
Lemma rep_write_uref M s L u v :
  native_rep M s L -> addr u <> addr su -> addr u <> addr hu -> addr u <> addr iu -> native_rep (<[normalize (Key_URef u) := v]> M) s L.
Proof.
  intros [Hp Hs Hk Hu Hset Hd Ht Hh Hf Hl] N1 N2 N3. split; try done.
  - intros p'. specialize (Hp p'). destruct (purses L !! p'); [by apply holds_u512_write|]. by rewrite lookup_insert_ne.
  - apply holds_u512_write; [|done]. intros [= E]. done.
  - apply settings_write; [done|]. right. by eexists.
  - intros p'. destruct (Hh p') as [Ho He]. rewrite <- He. by apply holds_write.
Qed.
Lemma rep_set_copy M s L tc : native_rep M s L -> native_rep M (set_tracking_copy payload s tc) L.
Proof. by intros []; split. Qed.

(** ** The laws *)

Lemma set_copy_env s tc : same_env s (set_tracking_copy payload s tc).
Proof. by split. Qed.
Lemma yields_on_copy {E A} (f : E -> MintError) (m : st TrackingCopy E A) s (Q : result MintError A -> RuntimeNative -> Prop) r tc :
  m (tc_of s) = (r, tc) -> Q (map_err f r) (set_tracking_copy payload s tc) -> yields (on_copy payload f m) s Q.
Proof. intros Hm HQ. unfold yields, on_copy. by rewrite Hm. Qed.
Lemma yields_u512 {A} z (k : V -> st RuntimeNative MintError A) s Q :
  in_u 512 z -> (forall v, num_from_t U512 z = Ok v -> into_num U512 v = Ok z -> yields (k (SV_CLValue payload v)) s Q) ->
  yields (v ← u512_value payload z; k v) s Q.
Proof.
  intros Hz Hk. destruct (u512_from z Hz) as (v & Ev & _ & Ei). eapply yields_call.
  - unfold u512_value. rewrite Ev. apply yields_bind, yields_lift. cbn [map_err].
    apply (yields_ret _ _ (fun r s' => r = Ok (SV_CLValue payload v) /\ s' = s)). done.
  - intros r s' [-> ->]. by apply Hk.
Qed.

Lemma ready_of M0 s M L p : copy_ok M0 (tc_of s) M -> native_rep M s L -> purse_ready payload readable listable M0 (tc_of s) p.
Proof.
  intros Hc Hr. split.
  - by apply Hread.
  - intros [a Ha]%(copy_prunes _ _ _ _ _ _ _ Hc). done.
  - intros a _ Hk. by apply Hread.
  - intros kp b. apply Hlist.
  - intros a _ Ha. by apply (copy_fresh _ _ _ _ _ _ _ Hc).
Qed.
Lemma holds_balance_of M p b : holds_u512 M (Key_Balance p) b -> balance_of payload M p = Some b /\ 0 <= b <= u_max 512.
Proof.
  intros (c & Hc & Hb). split; [unfold balance_of; rewrite Hc; cbn; by rewrite Hb|].
  pose proof (num_into_range U512 c b Hb) as [? ?]. unfold u_max. cbn in *. lia.
Qed.

Lemma native_available M0 s L u :
  native_ledger M0 s L -> yields (available_balance_of u) s (fun r s' => native_ledger M0 s' L /\ same_env s s' /\
    match purses L !! addr u with
    | Some b => r = Ok (Some (available L (addr u) b))
    | None => r = Ok None \/ exists e, r = Err e
    end).
Proof.
  intros (M & Hc & Hr). pose proof (rep_purses _ _ _ Hr (addr u)) as Hp. cbn [available_balance_of the_mint native_mint].
  unfold native_available_balance. destruct (purses L !! addr u) as [b|] eqn:Eb.
  - destruct (holds_balance_of M (addr u) b Hp) as [Hb Hb']. destruct (rep_holds _ _ _ Hr (addr u)) as [(Hd & Hg & Hpr & Hs) Hheld].
    destruct (rep_times _ _ _ Hr) as [[Hi Hi'] Hn].
    destruct (available_balance_spec payload rust_type_name measure entity_named_keys readable listable M0 (tc_of s) M (Key_Balance (addr u)) (addr u) b
      now handling interval) as (tc & E & HT); try done;
      [exact (copy_tracks _ _ _ _ _ _ _ Hc)|by eapply ready_of|by left|by eapply settings_config, rep_settings|].
    eapply yields_call; [eapply (yields_on_copy storage_error _ s (fun r s' => r = Ok (available L (addr u) b) /\ s' = set_tracking_copy payload s tc)); [exact E|]|].
    { split; [|done]. cbn. unfold available. rewrite <- Hheld. done. }
    intros r s' [-> ->]. apply yields_ret. split; [|split; [apply set_copy_env|done]].
    exists M. split; [|by apply rep_set_copy]. eapply copy_ok_pending; [exact Hc|by eapply available_pending|exact HT].
  - eapply yields_call; [eapply (yields_on_copy storage_error _ s (fun r s' => r = Err ME_Storage /\ s' = set_tracking_copy payload s (tc_of s)))|].
    + unfold get_available_balance, mbind, st_bind, shared, get_total_balance.
      rewrite (copy_shared_read M0 (tc_of s) M), Hp by done. reflexivity.
    + done.
    + intros r s' [-> ->]. split; [|split; [apply set_copy_env|right; by eexists]].
      exists M. split; [done|by apply rep_set_copy].
Qed.

Lemma native_total M0 s L u b :
  native_ledger M0 s L -> purses L !! addr u = Some b ->
  yields (total_balance u) s (fun r s' => native_ledger M0 s' L /\ same_env s s' /\ r = Ok b).
Proof.
  intros (M & Hc & Hr) Eb. pose proof (rep_purses _ _ _ Hr (addr u)) as Hp. rewrite Eb in Hp.
  destruct (holds_balance_of M (addr u) b Hp) as [Hb _].
  apply (yields_on_copy storage_error _ s _ (Ok b) (tc_of s)).
  - unfold shared. f_equal. change (get_total_balance payload (tc_of s) (Key_URef u)) with (get_total_balance payload (tc_of s) (Key_Balance (addr u))).
    apply (total_balance_ok payload rust_type_name readable listable M0 (tc_of s) M); [exact (copy_tracks _ _ _ _ _ _ _ Hc)|by eapply ready_of|done].
  - split; [|split; [apply set_copy_env|done]]. exists M. split; [done|by apply rep_set_copy].
Qed.
Lemma native_write M0 s L u z :
  native_ledger M0 s L -> (forall n, (n < unused L)%nat -> nth_address (address_generator payload s) n <> addr u) -> in_u 512 z ->
  yields (write_balance u z) s (fun r s' => native_ledger M0 s' (with_purse L (addr u) z) /\ same_env s s' /\ r = Ok ()).
Proof.
  intros (M & Hc & Hr) Hn Hz. apply yields_u512; [done|]. intros v Ev Ei. eapply yields_on_copy; [reflexivity|].
  split; [|split; [apply set_copy_env|done]]. exists (<[Key_Balance (addr u) := SV_CLValue payload v]> M).
  split; [apply (copy_write_ok payload rust_type_name measure readable listable M0 (tc_of s) M (Key_Balance (addr u))); done|].
  apply rep_set_copy. by apply rep_write_balance.
Qed.
Lemma existing_not_fresh M s L a : native_rep M s L -> is_Some (purses L !! a) ->
  forall n, (n < unused L)%nat -> nth_address (address_generator payload s) n <> a.
Proof. intros Hr [b Hb] n Hlt E. destruct (rep_fresh _ _ _ Hr n Hlt) as [Hf _]. cbn in Hf. rewrite E in Hf. congruence. Qed.
Lemma native_add_ok M0 s M L k b z L' :
  copy_ok M0 (tc_of s) M -> key_ok k -> mint_key (normalize k) -> is_hold k = false -> holds_u512 M (normalize k) b -> in_u 512 z -> in_u 512 (b + z) ->
  (forall c, into_num U512 c = Ok (b + z) -> native_rep (<[normalize k := SV_CLValue payload c]> M) s L') ->
  yields (native_add payload rust_type_name measure k z) s (fun r s' => native_ledger M0 s' L' /\ same_env s s' /\ r = Ok ()).
Proof.
  intros Hc Hk Hm Hh (c & Hv & Hb) Hz Hbz HL'. unfold native_add. apply yields_u512; [done|]. intros v Ev Ei.
  destruct (copy_add_ok payload rust_type_name measure readable listable M0 (tc_of s) M k c b z v Hc Hk) as (v' & tc & Ea & Ev' & Hc');
    [by apply Hread; [apply normalize_ok|]|done..|].
  eapply yields_call.
  { eapply (yields_on_copy storage_error _ s (fun r s' => r = Ok AR_Success /\ s' = set_tracking_copy payload s tc)); [exact Ea|done]. }
  intros r s' [-> ->]. apply yields_ret. split; [|split; [apply set_copy_env|done]].
  eexists. split; [exact Hc'|]. apply rep_set_copy, HL'. by apply num_into_from.
Qed.
Lemma native_add_balance M0 s L u b z :
  native_ledger M0 s L -> purses L !! addr u = Some b -> in_u 512 z -> in_u 512 (b + z) ->
  yields (add_balance u z) s (fun r s' => native_ledger M0 s' (with_purse L (addr u) (b + z)) /\ same_env s s' /\ r = Ok ()).
Proof.
  intros (M & Hc & Hr) Eb Hz Hbz. pose proof (rep_purses _ _ _ Hr (addr u)) as Hp. rewrite Eb in Hp.
  apply (native_add_ok M0 s M L (Key_Balance (addr u)) b); try done. intros c Hcc. apply rep_write_balance; [done..|].
  apply (existing_not_fresh M s L); [done|by eexists].
Qed.
Lemma supply_key_is s M L u : native_rep M s L -> get_key s TOTAL_SUPPLY_KEY = Some (Key_URef u) -> u = su.
Proof. intros Hr E. cbn in E. rewrite (rep_key _ _ _ Hr) in E. by injection E. Qed.
Lemma native_read_ok {T} (into : CLValue -> result CLValueError T) M0 s M L u :
  copy_ok M0 (tc_of s) M -> native_rep M s L ->
  yields (native_read payload measure into u) s (fun r s' => native_ledger M0 s' L /\ same_env s s' /\
    ((exists e, r = Err e) \/ r = Ok None \/
     exists c, M !! normalize (Key_URef u) = Some (SV_CLValue payload c) /\ r = map_err (fun _ => ME_CLValue) (Some <$> into c)) /\
    (forall c t, has_access_rights_to_uref (runtime_access_rights payload s) u -> M !! normalize (Key_URef u) = Some (SV_CLValue payload c) ->
       into c = Ok t -> r = Ok (Some t))).
Proof.
  intros Hc Hr. unfold native_read. apply yields_asks. apply yields_fail_if; intros Ha.
  { split; [by exists M|]. split; [done|]. split; [left; by eexists|]. intros c t Hx. apply negb_true_iff in Ha. by rewrite Ha in Hx. }
  destruct (copy_read_ok payload rust_type_name measure readable listable M0 (tc_of s) M (Key_URef u) Hc (uref_none_ok u)) as (tc & E & Hc');
    [apply Hread; [apply uref_none_ok|done]|].
  eapply yields_call.
  { eapply (yields_on_copy storage_error _ s (fun r s' => r = Ok (M !! normalize (Key_URef u)) /\ s' = set_tracking_copy payload s tc)); [exact E|done]. }
  intros r s' [-> ->]. assert (native_ledger M0 (set_tracking_copy payload s tc) L) as HL' by (exists M; split; [done|by apply rep_set_copy]).
  pose proof (set_copy_env s tc) as He.
  destruct (M !! normalize (Key_URef u)) as [v|] eqn:Ev; [|apply yields_ret; split; [done|]; split; [done|]; split; [auto|done]].
  destruct v as [c| | | | | | | | | | | | | | | | | | | |]; try (apply yields_throw; split; [done|]; split; [done|]; split; [left; by eexists|done]).
  apply yields_bind, yields_lift. destruct (into c) as [t|e| |] eqn:Et; cbn [map_err fmap result_fmap];
    try (split; [done|]; split; [done|]; split; [right; right; exists c; by rewrite Et|]; intros c' t' _ [= <-]; congruence).
  apply yields_ret. split; [done|]. split; [done|]. split; [right; right; exists c; by rewrite Et|]. intros c' t' _ [= <-]; congruence.
Qed.

Lemma Ratio_new_ok n d : in_u 512 n -> in_u 512 d -> d <> 0 -> 0 < (Ratio_new n d).2 /\ in_u 512 (Ratio_new n d).1 /\ in_u 512 (Ratio_new n d).2.
Proof.
  intros [Hn Hn'] [Hd Hd'] Hne. unfold Ratio_new. cbn [fst snd]. pose proof (Z.gcd_nonneg n d). assert (0 < Z.gcd n d) as Hg.
  { assert (Z.gcd n d <> 0); [|lia]. intros [_ ?]%Z.gcd_eq_0. done. }
  assert (0 < d `div` Z.gcd n d) as Hq.
  { destruct (Z.gcd_divide_r n d) as [q Eq]. rewrite Eq at 1. rewrite Z.div_mul by lia. nia. }
  pose proof (Z.div_le_upper_bound n (Z.gcd n d) n Hg ltac:(nia)). pose proof (Z.div_le_upper_bound d (Z.gcd n d) d Hg ltac:(nia)).
  pose proof (Z.div_pos n (Z.gcd n d) Hn Hg). unfold in_u. lia.
Qed.
Lemma into_ratio_ok v : match into_ratio v with Ok q => 0 < q.2 /\ in_u 512 q.1 /\ in_u 512 q.2 | Err _ => True | _ => False end.
Proof.
  unfold into_ratio. case_decide; [|done]. unfold ratio_from_bytes.
  assert (forall bs, match from_bytes (Bytesrepr := num_repr U512) bs with Ok (z, _) => in_u 512 z | Err _ => True | _ => False end) as Hnum.
  { intros bs. pose proof (spec_no_panic (BytesreprSpec := num_spec U512) bs) as Hp.
    destruct (from_bytes (Bytesrepr := num_repr U512) bs) as [[z r]| | |] eqn:E; try done.
    apply (spec_from (BytesreprSpec := num_spec U512)) in E as [Hr _]. by apply num_representable in Hr. }
  pose proof (Hnum (inner_bytes (value_bytes v))) as Hn1. destruct (from_bytes _) as [[n b1]| | |]; try done. cbn [mbind result_bind].
  pose proof (Hnum b1) as Hn2. destruct (from_bytes _) as [[d b2]| | |]; try done. cbn [mbind result_bind].
  destruct (Z.eqb_spec d 0); [done|]. cbn [map_err mbind result_bind]. destruct b2; [|done]. by apply Ratio_new_ok.
Qed.

Lemma has_access_extend c u v : addr u <> addr v -> has_access_rights_to_uref (extend c [u]) v = has_access_rights_to_uref c v.
Proof.
  intros Hne. unfold extend, do_extend, has_access_rights_to_uref. cbn [foldl set_rights rights_map]. unfold extend_entry.
  by destruct (rights_map c !! addr u); rewrite lookup_insert_ne.
Qed.
Lemma take_uref_ok M s L u s' :
  native_rep M s L -> (0 < unused L)%nat -> take_uref payload s = (u, s') ->
  native_rep M s' (with_unused L (unused L - 1)) /\ same_env s s' /\ tc_of s' = tc_of s /\ access_rights u = READ_ADD_WRITE /\
  purses L !! addr u = None /\ held L (addr u) = 0 /\ addr u <> addr su /\ addr u <> addr hu /\ addr u <> addr iu /\
  forall n, (n < unused L - 1)%nat -> nth_address (address_generator payload s') n <> addr u.
Proof.
  intros Hr Hun Et. pose proof (rep_fresh _ _ _ Hr 0%nat Hun) as Hf. cbn [nth_address] in Hf.
  unfold take_uref, generator_new_uref in Et. destruct (fill_bytes (address_generator payload s)) as [a g] eqn:Eg. cbn [fst] in Hf.
  injection Et as <- <-. cbn zeta in Hf. destruct Hf as (Hp & Hheld & N1 & N2 & N3 & Hinj). cbn [addr].
  split; [|split; [by split|]].
  - destruct Hr as [R1 R2 R3 R4 R5 R6 R7 R8 R9 R10]. split; try done.
    + destruct R4 as (K1 & K2 & K3). split; [done|]. split; [done|]. cbn [runtime_access_rights]. by rewrite has_access_extend.
    + intros n Hlt. cbn in Hlt |- *. specialize (R9 (Datatypes.S n) ltac:(lia)). cbn [nth_address] in R9. rewrite Eg in R9. cbn in R9.
      destruct R9 as (F1 & F2 & F3 & F4 & F5 & F6). split_and!; try done. intros m Hm Hne.
      specialize (F6 (Datatypes.S m)). cbn [nth_address] in F6. rewrite Eg in F6. apply F6; lia.
  - split_and!; try done. intros n Hlt. specialize (Hinj (Datatypes.S n)). cbn [nth_address] in Hinj. rewrite Eg in Hinj. apply Hinj; lia.
Qed.
Lemma native_new M0 s L :
  native_ledger M0 s L -> (0 < unused L)%nat -> yields new_uref s (fun r s' => same_env s s' /\
    match r with
    | Ok u =>
        let L' := with_unused L (unused L - 1) in
        native_ledger M0 s' L' /\ purses L !! addr u = None /\ held L (addr u) = 0 /\
        forall z, in_u 512 z ->
        yields (write_balance u z) s' (fun r s'' => native_ledger M0 s'' (with_purse L' (addr u) z) /\ same_env s' s'' /\ r = Ok ())
    | Err _ => native_ledger M0 s' L
    | _ => False
    end).
Proof.
  intros (M & Hc & Hr) Hun. cbn [new_uref the_mint native_mint]. unfold native_new_uref. apply yields_bind, yields_lift.
  cbn [map_err mbind result_bind from_t into_bytes default_into_bytes to_bytes unit_bytesrepr].
  destruct (take_uref payload s) as [u s1] eqn:Et. destruct (take_uref_ok M s L u s1 Hr Hun Et) as (Hr1 & E1 & Etc & Ea & Hp & Hheld & N1 & N2 & N3 & Hn).
  apply yields_bind. apply (yields_eq _ s (Ok u) s1); [by rewrite Et|]. set (v := SV_CLValue (K:=Key) payload (mkCLValue CL_Unit (mkBytes []))).
  eapply yields_call.
  { eapply (yields_on_copy storage_error _ s1 (fun r s' => r = Ok () /\ s' = set_tracking_copy payload s1 (tc_write payload (tc_of s1) (Key_URef u) v)));
      [reflexivity|done]. }
  intros r s2 [-> ->]. apply yields_ret.
  assert (native_ledger M0 (set_tracking_copy payload s1 (tc_write payload (tc_of s1) (Key_URef u) v)) (with_unused L (unused L - 1))) as HL2.
  { eexists. split; [|by apply rep_set_copy, (rep_write_uref M s1 (with_unused L (unused L - 1)) u v)].
    apply (copy_write_ok payload rust_type_name measure readable listable M0 (tc_of s1) M (Key_URef u)); [by rewrite Etc| |done].
    destruct u as [a r]. cbn in Ea. subst r. by vm_compute. }
  split; [by etrans; [exact E1|apply set_copy_env]|]. split; [done|]. split; [done|]. split; [done|]. intros z Hz. by apply native_write.
Qed.

#[export] Instance native_mint_laws M0 : MintLaws (system_account blake2b) (native_ledger M0).
Proof.
  split.
  - intros s L (M & _ & Hr). apply (rep_limit _ _ _ Hr).
  - intros s L z (M & Hc & Hr) Hz. cbn [sub_approved_spending_limit the_mint native_mint]. unfold native_sub_limit, checked_sub, checked.
    destruct (rep_limit _ _ _ Hr) as [-> Hl]. rewrite decide_True by (unfold in_u in *; lia). split; [|by split].
    exists M. split; [done|]. destruct Hr. split; try done. cbn. split; [done|]. unfold in_u in *. lia.
  - intros s L u HL. by apply native_available.
  - intros s L u b HL Hb. by apply native_total.
  - intros s L u z (M & Hc & Hr) Hp Hz. apply native_write; [by exists M|by eapply existing_not_fresh|done].
  - intros s L u b z HL Hb Hz Hbz. by apply native_add_balance.
  - intros s L (M & _ & Hr). exists su. apply (rep_key _ _ _ Hr).
  - intros s L u (M & Hc & Hr) E. apply (supply_key_is s M L) in E as ->; [|done]. destruct (rep_supply _ _ _ Hr) as (c & Hm & Hs).
    destruct (rep_uref _ _ _ Hr) as (Hk & _ & Ha). eapply yields_impl; [by apply (native_read_ok (into_num U512) M0 s M L su)|].
    intros r s' (HL' & He & _ & Hok). split; [done|]. split; [done|]. by apply (Hok c).
  - intros s L u z (M & Hc & Hr) E Hz. apply (supply_key_is s M L) in E as ->; [|done]. destruct (rep_uref _ _ _ Hr) as (Hk & Hw & Ha).
    cbn [write_amount the_mint native_mint]. unfold native_write_amount. apply yields_u512; [done|]. intros v Ev Ei.
    apply yields_fail_if; intros Hb; [by destruct (is_writeable (access_rights su))|]. apply yields_asks. apply yields_fail_if; intros Hb';
      [by destruct (has_access_rights_to_uref (runtime_access_rights payload s) su)|].
    eapply yields_on_copy; [reflexivity|]. split; [|split; [apply set_copy_env|done]]. eexists.
    split; [apply (copy_write_ok payload rust_type_name measure readable listable M0 (tc_of s) M (Key_URef su)); done|].
    apply rep_set_copy. by apply rep_write_supply.
  - intros s L u z (M & Hc & Hr) E Hz Hs. apply (supply_key_is s M L) in E as ->; [|done]. destruct (rep_uref _ _ _ Hr) as (Hk & _ & _).
    apply (native_add_ok M0 s M L (Key_URef su) (supply L)); try done; [apply (rep_supply _ _ _ Hr)|]. intros c Hcc. by apply rep_write_supply.
  - intros s L HL Hun. by apply native_new.
  - intros s L u (M & Hc & Hr). eapply yields_impl; [by apply (native_read_ok into_ratio M0 s M L u)|].
    intros r s' (HL' & He & Hcases & _). split; [done|]. split; [done|]. destruct Hcases as [[e ->]|[->|(c & _ & ->)]]; [done|done|].
    pose proof (into_ratio_ok c) as Hq. destruct (into_ratio c) as [q| | |]; cbn; try done. by intros q' [= <-].
  - intros s L to source target z id (M & Hc & Hr). cbn [record_transfer the_mint native_mint]. unfold yields, native_record_transfer.
    case_decide; [|by split; [exists M|]]. destruct (runtime_id payload s); [|by split; [exists M|]]. cbn.
    split; [|by split]. exists M. split; [done|]. by destruct Hr; split.
  - intros s L u (M & Hc & Hr). cbn [purse_exists the_mint native_mint]. unfold native_purse_exists.
    destruct (copy_read_ok payload rust_type_name measure readable listable M0 (tc_of s) M (Key_Balance (addr u)) Hc I) as (tc & E & Hc');
      [by apply Hread|]. eapply yields_call.
    { eapply (yields_on_copy storage_error _ s (fun r s' => r = Ok (M !! Key_Balance (addr u)) /\ s' = set_tracking_copy payload s tc)); [exact E|done]. }
    intros r s' [-> ->]. pose proof (rep_purses _ _ _ Hr (addr u)) as Hp.
    assert (native_ledger M0 (set_tracking_copy payload s tc) L) as HL' by (exists M; split; [done|by apply rep_set_copy]).
    destruct (purses L !! addr u) as [b|].
    + destruct Hp as (c & -> & Hb). apply yields_ret. split; [done|]. split; [apply set_copy_env|].
      rewrite !bool_decide_true; [done|by eexists|by eapply into_num_type].
    + rewrite Hp. apply yields_ret. split; [done|]. split; [apply set_copy_env|]. by rewrite bool_decide_false by (by intros []).
  - intros s L (M & Hc & Hr). cbn [get_system_registry the_mint native_mint].
    destruct (set_mint _ _ _ _ _ _ _ (rep_settings _ _ _ Hr)) as (r & reg & hash & c & Hg & Er & _).
    unfold get_system_entity_registry. rewrite (copy_shared_read M0 (tc_of s) M), Hg by done. cbn [mbind result_bind]. by rewrite Er.
  - intros s L a h _ Hi Hne. cbn in Hi. by injection Hi as <-.
Qed.
End ledgers.

(** ** A concrete runtime *)

#[local] Existing Instances contracts_bid_repr contracts_package_repr plain_ratio plain_ratio_laws.
(** A generator with one address. *)
#[local] Instance one_address : Rng := {| rng := (); fill_bytes g := (vreplicate 32 Byte.x09, g) |}.

Definition fives : URefAddr := vreplicate 32 Byte.x05.
Definition supply_uref : URef := mkURef (vreplicate 32 Byte.x03) READ_ADD_WRITE.
(** The state of [purse_state], a second purse with 20 motes, and the supply of 120. *)
Definition mint_entries : list (Key * value) :=
  purse_entries ++ [(Key_URef (remove_access_rights supply_uref), motes Byte.x78); (Key_Balance fives, motes Byte.x14)].
Definition mint_state : gmap Key value := list_to_map mint_entries.
Definition some_hash_fn (_ : list u8) : AccountHash := vreplicate 32 Byte.xff.
(** An account that may spend 50 motes of the first purse. *)
Definition user_runtime : RuntimeNative contracts :=
  mkRuntime contracts Unadministered 0 (Id_Seed []) tt (tracking_copy_new contracts (map_reader contracts mint_state)) zeros
    [(TOTAL_SUPPLY_KEY, Key_URef supply_uref)] (Some (mkURef zeros READ_ADD_WRITE)) (ContextAccessRights_new zeros [supply_uref]) 50 [] P_Session.
(** Half of the 40 motes that were held is still held. *)
Definition user_ledger : Ledger :=
  mkLedger 120 (<[zeros := 100]> {[ fives := 20 ]}) (fun p => if decide (p = zeros) then 20 else 0) 50 1.
Abbreviation no_footprint := (fun (_ : AccountHash) (tc : TrackingCopy contracts) => (Err TCE_ValueNotFound, tc)).
#[local] Instance user_mint : MintProvider (RuntimeNative contracts) :=
  native_mint contracts unnamed (fun _ _ => 1) no_entities no_footprint some_hash_fn.
Abbreviation user_rep := (native_ledger contracts unnamed (fun _ => True) (fun _ => True) 100 100 Amortized
  (hold_uref Byte.x01) (hold_uref Byte.x02) supply_uref mint_state).

Lemma mint_keys_ok : Forall (fun p => key_ok p.1) mint_entries.
Proof. repeat constructor; vm_compute; intuition congruence. Qed.
Lemma mint_state_holds p a : a ∈ addrs_of contracts mint_state p -> a = BH_Gas zeros (mkBlockTime 50) /\ p = zeros.
Proof.
  intros [<- [v Ha%elem_of_list_to_map_2]%elem_of_dom]%elem_of_addrs. unfold mint_entries, purse_entries in Ha. cbn [app] in Ha.
  repeat (apply elem_of_cons in Ha as [Ha|Ha]; [try discriminate Ha|]).
  - injection Ha as -> _. done.
  - by apply not_elem_of_nil in Ha.
Qed.
Lemma mint_state_other p : p <> zeros -> p <> fives -> mint_state !! Key_Balance p = None.
Proof.
  intros H1 H2. apply not_elem_of_list_to_map_1. unfold mint_entries, purse_entries. cbn [app fmap list_fmap fst].
  rewrite !not_elem_of_cons. split_and!; try discriminate; try (intros [= ?]; done). apply not_elem_of_nil.
Qed.
Definition cl_of (v : value) : CLValue := match v with SV_CLValue _ c => c | _ => mkCLValue CL_Unit (mkBytes []) end.
Lemma mint_state_settings : hold_settings contracts mint_state 100 Amortized 100 (hold_uref Byte.x01) (hold_uref Byte.x02).
Proof.
  split.
  - exists (cl_of (cl_u64 Byte.x64)). split; vm_compute; reflexivity.
  - exists (cl_of (cl registry_type mint_entry)), [(MINT, zeros)], zeros,
      (mkContract contracts [(MINT_GAS_HOLD_HANDLING_KEY, Key_URef (hold_uref Byte.x01)); (MINT_GAS_HOLD_INTERVAL_KEY, Key_URef (hold_uref Byte.x02))] tt).
    split_and!; vm_compute; reflexivity.
  - exists (cl_of (cl CL_U8 [Byte.x01])), 1. split_and!; vm_compute; reflexivity.
  - exists (cl_of (cl_u64 Byte.x64)). split; vm_compute; reflexivity.
Qed.
Lemma mint_state_held : holds_ok contracts 100 100 mint_state zeros /\ held_in contracts 100 100 Amortized mint_state zeros = 20.
Proof.
  split; [|vm_compute; reflexivity]. split; [intros a [-> _]%mint_state_holds _; vm_compute; by eexists|].
  assert (gas_holds contracts 100 100 mint_state zeros = [(50, 40)]) as -> by (vm_compute; reflexivity).
  assert (processing_holds contracts 100 100 mint_state zeros = []) as -> by (vm_compute; reflexivity).
  split; [|split; [constructor|vm_compute; congruence]]. repeat constructor; vm_compute; congruence.
Qed.
Lemma mint_state_not_held p : p <> zeros -> holds_ok contracts 100 100 mint_state p /\ held_in contracts 100 100 Amortized mint_state p = 0.
Proof.
  intros E. assert (addrs_of contracts mint_state p = []) as Ha.
  { apply elem_of_nil_inv. intros a [_ Hp]%mint_state_holds. exact (E Hp). }
  assert (gas_holds contracts 100 100 mint_state p = []) as Hg by (unfold gas_holds, purse_holds; rewrite Ha; reflexivity).
  assert (processing_holds contracts 100 100 mint_state p = []) as Hp by (unfold processing_holds, purse_holds; rewrite Ha; reflexivity).
  split; [|unfold held_in; rewrite Hg, Hp; reflexivity]. split; [rewrite Ha; intros a []%not_elem_of_nil|]. rewrite Hg, Hp.
  split; [constructor|]. split; [constructor|vm_compute; congruence].
Qed.
Lemma user_rep_holds : user_rep user_runtime user_ledger.
Proof.
  exists mint_state. split.
  - split; [apply new_tracks; [apply map_reader_reads|apply in_range_list, mint_keys_ok]| |done]. cbn. set_solver.
  - split; cbn [purses supply held limit unused user_ledger].
    + intros p. destruct (decide (p = zeros)) as [->|N1]; [rewrite lookup_insert_eq; exists (cl_of (motes Byte.x64)); split; vm_compute; reflexivity|].
      rewrite lookup_insert_ne by done. destruct (decide (p = fives)) as [->|N2]; [rewrite lookup_singleton_eq; exists (cl_of (motes Byte.x14)); split; vm_compute; reflexivity|].
      rewrite lookup_singleton_ne by done. by apply mint_state_other.
    + exists (cl_of (motes Byte.x78)). split; vm_compute; reflexivity.
    + vm_compute. reflexivity.
    + split_and!; vm_compute; (done || intuition congruence).
    + exact mint_state_settings.
    + split; vm_compute; congruence.
    + split; [split; [lia|by vm_compute]|lia].
    + intros p. case_decide as E; [rewrite E; exact mint_state_held|exact (mint_state_not_held p E)].
    + intros [|n] Hn; [|lia]. cbn. split_and!; try (vm_compute; congruence). intros [|m] Hm Hne; [done|lia].
    + split; [reflexivity|]. by split; vm_compute.
Qed.
Lemma user_ledger_sound : sound user_ledger.
Proof.
  split; cbn [purses supply held limit user_ledger].
  - vm_compute. reflexivity.
  - by vm_compute.
  - apply map_Forall_insert_2; [lia|]. by apply map_Forall_singleton.
  - intros a. case_decide; lia.
  - lia.
Qed.

#[local] Instance user_laws : MintLaws (system_account some_hash_fn) user_rep :=
  native_mint_laws contracts unnamed (fun _ _ => 1) no_entities no_footprint some_hash_fn (fun _ => True) (fun _ => True)
    (fun _ _ _ => I) (fun _ _ _ _ _ => I) 100 100 Amortized (hold_uref Byte.x01) (hold_uref Byte.x02) supply_uref mint_state.
Definition main_purse_uref : URef := mkURef zeros READ_ADD_WRITE.
Definition fives_uref : URef := mkURef fives ADD.
Abbreviation pay z := (MO_transfer None main_purse_uref fives_uref z None).

(** The account pays 30 motes; the supply is still the sum of the balances. *)
Lemma mint_call_correct_witness :
  exists s L, mint_step some_hash_fn (pay 30) user_runtime = (Ok MR_done, s) /\ user_rep s L /\
    purses L !! zeros = Some 70 /\ purses L !! fives = Some 50 /\ limit L = 20 /\ sound L.
Proof.
  pose proof (mint_call_correct some_hash_fn user_rep user_runtime user_ledger (pay 30) user_rep_holds user_ledger_sound) as H.
  unfold yields in H. assert ((mint_step some_hash_fn (pay 30) user_runtime).1 = Ok MR_done) as E by (vm_compute; reflexivity).
  destruct (mint_step some_hash_fn (pay 30) user_runtime) as [r s]. cbn [fst snd] in H, E. subst r.
  destruct H as (_ & L & HL & He & Hs); [cbn; lia|vm_compute; congruence|cbn; lia|].
  exists s, L. destruct He as (b & m & Hb & _ & _ & _ & _ & _ & (bt & Ebt & ->) & ->).
  cbn [addr main_purse_uref fives_uref purses user_ledger] in *. rewrite lookup_insert_eq in Hb. injection Hb as <-.
  rewrite lookup_insert_ne, lookup_insert_ne, lookup_singleton_eq in Ebt by (vm_compute; congruence). injection Ebt as <-.
  split; [reflexivity|]. split; [exact HL|]. split; [|split; [|split; [vm_compute; reflexivity|by apply Hs]]].
  - rewrite lookup_insert_ne by (vm_compute; congruence). by rewrite lookup_insert_eq.
  - by rewrite lookup_insert_eq.
Defined.

(** Two payments, of which only the first is within the limit, a burn of a purse without
    the right to it, and an attempt to create money. *)
Lemma mint_conserves_money_witness :
  exists L, user_rep (mint_run some_hash_fn [pay 30; pay 30; MO_burn main_purse_uref 40; MO_mint 7] user_runtime) L /\
    supply L <= 120 /\ supply L = balances (purses L).
Proof.
  destruct (mint_conserves_money some_hash_fn user_rep [pay 30; pay 30; MO_burn main_purse_uref 40; MO_mint 7] user_runtime user_ledger
    user_rep_holds user_ledger_sound) as (L & HL & Hs & _ & Hu).
  - repeat constructor; cbn; lia.
  - vm_compute. congruence.
  - cbn. lia.
  - exists L. split; [exact HL|]. split; [|apply Hs].
    destruct (Hu main_purse_uref 100) as [Hle _]; [vm_compute; congruence|reflexivity|vm_compute; reflexivity|exact Hle].
Defined.
