(* ===== verification/HandlePayment.v ===== *)
(** * Handling payments

    Models [storage/src/system/handle_payment.rs] and [handle_payment/internal.rs]
    over the providers of the mint ([handle_payment_native.rs] passes its calls on to
    the mint): the payment and refund purses, how a payment is split into a
    refund and a fee, burning what was paid, and distributing accumulated fees. *)
From S2P Require Import Prelude Effects BTree Bytesrepr Struct Digest PublicKey Uint Units Access CLType Account Key KeyState Transform TrackingCopy Balances Mint MintNative.

Open Scope Z_scope.

(** The errors of [types/src/system/handle_payment/error.rs] that are returned here. *)
Inductive HandlePaymentError : Type :=
| PaymentPurseNotFound | PaymentPurseKeyUnexpectedType | PaymentPurseBalanceNotFound | RefundPurseKeyUnexpectedType
| InvalidCaller | SetRefundPurseCalledOutsidePayment | GetBalance | HP_PutKey | RemoveKey | HP_Transfer
| HP_ArithmeticOverflow | ReduceTotalSupply | HP_Storage | IncompatiblePaymentSettings
| GetPaymentPurseCalledOutsidePayment | UnexpectedKeyVariant.

Inductive FeeHandling : Type := PayToProposer | Accumulate | FH_Burn | NoFee.

Definition PAYMENT_PURSE_KEY : RString := rstring "payment_purse".
Definition REFUND_PURSE_KEY : RString := rstring "refund_purse".

(** [RuntimeProvider], and the transfer of [MintProvider] to an account; the
    administrative accounts are in order. *)
Class PaymentProvider (S : Type) : Type := {
  put_key : RString -> Key -> st S HandlePaymentError ();
  remove_key : RString -> st S HandlePaymentError ();
  get_phase : S -> Phase;
  fee_handling : S -> FeeHandling;
  administrators : S -> list AccountHash;
  transfer_purse_to_account : URef -> AccountHash -> Z -> st S HandlePaymentError ()
}.

(** [calculate_overpayment_and_fee] *)
Definition calculate_overpayment_and_fee `{RatioOps} (gas_limit gas_price cost consumed available_balance : Z) (refund_ratio : Z * Z) :
    result HandlePaymentError (Z * Z) :=
  if (available_balance <? gas_limit) && (available_balance <=? cost) then Ok (0, available_balance)
  else if available_balance <? cost then Ok (0, available_balance)
  else if refund_ratio.1 =? 0 then Ok (0, cost)
  else
    let unspent := saturating_sub gas_limit consumed in
    if unspent =? 0 then Ok (0, cost)
    else
      base_refund ← expect (checked_mul 512 unspent gas_price);
      product ← map_err (fun _ => HP_ArithmeticOverflow) (ratio_checked_mul (base_refund, 1) refund_ratio);
      adjusted_refund ← ok_or product HP_ArithmeticOverflow;
      let adjusted_refund := to_integer adjusted_refund in
      fee ← ok_or (checked_sub 512 cost adjusted_refund) HP_ArithmeticOverflow;
      Ok (adjusted_refund, fee).

Section payment.
Context (blake2b : list u8 -> AccountHash).
Context {S : Type} {P : MintProvider S} {PP : PaymentProvider S} `{RatioOps}.

(** [MintProvider] and [StorageProvider], as calls of the mint *)
Definition transfer_purse_to_purse (source target : URef) (amount : Z) : st S HandlePaymentError () :=
  st_map_err (fun _ => HP_Transfer) (transfer blake2b None source target amount None).
Definition payment_available_balance (purse : URef) : st S HandlePaymentError (option Z) :=
  st_map_err (fun _ => GetBalance) (balance purse).
Definition payment_reduce_total_supply (amount : Z) : st S HandlePaymentError () :=
  st_map_err (fun _ => ReduceTotalSupply) (reduce_total_supply blake2b amount).
Definition payment_write_balance (purse : URef) (amount : Z) : st S HandlePaymentError () :=
  st_map_err (fun _ => HP_Storage) (write_balance purse amount).

(** ** The purses of a payment *)

Definition get_payment_purse : st S HandlePaymentError URef :=
  phase ← asks get_phase;
  _ ← fail_if (bool_decide (phase = P_Session)) GetPaymentPurseCalledOutsidePayment;
  key ← asks (fun s => get_key s PAYMENT_PURSE_KEY);
  match key with
  | Some (Key_URef purse) => mret (mkURef (addr purse) READ_ADD)
  | Some _ => throw PaymentPurseKeyUnexpectedType
  | None => throw PaymentPurseNotFound
  end.
Definition set_refund_purse (purse : URef) : st S HandlePaymentError () :=
  _ ← payment_available_balance purse;
  phase ← asks get_phase;
  if decide (phase = P_Payment) then put_key REFUND_PURSE_KEY (Key_URef (mkURef (addr purse) ADD))
  else throw SetRefundPurseCalledOutsidePayment.
Definition get_refund_purse : st S HandlePaymentError (option URef) :=
  key ← asks (fun s => get_key s REFUND_PURSE_KEY);
  match key with
  | Some (Key_URef purse) => mret (Some (remove_access_rights purse))
  | Some _ => throw RefundPurseKeyUnexpectedType
  | None => mret None
  end.
Definition only_system : st S HandlePaymentError () :=
  caller ← asks get_caller;
  fail_if (negb (is_system blake2b caller)) InvalidCaller.
Definition clear_refund_purse : st S HandlePaymentError () :=
  _ ← only_system;
  remove_key REFUND_PURSE_KEY.

(** ** Settling a payment *)

Definition overpayment_and_fee (gas_limit gas_price cost consumed : Z) (refund_ratio : Z * Z) (available_balance : Z) :
    st S HandlePaymentError (Z * Z) :=
  _ ← only_system;
  lift (calculate_overpayment_and_fee gas_limit gas_price cost consumed available_balance refund_ratio).

Definition payment_burn (source_uref : URef) (amount : option Z) : st S HandlePaymentError () :=
  _ ← only_system;
  o ← payment_available_balance source_uref;
  available_balance ← lift (ok_or o PaymentPurseBalanceNotFound);
  let burn_amount := default available_balance amount in
  if burn_amount =? 0 then mret ()
  else
    adjusted_balance ← lift (ok_or (checked_sub 512 available_balance burn_amount) HP_ArithmeticOverflow);
    _ ← payment_write_balance source_uref adjusted_balance;
    payment_reduce_total_supply burn_amount.

Fixpoint transfer_to_all (source_uref : URef) (targets : list AccountHash) (portion : Z) : st S HandlePaymentError () :=
  match targets with
  | [] => mret ()
  | target :: targets =>
      _ ← transfer_purse_to_account source_uref target portion;
      transfer_to_all source_uref targets portion
  end.
Definition distribute_accumulated_fees (source_uref : URef) (amount : option Z) : st S HandlePaymentError () :=
  _ ← only_system;
  fees ← asks fee_handling;
  match fees with
  | Accumulate =>
      administrative_accounts ← asks administrators;
      let reward_recipients := Z.of_nat (length administrative_accounts) in
      distribute_amount ← match amount with
                          | Some amount => mret amount
                          | None => o ← payment_available_balance source_uref; mret (default 0 o)
                          end;
      if distribute_amount =? 0 then mret ()
      else
        let portion := default 0 (checked_div 512 distribute_amount reward_recipients) in
        if portion =? 0 then mret () else transfer_to_all source_uref administrative_accounts portion
  | _ => throw IncompatiblePaymentSettings
  end.
End payment.

(** ** Splitting a payment *)

Lemma in_u_le w b a : in_u w b -> 0 <= a <= b -> in_u w a.
Proof. unfold in_u. lia. Qed.

Section split.
Context `{RatioLaws}.

(** C18: settling a payment loses nothing: the refund and the fee add up to the cost, or
    to the whole balance when it does not cover the cost; the refund is the share, given by
    the refund ratio, of what the unspent gas was worth, rounded down, so the dust
    goes to the fee; and with a ratio of at most one and a cost of at least
    the value of the gas limit it never fails. *)
Theorem payment_split gas_limit gas_price cost consumed available_balance n d :
  in_u 512 gas_limit -> in_u 8 gas_price -> in_u 512 cost -> in_u 512 consumed -> in_u 512 available_balance ->
  0 <= n <= d -> 0 < d -> in_u 512 d -> in_u 512 (cost * d) -> gas_limit * gas_price <= cost ->
  exists refund fee,
    calculate_overpayment_and_fee gas_limit gas_price cost consumed available_balance (n, d) = Ok (refund, fee) /\
    refund + fee = Z.min cost available_balance /\ 0 <= fee /\
    refund = (if available_balance <? cost then 0
              else if (available_balance <? gas_limit) && (available_balance <=? cost) then 0
              else (Z.max 0 (gas_limit - consumed) * gas_price * n) `div` d).
Proof.
  intros [Hl _] [Hp _] Hcu [Hu _] [Ha _] Hn Hd Hdu Hcdu Hcost. pose proof (proj1 Hcu) as Hc.
  unfold calculate_overpayment_and_fee. cbn [fst].
  destruct ((available_balance <? gas_limit) && (available_balance <=? cost)) eqn:E1.
  { apply andb_true_iff in E1 as [_ E1%Z.leb_le]. exists 0, available_balance. split; [done|]. split; [lia|]. split; [done|].
    by destruct (available_balance <? cost). }
  destruct (Z.ltb_spec available_balance cost); [exists 0, available_balance; split_and!; (done || lia)|].
  unfold saturating_sub. rewrite (Z.max_comm (gas_limit - consumed) 0). set (unspent := Z.max 0 (gas_limit - consumed)).
  assert (0 <= unspent * gas_price <= cost) as Hb.
  { assert (0 <= unspent <= gas_limit) by (unfold unspent; lia). split; [apply Z.mul_nonneg_nonneg; lia|].
    etrans; [|exact Hcost]. apply Z.mul_le_mono_nonneg_r; lia. }
  destruct (Z.eqb_spec n 0) as [->|Hn0]; [exists 0, cost; rewrite Z.mul_0_r, Zdiv_0_l; split_and!; (done || lia)|].
  destruct (Z.eqb_spec unspent 0) as [E0|Hu0]; [exists 0, cost; rewrite E0, !Z.mul_0_l, Zdiv_0_l; split_and!; (done || lia)|].
  unfold checked_mul, checked. rewrite decide_True by (by apply (in_u_le 512 cost)). cbn [expect mbind result_bind].
  destruct (ratio_mul_exact (unspent * gas_price) 1 n d) as (o & -> & Ho);
    [by apply (in_u_le 512 cost)|apply (in_u_le 512 d); (done || lia)|by split; [|vm_compute]|done|done|done|].
  assert (0 <= unspent * gas_price * n <= cost * d) as Hbn.
  { split; [apply Z.mul_nonneg_nonneg; lia|]. apply Z.mul_le_mono_nonneg; lia. }
  cbn [map_err mbind result_bind]. destruct o as [[rn rd]|]; cbn [ok_or mbind result_bind].
  2: { exfalso. apply Ho. rewrite Z.mul_1_l. split; [by apply (in_u_le 512 (cost * d))|done]. }
  destruct Ho as (Hrn & Hrd & E). rewrite Z.mul_1_l in E.
  assert (to_integer (rn, rd) = (unspent * gas_price * n) `div` d) as ->.
  { unfold to_integer. cbn [fst snd]. rewrite <- (Z.div_mul_cancel_r rn rd d), <- (Z.div_mul_cancel_r (unspent * gas_price * n) d rd) by lia.
    f_equal; lia. }
  assert (0 <= (unspent * gas_price * n) `div` d <= cost) as Hr.
  { split; [apply Z.div_pos; lia|]. apply Z.div_le_upper_bound; lia. }
  unfold checked_sub, checked. rewrite decide_True by (apply (in_u_le 512 cost); (done || lia)). cbn [ok_or mbind result_bind].
  eexists _, _. split; [reflexivity|]. split_and!; (done || lia).
Qed.
End split.

(** A ratio of one half, of 100 units of gas at the price 2 of which 51 were used. *)
#[local] Existing Instances plain_ratio plain_ratio_laws.
Lemma payment_split_witness :
  exists refund fee, calculate_overpayment_and_fee 100 2 200 51 1000 (1, 2) = Ok (refund, fee) /\ refund = 49 /\ fee = 151.
Proof.
  destruct (payment_split 100 2 200 51 1000 1 2) as (refund & fee & E & Hsum & _ & Hr); try lia;
    try (split; [lia|vm_compute; reflexivity]).
  change (refund = 49) in Hr. exists refund, fee. split; [exact E|]. split; [exact Hr|]. lia.
Defined.

(** ** Burning a payment *)

Section burn.
Context (blake2b : list u8 -> AccountHash).
Context {S : Type} {P : MintProvider S} `{RatioLaws}.
Context (ledger : S -> Ledger -> Prop) {ML : MintLaws (system_account blake2b) ledger}.
Implicit Types (s : S) (L : Ledger).

Lemma yields_map_err {E F A} (f : E -> F) (m : st S E A) s (Q : result E A -> S -> Prop) :
  yields m s Q -> yields (st_map_err f m) s (fun r s' => exists r', Q r' s' /\ r = map_err f r').
Proof. unfold yields, st_map_err. destruct (m s) as [r s']. cbn. intros HQ. by exists r. Qed.

(** The amount that is left of the supply and of the purse. *)
Definition burned L (u : URef) (b z : Z) : Ledger :=
  if z =? 0 then L else with_supply (with_purse L (addr u) (available L (addr u) b - z)) (supply L - z).
Lemma payment_burn_ok s L u amount :
  ledger s L -> sound L -> (forall z, amount = Some z -> 0 <= z) ->
  yields (payment_burn blake2b u amount) s (fun r s' => same_env s s' /\
    match r with
    | Ok _ => exists b, purses L !! addr u = Some b /\ get_caller s = system_account blake2b /\
        let z := default (available L (addr u) b) amount in
        z <= available L (addr u) b /\ ledger s' (burned L u b z)
    | Err _ => ledger s' L
    | _ => False
    end).
Proof.
  intros HL Hsound Hz. unfold payment_burn, only_system. apply yields_bind, yields_asks.
  apply (yields_impl (fail_if _ _) s (fun r s' => s' = s /\ if is_system blake2b (get_caller s) then r = Ok () else r = Err InvalidCaller));
    [by destruct (is_system blake2b (get_caller s))|].
  intros r s' [-> Hr]. destruct (is_system blake2b (get_caller s)) eqn:Hs; subst r; [|by split]. apply bool_decide_eq_true in Hs.
  eapply yields_call; [eapply yields_map_err, (balance_ok blake2b ledger s L u HL)|]. intros r s1 (r1 & [E1 Hr1] & ->).
  destruct r1 as [o| | |]; cbn [map_err]; [|by split|done..]. destruct Hr1 as (L1 & HL1 & -> & b & Eb & ->).
  apply yields_ok_or. pose proof (sound_purse L (addr u) b Hsound Eb) as Hb.
  pose proof (available_bounds L (addr u) b (proj1 Hb) (sound_held L Hsound _)) as Ha.
  set (z := default (available L (addr u) b) amount). assert (0 <= z) as Hz0.
  { unfold z. destruct amount as [a|]; [by apply Hz|cbn; lia]. }
  destruct (Z.eqb_spec z 0) as [Ez|Hne].
  { apply yields_ret. split; [done|]. exists b. split; [done|]. split; [done|]. change (z <= available L (addr u) b /\ ledger s1 (burned L u b z)).
    split; [lia|]. unfold burned. by rewrite Ez. }
  pose proof (sound_supply_u L Hsound) as Hsu. pose proof (sound_fits L Hsound) as Hfit. apply yields_ok_or.
  unfold checked_sub, checked. case_decide as Hd; [|by split].
  assert (z <= available L (addr u) b) as Hle by (destruct Hd; lia).
  eapply yields_call; [eapply yields_map_err, (law_write s1 L u (available L (addr u) b - z) HL1); [by rewrite Eb|done]|].
  intros r s2 (r2 & (HL2 & E2 & ->) & ->). cbn [map_err]. unfold payment_reduce_total_supply.
  assert (same_env s s2) as E02 by (by etrans).
  eapply yields_impl; [eapply yields_map_err, (reduce_exact blake2b ledger s2 _ z HL2)|].
  - by rewrite (same_caller s s2 E02).
  - done.
  - done.
  - cbn. lia.
  - intros r s3 (r3 & (E3 & HL3 & ->) & ->). split; [by etrans|]. exists b. split; [done|]. split; [done|].
    change (z <= available L (addr u) b /\ ledger s3 (burned L u b z)). split; [done|]. unfold burned. rewrite (proj2 (Z.eqb_neq z 0) Hne). done.
Qed.

(** C19: burning a payment: only the system can do it, it takes the amount off the supply,
    and what it leaves in the purse is what was available less that amount.  The books
    balance afterwards exactly when nothing was held in the purse: otherwise the
    held part is gone from the balances while the supply still counts it. *)
Theorem payment_burn_books s L u amount :
  ledger s L -> sound L -> (forall z, amount = Some z -> 0 <= z) ->
  yields (payment_burn blake2b u amount) s (fun r s' => same_env s s' /\
    match r with
    | Ok _ => exists b L', purses L !! addr u = Some b /\ get_caller s = system_account blake2b /\ ledger s' L' /\
        let z := default (available L (addr u) b) amount in
        supply L' = supply L - z /\
        (z = 0 \/ purses L' !! addr u = Some (available L (addr u) b - z) /\
                  supply L' - balances (purses L') = b - available L (addr u) b)
    | Err _ => ledger s' L
    | _ => False
    end).
Proof.
  intros HL Hsound Hz. eapply yields_impl; [by apply payment_burn_ok|]. intros r s' [E Hr]. split; [done|].
  destruct r as [[]| | |]; try done. destruct Hr as (b & Eb & Hc & Hle & HL'). eexists b, _. split; [done|]. split; [done|]. split; [exact HL'|].
  unfold burned. destruct (Z.eqb_spec (default (available L (addr u) b) amount) 0) as [->|Hne]; [split; [lia|by left]|].
  cbn. split; [done|]. right. rewrite lookup_insert_eq. split; [done|]. rewrite (balances_set _ _ b), (sound_supply L Hsound) by done. lia.
Qed.
End burn.

(** ** A concrete burn *)

#[local] Existing Instances contracts_bid_repr contracts_package_repr one_address user_mint user_laws.
Definition system_runtime : RuntimeNative contracts :=
  mkRuntime contracts Unadministered 0 (Id_Seed []) tt (tracking_copy contracts user_runtime) (system_account some_hash_fn)
    [(TOTAL_SUPPLY_KEY, Key_URef supply_uref)] None (ContextAccessRights_new zeros [supply_uref]) 50 [] P_FinalizePayment.
Lemma system_rep_holds : user_rep system_runtime user_ledger.
Proof. destruct user_rep_holds as (M & Hc & Hr). exists M. split; [exact Hc|]. by destruct Hr; split. Qed.

(** All that is available is burned, and the 20 motes that were held are lost. *)
Lemma payment_burn_books_witness :
  exists s L, payment_burn some_hash_fn main_purse_uref None system_runtime = (Ok (), s) /\ user_rep s L /\
    supply L = 40 /\ purses L !! zeros = Some 0 /\ supply L - balances (purses L) = 20.
Proof.
  pose proof (payment_burn_books some_hash_fn user_rep system_runtime user_ledger main_purse_uref None system_rep_holds user_ledger_sound) as H.
  unfold yields in H. assert ((payment_burn some_hash_fn main_purse_uref None system_runtime).1 = Ok ()) as E by (vm_compute; reflexivity).
  destruct (payment_burn some_hash_fn main_purse_uref None system_runtime) as [r s]. cbn [fst snd] in H, E. subst r.
  destruct H as (_ & b & L & Hb & _ & HL & Hs & Hp); [done|]. assert (b = 100) as -> by (vm_compute in Hb; congruence).
  change (supply L = 40) in Hs. destruct Hp as [Hp|[Hp Hd]]; [vm_compute in Hp; discriminate Hp|].
  exists s, L. split; [reflexivity|]. split; [exact HL|]. split; [exact Hs|]. split; [exact Hp|exact Hd].
Defined.
