(* ===== verification/Auction.v ===== *)
(** * The auction

    Models [storage/src/system/auction.rs] and [auction/detail.rs]: the trait [Auction] with
    every entry point, over its providers ([auction/providers.rs]), and the weights of
    validators ([types/src/system/auction.rs]). Validators and delegators lock motes in
    bonding purses; the records of BidKinds.v say how much of a purse is staked or waiting to
    be paid out. Log output is left out; unchecked arithmetic on machine integers wraps, as in
    a release build, and arithmetic on [U512] panics on overflow. *)
From S2P Require Import Prelude Effects BTree Bytesrepr Struct Digest PublicKey Uint Units Access CLType Account Key Bids BidKinds Transform Balances Mint.

Open Scope Z_scope.

(** ** Data *)

Definition MAX_BRIDGE_CHAIN_LENGTH : nat := 20.
Definition DELEGATION_RATE_DENOMINATOR : Z := 100.
Definition ERA_ID_KEY : RString := rstring "era_id".
Definition ERA_END_TIMESTAMP_MILLIS_KEY : RString := rstring "era_end_timestamp_millis".
Definition SEIGNIORAGE_RECIPIENTS_SNAPSHOT_KEY : RString := rstring "seigniorage_recipients_snapshot".
Definition VALIDATOR_SLOTS_KEY : RString := rstring "validator_slots".
Definition AUCTION_DELAY_KEY : RString := rstring "auction_delay".
Definition UNBONDING_DELAY_KEY : RString := rstring "unbonding_delay".

#[global] Instance EraId_ord : TotalOrd EraId := ord_by era_value.

(** The errors of [ApiError] that the auction returns; the codes of the errors of a contract
    stand for the errors. *)
Inductive ApiError : Type := Api_AuctionError (e : AuctionError) | Api_Mint (e : MintError) | InvalidDelegationAmountLimits.

(** [num_rational::Ratio] of unsigned integers of a width: [None] is a panic, and the checked
    operations return an option. *)
Class RatioArith : Type := {
  ratio_new : Z -> Z -> Z -> option (Z * Z);
  ratio_mul : Z -> Z * Z -> Z * Z -> option (Z * Z);
  ratio_sub : Z -> Z * Z -> Z * Z -> option (Z * Z);
  ratio_checked_times : Z -> Z * Z -> Z * Z -> option (option (Z * Z));
  ratio_checked_minus : Z -> Z * Z -> Z * Z -> option (option (Z * Z))
}.

Section types.
Context {C : Curves}.
Abbreviation ValidatorWeights := (list (PublicKey * Z)).
Abbreviation SeigniorageRecipients := (list (PublicKey * SeigniorageRecipientV2)).
Abbreviation Snapshot := (list (EraId * SeigniorageRecipients)).

(** [StorageProvider], [RuntimeProvider], [MintProvider] and [AccountProvider]; [read] and
    [write] at the types they are used at. *)
Class AuctionProvider (S : Type) : Type := {
  auction_caller : S -> AccountHash;
  is_allowed_session_caller : S -> AccountHash -> bool;
  auction_valid_uref : S -> URef -> bool;
  named_keys_get : S -> RString -> option Key;
  get_keys : KeyTag -> st S AuctionError (list Key);
  get_keys_by_prefix : list u8 -> st S AuctionError (list Key);
  delegator_count : BidAddr -> st S AuctionError Z;
  reservation_count : BidAddr -> st S AuctionError Z;
  used_reservation_count : BidAddr -> st S AuctionError Z;
  vesting_schedule_period_millis : S -> Z;
  allow_auction_bids : S -> bool;
  read_number : num -> URef -> st S AuctionError (option Z);
  write_number : num -> URef -> Z -> st S AuctionError ();
  read_snapshot : URef -> st S AuctionError (option Snapshot);
  write_snapshot : URef -> Snapshot -> st S AuctionError ();
  read_bid : Key -> st S AuctionError (option BidKind);
  write_bid : Key -> BidKind -> st S AuctionError ();
  read_unbond : BidAddr -> st S AuctionError (option Unbond);
  write_unbond : BidAddr -> option Unbond -> st S AuctionError ();
  record_era_info : EraInfo -> st S AuctionError ();
  prune_bid : BidAddr -> S -> S;
  unbond : UnbondKind -> UnbondEra -> st S AuctionError ();
  mint_transfer_direct : option AccountHash -> URef -> URef -> Z -> option Z -> st S AuctionError (result MintError ());
  auction_mint_into : Z -> URef -> st S AuctionError ();
  create_purse : st S AuctionError URef;
  auction_available_balance : URef -> st S AuctionError (option Z);
  auction_reduce_total_supply : Z -> st S AuctionError ();
  auction_main_purse : S -> result AuctionError URef
}.

(** Equality of public keys, by their encodings. *)
Definition same_key (a b : PublicKey) : bool :=
  bool_decide (asymmetric_tag _ _ a = asymmetric_tag _ _ b) && bool_decide (asymmetric_into _ _ a = asymmetric_into _ _ b).

(** ** The weights of validators *)

Record WeightsBreakout : Type := mkWeightsBreakout {
  locked : ValidatorWeights;
  unlocked_meets_min : ValidatorWeights;
  unlocked_below_min : ValidatorWeights
}.
Definition register (w : WeightsBreakout) (public_key : PublicKey) (weight : Z) (is_locked meets_minimum : bool) : WeightsBreakout :=
  if is_locked then mkWeightsBreakout (btree_insert public_key weight (locked w)) (unlocked_meets_min w) (unlocked_below_min w)
  else if meets_minimum then mkWeightsBreakout (locked w) (btree_insert public_key weight (unlocked_meets_min w)) (unlocked_below_min w)
  else mkWeightsBreakout (locked w) (unlocked_meets_min w) (btree_insert public_key weight (unlocked_below_min w)).

(** [sort_by(|(_, lhs), (_, rhs)| rhs.cmp(lhs))], which is stable. *)
Fixpoint insert_by_weight (p : PublicKey * Z) (l : ValidatorWeights) : ValidatorWeights :=
  match l with
  | [] => [p]
  | q :: l => if q.2 <=? p.2 then p :: q :: l else q :: insert_by_weight p l
  end.
Definition sort_by_weight (l : ValidatorWeights) : ValidatorWeights := foldr insert_by_weight [] l.

Definition take_winners (w : WeightsBreakout) (validator_slots threshold : nat) : ValidatorWeights :=
  let locked_count := length (locked w) in
  if (validator_slots <=? locked_count)%nat then locked w else
  let remaining_auction_slots := (validator_slots - locked_count)%nat in
  let unlocked_hi := sort_by_weight (unlocked_meets_min w) in
  let combined_count := (length unlocked_hi + locked_count)%nat in
  if (length (unlocked_below_min w) =? 0)%nat || (remaining_auction_slots <=? length unlocked_hi)%nat || (threshold <=? combined_count)%nat
  then btree_collect (locked w ++ take remaining_auction_slots unlocked_hi)
  else
    let backfill_count := (threshold - combined_count)%nat in
    btree_collect (locked w ++ take remaining_auction_slots unlocked_hi ++ take backfill_count (sort_by_weight (unlocked_below_min w))).

(** ** Updates of the records *)

Definition vb_set_inactive (b : ValidatorBid) (inactive : bool) : ValidatorBid :=
  mkValidatorBid (vb_validator b) (vb_bonding_purse b) (vb_staked_amount b) (vb_delegation_rate b) (vb_vesting b) inactive
    (vb_minimum_delegation_amount b) (vb_maximum_delegation_amount b) (vb_reserved_slots b).
Definition activate (b : ValidatorBid) : ValidatorBid := vb_set_inactive b false.
Definition deactivate (b : ValidatorBid) : ValidatorBid := vb_set_inactive b true.
Definition with_delegation_rate (b : ValidatorBid) (rate : Z) : ValidatorBid :=
  mkValidatorBid (vb_validator b) (vb_bonding_purse b) (vb_staked_amount b) rate (vb_vesting b) (vb_inactive b)
    (vb_minimum_delegation_amount b) (vb_maximum_delegation_amount b) (vb_reserved_slots b).
Definition set_delegation_amount_boundaries (b : ValidatorBid) (minimum maximum : Z) : ValidatorBid :=
  mkValidatorBid (vb_validator b) (vb_bonding_purse b) (vb_staked_amount b) (vb_delegation_rate b) (vb_vesting b) (vb_inactive b)
    minimum maximum (vb_reserved_slots b).
Definition with_reserved_slots (b : ValidatorBid) (slots : Z) : ValidatorBid :=
  mkValidatorBid (vb_validator b) (vb_bonding_purse b) (vb_staked_amount b) (vb_delegation_rate b) (vb_vesting b) (vb_inactive b)
    (vb_minimum_delegation_amount b) (vb_maximum_delegation_amount b) slots.
Definition vb_with_validator (b : ValidatorBid) (k : PublicKey) : ValidatorBid :=
  mkValidatorBid k (vb_bonding_purse b) (vb_staked_amount b) (vb_delegation_rate b) (vb_vesting b) (vb_inactive b)
    (vb_minimum_delegation_amount b) (vb_maximum_delegation_amount b) (vb_reserved_slots b).
Definition vb_with_vesting (b : ValidatorBid) (v : option VestingSchedule) : ValidatorBid :=
  mkValidatorBid (vb_validator b) (vb_bonding_purse b) (vb_staked_amount b) (vb_delegation_rate b) v (vb_inactive b)
    (vb_minimum_delegation_amount b) (vb_maximum_delegation_amount b) (vb_reserved_slots b).
Definition db_with_validator (d : DelegatorBid) (k : PublicKey) : DelegatorBid :=
  mkDelegatorBid (db_kind d) (db_staked_amount d) (db_bonding_purse d) k (db_vesting d).
Definition db_with_vesting (d : DelegatorBid) (v : option VestingSchedule) : DelegatorBid :=
  mkDelegatorBid (db_kind d) (db_staked_amount d) (db_bonding_purse d) (db_validator d) v.
Definition rs_with_validator (r : Reservation) (k : PublicKey) : Reservation := mkReservation (rs_kind r) k (rs_delegation_rate r).
(** [ValidatorBid::unlocked] and [DelegatorBid::unlocked] *)
Definition validator_unlocked (k : PublicKey) (purse : URef) (staked rate minimum maximum slots : Z) : ValidatorBid :=
  mkValidatorBid k purse staked rate None false minimum maximum slots.
Definition delegator_unlocked (kind : DelegatorKind) (staked : Z) (purse : URef) (validator : PublicKey) : DelegatorBid :=
  mkDelegatorBid kind staked purse validator None.

(** [target_unbond_era_mut]: the position of the last of the latest eras. *)
Definition target_position (eras : list UnbondEra) : option (nat * UnbondEra) :=
  foldl (fun best y =>
    match best with
    | None => Some y
    | Some x => Some (if era_value (ue_era_of_creation y.2) <? era_value (ue_era_of_creation x.2) then x else y)
    end) None (imap pair eras).
Definition with_amount (e : UnbondEra) (amount : Z) : UnbondEra :=
  mkUnbondEra (ue_bonding_purse e) (ue_era_of_creation e) amount (ue_new_validator e).
(** The unbond with an amount added to its target era, and the purse of the era. *)
Definition add_to_target (u : Unbond) (amount : Z) : option (URef * Unbond) :=
  match target_position (ub_eras u) with
  | Some (i, e) =>
      Some (ue_bonding_purse e,
        mkUnbond (ub_validator u) (ub_kind u) (<[i := with_amount e (saturating_add 512 (ue_amount e) amount)]> (ub_eras u)))
  | None => None
  end.

(** ** Bids of all validators *)

Record ValidatorBidsDetail : Type := mkValidatorBidsDetail {
  validator_bids : list (PublicKey * ValidatorBid);
  validator_credits : list (PublicKey * list (EraId * ValidatorCredit));
  delegator_bids : list (PublicKey * list DelegatorBid);
  detail_reservations : list (PublicKey * list Reservation)
}.
Definition detail_new : ValidatorBidsDetail := mkValidatorBidsDetail [] [] [] [].
Definition insert_bid (d : ValidatorBidsDetail) (validator : PublicKey) (validator_bid : ValidatorBid) (delegators : list DelegatorBid)
    (reservations : list Reservation) : ValidatorBidsDetail :=
  mkValidatorBidsDetail (btree_insert validator validator_bid (validator_bids d)) (validator_credits d)
    (btree_insert validator delegators (delegator_bids d)) (btree_insert validator reservations (detail_reservations d)).
Definition insert_credit (d : ValidatorBidsDetail) (validator : PublicKey) (era_id : EraId) (credit : ValidatorCredit) : ValidatorBidsDetail :=
  let inner := default [] (btree_get validator (validator_credits d)) in
  let inner := match btree_get era_id inner with Some _ => inner | None => btree_insert era_id credit inner end in
  mkValidatorBidsDetail (validator_bids d) (btree_insert validator inner (validator_credits d)) (delegator_bids d) (detail_reservations d).
Definition set_bids (d : ValidatorBidsDetail) (l : list (PublicKey * ValidatorBid)) : ValidatorBidsDetail :=
  mkValidatorBidsDetail l (validator_credits d) (delegator_bids d) (detail_reservations d).
End types.
Abbreviation ValidatorWeights := (list (PublicKey * Z)).
Abbreviation SeigniorageRecipients := (list (PublicKey * SeigniorageRecipientV2)).
Abbreviation Snapshot := (list (EraId * SeigniorageRecipients)).

Section weights.
Context {C : Curves} {R : RatioArith}.

Definition credit_amount (d : ValidatorBidsDetail) (validator : PublicKey) (era_ending : EraId) (staked_amount : Z) (include_credit : bool)
    (cap : Z * Z) : result AuctionError Z :=
  if negb include_credit then Ok 0 else
  match (inner ← btree_get validator (validator_credits d); btree_get era_ending inner) with
  | Some credit => capped ← expect (ratio_mul 512 (staked_amount, 1) cap); Ok (Z.min (vc_amount credit) (to_integer capped))
  | None => Ok 0
  end.

(** [!v.staked_amount() >= U512::one()]: the complement of the stake is compared. *)
Definition takes_part (b : ValidatorBid) : bool := negb (vb_inactive b) && (1 <=? u_max 512 - vb_staked_amount b).
Definition register_bid (d : ValidatorBidsDetail) (era_ending : EraId) (timestamp period min_bid : Z) (include_credits : bool) (cap : Z * Z)
    (w : WeightsBreakout) (p : PublicKey * ValidatorBid) : result AuctionError WeightsBreakout :=
  let '(validator, bid) := p in
  let meets_minimum := min_bid <=? vb_staked_amount bid in
  staked_amount ← match btree_get validator (delegator_bids d) with
                  | Some delegators =>
                      sum ← u512_sum (db_staked_amount <$> delegators);
                      ok_or (checked_add 512 (vb_staked_amount bid) sum) InvalidAmount
                  | None => Ok (vb_staked_amount bid)
                  end;
  credit ← credit_amount d validator era_ending staked_amount include_credits cap;
  let total := saturating_add 512 staked_amount credit in
  is_locked ← is_locked_with_vesting_schedule (vb_vesting bid) timestamp period;
  Ok (register w validator total is_locked meets_minimum).
Definition validator_weights_breakout (d : ValidatorBidsDetail) (era_ending : EraId) (timestamp period min_bid : Z) (include_credits : bool)
    (cap : Z * Z) : result AuctionError WeightsBreakout :=
  foldl (fun acc p => w ← acc; register_bid d era_ending timestamp period min_bid include_credits cap w p)
    (Ok (mkWeightsBreakout [] [] [])) (filter (fun p => takes_part p.2 = true) (validator_bids d)).
(** Three quarters of the slots. *)
Definition safety_threshold (validator_slots : nat) : result AuctionError nat :=
  quarters ← expect (ratio_new 64 3 4);
  slots ← expect (ratio_new 64 (Z.of_nat validator_slots) 1);
  r ← expect (ratio_mul 64 quarters slots);
  Ok (Z.to_nat (to_integer r)).
Definition pick_winners (d : ValidatorBidsDetail) (era_id : EraId) (validator_slots : nat) (min_bid : Z) (include_credits : bool) (cap : Z * Z)
    (timestamp period : Z) : result AuctionError ValidatorWeights :=
  threshold ← safety_threshold validator_slots;
  breakout ← validator_weights_breakout d era_id timestamp period min_bid include_credits cap;
  Ok (take_winners breakout validator_slots threshold).

Definition recipient_of (validator_bids : list (PublicKey * ValidatorBid)) (delegator_bids : list (PublicKey * list DelegatorBid))
    (reservations : list (PublicKey * list Reservation)) (p : PublicKey * Z) : result AuctionError (PublicKey * SeigniorageRecipientV2) :=
  let '(validator, total_weight) := p in
  bid ← ok_or (btree_get validator validator_bids) ValidatorNotFound;
  let delegators := filter (fun d => db_staked_amount d <> 0) (default [] (btree_get validator delegator_bids)) in
  let delegators_weight := foldl (fun acc d => saturating_add 512 acc (db_staked_amount d)) 0 delegators in
  let delegators_stake := foldl (fun m d => btree_insert (db_kind d) (db_staked_amount d) m) [] delegators in
  let rates := foldl (fun m r => btree_insert (rs_kind r) (rs_delegation_rate r) m) [] (default [] (btree_get validator reservations)) in
  Ok (validator, mkRecipientV2 (saturating_sub total_weight delegators_weight) (vb_delegation_rate bid) delegators_stake rates).
Definition seigniorage_recipients (weights : ValidatorWeights) (validator_bids : list (PublicKey * ValidatorBid))
    (delegator_bids : list (PublicKey * list DelegatorBid)) (reservations : list (PublicKey * list Reservation)) : result AuctionError SeigniorageRecipients :=
  foldl (fun acc p => m ← acc; '(k, r) ← recipient_of validator_bids delegator_bids reservations p; Ok (btree_insert k r m)) (Ok []) weights.
Definition era_validators_from_snapshot (snapshot : Snapshot) : list (EraId * ValidatorWeights) :=
  (fun '(era_id, recipients) =>
    (era_id, btree_collect (omap (fun '(k, r) => (fun stake => (k, stake)) <$> r2_total_stake r) recipients))) <$> snapshot.

(** ** Rewards *)

Record RewardsPerValidator : Type := mkRewards { validator_reward : Z; delegator_rewards : list (DelegatorKind * Z) }.

Definition recipient_rate (r : SeigniorageRecipient) : Z := match r with SR_V1 r => r1_delegation_rate r | SR_V2 r => r2_delegation_rate r end.
Definition recipient_rates (r : SeigniorageRecipient) : list (DelegatorKind * Z) :=
  match r with SR_V1 _ => [] | SR_V2 r => r2_reservation_delegation_rates r end.
Definition recipient_delegator_total (r : SeigniorageRecipient) : option Z :=
  match r with SR_V1 r => r1_delegator_total_stake r | SR_V2 r => r2_delegator_total_stake r end.
Definition snapshot_recipient (snapshot : list (EraId * list (PublicKey * SeigniorageRecipientV1)) + Snapshot) (era : EraId) (validator : PublicKey) :
    result AuctionError (option SeigniorageRecipient) :=
  match snapshot with
  | inl v1 => recipients ← ok_or (btree_get era v1) MissingSeigniorageRecipients; Ok (SR_V1 <$> btree_get validator recipients)
  | inr v2 => recipients ← ok_or (btree_get era v2) MissingSeigniorageRecipients; Ok (SR_V2 <$> btree_get validator recipients)
  end.

(** The reward of one delegator: the share of the stake less the commission. *)
Definition delegator_reward (base_delegators_part : Z * Z) (delegator_total_stake : Z) (rate stake : Z) : result AuctionError Z :=
  reward_multiplier ← expect (ratio_new 512 stake delegator_total_stake);
  base_reward ← expect (ratio_mul 512 base_delegators_part reward_multiplier);
  commission_rate ← expect (ratio_new 512 rate DELEGATION_RATE_DENOMINATOR);
  commission ← expect (ratio_checked_times 512 base_reward commission_rate);
  commission ← ok_or commission AE_ArithmeticOverflow;
  reward ← expect (ratio_checked_minus 512 base_reward commission);
  reward ← ok_or reward AE_ArithmeticOverflow;
  Ok (to_integer reward).
Definition split_reward (total_reward : Z * Z) (recipient : SeigniorageRecipient) : result AuctionError RewardsPerValidator :=
  total_stake ← ok_or (recipient_total_stake recipient) AE_ArithmeticOverflow;
  if total_stake =? 0 then Ok (mkRewards (to_integer total_reward) []) else
  delegator_total_stake ← ok_or (recipient_delegator_total recipient) AE_ArithmeticOverflow;
  reward_multiplier ← expect (ratio_new 512 delegator_total_stake total_stake);
  base ← expect (ratio_checked_times 512 total_reward reward_multiplier);
  base_delegators_part ← ok_or base AE_ArithmeticOverflow;
  rewards ← foldl (fun acc '(kind, stake) =>
              m ← acc;
              let rate := default (recipient_rate recipient) (btree_get kind (recipient_rates recipient)) in
              reward ← delegator_reward base_delegators_part delegator_total_stake rate stake;
              Ok (btree_insert kind reward m)) (Ok []) (recipient_delegator_stake recipient);
  total_delegator_payout ← u512_sum rewards.*2;
  rest ← expect (ratio_sub 512 total_reward (total_delegator_payout, 1));
  Ok (mkRewards (to_integer rest) rewards).

(** One round of the loop of [rewards_per_validator]; [None] is [continue]. *)
Definition reward_of_era (validator : PublicKey) (era_id : EraId)
    (snapshot : list (EraId * list (PublicKey * SeigniorageRecipientV1)) + Snapshot) (rewards_ratio : Z * Z) (reward_amount eras_back : Z) :
    result AuctionError (option RewardsPerValidator) :=
  one ← expect (ratio_new 512 100 100);
  factor ← expect (ratio_sub 512 one rewards_ratio);
  total_reward ← expect (ratio_mul 512 (reward_amount, 1) factor);
  rewarded_era ← ok_or (era_checked_sub era_id eras_back) MissingSeigniorageRecipients;
  recipient ← snapshot_recipient snapshot rewarded_era validator;
  match recipient with
  | None => if reward_amount =? 0 then Ok None else Err ValidatorNotFound
  | Some recipient => r ← split_reward total_reward recipient; Ok (Some r)
  end.
Definition rewards_per_validator (validator : PublicKey) (era_id : EraId) (rewards : list Z)
    (snapshot : list (EraId * list (PublicKey * SeigniorageRecipientV1)) + Snapshot) (rewards_ratio : Z * Z) : result AuctionError (list RewardsPerValidator) :=
  foldl (fun acc p =>
      results ← acc;
      r ← reward_of_era validator era_id snapshot rewards_ratio p.2 p.1;
      Ok (results ++ option_list r))
    (Ok []) (filter (fun p => p.2 <> 0 \/ p.1 = 0) (imap (fun i amount => (Z.of_nat i, amount)) rewards)).
(** [reward] *)
Definition total_reward_of (validator : PublicKey) (delegator : option DelegatorKind) (era_id : EraId) (rewards : list Z)
    (snapshot : list (EraId * list (PublicKey * SeigniorageRecipientV1)) + Snapshot) (rewards_ratio : Z * Z) : result AuctionError (option Z) :=
  ratio ← expect (ratio_new 512 rewards_ratio.1 rewards_ratio.2);
  match rewards_per_validator validator era_id rewards snapshot ratio with
  | Ok rs =>
      sum ← u512_sum ((fun r => match delegator with
                                | Some kind => default 0 (btree_get kind (delegator_rewards r))
                                | None => validator_reward r
                                end) <$> rs);
      Ok (Some sum)
  | Err ValidatorNotFound | Err MissingSeigniorageRecipients => Ok None
  | Err e => Err e
  | Panic => Panic
  | Diverge => Diverge
  end.
End weights.

(** ** Loops over the state *)

Section loops.
Context {S E : Type}.

Fixpoint iterate {A} (l : list A) (f : A -> st S E ()) : st S E () :=
  match l with
  | [] => mret ()
  | a :: l => _ ← f a; iterate l f
  end.
Fixpoint collect {A B} (l : list A) (f : A -> st S E B) : st S E (list B) :=
  match l with
  | [] => mret []
  | a :: l => b ← f a; bs ← collect l f; mret (b :: bs)
  end.
Fixpoint accumulate {A B} (l : list A) (f : B -> A -> st S E B) (b : B) : st S E B :=
  match l with
  | [] => mret b
  | a :: l => b ← f b a; accumulate l f b
  end.
(** Looking at the result of a call. *)
Definition attempt {F A} (m : st S E A) : st S F (result E A) := fun s =>
  match m s with
  | (Ok a, s) => (Ok (Ok a), s)
  | (Err e, s) => (Ok (Err e), s)
  | (Panic, s) => (Panic, s)
  | (Diverge, s) => (Diverge, s)
  end.
End loops.

Inductive DistributeTarget `{Curves} : Type :=
| DT_Validator (b : ValidatorBid)
| DT_BridgedValidator (requested current : BidAddr) (bridged : list BidAddr) (b : ValidatorBid)
| DT_Delegator (b : DelegatorBid)
| DT_Unbond (u : Unbond).

Inductive UnbondRedelegationOutcome : Type :=
| Withdrawal | SuccessfullyRedelegated | NonexistantRedelegationTarget | RedelegationTargetHasNoVacancy
| RedelegationTargetIsUnstaked | DelegationAmountBelowCap | DelegationAmountAboveCap.

Inductive RewardsHandling : Type := RH_Standard | RH_Sustain (ratio : Z * Z).

Section auction.
Context {C : Curves} (blake2b : list u8 -> vec u8 32) {R : RatioArith}.
Context {S : Type} {P : AuctionProvider S}.
Abbreviation M := (st S AuctionError).
Abbreviation A := (st S ApiError).
Abbreviation hash_of := (to_account_hash blake2b).
Abbreviation system := (system_account blake2b).

(** [?] on an error of the auction where an [ApiError] is returned. *)
Definition api {T} (m : M T) : A T := st_map_err Api_AuctionError m.
Definition serialized {T} (r : result Error T) : M T := lift (map_err (fun _ => AE_Serialization) r).
Definition add_u512 (a b : Z) : M Z := lift (expect (checked_add 512 a b)).

(** *** Addresses *)

Definition validator_addr (k : PublicKey) : BidAddr := BA_Validator (hash_of k).
Definition new_delegator_kind_relaxed (validator : AccountHash) (kind : DelegatorKind) : BidAddr :=
  match kind with
  | DK_PublicKey k => BA_DelegatedAccount validator (hash_of k)
  | DK_Purse a => BA_DelegatedPurse validator a
  end.
Definition new_delegator_kind (validator : PublicKey) (kind : DelegatorKind) : BidAddr := new_delegator_kind_relaxed (hash_of validator) kind.
Definition new_delegator_unbond_relaxed (validator : AccountHash) (kind : DelegatorKind) : BidAddr :=
  match kind with
  | DK_PublicKey k => BA_UnbondAccount validator (hash_of k)
  | DK_Purse a => BA_UnbondPurse validator a
  end.
Definition new_reservation_kind (validator : PublicKey) (kind : DelegatorKind) : BidAddr :=
  match kind with
  | DK_PublicKey k => BA_ReservedDelegationAccount (hash_of validator) (hash_of k)
  | DK_Purse a => BA_ReservedDelegationPurse (hash_of validator) a
  end.
(** The address of the unbonds of an unbonder with a validator. *)
Definition unbond_addr (validator : PublicKey) (kind : UnbondKind) : BidAddr :=
  match kind with
  | UK_Validator k | UK_DelegatedPublicKey k => BA_UnbondAccount (hash_of validator) (hash_of k)
  | UK_DelegatedPurse a => BA_UnbondPurse (hash_of validator) a
  end.

(** *** Named values *)

Definition named_uref (name : RString) : M URef :=
  key ← asks (fun s => named_keys_get s name);
  key ← lift (ok_or key AE_MissingKey);
  lift (ok_or (into_uref key) InvalidKeyVariant).
Definition read_from {T} (read : URef -> M (option T)) (name : RString) : M T :=
  uref ← named_uref name;
  value ← read uref;
  lift (ok_or value MissingValue).
Definition write_to {T} (write : URef -> T -> M ()) (name : RString) (value : T) : M () :=
  uref ← named_uref name;
  write uref value.
Definition get_era_id : M EraId := z ← read_from (read_number U64) ERA_ID_KEY; mret (mkEraId z).
Definition set_era_id (e : EraId) : M () := write_to (write_number U64) ERA_ID_KEY (era_value e).
Definition get_era_end_timestamp_millis : M Z := read_from (read_number U64) ERA_END_TIMESTAMP_MILLIS_KEY.
Definition set_era_end_timestamp_millis (t : Z) : M () := write_to (write_number U64) ERA_END_TIMESTAMP_MILLIS_KEY t.
Definition get_seigniorage_recipients_snapshot : M Snapshot := read_from read_snapshot SEIGNIORAGE_RECIPIENTS_SNAPSHOT_KEY.
Definition set_seigniorage_recipients_snapshot (snapshot : Snapshot) : M () := write_to write_snapshot SEIGNIORAGE_RECIPIENTS_SNAPSHOT_KEY snapshot.
Definition get_validator_slots : M nat := z ← read_from (read_number U32) VALIDATOR_SLOTS_KEY; mret (Z.to_nat z).
Definition get_auction_delay : M Z := read_from (read_number U64) AUCTION_DELAY_KEY.
Definition get_unbonding_delay : M Z := read_from (read_number U64) UNBONDING_DELAY_KEY.

(** *** Reading bids *)

Definition read_validator_bid (key : Key) : M ValidatorBid :=
  _ ← fail_if (negb (is_bid_addr_key key)) InvalidKeyVariant;
  b ← read_bid key;
  match b with Some (BK_Validator b) => mret b | _ => throw ValidatorNotFound end.
Definition read_delegator_bid (key : Key) : M DelegatorBid :=
  _ ← fail_if (negb (is_bid_addr_key key)) InvalidKeyVariant;
  b ← read_bid key;
  match b with Some (BK_Delegator b) => mret b | _ => throw DelegatorNotFound end.
Definition read_reservation_bid (key : Key) : M Reservation :=
  _ ← fail_if (negb (is_bid_addr_key key)) InvalidKeyVariant;
  b ← read_bid key;
  match b with Some (BK_Reservation r) => mret r | _ => throw ReservationNotFound end.
(** The loop of [read_current_validator_bid] along the bridges. *)
Fixpoint follow_bridges (n : nat) (key : Key) : M ValidatorBid :=
  match n with
  | O => throw ValidatorNotFound
  | Datatypes.S n =>
      b ← read_bid key;
      match b with
      | Some (BK_Validator b) => mret b
      | Some (BK_Bridge b) => follow_bridges n (Key_BidAddr (validator_addr (br_new b)))
      | _ => throw ValidatorNotFound
      end
  end.
Definition read_current_validator_bid (key : Key) : M ValidatorBid :=
  _ ← fail_if (negb (is_bid_addr_key key)) InvalidKeyVariant;
  follow_bridges MAX_BRIDGE_CHAIN_LENGTH key.

(** The keys under two prefixes. *)
Definition keys_under (prefix1 prefix2 : BidAddr -> result Error (list u8)) (validator : PublicKey) : M (list Key) :=
  let addr := validator_addr validator in
  p1 ← serialized (prefix1 addr);
  k1 ← get_keys_by_prefix p1;
  p2 ← serialized (prefix2 addr);
  k2 ← get_keys_by_prefix p2;
  mret (k1 ++ k2).
(** [read_delegator_bids] and [delegators] *)
Definition read_delegator_bids (validator : PublicKey) : M (list DelegatorBid) :=
  keys ← keys_under delegated_account_prefix delegated_purse_prefix validator;
  collect keys read_delegator_bid.
(** [read_reservation_bids] and [reservations] *)
Definition read_reservation_bids (validator : PublicKey) : M (list Reservation) :=
  keys ← keys_under reserved_account_prefix reserved_purse_prefix validator;
  collect keys read_reservation_bid.
Definition has_reservation (kind : DelegatorKind) (validator : PublicKey) : M bool :=
  b ← read_bid (Key_BidAddr (new_reservation_kind validator kind));
  mret (match b with Some (BK_Reservation _) => true | _ => false end).

Definition get_validator_bids (era_id : EraId) : M ValidatorBidsDetail :=
  keys ← get_keys KT_BidAddr;
  accumulate keys (fun d key =>
    b ← read_bid key;
    match b with
    | Some (BK_Validator b) =>
        delegators ← read_delegator_bids (vb_validator b);
        reservations ← read_reservation_bids (vb_validator b);
        mret (insert_bid d (vb_validator b) b delegators reservations)
    | Some (BK_Credit c) => mret (insert_credit d (vc_validator c) era_id c)
    | Some _ => mret d
    | None => throw ValidatorNotFound
    end) detail_new.
Definition set_validator_bids (bids : list (PublicKey * ValidatorBid)) : M () :=
  iterate bids (fun p => write_bid (Key_BidAddr (validator_addr p.1)) (BK_Validator p.2)).
Definition prune_validator_credits (era_ending : EraId) (credits : list (PublicKey * list (EraId * ValidatorCredit))) : M () :=
  iterate credits (fun p =>
    match btree_get era_ending p.2 with
    | Some _ => modify (prune_bid (BA_Credit (hash_of p.1) era_ending))
    | None => mret ()
    end).

(** The unbonds under a prefix; errors of a read are only logged. [BTreeMap<BidAddr, Unbond>]
    is ordered as the keys are. *)
Definition read_unbonds (keys : list Key) : M (list (BidAddr * Unbond)) :=
  accumulate keys (fun l key =>
    match key with
    | Key_BidAddr bid_addr =>
        r ← attempt (read_bid key);
        mret (match r with Ok (Some (BK_Unbond u)) => l ++ [(bid_addr, u)] | _ => l end)
    | _ => mret l
    end) [].
Definition get_unbonding_purses : M (list (BidAddr * Unbond)) :=
  k1 ← get_keys_by_prefix [KeyTag_to_u8 KT_BidAddr; Byte.x07];
  l1 ← read_unbonds k1;
  k2 ← get_keys_by_prefix [KeyTag_to_u8 KT_BidAddr; Byte.x08];
  l2 ← read_unbonds k2;
  mret (l1 ++ l2).

(** *** Unbonding *)

Definition create_unbonding_purse (validator : PublicKey) (kind : UnbondKind) (bonding_purse : URef) (amount : Z) (new_validator : option PublicKey) : M () :=
  available ← auction_available_balance bonding_purse;
  _ ← fail_if (default 0 available <? amount) UnbondTooLarge;
  era_of_creation ← get_era_id;
  let bid_addr := match kind with
                  | UK_Validator _ => BA_UnbondAccount (hash_of validator) (hash_of validator)
                  | _ => unbond_addr validator kind
                  end in
  let unbond_era := mkUnbondEra bonding_purse era_of_creation amount new_validator in
  existing ← read_unbond bid_addr;
  let eras := match existing with Some u => ub_eras u ++ [unbond_era] | None => [unbond_era] end in
  write_unbond bid_addr (Some (mkUnbond validator kind eras)).

(** [mint_transfer_direct] to a system purse, with the error of the auction and that of the mint. *)
Definition transfer_direct (e : AuctionError) (source target : URef) (amount : Z) : A () :=
  r ← st_map_err (fun _ => Api_AuctionError e) (mint_transfer_direct (Some system) source target amount None);
  lift (map_err Api_Mint r).

Definition handle_delegation (kind : DelegatorKind) (validator : PublicKey) (source : URef) (amount : Z) (max_delegators : Z) : A Z :=
  _ ← fail_if (amount =? 0) (Api_AuctionError BondTooSmall);
  let validator_bid_addr := validator_addr validator in
  validator_bid ← api (read_validator_bid (Key_BidAddr validator_bid_addr));
  let delegator_bid_key := Key_BidAddr (new_delegator_kind validator kind) in
  existing ← api (read_bid delegator_bid_key);
  '(target, delegator_bid) ←
    match existing with
    | Some (BK_Delegator d) =>
        let total_stake := saturating_add 512 amount (db_staked_amount d) in
        _ ← fail_if (vb_maximum_delegation_amount validator_bid <? total_stake) (Api_AuctionError DelegationAmountTooLarge);
        d ← api (lift (delegator_increase_stake d amount));
        mret (db_bonding_purse d, d)
    | _ =>
        _ ← fail_if (amount <? vb_minimum_delegation_amount validator_bid) (Api_AuctionError DelegationAmountTooSmall);
        _ ← fail_if (vb_maximum_delegation_amount validator_bid <? amount) (Api_AuctionError DelegationAmountTooLarge);
        count ← api (delegator_count validator_bid_addr);
        _ ← api (reservation_count validator_bid_addr);
        reserved ← api (has_reservation kind validator);
        _ ← fail_if (((max_delegators - vb_reserved_slots validator_bid) mod 2 ^ 32 <=? count) && negb reserved)
              (Api_AuctionError ExceededDelegatorSizeLimit);
        bonding_purse ← api create_purse;
        mret (bonding_purse, delegator_unlocked kind amount bonding_purse validator)
    end;
  _ ← transfer_direct TransferToDelegatorPurse source target amount;
  _ ← api (write_bid delegator_bid_key (BK_Delegator delegator_bid));
  mret (db_staked_amount delegator_bid).

Definition handle_redelegation (kind : UnbondKind) (era : UnbondEra) (max_delegators : Z) : A UnbondRedelegationOutcome :=
  delegator_kind ← match kind with
                   | UK_Validator _ => throw (Api_AuctionError UnexpectedUnbondVariant)
                   | UK_DelegatedPublicKey k => mret (DK_PublicKey k)
                   | UK_DelegatedPurse a => mret (DK_Purse a)
                   end;
  match ue_new_validator era with
  | None => mret Withdrawal
  | Some public_key =>
      current ← attempt (read_current_validator_bid (Key_BidAddr (validator_addr public_key)));
      match current with
      | Ok validator_bid =>
          r ← attempt (handle_delegation delegator_kind (vb_validator validator_bid) (ue_bonding_purse era) (ue_amount era) max_delegators);
          match r with
          | Ok _ => mret SuccessfullyRedelegated
          | Err (Api_AuctionError BondTooSmall) => mret RedelegationTargetIsUnstaked
          | Err (Api_AuctionError DelegationAmountTooSmall) => mret DelegationAmountBelowCap
          | Err (Api_AuctionError DelegationAmountTooLarge) => mret DelegationAmountAboveCap
          | Err (Api_AuctionError ValidatorNotFound) => mret NonexistantRedelegationTarget
          | Err (Api_AuctionError ExceededDelegatorSizeLimit) => mret RedelegationTargetHasNoVacancy
          | Err e => throw e
          | Panic => lift Panic
          | Diverge => lift Diverge
          end
      | _ => mret NonexistantRedelegationTarget
      end
  end.

(** Paying out one part of an unbond. *)
Definition pay_unbond (kind : UnbondKind) (era : UnbondEra) : A () :=
  st_map_err (fun _ => Api_AuctionError TransferToUnbondingPurse) (unbond kind era).
Definition process_unbond_era (kind : UnbondKind) (max_delegators : Z) (era : UnbondEra) : A () :=
  if unbond_kind_is_validator kind then pay_unbond kind era else
  outcome ← handle_redelegation kind era max_delegators;
  match outcome with
  | SuccessfullyRedelegated => mret ()
  | _ => pay_unbond kind era
  end.
Definition process_unbond (current_era_id : EraId) (unbonding_delay max_delegators : Z) (p : BidAddr * Unbond) : A () :=
  let '(bid_addr, u) := p in
  let '(retained, expired) := expired u current_era_id unbonding_delay in
  _ ← iterate (default [] expired) (process_unbond_era (ub_kind u) max_delegators);
  api (write_unbond bid_addr (match ub_eras retained with [] => None | _ => Some retained end)).
Definition process_unbond_requests (max_delegators : Z) : A () :=
  caller ← asks auction_caller;
  _ ← fail_if (negb (bool_decide (caller = system))) (Api_AuctionError AE_InvalidCaller);
  current_era_id ← api get_era_id;
  unbonding_delay ← api get_unbonding_delay;
  unbonds ← api get_unbonding_purses;
  iterate unbonds (process_unbond current_era_id unbonding_delay max_delegators).

Definition process_undelegation (kind : DelegatorKind) (validator : PublicKey) (amount : Z) (new_validator : option PublicKey) : M Z :=
  allowed ← asks (fun s => match kind with
                           | DK_PublicKey k => is_allowed_session_caller s (hash_of k)
                           | DK_Purse a => auction_valid_uref s (mkURef a WRITE)
                           end);
  _ ← fail_if (negb allowed) AE_InvalidContext;
  _ ← match new_validator with
      | Some k =>
          r ← attempt (read_validator_bid (Key_BidAddr (validator_addr k)));
          match r with
          | Ok _ => mret ()
          | Err ValidatorNotFound => throw RedelegationValidatorNotFound
          | Err e => throw e
          | Panic => lift Panic
          | Diverge => lift Diverge
          end
      | None => mret ()
      end;
  validator_bid ← read_validator_bid (Key_BidAddr (validator_addr validator));
  let delegator_bid_addr := new_delegator_kind validator kind in
  delegator_bid ← read_delegator_bid (Key_BidAddr delegator_bid_addr);
  let bonding_purse := db_bonding_purse delegator_bid in
  let initial_staked_amount := db_staked_amount delegator_bid in
  era_end ← get_era_end_timestamp_millis;
  let unbonding_amount := Z.min amount initial_staked_amount in
  d ← lift (delegator_decrease_stake delegator_bid unbonding_amount era_end);
  '(unbonding_amount, delegator_bid) ←
    if db_staked_amount d <? vb_minimum_delegation_amount validator_bid then
      d ← lift (delegator_decrease_stake d (db_staked_amount d) era_end);
      mret (initial_staked_amount, d)
    else mret (unbonding_amount, d);
  let updated_stake := db_staked_amount delegator_bid in
  _ ← if updated_stake =? 0 then modify (prune_bid delegator_bid_addr)
      else write_bid (Key_BidAddr delegator_bid_addr) (BK_Delegator delegator_bid);
  _ ← if unbonding_amount =? 0 then mret ()
      else create_unbonding_purse validator (unbond_kind_of kind) bonding_purse unbonding_amount new_validator;
  mret updated_stake.

(** *** Changes of a validator's terms *)

(** One round of the loop of [process_updated_delegator_stake_boundaries]. *)
Definition enforce_boundaries (validator : PublicKey) (minimum maximum era_end : Z) (delegator : DelegatorBid) : M () :=
  let staked := db_staked_amount delegator in
  let unbond_amount := if staked <? minimum then staked else if maximum <? staked then saturating_sub staked maximum else 0 in
  if unbond_amount =? 0 then mret () else
  match delegator_decrease_stake delegator unbond_amount era_end with
  | Ok delegator =>
      _ ← create_unbonding_purse validator (delegator_unbond_kind delegator) (db_bonding_purse delegator) unbond_amount None;
      let addr := delegator_bid_addr blake2b delegator in
      if db_staked_amount delegator =? 0 then modify (prune_bid addr)
      else write_bid (Key_BidAddr addr) (BK_Delegator delegator)
  | Err DelegatorFundsLocked => mret ()
  | Err e => throw e
  | Panic => lift Panic
  | Diverge => lift Diverge
  end.
Definition process_updated_delegator_stake_boundaries (b : ValidatorBid) (minimum maximum : Z) : M ValidatorBid :=
  era_end ← get_era_end_timestamp_millis;
  is_locked ← lift (is_locked_with_vesting_schedule (vb_vesting b) era_end VESTING_SCHEDULE_LENGTH_MILLIS);
  _ ← fail_if is_locked VestingLockout;
  let raised_min := vb_minimum_delegation_amount b <? minimum in
  let lowered_max := maximum <? vb_maximum_delegation_amount b in
  let b := set_delegation_amount_boundaries b minimum maximum in
  if negb raised_min && negb lowered_max then mret b else
  delegators ← read_delegator_bids (vb_validator b);
  _ ← iterate delegators (enforce_boundaries (vb_validator b) minimum maximum era_end);
  mret b.
Definition process_updated_delegator_reservation_slots (b : ValidatorBid) (max_delegators reserved_slots : Z) : M ValidatorBid :=
  if reserved_slots =? vb_reserved_slots b then mret b else
  let addr := validator_addr (vb_validator b) in
  reservations ← reservation_count addr;
  _ ← fail_if (reserved_slots <? reservations mod 2 ^ 32) ReservationSlotsCountTooSmall;
  used ← used_reservation_count addr;
  delegators ← delegator_count addr;
  let normal_delegators := saturating_sub delegators used mod 2 ^ 32 in
  let max_reserved_slots := saturating_sub max_delegators normal_delegators in
  _ ← fail_if (max_reserved_slots <? reserved_slots) ExceededReservationSlotsLimit;
  mret (with_reserved_slots b reserved_slots).

(** *** Reservations *)

Definition handle_add_reservation (r : Reservation) (minimum_delegation_rate : Z) : M () :=
  _ ← fail_if (DELEGATION_RATE_DENOMINATOR <? rs_delegation_rate r) DelegationRateTooLarge;
  _ ← fail_if (rs_delegation_rate r <? minimum_delegation_rate) DelegationRateTooSmall;
  let validator_bid_addr := validator_addr (rs_validator r) in
  bid ← read_validator_bid (Key_BidAddr validator_bid_addr);
  let key := Key_BidAddr (new_reservation_kind (rs_validator r) (rs_kind r)) in
  existing ← read_bid key;
  _ ← match existing with
      | Some _ => mret ()
      | None => count ← reservation_count validator_bid_addr; fail_if (vb_reserved_slots bid <=? count) ExceededReservationsLimit
      end;
  write_bid key (BK_Reservation r).
Definition handle_cancel_reservation (validator : PublicKey) (max_delegators : Z) (kind : DelegatorKind) : M () :=
  let validator_bid_addr := validator_addr validator in
  validator_bid ← read_validator_bid (Key_BidAddr validator_bid_addr);
  let reservation_addr := new_reservation_kind validator kind in
  existing ← read_bid (Key_BidAddr reservation_addr);
  _ ← fail_if (bool_decide (existing = None)) ReservationNotFound;
  delegator ← attempt (read_delegator_bid (Key_BidAddr (new_delegator_kind validator kind)));
  _ ← match delegator with
      | Ok _ =>
          delegators ← delegator_count validator_bid_addr;
          used ← used_reservation_count validator_bid_addr;
          let normal_delegators := saturating_sub delegators used in
          let public_slots := saturating_sub max_delegators (vb_reserved_slots validator_bid) in
          fail_if (public_slots =? normal_delegators mod 2 ^ 32) ExceededDelegatorSizeLimit
      | _ => mret ()
      end;
  modify (prune_bid reservation_addr).

(** *** Vesting *)

Definition process_delegator_vesting (timestamp period : Z) (d : DelegatorBid) : M () :=
  '(v, initialized) ← lift (process_schedule (db_vesting d) (db_staked_amount d) timestamp period);
  if initialized : bool then
    let d := db_with_vesting d v in
    write_bid (Key_BidAddr (delegator_bid_addr blake2b d)) (BK_Delegator d)
  else mret ().
Definition process_with_vesting_schedule (b : ValidatorBid) (timestamp period : Z) : M (ValidatorBid * bool) :=
  delegators ← read_delegator_bids (vb_validator b);
  _ ← iterate delegators (process_delegator_vesting timestamp period);
  '(v, initialized) ← lift (process_schedule (vb_vesting b) (vb_staked_amount b) timestamp period);
  mret (vb_with_vesting b v, initialized).

(** *** Where rewards go *)

Definition unbond_target (bridged : list BidAddr) (addr : BidAddr) (e : AuctionError) : M (list BidAddr * DistributeTarget) :=
  b ← read_bid (Key_BidAddr addr);
  match b with Some (BK_Unbond u) => mret (bridged, DT_Unbond u) | _ => throw e end.
Fixpoint distribution_target (n : nat) (bid_addr current : BidAddr) (bridged : list BidAddr) : M (list BidAddr * DistributeTarget) :=
  match n with
  | O => throw BridgeRecordChainTooLong
  | Datatypes.S n =>
      b ← read_bid (Key_BidAddr current);
      match b with
      | Some (BK_Validator b) =>
          mret (bridged, match bridged with [] => DT_Validator b | _ => DT_BridgedValidator bid_addr current bridged b end)
      | Some (BK_Delegator b) => mret (bridged, DT_Delegator b)
      | Some (BK_Unbond u) => mret (bridged, DT_Unbond u)
      | Some (BK_Bridge b) => let current := validator_addr (br_new b) in distribution_target n bid_addr current (bridged ++ [current])
      | None =>
          match current, bid_addr with
          | BA_Validator h, _ => unbond_target bridged (BA_UnbondAccount h h) ValidatorNotFound
          | _, BA_DelegatedAccount validator delegator => unbond_target bridged (BA_UnbondAccount validator delegator) DelegatorNotFound
          | _, BA_DelegatedPurse validator delegator => unbond_target bridged (BA_UnbondPurse validator delegator) DelegatorNotFound
          | _, _ => throw BridgeRecordChainTooLong
          end
      | Some _ => throw BridgeRecordChainTooLong
      end
  end.
Definition get_distribution_target (bid_addr : BidAddr) : M (list BidAddr * DistributeTarget) :=
  distribution_target MAX_BRIDGE_CHAIN_LENGTH bid_addr bid_addr [].

(** ** The entry points *)

Definition get_era_validators : M (list (EraId * ValidatorWeights)) :=
  snapshot ← get_seigniorage_recipients_snapshot;
  mret (era_validators_from_snapshot snapshot).
Definition read_seigniorage_recipients : M SeigniorageRecipients :=
  era_index ← get_era_id;
  snapshot ← get_seigniorage_recipients_snapshot;
  lift (ok_or (btree_get era_index snapshot) MissingSeigniorageRecipients).

(** What the network's configuration allows. *)
Record BidLimits : Type := mkBidLimits {
  minimum_bid_amount : Z;
  max_delegators_per_validator : Z;
  global_minimum_delegation_amount : Z;
  global_maximum_delegation_amount : Z;
  minimum_delegation_rate : Z
}.

(** The two cases of [add_bid]: the target purse and the bid to write. *)
Definition raise_bid (limits : BidLimits) (b : ValidatorBid) (delegation_rate amount : Z) (minimum maximum : option Z) (reserved_slots : Z) :
    A (URef * ValidatorBid) :=
  b ← api (lift (validator_increase_stake b amount));
  _ ← fail_if (vb_staked_amount b <? minimum_bid_amount limits) (Api_AuctionError BondTooSmall);
  let b := activate b in
  let minimum := default (vb_minimum_delegation_amount b) minimum in
  let maximum := default (vb_maximum_delegation_amount b) maximum in
  _ ← fail_if (maximum <? minimum) InvalidDelegationAmountLimits;
  let b := with_delegation_rate b delegation_rate in
  b ← api (process_updated_delegator_stake_boundaries b minimum maximum);
  b ← api (process_updated_delegator_reservation_slots b (max_delegators_per_validator limits) reserved_slots);
  mret (vb_bonding_purse b, b).
Definition new_bid (limits : BidLimits) (public_key : PublicKey) (delegation_rate amount : Z) (minimum maximum : option Z) (reserved_slots : Z) :
    A (URef * ValidatorBid) :=
  _ ← fail_if (amount <? minimum_bid_amount limits) (Api_AuctionError BondTooSmall);
  let minimum := default (global_minimum_delegation_amount limits) minimum in
  let maximum := default (global_maximum_delegation_amount limits) maximum in
  _ ← fail_if (maximum <? minimum) InvalidDelegationAmountLimits;
  bonding_purse ← api create_purse;
  mret (bonding_purse, validator_unlocked public_key bonding_purse amount delegation_rate minimum maximum reserved_slots).
Definition add_bid (limits : BidLimits) (public_key : PublicKey) (delegation_rate amount : Z) (minimum maximum : option Z) (reserved_slots : Z) : A Z :=
  allowed ← asks allow_auction_bids;
  _ ← fail_if (negb allowed) (Api_AuctionError AuctionBidsDisabled);
  _ ← fail_if (amount =? 0) (Api_AuctionError BondTooSmall);
  _ ← fail_if (delegation_rate <? minimum_delegation_rate limits) (Api_AuctionError DelegationRateTooSmall);
  _ ← fail_if (DELEGATION_RATE_DENOMINATOR <? delegation_rate) (Api_AuctionError DelegationRateTooLarge);
  _ ← fail_if (max_delegators_per_validator limits <? reserved_slots) (Api_AuctionError ExceededReservationSlotsLimit);
  own ← asks (fun s => is_allowed_session_caller s (hash_of public_key));
  _ ← fail_if (negb own) (Api_AuctionError AE_InvalidContext);
  _ ← fail_if (match minimum with Some x => x <? global_minimum_delegation_amount limits | None => false end) InvalidDelegationAmountLimits;
  _ ← fail_if (match maximum with Some x => global_maximum_delegation_amount limits <? x | None => false end) InvalidDelegationAmountLimits;
  let key := Key_BidAddr (validator_addr public_key) in
  existing ← api (read_bid key);
  '(target, validator_bid) ← match existing with
                             | Some (BK_Validator b) => raise_bid limits b delegation_rate amount minimum maximum reserved_slots
                             | _ => new_bid limits public_key delegation_rate amount minimum maximum reserved_slots
                             end;
  source ← asks auction_main_purse;
  source ← api (lift source);
  _ ← transfer_direct TransferToBidPurse source target amount;
  _ ← api (write_bid key (BK_Validator validator_bid));
  mret (vb_staked_amount validator_bid).

(** Unbonding a delegator of a validator that withdraws. *)
Definition withdraw_delegator (public_key : PublicKey) (era_end : Z) (d : DelegatorBid) : M () :=
  _ ← create_unbonding_purse public_key (delegator_unbond_kind d) (db_bonding_purse d) (db_staked_amount d) None;
  d ← lift (delegator_decrease_stake d (db_staked_amount d) era_end);
  modify (prune_bid (delegator_bid_addr blake2b d)).
Definition withdraw_bid (public_key : PublicKey) (amount minimum_bid_amount : Z) : M Z :=
  own ← asks (fun s => is_allowed_session_caller s (hash_of public_key));
  _ ← fail_if (negb own) AE_InvalidContext;
  _ ← fail_if (amount =? 0) BondTooSmall;
  let addr := validator_addr public_key in
  validator_bid ← read_validator_bid (Key_BidAddr addr);
  let staked_amount := vb_staked_amount validator_bid in
  _ ← fail_if (staked_amount <? amount) UnbondTooLarge;
  era_end ← get_era_end_timestamp_millis;
  validator_bid ← lift (validator_decrease_stake validator_bid amount era_end);
  let updated_stake := vb_staked_amount validator_bid in
  _ ← if updated_stake <? minimum_bid_amount then
        _ ← create_unbonding_purse public_key (UK_Validator public_key) (vb_bonding_purse validator_bid) staked_amount None;
        delegators ← read_delegator_bids public_key;
        _ ← iterate delegators (withdraw_delegator public_key era_end);
        modify (prune_bid addr)
      else
        _ ← create_unbonding_purse public_key (UK_Validator public_key) (vb_bonding_purse validator_bid) amount None;
        write_bid (Key_BidAddr addr) (BK_Validator validator_bid);
  mret updated_stake.

Definition delegate (kind : DelegatorKind) (validator : PublicKey) (amount max_delegators : Z) : A Z :=
  allowed ← asks allow_auction_bids;
  _ ← fail_if (negb allowed) (Api_AuctionError AuctionBidsDisabled);
  source ← match kind with
           | DK_PublicKey k =>
               own ← asks (fun s => is_allowed_session_caller s (hash_of k));
               _ ← fail_if (negb own) (Api_AuctionError AE_InvalidContext);
               source ← asks auction_main_purse;
               api (lift source)
           | DK_Purse a =>
               let uref := mkURef a WRITE in
               valid ← asks (fun s => auction_valid_uref s uref);
               _ ← fail_if (negb valid) (Api_AuctionError AE_InvalidContext);
               mret uref
           end;
  handle_delegation kind validator source amount max_delegators.
Definition undelegate (kind : DelegatorKind) (validator : PublicKey) (amount : Z) : M Z := process_undelegation kind validator amount None.
Definition redelegate (kind : DelegatorKind) (validator : PublicKey) (amount : Z) (new_validator : PublicKey) : M Z :=
  process_undelegation kind validator amount (Some new_validator).

Definition add_reservations (reservations : list Reservation) (minimum_delegation_rate : Z) : M () :=
  allowed ← asks allow_auction_bids;
  _ ← fail_if (negb allowed) AuctionBidsDisabled;
  iterate reservations (fun r =>
    own ← asks (fun s => is_allowed_session_caller s (hash_of (rs_validator r)));
    _ ← fail_if (negb own) AE_InvalidContext;
    handle_add_reservation r minimum_delegation_rate).
Definition cancel_reservations (validator : PublicKey) (delegators : list DelegatorKind) (max_delegators : Z) : M () :=
  own ← asks (fun s => is_allowed_session_caller s (hash_of validator));
  _ ← fail_if (negb own) AE_InvalidContext;
  iterate delegators (handle_cancel_reservation validator max_delegators).

(** [slash]: the unbonds at an address, and a validator with its delegators; both add what they
    remove to the burned amount. *)
Definition slash_unbonds (addr : BidAddr) (burned : Z) : M Z :=
  u ← read_unbond addr;
  match u with
  | Some u =>
      sum ← lift (u512_sum (ue_amount <$> ub_eras u));
      burned ← add_u512 burned sum;
      _ ← write_unbond addr None;
      mret burned
  | None => mret burned
  end.
Definition slash_delegator (validator : PublicKey) (burned : Z) (key : Key) : M Z :=
  b ← read_bid key;
  match b with
  | Some (BK_Delegator d) =>
      burned ← add_u512 burned (db_staked_amount d);
      _ ← modify (prune_bid (delegator_bid_addr blake2b d));
      slash_unbonds (new_delegator_unbond_relaxed (hash_of validator) (db_kind d)) burned
  | _ => mret burned
  end.
Definition slash_validator (burned : Z) (validator : PublicKey) : M Z :=
  let addr := validator_addr validator in
  b ← read_bid (Key_BidAddr addr);
  burned ← match b with
           | Some (BK_Validator b) =>
               burned ← add_u512 burned (vb_staked_amount b);
               _ ← modify (prune_bid addr);
               keys ← keys_under delegated_account_prefix delegated_purse_prefix validator;
               accumulate keys (slash_delegator validator) burned
           | _ => mret burned
           end;
  slash_unbonds (BA_UnbondAccount (hash_of validator) (hash_of validator)) burned.
Definition slash (validators : list PublicKey) : M () :=
  caller ← asks auction_caller;
  _ ← fail_if (negb (bool_decide (caller = system))) AE_InvalidCaller;
  burned ← accumulate validators slash_validator 0;
  auction_reduce_total_supply burned.

(** [run_auction]: an evicted key and the keys that it was changed to *)
Fixpoint resolve_evicted (n : nat) (addr : BidAddr) (resolved : list PublicKey) : M (list PublicKey) :=
  match n with
  | O => mret resolved
  | Datatypes.S n =>
      b ← read_bid (Key_BidAddr addr);
      match b with
      | Some (BK_Bridge b) =>
          let new_key := br_new b in
          resolve_evicted n (validator_addr new_key) (if existsb (same_key new_key) resolved then resolved else resolved ++ [new_key])
      | _ => mret resolved
      end
  end.
Definition process_bid (timestamp : Z) (resolved : list PublicKey) (acc : list (PublicKey * ValidatorBid) * bool) (p : PublicKey * ValidatorBid) :
    M (list (PublicKey * ValidatorBid) * bool) :=
  let '(bids, modified) := acc in
  period ← asks vesting_schedule_period_millis;
  '(b, initialized) ← process_with_vesting_schedule p.2 timestamp period;
  let evicted := existsb (same_key p.1) resolved in
  mret (bids ++ [(p.1, if evicted then deactivate b else b)], modified || initialized || evicted).
Definition update_snapshot (delayed_era : EraId) (snapshot_size : nat) (recipients : result AuctionError SeigniorageRecipients) : M () :=
  snapshot ← get_seigniorage_recipients_snapshot;
  recipients ← lift recipients;
  _ ← lift (assert_that (bool_decide (btree_get delayed_era snapshot = None)));
  let snapshot := btree_insert delayed_era recipients snapshot in
  set_seigniorage_recipients_snapshot (btree_collect (take snapshot_size (rev snapshot))).
Definition run_auction (era_end_timestamp_millis : Z) (evicted : list PublicKey) (max_delegators : Z) (include_credits : bool) (credit_cap : Z * Z)
    (minimum_bid_amount : Z) : A () :=
  caller ← asks auction_caller;
  _ ← fail_if (negb (bool_decide (caller = system))) (Api_AuctionError AE_InvalidCaller);
  period ← asks vesting_schedule_period_millis;
  validator_slots ← api get_validator_slots;
  auction_delay ← api get_auction_delay;
  let snapshot_size := Z.to_nat ((auction_delay + 2) mod 2 ^ 64) in
  era_id ← api get_era_id;
  _ ← process_unbond_requests max_delegators;
  resolved ← api (accumulate evicted (fun resolved k => resolve_evicted MAX_BRIDGE_CHAIN_LENGTH (validator_addr k) (resolved ++ [k])) []);
  detail ← api (get_validator_bids era_id);
  '(bids, modified) ← api (accumulate (validator_bids detail) (process_bid era_end_timestamp_millis resolved) ([], false));
  let detail := set_bids detail bids in
  winners ← api (lift (pick_winners detail era_id validator_slots minimum_bid_amount include_credits credit_cap era_end_timestamp_millis period));
  _ ← api (prune_validator_credits era_id (validator_credits detail));
  era_id ← api (lift (ok_or (era_checked_add era_id 1) AE_ArithmeticOverflow));
  delayed_era ← api (lift (ok_or (era_checked_add era_id auction_delay) AE_ArithmeticOverflow));
  _ ← api (update_snapshot delayed_era snapshot_size (seigniorage_recipients winners bids (delegator_bids detail) (detail_reservations detail)));
  _ ← api (set_era_id era_id);
  _ ← api (set_era_end_timestamp_millis era_end_timestamp_millis);
  if modified : bool then api (set_validator_bids bids) else mret ().

(** [distribute]: the reward of a validator goes to its bid, to the bid that its key was changed
    to, or to its latest unbond. The purse to mint into, the bounds on delegations, the bridged
    addresses and the current key; [None] is [continue]. *)
Record Payout : Type := mkPayout {
  payout_purse : URef;
  min_del : Z;
  max_del : Z;
  payout_bridged : list BidAddr;
  payout_validator : PublicKey
}.
Definition pay_validator_bid (addr : BidAddr) (b : ValidatorBid) (reward : Z) (bridged : list BidAddr) (validator : PublicKey) : M (option Payout) :=
  b ← lift (validator_increase_stake b reward);
  _ ← write_bid (Key_BidAddr addr) (BK_Validator b);
  mret (Some (mkPayout (vb_bonding_purse b) (vb_minimum_delegation_amount b) (vb_maximum_delegation_amount b) bridged validator)).
Definition pay_validator (validator : PublicKey) (reward : Z) : M (option Payout) :=
  let addr := validator_addr validator in
  r ← attempt (get_distribution_target addr);
  match r with
  | Ok (_, DT_Validator b) => pay_validator_bid addr b reward [] validator
  | Ok (_, DT_BridgedValidator _ current bridged b) => pay_validator_bid current b reward bridged (vb_validator b)
  | Ok (bridged, DT_Unbond u) =>
      match add_to_target u reward with
      | Some (purse, u) =>
          _ ← write_unbond (unbond_addr (ub_validator u) (ub_kind u)) (Some u);
          mret (Some (mkPayout purse (u_max 512) (u_max 512) bridged validator))
      | None => mret None
      end
  | Ok (_, DT_Delegator _) => throw UnexpectedBidVariant
  | Err BridgeRecordChainTooLong => mret None
  | Err e => throw e
  | Panic => lift Panic
  | Diverge => lift Diverge
  end.

(** What is left to do after the payouts: undelegations and prunes. *)
Abbreviation Followup := (list (DelegatorKind * PublicKey * Z) * list BidAddr)%type.

(** The search for the record of a delegator: the purse to mint into. *)
Fixpoint pay_delegator (payout : Payout) (kind : DelegatorKind) (reward : Z) (addrs : list BidAddr) : M (option URef * Followup) :=
  match addrs with
  | [] => mret (None, ([], []))
  | addr :: addrs =>
      if reward =? 0 then mret (None, ([], [])) else
      r ← attempt (get_distribution_target addr);
      match r with
      | Ok (_, DT_Delegator d) =>
          d ← lift (delegator_increase_stake d reward);
          let stake := db_staked_amount d in
          let followup :=
            if stake <? min_del payout then ([(kind, payout_validator payout, stake)], [addr])
            else if max_del payout <? stake then
              let unbond_amount := saturating_sub stake (max_del payout) in
              (if unbond_amount =? 0 then [] else [(kind, payout_validator payout, unbond_amount)], [])
            else ([], []) in
          _ ← write_bid (Key_BidAddr addr) (BK_Delegator d);
          mret (Some (db_bonding_purse d), followup)
      | Ok (_, DT_Unbond u) =>
          match add_to_target u reward with
          | Some (purse, u) =>
              _ ← write_unbond (new_delegator_unbond_relaxed (validator_account_hash addr) kind) (Some u);
              mret (Some purse, ([], []))
          | None => pay_delegator payout kind reward addrs
          end
      | Ok (_, _) => throw UnexpectedBidVariant
      | Err DelegatorNotFound => pay_delegator payout kind reward addrs
      | Err e => throw e
      | Panic => lift Panic
      | Diverge => lift Diverge
      end
  end.
Definition distribute_delegator (validator : PublicKey) (payout : Payout) (acc : list SeigniorageAllocation * Followup) (p : DelegatorKind * Z) :
    M (list SeigniorageAllocation * Followup) :=
  let '(allocations, (undelegates, prunes)) := acc in
  let '(kind, reward) := p in
  let addrs := ((fun a => new_delegator_kind_relaxed (validator_account_hash a) kind) <$> payout_bridged payout)
               ++ [new_delegator_kind validator kind] in
  '(purse, (undelegates', prunes')) ← pay_delegator payout kind reward addrs;
  _ ← match purse with Some purse => auction_mint_into reward purse | None => mret () end;
  mret (allocations ++ [SA_DelegatorKind kind validator reward], (undelegates ++ undelegates', prunes ++ prunes')).
(** One round of the loop of [distribute]. *)
Definition distribute_reward (allocations : list SeigniorageAllocation) (validator : PublicKey) (info : RewardsPerValidator) : M (list SeigniorageAllocation) :=
  let reward := validator_reward info in
  payout ← pay_validator validator reward;
  match payout with
  | None => mret allocations
  | Some payout =>
      _ ← auction_mint_into reward (payout_purse payout);
      '(allocations, (undelegates, prunes)) ←
        accumulate (delegator_rewards info) (distribute_delegator validator payout) (allocations ++ [SA_Validator validator reward], ([], []));
      _ ← iterate undelegates (fun '(kind, k, amount) => _ ← undelegate kind k amount; mret ());
      _ ← iterate prunes (fun a => modify (prune_bid a));
      mret allocations
  end.
Definition distribute (rewards : list (PublicKey * list Z)) (sustain_purse : option URef) (handling : RewardsHandling) : M () :=
  caller ← asks auction_caller;
  _ ← fail_if (negb (bool_decide (caller = system))) AE_InvalidCaller;
  let rewards := filter (fun p => is_system_key p.1 = false) rewards in
  total ← lift (u512_sum (concat rewards.*2));
  total ← lift (expect (ratio_new 512 total 1));
  sustain_ratio ← lift (expect (match handling with RH_Standard => ratio_new 512 0 1 | RH_Sustain ratio => ratio_new 512 ratio.1 ratio.2 end));
  share ← lift (expect (ratio_mul 512 sustain_ratio total));
  _ ← match handling, sustain_purse with
      | RH_Sustain _, Some purse => auction_mint_into (to_integer share) purse
      | RH_Sustain _, None => throw MintReward
      | RH_Standard, _ => mret ()
      end;
  snapshot ← get_seigniorage_recipients_snapshot;
  era_id ← get_era_id;
  allocations ← accumulate rewards (fun allocations p =>
      infos ← lift (rewards_per_validator p.1 era_id p.2 (inr snapshot) sustain_ratio);
      accumulate infos (fun allocations info => distribute_reward allocations p.1 info) allocations) [];
  record_era_info (mkEraInfo allocations).

Definition activate_bid (validator : PublicKey) (minimum_bid : Z) : M () :=
  own ← asks (fun s => is_allowed_session_caller s (hash_of validator));
  _ ← fail_if (negb own) AE_InvalidContext;
  let key := Key_BidAddr (validator_addr validator) in
  b ← read_bid key;
  match b with
  | Some (BK_Validator b) => if minimum_bid <=? vb_staked_amount b then write_bid key (BK_Validator (activate b)) else throw BondTooSmall
  | _ => throw ValidatorNotFound
  end.

(** Moving a delegator and a reservation to the new key of their validator. *)
Definition move_delegator (old new : PublicKey) (d : DelegatorBid) : M () :=
  _ ← write_bid (Key_BidAddr (new_delegator_kind new (db_kind d))) (BK_Delegator (db_with_validator d new));
  modify (prune_bid (new_delegator_kind old (db_kind d))).
Definition move_reservation (old new : PublicKey) (r : Reservation) : M () :=
  _ ← write_bid (Key_BidAddr (new_reservation_kind new (rs_kind r))) (BK_Reservation (rs_with_validator r new));
  modify (prune_bid (new_reservation_kind old (rs_kind r))).
Definition change_bid_public_key (public_key new_public_key : PublicKey) : M () :=
  _ ← fail_if (is_system_key new_public_key) InvalidPublicKey;
  own ← asks (fun s => is_allowed_session_caller s (hash_of public_key));
  _ ← fail_if (negb own) AE_InvalidContext;
  let addr := validator_addr public_key in
  validator_bid ← read_validator_bid (Key_BidAddr addr);
  let new_addr := validator_addr new_public_key in
  existing ← read_bid (Key_BidAddr new_addr);
  _ ← fail_if (negb (bool_decide (existing = None))) ValidatorBidExistsAlready;
  _ ← write_bid (Key_BidAddr new_addr) (BK_Validator (vb_with_validator validator_bid new_public_key));
  era_id ← get_era_id;
  let bridge := mkBridge public_key new_public_key era_id in
  _ ← write_bid (Key_BidAddr addr) (BK_Bridge bridge);
  _ ← write_bid (Key_BidAddr (BA_ValidatorRev (hash_of new_public_key))) (BK_Bridge bridge);
  delegators ← read_delegator_bids public_key;
  _ ← iterate delegators (move_delegator public_key new_public_key);
  reservations ← read_reservation_bids public_key;
  iterate reservations (move_reservation public_key new_public_key).

Definition write_validator_credit (validator : PublicKey) (era_id : EraId) (amount : Z) : M (option BidAddr) :=
  caller ← asks auction_caller;
  _ ← fail_if (negb (bool_decide (caller = system))) AE_InvalidCaller;
  b ← read_bid (Key_BidAddr (validator_addr validator));
  match b with
  | None => mret None
  | Some _ =>
      if amount =? 0 then mret None else
      let credit_addr := BA_Credit (hash_of validator) era_id in
      existing ← read_bid (Key_BidAddr credit_addr);
      credit ← match existing with
               | Some (BK_Credit c) => mret (credit_increase c amount).1
               | Some _ => throw UnexpectedBidVariant
               | None => mret (mkValidatorCredit validator era_id amount)
               end;
      _ ← write_bid (Key_BidAddr credit_addr) (BK_Credit credit);
      mret (Some credit_addr)
  end.
End auction.
