(* ===== verification/AuctionRewards.v ===== *)
(** * The rewards of an era

    What [rewards_per_validator] and [reward] ([auction/detail.rs]) compute, over the laws of
    [num_rational::Ratio]: every mote of a reward goes to the validator or to one of its
    delegators, and a delegator gets its share of the stake less the commission. *)
From Stdlib Require Import QArith Qround Qfield Lqa.
From S2P Require Import Prelude Effects BTree Bytesrepr Struct Digest PublicKey Uint Units Access CLType Account Key Bids BidKinds Transform Balances Mint Auction.

Open Scope Z_scope.

(** ** Ratios *)

(** The value of a ratio; ratios are kept in lowest terms. *)
Definition rval (q : Z * Z) : Q := (inject_Z q.1 / inject_Z q.2)%Q.
Definition reduced (q : Z * Z) : Prop := 0 <= q.1 /\ 0 < q.2 /\ Z.gcd q.1 q.2 = 1.

(** What is documented of [Ratio]: results are exact and in lowest terms. An operation fails
    only when there is no result, or when a product does not fit. *)
Class RatioArithLaws {R : RatioArith} : Prop := {
  law_ratio_new n d : 0 <= n -> 0 <= d ->
    match ratio_new 512 n d with Some q => d <> 0 /\ reduced q /\ (rval q == rval (n, d))%Q | None => d = 0 end;
  law_ratio_mul a b : reduced a -> reduced b ->
    match ratio_mul 512 a b with
    | Some q => reduced q /\ (rval q == rval a * rval b)%Q
    | None => ~ (in_u 512 (a.1 * b.1) /\ in_u 512 (a.2 * b.2))
    end;
  law_ratio_sub a b : reduced a -> reduced b ->
    match ratio_sub 512 a b with
    | Some q => reduced q /\ (rval q == rval a - rval b)%Q
    | None => ~ (b.1 * a.2 <= a.1 * b.2 /\ in_u 512 (a.1 * b.2) /\ in_u 512 (a.2 * b.2))
    end;
  law_ratio_checked_times a b : reduced a -> reduced b ->
    match ratio_checked_times 512 a b with
    | Some (Some q) => reduced q /\ (rval q == rval a * rval b)%Q
    | Some None => ~ (in_u 512 (a.1 * b.1) /\ in_u 512 (a.2 * b.2))
    | None => False
    end;
  law_ratio_checked_minus a b : reduced a -> reduced b ->
    match ratio_checked_minus 512 a b with
    | Some (Some q) => reduced q /\ (rval q == rval a - rval b)%Q
    | Some None => ~ (b.1 * a.2 <= a.1 * b.2 /\ in_u 512 (a.1 * b.2) /\ in_u 512 (a.2 * b.2))
    | None => False
    end
}.

Lemma rval_frac n d : rval (n, d) = (inject_Z n / inject_Z d)%Q.
Proof. done. Qed.
Lemma pos_nonzero d : 0 < d -> ~ (inject_Z d == 0)%Q.
Proof. intros Hd E. apply (inject_Z_injective d 0) in E. lia. Qed.
Lemma to_integer_floor q : to_integer q = Qfloor (rval q).
Proof. destruct q as [n d]. apply Zdiv_Qdiv. Qed.
Lemma rval_int z : (rval (z, 1%Z) == inject_Z z)%Q.
Proof. rewrite rval_frac. field. Qed.
Lemma reduced_int z : 0 <= z -> reduced (z, 1).
Proof. intros Hz. split_and!; [done|done|]. apply Z.gcd_1_r. Qed.
Lemma cross a b : 0 < a.2 -> 0 < b.2 -> (rval a == rval b)%Q -> a.1 * b.2 = b.1 * a.2.
Proof.
  destruct a as [n d], b as [n' d']; cbn [fst snd]. intros Hd%pos_nonzero Hd'%pos_nonzero E. apply inject_Z_injective. rewrite !inject_Z_mult.
  transitivity (rval (n, d) * (inject_Z d * inject_Z d'))%Q; [rewrite rval_frac; by field|].
  rewrite E, rval_frac. by field.
Qed.
(** The terms of a reduced ratio are the smallest. *)
Lemma reduced_least q n d : reduced q -> 0 <= n -> 0 < d -> (rval q == rval (n, d))%Q -> q.1 <= n /\ q.2 <= d.
Proof.
  intros (H1 & H2 & G) Hn Hd E%cross; [|done|done]. cbn [fst snd] in E. destruct q as [a b]; cbn [fst snd] in *.
  assert (b | d) as [k Hk].
  { apply (Z.gauss b a d); [exists n; lia|]. by rewrite Z.gcd_comm. }
  assert (0 < k) by nia. subst d. assert (n = a * k) as -> by nia. split; nia.
Qed.
Lemma rval_le a b : 0 < a.2 -> 0 < b.2 -> (rval b <= rval a)%Q -> b.1 * a.2 <= a.1 * b.2.
Proof.
  destruct a as [n d], b as [n' d']; cbn [fst snd]. intros Hd Hd' L. rewrite Zle_Qle, !inject_Z_mult.
  pose proof (pos_nonzero d Hd). pose proof (pos_nonzero d' Hd').
  setoid_replace (inject_Z n' * inject_Z d)%Q with (rval (n', d') * (inject_Z d * inject_Z d'))%Q using relation Qeq by (rewrite rval_frac; by field).
  setoid_replace (inject_Z n * inject_Z d')%Q with (rval (n, d) * (inject_Z d * inject_Z d'))%Q using relation Qeq by (rewrite rval_frac; by field).
  apply Qmult_le_compat_r; [done|]. rewrite <- inject_Z_mult. change 0%Q with (inject_Z 0). rewrite <- Zle_Qle. nia.
Qed.
Lemma Qmult_le_l' x y z : (0 <= x)%Q -> (y <= z)%Q -> (x * y <= x * z)%Q.
Proof. intros Hx Hyz. rewrite !(Qmult_comm x). by apply Qmult_le_compat_r. Qed.
Lemma rval_nonneg q : reduced q -> (0 <= rval q)%Q.
Proof.
  intros (H1 & H2 & _). unfold rval. apply Qle_shift_div_l; [change 0%Q with (inject_Z 0); by rewrite <- Zlt_Qlt|].
  rewrite Qmult_0_l. change 0%Q with (inject_Z 0). by rewrite <- Zle_Qle.
Qed.
Lemma floor_nonneg q : reduced q -> 0 <= to_integer q.
Proof. intros (H1 & H2 & _). by apply Z.div_pos. Qed.
Lemma floor_unique x z : (inject_Z z <= x)%Q -> (x < inject_Z (z + 1))%Q -> Qfloor x = z.
Proof.
  intros Hl Hu. apply Qfloor_resp_le in Hl. rewrite Qfloor_Z in Hl. pose proof (Qle_lt_trans _ _ _ (Qfloor_le x) Hu) as H.
  rewrite <- Zlt_Qlt in H. lia.
Qed.
Lemma floor_sub_int x z : Qfloor (x - inject_Z z) = Qfloor x - z.
Proof.
  pose proof (Qfloor_le x). pose proof (Qlt_floor x) as H'. rewrite inject_Z_plus in H'. apply floor_unique.
  - unfold Z.sub. rewrite inject_Z_plus, inject_Z_opp. lra.
  - unfold Z.sub. rewrite !inject_Z_plus, inject_Z_opp. lra.
Qed.
Lemma floor_add x y : Qfloor x + Qfloor y <= Qfloor (x + y).
Proof.
  rewrite <- (Qfloor_Z (Qfloor x + Qfloor y)). apply Qfloor_resp_le. rewrite inject_Z_plus. apply Qplus_le_compat; apply Qfloor_le.
Qed.

(** ** Splitting a reward *)

Section split.
Context {C : Curves} {R : RatioArith} {RL : RatioArithLaws}.

(** All that is paid for one entry of the rewards. *)
Definition paid (info : RewardsPerValidator) : Z := validator_reward info + zsum (delegator_rewards info).*2.
Definition info_ok (info : RewardsPerValidator) : Prop := 0 <= validator_reward info /\ Forall (fun x => 0 <= x.2) (delegator_rewards info).
Lemma info_paid info : info_ok info -> 0 <= zsum (delegator_rewards info).*2 /\ 0 <= paid info.
Proof.
  intros [Hv Hd]. assert (0 <= zsum (delegator_rewards info).*2) by (by apply zsum_nonneg, Forall_fmap). unfold paid. lia.
Qed.

Definition recipient_ok (r : SeigniorageRecipient) : Prop :=
  Forall (fun x => 0 <= x.2) (recipient_delegator_stake r) /\ 0 <= recipient_rate r /\ Forall (fun x => 0 <= x.2) (recipient_rates r).

Lemma new_Ok {E} n d q : 0 <= n -> 0 <= d -> expect (E := E) (ratio_new 512 n d) = Ok q -> d <> 0 /\ reduced q /\ (rval q == rval (n, d))%Q.
Proof. intros Hn Hd Hq%expect_Ok. pose proof (law_ratio_new n d Hn Hd) as H. by rewrite Hq in H. Qed.
Lemma mul_Ok {E} a b q : reduced a -> reduced b -> expect (E := E) (ratio_mul 512 a b) = Ok q -> reduced q /\ (rval q == rval a * rval b)%Q.
Proof. intros Ha Hb Hq%expect_Ok. pose proof (law_ratio_mul a b Ha Hb) as H. by rewrite Hq in H. Qed.
Lemma sub_Ok {E} a b q : reduced a -> reduced b -> expect (E := E) (ratio_sub 512 a b) = Ok q -> reduced q /\ (rval q == rval a - rval b)%Q.
Proof. intros Ha Hb Hq%expect_Ok. pose proof (law_ratio_sub a b Ha Hb) as H. by rewrite Hq in H. Qed.
Lemma times_Ok a b q : reduced a -> reduced b -> ratio_checked_times 512 a b = Some (Some q) -> reduced q /\ (rval q == rval a * rval b)%Q.
Proof. intros Ha Hb Hq. pose proof (law_ratio_checked_times a b Ha Hb) as H. by rewrite Hq in H. Qed.
Lemma minus_Ok a b q : reduced a -> reduced b -> ratio_checked_minus 512 a b = Some (Some q) -> reduced q /\ (rval q == rval a - rval b)%Q.
Proof. intros Ha Hb Hq. pose proof (law_ratio_checked_minus a b Ha Hb) as H. by rewrite Hq in H. Qed.

(** The share of a delegator, less the commission. *)
Definition share (total : Q) (stake total_stake rate : Z) : Z :=
  Qfloor (total * (inject_Z stake / inject_Z total_stake) * (1 - inject_Z rate / inject_Z DELEGATION_RATE_DENOMINATOR))%Q.

Lemma delegator_reward_value base D rate stake r : reduced base -> 0 <= D -> 0 <= rate -> 0 <= stake ->
  delegator_reward base D rate stake = Ok r -> 0 <= r /\ r = share (rval base) stake D rate.
Proof.
  intros Hb HD Hr Hs. unfold delegator_reward.
  intros (m & (_ & Hm & Em)%new_Ok & H)%bind_Ok; [|done|done]. apply bind_Ok in H as (br & [Hbr Ebr]%mul_Ok & H); [|done|done].
  apply bind_Ok in H as (cr & (_ & Hcr & Ecr)%new_Ok & H); [|done|done]. apply bind_Ok in H as (o & Ho%expect_Ok & H).
  apply bind_Ok in H as (c & ->%ok_or_Ok & H). apply times_Ok in Ho as [Hc Ec]; [|done|done].
  apply bind_Ok in H as (o & Ho%expect_Ok & H). apply bind_Ok in H as (q & ->%ok_or_Ok & H). apply minus_Ok in Ho as [Hq Eq]; [|done|done].
  injection H as <-. split; [by apply floor_nonneg|]. rewrite to_integer_floor. unfold share. apply Qfloor_comp.
  rewrite Eq, Ec, Ebr, Em, Ecr, !rval_frac. ring.
Qed.

Lemma btree_insert_all {K V} `{TotalOrd K} (Q : K * V -> Prop) k v (m : list (K * V)) : Forall Q m -> Q (k, v) -> Forall Q (btree_insert k v m).
Proof.
  intros Hm Hk. induction Hm as [|[k' v'] m Hp Hm IH]; cbn [btree_insert]; [by repeat constructor|]. repeat case_match; by repeat constructor.
Qed.

Lemma btree_get_all {K V} `{TotalOrd K} (Q : K * V -> Prop) k v (m : list (K * V)) : Forall (fun x => Q (k, x.2)) m -> btree_get k m = Some v -> Q (k, v).
Proof.
  induction 1 as [|[k' v'] m Hp Hm IH]; cbn [btree_get]; [done|]. repeat case_match; try done. by intros [= <-].
Qed.
Lemma u512_sum_value {E} l z : u512_sum (E := E) l = Ok z -> z = zsum l.
Proof.
  unfold u512_sum.
  assert (forall a, foldl (fun acc x => a0 ← acc; expect (checked_add 512 a0 x)) (Ok a : result E Z) l = Ok z -> z = a + zsum l) as H.
  { induction l as [|x l IH]; intros a; cbn [foldl]; [intros [= <-]; unfold zsum; cbn [foldr]; lia|]. cbn [mbind result_bind].
    unfold checked_add. destruct (checked 512 (a + x)) as [y|] eqn:Ey; cbn [expect].
    - apply checked_Some in Ey as [-> _]. intros ->%IH. change (zsum (x :: l)) with (x + zsum l). lia.
    - clear. intros H. exfalso. induction l as [|y l IH]; cbn [foldl mbind result_bind] in H; [done|by apply IH]. }
  intros Hl%H. lia.
Qed.
Lemma checked_total_in l z : checked_total l = Some z -> 0 <= z.
Proof.
  unfold checked_total. assert (forall a, 0 <= a -> foldl (fun total stake => total ← total; checked_add 512 total stake) (Some a) l = Some z -> 0 <= z) as H.
  { induction l as [|x l IH]; intros a Ha; cbn [foldl]; [by intros [= <-]|]. cbn [mbind option_bind]. unfold checked_add.
    destruct (checked 512 (a + x)) as [y|] eqn:Ey; 
      [|clear; intros H; exfalso; induction l as [|y l IH]; cbn [foldl mbind option_bind] in H; [done|by apply IH]].
    apply checked_Some in Ey as [-> [Hy _]]. by apply IH. }
  by apply H.
Qed.
Lemma checked_total_value l z : checked_total l = Some z -> z = zsum l.
Proof.
  unfold checked_total. assert (forall a, foldl (fun total stake => total ← total; checked_add 512 total stake) (Some a) l = Some z -> z = a + zsum l) as H.
  { induction l as [|x l IH]; intros a; cbn [foldl]; [intros [= <-]; unfold zsum; cbn [foldr]; lia|]. cbn [mbind option_bind]. unfold checked_add.
    destruct (checked 512 (a + x)) as [y|] eqn:Ey;
      [|clear; intros H; exfalso; induction l as [|y l IH]; cbn [foldl mbind option_bind] in H; [done|by apply IH]].
    apply checked_Some in Ey as [-> _]. intros ->%IH. change (zsum (x :: l)) with (x + zsum l). lia. }
  intros Hl%H. lia.
Qed.
Lemma recipient_totals r T D : recipient_total_stake r = Some T -> recipient_delegator_total r = Some D -> 0 <= D /\ 0 <= T.
Proof.
  destruct r as [r|r]; cbn [recipient_total_stake recipient_delegator_total]; unfold r1_total_stake, r2_total_stake;
    (intros (D' & ED & [-> [HT _]]%checked_Some)%bind_Some ED'); rewrite ED' in ED; injection ED as <-; by apply checked_total_in in ED'.
Qed.
(** The sum of all parts of a reward is the reward, rounded down. *)
Lemma split_reward_paid total r rw : reduced total -> recipient_ok r -> split_reward total r = Ok rw -> info_ok rw /\ paid rw = Qfloor (rval total).
Proof.
  intros Ht (Hst & Hrate & Hrates). unfold split_reward. intros (T & ET%ok_or_Ok & H)%bind_Ok. case_match eqn:Ez.
  { injection H as <-. split; [split; [by apply floor_nonneg|done]|]. unfold paid. cbn. rewrite to_integer_floor. unfold zsum. cbn. lia. }
  apply bind_Ok in H as (D & ED%ok_or_Ok & H). destruct (recipient_totals r T D ET ED) as [HD HT].
  apply bind_Ok in H as (m & (_ & Hm & _)%new_Ok & H); [|done|done]. apply bind_Ok in H as (o & Ho%expect_Ok & H).
  apply bind_Ok in H as (base & ->%ok_or_Ok & H). apply times_Ok in Ho as [Hbase _]; [|done|done].
  apply bind_Ok in H as (rewards & Hrw & H). apply bind_Ok in H as (payout & Hpay & H).
  assert (Forall (fun x => 0 <= x.2) rewards) as Hnn.
  { assert (forall l acc, Forall (fun x => 0 <= x.2) l -> Forall (fun x => 0 <= x.2) acc -> foldl (fun acc '(kind, stake) =>
        m ← acc; reward ← delegator_reward base D (default (recipient_rate r) (btree_get kind (recipient_rates r))) stake;
        Ok (btree_insert kind reward m)) (Ok acc) l = Ok rewards -> Forall (fun x => 0 <= x.2) rewards) as Hf; [|exact (Hf _ [] Hst (Forall_nil_2 _) Hrw)].
    induction l as [|[kind stake] l IH]; intros acc Hl Hacc; cbn [foldl mbind result_bind]; [by intros [= <-]|].
    apply Forall_cons in Hl as [Hs Hl]. set (rate := default _ _).
    destruct (delegator_reward base D rate stake) as [z| | |] eqn:Ez'; cbn [mbind result_bind];
      [|clear; intros F; exfalso; induction l as [|[] l IHl]; cbn [foldl mbind result_bind] in F; [done|by apply IHl]..].
    apply IH; [done|]. apply btree_insert_all; [done|]. cbn. eapply delegator_reward_value; [exact Hbase|exact HD| |exact Hs|exact Ez'].
    unfold rate. destruct (btree_get kind (recipient_rates r)) as [x|] eqn:Ex; cbn; [|done].
    exact (btree_get_all (fun x => 0 <= x.2) kind x _ Hrates Ex). }
  apply u512_sum_value in Hpay as ->. apply bind_Ok in H as (rest & [Hr Er]%sub_Ok & H); [|done|by apply reduced_int, zsum_nonneg, Forall_fmap].
  injection H as <-. split; [split; [by apply floor_nonneg|done]|]. unfold paid. cbn [validator_reward delegator_rewards].
  rewrite to_integer_floor, Er, rval_int, floor_sub_int. lia.
Qed.

(** *** The exact split *)

Lemma in_u_lt z w : 0 <= z < 2 ^ w -> 0 <= w <= 512 -> in_u 512 z.
Proof. intros Hz Hw. split; [lia|]. pose proof (Z.pow_le_mono_r 2 w 512). lia. Qed.
Lemma prod_lt a b i j : 0 <= a < 2 ^ i -> 0 <= b < 2 ^ j -> 0 <= i -> 0 <= j -> 0 <= a * b < 2 ^ (i + j).
Proof. intros Ha Hb Hi Hj. rewrite Z.pow_add_r by done. nia. Qed.
(** A ratio in lowest terms, with its terms bounded by powers of two. *)
Definition within (q : Z * Z) (i j : Z) : Prop := reduced q /\ q.1 < 2 ^ i /\ q.2 < 2 ^ j.
Lemma within_of q n d i j : reduced q -> (rval q == rval (n, d))%Q -> 0 <= n < 2 ^ i -> 0 < d < 2 ^ j -> within q i j.
Proof. intros Hq E Hn Hd. destruct (reduced_least q n d Hq) as [H1 H2]; [lia|lia|done|]. split_and!; [done|lia|lia]. Qed.
Lemma within_new {E} n d i j : 0 <= n < 2 ^ i -> 0 < d < 2 ^ j ->
  exists q, expect (E := E) (ratio_new 512 n d) = Ok q /\ within q i j /\ (rval q == rval (n, d))%Q.
Proof.
  intros Hn Hd. pose proof (law_ratio_new n d ltac:(lia) ltac:(lia)) as H. destruct (ratio_new 512 n d) as [q|]; [|lia].
  destruct H as (_ & Hq & Eq). exists q. split_and!; [done|by apply (within_of q n d)|done].
Qed.
Lemma within_fits a b i j i' j' : within a i j -> within b i' j' -> 0 <= i -> 0 <= j -> 0 <= i' -> 0 <= j' -> i + i' <= 512 -> j + j' <= 512 ->
  in_u 512 (a.1 * b.1) /\ in_u 512 (a.2 * b.2).
Proof.
  intros ((A1 & A2 & _) & A3 & A4) ((B1 & B2 & _) & B3 & B4) Hi Hj Hi' Hj' S1 S2. split.
  - apply (in_u_lt _ (i + i')); [|lia]. by apply prod_lt.
  - apply (in_u_lt _ (j + j')); [|lia]. apply prod_lt; lia.
Qed.
Lemma delegator_reward_total base n d s D T rate : within base 256 160 -> (rval base == rval (n * D, d * T)%Z)%Q ->
  0 <= n < 2 ^ 160 -> 0 < d < 2 ^ 64 -> 0 < s <= D -> D <= T < 2 ^ 96 -> 0 <= rate <= 100 ->
  exists r, delegator_reward base D rate s = Ok r.
Proof.
  intros Hb Eb Hn Hd Hs HT Hr. unfold delegator_reward.
  destruct (within_new (E := AuctionError) s D 96 96) as (m & -> & Hm & Em); [lia|lia|]. cbn [mbind result_bind].
  destruct (within_fits _ _ _ _ _ _ Hb Hm) as [F1 F2]; [lia..|]. destruct (within_new (E := AuctionError) rate 100 7 7) as (cr & Ecr & Hcr & Vcr); [lia|lia|].
  pose proof (law_ratio_mul base m (proj1 Hb) (proj1 Hm)) as H. destruct (ratio_mul 512 base m) as [br|]; [|by exfalso; apply H].
  destruct H as [Rbr Ebr]. cbn [expect mbind result_bind]. change DELEGATION_RATE_DENOMINATOR with 100. rewrite Ecr. cbn [mbind result_bind].
  assert (inject_Z D == 0 -> False)%Q as ND by (apply pos_nonzero; lia). assert (inject_Z d == 0 -> False)%Q as Nd by (apply pos_nonzero; lia).
  assert (inject_Z T == 0 -> False)%Q as NT by (apply pos_nonzero; lia).
  assert (within br 256 160) as Hbr.
  { apply (within_of br (n * s) (d * T)); [done| |apply (prod_lt _ _ 160 96); lia|].
    - rewrite Ebr, Eb, Em, !rval_frac, !inject_Z_mult. field. auto.
    - pose proof (prod_lt d T 64 96 ltac:(lia) ltac:(lia) ltac:(lia) ltac:(lia)). split; [apply Z.mul_pos_pos; lia|]. lia. }
  destruct (within_fits _ _ _ _ _ _ Hbr Hcr) as [F3 F4]; [lia..|].
  pose proof (law_ratio_checked_times br cr Rbr (proj1 Hcr)) as H. destruct (ratio_checked_times 512 br cr) as [[c|]|]; [|by exfalso; apply H|done].
  destruct H as [Rc Ec]. cbn [expect ok_or mbind result_bind].
  assert (within c 263 167) as Hc.
  { apply (within_of c (br.1 * cr.1) (br.2 * cr.2)); [done| |apply (prod_lt _ _ 256 7); try lia|].
    - rewrite Ec. unfold rval. cbn [fst snd]. rewrite !inject_Z_mult. field. destruct Rbr as (_ & ?%pos_nonzero & _), Hcr as ((_ & ?%pos_nonzero & _) & _). auto.
    - destruct Hbr as ((? & ? & _) & ? & ?). lia.
    - destruct Hcr as ((? & ? & _) & ? & ?). lia.
    - destruct Hbr as ((? & ? & _) & ? & ?), Hcr as ((? & ? & _) & ? & ?). pose proof (prod_lt br.2 cr.2 160 7 ltac:(lia) ltac:(lia) ltac:(lia) ltac:(lia)). split; [apply Z.mul_pos_pos; lia|]. lia. }
  pose proof (law_ratio_checked_minus br c Rbr Rc) as H. destruct (ratio_checked_minus 512 br c) as [[q|]|]; [cbn; by eexists|exfalso|done].
  apply H. destruct Hbr as ((B1 & B2 & _) & B3 & B4), Hc as ((C1 & C2 & _) & C3 & C4). split_and!.
  - apply rval_le; [done|done|]. rewrite Ec, Vcr. pose proof (rval_nonneg br Rbr) as Hnn. rewrite rval_frac.
    assert (inject_Z rate / inject_Z 100 <= 1)%Q as Hle; [|rewrite <- (Qmult_1_r (rval br)) at 2; by apply Qmult_le_l'].
    apply Qle_shift_div_r; [done|]. rewrite Qmult_1_l, <- Zle_Qle. lia.
  - apply (in_u_lt _ (256 + 167)); [|lia]. apply prod_lt; lia.
  - apply (in_u_lt _ (160 + 167)); [|lia]. apply prod_lt; lia.
Qed.

(** The commission that a validator takes from a delegator, in percent. *)
Definition rate_for (r : SeigniorageRecipientV2) (kind : DelegatorKind) : Z :=
  default (r2_delegation_rate r) (btree_get kind (r2_reservation_delegation_rates r)).
Definition shares (total : Q) (T : Z) (r : SeigniorageRecipientV2) : list (DelegatorKind * Z) :=
  (fun p => (p.1, share total p.2 T (rate_for r p.1))) <$> r2_delegator_stake r.
(** A recipient as an auction leaves it: delegators with a stake, rates that are percentages. *)
Record recipient_wf (r : SeigniorageRecipientV2) : Prop := {
  wf_sorted : btree_sorted (r2_delegator_stake r);
  wf_own : 0 <= r2_stake r;
  wf_stakes : Forall (fun x => 0 < x.2) (r2_delegator_stake r);
  wf_rate : 0 <= r2_delegation_rate r <= 100;
  wf_rates : Forall (fun x => 0 <= x.2 <= 100) (r2_reservation_delegation_rates r)
}.
Lemma rate_for_ok r kind : recipient_wf r -> 0 <= rate_for r kind <= 100.
Proof.
  intros [_ _ _ Hr Hrs]. unfold rate_for. destruct (btree_get kind _) as [x|] eqn:E; cbn; [|done].
  exact (btree_get_all (fun x => 0 <= x.2 <= 100) kind x _ Hrs E).
Qed.
Lemma share_le total stake T rate : (0 <= total)%Q -> 0 <= stake -> 0 < T -> 0 <= rate <= 100 ->
  0 <= share total stake T rate /\ (inject_Z (share total stake T rate) <= total * (inject_Z stake / inject_Z T))%Q.
Proof.
  intros Ht Hs HT Hr. unfold share. change (inject_Z DELEGATION_RATE_DENOMINATOR) with 100%Q.
  assert (0 <= inject_Z rate / 100 <= 1)%Q as [R0 R1].
  { split; [apply Qle_shift_div_l|apply Qle_shift_div_r]; try done;
      [rewrite Qmult_0_l; change 0%Q with (inject_Z 0)|change (1 * 100)%Q with (inject_Z 100)]; rewrite <- Zle_Qle; lia. }
  assert (0 <= inject_Z stake / inject_Z T)%Q as S0.
  { apply Qle_shift_div_l; [change 0%Q with (inject_Z 0); by rewrite <- Zlt_Qlt|]. rewrite Qmult_0_l. change 0%Q with (inject_Z 0). by rewrite <- Zle_Qle. }
  pose proof (Qmult_le_0_compat _ _ Ht S0) as P0. split.
  - rewrite <- (Qfloor_Z 0). apply Qfloor_resp_le. apply Qmult_le_0_compat; [done|]. change (inject_Z 0) with 0%Q. lra.
  - eapply Qle_trans; [apply Qfloor_le|]. rewrite <- (Qmult_1_r (total * _)) at 2. apply Qmult_le_l'; [done|]. lra.
Qed.
Lemma shares_sum total T r : (0 <= total)%Q -> recipient_wf r -> 0 < T ->
  Forall (Z.le 0) (shares total T r).*2 /\ (inject_Z (zsum (shares total T r).*2) <= total * (inject_Z (zsum (r2_delegator_stake r).*2) / inject_Z T))%Q.
Proof.
  intros Ht Hwf HT. unfold shares. pose proof (wf_stakes r Hwf) as Hst. induction Hst as [|[k s] l Hs Hl IH].
  { split; [constructor|]. change (zsum _) with 0 at 1. change (zsum _) with 0. change (inject_Z 0) with 0%Q. unfold Qdiv. rewrite Qmult_0_l, Qmult_0_r. done. }
  destruct IH as [IH1 IH2]. destruct (share_le total s T (rate_for r k) Ht) as [S1 S2]; [cbn in Hs; lia|done|by apply rate_for_ok|].
  rewrite !fmap_cons. cbn [fst snd]. split; [by constructor|]. 
  set (L := (_ <$> l).*2) in *. change (zsum (?x :: L)) with (x + zsum L). change (zsum (s :: l.*2)) with (s + zsum l.*2). rewrite !inject_Z_plus.
  assert (total * ((inject_Z s + inject_Z (zsum l.*2)) / inject_Z T) == total * (inject_Z s / inject_Z T) + total * (inject_Z (zsum l.*2) / inject_Z T))%Q as ->.
  { field. by apply pos_nonzero. }
  by apply Qplus_le_compat.
Qed.

Lemma fold_rewards base D r l : forall acc, Forall (fun p => exists z, delegator_reward base D (rate_for r p.1) p.2 = Ok z) l ->
  foldl (fun acc '(kind, stake) =>
    m ← acc;
    reward ← delegator_reward base D (default (r2_delegation_rate r) (btree_get kind (r2_reservation_delegation_rates r))) stake;
    Ok (btree_insert kind reward m)) (Ok acc) l =
  Ok (foldl (fun m p => btree_insert p.1 p.2 m) acc ((fun p => (p.1, match delegator_reward base D (rate_for r p.1) p.2 with Ok z => z | _ => 0 end)) <$> l)).
Proof.
  induction l as [|[k s] l IH]; intros acc Hl; [done|]. apply Forall_cons in Hl as [[z Hz] Hl]. cbn [foldl mbind result_bind]. cbn [fst snd] in Hz.
  fold (rate_for r k). rewrite Hz. cbn [mbind result_bind]. rewrite IH by done. rewrite fmap_cons. cbn [foldl fst snd]. by rewrite Hz.
Qed.

(** C17: splitting the reward of a validator succeeds and is exact, for amounts well above the
    supply of the network: each delegator gets its share of the reward by stake, less the
    commission (its reserved rate, or the validator's), rounded down; the validator gets
    all the rest, so that the parts add up to the whole reward, rounded down. *)
Theorem reward_split_exact {LC : CurvesLaws C} total r T :
  reduced total -> total.1 < 2 ^ 160 -> total.2 < 2 ^ 64 -> recipient_wf r -> recipient_total_stake (SR_V2 r) = Some T -> T < 2 ^ 96 ->
  exists rewards, split_reward total (SR_V2 r) = Ok rewards /\
    delegator_rewards rewards = shares (rval total) T r /\ 0 <= validator_reward rewards /\
    validator_reward rewards + zsum (delegator_rewards rewards).*2 = Qfloor (rval total).
Proof.
  intros Ht Hn Hd Hwf ET HT. pose proof (wf_stakes r Hwf) as Hst.
  assert (Forall (Z.le 0) (r2_delegator_stake r).*2) as Hst0 by (rewrite Forall_fmap; eapply Forall_impl; [exact Hst|]; cbn; lia).
  pose proof ET as (D & ED & [ETD [HT0 _]]%checked_Some)%bind_Some. pose proof (checked_total_in _ _ ED) as HD.
  assert (D = zsum (r2_delegator_stake r).*2) as EDs by (by apply checked_total_value).
  pose proof (wf_own r Hwf) as Hown. unfold split_reward. rewrite ET. cbn [ok_or mbind result_bind].
  destruct (Z.eqb_spec T 0) as [E0|E0].
  { assert (r2_delegator_stake r = []) as Enil.
    { destruct (r2_delegator_stake r) as [|[k z] l] eqn:El; [done|]. exfalso. apply Forall_cons in Hst as [Hz Hl]. cbn in Hz.
      rewrite fmap_cons in Hst0. apply Forall_cons in Hst0 as [_ Hl0]. pose proof (zsum_nonneg _ Hl0).
      change (zsum ((k, z) :: l).*2) with (z + zsum l.*2) in EDs. lia. }
    eexists. split; [done|]. cbn [delegator_rewards validator_reward]. unfold shares. rewrite Enil. split_and!; [done|by apply floor_nonneg|].
    rewrite to_integer_floor. unfold zsum. cbn. lia. }
  change (recipient_delegator_total (SR_V2 r)) with (r2_delegator_total_stake r). rewrite ED. cbn [ok_or mbind result_bind].
  destruct (within_new (E := AuctionError) D T 96 96) as (m & -> & Hm & Em); [lia|lia|]. cbn [mbind result_bind].
  assert (within total 160 64) as Hwt by done. destruct (within_fits _ _ _ _ _ _ Hwt Hm) as [F1 F2]; [lia..|].
  pose proof (law_ratio_checked_times total m Ht (proj1 Hm)) as H. destruct (ratio_checked_times 512 total m) as [[base|]|]; [|by exfalso; apply H|done].
  destruct H as [Rb Eb]. cbn [expect ok_or mbind result_bind]. destruct total as [n d]. cbn [fst snd] in *.
  destruct Ht as (Hn0 & Hd0 & Hg). cbn [fst snd] in *.
  assert (rval base == rval (n * D, d * T)%Z)%Q as Vb.
  { rewrite Eb, Em, !rval_frac, !inject_Z_mult. field. split; apply pos_nonzero; lia. }
  assert (within base 256 160) as Hwb.
  { apply (within_of base (n * D) (d * T)); [done|done|apply (prod_lt _ _ 160 96); lia|].
    pose proof (prod_lt d T 64 96 ltac:(lia) ltac:(lia) ltac:(lia) ltac:(lia)). split; [apply Z.mul_pos_pos; lia|lia]. }
  assert (Forall (fun p => exists z, delegator_reward base D (rate_for r p.1) p.2 = Ok z /\ z = share (rval (n, d)) p.2 T (rate_for r p.1)) (r2_delegator_stake r)) as Hall.
  { apply Forall_forall. intros [k s] Hin. cbn [fst snd]. pose proof (proj1 (Forall_forall _ _) Hst _ Hin) as Hs. cbn in Hs.
    assert (s <= D) as HsD by (subst D; apply (zsum_elem_le _ _ Hst0), list_elem_of_fmap; by exists (k, s)).
    pose proof (rate_for_ok r k Hwf) as Hrk.
    destruct (delegator_reward_total base n d s D T (rate_for r k)) as [z Hz]; [done|done|lia|lia|lia|lia|lia|]. exists z. split; [done|].
    apply delegator_reward_value in Hz as [_ ->]; [|done|lia|lia|lia]. unfold share. apply Qfloor_comp. rewrite Vb, !rval_frac, !inject_Z_mult.
    field. split_and!; try apply pos_nonzero; try lia. done. }
  cbn [recipient_delegator_stake recipient_rate recipient_rates]. rewrite fold_rewards by (eapply Forall_impl; [exact Hall|]; intros p (z & Hz & _); by exists z).
  cbn [mbind result_bind].
  assert (((fun p => (p.1, match delegator_reward base D (rate_for r p.1) p.2 with Ok z => z | _ => 0 end)) <$> r2_delegator_stake r) = shares (rval (n, d)) T r) as ->.
  { unfold shares. apply list_fmap_ext. intros i p Hp. destruct (proj1 (Forall_lookup _ _) Hall i p Hp) as (z & -> & ->). done. }
  change (foldl _ [] (shares (rval (n, d)) T r)) with (btree_collect (shares (rval (n, d)) T r)).
  rewrite btree_collect_sorted by (apply (btree_sorted_map id); [done|apply Hwf]).
  assert (0 <= rval (n, d))%Q as Hq by (by apply rval_nonneg).
  destruct (shares_sum (rval (n, d)) T r Hq Hwf) as [Hs0 Hsle]; [lia|]. set (payout := zsum (shares (rval (n, d)) T r).*2) in *.
  assert (inject_Z payout <= rval (n, d))%Q as Hple.
  { eapply Qle_trans; [exact Hsle|]. rewrite <- EDs. rewrite <- (Qmult_1_r (rval (n, d))) at 2. apply Qmult_le_l'; [done|].
    apply Qle_shift_div_r; [change 0%Q with (inject_Z 0); rewrite <- Zlt_Qlt; lia|]. rewrite Qmult_1_l, <- Zle_Qle. lia. }
  pose proof (zsum_nonneg _ Hs0) as Hp0. fold payout in Hp0.
  assert (payout * d <= n) as Hpn.
  { pose proof (rval_le (n, d) (payout, 1) Hd0 ltac:(done)) as H. cbn [fst snd] in H. rewrite Z.mul_1_r in H. apply H. by rewrite rval_int. }
  assert (n < 2 ^ 512) by (pose proof (Z.pow_le_mono_r 2 160 512); lia).
  assert (payout <= n) by nia. rewrite u512_sum_ok by (done || (unfold u_max; lia)). cbn [mbind result_bind]. fold payout.
  pose proof (law_ratio_sub (n, d) (payout, 1) ltac:(done) (reduced_int payout Hp0)) as Hsub. destruct (ratio_sub 512 (n, d) (payout, 1)) as [rest|].
  - destruct Hsub as [Rr Er]. cbn [expect mbind result_bind]. eexists. split; [done|]. cbn [delegator_rewards validator_reward]. fold payout.
    split_and!; [done|by apply floor_nonneg|]. rewrite to_integer_floor, Er, rval_int, floor_sub_int. lia.
  - exfalso. apply Hsub. cbn [fst snd]. rewrite !Z.mul_1_r. pose proof (Z.pow_lt_mono_r 2 64 512). split_and!; [done|split; lia|split; lia].
Qed.

(** ** The rewards of an era *)

Definition snapshot_ok (snapshot : Snapshot) : Prop := Forall (fun p => Forall (fun x => recipient_ok (SR_V2 x.2)) p.2) snapshot.
Lemma btree_get_Forall {K V} `{TotalOrd K} (Q : V -> Prop) k v (m : list (K * V)) : Forall (fun x => Q x.2) m -> btree_get k m = Some v -> Q v.
Proof. intros Hm. exact (btree_get_all (fun x => Q x.2) k v m Hm). Qed.
(** The part of an amount that is not set aside. *)
Definition net (ratio : Z * Z) (amount : Z) : Z := Qfloor (inject_Z amount * (1 - rval ratio)).
Lemma net_0 ratio : net ratio 0 = 0.
Proof. unfold net. rewrite (Qfloor_comp _ (inject_Z 0)); [apply Qfloor_Z|]. change (inject_Z 0) with 0%Q. ring. Qed.
Lemma reward_of_era_paid v era sn ratio amount back o : snapshot_ok sn -> reduced ratio -> 0 <= amount ->
  reward_of_era v era (inr sn) ratio amount back = Ok o -> Forall info_ok (option_list o) /\ zsum (paid <$> option_list o) = net ratio amount.
Proof.
  intros Hsn Hr Ha. unfold reward_of_era. intros (one & (_ & H1 & E1)%new_Ok & H)%bind_Ok; [|done|done].
  apply bind_Ok in H as (f & [Hf Ef]%sub_Ok & H); [|done|done]. apply bind_Ok in H as (t & [Ht Et]%mul_Ok & H); [|by apply reduced_int|done].
  apply bind_Ok in H as (e & _ & H). apply bind_Ok in H as (rc & Hrc & H). cbn [snapshot_recipient] in Hrc.
  apply bind_Ok in Hrc as (rs & Hrs%ok_or_Ok & [= <-]). destruct (btree_get v rs) as [r|] eqn:Er; cbn in H.
  - apply bind_Ok in H as (rw & Hrw & [= <-]). apply split_reward_paid in Hrw as [Hi Hp]; [|done|].
    + split; [by apply Forall_singleton|]. change (paid rw + 0 = net ratio amount). rewrite Hp, Z.add_0_r. apply Qfloor_comp.
      rewrite Et, Ef, E1, rval_int. unfold rval at 1. cbn. field.
    + apply (btree_get_Forall (fun x => recipient_ok (SR_V2 x)) v r rs); [|done].
      exact (btree_get_Forall (fun x => Forall (fun y => recipient_ok (SR_V2 y.2)) x) e rs sn Hsn Hrs).
  - destruct (Z.eqb_spec amount 0) as [->|]; [|discriminate]. injection H as <-. by rewrite net_0.
Qed.

Lemma rewards_paid v era rewards sn ratio infos : snapshot_ok sn -> reduced ratio -> Forall (Z.le 0) rewards ->
  rewards_per_validator v era rewards (inr sn) ratio = Ok infos -> Forall info_ok infos /\ zsum (paid <$> infos) = zsum (net ratio <$> rewards).
Proof.
  intros Hsn Hr Hrw. unfold rewards_per_validator. set (l := imap _ rewards).
  assert (zsum (net ratio <$> rewards) = zsum (net ratio <$> (filter (fun p => p.2 <> 0 \/ p.1 = 0) l).*2)) as ->.
  { assert (forall (l : list (Z * Z)), zsum (net ratio <$> (filter (fun p => p.2 <> 0 \/ p.1 = 0) l).*2) = zsum (net ratio <$> l.*2)) as ->.
    { clear. induction l as [|[i z] l IH]; [done|]. rewrite filter_cons. case_decide as Hd; rewrite !fmap_cons; unfold zsum in *; cbn [foldr].
      - by rewrite IH.
      - rewrite IH. cbn [snd]. replace z with 0; [by rewrite net_0|]. cbn in Hd. lia. }
    do 2 f_equal. unfold l. rewrite fmap_imap. symmetry. apply list_eq. intros i. rewrite list_lookup_imap. by destruct (rewards !! i). }
  assert (Forall (fun p => 0 <= p.2) (filter (fun p => p.2 <> 0 \/ p.1 = 0) l)) as Hl.
  { apply Forall_forall. intros p [_ (i & a & -> & Ha)%elem_of_lookup_imap_1]%list_elem_of_filter. cbn. by eapply Forall_lookup in Hrw. }
  generalize (filter (fun p => p.2 <> 0 \/ p.1 = 0) l) Hl. clear l Hl. intros l Hl.
  assert (forall acc, Forall info_ok acc -> foldl (fun acc p => results ← acc; r ← reward_of_era v era (inr sn) ratio p.2 p.1; Ok (results ++ option_list r))
    (Ok acc) l = Ok infos -> Forall info_ok infos /\ zsum (paid <$> infos) = zsum (paid <$> acc) + zsum (net ratio <$> l.*2)) as Hf.
  { induction Hl as [|[i a] l Ha Hl IH]; intros acc Hacc; cbn [foldl mbind result_bind]; [intros [= <-]; split; [done|]; unfold zsum at 3; cbn [fmap list_fmap foldr]; lia|].
    destruct (reward_of_era v era (inr sn) ratio a i) as [o| | |] eqn:Eo; cbn [fst snd mbind result_bind]; rewrite ?Eo; cbn [mbind result_bind];
      [|clear; intros F; exfalso; induction l as [|[] l IHl]; cbn [foldl mbind result_bind] in F; [done|by apply IHl]..].
    destruct (reward_of_era_paid _ _ _ _ _ _ _ Hsn Hr Ha Eo) as [Hi Hp].
    intros [Hi' Hs']%IH; [|by apply Forall_app]. split; [done|]. rewrite Hs', fmap_app, zsum_app, Hp, !fmap_cons. unfold zsum. cbn [foldr snd]. lia. }
  intros [Hi Hs]%Hf; [|done]. done.
Qed.
Lemma net_sum ratio l : zsum (net ratio <$> l) <= net ratio (zsum l).
Proof.
  induction l as [|a l IH]; [by rewrite net_0|]. rewrite fmap_cons. change (zsum (net ratio a :: (net ratio <$> l))) with (net ratio a + zsum (net ratio <$> l)).
  change (zsum (a :: l)) with (a + zsum l). etrans; [apply Z.add_le_mono_l, IH|]. unfold net. etrans; [apply floor_add|].
  apply Z.eq_le_incl, Qfloor_comp. rewrite inject_Z_plus. ring.
Qed.
(** What is set aside and what is paid are together at most the rewards. *)
Lemma set_aside_sum ratio l : Qfloor (rval ratio * inject_Z (zsum l)) + zsum (net ratio <$> l) <= zsum l.
Proof.
  etrans; [apply Z.add_le_mono_l, net_sum|]. unfold net. etrans; [apply floor_add|]. rewrite <- (Qfloor_Z (zsum l)) at 3.
  apply Z.eq_le_incl, Qfloor_comp. ring.
Qed.
Lemma ratio_le_1 q n d : reduced q -> (rval q == rval (n, d))%Q -> 0 <= n <= d -> 0 < d -> q.1 <= q.2.
Proof. intros (H1 & H2 & _) E Hn Hd. apply cross in E; [|done|done]. cbn in E. nia. Qed.
Lemma net_nonneg ratio a : reduced ratio -> ratio.1 <= ratio.2 -> 0 <= a -> 0 <= net ratio a.
Proof.
  intros (H1 & H2 & _) Hle Ha. unfold net. rewrite <- (Qfloor_Z 0). apply Qfloor_resp_le. change (inject_Z 0) with 0%Q.
  apply Qmult_le_0_compat; [change 0%Q with (inject_Z 0); by rewrite <- Zle_Qle|].
  assert (rval ratio <= 1)%Q; [|lra]. unfold rval. apply Qle_shift_div_r; [change 0%Q with (inject_Z 0); by rewrite <- Zlt_Qlt|].
  rewrite Qmult_1_l, <- Zle_Qle. done.
Qed.
Lemma set_aside_le {E} ratio total q l : reduced ratio -> 0 <= zsum l -> expect (E := E) (ratio_new 512 (zsum l) 1) = Ok total ->
  expect (E := E) (ratio_mul 512 ratio total) = Ok q -> 0 <= to_integer q /\ to_integer q + zsum (net ratio <$> l) <= zsum l.
Proof.
  intros Hr Hl (_ & Ht & Et)%new_Ok [Hq Eq]%mul_Ok; [|done|done|done|done]. split; [by apply floor_nonneg|].
  rewrite to_integer_floor, (Qfloor_comp _ (rval ratio * inject_Z (zsum l))); [apply set_aside_sum|]. by rewrite Eq, Et, rval_int.
Qed.
End split.

(** ** Exact arithmetic in lowest terms *)

Definition lowest (n d : Z) : Z * Z := let g := Z.gcd n d in (n / g, d / g).
Definition fitting (w : Z) (q : Z * Z) : option (Z * Z) := if decide (in_u w q.1 /\ in_u w q.2) then Some q else None.
Definition plain_mul (w : Z) (a b : Z * Z) : option (Z * Z) := fitting w (lowest (a.1 * b.1) (a.2 * b.2)).
Definition plain_sub (w : Z) (a b : Z * Z) : option (Z * Z) :=
  let n := a.1 * b.2 - b.1 * a.2 in if n <? 0 then None else fitting w (lowest n (a.2 * b.2)).
Definition plain_arith : RatioArith := {|
  ratio_new w n d := if d =? 0 then None else Some (lowest n d);
  ratio_mul := plain_mul;
  ratio_sub := plain_sub;
  ratio_checked_times w a b := Some (plain_mul w a b);
  ratio_checked_minus w a b := Some (plain_sub w a b)
|}.
Lemma lowest_spec n d : 0 <= n -> 0 < d -> reduced (lowest n d) /\ (rval (lowest n d) == rval (n, d))%Q.
Proof.
  intros Hn Hd. unfold lowest. set (g := Z.gcd n d). assert (0 < g) as Hg by (pose proof (Z.gcd_nonneg n d); assert (g <> 0); [|lia]; intros [_ E]%Z.gcd_eq_0; lia).
  assert (n = g * (n / g)) as En by (apply Z.div_exact; [lia|apply Z.mod_divide; [lia|apply Z.gcd_divide_l]]).
  assert (d = g * (d / g)) as Ed by (apply Z.div_exact; [lia|apply Z.mod_divide; [lia|apply Z.gcd_divide_r]]).
  assert (0 < d / g) as Hd' by nia. split.
  - split_and!; cbn [fst snd]; [apply Z.div_pos; lia|done|]. apply Z.gcd_div_gcd; [lia|done].
  - set (n' := n / g) in *. set (d' := d / g) in *. rewrite !rval_frac, En, Ed, !inject_Z_mult. field. split; by apply pos_nonzero.
Qed.
Lemma fitting_spec n d : 0 <= n -> 0 < d ->
  match fitting 512 (lowest n d) with
  | Some q => reduced q /\ (rval q == rval (n, d))%Q
  | None => ~ (in_u 512 n /\ in_u 512 d)
  end.
Proof.
  intros Hn Hd. destruct (lowest_spec n d Hn Hd) as [Hr Hv]. unfold fitting. case_decide as Hf; [done|]. intros [Un Ud]. apply Hf.
  destruct (reduced_least _ _ _ Hr Hn Hd Hv) as [L1 L2], Hr as (R1 & R2 & _). unfold in_u in *. lia.
Qed.
Lemma plain_mul_spec a b : reduced a -> reduced b ->
  match plain_mul 512 a b with
  | Some q => reduced q /\ (rval q == rval a * rval b)%Q
  | None => ~ (in_u 512 (a.1 * b.1) /\ in_u 512 (a.2 * b.2))
  end.
Proof.
  destruct a as [n d], b as [n' d']. intros (A1 & A2 & _) (B1 & B2 & _). cbn [fst snd] in *.
  pose proof (fitting_spec (n * n') (d * d') ltac:(nia) ltac:(nia)) as H. unfold plain_mul. cbn [fst snd].
  destruct (fitting 512 _) as [q|]; [|done]. destruct H as [Hq E]. split; [done|]. rewrite E, !rval_frac, !inject_Z_mult. field.
  split; by apply pos_nonzero.
Qed.
Lemma plain_sub_spec a b : reduced a -> reduced b ->
  match plain_sub 512 a b with
  | Some q => reduced q /\ (rval q == rval a - rval b)%Q
  | None => ~ (b.1 * a.2 <= a.1 * b.2 /\ in_u 512 (a.1 * b.2) /\ in_u 512 (a.2 * b.2))
  end.
Proof.
  destruct a as [n d], b as [n' d']. intros (A1 & A2 & _) (B1 & B2 & _). cbn [fst snd] in *. unfold plain_sub. cbn [fst snd].
  destruct (Z.ltb_spec (n * d' - n' * d) 0) as [Hlt|Hge]; [lia|].
  pose proof (fitting_spec (n * d' - n' * d) (d * d') Hge ltac:(nia)) as H. destruct (fitting 512 _) as [q|].
  - destruct H as [Hq E]. split; [done|]. unfold Z.sub in E. rewrite E, !rval_frac, inject_Z_plus, inject_Z_opp, !inject_Z_mult. field.
    split; by apply pos_nonzero.
  - intros (Hle & U1 & U2). apply H. split; [|done]. unfold in_u in *. nia.
Qed.
#[export] Instance plain_arith_laws : RatioArithLaws (R := plain_arith).
Proof.
  split; cbn [ratio_new ratio_mul ratio_sub ratio_checked_times ratio_checked_minus plain_arith].
  - intros n d Hn Hd. destruct (Z.eqb_spec d 0) as [->|Hne]; [done|]. split; [done|]. apply lowest_spec; lia.
  - apply plain_mul_spec.
  - apply plain_sub_spec.
  - apply plain_mul_spec.
  - apply plain_sub_spec.
Qed.

(** A reward of 1000 and a half, over a stake of 500 and delegations of 300 and 200, the second
    with a reserved rate of 50 percent. *)
Definition example_recipient : SeigniorageRecipientV2 (C := raw_curves) :=
  mkRecipientV2 500 10 [(DK_Purse (vreplicate 32 Byte.x01), 300); (DK_Purse (vreplicate 32 Byte.x02), 200)] [(DK_Purse (vreplicate 32 Byte.x02), 50)].
Lemma example_recipient_wf : recipient_wf example_recipient.
Proof. split; cbn; [|lia| |lia|]; repeat constructor; cbn; lia || done. Qed.
Lemma reward_split_exact_witness : exists rewards,
  split_reward (R := plain_arith) (2001, 2) (SR_V2 example_recipient) = Ok rewards /\
  (delegator_rewards rewards).*2 = [270; 100] /\ validator_reward rewards = 630.
Proof.
  destruct (reward_split_exact (R := plain_arith) (C := raw_curves) (2001, 2) example_recipient 1000) as (rewards & E & Ed & _ & Es);
    [by split_and!|done|done|apply example_recipient_wf|done|done|].
  exists rewards. split; [done|].
  assert ((delegator_rewards rewards).*2 = [270; 100]) as Hd by (rewrite Ed; by vm_compute). split; [done|].
  rewrite Hd in Es. vm_compute (Qfloor _) in Es. unfold zsum in Es. cbn [foldr] in Es. lia.
Defined.
