(* ===== verification/AuctionBooks.v ===== *)
(** * The books of the auction

    What the state means to the auction: the balance of each purse, the records of the bids,
    how much can still be minted, and the main purse of the caller. [owed] is what the records say is staked in a purse or
    waiting to be paid out of it. The laws of the auction's providers ([auction/providers.rs])
    say what they do to the books. *)
From S2P Require Import Prelude Effects BTree Bytesrepr Struct Digest PublicKey Uint Units Access CLType Account Key KeyState Bids BidKinds Transform Balances Mint Auction AuctionRewards.

Open Scope Z_scope.

(** ** Steps of the entry points *)

(** What holds after a success and after an error; a panic aborts the call. *)
Definition ends {S E A} (m : st S E A) (s : S) (Q : A -> S -> Prop) (F : E -> S -> Prop) : Prop :=
  yields m s (fun r s' => match r with Ok a => Q a s' | Err e => F e s' | _ => True end).
Abbreviation succeeds m s Q := (ends m s Q (fun _ _ => True)).

Section steps.
Context {S E : Type}.
Implicit Types (s : S) (e : E).

Lemma ends_bind {A B} (m : st S E A) (f : A -> st S E B) s (Q' : A -> S -> Prop) (F' : E -> S -> Prop) Q F :
  ends m s Q' F' -> (forall a s', Q' a s' -> ends (f a) s' Q F) -> (forall e s', F' e s' -> F e s') -> ends (m ≫= f) s Q F.
Proof.
  unfold ends in *. intros Hm Hf HF. apply yields_bind, (yields_impl _ _ _ _ Hm).
  intros [a|e| |] s' H; [by apply Hf|by apply HF|done|done].
Qed.
Lemma ends_impl {A} (m : st S E A) s (Q' : A -> S -> Prop) (F' : E -> S -> Prop) Q F :
  ends m s Q' F' -> (forall a s', Q' a s' -> Q a s') -> (forall e s', F' e s' -> F e s') -> ends m s Q F.
Proof. unfold ends in *. intros Hm HQ HF. apply (yields_impl _ _ _ _ Hm). intros [a|e| |] s' H; auto. Qed.
(** A step whose error is not looked at. *)
Lemma succeeds_bind {A B} (m : st S E A) (f : A -> st S E B) s (Q' : A -> S -> Prop) (F' : E -> S -> Prop) Q :
  ends m s Q' F' -> (forall a s', Q' a s' -> succeeds (f a) s' Q) -> succeeds (m ≫= f) s Q.
Proof. intros Hm Hf. by eapply ends_bind. Qed.
Lemma succeeds_impl {A} (m : st S E A) s (Q' : A -> S -> Prop) (F' : E -> S -> Prop) (Q : A -> S -> Prop) :
  ends m s Q' F' -> (forall a s', Q' a s' -> Q a s') -> succeeds m s Q.
Proof. intros Hm HQ. by eapply ends_impl. Qed.
Lemma ends_ret {A} (a : A) s (Q : A -> S -> Prop) (F : E -> S -> Prop) : Q a s -> ends (mret a) s Q F.
Proof. done. Qed.
Lemma ends_throw {A} e s (Q : A -> S -> Prop) (F : E -> S -> Prop) : F e s -> ends (throw e) s Q F.
Proof. done. Qed.
Lemma ends_asks {A B} (f : S -> A) (k : A -> st S E B) s Q F : ends (k (f s)) s Q F -> ends (asks f ≫= k) s Q F.
Proof. done. Qed.
Lemma ends_modify {A} (f : S -> S) (k : () -> st S E A) s Q F : ends (k ()) (f s) Q F -> ends (modify f ≫= k) s Q F.
Proof. done. Qed.
Lemma ends_modified (f : S -> S) s (Q : () -> S -> Prop) (F : E -> S -> Prop) : Q () (f s) -> ends (modify f) s Q F.
Proof. done. Qed.
Lemma ends_lift {A} (r : result E A) s (Q : A -> S -> Prop) (F : E -> S -> Prop) :
  (forall a, r = Ok a -> Q a s) -> (forall e, r = Err e -> F e s) -> ends (lift r) s Q F.
Proof. intros HQ HF. unfold ends, yields, lift. cbn. destruct r; auto. Qed.
Lemma ends_lift_bind {A B} (r : result E A) (k : A -> st S E B) s Q (F : E -> S -> Prop) :
  (forall a, r = Ok a -> ends (k a) s Q F) -> (forall e, r = Err e -> F e s) -> ends (lift r ≫= k) s Q F.
Proof.
  intros HQ HF. eapply (ends_bind _ _ _ (fun a s' => s' = s /\ r = Ok a) (fun e s' => s' = s /\ r = Err e)).
  - apply ends_lift; auto.
  - intros a s' [-> Hr]. auto.
  - intros e s' [-> Hr]. auto.
Qed.
Lemma ends_fail_if {A} (b : bool) e (k : () -> st S E A) s Q (F : E -> S -> Prop) :
  (b = true -> F e s) -> (b = false -> ends (k ()) s Q F) -> ends (fail_if b e ≫= k) s Q F.
Proof. destruct b; [intros H _; exact (H eq_refl)|intros _ H; exact (H eq_refl)]. Qed.
Lemma ends_map_err {E' A} (f : E -> E') (m : st S E A) s (Q : A -> S -> Prop) (F : E' -> S -> Prop) :
  ends m s Q (fun e => F (f e)) -> ends (st_map_err f m) s Q F.
Proof. unfold ends, yields, st_map_err. destruct (m s) as [[] ?]; done. Qed.
Lemma succeeds_map_err {E' A} (f : E -> E') (m : st S E A) s (Q : A -> S -> Prop) : succeeds m s Q -> succeeds (st_map_err f m) s Q.
Proof. intros Hm. by apply ends_map_err. Qed.
Lemma ends_attempt {E' A B} (m : st S E A) (k : result E A -> st S E' B) s Q F :
  ends m s (fun a s' => ends (k (Ok a)) s' Q F) (fun e s' => ends (k (Err e)) s' Q F) -> ends (attempt m ≫= k) s Q F.
Proof. unfold ends, yields, attempt, mbind, st_bind. destruct (m s) as [[] ?]; done. Qed.

(** Loops that keep an invariant over what is left to do. *)
Lemma iterate_ends {A} (f : A -> st S E ()) (I : list A -> S -> Prop) l : forall s,
  I l s -> (forall a l s, I (a :: l) s -> succeeds (f a) s (fun _ s' => I l s')) -> succeeds (iterate l f) s (fun _ s' => I [] s').
Proof.
  induction l as [|a l IH]; intros s HI Hf; cbn [iterate]; [by apply ends_ret|].
  eapply succeeds_bind; [by apply Hf|]. intros [] s' HI'. by apply IH.
Qed.
Lemma accumulate_ends {A B} (f : B -> A -> st S E B) (I : list A -> B -> S -> Prop) l : forall b s,
  I l b s -> (forall a l b s, I (a :: l) b s -> succeeds (f b a) s (I l)) -> succeeds (accumulate l f b) s (I []).
Proof.
  induction l as [|a l IH]; intros b s HI Hf; cbn [accumulate]; [by apply ends_ret|].
  eapply succeeds_bind; [by apply Hf|]. intros b' s' HI'. by apply IH.
Qed.
End steps.

(** ** Books *)

Section books.
Context {C : Curves}.

Record Books : Type := mkBooks {
  bk_balance : URefAddr -> Z;
  bk_bids : gmap BidAddr BidKind;
  bk_room : Z;
  bk_main : result AuctionError URef
}.
Definition with_bids (B : Books) (bids : gmap BidAddr BidKind) : Books := mkBooks (bk_balance B) bids (bk_room B) (bk_main B).
Definition set_bid (B : Books) (a : BidAddr) (k : BidKind) : Books := with_bids B (<[a := k]> (bk_bids B)).
Definition drop_bid (B : Books) (a : BidAddr) : Books := with_bids B (delete a (bk_bids B)).

(** An amount, if it is in a given purse. *)
Definition amount_at (purse : URef) (z : Z) (p : URefAddr) : Z := if decide (addr purse = p) then z else 0.
(** What a record says is in a purse. Records of the kind [Unified] are those of an older
    version of the protocol, which the auction does not use. *)
Definition owed_by (k : BidKind) (p : URefAddr) : Z :=
  match k with
  | BK_Validator b => amount_at (vb_bonding_purse b) (vb_staked_amount b) p
  | BK_Delegator d => amount_at (db_bonding_purse d) (db_staked_amount d) p
  | BK_Unbond u => zsum ((fun e => amount_at (ue_bonding_purse e) (ue_amount e) p) <$> ub_eras u)
  | BK_Unified _ | BK_Bridge _ | BK_Credit _ | BK_Reservation _ => 0
  end.
Definition owed_at (o : option BidKind) (p : URefAddr) : Z := from_option (fun k => owed_by k p) 0 o.
Definition owed (bids : gmap BidAddr BidKind) (p : URefAddr) : Z := zsum ((fun x => owed_by x.2 p) <$> map_to_list bids).
(** What is owed from a purse and not in it. *)
Definition gap (B : Books) (p : URefAddr) : Z := owed (bk_bids B) p - bk_balance B p.
Definition backed (B : Books) : Prop := forall p, gap B p <= 0.

Definition amounts_ok (k : BidKind) : Prop :=
  match k with
  | BK_Validator b => 0 <= vb_staked_amount b
  | BK_Delegator d => 0 <= db_staked_amount d
  | BK_Unbond u => Forall (fun e => 0 <= ue_amount e) (ub_eras u)
  | _ => True
  end.

Lemma owed_insert_new bids a k p : bids !! a = None -> owed (<[a := k]> bids) p = owed_by k p + owed bids p.
Proof. intros Ha. unfold owed. by rewrite map_to_list_insert. Qed.
Lemma owed_delete bids a p : owed (delete a bids) p = owed bids p - owed_at (bids !! a) p.
Proof.
  destruct (bids !! a) as [k|] eqn:E; cbn [owed_at from_option].
  - rewrite <- (insert_delete_id bids a k E) at 2. rewrite owed_insert_new by apply lookup_delete_eq. lia.
  - rewrite delete_id by done. lia.
Qed.
Lemma owed_insert bids a k p : owed (<[a := k]> bids) p = owed bids p - owed_at (bids !! a) p + owed_by k p.
Proof. rewrite <- insert_delete_eq, owed_insert_new by apply lookup_delete_eq. rewrite owed_delete. lia. Qed.
Lemma amount_at_nonneg u z p : 0 <= z -> 0 <= amount_at u z p.
Proof. unfold amount_at. by case_decide. Qed.
Lemma amount_at_add u z z' p : amount_at u (z + z') p = amount_at u z p + amount_at u z' p.
Proof. unfold amount_at. by case_decide. Qed.
Lemma amount_at_sub u z z' p : amount_at u (z - z') p = amount_at u z p - amount_at u z' p.
Proof. unfold amount_at. by case_decide. Qed.
Lemma amount_at_0 u p : amount_at u 0 p = 0.
Proof. unfold amount_at. by case_decide. Qed.
Lemma amount_at_le u z z' p : z <= z' -> amount_at u z p <= amount_at u z' p.
Proof. unfold amount_at. by case_decide. Qed.
Lemma owed_by_nonneg k p : amounts_ok k -> 0 <= owed_by k p.
Proof.
  destruct k; cbn; try done; try apply amount_at_nonneg. intros H. apply zsum_nonneg, Forall_fmap.
  eapply Forall_impl; [exact H|]. intros e. apply amount_at_nonneg.
Qed.
End books.

Section placed.
Context {C : Curves} (blake2b : list u8 -> vec u8 32).

(** Records are stored at their own address; a bridge also at that of the new key. *)
Definition placed (a : BidAddr) (k : BidKind) : Prop :=
  a = bid_addr blake2b k \/
  match k with BK_Bridge b => a = BA_ValidatorRev (to_account_hash blake2b (br_new b)) | _ => False end.
Definition wf (bids : gmap BidAddr BidKind) : Prop := map_Forall (fun a k => placed a k /\ amounts_ok k) bids.

(** How books change: well-formed records stay so, the gap of a purse grows by at most [d],
    and at most [m] is minted. *)
Record evolves (B : Books) (d : URefAddr -> Z) (m : Z) (B' : Books) : Prop := {
  ev_wf : wf (bk_bids B) -> wf (bk_bids B');
  ev_gap p : gap B' p <= gap B p + d p;
  ev_room : bk_room B - m <= bk_room B'
}.
Definition none (p : URefAddr) : Z := 0.

Lemma evolves_refl B d m : (forall p, 0 <= d p) -> 0 <= m -> evolves B d m B.
Proof. intros Hd Hm. split; [done| |lia]. intros p. specialize (Hd p). lia. Qed.
Lemma evolves_trans B1 B2 B3 d1 d2 d m1 m2 m :
  evolves B1 d1 m1 B2 -> evolves B2 d2 m2 B3 -> (forall p, d1 p + d2 p <= d p) -> m1 + m2 <= m -> evolves B1 d m B3.
Proof.
  intros [W1 G1 R1] [W2 G2 R2] Hd Hm. split; [auto| |lia]. intros p. specialize (G1 p). specialize (G2 p). specialize (Hd p). lia.
Qed.
Lemma evolves_impl B d d' m m' B' : evolves B d m B' -> (forall p, d p <= d' p) -> m <= m' -> evolves B d' m' B'.
Proof. intros [W G R] Hd Hm. split; [done| |lia]. intros p. specialize (G p). specialize (Hd p). lia. Qed.
Lemma evolves_set B a k d : placed a k -> amounts_ok k -> (forall p, owed_by k p - owed_at (bk_bids B !! a) p <= d p) -> evolves B d 0 (set_bid B a k).
Proof.
  intros Hp Ha Hd. split.
  - intros W. cbn. by apply map_Forall_insert_2.
  - intros p. unfold gap. cbn. rewrite owed_insert. specialize (Hd p). lia.
  - cbn. lia.
Qed.
Lemma evolves_drop B a d : (forall p, - owed_at (bk_bids B !! a) p <= d p) -> evolves B d 0 (drop_bid B a).
Proof.
  intros Hd. split.
  - intros W. cbn. by apply map_Forall_delete.
  - intros p. unfold gap. cbn. rewrite owed_delete. specialize (Hd p). lia.
  - cbn. lia.
Qed.
Lemma wf_at B a k : wf (bk_bids B) -> bk_bids B !! a = Some k -> placed a k /\ amounts_ok k.
Proof. intros W. apply W. Qed.
Lemma owed_at_nonneg B a p : wf (bk_bids B) -> 0 <= owed_at (bk_bids B !! a) p.
Proof.
  intros W. destruct (bk_bids B !! a) as [k|] eqn:E; [|done]. cbn. by apply owed_by_nonneg, (wf_at B a).
Qed.
Lemma evolves_prune B a : wf (bk_bids B) -> evolves B none 0 (drop_bid B a).
Proof. intros W. apply evolves_drop. intros p. pose proof (owed_at_nonneg B a p W). unfold none. lia. Qed.

(** Money moves from one purse to another, or is minted. *)
Definition moved (B : Books) (source target : URef) (z : Z) (B' : Books) : Prop :=
  bk_bids B' = bk_bids B /\ bk_main B' = bk_main B /\ bk_room B' = bk_room B /\ z <= bk_balance B (addr source) /\
  forall p, bk_balance B' p = bk_balance B p - amount_at source z p + amount_at target z p.
Definition minted_into (B : Books) (target : URef) (z : Z) (B' : Books) : Prop :=
  bk_bids B' = bk_bids B /\ bk_main B' = bk_main B /\ bk_room B' = bk_room B - z /\ forall p, bk_balance B' p = bk_balance B p + amount_at target z p.
Lemma moved_evolves B source target z B' : moved B source target z B' ->
  evolves B (fun p => amount_at source z p - amount_at target z p) 0 B'.
Proof.
  intros (Eb & _ & Er & _ & Hp). split; [by rewrite Eb| |lia]. intros p. unfold gap. rewrite Eb, Hp. lia.
Qed.
Lemma minted_evolves B target z B' : minted_into B target z B' -> evolves B (fun p => - amount_at target z p) z B'.
Proof.
  intros (Eb & _ & Er & Hp). split; [by rewrite Eb| |lia]. intros p. unfold gap. rewrite Eb, Hp. lia.
Qed.
End placed.

(** ** What the providers promise *)

Section laws.
Context {C : Curves} {S : Type} {P : AuctionProvider S} (books : S -> Books -> Prop).
Implicit Types (s : S) (B : Books).

(** A method that leaves the books as they are. *)
Definition reads {E A} (m : st S E A) s B (Q : A -> Prop) : Prop :=
  ends m s (fun a s' => books s' B /\ Q a) (fun _ s' => books s' B).
(** A key that starts with a prefix. *)
Definition starts_with (p : list u8) (k : Key) : Prop := exists b, to_bytes k = Ok b /\ p `prefix_of` b.

Class AuctionLaws : Prop := {
  law_main_purse s B : books s B -> auction_main_purse s = bk_main B;
  law_keys s B t : books s B -> reads (get_keys t) s B (Forall (fun k => key_ok k /\ key_tag k = t));
  law_keys_by_prefix s B p : books s B -> reads (get_keys_by_prefix p) s B (fun ks => NoDup ks /\ Forall key_ok ks /\ Forall (starts_with p) ks);
  law_delegator_count s B a : books s B -> reads (delegator_count a) s B (fun _ => True);
  law_reservation_count s B a : books s B -> reads (reservation_count a) s B (fun _ => True);
  law_used_reservation_count s B a : books s B -> reads (used_reservation_count a) s B (fun _ => True);
  law_read_number s B n u : books s B -> reads (read_number n u) s B (fun o => forall z, o = Some z -> in_u (bits n) z);
  law_write_number s B n u z : books s B -> succeeds (write_number n u z) s (fun _ s' => books s' B);
  law_read_snapshot s B u : books s B -> reads (read_snapshot u) s B (fun o => forall sn, o = Some sn -> snapshot_ok sn);
  law_write_snapshot s B u v : books s B -> succeeds (write_snapshot u v) s (fun _ s' => books s' B);
  law_read_bid s B k : books s B -> key_ok k -> reads (read_bid k) s B (fun o => forall a, k = Key_BidAddr a -> o = bk_bids B !! a);
  law_write_bid s B a k : books s B -> bid_ok a -> ends (write_bid (Key_BidAddr a) k) s (fun _ s' => books s' (set_bid B a k)) (fun _ _ => False);
  law_read_unbond s B a : books s B -> bid_ok a -> reads (read_unbond a) s B (fun o => BK_Unbond <$> o = bk_bids B !! a);
  law_write_unbond s B a o : books s B -> bid_ok a ->
    succeeds (write_unbond a o) s (fun _ s' => books s' (match o with Some u => set_bid B a (BK_Unbond u) | None => drop_bid B a end));
  law_record_era_info s B i : books s B -> succeeds (record_era_info i) s (fun _ s' => books s' B);
  law_prune_bid s B a : books s B -> bid_ok a -> books (prune_bid a s) (drop_bid B a);
  law_unbond s B k e : books s B -> 0 <= ue_amount e ->
    succeeds (unbond k e) s (fun _ s' => exists target B', books s' B' /\ moved B (ue_bonding_purse e) target (ue_amount e) B');
  law_transfer s B to source target z id : books s B -> 0 <= z ->
    succeeds (mint_transfer_direct to source target z id) s (fun r s' => r = Ok () -> exists B', books s' B' /\ moved B source target z B');
  law_mint_into s B z u : books s B -> 0 <= z <= bk_room B ->
    succeeds (auction_mint_into z u) s (fun _ s' => exists B', books s' B' /\ minted_into B u z B');
  law_create s B : books s B -> reads create_purse s B (fun _ => True);
  law_available_balance s B u : books s B -> reads (auction_available_balance u) s B (fun _ => True);
  law_reduce s B z : books s B -> 0 <= z -> succeeds (auction_reduce_total_supply z) s (fun _ s' => books s' B)
}.
End laws.
