(* ===== verification/AuctionSteps.v ===== *)
(** * The steps of the auction on its books

    The parts that the entry points share ([auction/detail.rs]): reading records, unbonding,
    delegating, paying rewards. Each changes what is owed from a purse by as much as it changes
    the balance, or by the amount that its caller accounts for. *)
From S2P Require Import Prelude Effects BTree Bytesrepr Struct Digest PublicKey Uint Units Access CLType Account Key KeyState Bids BidKinds Transform Balances Mint Auction AuctionRewards AuctionBooks.

Open Scope Z_scope.

Section steps.
Context {C : Curves} (blake2b : list u8 -> vec u8 32) {R : RatioArith}.
Context {S : Type} {P : AuctionProvider S} (books : S -> Books -> Prop) {AL : AuctionLaws books}.
Abbreviation hash_of := (to_account_hash blake2b).
Abbreviation evolves := (evolves blake2b).
Abbreviation wf := (wf blake2b).
Implicit Types (s : S) (B : Books).

(** A method that changes the books. *)
Definition updates {E A} (m : st S E A) s B (d : URefAddr -> Z) (z : Z) (Q : A -> Books -> Prop) : Prop :=
  succeeds m s (fun a s' => exists B', books s' B' /\ evolves B d z B' /\ Q a B').

Lemma reads_bind {E A A'} (m : st S E A) (f : A -> st S E A') s B (Q' : A -> Prop) Q :
  reads books m s B Q' -> (forall a s', books s' B -> Q' a -> succeeds (f a) s' Q) -> succeeds (m ≫= f) s Q.
Proof. intros Hm Hf. eapply succeeds_bind; [exact Hm|]. intros a s' [HB HQ]. by apply Hf. Qed.
Lemma reads_then {E A A'} (m : st S E A) (f : A -> st S E A') s B (Q' : A -> Prop) (Q : A' -> Prop) :
  reads books m s B Q' -> (forall a s', books s' B -> Q' a -> reads books (f a) s' B Q) -> reads books (m ≫= f) s B Q.
Proof. intros Hm Hf. eapply ends_bind; [exact Hm| |done]. intros a s' [HB HQ]. by apply Hf. Qed.
Lemma reads_ret {E A} (a : A) s B (Q : A -> Prop) : books s B -> Q a -> reads (E := E) books (mret a) s B Q.
Proof. intros HB HQ. by apply ends_ret. Qed.
Lemma reads_throw {E A} (e : E) s B (Q : A -> Prop) : books s B -> reads books (throw e) s B Q.
Proof. intros HB. by apply ends_throw. Qed.
Lemma reads_lift {E A} (r : result E A) s B (Q : A -> Prop) : books s B -> (forall a, r = Ok a -> Q a) -> reads books (lift r) s B Q.
Proof. intros HB HQ. apply ends_lift; auto. Qed.
Lemma reads_fail_if {E A} b (e : E) (k : () -> st S E A) s B Q : books s B -> (b = false -> reads books (k ()) s B Q) -> reads books (fail_if b e ≫= k) s B Q.
Proof. intros HB Hk. apply ends_fail_if; auto. Qed.
Lemma reads_impl {E A} (m : st S E A) s B (Q Q' : A -> Prop) : reads books m s B Q -> (forall a, Q a -> Q' a) -> reads books m s B Q'.
Proof. intros Hm HQ. eapply ends_impl; [exact Hm| |done]. intros a s' [HB H]. auto. Qed.
Lemma reads_map_err {E E' A} (f : E -> E') (m : st S E A) s B Q : reads books m s B Q -> reads books (st_map_err f m) s B Q.
Proof. intros Hm. by apply ends_map_err. Qed.
Lemma reads_attempt {E E' A A'} (m : st S E A) (k : result E A -> st S E' A') s B Q (Q' : A' -> Prop) :
  reads books m s B Q -> (forall r s', books s' B -> match r with Ok a => Q a | Err _ => True | _ => False end -> reads books (k r) s' B Q') ->
  reads books (attempt m ≫= k) s B Q'.
Proof. intros Hm Hk. apply ends_attempt. eapply ends_impl; [exact Hm| |]; cbn; intros a s'; [intros [HB HQ]|intros HB]; by apply Hk. Qed.
Lemma attempt_bind {E E' A A'} (m : st S E A) (k : result E A -> st S E' A') s B Q Q' :
  reads books m s B Q -> (forall r s', books s' B -> match r with Ok a => Q a | Err _ => True | _ => False end -> succeeds (k r) s' Q') ->
  succeeds (attempt m ≫= k) s Q'.
Proof. intros Hm Hk. apply ends_attempt. eapply ends_impl; [exact Hm| |]; cbn; intros a s'; [intros [HB HQ]|intros HB]; by apply Hk. Qed.
Lemma collect_reads {E A A'} (f : A -> st S E A') (Q : A -> A' -> Prop) B l : forall s,
  books s B -> (forall a s, books s B -> a ∈ l -> reads books (f a) s B (Q a)) -> reads books (collect l f) s B (Forall2 Q l).
Proof.
  induction l as [|a l IH]; intros s HB Hf; cbn [collect]; [by apply reads_ret|].
  eapply reads_then; [apply Hf; [done|by left]|]. intros b s' HB' Hb. eapply reads_then.
  { apply IH; [done|]. intros a' s'' HB'' Hin. apply Hf; [done|by right]. }
  intros bs s'' HB'' Hbs. apply reads_ret; [done|]. by constructor.
Qed.
Lemma accumulate_reads {E A A'} (f : A' -> A -> st S E A') (I : A' -> Prop) B l : forall b s,
  books s B -> I b -> (forall b a s, books s B -> I b -> a ∈ l -> reads books (f b a) s B I) -> reads books (accumulate l f b) s B I.
Proof.
  induction l as [|a l IH]; intros b s HB Hb Hf; cbn [accumulate]; [by apply reads_ret|].
  eapply reads_then; [apply Hf; [done|done|by left]|]. intros b' s' HB' Hb'. apply IH; [done|done|].
  intros b'' a' s'' HB'' Hb'' Hin. apply Hf; [done|done|by right].
Qed.

Lemma updates_bind {E A A'} (m : st S E A) (f : A -> st S E A') s B d1 z1 d2 z2 d z (Q1 : A -> Books -> Prop) (Q : A' -> Books -> Prop) :
  updates m s B d1 z1 Q1 ->
  (forall a s' B', books s' B' -> evolves B d1 z1 B' -> Q1 a B' -> updates (f a) s' B' d2 z2 Q) ->
  (forall p, d1 p + d2 p <= d p) -> z1 + z2 <= z -> updates (m ≫= f) s B d z Q.
Proof.
  intros Hm Hf Hd Hz. eapply succeeds_bind; [exact Hm|]. intros a s' (B' & HB' & Ev & HQ).
  eapply succeeds_impl; [by apply Hf|]. intros a' s'' (B'' & HB'' & Ev' & HQ'). exists B''. split; [done|]. split; [|done].
  by eapply evolves_trans.
Qed.
Lemma updates_seq {E A A'} (m : st S E A) (f : A -> st S E A') s B (Q1 : A -> Books -> Prop) (Q : A' -> Books -> Prop) :
  updates m s B none 0 Q1 ->
  (forall a s' B', books s' B' -> evolves B none 0 B' -> Q1 a B' -> updates (f a) s' B' none 0 Q) -> updates (m ≫= f) s B none 0 Q.
Proof. intros Hm Hf. by apply (updates_bind m f s B none 0 none 0 none 0 Q1 Q Hm Hf). Qed.
Lemma updates_reads {E A} (m : st S E A) s B Q : reads books m s B Q -> updates m s B none 0 (fun a B' => B' = B /\ Q a).
Proof.
  intros Hm. eapply succeeds_impl; [exact Hm|]. intros a s' [HB HQ]. exists B. split; [done|]. split; [|done]. by apply evolves_refl.
Qed.
Lemma updates_impl {E A} (m : st S E A) s B d d' z z' (Q Q' : A -> Books -> Prop) :
  updates m s B d z Q -> (forall p, d p <= d' p) -> z <= z' -> (forall a B', Q a B' -> Q' a B') -> updates m s B d' z' Q'.
Proof.
  intros Hm Hd Hz HQ. eapply succeeds_impl; [exact Hm|]. intros a s' (B' & HB & Ev & H). exists B'. split; [done|].
  split; [by eapply evolves_impl|by apply HQ].
Qed.
Lemma updates_post {E A} (m : st S E A) s B d z (Q Q' : A -> Books -> Prop) :
  updates m s B d z Q -> (forall a B', Q a B' -> Q' a B') -> updates m s B d z Q'.
Proof. intros Hm. by apply (updates_impl m s B d d z z). Qed.
Lemma updates_ret {E A} (a : A) s B d z (Q : A -> Books -> Prop) :
  books s B -> (forall p, 0 <= d p) -> 0 <= z -> Q a B -> updates (E := E) (mret a) s B d z Q.
Proof. intros HB Hd Hz HQ. apply ends_ret. exists B. split; [done|]. split; [by apply evolves_refl|done]. Qed.
Lemma updates_map_err {E E' A} (f : E -> E') (m : st S E A) s B d z Q : updates m s B d z Q -> updates (st_map_err f m) s B d z Q.
Proof. intros Hm. apply ends_map_err. eapply ends_impl; [exact Hm|done|done]. Qed.

(** *** Named values *)

Lemma named_uref_reads s B name : books s B -> reads books (named_uref name) s B (fun _ => True).
Proof.
  intros HB. unfold named_uref. apply ends_asks. eapply reads_then; [by apply (reads_lift _ _ _ (fun _ => True))|].
  intros k s' HB' _. by apply reads_lift.
Qed.
Lemma read_from_reads {T} (read : URef -> st S AuctionError (option T)) (Q : T -> Prop) s B name :
  books s B -> (forall s u, books s B -> reads books (read u) s B (fun o => forall t, o = Some t -> Q t)) -> reads books (read_from read name) s B Q.
Proof.
  intros HB Hr. unfold read_from. eapply reads_then; [by apply named_uref_reads|]. intros u s1 HB1 _.
  eapply reads_then; [by apply Hr|]. intros o s2 HB2 Ho. apply reads_lift; [done|]. intros t Et%ok_or_Ok. auto.
Qed.
Lemma number_reads s B n name : books s B -> reads books (read_from (read_number n) name) s B (in_u (bits n)).
Proof. intros HB. apply read_from_reads; [done|]. intros. by apply law_read_number. Qed.
Lemma era_reads s B : books s B -> reads books get_era_id s B representable.
Proof.
  intros HB. unfold get_era_id. eapply reads_then; [by apply number_reads|]. intros z s' HB' Hz. apply reads_ret; [done|]. exact Hz.
Qed.
Lemma snapshot_reads s B : books s B -> reads books get_seigniorage_recipients_snapshot s B snapshot_ok.
Proof.
  intros HB. apply read_from_reads; [done|]. intros. by apply law_read_snapshot.
Qed.
Lemma write_to_keeps {T} (write : URef -> T -> st S AuctionError ()) s B name v :
  books s B -> (forall s u, books s B -> succeeds (write u v) s (fun _ s' => books s' B)) -> succeeds (write_to write name v) s (fun _ s' => books s' B).
Proof. intros HB Hw. unfold write_to. eapply reads_bind; [by apply named_uref_reads|]. auto. Qed.

(** *** Records *)

Lemma bid_key k : is_bid_addr_key k = true -> exists a, k = Key_BidAddr a.
Proof. destruct k; try discriminate. by eexists. Qed.
Lemma bid_reads s B a : books s B -> bid_ok a -> reads books (read_bid (Key_BidAddr a)) s B (fun o => o = bk_bids B !! a).
Proof. intros HB Ha. eapply reads_impl; [by apply law_read_bid|]. auto. Qed.
Lemma validator_bid_reads s B k : books s B -> key_ok k ->
  reads books (read_validator_bid k) s B (fun b => exists a, k = Key_BidAddr a /\ bk_bids B !! a = Some (BK_Validator b)).
Proof.
  intros HB Hk. unfold read_validator_bid. apply reads_fail_if; [done|]. intros [a ->]%negb_false_iff%bid_key.
  eapply reads_then; [by apply bid_reads|]. intros o s' HB' ->. destruct (bk_bids B !! a) as [[]|] eqn:E; try by apply reads_throw.
  apply reads_ret; [done|]. by exists a.
Qed.
Lemma delegator_bid_reads s B k : books s B -> key_ok k ->
  reads books (read_delegator_bid k) s B (fun d => exists a, k = Key_BidAddr a /\ bk_bids B !! a = Some (BK_Delegator d)).
Proof.
  intros HB Hk. unfold read_delegator_bid. apply reads_fail_if; [done|]. intros [a ->]%negb_false_iff%bid_key.
  eapply reads_then; [by apply bid_reads|]. intros o s' HB' ->. destruct (bk_bids B !! a) as [[]|] eqn:E; try by apply reads_throw.
  apply reads_ret; [done|]. by exists a.
Qed.
Lemma reservation_bid_reads s B k : books s B -> key_ok k ->
  reads books (read_reservation_bid k) s B (fun r => exists a, k = Key_BidAddr a /\ bk_bids B !! a = Some (BK_Reservation r)).
Proof.
  intros HB Hk. unfold read_reservation_bid. apply reads_fail_if; [done|]. intros [a ->]%negb_false_iff%bid_key.
  eapply reads_then; [by apply bid_reads|]. intros o s' HB' ->. destruct (bk_bids B !! a) as [[]|] eqn:E; try by apply reads_throw.
  apply reads_ret; [done|]. by exists a.
Qed.

(** The keys of a validator under two prefixes. *)
Lemma prefixed_key t a k : key_ok k -> forall p, bid_prefix t a = Ok p -> starts_with p k ->
  exists ba, k = Key_BidAddr ba /\ bid_tag ba = t /\ validator_account_hash ba = validator_account_hash a.
Proof. intros Hk p Hp (b & Hb & Hpb). by eapply bid_prefix_spec. Qed.
Lemma serialized_reads {T} (r : result Error T) s B : books s B -> reads books (serialized r) s B (fun a => r = Ok a).
Proof. intros HB. apply reads_lift; [done|]. by destruct r; intros ? [= ->]. Qed.
Lemma keys_under_reads s B t1 t2 v : books s B -> t1 <> t2 ->
  reads books (keys_under blake2b (bid_prefix t1) (bid_prefix t2) v) s B (fun ks => NoDup ks /\ Forall key_ok ks /\
    Forall (fun k => exists a, k = Key_BidAddr a /\ bid_tag a ∈ [t1; t2] /\ validator_account_hash a = hash_of v) ks).
Proof.
  intros HB Ht. unfold keys_under. eapply reads_then; [by apply serialized_reads|].
  intros p1 s1 HB1 E1. eapply reads_then; [by apply law_keys_by_prefix|]. intros k1 s2 HB2 (N1 & O1 & P1).
  eapply reads_then; [by apply serialized_reads|].
  intros p2 s3 HB3 E2. eapply reads_then; [by apply law_keys_by_prefix|]. intros k2 s4 HB4 (N2 & O2 & P2).
  apply reads_ret; [done|].
  assert (forall t p ks, bid_prefix t (validator_addr blake2b v) = Ok p -> Forall key_ok ks -> Forall (starts_with p) ks ->
    Forall (fun k => exists a, k = Key_BidAddr a /\ bid_tag a = t /\ validator_account_hash a = hash_of v) ks) as Hks.
  { intros t p ks Hp Hok Hst. rewrite Forall_forall in *. intros k Hin. exact (prefixed_key t (validator_addr blake2b v) k (Hok k Hin) p Hp (Hst k Hin)). }
  pose proof (Hks _ _ _ E1 O1 P1) as H1. pose proof (Hks _ _ _ E2 O2 P2) as H2. split_and!.
  - apply NoDup_app. split_and!; [done| |done]. intros k Hk1 Hk2. rewrite Forall_forall in H1, H2.
    destruct (H1 k Hk1) as (a & -> & T1 & _), (H2 _ Hk2) as (a' & [= <-] & T2 & _). congruence.
  - by apply Forall_app.
  - apply Forall_app. split; (eapply Forall_impl; [eassumption|]); intros k (a & -> & <- & Ha); exists a; split_and!; try done; [left|right; left].
Qed.

(** Records that are still as they were read, at different addresses. *)
Definition todo (l : list (BidAddr * BidKind)) B : Prop := NoDup l.*1 /\ Forall (fun p => bk_bids B !! p.1 = Some p.2) l.
Lemma todo_cons p l B : todo (p :: l) B -> bk_bids B !! p.1 = Some p.2 /\ p.1 ∉ l.*1 /\ todo l B.
Proof. intros [[Hn N]%NoDup_cons [Hp F]%Forall_cons]. done. Qed.
(** Only the record at one address changes. *)
Definition touches (a : BidAddr) B B' : Prop := forall a', a' <> a -> bk_bids B' !! a' = bk_bids B !! a'.
Lemma touches_set a k B : touches a B (set_bid B a k).
Proof. intros a' Ha. by apply lookup_insert_ne. Qed.
Lemma touches_drop a B : touches a B (drop_bid B a).
Proof. intros a' Ha. by apply lookup_delete_ne. Qed.
Lemma todo_touched l a B B' : todo l B -> a ∉ l.*1 -> touches a B B' -> todo l B'.
Proof.
  intros [N F] Ha Ht. split; [done|]. rewrite Forall_forall in *. intros p Hin. rewrite Ht; [by apply F|]. intros <-.
  by apply Ha, list_elem_of_fmap_2.
Qed.

Abbreviation daddr := (delegator_bid_addr blake2b).
Definition delegators_todo (ds : list DelegatorBid) : list (BidAddr * BidKind) := (fun d => (daddr d, BK_Delegator d)) <$> ds.
Lemma placed_delegator a d : placed blake2b a (BK_Delegator d) -> a = daddr d.
Proof. intros [->|[]]. done. Qed.
Lemma delegator_bids_reads s B v : books s B -> wf (bk_bids B) ->
  reads books (read_delegator_bids blake2b v) s B (fun ds => todo (delegators_todo ds) B /\ Forall (fun d => hash_of (db_validator d) = hash_of v) ds).
Proof.
  intros HB W. unfold read_delegator_bids. eapply reads_then; [by apply keys_under_reads|]. intros ks s1 HB1 (N & O & T).
  eapply reads_impl. { apply collect_reads; [done|]. intros k s2 HB2 Hk. apply delegator_bid_reads; [done|]. by eapply Forall_forall in O. }
  intros ds Hds.
  assert (ks = (fun d => Key_BidAddr (daddr d)) <$> ds) as ->.
  { clear -Hds W. induction Hds as [|k d ks ds (a & -> & Ha) Hds IH]; [done|]. cbn. rewrite <- IH. do 2 f_equal.
    by apply placed_delegator, (wf_at blake2b B). }
  split; [split|].
  - unfold delegators_todo. rewrite <- list_fmap_compose. apply (NoDup_fmap_1 Key_BidAddr). by rewrite <- list_fmap_compose.
  - unfold delegators_todo. rewrite Forall_fmap. apply Forall2_fmap_l in Hds. apply Forall_forall. intros d Hin.
    destruct (list_elem_of_lookup_1 _ _ Hin) as [i Hi]. destruct (Forall2_lookup_lr _ _ _ _ _ _ Hds Hi Hi) as (a & [= <-] & Ha). done.
  - rewrite Forall_fmap in T. eapply Forall_impl; [exact T|]. cbn. intros d (a & [= <-] & _ & Ha).
    unfold delegator_bid_addr in Ha. by destruct (db_kind d).
Qed.

(** *** Stakes *)

Lemma decrease_Ok e1 e2 staked v z t r : decrease_stake e1 e2 staked v z t = Ok r -> r = staked - z /\ 0 <= r.
Proof.
  unfold decrease_stake. intros (u & [-> [Hu _]]%ok_or_Ok%checked_Some & H)%bind_Ok.
  destruct v as [v|]; [destruct (locked_amount v t) as [l|]; [|discriminate]; destruct (_ <? l); [discriminate|]|]; by injection H as <-.
Qed.
Definition db_with_stake (d : DelegatorBid) (staked : Z) : DelegatorBid :=
  mkDelegatorBid (db_kind d) staked (db_bonding_purse d) (db_validator d) (db_vesting d).
Lemma delegator_decrease_Ok d z t d' : delegator_decrease_stake d z t = Ok d' -> d' = db_with_stake d (db_staked_amount d - z) /\ 0 <= db_staked_amount d - z.
Proof. unfold delegator_decrease_stake. intros (r & [-> Hr]%decrease_Ok & [= <-])%bind_Ok. done. Qed.
Lemma validator_decrease_Ok b z t b' : validator_decrease_stake b z t = Ok b' -> b' = vb_with_stake b (vb_staked_amount b - z) /\ 0 <= vb_staked_amount b - z.
Proof. unfold validator_decrease_stake. intros (r & [-> Hr]%decrease_Ok & [= <-])%bind_Ok. done. Qed.
Lemma delegator_increase_Ok d z d' : delegator_increase_stake d z = Ok d' -> d' = db_with_stake d (db_staked_amount d + z) /\ 0 <= db_staked_amount d + z.
Proof. unfold delegator_increase_stake. intros (r & [-> [Hr _]]%ok_or_Ok%checked_Some & [= <-])%bind_Ok. done. Qed.
Lemma validator_increase_Ok b z b' : validator_increase_stake b z = Ok b' -> b' = vb_with_stake b (vb_staked_amount b + z) /\ 0 <= vb_staked_amount b + z.
Proof. unfold validator_increase_stake. intros (r & [-> [Hr _]]%ok_or_Ok%checked_Some & [= <-])%bind_Ok. done. Qed.

(** *** Unbonding *)

(** Balances stay as they are, and so does the caller. *)
Definition same_purses B B' : Prop := bk_balance B' = bk_balance B /\ bk_main B' = bk_main B.
Definition is_unbond_addr (a : BidAddr) : bool := match a with BA_UnbondAccount _ _ | BA_UnbondPurse _ _ => true | _ => false end.
Lemma unbond_not_todo a ds : is_unbond_addr a = true -> a ∉ (delegators_todo ds).*1.
Proof.
  intros Ha. unfold delegators_todo. rewrite <- list_fmap_compose. intros (d & -> & _)%list_elem_of_fmap_1. cbn in Ha.
  unfold delegator_bid_addr in Ha. by destruct (db_kind d).
Qed.
Lemma create_unbonding_ok s B v kind purse z nv : books s B -> wf (bk_bids B) -> 0 <= z ->
  match kind with UK_Validator k => k = v | _ => True end ->
  updates (create_unbonding_purse blake2b v kind purse z nv) s B (amount_at purse z) 0
    (fun _ B' => same_purses B B' /\ exists a, is_unbond_addr a = true /\ touches a B B').
Proof.
  intros HB W Hz Hk. unfold create_unbonding_purse. eapply reads_bind; [by apply law_available_balance|]. intros o s1 HB1 _.
  apply ends_fail_if; [done|]. intros _. eapply reads_bind; [by apply era_reads|]. intros era s2 HB2 _.
  set (a := match kind with UK_Validator _ => _ | _ => _ end). assert (is_unbond_addr a = true) as Ha by (by destruct kind).
  eapply reads_bind; [apply (law_read_unbond books s2 B a HB2); by destruct kind|]. intros u s3 HB3 Hu.
  eapply succeeds_impl; [apply (law_write_unbond books s3 B a _ HB3); by destruct kind|]. intros [] s4 HB4.
  eexists. split; [exact HB4|]. split; [|split; [done|exists a; split; [done|by apply touches_set]]].
  apply evolves_set.
  - left. unfold a. destruct kind as [k|k|k]; cbn; by rewrite ?Hk.
  - assert (amounts_ok (BK_Unbond (mkUnbond v kind [mkUnbondEra purse era z nv]))) as H1 by (by repeat constructor).
    destruct u as [u|]; [|done]. apply Forall_app. split; [|done]. by apply (wf_at blake2b B a (BK_Unbond u)).
  - intros p. rewrite <- Hu. destruct u as [u|]; cbn; rewrite ?fmap_app, ?zsum_app; cbn; lia.
Qed.

(** Changing one record *)
Lemma write_ok s B a k d : books s B -> bid_ok a -> placed blake2b a k -> amounts_ok k -> (forall p, owed_by k p - owed_at (bk_bids B !! a) p <= d p) ->
  updates (write_bid (Key_BidAddr a) k) s B d 0 (fun _ B' => B' = set_bid B a k).
Proof.
  intros HB Ha Hp Hk Hd. eapply succeeds_impl; [by apply law_write_bid|]. intros [] s' HB'. eexists. split; [exact HB'|].
  split; [by apply evolves_set|done].
Qed.
Lemma prune_at_ok {E} s B a d : books s B -> bid_ok a -> (forall p, - owed_at (bk_bids B !! a) p <= d p) ->
  updates (E := E) (modify (prune_bid a)) s B d 0 (fun _ B' => B' = drop_bid B a).
Proof. intros HB Ha Hd. apply ends_modified. exists (drop_bid B a). split; [by apply law_prune_bid|]. split; [by apply evolves_drop|done]. Qed.
Lemma prune_ok {E} s B a : books s B -> bid_ok a -> wf (bk_bids B) -> updates (E := E) (modify (prune_bid a)) s B none 0 (fun _ B' => B' = drop_bid B a).
Proof. intros HB Ha W. apply prune_at_ok; [done|done|]. intros p. pose proof (owed_at_nonneg blake2b B a p W). unfold none. lia. Qed.

(** A delegator's stake is reduced. *)
Lemma write_stake_ok s B a d z : books s B -> wf (bk_bids B) -> bk_bids B !! a = Some (BK_Delegator d) -> bid_ok a -> 0 <= db_staked_amount d - z ->
  updates (if db_staked_amount d - z =? 0 then modify (prune_bid a) else write_bid (Key_BidAddr a) (BK_Delegator (db_with_stake d (db_staked_amount d - z))))
    s B (fun p => - amount_at (db_bonding_purse d) z p) 0
    (fun _ B' => same_purses B B' /\ touches a B B').
Proof.
  intros HB W Ha Hok Hz. destruct (wf_at blake2b B a _ W Ha) as [Hp _]. destruct (Z.eqb_spec (db_staked_amount d - z) 0) as [E|E].
  - eapply updates_post; [apply prune_at_ok; [done|done|]|].
    + intros p. rewrite Ha. cbn. replace z with (db_staked_amount d) by lia. done.
    + intros _ B' ->. split; [done|apply touches_drop].
  - eapply updates_post; [apply write_ok; [done|done|exact Hp|done|]|].
    + intros p. rewrite Ha. cbn. rewrite amount_at_sub. lia.
    + intros _ B' ->. split; [done|apply touches_set].
Qed.

Lemma delegator_addr_ok v kind : bid_ok (new_delegator_kind blake2b v kind).
Proof. by destruct kind. Qed.
Lemma daddr_ok d : bid_ok (daddr d).
Proof. unfold delegator_bid_addr. by destruct (db_kind d). Qed.

Lemma process_undelegation_ok s B kind v z nv : books s B -> wf (bk_bids B) -> 0 <= z ->
  updates (process_undelegation blake2b kind v z nv) s B none 0 (fun _ _ => True).
Proof.
  intros HB W Hz. unfold process_undelegation. apply ends_asks, ends_fail_if; [done|]. intros _.
  eapply (reads_bind _ _ _ B (fun _ => True)).
  { destruct nv as [k|]; [|by apply reads_ret]. eapply reads_attempt; [by apply validator_bid_reads|].
    intros [b|[]| |] s1 HB1 Hr; first [done|by apply reads_ret|by apply reads_throw]. }
  intros _ s1 HB1 _. eapply reads_bind; [by apply validator_bid_reads|]. intros vb s2 HB2 _.
  eapply reads_bind; [apply delegator_bid_reads; [done|apply delegator_addr_ok]|]. intros d s3 HB3 (a & [= <-] & Hd).
  eapply reads_bind; [by apply number_reads|]. intros t s4 HB4 _.
  pose proof (wf_at blake2b B _ _ W Hd) as [_ Hst]. cbn in Hst. set (staked := db_staked_amount d) in *.
  apply ends_lift_bind; [|done]. intros d1 [-> H1]%delegator_decrease_Ok.
  (* what is unbonded, and the rest of the stake *)
  eapply (succeeds_bind _ _ _ (fun '(u, d') s' => s' = s4 /\ 0 <= u /\ d' = db_with_stake d (staked - u) /\ 0 <= staked - u) (fun _ _ => True)).
  { cbn. case_match; [|by apply ends_ret; split_and!; [|lia| |]]. apply ends_lift_bind; [|done]. intros d2 [-> H2]%delegator_decrease_Ok. apply ends_ret.
    cbn in *. split_and!; [done|done| |lia]. unfold db_with_stake. cbn. f_equal. lia. }
  intros [u d'] s5 (-> & Hu & -> & Hr). cbn [db_staked_amount db_with_stake].
  eapply (updates_bind _ _ _ _ _ 0 (amount_at (db_bonding_purse d) u) 0);
    [by apply write_stake_ok; try apply delegator_addr_ok| |intros p; unfold none; lia|done].
  intros _ s6 B6 HB6 Ev6 _. apply (updates_bind _ _ _ _ (amount_at (db_bonding_purse d) u) 0 none 0 _ _ (fun _ _ => True)); [|by intros; apply updates_ret|intros p; unfold none; lia|done].
  case_match eqn:Eu.
  - apply Z.eqb_eq in Eu as ->. apply updates_ret; [done| |done|done]. intros p. by rewrite amount_at_0.
  - eapply updates_post; [apply create_unbonding_ok; [done|by apply Ev6|done|by destruct kind]|done].
Qed.

(** *** Loops over the delegators of a validator *)

(** Balances and the records of validators stay as they are. *)
Definition steady B B' : Prop := same_purses B B' /\ forall h, bk_bids B' !! BA_Validator h = bk_bids B !! BA_Validator h.
Lemma steady_refl B : steady B B.
Proof. done. Qed.
Lemma steady_trans B1 B2 B3 : steady B1 B2 -> steady B2 B3 -> steady B1 B3.
Proof. intros [[E1 M1] H1] [[E2 M2] H2]. split; [split; congruence|]. intros h. by rewrite H2. Qed.
Lemma touches_steady a B B' : same_purses B B' -> touches a B B' -> (forall h, BA_Validator h <> a) -> steady B B'.
Proof. intros E Ht Ha. split; [done|]. intros h. apply Ht, Ha. Qed.
Lemma daddr_not_validator d h : BA_Validator h <> daddr d.
Proof. unfold delegator_bid_addr. by destruct (db_kind d). Qed.
Lemma iterate_delegators (f : DelegatorBid -> st S AuctionError ()) (I : DelegatorBid -> Prop) l s B : books s B -> wf (bk_bids B) -> todo (delegators_todo l) B -> Forall I l ->
  (forall d l s B, books s B -> wf (bk_bids B) -> todo (delegators_todo (d :: l)) B -> I d ->
    updates (f d) s B none 0 (fun _ B' => todo (delegators_todo l) B' /\ steady B B')) ->
  updates (iterate l f) s B none 0 (fun _ => steady B).
Proof.
  intros HB W Hl HI Hf. revert s B HB W Hl HI. induction l as [|d l IH]; intros s B HB W Hl HI; cbn [iterate].
  { by apply updates_ret. }
  apply Forall_cons in HI as [Hd HI]. eapply updates_seq; [by apply Hf|].
  intros _ s' B' HB' Ev [Hl' Hv]. eapply updates_post; [apply IH; [done|by apply Ev|done|done]|]. intros [] B'' Hv'. by eapply steady_trans.
Qed.

(** A part of a delegator's stake is unbonded, one way round and the other. *)
Lemma unbond_delegator_ok s B v d z l : books s B -> wf (bk_bids B) -> todo (delegators_todo (d :: l)) B -> 0 <= z -> 0 <= db_staked_amount d - z ->
  updates (_ ← create_unbonding_purse blake2b v (delegator_unbond_kind d) (db_bonding_purse d) z None;
           if db_staked_amount d - z =? 0 then modify (prune_bid (daddr d))
           else write_bid (Key_BidAddr (daddr d)) (BK_Delegator (db_with_stake d (db_staked_amount d - z)))) s B none 0
    (fun _ B' => todo (delegators_todo l) B' /\ steady B B').
Proof.
  intros HB W (Ed & Hn & Hl)%todo_cons Hz Hr. cbn in Ed, Hn.
  eapply (updates_bind _ _ _ _ _ 0 (fun p => - amount_at (db_bonding_purse d) z p) 0);
    [apply create_unbonding_ok; [done|done|done|by unfold delegator_unbond_kind; destruct (db_kind d)]| |intros p; unfold none; lia|done].
  intros _ s1 B1 HB1 Ev1 (Eb & a & Ha & Ht). eapply updates_post.
  { apply write_stake_ok; [done|by apply Ev1| |apply daddr_ok|done]. rewrite Ht; [done|]. intros <-. unfold delegator_bid_addr in Ha. by destruct (db_kind d). }
  intros [] B2 [Eb2 Ht2]. split.
  - eapply todo_touched; [eapply todo_touched; [exact Hl|by apply unbond_not_todo|exact Ht]|exact Hn|exact Ht2].
  - eapply steady_trans; [apply (touches_steady a); [done|done|by intros h <-]|apply (touches_steady (daddr d)); [done|done|apply daddr_not_validator]].
Qed.
Lemma enforce_boundaries_ok s B v minimum maximum t d l : books s B -> wf (bk_bids B) -> todo (delegators_todo (d :: l)) B ->
  updates (enforce_boundaries blake2b v minimum maximum t d) s B none 0 (fun _ B' => todo (delegators_todo l) B' /\ steady B B').
Proof.
  intros HB W Hl. unfold enforce_boundaries. pose proof (todo_cons _ _ _ Hl) as (Ed & _ & Hl').
  pose proof (wf_at blake2b B _ _ W Ed) as [_ Hst]. cbn in Hst. set (z := if _ <? minimum then _ else _).
  assert (0 <= z) as Hz by (unfold z, saturating_sub; repeat case_match; lia).
  destruct (z =? 0); [by apply updates_ret|].
  destruct (delegator_decrease_stake d z t) as [d'|e| |] eqn:Ed'; [|by destruct e; first [done|by apply updates_ret]|done|done].
  apply delegator_decrease_Ok in Ed' as [-> Hr]. exact (unbond_delegator_ok s B v d z l HB W Hl Hz Hr).
Qed.
Lemma withdraw_delegator_ok s B v t d l : books s B -> wf (bk_bids B) -> todo (delegators_todo (d :: l)) B ->
  updates (withdraw_delegator blake2b v t d) s B none 0 (fun _ B' => todo (delegators_todo l) B' /\ steady B B').
Proof.
  intros HB W Hl. pose proof (todo_cons _ _ _ Hl) as (Ed & _ & _). pose proof (wf_at blake2b B _ _ W Ed) as [_ Hst]. cbn in Hst.
  pose proof (unbond_delegator_ok s B v d (db_staked_amount d) l HB W Hl Hst) as Hu. rewrite Z.sub_diag in Hu. cbn [Z.eqb] in Hu.
  unfold withdraw_delegator. unfold updates, ends, yields, mbind, st_bind in *.
  destruct (create_unbonding_purse _ _ _ _ _ _ s) as [[] s1]; [|done..]. unfold lift.
  destruct (delegator_decrease_stake d (db_staked_amount d) t) as [d'| | |] eqn:E; [|done..]. apply delegator_decrease_Ok in E as [-> _].
  by apply Hu.
Qed.

Lemma boundaries_ok s B b minimum maximum : books s B -> wf (bk_bids B) ->
  updates (process_updated_delegator_stake_boundaries blake2b b minimum maximum) s B none 0
    (fun b' B' => b' = set_delegation_amount_boundaries b minimum maximum /\ steady B B').
Proof.
  intros HB W. unfold process_updated_delegator_stake_boundaries. eapply reads_bind; [by apply number_reads|]. intros t s1 HB1 _.
  apply ends_lift_bind; [|done]. intros lk _. apply ends_fail_if; [done|]. intros _. case_match; [by apply updates_ret|].
  eapply reads_bind; [by apply delegator_bids_reads|]. intros ds s2 HB2 [Hds _].
  eapply updates_seq.
  - by apply (iterate_delegators _ (fun _ => True)); [| | |apply Forall_true|intros; apply enforce_boundaries_ok].
  - intros [] s3 B3 HB3 Ev3 Hv. by apply updates_ret.
Qed.
Lemma slots_reads s B b max slots : books s B ->
  reads books (process_updated_delegator_reservation_slots blake2b b max slots) s B (fun b' => b' = b \/ b' = with_reserved_slots b slots).
Proof.
  intros HB. unfold process_updated_delegator_reservation_slots. case_match; [by apply reads_ret; [|left]|].
  eapply reads_then; [by apply law_reservation_count|]. intros r s1 HB1 _. apply reads_fail_if; [done|]. intros _.
  eapply reads_then; [by apply law_used_reservation_count|]. intros u s2 HB2 _.
  eapply reads_then; [by apply law_delegator_count|]. intros c s3 HB3 _. apply reads_fail_if; [done|]. intros _.
  apply reads_ret; [done|by right].
Qed.

Lemma delegator_vesting_ok s B t period d l : books s B -> wf (bk_bids B) -> todo (delegators_todo (d :: l)) B ->
  updates (process_delegator_vesting blake2b t period d) s B none 0 (fun _ B' => todo (delegators_todo l) B' /\ steady B B').
Proof.
  intros HB W Hl. pose proof (todo_cons _ _ _ Hl) as (Ed & Hn & Hl'). cbn in Ed, Hn. unfold process_delegator_vesting.
  apply ends_lift_bind; [|done]. intros [v i] _. destruct i; [|by apply updates_ret].
  eapply updates_post; [apply (write_ok _ _ (daddr d)); [done|apply daddr_ok|by left|by apply (wf_at blake2b B (daddr d) (BK_Delegator d))|]|].
  - intros p. rewrite Ed. cbn. unfold none. lia.
  - intros [] B' ->. split; [eapply todo_touched; [done|exact Hn|apply touches_set]|].
    apply (touches_steady (daddr d)); [done|apply touches_set|apply daddr_not_validator].
Qed.
Lemma with_vesting_ok s B b t period : books s B -> wf (bk_bids B) ->
  updates (process_with_vesting_schedule blake2b b t period) s B none 0 (fun r B' => (exists v, r.1 = vb_with_vesting b v) /\ steady B B').
Proof.
  intros HB W. unfold process_with_vesting_schedule. eapply reads_bind; [by apply delegator_bids_reads|]. intros ds s1 HB1 [Hds _].
  eapply updates_seq.
  { by apply (iterate_delegators _ (fun _ => True)); [| | |apply Forall_true|intros; apply delegator_vesting_ok]. }
  intros [] s2 B2 HB2 Ev2 Hv. apply ends_lift_bind; [|done]. intros [v i] _. apply updates_ret; try done. split; [by eexists|done].
Qed.

(** *** Delegating *)

(** The errors that a redelegation turns into a payout. *)
Definition caught (e : ApiError) : bool :=
  match e with
  | Api_AuctionError (BondTooSmall | DelegationAmountTooSmall | DelegationAmountTooLarge | ValidatorNotFound | ExceededDelegatorSizeLimit) => true
  | _ => false
  end.
Lemma transfer_direct_ok s B e source target z : books s B -> 0 <= z ->
  ends (transfer_direct blake2b e source target z) s (fun _ s' => exists B', books s' B' /\ moved B source target z B')
    (fun e' _ => e' = Api_AuctionError e \/ exists me, e' = Api_Mint me).
Proof.
  intros HB Hz. unfold transfer_direct. eapply (ends_bind _ _ _ _ (fun e' _ => e' = Api_AuctionError e));
    [apply ends_map_err; by eapply ends_impl; [apply law_transfer|..]| |by left].
  intros [[]|me| |] s' Hr; try done; apply ends_lift; intros x Hx; try discriminate Hx.
  - by apply Hr.
  - right. by injection Hx as <-; eexists.
Qed.
Lemma has_reservation_reads s B kind v : books s B -> reads books (has_reservation blake2b kind v) s B (fun _ => True).
Proof.
  intros HB. unfold has_reservation. eapply reads_then; [apply bid_reads; [done|by destruct kind]|]. intros o s' HB' _. by apply reads_ret.
Qed.
Lemma handle_delegation_ok s B kind v source z max : books s B -> wf (bk_bids B) -> 0 <= z ->
  ends (handle_delegation blake2b kind v source z max) s
    (fun _ s' => exists B', books s' B' /\ evolves B (amount_at source z) 0 B' /\ z <= bk_balance B (addr source) /\ touches (new_delegator_kind blake2b v kind) B B')
    (fun e s' => caught e = true -> books s' B).
Proof.
  intros HB W Hz. unfold handle_delegation. set (a := new_delegator_kind blake2b v kind). pose proof (delegator_addr_ok v kind : bid_ok a) as Hok.
  apply ends_fail_if; [done|]. intros _. eapply ends_bind; [by apply reads_map_err, validator_bid_reads| |done]. intros vb s1 [HB1 _].
  eapply ends_bind; [by apply reads_map_err, bid_reads| |done]. intros o s2 [HB2 ->].
  pose (Q := fun (r : URef * DelegatorBid) s' => books s' B /\ r.1 = db_bonding_purse r.2 /\ placed blake2b a (BK_Delegator r.2) /\
    0 <= db_staked_amount r.2 /\ forall p, owed_by (BK_Delegator r.2) p - owed_at (bk_bids B !! a) p <= amount_at r.1 z p).
  eapply (ends_bind _ _ _ Q (fun _ s' => books s' B)).
  - set (new := (_ ← fail_if _ (Api_AuctionError DelegationAmountTooSmall); _)).
    assert (ends new s2 Q (fun _ s' => books s' B)) as Hnew.
    { unfold new. apply ends_fail_if; [done|]. intros _. apply ends_fail_if; [done|]. intros _.
      eapply ends_bind; [by apply reads_map_err, law_delegator_count| |done]. intros c s3 [HB3 _].
      eapply ends_bind; [by apply reads_map_err, law_reservation_count| |done]. intros r s4 [HB4 _].
      eapply ends_bind; [by apply reads_map_err, has_reservation_reads| |done]. intros h s5 [HB5 _].
      apply ends_fail_if; [done|]. intros _. eapply ends_bind; [by apply reads_map_err, law_create| |done]. intros u s6 [HB6 _].
      apply ends_ret. unfold Q. split_and!; [done|done|left; by destruct kind|done|]. intros p. cbn.
      pose proof (owed_at_nonneg blake2b B a p W). lia. }
    destruct (bk_bids B !! a) as [[| |d| | | |]|] eqn:E; try exact Hnew. destruct (wf_at blake2b B a _ W E) as [Hp Hd]. cbn in Hd.
    apply ends_fail_if; [done|]. intros _. eapply ends_bind; [apply reads_map_err, (reads_lift _ _ _ (eq (delegator_increase_stake d z) ∘ Ok)); [done|by intros]| |done].
    intros d' s3 [HB3 [-> Hs]%delegator_increase_Ok]. apply ends_ret. unfold Q. split_and!; [done|done|exact Hp|done|].
    intros p. cbn. rewrite ?E. cbn. rewrite amount_at_add. lia.
  - intros [target d] s3 (HB3 & Et & Hp & Hd & Ho). cbn [fst snd] in *. subst target. eapply ends_bind; [by apply transfer_direct_ok| |by intros e s' [->|[me ->]]].
    intros [] s4 (B4 & HB4 & Hm). pose proof (moved_evolves blake2b _ _ _ _ _ Hm) as Ev4. destruct Hm as (Eb & _ & _ & Hbal & _).
    eapply (ends_bind _ _ _ _ (fun _ _ => False)); [apply ends_map_err; by apply (law_write_bid books s4 B4 a)| |done]. intros [] s5 HB5. apply ends_ret.
    eexists. split; [exact HB5|]. split_and!; [|done|].
    + eapply evolves_trans; [exact Ev4|apply (evolves_set _ _ _ _ (amount_at (db_bonding_purse d) z)); [done|done|by rewrite Eb]| |done]. intros p. cbn. lia.
    + intros a' Ha'. cbn. rewrite Eb. by apply lookup_insert_ne.
  - by intros.
Qed.

(** *** Paying unbonds *)

Definition same_unbonds B B' : Prop := forall a, is_unbond_addr a = true -> bk_bids B' !! a = bk_bids B !! a.
Lemma bridges_reads s B n a : books s B -> bid_ok a -> reads books (follow_bridges blake2b n (Key_BidAddr a)) s B (fun _ => True).
Proof.
  intros HB. revert s a HB. induction n as [|n IH]; intros s a HB Ha; cbn [follow_bridges]; [by apply reads_throw|].
  eapply reads_then; [by apply bid_reads|]. intros o s' HB' _. destruct o as [[]|]; try (by apply reads_throw).
  - by apply reads_ret.
  - by apply IH.
Qed.
Lemma current_bid_reads s B a : books s B -> bid_ok a -> reads books (read_current_validator_bid blake2b (Key_BidAddr a)) s B (fun _ => True).
Proof. intros HB Ha. unfold read_current_validator_bid. apply reads_fail_if; [done|]. intros _. by apply bridges_reads. Qed.

Lemma pay_unbond_ok s B kind e : books s B -> 0 <= ue_amount e ->
  updates (pay_unbond kind e) s B (amount_at (ue_bonding_purse e) (ue_amount e)) 0 (fun _ B' => bk_bids B' = bk_bids B).
Proof.
  intros HB He. unfold pay_unbond. apply ends_map_err. eapply ends_impl; [by apply law_unbond| |done].
  intros [] s' (t & B' & HB' & Hm). exists B'. split; [done|]. split; [|by apply Hm].
  eapply evolves_impl; [by apply moved_evolves| |done]. intros p. cbn. pose proof (amount_at_nonneg t (ue_amount e) p He). lia.
Qed.
(** A redelegation delegates the amount, or leaves it to be paid. *)
Lemma redelegation_ok s B kind e max : books s B -> wf (bk_bids B) -> 0 <= ue_amount e ->
  succeeds (handle_redelegation blake2b kind e max) s (fun o s' =>
    match o with
    | SuccessfullyRedelegated => exists B', books s' B' /\ evolves B (amount_at (ue_bonding_purse e) (ue_amount e)) 0 B' /\ same_unbonds B B'
    | _ => books s' B
    end).
Proof.
  intros HB W He. unfold handle_redelegation. eapply (reads_bind _ _ _ B (fun _ => True)).
  { destruct kind; first [by apply reads_throw|by apply reads_ret]. }
  intros dk s1 HB1 _. destruct (ue_new_validator e) as [k|]; [|by apply ends_ret].
  eapply attempt_bind; [by apply current_bid_reads|]. intros [vb| | |] s2 HB2 Hr; try done.
  apply ends_attempt. eapply ends_impl; [by apply handle_delegation_ok| |]; cbv beta iota.
  - intros _ s3 (B3 & HB3 & Ev & _ & Ht). apply ends_ret. exists B3. split_and!; [done|done|]. intros a Ha. apply Ht. intros ->.
    by destruct dk.
  - intros e' s3 H3. destruct e' as [[]| |]; try (by apply ends_throw); by apply ends_ret, H3.
Qed.
Lemma unbond_era_ok s B kind max e : books s B -> wf (bk_bids B) -> 0 <= ue_amount e ->
  updates (process_unbond_era blake2b kind max e) s B (amount_at (ue_bonding_purse e) (ue_amount e)) 0 (fun _ => same_unbonds B).
Proof.
  intros HB W He. unfold process_unbond_era.
  assert (forall s, books s B -> updates (pay_unbond kind e) s B (amount_at (ue_bonding_purse e) (ue_amount e)) 0 (fun _ => same_unbonds B)) as Hpay.
  { intros s' HB'. eapply updates_post; [by apply pay_unbond_ok|]. intros [] B' E a _. by rewrite E. }
  case_match; [by apply Hpay|]. eapply succeeds_bind; [by apply redelegation_ok|]. intros o s1 H1.
  destruct o; try by apply Hpay. by apply ends_ret.
Qed.
Definition eras_owed (eras : list UnbondEra) (p : URefAddr) : Z := zsum ((fun e => amount_at (ue_bonding_purse e) (ue_amount e) p) <$> eras).
Lemma unbond_eras_ok kind max eras : forall s B, books s B -> wf (bk_bids B) -> Forall (fun e => 0 <= ue_amount e) eras ->
  updates (iterate eras (process_unbond_era blake2b kind max)) s B (eras_owed eras) 0 (fun _ => same_unbonds B).
Proof.
  induction eras as [|e eras IH]; intros s B HB W He; cbn [iterate]; [by apply updates_ret|].
  apply Forall_cons in He as [He Hes]. eapply (updates_bind _ _ _ _ _ 0 (eras_owed eras) 0); [by apply unbond_era_ok| |done|done].
  intros [] s1 B1 HB1 Ev1 H1. eapply updates_post; [apply IH; [done|by apply Ev1|done]|]. intros [] B2 H2 a Ha. rewrite H2; auto.
Qed.
Lemma kept_ok {A} (Q T : A -> Prop) `{forall a, Decision (T a)} l : Forall Q l -> Forall Q (filter T l).
Proof. rewrite !Forall_forall. intros Hl a [_ Ha]%list_elem_of_filter. auto. Qed.
Lemma eras_owed_split (f : UnbondEra -> bool) eras p :
  eras_owed (filter (fun e => f e = true) eras) p + eras_owed (filter (fun e => f e = false) eras) p = eras_owed eras p.
Proof.
  unfold eras_owed. induction eras as [|e eras IH]; [done|]. rewrite !filter_cons.
  destruct (f e); repeat case_decide; try done; rewrite !fmap_cons; unfold zsum in *; cbn [foldr]; lia.
Qed.

Definition unbonds_todo (l : list (BidAddr * Unbond)) : list (BidAddr * BidKind) := (fun p => (p.1, BK_Unbond p.2)) <$> l.
Lemma placed_unbond a u : placed blake2b a (BK_Unbond u) -> is_unbond_addr a = true /\ a = unbond_addr blake2b (ub_validator u) (ub_kind u).
Proof. intros [->|[]]. by destruct u as [v []]. Qed.
Lemma unbond_addr_ok v k : bid_ok (unbond_addr blake2b v k).
Proof. by destruct k. Qed.
Lemma todo_same_unbonds l B B' : wf (bk_bids B) -> todo (unbonds_todo l) B -> same_unbonds B B' -> todo (unbonds_todo l) B'.
Proof.
  intros W [N F] Hs. split; [done|]. unfold unbonds_todo in *. rewrite Forall_fmap in *. eapply Forall_impl; [exact F|].
  cbn. intros [a u] Ha. cbn in *. rewrite Hs; [done|]. by apply (placed_unbond a u), (wf_at blake2b B).
Qed.
Lemma process_unbond_ok s B era delay max x l : books s B -> wf (bk_bids B) -> todo (unbonds_todo (x :: l)) B ->
  updates (process_unbond blake2b era delay max x) s B none 0 (fun _ => todo (unbonds_todo l)).
Proof.
  intros HB W Hx. pose proof (todo_cons _ _ _ Hx) as (Ex & _ & _). destruct x as [a u]. cbn in Ex. unfold process_unbond.
  destruct (wf_at blake2b B a _ W Ex) as [Hp Ha]. cbn in Ha. rewrite expired_spec. cbn [ub_eras]. rewrite default_nonempty.
  set (kept := filter _ (ub_eras u)). set (out := filter _ (ub_eras u)).
  eapply (updates_bind _ _ _ _ (eras_owed out) 0 (fun p => - eras_owed out p) 0);
    [apply unbond_eras_ok; [done|done|by apply kept_ok]| |intros p; cbv beta; unfold none; lia|done].
  intros [] s1 B1 HB1 Ev1 Hs. pose proof (todo_same_unbonds _ _ _ W Hx Hs) as (Ex1 & Hn & Hl)%todo_cons. cbn in Ex1, Hn.
  apply ends_map_err. destruct (placed_unbond a u Hp) as [_ Ea].
  eapply ends_impl; [apply (law_write_unbond books s1 B1 a _ HB1); rewrite Ea; apply unbond_addr_ok| |done].
  intros [] s2 HB2. eexists. split; [exact HB2|]. assert (forall p, eras_owed kept p - eras_owed (ub_eras u) p = - eras_owed out p) as Hsum.
  { intros p. pose proof (eras_owed_split (era_expired era delay) (ub_eras u) p). fold out kept in H. lia. }
  destruct kept as [|e kept'] eqn:Ek; split.
  - apply evolves_drop. intros p. rewrite Ex1. specialize (Hsum p). cbn in *. unfold eras_owed in *. cbn in *. lia.
  - eapply todo_touched; [exact Hl|exact Hn|apply touches_drop].
  - apply evolves_set; [left; exact Ea| |].
    + cbn [amounts_ok ub_eras]. rewrite <- Ek. by apply kept_ok.
    + intros p. rewrite Ex1. specialize (Hsum p). cbn [owed_by owed_at from_option ub_eras]. unfold eras_owed in *. lia.
  - eapply todo_touched; [exact Hl|exact Hn|apply touches_set].
Qed.

Lemma read_unbonds_reads B ks : forall acc s, books s B -> Forall key_ok ks ->
  reads (E := AuctionError) books (accumulate ks (fun l key =>
    match key with
    | Key_BidAddr bid_addr =>
        r ← attempt (read_bid key);
        mret (match r with Ok (Some (BK_Unbond u)) => l ++ [(bid_addr, u)] | _ => l end)
    | _ => mret l
    end) acc) s B
    (fun r => exists l, r = acc ++ l /\ (Key_BidAddr <$> l.*1) `sublist_of` ks /\ Forall (fun p => bk_bids B !! p.1 = Some (BK_Unbond p.2)) l).
Proof.
  induction ks as [|k ks IH]; intros acc s HB Hks; cbn [accumulate].
  { apply reads_ret; [done|]. exists []. by rewrite app_nil_r. }
  apply Forall_cons in Hks as [Hk Hks].
  eapply (reads_then _ _ _ _ (fun acc' => acc' = acc \/ exists a u, k = Key_BidAddr a /\ bk_bids B !! a = Some (BK_Unbond u) /\ acc' = acc ++ [(a, u)])).
  - destruct k; try (by apply reads_ret; [|left]). eapply reads_attempt; [by apply bid_reads|]. intros r s' HB' Hr.
    apply reads_ret; [done|]. destruct r as [[[]|]| | |]; try (by left). right. by eexists _, _.
  - intros acc' s' HB' [->|(a & u & -> & Ha & ->)]; (eapply reads_impl; [by apply IH|]).
    + intros r (l & -> & Hs & Hl). exists l. split_and!; [done|by apply sublist_cons|done].
    + intros r (l & -> & Hs & Hl). exists ((a, u) :: l). split_and!; [by rewrite <- app_assoc|by apply sublist_skip|by constructor].
Qed.
Lemma tagged_key t a : starts_with [KeyTag_to_u8 KT_BidAddr; t] (Key_BidAddr a) -> bid_tag a = t.
Proof. intros (b & Hb & [r ->]). rewrite bid_key_bytes in Hb. by injection Hb as -> _. Qed.
Lemma unbonding_purses_reads s B : books s B -> reads books get_unbonding_purses s B (fun l => todo (unbonds_todo l) B).
Proof.
  intros HB. unfold get_unbonding_purses. eapply reads_then; [by apply law_keys_by_prefix|]. intros k1 s1 HB1 (N1 & O1 & P1).
  eapply reads_then; [by apply read_unbonds_reads|]. intros l1 s2 HB2 (l1' & E1 & S1 & F1). cbn in E1. subst l1'.
  eapply reads_then; [by apply law_keys_by_prefix|]. intros k2 s3 HB3 (N2 & O2 & P2).
  eapply reads_then; [by apply read_unbonds_reads|]. intros l2 s4 HB4 (l2' & E2 & S2 & F2). cbn in E2. subst l2'.
  apply reads_ret; [done|].
  assert (forall t ks l a, Forall (starts_with [KeyTag_to_u8 KT_BidAddr; t]) ks -> (Key_BidAddr <$> l) `sublist_of` ks -> a ∈ l -> bid_tag a = t) as Ht.
  { intros t ks l a Hks Hs Ha. apply tagged_key. rewrite Forall_forall in Hks. apply Hks. eapply sublist_subseteq; [exact Hs|].
    by apply list_elem_of_fmap_2. }
  assert (forall ks l, NoDup ks -> (Key_BidAddr <$> l) `sublist_of` ks -> NoDup l) as Hn.
  { intros ks l Hks Hs. apply (NoDup_fmap_1 Key_BidAddr). by eapply sublist_NoDup. }
  unfold unbonds_todo. split.
  - rewrite <- list_fmap_compose. change (NoDup (fst <$> l1 ++ l2)). rewrite fmap_app. apply NoDup_app. split_and!.
    + exact (Hn _ _ N1 S1).
    + intros a Ha1 Ha2. pose proof (Ht _ _ _ _ P1 S1 Ha1). pose proof (Ht _ _ _ _ P2 S2 Ha2). congruence.
    + exact (Hn _ _ N2 S2).
  - rewrite Forall_fmap. by apply Forall_app.
Qed.
Lemma process_unbonds_ok era delay max l : forall s B, books s B -> wf (bk_bids B) -> todo (unbonds_todo l) B ->
  updates (iterate l (process_unbond blake2b era delay max)) s B none 0 (fun _ _ => True).
Proof.
  induction l as [|x l IH]; intros s B HB W Hl; cbn [iterate]; [by apply updates_ret|].
  eapply updates_seq; [by apply process_unbond_ok|]. intros [] s' B' HB' Ev Hl'. apply IH; [done|by apply Ev|done].
Qed.
Lemma unbond_requests_ok s B max : books s B -> wf (bk_bids B) -> updates (process_unbond_requests blake2b max) s B none 0 (fun _ _ => True).
Proof.
  intros HB W. unfold process_unbond_requests. apply ends_asks, ends_fail_if; [done|]. intros _.
  eapply reads_bind; [by apply reads_map_err, era_reads|]. intros era s1 HB1 _.
  eapply reads_bind; [by apply reads_map_err, number_reads|]. intros delay s2 HB2 _.
  eapply reads_bind; [by apply reads_map_err, unbonding_purses_reads|]. intros l s3 HB3 Hl. by apply process_unbonds_ok.
Qed.

(** *** Where rewards go *)

(** The unbonds that belong to a delegation. *)
Definition unbond_of (a : BidAddr) : option BidAddr :=
  match a with
  | BA_DelegatedAccount v d => Some (BA_UnbondAccount v d)
  | BA_DelegatedPurse v d => Some (BA_UnbondPurse v d)
  | _ => None
  end.
Definition target_ok B (a : BidAddr) (t : DistributeTarget) : Prop :=
  match t with
  | DT_Validator b => bk_bids B !! a = Some (BK_Validator b)
  | DT_BridgedValidator _ current _ b => bid_ok current /\ bk_bids B !! current = Some (BK_Validator b)
  | DT_Delegator d => is_delegator_bid_addr a = true -> bk_bids B !! a = Some (BK_Delegator d)
  | DT_Unbond u => exists c, bk_bids B !! c = Some (BK_Unbond u) /\ (is_delegator_bid_addr a = true -> unbond_of a = Some c)
  end.
Lemma unbond_target_reads s B a c br e : books s B -> bid_ok c -> (is_delegator_bid_addr a = true -> unbond_of a = Some c) ->
  reads books (unbond_target br c e) s B (fun r => r.1 = br /\ target_ok B a r.2).
Proof.
  intros HB Hc Ha. unfold unbond_target. eapply reads_then; [by apply bid_reads|]. intros o s' HB' ->.
  destruct (bk_bids B !! c) as [[]|] eqn:E; try by apply reads_throw. apply reads_ret; [done|]. split; [done|]. by exists c.
Qed.
Lemma placed_delegated a k : placed blake2b a k -> is_delegator_bid_addr a = true -> exists d, k = BK_Delegator d.
Proof.
  intros [->|Hk] Ha; [|by destruct k; subst].
  destruct k as [| |d| | |[[] ? ?]|[? [] ?]]; try discriminate Ha; by eexists.
Qed.
Lemma distribution_target_reads n : forall s B a current bridged, books s B -> wf (bk_bids B) -> bid_ok current ->
  (current = a /\ bridged = []) \/ (is_delegator_bid_addr a = false /\ is_delegator_bid_addr current = false /\ bridged <> []) ->
  reads books (distribution_target blake2b n a current bridged) s B (fun r => target_ok B a r.2).
Proof.
  induction n as [|n IH]; intros s B a current bridged HB W Hc Hcur; cbn [distribution_target]; [by apply reads_throw|].
  eapply reads_then; [by apply bid_reads|]. intros o s' HB' ->.
  assert (forall d, bk_bids B !! current = Some d -> is_delegator_bid_addr a = true -> current = a /\ exists d', d = BK_Delegator d') as Hd.
  { intros k Ek Ha. destruct Hcur as [[-> _]|(Hn & _)]; [|congruence]. split; [done|]. eapply placed_delegated; [by apply (wf_at blake2b B)|done]. }
  destruct (bk_bids B !! current) as [[| b | d | b | | | u ]|] eqn:E; try by apply reads_throw.
  - apply reads_ret; [done|]. destruct Hcur as [[-> ->]|(_ & _ & Hb)]; [exact E|]. destruct bridged; [done|by split].
  - apply reads_ret; [done|]. cbn. intros Ha. by destruct (Hd _ eq_refl Ha) as [<- _].
  - assert (is_delegator_bid_addr a = false) as Ha.
    { destruct (is_delegator_bid_addr a); [|done]. by destruct (Hd _ eq_refl eq_refl) as [_ [? [=]]]. }
    apply IH; [done|done|done|]. right. split_and!; [done|done|]. by destruct bridged.
  - apply reads_ret; [done|]. exists current. split; [done|]. intros Ha. by destruct (Hd _ eq_refl Ha) as [_ [? [=]]].
  - eapply (reads_impl _ _ _ (fun r => r.1 = bridged /\ target_ok B a r.2)); [|by intros r [_ Hr]].
    destruct current; destruct a; try (by apply reads_throw);
      (apply unbond_target_reads; [done|done|]); destruct Hcur as [[Ec _]|(Hn & _)]; try discriminate; intros _; by inversion Ec.
Qed.
Lemma target_reads s B a : books s B -> wf (bk_bids B) -> bid_ok a -> reads books (get_distribution_target blake2b a) s B (fun r => target_ok B a r.2).
Proof. intros HB W Ha. apply distribution_target_reads; [done|done|done|by left]. Qed.

(** The amount of the latest era of an unbond grows by at most the reward. *)
Lemma target_position_spec eras i e : target_position eras = Some (i, e) -> eras !! i = Some e.
Proof.
  unfold target_position. assert (forall l best, (forall j x, (j, x) ∈ l -> eras !! j = Some x) -> (forall j x, best = Some (j, x) -> eras !! j = Some x) ->
    forall j x, foldl (fun best y => match best with None => Some y
      | Some x => Some (if era_value (ue_era_of_creation y.2) <? era_value (ue_era_of_creation x.2) then x else y) end) best l = Some (j, x) -> eras !! j = Some x) as Hl.
  { induction l as [|[j' x'] l IH]; intros best Hl Hb j x; cbn [foldl]; [by apply Hb|]. apply IH.
    - intros j0 x0 H0. apply Hl. by right.
    - assert (eras !! j' = Some x') as Hx' by (apply Hl; left). destruct best as [[jb xb]|]; [|by intros ? ? [= <- <-]].
      case_match; intros ? ? [= <- <-]; [by apply Hb|done]. }
  apply Hl; [|done]. intros j x (i' & x' & [= -> ->] & Hx)%elem_of_lookup_imap_1. done.
Qed.
Lemma zsum_insert {A} (f : A -> Z) l i x y : l !! i = Some x -> zsum (f <$> <[i := y]> l) = zsum (f <$> l) - f x + f y.
Proof.
  intros Hi. rewrite <- (take_drop_middle l i x Hi) at 2. rewrite insert_take_drop by (by eapply lookup_lt_Some).
  rewrite !fmap_app, !zsum_app, !fmap_cons. unfold zsum. cbn [foldr]. lia.
Qed.
Lemma add_to_target_ok u z purse u' : add_to_target u z = Some (purse, u') -> 0 <= z -> amounts_ok (BK_Unbond u) ->
  ub_validator u' = ub_validator u /\ ub_kind u' = ub_kind u /\ amounts_ok (BK_Unbond u') /\
  forall p, owed_by (BK_Unbond u') p - owed_by (BK_Unbond u) p <= amount_at purse z p.
Proof.
  unfold add_to_target. destruct (target_position (ub_eras u)) as [[i e]|] eqn:E; [|discriminate]. intros [= <- <-] Hz Ha.
  apply target_position_spec in E. cbn in Ha. pose proof (proj1 (Forall_lookup _ _) Ha i e E) as He. cbn in He. split_and!; [done|done| |].
  - cbn. apply Forall_insert; [done|]. cbn. unfold saturating_add, u_max. lia.
  - intros p. cbn [owed_by ub_eras]. rewrite (zsum_insert _ _ _ _ _ E). cbn.
    pose proof (amount_at_le (ue_bonding_purse e) (saturating_add 512 (ue_amount e) z) (ue_amount e + z) p ltac:(unfold saturating_add; lia)).
    rewrite amount_at_add in H. lia.
Qed.

(** *** Paying rewards *)

(** A record is written with a reward that is not minted yet. *)
Lemma pay_bid_ok s B a b z br v : books s B -> wf (bk_bids B) -> bid_ok a -> bk_bids B !! a = Some (BK_Validator b) ->
  succeeds (pay_validator_bid a b z br v) s (fun o s' => exists payout B', o = Some payout /\ books s' B' /\ evolves B (amount_at (payout_purse payout) z) 0 B').
Proof.
  intros HB W Ha E. destruct (wf_at blake2b B a _ W E) as [Hp _]. unfold pay_validator_bid. apply ends_lift_bind; [|done].
  intros b' [-> Hs]%validator_increase_Ok. eapply succeeds_bind.
  { apply (write_ok s B a _ (amount_at (vb_bonding_purse b) z)); [done|done|exact Hp|done|]. intros p. rewrite E. cbn. rewrite amount_at_add. lia. }
  intros [] s' (B' & HB' & Ev & _). apply ends_ret. by eexists _, B'.
Qed.
Lemma pay_unbond_target_ok s B c u z purse u' : books s B -> wf (bk_bids B) -> bk_bids B !! c = Some (BK_Unbond u) -> 0 <= z ->
  add_to_target u z = Some (purse, u') ->
  updates (write_unbond c (Some u')) s B (amount_at purse z) 0 (fun _ _ => True).
Proof.
  intros HB W E Hz Ht. destruct (wf_at blake2b B c _ W E) as [Hp Ha].
  destruct (placed_unbond c u Hp) as [_ Ec]. destruct (add_to_target_ok _ _ _ _ Ht Hz Ha) as (Ev & Ek & Ha' & Ho).
  eapply succeeds_impl; [apply (law_write_unbond books s B c _ HB); rewrite Ec; apply unbond_addr_ok|]. intros [] s' HB'.
  eexists. split; [exact HB'|]. split; [|done]. apply evolves_set; [|done|by rewrite E].
  left. destruct Hp as [->|[]]. cbn. by rewrite Ev, Ek.
Qed.
Lemma pay_validator_ok s B v z : books s B -> wf (bk_bids B) -> 0 <= z ->
  succeeds (pay_validator blake2b v z) s (fun o s' =>
    match o with
    | Some payout => exists B', books s' B' /\ evolves B (amount_at (payout_purse payout) z) 0 B'
    | None => books s' B
    end).
Proof.
  intros HB W Hz. unfold pay_validator. eapply attempt_bind; [by apply target_reads|]. intros r s1 HB1 Hr.
  destruct r as [[br t]|e| |]; [|by destruct e|done|done]. cbn in Hr. destruct t as [b|rq cur brs b|d|u].
  - eapply succeeds_impl; [by apply pay_bid_ok|]. intros o s' (payout & B' & -> & HB' & Ev). by exists B'.
  - destruct Hr as [Hc Hr]. eapply succeeds_impl; [by apply pay_bid_ok|]. intros o s' (payout & B' & -> & HB' & Ev). by exists B'.
  - done.
  - destruct Hr as (c & E & _). destruct (add_to_target u z) as [[purse u']|] eqn:Ht; [|by apply ends_ret].
    destruct (wf_at blake2b B c _ W E) as [Hp Ha]. destruct (add_to_target_ok _ _ _ _ Ht Hz Ha) as (Ev & Ek & _ & _).
    rewrite Ev, Ek. destruct (placed_unbond c u Hp) as [_ <-].
    eapply succeeds_bind; [by apply (pay_unbond_target_ok s1 B c u z purse u')|]. intros [] s' (B' & HB' & Ev' & _). apply ends_ret. by exists B'.
Qed.

Definition followup_ok (f : list (DelegatorKind * PublicKey * Z) * list BidAddr) : Prop :=
  Forall (fun x => 0 <= x.2) f.1 /\ Forall bid_ok f.2.
Lemma delegation_addr h kind : let a := new_delegator_kind_relaxed blake2b h kind in
  is_delegator_bid_addr a = true /\ bid_ok a /\ unbond_of a = Some (new_delegator_unbond_relaxed blake2b (validator_account_hash a) kind).
Proof. by destruct kind. Qed.
Lemma pay_delegator_ok s B payout kind z addrs : books s B -> wf (bk_bids B) -> 0 <= z ->
  Forall (fun a => exists h, a = new_delegator_kind_relaxed blake2b h kind) addrs ->
  succeeds (pay_delegator blake2b payout kind z addrs) s (fun r s' => followup_ok r.2 /\
    match r.1 with
    | Some purse => exists B', books s' B' /\ evolves B (amount_at purse z) 0 B'
    | None => books s' B
    end).
Proof.
  intros HB W Hz. revert s HB. induction addrs as [|a addrs IH]; intros s HB Ha; cbn [pay_delegator]; [by apply ends_ret; repeat split|].
  apply Forall_cons in Ha as [[h ->] Has]. destruct (delegation_addr h kind) as (Hd & Hok & Hu). set (a := new_delegator_kind_relaxed _ _ _) in *.
  case_match; [by apply ends_ret; repeat split|].
  eapply attempt_bind; [by apply target_reads|]. intros r s1 HB1 Hr. destruct r as [[br t]|e| |]; [|by destruct e; first [by apply IH|done]|done|done].
  cbn in Hr. destruct t as [b|rq cur brs b|d|u]; [done|done| |].
  - specialize (Hr Hd). destruct (wf_at blake2b B a _ W Hr) as [Hp _]. apply ends_lift_bind; [|done].
    intros d' [-> Hs]%delegator_increase_Ok. eapply succeeds_bind.
    { apply (write_ok s1 B a _ (amount_at (db_bonding_purse d) z)); [done|done|exact Hp|done|]. intros p. rewrite Hr. cbn. rewrite amount_at_add. lia. }
    intros [] s2 (B2 & HB2 & Ev2 & _). apply ends_ret. split; [|by exists B2]. cbn.
    repeat case_match; repeat constructor; try done. unfold saturating_sub. cbn. lia.
  - destruct Hr as (c & E & Hc). rewrite Hu in Hc. injection (Hc Hd) as <-.
    destruct (add_to_target u z) as [[purse u']|] eqn:Ht; [|by apply IH].
    eapply succeeds_bind; [by apply (pay_unbond_target_ok s1 B _ u z purse u')|]. intros [] s' (B' & HB' & Ev' & _). apply ends_ret.
    split; [by repeat split|by exists B'].
Qed.

(** What is written is minted. *)
Lemma pay_into_ok s B u z d : books s B -> 0 <= z <= bk_room B -> (forall p, - amount_at u z p <= d p) ->
  updates (auction_mint_into z u) s B d z (fun _ _ => True).
Proof.
  intros HB Hz Hd. eapply succeeds_impl; [by apply law_mint_into|]. intros [] s' (B' & HB' & Hm). exists B'. split; [done|]. split; [|done].
  eapply evolves_impl; [by apply minted_evolves|exact Hd|done].
Qed.
Lemma distribute_delegator_ok s B v payout acc kind z : books s B -> wf (bk_bids B) -> 0 <= z <= bk_room B -> followup_ok acc.2 ->
  updates (distribute_delegator blake2b v payout acc (kind, z)) s B none z (fun acc' _ => followup_ok acc'.2).
Proof.
  intros HB W Hz Hacc. destruct acc as [al [un pr]]. unfold distribute_delegator. cbn in Hacc. eapply succeeds_bind.
  { apply pay_delegator_ok; [done|done|apply Hz|]. apply Forall_app. split; [|by repeat constructor; eexists].
    rewrite Forall_fmap. apply Forall_forall. intros a _. by eexists. }
  intros [o [un' pr']] s1 [Hf Ho]. cbn in Hf, Ho. destruct Hacc as [Hun Hpr], Hf as [Hun' Hpr']. cbn in *.
  assert (followup_ok (un ++ un', pr ++ pr')) as Hff by (by split; apply Forall_app).
  destruct o as [purse|].
  - destruct Ho as (B1 & HB1 & Ev1). pose proof (ev_room _ _ _ _ _ Ev1) as Hroom. eapply succeeds_bind.
    { apply (pay_into_ok s1 B1 purse z (fun p => - amount_at purse z p)); [done|lia|done]. }
    intros [] s2 (B2 & HB2 & Ev2 & _). apply ends_ret. exists B2. split; [done|]. split; [|done].
    eapply evolves_trans; [exact Ev1|exact Ev2| |lia]. intros p. cbn. unfold none. lia.
  - apply (updates_ret (E := AuctionError)); [done|done|apply Hz|done].
Qed.
Lemma distribute_delegators_ok v payout l : forall s B acc, books s B -> wf (bk_bids B) -> Forall (fun x => 0 <= x.2) l -> zsum l.*2 <= bk_room B ->
  followup_ok acc.2 ->
  updates (accumulate l (distribute_delegator blake2b v payout) acc) s B none (zsum l.*2) (fun acc' _ => followup_ok acc'.2).
Proof.
  induction l as [|[kind z] l IH]; intros s B acc HB W Hl Hroom Hacc; cbn [accumulate]; [by apply updates_ret|].
  apply Forall_cons in Hl as [Hz Hl]. cbn in Hz. change (zsum ((kind, z) :: l).*2) with (z + zsum l.*2) in *.
  assert (0 <= zsum l.*2) by (by apply zsum_nonneg, Forall_fmap).
  eapply (updates_bind _ _ _ _ none z none (zsum l.*2)); [apply distribute_delegator_ok; [done|done|lia|done]| |done|lia].
  intros acc' s' B' HB' Ev Hacc'. apply IH; [done|by apply Ev|done| |done]. pose proof (ev_room _ _ _ _ _ Ev). lia.
Qed.
Lemma undelegations_ok l : forall s B, books s B -> wf (bk_bids B) -> Forall (fun x => 0 <= x.2) l ->
  updates (iterate l (fun '(kind, k, amount) => _ ← undelegate blake2b kind k amount; mret ())) s B none 0 (fun _ _ => True).
Proof.
  induction l as [|[[kind k] z] l IH]; intros s B HB W Hl; cbn [iterate]; [by apply updates_ret|].
  apply Forall_cons in Hl as [Hz Hl]. eapply updates_seq; [eapply updates_seq; [by apply process_undelegation_ok|]|].
  - intros. by apply (updates_ret (E := AuctionError) _ _ _ none 0 (fun _ _ => True)).
  - intros [] s' B' HB' Ev _. apply IH; [done|by apply Ev|done].
Qed.
Lemma prunes_ok l : forall s B, books s B -> wf (bk_bids B) -> Forall bid_ok l ->
  updates (E := AuctionError) (iterate l (fun a => modify (prune_bid a))) s B none 0 (fun _ _ => True).
Proof.
  induction l as [|a l IH]; intros s B HB W Hl; cbn [iterate]; [by apply updates_ret|].
  apply Forall_cons in Hl as [Ha Hl]. eapply updates_seq; [by apply prune_ok|]. intros [] s' B' HB' Ev _. apply IH; [done|by apply Ev|done].
Qed.

Lemma distribute_reward_ok s B al v info : books s B -> wf (bk_bids B) -> info_ok info -> paid info <= bk_room B ->
  updates (distribute_reward blake2b al v info) s B none (paid info) (fun _ _ => True).
Proof.
  intros HB W Hi Hroom. pose proof (info_paid _ Hi) as [Hds Hp]. destruct Hi as [Hv Hd]. unfold distribute_reward.
  eapply succeeds_bind; [by apply pay_validator_ok|]. intros o s1 Ho. destruct o as [payout|]; [|by apply updates_ret].
  destruct Ho as (B1 & HB1 & Ev1). pose proof (ev_room _ _ _ _ _ Ev1) as R1. unfold paid in *. set (z := validator_reward info) in *.
  eapply (ends_impl _ _ (fun a s' => exists B', books s' B' /\ evolves B1 (fun p => - amount_at (payout_purse payout) z p) (paid info) B' /\ True) (fun _ _ => True));
    [|intros a s' (B' & HB' & Ev & _); exists B'; split; [done|]; split; [|done];
      eapply evolves_trans; [exact Ev1|exact Ev|intros p; cbn; unfold none; lia|unfold paid; fold z; lia]|done].
  eapply (updates_bind _ _ _ _ (fun p => - amount_at (payout_purse payout) z p) z none (zsum (delegator_rewards info).*2)); 
    [apply (pay_into_ok s1 B1 _ z); [done|lia|done]| |intros p; unfold none; lia|unfold paid; fold z; lia].
  intros [] s2 B2 HB2 Ev2 _. pose proof (ev_room _ _ _ _ _ Ev2) as R2.
  eapply (updates_bind _ _ _ _ none (zsum (delegator_rewards info).*2) none 0);
    [apply distribute_delegators_ok; [done|by apply Ev2, Ev1|done|lia|by repeat split]| |done|lia].
  intros [al' [un pr]] s3 B3 HB3 Ev3 [Hun Hpr]. cbn in Hun, Hpr. assert (wf (bk_bids B3)) as W3 by (by apply Ev3, Ev2, Ev1).
  eapply updates_seq; [by apply undelegations_ok|]. intros [] s4 B4 HB4 Ev4 _.
  eapply updates_seq; [apply prunes_ok; [done|by apply Ev4|done]|]. intros [] s5 B5 HB5 Ev5 _. by apply updates_ret.
Qed.
End steps.
