(* ===== verification/AuctionBacked.v ===== *)
(** * The auction keeps its books

    Every entry point of the auction ([storage/src/system/auction.rs]) keeps the invariant of
    its books: records are well placed, and every purse holds what the records owe from it. *)
From S2P Require Import Prelude Effects BTree Bytesrepr Struct Digest PublicKey Uint Units Access CLType Account Key KeyState Bids BidKinds Transform Balances Mint Auction AuctionRewards AuctionBooks AuctionSteps.

Open Scope Z_scope.

Section entry_points.
Context {C : Curves} {LC : CurvesLaws C} (blake2b : list u8 -> vec u8 32) {R : RatioArith} {RL : RatioArithLaws}.
Context {S : Type} {P : AuctionProvider S} (books : S -> Books -> Prop) {AL : AuctionLaws books}.
Abbreviation hash_of := (to_account_hash blake2b).
Abbreviation evolves := (evolves blake2b).
Abbreviation wf := (wf blake2b).
Abbreviation updates := (updates blake2b books).
Abbreviation vaddr := (validator_addr blake2b).
Implicit Types (s : S) (B : Books).

(** ** Bids of validators *)

Lemma placed_validator a b : placed blake2b a (BK_Validator b) -> a = vaddr (vb_validator b).
Proof. by intros [->|[]]. Qed.
(** A bid with the stake and purse of another. *)
Definition same_stake (b b' : ValidatorBid) : Prop :=
  vb_validator b' = vb_validator b /\ vb_bonding_purse b' = vb_bonding_purse b /\ vb_staked_amount b' = vb_staked_amount b.
Lemma raise_bid_ok s B limits b rate z mn mx slots : books s B -> wf (bk_bids B) ->
  succeeds (raise_bid blake2b limits b rate z mn mx slots) s (fun r s' => exists B', books s' B' /\ evolves B none 0 B' /\ steady B B' /\
    r.1 = vb_bonding_purse b /\ same_stake (vb_with_stake b (vb_staked_amount b + z)) r.2 /\ 0 <= vb_staked_amount b + z).
Proof.
  intros HB W. unfold raise_bid. eapply reads_bind; [apply reads_map_err, (reads_lift _ _ _ _ (eq (validator_increase_stake b z) ∘ Ok)); [done|by intros]|].
  intros b1 s1 HB1 [-> Hz]%validator_increase_Ok. apply ends_fail_if; [done|]. intros _. apply ends_fail_if; [done|]. intros _.
  eapply succeeds_bind; [by apply updates_map_err, boundaries_ok|]. intros b2 s2 (B2 & HB2 & Ev2 & -> & Hst).
  eapply reads_bind; [by apply reads_map_err, slots_reads|]. intros b3 s3 HB3 Hb3. apply ends_ret. exists B2.
  split_and!; [done|done|done|by destruct Hb3 as [->| ->]|by destruct Hb3 as [->| ->]|done].
Qed.

(** What is paid from a purse that nothing is owed from. *)
Lemma pay_from B B' source z : backed B -> owed (bk_bids B) (addr source) = 0 -> z <= bk_balance B (addr source) -> evolves B (amount_at source z) 0 B' -> backed B'.
Proof.
  intros Hb Ho Hz [_ Hg _] p. specialize (Hg p). specialize (Hb p). unfold amount_at in Hg. case_decide as Hp; [|lia]. subst p.
  unfold gap in *. lia.
Qed.
Lemma same_stake_owed b b' p : same_stake b b' -> owed_by (BK_Validator b') p = owed_by (BK_Validator b) p.
Proof. intros (_ & E1 & E2). cbn. by rewrite E1, E2. Qed.

(** The outcome of a call that pays from a purse. *)
Definition spends {E A} (m : st S E A) s B (T : URef -> Prop) (z : Z) : Prop :=
  succeeds m s (fun _ s' => exists source B', T source /\ books s' B' /\ evolves B (amount_at source z) 0 B' /\ z <= bk_balance B (addr source)).
(** The new bid is paid for and written. *)
Lemma bond_ok s B a b target z : books s B -> wf (bk_bids B) -> 0 <= z -> bid_ok a ->
  placed blake2b a (BK_Validator b) -> 0 <= vb_staked_amount b -> (forall p, owed_by (BK_Validator b) p - owed_at (bk_bids B !! a) p <= amount_at target z p) ->
  spends (source ← asks auction_main_purse; source ← api (lift source);
    _ ← transfer_direct blake2b TransferToBidPurse source target z; _ ← api (write_bid (Key_BidAddr a) (BK_Validator b)); mret (vb_staked_amount b)) s B
    (fun u => bk_main B = Ok u) z.
Proof.
  intros HB W Hz Ha Hp Hs Ho. apply ends_asks. rewrite (law_main_purse books s B HB).
  eapply reads_bind; [by apply reads_map_err, (reads_lift _ _ _ _ (fun u => bk_main B = Ok u))|]. intros u s1 HB1 Hu.
  eapply succeeds_bind; [by apply transfer_direct_ok|]. intros [] s2 (B2 & HB2 & Hmv). pose proof (moved_evolves blake2b _ _ _ _ _ Hmv) as Ev2.
  destruct Hmv as (Eb & _ & _ & Hbal & _). eapply succeeds_bind.
  { apply (updates_map_err blake2b), (write_ok blake2b books s2 B2 a _ (amount_at target z)); [done|done|done|done|by rewrite Eb]. }
  intros [] s3 (B3 & HB3 & Ev3 & _). apply ends_ret. exists u, B3. split_and!; [done|done| |done].
  eapply evolves_trans; [exact Ev2|exact Ev3| |done]. intros p. cbn. lia.
Qed.
Lemma new_bid_reads s B limits k rate z mn mx slots : books s B ->
  reads books (new_bid limits k rate z mn mx slots) s B (fun r => exists u mn' mx', r = (u, validator_unlocked k u z rate mn' mx' slots)).
Proof.
  intros HB. unfold new_bid. do 2 (apply reads_fail_if; [done|]; intros _). eapply reads_then; [by apply reads_map_err, law_create|].
  intros u s1 HB1 _. apply reads_ret; [done|by eexists _, _, _].
Qed.
Lemma add_bid_ok s B limits k rate z mn mx slots : books s B -> wf (bk_bids B) -> 0 <= z ->
  spends (add_bid blake2b limits k rate z mn mx slots) s B (fun u => bk_main B = Ok u) z.
Proof.
  intros HB W Hz. unfold add_bid, spends. apply ends_asks. do 5 (apply ends_fail_if; [done|]; intros _). apply ends_asks.
  do 3 (apply ends_fail_if; [done|]; intros _). eapply reads_bind; [by apply reads_map_err, (bid_reads books s B (vaddr k))|]. intros o s1 HB1 ->.
  destruct (bk_bids B !! vaddr k) as [[|b| | | | |]|] eqn:E.
  2: { eapply succeeds_bind; [by apply raise_bid_ok|]. intros [target b'] s2 (B2 & HB2 & Ev2 & [[Ebal Emain] Hv] & Et & Hss & Hs). cbn [fst snd] in *. subst target.
    destruct (wf_at blake2b B (vaddr k) _ W E) as [Hp _]. eapply succeeds_impl.
    { apply (bond_ok s2 B2 (vaddr k) b' (vb_bonding_purse b) z); [done|by apply Ev2|done|done| | |].
      - left. destruct Hp as [->|[]]. cbn. by destruct Hss as (-> & _).
      - by destruct Hss as (_ & _ & ->).
      - intros p. rewrite (Hv (hash_of k) : bk_bids B2 !! vaddr k = _). change (BA_Validator (hash_of k)) with (vaddr k).
        rewrite E, (same_stake_owed _ _ p Hss). cbn. rewrite amount_at_add. lia. }
    intros _ s3 (u & B3 & Hu & HB3 & Ev3 & Hbal). exists u, B3. rewrite <- Emain, <- Ebal. split_and!; [done|done| |done].
    eapply evolves_trans; [exact Ev2|exact Ev3| |done]. intros p. unfold none. lia. }
  all: eapply reads_bind; [by apply new_bid_reads|]; intros x s2 HB2 (purse & mn' & mx' & ->); apply bond_ok; [done|done|done|done|by left|done|];
    intros p; cbn; pose proof (owed_at_nonneg blake2b B (vaddr k) p W); lia.
Qed.

Lemma delegate_ok s B kind v z max : books s B -> wf (bk_bids B) -> 0 <= z ->
  spends (delegate blake2b kind v z max) s B (fun u => match kind with DK_PublicKey _ => bk_main B = Ok u | DK_Purse a => addr u = a end) z.
Proof.
  intros HB W Hz. unfold delegate, spends. apply ends_asks, ends_fail_if; [done|]. intros _.
  eapply (reads_bind books _ _ _ B (fun u => match kind with DK_PublicKey _ => bk_main B = Ok u | DK_Purse a => addr u = a end)).
  - destruct kind as [k|a].
    + apply ends_asks, reads_fail_if; [done|]. intros _. apply ends_asks. rewrite (law_main_purse books s B HB). by apply reads_map_err, reads_lift.
    + apply ends_asks, reads_fail_if; [done|]. intros _. by apply reads_ret.
  - intros u s1 HB1 Hu. eapply succeeds_impl; [by apply handle_delegation_ok|]. intros _ s2 (B2 & HB2 & Ev2 & Hbal & _). by exists u, B2.
Qed.

(** ** Withdrawing and slashing *)

Lemma withdraw_bid_ok s B k z minimum : books s B -> wf (bk_bids B) -> 0 <= z ->
  updates (withdraw_bid blake2b k z minimum) s B none 0 (fun _ _ => True).
Proof.
  intros HB W Hz. unfold withdraw_bid. apply ends_asks. do 2 (apply ends_fail_if; [done|]; intros _).
  eapply reads_bind; [by apply (validator_bid_reads books s B (Key_BidAddr (vaddr k)))|]. intros vb s1 HB1 (a & [= <-] & E).
  apply ends_fail_if; [done|]. intros _. eapply reads_bind; [by apply number_reads|]. intros t s2 HB2 _.
  apply ends_lift_bind; [|done]. intros vb' [-> Hr]%validator_decrease_Ok. destruct (wf_at blake2b B _ _ W E) as [Hp Hst]. cbn in Hst.
  eapply updates_seq; [|by intros; apply updates_ret]. instantiate (1 := fun _ _ => True). case_match.
  - eapply (updates_bind _ _ _ _ _ _ _ 0 (fun p => - amount_at (vb_bonding_purse vb) (vb_staked_amount vb) p) 0);
      [by apply (create_unbonding_ok blake2b books s2 B k (UK_Validator k) (vb_bonding_purse vb) (vb_staked_amount vb))| |intros p; unfold none; lia|done].
    intros [] s3 B3 HB3 Ev3 (Eb & a & Ha & Ht). assert (steady B B3) as S3 by (apply (touches_steady a); [done|done|by intros h <-]).
    eapply reads_bind; [apply (delegator_bids_reads blake2b books s3 B3 k HB3); by apply Ev3|]. intros ds s4 HB4 [Hds _].
    eapply (updates_bind _ _ _ _ _ _ none 0 (fun p => - amount_at (vb_bonding_purse vb) (vb_staked_amount vb) p) 0);
      [apply (iterate_delegators blake2b books _ (fun _ => True)); [done|by apply Ev3|done|by apply Forall_true|intros; by apply withdraw_delegator_ok]| |intros p; unfold none; lia|done].
    intros [] s5 B5 HB5 Ev5 S5. eapply updates_post; [apply (prune_at_ok blake2b books s5 B5 (vaddr k)); [done|done|]|done].
    intros p. pose proof (steady_trans _ _ _ S3 S5) as [_ Hv]. rewrite (Hv (hash_of k) : bk_bids B5 !! vaddr k = _).
    change (BA_Validator (hash_of k)) with (vaddr k). by rewrite E.
  - eapply (updates_bind _ _ _ _ _ _ _ 0 (fun p => - amount_at (vb_bonding_purse vb) z p) 0);
      [by apply (create_unbonding_ok blake2b books s2 B k (UK_Validator k) (vb_bonding_purse vb) z)| |intros p; unfold none; lia|done].
    intros [] s3 B3 HB3 Ev3 (Eb & a & Ha & Ht). eapply updates_post; [apply (write_ok blake2b books s3 B3 (vaddr k)); [done|done|exact Hp|done|]|done].
    intros p. rewrite Ht by (by intros <-). rewrite E. cbn. rewrite amount_at_sub. lia.
Qed.

Lemma write_none_ok s B a : books s B -> wf (bk_bids B) -> bid_ok a -> updates (write_unbond a None) s B none 0 (fun _ _ => True).
Proof.
  intros HB W Ha. eapply succeeds_impl; [by apply (law_write_unbond books s B a None)|]. intros [] s' HB'. eexists. split; [exact HB'|].
  split; [|done]. by apply evolves_prune.
Qed.
Lemma add_u512_reads s B a b : books s B -> reads books (add_u512 a b) s B (Z.le 0).
Proof. intros HB. apply reads_lift; [done|]. intros z [-> [Hz _]]%expect_Ok%checked_Some. done. Qed.
Lemma slash_unbonds_ok s B a z : books s B -> wf (bk_bids B) -> bid_ok a -> 0 <= z -> updates (slash_unbonds a z) s B none 0 (fun z' _ => 0 <= z').
Proof.
  intros HB W Ha Hz. unfold slash_unbonds. eapply reads_bind; [by apply law_read_unbond|]. intros [u|] s1 HB1 _; [|by apply updates_ret].
  apply ends_lift_bind; [|done]. intros sum _. eapply reads_bind; [by apply add_u512_reads|]. intros b s2 HB2 Hb.
  eapply updates_seq; [by apply write_none_ok|]. intros [] s3 B3 HB3 Ev3 _. by apply updates_ret.
Qed.
Lemma slash_delegator_ok s B v z k : books s B -> wf (bk_bids B) -> key_ok k -> 0 <= z -> updates (slash_delegator blake2b v z k) s B none 0 (fun z' _ => 0 <= z').
Proof.
  intros HB W Hk Hz. unfold slash_delegator. eapply reads_bind; [by apply law_read_bid|]. intros o s1 HB1 _.
  destruct o as [[| |d| | | |]|]; try (by apply updates_ret). eapply reads_bind; [by apply add_u512_reads|]. intros b s2 HB2 Hb.
  eapply updates_seq; [apply (prune_ok blake2b books s2 B); [done|apply daddr_ok|done]|]. intros [] s3 B3 HB3 Ev3 _.
  apply slash_unbonds_ok; [done|by apply Ev3|by destruct (db_kind d)|done].
Qed.
Lemma slash_delegators_ok v ks : forall s B z, books s B -> wf (bk_bids B) -> Forall key_ok ks -> 0 <= z ->
  updates (accumulate ks (slash_delegator blake2b v) z) s B none 0 (fun z' _ => 0 <= z').
Proof.
  induction ks as [|k ks IH]; intros s B z HB W Hks Hz; cbn [accumulate]; [by apply updates_ret|]. apply Forall_cons in Hks as [Hk Hks].
  eapply updates_seq; [by apply slash_delegator_ok|]. intros z' s' B' HB' Ev Hz'. apply IH; [done|by apply Ev|done|done].
Qed.
Lemma slash_validator_ok s B z v : books s B -> wf (bk_bids B) -> 0 <= z -> updates (slash_validator blake2b z v) s B none 0 (fun z' _ => 0 <= z').
Proof.
  intros HB W Hz. unfold slash_validator. eapply reads_bind; [by apply (bid_reads books s B (vaddr v))|]. intros o s1 HB1 _.
  eapply (updates_seq blake2b books _ _ _ _ (fun z' _ => 0 <= z')); [|intros z' s' B' HB' Ev Hz'; apply slash_unbonds_ok; [done|by apply Ev|done|done]].
  destruct o as [[|b| | | | |]|]; try (by apply updates_ret). eapply reads_bind; [by apply add_u512_reads|]. intros bn s2 HB2 Hb.
  eapply updates_seq; [by apply (prune_ok blake2b books s2 B (vaddr v))|]. intros [] s3 B3 HB3 Ev3 _.
  eapply reads_bind; [by apply keys_under_reads|]. intros ks s4 HB4 (_ & Hks & _). apply slash_delegators_ok; [done|by apply Ev3|done|done].
Qed.
Lemma slash_all_ok vs : forall s B z, books s B -> wf (bk_bids B) -> 0 <= z ->
  updates (accumulate vs (slash_validator blake2b) z) s B none 0 (fun z' _ => 0 <= z').
Proof.
  induction vs as [|v vs IH]; intros s B z HB W Hz; cbn [accumulate]; [by apply updates_ret|].
  eapply updates_seq; [by apply slash_validator_ok|]. intros z' s' B' HB' Ev Hz'. apply IH; [done|by apply Ev|done].
Qed.
Lemma slash_ok s B vs : books s B -> wf (bk_bids B) -> updates (slash blake2b vs) s B none 0 (fun _ _ => True).
Proof.
  intros HB W. unfold slash. apply ends_asks, ends_fail_if; [done|]. intros _. eapply updates_seq; [by apply slash_all_ok|].
  intros z s' B' HB' Ev Hz. eapply succeeds_impl; [by apply law_reduce|]. intros [] s'' HB''. exists B'. split; [done|]. split; [by apply evolves_refl|done].
Qed.

(** ** Reservations, activation and credits *)

(** Writing a record that owes nothing. *)
Lemma write_free_ok s B a k : books s B -> wf (bk_bids B) -> bid_ok a -> placed blake2b a k -> amounts_ok k -> (forall p, owed_by k p = 0) ->
  updates (write_bid (Key_BidAddr a) k) s B none 0 (fun _ B' => B' = set_bid B a k).
Proof.
  intros HB W Ha Hp Hk H0. apply (write_ok blake2b books s B a); [done|done|done|done|]. intros p. pose proof (owed_at_nonneg blake2b B a p W). rewrite H0. unfold none. lia.
Qed.
Lemma reservation_addr_ok v kind : bid_ok (new_reservation_kind blake2b v kind).
Proof. by destruct kind. Qed.
Lemma reservation_placed r : placed blake2b (new_reservation_kind blake2b (rs_validator r) (rs_kind r)) (BK_Reservation r).
Proof. left. by destruct r as [[] ? ?]. Qed.
Lemma add_reservation_ok s B r minimum : books s B -> wf (bk_bids B) -> updates (handle_add_reservation blake2b r minimum) s B none 0 (fun _ _ => True).
Proof.
  intros HB W. unfold handle_add_reservation. do 2 (apply ends_fail_if; [done|]; intros _).
  eapply reads_bind; [by apply validator_bid_reads|]. intros b s1 HB1 _. eapply reads_bind; [apply (bid_reads books s1 B); [done|apply reservation_addr_ok]|].
  intros o s2 HB2 _. eapply (reads_bind books _ _ _ B (fun _ => True)).
  { destruct o; [by apply reads_ret|]. eapply reads_then; [by apply law_reservation_count|]. intros c s3 HB3 _. by apply reads_lift. }
  intros [] s3 HB3 _. eapply updates_post; [apply (write_free_ok s3 B); [done|done|apply reservation_addr_ok|apply reservation_placed|done|done]|done].
Qed.
Lemma add_reservations_ok s B rs minimum : books s B -> wf (bk_bids B) -> updates (add_reservations blake2b rs minimum) s B none 0 (fun _ _ => True).
Proof.
  intros HB W. unfold add_reservations. apply ends_asks, ends_fail_if; [done|]. intros _. revert s B HB W.
  induction rs as [|r rs IH]; intros s B HB W; cbn [iterate]; [by apply updates_ret|]. eapply updates_seq.
  { apply ends_asks, ends_fail_if; [done|]. intros _. by apply add_reservation_ok. }
  intros [] s' B' HB' Ev _. apply IH; [done|by apply Ev].
Qed.
Lemma cancel_reservation_ok s B v max kind : books s B -> wf (bk_bids B) -> updates (handle_cancel_reservation blake2b v max kind) s B none 0 (fun _ _ => True).
Proof.
  intros HB W. unfold handle_cancel_reservation. eapply reads_bind; [by apply validator_bid_reads|]. intros b s1 HB1 _.
  eapply reads_bind; [apply (bid_reads books s1 B); [done|apply reservation_addr_ok]|]. intros o s2 HB2 _. apply ends_fail_if; [done|]. intros _.
  eapply attempt_bind; [apply (delegator_bid_reads books s2 B (Key_BidAddr (new_delegator_kind blake2b v kind))); [done|apply delegator_addr_ok]|].
  intros r s3 HB3 Hr. eapply (reads_bind books _ _ _ B (fun _ => True)).
  { destruct r; try (by apply reads_ret). eapply reads_then; [by apply law_delegator_count|]. intros c s4 HB4 _.
    eapply reads_then; [by apply law_used_reservation_count|]. intros u s5 HB5 _. by apply reads_lift. }
  intros [] s4 HB4 _. eapply updates_post; [apply (prune_ok blake2b books s4 B); [done|apply reservation_addr_ok|done]|done].
Qed.
Lemma cancel_reservations_ok s B v kinds max : books s B -> wf (bk_bids B) -> updates (cancel_reservations blake2b v kinds max) s B none 0 (fun _ _ => True).
Proof.
  intros HB W. unfold cancel_reservations. apply ends_asks, ends_fail_if; [done|]. intros _. revert s B HB W.
  induction kinds as [|k kinds IH]; intros s B HB W; cbn [iterate]; [by apply updates_ret|].
  eapply updates_seq; [by apply cancel_reservation_ok|]. intros [] s' B' HB' Ev _. apply IH; [done|by apply Ev].
Qed.
Lemma activate_bid_ok s B v minimum : books s B -> wf (bk_bids B) -> updates (activate_bid blake2b v minimum) s B none 0 (fun _ _ => True).
Proof.
  intros HB W. unfold activate_bid. apply ends_asks, ends_fail_if; [done|]. intros _. eapply reads_bind; [by apply (bid_reads books s B (vaddr v))|].
  intros o s1 HB1 ->. destruct (bk_bids B !! vaddr v) as [[|b| | | | |]|] eqn:E; try (by apply ends_throw).
  destruct (wf_at blake2b B _ _ W E) as [Hp Hb]. case_match; [|by apply ends_throw].
  eapply updates_post; [apply (write_ok blake2b books s1 B (vaddr v)); [done|done|exact Hp|exact Hb|]|done]. intros p. rewrite E. cbn. unfold none. lia.
Qed.
Lemma write_credit_ok s B v era z : books s B -> wf (bk_bids B) -> representable era -> updates (write_validator_credit blake2b v era z) s B none 0 (fun _ _ => True).
Proof.
  intros HB W He. unfold write_validator_credit. apply ends_asks, ends_fail_if; [done|]. intros _.
  eapply reads_bind; [by apply (bid_reads books s B (vaddr v))|]. intros [k|] s1 HB1 _; [|by apply updates_ret]. case_match; [by apply updates_ret|].
  eapply reads_bind; [by apply bid_reads|]. intros o s2 HB2 ->.
  eapply (reads_bind books _ _ _ B (fun c => placed blake2b (BA_Credit (hash_of v) era) (BK_Credit c))).
  - destruct (bk_bids B !! BA_Credit (hash_of v) era) as [[| | | |c| |]|] eqn:E; try (by apply reads_throw).
    + apply reads_ret; [done|]. exact (proj1 (wf_at blake2b B _ _ W E)).
    + apply reads_ret; [done|by left].
  - intros c s3 HB3 Hc. eapply updates_seq; [by apply write_free_ok|]. intros [] s4 B4 HB4 Ev4 _. by apply updates_ret.
Qed.

(** ** Changing the key of a validator *)

Lemma delegator_addr_inj h1 h2 h k1 k2 : new_delegator_kind_relaxed blake2b h1 k1 = new_delegator_kind_relaxed blake2b h2 k2 ->
  new_delegator_kind_relaxed blake2b h k1 = new_delegator_kind_relaxed blake2b h k2.
Proof. destruct k1, k2; cbn; intros [= _ E]; by rewrite ?E. Qed.
Lemma daddr_kind d v : hash_of (db_validator d) = hash_of v -> delegator_bid_addr blake2b d = new_delegator_kind blake2b v (db_kind d).
Proof. intros E. unfold delegator_bid_addr, new_delegator_kind, new_delegator_kind_relaxed. by rewrite E. Qed.
Lemma move_delegator_ok s B old new d l : books s B -> wf (bk_bids B) -> todo (delegators_todo blake2b (d :: l)) B ->
  Forall (fun d => hash_of (db_validator d) = hash_of old) (d :: l) ->
  updates (move_delegator blake2b old new d) s B none 0 (fun _ B' => todo (delegators_todo blake2b l) B' /\ steady B B').
Proof.
  intros HB W Hl Hv. pose proof (todo_cons _ _ _ Hl) as (Ed & Hn & Hl'). cbn [fst snd] in Ed, Hn. apply Forall_cons in Hv as [Hd Hv].
  rewrite (daddr_kind d old Hd) in Ed, Hn. set (a := new_delegator_kind blake2b old (db_kind d)) in *. set (a' := new_delegator_kind blake2b new (db_kind d)).
  assert (forall h, BA_Validator h <> a /\ BA_Validator h <> a') as Hav by (intros h; unfold a, a'; by destruct (db_kind d)).
  destruct (wf_at blake2b B _ _ W Ed) as [_ Hst]. unfold move_delegator.
  eapply (updates_bind _ _ _ _ _ _ _ 0 (fun p => - amount_at (db_bonding_purse d) (db_staked_amount d) p) 0).
  - apply (write_ok blake2b books s B a' _ (amount_at (db_bonding_purse d) (db_staked_amount d)));
      [done|apply delegator_addr_ok|left; unfold a'; by destruct d as [[] ? ? ? ?]|exact Hst|].
    intros p. pose proof (owed_at_nonneg blake2b B a' p W). cbn. lia.
  - intros [] s1 B1 HB1 Ev1 ->. eapply updates_post; [apply (prune_at_ok blake2b books s1 _ a); [done|apply delegator_addr_ok|]|].
    + intros p. cbn. destruct (decide (a' = a)) as [->|Hne]; [rewrite lookup_insert_eq|rewrite lookup_insert_ne, Ed by done]; done.
    + intros [] B2 ->. split.
      * apply (todo_touched _ a (set_bid B a' (BK_Delegator (db_with_validator d new)))); [|exact Hn|apply touches_drop].
        apply (todo_touched _ a' B); [exact Hl'| |apply touches_set].
        intros (x & Ex & (d' & -> & Hin)%list_elem_of_fmap_1)%list_elem_of_fmap_1. cbn in Ex. apply Hn.
        rewrite Forall_forall in Hv. rewrite (daddr_kind d' old (Hv _ Hin)) in Ex. unfold a', a, new_delegator_kind in *.
        rewrite (delegator_addr_inj _ _ (hash_of old) _ _ Ex). change (new_delegator_kind_relaxed blake2b (hash_of old) (db_kind d')) with (new_delegator_kind blake2b old (db_kind d')).
        rewrite <- (daddr_kind d' old (Hv _ Hin)). apply list_elem_of_fmap. exists (delegator_bid_addr blake2b d', BK_Delegator d'). split; [done|].
        apply list_elem_of_fmap. by exists d'.
      * apply (steady_trans _ (set_bid B a' (BK_Delegator (db_with_validator d new))));
          [apply (touches_steady a'); [done|apply touches_set|apply Hav]|apply (touches_steady a); [done|apply touches_drop|apply Hav]].
  - intros p. unfold none. lia.
  - done.
Qed.
Lemma move_delegators_ok old new l : forall s B, books s B -> wf (bk_bids B) -> todo (delegators_todo blake2b l) B ->
  Forall (fun d => hash_of (db_validator d) = hash_of old) l ->
  updates (iterate l (move_delegator blake2b old new)) s B none 0 (fun _ => steady B).
Proof.
  induction l as [|d l IH]; intros s B HB W Hl Hv; cbn [iterate]; [by apply updates_ret|].
  eapply updates_seq; [by eapply move_delegator_ok|]. intros [] s' B' HB' Ev [Hl' Hs]. apply Forall_cons in Hv as [_ Hv].
  eapply updates_post; [apply IH; [done|by apply Ev|done|done]|]. intros [] B'' Hs'. by eapply steady_trans.
Qed.
Lemma move_reservations_ok old new l : forall s B, books s B -> wf (bk_bids B) ->
  updates (iterate l (move_reservation blake2b old new)) s B none 0 (fun _ _ => True).
Proof.
  induction l as [|r l IH]; intros s B HB W; cbn [iterate]; [by apply updates_ret|]. apply (updates_seq blake2b books _ _ _ _ (fun _ _ => True)).
  - unfold move_reservation. eapply updates_seq.
    + apply (write_free_ok s B); [done|done|apply reservation_addr_ok|exact (reservation_placed (rs_with_validator r new))|done|done].
    + intros [] s1 B1 HB1 Ev1 _. eapply updates_post; [apply (prune_ok blake2b books s1 B1); [done|apply reservation_addr_ok|by apply Ev1]|done].
  - intros [] s' B' HB' Ev _. apply IH; [done|by apply Ev].
Qed.
Lemma change_key_ok s B old new : books s B -> wf (bk_bids B) -> updates (change_bid_public_key blake2b old new) s B none 0 (fun _ _ => True).
Proof.
  intros HB W. unfold change_bid_public_key. apply ends_fail_if; [done|]. intros _. apply ends_asks, ends_fail_if; [done|]. intros _.
  eapply reads_bind; [by apply (validator_bid_reads books s B (Key_BidAddr (vaddr old)))|]. intros vb s1 HB1 (a & [= <-] & E).
  eapply reads_bind; [by apply (bid_reads books s1 B (vaddr new))|]. intros o s2 HB2 ->. apply ends_fail_if; [done|]. intros En%negb_false_iff%bool_decide_eq_true.
  assert (vaddr new <> vaddr old) as Hne by congruence. destruct (wf_at blake2b B _ _ W E) as [_ Hst]. set (owed_vb := owed_by (BK_Validator vb)).
  eapply (updates_bind _ _ _ _ _ _ owed_vb 0 (fun p => - owed_vb p) 0).
  { apply (write_ok blake2b books s2 B (vaddr new)); [done|done|by left|exact Hst|]. intros p. rewrite En. cbn. unfold owed_vb. cbn. lia. }
  2: intros p; unfold none; lia. 2: done. intros [] s3 B3 HB3 Ev3 ->.
  eapply reads_bind; [by apply era_reads|]. intros era s4 HB4 _.
  eapply (updates_bind _ _ _ _ _ _ (fun p => - owed_vb p) 0 none 0).
  { apply (write_ok blake2b books s4 (set_bid B (vaddr new) _) (vaddr old)); [done|done|by left|done|]. intros p. cbn. rewrite lookup_insert_ne, E by done. done. }
  2: intros p; unfold none; lia. 2: done. intros [] s5 B5 HB5 Ev5 ->. assert (wf (bk_bids (set_bid (set_bid B (vaddr new) (BK_Validator (vb_with_validator vb new))) (vaddr old) (BK_Bridge (mkBridge old new era))))) as W5 by (by apply Ev5, Ev3).
  eapply updates_seq; [by apply (write_free_ok s5 _ (BA_ValidatorRev (hash_of new))); [| | |right|..]|]. intros [] s6 B6 HB6 Ev6 _.
  assert (wf (bk_bids B6)) as W6 by (by apply Ev6). eapply reads_bind; [by apply (delegator_bids_reads blake2b books s6 B6 old)|]. intros ds s7 HB7 [Hds Hv].
  eapply updates_seq; [by apply move_delegators_ok|]. intros [] s8 B8 HB8 Ev8 _.
  eapply (reads_bind books _ _ _ B8 (fun _ => True)).
  { unfold read_reservation_bids. eapply reads_then; [by apply keys_under_reads|]. intros ks s9 HB9 (_ & Hks & _).
    eapply reads_impl; [|by intros]. apply (collect_reads books _ (fun _ _ => True) B8); [done|]. intros k s10 HB10 Hk. eapply reads_impl; [|by intros].
    apply (reservation_bid_reads books s10 B8 k); [done|]. by eapply Forall_forall in Hks. }
  intros rs s9 HB9 _. apply move_reservations_ok; [done|by apply Ev8].
Qed.

(** ** Running the auction *)

Lemma resolve_reads s B n a r : books s B -> bid_ok a -> reads books (resolve_evicted blake2b n a r) s B (fun _ => True).
Proof.
  intros HB. revert s a r HB. induction n as [|n IH]; intros s a r HB Ha; cbn [resolve_evicted]; [by apply reads_ret|].
  eapply reads_then; [by apply bid_reads|]. intros o s' HB' _. destruct o as [[| | |b| | |]|]; try (by apply reads_ret). by apply IH.
Qed.
(** A bid that was read: the record of the validator has its stake and purse. *)
Definition current B (p : PublicKey * ValidatorBid) : Prop :=
  p.1 = vb_validator p.2 /\ exists b, bk_bids B !! vaddr p.1 = Some (BK_Validator b) /\ same_stake b p.2.
Lemma current_steady B B' p : steady B B' -> current B p -> current B' p.
Proof. intros [_ Hv] (Ek & b & E & Hs). split; [done|]. exists b. split; [|done]. by rewrite (Hv (hash_of p.1) : bk_bids B' !! vaddr p.1 = _). Qed.
Lemma validator_bids_reads s B era : books s B -> wf (bk_bids B) -> reads books (get_validator_bids blake2b era) s B (fun d => Forall (current B) (validator_bids d)).
Proof.
  intros HB W. unfold get_validator_bids. eapply reads_then; [by apply law_keys|]. intros ks s1 HB1 Hks.
  apply accumulate_reads; [done|constructor|]. intros d k s2 HB2 Hd Hin. rewrite Forall_forall in Hks. destruct (Hks k Hin) as [Hk Ht].
  assert (exists a, k = Key_BidAddr a) as [a ->] by (destruct k; try discriminate Ht; by eexists).
  eapply reads_then; [by apply bid_reads|]. intros o s3 HB3 ->. destruct (bk_bids B !! a) as [[|b| | |c| |]|] eqn:E; try (by apply reads_throw); try (by apply reads_ret).
  eapply reads_then; [by apply delegator_bids_reads|]. intros ds s4 HB4 _. eapply (reads_then books _ _ _ _ (fun _ => True)).
  { unfold read_reservation_bids. eapply reads_then; [by apply keys_under_reads|]. intros ks' s5 HB5 (_ & Hks' & _).
    eapply reads_impl; [|by intros]. apply (collect_reads books _ (fun _ _ => True) B); [done|]. intros k s6 HB6 Hk'. eapply reads_impl; [|by intros].
    apply (reservation_bid_reads books s6 B k); [done|]. by eapply Forall_forall in Hks'. }
  intros rs s5 HB5 _. apply reads_ret; [done|]. cbn. apply btree_insert_all; [done|]. split; [done|]. exists b. split; [|done]. cbn.
  by rewrite <- (placed_validator a b (proj1 (wf_at blake2b B a _ W E))).
Qed.
Lemma process_bids_ok t resolved l : forall s B acc, books s B -> wf (bk_bids B) -> Forall (current B) l -> Forall (current B) acc.1 ->
  updates (accumulate l (process_bid blake2b t resolved) acc) s B none 0 (fun acc' B' => Forall (current B') acc'.1 /\ steady B B').
Proof.
  induction l as [|p l IH]; intros s B [bids m] HB W Hl Hacc; cbn [accumulate]; [by apply updates_ret|]. apply Forall_cons in Hl as [Hp Hl]. cbn in Hacc.
  eapply (updates_seq blake2b books _ _ _ _ (fun acc' B' => Forall (current B') acc'.1 /\ steady B B')).
  - unfold process_bid. apply ends_asks. eapply updates_seq; [by apply with_vesting_ok|]. intros [b i] s1 B1 HB1 Ev1 [[v Hv] Hst]. cbn in Hv. subst b.
    apply updates_ret; [done|done|done|]. split; [|done]. cbn. apply Forall_app. split.
    + eapply Forall_impl; [exact Hacc|]. intros q. by apply current_steady.
    + apply Forall_singleton. destruct (current_steady _ _ _ Hst Hp) as (Ek & b & E & Hs). cbn in Ek.
      case_match; (split; [done|]; exists b; split; [done|exact Hs]).
  - intros acc' s1 B1 HB1 Ev1 [Hacc' Hst]. eapply updates_post.
    + apply IH; [done|by apply Ev1| |done]. eapply Forall_impl; [exact Hl|]. intros q. by apply current_steady.
    + intros acc'' B2 [H2 Hst2]. split; [done|]. by eapply steady_trans.
Qed.
Lemma prune_credits_ok era l : forall s B, books s B -> wf (bk_bids B) -> representable era ->
  updates (prune_validator_credits blake2b era l) s B none 0 (fun _ => steady B).
Proof.
  unfold prune_validator_credits. induction l as [|p l IH]; intros s B HB W He; cbn [iterate]; [by apply updates_ret|].
  eapply (updates_seq blake2b books _ _ _ _ (fun _ => steady B)).
  - case_match; [|by apply updates_ret]. eapply updates_post; [by apply (prune_ok blake2b books s B)|]. intros [] B' ->.
    by apply (touches_steady (BA_Credit (hash_of p.1) era)); [|apply touches_drop|].
  - intros [] s' B' HB' Ev Hs. eapply updates_post; [apply IH; [done|by apply Ev|done]|]. intros [] B'' Hs'. by eapply steady_trans.
Qed.
Lemma set_bids_ok l : forall s B, books s B -> wf (bk_bids B) -> Forall (current B) l ->
  updates (set_validator_bids blake2b l) s B none 0 (fun _ _ => True).
Proof.
  unfold set_validator_bids. induction l as [|p l IH]; intros s B HB W Hl; cbn [iterate]; [by apply updates_ret|].
  apply Forall_cons in Hl as [(Ek & b & E & Hs) Hl]. destruct (wf_at blake2b B _ _ W E) as [Hp Hb]. eapply updates_seq.
  - apply (write_ok blake2b books s B (vaddr p.1)); [done|done| | |].
    + left. cbn. by rewrite Ek.
    + cbn in *. by destruct Hs as (_ & _ & ->).
    + intros q. rewrite E, (same_stake_owed _ _ q Hs). cbn. unfold none. lia.
  - intros [] s' B' HB' Ev ->. apply IH; [done|by apply Ev|]. eapply Forall_impl; [exact Hl|]. intros q (Eq & b' & E' & Hs'). split; [done|]. cbn.
    destruct (decide (vaddr p.1 = vaddr q.1)) as [Ea|Hne].
    + rewrite Ea, lookup_insert_eq. exists p.2. split; [done|]. rewrite <- Ea, E in E'. injection E' as <-.
      destruct Hs as (S1 & S2 & S3), Hs' as (T1 & T2 & T3). split_and!; congruence.
    + rewrite lookup_insert_ne by done. by exists b'.
Qed.
Lemma update_snapshot_keeps s B e n r : books s B -> succeeds (update_snapshot e n r) s (fun _ s' => books s' B).
Proof.
  intros HB. unfold update_snapshot. eapply reads_bind; [by apply snapshot_reads|]. intros sn s1 HB1 _. apply ends_lift_bind; [|done]. intros rs _.
  apply ends_lift_bind; [|done]. intros [] _. unfold set_seigniorage_recipients_snapshot. apply write_to_keeps; [done|]. intros. by apply law_write_snapshot.
Qed.
Lemma run_auction_ok s B t evicted max inc cap minimum : books s B -> wf (bk_bids B) ->
  updates (run_auction blake2b t evicted max inc cap minimum) s B none 0 (fun _ _ => True).
Proof.
  intros HB W. unfold run_auction. apply ends_asks, ends_fail_if; [done|]. intros _. apply ends_asks.
  eapply (reads_bind books _ _ _ B (fun _ => True)).
  { apply reads_map_err. unfold get_validator_slots. eapply reads_then; [by apply number_reads|]. intros z s' HB' _. by apply reads_ret. }
  intros slots s1 HB1 _. eapply reads_bind; [by apply reads_map_err, number_reads|]. intros delay s2 HB2 _.
  eapply reads_bind; [by apply reads_map_err, era_reads|]. intros era s3 HB3 He.
  eapply updates_seq; [by apply unbond_requests_ok|]. intros [] s4 B4 HB4 Ev4 _. assert (wf (bk_bids B4)) as W4 by (by apply Ev4).
  eapply (reads_bind books _ _ _ B4 (fun _ => True)).
  { apply reads_map_err, accumulate_reads; [done|done|]. intros. by apply resolve_reads. }
  intros resolved s5 HB5 _. eapply reads_bind; [by apply reads_map_err, validator_bids_reads|]. intros detail s6 HB6 Hd.
  eapply updates_seq; [by apply updates_map_err, process_bids_ok|]. intros [bids modified] s7 B7 HB7 Ev7 [Hb _]. cbn in Hb.
  eapply (reads_bind books _ _ _ B7 (fun _ => True)); [by apply reads_map_err, reads_lift|]. intros winners s8 HB8 _.
  eapply updates_seq; [apply updates_map_err, prune_credits_ok; [done|by apply Ev7|done]|]. intros [] s9 B9 HB9 Ev9 Hst.
  eapply (reads_bind books _ _ _ B9 (fun _ => True)); [by apply reads_map_err, reads_lift|]. intros era' s10 HB10 _.
  eapply (reads_bind books _ _ _ B9 (fun _ => True)); [by apply reads_map_err, reads_lift|]. intros delayed s11 HB11 _.
  eapply succeeds_bind; [apply succeeds_map_err; by apply update_snapshot_keeps|]. intros [] s12 HB12.
  eapply succeeds_bind; [apply succeeds_map_err; apply (write_to_keeps books _ _ B9); [done|]; intros; by apply law_write_number|]. intros [] s13 HB13.
  eapply succeeds_bind; [apply succeeds_map_err; apply (write_to_keeps books _ _ B9); [done|]; intros; by apply law_write_number|]. intros [] s14 HB14.
  destruct modified; [|by apply updates_ret]. apply updates_map_err, set_bids_ok; [done|by apply Ev9, Ev7|].
  eapply Forall_impl; [exact Hb|]. intros p. by apply current_steady.
Qed.

(** ** Distributing rewards *)

Lemma infos_ok v infos : forall s B al, books s B -> wf (bk_bids B) -> Forall info_ok infos -> zsum (paid <$> infos) <= bk_room B ->
  updates (accumulate infos (fun al info => distribute_reward blake2b al v info) al) s B none (zsum (paid <$> infos)) (fun _ _ => True).
Proof.
  induction infos as [|i infos IH]; intros s B al HB W Hi Hroom; cbn [accumulate]; [by apply updates_ret|].
  apply Forall_cons in Hi as [Hi His]. rewrite fmap_cons in *. change (zsum (paid i :: (paid <$> infos))) with (paid i + zsum (paid <$> infos)) in *.
  pose proof (info_paid i Hi) as [_ Hp]. assert (0 <= zsum (paid <$> infos)) by (apply zsum_nonneg, Forall_fmap; eapply Forall_impl; [exact His|]; intros x Hx; by apply info_paid).
  eapply (updates_bind _ _ _ _ _ _ none (paid i) none (zsum (paid <$> infos))); [apply (distribute_reward_ok blake2b books s B al v i); [done|done|done|lia]| |done|lia].
  intros al' s' B' HB' Ev _. apply IH; [done|by apply Ev|done|]. pose proof (ev_room _ _ _ _ _ Ev). lia.
Qed.
Lemma concat_cons {A} (l : list A) (ls : list (list A)) : concat (l :: ls) = l ++ concat ls.
Proof. done. Qed.
Lemma rewards_loop_ok era sn ratio (rewards : list (PublicKey * list Z)) : forall s B al, books s B -> wf (bk_bids B) -> snapshot_ok sn -> reduced ratio ->
  Forall (fun p => Forall (Z.le 0) p.2) rewards -> zsum (net ratio <$> concat rewards.*2) <= bk_room B -> Forall (fun p => 0 <= zsum (net ratio <$> p.2)) rewards ->
  updates (accumulate rewards (fun al p =>
    infos ← lift (rewards_per_validator p.1 era p.2 (inr sn) ratio);
    accumulate infos (fun al info => distribute_reward blake2b al p.1 info) al) al) s B none (zsum (net ratio <$> concat rewards.*2)) (fun _ _ => True).
Proof.
  induction rewards as [|[v l] rewards IH]; intros s B al HB W Hsn Hr Hl Hroom Hnn; cbn [accumulate]; [by apply updates_ret|].
  apply Forall_cons in Hl as [Hl Hls]. apply Forall_cons in Hnn as [Hn Hns]. cbn [fst snd] in *. rewrite !fmap_cons, !concat_cons, fmap_app, zsum_app in *. cbn [snd] in *.
  assert (0 <= zsum (net ratio <$> concat rewards.*2)) as Hrest.
  { clear -Hns. induction Hns as [|[v l] rewards H Hns IH]; [done|]. rewrite fmap_cons, concat_cons, fmap_app, zsum_app. cbn [snd] in *. lia. }
  eapply (updates_bind _ _ _ _ _ _ none (zsum (net ratio <$> l)) none (zsum (net ratio <$> concat rewards.*2)) _ _ (fun _ _ => True)); [| |done|lia].
  - apply ends_lift_bind; [|done]. intros infos Hinf. destruct (rewards_paid _ _ _ _ _ _ Hsn Hr Hl Hinf) as [Hi Es]. rewrite <- Es in Hn, Hroom |- *. apply infos_ok; [done|done|done|lia].
  - intros al' s' B' HB' Ev _. pose proof (ev_room _ _ _ _ _ Ev). apply IH; [done|by apply Ev|done|done|done|lia|done].
Qed.
(** A part of the rewards at most is set aside. *)
Definition handling_ok (h : RewardsHandling) : Prop := match h with RH_Standard => True | RH_Sustain r => 0 <= r.1 <= r.2 end.
Lemma concat_nonneg (rewards : list (PublicKey * list Z)) : Forall (fun p => Forall (Z.le 0) p.2) rewards -> Forall (Z.le 0) (concat rewards.*2).
Proof. induction 1 as [|p l Hp Hl IH]; [done|]. rewrite fmap_cons, concat_cons. by apply Forall_app. Qed.
Lemma distribute_ok s B rewards sustain handling : books s B -> wf (bk_bids B) -> Forall (fun p => Forall (Z.le 0) p.2) rewards -> handling_ok handling ->
  zsum (concat rewards.*2) <= bk_room B ->
  updates (distribute blake2b rewards sustain handling) s B none (zsum (concat rewards.*2)) (fun _ _ => True).
Proof.
  intros HB W Hrw Hh Hroom. unfold distribute. apply ends_asks, ends_fail_if; [done|]. intros _. set (l := filter _ rewards).
  assert (Forall (fun p => Forall (Z.le 0) p.2) l) as Hl by (by apply kept_ok).
  assert (zsum (concat l.*2) <= zsum (concat rewards.*2)) as Hle.
  { unfold l. clear -Hrw. induction Hrw as [|p rewards Hp Hrw IH]; [done|]. rewrite filter_cons. pose proof (zsum_nonneg _ Hp).
    case_decide; rewrite ?fmap_cons, ?concat_cons, ?zsum_app; lia. }
  pose proof (concat_nonneg l Hl) as Hc. pose proof (zsum_nonneg _ Hc) as Hc0.
  apply ends_lift_bind; [|done]. intros total ->%u512_sum_value. apply ends_lift_bind; [|done]. intros tq Htq.
  apply ends_lift_bind; [|done]. intros ratio Hratio. apply ends_lift_bind; [|done]. intros q Hq.
  assert (reduced ratio /\ ratio.1 <= ratio.2) as [Hr Hr1].
  { destruct handling as [|r]; [apply new_Ok in Hratio as (Hd & Hr & Er); [|done|done]|apply new_Ok in Hratio as (Hd & Hr & Er); [|cbn in Hh; lia..]];
      (split; [done|]); eapply ratio_le_1; [done|exact Er|cbn in Hh; lia|cbn in Hh; lia|done|exact Er|cbn in Hh; lia|cbn in Hh; lia]. }
  destruct (set_aside_le ratio tq q _ Hr Hc0 Htq Hq) as [Hq0 Hqle].
  assert (Forall (fun p => 0 <= zsum (net ratio <$> p.2)) l) as Hnn.
  { eapply Forall_impl; [exact Hl|]. intros p Hp. apply zsum_nonneg, Forall_fmap. eapply Forall_impl; [exact Hp|]. intros a. by apply net_nonneg. }
  assert (0 <= zsum (net ratio <$> concat l.*2)) as Hn0.
  { apply zsum_nonneg, Forall_fmap. eapply Forall_impl; [exact Hc|]. intros a. by apply net_nonneg. }
  eapply (updates_bind _ _ _ _ _ _ none (to_integer q) none (zsum (net ratio <$> concat l.*2)) _ _ (fun _ _ => True)); [| |done|lia].
  - destruct handling, sustain; try (by apply updates_ret); [|done].
    apply (pay_into_ok blake2b books s B _ _ none); [done|lia|]. intros p. pose proof (amount_at_nonneg u (to_integer q) p Hq0). unfold none. lia.
  - intros [] s1 B1 HB1 Ev1 _. pose proof (ev_room _ _ _ _ _ Ev1). eapply reads_bind; [by apply snapshot_reads|]. intros sn s2 HB2 Hsn.
    eapply reads_bind; [by apply era_reads|]. intros era s3 HB3 _.
    eapply (updates_bind _ _ _ _ _ _ none (zsum (net ratio <$> concat l.*2)) none 0); [apply rewards_loop_ok; [done|by apply Ev1|done|done|done|lia|done]| |done|lia].
    intros al s4 B4 HB4 Ev4 _. eapply succeeds_impl; [by apply law_record_era_info|]. intros [] s5 HB5. exists B4. split; [done|]. split; [by apply evolves_refl|done].
Qed.

(** ** All entry points *)

Inductive AuctionCall : Type :=
| AC_get_era_validators
| AC_read_seigniorage_recipients
| AC_add_bid (limits : BidLimits) (public_key : PublicKey) (delegation_rate amount : Z) (minimum maximum : option Z) (reserved_slots : Z)
| AC_withdraw_bid (public_key : PublicKey) (amount minimum_bid_amount : Z)
| AC_delegate (kind : DelegatorKind) (validator : PublicKey) (amount max_delegators : Z)
| AC_undelegate (kind : DelegatorKind) (validator : PublicKey) (amount : Z)
| AC_redelegate (kind : DelegatorKind) (validator : PublicKey) (amount : Z) (new_validator : PublicKey)
| AC_add_reservations (reservations : list Reservation) (minimum_delegation_rate : Z)
| AC_cancel_reservations (validator : PublicKey) (delegators : list DelegatorKind) (max_delegators : Z)
| AC_slash (validators : list PublicKey)
| AC_run_auction (era_end : Z) (evicted : list PublicKey) (max_delegators : Z) (include_credits : bool) (credit_cap : Z * Z) (minimum_bid : Z)
| AC_distribute (rewards : list (PublicKey * list Z)) (sustain_purse : option URef) (handling : RewardsHandling)
| AC_activate_bid (validator : PublicKey) (minimum_bid : Z)
| AC_change_bid_public_key (old new : PublicKey)
| AC_write_validator_credit (validator : PublicKey) (era_id : EraId) (amount : Z).

Definition dropped {A} (m : st S ApiError A) : st S ApiError () := _ ← m; mret ().
Definition auction_step (c : AuctionCall) : st S ApiError () :=
  match c with
  | AC_get_era_validators => dropped (api get_era_validators)
  | AC_read_seigniorage_recipients => dropped (api read_seigniorage_recipients)
  | AC_add_bid limits k rate z mn mx slots => dropped (add_bid blake2b limits k rate z mn mx slots)
  | AC_withdraw_bid k z mn => dropped (api (withdraw_bid blake2b k z mn))
  | AC_delegate kind v z max => dropped (delegate blake2b kind v z max)
  | AC_undelegate kind v z => dropped (api (undelegate blake2b kind v z))
  | AC_redelegate kind v z nv => dropped (api (redelegate blake2b kind v z nv))
  | AC_add_reservations rs rate => dropped (api (add_reservations blake2b rs rate))
  | AC_cancel_reservations v kinds max => dropped (api (cancel_reservations blake2b v kinds max))
  | AC_slash vs => dropped (api (slash blake2b vs))
  | AC_run_auction t evicted max inc cap mn => dropped (run_auction blake2b t evicted max inc cap mn)
  | AC_distribute rewards sustain handling => dropped (api (distribute blake2b rewards sustain handling))
  | AC_activate_bid v mn => dropped (api (activate_bid blake2b v mn))
  | AC_change_bid_public_key old new => dropped (api (change_bid_public_key blake2b old new))
  | AC_write_validator_credit v era z => dropped (api (write_validator_credit blake2b v era z))
  end.

(** The purse that a call pays from. *)
Definition pays_from B (c : AuctionCall) : option URefAddr :=
  match c with
  | AC_add_bid _ _ _ _ _ _ _ | AC_delegate (DK_PublicKey _) _ _ _ => match bk_main B with Ok u => Some (addr u) | _ => None end
  | AC_delegate (DK_Purse a) _ _ _ => Some a
  | _ => None
  end.
(** Arguments that fit their types; nothing is staked in the purse that pays, and rewards can be minted. *)
Definition admissible B (c : AuctionCall) : Prop :=
  (forall a, pays_from B c = Some a -> owed (bk_bids B) a = 0) /\
  match c with
  | AC_add_bid _ _ _ z _ _ _ | AC_withdraw_bid _ z _ | AC_delegate _ _ z _ | AC_undelegate _ _ z | AC_redelegate _ _ z _ => 0 <= z
  | AC_distribute rewards _ handling => Forall (fun p => Forall (Z.le 0) p.2) rewards /\ handling_ok handling /\ zsum (concat rewards.*2) <= bk_room B
  | AC_write_validator_credit _ era _ => representable era
  | _ => True
  end.
Definition sound_books B : Prop := wf (bk_bids B) /\ backed B.

Lemma keeps_sound {E A} (m : st S E A) s B z Q : sound_books B -> updates m s B none z Q -> succeeds m s (fun _ s' => exists B', books s' B' /\ sound_books B').
Proof.
  intros [W Hb] Hm. eapply succeeds_impl; [exact Hm|]. intros a s' (B' & HB' & [Ew Eg _] & _). exists B'. split; [done|]. split; [by apply Ew|].
  intros p. specialize (Eg p). specialize (Hb p). unfold none in Eg. lia.
Qed.
Lemma spends_sound {E A} (m : st S E A) s B T z : sound_books B -> (forall u, T u -> owed (bk_bids B) (addr u) = 0) -> spends m s B T z ->
  succeeds m s (fun _ s' => exists B', books s' B' /\ sound_books B').
Proof.
  intros [W Hb] Ho Hm. eapply succeeds_impl; [exact Hm|]. intros a s' (u & B' & Hu & HB' & Ev & Hz). exists B'. split; [done|]. split; [by apply Ev|].
  apply (pay_from B B' u z); auto.
Qed.
Lemma dropped_sound {A} (m : st S ApiError A) s (Q : S -> Prop) : succeeds m s (fun _ s' => Q s') -> succeeds (dropped m) s (fun _ s' => Q s').
Proof. intros Hm. eapply succeeds_bind; [exact Hm|]. done. Qed.
Lemma auction_step_sound s B c : books s B -> sound_books B -> admissible B c -> succeeds (auction_step c) s (fun _ s' => exists B', books s' B' /\ sound_books B').
Proof.
  intros HB Hs [Hp Hc]. pose proof Hs as [W _].
  assert (forall A (m : st S AuctionError A) z Q, updates m s B none z Q -> succeeds (dropped (api m)) s (fun _ s' => exists B', books s' B' /\ sound_books B')) as Hk.
  { intros A m z Q Hm. apply (dropped_sound _ _ (fun s' => exists B', books s' B' /\ sound_books B')). eapply keeps_sound; [exact Hs|]. by apply updates_map_err. }
  destruct c; cbn [auction_step pays_from] in *.
  - eapply Hk, updates_reads. unfold get_era_validators. eapply reads_then; [by apply snapshot_reads|]. intros sn s' HB' _. by apply (reads_ret _ _ _ _ (fun _ => True)).
  - eapply Hk, updates_reads. unfold read_seigniorage_recipients. eapply reads_then; [by apply era_reads|]. intros e s1 HB1 _.
    eapply reads_then; [by apply snapshot_reads|]. intros sn s2 HB2 _. by apply (reads_lift _ _ _ _ (fun _ => True)).
  - apply (dropped_sound _ _ (fun s' => exists B', books s' B' /\ sound_books B')). eapply spends_sound; [exact Hs| |by apply add_bid_ok].
    intros u Hu. apply Hp. by rewrite Hu.
  - by eapply Hk, withdraw_bid_ok.
  - apply (dropped_sound _ _ (fun s' => exists B', books s' B' /\ sound_books B')). eapply spends_sound; [exact Hs| |by apply delegate_ok].
    intros u Hu. apply Hp. destruct kind; [by rewrite Hu|by rewrite <- Hu].
  - by eapply Hk, process_undelegation_ok.
  - by eapply Hk, process_undelegation_ok.
  - by eapply Hk, add_reservations_ok.
  - by eapply Hk, cancel_reservations_ok.
  - by eapply Hk, slash_ok.
  - apply (dropped_sound _ _ (fun s' => exists B', books s' B' /\ sound_books B')). eapply keeps_sound; [exact Hs|]. by apply run_auction_ok.
  - destruct Hc as (H1 & H2 & H3). by eapply Hk, distribute_ok.
  - by eapply Hk, activate_bid_ok.
  - by eapply Hk, change_key_ok.
  - by eapply Hk, write_credit_ok.
Qed.

(** The states of the chain: entry points are called, by anyone, and take effect when they
    succeed; between the calls other code runs, which does not take money out of purses that
    something is owed from, and leaves the records of the auction alone. *)
Inductive reaches (s0 : S) : S -> Prop :=
| reaches_start : reaches s0 s0
| reaches_call s c s' : reaches s0 s -> (forall B, books s B -> admissible B c) -> auction_step c s = (Ok (), s') -> reaches s0 s'
| reaches_other s s' : reaches s0 s ->
    (forall B, books s B -> exists B', books s' B' /\ bk_bids B' = bk_bids B /\
      forall p, 0 <= bk_balance B' p /\ (owed (bk_bids B) p <> 0 -> bk_balance B p <= bk_balance B' p)) ->
    reaches s0 s'.

(** C3: the auction is always backed by money. After any sequence of successful calls of the
    entry points, with arguments that fit their types, from purses in which nothing is staked,
    every purse holds at least what the records of the auction owe from it: the stakes of the
    validators and delegators that are bonded in it, and all amounts that wait to be unbonded.
    Every record stays at its own address. *)
Theorem auction_backed s0 B0 s :
  books s0 B0 -> sound_books B0 -> reaches s0 s ->
  exists B, books s B /\ wf (bk_bids B) /\ forall p, owed (bk_bids B) p <= bk_balance B p.
Proof.
  intros HB0 H0 Hr. assert (exists B, books s B /\ sound_books B) as (B & HB & W & Hb).
  { induction Hr as [|s c s' Hr (B & HB & Hs) Hc E|s s' Hr (B & HB & Hs) Ho]; [by exists B0| |].
    - pose proof (auction_step_sound s B c HB Hs (Hc B HB)) as H. unfold ends, yields in H. by rewrite E in H.
    - destruct (Ho B HB) as (B' & HB' & Eb & Hp). destruct Hs as [W Hb]. exists B'. split; [done|]. split; [by rewrite Eb|].
      intros p. specialize (Hb p). destruct (Hp p) as [H1 H2]. unfold gap in *. rewrite Eb. destruct (decide (owed (bk_bids B) p = 0)); [lia|].
      specialize (H2 ltac:(done)). lia. }
  exists B. split_and!; [done|done|]. intros p. specialize (Hb p). unfold gap in Hb. lia.
Qed.
End entry_points.
