(* ===== verification/AuctionMemory.v ===== *)
(** * An auction in memory

    A provider for the auction whose state is a table of balances and a table of bids. It
    satisfies the laws of the providers, so that what is proved of the auction holds of it,
    and runs the entry points on concrete data. *)
From S2P Require Import Prelude Effects BTree Bytesrepr Struct Digest PublicKey Uint Units Access CLType Account Key KeyState Bids BidKinds Transform Balances Mint Auction AuctionRewards AuctionBooks AuctionSteps AuctionBacked.

Open Scope Z_scope.

Section memory.
Context {C : Curves} (blake2b : list u8 -> vec u8 32).

Record Memory : Type := mkMemory {
  mem_caller : AccountHash;
  mem_main : URef;
  mem_purses : gmap URefAddr Z;
  mem_bids : gmap BidAddr BidKind;
  mem_numbers : gmap URefAddr Z;
  mem_snapshot : Snapshot;
  mem_next : Z;
  mem_room : Z
}.
Definition with_purses (s : Memory) (p : gmap URefAddr Z) (room : Z) : Memory :=
  mkMemory (mem_caller s) (mem_main s) p (mem_bids s) (mem_numbers s) (mem_snapshot s) (mem_next s) room.
Definition with_records (s : Memory) (b : gmap BidAddr BidKind) : Memory :=
  mkMemory (mem_caller s) (mem_main s) (mem_purses s) b (mem_numbers s) (mem_snapshot s) (mem_next s) (mem_room s).
Definition with_numbers (s : Memory) (n : gmap URefAddr Z) : Memory :=
  mkMemory (mem_caller s) (mem_main s) (mem_purses s) (mem_bids s) n (mem_snapshot s) (mem_next s) (mem_room s).
Definition with_snapshot (s : Memory) (sn : Snapshot) : Memory :=
  mkMemory (mem_caller s) (mem_main s) (mem_purses s) (mem_bids s) (mem_numbers s) sn (mem_next s) (mem_room s).
Definition with_next (s : Memory) (n : Z) : Memory :=
  mkMemory (mem_caller s) (mem_main s) (mem_purses s) (mem_bids s) (mem_numbers s) (mem_snapshot s) n (mem_room s).
Definition sign_in (caller : AccountHash) (main : URef) (s : Memory) : Memory :=
  mkMemory caller main (mem_purses s) (mem_bids s) (mem_numbers s) (mem_snapshot s) (mem_next s) (mem_room s).

Definition mem_balance (s : Memory) (p : URefAddr) : Z := default 0 (mem_purses s !! p).
Definition purse_at (n : Z) : URef := mkURef (vreplicate 32 (u8_of_Z n)) READ_ADD_WRITE.
(** Named values, each under a [URef] of its own. *)
Definition mem_names : list (RString * Key) :=
  [(ERA_ID_KEY, Key_URef (purse_at 201)); (ERA_END_TIMESTAMP_MILLIS_KEY, Key_URef (purse_at 202));
   (SEIGNIORAGE_RECIPIENTS_SNAPSHOT_KEY, Key_URef (purse_at 203)); (VALIDATOR_SLOTS_KEY, Key_URef (purse_at 204));
   (AUCTION_DELAY_KEY, Key_URef (purse_at 205)); (UNBONDING_DELAY_KEY, Key_URef (purse_at 206))].
Definition mem_named (name : RString) : option Key := snd <$> find (fun p => bool_decide (p.1 = name)) mem_names.

Definition mem_keys (f : Key -> bool) (s : Memory) : list Key :=
  filter (fun k => f k = true) ((fun p => Key_BidAddr p.1) <$> map_to_list (mem_bids s)).
Definition has_prefix (p : list u8) (k : Key) : bool := match to_bytes k with Ok b => bool_decide (p `prefix_of` b) | _ => false end.
(** The number of keys with the prefix of a tag. *)
Definition count_tagged (tags : list u8) (a : BidAddr) : st Memory AuctionError Z := fun s =>
  (Ok (Z.of_nat (length (filter (fun x => bid_tag x ∈ tags /\ validator_account_hash x = validator_account_hash a) (map_to_list (mem_bids s)).*1))), s).
Definition mem_move (source target : URefAddr) (z : Z) (s : Memory) : option Memory :=
  let b := mem_balance s source in
  if b <? z then None else
  let p := <[source := b - z]> (mem_purses s) in
  Some (with_purses s (<[target := default 0 (p !! target) + z]> p) (mem_room s)).
Definition unbond_purse (k : UnbondKind) : URefAddr :=
  match k with UK_Validator k | UK_DelegatedPublicKey k => to_account_hash blake2b k | UK_DelegatedPurse a => a end.

#[local] Instance snapshot_ok_dec sn : Decision (snapshot_ok sn).
Proof. unfold snapshot_ok, recipient_ok. apply _. Defined.
Definition memory_provider : AuctionProvider Memory := {|
  auction_caller := mem_caller;
  is_allowed_session_caller s h := bool_decide (mem_caller s = system_account blake2b \/ mem_caller s = h);
  auction_valid_uref s u := bool_decide (addr (mem_main s) = addr u);
  named_keys_get _ := mem_named;
  get_keys t s := (Ok (mem_keys (fun k => bool_decide (key_tag k = t)) s), s);
  get_keys_by_prefix p s := (Ok (mem_keys (has_prefix p) s), s);
  delegator_count := count_tagged [Byte.x02; Byte.x03];
  reservation_count := count_tagged [Byte.x05; Byte.x06];
  used_reservation_count := count_tagged [];
  vesting_schedule_period_millis _ := 1000;
  allow_auction_bids _ := true;
  read_number n u s := (Ok (z ← mem_numbers s !! addr u; if decide (in_u (bits n) z) then Some z else None), s);
  write_number n u z s := (Ok (), with_numbers s (<[addr u := z]> (mem_numbers s)));
  read_snapshot u s := (Ok (if decide (snapshot_ok (mem_snapshot s)) then Some (mem_snapshot s) else None), s);
  write_snapshot u sn s := (Ok (), with_snapshot s sn);
  read_bid k s := match k with Key_BidAddr a => (Ok (mem_bids s !! a), s) | _ => (Err AE_Storage, s) end;
  write_bid k b s := match k with Key_BidAddr a => (Ok (), with_records s (<[a := b]> (mem_bids s))) | _ => (Err AE_Storage, s) end;
  read_unbond a s := match mem_bids s !! a with Some (BK_Unbond u) => (Ok (Some u), s) | Some _ => (Err AE_Storage, s) | None => (Ok None, s) end;
  write_unbond a o s := (Ok (), with_records s (match o with Some u => <[a := BK_Unbond u]> (mem_bids s) | None => delete a (mem_bids s) end));
  record_era_info _ s := (Ok (), s);
  prune_bid a s := with_records s (delete a (mem_bids s));
  unbond k e s := match mem_move (addr (ue_bonding_purse e)) (unbond_purse k) (ue_amount e) s with
                  | Some s' => (Ok (), s') | None => (Err AE_Transfer, s) end;
  mint_transfer_direct _ source target z _ s := match mem_move (addr source) (addr target) z s with
                  | Some s' => (Ok (Ok ()), s') | None => (Ok (Err InsufficientFunds), s) end;
  auction_mint_into z u s := (Ok (), with_purses s (<[addr u := mem_balance s (addr u) + z]> (mem_purses s)) (mem_room s - z));
  create_purse s := (Ok (purse_at (mem_next s)), with_next s (mem_next s + 1));
  auction_available_balance u s := (Ok (Some (mem_balance s (addr u))), s);
  auction_reduce_total_supply _ s := (Ok (), s);
  auction_main_purse s := Ok (mem_main s)
|}.
#[local] Existing Instance memory_provider.

Definition mem_books (s : Memory) (B : Books) : Prop :=
  (forall p, bk_balance B p = mem_balance s p) /\ bk_bids B = mem_bids s /\ bk_room B = mem_room s /\ bk_main B = Ok (mem_main s) /\
  map_Forall (fun a _ => bid_ok a) (mem_bids s).

Lemma mem_keys_ok f s : map_Forall (fun a _ => bid_ok a) (mem_bids s) -> NoDup (mem_keys f s) /\ Forall key_ok (mem_keys f s) /\ Forall (fun k => f k = true) (mem_keys f s).
Proof.
  intros Hok. unfold mem_keys. set (l := _ <$> map_to_list _). split_and!.
  - apply NoDup_filter. assert (l = Key_BidAddr <$> (map_to_list (mem_bids s)).*1) as -> by by rewrite <- list_fmap_compose.
    apply (NoDup_fmap_2_strong Key_BidAddr); [by intros ? ? _ _ [= ->]|apply NoDup_fst_map_to_list].
  - apply kept_ok, Forall_fmap, Forall_forall. intros [a k] Hin%elem_of_map_to_list. cbn. exact (Hok _ _ Hin).
  - apply Forall_forall. by intros k [Hk _]%list_elem_of_filter.
Qed.
Lemma mem_move_ok s B source target z s' : mem_books s B -> 0 <= z -> mem_move (addr source) (addr target) z s = Some s' ->
  exists B', mem_books s' B' /\ moved B source target z B'.
Proof.
  intros (Hb & Eb & Er & Em & Hok) Hz. unfold mem_move. destruct (Z.ltb_spec (mem_balance s (addr source)) z); [done|]. intros [= <-].
  set (p := <[addr target := _]> _). exists (mkBooks (fun a => default 0 (p !! a)) (bk_bids B) (bk_room B) (bk_main B)). split; [done|].
  split_and!; [done|done|done|by rewrite Hb|]. intros a. cbn. rewrite Hb. unfold p, amount_at, mem_balance.
  destruct (decide (addr target = a)) as [<-|Ht]; [rewrite lookup_insert_eq|rewrite lookup_insert_ne by done];
    (destruct (decide (addr source = _)) as [E|Hs]; [rewrite ?E, lookup_insert_eq|rewrite lookup_insert_ne by done]); cbn; rewrite ?E; lia.
Qed.
#[export] Instance memory_laws : AuctionLaws mem_books.
Proof.
  split; unfold reads, ends, yields; cbn [memory_provider auction_main_purse get_keys get_keys_by_prefix delegator_count reservation_count used_reservation_count
    read_number write_number read_snapshot write_snapshot read_bid write_bid read_unbond write_unbond record_era_info prune_bid unbond mint_transfer_direct
    auction_mint_into create_purse auction_available_balance auction_reduce_total_supply fst snd count_tagged].
  - by intros s B (_ & _ & _ & -> & _).
  - intros s B t HB. split; [done|]. pose proof HB as (_ & _ & _ & _ & Hok). destruct (mem_keys_ok (fun k => bool_decide (key_tag k = t)) s Hok) as (_ & H1 & H2).
    rewrite Forall_forall in *. intros k Hk. split; [by apply H1|]. exact (bool_decide_eq_true_1 _ (H2 k Hk)).
  - intros s B p HB. split; [done|]. pose proof HB as (_ & _ & _ & _ & Hok). destruct (mem_keys_ok (has_prefix p) s Hok) as (H0 & H1 & H2). split_and!; [done|done|].
    eapply Forall_impl; [exact H2|]. intros k Hk. unfold has_prefix in Hk. destruct (to_bytes k) as [b| | |] eqn:E; try done. exists b. split; [done|]. by apply bool_decide_eq_true_1 in Hk.
  - done.
  - done.
  - done.
  - intros s B n u HB. split; [done|]. intros z. destruct (mem_numbers s !! addr u) as [x|]; cbn; [|done]. case_decide; [|done]. by intros [= <-].
  - done.
  - intros s B u HB. split; [done|]. intros sn. case_decide; [|done]. by intros [= <-].
  - done.
  - intros s B k HB Hk. destruct k; try done. cbn. split; [done|]. pose proof HB as (_ & Eb & _). intros a [= <-]. by rewrite Eb.
  - intros s B a k (Hb & Eb & Er & Em & Hok) Ha. split_and!; [done|cbn; by rewrite Eb|done|done|]. cbn. by apply map_Forall_insert_2.
  - intros s B a HB Ha. pose proof HB as (_ & Eb & _). rewrite Eb. destruct (mem_bids s !! a) as [[]|]; done.
  - intros s B a o (Hb & Eb & Er & Em & Hok) Ha. destruct o as [u|]; (split_and!; [done|cbn; by rewrite Eb|done|done|]); cbn;
      [by apply map_Forall_insert_2|by apply map_Forall_delete].
  - done.
  - intros s B a (Hb & Eb & Er & Em & Hok) Ha. split_and!; [done|cbn; by rewrite Eb|done|done|]. cbn. by apply map_Forall_delete.
  - intros s B k e HB Hz. destruct (mem_move _ _ _ s) as [s'|] eqn:E; [|done]. cbn. exists (mkURef (unbond_purse k) NONE).
    by apply (mem_move_ok s B (ue_bonding_purse e) (mkURef (unbond_purse k) NONE) (ue_amount e)).
  - intros s B to source target z id HB Hz. destruct (mem_move _ _ _ s) as [s'|] eqn:E; [|done]. cbn. intros _. by apply (mem_move_ok s B source target z).
  - intros s B z u (Hb & Eb & Er & Em & Hok) Hz. cbn.
    exists (mkBooks (fun a => default 0 (<[addr u := mem_balance s (addr u) + z]> (mem_purses s) !! a)) (bk_bids B) (bk_room B - z) (bk_main B)).
    split; [by split_and!; [|done|cbn; rewrite Er|..]|]. split_and!; [done|done|done|]. intros p. cbn. rewrite Hb. unfold amount_at, mem_balance.
    case_decide as Hp; [rewrite Hp, lookup_insert_eq|rewrite lookup_insert_ne by done]; cbn; lia.
  - done.
  - done.
  - done.
Qed.
End memory.

(** A validator bids, somebody else delegates to it and takes half of it back. *)
Definition last_byte_hash (l : list u8) : vec u8 32 := vreplicate 32 (default Byte.x00 (last l)).
Definition start : Memory (C := raw_curves) :=
  mkMemory (to_account_hash last_byte_hash (example_key 1)) (purse_at 11)
    {[ addr (purse_at 11) := 1000; addr (purse_at 12) := 500 ]} ∅ {[ addr (purse_at 201) := 5; addr (purse_at 202) := 0; addr (purse_at 206) := 7 ]} [] 101 10000.
Definition example_calls : list (AccountHash * URef * AuctionCall (C := raw_curves)) :=
  [(to_account_hash last_byte_hash (example_key 1), purse_at 11, AC_add_bid (mkBidLimits 100 10 10 1000 0) (example_key 1) 10 300 None None 0);
   (to_account_hash last_byte_hash (example_key 2), purse_at 12, AC_delegate (DK_PublicKey (example_key 2)) (example_key 1) 200 10);
   (to_account_hash last_byte_hash (example_key 2), purse_at 12, AC_undelegate (DK_PublicKey (example_key 2)) (example_key 1) 100)].
Definition example_step (s : Memory (C := raw_curves)) (c : AccountHash * URef * AuctionCall (C := raw_curves)) : result ApiError () * Memory :=
  auction_step (R := plain_arith) (P := memory_provider last_byte_hash) last_byte_hash c.2 (sign_in c.1.1 c.1.2 s).
Definition after_calls := foldl (fun s c => (example_step s c).2) start.
Definition books_of {C : Curves} (s : Memory) : Books := mkBooks (mem_balance s) (mem_bids s) (mem_room s) (Ok (mem_main s)).
#[local] Existing Instance plain_arith.
#[local] Existing Instance memory_provider.
Lemma call_after {C : Curves} blake2b (s0 s s' : Memory) caller main c :
  reaches blake2b (P := memory_provider blake2b) mem_books s0 s -> map_Forall (fun _ z => 0 <= z) (mem_purses s) -> admissible (books_of (sign_in caller main s)) c ->
  auction_step blake2b (P := memory_provider blake2b) c (sign_in caller main s) = (Ok (), s') -> reaches blake2b (P := memory_provider blake2b) mem_books s0 s'.
Proof.
  intros Hr Hn Hc E. apply (reaches_call _ _ _ (sign_in caller main s) c); [|intros [bal bids room m] (_ & Eb & Er & Em & _); cbn in *; by subst|done].
  eapply reaches_other; [exact Hr|]. intros B (Hb & Eb & Er & Em & Hok). exists (mkBooks (bk_balance B) (bk_bids B) (bk_room B) (Ok main)). split; [done|]. split; [done|].
  intros p. cbn. split; [|done]. rewrite Hb. unfold mem_balance. destruct (mem_purses s !! p) eqn:El; cbn; [exact (Hn _ _ El)|lia].
Qed.
Lemma example_step_reaches s c :
  reaches last_byte_hash (P := memory_provider last_byte_hash) mem_books start s -> map_Forall (fun _ z => 0 <= z) (mem_purses s) ->
  admissible (books_of (sign_in c.1.1 c.1.2 s)) c.2 -> (example_step s c).1 = Ok () ->
  reaches last_byte_hash (P := memory_provider last_byte_hash) mem_books start (example_step s c).2.
Proof. intros Hr Hn Hc E. eapply call_after; [exact Hr|exact Hn|exact Hc|]. rewrite <- E. apply surjective_pairing. Qed.
Lemma example_reaches : reaches last_byte_hash (P := memory_provider last_byte_hash) mem_books start (after_calls example_calls).
Proof.
  unfold after_calls, example_calls. cbn [foldl].
  do 3 (apply example_step_reaches; [|by apply (bool_decide_eq_true_1 _); vm_compute|split; [by intros a [= <-]; vm_compute|done]|vm_compute; reflexivity]).
  apply reaches_start.
Qed.
Lemma start_books : mem_books start (books_of start).
Proof. split_and!; [done..|apply map_Forall_empty]. Qed.
Lemma start_sound : sound_books last_byte_hash (books_of start).
Proof.
  split; [apply map_Forall_empty|]. intros p. unfold gap, owed. cbn. rewrite map_to_list_empty. cbn.
  assert (map_Forall (fun _ z => 0 <= z) (mem_purses start)) as H by (by apply (bool_decide_eq_true_1 _); vm_compute).
  unfold mem_balance. destruct (mem_purses start !! p) eqn:E; cbn; [specialize (H _ _ E); cbn in H|]; lia.
Qed.
Lemma auction_backed_witness : exists B, mem_books (after_calls example_calls) B /\
  owed (bk_bids B) (addr (purse_at 101)) = 300 /\ owed (bk_bids B) (addr (purse_at 102)) = 200 /\
  forall p, owed (bk_bids B) p <= bk_balance B p.
Proof.
  destruct (auction_backed last_byte_hash (P := memory_provider last_byte_hash) mem_books start (books_of start) (after_calls example_calls)) as (B & HB & _ & Ho);
    [apply start_books|apply start_sound|apply example_reaches|].
  exists B. pose proof HB as (_ & Eb & _). split_and!; [exact HB|rewrite Eb; vm_compute; reflexivity..|exact Ho].
Defined.
