(* ===== verification/Validators.v ===== *)
(** * Validator sets, weights and the leader sequence

    [node/src/components/consensus/utils/validators.rs], [utils/weight.rs],
    [protocols/common.rs] and [leader_sequence.rs]: the validators of an era in the
    order of their identifiers, their voting weights scaled down from the stakes to
    64 bits, the fault tolerance threshold and the pseudorandom leader of each slot. *)
From S2P Require Import Prelude BTree.

Open Scope Z_scope.

(** [as u32] and [as u64]: the low bits. *)
Definition as_u32 (z : Z) : Z := z mod 2 ^ 32.
Definition as_u64 (z : Z) : Z := z mod 2 ^ 64.
Lemma as_u32_small z : in_u 32 z -> as_u32 z = z.
Proof. intros []. unfold as_u32. by rewrite Z.mod_small. Qed.
Lemma as_u64_small z : in_u 64 z -> as_u64 z = z.
Proof. intros []. unfold as_u64. by rewrite Z.mod_small. Qed.

(** Indexing a vector with a [u32] and [enumerate], whose index is cast to [u32]. *)
Definition vec_get {A} (l : list A) (i : Z) : option A := l !! Z.to_nat i.
Definition vec_set {A} (i : Z) (a : A) (l : list A) : list A := <[Z.to_nat i := a]> l.
Definition enumerate {A} (l : list A) : list (Z * A) := imap (fun i a => (as_u32 (Z.of_nat i), a)) l.

(** ** Validators *)

Record Validator (VID : Type) : Type := mkValidator {
  weight : Z;
  id : VID;
  banned : bool;
  can_propose : bool
}.
Arguments mkValidator {VID}.
Arguments weight {VID}.
Arguments id {VID}.
Arguments banned {VID}.
Arguments can_propose {VID}.

Definition validator_from {VID} (p : VID * Z) : Validator VID := mkValidator p.2 p.1 false true.

Record Validators (VID : Type) `{Countable VID} : Type := mkValidators {
  index_by_id : gmap VID Z;
  validators : list (Validator VID);
  total_weight : Z
}.
Arguments mkValidators {VID _ _}.
Arguments index_by_id {VID _ _}.
Arguments validators {VID _ _}.
Arguments total_weight {VID _ _}.

Section validators.
Context {VID : Type} `{Countable VID} `{!TotalOrd VID}.
Implicit Types (vs : Validators VID) (v : Validator VID).

Definition len vs : Z := Z.of_nat (length (validators vs)).
(** [weight] indexes the vector; [None] is the panic. *)
Definition weight_of vs (i : Z) : option Z := weight <$> vec_get (validators vs) i.
Definition id_of vs (i : Z) : option VID := id <$> vec_get (validators vs) i.
Definition get_index vs (vid : VID) : option Z := index_by_id vs !! vid.
Definition with_validators vs l : Validators VID := mkValidators (index_by_id vs) l (total_weight vs).

Definition ban_validator v := mkValidator (weight v) (id v) true false.
Definition exclude_validator v := mkValidator (weight v) (id v) (banned v) false.
(** The two indexings of [ban] and [set_cannot_propose] panic out of range. *)
Definition update_at (f : Validator VID -> Validator VID) vs (vid : VID) : result () (Validators VID) :=
  match get_index vs vid with
  | None => Ok vs
  | Some i =>
      v ← expect (vec_get (validators vs) i);
      Ok (with_validators vs (vec_set i (f v) (validators vs)))
  end.
Definition ban vs vid := update_at ban_validator vs vid.
Definition set_cannot_propose vs vid := update_at exclude_validator vs vid.

Definition iter_banned_idx vs : list Z := (filter (fun p => banned p.2 = true) (enumerate (validators vs))).*1.
Definition iter_cannot_propose_idx vs : list Z := (filter (fun p => can_propose p.2 = false) (enumerate (validators vs))).*1.
Definition enumerate_ids vs : list (Z * VID) := (fun p => (p.1, id p.2)) <$> enumerate (validators vs).

Definition admit_all v := mkValidator (weight v) (id v) false true.
Definition admit_unbanned v := if banned v then v else mkValidator (weight v) (id v) (banned v) true.
Definition ensure_nonzero_proposing_stake vs : bool * Validators VID :=
  if total_weight vs =? 0 then (false, vs)
  else if forallb (fun v => banned v || (weight v =? 0)) (validators vs) then
    (true, with_validators vs (admit_all <$> validators vs))
  else if forallb (fun v => negb (can_propose v) || (weight v =? 0)) (validators vs) then
    (true, with_validators vs (admit_unbanned <$> validators vs))
  else (true, vs).

(** [sort_by_cached_key]: a stable sort by the identifier. *)
Fixpoint insert_by_id v (l : list (Validator VID)) : list (Validator VID) :=
  match l with
  | [] => [v]
  | w :: l' => if ord_ltb (id w) (id v) then w :: insert_by_id v l' else v :: l
  end.
Definition sort_by_id (l : list (Validator VID)) : list (Validator VID) := foldr insert_by_id [] l.

Definition validators_from_iter (ii : list (VID * Z)) : result () (Validators VID) :=
  let l := validator_from <$> ii in
  total ← expect (foldl (fun sum v => sum ← sum; checked_add 64 sum (weight v)) (Some 0) l);
  let l := sort_by_id l in
  Ok (mkValidators (foldl (fun m p => <[id p.2 := p.1]> m) ∅ (enumerate l)) l total).

(** ** The validator set of an era and its fault tolerance threshold *)

Definition safe_sum (l : list Z) : option Z := foldl (fun acc n => acc ← acc; checked_add 512 acc n) (Some 0) l.

(** [stakes] is a [BTreeMap]; [faulty] and [inactive] are hash sets, visited in any order. *)
Definition scaling_factor (sum_stakes : Z) : Z := sum_stakes / u_max 64 + 1.
Definition era_validators (faulty inactive : list VID) (stakes : list (VID * Z)) : result () (Validators VID) :=
  sum_stakes ← expect (safe_sum stakes.*2);
  let scaling := scaling_factor sum_stakes in
  vs ← validators_from_iter ((fun p => (p.1, as_u64 (p.2 / scaling))) <$> stakes);
  vs ← foldl (fun (acc : result () (Validators VID)) vid => vs ← acc; ban vs vid) (Ok vs) faulty;
  vs ← foldl (fun (acc : result () (Validators VID)) vid => vs ← acc; set_cannot_propose vs vid) (Ok vs) inactive;
  let '(ok, vs) := ensure_nonzero_proposing_stake vs in
  _ ← assert_that ok;
  Ok vs.

Definition validator_weights vs : list Z := weight <$> validators vs.

(** The threshold fraction is a [Ratio<u64>], given by its numerator and denominator. *)
Definition ftt (fraction : Z * Z) vs : result () Z :=
  _ ← assert_that (fraction.1 <? fraction.2);
  Ok (as_u64 (total_weight vs * fraction.1 / fraction.2)).
End validators.

(** ** The leader sequence *)

Record LeaderSequence : Type := mkLeaderSequence {
  cumulative_w : list Z;
  cumulative_w_leaders : list Z;
  leaders : list bool;
  seed : Z
}.

(** The closure [sums]. *)
Definition push_sum (sums : result () (list Z)) (w : Z) : result () (list Z) :=
  sums ← sums;
  sum ← expect (checked_add 64 (default 0 (last sums)) w);
  Ok (sums ++ [sum]).

Definition leader_sequence_new (seed : Z) (weights : list Z) (leaders : list bool) : result () LeaderSequence :=
  cumulative ← foldl push_sum (Ok []) weights;
  top ← expect (last cumulative);
  _ ← assert_that (0 <? top);
  flags ← foldr (fun p acc => flag ← expect (vec_get leaders p.1); acc ← acc; Ok ((if flag : bool then p.2 else 0) :: acc))
    (Ok []) (enumerate weights);
  cumulative_leaders ← foldl push_sum (Ok []) flags;
  Ok (mkLeaderSequence cumulative cumulative_leaders leaders seed).

(** [slice::binary_search]: a match anywhere, or the place where the element belongs. *)
Inductive Search : Type := Found (i : nat) | Missing (i : nat).

Section leader.
(** The standard library's search and the generator [ChaCha8Rng], of which the first
    number below [upper] is drawn for a seed. *)
Variable binary_search : list Z -> Z -> Search.
Variable gen_range : Z -> Z -> Z.

(** [(0..i).rev().take_while(|j| self.0[*j] == *x).last()]. *)
Fixpoint first_equal (l : list Z) (x : Z) (i : nat) : nat :=
  match i with
  | O => O
  | S j => if decide (l !! j = Some x) then first_equal l x j else i
  end.
Definition map_binary_search (l : list Z) (x : Z) : option Z :=
  match binary_search l x with
  | Found i => Some (as_u32 (Z.of_nat (first_equal l x i)))
  | Missing i => if decide (i < length l)%nat then Some (as_u32 (Z.of_nat i)) else None
  end.

(** [gen_range] panics on an empty range. *)
Definition leader_prng (upper seed : Z) : result () Z :=
  if upper =? 0 then Panic else Ok (saturating_add 64 (gen_range upper seed) 1).

Definition leader (ls : LeaderSequence) (slot : Z) : result () Z :=
  let seed := as_u64 (seed ls + slot) in
  top ← expect (last (cumulative_w ls));
  r ← leader_prng top seed;
  let leader_index := default 0 (map_binary_search (cumulative_w ls) r) in
  flag ← expect (vec_get (leaders ls) leader_index);
  if flag : bool then Ok leader_index else
  top ← expect (last (cumulative_w_leaders ls));
  r ← leader_prng top (as_u64 (seed + 1));
  Ok (default 0 (map_binary_search (cumulative_w_leaders ls) r)).
End leader.

(** ** Well-formed validator sets *)

Record validators_ok {VID} `{Countable VID} (vs : Validators VID) : Prop := {
  vo_len : len vs < 2 ^ 32;
  vo_weights : Forall (Z.le 0) (validator_weights vs);
  vo_total : total_weight vs = zsum (validator_weights vs);
  vo_bound : total_weight vs < 2 ^ 64;
  vo_nodup : NoDup (id <$> validators vs);
  vo_index : forall vid i, get_index vs vid = Some i <-> 0 <= i /\ id_of vs i = Some vid
}.

Lemma enumerate_lookup {A} (l : list A) i :
  Z.of_nat (length l) < 2 ^ 32 -> enumerate l !! i = (fun a => (Z.of_nat i, a)) <$> l !! i.
Proof.
  intros Hl. unfold enumerate. rewrite list_lookup_imap. destruct (l !! i) eqn:E; cbn; [|done].
  apply lookup_lt_Some in E. rewrite as_u32_small; [done|]. unfold in_u. lia.
Qed.
Lemma elem_of_enumerate {A} (l : list A) p :
  Z.of_nat (length l) < 2 ^ 32 -> p ∈ enumerate l <-> 0 <= p.1 /\ vec_get l p.1 = Some p.2.
Proof.
  intros Hl. rewrite list_elem_of_lookup. unfold vec_get. destruct p as [i a]. cbn. split.
  - intros (j & Hj). rewrite enumerate_lookup in Hj by done. destruct (l !! j) eqn:E; cbn in Hj; simplify_eq.
    split; [lia|]. by rewrite Nat2Z.id.
  - intros [Hi Ha]. exists (Z.to_nat i). rewrite enumerate_lookup, Ha by done. cbn. do 2 f_equal. lia.
Qed.
Lemma enumerate_values {A} (l : list A) : (enumerate l).*2 = l.
Proof. unfold enumerate. generalize 0%nat. intros _. rewrite fmap_imap. apply list_eq. intros i. rewrite list_lookup_imap. by destruct (l !! i). Qed.

Lemma vec_get_insert {A} (l : list A) i j a :
  0 <= i -> 0 <= j -> vec_get l i <> None -> vec_get (vec_set i a l) j = if decide (i = j) then Some a else vec_get l j.
Proof.
  intros Hi Hj Hl. unfold vec_get, vec_set in *. case_decide as E.
  - subst j. apply list_lookup_insert_eq. destruct (l !! Z.to_nat i) eqn:E; [|done]. by eapply lookup_lt_Some.
  - apply list_lookup_insert_ne. lia.
Qed.
Lemma vec_set_length {A} i (a : A) l : length (vec_set i a l) = length l.
Proof. apply length_insert. Qed.
Lemma vec_get_range {A} (l : list A) i a : 0 <= i -> vec_get l i = Some a -> 0 <= i < Z.of_nat (length l).
Proof. unfold vec_get. intros ? ?%lookup_lt_Some. lia. Qed.
Lemma vec_get_is_Some {A} (l : list A) i : 0 <= i < Z.of_nat (length l) -> is_Some (vec_get l i).
Proof. intros. unfold vec_get. apply lookup_lt_is_Some_2. lia. Qed.

Lemma forallb_false_exists {A} (f : A -> bool) l : forallb f l = false -> exists x, x ∈ l /\ f x = false.
Proof.
  induction l as [|a l IH]; cbn; [done|]. intros [Ha|Hl]%andb_false_iff.
  - exists a. split; [left|done].
  - destruct (IH Hl) as (x & ? & ?). exists x. split; [by right|done].
Qed.

Section facts.
Context {VID : Type} `{Countable VID} `{!TotalOrd VID} `{!TotalOrdLaws VID}.
Implicit Types (vs : Validators VID) (v : Validator VID) (l : list (Validator VID)).

(** *** Building the set *)

Lemma index_fold l (m : gmap VID Z) :
  NoDup (id <$> l) -> forall vid, foldl (fun m p => <[id p.2 := p.1]> m) m (enumerate l) !! vid =
    match list_find (fun v => id v = vid) l with Some (i, _) => Some (as_u32 (Z.of_nat i)) | None => m !! vid end.
Proof.
  unfold enumerate. intros Hn vid.
  assert (forall k, foldl (fun m p => <[id p.2 := p.1]> m) m (imap (fun i a => (as_u32 (Z.of_nat (k + i)), a)) l) !! vid =
    match list_find (fun v => id v = vid) l with Some (i, _) => Some (as_u32 (Z.of_nat (k + i))) | None => m !! vid end) as Hk; [|exact (Hk O)].
  revert m Hn. induction l as [|v l IH]; intros m Hn k; [done|]. cbn in Hn. apply NoDup_cons in Hn as [Hv Hn]. cbn [imap foldl list_find].
  rewrite (imap_ext _ (fun i a => (as_u32 (Z.of_nat (S k + i)), a))) by (intros i a _; unfold compose; by rewrite Nat.add_succ_r).
  rewrite IH by done. case_decide as E.
  - subst vid. cbn. replace (list_find (fun w => id w = id v) l) with (@None (nat * Validator VID)).
    + rewrite lookup_insert_eq. by rewrite Nat.add_0_r.
    + symmetry. apply list_find_None, Forall_forall. intros w Hw Hid. apply Hv. rewrite <- Hid. by apply list_elem_of_fmap_2.
  - rewrite lookup_insert_ne by done. destruct (list_find _ l) as [[i w]|]; cbn [fmap option_fmap option_map prod_map fst]; [|done]. by rewrite Nat.add_succ_r.
Qed.

Lemma index_fold_spec l vid i :
  Z.of_nat (length l) < 2 ^ 32 -> NoDup (id <$> l) ->
  foldl (fun m p => <[id p.2 := p.1]> m) (∅ : gmap VID Z) (enumerate l) !! vid = Some i <->
  0 <= i /\ id <$> vec_get l i = Some vid.
Proof.
  intros Hl Hn. rewrite index_fold by done. unfold vec_get. rewrite fmap_Some. split.
  - destruct (list_find _ l) as [[j w]|] eqn:E; [|done]. intros [= <-].
    apply list_find_Some in E as (Hj & Hid & _). pose proof (lookup_lt_Some _ _ _ Hj).
    rewrite as_u32_small by (unfold in_u; lia). split; [lia|]. exists w. by rewrite Nat2Z.id.
  - intros (Hi & w & Hw & ->). destruct (list_find (fun v => id v = id w) l) as [[j u]|] eqn:E.
    + apply list_find_Some in E as (Hj & Hid & _). pose proof (lookup_lt_Some _ _ _ Hj).
      assert (j = Z.to_nat i) as ->.
      { eapply (NoDup_lookup _ _ _ (id w) Hn); rewrite list_lookup_fmap; [by rewrite Hj; cbn; rewrite Hid|by rewrite Hw]. }
      rewrite as_u32_small by (unfold in_u; lia). f_equal. lia.
    + apply list_find_None, (Forall_lookup_1 _ _ _ _ ) with (2 := Hw) in E. done.
Qed.

Lemma sort_by_id_sorted l :
  StronglySorted (fun v w => ord_ltb (id v) (id w) = true) l -> sort_by_id l = l.
Proof.
  induction 1 as [|v l Hl IH Hv]; [done|]. unfold sort_by_id in *. cbn. rewrite IH.
  destruct Hv as [|w l Hw _]; [done|]. cbn. by rewrite (ord_asym _ _ Hw).
Qed.

Lemma validators_from_iter_ok (ii : list (VID * Z)) :
  btree_sorted ii -> Forall (in_u 64) ii.*2 -> Z.of_nat (length ii) < 2 ^ 32 -> zsum ii.*2 < 2 ^ 64 ->
  exists vs, validators_from_iter ii = Ok vs /\ validators vs = validator_from <$> ii /\
    validators_ok vs /\ total_weight vs = zsum ii.*2.
Proof.
  intros Hs Hw Hl Hsum. unfold validators_from_iter.
  assert (forall (o : option Z) k, foldl (fun sum v => sum ← sum; checked_add 64 sum (weight v)) o (validator_from <$> k : list (Validator VID)) =
    foldl (fun total x => total ← total; checked_add 64 total x) o k.*2) as ->.
  { intros o k. revert o. induction k as [|p k IH]; intros o; cbn; [done|]. by rewrite IH. }
  assert (0 <= zsum ii.*2) by (apply zsum_nonneg; eapply Forall_impl; [exact Hw|]; by intros ? []).
  rewrite checked_sum_from by (done || unfold in_u; lia). unfold checked. rewrite decide_True by (unfold in_u; lia). cbn [expect mbind result_bind].
  rewrite sort_by_id_sorted.
  2: { clear -Hs. unfold btree_sorted, key_lt in Hs. induction Hs as [|p k Hk IH Hp]; cbn; constructor; [done|]. apply Forall_fmap. exact Hp. }
  eexists. split; [reflexivity|]. cbn. split; [done|]. split; [|lia].
  assert (id <$> (validator_from <$> ii : list (Validator VID)) = ii.*1) as Hids by (rewrite <- list_fmap_compose; done).
  assert (weight <$> (validator_from <$> ii : list (Validator VID)) = ii.*2) as Hws by (rewrite <- list_fmap_compose; done).
  assert (NoDup ii.*1) by (by apply btree_keys_nodup).
  split; unfold len, validator_weights, get_index, id_of; cbn [index_by_id validators total_weight].
  - by rewrite length_fmap.
  - rewrite Hws. eapply Forall_impl; [exact Hw|]. by intros ? [].
  - rewrite Hws. lia.
  - lia.
  - by rewrite Hids.
  - intros vid i. apply index_fold_spec; [by rewrite length_fmap|by rewrite Hids].
Qed.

(** *** The flags *)

Lemma with_validators_ok vs (f : Validator VID -> Validator VID) :
  (forall v, id (f v) = id v) -> (forall v, weight (f v) = weight v) ->
  validators_ok vs -> validators_ok (with_validators vs (f <$> validators vs)).
Proof.
  intros Hid Hw [Hl Hws Ht Hb Hn Hi].
  assert (id <$> (f <$> validators vs) = id <$> validators vs) as Eid.
  { rewrite <- list_fmap_compose. apply list_fmap_ext. intros j v _. apply Hid. }
  assert (weight <$> (f <$> validators vs) = weight <$> validators vs) as Ew.
  { rewrite <- list_fmap_compose. apply list_fmap_ext. intros j v _. apply Hw. }
  split; unfold len, validator_weights, get_index, id_of, with_validators in *; cbn [index_by_id validators total_weight].
  - by rewrite length_fmap.
  - by rewrite Ew.
  - by rewrite Ew.
  - done.
  - by rewrite Eid.
  - intros vid i. rewrite Hi. unfold vec_get. by rewrite <- !list_lookup_fmap, Eid.
Qed.

Lemma update_at_spec (f : Validator VID -> Validator VID) vs vid :
  validators_ok vs ->
  update_at f vs vid = Ok (with_validators vs ((fun v => if decide (id v = vid) then f v else v) <$> validators vs)).
Proof.
  intros Hok. unfold update_at. destruct (get_index vs vid) as [i|] eqn:E.
  - apply (vo_index _ Hok) in E as [Hi Hid]. unfold id_of in Hid. apply fmap_Some in Hid as (v & Hv & ->).
    rewrite Hv. cbn. do 2 f_equal. apply list_eq. intros j. unfold vec_set, vec_get in *. rewrite list_lookup_fmap.
    destruct (decide (j = Z.to_nat i)) as [->|Hj].
    + rewrite list_lookup_insert_eq by (by eapply lookup_lt_Some). rewrite Hv. cbn. by rewrite decide_True.
    + rewrite list_lookup_insert_ne by done. destruct (validators vs !! j) as [w|] eqn:Ew; [|done]. cbn.
      rewrite decide_False; [done|]. intros Hw. apply Hj.
      eapply (NoDup_lookup _ _ _ (id v) (vo_nodup _ Hok)); rewrite list_lookup_fmap; [by rewrite Ew; cbn; rewrite Hw|by rewrite Hv].
  - f_equal. destruct vs as [m l t]. unfold with_validators. cbn. f_equal. symmetry. rewrite <- (list_fmap_id l) at 2.
    apply list_fmap_ext. intros j v Hv. rewrite decide_False; [done|]. intros <-.
    enough (get_index (mkValidators m l t) (id v) = Some (Z.of_nat j)) by congruence.
    apply (vo_index _ Hok). split; [lia|]. unfold id_of, vec_get. cbn. by rewrite Nat2Z.id, Hv.
Qed.

Lemma update_fold_spec (f : Validator VID -> Validator VID) vids vs :
  (forall v, id (f v) = id v) -> (forall v, weight (f v) = weight v) -> (forall v, f (f v) = f v) ->
  validators_ok vs ->
  foldl (fun acc vid => vs ← acc; update_at f vs vid) (Ok vs) vids =
  Ok (with_validators vs ((fun v => if decide (id v ∈ vids) then f v else v) <$> validators vs)).
Proof.
  intros Hid Hw Hf. revert vs. induction vids as [|vid vids IH]; intros vs Hok.
  - cbn. f_equal. destruct vs as [m l t]. unfold with_validators. cbn. f_equal. symmetry.
    rewrite <- (list_fmap_id l) at 2. apply list_fmap_ext. intros j v _. rewrite decide_False; [done|apply not_elem_of_nil].
  - cbn [foldl mbind result_bind]. rewrite update_at_spec by done. rewrite IH.
    2: { apply with_validators_ok; [| |done]; intros v; by case_decide. }
    f_equal. unfold with_validators. cbn. f_equal. rewrite <- list_fmap_compose. apply list_fmap_ext. intros j v _. cbn.
    destruct (decide (id v = vid)) as [<-|Hne].
    + rewrite Hid. case_decide; [rewrite decide_True by (by left)|rewrite decide_True by (by left)]; by rewrite ?Hf.
    + case_decide; [rewrite decide_True by (by right)|rewrite decide_False by (by rewrite elem_of_cons; intros [])]; done.
Qed.

(** *** The validators of an era *)

Definition scale (k : Z) (l : list Z) : list Z := (fun x => x / k) <$> l.

Lemma scaled_sum (l : list Z) (k : Z) :
  0 < k -> Forall (Z.le 0) l -> zsum (scale k l) * k <= zsum l /\ zsum l <= zsum (scale k l) * k + Z.of_nat (length l) * (k - 1).
Proof.
  intros Hk. induction 1 as [|x l Hx Hl IH]; [cbn; lia|]. cbn [scale fmap list_fmap zsum foldr length] in *. fold (zsum l). fold (scale k l) in *. fold (zsum (scale k l)).
  pose proof (Z.div_mod x k ltac:(lia)). pose proof (Z.mod_pos_bound x k Hk). nia.
Qed.

Lemma scaled_total (l : list Z) :
  Forall (in_u 512) l -> Z.of_nat (length l) < 2 ^ 32 -> 0 < zsum l ->
  0 < zsum (scale (scaling_factor (zsum l)) l) < u_max 64 /\ 0 < scaling_factor (zsum l).
Proof.
  intros Hl Hn Hs. unfold scaling_factor. set (k := zsum l / u_max 64 + 1).
  assert (Forall (Z.le 0) l) as Hnn by (eapply Forall_impl; [exact Hl|]; by intros ? []).
  pose proof (Z.div_mod (zsum l) (u_max 64) ltac:(done)) as Hd. pose proof (Z.mod_pos_bound (zsum l) (u_max 64) ltac:(done)) as Hm.
  pose proof (Z.div_pos (zsum l) (u_max 64) ltac:(lia) ltac:(done)) as Hq.
  assert (0 < k) as Hk by (subst k; lia).
  destruct (scaled_sum l k Hk Hnn) as [Hlo Hhi]. set (t := zsum (scale k l)) in *.
  assert (0 <= t).
  { apply zsum_nonneg, Forall_fmap. eapply Forall_impl; [exact Hnn|]. intros x Hx. cbn. by apply Z.div_pos. }
  unfold u_max in *. split; [|done]. split.
  - destruct (decide (k = 1)) as [Ek|Ek]; [nia|]. assert (2 <= k) by lia.
    assert (zsum l >= (k - 1) * (2 ^ 64 - 1)) by (subst k; nia). nia.
  - assert (zsum l < k * (2 ^ 64 - 1)) by (subst k; nia). nia.
Qed.

Lemma scale_nonneg k (l : list Z) : 0 < k -> Forall (in_u 512) l -> Forall (Z.le 0) (scale k l).
Proof. intros Hk Hl. apply Forall_fmap. eapply Forall_impl; [exact Hl|]. intros x [Hx _]. cbn. by apply Z.div_pos. Qed.

(** The scaled stakes fit in 64 bits; their sum is positive when the sum of the stakes is. *)
Lemma scaled_stakes (l : list Z) :
  Forall (in_u 512) l -> Z.of_nat (length l) < 2 ^ 32 ->
  let k := scaling_factor (zsum l) in
  Forall (in_u 64) (scale k l) /\ zsum (scale k l) < u_max 64 /\ (0 < zsum l <-> 0 < zsum (scale k l)).
Proof.
  intros Hl Hn k. assert (Forall (Z.le 0) l) as Hnn by (eapply Forall_impl; [exact Hl|]; by intros ? []).
  pose proof (zsum_nonneg l Hnn). assert (0 < k) as Hk.
  { unfold k, scaling_factor. pose proof (Z.div_pos (zsum l) (u_max 64) ltac:(done) ltac:(done)). lia. }
  pose proof (scale_nonneg k l Hk Hl) as Hsn.
  assert (zsum (scale k l) < u_max 64 /\ (0 < zsum l <-> 0 < zsum (scale k l))) as [Hb Hpos].
  { destruct (decide (0 < zsum l)) as [Hpos|Hpos].
    - destruct (scaled_total l Hl Hn Hpos) as [[Hlo Hhi] _]. by fold k in Hlo, Hhi.
    - destruct (scaled_sum l k Hk Hnn) as [Hlo _]. pose proof (zsum_nonneg _ Hsn).
      assert (zsum (scale k l) = 0) as -> by nia. split; [done|lia]. }
  split; [|done]. apply Forall_forall. intros x Hx. pose proof (zsum_elem_le _ _ Hsn Hx).
  rewrite Forall_forall in Hsn. specialize (Hsn _ Hx). cbn in Hsn. unfold in_u, u_max in *. lia.
Qed.

(** Some validator of positive weight that is not banned may propose. *)
Definition proposer_exists vs : Prop :=
  exists v, v ∈ validators vs /\ 0 < weight v /\ can_propose v = true /\ banned v = false.

Lemma positive_weight vs : validators_ok vs -> 0 < total_weight vs -> exists v, v ∈ validators vs /\ 0 < weight v.
Proof.
  intros [_ Hw -> _ _ _]. unfold validator_weights in *. induction (validators vs) as [|v l IH]; cbn; [lia|].
  cbn in Hw. apply Forall_cons_1 in Hw as [Hv Hl]. intros Hs. destruct (decide (0 < weight v)).
  - exists v. split; [left|done].
  - destruct IH as (w & ? & ?); [done|unfold zsum in *; cbn in *; lia|]. exists w. split; [by right|done].
Qed.

Lemma ensure_spec vs :
  validators_ok vs -> (forall v, v ∈ validators vs -> banned v = true -> can_propose v = false) ->
  if total_weight vs =? 0 then ensure_nonzero_proposing_stake vs = (false, vs) else
  exists f, ensure_nonzero_proposing_stake vs = (true, with_validators vs (f <$> validators vs)) /\
    (forall v, id (f v) = id v) /\ (forall v, weight (f v) = weight v) /\
    proposer_exists (with_validators vs (f <$> validators vs)) /\
    (forall v, v ∈ validators vs -> banned (f v) = true -> can_propose (f v) = false) /\
    ((forall v, banned (f v) = banned v) \/
     (forall v, banned (f v) = false) /\ (forall v, v ∈ validators vs -> 0 < weight v -> banned v = true)) /\
    (forall v0, v0 ∈ validators vs -> 0 < weight v0 -> can_propose v0 = true -> forall v, can_propose (f v) = can_propose v).
Proof.
  intros Hok Hban. unfold ensure_nonzero_proposing_stake. destruct (total_weight vs =? 0) eqn:Et; [done|].
  assert (Forall (Z.le 0) (validator_weights vs)) as Hw by apply Hok. unfold validator_weights in Hw. rewrite Forall_fmap, Forall_forall in Hw.
  cbn in Hw. assert (0 < total_weight vs) as Htw.
  { rewrite (vo_total _ Hok) in *. pose proof (zsum_nonneg _ (vo_weights _ Hok)). lia. }
  destruct (positive_weight vs Hok Htw) as (v0 & Hv0 & Hw0).
  destruct (forallb (fun v => banned v || (weight v =? 0)) (validators vs)) eqn:Eb.
  { exists admit_all. split; [done|]. split; [done|]. split; [done|]. split; [|split; [|split]].
    - exists (admit_all v0). cbn. split; [by apply list_elem_of_fmap_2|]. done.
    - done.
    - right. split; [done|]. intros v Hv Hpos. rewrite forallb_forall in Eb. specialize (Eb v (proj1 (list_elem_of_In _ _) Hv)).
      apply orb_true_iff in Eb as [?|?]; [done|lia].
    - intros v Hv Hpos Hc. exfalso. rewrite forallb_forall in Eb. specialize (Eb v (proj1 (list_elem_of_In _ _) Hv)).
      apply orb_true_iff in Eb as [Eb|?]; [|lia]. by rewrite (Hban v Hv Eb) in Hc. }
  apply forallb_false_exists in Eb as (v1 & Hv1 & [Hb1 Hw1]%orb_false_iff). specialize (Hw _ Hv1) as Hv1w.
  destruct (forallb (fun v => negb (can_propose v) || (weight v =? 0)) (validators vs)) eqn:Ec.
  - exists admit_unbanned. assert (forall v, id (admit_unbanned v) = id v) by (intros v; unfold admit_unbanned; by destruct (banned v)).
    assert (forall v, weight (admit_unbanned v) = weight v) by (intros v; unfold admit_unbanned; by destruct (banned v)).
    split; [done|]. split; [done|]. split; [done|]. split; [|split; [|split]].
    + exists (admit_unbanned v1). cbn. split; [by apply list_elem_of_fmap_2|]. unfold admit_unbanned. rewrite Hb1. cbn. split; [lia|done].
    + intros v Hv. unfold admit_unbanned. destruct (banned v) eqn:E; cbn; [auto|congruence].
    + left. intros v. unfold admit_unbanned. by destruct (banned v) eqn:E; cbn.
    + intros v Hv Hpos Hc. exfalso. rewrite forallb_forall in Ec. specialize (Ec v (proj1 (list_elem_of_In _ _) Hv)).
      apply orb_true_iff in Ec as [Ec|?]; [by rewrite Hc in Ec|lia].
  - apply forallb_false_exists in Ec as (v2 & Hv2 & [Hp2 Hw2]%orb_false_iff). apply negb_false_iff in Hp2. specialize (Hw _ Hv2) as Hv2w.
    exists (fun v => v). assert (with_validators vs ((fun v => v) <$> validators vs) = vs) as ->.
    { destruct vs as [m l t]. unfold with_validators. cbn. f_equal. apply list_fmap_id. }
    split; [done|]. split; [done|]. split; [done|]. split; [|split; [done|split; [by left|done]]].
    exists v2. split; [done|]. split; [lia|]. split; [done|].
    destruct (banned v2) eqn:E; [|done]. rewrite (Hban v2 Hv2 E) in Hp2. done.
Qed.

(** The set before the last check: the scaled stakes, the faulty validators banned, the
    inactive ones excluded from the leader sequence. *)
Definition flagged (faulty inactive : list VID) (p : VID * Z) : Validator VID :=
  mkValidator p.2 p.1 (bool_decide (p.1 ∈ faulty)) (bool_decide (p.1 ∉ faulty /\ p.1 ∉ inactive)).

Lemma flag_folds {B} faulty inactive vs (k : Validators VID -> result () B) :
  validators_ok vs -> (forall v, v ∈ validators vs -> exists p, v = validator_from p) ->
  (vs ← foldl (fun (acc : result () (Validators VID)) vid => vs ← acc; ban vs vid) (Ok vs) faulty;
   vs ← foldl (fun (acc : result () (Validators VID)) vid => vs ← acc; set_cannot_propose vs vid) (Ok vs) inactive; k vs) =
  k (with_validators vs ((fun v => flagged faulty inactive (id v, weight v)) <$> validators vs)).
Proof.
  intros Hok Hfrom. unfold ban, set_cannot_propose. rewrite (update_fold_spec ban_validator faulty) by done. cbn [mbind result_bind].
  rewrite (update_fold_spec exclude_validator inactive); [|done|done|done|].
  2: { apply with_validators_ok; [| |done]; intros v; by case_decide. }
  cbn [mbind result_bind]. f_equal. unfold with_validators. cbn. f_equal. rewrite <- list_fmap_compose. apply list_fmap_ext. intros j v Hv.
  destruct (Hfrom v) as [[vid x] ->]; [by eapply list_elem_of_lookup_2|]. cbn. unfold flagged. cbn.
  destruct (decide (vid ∈ faulty)), (decide (vid ∈ inactive)); cbn; repeat case_decide; try done; repeat case_bool_decide; naive_solver.
Qed.

Lemma era_validators_spec faulty inactive (stakes : list (VID * Z)) :
  btree_sorted stakes -> Forall (in_u 512) stakes.*2 -> Z.of_nat (length stakes) < 2 ^ 32 ->
  let sum := zsum stakes.*2 in
  if decide (0 < sum <= u_max 512) then
    exists vs, era_validators faulty inactive stakes = Ok vs /\ validators_ok vs /\ 0 < total_weight vs < u_max 64 /\
      (fun v => (id v, weight v)) <$> validators vs = (fun p => (p.1, p.2 / scaling_factor sum)) <$> stakes /\
      proposer_exists vs /\
      (forall v, v ∈ validators vs -> banned v = true -> can_propose v = false) /\
      ((forall v, v ∈ validators vs -> banned v = true <-> id v ∈ faulty) \/
       (forall v, v ∈ validators vs -> banned v = false) /\ (forall v, v ∈ validators vs -> 0 < weight v -> id v ∈ faulty)) /\
      ((exists v, v ∈ validators vs /\ 0 < weight v /\ id v ∉ faulty /\ id v ∉ inactive) ->
       forall v, v ∈ validators vs -> can_propose v = true <-> id v ∉ faulty /\ id v ∉ inactive)
  else era_validators faulty inactive stakes = Panic.
Proof.
  intros Hs Hst Hl sum. unfold era_validators, safe_sum. assert (0 <= sum) as Hsum.
  { apply zsum_nonneg. eapply Forall_impl; [exact Hst|]. by intros ? []. }
  rewrite checked_sum_from by (done || by unfold in_u). fold sum. replace (0 + sum) with sum by lia. unfold checked.
  destruct (decide (in_u 512 sum)) as [Hfit|Hfit].
  2: { rewrite decide_False by (unfold in_u, u_max in *; lia). done. }
  cbn [expect mbind result_bind]. destruct (scaled_stakes stakes.*2 Hst) as (Hfits & Htot & Hpos); [by rewrite length_fmap|].
  fold sum in Hfits, Htot, Hpos. set (k := scaling_factor sum) in *.
  assert ((fun p : VID * Z => (p.1, as_u64 (p.2 / k))) <$> stakes = (fun p => (p.1, p.2 / k)) <$> stakes) as ->.
  { apply list_fmap_ext. intros j [vid x] Hx. cbn. f_equal. apply as_u64_small. rewrite Forall_forall in Hfits. apply Hfits.
    unfold scale. apply (list_elem_of_fmap_2 (fun x => x / k)). change x with ((vid, x).2). by eapply list_elem_of_fmap_2, list_elem_of_lookup_2. }
  set (ii := (fun p : VID * Z => (p.1, p.2 / k)) <$> stakes).
  assert (ii.*2 = scale k stakes.*2) as Ews by (unfold ii, scale; rewrite <- !list_fmap_compose; done).
  destruct (validators_from_iter_ok ii) as (vs & -> & Evs & Hok & Et).
  { unfold ii. unfold btree_sorted, key_lt in *. clearbody k. clear -Hs. induction Hs as [|p l Hp IH Hf]; cbn; constructor; [done|].
    apply Forall_fmap. exact Hf. }
  { by rewrite Ews. } { unfold ii. by rewrite length_fmap. } { rewrite Ews. unfold u_max in *. lia. }
  cbn [mbind result_bind]. rewrite flag_folds; [|done|by rewrite Evs; intros v (p & -> & _)%list_elem_of_fmap; exists p].
  set (vs2 := with_validators vs _).
  assert (validators_ok vs2) as Hok2 by (by apply with_validators_ok).
  assert (forall v, v ∈ validators vs2 -> (banned v = true <-> id v ∈ faulty) /\ (banned v = true -> can_propose v = false)) as Hflags.
  { intros v Hv. unfold vs2 in Hv. cbn in Hv. apply list_elem_of_fmap in Hv as (w & -> & _). cbn.
    rewrite bool_decide_eq_true, bool_decide_eq_false. naive_solver. }
  assert (forall v, v ∈ validators vs2 -> can_propose v = true <-> id v ∉ faulty /\ id v ∉ inactive) as Hmay.
  { intros v Hv. unfold vs2 in Hv. cbn in Hv. apply list_elem_of_fmap in Hv as (w & -> & _). cbn. apply bool_decide_eq_true. }
  pose proof (ensure_spec vs2 Hok2 (fun v Hv => proj2 (Hflags v Hv))) as Hens.
  change (total_weight vs2) with (total_weight vs) in Hens. rewrite Et, Ews in Hens.
  destruct (decide (0 < sum <= u_max 512)) as [Hp|Hneg].
  2: { assert (zsum (scale k stakes.*2) = 0) as Hz.
       { pose proof (zsum_nonneg (scale k stakes.*2)) as Hnn. unfold in_u, u_max in *. enough (0 <= zsum (scale k stakes.*2)) by lia.
         apply Hnn. eapply Forall_impl; [exact Hfits|]. by intros ? []. }
       rewrite Hz in Hens. cbn in Hens. rewrite Hens. done. }
  apply proj1 in Hp. apply Hpos in Hp. destruct (zsum (scale k stakes.*2) =? 0) eqn:E0; [lia|].
  destruct Hens as (f & -> & Hfid & Hfw & Hprop & Hfb & Hfban & Hfmay). cbn [mbind result_bind assert_that].
  eexists. split; [reflexivity|]. split; [by apply with_validators_ok|]. split; [cbn; rewrite Et, Ews; auto|]. split; [|split; [done|split; [|split]]].
  - cbn. rewrite Evs, <- !list_fmap_compose. fold ii. rewrite <- (list_fmap_id ii) at 2. apply list_fmap_ext. intros j p _. cbn.
    rewrite Hfid, Hfw. by destruct p.
  - intros v Hv. cbn in Hv. apply list_elem_of_fmap in Hv as (w & -> & Hw). by apply Hfb.
  - destruct Hfban as [Hfban|[Hfban Hall]]; [left|right; split].
    + intros v Hv. cbn in Hv. apply list_elem_of_fmap in Hv as (w & -> & Hw). rewrite Hfban, Hfid. by apply Hflags.
    + intros v Hv. cbn in Hv. apply list_elem_of_fmap in Hv as (w & -> & Hw). by rewrite Hfban.
    + intros v Hv Hpw. cbn in Hv. apply list_elem_of_fmap in Hv as (w & -> & Hw). rewrite Hfid. rewrite Hfw in Hpw. apply Hflags; auto.
  - intros (v0 & Hv0 & Hw0 & Hf0) v Hv. cbn in Hv0, Hv. apply list_elem_of_fmap in Hv0 as (w0 & -> & Hw0'), Hv as (w & -> & Hw).
    rewrite Hfid in Hf0. rewrite Hfw in Hw0. rewrite (Hfmay w0 Hw0' Hw0), Hfid by (by apply Hmay). by apply Hmay.
Qed.
End facts.

(** ** The leader of a slot *)

(** The contract of [slice::binary_search]: on a sorted slice it returns some position of
    the element, or the position that separates the smaller from the larger entries. *)
Definition search_contract (binary_search : list Z -> Z -> Search) : Prop :=
  forall l x, StronglySorted Z.le l ->
    match binary_search l x with
    | Found i => l !! i = Some x
    | Missing i => (i <= length l)%nat /\
        forall j y, l !! j = Some y -> if decide (j < i)%nat then y < x else x < y
    end.
(** The contract of [gen_range(0..upper)]. *)
Definition range_contract (gen_range : Z -> Z -> Z) : Prop :=
  forall upper seed, 0 < upper -> 0 <= gen_range upper seed < upper.

(** Weight unit [r], numbered from 1, belongs to validator [u]. *)
Definition owns (weights : list Z) (r : Z) (u : Z) : Prop :=
  0 <= u < Z.of_nat (length weights) /\ zsum (take (Z.to_nat u) weights) < r <= zsum (take (S (Z.to_nat u)) weights).

Definition partial_sums (weights : list Z) : list Z := (fun i => zsum (take (S i) weights)) <$> seq 0 (length weights).

Lemma zsum_take_S (l : list Z) i x : l !! i = Some x -> zsum (take (S i) l) = zsum (take i l) + x.
Proof. intros Hx. rewrite (take_S_r l i x Hx), zsum_app. cbn. lia. Qed.
Lemma zsum_take_mono (l : list Z) i j : Forall (Z.le 0) l -> (i <= j)%nat -> zsum (take i l) <= zsum (take j l).
Proof.
  intros Hl Hij. replace (take i l) with (take i (take j l)) by (rewrite take_take; f_equal; lia).
  rewrite <- (take_drop i (take j l)) at 2. rewrite zsum_app.
  enough (0 <= zsum (drop i (take j l))) by lia. apply zsum_nonneg, Forall_drop. by apply Forall_take.
Qed.
Lemma zsum_take_le (l : list Z) i : Forall (Z.le 0) l -> zsum (take i l) <= zsum l.
Proof.
  intros Hl. rewrite <- (take_drop i l) at 2. rewrite zsum_app.
  enough (0 <= zsum (drop i l)) by lia. apply zsum_nonneg. by apply Forall_drop.
Qed.

Lemma partial_sums_lookup ws i : (i < length ws)%nat -> partial_sums ws !! i = Some (zsum (take (S i) ws)).
Proof. intros Hi. unfold partial_sums. rewrite list_lookup_fmap, lookup_seq_lt by done. done. Qed.
Lemma partial_sums_length ws : length (partial_sums ws) = length ws.
Proof. unfold partial_sums. by rewrite length_fmap, length_seq. Qed.
Lemma partial_sums_snoc ws w : partial_sums (ws ++ [w]) = partial_sums ws ++ [zsum (ws ++ [w])].
Proof.
  unfold partial_sums. rewrite length_app, Nat.add_comm. cbn [length Nat.add]. rewrite seq_S, fmap_app. cbn. f_equal.
  - apply list_fmap_ext. intros j i Hi. apply lookup_seq in Hi as [-> Hi]. by rewrite take_app_le by lia.
  - rewrite take_ge; [done|]. rewrite length_app. cbn. lia.
Qed.
Lemma partial_sums_last ws : ws <> [] -> last (partial_sums ws) = Some (zsum ws).
Proof. destruct ws as [|w ws _] using rev_ind; [done|]. intros _. by rewrite partial_sums_snoc, last_snoc. Qed.

Lemma push_sums ws :
  Forall (Z.le 0) ws -> zsum ws < 2 ^ 64 -> foldl push_sum (Ok []) ws = Ok (partial_sums ws).
Proof.
  induction ws as [|w ws IH] using rev_ind; [done|]. intros [Hws Hw]%Forall_app Hs. apply Forall_cons_1 in Hw as [Hw _].
  rewrite zsum_app in Hs. change (zsum [w]) with (w + 0) in Hs. pose proof (zsum_nonneg ws Hws). rewrite foldl_snoc, IH by (done || lia). unfold push_sum.
  cbn [mbind result_bind]. rewrite partial_sums_snoc. assert (default 0 (last (partial_sums ws)) = zsum ws) as ->.
  { destruct ws as [|a ws]; [done|]. by rewrite partial_sums_last by done. }
  unfold checked_add, checked. rewrite decide_True by (unfold in_u; lia). cbn. by rewrite zsum_app; cbn; rewrite Z.add_0_r.
Qed.

Lemma partial_sums_sorted ws : Forall (Z.le 0) ws -> StronglySorted Z.le (partial_sums ws).
Proof.
  induction ws as [|w ws IH] using rev_ind; [constructor|]. intros Hall. pose proof Hall as [Hws Hw]%Forall_app. rewrite partial_sums_snoc.
  specialize (IH Hws). assert (Forall (fun s => s <= zsum (ws ++ [w])) (partial_sums ws)) as Hle.
  { unfold partial_sums. apply Forall_fmap, Forall_forall. intros i _. unfold compose.
    apply Forall_cons_1 in Hw as [Hw _]. rewrite zsum_app. change (zsum [w]) with (w + 0). pose proof (zsum_take_le ws (S i) Hws). lia. }
  clear Hall. induction IH as [|s l Hl IH' Hs]; cbn; constructor.
  - constructor.
  - constructor.
  - apply IH'. by apply Forall_cons_1 in Hle as [_ ?].
  - apply Forall_app. split; [done|]. apply Forall_singleton. by apply Forall_cons_1 in Hle as [? _].
Qed.

Section leader_facts.
Context {binary_search : list Z -> Z -> Search} {gen_range : Z -> Z -> Z}.
Hypothesis Hsearch : search_contract binary_search.
Hypothesis Hrange : range_contract gen_range.

Lemma first_equal_spec l x i :
  StronglySorted Z.le l -> l !! i = Some x ->
  l !! first_equal l x i = Some x /\ (first_equal l x i <= i)%nat /\ forall j y, l !! j = Some y -> (j < first_equal l x i)%nat -> y < x.
Proof.
  intros Hs. induction i as [|i IH]; intros Hi; cbn.
  - split; [done|]. split; [lia|]. lia.
  - case_decide as E; [destruct (IH E) as (? & ? & ?); split_and!; [done|lia|done]|]. split; [done|]. split; [lia|]. intros j y Hj Hlt.
    assert (forall a b u v, l !! a = Some u -> l !! b = Some v -> (a <= b)%nat -> u <= v) as Hmono.
    { intros a b u v Ha Hb Hab. destruct (decide (a = b)) as [->|]; [simplify_eq; lia|].
      eapply (StronglySorted_app_1_elem_of Z.le (take b l) (drop b l)).
      - by rewrite take_drop.
      - apply list_elem_of_lookup. exists a. by rewrite lookup_take_lt by lia.
      - apply list_elem_of_lookup. exists 0%nat. rewrite lookup_drop, Nat.add_0_r. done. }
    destruct (l !! i) as [z|] eqn:Ez.
    + pose proof (Hmono j i y z Hj Ez ltac:(lia)). pose proof (Hmono i (S i) z x Ez Hi ltac:(lia)).
      assert (z <> x) by congruence. lia.
    + apply lookup_ge_None in Ez. apply lookup_lt_Some in Hi. lia.
Qed.

(** [ValidatorMap::binary_search] finds the lowest entry that is not smaller. *)
Lemma map_binary_search_spec l x :
  StronglySorted Z.le l -> Z.of_nat (length l) < 2 ^ 32 ->
  match map_binary_search binary_search l x with
  | Some v => 0 <= v /\ (exists y, vec_get l v = Some y /\ x <= y) /\ forall j y, l !! j = Some y -> Z.of_nat j < v -> y < x
  | None => Forall (fun y => y < x) l
  end.
Proof.
  intros Hs Hl. unfold map_binary_search. specialize (Hsearch l x Hs). destruct (binary_search l x) as [i|i].
  - destruct (first_equal_spec l x i Hs Hsearch) as (Hf & Hle & Hlt). pose proof (lookup_lt_Some _ _ _ Hf).
    rewrite as_u32_small by (unfold in_u; lia). split; [lia|]. split.
    + exists x. unfold vec_get. by rewrite Nat2Z.id.
    + intros j y Hj Hjl. apply (Hlt j y Hj). lia.
  - destruct Hsearch as [Hi Hall]. case_decide as E.
    + rewrite as_u32_small by (unfold in_u; lia). split; [lia|]. split.
      * destruct (lookup_lt_is_Some_2 l i E) as [y Hy]. exists y. unfold vec_get. rewrite Nat2Z.id. split; [done|].
        specialize (Hall i y Hy). rewrite decide_False in Hall by lia. lia.
      * intros j y Hj Hjl. specialize (Hall j y Hj). rewrite decide_True in Hall by lia. done.
    + apply Forall_lookup. intros j y Hj. specialize (Hall j y Hj). pose proof (lookup_lt_Some _ _ _ Hj).
      by rewrite decide_True in Hall by lia.
Qed.

(** Searching the partial sums for a weight unit finds its owner. *)
Lemma search_owner ws r :
  Forall (Z.le 0) ws -> Z.of_nat (length ws) < 2 ^ 32 -> 0 < r <= zsum ws ->
  exists u, map_binary_search binary_search (partial_sums ws) r = Some u /\ owns ws r u.
Proof.
  intros Hws Hl Hr. pose proof (map_binary_search_spec (partial_sums ws) r (partial_sums_sorted ws Hws)) as Hb.
  rewrite partial_sums_length in Hb. specialize (Hb Hl).
  destruct (map_binary_search binary_search (partial_sums ws) r) as [u|].
  - exists u. split; [done|]. destruct Hb as (Hu & (y & Hy & Hry) & Hlow).
    pose proof (vec_get_range _ _ _ Hu Hy) as Hlt. rewrite partial_sums_length in Hlt. unfold vec_get in Hy.
    rewrite partial_sums_lookup in Hy by lia. simplify_eq. split; [done|]. split; [|done].
    destruct (Z.to_nat u) as [|i] eqn:E; [exact (proj1 Hr)|]. apply (Hlow i); [|lia]. apply partial_sums_lookup. lia.
  - exfalso. destruct (decide (ws = [])) as [->|Hne]; [cbn in Hr; lia|].
    pose proof (partial_sums_last ws Hne) as Hlast. rewrite Forall_forall in Hb.
    specialize (Hb (zsum ws)). cbn in Hb. enough (zsum ws < r) by lia. apply Hb.
    apply last_Some_elem_of in Hlast. done.
Qed.

Lemma owns_positive ws r u : owns ws r u -> exists w, vec_get ws u = Some w /\ 0 < w.
Proof.
  intros [Hu [Hlo Hhi]]. destruct (vec_get_is_Some ws u Hu) as [w Hw]. exists w. split; [done|].
  rewrite (zsum_take_S _ _ _ Hw) in Hhi. lia.
Qed.
Lemma owns_unique ws r u v : Forall (Z.le 0) ws -> owns ws r u -> owns ws r v -> u = v.
Proof.
  intros Hws [Hu [Hulo Huhi]] [Hv [Hvlo Hvhi]]. destruct (Z.lt_trichotomy u v) as [Hl|[->|Hl]]; [|done|].
  - pose proof (zsum_take_mono ws (S (Z.to_nat u)) (Z.to_nat v) Hws ltac:(lia)). lia.
  - pose proof (zsum_take_mono ws (S (Z.to_nat v)) (Z.to_nat u) Hws ltac:(lia)). lia.
Qed.

(** The weights with the excluded validators' set to zero. *)
Definition masked (ws : list Z) (flags : list bool) : list Z := zip_with (fun w (b : bool) => if b then w else 0) ws flags.

Lemma masked_fold ws flags :
  length flags = length ws -> Z.of_nat (length ws) < 2 ^ 32 ->
  foldr (fun p acc => flag ← expect (vec_get flags p.1); acc ← acc; Ok ((if flag : bool then p.2 else 0) :: acc))
    (Ok [] : result () (list Z)) (enumerate ws) = Ok (masked ws flags).
Proof.
  intros Hlen Hl. unfold enumerate.
  assert (forall k, Z.of_nat k + Z.of_nat (length ws) < 2 ^ 32 -> forall pre, length pre = k ->
    foldr (fun p acc => flag ← expect (vec_get (pre ++ flags) p.1); acc ← acc; Ok ((if flag : bool then p.2 else 0) :: acc))
    (Ok [] : result () (list Z)) (imap (fun i a => (as_u32 (Z.of_nat (k + i)), a)) ws) = Ok (masked ws flags)) as Hk.
  2: { exact (Hk O ltac:(lia) [] eq_refl). }
  clear Hl. revert flags Hlen. induction ws as [|w ws IH]; intros [|b flags] Hlen k Hk pre Hpre; try done. cbn [imap foldr].
  cbn [length] in Hk, Hlen. rewrite (imap_ext _ (fun i a => (as_u32 (Z.of_nat (S k + i)), a))) by (intros i a _; unfold compose; by rewrite Nat.add_succ_r).
  rewrite Nat.add_0_r, as_u32_small by (unfold in_u; lia). cbn [fst snd].
  assert (vec_get (pre ++ b :: flags) (Z.of_nat k) = Some b) as ->.
  { unfold vec_get. rewrite Nat2Z.id. by apply list_lookup_middle. }
  cbn [expect mbind result_bind].
  replace (pre ++ b :: flags) with ((pre ++ [b]) ++ flags) by (by rewrite <- app_assoc).
  rewrite IH; [done|lia|lia|rewrite length_app; cbn; lia].
Qed.
Lemma masked_lookup ws flags i w b : vec_get ws i = Some w -> vec_get flags i = Some b -> vec_get (masked ws flags) i = Some (if b then w else 0).
Proof. unfold vec_get, masked. intros Hw Hb. rewrite lookup_zip_with, Hw, Hb. done. Qed.
Lemma masked_nonneg ws flags : Forall (Z.le 0) ws -> Forall (Z.le 0) (masked ws flags) /\ zsum (masked ws flags) <= zsum ws.
Proof.
  intros Hws. revert flags. induction Hws as [|w ws Hw Hws IH]; intros [|b flags]; unfold masked in *; cbn.
  1-2: split; [constructor|done].
  - split; [constructor|]. pose proof (zsum_nonneg _ Hws). unfold zsum in *. lia.
  - destruct (IH flags). unfold zsum in *. destruct b; split; try constructor; done || lia.
Qed.

Lemma leader_prng_range upper seed : 0 < upper < 2 ^ 64 -> leader_prng gen_range upper seed = Ok (gen_range upper seed + 1).
Proof.
  intros Hu. unfold leader_prng. destruct (upper =? 0) eqn:E; [lia|]. f_equal. unfold saturating_add, u_max.
  pose proof (Hrange upper seed ltac:(lia)). lia.
Qed.

Lemma leader_spec seed ws flags :
  Forall (Z.le 0) ws -> zsum ws < 2 ^ 64 -> length flags = length ws -> Z.of_nat (length ws) < 2 ^ 32 ->
  (exists i w, 0 <= i /\ vec_get ws i = Some w /\ 0 < w /\ vec_get flags i = Some true) ->
  exists ls, leader_sequence_new seed ws flags = Ok ls /\ forall slot,
    exists v w, leader binary_search gen_range ls slot = Ok v /\ 0 <= v < Z.of_nat (length ws) /\
      vec_get flags v = Some true /\ vec_get ws v = Some w /\ 0 < w /\
      forall u, owns ws (gen_range (zsum ws) (as_u64 (seed + slot)) + 1) u -> vec_get flags u = Some true -> v = u.
Proof.
  intros Hws Hsum Hlen Hl (i & w & Hi & Hw & Hpos & Hflag).
  destruct (masked_nonneg ws flags Hws) as [Hmn Hms].
  assert (w <= zsum ws) as Hwle by (apply zsum_elem_le; [done|]; unfold vec_get in Hw; by eapply list_elem_of_lookup_2).
  assert (w <= zsum (masked ws flags)) as Hmle.
  { apply zsum_elem_le; [done|]. pose proof (masked_lookup _ _ _ _ _ Hw Hflag) as Hm. unfold vec_get in Hm. by eapply list_elem_of_lookup_2. }
  assert (ws <> []) as Hne by (intros ->; done). assert (length (masked ws flags) = length ws) as Hml.
  { unfold masked. rewrite length_zip_with. lia. }
  assert (masked ws flags <> []) as Hmne by (intros E; rewrite E in Hml; by destruct ws).
  unfold leader_sequence_new. rewrite push_sums by done. cbn [mbind result_bind]. rewrite partial_sums_last by done. cbn [expect mbind result_bind].
  destruct (0 <? zsum ws) eqn:E0; [|lia]. cbn [assert_that mbind result_bind]. rewrite masked_fold by done. cbn [mbind result_bind].
  rewrite push_sums by (done || lia). cbn [mbind result_bind]. eexists. split; [reflexivity|]. intros slot.
  unfold leader. cbn [Validators.seed cumulative_w cumulative_w_leaders leaders]. rewrite (partial_sums_last ws) by done. cbn [expect mbind result_bind].
  rewrite (leader_prng_range (zsum ws)) by lia. cbn [mbind result_bind]. set (r := gen_range (zsum ws) (as_u64 (seed + slot)) + 1).
  assert (0 < r <= zsum ws) as Hr by (unfold r; pose proof (Hrange (zsum ws) (as_u64 (seed + slot)) ltac:(lia)); lia).
  destruct (search_owner ws r Hws Hl Hr) as (u & -> & Hown). change (default 0 (Some u)) with u.
  destruct (vec_get_is_Some flags u) as [b Hb]; [rewrite Hlen; apply Hown|]. rewrite Hb. cbn [expect mbind result_bind]. destruct b.
  - destruct (owns_positive _ _ _ Hown) as (wu & Hwu & Hwp). exists u, wu. split; [done|]. split; [apply Hown|]. split_and!; [done..|].
    intros u' Hown' _. exact (owns_unique _ _ _ _ Hws Hown Hown').
  - rewrite partial_sums_last by done. cbn [expect mbind result_bind]. rewrite leader_prng_range by lia. cbn [mbind result_bind].
    set (r2 := gen_range (zsum (masked ws flags)) _ + 1).
    assert (0 < r2 <= zsum (masked ws flags)) as Hr2 by (unfold r2; pose proof (Hrange (zsum (masked ws flags)) (as_u64 (as_u64 (seed + slot) + 1)) ltac:(lia)); lia).
    destruct (search_owner (masked ws flags) r2 Hmn ltac:(lia) Hr2) as (v & -> & Hown2). change (default 0 (Some v)) with v.
    destruct (owns_positive _ _ _ Hown2) as (wm & Hwm & Hwmp). destruct Hown2 as [Hv _]. rewrite Hml in Hv.
    destruct (vec_get_is_Some ws v Hv) as [wv Hwv]. destruct (vec_get_is_Some flags v) as [bv Hbv]; [by rewrite Hlen|].
    pose proof (masked_lookup _ _ _ _ _ Hwv Hbv) as Hm. rewrite Hwm in Hm. destruct bv; [|simplify_eq; lia]. simplify_eq.
    exists v, wv. split; [done|]. split_and!; [lia|lia|done|done|done|]. intros u' Hown' Hu'. exfalso.
    rewrite (owns_unique _ _ _ _ Hws Hown' Hown) in Hu'. congruence.
Qed.
End leader_facts.

(** ** The validator set and the leaders are as intended *)

(** C23: The validator set of an era is computed from the stakes without overflow: the
    computation panics exactly when the stakes sum to zero or to more than 512 bits hold.
    Otherwise each validator's weight is its stake divided by one common factor, the
    weights sum to a positive number below [u64::MAX], the identifiers are in order and
    indexed, some validator of positive weight that is not banned may propose, no banned
    validator may, and the banned ones are the faulty ones, unless only faulty validators
    have weight, in which case nobody is banned.  When some validator of positive weight is
    neither faulty nor inactive, exactly such validators may propose. *)
Theorem era_validators_correct {VID} `{Countable VID} `{!TotalOrd VID} `{!TotalOrdLaws VID}
  (faulty inactive : list VID) (stakes : list (VID * Z)) :
  btree_sorted stakes -> Forall (in_u 512) stakes.*2 -> Z.of_nat (length stakes) < 2 ^ 32 ->
  let sum := zsum stakes.*2 in
  if decide (0 < sum <= u_max 512) then
    exists vs, era_validators faulty inactive stakes = Ok vs /\ validators_ok vs /\ 0 < total_weight vs < u_max 64 /\
      (fun v => (id v, weight v)) <$> validators vs = (fun p => (p.1, p.2 / scaling_factor sum)) <$> stakes /\
      proposer_exists vs /\
      (forall v, v ∈ validators vs -> banned v = true -> can_propose v = false) /\
      ((forall v, v ∈ validators vs -> banned v = true <-> id v ∈ faulty) \/
       (forall v, v ∈ validators vs -> banned v = false) /\ (forall v, v ∈ validators vs -> 0 < weight v -> id v ∈ faulty)) /\
      ((exists v, v ∈ validators vs /\ 0 < weight v /\ id v ∉ faulty /\ id v ∉ inactive) ->
       forall v, v ∈ validators vs -> can_propose v = true <-> id v ∉ faulty /\ id v ∉ inactive)
  else era_validators faulty inactive stakes = Panic.
Proof. apply era_validators_spec. Qed.

(** Stakes far above 64 bits, one validator faulty, one inactive. *)
Definition big_stakes : list (Z * Z) := [(1, 3 * 2 ^ 80); (2, 5 * 2 ^ 80); (7, 2 ^ 70)].
Lemma era_validators_correct_witness :
  exists vs, era_validators [7] [2] big_stakes = Ok vs /\ 0 < total_weight vs < u_max 64 /\ proposer_exists vs.
Proof.
  pose proof (era_validators_correct [7] [2] big_stakes) as H.
  assert (btree_sorted big_stakes) as Hs by (repeat constructor).
  assert (Forall (in_u 512) big_stakes.*2) as Hf by (apply (bool_decide_unpack _); vm_compute; exact I).
  specialize (H Hs Hf ltac:(done)). cbv zeta in H. rewrite decide_True in H by done.
  destruct H as (vs & Hvs & _ & Ht & _ & Hp & _). exists vs. auto.
Defined.

(** C24: The leader sequence gives every slot a leader, whatever the random numbers drawn:
    a validator that is allowed to lead and has positive weight. The draw is by weight: the
    validator that owns the drawn unit of weight leads the slot whenever it is allowed to,
    so excluding other validators never takes a slot away from it. *)
Theorem leader_correct (binary_search : list Z -> Z -> Search) (gen_range : Z -> Z -> Z) (seed : Z) (weights : list Z) (leaders : list bool) :
  search_contract binary_search -> range_contract gen_range ->
  Forall (Z.le 0) weights -> zsum weights < 2 ^ 64 -> length leaders = length weights -> Z.of_nat (length weights) < 2 ^ 32 ->
  (exists i w, 0 <= i /\ vec_get weights i = Some w /\ 0 < w /\ vec_get leaders i = Some true) ->
  exists ls, leader_sequence_new seed weights leaders = Ok ls /\ forall slot,
    exists v w, leader binary_search gen_range ls slot = Ok v /\ 0 <= v < Z.of_nat (length weights) /\
      vec_get leaders v = Some true /\ vec_get weights v = Some w /\ 0 < w /\
      forall u, owns weights (gen_range (zsum weights) (as_u64 (seed + slot)) + 1) u -> vec_get leaders u = Some true -> v = u.
Proof. intros Hs Hr. by apply leader_spec. Qed.

(** A search that meets the contract. *)
Definition linear_search (l : list Z) (x : Z) : Search :=
  match list_find (fun y => x <= y) l with
  | Some (i, y) => if y =? x then Found i else Missing i
  | None => Missing (length l)
  end.
Lemma linear_search_contract : search_contract linear_search.
Proof.
  intros l x Hs. unfold linear_search. destruct (list_find (fun y => x <= y) l) as [[i y]|] eqn:E.
  - apply list_find_Some in E as (Hi & Hxy & Hbefore). destruct (y =? x) eqn:Ey.
    { rewrite Hi. f_equal. lia. }
    split; [apply lookup_lt_Some in Hi; lia|]. intros j z Hj. case_decide as Hlt.
    { specialize (Hbefore j z Hj Hlt). lia. }
    destruct (decide (j = i)) as [->|]; [simplify_eq; lia|].
    enough (y <= z) by lia. eapply (StronglySorted_app_1_elem_of Z.le (take j l) (drop j l)).
    + by rewrite take_drop.
    + apply list_elem_of_lookup. exists i. by rewrite lookup_take_lt by lia.
    + apply list_elem_of_lookup. exists 0%nat. by rewrite lookup_drop, Nat.add_0_r.
  - apply list_find_None in E. split; [done|]. intros j y Hj. rewrite decide_True by (by eapply lookup_lt_Some).
    pose proof (Forall_lookup_1 _ _ _ _ E Hj) as H. cbn in H. lia.
Qed.

Lemma leader_correct_witness :
  exists ls, leader_sequence_new 11 [4; 0; 3; 5] [true; true; false; true] = Ok ls /\
    exists v, leader linear_search (fun upper seed => seed mod upper) ls 30 = Ok v /\ vec_get [true; true; false; true] v = Some true.
Proof.
  destruct (leader_correct linear_search (fun upper seed => seed mod upper) 11 [4; 0; 3; 5] [true; true; false; true]) as (ls & Hls & H).
  - exact linear_search_contract.
  - intros upper seed Hu. by apply Z.mod_pos_bound.
  - apply (bool_decide_unpack _). vm_compute. exact I.
  - done.
  - done.
  - done.
  - exists 0, 4. split_and!; [lia|reflexivity|lia|reflexivity].
  - exists ls. split; [exact Hls|]. destruct (H 30) as (v & w & Hv & _ & Hf & _). exists v. auto.
Defined.
