(* ===== verification/Wal.v ===== *)
(** * The write-ahead log

    [node/src/components/consensus/utils/wal.rs]: a file of entries, each one preceded by
    its length in eight bytes. A consensus instance records every message before it acts on
    it and reads the file back when it restarts; a write that was cut short leaves an
    incomplete entry at the end, which the reader removes. *)
From S2P Require Import Prelude Effects Bytesrepr.

Open Scope Z_scope.

Inductive WriteWalError : Type :=
| CouldntGetSerializedSize
| CouldntSerializeSizeIntoWriter
| CouldntSerializeMessageIntoWriter
| CouldntFlushMessageToDisk
| FileCouldntBeOpened.

Inductive ReadWalError : Type :=
| FileCouldntBeCreated
| OtherIOError
| CouldNotDeserialize.

Section wal.
(** An entry type with its bincode encoding. *)
Context {E : Type} (serialize : E -> list u8) (deserialize : list u8 -> option E).

(** ** Writing *)

(** The file on disk is its bytes. What the device does with a write: all of it reaches the
    disk, or it fails with an error after a number of bytes. *)
Inductive WriteIo : Type := Written | Torn (bytes : nat) (e : WriteWalError).

Definition encode_entry (e : E) : list u8 :=
  le_encode 8 (Z.of_nat (length (serialize e))) ++ serialize e.

Definition record_entry (io : WriteIo) (e : E) : st (list u8) WriteWalError () := fun file =>
  match io with
  | Written => (Ok (), file ++ encode_entry e)
  | Torn n err => (Err err, file ++ take n (encode_entry e))
  end.

(** ** Reading *)

(** [BufReader] over the file: the bytes and the position of the reader. *)
Record ReadWal : Type := mkReadWal { file : list u8; position : nat }.

Definition read_wal_new (bytes : list u8) : ReadWal := mkReadWal bytes 0.

(** [read_exact] either fills the buffer or hits the end of the file; then the position is at
    the end. A device error is the caller's [io]. *)
Definition read_exact (n : nat) : st ReadWal ReadWalError (option (list u8)) := fun r =>
  let rest := drop (position r) (file r) in
  if decide (n <= length rest)%nat then (Ok (Some (take n rest)), mkReadWal (file r) (position r + n))
  else (Ok None, mkReadWal (file r) (length (file r))).

Definition trim_file (pos : nat) : st ReadWal ReadWalError () := fun r =>
  if decide (pos < position r)%nat then (Ok (), mkReadWal (take pos (file r)) (position r)) else (Ok (), r).

(** [io] says whether the device reports an error during this call. *)
Definition read_next_entry (io : bool) : st ReadWal ReadWalError (option E) :=
  pos ← asks position;
  _ ← fail_if io OtherIOError;
  size ← read_exact 8;
  match size with
  | None => _ ← trim_file pos; mret None
  | Some size =>
      entry ← read_exact (Z.to_nat (le_decode size));
      match entry with
      | None => _ ← trim_file pos; mret None
      | Some entry => e ← lift (ok_or (deserialize entry) CouldNotDeserialize); mret (Some e)
      end
  end.

(** The callers' loop: entries until the end of the file or an error. The fuel bounds the
    number of entries; a file of [n] bytes has at most [n] of them. *)
Fixpoint read_entries (fuel : nat) : st ReadWal ReadWalError (list E) :=
  match fuel with
  | O => lift Diverge
  | S fuel =>
      e ← read_next_entry false;
      match e with
      | None => mret []
      | Some e => es ← read_entries fuel; mret (e :: es)
      end
  end.
Definition read_all (bytes : list u8) : result ReadWalError (list E) * list u8 :=
  let '(r, w) := read_entries (S (length bytes)) (read_wal_new bytes) in (r, file w).

(** ** What is read back *)

Definition encode_entries (es : list E) : list u8 := mjoin (encode_entry <$> es).

(** Bincode reads back what it wrote, and no entry is as long as [u64::MAX]. *)
Class Bincode : Prop := {
  bincode_roundtrip : forall e, deserialize (serialize e) = Some e;
  bincode_size : forall e, Z.of_nat (length (serialize e)) < 2 ^ 64
}.

Context `{!Bincode}.

Lemma encode_entry_length e : length (encode_entry e) = (8 + length (serialize e))%nat.
Proof. unfold encode_entry. by rewrite length_app, length_le_encode. Qed.
Lemma encode_entries_snoc es e : encode_entries (es ++ [e]) = encode_entries es ++ encode_entry e.
Proof. unfold encode_entries. rewrite fmap_app, join_app. cbn. by rewrite app_nil_r. Qed.
Lemma encode_entries_app es fs : encode_entries (es ++ fs) = encode_entries es ++ encode_entries fs.
Proof. unfold encode_entries. by rewrite fmap_app, join_app. Qed.
Lemma encode_entries_cons e es : encode_entries (e :: es) = encode_entry e ++ encode_entries es.
Proof. done. Qed.

(** A complete entry at the reader's position. *)
Lemma read_complete pre e post :
  read_next_entry false (mkReadWal (pre ++ encode_entry e ++ post) (length pre)) =
  (Ok (Some e), mkReadWal (pre ++ encode_entry e ++ post) (length (pre ++ encode_entry e))).
Proof.
  unfold read_next_entry. rewrite (st_bind_eq (asks position) _ (mkReadWal (pre ++ encode_entry e ++ post) (length pre)) (length pre) (mkReadWal (pre ++ encode_entry e ++ post) (length pre)) eq_refl).
  unfold fail_if. cbn [guard_err]. rewrite (st_bind_eq (lift (Ok ())) _ (mkReadWal (pre ++ encode_entry e ++ post) (length pre)) () (mkReadWal (pre ++ encode_entry e ++ post) (length pre)) eq_refl).
  assert (read_exact 8 (mkReadWal (pre ++ encode_entry e ++ post) (length pre)) =
    (Ok (Some (le_encode 8 (Z.of_nat (length (serialize e))))), mkReadWal (pre ++ encode_entry e ++ post) (length pre + 8))) as E1.
  { unfold read_exact. cbn [file position]. rewrite drop_app_length. unfold encode_entry.
    rewrite decide_True by (rewrite !length_app, length_le_encode; lia). rewrite <- app_assoc.
    by rewrite take_app_le, take_ge by (rewrite length_le_encode; lia). }
  rewrite (st_bind_eq _ _ _ _ _ E1). rewrite le_decode_encode, Z.mod_small by (pose proof (bincode_size e); lia). rewrite Nat2Z.id.
  assert (read_exact (length (serialize e)) (mkReadWal (pre ++ encode_entry e ++ post) (length pre + 8)) =
    (Ok (Some (serialize e)), mkReadWal (pre ++ encode_entry e ++ post) (length pre + 8 + length (serialize e)))) as E2.
  { unfold read_exact. cbn [file position]. unfold encode_entry.
    rewrite <- drop_drop, drop_app_length. rewrite <- app_assoc.
    rewrite drop_app_le, drop_ge by (rewrite length_le_encode; lia). cbn [app].
    rewrite decide_True by (rewrite length_app; lia). by rewrite take_app_length. }
  rewrite (st_bind_eq _ _ _ _ _ E2). rewrite bincode_roundtrip. cbn [ok_or].
  cbn. do 2 f_equal. rewrite length_app, encode_entry_length. lia.
Qed.

(** The end of the file, or an incomplete entry there: it is cut off. *)
Lemma read_incomplete pre e n :
  (n < length (encode_entry e))%nat ->
  exists pos, read_next_entry false (mkReadWal (pre ++ take n (encode_entry e)) (length pre)) = (Ok None, mkReadWal pre pos).
Proof.
  intros Hn. unfold read_next_entry. rewrite (st_bind_eq (asks position) _ (mkReadWal (pre ++ take n (encode_entry e)) (length pre)) (length pre) (mkReadWal (pre ++ take n (encode_entry e)) (length pre)) eq_refl).
  unfold fail_if. cbn [guard_err]. rewrite (st_bind_eq (lift (Ok ())) _ (mkReadWal (pre ++ take n (encode_entry e)) (length pre)) () (mkReadWal (pre ++ take n (encode_entry e)) (length pre)) eq_refl).
  assert (length (take n (encode_entry e)) = n) as Hlen by (rewrite length_take; lia).
  assert (forall p : nat, (length pre <= p <= length pre + n)%nat ->
    trim_file (length pre) (mkReadWal (pre ++ take n (encode_entry e)) (length pre + n)) = (Ok (), mkReadWal pre (length pre + n))) as Htrim.
  { intros p _. unfold trim_file. cbn [position file]. case_decide as Hp.
    - by rewrite take_app_length.
    - assert (n = 0%nat) as -> by lia. cbn. by rewrite app_nil_r. }
  specialize (Htrim (length pre) ltac:(lia)).
  destruct (decide (8 <= n)%nat) as [H8|H8].
  - assert (read_exact 8 (mkReadWal (pre ++ take n (encode_entry e)) (length pre)) =
      (Ok (Some (le_encode 8 (Z.of_nat (length (serialize e))))), mkReadWal (pre ++ take n (encode_entry e)) (length pre + 8))) as E1.
    { unfold read_exact. cbn [file position]. rewrite drop_app_length. rewrite decide_True by lia. do 3 f_equal.
      rewrite take_take, Nat.min_l by lia. unfold encode_entry. by rewrite take_app_le, take_ge by (rewrite length_le_encode; lia). }
    rewrite (st_bind_eq _ _ _ _ _ E1). rewrite le_decode_encode, Z.mod_small by (pose proof (bincode_size e); lia). rewrite Nat2Z.id.
    assert (read_exact (length (serialize e)) (mkReadWal (pre ++ take n (encode_entry e)) (length pre + 8)) =
      (Ok None, mkReadWal (pre ++ take n (encode_entry e)) (length pre + n))) as E2.
    { unfold read_exact. cbn [file position]. rewrite encode_entry_length in Hn. rewrite length_drop, length_app, Hlen.
      rewrite decide_False by lia. done. }
    rewrite (st_bind_eq _ _ _ _ _ E2). rewrite (st_bind_eq _ _ _ _ _ Htrim). by eexists.
  - assert (read_exact 8 (mkReadWal (pre ++ take n (encode_entry e)) (length pre)) =
      (Ok None, mkReadWal (pre ++ take n (encode_entry e)) (length pre + n))) as E1.
    { unfold read_exact. cbn [file position]. rewrite drop_app_length, length_app, Hlen. rewrite decide_False by lia. done. }
    rewrite (st_bind_eq _ _ _ _ _ E1). rewrite (st_bind_eq _ _ _ _ _ Htrim). by eexists.
Qed.

Lemma read_entries_ok es e n pre fuel :
  (length es < fuel)%nat -> (n < length (encode_entry e))%nat ->
  exists pos, read_entries fuel (mkReadWal (pre ++ encode_entries es ++ take n (encode_entry e)) (length pre)) =
    (Ok es, mkReadWal (pre ++ encode_entries es) pos).
Proof.
  revert pre fuel. induction es as [|e0 es IH]; intros pre [|fuel] Hf Hn; cbn [length] in Hf; [lia| |lia|].
  - cbn [encode_entries fmap list_fmap mjoin list_join app]. destruct (read_incomplete pre e n Hn) as [pos Hr]. exists pos.
    cbn [read_entries]. rewrite (st_bind_eq _ _ _ _ _ Hr). by rewrite app_nil_r.
  - rewrite encode_entries_cons, <- (app_assoc (encode_entry e0)). cbn [read_entries].
    rewrite (st_bind_eq _ _ _ _ _ (read_complete pre e0 _)).
    destruct (IH (pre ++ encode_entry e0) fuel ltac:(lia) Hn) as [pos Hr]. exists pos.
    rewrite <- !app_assoc in Hr. rewrite (st_bind_eq _ _ _ _ _ Hr). done.
Qed.

Lemma encode_entries_length es : (length es <= length (encode_entries es))%nat.
Proof.
  induction es as [|e es IH]; [cbn; lia|]. rewrite encode_entries_cons, length_app, encode_entry_length. cbn [length]. lia.
Qed.

Lemma read_all_ok es e n :
  (n < length (encode_entry e))%nat -> read_all (encode_entries es ++ take n (encode_entry e)) = (Ok es, encode_entries es).
Proof.
  intros Hn. unfold read_all, read_wal_new.
  destruct (read_entries_ok es e n [] (S (length (encode_entries es ++ take n (encode_entry e))))) as [pos Hr]; [|done|].
  - rewrite length_app. pose proof (encode_entries_length es). lia.
  - cbn [app length] in Hr. by rewrite Hr.
Qed.

(** Any number of recorded entries. *)
Fixpoint record_entries (es : list E) : st (list u8) WriteWalError () :=
  match es with
  | [] => mret ()
  | e :: es => _ ← record_entry Written e; record_entries es
  end.
Lemma record_entries_ok es bytes : record_entries es bytes = (Ok (), bytes ++ encode_entries es).
Proof.
  revert bytes. induction es as [|e es IH]; intros bytes; cbn [record_entries]; [cbn; by rewrite app_nil_r|].
  rewrite (st_bind_eq (record_entry Written e) _ bytes () (bytes ++ encode_entry e) eq_refl), IH. by rewrite encode_entries_cons, app_assoc.
Qed.
End wal.
Arguments Bincode {E}.

(** C25: The log loses nothing that was recorded. After any entries were written and one more
    write failed after any number of bytes, reading the file returns the written entries in
    order, and the last one as well when all its bytes had reached the disk; the incomplete
    rest is cut off, so that entries recorded later are read back too. *)
Theorem wal_recovers {E} (serialize : E -> list u8) (deserialize : list u8 -> option E)
  `{!Bincode serialize deserialize} (es later : list E) (e : E) (n : nat) (err : WriteWalError) :
  exists torn kept,
    (_ ← record_entries serialize es; record_entry serialize (Torn n err) e) [] = (Err err, torn) /\
    read_all deserialize torn = (Ok kept, encode_entries serialize kept) /\
    kept = (if decide (n < length (encode_entry serialize e))%nat then es else es ++ [e]) /\
    forall bytes, record_entries serialize later (encode_entries serialize kept) = (Ok (), bytes) ->
      read_all deserialize bytes = (Ok (kept ++ later), bytes).
Proof.
  assert (forall l, read_all deserialize (encode_entries serialize l) = (Ok l, encode_entries serialize l)) as Hread.
  { intros l. pose proof (read_all_ok serialize deserialize l e 0) as H. rewrite take_0, app_nil_r in H. apply H. rewrite encode_entry_length. lia. }
  eexists _, _. split; [|split; [|split; [reflexivity|]]].
  - rewrite (st_bind_eq _ _ _ _ _ (record_entries_ok serialize es [])). reflexivity.
  - case_decide as Hn.
    + by apply read_all_ok.
    + rewrite take_ge by lia. cbn [app]. by rewrite <- encode_entries_snoc, Hread.
  - intros bytes. rewrite record_entries_ok. intros [= <-].
    rewrite <- encode_entries_app. apply Hread.
Qed.

(** Entries of one byte each, the third write cut off in the middle of the length. *)
Definition byte_entry (b : u8) : list u8 := [b].
Definition entry_byte (l : list u8) : option u8 := match l with [b] => Some b | _ => None end.
#[export] Instance byte_bincode : Bincode byte_entry entry_byte.
Proof. by split. Qed.

Lemma wal_recovers_witness :
  exists torn, (_ ← record_entries byte_entry [Byte.x07; Byte.x08]; record_entry byte_entry (Torn 3 CouldntFlushMessageToDisk) Byte.x09) [] =
    (Err CouldntFlushMessageToDisk, torn) /\ (read_all entry_byte torn).1 = Ok [Byte.x07; Byte.x08].
Proof.
  destruct (wal_recovers byte_entry entry_byte [Byte.x07; Byte.x08] [Byte.x0a] Byte.x09 3 CouldntFlushMessageToDisk)
    as (torn & kept & Hw & Hr & Hk & _).
  exists torn. split; [exact Hw|]. rewrite Hr, Hk. reflexivity.
Defined.
