(* ===== verification/ZugTypes.v ===== *)
(** * The Zug consensus protocol: data

    The data types of [node/src/components/consensus/protocols/zug.rs] and of
    [zug/message.rs], [zug/proposal.rs], [zug/round.rs], [zug/fault.rs], [zug/params.rs],
    [zug/config.rs], with the operations on a single round; the outcomes of
    [consensus_protocol.rs]. The generic parameter [C: Context] of the source
    ([consensus/traits.rs]) is a class. *)
From S2P Require Import Prelude Effects Validators.

Open Scope Z_scope.

(** ** Messages and proposals, by the types they are made of *)

(** A vote or an echo of a proposal's hash. *)
Inductive ContentOf (Hash : Type) : Type :=
| Echo (hash : Hash)
| Vote (vote : bool).
Arguments Echo {Hash} hash.
Arguments Vote {Hash} vote.

Record ProposalOf (ConsensusValue : Type) : Type := mkProposal {
  timestamp : Z;
  maybe_block : option ConsensusValue;
  maybe_parent_round_id : option Z;
  inactive : option (gset Z)
}.
Arguments mkProposal {ConsensusValue}.
Arguments timestamp {ConsensusValue}.
Arguments maybe_block {ConsensusValue}.
Arguments maybe_parent_round_id {ConsensusValue}.
Arguments inactive {ConsensusValue}.

(** [consensus::traits::Context]. The hashes of a proposal and of the signed fields are those
    of their bincode encodings. [NodeId] identifies a peer. *)
Class Context : Type := mkContext {
  ConsensusValue : Type;
  ValidatorId : Type;
  ValidatorSecret : Type;
  Signature : Type;
  Hash : Type;
  InstanceId : Type;
  NodeId : Type;
  ConsensusValue_eq_dec :: EqDecision ConsensusValue;
  ValidatorId_eq_dec :: EqDecision ValidatorId;
  ValidatorId_countable :: Countable ValidatorId;
  Signature_eq_dec :: EqDecision Signature;
  Hash_eq_dec :: EqDecision Hash;
  Hash_countable :: Countable Hash;
  InstanceId_eq_dec :: EqDecision InstanceId;
  NodeId_eq_dec :: EqDecision NodeId;
  needs_validation : ConsensusValue -> bool;
  hash_fields : Z -> InstanceId -> ContentOf Hash -> Z -> Hash;
  hash_proposal : ProposalOf ConsensusValue -> Hash;
  sign : ValidatorSecret -> Hash -> Signature;
  verify_signature : Hash -> ValidatorId -> Signature -> bool
}.

(** The [f64] operations behind the adaptive proposal timeout. *)
Class F64 : Type := mkF64 {
  f64 : Type;
  f64_of : Z -> f64;
  f64_as_u64 : f64 -> Z;
  f64_add : f64 -> f64 -> f64;
  f64_sub : f64 -> f64 -> f64;
  f64_mul : f64 -> f64 -> f64;
  f64_div : f64 -> f64 -> f64;
  f64_opp : f64 -> f64;
  f64_exp2 : f64 -> f64;
  f64_min : f64 -> f64 -> f64;
  f64_max : f64 -> f64 -> f64;
  f64_gt : f64 -> f64 -> bool
}.

(** The order in which a hash map or set is visited. *)
Class HashOrder : Type := mkHashOrder {
  hash_order : forall {A : Type}, list A -> list A;
  hash_order_perm : forall A (l : list A), hash_order l ≡ₚ l
}.

(** A timestamp or time difference in milliseconds is a [u64]. *)
Definition TIMESTAMP_MAX : Z := u_max 64.

Section types.
Context {C : Context}.

Abbreviation Content := (ContentOf Hash).
Abbreviation Proposal := (ProposalOf ConsensusValue).

#[export] Instance Content_eq_dec : EqDecision Content.
Proof. solve_decision. Defined.
#[export] Instance Proposal_eq_dec : EqDecision Proposal.
Proof. solve_decision. Defined.

Definition contradicts (c1 c2 : Content) : bool :=
  match c1, c2 with
  | Vote v0, Vote v1 => negb (eqb v0 v1)
  | Echo h0, Echo h1 => bool_decide (h0 <> h1)
  | _, _ => false
  end.

(** ** Proposals *)

Definition dummy (ts parent_round_id : Z) : Proposal := mkProposal ts None (Some parent_round_id) None.

Record BlockContext : Type := mkBlockContext { context_timestamp : Z; ancestor_values : list ConsensusValue }.
Record ProposedBlock : Type := mkProposedBlock { value : ConsensusValue; context : BlockContext }.
#[export] Instance BlockContext_eq_dec : EqDecision BlockContext.
Proof. solve_decision. Defined.
#[export] Instance ProposedBlock_eq_dec : EqDecision ProposedBlock.
Proof. solve_decision. Defined.

Definition with_block (b : ProposedBlock) (maybe_parent : option Z) (inactive : gset Z) : Proposal :=
  mkProposal (context_timestamp (context b)) (Some (value b)) maybe_parent ((fun _ => inactive) <$> maybe_parent).

Record HashedProposal : Type := mkHashedProposal { hash : Hash; inner : Proposal }.
#[export] Instance HashedProposal_eq_dec : EqDecision HashedProposal.
Proof. solve_decision. Defined.
Definition hashed_proposal_new (p : Proposal) : HashedProposal := mkHashedProposal (hash_proposal p) p.

(** ** Signed messages *)

Record SignedMessage : Type := mkSignedMessage {
  round_id : Z;
  instance_id : InstanceId;
  content : Content;
  validator_idx : Z;
  signature : Signature
}.
#[export] Instance SignedMessage_eq_dec : EqDecision SignedMessage.
Proof. solve_decision. Defined.

Definition sign_new (r : Z) (i : InstanceId) (c : Content) (idx : Z) (secret : ValidatorSecret) : SignedMessage :=
  mkSignedMessage r i c idx (sign secret (hash_fields r i c idx)).
Definition with_content (m : SignedMessage) (c : Content) (s : Signature) : SignedMessage :=
  mkSignedMessage (round_id m) (instance_id m) c (validator_idx m) s.
Definition message_verify_signature (m : SignedMessage) (vid : ValidatorId) : bool :=
  verify_signature (hash_fields (round_id m) (instance_id m) (content m) (validator_idx m)) vid (signature m).

Record SyncRequest : Type := mkSyncRequest {
  rq_round_id : Z;
  rq_proposal_hash : option Hash;
  rq_has_proposal : bool;
  rq_first_validator_idx : Z;
  rq_echoes : Z;
  rq_true_votes : Z;
  rq_false_votes : Z;
  rq_active : Z;
  rq_faulty : Z;
  rq_instance_id : InstanceId;
  rq_sync_id : Z
}.
Definition sync_request_new_empty_round (r first faulty active : Z) (i : InstanceId) (sync_id : Z) : SyncRequest :=
  mkSyncRequest r None false first 0 0 0 active faulty i sync_id.

Record SyncResponse : Type := mkSyncResponse {
  rs_round_id : Z;
  rs_proposal_or_hash : option (Proposal + Hash);
  rs_echo_sigs : gmap Z Signature;
  rs_true_vote_sigs : gmap Z Signature;
  rs_false_vote_sigs : gmap Z Signature;
  rs_signed_messages : list SignedMessage;
  rs_evidence : list (SignedMessage * Content * Signature);
  rs_instance_id : InstanceId;
  rs_sync_id : Z
}.

Inductive Message : Type :=
| M_SyncResponse (r : SyncResponse)
| M_Proposal (round_id : Z) (instance_id : InstanceId) (proposal : Proposal) (echo : SignedMessage)
| M_Signed (m : SignedMessage)
| M_Evidence (m : SignedMessage) (content2 : Content) (signature2 : Signature).
Definition message_instance_id (m : Message) : InstanceId :=
  match m with
  | M_SyncResponse r => rs_instance_id r
  | M_Proposal _ i _ _ => i
  | M_Signed s => instance_id s
  | M_Evidence s _ _ => instance_id s
  end.

Inductive Fault : Type :=
| Banned
| Direct (m : SignedMessage) (content2 : Content) (signature2 : Signature)
| Indirect.
Definition is_direct (f : Fault) : bool := match f with Direct _ _ _ => true | _ => false end.

Inductive ZugWalEntry : Type :=
| W_SignedMessage (m : SignedMessage)
| W_Proposal (p : Proposal) (round_id : Z)
| W_Evidence (m : SignedMessage) (content2 : Content) (signature2 : Signature).

(** ** Rounds *)

Record RoundOutcome : Type := mkRoundOutcome {
  accepted_proposal_height : option Z;
  quorum_echoes : option Hash;
  quorum_votes : option bool
}.
(** [votes] is a map with the two keys [false] and [true]. *)
Record Round : Type := mkRound {
  leader_idx : Z;
  proposal : option HashedProposal;
  echoes : gmap Hash (gmap Z Signature);
  votes_false : list (option Signature);
  votes_true : list (option Signature);
  outcome : RoundOutcome
}.

Definition round_new (validator_count : Z) (leader : Z) : Round :=
  mkRound leader None ∅ (replicate (Z.to_nat validator_count) None) (replicate (Z.to_nat validator_count) None)
    (mkRoundOutcome None None None).

Definition votes (r : Round) (vote : bool) : list (option Signature) := if vote then votes_true r else votes_false r.
Definition set_proposal (p : option HashedProposal) (r : Round) : Round :=
  mkRound (leader_idx r) p (echoes r) (votes_false r) (votes_true r) (outcome r).
Definition set_echoes (e : gmap Hash (gmap Z Signature)) (r : Round) : Round :=
  mkRound (leader_idx r) (proposal r) e (votes_false r) (votes_true r) (outcome r).
Definition set_votes (vote : bool) (l : list (option Signature)) (r : Round) : Round :=
  if vote then mkRound (leader_idx r) (proposal r) (echoes r) (votes_false r) l (outcome r)
  else mkRound (leader_idx r) (proposal r) (echoes r) l (votes_true r) (outcome r).
Definition set_outcome (o : RoundOutcome) (r : Round) : Round :=
  mkRound (leader_idx r) (proposal r) (echoes r) (votes_false r) (votes_true r) o.

Definition has_echoes_for_proposal (h : Hash) (r : Round) : bool :=
  match quorum_echoes (outcome r), echoes r !! h with
  | Some quorum_hash, _ => bool_decide (quorum_hash = h)
  | None, Some echo_map => bool_decide (is_Some (echo_map !! leader_idx r))
  | None, None => false
  end.
Definition insert_proposal (p : HashedProposal) (r : Round) : bool * Round :=
  if has_echoes_for_proposal (hash p) r && negb (bool_decide (proposal r = Some p))
  then (true, set_proposal (Some p) r) else (false, r).
Definition insert_echo (h : Hash) (idx : Z) (s : Signature) (r : Round) : bool * Round :=
  let echo_map := default ∅ (echoes r !! h) in
  (bool_decide (echo_map !! idx = None), set_echoes (<[h := <[idx := s]> echo_map]> (echoes r)) r).
Definition has_echoed (idx : Z) (r : Round) : bool :=
  existsb (fun p => bool_decide (is_Some (p.2 !! idx))) (map_to_list (echoes r)).
Definition set_quorum_echoes (h : Hash) (r : Round) : Round :=
  let r := set_outcome (mkRoundOutcome (accepted_proposal_height (outcome r)) (Some h) (quorum_votes (outcome r))) r in
  match proposal r with
  | Some p => if bool_decide (hash p <> h) then set_proposal None r else r
  | None => r
  end.
(** Indexing the vector of votes panics out of range. *)
Definition insert_vote {E} (vote : bool) (idx : Z) (s : Signature) (r : Round) : result E (bool * Round) :=
  old ← expect (vec_get (votes r vote) idx);
  match old with
  | None => Ok (true, set_votes vote (vec_set idx (Some s) (votes r vote)) r)
  | Some _ => Ok (false, r)
  end.
Definition has_voted {E} (idx : Z) (r : Round) : result E bool :=
  t ← expect (vec_get (votes r true) idx);
  if bool_decide (is_Some t) then Ok true else
  f ← expect (vec_get (votes r false) idx);
  Ok (bool_decide (is_Some f)).
Definition set_quorum_votes (vote : bool) (r : Round) : Round :=
  set_outcome (mkRoundOutcome (accepted_proposal_height (outcome r)) (quorum_echoes (outcome r)) (Some vote)) r.
Definition remove_votes_and_echoes {E} (idx : Z) (r : Round) : result E Round :=
  _ ← expect (vec_get (votes r false) idx);
  let r := set_votes false (vec_set idx None (votes r false)) r in
  _ ← expect (vec_get (votes r true) idx);
  let r := set_votes true (vec_set idx None (votes r true)) r in
  Ok (set_echoes (filter (fun p => p.2 <> ∅) (delete idx <$> echoes r)) r).
Definition set_accepted_proposal_height (h : Z) (r : Round) : Round :=
  set_outcome (mkRoundOutcome (Some h) (quorum_echoes (outcome r)) (quorum_votes (outcome r))) r.
Definition accepted_proposal (r : Round) : option (Z * HashedProposal) :=
  h ← accepted_proposal_height (outcome r); p ← proposal r; Some (h, p).
Definition contains {E} (c : Content) (idx : Z) (r : Round) : result E bool :=
  match c with
  | Echo h => Ok match echoes r !! h with Some m => bool_decide (is_Some (m !! idx)) | None => false end
  | Vote v => s ← expect (vec_get (votes r v) idx); Ok (bool_decide (is_Some s))
  end.
Definition prune_skipped (r : Round) : Round :=
  set_outcome (mkRoundOutcome None (quorum_echoes (outcome r)) (quorum_votes (outcome r))) (set_proposal None r).

(** [keys_some]. *)
Definition keys_some {A} (l : list (option A)) : list Z := omap (fun p => (fun _ => p.1) <$> p.2) (enumerate l).

(** ** Parameters, configuration, outcomes *)

Record Params : Type := mkParams {
  params_instance_id : InstanceId;
  min_block_time : Z;
  start_timestamp : Z;
  end_height : Z;
  end_timestamp : Z;
  params_ftt : Z
}.

Record Config : Type := mkConfig {
  sync_state_interval : option Z;
  log_participation_interval : option Z;
  proposal_timeout : Z;
  proposal_grace_period : Z;
  proposal_timeout_inertia : Z;
  clock_tolerance : Z
}.

Record TerminalBlockData : Type := mkTerminalBlockData { inactive_validators : list ValidatorId }.
Record FinalizedBlock : Type := mkFinalizedBlock {
  fb_value : ConsensusValue;
  fb_timestamp : Z;
  relative_height : Z;
  equivocators : list ValidatorId;
  terminal_block_data : option TerminalBlockData;
  proposer : ValidatorId
}.

(** The payload of a message outcome is the message itself. *)
Inductive ProtocolOutcome : Type :=
| CreatedGossipMessage (m : Message)
| CreatedTargetedMessage (m : Message) (node : NodeId)
| CreatedMessageToRandomPeer (m : Message)
| CreatedRequestToRandomValidator (r : SyncRequest)
| ScheduleTimer (ts timer_id : Z)
| QueueAction (action_id : Z)
| CreateNewBlock (c : BlockContext) (ts : Z)
| O_FinalizedBlock (b : FinalizedBlock)
| ValidateConsensusValue (sender : NodeId) (b : ProposedBlock)
| NewEvidence (vid : ValidatorId)
| SendEvidence (node : NodeId) (vid : ValidatorId)
| WeAreFaulty
| DoppelgangerDetected
| FttExceeded
| Disconnect (node : NodeId)
| HandledProposedBlock (b : ProposedBlock).

Record ActiveValidator : Type := mkActiveValidator { idx : Z; secret : ValidatorSecret }.
End types.
Abbreviation Content := (ContentOf Hash).
Abbreviation Proposal := (ProposalOf ConsensusValue).
