(* ===== verification/Zug.v ===== *)
(** * The Zug consensus protocol: one instance

    [node/src/components/consensus/protocols/zug.rs]: the state of a protocol instance and
    every handler of the [ConsensusProtocol] trait. Methods on [&mut self] are computations
    over the state; a sender that must be disconnected ([FaultySender]) is the error.

    Next to the fields of the struct the state holds the write-ahead log on disk, as the
    complete entries that a reader finds in it (Wal.v), and what the device will answer to
    the next writes. Log output is left out. *)
From S2P Require Import Prelude Effects BTree Validators ZugTypes.

Open Scope Z_scope.

(** What happens to an entry that is recorded: it is written; or an error is reported, after
    which the entry may still be complete on disk. *)
Inductive WalIo : Type := IoWritten | IoFailed (complete : bool).

(** The standard library's binary search and the ChaCha generator of the leader sequence. *)
Class LeaderRng : Type := mkLeaderRng { std_binary_search : list Z -> Z -> Search; chacha_range : Z -> Z -> Z }.

Definition TIMER_ID_SYNC_PEER : Z := 0.
Definition TIMER_ID_UPDATE : Z := 1.
Definition TIMER_ID_LOG_PARTICIPATION : Z := 2.
Definition MAX_FUTURE_ROUNDS : Z := 7200.
Definition ONE_MIN : Z := 60000.
Definition U32_MAX : Z := u_max 32.

Section zug.
Context {C : Context} {F : F64} {R : LeaderRng}.

(** The fields that are never assigned after construction. *)
Record Setup : Type := mkSetup {
  params : Params;
  config : Config;
  validator_set : Validators ValidatorId;
  leader_sequence : LeaderSequence
}.

Record Zug : Type := mkZug {
  setup : Setup;
  proposal_timeout_millis : f64;
  active_validator : option ActiveValidator;
  evidence_only : bool;
  proposals_waiting_for_parent : gmap Z (list (HashedProposal * list (Z * NodeId)));
  proposals_waiting_for_validation : list (ProposedBlock * list (Z * HashedProposal * NodeId));
  pending_proposal : option (BlockContext * Z * option Z);
  rounds : gmap Z Round;
  faults : gmap Z Fault;
  active : list (option SignedMessage);
  first_non_finalized_round_id : Z;
  maybe_dirty_round_id : option Z;
  current_round : Z;
  current_round_start : Z;
  progress_detected : bool;
  paused : bool;
  next_scheduled_update : Z;
  write_wal : bool;
  sent_sync_requests : gmap Z Z;
  wal_file : list ZugWalEntry;
  wal_io : list WalIo
}.

Definition set_proposal_timeout_millis (x : f64) (z : Zug) : Zug :=
  mkZug (setup z) x (active_validator z) (evidence_only z) (proposals_waiting_for_parent z) (proposals_waiting_for_validation z) (pending_proposal z) (rounds z) (faults z) (active z) (first_non_finalized_round_id z) (maybe_dirty_round_id z) (current_round z) (current_round_start z) (progress_detected z) (paused z) (next_scheduled_update z) (write_wal z) (sent_sync_requests z) (wal_file z) (wal_io z).
Definition set_active_validator (x : option ActiveValidator) (z : Zug) : Zug :=
  mkZug (setup z) (proposal_timeout_millis z) x (evidence_only z) (proposals_waiting_for_parent z) (proposals_waiting_for_validation z) (pending_proposal z) (rounds z) (faults z) (active z) (first_non_finalized_round_id z) (maybe_dirty_round_id z) (current_round z) (current_round_start z) (progress_detected z) (paused z) (next_scheduled_update z) (write_wal z) (sent_sync_requests z) (wal_file z) (wal_io z).
Definition set_evidence_only (x : bool) (z : Zug) : Zug :=
  mkZug (setup z) (proposal_timeout_millis z) (active_validator z) x (proposals_waiting_for_parent z) (proposals_waiting_for_validation z) (pending_proposal z) (rounds z) (faults z) (active z) (first_non_finalized_round_id z) (maybe_dirty_round_id z) (current_round z) (current_round_start z) (progress_detected z) (paused z) (next_scheduled_update z) (write_wal z) (sent_sync_requests z) (wal_file z) (wal_io z).
Definition set_proposals_waiting_for_parent (x : gmap Z (list (HashedProposal * list (Z * NodeId)))) (z : Zug) : Zug :=
  mkZug (setup z) (proposal_timeout_millis z) (active_validator z) (evidence_only z) x (proposals_waiting_for_validation z) (pending_proposal z) (rounds z) (faults z) (active z) (first_non_finalized_round_id z) (maybe_dirty_round_id z) (current_round z) (current_round_start z) (progress_detected z) (paused z) (next_scheduled_update z) (write_wal z) (sent_sync_requests z) (wal_file z) (wal_io z).
Definition set_proposals_waiting_for_validation (x : list (ProposedBlock * list (Z * HashedProposal * NodeId))) (z : Zug) : Zug :=
  mkZug (setup z) (proposal_timeout_millis z) (active_validator z) (evidence_only z) (proposals_waiting_for_parent z) x (pending_proposal z) (rounds z) (faults z) (active z) (first_non_finalized_round_id z) (maybe_dirty_round_id z) (current_round z) (current_round_start z) (progress_detected z) (paused z) (next_scheduled_update z) (write_wal z) (sent_sync_requests z) (wal_file z) (wal_io z).
Definition set_pending_proposal (x : option (BlockContext * Z * option Z)) (z : Zug) : Zug :=
  mkZug (setup z) (proposal_timeout_millis z) (active_validator z) (evidence_only z) (proposals_waiting_for_parent z) (proposals_waiting_for_validation z) x (rounds z) (faults z) (active z) (first_non_finalized_round_id z) (maybe_dirty_round_id z) (current_round z) (current_round_start z) (progress_detected z) (paused z) (next_scheduled_update z) (write_wal z) (sent_sync_requests z) (wal_file z) (wal_io z).
Definition set_rounds (x : gmap Z Round) (z : Zug) : Zug :=
  mkZug (setup z) (proposal_timeout_millis z) (active_validator z) (evidence_only z) (proposals_waiting_for_parent z) (proposals_waiting_for_validation z) (pending_proposal z) x (faults z) (active z) (first_non_finalized_round_id z) (maybe_dirty_round_id z) (current_round z) (current_round_start z) (progress_detected z) (paused z) (next_scheduled_update z) (write_wal z) (sent_sync_requests z) (wal_file z) (wal_io z).
Definition set_faults (x : gmap Z Fault) (z : Zug) : Zug :=
  mkZug (setup z) (proposal_timeout_millis z) (active_validator z) (evidence_only z) (proposals_waiting_for_parent z) (proposals_waiting_for_validation z) (pending_proposal z) (rounds z) x (active z) (first_non_finalized_round_id z) (maybe_dirty_round_id z) (current_round z) (current_round_start z) (progress_detected z) (paused z) (next_scheduled_update z) (write_wal z) (sent_sync_requests z) (wal_file z) (wal_io z).
Definition set_active (x : list (option SignedMessage)) (z : Zug) : Zug :=
  mkZug (setup z) (proposal_timeout_millis z) (active_validator z) (evidence_only z) (proposals_waiting_for_parent z) (proposals_waiting_for_validation z) (pending_proposal z) (rounds z) (faults z) x (first_non_finalized_round_id z) (maybe_dirty_round_id z) (current_round z) (current_round_start z) (progress_detected z) (paused z) (next_scheduled_update z) (write_wal z) (sent_sync_requests z) (wal_file z) (wal_io z).
Definition set_first_non_finalized_round_id (x : Z) (z : Zug) : Zug :=
  mkZug (setup z) (proposal_timeout_millis z) (active_validator z) (evidence_only z) (proposals_waiting_for_parent z) (proposals_waiting_for_validation z) (pending_proposal z) (rounds z) (faults z) (active z) x (maybe_dirty_round_id z) (current_round z) (current_round_start z) (progress_detected z) (paused z) (next_scheduled_update z) (write_wal z) (sent_sync_requests z) (wal_file z) (wal_io z).
Definition set_maybe_dirty_round_id (x : option Z) (z : Zug) : Zug :=
  mkZug (setup z) (proposal_timeout_millis z) (active_validator z) (evidence_only z) (proposals_waiting_for_parent z) (proposals_waiting_for_validation z) (pending_proposal z) (rounds z) (faults z) (active z) (first_non_finalized_round_id z) x (current_round z) (current_round_start z) (progress_detected z) (paused z) (next_scheduled_update z) (write_wal z) (sent_sync_requests z) (wal_file z) (wal_io z).
Definition set_current_round (x : Z) (z : Zug) : Zug :=
  mkZug (setup z) (proposal_timeout_millis z) (active_validator z) (evidence_only z) (proposals_waiting_for_parent z) (proposals_waiting_for_validation z) (pending_proposal z) (rounds z) (faults z) (active z) (first_non_finalized_round_id z) (maybe_dirty_round_id z) x (current_round_start z) (progress_detected z) (paused z) (next_scheduled_update z) (write_wal z) (sent_sync_requests z) (wal_file z) (wal_io z).
Definition set_current_round_start (x : Z) (z : Zug) : Zug :=
  mkZug (setup z) (proposal_timeout_millis z) (active_validator z) (evidence_only z) (proposals_waiting_for_parent z) (proposals_waiting_for_validation z) (pending_proposal z) (rounds z) (faults z) (active z) (first_non_finalized_round_id z) (maybe_dirty_round_id z) (current_round z) x (progress_detected z) (paused z) (next_scheduled_update z) (write_wal z) (sent_sync_requests z) (wal_file z) (wal_io z).
Definition set_progress_detected (x : bool) (z : Zug) : Zug :=
  mkZug (setup z) (proposal_timeout_millis z) (active_validator z) (evidence_only z) (proposals_waiting_for_parent z) (proposals_waiting_for_validation z) (pending_proposal z) (rounds z) (faults z) (active z) (first_non_finalized_round_id z) (maybe_dirty_round_id z) (current_round z) (current_round_start z) x (paused z) (next_scheduled_update z) (write_wal z) (sent_sync_requests z) (wal_file z) (wal_io z).
Definition set_paused (x : bool) (z : Zug) : Zug :=
  mkZug (setup z) (proposal_timeout_millis z) (active_validator z) (evidence_only z) (proposals_waiting_for_parent z) (proposals_waiting_for_validation z) (pending_proposal z) (rounds z) (faults z) (active z) (first_non_finalized_round_id z) (maybe_dirty_round_id z) (current_round z) (current_round_start z) (progress_detected z) x (next_scheduled_update z) (write_wal z) (sent_sync_requests z) (wal_file z) (wal_io z).
Definition set_next_scheduled_update (x : Z) (z : Zug) : Zug :=
  mkZug (setup z) (proposal_timeout_millis z) (active_validator z) (evidence_only z) (proposals_waiting_for_parent z) (proposals_waiting_for_validation z) (pending_proposal z) (rounds z) (faults z) (active z) (first_non_finalized_round_id z) (maybe_dirty_round_id z) (current_round z) (current_round_start z) (progress_detected z) (paused z) x (write_wal z) (sent_sync_requests z) (wal_file z) (wal_io z).
Definition set_write_wal (x : bool) (z : Zug) : Zug :=
  mkZug (setup z) (proposal_timeout_millis z) (active_validator z) (evidence_only z) (proposals_waiting_for_parent z) (proposals_waiting_for_validation z) (pending_proposal z) (rounds z) (faults z) (active z) (first_non_finalized_round_id z) (maybe_dirty_round_id z) (current_round z) (current_round_start z) (progress_detected z) (paused z) (next_scheduled_update z) x (sent_sync_requests z) (wal_file z) (wal_io z).
Definition set_sent_sync_requests (x : gmap Z Z) (z : Zug) : Zug :=
  mkZug (setup z) (proposal_timeout_millis z) (active_validator z) (evidence_only z) (proposals_waiting_for_parent z) (proposals_waiting_for_validation z) (pending_proposal z) (rounds z) (faults z) (active z) (first_non_finalized_round_id z) (maybe_dirty_round_id z) (current_round z) (current_round_start z) (progress_detected z) (paused z) (next_scheduled_update z) (write_wal z) x (wal_file z) (wal_io z).
Definition set_wal_file (x : list ZugWalEntry) (z : Zug) : Zug :=
  mkZug (setup z) (proposal_timeout_millis z) (active_validator z) (evidence_only z) (proposals_waiting_for_parent z) (proposals_waiting_for_validation z) (pending_proposal z) (rounds z) (faults z) (active z) (first_non_finalized_round_id z) (maybe_dirty_round_id z) (current_round z) (current_round_start z) (progress_detected z) (paused z) (next_scheduled_update z) (write_wal z) (sent_sync_requests z) x (wal_io z).
Definition set_wal_io (x : list WalIo) (z : Zug) : Zug :=
  mkZug (setup z) (proposal_timeout_millis z) (active_validator z) (evidence_only z) (proposals_waiting_for_parent z) (proposals_waiting_for_validation z) (pending_proposal z) (rounds z) (faults z) (active z) (first_non_finalized_round_id z) (maybe_dirty_round_id z) (current_round z) (current_round_start z) (progress_detected z) (paused z) (next_scheduled_update z) (write_wal z) (sent_sync_requests z) (wal_file z) x.

Abbreviation M := (st Zug NodeId).
Abbreviation Outcomes := (list ProtocolOutcome).

(** ** Loops *)

Definition get : M Zug := asks (fun z => z).
(** A loop over a list whose body returns outcomes. *)
Fixpoint for_each {A} (l : list A) (f : A -> M Outcomes) : M Outcomes :=
  match l with
  | [] => mret []
  | a :: l => o ← f a; os ← for_each l f; mret (o ++ os)
  end.
(** [any] with a condition that changes the state. *)
Fixpoint any {A} (l : list A) (f : A -> M bool) : M bool :=
  match l with
  | [] => mret false
  | a :: l => b ← f a; if b : bool then mret true else any l f
  end.
(** At most [n] iterations of a body that says whether to go on. *)
Fixpoint loop {A B} (n : positive) (body : A -> M (A + B)) (a : A) : M (A + B) :=
  match n with
  | xH => body a
  | xO n =>
      r ← loop n body a;
      match r with inl a => loop n body a | inr b => mret (inr b) end
  | xI n =>
      r ← body a;
      match r with
      | inl a =>
          r ← loop n body a;
          match r with inl a => loop n body a | inr b => mret (inr b) end
      | inr b => mret (inr b)
      end
  end.

(** ** Reading the state *)

Definition instance (z : Zug) : InstanceId := params_instance_id (params (setup z)).
Definition vset (z : Zug) : Validators ValidatorId := validator_set (setup z).
Definition round (z : Zug) (r : Z) : option Round := rounds z !! r.
Definition seq_leader (z : Zug) (r : Z) : result NodeId Z :=
  match leader std_binary_search chacha_range (leader_sequence (setup z)) r with Ok v => Ok v | _ => Panic end.
Definition leader_of (z : Zug) (r : Z) : result NodeId Z :=
  match round z r with Some rd => Ok (leader_idx rd) | None => seq_leader z r end.

Definition round_accepted (z : Zug) (r : Z) : option (Z * HashedProposal) := rd ← round z r; accepted_proposal rd.
Definition has_accepted_proposal (z : Zug) (r : Z) : bool := bool_decide (is_Some (round_accepted z r)).
Definition is_skippable_round (z : Zug) (r : Z) : bool := bool_decide ((rd ← round z r; quorum_votes (outcome rd)) = Some false).
Definition is_committed_round (z : Zug) (r : Z) : bool := bool_decide ((rd ← round z r; quorum_votes (outcome rd)) = Some true).

Definition accepted_switch_block (z : Zug) (r : Z) : bool :=
  match round_accepted z r with
  | None => false
  | Some (height, p) =>
      bool_decide (is_Some (maybe_block (inner p))) &&
      (end_height (params (setup z)) <=? saturating_add 64 height 1) &&
      (end_timestamp (params (setup z)) <=? timestamp (inner p))
  end.
Definition accepted_dummy_proposal (z : Zug) (r : Z) : bool :=
  match round_accepted z r with
  | None => false
  | Some (_, p) => bool_decide (maybe_block (inner p) = None)
  end.
Definition finalized_switch_block (z : Zug) : bool :=
  match checked_sub 32 (first_non_finalized_round_id z) 1 with
  | Some r => accepted_switch_block z r || accepted_dummy_proposal z r
  | None => false
  end.
Definition zug_has_echoed (z : Zug) (r idx : Z) : bool :=
  match round z r with Some rd => has_echoed idx rd | None => false end.
Definition zug_has_voted (z : Zug) (r idx : Z) : result NodeId bool :=
  match round z r with Some rd => has_voted idx rd | None => Ok false end.

(** *** Weights and quorums *)

(** [Sum for Weight] adds [u64]s. *)
Definition sum_weights (z : Zug) (vidxs : list Z) : result NodeId Z :=
  foldl (fun acc v => acc ← acc; w ← expect (weight_of (vset z) v); expect (checked_add 64 acc w)) (Ok 0) vidxs.
Definition faulty_weight (z : Zug) : result NodeId Z := sum_weights z ((map_to_list (faults z)).*1).
Definition quorum_threshold (z : Zug) : Z :=
  let total := total_weight (vset z) in
  let ftt := params_ftt (params (setup z)) in
  let sum := as_u64 (total + ftt) in
  if 2 ^ 64 <=? total + ftt then Z.lor (sum / 2) (2 ^ 63) else sum / 2.
Fixpoint quorum_from (z : Zug) (threshold : Z) (vidxs : list Z) (sum : Z) : result NodeId bool :=
  match vidxs with
  | [] => Ok false
  | v :: vidxs =>
      if decide (is_Some (faults z !! v)) then quorum_from z threshold vidxs sum else
      w ← expect (weight_of (vset z) v);
      let sum := saturating_add 64 sum w in
      if threshold <? sum then Ok true else quorum_from z threshold vidxs sum
  end.
Definition is_quorum (z : Zug) (vidxs : list Z) : result NodeId bool :=
  sum ← faulty_weight z;
  let threshold := quorum_threshold z in
  if threshold <? sum then Ok true else quorum_from z threshold vidxs sum.

(** ** Changing a round *)

(** [round_mut] creates the round when it does not exist yet. *)
Definition round_mut (r : Z) : M Round :=
  z ← get;
  match round z r with
  | Some rd => mret rd
  | None =>
      l ← lift (seq_leader z r);
      let rd := round_new (len (vset z)) l in
      _ ← modify (fun z => set_rounds (<[r := rd]> (rounds z)) z);
      mret rd
  end.
Definition create_round (r : Z) : M () := _ ← round_mut r; mret ().
Definition put_round (r : Z) (rd : Round) : M () := modify (fun z => set_rounds (<[r := rd]> (rounds z)) z).
(** A method call on [self.round_mut(r)]. *)
Definition on_round {A} (r : Z) (f : Round -> result NodeId (A * Round)) : M A :=
  rd ← round_mut r;
  res ← lift (f rd);
  _ ← put_round r res.2;
  mret res.1.

Definition mark_dirty (r : Z) : M () :=
  modify (fun z =>
    if (r <=? current_round z) && match maybe_dirty_round_id z with None => true | Some r' => r <? r' end
    then set_maybe_dirty_round_id (Some r) z else z).

Definition check_new_echo_quorum (r : Z) (h : Hash) : M bool :=
  z ← get;
  match round z r with
  | None => mret false
  | Some rd =>
      if bool_decide (is_Some (quorum_echoes (outcome rd))) then mret false else
      echo_map ← lift (expect (echoes rd !! h));
      q ← lift (is_quorum z (map_to_list echo_map).*1);
      if q : bool then
        _ ← on_round r (fun rd => Ok ((), set_quorum_echoes h rd));
        mret true
      else mret false
  end.
Definition check_new_vote_quorum (r : Z) (vote : bool) : M bool :=
  z ← get;
  match round z r with
  | None => mret false
  | Some rd =>
      if bool_decide (is_Some (quorum_votes (outcome rd))) then mret false else
      q ← lift (is_quorum z (keys_some (votes rd vote)));
      if q : bool then
        _ ← on_round r (fun rd => Ok ((), set_quorum_votes vote rd));
        mret true
      else mret false
  end.

(** ** The write-ahead log *)

Definition record_entry (e : ZugWalEntry) : M bool :=
  z ← get;
  if write_wal z then
    let io := default IoWritten (head (wal_io z)) in
    _ ← modify (fun z => set_wal_io (tail (wal_io z)) z);
    match io with
    | IoWritten =>
        _ ← modify (fun z => set_wal_file (wal_file z ++ [e]) z);
        mret true
    | IoFailed complete =>
        _ ← modify (fun z => set_wal_file (wal_file z ++ if complete then [e] else []) z);
        _ ← modify (set_active_validator None);
        _ ← modify (set_write_wal false);
        mret false
    end
  else mret false.

(** ** Signed messages *)

Definition add_content (m : SignedMessage) : M bool :=
  z ← get;
  old ← lift (expect (vec_get (active z) (validator_idx m)));
  _ ← (if match old with None => true | Some old => round_id old <? round_id m end then
         _ ← (if bool_decide (old = None) then mark_dirty (first_non_finalized_round_id z) else mret ());
         modify (fun z => set_active (vec_set (validator_idx m) (Some m) (active z)) z)
       else mret ());
  match content m with
  | Echo h =>
      inserted ← on_round (round_id m) (fun rd => Ok (insert_echo h (validator_idx m) (signature m) rd));
      if inserted : bool then
        _ ← modify (set_progress_detected true);
        q ← check_new_echo_quorum (round_id m) h;
        _ ← (if q : bool then mark_dirty (round_id m) else mret ());
        mret true
      else mret false
  | Vote v =>
      inserted ← on_round (round_id m) (insert_vote v (validator_idx m) (signature m));
      if inserted : bool then
        _ ← modify (set_progress_detected true);
        q ← check_new_vote_quorum (round_id m) v;
        _ ← (if q : bool then mark_dirty (round_id m) else mret ());
        mret true
      else mret false
  end.

Definition create_message (r : Z) (c : Content) : M (option SignedMessage) :=
  z ← get;
  match active_validator z with
  | None => mret None
  | Some av =>
      if paused z then mret None else
      already_signed ← lift (match c with
                             | Echo _ => Ok (zug_has_echoed z r (idx av))
                             | Vote _ => zug_has_voted z r (idx av)
                             end);
      if already_signed : bool then mret None else
      let m := sign_new r (instance z) c (idx av) (secret av) in
      recorded ← record_entry (W_SignedMessage m);
      if recorded : bool then
        added ← add_content m;
        mret (if added : bool then Some m else None)
      else mret None
  end.
Definition create_and_gossip_message (r : Z) (c : Content) : M Outcomes :=
  m ← create_message r c;
  mret (match m with Some m => [CreatedGossipMessage (M_Signed m)] | None => [] end).

(** If there is a signature for conflicting content, the content and signature. *)
Definition other_echo (h : Hash) (idx : Z) (p : Hash * gmap Z Signature) : option (Content * Signature) :=
  if decide (p.1 = h) then None else match p.2 !! idx with Some s => Some (Echo p.1, s) | None => None end.
Definition detect_fault {HO : HashOrder} (z : Zug) (m : SignedMessage) : result NodeId (option (Content * Signature)) :=
  match round z (round_id m) with
  | None => Ok None
  | Some rd =>
      match content m with
      | Echo h =>
          Ok (head (omap (other_echo h (validator_idx m)) (hash_order (map_to_list (echoes rd)))))
      | Vote v =>
          s ← expect (vec_get (votes rd (negb v)) (validator_idx m));
          Ok (match s with Some s => Some (Vote (negb v), s) | None => None end)
      end
  end.

(** ** Timing *)

Definition schedule_update (ts : Z) : M Outcomes :=
  z ← get;
  if ts <? next_scheduled_update z then
    _ ← modify (set_next_scheduled_update ts);
    mret [ScheduleTimer ts TIMER_ID_UPDATE]
  else mret [].
Definition current_proposal_timeout (z : Zug) : Z := f64_as_u64 (proposal_timeout_millis z).
Definition update_proposal_timeout (now : Z) : M () :=
  modify (fun z =>
    let cfg := config (setup z) in
    let proposal_delay_millis := f64_of (saturating_sub now (current_round_start z)) in
    let grace_period_factor := f64_add (f64_div (f64_of (proposal_grace_period cfg)) (f64_of 100)) (f64_of 1) in
    let target_timeout := f64_mul proposal_delay_millis grace_period_factor in
    let inertia := f64_of (proposal_timeout_inertia cfg) in
    let ftt := f64_div (f64_of (params_ftt (params (setup z)))) (f64_of (total_weight (vset z))) in
    let old := proposal_timeout_millis z in
    let new :=
      if f64_gt target_timeout old then
        f64_min (f64_mul old (f64_exp2 (f64_div (f64_of 1) (f64_mul inertia (f64_sub (f64_of 1) ftt))))) target_timeout
      else
        f64_max (f64_mul old (f64_exp2 (f64_div (f64_opp (f64_of 1)) (f64_mul inertia (f64_add (f64_of 1) ftt)))))
          (f64_max (f64_of (proposal_timeout cfg)) target_timeout) in
    set_proposal_timeout_millis new z).

(** ** Proposals *)

(** The values of the accepted proposal and its ancestors, latest first. The parent is in an
    earlier round, so the rounds up to [r] bound the loop. *)
Fixpoint ancestor_values_from (fuel : nat) (z : Zug) (r : Z) : result NodeId (option (list ConsensusValue)) :=
  match fuel with
  | O => Diverge
  | S fuel =>
      match round_accepted z r with
      | None => Ok None
      | Some (_, p) =>
          match maybe_parent_round_id (inner p) with
          | None => Ok (Some (option_list (maybe_block (inner p))))
          | Some parent =>
              vs ← ancestor_values_from fuel z parent;
              Ok (match vs with Some vs => Some (option_list (maybe_block (inner p)) ++ vs) | None => None end)
          end
      end
  end.
Definition zug_ancestor_values (z : Zug) (r : Z) := ancestor_values_from (S (Z.to_nat r)) z r.

Fixpoint alist_add {K A} `{EqDecision K, EqDecision A} (k : K) (a : A) (l : list (K * list A)) : list (K * list A) :=
  match l with
  | [] => [(k, [a])]
  | (k', s) :: l => if decide (k = k') then (k', if decide (a ∈ s) then s else s ++ [a]) :: l else (k', s) :: alist_add k a l
  end.
Definition alist_get {K A} `{EqDecision K} (k : K) (l : list (K * list A)) : list A :=
  match list_find (fun p => p.1 = k) l with Some (_, p) => p.2 | None => [] end.
Definition alist_remove {K A} `{EqDecision K} (k : K) (l : list (K * list A)) : list (K * list A) :=
  filter (fun p => p.1 <> k) l.

Definition validate_proposal (r : Z) (p : HashedProposal) (ancestors : list ConsensusValue) (sender : NodeId) : M Outcomes :=
  z ← get;
  if timestamp (inner p) <? start_timestamp (params (setup z)) then mret [] else
  let rejected :=
    match (parent ← maybe_parent_round_id (inner p); round_accepted z parent) with
    | None => false
    | Some (_, parent) =>
        if timestamp (inner p) <? saturating_add 64 (timestamp (inner parent)) (min_block_time (params (setup z))) then true else
        match inactive (inner p), inactive (inner parent) with
        | Some i, Some parent_i => bool_decide (~ i ⊆ parent_i)
        | _, _ => false
        end
    end in
  if rejected then mret [] else
  let block_context := mkBlockContext (timestamp (inner p)) ancestors in
  match (block ← maybe_block (inner p); if needs_validation block then Some block else None) with
  | Some block =>
      let proposed_block := mkProposedBlock block block_context in
      if decide ((r, p, sender) ∈ alist_get proposed_block (proposals_waiting_for_validation z)) then mret [] else
      _ ← modify (fun z => set_proposals_waiting_for_validation
                             (alist_add proposed_block (r, p, sender) (proposals_waiting_for_validation z)) z);
      mret [ValidateConsensusValue sender proposed_block]
  | None =>
      inserted ← on_round r (fun rd => Ok (insert_proposal p rd));
      if inserted : bool then
        _ ← record_entry (W_Proposal (inner p) r);
        _ ← modify (set_progress_detected true);
        _ ← mark_dirty r;
        mret (match maybe_block (inner p) with
              | Some block => [HandledProposedBlock (mkProposedBlock block block_context)]
              | None => []
              end)
      else mret []
  end.

(** Marks the proposal as accepted when its parent is, a quorum has echoed it, every validator
    it claims to be active was seen, and all rounds since the parent's are skippable. *)
Definition update_accepted_proposal (r : Z) : M bool :=
  z ← get;
  if has_accepted_proposal z r then mret false else
  match (rd ← round z r; proposal rd) with
  | None => mret false
  | Some p =>
      if bool_decide ((rd ← round z r; quorum_echoes (outcome rd)) <> Some (hash p)) then mret false else
      all_seen ← lift (match inactive (inner p) with
                       | None => Ok true
                       | Some i =>
                           foldr (fun e acc =>
                             if decide (e.1 ∈ i) then acc else
                             seen ← expect (vec_get (active z) e.1);
                             if bool_decide (seen = None /\ faults z !! e.1 = None) then Ok false else acc)
                             (Ok true) (enumerate_ids (vset z))
                       end);
      if negb all_seen then mret false else
      match (match maybe_parent_round_id (inner p) with
             | Some parent => '(h, _) ← round_accepted z parent; Some (saturating_add 32 parent 1, saturating_add 64 h 1)
             | None => Some (0, 0)
             end) with
      | None => mret false
      | Some (first_skipped, rel_height) =>
          if forallb (is_skippable_round z) (seqZ first_skipped (r - first_skipped)) then
            _ ← on_round r (fun rd => Ok ((), set_accepted_proposal_height rel_height rd));
            mret true
          else mret false
      end
  end.

(** ** Finalization *)

Definition finalized_block (z : Zug) (r height : Z) (p : HashedProposal) (block : ConsensusValue) (proposer : ValidatorId) : FinalizedBlock :=
  mkFinalizedBlock block (timestamp (inner p)) height []
    (if accepted_switch_block z r then
       Some (mkTerminalBlockData match inactive (inner p) with Some i => omap (id_of (vset z)) (merge_sort Z.le (elements i)) | None => [] end)
     else None)
    proposer.

(** The parent is finalized first; its round is earlier, so the round number bounds the depth. *)
Fixpoint finalize_round_from (fuel : nat) (r : Z) : M Outcomes :=
  match fuel with
  | O => lift Diverge
  | S fuel =>
      z ← get;
      if r <? first_non_finalized_round_id z then mret [] else
      match round_accepted z r with
      | None => mret []
      | Some (height, p) =>
          outcomes ← match maybe_parent_round_id (inner p) with
                     | Some parent => finalize_round_from fuel parent
                     | None => mret []
                     end;
          z ← get;
          _ ← for_each (seqZ (first_non_finalized_round_id z) (r - first_non_finalized_round_id z))
                (fun pr => _ ← on_round pr (fun rd => Ok ((), prune_skipped rd)); mret []);
          _ ← modify (set_first_non_finalized_round_id (saturating_add 32 r 1));
          match maybe_block (inner p) with
          | None => mret outcomes
          | Some block =>
              z ← get;
              l ← lift (leader_of z r);
              proposer ← lift (expect (id_of (vset z) l));
              mret (outcomes ++ [O_FinalizedBlock (finalized_block z r height p block proposer)])
          end
      end
  end.
Definition finalize_round (r : Z) : M Outcomes := finalize_round_from (S (Z.to_nat r)) r.

(** ** Proposing *)

(** Creates the echo and inserts the proposal of the current round's leader. *)
Definition create_echo_and_proposal (p : Proposal) : M Outcomes :=
  z ← get;
  let r := current_round z in
  let hashed_prop := hashed_proposal_new p in
  echo ← create_message r (Echo (hash hashed_prop));
  match echo with
  | None => mret []
  | Some echo =>
      let prop_msg := M_Proposal r (instance z) p echo in
      recorded ← record_entry (W_Proposal p r);
      if negb recorded then mret [] else
      inserted ← on_round r (fun rd => Ok (insert_proposal hashed_prop rd));
      if inserted : bool then
        _ ← mark_dirty r;
        mret [CreatedGossipMessage prop_msg]
      else mret []
  end.

Definition propose_if_leader (maybe_parent : option Z) (now : Z) : M Outcomes :=
  z ← get;
  l ← lift (match active_validator z with Some _ => leader_of z (current_round z) | None => Ok 0 end);
  if negb (match active_validator z with Some av => idx av =? l | None => false end) then mret [] else
  if match pending_proposal z with Some (_, r, _) => r =? current_round z | None => false end then mret [] else
  rd ← round_mut (current_round z);
  if bool_decide (is_Some (proposal rd)) then mret [] else
  z ← get;
  let request (ancestors : list ConsensusValue) : M Outcomes :=
    let block_context := mkBlockContext now ancestors in
    _ ← modify (set_pending_proposal (Some (block_context, current_round z, maybe_parent)));
    mret [CreateNewBlock block_context (saturating_add 64 now (current_proposal_timeout z))] in
  match maybe_parent with
  | Some parent =>
      if accepted_switch_block z parent || accepted_dummy_proposal z parent then create_echo_and_proposal (dummy now parent) else
      ancestors ← lift (zug_ancestor_values z parent);
      ancestors ← lift (expect ancestors);
      request ancestors
  | None => request []
  end.

(** The rounds below the current one, highest first. *)
Fixpoint suitable_parent_from (z : Zug) (now : Z) (rs : list Z) (maybe_parent : option (option Z * Z)) : option (option Z * Z) :=
  match rs with
  | [] => Some (None, start_timestamp (params (setup z)))
  | r :: rs =>
      let continue (maybe_parent : option (option Z * Z)) :=
        if negb (is_skippable_round z r) then maybe_parent else suitable_parent_from z now rs maybe_parent in
      match round_accepted z r with
      | None => continue maybe_parent
      | Some (_, parent) =>
          let ts := saturating_add 64 (timestamp (inner parent)) (min_block_time (params (setup z))) in
          if ts <=? now then Some (Some r, ts) else
          continue (if match maybe_parent with None => true | Some (_, ts2) => ts <? ts2 end then Some (Some r, ts) else maybe_parent)
      end
  end.
Definition suitable_parent_round (z : Zug) (now : Z) : option (option Z * Z) :=
  suitable_parent_from z now (reverse (seqZ 0 (current_round z))) None.

(** ** The update after a change *)

Section update.
Context {HO : HashOrder}.

(** The proposals that waited for the parent in round [r]. *)
Definition validate_waiting (r : Z) : M Outcomes :=
  z ← get;
  match proposals_waiting_for_parent z !! r with
  | None => mret []
  | Some proposals =>
      _ ← modify (fun z => set_proposals_waiting_for_parent (delete r (proposals_waiting_for_parent z)) z);
      z ← get;
      ancestors ← lift (zug_ancestor_values z r);
      ancestors ← lift (expect ancestors);
      for_each (hash_order proposals) (fun e =>
        for_each (hash_order e.2) (fun rs => validate_proposal rs.1 e.1 ancestors rs.2))
  end.

(** The part of [update_round] for the current round; [voted] says whether a vote was due. *)
Definition update_current_round (r now : Z) (voted : bool) : M Outcomes :=
  z ← get;
  l ← lift (leader_of z r);
  '(o1, voted) ←
    (if saturating_add 64 (current_round_start z) (current_proposal_timeout z) <=? now then
       msg ← create_and_gossip_message r (Vote false);
       _ ← (if bool_decide (msg = []) then mret () else update_proposal_timeout now);
       mret (msg, true)
     else if bool_decide (is_Some (faults z !! l)) then
       msg ← create_and_gossip_message r (Vote false);
       mret (msg, true)
     else mret ([], voted) : M (Outcomes * bool));
  z ← get;
  o2 ←
    (if is_skippable_round z r || has_accepted_proposal z r then
       _ ← modify (set_current_round_start TIMESTAMP_MAX);
       _ ← modify (set_current_round (saturating_add 32 (current_round z) 1));
       mret []
     else match suitable_parent_round z now with
          | None => mret []
          | Some (maybe_parent, ts) =>
              if now <? ts then schedule_update ts
              else if now <? current_round_start z then
                _ ← modify (set_current_round_start now);
                o ← propose_if_leader maybe_parent now;
                z ← get;
                let current_timeout := saturating_add 64 (current_round_start z) (current_proposal_timeout z) in
                o' ← (if now <? current_timeout then schedule_update current_timeout else mret []);
                mret (o ++ o')
              else if negb voted then schedule_update (saturating_add 64 now (current_proposal_timeout z))
              else mret []
          end);
  mret (o1 ++ o2).

Definition update_round (r now : Z) : M Outcomes :=
  _ ← create_round r;
  z ← get;
  o1 ← match (rd ← round z r; proposal rd) with
       | Some p => create_and_gossip_message r (Echo (hash p))
       | None => mret []
       end;
  accepted ← update_accepted_proposal r;
  o2 ← (if accepted : bool then
          z ← get;
          _ ← (if r =? current_round z then update_proposal_timeout now else mret ());
          o ← create_and_gossip_message r (Vote true);
          o' ← validate_waiting r;
          mret (o ++ o')
        else mret []);
  z ← get;
  o3 ← (if r =? current_round z then update_current_round r now accepted else mret []);
  z ← get;
  o4 ← (if has_accepted_proposal z r && is_committed_round z r then finalize_round r else mret []);
  mret (o1 ++ o2 ++ o3 ++ o4).

(** [for round_id in dirty_round_id..]: a [u32] has fewer than [2^32] successors, and the loop
    ends when it reaches the current round. *)
Definition update_step (now : Z) (a : Z * Outcomes) : M (Z * Outcomes + Outcomes) :=
  o ← update_round a.1 now;
  z ← get;
  mret (if current_round z <=? a.1 then inr (a.2 ++ o) else inl (a.1 + 1, a.2 ++ o)).
Definition update (now : Z) : M Outcomes :=
  z ← get;
  faulty ← lift (if finalized_switch_block z then Ok 0 else faulty_weight z);
  if finalized_switch_block z || (params_ftt (params (setup z)) <? faulty) then mret [] else
  outcomes ← match maybe_dirty_round_id z with
             | None => mret []
             | Some dirty =>
                 r ← loop (2 ^ 32) (update_step now) (dirty, []);
                 match r with inl _ => lift Diverge | inr o => mret o end
             end;
  _ ← modify (set_maybe_dirty_round_id None);
  mret outcomes.

(** ** Faults *)

Definition max_key {A} (m : gmap Z A) : Z := foldr (fun p acc => Z.max p.1 acc) 0 (map_to_list m).

(** [for round in self.rounds.values_mut() { round.remove_votes_and_echoes(idx) }]. *)
Definition remove_everywhere (i : Z) : M () :=
  z ← get;
  rs ← lift (foldr (fun p acc => acc ← acc; rd ← remove_votes_and_echoes i p.2; Ok (<[p.1 := rd]> acc)) (Ok ∅) (map_to_list (rounds z)));
  modify (set_rounds rs).

Definition recompute_quorums (r : Z) : M () :=
  z ← get;
  match round z r with
  | None => mret ()
  | Some rd =>
      _ ← (if bool_decide (quorum_echoes (outcome rd) = None) then
             q ← any (hash_order (map_to_list (echoes rd)).*1) (fun h => check_new_echo_quorum r h);
             if q : bool then mark_dirty r else mret ()
           else mret ());
      t ← check_new_vote_quorum r true;
      q ← (if t : bool then mret true else check_new_vote_quorum r false);
      if q : bool then mark_dirty r else mret ()
  end.

Definition handle_fault_no_wal (m : SignedMessage) (vid : ValidatorId) (content2 : Content) (signature2 : Signature) (now : Z) : M Outcomes :=
  let i := validator_idx m in
  _ ← modify (fun z => set_faults (<[i := Direct m content2 signature2]> (faults z)) z);
  _ ← modify (fun z => if bool_decide (Some i = idx <$> active_validator z) then set_active_validator None z else z);
  z ← get;
  _ ← lift (expect (vec_get (active z) i));
  _ ← modify (fun z => set_active (vec_set i None (active z)) z);
  _ ← modify (set_progress_detected true);
  z ← get;
  w ← lift (faulty_weight z);
  if params_ftt (params (setup z)) <? w then mret [NewEvidence vid; FttExceeded] else
  _ ← remove_everywhere i;
  z ← get;
  _ ← for_each (seqZ (first_non_finalized_round_id z) (max_key (rounds z) + 1 - first_non_finalized_round_id z))
        (fun r => _ ← recompute_quorums r; mret []);
  o ← update now;
  mret (NewEvidence vid :: o).
Definition handle_fault (m : SignedMessage) (vid : ValidatorId) (content2 : Content) (signature2 : Signature) (now : Z) : M Outcomes :=
  _ ← record_entry (W_Evidence m content2 signature2);
  handle_fault_no_wal m vid content2 signature2 now.

(** ** Incoming messages *)

Definition handle_signed_message (m : SignedMessage) (sender : NodeId) (now : Z) : M Outcomes :=
  z ← get;
  match id_of (vset z) (validator_idx m) with
  | None => throw sender
  | Some vid =>
      if bool_decide (instance_id m <> instance z) then throw sender else
      if bool_decide (is_Some (faults z !! validator_idx m)) then mret [] else
      if saturating_add 32 (current_round z) MAX_FUTURE_ROUNDS <? round_id m then mret [] else
      if evidence_only z then mret [] else
      duplicate ← lift (match round z (round_id m) with Some rd => contains (content m) (validator_idx m) rd | None => Ok false end);
      if duplicate : bool then mret [] else
      if negb (message_verify_signature m vid) then throw sender else
      fault ← lift (detect_fault z m);
      match fault with
      | Some (content2, signature2) =>
          outcomes ← handle_fault m vid content2 signature2 now;
          mret (outcomes ++ [CreatedGossipMessage (M_Evidence m content2 signature2)])
      | None =>
          if bool_decide (is_Some (faults z !! validator_idx m)) then mret [] else
          _ ← record_entry (W_SignedMessage m);
          added ← add_content m;
          if added : bool then update now else mret []
      end
  end.

Definition handle_evidence (m : SignedMessage) (content2 : Content) (signature2 : Signature) (sender : NodeId) (now : Z) : M Outcomes :=
  z ← get;
  if match faults z !! validator_idx m with Some f => is_direct f | None => false end then mret [] else
  match id_of (vset z) (validator_idx m) with
  | None => throw sender
  | Some vid =>
      if bool_decide (instance_id m <> instance z) then throw sender else
      if negb (contradicts (content m) content2) then throw sender else
      if negb (message_verify_signature m vid) || negb (message_verify_signature (with_content m content2 signature2) vid) then throw sender else
      handle_fault m vid content2 signature2 now
  end.

Definition handle_proposal (r : Z) (p : Proposal) (sender : NodeId) (now : Z) : M Outcomes :=
  z ← get;
  leader ← lift (leader_of z r);
  if match maybe_parent_round_id p with Some parent => r <=? parent | None => false end then throw sender else
  if saturating_add 64 now (clock_tolerance (config (setup z))) <? timestamp p then mret [] else
  if negb (eqb (bool_decide (maybe_parent_round_id p = None) || bool_decide (maybe_block p = None)) (bool_decide (inactive p = None)))
  then throw sender else
  if match inactive p with
     | Some i => existsb (fun v => (v =? leader) || bool_decide (id_of (vset z) v = None)) (elements i)
     | None => false
     end then throw sender else
  let hashed_prop := hashed_proposal_new p in
  if match round z r with None => true | Some rd => negb (has_echoes_for_proposal (hash hashed_prop) rd) end then mret [] else
  if bool_decide ((rd ← round z r; proposal rd) = Some hashed_prop) then mret [] else
  let validate (ancestors : list ConsensusValue) : M Outcomes :=
    o ← validate_proposal r hashed_prop ancestors sender;
    o' ← update now;
    mret (o ++ o') in
  match maybe_parent_round_id p with
  | None => validate []
  | Some parent =>
      ancestors ← lift (zug_ancestor_values z parent);
      match ancestors with
      | Some ancestors => validate ancestors
      | None =>
          _ ← modify (fun z => set_proposals_waiting_for_parent
                (<[parent := alist_add hashed_prop (r, sender) (default [] (proposals_waiting_for_parent z !! parent))]>
                  (proposals_waiting_for_parent z)) z);
          mret []
      end
  end.

(** ** Synchronizing with a peer *)

(** The entries of a [BTreeMap], in key order. *)
Definition btree_entries {A} (m : gmap Z A) : list (Z * A) :=
  omap (fun k => match m !! k with Some a => Some (k, a) | None => None end) (merge_sort Z.le (elements (dom m))).

Definition validator_count (z : Zug) : Z := as_u32 (len (vset z)).

Definition bit_of (count first v : Z) : Z :=
  if first <=? v then v - first else as_u32 (as_u32 (v - first) + count).
Definition validator_bit_field (z : Zug) (first : Z) (vidxs : list Z) : Z :=
  if validator_count z <=? first then 0 else
  foldl (fun bits v =>
    let i := bit_of (validator_count z) first v in
    if i <? 128 then Z.lor bits (Z.shiftl 1 i) else bits) 0 vidxs.

Fixpoint trailing_zeros (p : positive) : Z :=
  match p with xO p => 1 + trailing_zeros p | _ => 0 end.
(** Every step clears a bit, so 128 steps are enough. *)
Fixpoint iter_bits (fuel : nat) (count idx bits : Z) : list Z :=
  match fuel, bits with
  | S fuel, Zpos p =>
      if count <=? idx then [] else
      let zeros := trailing_zeros p in
      let bits := Z.clearbit (Z.shiftr bits zeros) 0 in
      let sum := as_u32 (idx + zeros) in
      let idx := (if 2 ^ 32 <=? idx + zeros then as_u32 (sum mod count - count) else sum) mod count in
      idx :: iter_bits fuel count idx bits
  | _, _ => []
  end.
Definition iter_validator_bit_field (z : Zug) (first bits : Z) : list Z := iter_bits 129 (validator_count z) first bits.

Definition validator_bit_field_includes (z : Zug) (first v : Z) : bool :=
  let count := validator_count z in
  if count <=? first then false else
  let last := as_u32 (first + 127) in
  let last_overflow := 2 ^ 32 <=? first + 127 in
  if first <=? v then last_overflow || (v <=? last) else
  let v2 := as_u32 (v + count) in
  let v2_overflow := 2 ^ 32 <=? v + count in
  if eqb v2_overflow last_overflow then v2 <=? last else last_overflow.

(** [a & !b] on [u128]. *)
Definition and_not (a b : Z) : Z := Z.ldiff a b.

(** The random choices of a sync request: a validator, a round, the identifiers drawn until a
    fresh one is found; and the time of day. *)
Record SyncDraw : Type := mkSyncDraw { draw_validator : Z; draw_round : Z; draw_ids : list Z; draw_now : Z }.

Definition prune_old (now : Z) (m : gmap Z Z) : gmap Z Z := filter (fun p => saturating_sub now p.2 < ONE_MIN) m.
Definition create_and_register_new_id (d : SyncDraw) : M Z :=
  _ ← modify (fun z => set_sent_sync_requests (prune_old (draw_now d) (sent_sync_requests z)) z);
  z ← get;
  match list_find (fun i => sent_sync_requests z !! i = None) (draw_ids d) with
  | None => lift Diverge
  | Some (_, i) =>
      _ ← modify (fun z => set_sent_sync_requests (<[i := draw_now d]> (sent_sync_requests z)) z);
      mret i
  end.
Definition try_remove_id (i : Z) : M bool :=
  z ← get;
  match sent_sync_requests z !! i with
  | None => mret false
  | Some _ => _ ← modify (fun z => set_sent_sync_requests (delete i (sent_sync_requests z)) z); mret true
  end.

(** The hash with the largest weight of echoes; of several, the last one visited. *)
Definition heaviest_echo (z : Zug) (rd : Round) : result NodeId (option Hash) :=
  best ← foldl (fun acc (p : Hash * gmap Z Signature) =>
           acc ← acc;
           w ← sum_weights z (map_to_list p.2).*1;
           Ok (match acc with
               | Some (h, w') => if w' <=? w then Some (p.1, w) else Some (h, w')
               | None => Some (p.1, w)
               end)) (Ok None : result NodeId (option (Hash * Z))) (hash_order (map_to_list (echoes rd)));
  Ok (match best with Some (h, _) => Some h | None => None end).

Definition create_sync_request (d : SyncDraw) (first r : Z) : M SyncRequest :=
  z ← get;
  let faulty := validator_bit_field z first (map_to_list (faults z)).*1 in
  let active := validator_bit_field z first (keys_some (active z)) in
  match round z r with
  | None =>
      i ← create_and_register_new_id d;
      mret (sync_request_new_empty_round r first faulty active (instance z) i)
  | Some rd =>
      let true_votes := validator_bit_field z first (keys_some (votes rd true)) in
      let false_votes := validator_bit_field z first (keys_some (votes rd false)) in
      heaviest ← lift (match quorum_echoes (outcome rd) with Some h => Ok (Some h) | None => heaviest_echo z rd end);
      let has_proposal := bool_decide (hash <$> proposal rd = heaviest) in
      let echo_bits := match (h ← heaviest; echoes rd !! h) with
                       | Some echo_map => validator_bit_field z first (map_to_list echo_map).*1
                       | None => 0
                       end in
      i ← create_and_register_new_id d;
      mret (mkSyncRequest r heaviest has_proposal first echo_bits true_votes false_votes active faulty (instance z) i)
  end.

Definition handle_sync_peer_timer (now : Z) (d : SyncDraw) : M Outcomes :=
  z ← get;
  if evidence_only z || finalized_switch_block z then mret [] else
  let n := validator_count z in
  if n =? 0 then lift Panic else
  let first := draw_validator d mod n in
  let fnf := first_non_finalized_round_id z in
  let r := if fnf <=? current_round z then fnf + draw_round d mod (current_round z + 1 - fnf) else current_round z in
  request ← create_sync_request d first r;
  mret (CreatedRequestToRandomValidator request ::
        match sync_state_interval (config (setup z)) with
        | Some interval => [ScheduleTimer (saturating_add 64 now interval) TIMER_ID_SYNC_PEER]
        | None => []
        end).

(** Collects the signatures of the given validators; every index is present. *)
Definition pick_sigs (get_sig : Z -> option Signature) (vs : list Z) : result NodeId (gmap Z Signature) :=
  foldl (fun acc v => acc ← acc; s ← expect (get_sig v); Ok (<[v := s]> acc)) (Ok ∅) vs.

(** The evidence against validators that the requester does not know to be faulty; [None] when
    the peers disagree about a banned validator. *)
Fixpoint missing_evidence (z : Zug) (sender : NodeId) (vs : list Z) :
  result NodeId (option (Outcomes * list (SignedMessage * Content * Signature))) :=
  match vs with
  | [] => Ok (Some ([], []))
  | v :: vs =>
      f ← expect (faults z !! v);
      match f with
      | Banned => Ok None
      | Direct m c s =>
          rest ← missing_evidence z sender vs;
          Ok (match rest with Some (o, e) => Some (o, (m, c, s) :: e) | None => None end)
      | Indirect =>
          vid ← expect (id_of (vset z) v);
          rest ← missing_evidence z sender vs;
          Ok (match rest with Some (o, e) => Some (SendEvidence sender vid :: o, e) | None => None end)
      end
  end.

(** The echoes and the proposal that the requester is missing. *)
Definition missing_echoes (z : Zug) (rd : Round) (first echo_bits faulty our_faulty : Z) (proposal_hash : option Hash) (has_proposal : bool) :
  result NodeId (option (Proposal + Hash) * gmap Z Signature * Z) :=
  match (h ← proposal_hash; m ← echoes rd !! h; Some (h, m)) with
  | None => Ok (None, ∅, 0)
  | Some (h, echo_map) =>
      let our_echoes := validator_bit_field z first (map_to_list echo_map).*1 in
      let missing := and_not our_echoes (Z.lor echo_bits (Z.lor faulty our_faulty)) in
      echo_sigs ← pick_sigs (fun v => echo_map !! v) (iter_validator_bit_field z first missing);
      if has_proposal then Ok (Some (inr h), echo_sigs, our_echoes) else
      let l := leader_idx rd in
      let echo_sigs :=
        if negb (validator_bit_field_includes z first l) then
          match echo_map !! l with Some s => <[l := s]> echo_sigs | None => echo_sigs end
        else echo_sigs in
      let proposal_or_hash :=
        match proposal rd with
        | Some p => if bool_decide (hash p = h) then Some (inl (inner p)) else None
        | None => None
        end in
      Ok (proposal_or_hash, echo_sigs, our_echoes)
  end.
Definition missing_votes (z : Zug) (rd : Round) (vote : bool) (first vote_bits faulty our_faulty : Z) : result NodeId (gmap Z Signature * Z) :=
  let our_votes := if bool_decide (quorum_votes (outcome rd) = Some (negb vote)) then 0
                   else validator_bit_field z first (keys_some (votes rd vote)) in
  let missing := and_not our_votes (Z.lor vote_bits (Z.lor faulty our_faulty)) in
  sigs ← pick_sigs (fun v => s ← vec_get (votes rd vote) v; s) (iter_validator_bit_field z first missing);
  Ok (sigs, our_votes).

Definition handle_sync_request (z : Zug) (rq : SyncRequest) (sender : NodeId) : result NodeId (Outcomes * option Message) :=
  let first := rq_first_validator_idx rq in
  if validator_count z <=? first then Ok ([Disconnect sender], None) else
  match round z (rq_round_id rq) with
  | None => Ok ([], None)
  | Some rd =>
      let replaced := bool_decide (quorum_echoes (outcome rd) <> rq_proposal_hash rq /\ is_Some (quorum_echoes (outcome rd))) in
      let has_proposal := if replaced then true else rq_has_proposal rq in
      let echo_bits := if replaced then 0 else rq_echoes rq in
      let proposal_hash := if replaced then quorum_echoes (outcome rd) else rq_proposal_hash rq in
      let faulty := rq_faulty rq in
      let our_faulty := validator_bit_field z first (map_to_list (faults z)).*1 in
      '(proposal_or_hash, echo_sigs, our_echoes) ← missing_echoes z rd first echo_bits faulty our_faulty proposal_hash has_proposal;
      '(true_sigs, our_true) ← missing_votes z rd true first (rq_true_votes rq) faulty our_faulty;
      '(false_sigs, our_false) ← missing_votes z rd false first (rq_false_votes rq) faulty our_faulty;
      evidence ← missing_evidence z sender (iter_validator_bit_field z first (and_not our_faulty faulty));
      match evidence with
      | None => Ok ([Disconnect sender], None)
      | Some (outcomes, evidence) =>
          let our_active := validator_bit_field z first (keys_some (active z)) in
          let missing_active := and_not our_active
            (Z.lor (rq_active rq) (Z.lor our_echoes (Z.lor our_true (Z.lor our_false our_faulty)))) in
          signed ← foldr (fun v acc => m ← expect (vec_get (active z) v); acc ← acc; Ok (option_list m ++ acc))
                     (Ok []) (iter_validator_bit_field z first missing_active);
          Ok (outcomes, Some (M_SyncResponse (mkSyncResponse (rq_round_id rq) proposal_or_hash echo_sigs true_sigs false_sigs
                                signed evidence (rq_instance_id rq) (rq_sync_id rq))))
      end
  end.

(** [outcomes_or_disconnect]. *)
Definition outcomes_or_disconnect (m : M Outcomes) : M Outcomes := fun z =>
  match m z with
  | (Err sender, z) => (Ok [Disconnect sender], z)
  | x => x
  end.

Definition response_messages (rs : SyncResponse) (proposal_hash : option Hash) : list SignedMessage :=
  let msg c (p : Z * Signature) := mkSignedMessage (rs_round_id rs) (rs_instance_id rs) c p.1 p.2 in
  rs_signed_messages rs ++
  match proposal_hash with Some h => msg (Echo h) <$> btree_entries (rs_echo_sigs rs) | None => [] end ++
  (msg (Vote true) <$> btree_entries (rs_true_vote_sigs rs)) ++
  (msg (Vote false) <$> btree_entries (rs_false_vote_sigs rs)).

Definition handle_sync_response (rs : SyncResponse) (sender : NodeId) (now : Z) : M Outcomes :=
  requested ← try_remove_id (rs_sync_id rs);
  if negb requested then mret [Disconnect sender] else
  z ← get;
  if (length (validators (vset z)) <? size (rs_echo_sigs rs) `max` size (rs_true_vote_sigs rs) `max` size (rs_false_vote_sigs rs))%nat
  then mret [Disconnect sender] else
  let proposal_hash := match rs_proposal_or_hash rs with
                       | Some (inl p) => Some (hash (hashed_proposal_new p))
                       | Some (inr h) => Some h
                       | None => None
                       end in
  outcomes_or_disconnect (
    o1 ← for_each (response_messages rs proposal_hash) (fun m => handle_signed_message m sender now);
    o2 ← for_each (rs_evidence rs) (fun e => handle_evidence e.1.1 e.1.2 e.2 sender now);
    o3 ← match rs_proposal_or_hash rs with
         | Some (inl p) => handle_proposal (rs_round_id rs) p sender now
         | _ => mret []
         end;
    mret (o1 ++ o2 ++ o3)).

(** ** Restarting from the log *)

(** What the device answers: the file opens, reading fails after a number of entries, the file
    opens for appending. *)
Record WalOpen : Type := mkWalOpen { wo_open : bool; wo_read : option nat; wo_append : bool }.

(** The values of the ancestors of a recorded proposal: all of them have their quorum of
    echoes. *)
Fixpoint wal_ancestors_from (fuel : nat) (z : Zug) (r : Z) : result NodeId (option (list ConsensusValue)) :=
  match fuel with
  | O => Diverge
  | S fuel =>
      match (rd ← round z r; proposal rd) with
      | None => Ok None
      | Some p =>
          if bool_decide ((rd ← round z r; quorum_echoes (outcome rd)) <> Some (hash p)) then Ok None else
          match maybe_parent_round_id (inner p) with
          | None => Ok (Some (option_list (maybe_block (inner p))))
          | Some parent =>
              vs ← wal_ancestors_from fuel z parent;
              Ok (match vs with Some vs => Some (option_list (maybe_block (inner p)) ++ vs) | None => None end)
          end
      end
  end.

Definition replayed_outcome (o : ProtocolOutcome) : bool :=
  match o with
  | FttExceeded | WeAreFaulty | O_FinalizedBlock _ | ValidateConsensusValue _ _ | HandledProposedBlock _ | NewEvidence _ => true
  | _ => false
  end.

(** One entry of the log; [None] ends the replay. *)
Definition replay_entry (e : ZugWalEntry) (now : Z) : M (option Outcomes) :=
  match e with
  | W_SignedMessage m =>
      added ← add_content m;
      mret (if added : bool then Some [] else None)
  | W_Proposal p r =>
      z ← get;
      if bool_decide (inner <$> (rd ← round z r; proposal rd) = Some p) then mret (Some []) else
      ancestors ← lift (match maybe_parent_round_id p with
                        | None => Ok (Some [])
                        | Some parent => wal_ancestors_from (S (Z.to_nat parent)) z parent
                        end);
      match ancestors with
      | None => mret None
      | Some ancestors =>
          inserted ← on_round r (fun rd => Ok (insert_proposal (hashed_proposal_new p) rd));
          if inserted : bool then
            _ ← mark_dirty r;
            mret (Some match maybe_block p with
                       | Some block => [HandledProposedBlock (mkProposedBlock block (mkBlockContext (timestamp p) ancestors))]
                       | None => []
                       end)
          else mret (Some [])
      end
  | W_Evidence m content2 signature2 =>
      z ← get;
      match id_of (vset z) (validator_idx m) with
      | None => mret (Some [])
      | Some vid =>
          o ← handle_fault_no_wal m vid content2 signature2 now;
          mret (Some (filter (fun o => replayed_outcome o = true) o))
      end
  end.

(** The entries in turn; the flag says whether the end of the file was reached. *)
Fixpoint replay (entries : list ZugWalEntry) (readable : option nat) (now : Z) : M (bool * Outcomes) :=
  match readable, entries with
  | Some O, _ => mret (false, [])
  | _, [] => mret (true, [])
  | _, e :: entries =>
      o ← replay_entry e now;
      match o with
      | None => mret (false, [])
      | Some o =>
          '(ended, os) ← replay entries (pred <$> readable) now;
          mret (ended, o ++ os)
      end
  end.

Definition open_wal (w : WalOpen) (now : Z) : M Outcomes :=
  if negb (wo_open w) then mret [] else
  z ← get;
  '(ended, outcomes) ← replay (wal_file z) (wo_read w) now;
  _ ← (if ended && wo_append w then modify (set_write_wal true) else mret ());
  mret outcomes.

(** ** The [ConsensusProtocol] trait *)

(** A message that does not deserialize is [None]. *)
Definition handle_message (sender : NodeId) (msg : option Message) (now : Z) : M Outcomes :=
  z ← get;
  match msg with
  | None => mret [Disconnect sender]
  | Some msg =>
      if bool_decide (message_instance_id msg <> instance z) then mret [Disconnect sender] else
      match msg with
      | M_SyncResponse rs => handle_sync_response rs sender now
      | M_Proposal r _ p echo =>
          outcomes_or_disconnect (
            o ← handle_signed_message echo sender now;
            o' ← handle_proposal r p sender now;
            mret (o ++ o'))
      | M_Signed m => outcomes_or_disconnect (handle_signed_message m sender now)
      | M_Evidence m c s => outcomes_or_disconnect (handle_evidence m c s sender now)
      end
  end.

Definition handle_request_message (z : Zug) (sender : NodeId) (msg : option SyncRequest) : result NodeId (Outcomes * option Message) :=
  match msg with
  | None => Ok ([Disconnect sender], None)
  | Some rq => if bool_decide (rq_instance_id rq <> instance z) then Ok ([Disconnect sender], None) else handle_sync_request z rq sender
  end.

Definition handle_timer (ts now timer_id : Z) (d : SyncDraw) : M Outcomes :=
  if timer_id =? TIMER_ID_SYNC_PEER then handle_sync_peer_timer now d else
  if timer_id =? TIMER_ID_UPDATE then
    _ ← modify (fun z => if next_scheduled_update z <=? ts then set_next_scheduled_update TIMESTAMP_MAX z else z);
    z ← get;
    _ ← mark_dirty (current_round z);
    update now
  else if timer_id =? TIMER_ID_LOG_PARTICIPATION then
    z ← get;
    mret (match log_participation_interval (config (setup z)) with
          | Some interval =>
              if negb (evidence_only z) && negb (finalized_switch_block z)
              then [ScheduleTimer (saturating_add 64 now interval) timer_id] else []
          | None => []
          end)
  else mret [].

Definition handle_is_current (z : Zug) (now : Z) : Outcomes :=
  let at_start interval := saturating_add 64 (Z.max now (start_timestamp (params (setup z)))) interval in
  match sync_state_interval (config (setup z)) with Some i => [ScheduleTimer (at_start i) TIMER_ID_SYNC_PEER] | None => [] end ++
  match log_participation_interval (config (setup z)) with Some i => [ScheduleTimer (at_start i) TIMER_ID_LOG_PARTICIPATION] | None => [] end.

Definition propose (b : ProposedBlock) (now : Z) : M Outcomes :=
  z ← get;
  match pending_proposal z with
  | None => mret []
  | Some (block_context, r, maybe_parent) =>
      _ ← modify (set_pending_proposal None);
      if bool_decide (block_context <> context b) || negb (r =? current_round z) then
        _ ← modify (set_pending_proposal (Some (block_context, r, maybe_parent)));
        mret []
      else
        unseen ← lift (foldr (fun e acc =>
                         seen ← expect (vec_get (active z) e.1);
                         acc ← acc;
                         Ok (if bool_decide (seen = None /\ faults z !! e.1 = None) then {[e.1]} ∪ acc else acc))
                       (Ok ∅ : result NodeId (gset Z)) (enumerate_ids (vset z)));
        o ← create_echo_and_proposal (with_block b maybe_parent unseen);
        o' ← update now;
        mret (o ++ o')
  end.

Definition resolve_validity (b : ProposedBlock) (valid : bool) (now : Z) : M Outcomes :=
  z ← get;
  let waiting := alist_get b (proposals_waiting_for_validation z) in
  _ ← modify (fun z => set_proposals_waiting_for_validation (alist_remove b (proposals_waiting_for_validation z)) z);
  if valid then
    o ← for_each (hash_order waiting) (fun e =>
          inserted ← on_round e.1.1 (fun rd => Ok (insert_proposal e.1.2 rd));
          if inserted : bool then
            _ ← record_entry (W_Proposal (inner e.1.2) e.1.1);
            _ ← mark_dirty e.1.1;
            _ ← modify (set_progress_detected true);
            mret [HandledProposedBlock b]
          else mret []);
    o' ← update now;
    mret (o ++ o')
  else mret [].

Definition activate_validator (our_id : ValidatorId) (sk : ValidatorSecret) (now : Z) (w : option WalOpen) : M Outcomes :=
  z ← get;
  o ← (if write_wal z then mret [] else match w with Some w => open_wal w now | None => mret [] end);
  z ← get;
  if negb (write_wal z) then mret [] else
  match get_index (vset z) our_id with
  | None => mret o
  | Some i =>
      if bool_decide (is_Some (faults z !! i)) then mret o else
      _ ← modify (set_active_validator (Some (mkActiveValidator i sk)));
      o' ← schedule_update (Z.max (start_timestamp (params (setup z))) now);
      mret (o ++ o')
  end.

Definition deactivate_validator : M () := modify (set_active_validator None).

Definition set_evidence_only_mode : M () :=
  _ ← modify (set_evidence_only true);
  _ ← modify (set_rounds ∅);
  _ ← modify (set_proposals_waiting_for_parent ∅);
  modify (set_proposals_waiting_for_validation []).

Definition has_evidence (z : Zug) (vid : ValidatorId) : bool :=
  match (i ← get_index (vset z) vid; faults z !! i) with Some f => is_direct f | None => false end.
Definition mark_faulty (vid : ValidatorId) : M () :=
  modify (fun z =>
    match get_index (vset z) vid with
    | None => z
    | Some i => match faults z !! i with Some _ => z | None => set_faults (<[i := Indirect]> (faults z)) z end
    end).
Definition send_evidence (z : Zug) (peer : NodeId) (vid : ValidatorId) : Outcomes :=
  match (i ← get_index (vset z) vid; faults z !! i) with
  | Some (Direct m c s) => [CreatedTargetedMessage (M_Evidence m c s) peer]
  | _ => []
  end.
Definition set_paused_mode (p : bool) (now : Z) : M Outcomes :=
  z ← get;
  if paused z && negb p then
    _ ← modify (set_paused p);
    _ ← modify (set_current_round_start TIMESTAMP_MAX);
    _ ← mark_dirty (current_round z);
    update now
  else
    _ ← modify (set_paused p);
    mret [].
Definition validators_with_evidence (z : Zug) : list ValidatorId :=
  omap (fun p : Z * Fault => if is_direct p.2 then id_of (vset z) p.1 else None) (map_to_list (faults z)).
Definition is_active (z : Zug) : bool := bool_decide (is_Some (active_validator z)).
Definition next_round_length (z : Zug) : option Z := Some (min_block_time (params (setup z))).

(** ** Construction *)

Definition new_with_params (vs : Validators ValidatorId) (ps : Params) (cfg : Config) (prev_timeout : option f64) (seed : Z)
  (file : list ZugWalEntry) : result () Zug :=
  let weights := validator_weights vs in
  let timeout := default (f64_mul (f64_of (proposal_timeout cfg)) (f64_add (f64_div (f64_of (proposal_grace_period cfg)) (f64_of 100)) (f64_of 1)))
                   prev_timeout in
  let can_propose := foldl (fun l i => vec_set i false l) (replicate (length weights) true) (iter_cannot_propose_idx vs) in
  let faults := list_to_map ((fun i => (i, Banned)) <$> iter_banned_idx vs) in
  ls ← leader_sequence_new seed weights can_propose;
  Ok (mkZug (mkSetup ps cfg vs ls) timeout None false ∅ [] None ∅ faults (replicate (length weights) None)
        0 None 0 TIMESTAMP_MAX false false TIMESTAMP_MAX false ∅ file []).

(** [Zug::new]: the validator set and the threshold of an era. *)
Definition zug_new `{!TotalOrd ValidatorId} (instance_id : InstanceId) (stakes : list (ValidatorId * Z)) (faulty inactive : list ValidatorId)
  (fraction : Z * Z) (minimum_block_time minimum_era_height era_duration era_start_time : Z) (cfg : Config) (prev_timeout : option f64)
  (seed : Z) (file : list ZugWalEntry) : result () Zug :=
  vs ← era_validators faulty inactive stakes;
  threshold ← ftt fraction vs;
  let ps := mkParams instance_id minimum_block_time era_start_time minimum_era_height
              (saturating_add 64 era_start_time era_duration) threshold in
  new_with_params vs ps cfg prev_timeout seed file.
End update.
End zug.
Abbreviation M := (st Zug NodeId).
Abbreviation Outcomes := (list ProtocolOutcome).
