(* ===== verification/ZugQuorum.v ===== *)
(** * The Zug consensus protocol: quorums and certified chains

    The arithmetic behind the protocol's safety. A quorum is a set of validators that weighs
    more than [(total + ftt) / 2], so any two quorums share a correct validator when the faulty
    ones weigh at most [ftt]. A certificate is a quorum of which every correct member signed a
    message; a certified chain is a sequence of proposals with the certificates that make a node
    accept them. *)
From S2P Require Import Prelude Validators ZugTypes Zug.

Open Scope Z_scope.

(** ** The weight of a set of validators *)

Section weigh.
Context {VID : Type} `{Countable VID}.
Implicit Types (vs : Validators VID) (f g : Z -> bool).

Definition masked_weight f (i : nat) (w : Z) : Z := if f (Z.of_nat i) then w else 0.
Definition weigh vs f : Z := zsum (imap (masked_weight f) (validator_weights vs)).

(** Sums over [imap] compare pointwise. *)
Lemma zsum_imap_le (p q : nat -> Z -> Z) (ws : list Z) :
  (forall i w, ws !! i = Some w -> p i w <= q i w) -> zsum (imap p ws) <= zsum (imap q ws).
Proof.
  revert p q. induction ws as [|w ws IH]; intros p q Hpq; cbn [imap]; [done|].
  change (p 0%nat w + zsum (imap (p ∘ S) ws) <= q 0%nat w + zsum (imap (q ∘ S) ws)).
  pose proof (Hpq 0%nat w eq_refl). specialize (IH (p ∘ S) (q ∘ S)).
  enough (zsum (imap (p ∘ S) ws) <= zsum (imap (q ∘ S) ws)) by lia. apply IH. intros i x Hx. by apply (Hpq (S i)).
Qed.
Lemma zsum_imap_add (p q : nat -> Z -> Z) (ws : list Z) :
  zsum (imap p ws) + zsum (imap q ws) = zsum (imap (fun i w => p i w + q i w) ws).
Proof.
  revert p q. induction ws as [|w ws IH]; intros p q; cbn [imap]; [done|].
  change (p 0%nat w + zsum (imap (p ∘ S) ws) + (q 0%nat w + zsum (imap (q ∘ S) ws)) =
    p 0%nat w + q 0%nat w + zsum (imap ((fun i w => p i w + q i w) ∘ S) ws)).
  specialize (IH (p ∘ S) (q ∘ S)). unfold compose in *. lia.
Qed.

Lemma weight_lookup_nonneg vs i w : validators_ok vs -> validator_weights vs !! i = Some w -> 0 <= w.
Proof. intros Hok Hw. exact (Forall_lookup_1 _ _ _ _ (vo_weights _ Hok) Hw). Qed.

Lemma weigh_mono vs f g :
  validators_ok vs -> (forall i, 0 <= i < len vs -> f i = true -> g i = true) -> weigh vs f <= weigh vs g.
Proof.
  intros Hok Hfg. apply zsum_imap_le. intros i w Hw. unfold masked_weight. pose proof (weight_lookup_nonneg _ _ _ Hok Hw).
  apply lookup_lt_Some in Hw. unfold validator_weights in Hw. rewrite length_fmap in Hw.
  destruct (f (Z.of_nat i)) eqn:E; [|destruct (g (Z.of_nat i)); lia]. rewrite Hfg; [done|unfold len; lia|done].
Qed.
Lemma weigh_ext vs f g : (forall i, 0 <= i < len vs -> f i = g i) -> weigh vs f = weigh vs g.
Proof.
  intros Hfg. unfold weigh. f_equal. apply imap_ext. intros i w Hw. unfold masked_weight. rewrite Hfg; [done|].
  apply lookup_lt_Some in Hw. unfold validator_weights in Hw. rewrite length_fmap in Hw. unfold len. lia.
Qed.
Lemma weigh_all vs : validators_ok vs -> weigh vs (fun _ => true) = total_weight vs.
Proof.
  intros Hok. rewrite (vo_total _ Hok). unfold weigh. f_equal. unfold masked_weight.
  rewrite <- (list_fmap_id (validator_weights vs)) at 2. rewrite <- (imap_const (fun x => x)). done.
Qed.
Lemma weigh_le_total vs f : validators_ok vs -> 0 <= weigh vs f <= total_weight vs.
Proof.
  intros Hok. split.
  - apply zsum_nonneg. apply Forall_lookup. intros i x Hx. rewrite list_lookup_imap in Hx.
    destruct (validator_weights vs !! i) as [w|] eqn:Ew; [|done]. cbn in Hx. simplify_eq. unfold masked_weight.
    pose proof (weight_lookup_nonneg _ _ _ Hok Ew). destruct (f _); lia.
  - rewrite <- weigh_all by done. by apply weigh_mono.
Qed.
(** Two sets overlap in what they weigh beyond the whole. *)
Lemma weigh_overlap vs f g :
  validators_ok vs -> weigh vs f + weigh vs g <= total_weight vs + weigh vs (fun i => f i && g i).
Proof.
  intros Hok. rewrite <- weigh_all by done. unfold weigh. rewrite !zsum_imap_add. apply zsum_imap_le.
  intros i w Hw. pose proof (weight_lookup_nonneg _ _ _ Hok Hw). unfold masked_weight.
  destruct (f _), (g _); cbn; lia.
Qed.
(** A set that weighs more than another has a member outside it. *)
Lemma weigh_exceeds vs f g :
  validators_ok vs -> weigh vs g < weigh vs f -> exists i, 0 <= i < len vs /\ f i = true /\ g i = false.
Proof.
  intros Hok Hlt. destruct (decide (Exists (fun i => f i = true /\ g i = false) (seqZ 0 (len vs)))) as [He|Hn].
  - apply Exists_exists in He as (i & Hi & ?). apply elem_of_seqZ in Hi. exists i. split; [lia|done].
  - exfalso. enough (weigh vs f <= weigh vs g) by lia. apply weigh_mono; [done|]. intros i Hi Hf.
    destruct (g i) eqn:Eg; [done|]. exfalso. apply Hn, Exists_exists. exists i. split; [apply elem_of_seqZ; lia|done].
Qed.

Lemma zsum_imap_single (ws : list Z) (i : nat) w :
  ws !! i = Some w -> zsum (imap (fun j x => if (j =? i)%nat then x else 0) ws) = w.
Proof.
  revert i. induction ws as [|x ws IH]; intros i Hw; [done|]. cbn [imap].
  change (zsum (?a :: ?b)) with (a + zsum b). destruct i as [|i]; cbn in Hw.
  - injection Hw as ->. cbn [Nat.eqb]. enough (zsum (imap ((fun j x => if (j =? 0)%nat then x else 0) ∘ S) ws) = 0) by lia.
    clear. unfold compose. cbn [Nat.eqb]. induction ws as [|y ws IH]; [done|]. cbn [imap]. unfold compose in *.
    change (0 + zsum (imap (fun _ _ => 0) ws) = 0). done.
  - cbn [Nat.eqb]. specialize (IH i Hw). unfold compose. cbn [Nat.eqb]. lia.
Qed.

(** Adding a member. *)
Lemma weigh_add vs f i w :
  0 <= i -> weight_of vs i = Some w -> f i = false ->
  weigh vs (fun j => f j || (j =? i)) = weigh vs f + w.
Proof.
  intros Hi Hw Hf. unfold weight_of, vec_get in Hw. rewrite <- list_lookup_fmap in Hw. fold (validator_weights vs) in Hw.
  unfold weigh. rewrite <- (zsum_imap_single _ _ _ Hw), zsum_imap_add. f_equal. apply imap_ext. intros j x _. unfold masked_weight.
  replace (j =? Z.to_nat i)%nat with (Z.of_nat j =? i) by (apply Bool.eq_true_iff_eq; rewrite Z.eqb_eq, Nat.eqb_eq; lia).
  destruct (Z.of_nat j =? i) eqn:E; [apply Z.eqb_eq in E; rewrite E, Hf; cbn; lia|]. rewrite orb_false_r. lia.
Qed.
End weigh.

(** ** Quorums of an instance *)

Section quorum.
Context {C : Context} {F : F64} {R : LeaderRng}.
Implicit Types (z : Zug) (f : Z -> bool).

Definition known_faulty z (i : Z) : bool := bool_decide (is_Some (faults z !! i)).
Definition members (l : list Z) (i : Z) : bool := bool_decide (i ∈ l).

(** What a node's validator set and faults must satisfy. *)
Record weights_ok z : Prop := {
  wo_validators : validators_ok (vset z);
  wo_ftt : 0 <= params_ftt (params (setup z)) < 2 ^ 64;
  wo_faults : forall i, is_Some (faults z !! i) -> 0 <= i < len (vset z)
}.

Lemma quorum_threshold_eq z :
  weights_ok z -> quorum_threshold z = (total_weight (vset z) + params_ftt (params (setup z))) / 2.
Proof.
  intros [Hok Hftt _]. unfold quorum_threshold. pose proof (vo_bound _ Hok).
  pose proof (weigh_le_total (vset z) (fun _ => true) Hok) as Hn. rewrite weigh_all in Hn by done.
  set (t := total_weight (vset z)) in *. set (f := params_ftt (params (setup z))) in *. unfold as_u64.
  destruct (2 ^ 64 <=? t + f) eqn:E.
  - replace ((t + f) mod 2 ^ 64) with (t + f - 2 ^ 64) by (apply (Z.mod_unique _ _ 1); lia).
    assert ((t + f) / 2 = (t + f - 2 ^ 64) / 2 + 2 ^ 63) as ->.
    { replace (t + f) with (t + f - 2 ^ 64 + 2 ^ 63 * 2) at 1 by lia. by rewrite Z.div_add by lia. }
    pose proof (Z.add_lor_land ((t + f - 2 ^ 64) / 2) (2 ^ 63)) as Hx.
    enough (Z.land ((t + f - 2 ^ 64) / 2) (2 ^ 63) = 0) by lia. rewrite Z.land_comm.
    apply Z.bits_inj'. intros k Hk. rewrite Z.land_spec, Z.bits_0, Z.pow2_bits_eqb by lia.
    destruct (63 =? k) eqn:Ek; [|done]. apply Z.eqb_eq in Ek as <-. cbn [andb].
    apply Z.testbit_false; [lia|]. rewrite Z.div_small; [done|]. split; [apply Z.div_pos; lia|].
    apply Z.div_lt_upper_bound; lia.
  - by rewrite Z.mod_small by lia.
Qed.

Lemma weight_of_Some z i : 0 <= i < len (vset z) -> exists w, weight_of (vset z) i = Some w.
Proof.
  intros Hi. unfold weight_of. destruct (vec_get_is_Some (validators (vset z)) i Hi) as [v Hv]. rewrite Hv. by eexists.
Qed.

Lemma sum_weights_spec z vidxs :
  validators_ok (vset z) -> NoDup vidxs -> (forall v, v ∈ vidxs -> 0 <= v < len (vset z)) ->
  sum_weights z vidxs = Ok (weigh (vset z) (members vidxs)).
Proof.
  intros Hok Hnd Hr. unfold sum_weights.
  assert (forall f, (forall v, v ∈ vidxs -> f v = false) ->
    foldl (fun acc v => acc ← acc; w ← expect (weight_of (vset z) v); expect (checked_add 64 acc w)) (Ok (weigh (vset z) f)) vidxs =
    Ok (weigh (vset z) (fun i => f i || members vidxs i)) :> result NodeId Z) as Hfold.
  2: { specialize (Hfold (fun _ => false) ltac:(done)). cbn [orb] in Hfold. etransitivity; [|exact Hfold]. f_equal. f_equal.
       pose proof (weigh_le_total (vset z) (fun _ => false) Hok). enough (weigh (vset z) (fun _ => false) <= 0) by lia.
       unfold weigh. clear. induction (validator_weights (vset z)) as [|w ws IH]; [done|]. cbn [imap]. change (0 + zsum (imap (masked_weight (fun _ => false)) ws) <= 0). lia. }
  induction Hnd as [|v vidxs Hv Hnd IH]; intros f Hf; cbn [foldl].
  - f_equal. apply weigh_ext. intros i _. unfold members. rewrite bool_decide_false by apply not_elem_of_nil. by rewrite orb_false_r.
  - destruct (weight_of_Some z v) as [w Hw]; [apply Hr; left|]. cbn [mbind result_bind]. rewrite Hw. cbn [expect mbind result_bind].
    assert (f v = false) as Hfv by (apply Hf; left).
    pose proof (weigh_add (vset z) f v w ltac:(apply Hr; left) Hw Hfv) as Hadd.
    pose proof (weigh_le_total (vset z) (fun j => f j || (j =? v)) Hok) as Hle. pose proof (vo_bound _ Hok).
    unfold checked_add, checked. rewrite <- Hadd. rewrite decide_True by (unfold in_u; lia). cbn [expect].
    rewrite IH.
    + f_equal. apply weigh_ext. intros i _. unfold members. destruct (i =? v) eqn:E.
      * apply Z.eqb_eq in E as ->. rewrite (bool_decide_true (v ∈ v :: vidxs)) by left. by rewrite !orb_true_r.
      * rewrite orb_false_r. f_equal. apply bool_decide_ext. rewrite elem_of_cons. split; [by right|]. intros [->|?]; [lia|done].
    + intros u Hu. apply Hr. by right.
    + intros u Hu. rewrite (Hf u) by (by right). cbn. apply Z.eqb_neq. intros ->. done.
Qed.

Lemma faulty_weight_spec z : weights_ok z -> faulty_weight z = Ok (weigh (vset z) (known_faulty z)).
Proof.
  intros [Hok _ Hf]. unfold faulty_weight. rewrite sum_weights_spec; [|done|apply NoDup_fst_map_to_list|].
  - f_equal. apply weigh_ext. intros i _. apply bool_decide_ext. rewrite list_elem_of_fmap. split.
    + intros ([k v] & -> & ?%elem_of_map_to_list). by eexists.
    + intros [v Hv]. exists (i, v). split; [done|]. by apply elem_of_map_to_list.
  - intros v ([k x] & -> & Hx%elem_of_map_to_list)%list_elem_of_fmap. apply Hf. by eexists.
Qed.

Lemma quorum_from_spec z t vidxs f :
  validators_ok (vset z) -> (forall v, v ∈ vidxs -> 0 <= v < len (vset z)) -> NoDup vidxs ->
  (forall i, known_faulty z i = true -> f i = true) -> (forall v, v ∈ vidxs -> known_faulty z v = false -> f v = false) ->
  weigh (vset z) f <= t ->
  quorum_from z t vidxs (weigh (vset z) f) = Ok (bool_decide (t < weigh (vset z) (fun i => f i || members vidxs i))).
Proof.
  intros Hok Hr Hnd. revert f. induction Hnd as [|v vidxs Hv Hnd IH]; intros f Hkf Hf Ht; cbn [quorum_from].
  - f_equal. symmetry. apply bool_decide_false. rewrite (weigh_ext _ _ f); [lia|]. intros i _. unfold members.
    rewrite bool_decide_false by apply not_elem_of_nil. by rewrite orb_false_r.
  - assert (forall u, u ∈ vidxs -> 0 <= u < len (vset z)) as Hr' by (intros u Hu; apply Hr; by right).
    case_decide as Hfv.
    + rewrite IH; [|done..|intros u Hu; apply Hf; by right|done]. f_equal. apply bool_decide_ext.
      rewrite (weigh_ext _ (fun i => f i || members (v :: vidxs) i) (fun i => f i || members vidxs i)); [done|].
      intros i _. unfold members. destruct (decide (i = v)) as [->|Hne].
      * rewrite (Hkf v) by (by apply bool_decide_true). done.
      * f_equal. apply bool_decide_ext. rewrite elem_of_cons. naive_solver.
    + destruct (weight_of_Some z v) as [w Hw]; [apply Hr; left|]. rewrite Hw. cbn [expect mbind result_bind].
      assert (f v = false) as Hff by (apply Hf; [left|by apply bool_decide_false]).
      pose proof (weigh_add (vset z) f v w ltac:(apply Hr; left) Hw Hff) as Hadd.
      pose proof (weigh_le_total (vset z) (fun j => f j || (j =? v)) Hok) as Hle. pose proof (vo_bound _ Hok).
      unfold saturating_add, u_max. rewrite Z.min_l by lia. rewrite <- Hadd.
      assert (forall i, (f i || (i =? v)) || members vidxs i = f i || members (v :: vidxs) i) as Hext.
      { intros i. unfold members. destruct (i =? v) eqn:E.
        - apply Z.eqb_eq in E as ->. rewrite (bool_decide_true (v ∈ v :: vidxs)) by left. by rewrite !orb_true_r.
        - rewrite orb_false_r. f_equal. apply bool_decide_ext. rewrite elem_of_cons. split; [by right|]. intros [->|?]; [lia|done]. }
      destruct (t <? weigh (vset z) (fun j => f j || (j =? v))) eqn:E.
      * f_equal. symmetry. apply bool_decide_true. apply Z.ltb_lt in E. eapply Z.lt_le_trans; [exact E|]. apply weigh_mono; [done|].
        intros i _ Hi. rewrite <- Hext, Hi. done.
      * rewrite IH.
        -- f_equal. apply bool_decide_ext. by rewrite (weigh_ext _ _ _ (fun i _ => Hext i)).
        -- done.
        -- intros i Hi. by rewrite (Hkf i Hi).
        -- intros u Hu Hku. rewrite (Hf u) by (done || by right). cbn. apply Z.eqb_neq. by intros ->.
        -- lia.
Qed.

Lemma is_quorum_spec z vidxs :
  weights_ok z -> (forall v, v ∈ vidxs -> 0 <= v < len (vset z)) -> NoDup vidxs ->
  is_quorum z vidxs = Ok (bool_decide (quorum_threshold z < weigh (vset z) (fun i => known_faulty z i || members vidxs i))).
Proof.
  intros Hw Hr Hnd. unfold is_quorum. rewrite faulty_weight_spec by done. cbn [mbind result_bind].
  destruct (quorum_threshold z <? weigh (vset z) (known_faulty z)) eqn:E.
  - f_equal. symmetry. apply bool_decide_true. apply Z.ltb_lt in E. eapply Z.lt_le_trans; [exact E|]. apply weigh_mono; [apply Hw|].
    intros i _ ->. done.
  - apply quorum_from_spec; [apply Hw|done..|lia].
Qed.

(** ** Certificates *)

(** A history of messages signed by the correct validators: validator, round, content. *)
Definition History : Type := Z -> Z -> Content -> Prop.

Context (vs : Validators ValidatorId) (ftt : Z) (honest : Z -> bool).

(** Correct validators do not contradict themselves. *)
Definition consistent (H : History) : Prop :=
  forall v r c1 c2, honest v = true -> H v r c1 -> H v r c2 -> contradicts c1 c2 = false.

(** A quorum of which every correct member signed [c] in round [r]. *)
Definition certified (H : History) (r : Z) (c : Content) : Prop :=
  exists f, (total_weight vs + ftt) / 2 < weigh vs f /\
    forall v, 0 <= v < len vs -> f v = true -> honest v = true -> H v r c.

Lemma certified_mono (H H' : History) r c :
  (forall v r c, H v r c -> H' v r c) -> certified H r c -> certified H' r c.
Proof. intros HH (f & Hf & Hv). exists f. split; [done|]. eauto. Qed.

Hypothesis Hvs : validators_ok vs.
Hypothesis Hbyz : weigh vs (fun v => negb (honest v)) <= ftt.

(** Two quorums share a correct validator. *)
Lemma quorums_intersect f g :
  (total_weight vs + ftt) / 2 < weigh vs f -> (total_weight vs + ftt) / 2 < weigh vs g ->
  exists v, 0 <= v < len vs /\ f v = true /\ g v = true /\ honest v = true.
Proof.
  intros Hf Hg. pose proof (weigh_overlap vs f g Hvs). pose proof (Z.div_mod (total_weight vs + ftt) 2 ltac:(lia)).
  pose proof (Z.mod_pos_bound (total_weight vs + ftt) 2 ltac:(lia)).
  destruct (weigh_exceeds vs (fun i => f i && g i) (fun v => negb (honest v)) Hvs ltac:(lia)) as (v & Hv & [? ?]%andb_true_iff & ?%negb_false_iff).
  by exists v.
Qed.

Lemma certified_agree (H : History) r c1 c2 :
  consistent H -> certified H r c1 -> certified H r c2 -> contradicts c1 c2 = false.
Proof.
  intros Hc (f & Hf & Hfv) (g & Hg & Hgv). destruct (quorums_intersect f g Hf Hg) as (v & Hv & ? & ? & ?). eauto.
Qed.
Lemma certified_echo (H : History) r h1 h2 : consistent H -> certified H r (Echo h1) -> certified H r (Echo h2) -> h1 = h2.
Proof. intros Hc H1 H2. pose proof (certified_agree H r _ _ Hc H1 H2) as E. cbn in E. apply bool_decide_eq_false in E. by destruct (decide (h1 = h2)). Qed.
Lemma certified_vote (H : History) r : consistent H -> certified H r (Vote true) -> certified H r (Vote false) -> False.
Proof. intros Hc H1 H2. pose proof (certified_agree H r _ _ Hc H1 H2) as E. done. Qed.

(** ** Certified chains *)

Record Link : Type := mkLink { link_round : Z; link_height : Z; link_proposal : Proposal }.

(** The ancestors of an accepted proposal, the first one of the era first: each has a quorum of
    echoes, and all rounds between it and its parent are skippable. *)
Inductive Chain (H : History) : Z -> Z -> Proposal -> list Link -> Prop :=
| Chain_first r p :
    0 <= r -> certified H r (Echo (hash_proposal p)) -> maybe_parent_round_id p = None ->
    (forall s, 0 <= s < r -> certified H s (Vote false)) ->
    Chain H r 0 p [mkLink r 0 p]
| Chain_child r p parent h q l :
    parent < r -> certified H r (Echo (hash_proposal p)) -> maybe_parent_round_id p = Some parent ->
    (forall s, parent < s < r -> certified H s (Vote false)) ->
    Chain H parent h q l ->
    Chain H r (saturating_add 64 h 1) p (l ++ [mkLink r (saturating_add 64 h 1) p]).

Lemma Chain_mono (H H' : History) r h p l :
  (forall v r c, H v r c -> H' v r c) -> Chain H r h p l -> Chain H' r h p l.
Proof. intros HH. induction 1; econstructor; eauto using certified_mono. Qed.
Lemma Chain_nonneg (H : History) r h p l : Chain H r h p l -> 0 <= r.
Proof. induction 1; lia. Qed.
Lemma Chain_echo (H : History) r h p l : Chain H r h p l -> certified H r (Echo (hash_proposal p)).
Proof. by destruct 1. Qed.

Hypothesis hash_inj : forall p q, hash_proposal p = hash_proposal q -> p = q.

(** The chain of a round is unique. *)
Lemma Chain_unique (H : History) r h1 h2 p1 p2 l1 l2 :
  consistent H -> Chain H r h1 p1 l1 -> Chain H r h2 p2 l2 -> h1 = h2 /\ p1 = p2 /\ l1 = l2.
Proof.
  intros Hc H1. revert h2 p2 l2. induction H1 as [r p1 Hr He Hp Hs|r p1 parent h q l Hr He Hp Hs Hl IH]; intros h2 p2 l2 H2.
  - assert (p1 = p2) as -> by (apply hash_inj; eapply certified_echo; [done|done|by eapply Chain_echo]).
    inversion H2; subst; [done|congruence].
  - assert (p1 = p2) as -> by (apply hash_inj; eapply certified_echo; [done|done|by eapply Chain_echo]).
    inversion H2; subst; [congruence|]. simplify_eq. edestruct IH as (-> & -> & ->); [eassumption|]. done.
Qed.

(** A committed round is on the chain of every later round that is accepted. *)
Lemma Chain_includes (H : History) r h p l s hs ps ls :
  consistent H -> Chain H r h p l -> Chain H s hs ps ls -> certified H s (Vote true) -> s <= r -> ls `prefix_of` l.
Proof.
  intros Hc Hr Hs Ht. induction Hr as [r p Hr0 He Hp Hskip|r p parent h q l Hr0 He Hp Hskip Hl IH]; intros Hle.
  - destruct (decide (s = r)) as [->|Hne].
    + destruct (Chain_unique H r 0 hs p ps [mkLink r 0 p] ls Hc) as (_ & _ & <-); [by constructor|done|done].
    + exfalso. pose proof (Chain_nonneg _ _ _ _ _ Hs). eapply certified_vote; [done|done|]. apply Hskip. lia.
  - destruct (decide (s = r)) as [->|Hne].
    + destruct (Chain_unique H r (saturating_add 64 h 1) hs p ps (l ++ [mkLink r (saturating_add 64 h 1) p]) ls Hc) as (_ & _ & <-); [by econstructor|done|done].
    + destruct (decide (s <= parent)) as [Hsp|Hsp]; [by apply prefix_app_r, IH|].
      exfalso. eapply certified_vote; [done|done|]. apply Hskip. lia.
Qed.
End quorum.
