(* ===== verification/ZugInv.v ===== *)
(** * The Zug consensus protocol: the invariant of a node

    What holds of the state of a correct node after any sequence of events, relative to the
    history of messages that correct validators have signed; that every part of the handlers
    preserves it and neither panics nor runs forever. *)
From S2P Require Import Prelude Effects BTree Validators ZugTypes Zug ZugQuorum.

Open Scope Z_scope.

(** ** Computations that return *)

Section ok.
Context {S E : Type}.
Definition ok {A} (m : st S E A) (s : S) (Q : A -> S -> Prop) : Prop := exists a s', m s = (Ok a, s') /\ Q a s'.

Lemma ok_bind {A B} (m : st S E A) (f : A -> st S E B) s (P : A -> S -> Prop) Q :
  ok m s P -> (forall a s', P a s' -> ok (f a) s' Q) -> ok (m ≫= f) s Q.
Proof.
  intros (a & s' & Hm & Hp) Hf. destruct (Hf a s' Hp) as (b & s'' & Hfa & Hq). exists b, s''.
  split; [|done]. by rewrite (st_bind_eq _ _ _ _ _ Hm).
Qed.
Lemma ok_mono {A} (m : st S E A) s (P Q : A -> S -> Prop) : ok m s P -> (forall a s', P a s' -> Q a s') -> ok m s Q.
Proof. intros (a & s' & Hm & Hp) Hpq. exists a, s'. auto. Qed.
Lemma ok_ret {A} (a : A) s (Q : A -> S -> Prop) : Q a s -> ok (mret a) s Q.
Proof. intros Hq. by exists a, s. Qed.
Lemma ok_lift {A} (r : result E A) a s (Q : A -> S -> Prop) : r = Ok a -> Q a s -> ok (lift r) s Q.
Proof. intros -> Hq. by exists a, s. Qed.
Lemma ok_modify (f : S -> S) s (Q : () -> S -> Prop) : Q () (f s) -> ok (modify f) s Q.
Proof. intros Hq. by exists (), (f s). Qed.
Lemma ok_asks {A} (f : S -> A) s (Q : A -> S -> Prop) : Q (f s) s -> ok (asks f) s Q.
Proof. intros Hq. by exists (f s), s. Qed.
Lemma ok_asks_bind {A B} (f : S -> A) (k : A -> st S E B) s Q : ok (k (f s)) s Q -> ok (asks f ≫= k) s Q.
Proof. by intros (b & s' & Hk & Hq); exists b, s'. Qed.
Lemma ok_lift_bind {A B} (r : result E A) a (k : A -> st S E B) s Q : r = Ok a -> ok (k a) s Q -> ok (lift r ≫= k) s Q.
Proof. by intros -> (b & s' & Hk & Hq); exists b, s'. Qed.
Lemma ok_lift_total {A B} (r : result E A) (k : A -> st S E B) s Q :
  (exists a, r = Ok a) -> (forall a, r = Ok a -> ok (k a) s Q) -> ok (lift r ≫= k) s Q.
Proof. intros [a Ha] Hk. eapply ok_lift_bind; [exact Ha|]. by apply Hk. Qed.
Lemma ok_modify_bind {B} (f : S -> S) (k : () -> st S E B) s Q : ok (k ()) (f s) Q -> ok (modify f ≫= k) s Q.
Proof. by intros (b & s' & Hk & Hq); exists b, s'. Qed.
Lemma ok_ret_bind {A B} (a : A) (k : A -> st S E B) s Q : ok (k a) s Q -> ok (mret a ≫= k) s Q.
Proof. by intros (b & s' & Hk & Hq); exists b, s'. Qed.
End ok.

Ltac ok_step :=
  cbv beta;
  lazymatch goal with
  | |- ok (asks _ ≫= _) _ _ => apply ok_asks_bind
  | |- ok (modify _ ≫= _) _ _ => apply ok_modify_bind
  | |- ok (mret _ ≫= _) _ _ => apply ok_ret_bind
  end.

Section inv.
Context {C : Context} {F : F64} {R : LeaderRng}.

(** ** The setting

    [S0] is what the nodes of an era share; [honest] are the correct validators; [lead] the
    leaders of the rounds. [me] is the index of the node's own validator, if it has one;
    [others] the messages signed by the other correct validators. [pend] is a message of the
    node's own that is in the log already and is about to be added to its round. *)
Variables (S0 : Setup) (honest : Z -> bool) (lead : Z -> Z) (me : option Z) (others : History) (pend : option (Z * Z * Content)).
Abbreviation vs := (validator_set S0).
Abbreviation ftt0 := (params_ftt (params S0)).
Abbreviation cert := (certified vs ftt0 honest).
Abbreviation chain := (Chain vs ftt0 honest).

(** The faulty validators weigh at most the threshold; the leader sequence is total; the hash
    of a proposal identifies it. *)
Record era_ok : Prop := {
  eo_validators : validators_ok vs;
  eo_ftt : 0 <= ftt0 < 2 ^ 64;
  eo_byz : weigh vs (fun v => negb (honest v)) <= ftt0;
  eo_lead : forall r, 0 <= r -> leader std_binary_search chacha_range (leader_sequence S0) r = Ok (lead r) /\ 0 <= lead r < len vs;
  eo_hash : forall p q, hash_proposal p = hash_proposal q -> p = q
}.
(** The node's own validator is a correct one. *)
Definition me_ok : Prop := forall v, me = Some v -> honest v = true /\ 0 <= v < len vs.

(** ** The history *)

Definition signed_in (file : list ZugWalEntry) (v r : Z) (c : Content) : Prop :=
  exists m, W_SignedMessage m ∈ file /\ validator_idx m = v /\ round_id m = r /\ content m = c.
Definition hist_of (file : list ZugWalEntry) : History := fun v r c => others v r c \/ (me = Some v /\ signed_in file v r c).
Definition hist (z : Zug) : History := hist_of (wal_file z).

(** ** The invariant *)

Definition proposal_ok (r : Z) (p : HashedProposal) : Prop :=
  in_u 32 r /\ hash p = hash_proposal (inner p) /\ forall parent, maybe_parent_round_id (inner p) = Some parent -> 0 <= parent < r.

Definition in_round (rd : Round) (v : Z) (c : Content) : Prop :=
  match c with
  | Echo h => exists m, echoes rd !! h = Some m /\ is_Some (m !! v)
  | Vote b => exists s, vec_get (votes rd b) v = Some (Some s)
  end.
Definition stored (z : Zug) (v r : Z) (c : Content) : Prop := exists rd, rounds z !! r = Some rd /\ in_round rd v c.

Record round_ok (H : History) (r : Z) (rd : Round) : Prop := {
  ro_leader : leader_idx rd = lead r;
  ro_votes_len : forall b, Z.of_nat (length (votes rd b)) = len vs;
  ro_echoes : forall h m v, echoes rd !! h = Some m -> is_Some (m !! v) -> 0 <= v < len vs /\ (honest v = true -> H v r (Echo h));
  ro_votes : forall b v s, 0 <= v -> vec_get (votes rd b) v = Some (Some s) -> honest v = true -> H v r (Vote b);
  ro_proposal : forall p, proposal rd = Some p -> proposal_ok r p;
  ro_quorum_echoes : forall h, quorum_echoes (outcome rd) = Some h -> cert H r (Echo h);
  ro_quorum_votes : forall b, quorum_votes (outcome rd) = Some b -> cert H r (Vote b);
  ro_match : forall h p, quorum_echoes (outcome rd) = Some h -> proposal rd = Some p -> hash p = h;
  ro_accepted : forall h, accepted_proposal_height (outcome rd) = Some h ->
    exists p l, proposal rd = Some p /\ quorum_echoes (outcome rd) = Some (hash p) /\ chain H r h (inner p) l
}.

Definition message_ok (H : History) (m : SignedMessage) : Prop :=
  0 <= validator_idx m < len vs /\ in_u 32 (round_id m) /\
  (honest (validator_idx m) = true -> H (validator_idx m) (round_id m) (content m)).
Definition entry_ok (H : History) (e : ZugWalEntry) : Prop :=
  match e with
  | W_SignedMessage m => message_ok H m
  | W_Proposal p r => proposal_ok r (hashed_proposal_new p)
  | W_Evidence m _ _ => 0 <= validator_idx m < len vs /\ honest (validator_idx m) = false
  end.

Record Inv (z : Zug) : Prop := {
  inv_setup : setup z = S0;
  inv_active : Z.of_nat (length (active z)) = len vs;
  inv_seen : forall v m, 0 <= v -> vec_get (active z) v = Some (Some m) -> honest (validator_idx m) = true ->
    hist z (validator_idx m) (round_id m) (content m);
  inv_faults : forall v, is_Some (faults z !! v) -> 0 <= v < len vs /\ honest v = false;
  inv_evidence : forall v m c s, faults z !! v = Some (Direct m c s) -> validator_idx m = v;
  inv_rounds : forall r rd, rounds z !! r = Some rd -> in_u 32 r /\ round_ok (hist z) r rd;
  inv_parents : forall r h p parent, round_accepted z r = Some (h, p) -> maybe_parent_round_id (inner p) = Some parent ->
    is_Some (round_accepted z parent);
  inv_fnf : in_u 32 (first_non_finalized_round_id z);
  inv_current : in_u 32 (current_round z);
  inv_dirty : forall d, maybe_dirty_round_id z = Some d -> in_u 32 d;
  inv_pending : forall c r parent, pending_proposal z = Some (c, r, Some parent) -> 0 <= parent < r;
  inv_waiting_parent : forall k l p rs r s, proposals_waiting_for_parent z !! k = Some l -> (p, rs) ∈ l -> (r, s) ∈ rs -> proposal_ok r p;
  inv_waiting_validation : forall b l r p s, (b, l) ∈ proposals_waiting_for_validation z -> (r, p, s) ∈ l -> proposal_ok r p;
  inv_wal : forall e, e ∈ wal_file z -> entry_ok (hist z) e;
  inv_own : forall v r c1 c2, me = Some v -> signed_in (wal_file z) v r c1 -> signed_in (wal_file z) v r c2 -> contradicts c1 c2 = false;
  inv_open : forall v r c, me = Some v -> write_wal z = true -> evidence_only z = false -> signed_in (wal_file z) v r c ->
    stored z v r c \/ pend = Some (v, r, c);
  inv_av : forall av, active_validator z = Some av -> me = Some (idx av) /\ evidence_only z = false
}.

(** What the parts of a handler leave unchanged or only extend. *)
Record Step (z z' : Zug) : Prop := {
  step_inv : Inv z';
  step_hist : forall v r c, hist z v r c -> hist z' v r c;
  step_stored : forall v r c, me = Some v -> stored z v r c -> stored z' v r c;
  step_closed : write_wal z = false -> write_wal z' = false /\ wal_file z' = wal_file z;
  step_evidence : evidence_only z' = evidence_only z
}.
Record Keep (z z' : Zug) : Prop := {
  keep_accepted : forall r x, round_accepted z r = Some x -> round_accepted z' r = Some x;
  keep_votes : forall r b rd, rounds z !! r = Some rd -> quorum_votes (outcome rd) = Some b ->
    exists rd', rounds z' !! r = Some rd' /\ quorum_votes (outcome rd') = Some b;
  keep_current : current_round z' = current_round z;
  keep_fnf : first_non_finalized_round_id z' = first_non_finalized_round_id z;
  keep_faults : faults z' = faults z
}.

(** A step that does not touch the log, what is accepted or the current round. *)
Record Pure (z z' : Zug) : Prop := {
  pure_step : Step z z';
  pure_keep : Keep z z';
  pure_file : wal_file z' = wal_file z;
  pure_wal : write_wal z' = write_wal z;
  pure_av : active_validator z' = active_validator z
}.

(** The fields the invariant is about. *)
Definition core (z : Zug) :=
  (setup z, active_validator z, evidence_only z, rounds z, faults z, active z, first_non_finalized_round_id z,
   current_round z, pending_proposal z, proposals_waiting_for_parent z, proposals_waiting_for_validation z, write_wal z, wal_file z).

(** A change of a round that keeps what is accepted, decided and stored. *)
Record round_mono (rd rd' : Round) : Prop := {
  rm_accepted : accepted_proposal rd' = accepted_proposal rd;
  rm_votes : forall b, quorum_votes (outcome rd) = Some b -> quorum_votes (outcome rd') = Some b;
  rm_stored : forall v c, me = Some v -> in_round rd v c -> in_round rd' v c
}.
End inv.
Arguments eo_validators {C R S0 honest lead} _.
Arguments eo_ftt {C R S0 honest lead} _.
Arguments eo_byz {C R S0 honest lead} _.
Arguments eo_lead {C R S0 honest lead} _.
Arguments eo_hash {C R S0 honest lead} _.
Arguments ro_leader {C S0 honest lead} H r rd _.
Arguments ro_votes_len {C S0 honest lead} H r rd _.
Arguments ro_echoes {C S0 honest lead} H r rd _.
Arguments ro_votes {C S0 honest lead} H r rd _.
Arguments ro_proposal {C S0 honest lead} H r rd _.
Arguments ro_quorum_echoes {C S0 honest lead} H r rd _.
Arguments ro_quorum_votes {C S0 honest lead} H r rd _.
Arguments ro_match {C S0 honest lead} H r rd _.
Arguments ro_accepted {C S0 honest lead} H r rd _.
Arguments inv_setup {C F S0 honest lead me others pend} z _.
Arguments inv_active {C F S0 honest lead me others pend} z _.
Arguments inv_seen {C F S0 honest lead me others pend} z _.
Arguments inv_faults {C F S0 honest lead me others pend} z _.
Arguments inv_evidence {C F S0 honest lead me others pend} z _.
Arguments inv_rounds {C F S0 honest lead me others pend} z _.
Arguments inv_parents {C F S0 honest lead me others pend} z _.
Arguments inv_fnf {C F S0 honest lead me others pend} z _.
Arguments inv_current {C F S0 honest lead me others pend} z _.
Arguments inv_dirty {C F S0 honest lead me others pend} z _.
Arguments inv_pending {C F S0 honest lead me others pend} z _.
Arguments inv_waiting_parent {C F S0 honest lead me others pend} z _.
Arguments inv_waiting_validation {C F S0 honest lead me others pend} z _.
Arguments inv_wal {C F S0 honest lead me others pend} z _.
Arguments inv_own {C F S0 honest lead me others pend} z _.
Arguments inv_open {C F S0 honest lead me others pend} z _.
Arguments inv_av {C F S0 honest lead me others pend} z _.
Arguments step_inv {C F S0 honest lead me others pend} z z' _.
Arguments step_hist {C F S0 honest lead me others pend} z z' _.
Arguments step_stored {C F S0 honest lead me others pend} z z' _.
Arguments step_closed {C F S0 honest lead me others pend} z z' _.
Arguments step_evidence {C F S0 honest lead me others pend} z z' _.
Arguments pure_step {C F S0 honest lead me others pend} z z' _.
Arguments pure_keep {C F S0 honest lead me others pend} z z' _.
Arguments pure_file {C F S0 honest lead me others pend} z z' _.
Arguments pure_wal {C F S0 honest lead me others pend} z z' _.
Arguments pure_av {C F S0 honest lead me others pend} z z' _.
Arguments rm_accepted {C me} rd rd' _.
Arguments rm_votes {C me} rd rd' _.
Arguments rm_stored {C me} rd rd' _.

Section facts.
Context {C : Context} {F : F64} {R : LeaderRng}.
Context {S0 : Setup} {honest : Z -> bool} {lead : Z -> Z} {me : option Z} {others : History} {pend : option (Z * Z * Content)}.
Hypothesis Hera : era_ok S0 honest lead.
Hypothesis Hme : me_ok S0 honest me.
Abbreviation vs := (validator_set S0).
Abbreviation ftt0 := (params_ftt (params S0)).
Abbreviation cert := (certified vs ftt0 honest).
Abbreviation chain := (Chain vs ftt0 honest).
Abbreviation hist := (hist me others).
Abbreviation round_ok := (round_ok S0 honest lead).
Abbreviation message_ok := (message_ok S0 honest).
Abbreviation entry_ok := (entry_ok S0 honest).
Abbreviation Inv := (Inv S0 honest lead me others pend).
Abbreviation Step := (Step S0 honest lead me others pend).
Abbreviation Pure := (Pure S0 honest lead me others pend).
Abbreviation round_mono := (round_mono me).

Lemma Step_refl z : Inv z -> Step z z.
Proof. intros Hi. by split. Qed.
Lemma Step_trans z1 z2 z3 : Step z1 z2 -> Step z2 z3 -> Step z1 z3.
Proof.
  intros [I1 H1 S1 W1 E1] [I2 H2 S2 W2 E2]. split; [done|auto|eauto| |congruence].
  intros Hw. destruct (W1 Hw) as [Hw2 Hf]. destruct (W2 Hw2) as [? ?]. split; congruence.
Qed.
Lemma Keep_refl z : Keep z z.
Proof. split; eauto. Qed.
Lemma Keep_trans z1 z2 z3 : Keep z1 z2 -> Keep z2 z3 -> Keep z1 z3.
Proof.
  intros [A1 V1 C1 F1 G1] [A2 V2 C2 F2 G2]. split; [auto| |congruence..].
  intros r b rd Hr Hb. destruct (V1 _ _ _ Hr Hb) as (rd' & Hr' & Hb'). eauto.
Qed.

Lemma Pure_refl z : Inv z -> Pure z z.
Proof. intros Hi. split; [by apply Step_refl|apply Keep_refl|done..]. Qed.
Lemma Pure_trans z1 z2 z3 : Pure z1 z2 -> Pure z2 z3 -> Pure z1 z3.
Proof. intros [S1 K1 ? ? ?] [S2 K2 ? ? ?]. split; [by eapply Step_trans|by eapply Keep_trans|congruence..]. Qed.
Lemma Pure_inv z z' : Pure z z' -> Inv z'.
Proof. intros Hp. apply Hp. Qed.
Lemma Pure_hist z z' : Pure z z' -> hist z' = hist z.
Proof. intros Hp. unfold hist. by rewrite (pure_file _ _ Hp). Qed.

Lemma core_Pure z z' :
  Inv z -> core z' = core z -> (forall d, maybe_dirty_round_id z' = Some d -> in_u 32 d) -> Pure z z'.
Proof.
  unfold core. intros Hi Hc Hd. injection Hc as Es Eav Eev Er Ef Ea Efnf Ecur Ep Ewp Ewv Eww Ewf.
  assert (forall r, round_accepted z' r = round_accepted z r) as Hacc by (intros r; unfold round_accepted, round; by rewrite Er).
  assert (forall v r c, stored z' v r c <-> stored z v r c) as Hst by (intros v r c; unfold stored; by rewrite Er).
  split; [split|split|congruence..]; [|unfold hist; by rewrite Ewf|intros v r c _; by rewrite Hst|intros Hw; split; congruence|congruence
    |intros r x; by rewrite Hacc|intros r b rd; rewrite Er; eauto|congruence..].
  - destruct Hi. split; unfold hist in *; rewrite ?Es, ?Eav, ?Eev, ?Er, ?Ef, ?Ea, ?Efnf, ?Ecur, ?Ep, ?Ewp, ?Ewv, ?Eww, ?Ewf; try done.
    + intros r h p parent. rewrite !Hacc. eauto.
    + intros v r c. rewrite Hst. eauto.
Qed.

(** ** More history keeps everything true *)

Lemma round_ok_mono (H H' : History) r rd : (forall v r c, H v r c -> H' v r c) -> round_ok H r rd -> round_ok H' r rd.
Proof.
  intros HH []. split; try done.
  - intros h m v Hm Hv. edestruct ro_echoes0; eauto.
  - eauto.
  - intros h Hh. eapply certified_mono; eauto.
  - intros b Hb. eapply certified_mono; eauto.
  - intros h Hh. destruct (ro_accepted0 h Hh) as (p & l & ? & ? & ?). exists p, l. split_and!; [done|done|]. by eapply Chain_mono.
Qed.
Lemma message_ok_mono (H H' : History) m : (forall v r c, H v r c -> H' v r c) -> message_ok H m -> message_ok H' m.
Proof. intros HH (? & ? & ?). split; [done|]. split; [done|]. auto. Qed.
Lemma entry_ok_mono (H H' : History) e : (forall v r c, H v r c -> H' v r c) -> entry_ok H e -> entry_ok H' e.
Proof. intros HH. destruct e; cbn; [|done|done]. by apply message_ok_mono. Qed.

(** ** Changing one round *)

Lemma round_mono_refl rd : round_mono rd rd.
Proof. by split. Qed.

Lemma round_accepted_put z r rd r' :
  round_accepted (set_rounds (<[r := rd]> (rounds z)) z) r' = if decide (r = r') then accepted_proposal rd else round_accepted z r'.
Proof.
  unfold round_accepted, round. cbn [rounds set_rounds]. case_decide as E; [subst; by rewrite lookup_insert_eq|by rewrite lookup_insert_ne].
Qed.

Lemma put_round_mono z r rd' :
  Inv z -> in_u 32 r -> round_ok (hist z) r rd' ->
  match rounds z !! r with Some rd => round_mono rd rd' | None => accepted_proposal rd' = None end ->
  Pure z (set_rounds (<[r := rd']> (rounds z)) z).
Proof.
  intros Hi Hr Hok Hm.
  assert (forall r', round_accepted (set_rounds (<[r := rd']> (rounds z)) z) r' = round_accepted z r') as Hacc.
  { intros r'. rewrite round_accepted_put. case_decide as E; [subst r'|done]. unfold round_accepted, round.
    destruct (rounds z !! r); cbn; [exact (rm_accepted _ _ Hm)|done]. }
  assert (forall v r' c, me = Some v -> stored z v r' c -> stored (set_rounds (<[r := rd']> (rounds z)) z) v r' c) as Hst.
  { intros v r' c Hv (rd & Hrd & Hin). unfold stored. cbn [rounds set_rounds]. destruct (decide (r = r')) as [->|Hne].
    - rewrite Hrd in Hm. exists rd'. rewrite lookup_insert_eq. split; [done|]. exact (rm_stored _ _ Hm _ _ Hv Hin).
    - exists rd. by rewrite lookup_insert_ne. }
  split; [split|split|done..]; try done.
  - destruct Hi. split; cbn; try done.
    + intros r' rd. destruct (decide (r = r')) as [->|Hne].
      * rewrite lookup_insert_eq. intros [= <-]. done.
      * rewrite lookup_insert_ne by done. apply inv_rounds0.
    + intros r' h p parent. rewrite !Hacc. eauto.
    + intros v r' c Hv Hw He Hs. destruct (inv_open0 v r' c Hv Hw He Hs); [left; by apply Hst|by right].
  - intros r' x. by rewrite Hacc.
  - intros r' b rd Hrd Hb. cbn. destruct (decide (r = r')) as [->|Hne].
    + rewrite Hrd in Hm. exists rd'. rewrite lookup_insert_eq. split; [done|]. exact (rm_votes _ _ Hm _ Hb).
    + exists rd. by rewrite lookup_insert_ne.
Qed.

Lemma seq_leader_ok z r : setup z = S0 -> 0 <= r -> seq_leader z r = Ok (lead r) /\ 0 <= lead r < len vs.
Proof. intros Hs Hr. unfold seq_leader. rewrite Hs. destruct (eo_lead Hera r Hr) as [-> ?]. done. Qed.

Lemma round_new_ok (H : History) r : round_ok H r (round_new (len vs) (lead r)).
Proof.
  assert (0 <= len vs) by (unfold len; lia). split; try done.
  - intros b. destruct b; cbn [votes votes_true votes_false round_new]; rewrite length_replicate; lia.
  - intros b v s Hv Hs. exfalso. assert (vec_get (replicate (Z.to_nat (len vs)) (None : option Signature)) v = Some (Some s)) as Hs' by (by destruct b).
    unfold vec_get in Hs'. apply lookup_replicate in Hs' as [? _]. done.
Qed.

Lemma round_mut_ok z r :
  Inv z -> in_u 32 r ->
  ok (round_mut r) z (fun rd z' => Pure z z' /\ rounds z' !! r = Some rd /\ (forall rd0, rounds z !! r = Some rd0 -> z' = z)).
Proof.
  intros Hi Hr. unfold round_mut, get. ok_step. unfold round. destruct (rounds z !! r) as [rd|] eqn:E.
  - apply ok_ret. split_and!; [by apply Pure_refl|done..].
  - destruct (seq_leader_ok z r (inv_setup _ Hi) (proj1 Hr)) as [El Hl]. eapply ok_lift_bind; [exact El|].
    unfold vset. rewrite (inv_setup _ Hi). ok_step. apply ok_ret. cbn [rounds set_rounds].
    split_and!; [|by rewrite lookup_insert_eq|congruence].
    apply put_round_mono; [done|done|apply round_new_ok|by rewrite E].
Qed.

(** A method of a round that keeps the round well formed. *)
Lemma on_round_ok {A} z r (f : Round -> result NodeId (A * Round)) (P : A -> Round -> Prop) :
  Inv z -> in_u 32 r ->
  (forall rd, round_ok (hist z) r rd -> exists a rd', f rd = Ok (a, rd') /\ round_ok (hist z) r rd' /\ round_mono rd rd' /\ P a rd') ->
  ok (on_round r f) z (fun a z' => Pure z z' /\ exists rd', rounds z' !! r = Some rd' /\ P a rd').
Proof.
  intros Hi Hr Hf. unfold on_round. eapply ok_bind; [by apply round_mut_ok|]. intros rd z1 (P1 & Hrd & _).
  pose proof (inv_rounds _ (Pure_inv _ _ P1) _ _ Hrd) as [_ Hok]. pose proof (Pure_hist _ _ P1) as Hh. rewrite Hh in Hok.
  destruct (Hf rd Hok) as (a & rd' & Ef & Hok' & Hm & Hp). eapply ok_lift_bind; [exact Ef|]. cbn [fst snd]. unfold put_round. ok_step. apply ok_ret.
  split; [|exists rd'; cbn; by rewrite lookup_insert_eq].
  eapply Pure_trans; [exact P1|]. apply put_round_mono; [by eapply Pure_inv|done|by rewrite Hh|by rewrite Hrd].
Qed.

Lemma mark_dirty_ok z r :
  Inv z -> in_u 32 r -> ok (mark_dirty r) z (fun _ z' => Pure z z' /\ core z' = core z).
Proof.
  intros Hi Hr. unfold mark_dirty. apply ok_modify. destruct (_ && _).
  - split; [|done]. apply core_Pure; [done|done|]. by intros d [= <-].
  - split; [by apply Pure_refl|done].
Qed.

Lemma weights_ok_inv z : Inv z -> weights_ok z.
Proof.
  intros Hi. destruct Hera. split; unfold vset; rewrite ?(inv_setup _ Hi); [done..|]. intros i Hf. by apply (inv_faults _ Hi).
Qed.

Lemma quorum_threshold_inv z : Inv z -> quorum_threshold z = (total_weight vs + ftt0) / 2.
Proof. intros Hi. rewrite quorum_threshold_eq by (by apply weights_ok_inv). unfold vset. by rewrite (inv_setup _ Hi). Qed.

(** A node's count of a quorum is a certificate. *)
Lemma is_quorum_cert z r c vidxs :
  Inv z -> NoDup vidxs -> (forall v, v ∈ vidxs -> 0 <= v < len vs /\ (honest v = true -> hist z v r c)) ->
  exists b, is_quorum z vidxs = Ok b /\ (b = true -> cert (hist z) r c).
Proof.
  intros Hi Hnd Hv. pose proof (weights_ok_inv z Hi) as Hw. rewrite is_quorum_spec; [|done| |done].
  2: { intros v Hin. unfold vset. rewrite (inv_setup _ Hi). by apply Hv. }
  eexists. split; [reflexivity|]. rewrite bool_decide_eq_true, quorum_threshold_inv by done. unfold vset. rewrite (inv_setup _ Hi).
  intros Hq. eexists. split; [exact Hq|]. intros v Hr [Hf|Hm]%orb_true_iff Hh.
  - apply bool_decide_eq_true in Hf. apply (inv_faults _ Hi) in Hf as [_ ?]. congruence.
  - apply bool_decide_eq_true in Hm. by apply Hv.
Qed.

Lemma on_existing_ok {A} z r (f : Round -> result NodeId (A * Round)) rd a rd' :
  Inv z -> rounds z !! r = Some rd -> f rd = Ok (a, rd') -> round_ok (hist z) r rd' -> round_mono rd rd' ->
  ok (on_round r f) z (fun a' z' => a' = a /\ z' = set_rounds (<[r := rd']> (rounds z)) z /\ Pure z z').
Proof.
  intros Hi Hrd Hf Hok Hm. unfold on_round, round_mut, get. eapply (ok_bind _ _ _ (fun x z' => x = rd /\ z' = z)).
  { ok_step. unfold round. rewrite Hrd. by apply ok_ret. }
  intros ? ? [-> ->]. eapply ok_lift_bind; [exact Hf|]. cbn [fst snd]. unfold put_round. ok_step. apply ok_ret.
  split_and!; [done|done|]. apply put_round_mono; [done|by apply (inv_rounds _ Hi _ _ Hrd)|done|by rewrite Hrd].
Qed.

(** *** The methods of a round *)

Lemma no_quorum_no_height H r rd : round_ok H r rd -> quorum_echoes (outcome rd) = None -> accepted_proposal_height (outcome rd) = None.
Proof.
  intros Hok Hq. destruct (accepted_proposal_height (outcome rd)) as [h|] eqn:E; [|done].
  destruct (ro_accepted _ _ _ Hok h E) as (p & l & _ & Hq' & _). congruence.
Qed.

Lemma set_quorum_echoes_ok H r rd h :
  round_ok H r rd -> quorum_echoes (outcome rd) = None -> cert H r (Echo h) ->
  round_ok H r (set_quorum_echoes h rd) /\ round_mono rd (set_quorum_echoes h rd).
Proof.
  intros Hok Hq Hc. pose proof (no_quorum_no_height _ _ _ Hok Hq) as Hh. unfold set_quorum_echoes. cbn [proposal set_outcome].
  assert (forall p', (p' = proposal rd \/ p' = None) -> (forall p, p' = Some p -> hash p = h) ->
    round_ok H r (mkRound (leader_idx rd) p' (echoes rd) (votes_false rd) (votes_true rd)
      (mkRoundOutcome (accepted_proposal_height (outcome rd)) (Some h) (quorum_votes (outcome rd)))) /\
    round_mono rd (mkRound (leader_idx rd) p' (echoes rd) (votes_false rd) (votes_true rd)
      (mkRoundOutcome (accepted_proposal_height (outcome rd)) (Some h) (quorum_votes (outcome rd))))) as Hgen.
  { intros p' Hp Hph. split.
    - destruct Hok. split; cbn; try done.
      + intros p E. apply ro_proposal0. destruct Hp; congruence.
      + by intros ? [= <-].
      + intros ? p [= <-] Hp'. eauto.
      + congruence.
    - split; [|done|done]. unfold accepted_proposal. cbn. by rewrite Hh. }
  destruct (proposal rd) as [p|] eqn:Ep; [case_bool_decide as Eh|].
  - apply Hgen; [by right|done].
  - replace (set_outcome _ rd) with (mkRound (leader_idx rd) (Some p) (echoes rd) (votes_false rd) (votes_true rd)
      (mkRoundOutcome (accepted_proposal_height (outcome rd)) (Some h) (quorum_votes (outcome rd)))) by (unfold set_outcome; by rewrite Ep).
    apply Hgen; [by left|]. intros ? [= <-]. by destruct (decide (hash p = h)).
  - replace (set_outcome _ rd) with (mkRound (leader_idx rd) None (echoes rd) (votes_false rd) (votes_true rd)
      (mkRoundOutcome (accepted_proposal_height (outcome rd)) (Some h) (quorum_votes (outcome rd)))) by (unfold set_outcome; by rewrite Ep).
    apply Hgen; [by left|done].
Qed.

Lemma set_quorum_votes_ok H r rd b :
  round_ok H r rd -> quorum_votes (outcome rd) = None -> cert H r (Vote b) ->
  round_ok H r (set_quorum_votes b rd) /\ round_mono rd (set_quorum_votes b rd).
Proof.
  intros Hok Hq Hc. split.
  - destruct Hok. split; cbn; try done. by intros ? [= <-].
  - split; [done|cbn; congruence|done].
Qed.

Lemma insert_echo_ok H r rd h v s :
  round_ok H r rd -> 0 <= v < len vs -> (honest v = true -> H v r (Echo h)) ->
  round_ok H r (insert_echo h v s rd).2 /\ round_mono rd (insert_echo h v s rd).2 /\ in_round (insert_echo h v s rd).2 v (Echo h).
Proof.
  intros Hok Hv Hh. unfold insert_echo. cbn [snd]. split_and!.
  - destruct Hok. split; cbn; try done. intros h' m v'. destruct (decide (h = h')) as [<-|Hne].
    + rewrite lookup_insert_eq. intros [= <-]. destruct (decide (v = v')) as [<-|Hne]; [done|]. rewrite lookup_insert_ne by done.
      destruct (echoes rd !! h) as [m|] eqn:E; cbn; [by apply ro_echoes0|]. rewrite lookup_empty. by intros [].
    + rewrite lookup_insert_ne by done. apply ro_echoes0.
  - split; [done|done|]. intros v' [h'|b] _; cbn; [|done]. intros (m & Hm & Hs). destruct (decide (h = h')) as [<-|Hne].
    + exists (<[v := s]> m). rewrite lookup_insert_eq, Hm. split; [done|]. destruct (decide (v = v')) as [<-|Hne]; [by rewrite lookup_insert_eq|].
      by rewrite lookup_insert_ne.
    + exists m. by rewrite lookup_insert_ne.
  - cbn. eexists. rewrite lookup_insert_eq. split; [done|]. by rewrite lookup_insert_eq.
Qed.

Lemma vec_get_set {A} (l : list A) i j a :
  0 <= i < Z.of_nat (length l) -> 0 <= j -> vec_get (vec_set i a l) j = if decide (i = j) then Some a else vec_get l j.
Proof. intros Hi Hj. apply vec_get_insert; [lia|done|]. destruct (vec_get_is_Some l i Hi) as [? ->]. done. Qed.

Lemma votes_set_votes rd b b' l : votes (set_votes b l rd) b' = if eqb b b' then l else votes rd b'.
Proof. by destruct b, b'. Qed.
Lemma set_votes_frame rd b l :
  leader_idx (set_votes b l rd) = leader_idx rd /\ proposal (set_votes b l rd) = proposal rd /\
  echoes (set_votes b l rd) = echoes rd /\ outcome (set_votes b l rd) = outcome rd.
Proof. by destruct b. Qed.

Lemma insert_vote_ok H r rd b v s :
  round_ok H r rd -> 0 <= v < len vs -> (honest v = true -> H v r (Vote b)) ->
  exists a rd', insert_vote (E := NodeId) b v s rd = Ok (a, rd') /\ round_ok H r rd' /\ round_mono rd rd' /\ in_round rd' v (Vote b).
Proof.
  intros Hok Hv Hh. unfold insert_vote. pose proof (ro_votes_len _ _ _ Hok b) as Hl.
  destruct (vec_get_is_Some (votes rd b) v) as [o Ho]; [by rewrite Hl|]. rewrite Ho. cbn [expect mbind result_bind]. destruct o as [s'|].
  { exists false, rd. split_and!; [done|done|apply round_mono_refl|]. by exists s'. }
  eexists true, _. split; [reflexivity|]. set (rd' := set_votes b _ rd). destruct (set_votes_frame rd b (vec_set v (Some s) (votes rd b))) as (E1 & E2 & E3 & E4). fold rd' in E1, E2, E3, E4.
  assert (forall b' v', 0 <= v' -> vec_get (votes rd' b') v' = if decide (b = b' /\ v = v') then Some (Some s) else vec_get (votes rd b') v') as Hg.
  { intros b' v' Hv'. unfold rd'. rewrite votes_set_votes. destruct (eqb b b') eqn:Eb.
    - apply eqb_prop in Eb as <-. rewrite vec_get_set by (done || by rewrite Hl). repeat case_decide; naive_solver.
    - rewrite decide_False; [done|]. intros [-> _]. by rewrite eqb_reflx in Eb. }
  split_and!.
  - destruct Hok. split; rewrite ?E1, ?E2, ?E3, ?E4; try done.
    + intros b'. unfold rd'. rewrite votes_set_votes. destruct (eqb b b') eqn:Eb; [|done]. rewrite vec_set_length. apply ro_votes_len0.
    + intros b' v' s' Hv'. rewrite Hg by done. case_decide as E; [|by eauto]. destruct E as [<- <-]. auto.
  - split; [unfold accepted_proposal; by rewrite E2, E4|by rewrite E4|]. intros v' [h|b'] Hv'; cbn; [by rewrite E3|]. intros [s' Hs'].
    apply Hme in Hv' as [_ Hv']. destruct (decide (b = b' /\ v = v')) as [E|E]; [exists s|exists s']; rewrite Hg by lia; [by rewrite decide_True|by rewrite decide_False].
  - exists s. rewrite Hg by lia. by rewrite decide_True.
Qed.

Lemma insert_proposal_ok H r rd p :
  round_ok H r rd -> proposal_ok r p ->
  round_ok H r (insert_proposal p rd).2 /\ round_mono rd (insert_proposal p rd).2.
Proof.
  intros Hok Hp. unfold insert_proposal. destruct (has_echoes_for_proposal (hash p) rd) eqn:Ee; cbn [andb]; [|split; [done|apply round_mono_refl]].
  case_bool_decide as Epp; cbn [negb snd]; [split; [done|apply round_mono_refl]|].
  assert (forall h, quorum_echoes (outcome rd) = Some h -> hash p = h) as Hq.
  { intros h Hh. unfold has_echoes_for_proposal in Ee. rewrite Hh in Ee. symmetry. destruct (echoes rd !! hash p); by apply bool_decide_eq_true in Ee. }
  assert (accepted_proposal_height (outcome rd) = None) as Hnone.
  { destruct (accepted_proposal_height (outcome rd)) as [h|] eqn:E; [|done]. exfalso.
    destruct (ro_accepted _ _ _ Hok h E) as (p0 & l & Hp0 & Hq0 & _). apply Epp. rewrite Hp0. f_equal.
    destruct (ro_proposal _ _ _ Hok _ Hp0) as (_ & Hh0 & _). destruct Hp as (_ & Hh1 & _). specialize (Hq _ Hq0).
    destruct p as [hp ip], p0 as [h0 i0]. cbn in *. subst. f_equal. by apply (eo_hash Hera). }
  split.
  - destruct Hok. split; cbn; try done; [by intros ? [= <-]|intros h ? Hh [= <-]; eauto|congruence].
  - split; [|done|done]. unfold accepted_proposal. cbn. by rewrite Hnone.
Qed.

Lemma has_accepted_round z r h p :
  Inv z -> round_accepted z r = Some (h, p) ->
  exists rd l, rounds z !! r = Some rd /\ proposal rd = Some p /\ accepted_proposal_height (outcome rd) = Some h /\
    proposal_ok r p /\ chain (hist z) r h (inner p) l.
Proof.
  intros Hi Ha. unfold round_accepted, round in Ha. apply bind_Some in Ha as (rd & Hrd & Ha). unfold accepted_proposal in Ha.
  apply bind_Some in Ha as (h' & Hh & Ha). apply bind_Some in Ha as (p' & Hp & Ha). simplify_eq.
  destruct (inv_rounds _ Hi _ _ Hrd) as [_ Hok]. destruct (ro_accepted _ _ _ Hok _ Hh) as (p'' & l & Hp' & _ & Hc). simplify_eq.
  exists rd, l. split_and!; try done. by apply (ro_proposal _ _ _ Hok).
Qed.

(** *** Quorums *)

Lemma keys_some_spec {A} (l : list (option A)) v :
  Z.of_nat (length l) < 2 ^ 32 -> v ∈ keys_some l <-> 0 <= v /\ exists a, vec_get l v = Some (Some a).
Proof.
  intros Hl. unfold keys_some. rewrite list_elem_of_omap. split.
  - intros ([i o] & Hi & Ho). cbn in Ho. destruct o as [a|]; cbn in Ho; simplify_eq. apply elem_of_enumerate in Hi as [? ?]; [|done]. eauto.
  - intros (Hv & a & Ha). exists (v, Some a). split; [by apply elem_of_enumerate|done].
Qed.
Lemma enumerate_keys_nodup {A} (l : list A) : Z.of_nat (length l) < 2 ^ 32 -> NoDup (enumerate l).*1.
Proof.
  intros Hl. apply NoDup_alt. intros i j x Hi Hj. rewrite list_lookup_fmap, enumerate_lookup in Hi, Hj by done.
  destruct (l !! i), (l !! j); cbn in *; simplify_eq. lia.
Qed.
Lemma keys_some_nodup {A} (l : list (option A)) : Z.of_nat (length l) < 2 ^ 32 -> NoDup (keys_some l).
Proof.
  intros Hl. unfold keys_some. pose proof (enumerate_keys_nodup l Hl) as Hn. revert Hn. generalize (enumerate l). clear.
  intros l. induction l as [|[i [a|]] l IH]; cbn; [constructor| |]; intros [Hi Hl]%NoDup_cons; [|auto].
  constructor; [|auto]. intros ([j o] & Hj & Ho)%list_elem_of_omap. destruct o; cbn in Ho; simplify_eq. apply Hi. by apply (list_elem_of_fmap_2 fst) in Hj.
Qed.

Lemma check_new_echo_quorum_ok z r h :
  Inv z -> (forall rd, rounds z !! r = Some rd -> is_Some (echoes rd !! h)) ->
  ok (check_new_echo_quorum r h) z (fun b z' => Pure z z' /\ (b = false -> z' = z)).
Proof.
  intros Hi Hh. unfold check_new_echo_quorum, get.
  assert (ok (mret false : M bool) z (fun b z' => Pure z z' /\ (b = false -> z' = z))) as Hno by (apply ok_ret; split; [by apply Pure_refl|done]). ok_step. unfold round. destruct (rounds z !! r) as [rd|] eqn:Erd; [|exact Hno].
  destruct (inv_rounds _ Hi _ _ Erd) as [Hr Hok]. case_bool_decide as Eq; [exact Hno|].
  destruct (Hh rd eq_refl) as [m Hm]. rewrite Hm. eapply ok_lift_bind; [reflexivity|].
  destruct (is_quorum_cert z r (Echo h) (map_to_list m).*1 Hi) as (b & Eb & Hb).
  { apply NoDup_fst_map_to_list. }
  { intros v ([k s] & -> & Hs%elem_of_map_to_list)%list_elem_of_fmap. apply (ro_echoes _ _ _ Hok h m); [done|by eexists]. }
  eapply ok_lift_bind; [exact Eb|]. destruct b; [|exact Hno].
  assert (quorum_echoes (outcome rd) = None) as Hnone by (destruct (quorum_echoes (outcome rd)); [exfalso; by eauto|done]).
  destruct (set_quorum_echoes_ok (hist z) r rd h Hok Hnone (Hb eq_refl)) as [Hok' Hm'].
  eapply ok_bind; [by eapply on_existing_ok|]. intros ? z' (_ & _ & Hp). apply ok_ret. done.
Qed.

Lemma check_new_vote_quorum_ok z r b :
  Inv z -> ok (check_new_vote_quorum r b) z (fun b z' => Pure z z' /\ (b = false -> z' = z)).
Proof.
  intros Hi. unfold check_new_vote_quorum, get.
  assert (ok (mret false : M bool) z (fun b z' => Pure z z' /\ (b = false -> z' = z))) as Hno by (apply ok_ret; split; [by apply Pure_refl|done]). ok_step. unfold round. destruct (rounds z !! r) as [rd|] eqn:Erd; [|exact Hno].
  destruct (inv_rounds _ Hi _ _ Erd) as [Hr Hok]. case_bool_decide as Eq; [exact Hno|].
  pose proof (ro_votes_len _ _ _ Hok b) as Hl. pose proof (vo_len _ (eo_validators Hera)) as Hlen.
  destruct (is_quorum_cert z r (Vote b) (keys_some (votes rd b)) Hi) as (q & Eb & Hb).
  { apply keys_some_nodup. lia. }
  { intros v (Hv & s & Hs)%keys_some_spec; [|lia]. pose proof (vec_get_range _ _ _ Hv Hs). split; [lia|]. by eapply ro_votes. }
  eapply ok_lift_bind; [exact Eb|]. destruct q; [|exact Hno].
  assert (quorum_votes (outcome rd) = None) as Hnone by (destruct (quorum_votes (outcome rd)); [exfalso; by eauto|done]).
  destruct (set_quorum_votes_ok (hist z) r rd b Hok Hnone (Hb eq_refl)) as [Hok' Hm'].
  eapply ok_bind; [by eapply on_existing_ok|]. intros ? z' (_ & _ & Hp). apply ok_ret. done.
Qed.

(** *** Adding a signed message *)

Lemma set_active_Pure z v o :
  Inv z -> 0 <= v < len vs -> (forall m, o = Some m -> message_ok (hist z) m) -> Pure z (set_active (vec_set v o (active z)) z).
Proof.
  intros Hi Hv Ho. split; [split|split|done..]; try done; [|by eauto].
  destruct Hi. split; try done; cbn; [by rewrite vec_set_length|]. intros v' m Hv'. rewrite vec_get_set by (done || by rewrite inv_active0).
  case_decide; [|by apply inv_seen0]. intros [= ->]. by apply Ho.
Qed.
Lemma set_progress_Pure z b : Inv z -> Pure z (set_progress_detected b z).
Proof. intros Hi. apply core_Pure; [done|done|apply Hi]. Qed.

(** What follows an insertion: the quorum is counted and the round marked. *)
Lemma count_and_mark_ok {A} z r (check : M bool) (a : A) :
  Inv z -> in_u 32 r -> ok check (set_progress_detected true z) (fun _ z' => Pure (set_progress_detected true z) z') ->
  ok (_ ← modify (set_progress_detected true);
      q ← check;
      _ ← (if q : bool then mark_dirty r else mret ());
      mret a) z (fun a' z' => a' = a /\ Pure z z').
Proof.
  intros Hi Hr Hc. ok_step. pose proof (set_progress_Pure z true Hi) as P0. eapply ok_bind; [exact Hc|]. intros q z1 P1.
  assert (Pure z z1) as P01 by (by eapply Pure_trans). eapply (ok_bind _ _ _ (fun _ z' => Pure z1 z')).
  - destruct q; [|apply ok_ret, Pure_refl; by eapply Pure_inv].
    eapply ok_mono; [apply mark_dirty_ok; [by eapply Pure_inv|done]|]. by intros ? ? [].
  - intros _ z2 P2. apply ok_ret. split; [done|]. by eapply Pure_trans.
Qed.

Lemma in_round_stored z v r c : (exists rd, rounds z !! r = Some rd /\ in_round rd v c) -> stored z v r c.
Proof. done. Qed.

Lemma add_content_ok z m :
  Inv z -> message_ok (hist z) m ->
  ok (add_content m) z (fun _ z' => Pure z z' /\ (me = Some (validator_idx m) -> stored z' (validator_idx m) (round_id m) (content m))).
Proof.
  intros Hi (Hv & Hr & Hm). unfold add_content, get. ok_step.
  destruct (vec_get_is_Some (active z) (validator_idx m)) as [old Hold]; [by rewrite (inv_active _ Hi)|]. rewrite Hold.
  eapply ok_lift_bind; [reflexivity|]. eapply (ok_bind _ _ _ (fun _ z' => Pure z z')).
  { destruct (match old with None => true | Some old => _ end); [|by apply ok_ret, Pure_refl].
    eapply (ok_bind _ _ _ (fun _ z' => Pure z z')).
    - case_bool_decide; [|by apply ok_ret, Pure_refl]. eapply ok_mono; [apply mark_dirty_ok; [done|apply Hi]|]. by intros ? ? [].
    - intros _ z1 P1. apply ok_modify. eapply Pure_trans; [exact P1|]. apply set_active_Pure; [by eapply Pure_inv|done|].
      intros ? [= <-]. rewrite (Pure_hist _ _ P1). by split. }
  intros _ z1 P1. pose proof (Pure_inv _ _ P1) as Hi1. rewrite <- (Pure_hist _ _ P1) in Hm.
  destruct (content m) as [h|b] eqn:Ec.
  - eapply ok_bind; [apply (on_round_ok z1 (round_id m) _ (fun _ rd => in_round rd (validator_idx m) (Echo h)) Hi1 Hr)|].
    { intros rd Hok. eexists _, _. split; [by rewrite <- surjective_pairing|]. apply insert_echo_ok; [done|done|done]. }
    intros inserted z2 (P2 & rd & Hrd & Hin). pose proof (Pure_inv _ _ P2) as Hi2.
    destruct inserted; [|apply ok_ret; split; [by eapply Pure_trans|intros _; by exists rd]].
    eapply ok_mono; [apply count_and_mark_ok; [done|done|]|].
    { eapply ok_mono; [apply check_new_echo_quorum_ok; [by eapply Pure_inv, set_progress_Pure|]|by intros ? ? []]. cbn. intros rd' Hrd'. simplify_eq.
      destruct Hin as (mm & Hmm & _). by eexists. }
    intros ? z3 [_ P3]. split; [eapply Pure_trans; [exact P1|]; by eapply Pure_trans|].
    intros Hme'. apply (step_stored _ _ (pure_step _ _ P3)); [done|]. by exists rd.
  - eapply ok_bind; [apply (on_round_ok z1 (round_id m) _ (fun _ rd => in_round rd (validator_idx m) (Vote b)) Hi1 Hr)|].
    { intros rd Hok. apply insert_vote_ok; [done|done|done]. }
    intros inserted z2 (P2 & rd & Hrd & Hin). pose proof (Pure_inv _ _ P2) as Hi2.
    destruct inserted; [|apply ok_ret; split; [by eapply Pure_trans|intros _; by exists rd]].
    eapply ok_mono; [apply count_and_mark_ok; [done|done|]|].
    { eapply ok_mono; [apply check_new_vote_quorum_ok; by eapply Pure_inv, set_progress_Pure|by intros ? ? []]. }
    intros ? z3 [_ P3]. split; [eapply Pure_trans; [exact P1|]; by eapply Pure_trans|].
    intros Hme'. apply (step_stored _ _ (pure_step _ _ P3)); [done|]. by exists rd.
Qed.
End facts.
