(* ===== verification/ZugNode.v ===== *)
(** * The Zug consensus protocol: every handler keeps the invariant

    The operations of Zug.v on a node that satisfies the invariant of ZugInv.v: they return,
    the invariant holds again, and a block they finalize lies on a certified chain below a
    committed round. *)
From S2P Require Import Prelude Effects BTree Validators ZugTypes Zug ZugQuorum ZugInv.

Open Scope Z_scope.

Lemma contradicts_sym {C : Context} (c1 c2 : Content) : contradicts c1 c2 = contradicts c2 c1.
Proof.
  destruct c1 as [h1|b1], c2 as [h2|b2]; cbn; [|done|done|by destruct b1, b2]. apply bool_decide_ext. naive_solver.
Qed.
Lemma contradicts_refl {C : Context} (c : Content) : contradicts c c = false.
Proof. destruct c as [h|b]; cbn; [apply bool_decide_false; congruence|by destruct b]. Qed.

Section node.
Context {C : Context} {F : F64} {R : LeaderRng} {HO : HashOrder}.
Context {S0 : Setup} {honest : Z -> bool} {lead : Z -> Z} {me : option Z} {others : History}.
Hypothesis Hera : era_ok S0 honest lead.
Hypothesis Hme : me_ok S0 honest me.
Abbreviation vs := (validator_set S0).
Abbreviation ftt0 := (params_ftt (params S0)).
Abbreviation cert := (certified vs ftt0 honest).
Abbreviation chain := (Chain vs ftt0 honest).
Abbreviation hist := (hist me others).
Abbreviation round_ok := (round_ok S0 honest lead).
Abbreviation message_ok := (message_ok S0 honest).
Abbreviation entry_ok := (entry_ok S0 honest).
Abbreviation InvP := (Inv S0 honest lead me others).
Abbreviation Inv := (InvP None).
Abbreviation Step := (Step S0 honest lead me others None).
Abbreviation Pure := (Pure S0 honest lead me others None).

Definition Ext (z z' : Zug) : Prop := Step z z' /\ Keep z z'.
Lemma Ext_refl z : Inv z -> Ext z z.
Proof. intros Hi. split; [by apply Step_refl|apply Keep_refl]. Qed.
Lemma Ext_trans z1 z2 z3 : Ext z1 z2 -> Ext z2 z3 -> Ext z1 z3.
Proof. intros [S1 K1] [S2 K2]. split; [by eapply Step_trans|by eapply Keep_trans]. Qed.
Lemma Ext_inv z z' : Ext z z' -> Inv z'.
Proof. intros [S1 _]. apply S1. Qed.
Lemma Pure_Ext z z' : Pure z z' -> Ext z z'.
Proof. intros [? ? _ _ _]. done. Qed.

(** ** The log *)

Lemma signed_in_snoc file e v r c :
  signed_in (file ++ [e]) v r c <->
  signed_in file v r c \/ exists m, e = W_SignedMessage m /\ validator_idx m = v /\ round_id m = r /\ content m = c.
Proof.
  unfold signed_in. split.
  - intros (m & [Hm|Hm%list_elem_of_singleton]%elem_of_app & ?); [left|right]; by exists m.
  - intros [(m & Hm & ?)|(m & -> & ?)]; exists m; (split; [|done]); apply elem_of_app; [by left|right; by apply list_elem_of_singleton].
Qed.
Lemma hist_snoc file e v r c : hist_of me others file v r c -> hist_of me others (file ++ [e]) v r c.
Proof. intros [?|[? ?]]; [by left|right]. split; [done|]. apply signed_in_snoc. by left. Qed.

(** Appending an entry; for a message of the node's own, [pend] says that it is not yet in its
    round. *)
Lemma append_inv z e pend :
  Inv z -> entry_ok (hist_of me others (wal_file z ++ [e])) e ->
  (forall m, e = W_SignedMessage m -> me = Some (validator_idx m) ->
    pend = Some (validator_idx m, round_id m, content m) /\
    forall c, signed_in (wal_file z) (validator_idx m) (round_id m) c -> contradicts (content m) c = false) ->
  InvP pend (set_wal_file (wal_file z ++ [e]) z).
Proof.
  intros Hi He Hown. assert (forall v r c, hist z v r c -> hist_of me others (wal_file z ++ [e]) v r c) as Hh by (intros v r c; apply hist_snoc).
  destruct Hi. split; try done.
  - intros v m Hv Hm Hhon. apply Hh. by eapply inv_seen.
  - intros r rd Hrd. destruct (inv_rounds r rd Hrd). split; [done|]. by eapply round_ok_mono.
  - intros e' [He'|He'%list_elem_of_singleton]%elem_of_app; [|by subst]. eapply entry_ok_mono; [exact Hh|]. by apply inv_wal.
  - cbn. intros v r c1 c2 Hv. rewrite !signed_in_snoc. intros [H1|(m1 & -> & <- & <- & <-)] [H2|(m2 & E2 & E3 & E4 & <-)].
    + by eapply inv_own.
    + rewrite <- E3 in Hv, H1. rewrite <- E4 in H1. destruct (Hown m2 E2 Hv) as [_ Hc]. rewrite contradicts_sym. by apply Hc.
    + destruct (Hown m1 eq_refl Hv) as [_ Hc]. by apply Hc.
    + simplify_eq. apply contradicts_refl.
  - cbn. intros v r c Hv Hw Hev. rewrite signed_in_snoc. intros [Hs|(m & -> & <- & <- & <-)].
    + left. destruct (inv_open v r c Hv Hw Hev Hs); [done|congruence].
    + right. by apply (Hown m).
Qed.

Lemma close_inv z pend : InvP pend z -> Inv (set_write_wal false (set_active_validator None z)).
Proof. intros []. split; try done. Qed.
Lemma set_wal_io_Pure z io : Inv z -> Pure z (set_wal_io io z).
Proof. intros Hi. apply core_Pure; [done|done|apply Hi]. Qed.

(** Recording an entry that is not a message of the node's own. *)
Lemma record_entry_ok z e :
  Inv z -> entry_ok (hist z) e -> (forall m, e = W_SignedMessage m -> write_wal z = true -> me <> Some (validator_idx m)) ->
  ok (record_entry e) z (fun _ z' => Ext z z').
Proof.
  intros Hi He Hown. unfold record_entry, get. ok_step. destruct (write_wal z) eqn:Hw; [|by apply ok_ret, Ext_refl].
  ok_step. set (z1 := set_wal_io (tail (wal_io z)) z). pose proof (set_wal_io_Pure z (tail (wal_io z)) Hi) as P1. fold z1 in P1.
  assert (Inv (set_wal_file (wal_file z1 ++ [e]) z1)) as Hi2.
  { apply append_inv; [by eapply Pure_inv|eapply entry_ok_mono; [|exact He]; apply hist_snoc|]. intros m -> Hm. by destruct (Hown m eq_refl eq_refl). }
  assert (Ext z (set_wal_file (wal_file z1 ++ [e]) z1)) as E2.
  { split; split; try done; [|cbn; congruence|by eauto]. intros v r c. apply hist_snoc. }
  destruct (default IoWritten (head (wal_io z))) as [|complete].
  - ok_step. by apply ok_ret.
  - assert (Ext z (set_wal_file (wal_file z1 ++ (if complete then [e] else [])) z1)) as E3.
    { destruct complete; [done|]. rewrite app_nil_r. apply Pure_Ext. eapply Pure_trans; [exact P1|].
      apply core_Pure; [by eapply Pure_inv|done|apply Hi]. }
    do 3 ok_step. apply ok_ret. set (z3 := set_wal_file _ z1) in *. pose proof (close_inv _ None (Ext_inv _ _ E3)) as Hi4.
    destruct E3 as [[I3 H3 S3 W3 V3] [A3 Q3 C3 F3 G3]]. split; split; try done; cbn; congruence.
Qed.

(** ** Signing *)

Lemma has_echoed_spec v rd : has_echoed v rd = true <-> exists h, in_round rd v (Echo h).
Proof.
  unfold has_echoed. rewrite existsb_exists. split.
  - intros ([h m] & Hm%list_elem_of_In%elem_of_map_to_list & Hv%bool_decide_eq_true). by exists h, m.
  - intros (h & m & Hm & Hv). exists (h, m). split; [by apply list_elem_of_In, elem_of_map_to_list|by apply bool_decide_true].
Qed.
Lemma has_voted_spec H r v rd :
  round_ok H r rd -> 0 <= v < len vs -> exists b, has_voted (E := NodeId) v rd = Ok b /\ (b = true <-> exists x, in_round rd v (Vote x)).
Proof.
  intros Hok Hv. unfold has_voted.
  destruct (vec_get_is_Some (votes rd true) v) as [t Ht]; [by rewrite (ro_votes_len _ _ _ Hok)|]. rewrite Ht. cbn [expect mbind result_bind].
  destruct (vec_get_is_Some (votes rd false) v) as [f Hf]; [by rewrite (ro_votes_len _ _ _ Hok)|].
  case_bool_decide as Et.
  - eexists. split; [done|]. split; [|done]. intros _. exists true. destruct Et as [s ->]. by exists s.
  - rewrite Hf. cbn [expect mbind result_bind]. eexists. split; [done|]. rewrite bool_decide_eq_true. split.
    + intros [s ->]. exists false. by exists s.
    + intros [[] [s Hs]]; rewrite ?Ht, ?Hf in Hs; simplify_eq; [exfalso; eauto|by eexists].
Qed.

(** A validator that has not echoed (voted) in a round has no echo (vote) stored there. *)
Lemma already_signed_spec z v r c :
  Inv z -> 0 <= v < len vs ->
  exists b, match c with Echo _ => Ok (zug_has_echoed z r v) | Vote _ => zug_has_voted z r v end = Ok b /\
    (b = false -> forall c', stored z v r c' -> contradicts c c' = false).
Proof.
  intros Hi Hv. unfold zug_has_echoed, zug_has_voted, round, stored. destruct (rounds z !! r) as [rd|] eqn:Erd.
  2: { exists false. split; [by destruct c|]. intros _ c' (rd & ? & _). done. }
  destruct (inv_rounds _ Hi _ _ Erd) as [_ Hok]. destruct c as [h|x].
  - eexists. split; [reflexivity|]. intros Hb [h'|x'] (rd' & [= <-] & Hin); [|done]. exfalso.
    assert (has_echoed v rd = true); [|congruence]. apply has_echoed_spec. by exists h'.
  - destruct (has_voted_spec _ _ v rd Hok Hv) as (b & Eb & Hb). exists b. split; [done|]. intros -> [h'|x'] (rd' & [= <-] & Hin); [done|].
    exfalso. enough (false = true) by done. apply Hb. by exists x'.
Qed.

Lemma create_message_ok z r c :
  Inv z -> in_u 32 r -> ok (create_message r c) z (fun o z' => Ext z z' /\ forall m, o = Some m -> hist z' (validator_idx m) (round_id m) (content m)).
Proof.
  intros Hi Hr. unfold create_message, get.
  assert (ok (mret None : M (option SignedMessage)) z (fun o z' => Ext z z' /\ forall m, o = Some m -> hist z' (validator_idx m) (round_id m) (content m))) as Hno.
  { apply ok_ret. split; [by apply Ext_refl|done]. }
  ok_step. destruct (active_validator z) as [av|] eqn:Eav; [|done].
  destruct (paused z); [done|]. destruct (inv_av _ Hi _ Eav) as [Hidx Hev]. destruct (Hme _ Hidx) as [Hh Hv].
  destruct (already_signed_spec z (idx av) r c Hi Hv) as (b & Eb & Hb). eapply ok_lift_bind; [exact Eb|].
  destruct b; [done|]. specialize (Hb eq_refl). set (m := sign_new r (instance z) c (idx av) (secret av)).
  unfold record_entry, get. destruct (write_wal z) eqn:Hw.
  2: { eapply (ok_bind _ _ _ (fun b z' => b = false /\ z' = z)); [ok_step; rewrite Hw; by apply ok_ret|]. by intros ? ? [-> ->]. }
  set (z1 := set_wal_io (tail (wal_io z)) z). pose proof (set_wal_io_Pure z (tail (wal_io z)) Hi) as P1. fold z1 in P1.
  set (z2 := set_wal_file (wal_file z1 ++ [W_SignedMessage m]) z1).
  assert (hist z2 (idx av) r c) as Hm. { right. split; [done|]. apply signed_in_snoc. right. by exists m. }
  assert (InvP (Some (idx av, r, c)) z2) as Hi2.
  { apply append_inv; [by eapply Pure_inv|by split|]. intros m' [= <-] _. split; [done|]. intros c' Hs. apply Hb.
    destruct (inv_open _ Hi _ _ _ Hidx Hw Hev Hs); [done|congruence]. }
  assert (forall v r c, hist z v r c -> hist z2 v r c) as Hgrow by (intros v' r' c'; apply hist_snoc).
  assert (forall z3, Inv z3 -> wal_file z3 = wal_file z2 -> (forall v r c, me = Some v -> stored z2 v r c -> stored z3 v r c) ->
    evidence_only z3 = evidence_only z2 -> Keep z2 z3 -> Ext z z3) as Hext.
  { intros z3 Hi3 Hf Hst Hev3 K3. split; [split|]; [done| |by intros; apply Hst|congruence|by rewrite Hev3|].
    - unfold ZugInv.hist in *. rewrite Hf. exact Hgrow.
    - eapply Keep_trans; [|exact K3]. by split; eauto. }
  destruct (default IoWritten (head (wal_io z))) as [|complete] eqn:Eio.
  - eapply (ok_bind _ _ _ (fun b z' => b = true /\ z' = z2)); [ok_step; rewrite Hw, Eio; do 2 ok_step; by apply ok_ret|]. intros ? ? [-> ->].
    eapply ok_bind; [apply (add_content_ok Hera Hme z2 m Hi2); by split|]. intros added z3 [P3 Hst]. apply ok_ret. split; [|intros m' Hm'; apply P3; by destruct added; simplify_eq].
    apply Hext; [|by rewrite (pure_file _ _ P3)|by apply (pure_step _ _ P3)|apply (step_evidence _ _ (pure_step _ _ P3))|by apply P3].
    destruct (Pure_inv _ _ P3). split; try done. intros v r' c' Hv' Hw' Hev' Hs. destruct (inv_open v r' c' Hv' Hw' Hev' Hs) as [|[= <- <- <-]]; [by left|].
    left. apply Hst. done.
  - eapply (ok_bind _ _ _ (fun b z' => b = false /\ z' = set_write_wal false (set_active_validator None
      (set_wal_file (wal_file z1 ++ if complete then [W_SignedMessage m] else []) z1)))).
    { ok_step. rewrite Hw, Eio. do 4 ok_step. by apply ok_ret. }
    intros ? ? [-> ->]. apply ok_ret. split; [|done]. destruct complete.
    + apply Hext; [by eapply close_inv|done|done|done|by split; eauto].
    + rewrite app_nil_r. assert (Inv (set_wal_file (wal_file z1) z1)) as Hi3.
      { eapply Pure_inv, core_Pure; [exact Hi|done|apply Hi]. }
      split; split; try done; first [by eapply close_inv|by eauto|cbn; congruence].
Qed.

Definition is_finalized (o : ProtocolOutcome) : bool := match o with O_FinalizedBlock _ => true | _ => false end.
(** The signed messages that a message carries, and that an outcome sends out. *)
Definition message_signed (m : Message) : list SignedMessage :=
  match m with
  | M_SyncResponse rs =>
      response_messages rs match rs_proposal_or_hash rs with
                           | Some (inl p) => Some (hash (hashed_proposal_new p))
                           | Some (inr h) => Some h
                           | None => None
                           end ++
      concat ((fun e => [e.1.1; with_content e.1.1 e.1.2 e.2]) <$> rs_evidence rs)
  | M_Proposal _ _ _ echo => [echo]
  | M_Signed m => [m]
  | M_Evidence m c s => [m; with_content m c s]
  end.
Definition sent (o : ProtocolOutcome) : list SignedMessage :=
  match o with
  | CreatedGossipMessage m | CreatedTargetedMessage m _ | CreatedMessageToRandomPeer m => message_signed m
  | _ => []
  end.
Definition sent_ok (H : History) (o : ProtocolOutcome) : Prop :=
  forall m, m ∈ sent o -> honest (validator_idx m) = true -> H (validator_idx m) (round_id m) (content m).

(** No block is finalized, and what is sent was signed. *)
Definition quiet (H : History) (o : Outcomes) : Prop := Forall (fun o => is_finalized o = false /\ sent_ok H o) o.
Lemma quiet_nil H : quiet H [].
Proof. constructor. Qed.
Lemma quiet_one H o : is_finalized o = false -> sent o = [] -> quiet H [o].
Proof. intros Ho Hs. constructor; [|constructor]. split; [done|]. intros m. rewrite Hs. by intros ?%elem_of_nil. Qed.
Lemma quiet_gossip H m : (forall s, s ∈ message_signed m -> honest (validator_idx s) = true -> H (validator_idx s) (round_id s) (content s)) -> quiet H [CreatedGossipMessage m].
Proof. intros Hm. constructor; [|constructor]. done. Qed.
Lemma quiet_app H o1 o2 : quiet H o1 -> quiet H o2 -> quiet H (o1 ++ o2).
Proof. apply Forall_app_2. Qed.
Lemma quiet_mono (H H' : History) o : (forall v r c, H v r c -> H' v r c) -> quiet H o -> quiet H' o.
Proof. intros HH Hq. eapply Forall_impl; [exact Hq|]. intros x [? Hs]. split; [done|]. intros m Hm Hh. by apply HH, Hs. Qed.

Definition returns_quietly (m : M Outcomes) (z : Zug) : Prop := ok m z (fun o z' => Ext z z' /\ quiet (hist z') o).
Lemma ret_quietly z o : Inv z -> quiet (hist z) o -> returns_quietly (mret o) z.
Proof. intros Hi Ho. apply ok_ret. split; [by apply Ext_refl|done]. Qed.
Lemma bind_quietly {A} (m : M A) (k : A -> M Outcomes) z :
  ok m z (fun _ z' => Ext z z') -> (forall a z', Ext z z' -> returns_quietly (k a) z') -> returns_quietly (m ≫= k) z.
Proof.
  intros Hm Hk. eapply ok_bind; [exact Hm|]. intros a z1 E1. eapply ok_mono; [by apply Hk|]. intros o z2 [E2 Ho]. split; [exact (Ext_trans _ _ _ E1 E2)|done].
Qed.
Lemma Ext_quiet z z' o : Ext z z' -> quiet (hist z) o -> quiet (hist z') o.
Proof. intros E. apply quiet_mono. apply E. Qed.
Lemma step_quietly z z1 (m : M Outcomes) : Ext z z1 -> returns_quietly m z1 -> ok m z1 (fun o z' => Ext z z' /\ quiet (hist z') o).
Proof. intros E1 Hm. eapply ok_mono; [exact Hm|]. intros o z2 [E2 Ho]. split; [by eapply Ext_trans|done]. Qed.

Lemma create_and_gossip_message_ok z r c : Inv z -> in_u 32 r -> returns_quietly (create_and_gossip_message r c) z.
Proof.
  intros Hi Hr. eapply ok_bind; [by apply create_message_ok|]. intros m z1 [E1 Hm]. apply ok_ret. split; [done|].
  destruct m as [m|]; [|apply quiet_nil]. apply quiet_gossip. intros s ->%list_elem_of_singleton _. by apply Hm.
Qed.

(** ** The fields that hold proposals *)

Lemma set_waiting_validation_Pure z l :
  Inv z -> (forall b w r p s, (b, w) ∈ l -> (r, p, s) ∈ w -> proposal_ok r p) -> Pure z (set_proposals_waiting_for_validation l z).
Proof. intros Hi Hl. split; [split|split|done..]; try done; [|by eauto]. destruct Hi. by split. Qed.
Lemma set_waiting_parent_Pure z m :
  Inv z -> (forall k l p rs r s, m !! k = Some l -> (p, rs) ∈ l -> (r, s) ∈ rs -> proposal_ok r p) -> Pure z (set_proposals_waiting_for_parent m z).
Proof. intros Hi Hl. split; [split|split|done..]; try done; [|by eauto]. destruct Hi. by split. Qed.
Lemma set_pending_Pure z x :
  Inv z -> (forall c r parent, x = Some (c, r, Some parent) -> 0 <= parent < r) -> Pure z (set_pending_proposal x z).
Proof. intros Hi Hx. split; [split|split|done..]; try done; [|by eauto]. destruct Hi. by split. Qed.

Lemma alist_add_elem {K A} `{EqDecision K, EqDecision A} (k : K) (a : A) l k' w x :
  (k', w) ∈ alist_add k a l -> x ∈ w -> (k' = k /\ x = a) \/ exists w', (k', w') ∈ l /\ x ∈ w'.
Proof.
  induction l as [|[k0 s] l IH]; cbn.
  - intros [= -> ->]%list_elem_of_singleton ->%list_elem_of_singleton. by left.
  - case_decide as E.
    + intros [[= -> ->]|Hin]%elem_of_cons Hx; [|right; exists w; split; [by right|done]].
      case_decide; [right; exists s; split; [by left|done]|]. apply elem_of_app in Hx as [Hx|Hx%list_elem_of_singleton].
      * right. exists s. split; [by left|done].
      * left. by subst.
    + intros [[= -> ->]|Hin]%elem_of_cons Hx; [right; exists s; split; [by left|done]|].
      destruct (IH Hin Hx) as [?|(w' & ? & ?)]; [by left|]. right. exists w'. split; [by right|done].
Qed.

(** ** Ancestors *)

Lemma ancestor_values_accepted fuel z r :
  Inv z -> is_Some (round_accepted z r) -> (Z.to_nat r < fuel)%nat -> exists vs, ancestor_values_from fuel z r = Ok (Some vs).
Proof.
  intros Hi. revert r. induction fuel as [|fuel IH]; intros r [[h p] Ha] Hf; [lia|]. cbn [ancestor_values_from]. rewrite Ha.
  destruct (has_accepted_round _ _ _ _ Hi Ha) as (rd & l & _ & _ & _ & (Hr & _ & Hp) & _).
  destruct (maybe_parent_round_id (inner p)) as [parent|] eqn:Ep; [|by eexists]. specialize (Hp _ eq_refl).
  destruct (IH parent) as [vs' ->]; [by eapply (inv_parents _ Hi)|lia|]. by eexists.
Qed.
Lemma zug_ancestor_values_total z r :
  Inv z -> exists o, zug_ancestor_values z r = Ok o /\ (is_Some (round_accepted z r) -> is_Some o).
Proof.
  intros Hi. destruct (round_accepted z r) as [x|] eqn:E.
  - destruct (ancestor_values_accepted (S (Z.to_nat r)) z r Hi) as [w Hw]; [by rewrite E|lia|]. by exists (Some w).
  - exists None. split; [|by intros []]. unfold zug_ancestor_values. cbn [ancestor_values_from]. by rewrite E.
Qed.

(** ** Proposals *)

Lemma insert_proposal_round z r p :
  Inv z -> proposal_ok r p -> ok (on_round r (fun rd => Ok (insert_proposal p rd))) z (fun _ z' => Ext z z').
Proof.
  intros Hi Hp. eapply ok_mono; [apply (on_round_ok Hera z r _ (fun _ _ => True) Hi); [apply Hp|]|].
  - intros rd Hok. eexists _, _. split; [by rewrite <- surjective_pairing|]. destruct (insert_proposal_ok Hera (me := me) _ _ _ p Hok Hp). done.
  - intros a z' [P1 _]. by apply Pure_Ext.
Qed.

Lemma record_proposal_ok z r p : Inv z -> proposal_ok r p -> ok (record_entry (W_Proposal (inner p) r)) z (fun _ z' => Ext z z').
Proof. intros Hi (Hr & Hh & Hp). by apply record_entry_ok. Qed.
Lemma mark_dirty_Ext z r : Inv z -> in_u 32 r -> ok (mark_dirty r) z (fun _ z' => Ext z z').
Proof. intros Hi Hr. eapply ok_mono; [exact (mark_dirty_ok z r Hi Hr)|]. intros ? ? [P _]. by apply Pure_Ext. Qed.
Lemma progress_Ext z : Inv z -> ok (modify (set_progress_detected true) : M ()) z (fun _ z' => Ext z z').
Proof. intros Hi. apply ok_modify, Pure_Ext. by apply set_progress_Pure. Qed.

Lemma validate_proposal_ok z r p ancestors sender :
  Inv z -> proposal_ok r p -> returns_quietly (validate_proposal r p ancestors sender) z.
Proof.
  intros Hi Hp. unfold validate_proposal, get, returns_quietly. ok_step. destruct (_ <? _); [by apply ret_quietly, quiet_nil|].
  destruct (match _ with None => false | Some _ => _ end); [by apply ret_quietly, quiet_nil|].
  destruct (block ← maybe_block (inner p); _) as [block|].
  - case_decide; [by apply ret_quietly, quiet_nil|]. apply bind_quietly.
    + apply ok_modify, Pure_Ext, set_waiting_validation_Pure; [done|]. intros b w r' p' s Hin Hx.
      destruct (alist_add_elem _ _ _ _ _ _ Hin Hx) as [[_ [= -> -> ->]]|(w' & Hw & Hx')]; [done|]. by eapply (inv_waiting_validation _ Hi).
    + intros _ z1 E1. apply ret_quietly; [by eapply Ext_inv|by apply quiet_one].
  - apply bind_quietly; [by apply insert_proposal_round|]. intros inserted z1 E1. pose proof (Ext_inv _ _ E1) as Hi1.
    destruct inserted; [|by apply ret_quietly, quiet_nil]. apply bind_quietly; [by apply record_proposal_ok|]. intros _ z2 E2.
    apply bind_quietly; [by apply progress_Ext, (Ext_inv _ _ E2)|]. intros _ z3 E3.
    apply bind_quietly; [apply mark_dirty_Ext; [by eapply Ext_inv|apply Hp]|]. intros _ z4 E4.
    apply ret_quietly; [by eapply Ext_inv|]. destruct (maybe_block (inner p)); [by apply quiet_one|apply quiet_nil].
Qed.

Lemma for_each_quietly {A} (l : list A) (f : A -> M Outcomes) z :
  Inv z -> (forall a z', a ∈ l -> Inv z' -> returns_quietly (f a) z') -> returns_quietly (for_each l f) z.
Proof.
  intros Hi Hf. revert z Hi. induction l as [|a l IH]; intros z Hi; cbn [for_each]; [by apply ret_quietly, quiet_nil|].
  eapply ok_bind; [apply Hf; [by left|done]|]. intros o1 z1 [E1 Q1]. eapply ok_bind; [apply IH; [|by eapply Ext_inv]|].
  { intros a' z' Ha. apply Hf. by right. }
  intros o2 z2 [E2 Q2]. apply ok_ret. split; [exact (Ext_trans _ _ _ E1 E2)|apply quiet_app; [by eapply Ext_quiet|done]].
Qed.

Lemma validate_waiting_ok z r : Inv z -> is_Some (round_accepted z r) -> returns_quietly (validate_waiting r) z.
Proof.
  intros Hi Ha. unfold validate_waiting, get, returns_quietly. ok_step. destruct (proposals_waiting_for_parent z !! r) as [w|] eqn:Ew; [|by apply ret_quietly, quiet_nil].
  ok_step. set (z1 := set_proposals_waiting_for_parent _ z).
  assert (Pure z z1) as P1. { apply set_waiting_parent_Pure; [done|]. intros k l p rs r' s [_ Hk]%lookup_delete_Some. by eapply (inv_waiting_parent _ Hi). }
  pose proof (Pure_inv _ _ P1) as Hi1. ok_step. destruct (zug_ancestor_values_total z1 r Hi1) as (o & Eo & Ho).
  eapply ok_lift_bind; [exact Eo|]. destruct Ho as [anc ->].
  { destruct Ha as [x Hx]. exists x. by apply (keep_accepted _ _ (pure_keep _ _ P1)). }
  eapply ok_lift_bind; [reflexivity|]. apply (step_quietly _ _ _ (Pure_Ext _ _ P1)). apply for_each_quietly; [done|].
  intros [p rs] z2 Hin Hi2. apply for_each_quietly; [done|]. intros [r' s] z3 Hin' Hi3. cbn [fst snd] in *.
  rewrite (hash_order_perm _ w) in Hin. rewrite (hash_order_perm _ rs) in Hin'. apply validate_proposal_ok; [done|]. by eapply (inv_waiting_parent _ Hi).
Qed.

(** ** Accepting a proposal *)

Lemma all_seen_total z (i : gset Z) (l : list (Z * ValidatorId)) :
  Inv z -> (forall e, e ∈ l -> 0 <= e.1 < len vs) ->
  exists b, foldr (fun e acc =>
      if decide (e.1 ∈ i) then acc else
      seen ← expect (vec_get (active z) e.1);
      if bool_decide (seen = None /\ faults z !! e.1 = None) then Ok false else acc) (Ok true : result NodeId bool) l = Ok b.
Proof.
  intros Hi Hl. induction l as [|e l IH]; cbn [foldr]; [by eexists|].
  destruct IH as [b ->]; [intros e' He'; apply Hl; by right|]. destruct (decide (e.1 ∈ i)); [by eexists|].
  destruct (vec_get_is_Some (active z) e.1) as [x Hx]; [rewrite (inv_active _ Hi); apply Hl; by left|]. rewrite Hx. cbn.
  case_bool_decide; by eexists.
Qed.
Lemma enumerate_ids_range z e : Inv z -> e ∈ enumerate_ids (vset z) -> 0 <= e.1 < len vs.
Proof.
  intros Hi. unfold enumerate_ids, vset. rewrite (inv_setup _ Hi). intros ([i v] & -> & Hv)%list_elem_of_fmap.
  pose proof (vo_len _ (eo_validators Hera)) as Hlen. apply elem_of_enumerate in Hv as [Hi0 Hv]; [|unfold len in Hlen; lia]. cbn in *.
  pose proof (vec_get_range _ _ _ Hi0 Hv). unfold len. lia.
Qed.

Lemma is_skippable_cert z r : Inv z -> is_skippable_round z r = true -> cert (hist z) r (Vote false).
Proof.
  intros Hi Hs. unfold is_skippable_round, round in Hs. apply bool_decide_eq_true in Hs. apply bind_Some in Hs as (rd & Hrd & Hq).
  destruct (inv_rounds _ Hi _ _ Hrd) as [_ Hok]. by apply (ro_quorum_votes _ _ _ Hok).
Qed.
Lemma skippable_range z a r s :
  Inv z -> forallb (is_skippable_round z) (seqZ a (r - a)) = true -> a <= s < r -> cert (hist z) s (Vote false).
Proof.
  intros Hi Hf Hs. apply is_skippable_cert; [done|]. rewrite forallb_forall in Hf. apply Hf, list_elem_of_In, elem_of_seqZ. lia.
Qed.

(** A round whose proposal becomes accepted. *)
Lemma accept_Ext z r rd h p :
  Inv z -> rounds z !! r = Some rd -> proposal rd = Some p -> round_accepted z r = None -> round_ok (hist z) r (set_accepted_proposal_height h rd) ->
  (forall parent, maybe_parent_round_id (inner p) = Some parent -> is_Some (round_accepted z parent)) ->
  Ext z (set_rounds (<[r := set_accepted_proposal_height h rd]> (rounds z)) z).
Proof.
  intros Hi Hrd Hp Hn Hok Hpar. set (rd' := set_accepted_proposal_height h rd) in *. set (z' := set_rounds _ z).
  assert (accepted_proposal rd' = Some (h, p)) as Ha by (unfold accepted_proposal; cbn; by rewrite Hp).
  assert (forall r', round_accepted z' r' = if decide (r = r') then Some (h, p) else round_accepted z r') as Hacc.
  { intros r'. unfold z'. rewrite round_accepted_put. by rewrite Ha. }
  assert (forall r' x, round_accepted z r' = Some x -> round_accepted z' r' = Some x) as Hkeep.
  { intros r' x Hx. rewrite Hacc. case_decide; [congruence|done]. }
  assert (forall v r' c, stored z v r' c -> stored z' v r' c) as Hst.
  { intros v r' c (rd0 & Hrd0 & Hin). unfold stored. cbn [rounds set_rounds z']. destruct (decide (r = r')) as [<-|Hne].
    - exists rd'. rewrite lookup_insert_eq. split; [done|]. by simplify_eq.
    - exists rd0. by rewrite lookup_insert_ne. }
  split; split; try done; [|by auto|].
  - destruct Hi. split; try done.
    + cbn. intros r' rd0. destruct (decide (r = r')) as [<-|Hne].
      * rewrite lookup_insert_eq. intros [= <-]. split; [exact (proj1 (inv_rounds _ _ Hrd))|done].
      * rewrite lookup_insert_ne by done. apply inv_rounds.
    + intros r' h' p' parent. rewrite Hacc. case_decide as E.
      * intros [= <- <-] Hpp. destruct (Hpar _ Hpp) as [x Hx]. exists x. by apply Hkeep.
      * intros Hx Hpp. destruct (inv_parents _ _ _ _ Hx Hpp) as [y Hy]. exists y. by apply Hkeep.
    + cbn. intros v r' c Hv Hw He Hs. destruct (inv_open v r' c Hv Hw He Hs); [left; by apply Hst|by right].
  - intros r' b rd0 Hrd0 Hb. cbn. destruct (decide (r = r')) as [<-|Hne].
    + exists rd'. rewrite lookup_insert_eq. split; [done|]. by simplify_eq.
    + exists rd0. by rewrite lookup_insert_ne.
Qed.

Lemma accepted_height_ok z r rd h p l :
  Inv z -> rounds z !! r = Some rd -> proposal rd = Some p -> quorum_echoes (outcome rd) = Some (hash p) ->
  chain (hist z) r h (inner p) l -> round_ok (hist z) r (set_accepted_proposal_height h rd).
Proof.
  intros Hi Hrd Hp Hq Hc. destruct (inv_rounds _ Hi _ _ Hrd) as [_ []]. split; try done. cbn. intros ? [= <-]. by exists p, l.
Qed.

Lemma update_accepted_proposal_ok z r :
  Inv z -> ok (update_accepted_proposal r) z (fun b z' => Ext z z' /\ (b = true -> is_Some (round_accepted z' r))).
Proof.
  intros Hi. unfold update_accepted_proposal, get. ok_step.
  assert (ok (mret false : M bool) z (fun b z' => Ext z z' /\ (b = true -> is_Some (round_accepted z' r)))) as Hno.
  { apply ok_ret. split; [by apply Ext_refl|done]. }
  destruct (has_accepted_proposal z r) eqn:Eacc; [done|]. apply bool_decide_eq_false in Eacc.
  destruct (rd ← round z r; proposal rd) as [p|] eqn:Ep; [|done]. apply bind_Some in Ep as (rd & Erd & Ep). case_bool_decide as Eq; [done|].
  assert (quorum_echoes (outcome rd) = Some (hash p)) as Hq by (by rewrite Erd in Eq). unfold round in Erd.
  apply ok_lift_total.
  { destruct (inactive (inner p)) as [i|]; [|by eexists]. apply (all_seen_total z i); [done|]. by intros e; apply enumerate_ids_range. }
  intros b _. destruct b; [|done]. cbn [negb]. destruct (inv_rounds _ Hi _ _ Erd) as [Hr Hok].
  destruct (ro_proposal _ _ _ Hok _ Ep) as (_ & Hh & Hpar). pose proof (ro_quorum_echoes _ _ _ Hok _ Hq) as Hce. rewrite Hh in Hce.
  assert (forall h l, chain (hist z) r h (inner p) l ->
    (forall parent, maybe_parent_round_id (inner p) = Some parent -> is_Some (round_accepted z parent)) ->
    ok (_ ← on_round r (fun rd => Ok ((), set_accepted_proposal_height h rd)); mret true) z
      (fun b z' => Ext z z' /\ (b = true -> is_Some (round_accepted z' r)))) as Hyes.
  { intros h l Hc Hpp. unfold on_round, round_mut, get. eapply (ok_bind _ _ _ (fun _ z' => z' = set_rounds (<[r := set_accepted_proposal_height h rd]> (rounds z)) z)).
    - eapply (ok_bind _ _ _ (fun x z' => x = rd /\ z' = z)); [ok_step; unfold round; rewrite Erd; by apply ok_ret|]. intros ? ? [-> ->].
      eapply ok_lift_bind; [reflexivity|]. unfold put_round. ok_step. by apply ok_ret.
    - intros _ ? ->. apply ok_ret. split.
      + eapply accept_Ext; [done|done|exact Ep|by apply eq_None_not_Some|by eapply accepted_height_ok|done].
      + intros _. rewrite round_accepted_put, decide_True by done. unfold accepted_proposal. cbn. by rewrite Ep. }
  destruct (maybe_parent_round_id (inner p)) as [parent|] eqn:Epp.
  - specialize (Hpar _ eq_refl). destruct (round_accepted z parent) as [[hp q]|] eqn:Eq'; [|done]. cbn [mbind option_bind].
    destruct (has_accepted_round _ _ _ _ Hi Eq') as (rdq & l & _ & _ & _ & _ & Hcq).
    replace (saturating_add 32 parent 1) with (parent + 1) by (unfold saturating_add, u_max; unfold in_u in Hr; lia).
    destruct (forallb _ _) eqn:Ef; [|done]. eapply (Hyes _ (l ++ [_])).
    + apply (Chain_child _ _ _ _ _ _ parent hp (inner q)); [lia|done|done| |exact Hcq]. intros s Hs. eapply skippable_range; [done|exact Ef|lia].
    + intros ? [= <-]. by rewrite Eq'.
  - destruct (forallb _ _) eqn:Ef; [|done]. eapply (Hyes 0 [_]); [|done]. apply Chain_first; [apply Hr|done|done|].
    intros s Hs. eapply skippable_range; [done|exact Ef|lia].
Qed.
End node.
