(* ===== verification/ZugFinal.v ===== *)
(** * The Zug consensus protocol: finalizing a round

    What [finalize_round] does to an accepted, committed round: the blocks of its chain that
    were not finalized before are announced, oldest first, and the rounds that the chain skips
    are pruned. *)
From S2P Require Import Prelude Effects BTree Validators ZugTypes Zug ZugQuorum ZugInv ZugNode.

Open Scope Z_scope.

(** ** Chains *)

Section chains.
Context {C : Context} {vs : Validators ValidatorId} {ftt : Z} {honest : Z -> bool}.
Abbreviation chain := (Chain vs ftt honest).
Implicit Types (H : History) (lk : Link).

Lemma Chain_last H r h p l : chain H r h p l -> exists l', l = l' ++ [mkLink r h p].
Proof. destruct 1; [by exists []|by eexists]. Qed.
Lemma Chain_rounds H r h p l lk : chain H r h p l -> lk ∈ l -> 0 <= link_round lk <= r.
Proof.
  induction 1 as [r p Hr|r p parent h q l Hr _ _ _ Hc IH].
  - intros ->%list_elem_of_singleton. cbn. lia.
  - intros [Hin| ->%list_elem_of_singleton]%elem_of_app; [specialize (IH Hin); lia|]. apply Chain_nonneg in Hc. cbn. lia.
Qed.
(** The parent of a link is a link. *)
Lemma Chain_parent H r h p l lk parent :
  chain H r h p l -> lk ∈ l -> maybe_parent_round_id (link_proposal lk) = Some parent -> parent ∈ link_round <$> l.
Proof.
  intros Hl. revert lk parent. induction Hl as [r p Hr He Hp Hs|r p parent' h q l Hr He Hp Hs Hc IH]; intros lk parent.
  - intros ->%list_elem_of_singleton. cbn. congruence.
  - rewrite fmap_app, !elem_of_app. intros [Hin| ->%list_elem_of_singleton] Hpar; [left; by eapply IH|left].
    cbn in Hpar. simplify_eq. apply Chain_last in Hc as [l' ->]. rewrite fmap_app, elem_of_app. right. by left.
Qed.
(** A link's height is its position. *)
Lemma Chain_heights H r h p l :
  chain H r h p l -> r < 2 ^ 32 -> h <= r /\ h = Z.of_nat (length l) - 1 /\ forall i lk, l !! i = Some lk -> link_height lk = Z.of_nat i.
Proof.
  induction 1 as [r p Hr|r p parent h q l Hr _ _ _ Hc IH]; intros Hlt.
  - split_and!; [done|done|]. intros [|i] lk; [by intros [= <-]|done].
  - destruct IH as (Hle & Hh & Hi); [lia|]. assert (saturating_add 64 h 1 = h + 1) as -> by (unfold saturating_add, u_max; lia).
    rewrite length_app. cbn [length]. split_and!; [lia|lia|]. intros i lk [Hl|[Hge Hl]]%lookup_app_Some; [by apply Hi|].
    apply list_lookup_singleton_Some in Hl as [Hi0 <-]. cbn. lia.
Qed.
End chains.

Section final.
Context {C : Context} {F : F64} {R : LeaderRng} {HO : HashOrder}.
Context {S0 : Setup} {honest : Z -> bool} {lead : Z -> Z} {me : option Z} {others : History}.
Hypothesis Hera : era_ok S0 honest lead.
Hypothesis Hme : me_ok S0 honest me.
Abbreviation vs := (validator_set S0).
Abbreviation ftt0 := (params_ftt (params S0)).
Abbreviation cert := (certified vs ftt0 honest).
Abbreviation chain := (Chain vs ftt0 honest).
Abbreviation hist := (hist me others).
Abbreviation round_ok := (round_ok S0 honest lead).
Abbreviation Inv := (Inv S0 honest lead me others None).
Abbreviation Step := (Step S0 honest lead me others None).

(** ** The block of a link *)

Definition switch_link (lk : Link) : bool :=
  bool_decide (is_Some (maybe_block (link_proposal lk))) &&
  (end_height (params S0) <=? saturating_add 64 (link_height lk) 1) &&
  (end_timestamp (params S0) <=? timestamp (link_proposal lk)).
Definition link_block (lk : Link) (block : ConsensusValue) (proposer : ValidatorId) : FinalizedBlock :=
  mkFinalizedBlock block (timestamp (link_proposal lk)) (link_height lk) []
    (if switch_link lk then
       Some (mkTerminalBlockData match inactive (link_proposal lk) with Some i => omap (id_of vs) (merge_sort Z.le (elements i)) | None => [] end)
     else None)
    proposer.
(** A dummy proposal has no block. *)
Definition link_outcome (lk : Link) : Outcomes :=
  match maybe_block (link_proposal lk), id_of vs (lead (link_round lk)) with
  | Some block, Some proposer => [O_FinalizedBlock (link_block lk block proposer)]
  | _, _ => []
  end.

(** A block is final when its proposal is on the certified chain of a committed round. *)
Definition finalized (H : History) (b : FinalizedBlock) : Prop :=
  exists r h p l lk, in_u 32 r /\ chain H r h p l /\ cert H r (Vote true) /\ lk ∈ l /\ O_FinalizedBlock b ∈ link_outcome lk.
Definition outcomes_ok (H : History) (o : Outcomes) : Prop :=
  (forall b, O_FinalizedBlock b ∈ o -> finalized H b) /\ (forall x, x ∈ o -> sent_ok (honest := honest) H x).

Lemma finalized_mono (H H' : History) b : (forall v r c, H v r c -> H' v r c) -> finalized H b -> finalized H' b.
Proof.
  intros HH (r & h & p & l & lk & Hr & Hc & Hv & Hl & Hb). exists r, h, p, l, lk.
  split_and!; [done|by eapply Chain_mono|by eapply certified_mono|done|done].
Qed.
Lemma outcomes_ok_mono (H H' : History) o : (forall v r c, H v r c -> H' v r c) -> outcomes_ok H o -> outcomes_ok H' o.
Proof.
  intros HH [Hb Hs]. split; [intros b Hin; eapply finalized_mono; [exact HH|]; by apply Hb|]. intros x Hx m Hm Hh. by apply HH, (Hs x).
Qed.
Lemma outcomes_ok_app (H : History) o1 o2 : outcomes_ok H o1 -> outcomes_ok H o2 -> outcomes_ok H (o1 ++ o2).
Proof. intros [B1 S1] [B2 S2]. split; [intros b [?|?]%elem_of_app|intros x [?|?]%elem_of_app]; auto. Qed.
Lemma quiet_ok (H : History) o : quiet (honest := honest) H o -> outcomes_ok H o.
Proof.
  unfold quiet. rewrite Forall_forall. intros Hq. split; [intros b Hb; by destruct (Hq _ Hb)|]. intros x Hx. by apply Hq.
Qed.

Lemma link_outcome_elem b lk :
  O_FinalizedBlock b ∈ link_outcome lk ->
  exists block proposer, maybe_block (link_proposal lk) = Some block /\ id_of vs (lead (link_round lk)) = Some proposer /\ b = link_block lk block proposer.
Proof.
  unfold link_outcome. destruct (maybe_block (link_proposal lk)) as [block|]; [|by intros ?%elem_of_nil].
  destruct (id_of vs (lead (link_round lk))) as [proposer|]; [|by intros ?%elem_of_nil]. intros [= ->]%list_elem_of_singleton. by exists block, proposer.
Qed.

(** Two final blocks at the same height are the same block. *)
Lemma finalized_agree (H : History) b1 b2 :
  consistent honest H -> finalized H b1 -> finalized H b2 -> relative_height b1 = relative_height b2 -> b1 = b2.
Proof.
  intros Hc (r1 & h1 & p1 & l1 & lk1 & Hr1 & C1 & V1 & L1 & B1) (r2 & h2 & p2 & l2 & lk2 & Hr2 & C2 & V2 & L2 & B2) Hh.
  assert (exists r h p l, in_u 32 r /\ chain H r h p l /\ lk1 ∈ l /\ lk2 ∈ l) as (r & h & p & l & Hr & Hl & I1 & I2).
  { destruct (Z.le_ge_cases r1 r2).
    - exists r2, h2, p2, l2. split_and!; [done|done| |done].
      eapply elem_of_prefix; [exact L1|]. eapply (Chain_includes vs ftt0 honest); [apply Hera|apply Hera|apply Hera|done|exact C2|exact C1|done|done].
    - exists r1, h1, p1, l1. split_and!; [done|done|done|].
      eapply elem_of_prefix; [exact L2|]. eapply (Chain_includes vs ftt0 honest); [apply Hera|apply Hera|apply Hera|done|exact C1|exact C2|done|done]. }
  destruct (link_outcome_elem _ _ B1) as (v1 & w1 & M1 & P1 & ->). destruct (link_outcome_elem _ _ B2) as (v2 & w2 & M2 & P2 & ->). cbn in Hh.
  apply list_elem_of_lookup in I1 as [i1 I1]. apply list_elem_of_lookup in I2 as [i2 I2].
  destruct (Chain_heights _ _ _ _ _ Hl (proj2 Hr)) as (_ & _ & Hi). rewrite (Hi _ _ I1), (Hi _ _ I2) in Hh.
  assert (i1 = i2) as -> by lia. congruence.
Qed.

(** ** Pruning *)

Definition round_or_new (rs : gmap Z Round) (k : Z) : Round := default (round_new (len vs) (lead k)) (rs !! k).

Lemma on_round_eq {A} z r (f : Round -> result NodeId (A * Round)) a rd :
  setup z = S0 -> 0 <= r -> f (round_or_new (rounds z) r) = Ok (a, rd) ->
  on_round r f z = (Ok a, set_rounds (<[r := rd]> (rounds z)) z).
Proof.
  intros Hs Hr Hf. unfold on_round, round_mut, get, round_or_new, round in *. unfold mbind, st_bind, asks, lift, modify, put_round, mret, st_ret in *.
  destruct (rounds z !! r) as [rd0|] eqn:E; cbn in *; [by rewrite Hf|].
  destruct (seq_leader_ok Hera z r Hs Hr) as [-> _]. cbn. unfold vset. rewrite Hs, Hf. unfold modify. cbn. by rewrite insert_insert_eq.
Qed.

Lemma prune_rounds_eq z (ks : list Z) :
  setup z = S0 -> NoDup ks -> (forall k, k ∈ ks -> 0 <= k) ->
  exists rs, for_each ks (fun pr => _ ← on_round pr (fun rd => Ok ((), prune_skipped rd)); mret []) z = (Ok [], set_rounds rs z) /\
    forall k, rs !! k = if decide (k ∈ ks) then Some (prune_skipped (round_or_new (rounds z) k)) else rounds z !! k.
Proof.
  intros Hs Hnd. revert z Hs. induction Hnd as [|k0 ks Hk0 Hnd IH]; intros z Hs Hks.
  - exists (rounds z). split; [by destruct z|]. intros k. rewrite decide_False; [done|apply not_elem_of_nil].
  - cbn [for_each]. set (z1 := set_rounds (<[k0 := prune_skipped (round_or_new (rounds z) k0)]> (rounds z)) z).
    destruct (IH z1 Hs) as (rs & Hrs & Hl); [intros k Hk; apply Hks; by right|].
    exists rs. split.
    + erewrite st_bind_eq; [|erewrite st_bind_eq; [done|]; apply on_round_eq; [done|apply Hks; by left|done]]. fold z1.
      erewrite st_bind_eq; [|exact Hrs]. done.
    + intros k. rewrite Hl. cbn [rounds set_rounds z1]. unfold round_or_new. destruct (decide (k = k0)) as [->|Hne].
      * rewrite decide_False by done. rewrite decide_True by left. by rewrite lookup_insert_eq.
      * rewrite lookup_insert_ne by done. apply decide_ext. rewrite elem_of_cons. naive_solver.
Qed.

(** ** Finalizing *)

(** The part of [finalize_round] after the parent. *)
Definition finish (r height : Z) (p : HashedProposal) (outcomes : Outcomes) : M Outcomes :=
  z ← get;
  _ ← for_each (seqZ (first_non_finalized_round_id z) (r - first_non_finalized_round_id z))
        (fun pr => _ ← on_round pr (fun rd => Ok ((), prune_skipped rd)); mret []);
  _ ← modify (set_first_non_finalized_round_id (saturating_add 32 r 1));
  match maybe_block (inner p) with
  | None => mret outcomes
  | Some block =>
      z ← get;
      l ← lift (leader_of z r);
      proposer ← lift (expect (id_of (vset z) l));
      mret (outcomes ++ [O_FinalizedBlock (finalized_block z r height p block proposer)])
  end.
Lemma finalize_round_from_S fuel r z :
  finalize_round_from (S fuel) r z =
  if r <? first_non_finalized_round_id z then (Ok [], z) else
  match round_accepted z r with
  | None => (Ok [], z)
  | Some (height, p) =>
      (match maybe_parent_round_id (inner p) with Some parent => finalize_round_from fuel parent | None => mret [] end ≫= finish r height p) z
  end.
Proof.
  cbn [finalize_round_from]. unfold get. change ((asks (fun z => z) ≫= ?k) z) with (k z z). cbv beta. destruct (_ <? _); [done|].
  by destruct (round_accepted z r) as [[height p]|].
Qed.

Definition leaders_ok (rs : gmap Z Round) : Prop := forall k rd, rs !! k = Some rd -> leader_idx rd = lead k.

Lemma finish_eq z r h p os :
  setup z = S0 -> 0 <= first_non_finalized_round_id z -> 0 <= r -> leaders_ok (rounds z) -> round_accepted z r = Some (h, hashed_proposal_new p) ->
  exists rs, finish r h (hashed_proposal_new p) os z =
      (Ok (os ++ link_outcome (mkLink r h p)), set_first_non_finalized_round_id (saturating_add 32 r 1) (set_rounds rs z)) /\
    forall k, rs !! k = if decide (first_non_finalized_round_id z <= k < r) then Some (prune_skipped (round_or_new (rounds z) k)) else rounds z !! k.
Proof.
  intros Hs Hf Hr Hl Ha. set (fnf := first_non_finalized_round_id z) in *.
  destruct (prune_rounds_eq z (seqZ fnf (r - fnf)) Hs) as (rs & Hrs & Hk); [apply NoDup_seqZ|intros k Hk%elem_of_seqZ; lia|].
  assert (forall k, rs !! k = if decide (fnf <= k < r) then Some (prune_skipped (round_or_new (rounds z) k)) else rounds z !! k) as Hk'.
  { intros k. rewrite Hk. apply decide_ext. rewrite elem_of_seqZ. lia. }
  exists rs. split; [|exact Hk']. unfold finish, get. change ((asks (fun z => z) ≫= ?k) z) with (k z z). cbv beta. fold fnf.
  erewrite st_bind_eq; [|exact Hrs]. set (z' := set_first_non_finalized_round_id (saturating_add 32 r 1) (set_rounds rs z)).
  erewrite st_bind_eq; [|reflexivity]. fold z'. unfold link_outcome. cbn [link_proposal link_round inner hashed_proposal_new].
  destruct (maybe_block p) as [block|] eqn:Eb; [|by rewrite app_nil_r].
  change ((asks (fun z => z) ≫= ?k) z') with (k z' z'). cbv beta.
  assert (round z' r = round z r) as Hround. { unfold round. cbn. rewrite Hk'. rewrite decide_False by lia. done. }
  assert (round_accepted z' r = round_accepted z r) as Hacc by (unfold round_accepted; by rewrite Hround).
  assert (exists rd, round z r = Some rd) as [rd Hrd]. { unfold round_accepted in Ha. destruct (round z r); [by eexists|done]. }
  assert (leader_of z' r = Ok (lead r)) as Hlead. { unfold leader_of. rewrite Hround, Hrd. by rewrite (Hl r rd Hrd). }
  rewrite (st_bind_eq _ _ _ (lead r) z') by (unfold lift; by rewrite Hlead).
  destruct (eo_lead Hera r Hr) as [_ Hv]. destruct (vec_get_is_Some (validators vs) (lead r) Hv) as [v Hid].
  assert (id_of vs (lead r) = Some (id v)) as Hid' by (unfold id_of; by rewrite Hid).
  unfold vset. change (setup z') with (setup z). rewrite Hs, Hid'. erewrite st_bind_eq; [|reflexivity].
  unfold mret, st_ret. f_equal. f_equal. f_equal. f_equal. f_equal. unfold finalized_block, link_block, switch_link, accepted_switch_block. rewrite Hacc, Ha. cbn.
  unfold vset. change (setup z') with (setup z). by rewrite !Hs.
Qed.

Definition accepts (z : Zug) (l : list Link) : Prop :=
  forall lk, lk ∈ l -> round_accepted z (link_round lk) = Some (link_height lk, hashed_proposal_new (link_proposal lk)).
(** The rounds of [l] are kept, the others from [lo] to [hi] pruned. *)
Definition pruned (l : list Link) (lo hi : Z) (rs rs' : gmap Z Round) : Prop :=
  forall k, rs' !! k = if decide (lo <= k < hi /\ k ∉ link_round <$> l) then Some (prune_skipped (round_or_new rs k)) else rs !! k.
Definition new_blocks (fnf : Z) (l : list Link) : Outcomes := concat (link_outcome <$> filter (fun lk => fnf <= link_round lk) l).

Lemma new_blocks_old fnf l : (forall lk, lk ∈ l -> link_round lk < fnf) -> new_blocks fnf l = [].
Proof.
  intros Hl. unfold new_blocks. induction l as [|lk l IH]; [done|]. rewrite filter_cons_False; [|specialize (Hl lk ltac:(left)); lia].
  apply IH. intros lk' Hlk. apply Hl. by right.
Qed.
Lemma new_blocks_snoc fnf l lk : fnf <= link_round lk -> new_blocks fnf (l ++ [lk]) = new_blocks fnf l ++ link_outcome lk.
Proof. intros Hf. unfold new_blocks. rewrite filter_app, filter_cons_True, filter_nil, fmap_app, concat_app by done. cbn. by rewrite app_nil_r. Qed.

Lemma pruned_snoc l lk lo hi parent rs rs1 rs2 :
  pruned l lo parent rs rs1 -> lo <= parent < hi -> link_round lk = hi -> parent ∈ link_round <$> l -> (forall lk', lk' ∈ l -> link_round lk' <= parent) ->
  (forall k, rs2 !! k = if decide (parent + 1 <= k < hi) then Some (prune_skipped (round_or_new rs1 k)) else rs1 !! k) ->
  pruned (l ++ [lk]) lo hi rs rs2.
Proof.
  intros H1 Hlo Hlk Hin Hle H2 k. rewrite H2.
  assert (k ∉ link_round <$> l ++ [lk] <-> k ∉ link_round <$> l /\ k <> hi) as Hm.
  { rewrite fmap_app, elem_of_app, <- Hlk. cbn. rewrite list_elem_of_singleton. naive_solver. }
  assert (parent < k -> k ∉ link_round <$> l) as Hnot. { intros Hk (lk' & -> & Hlk')%list_elem_of_fmap. apply Hle in Hlk'. lia. }
  destruct (decide (parent + 1 <= k < hi)) as [Hk|Hk].
  - rewrite (decide_True (P := lo <= k < hi /\ _)) by (split; [lia|]; apply Hm; split; [apply Hnot; lia|lia]).
    unfold round_or_new. rewrite H1, decide_False by lia. done.
  - rewrite H1. apply decide_ext. rewrite Hm. split; [intros [? ?]; split_and!; [lia|lia|done|lia]|]. intros (? & Hn & ?). split; [|done].
    destruct (decide (k = parent)) as [->|]; [done|lia].
Qed.

(** What [finalize_round] returns and leaves behind, on a node that accepts the chain. *)
Lemma finalize_from_eq H r h p l :
  chain H r h p l -> r < 2 ^ 32 -> forall fuel z,
  (Z.to_nat r < fuel)%nat -> setup z = S0 -> 0 <= first_non_finalized_round_id z -> leaders_ok (rounds z) -> accepts z l ->
  exists z', finalize_round_from fuel r z = (Ok (new_blocks (first_non_finalized_round_id z) l), z') /\
    if r <? first_non_finalized_round_id z then z' = z else
    exists rs, z' = set_first_non_finalized_round_id (saturating_add 32 r 1) (set_rounds rs z) /\ pruned l (first_non_finalized_round_id z) r (rounds z) rs.
Proof.
  induction 1 as [r p Hr He Hp Hs|r p parent h q l Hr He Hp Hs Hc IH]; intros Hlt [|fuel] z Hf Hset Hfnf Hld Hacc; try lia;
    rewrite finalize_round_from_S; set (fnf := first_non_finalized_round_id z) in *; destruct (r <? fnf) eqn:Ef.
  - exists z. rewrite new_blocks_old; [done|]. intros lk ->%list_elem_of_singleton. cbn. lia.
  - pose proof (Hacc (mkLink r 0 p) ltac:(left)) as Ha. cbn [link_round link_height link_proposal] in Ha. rewrite Ha. cbn [inner hashed_proposal_new]. rewrite Hp, (st_bind_eq _ _ _ [] z) by done.
    destruct (finish_eq z r 0 p [] Hset Hfnf Hr Hld Ha) as (rs & -> & Hrs).
    eexists. split; [f_equal; f_equal; symmetry; apply (new_blocks_snoc _ []); cbn; lia|]. exists rs. split; [done|]. intros k. rewrite Hrs. fold fnf.
    apply decide_ext. cbn. rewrite list_elem_of_singleton. lia.
  - exists z. rewrite new_blocks_old; [done|]. intros lk Hlk. assert (chain H r (saturating_add 64 h 1) p (l ++ [mkLink r (saturating_add 64 h 1) p])) as Hc' by (by econstructor).
    pose proof (Chain_rounds _ _ _ _ _ _ Hc' Hlk). lia.
  - set (h' := saturating_add 64 h 1) in *. assert (mkLink r h' p ∈ l ++ [mkLink r h' p]) as Hin by (apply elem_of_app; right; by left).
    pose proof (Chain_nonneg _ _ _ _ _ _ _ _ Hc) as Hpn.
    pose proof (Hacc _ Hin) as Ha. cbn [link_round link_height link_proposal] in Ha. rewrite Ha. cbn [inner hashed_proposal_new]. rewrite Hp.
    destruct (IH ltac:(lia) fuel z ltac:(lia) Hset Hfnf Hld) as (z1 & E1 & Hz1); [intros lk Hlk; apply Hacc, elem_of_app; by left|]. fold fnf in E1, Hz1.
    rewrite (st_bind_eq _ _ _ _ _ E1). pose proof (fun lk => Chain_rounds _ _ _ _ _ lk Hc) as Hle.
    destruct (Chain_last _ _ _ _ _ Hc) as [l' El]. assert (parent ∈ link_round <$> l) as Hparent.
    { rewrite El, fmap_app, elem_of_app. right. by left. }
    destruct (parent <? fnf) eqn:Epf.
    + subst z1. destruct (finish_eq z r h' p (new_blocks fnf l) Hset Hfnf ltac:(lia) Hld Ha) as (rs & -> & Hrs). fold fnf in Hrs.
      eexists. split; [f_equal; f_equal; symmetry; apply new_blocks_snoc; cbn; lia|]. exists rs. split; [done|]. intros k. rewrite Hrs.
      apply decide_ext. rewrite fmap_app, elem_of_app. cbn. rewrite list_elem_of_singleton. split; [|by intros []]. intros Hk. split; [lia|].
      intros [(lk & -> & Hlk)%list_elem_of_fmap|?]; [|lia]. specialize (Hle _ Hlk). lia.
    + destruct Hz1 as (rs1 & -> & Hp1). set (z1 := set_first_non_finalized_round_id _ _).
      assert (first_non_finalized_round_id z1 = parent + 1) as Hf1. { cbn. unfold saturating_add, u_max. lia. }
      assert (rs1 !! r = rounds z !! r) as Hr1. { rewrite (Hp1 r), decide_False; [done|lia]. }
      destruct (finish_eq z1 r h' p (new_blocks fnf l)) as (rs & -> & Hrs); [done|lia|lia| | |].
      { intros k rd. cbn. rewrite (Hp1 k). case_decide; [|apply Hld]. intros [= <-]. cbn. unfold round_or_new.
        destruct (rounds z !! k) as [rd|] eqn:Ek; cbn; [by apply Hld|done]. }
      { unfold round_accepted, round. cbn. rewrite Hr1. exact Ha. }
      eexists. split; [f_equal; f_equal; symmetry; apply new_blocks_snoc; cbn; lia|]. exists rs. split; [done|].
      rewrite Hf1 in Hrs. eapply pruned_snoc; [exact Hp1|lia|done|done|intros lk Hlk; by apply Hle|exact Hrs].
Qed.

(** ** The invariant after finalizing *)

(** The other correct validators do not contradict themselves, and do not sign for this one. *)
Definition others_ok : Prop := consistent honest others /\ forall v r c, me = Some v -> ~ others v r c.
Hypothesis Hoth : others_ok.

Lemma hist_consistent z : Inv z -> consistent honest (hist z).
Proof.
  intros Hi v r c1 c2 Hv [O1|[M1 S1]] [O2|[M2 S2]].
  - by eapply (proj1 Hoth).
  - by destruct (proj2 Hoth v r c1).
  - by destruct (proj2 Hoth v r c2).
  - by eapply (inv_own _ Hi).
Qed.

Lemma Chain_inv_unique z r h1 h2 p1 p2 l1 l2 :
  Inv z -> chain (hist z) r h1 p1 l1 -> chain (hist z) r h2 p2 l2 -> h1 = h2 /\ p1 = p2 /\ l1 = l2.
Proof. intros Hi. apply Chain_unique; [apply Hera|apply Hera|apply Hera|by apply hist_consistent]. Qed.

(** A node that accepts a round accepts its chain. *)
Lemma accepted_chain z r h p l : Inv z -> chain (hist z) r h p l -> is_Some (round_accepted z r) -> accepts z l.
Proof.
  intros Hi Hc. assert (forall r h p l, chain (hist z) r h p l -> is_Some (round_accepted z r) ->
    round_accepted z r = Some (h, hashed_proposal_new p)) as Hacc.
  { clear r h p l Hc. intros r h p l Hc [[h' p'] Ha]. destruct (has_accepted_round _ _ _ _ Hi Ha) as (rd & l' & _ & _ & _ & (_ & Hh & _) & Hc').
    destruct (Chain_inv_unique _ _ _ _ _ _ _ _ Hi Hc Hc') as (-> & -> & _). rewrite Ha. destruct p' as [hp' ip']. cbn in *. by rewrite Hh. }
  induction Hc as [r p Hr He Hp Hs|r p parent h q l Hr He Hp Hs Hc IH]; intros Ha lk.
  - intros ->%list_elem_of_singleton. apply (Hacc _ _ _ [mkLink r 0 p]); [by constructor|done].
  - assert (chain (hist z) r (saturating_add 64 h 1) p (l ++ [mkLink r (saturating_add 64 h 1) p])) as Hc' by (by econstructor).
    rewrite elem_of_app, list_elem_of_singleton. intros [Hin| ->]; [|by eapply Hacc].
    apply IH; [|done]. pose proof (Hacc _ _ _ _ Hc' Ha) as Ha'. by eapply (inv_parents _ Hi).
Qed.

Lemma prune_skipped_ok H r rd : round_ok H r rd -> round_ok H r (prune_skipped rd).
Proof. intros []. by split. Qed.
Lemma round_or_new_ok z k : Inv z -> round_ok (hist z) k (round_or_new (rounds z) k).
Proof. intros Hi. unfold round_or_new. destruct (rounds z !! k) as [rd|] eqn:E; cbn; [by apply (inv_rounds _ Hi)|apply round_new_ok]. Qed.

Lemma pruned_Step z r h p l fnf rs :
  Inv z -> chain (hist z) r h p l -> is_Some (round_accepted z r) -> cert (hist z) r (Vote true) -> in_u 32 r -> in_u 32 fnf ->
  pruned l (first_non_finalized_round_id z) r (rounds z) rs ->
  Step z (set_first_non_finalized_round_id fnf (set_rounds rs z)).
Proof.
  intros Hi Hc Hacc Hv Hr Hfnf Hp. set (z' := set_first_non_finalized_round_id fnf (set_rounds rs z)).
  pose proof (accepted_chain _ _ _ _ _ Hi Hc Hacc) as Hal. pose proof (fun lk => Chain_rounds _ _ _ _ _ lk Hc) as Hle.
  assert (forall k, round_accepted z' k =
    if decide (first_non_finalized_round_id z <= k < r /\ k ∉ link_round <$> l) then None else round_accepted z k) as Hk.
  { intros k. unfold round_accepted, round. cbn. rewrite (Hp k). by case_decide. }
  assert (forall v k c, stored z v k c -> stored z' v k c) as Hst.
  { intros v k c (rd & Hrd & Hin). unfold stored. cbn. rewrite (Hp k). case_decide; [|by eauto]. eexists. split; [done|].
    unfold round_or_new. rewrite Hrd. by destruct c. }
  split; try done; [|by auto]. pose proof Hi as [I1 I2 I2' I3 I3' I4 I5 I6 I7 I8 I9 I10 I11 I12 I13 I14 I15]. split; try done.
  - intros k rd. cbn. rewrite (Hp k). case_decide as E; [|by apply I4]. intros [= <-]. split; [unfold in_u in *; pose proof I6; unfold in_u in *; lia|].
    exact (prune_skipped_ok _ _ _ (round_or_new_ok z k Hi)).
  - intros k hk pk parent. rewrite Hk. case_decide as E; [done|]. intros Ha Hpar. rewrite Hk, decide_False; [by eapply I5|].
    intros [Hrange Hnot]. destruct (has_accepted_round _ _ _ _ Hi Ha) as (rd & lk & _ & _ & _ & (_ & _ & Hpk) & Hck).
    specialize (Hpk _ Hpar). destruct (decide (k ∈ link_round <$> l)) as [Hin|Hout].
    + apply Hnot. apply list_elem_of_fmap in Hin as (lk0 & -> & Hlk0). specialize (Hal _ Hlk0). rewrite Ha in Hal. injection Hal as -> ->.
      by eapply Chain_parent.
    + assert (~ first_non_finalized_round_id z <= k < r) by tauto. assert (r < k) as Hrk. { destruct (decide (k = r)) as [->|]; [|lia]. exfalso. apply Hout. destruct (Chain_last _ _ _ _ _ Hc) as [l' ->]. rewrite fmap_app, elem_of_app. right. by left. }
      eapply (certified_vote vs ftt0 honest); [apply Hera|apply Hera|by eapply hist_consistent|exact Hv|].
      inversion Hck as [? ? ? ? Hnone|? ? parent' ? ? ? ? ? Hsome Hskip]; subst; [congruence|]. simplify_eq. apply Hskip. lia.
  - intros v k c Hme' Hw He Hs. destruct (I14 v k c Hme' Hw He Hs); [left; by apply Hst|by right].
Qed.

Lemma is_committed_cert z r : Inv z -> is_committed_round z r = true -> cert (hist z) r (Vote true).
Proof.
  intros Hi Hs. unfold is_committed_round, round in Hs. apply bool_decide_eq_true in Hs. apply bind_Some in Hs as (rd & Hrd & Hq).
  destruct (inv_rounds _ Hi _ _ Hrd) as [_ Hok]. by apply (ro_quorum_votes _ _ _ Hok).
Qed.

(** The blocks of the round's chain that were not finalized before, oldest first. *)
Lemma finalize_round_spec z r :
  Inv z -> has_accepted_proposal z r = true -> is_committed_round z r = true ->
  exists h p l z', chain (hist z) r h p l /\ round_accepted z r = Some (h, hashed_proposal_new p) /\
    finalize_round r z = (Ok (new_blocks (first_non_finalized_round_id z) l), z') /\ Step z z' /\
    first_non_finalized_round_id z' = Z.max (first_non_finalized_round_id z) (saturating_add 32 r 1) /\
    outcomes_ok (hist z) (new_blocks (first_non_finalized_round_id z) l).
Proof.
  intros Hi Ha Hv%is_committed_cert; [|done]. apply bool_decide_eq_true in Ha as [[h p] Ha].
  destruct (has_accepted_round _ _ _ _ Hi Ha) as (rd & l & Hrd & _ & _ & _ & Hc). destruct (inv_rounds _ Hi _ _ Hrd) as [Hr _].
  assert (accepts z l) as Hal by (by eapply accepted_chain). pose proof (inv_fnf _ Hi) as Hf.
  destruct (finalize_from_eq _ _ _ _ _ Hc (proj2 Hr) (S (Z.to_nat r)) z ltac:(lia) (inv_setup _ Hi) (proj1 Hf)) as (z' & Hz & Hz'); [|done|].
  { intros k rd' Hk. destruct (inv_rounds _ Hi _ _ Hk) as [_ Hok]. apply Hok. }
  exists h, (inner p), l, z'. unfold in_u in Hr, Hf. split_and!; [done| |exact Hz| | |].
  - destruct (Chain_last _ _ _ _ _ Hc) as [l' El]. apply (Hal (mkLink r h (inner p))). rewrite El, elem_of_app. right. by left.
  - destruct (r <? _); [subst; by apply Step_refl|]. destruct Hz' as (rs & -> & Hp).
    eapply pruned_Step; [done|done|by rewrite Ha|done|done|unfold in_u, saturating_add, u_max; lia|done].
  - unfold saturating_add, u_max. destruct (r <? _) eqn:E; [subst; lia|]. destruct Hz' as (rs & -> & Hp). cbn. unfold saturating_add, u_max. lia.
  - assert (forall x, x ∈ new_blocks (first_non_finalized_round_id z) l -> exists lk b, lk ∈ l /\ x = O_FinalizedBlock b /\ x ∈ link_outcome lk) as Hnew.
    { intros x (o & Hb & Ho)%list_elem_of_In%in_concat. apply list_elem_of_In, list_elem_of_fmap in Hb as (lk & -> & [_ Hlk]%list_elem_of_filter).
      apply list_elem_of_In in Ho. pose proof Ho as Ho'. unfold link_outcome in Ho'. destruct (maybe_block (link_proposal lk)), (id_of vs (lead (link_round lk)));
        try (by apply elem_of_nil in Ho'). apply list_elem_of_singleton in Ho'. by eexists lk, _. }
    split.
    + intros b Hb. destruct (Hnew _ Hb) as (lk & b' & Hlk & [= <-] & Ho). by exists r, h, (inner p), l, lk.
    + intros x Hx. destruct (Hnew _ Hx) as (lk & b' & _ & -> & _). by intros m ?%elem_of_nil.
Qed.
End final.
