(* ===== verification/ZugUpdate.v ===== *)
(** * The Zug consensus protocol: proposing and updating

    The invariant through [propose_if_leader], [update_round] and the loop of [update], which
    ends because round numbers are [u32]s. *)
From S2P Require Import Prelude Effects BTree Validators ZugTypes Zug ZugQuorum ZugInv ZugNode ZugFinal.

Open Scope Z_scope.

Section update.
Context {C : Context} {F : F64} {R : LeaderRng} {HO : HashOrder}.
Context {S0 : Setup} {honest : Z -> bool} {lead : Z -> Z} {me : option Z} {others : History}.
Hypothesis Hera : era_ok S0 honest lead.
Hypothesis Hme : me_ok S0 honest me.
Hypothesis Hoth : others_ok (honest := honest) (me := me) (others := others).
Abbreviation vs := (validator_set S0).
Abbreviation hist := (hist me others).
Abbreviation Inv := (Inv S0 honest lead me others None).
Abbreviation Step := (Step S0 honest lead me others None).
Abbreviation Pure := (Pure S0 honest lead me others None).
Abbreviation Ext := (Ext (S0 := S0) (honest := honest) (lead := lead) (me := me) (others := others)).
Abbreviation returns_quietly := (returns_quietly (S0 := S0) (honest := honest) (lead := lead) (me := me) (others := others)).
Abbreviation quiet := (quiet (honest := honest)).
Abbreviation outcomes_ok := (outcomes_ok (S0 := S0) (honest := honest) (lead := lead)).

(** ** Handlers that keep the invariant and finalize only final blocks *)

Definition Good (z : Zug) (o : Outcomes) (z' : Zug) : Prop := Step z z' /\ outcomes_ok (hist z') o.
Definition returns (m : M Outcomes) (z : Zug) : Prop := ok m z (fun o z' => Good z o z').

Lemma Step_quiet_Good z z' o : Step z z' -> quiet (hist z') o -> Good z o z'.
Proof. intros Hs Hq. split; [done|by apply quiet_ok]. Qed.
Lemma Step_quiet z z' o : Step z z' -> quiet (hist z) o -> quiet (hist z') o.
Proof. intros Hs. apply quiet_mono. apply Hs. Qed.
Lemma quietly_returns m z : returns_quietly m z -> returns m z.
Proof. intros Hm. eapply ok_mono; [exact Hm|]. intros o z' [[Hs _] Hq]. by apply Step_quiet_Good. Qed.
Lemma Good_app z o1 z1 o2 z2 : Good z o1 z1 -> Good z1 o2 z2 -> Good z (o1 ++ o2) z2.
Proof.
  intros [S1 O1] [S2 O2]. split; [by eapply Step_trans|]. apply outcomes_ok_app; [|done]. eapply outcomes_ok_mono; [|exact O1]. apply S2.
Qed.
Lemma Good_inv z o z' : Good z o z' -> Inv z'.
Proof. intros [Hs _]. apply Hs. Qed.
Lemma Step_Good z z1 o z2 : Step z z1 -> Good z1 o z2 -> Good z o z2.
Proof. intros Hs Hg. apply (Good_app z [] z1 o z2); [by apply Step_quiet_Good, quiet_nil|done]. Qed.
Lemma ret_returns z o : Inv z -> quiet (hist z) o -> returns (mret o) z.
Proof. intros Hi Ho. apply ok_ret, Step_quiet_Good; [by apply Step_refl|done]. Qed.
Lemma bind_returns {A} (m : M A) (k : A -> M Outcomes) z :
  ok m z (fun _ z' => Step z z') -> (forall a z', Step z z' -> returns (k a) z') -> returns (m ≫= k) z.
Proof. intros Hm Hk. eapply ok_bind; [exact Hm|]. intros a z1 S1. eapply ok_mono; [by apply Hk|]. intros o z2. by apply Step_Good. Qed.
(** Outcomes that are appended. *)
Lemma append_returns {A} (m : M A) (k : A -> M Outcomes) z (f : A -> Outcomes) (g : A -> Outcomes -> Outcomes) :
  ok m z (fun a z' => Good z (f a) z') -> (forall a z', Step z z' -> returns (k a) z') -> (forall a o, g a o = f a ++ o) ->
  returns (a ← m; o ← k a; mret (g a o)) z.
Proof.
  intros Hm Hk Hg. eapply ok_bind; [exact Hm|]. intros a z1 G1. eapply ok_bind; [apply Hk, G1|]. intros o z2 G2. apply ok_ret.
  rewrite Hg. exact (Good_app _ _ _ _ _ G1 G2).
Qed.
Lemma for_each_returns {A} (l : list A) (f : A -> M Outcomes) z :
  Inv z -> (forall a z', a ∈ l -> Step z z' -> returns (f a) z') -> returns (for_each l f) z.
Proof.
  revert z. induction l as [|a l IH]; intros z Hi Hf; cbn [for_each]; [by apply ret_returns, quiet_nil|].
  apply (append_returns _ _ _ (fun o => o)); [apply Hf; [by left|by apply Step_refl]| |done].
  intros o z1 S1. apply IH; [apply S1|]. intros a' z2 Ha S2. apply Hf; [by right|]. by eapply Step_trans.
Qed.

(** ** Proposing *)

Lemma leader_of_ok z r : Inv z -> 0 <= r -> leader_of z r = Ok (lead r).
Proof.
  intros Hi Hr. unfold leader_of, round. destruct (rounds z !! r) as [rd|] eqn:E.
  - destruct (inv_rounds _ Hi _ _ E) as [_ Hok]. by rewrite (ro_leader _ _ _ Hok).
  - by apply (seq_leader_ok Hera); [apply Hi|].
Qed.

Lemma create_echo_and_proposal_ok z p :
  Inv z -> proposal_ok (current_round z) (hashed_proposal_new p) -> returns_quietly (create_echo_and_proposal p) z.
Proof.
  intros Hi Hp. unfold create_echo_and_proposal, get, returns_quietly. ok_step. pose proof (inv_current _ Hi) as Hr.
  eapply ok_bind; [exact (create_message_ok Hera Hme z _ _ Hi Hr)|]. intros [echo|] z1 [E1 Hecho]; pose proof (Ext_inv _ _ E1) as Hi1; [|apply ok_ret; split; [done|apply quiet_nil]].
  apply (step_quietly _ _ _ E1).
  apply bind_quietly; [by apply (record_proposal_ok Hera Hme _ _ (hashed_proposal_new p))|]. intros recorded z2 E2. pose proof (Ext_inv _ _ E2) as Hi2.
  destruct recorded; cbn [negb]; [|by apply ret_quietly, quiet_nil].
  apply bind_quietly; [by apply insert_proposal_round|]. intros inserted z3 E3. pose proof (Ext_inv _ _ E3) as Hi3.
  destruct inserted; [|by apply ret_quietly, quiet_nil]. apply bind_quietly; [by apply mark_dirty_Ext|]. intros _ z4 E4.
  apply ret_quietly; [by eapply Ext_inv|]. apply quiet_gossip. intros s ->%list_elem_of_singleton _.
  by apply (proj1 E4), (proj1 E3), (proj1 E2), Hecho.
Qed.

Lemma propose_if_leader_ok z maybe_parent now :
  Inv z -> (forall parent, maybe_parent = Some parent -> 0 <= parent < current_round z /\ is_Some (round_accepted z parent)) ->
  returns_quietly (propose_if_leader maybe_parent now) z.
Proof.
  intros Hi Hpar. unfold propose_if_leader, get, returns_quietly. ok_step. pose proof (inv_current _ Hi) as Hr.
  apply ok_lift_total. { destruct (active_validator z); [|by eexists]. rewrite leader_of_ok; [by eexists|done|apply Hr]. }
  intros l _. destruct (negb _); [by apply ret_quietly, quiet_nil|]. destruct (match pending_proposal z with Some _ => _ | None => _ end); [by apply ret_quietly, quiet_nil|].
  eapply ok_bind; [exact (round_mut_ok Hera z _ Hi Hr)|]. intros rd z1 (P1 & Hrd & _). pose proof (Pure_inv _ _ P1) as Hi1.
  assert (current_round z1 = current_round z) as Ec by apply P1. apply (step_quietly _ _ _ (Pure_Ext _ _ P1)). unfold returns_quietly.
  case_bool_decide; [by apply ret_quietly, quiet_nil|]. ok_step.
  assert (forall ancestors, returns_quietly (_ ← modify (set_pending_proposal (Some (mkBlockContext now ancestors, current_round z1, maybe_parent)));
    mret [CreateNewBlock (mkBlockContext now ancestors) (saturating_add 64 now (current_proposal_timeout z1))]) z1) as Hreq.
  { intros ancestors. apply bind_quietly.
    - apply ok_modify, Pure_Ext, set_pending_Pure; [done|]. intros c r parent [= <- <- Hp]. rewrite Ec. by apply Hpar.
    - intros _ z2 E2. apply ret_quietly; [by eapply Ext_inv|by apply quiet_one]. }
  destruct maybe_parent as [parent|]; [|by apply Hreq]. destruct (Hpar parent eq_refl) as [Hlt [x Hx]]. destruct (_ || _).
  - apply create_echo_and_proposal_ok; [done|]. rewrite Ec. split_and!; [done|done|]. by intros ? [= <-].
  - destruct (zug_ancestor_values_total z1 parent Hi1) as (o & Eo & Ho). eapply ok_lift_bind; [exact Eo|].
    destruct Ho as [anc ->]; [exists x; by apply P1|]. eapply ok_lift_bind; [reflexivity|]. apply Hreq.
Qed.

Lemma suitable_parent_from_spec z now (P : Z -> Prop) rs acc parent ts :
  (forall r, r ∈ rs -> is_Some (round_accepted z r) -> P r) -> (forall q t, acc = Some (Some q, t) -> P q) ->
  suitable_parent_from z now rs acc = Some (Some parent, ts) -> P parent.
Proof.
  revert acc. induction rs as [|r rs IH]; intros acc Hrs Hacc; cbn [suitable_parent_from]; [done|].
  assert (forall acc', (forall q t, acc' = Some (Some q, t) -> P q) ->
    (if negb (is_skippable_round z r) then acc' else suitable_parent_from z now rs acc') = Some (Some parent, ts) -> P parent) as Hcont.
  { intros acc' Hacc'. destruct (negb _); [by apply Hacc'|]. apply IH; [|done]. intros r' Hr'. apply Hrs. by right. }
  destruct (round_accepted z r) as [[h p]|] eqn:E; [|by apply Hcont].
  assert (P r) as Hr by (apply Hrs; [left|by rewrite E]).
  destruct (_ <=? now); [by intros [= <- <-]|]. apply Hcont. intros q t. destruct (match acc with None => _ | Some _ => _ end); [by intros [= <- _]|]. apply Hacc.
Qed.
Lemma suitable_parent_round_spec z now parent ts :
  suitable_parent_round z now = Some (Some parent, ts) -> 0 <= parent < current_round z /\ is_Some (round_accepted z parent).
Proof.
  apply (suitable_parent_from_spec z now (fun r => 0 <= r < current_round z /\ is_Some (round_accepted z r))); [|done]. intros r Hr Ha. split; [|done]. apply elem_of_reverse, elem_of_seqZ in Hr. lia.
Qed.

(** ** One round *)

Lemma core_Ext z z' : Inv z -> core z' = core z -> maybe_dirty_round_id z' = maybe_dirty_round_id z -> Ext z z'.
Proof. intros Hi Hc Hd. apply Pure_Ext, core_Pure; [done|done|]. rewrite Hd. apply Hi. Qed.
Lemma modify_core f z : Inv z -> core (f z) = core z -> maybe_dirty_round_id (f z) = maybe_dirty_round_id z -> ok (modify f : M ()) z (fun _ z' => Ext z z').
Proof. intros. by apply ok_modify, core_Ext. Qed.
Lemma schedule_update_ok z ts : Inv z -> returns_quietly (schedule_update ts) z.
Proof.
  intros Hi. unfold schedule_update, get, returns_quietly. ok_step. destruct (_ <? _); [|by apply ret_quietly, quiet_nil].
  apply bind_quietly; [by apply modify_core|]. intros _ z1 E1. apply ret_quietly; [by eapply Ext_inv|by apply quiet_one].
Qed.
Lemma update_proposal_timeout_ok z now : Inv z -> ok (update_proposal_timeout now) z (fun _ z' => Ext z z').
Proof. intros Hi. by apply modify_core. Qed.

Lemma set_current_round_Step z r : Inv z -> in_u 32 r -> Step z (set_current_round r z).
Proof. intros Hi Hr. split; try done. destruct Hi. by split. Qed.

Lemma Ext_Step z z' : Ext z z' -> Step z z'.
Proof. by intros []. Qed.

Lemma update_current_round_ok z voted now :
  Inv z -> ok (update_current_round (current_round z) now voted) z (fun o z' => Step z z' /\ quiet (hist z') o).
Proof.
  intros Hi. unfold update_current_round, get. pose proof (inv_current _ Hi) as Hr. ok_step. eapply ok_lift_bind; [exact (leader_of_ok _ _ Hi (proj1 Hr))|].
  eapply (ok_bind _ _ _ (fun a z' => Ext z z' /\ quiet (hist z') a.1)).
  { destruct (_ <=? now).
    - eapply ok_bind; [exact (create_and_gossip_message_ok Hera Hme _ _ _ Hi Hr)|]. intros msg z1 [E1 Q1]. pose proof (Ext_inv _ _ E1) as Hi1.
      eapply (ok_bind _ _ _ (fun _ z' => Ext z1 z')).
      + case_bool_decide; [by apply ok_ret, Ext_refl|by apply update_proposal_timeout_ok].
      + intros _ z2 E2. apply ok_ret. split; [exact (Ext_trans _ _ _ E1 E2)|exact (Ext_quiet _ _ _ E2 Q1)].
    - case_bool_decide; [|apply ok_ret; split; [by apply Ext_refl|apply quiet_nil]].
      eapply ok_bind; [exact (create_and_gossip_message_ok Hera Hme _ _ _ Hi Hr)|]. intros msg z1 [E1 Q1]. apply ok_ret. done. }
  intros [o1 voted'] z1 [E1 Q1]. cbn [fst] in Q1. pose proof (Ext_inv _ _ E1) as Hi1. assert (current_round z1 = current_round z) as Ec by apply E1. ok_step.
  eapply (ok_bind _ _ _ (fun o z' => Step z1 z' /\ quiet (hist z') o)).
  2: { intros o2 z2 [S2 Q2]. apply ok_ret. split; [eapply Step_trans; [by apply Ext_Step|done]|apply quiet_app; [exact (Step_quiet _ _ _ S2 Q1)|done]]. }
  assert (forall m, returns_quietly m z1 -> ok m z1 (fun o z' => Step z1 z' /\ quiet (hist z') o)) as Hq.
  { intros m Hm. eapply ok_mono; [exact Hm|]. intros o z' [E Q]. split; [by apply Ext_Step|done]. }
  destruct (_ || _).
  - do 2 ok_step. apply ok_ret. split; [|apply quiet_nil]. cbn [current_round set_current_round_start].
    eapply Step_trans; [apply Ext_Step, (core_Ext z1 (set_current_round_start TIMESTAMP_MAX z1)); done|].
    apply set_current_round_Step; [by eapply Ext_inv, core_Ext|]. unfold in_u, saturating_add, u_max in *. lia.
  - destruct (suitable_parent_round z1 now) as [[maybe_parent ts]|] eqn:Es; [|by apply Hq, ret_quietly, quiet_nil].
    destruct (now <? ts); [by apply Hq, schedule_update_ok|]. destruct (now <? _).
    + apply Hq. apply bind_quietly; [by apply modify_core|]. intros _ z2 E2. pose proof (Ext_inv _ _ E2) as Hi2.
      eapply ok_bind; [apply (propose_if_leader_ok z2 maybe_parent now Hi2)|].
      { intros parent ->. destruct (suitable_parent_round_spec _ _ _ _ Es) as [? [x Hx]]. destruct E2 as [_ K2]. rewrite (keep_current _ _ K2).
        split; [done|]. exists x. by apply (keep_accepted _ _ K2). }
      intros o z3 [E3 Q3]. pose proof (Ext_inv _ _ E3) as Hi3. ok_step. eapply (ok_bind _ _ _ (fun o z' => Ext z3 z' /\ quiet (hist z') o)).
      { destruct (_ <? _); [by apply schedule_update_ok|by apply ret_quietly, quiet_nil]. }
      intros o' z4 [E4 Q4]. apply ok_ret. split; [exact (Ext_trans _ _ _ E3 E4)|apply quiet_app; [exact (Ext_quiet _ _ _ E4 Q3)|done]].
    + destruct (negb voted'); [by apply Hq, schedule_update_ok|by apply Hq, ret_quietly, quiet_nil].
Qed.

Lemma create_round_ok z r : Inv z -> in_u 32 r -> ok (create_round r) z (fun _ z' => Step z z').
Proof.
  intros Hi Hr. eapply ok_bind; [exact (round_mut_ok Hera z r Hi Hr)|]. intros rd z1 (P1 & _). apply ok_ret. apply P1.
Qed.

(** An accepted round: the vote, then the proposals that waited for it. *)
Lemma accepted_round_ok z r now :
  Inv z -> in_u 32 r -> is_Some (round_accepted z r) ->
  returns_quietly (z ← get;
    _ ← (if r =? current_round z then update_proposal_timeout now else mret ());
    o ← create_and_gossip_message r (Vote true);
    o' ← validate_waiting r;
    mret (o ++ o')) z.
Proof.
  intros Hi Hr [x Ha]. unfold get, returns_quietly. ok_step. eapply (ok_bind _ _ _ (fun _ z' => Ext z z')).
  { destruct (_ =? _); [by apply update_proposal_timeout_ok|by apply ok_ret, Ext_refl]. }
  intros _ z1 E1. eapply ok_bind; [exact (create_and_gossip_message_ok Hera Hme _ _ _ (Ext_inv _ _ E1) Hr)|]. intros o z2 [E2 Q2].
  eapply ok_bind; [apply (validate_waiting_ok Hera Hme z2 r (Ext_inv _ _ E2))|].
  { exists x. apply (keep_accepted _ _ (proj2 E2)). by apply (keep_accepted _ _ (proj2 E1)). }
  intros o' z3 [E3 Q3]. apply ok_ret. split; [|apply quiet_app; [exact (Ext_quiet _ _ _ E3 Q2)|done]]. exact (Ext_trans _ _ _ E1 (Ext_trans _ _ _ E2 E3)).
Qed.

Lemma update_round_ok z r now : Inv z -> in_u 32 r -> returns (update_round r now) z.
Proof.
  intros Hi Hr. unfold update_round, get. apply bind_returns; [by apply create_round_ok|]. intros _ z1 S1. pose proof (step_inv _ _ S1) as Hi1.
  unfold returns. ok_step. eapply (ok_bind _ _ _ (fun o z' => Ext z1 z' /\ quiet (hist z') o)).
  { destruct (rd ← round z1 r; proposal rd) as [p|]; [exact (create_and_gossip_message_ok Hera Hme _ _ _ Hi1 Hr)|by apply ret_quietly, quiet_nil]. }
  intros o1 z2 [E2 Q1]. pose proof (Ext_inv _ _ E2) as Hi2.
  eapply ok_bind; [exact (update_accepted_proposal_ok Hera z2 r Hi2)|]. intros accepted z3 [E3 Ha]. pose proof (Ext_inv _ _ E3) as Hi3.
  eapply (ok_bind _ _ _ (fun o z' => Ext z3 z' /\ quiet (hist z') o)).
  { destruct accepted; [|by apply ret_quietly, quiet_nil]. apply accepted_round_ok; [done|done|by apply Ha]. }
  intros o2 z4 [E4 Q2]. pose proof (Ext_inv _ _ E4) as Hi4. ok_step. eapply (ok_bind _ _ _ (fun o z' => Step z4 z' /\ quiet (hist z') o)).
  { destruct (r =? current_round z4) eqn:Ec; [|apply ok_ret; split; [by apply Step_refl|apply quiet_nil]]. apply Z.eqb_eq in Ec as ->.
    by apply update_current_round_ok. }
  intros o3 z5 [S5 Q3]. pose proof (step_inv _ _ S5) as Hi5. ok_step. eapply (ok_bind _ _ _ (fun o z' => Good z5 o z')).
  { destruct (_ && _) eqn:Ef; [|by apply ret_returns, quiet_nil]. apply andb_true_iff in Ef as [Hacc Hcom].
    destruct (finalize_round_spec Hera Hoth z5 r Hi5 Hacc Hcom) as (h & p & l & z6 & _ & _ & Hf & S6 & _ & Ho).
    eexists _, z6. split; [exact Hf|]. split; [done|]. eapply outcomes_ok_mono; [|exact Ho]. apply S6. }
  intros o4 z6 G6. apply ok_ret. rewrite !app_assoc. refine (Good_app _ _ z5 _ _ _ G6). apply Step_quiet_Good.
  2: { repeat apply quiet_app; [|exact (Step_quiet _ _ _ S5 Q2)|done]. exact (Step_quiet _ _ _ S5 (Ext_quiet _ _ _ E4 (Ext_quiet _ _ _ E3 Q1))). }
  eapply Step_trans; [exact (proj1 E2)|]. eapply Step_trans; [exact (proj1 E3)|]. eapply Step_trans; [exact (proj1 E4)|exact S5].
Qed.

(** ** The loop *)

(** A loop whose every iteration adds one to a number below [bound] ends. *)
Lemma loop_ok {A B} (n : positive) (body : A -> M (A + B)) (P : A -> Zug -> Prop) (Q : B -> Zug -> Prop) (measure : A -> Z) a z :
  (forall a z, P a z -> ok (body a) z (fun r z' => match r with inl a' => P a' z' /\ measure a' = measure a + 1 | inr b => Q b z' end)) ->
  P a z ->
  ok (loop n body a) z (fun r z' => match r with inl a' => P a' z' /\ measure a' = measure a + Zpos n | inr b => Q b z' end).
Proof.
  intros Hb. revert a z.
  assert (forall n, (forall a z, P a z -> ok (loop n body a) z (fun r z' => match r with inl a' => P a' z' /\ measure a' = measure a + Zpos n | inr b => Q b z' end)) ->
    forall a z, P a z -> ok (r ← loop n body a; match r with inl a => loop n body a | inr b => mret (inr b) end) z
      (fun r z' => match r with inl a' => P a' z' /\ measure a' = measure a + Zpos n~0 | inr b => Q b z' end)) as Htwice.
  { intros m IH a z Ha. eapply ok_bind; [by apply IH|]. intros [a1|b] z1 H1; [|by apply ok_ret]. destruct H1 as [P1 M1].
    eapply ok_mono; [by apply IH|]. intros [a2|b] z2; [|done]. intros [P2 M2]. split; [done|]. rewrite M2, M1. lia. }
  induction n as [n IH|n IH|]; intros a z Ha; cbn [loop].
  - eapply ok_bind; [by apply Hb|]. intros [a1|b] z1 H1; [|by apply ok_ret]. destruct H1 as [P1 M1].
    eapply ok_mono; [by apply Htwice|]. intros [a2|b] z2; [|done]. intros [P2 M2]. split; [done|]. rewrite M2, M1. lia.
  - by apply Htwice.
  - by apply Hb.
Qed.

Lemma update_step_ok z0 now a z :
  in_u 32 a.1 /\ Good z0 a.2 z ->
  ok (update_step now a) z (fun r z' => match r with inl a' => (in_u 32 a'.1 /\ Good z0 a'.2 z') /\ a'.1 = a.1 + 1 | inr o => Good z0 o z' end).
Proof.
  intros [Hr G]. unfold update_step, get. eapply ok_bind; [apply update_round_ok; [by eapply Good_inv|done]|]. intros o z1 G1. ok_step. apply ok_ret.
  pose proof (inv_current _ (Good_inv _ _ _ G1)) as Hc. pose proof (Good_app _ _ _ _ _ G G1). destruct (_ <=? _) eqn:E; [done|]. cbn.
  split; [|done]. split; [|done]. unfold in_u in *. lia.
Qed.

Lemma zug_update_ok z now : Inv z -> returns (update now) z.
Proof.
  intros Hi. unfold update, get, returns. ok_step. apply ok_lift_total.
  { destruct (finalized_switch_block z); [by eexists|]. rewrite faulty_weight_spec by (by apply (weights_ok_inv Hera z Hi)). by eexists. }
  intros faulty _. destruct (_ || _); [by apply ret_returns, quiet_nil|]. eapply (ok_bind _ _ _ (fun o z' => Good z o z')).
  - destruct (maybe_dirty_round_id z) as [d|] eqn:Ed; [|by apply ret_returns, quiet_nil]. pose proof (inv_dirty _ Hi _ Ed) as Hd.
    eapply ok_bind; [apply (loop_ok _ _ (fun a z' => in_u 32 a.1 /\ Good z a.2 z') (fun o z' => Good z o z') fst); [intros; by apply update_step_ok|]|].
    { split; [done|]. apply Step_quiet_Good; [by apply Step_refl|apply quiet_nil]. }
    intros [a|o] z1 H1; [|by apply ok_ret]. exfalso. destruct H1 as [[Ha _] Hm]. cbn in Hm. unfold in_u in *. lia.
  - intros o z1 G1. ok_step. apply ok_ret. destruct G1 as [S1 O1]. split; [|done]. eapply Step_trans; [exact S1|].
    apply (pure_step _ _ (core_Pure z1 (set_maybe_dirty_round_id None z1) (step_inv _ _ S1) eq_refl ltac:(done))).
Qed.
End update.
