(* ===== verification/ZugHandlers.v ===== *)
(** * The Zug consensus protocol: the handlers of the trait

    The invariant through fault handling, incoming messages, synchronization, replaying the
    log, and the remaining methods of [ConsensusProtocol]. *)
From S2P Require Import Prelude Effects BTree Validators ZugTypes Zug ZugQuorum ZugInv ZugNode ZugFinal ZugUpdate.

Open Scope Z_scope.

Section handlers.
Context {C : Context} {F : F64} {R : LeaderRng} {HO : HashOrder}.
Context {S0 : Setup} {honest : Z -> bool} {lead : Z -> Z} {me : option Z} {others : History}.
Hypothesis Hera : era_ok S0 honest lead.
Hypothesis Hme : me_ok S0 honest me.
Hypothesis Hoth : others_ok (honest := honest) (me := me) (others := others).
Abbreviation vs := (validator_set S0).
Abbreviation hist := (hist me others).
Abbreviation Inv := (Inv S0 honest lead me others None).
Abbreviation Step := (Step S0 honest lead me others None).
Abbreviation Pure := (Pure S0 honest lead me others None).
Abbreviation Ext := (Ext (S0 := S0) (honest := honest) (lead := lead) (me := me) (others := others)).
Abbreviation quiet := (quiet (honest := honest)).
Abbreviation outcomes_ok := (outcomes_ok (S0 := S0) (honest := honest) (lead := lead)).
Abbreviation returns := (returns (S0 := S0) (honest := honest) (lead := lead) (me := me) (others := others)).
Abbreviation Good := (Good (S0 := S0) (honest := honest) (lead := lead) (me := me) (others := others)).
Abbreviation round_ok := (round_ok S0 honest lead).
Abbreviation entry_ok := (entry_ok S0 honest).

(** ** Faults *)

Lemma set_faults_Step z i f :
  Inv z -> 0 <= i < len vs -> honest i = false -> (forall m c s, f = Direct m c s -> validator_idx m = i) ->
  Step z (set_faults (<[i := f]> (faults z)) z).
Proof.
  intros Hi Hr Hh Hf. split; try done. destruct Hi. split; try done; cbn; intros v.
  - destruct (decide (i = v)) as [<-|Hne]; [done|]. rewrite lookup_insert_ne by done. apply inv_faults.
  - intros m c s. destruct (decide (i = v)) as [<-|Hne]; [rewrite lookup_insert_eq; intros [= ->]; by eapply Hf|].
    rewrite lookup_insert_ne by done. apply inv_evidence.
Qed.
Lemma deactivate_Step z : Inv z -> Step z (set_active_validator None z).
Proof. intros Hi. split; try done. destruct Hi. by split. Qed.

Definition removed (i : Z) (rd : Round) : Round :=
  set_echoes (filter (fun p => p.2 <> ∅) (delete i <$> echoes rd))
    (set_votes true (vec_set i None (votes rd true)) (set_votes false (vec_set i None (votes rd false)) rd)).
Lemma remove_votes_eq H r rd i : round_ok H r rd -> 0 <= i < len vs -> remove_votes_and_echoes (E := NodeId) i rd = Ok (removed i rd).
Proof.
  intros Hok Hi. unfold remove_votes_and_echoes.
  destruct (vec_get_is_Some (votes rd false) i) as [x Hx]; [by rewrite (ro_votes_len _ _ _ Hok)|]. rewrite Hx. cbn [expect mbind result_bind].
  change (votes (set_votes false _ rd) true) with (votes rd true).
  destruct (vec_get_is_Some (votes rd true) i) as [y Hy]; [by rewrite (ro_votes_len _ _ _ Hok)|]. by rewrite Hy.
Qed.
Lemma removed_votes rd i b v : 0 <= i < Z.of_nat (length (votes rd b)) -> 0 <= v ->
  vec_get (votes (removed i rd) b) v = if decide (i = v) then Some None else vec_get (votes rd b) v.
Proof. intros Hi Hv. destruct b; cbn; by apply vec_get_set. Qed.
Lemma removed_echoes rd i h m v :
  echoes (removed i rd) !! h = Some m -> is_Some (m !! v) -> exists m', echoes rd !! h = Some m' /\ is_Some (m' !! v).
Proof.
  cbn. rewrite map_lookup_filter_Some, lookup_fmap. intros [Hm _]. destruct (echoes rd !! h) as [m'|]; cbn in Hm; [|done].
  simplify_eq. intros [s Hs]. exists m'. split; [done|]. apply lookup_delete_Some in Hs as [_ Hs]. by eexists.
Qed.
Lemma removed_ok H r rd i : round_ok H r rd -> 0 <= i < len vs -> round_ok H r (removed i rd).
Proof.
  intros Hok Hi. pose proof (ro_votes_len _ _ _ Hok) as Hl. destruct Hok. split; try done.
  - intros b. destruct b; cbn; rewrite vec_set_length; [apply (Hl true)|apply (Hl false)].
  - intros h m v Hm Hv. destruct (removed_echoes _ _ _ _ _ Hm Hv) as (m' & Hm' & Hv'). by eapply ro_echoes.
  - intros b v s Hv. rewrite removed_votes by (done || by rewrite Hl). case_decide; [done|]. by apply ro_votes.
Qed.
Lemma removed_mono H r rd i : round_ok H r rd -> 0 <= i < len vs -> honest i = false -> round_mono me rd (removed i rd).
Proof.
  intros Hok Hi Hh. split; [done|done|]. intros v c Hv Hin. destruct (Hme _ Hv) as [Hhv Hrv]. assert (i <> v) as Hne by congruence.
  destruct c as [h|b]; cbn [in_round] in *.
  - destruct Hin as (m & Hm & Hs). exists (delete i m). cbn. rewrite map_lookup_filter_Some, lookup_fmap, Hm. cbn. rewrite lookup_delete_ne by done.
    split; [split; [done|]|done]. intros Hempty. destruct Hs as [s Hs]. rewrite <- (lookup_delete_ne m i v) in Hs by done. by rewrite Hempty in Hs.
  - destruct Hin as [s Hs]. exists s. rewrite removed_votes by (lia || by rewrite (ro_votes_len _ _ _ Hok)). by rewrite decide_False.
Qed.

(** Replacing every round. *)
Lemma map_rounds_Pure z rs f :
  Inv z -> (forall r, rs !! r = f <$> rounds z !! r) ->
  (forall r rd, rounds z !! r = Some rd -> round_ok (hist z) r rd -> round_ok (hist z) r (f rd) /\ round_mono me rd (f rd)) ->
  Pure z (set_rounds rs z).
Proof.
  intros Hi Hrs Hf.
  assert (forall r rd, rounds z !! r = Some rd -> round_mono me rd (f rd)) as Hm.
  { intros r rd Hrd. eapply Hf; [done|]. by apply (inv_rounds _ Hi). }
  assert (forall r, round_accepted (set_rounds rs z) r = round_accepted z r) as Hacc.
  { intros r. unfold round_accepted, round. cbn. rewrite Hrs. destruct (rounds z !! r) as [rd|] eqn:E; [|done]. cbn. exact (rm_accepted _ _ (Hm _ _ E)). }
  assert (forall v r c, me = Some v -> stored z v r c -> stored (set_rounds rs z) v r c) as Hst.
  { intros v r c Hv (rd & Hrd & Hin). exists (f rd). cbn. rewrite Hrs, Hrd. split; [done|]. exact (rm_stored _ _ (Hm _ _ Hrd) _ _ Hv Hin). }
  split; [split|split|done..]; try done.
  - pose proof Hi as []. split; try done.
    + cbn. intros r rd. rewrite Hrs. destruct (rounds z !! r) as [rd0|] eqn:E; [|done]. cbn. intros [= <-].
      destruct (inv_rounds _ _ E) as [? Hok]. split; [done|]. by eapply Hf.
    + intros r h p parent. rewrite !Hacc. apply inv_parents.
    + intros v r c Hv Hw He Hs. destruct (inv_open v r c Hv Hw He Hs); [left; by apply Hst|by right].
  - intros r x. by rewrite Hacc.
  - intros r b rd Hrd Hb. exists (f rd). cbn. rewrite Hrs, Hrd. split; [done|]. exact (rm_votes _ _ (Hm _ _ Hrd) _ Hb).
Qed.

Lemma remove_all_eq z i (l : list (Z * Round)) :
  0 <= i < len vs -> NoDup l.*1 -> (forall r rd, (r, rd) ∈ l -> round_ok (hist z) r rd) ->
  foldr (fun p (acc : result NodeId (gmap Z Round)) => acc ← acc; rd ← remove_votes_and_echoes i p.2; Ok (<[p.1 := rd]> acc)) (Ok ∅) l =
  Ok (removed i <$> (list_to_map l : gmap Z Round)).
Proof.
  intros Hi. induction l as [|[r rd] l IH]; cbn [foldr]; [intros; by rewrite list_to_map_nil, fmap_empty|]. intros [Hr Hnd]%NoDup_cons Hl.
  rewrite IH; [|done|intros r' rd' Hin; apply Hl; by right]. cbn [mbind result_bind fst snd].
  rewrite (remove_votes_eq _ _ _ _ (Hl r rd ltac:(left)) Hi). cbn [mbind result_bind]. by rewrite list_to_map_cons, fmap_insert.
Qed.
Lemma remove_everywhere_ok z i : Inv z -> 0 <= i < len vs -> honest i = false -> ok (remove_everywhere i) z (fun _ z' => Pure z z').
Proof.
  intros Hi Hr Hh. unfold remove_everywhere, get. ok_step. eapply ok_lift_bind.
  { apply (remove_all_eq z); [done|apply NoDup_fst_map_to_list|]. intros r rd Hin%elem_of_map_to_list. by apply (inv_rounds _ Hi). }
  apply ok_modify. rewrite list_to_map_to_list. apply (map_rounds_Pure _ _ (removed i)); [done|intros; apply lookup_fmap|].
  intros r rd _ Hok. split; [by apply removed_ok|by eapply removed_mono].
Qed.

Lemma mark_dirty_Pure z r : Inv z -> in_u 32 r -> ok (mark_dirty r) z (fun _ z' => Pure z z').
Proof. intros Hi Hr. eapply ok_mono; [exact (mark_dirty_ok z r Hi Hr)|]. by intros ? ? []. Qed.

(** The first hash that has a quorum, if any. *)
Lemma any_echo_quorum_ok z r rd (hs : list Hash) :
  Inv z -> rounds z !! r = Some rd -> (forall h, h ∈ hs -> is_Some (echoes rd !! h)) ->
  ok (any hs (fun h => check_new_echo_quorum r h)) z (fun _ z' => Pure z z').
Proof.
  intros Hi Hrd. induction hs as [|h hs IH]; intros Hhs; cbn [any]; [by apply ok_ret, Pure_refl|].
  eapply ok_bind; [apply (check_new_echo_quorum_ok Hera z r h Hi)|].
  { intros rd' Hrd'. simplify_eq. apply Hhs. by left. }
  intros [] z1 [P1 E1]; [by apply ok_ret|]. rewrite (E1 eq_refl). apply IH. intros h' Hh'. apply Hhs. by right.
Qed.
Lemma recompute_quorums_ok z r : Inv z -> ok (recompute_quorums r) z (fun _ z' => Pure z z').
Proof.
  intros Hi. unfold recompute_quorums, get. ok_step. unfold round. destruct (rounds z !! r) as [rd|] eqn:Erd; [|by apply ok_ret, Pure_refl].
  destruct (inv_rounds _ Hi _ _ Erd) as [Hr _]. eapply (ok_bind _ _ _ (fun _ z' => Pure z z')).
  { case_bool_decide; [|by apply ok_ret, Pure_refl]. eapply ok_bind; [eapply any_echo_quorum_ok; [done|done|]|].
    - intros h. rewrite (hash_order_perm _ _). intros ([h' m] & -> & Hm%elem_of_map_to_list)%list_elem_of_fmap. by eexists.
    - intros q z1 P1. pose proof (Pure_inv _ _ P1). destruct q; [|by apply ok_ret]. eapply ok_mono; [by apply mark_dirty_Pure|].
      intros ? z2 P2. by eapply Pure_trans. }
  intros _ z1 P1. eapply ok_bind; [exact (check_new_vote_quorum_ok Hera z1 r true (Pure_inv _ _ P1))|]. intros t z2 [P2 _].
  assert (Pure z z2) as P02 by (by eapply Pure_trans). pose proof (Pure_inv _ _ P02) as Hi2. eapply (ok_bind _ _ _ (fun _ z' => Pure z2 z')).
  { destruct t; [by apply ok_ret, Pure_refl|]. eapply ok_mono; [exact (check_new_vote_quorum_ok Hera z2 r false Hi2)|]. by intros ? ? []. }
  intros q z3 P3. assert (Pure z z3) as P03 by (by eapply Pure_trans). destruct q; [|by apply ok_ret].
  eapply ok_mono; [apply mark_dirty_Pure; [by eapply Pure_inv|done]|]. intros ? z4 P4. by eapply Pure_trans.
Qed.

Lemma Pure_Step z z' : Pure z z' -> Step z z'.
Proof. apply pure_step. Qed.
Lemma modify_Step f z : Step z (f z) -> ok (modify f : M ()) z (fun _ z' => Step z z').
Proof. intros Hs. by apply ok_modify. Qed.

Lemma handle_fault_no_wal_ok z m vid c s now :
  Inv z -> 0 <= validator_idx m < len vs -> honest (validator_idx m) = false -> returns (handle_fault_no_wal m vid c s now) z.
Proof.
  intros Hi Hr Hh. unfold handle_fault_no_wal, get. apply bind_returns; [apply modify_Step, set_faults_Step; [done|done|done|by intros ? ? ? [= <-]]|]. intros _ z1 S1.
  apply bind_returns; [apply modify_Step; case_bool_decide; [apply deactivate_Step, S1|apply Step_refl, S1]|]. intros _ z2 S2.
  pose proof (step_inv _ _ S2) as Hi2. unfold ZugUpdate.returns. ok_step.
  destruct (vec_get_is_Some (active z2) (validator_idx m)) as [x Hx]; [by rewrite (inv_active _ Hi2)|]. rewrite Hx. eapply ok_lift_bind; [reflexivity|].
  apply bind_returns; [by apply modify_Step, Pure_Step, set_active_Pure|]. intros _ z3 S3.
  apply bind_returns; [apply modify_Step, Pure_Step, set_progress_Pure, S3|]. intros _ z4 S4. pose proof (step_inv _ _ S4) as Hi4.
  unfold ZugUpdate.returns. ok_step. apply ok_lift_total; [rewrite faulty_weight_spec by (exact (weights_ok_inv Hera z4 Hi4)); by eexists|]. intros w _.
  destruct (_ <? _); [apply ret_returns; [done|apply (quiet_app _ [_] [_]); by apply quiet_one]|].
  apply bind_returns; [eapply ok_mono; [by apply remove_everywhere_ok|intros ? z'; apply Pure_Step]|]. intros _ z5 S5. pose proof (step_inv _ _ S5) as Hi5.
  unfold ZugUpdate.returns. ok_step. apply bind_returns.
  { eapply ok_mono; [apply (for_each_returns (S0 := S0) (honest := honest) (lead := lead) (me := me) (others := others)); [done|]|by intros ? ? []]. intros r z' _ S'.
    apply bind_returns; [eapply ok_mono; [apply recompute_quorums_ok, S'|intros ? z''; apply Pure_Step]|]. intros _ z'' S''.
    apply ret_returns; [apply S''|apply quiet_nil]. }
  intros _ z6 S6. eapply ok_bind; [apply (zug_update_ok Hera Hme Hoth), S6|]. intros o z7 G7. apply ok_ret.
  apply (Good_app _ [NewEvidence vid] z6); [|done]. apply Step_quiet_Good; [apply Step_refl, S6|by apply quiet_one].
Qed.
Lemma handle_fault_ok z m vid c s now :
  Inv z -> 0 <= validator_idx m < len vs -> honest (validator_idx m) = false -> returns (handle_fault m vid c s now) z.
Proof.
  intros Hi Hr Hh. apply bind_returns.
  - eapply ok_mono; [by apply (record_entry_ok Hera Hme z (W_Evidence m c s) Hi)|]. by intros ? ? [].
  - intros _ z1 S1. apply handle_fault_no_wal_ok; [apply S1|done|done].
Qed.

(** ** Handlers that may reject the sender *)

Definition fin {A} (m : M A) (z : Zug) (Q : option A -> Zug -> Prop) : Prop :=
  match m z with (Ok a, z') => Q (Some a) z' | (Err _, z') => Q None z' | _ => False end.
Lemma fin_ok {A} (m : M A) z (Q : option A -> Zug -> Prop) : ok m z (fun a z' => Q (Some a) z') -> fin m z Q.
Proof. intros (a & z' & Hm & Hq). unfold fin. by rewrite Hm. Qed.
Lemma fin_bind {A B} (m : M A) (f : A -> M B) z (P : option A -> Zug -> Prop) (Q : option B -> Zug -> Prop) :
  fin m z P -> (forall a z', P (Some a) z' -> fin (f a) z' Q) -> (forall z', P None z' -> Q None z') -> fin (m ≫= f) z Q.
Proof. unfold fin, mbind, st_bind. destruct (m z) as [[a|e| |] z']; [|auto|done|done]. intros Hp Hf _. by apply Hf. Qed.
Lemma fin_asks_bind {A B} (f : Zug -> A) (k : A -> M B) z Q : fin (k (f z)) z Q -> fin (asks f ≫= k) z Q.
Proof. done. Qed.
Lemma fin_lift_total {A B} (r : result NodeId A) (k : A -> M B) z Q :
  (exists a, r = Ok a) -> (forall a, r = Ok a -> fin (k a) z Q) -> fin (lift r ≫= k) z Q.
Proof. intros [a ->] Hk. by apply Hk. Qed.

(** The state is good whether or not the sender is rejected. *)
Definition settles (m : M Outcomes) (z : Zug) : Prop := fin m z (fun o z' => Good z (default [] o) z').
Lemma returns_settles m z : returns m z -> settles m z.
Proof. intros (o & z' & Hm & Hg). unfold settles, fin. by rewrite Hm. Qed.
Lemma throw_settles z e : Inv z -> settles (throw e) z.
Proof. intros Hi. apply Step_quiet_Good; [by apply Step_refl|apply quiet_nil]. Qed.
Lemma ret_settles z o : Inv z -> quiet (hist z) o -> settles (mret o) z.
Proof. intros Hi Ho. by apply returns_settles, ret_returns. Qed.
Lemma append_settles (m : M Outcomes) (k : Outcomes -> M Outcomes) z :
  settles m z -> (forall o z', Step z z' -> settles (k o) z') -> settles (o ← m; o' ← k o; mret (o ++ o')) z.
Proof.
  intros Hm Hk. eapply fin_bind; [exact Hm| |done]. intros o z1 G1. eapply fin_bind; [apply Hk, G1| |].
  - intros o' z2 G2. exact (Good_app _ _ _ _ _ G1 G2).
  - intros z2 G2. exact (Step_Good _ _ _ _ (proj1 G1) G2).
Qed.
Lemma for_each_settles {A} (l : list A) (f : A -> M Outcomes) z :
  Inv z -> (forall a z', a ∈ l -> Step z z' -> settles (f a) z') -> settles (for_each l f) z.
Proof.
  revert z. induction l as [|a l IH]; intros z Hi Hf; cbn [for_each]; [by apply ret_settles, quiet_nil|].
  apply append_settles; [apply Hf; [by left|by apply Step_refl]|]. intros o z1 S1. apply IH; [apply S1|].
  intros a' z2 Ha S2. apply Hf; [by right|]. by eapply Step_trans.
Qed.
Lemma outcomes_or_disconnect_ok m z : settles m z -> returns (outcomes_or_disconnect m) z.
Proof.
  unfold settles, fin, outcomes_or_disconnect, ZugUpdate.returns, ok. destruct (m z) as [[o|e| |] z']; [|intros [Hs _]|done|done].
  - intros G. by exists o, z'.
  - exists [Disconnect e], z'. split; [done|]. by apply Step_quiet_Good, quiet_one.
Qed.

(** ** Signed messages *)

(** A message's fields have their types; a correct validator's signature in this instance is
    on a message that the validator signed. *)
Definition arrives (H : History) (m : SignedMessage) : Prop :=
  in_u 32 (round_id m) /\ in_u 32 (validator_idx m) /\
  forall vid, id_of vs (validator_idx m) = Some vid -> instance_id m = params_instance_id (params S0) -> message_verify_signature m vid = true ->
    honest (validator_idx m) = true -> H (validator_idx m) (round_id m) (content m).
Lemma arrives_mono (H H' : History) m : (forall v r c, H v r c -> H' v r c) -> arrives H m -> arrives H' m.
Proof. intros HH (? & ? & Hs). split_and!; [done|done|eauto]. Qed.

Lemma id_of_range v vid : 0 <= v -> id_of vs v = Some vid -> 0 <= v < len vs.
Proof.
  intros Hv. unfold id_of. destruct (vec_get (validators vs) v) as [x|] eqn:E; [|done]. intros _.
  pose proof (vec_get_range _ _ _ Hv E). unfold len. lia.
Qed.

Lemma contains_spec H r rd v c :
  round_ok H r rd -> 0 <= v < len vs -> exists b, contains (E := NodeId) c v rd = Ok b /\ (b = true <-> in_round rd v c).
Proof.
  intros Hok Hv. destruct c as [h|b]; cbn [contains in_round].
  - eexists. split; [done|]. destruct (echoes rd !! h) as [m|]; [|by split; [|intros (? & ? & _)]]. rewrite bool_decide_eq_true. split; [by exists m|].
    by intros (? & [= <-] & ?).
  - destruct (vec_get_is_Some (votes rd b) v) as [x Hx]; [by rewrite (ro_votes_len _ _ _ Hok)|]. rewrite Hx. cbn. eexists. split; [done|].
    rewrite bool_decide_eq_true. split; [by intros [s ->]; exists s|by intros [s [= ->]]].
Qed.
Lemma detect_fault_spec z m :
  Inv z -> 0 <= validator_idx m < len vs ->
  exists o, detect_fault z m = Ok o /\
    forall c2 s2, o = Some (c2, s2) -> contradicts (content m) c2 = true /\ exists rd, rounds z !! round_id m = Some rd /\ in_round rd (validator_idx m) c2.
Proof.
  intros Hi Hv. unfold detect_fault, round. destruct (rounds z !! round_id m) as [rd|] eqn:Erd; [|by exists None].
  destruct (inv_rounds _ Hi _ _ Erd) as [_ Hok]. destruct (content m) as [h|b].
  - eexists. split; [done|]. intros c2 s2 Hh. apply head_Some_elem_of in Hh. apply list_elem_of_omap in Hh as ([h' em] & Hin & Ho).
    rewrite (hash_order_perm _ _) in Hin. apply elem_of_map_to_list in Hin. unfold other_echo in Ho. cbn in Ho. case_decide as E; [done|].
    destruct (em !! validator_idx m) as [s|] eqn:Es; [|done]. simplify_eq. split; [by apply bool_decide_true, not_eq_sym|].
    exists rd. split; [done|]. exists em. by rewrite Es.
  - destruct (vec_get_is_Some (votes rd (negb b)) (validator_idx m)) as [x Hx]; [by rewrite (ro_votes_len _ _ _ Hok)|]. rewrite Hx. cbn.
    eexists. split; [done|]. intros c2 s2. destruct x as [s|]; [|done]. intros [= <- <-]. split; [by destruct b|]. exists rd. split; [done|]. by exists s.
Qed.
(** What is stored of a correct validator it has signed. *)
Lemma stored_hist z r rd v c : Inv z -> rounds z !! r = Some rd -> 0 <= v -> honest v = true -> in_round rd v c -> hist z v r c.
Proof.
  intros Hi Hrd Hv Hh. destruct (inv_rounds _ Hi _ _ Hrd) as [_ Hok]. destruct c as [h|b]; cbn.
  - intros (m & Hm & Hs). by apply (ro_echoes _ _ _ Hok h m v).
  - intros [s Hs]. by apply (ro_votes _ _ _ Hok b v s).
Qed.

Lemma handle_signed_message_ok z m sender now : Inv z -> arrives (hist z) m -> settles (handle_signed_message m sender now) z.
Proof.
  intros Hi (Hr & Hv & Hsig). unfold handle_signed_message, get, settles. apply fin_asks_bind. unfold vset. rewrite (inv_setup _ Hi).
  destruct (id_of vs (validator_idx m)) as [vid|] eqn:Eid; [|by apply throw_settles]. pose proof (id_of_range _ _ (proj1 Hv) Eid) as Hrange.
  case_bool_decide as Einst; [by apply throw_settles|]. unfold instance in Einst. rewrite (inv_setup _ Hi) in Einst.
  case_bool_decide as Ef; [by apply ret_settles, quiet_nil|]. destruct (_ <? _); [by apply ret_settles, quiet_nil|].
  destruct (evidence_only z) eqn:Eev; [by apply ret_settles, quiet_nil|].
  apply fin_lift_total. { unfold round. destruct (rounds z !! round_id m) as [rd|] eqn:Erd; [|by eexists]. destruct (inv_rounds _ Hi _ _ Erd) as [_ Hok].
    destruct (contains_spec _ _ _ _ (content m) Hok Hrange) as (b & Eb & _). by exists b. }
  intros duplicate Hdup. destruct duplicate; [by apply ret_settles, quiet_nil|].
  destruct (message_verify_signature m vid) eqn:Esig; cbn [negb]; [|by apply throw_settles].
  pose proof (Hsig vid eq_refl Einst Esig) as Hhist. destruct (detect_fault_spec z m Hi Hrange) as (fault & Efault & Hfault).
  apply fin_lift_total; [by exists fault|]. intros ? Heq. rewrite Efault in Heq. injection Heq as <-. destruct fault as [[c2 s2]|].
  - destruct (Hfault _ _ eq_refl) as (Hcon & rd & Hrd & Hin).
    assert (honest (validator_idx m) = false) as Hh.
    { destruct (honest (validator_idx m)) eqn:E; [|done]. specialize (Hhist eq_refl).
      pose proof (stored_hist _ _ _ _ _ Hi Hrd (proj1 Hv) E Hin) as H2.
      pose proof (hist_consistent Hoth z Hi _ _ _ _ E Hhist H2). congruence. }
    apply returns_settles. eapply ok_bind; [by apply handle_fault_ok|]. intros o z1 G1. apply ok_ret.
    eapply Good_app; [exact G1|]. apply Step_quiet_Good; [apply Step_refl; by eapply Good_inv|]. apply quiet_gossip. intros s' Hs' Hhs.
    apply elem_of_cons in Hs' as [-> | ->%list_elem_of_singleton]; cbn in *; congruence.
  - apply returns_settles. apply bind_returns.
    + eapply ok_mono; [apply (record_entry_ok Hera Hme z (W_SignedMessage m) Hi); [exact (conj Hrange (conj Hr Hhist))|]|by intros ? ? []].
      intros m' [= <-] Hw Hown. destruct (Hme _ Hown) as [Hh _].
      destruct (Hhist Hh) as [Hot|[_ Hs]]; [by apply (proj2 Hoth _ _ _ Hown) in Hot|].
      destruct (inv_open _ Hi _ _ _ Hown Hw Eev Hs) as [(rd & Hrd & Hin)|]; [|done]. unfold round in Hdup. rewrite Hrd in Hdup.
      destruct (inv_rounds _ Hi _ _ Hrd) as [_ Hok]. destruct (contains_spec _ _ _ _ (content m) Hok Hrange) as (b & Eb & Hb).
      rewrite Eb in Hdup. injection Hdup as ->. by apply Hb in Hin.
    + intros _ z1 S1. eapply ok_bind; [apply (add_content_ok Hera Hme z1 m (step_inv _ _ S1))|].
      { split; [done|]. split; [done|]. intros Hh. by apply S1, Hhist. }
      intros added z2 [P2 _]. pose proof (Pure_inv _ _ P2) as Hi2. eapply ok_mono.
      { instantiate (1 := fun o z' => Good z2 o z'). destruct added; [by apply (zug_update_ok Hera Hme Hoth)|by apply ret_returns, quiet_nil]. }
      intros o z3 G3. eapply Step_Good; [by apply Pure_Step|done].
Qed.

(** ** Evidence and proposals *)

Definition evidence_arrives (H : History) (m : SignedMessage) (c : Content) (s : Signature) : Prop := arrives H m /\ arrives H (with_content m c s).

Lemma handle_evidence_ok z m c s sender now : Inv z -> evidence_arrives (hist z) m c s -> settles (handle_evidence m c s sender now) z.
Proof.
  intros Hi [(Hr & Hv & Hs1) (_ & _ & Hs2)]. unfold handle_evidence, get, settles. apply fin_asks_bind.
  destruct (match faults z !! validator_idx m with Some _ => _ | None => _ end); [by apply ret_settles, quiet_nil|]. unfold vset. rewrite (inv_setup _ Hi).
  destruct (id_of vs (validator_idx m)) as [vid|] eqn:Eid; [|by apply throw_settles]. pose proof (id_of_range _ _ (proj1 Hv) Eid) as Hrange.
  case_bool_decide as Einst; [by apply throw_settles|]. unfold instance in Einst. rewrite (inv_setup _ Hi) in Einst.
  destruct (contradicts (content m) c) eqn:Ec; cbn [negb]; [|by apply throw_settles].
  destruct (message_verify_signature m vid) eqn:E1; cbn [negb orb]; [|by apply throw_settles].
  destruct (message_verify_signature (with_content m c s) vid) eqn:E2; cbn [negb]; [|by apply throw_settles].
  apply returns_settles, handle_fault_ok; [done|done|]. destruct (honest (validator_idx m)) eqn:E; [|done].
  pose proof (hist_consistent Hoth z Hi _ _ _ _ E (Hs1 vid eq_refl Einst E1 eq_refl) (Hs2 vid Eid Einst E2 E)). cbn in *. congruence.
Qed.

Definition proposal_arrives (r : Z) (p : Proposal) : Prop := in_u 32 r /\ forall parent, maybe_parent_round_id p = Some parent -> in_u 32 parent.

Lemma handle_proposal_ok z r p sender now : Inv z -> proposal_arrives r p -> settles (handle_proposal r p sender now) z.
Proof.
  intros Hi [Hr Hpp]. unfold handle_proposal, get, settles. apply fin_asks_bind.
  apply fin_lift_total; [rewrite (leader_of_ok Hera z r Hi (proj1 Hr)); by eexists|]. intros l _.
  destruct (match maybe_parent_round_id p with Some _ => _ | None => _ end) eqn:Epar; [by apply throw_settles|].
  destruct (_ <? _); [by apply ret_settles, quiet_nil|]. destruct (negb _); [by apply throw_settles|].
  destruct (match inactive p with Some _ => _ | None => _ end); [by apply throw_settles|].
  destruct (match round z r with Some _ => _ | None => _ end); [by apply ret_settles, quiet_nil|]. case_bool_decide; [by apply ret_settles, quiet_nil|].
  assert (proposal_ok r (hashed_proposal_new p)) as Hok.
  { split; [done|]. split; [done|]. cbn. intros parent E. rewrite E in Epar. specialize (Hpp _ E). unfold in_u in Hpp. lia. }
  assert (forall ancestors, settles (o ← validate_proposal r (hashed_proposal_new p) ancestors sender; o' ← update now; mret (o ++ o')) z) as Hval.
  { intros ancestors. apply append_settles; [by apply returns_settles, quietly_returns, (validate_proposal_ok Hera Hme)|].
    intros o z1 S1. apply returns_settles, (zug_update_ok Hera Hme Hoth), S1. }
  destruct (maybe_parent_round_id p) as [parent|] eqn:Ep; [|by apply Hval].
  destruct (zug_ancestor_values_total z parent Hi) as (o & Eo & _). apply fin_lift_total; [by exists o|]. intros ? Heq. rewrite Eo in Heq. injection Heq as <-.
  destruct o as [ancestors|]; [by apply Hval|]. apply returns_settles, bind_returns.
  - apply modify_Step, Pure_Step, set_waiting_parent_Pure; [done|]. intros k w q rs r' s'. destruct (decide (parent = k)) as [<-|Hne].
    + rewrite lookup_insert_eq. intros [= <-] Hq Hrs. destruct (alist_add_elem _ _ _ _ _ _ Hq Hrs) as [[-> [= -> ->]]|(rs' & Hq' & Hrs')]; [done|].
      destruct (proposals_waiting_for_parent z !! parent) as [w|] eqn:Ew; cbn in Hq'; [|by apply elem_of_nil in Hq']. by eapply (inv_waiting_parent _ Hi).
    + rewrite lookup_insert_ne by done. apply (inv_waiting_parent _ Hi).
  - intros _ z1 S1. apply ret_returns; [apply S1|apply quiet_nil].
Qed.

(** ** Synchronization *)

Lemma set_sync_Ext z m : Inv z -> Ext z (set_sent_sync_requests m z).
Proof. intros Hi. by apply core_Ext. Qed.

Definition response_arrives (H : History) (rs : SyncResponse) : Prop :=
  (forall h m, m ∈ response_messages rs h -> arrives H m) /\
  (forall m c s, (m, c, s) ∈ rs_evidence rs -> evidence_arrives H m c s) /\
  (forall p, rs_proposal_or_hash rs = Some (inl p) -> proposal_arrives (rs_round_id rs) p).

Lemma evidence_arrives_mono (H H' : History) m c s : (forall v r c, H v r c -> H' v r c) -> evidence_arrives H m c s -> evidence_arrives H' m c s.
Proof. intros HH [? ?]. split; by eapply arrives_mono. Qed.

Lemma handle_sync_response_ok z rs sender now : Inv z -> response_arrives (hist z) rs -> returns (handle_sync_response rs sender now) z.
Proof.
  intros Hi (Hm & Hev & Hp). unfold handle_sync_response, get. apply bind_returns.
  { unfold try_remove_id, get. ok_step. destruct (sent_sync_requests z !! _); [|by apply ok_ret, Step_refl]. ok_step. apply ok_ret. by apply Ext_Step, set_sync_Ext. }
  intros requested z1 S1. pose proof (step_inv _ _ S1) as Hi1. destruct requested; cbn [negb]; [|by apply ret_returns, quiet_one].
  unfold ZugUpdate.returns. ok_step. destruct (_ <? _)%nat; [by apply ret_returns, quiet_one|]. apply outcomes_or_disconnect_ok.
  eapply (fin_bind _ _ _ (fun o z' => Good z1 (default [] o) z')); [| |done].
  { apply for_each_settles; [done|]. intros m z2 Hin S2. apply handle_signed_message_ok; [apply S2|]. eapply arrives_mono; [|by eapply Hm].
    intros v r c Hh. by apply S2, S1. }
  intros o1 z2 G2. pose proof (proj1 G2) as S2. eapply (fin_bind _ _ _ (fun o z' => Good z2 (default [] o) z')); [| |intros z3 G3; exact (Step_Good _ _ _ _ S2 G3)].
  { apply for_each_settles; [apply S2|]. intros [[m c] s] z3 Hin S3. apply handle_evidence_ok; [apply S3|]. eapply evidence_arrives_mono; [|by apply Hev].
    intros v r c' Hh. by apply S3, S2, S1. }
  intros o2 z3 G3. pose proof (proj1 G3) as S3.
  eapply (fin_bind _ _ _ (fun o z' => Good z3 (default [] o) z')).
  - destruct (rs_proposal_or_hash rs) as [[p|h]|]; [|apply ret_settles; [apply S3|apply quiet_nil]..].
    apply handle_proposal_ok; [apply S3|by apply Hp].
  - intros o3 z4 G4. exact (Good_app _ _ _ _ _ G2 (Good_app _ _ _ _ _ G3 G4)).
  - intros z4 G4. exact (Step_Good _ _ _ _ S2 (Step_Good _ _ _ _ S3 G4)).
Qed.

Definition draw_ok (d : SyncDraw) (z : Zug) : Prop :=
  exists i, i ∈ draw_ids d /\ prune_old (draw_now d) (sent_sync_requests z) !! i = None.
Lemma create_and_register_new_id_ok z d : Inv z -> draw_ok d z -> ok (create_and_register_new_id d) z (fun _ z' => Ext z z').
Proof.
  intros Hi (i & Hin & Hnew). unfold create_and_register_new_id, get. do 2 ok_step. cbn [sent_sync_requests set_sent_sync_requests].
  destruct (list_find _ (draw_ids d)) as [[k j]|] eqn:E.
  - ok_step. apply ok_ret. by apply core_Ext.
  - exfalso. apply list_find_None in E. rewrite Forall_forall in E. by apply (E i).
Qed.

Lemma heaviest_echo_total z r rd : Inv z -> rounds z !! r = Some rd -> exists o, heaviest_echo z rd = Ok o.
Proof.
  intros Hi Hrd. destruct (inv_rounds _ Hi _ _ Hrd) as [_ Hok]. unfold heaviest_echo.
  assert (forall l acc, (forall p, p ∈ l -> echoes rd !! p.1 = Some p.2) ->
    exists best, foldl (fun (acc : result NodeId (option (Hash * Z))) (p : Hash * gmap Z Signature) =>
           acc ← acc;
           w ← sum_weights z (map_to_list p.2).*1;
           Ok (match acc with
               | Some (h, w') => if w' <=? w then Some (p.1, w) else Some (h, w')
               | None => Some (p.1, w)
               end)) (Ok acc) l = Ok best) as Hfold.
  { induction l as [|[h m] l IH]; intros acc Hl; cbn [foldl]; [by eexists|]. cbn [mbind result_bind snd fst].
    rewrite sum_weights_spec.
    - cbn [mbind result_bind]. apply IH. intros p Hp. apply Hl. by right.
    - unfold vset. rewrite (inv_setup _ Hi). apply Hera.
    - apply NoDup_fst_map_to_list.
    - intros v ([k s] & -> & Hs%elem_of_map_to_list)%list_elem_of_fmap. unfold vset. rewrite (inv_setup _ Hi).
      apply (ro_echoes _ _ _ Hok h m); [apply (Hl (h, m)); left|by eexists]. }
  destruct (Hfold (hash_order (map_to_list (echoes rd))) None) as [best ->]; [|by eexists].
  intros [h m]. rewrite (hash_order_perm _ _). by intros ?%elem_of_map_to_list.
Qed.
Lemma create_sync_request_ok z d first r : Inv z -> draw_ok d z -> ok (create_sync_request d first r) z (fun _ z' => Ext z z').
Proof.
  intros Hi Hd. unfold create_sync_request, get. ok_step. unfold round. destruct (rounds z !! r) as [rd|] eqn:Erd.
  - apply ok_lift_total.
    { destruct (quorum_echoes (outcome rd)); [by eexists|by eapply heaviest_echo_total]. }
    intros heaviest _. eapply ok_bind; [by apply create_and_register_new_id_ok|]. intros i z1 E1. by apply ok_ret.
  - eapply ok_bind; [by apply create_and_register_new_id_ok|]. intros i z1 E1. by apply ok_ret.
Qed.

Lemma validator_count_eq z : Inv z -> validator_count z = len vs /\ 0 < len vs.
Proof.
  intros Hi. unfold validator_count, vset. rewrite (inv_setup _ Hi). pose proof (vo_len _ (eo_validators Hera)) as Hl.
  destruct (eo_lead Hera 0 ltac:(lia)) as [_ H0]. split; [|lia]. unfold as_u32. rewrite Z.mod_small; [done|lia].
Qed.
Lemma handle_sync_peer_timer_ok z now d : Inv z -> draw_ok d z -> returns (handle_sync_peer_timer now d) z.
Proof.
  intros Hi Hd. unfold handle_sync_peer_timer, get, ZugUpdate.returns. ok_step. destruct (_ || _); [by apply ret_returns, quiet_nil|].
  destruct (validator_count_eq z Hi) as [-> Hn]. destruct (len vs =? 0) eqn:E; [lia|].
  apply bind_returns; [eapply ok_mono; [by apply create_sync_request_ok|by intros ? ? []]|]. intros rq z1 S1. apply ret_returns; [apply S1|].
  apply (quiet_app _ [_]); [by apply quiet_one|]. destruct (sync_state_interval _); [by apply quiet_one|apply quiet_nil].
Qed.
End handlers.
