(* ===== verification/ZugSync.v ===== *)
(** * The Zug consensus protocol: bit fields of validators

    A sync request describes sets of validators by bit fields of 128 bits that start at a
    random validator and wrap around. What a bit field says is exactly the members of the set
    among the 128 validators that follow, also where the [u32] arithmetic overflows; so a node
    that answers a request finds every signature it means to send. *)
From S2P Require Import Prelude Effects BTree Validators ZugTypes Zug ZugQuorum ZugInv ZugNode.

Open Scope Z_scope.

(** ** Bits *)

Section bits.
Variables (n first : Z).
Hypothesis Hn : n < 2 ^ 32.
Hypothesis Hfirst : 0 <= first < n.

Lemma bit_of_eq v : 0 <= v < n -> bit_of n first v = (v - first) mod n.
Proof.
  intros Hv. unfold bit_of, as_u32. destruct (first <=? v) eqn:E; [by rewrite Z.mod_small by lia|].
  replace ((v - first) mod 2 ^ 32) with (v - first + 2 ^ 32) by (apply (Z.mod_unique _ _ (-1)); lia).
  replace ((v - first + 2 ^ 32 + n) mod 2 ^ 32) with (v - first + n) by (apply (Z.mod_unique _ _ 1); lia).
  apply (Z.mod_unique _ _ (-1)); lia.
Qed.

Lemma next_idx_eq idx zeros :
  0 <= idx < n -> 0 <= zeros < 2 ^ 32 ->
  (if 2 ^ 32 <=? idx + zeros then as_u32 (as_u32 (idx + zeros) mod n - n) else as_u32 (idx + zeros)) mod n = (idx + zeros) mod n.
Proof.
  intros Hi Hz. unfold as_u32. destruct (2 ^ 32 <=? idx + zeros) eqn:E; [|by rewrite (Z.mod_small (idx + zeros) (2 ^ 32)) by lia].
  replace ((idx + zeros) mod 2 ^ 32) with (idx + zeros - 2 ^ 32) by (apply (Z.mod_unique _ _ 1); lia).
  pose proof (Z.mod_pos_bound (idx + zeros - 2 ^ 32) n ltac:(lia)).
  replace (((idx + zeros - 2 ^ 32) mod n - n) mod 2 ^ 32) with ((idx + zeros - 2 ^ 32) mod n - n + 2 ^ 32) by (apply (Z.mod_unique _ _ (-1)); lia).
  pose proof (Z.div_mod (idx + zeros - 2 ^ 32) n ltac:(lia)) as Hd.
  replace ((idx + zeros - 2 ^ 32) mod n - n + 2 ^ 32) with (idx + zeros + (- ((idx + zeros - 2 ^ 32) / n) - 1) * n) by lia.
  by rewrite Z.mod_add by lia.
Qed.

Lemma trailing_zeros_spec p :
  0 <= trailing_zeros p /\ Z.testbit (Zpos p) (trailing_zeros p) = true /\ forall i, 0 <= i < trailing_zeros p -> Z.testbit (Zpos p) i = false.
Proof.
  induction p as [p IH|p IH|]; cbn [trailing_zeros]; [split_and!; [done|done|lia]| |split_and!; [done|done|lia]].
  destruct IH as (H0 & Ht & Hf). change (Zpos p~0) with (2 * Zpos p). split_and!; [lia| |].
  - change (1 + trailing_zeros p) with (Z.succ 0 + trailing_zeros p). rewrite Z.add_succ_l. by rewrite Z.double_bits_succ.
  - intros i Hi. destruct (decide (i = 0)) as [->|]; [done|]. replace i with (Z.succ (i - 1)) by lia. rewrite Z.double_bits_succ. apply Hf. lia.
Qed.

Lemma iter_bits_spec fuel : forall k idx bits v,
  0 <= idx < n -> 0 <= bits -> 0 <= k < 2 ^ 32 -> (forall i, k <= i -> Z.testbit bits i = false) ->
  (k < Z.of_nat fuel \/ k <= Z.of_nat fuel /\ Z.testbit bits 0 = false) ->
  v ∈ iter_bits fuel n idx bits <-> exists i, 0 <= i /\ Z.testbit bits i = true /\ v = (idx + i) mod n.
Proof.
  induction fuel as [|fuel IH]; intros k idx bits v Hi Hb Hk Habove Hfuel; cbn [iter_bits].
  - split; [by intros ?%elem_of_nil|]. intros (i & Hi0 & Ht & _). rewrite Habove in Ht; [done|]. destruct Hfuel as [?|[? _]]; lia.
  - destruct bits as [|p|p]; [|destruct (n <=? idx) eqn:E; [lia|]|lia].
    { split; [by intros ?%elem_of_nil|]. intros (i & _ & Ht & _). by rewrite Z.bits_0 in Ht. }
    destruct (trailing_zeros_spec p) as (H0 & Ht & Hf). set (t := trailing_zeros p) in *.
    assert (t < k) as Htk. { destruct (decide (t < k)); [done|]. rewrite Habove in Ht; [done|lia]. }
    rewrite next_idx_eq by lia. set (bits' := Z.clearbit (Z.shiftr (Z.pos p) t) 0).
    assert (forall j, 0 <= j -> Z.testbit bits' j = Z.testbit (Z.pos p) (j + t) && negb (0 =? j)) as Hbits.
    { intros j Hj. unfold bits'. rewrite Z.clearbit_eqb, Z.shiftr_spec by lia. done. }
    rewrite elem_of_cons, (IH (k - t) ((idx + t) mod n) bits' v).
    + split.
      * intros [->|(j & Hj & Htj & ->)]; [by exists t|]. rewrite Hbits in Htj by done. apply andb_true_iff in Htj as [Htj _].
        exists (j + t). split_and!; [lia|done|]. rewrite Z.add_mod_idemp_l by lia. f_equal. lia.
      * intros (i & Hi0 & Hti & ->). destruct (decide (i = t)) as [->|Hne]; [by left|]. right.
        assert (t < i). { destruct (decide (i < t)); [|lia]. rewrite Hf in Hti; [done|lia]. }
        exists (i - t). split_and!; [lia| |].
        -- rewrite Hbits by lia. replace (i - t + t) with i by lia. rewrite Hti. apply andb_true_iff. split; [done|]. apply negb_true_iff, Z.eqb_neq. lia.
        -- rewrite Z.add_mod_idemp_l by lia. f_equal. lia.
    + apply Z.mod_pos_bound. lia.
    + unfold bits', Z.clearbit. apply Z.ldiff_nonneg. left. apply Z.shiftr_nonneg. lia.
    + lia.
    + intros i Hik. rewrite Hbits by lia. rewrite Habove by lia. done.
    + right. split; [|rewrite Hbits by lia; by rewrite andb_false_r]. destruct Hfuel as [?|[? Hz]]; [lia|].
      assert (t <> 0) by (intros E0; rewrite E0 in Ht; congruence). lia.
Qed.
End bits.

(** ** The fields of a request *)

Section fields.
Context {C : Context} {F : F64} {R : LeaderRng} {HO : HashOrder}.
Variables (z : Zug) (first : Z).
Hypothesis Hn : len (vset z) < 2 ^ 32.
Hypothesis Hfirst : 0 <= first < len (vset z).

Lemma validator_count_small : validator_count z = len (vset z).
Proof. unfold validator_count, as_u32. rewrite Z.mod_small; [done|lia]. Qed.

Lemma validator_bit_field_spec vidxs :
  (forall v, v ∈ vidxs -> 0 <= v < len (vset z)) ->
  0 <= validator_bit_field z first vidxs /\ forall i, 0 <= i ->
    Z.testbit (validator_bit_field z first vidxs) i = true <-> i < 128 /\ exists v, v ∈ vidxs /\ (v - first) mod len (vset z) = i.
Proof.
  intros Hv. unfold validator_bit_field. rewrite validator_count_small. destruct (len (vset z) <=? first) eqn:E; [lia|]. set (n := len (vset z)) in *.
  assert (forall bits, 0 <= bits -> let r := foldl (fun bits v => let i := bit_of n first v in if i <? 128 then Z.lor bits (Z.shiftl 1 i) else bits) bits vidxs in
    0 <= r /\ forall i, 0 <= i -> Z.testbit r i = true <-> Z.testbit bits i = true \/ i < 128 /\ exists v, v ∈ vidxs /\ (v - first) mod n = i) as Hfold.
  2: { destruct (Hfold 0 ltac:(done)) as [H0 Hi]. split; [done|]. intros i Hi0. rewrite Hi by done. rewrite Z.bits_0. naive_solver. }
  induction vidxs as [|v vidxs IH]; intros bits Hb; cbn [foldl].
  - split; [done|]. intros i _. split; [by left|]. intros [?|(_ & v & ?%elem_of_nil & _)]; done.
  - rewrite bit_of_eq by (lia || apply Hv; by left). pose proof (Z.mod_pos_bound (v - first) n ltac:(lia)) as Hm. cbn zeta.
    assert (forall v, v ∈ vidxs -> 0 <= v < n) as Hv' by (intros u Hu; apply Hv; by right).
    set (b := (v - first) mod n) in *. destruct (b <? 128) eqn:Eb.
    + destruct (IH Hv' (Z.lor bits (Z.shiftl 1 b))) as [H0 Hi]; [apply Z.lor_nonneg; split; [done|]; apply Z.shiftl_nonneg; lia|]. split; [done|]. intros i Hi0.
      rewrite Hi by done. rewrite Z.lor_spec, orb_true_iff, Z.shiftl_1_l, Z.pow2_bits_eqb, Z.eqb_eq by lia. unfold b in *. split.
      * intros [[?|<-]|(? & u & ? & ?)]; [by left|right; split; [lia|]; exists v; split; [by left|done]|right; split; [done|]; exists u; split; [by right|done]].
      * intros [?|(? & u & [->|?]%elem_of_cons & ?)]; [by left; left|by left; right|right; split; [done|]; by exists u].
    + destruct (IH Hv' bits Hb) as [H0 Hi]. split; [done|]. intros i Hi0. rewrite Hi by done. unfold b in *. split.
      * intros [?|(? & u & ? & ?)]; [by left|right; split; [done|]; exists u; split; [by right|done]].
      * intros [?|(? & u & [->|?]%elem_of_cons & ?)]; [by left|lia|right; split; [done|]; by exists u].
Qed.

(** Reading a subset of a bit field back. *)
Lemma iter_subfield vidxs bits v :
  (forall v, v ∈ vidxs -> 0 <= v < len (vset z)) -> 0 <= bits ->
  (forall i, 0 <= i -> Z.testbit bits i = true -> Z.testbit (validator_bit_field z first vidxs) i = true) ->
  v ∈ iter_validator_bit_field z first bits <-> v ∈ vidxs /\ Z.testbit bits ((v - first) mod len (vset z)) = true.
Proof.
  intros Hv Hb Hsub. destruct (validator_bit_field_spec vidxs Hv) as [_ Hspec]. unfold iter_validator_bit_field. rewrite validator_count_small. set (n := len (vset z)) in *.
  assert (forall u, 0 <= u < n -> (first + (u - first) mod n) mod n = u) as Hback.
  { intros u Hu. rewrite Z.add_mod_idemp_r by lia. replace (first + (u - first)) with u by lia. by apply Z.mod_small. }
  rewrite (iter_bits_spec n first Hn Hfirst 129 128); [|lia|done|lia| |left; lia].
  - split.
    + intros (i & Hi0 & Ht & ->). destruct (proj1 (Hspec i Hi0) (Hsub i Hi0 Ht)) as (Hlt & u & Hu & <-). rewrite Hback by (by apply Hv). done.
    + intros [Hin Ht]. exists ((v - first) mod n). split_and!; [apply Z.mod_pos_bound; lia|done|]. rewrite Hback by (by apply Hv). done.
  - intros i Hi. destruct (Z.testbit bits i) eqn:Et; [|done]. apply Hsub in Et; [|lia]. apply Hspec in Et; lia.
Qed.

Lemma validator_bit_field_includes_spec v :
  0 <= v < len (vset z) -> validator_bit_field_includes z first v = bool_decide ((v - first) mod len (vset z) < 128).
Proof.
  intros Hv. unfold validator_bit_field_includes. rewrite validator_count_small. set (n := len (vset z)) in *. destruct (n <=? first) eqn:E; [lia|]. unfold as_u32.
  symmetry. assert (forall a, (first + 127) mod 2 ^ 32 = a -> a = first + 127 /\ first + 127 < 2 ^ 32 \/ a = first + 127 - 2 ^ 32 /\ 2 ^ 32 <= first + 127) as Hlast.
  { intros a <-. destruct (decide (first + 127 < 2 ^ 32)); [left; by rewrite Z.mod_small by lia|]. right. split; [|lia]. symmetry. apply (Z.mod_unique _ _ 1); lia. }
  assert (forall a b : Z, bool_decide (a < 128) = (b <=? first + 127) <-> (a < 128 <-> b <= first + 127)) as Hcmp.
  { intros a b. pose proof (Z.leb_le b (first + 127)) as Hl. pose proof (bool_decide_eq_true (a < 128)) as Hd. split; [intros E'; rewrite E' in Hd; tauto|].
    intros Hiff. apply Bool.eq_true_iff_eq. tauto. }
  destruct (first <=? v) eqn:Ef.
  - rewrite (Z.mod_small (v - first)) by lia. destruct (Hlast _ eq_refl) as [[-> ?]|[_ ?]]; destruct (2 ^ 32 <=? first + 127) eqn:El; try lia; cbn [orb].
    + apply Hcmp. lia.
    + apply bool_decide_true. lia.
  - replace ((v - first) mod n) with (v - first + n) by (apply (Z.mod_unique _ _ (-1)); lia).
    assert ((v + n) mod 2 ^ 32 = if 2 ^ 32 <=? v + n then v + n - 2 ^ 32 else v + n) as ->.
    { destruct (2 ^ 32 <=? v + n) eqn:Ev; [symmetry; apply (Z.mod_unique _ _ 1); lia|apply Z.mod_small; lia]. }
    destruct (Hlast _ eq_refl) as [[-> ?]|[-> ?]]; destruct (2 ^ 32 <=? first + 127) eqn:El, (2 ^ 32 <=? v + n) eqn:Ev; try lia; cbn [eqb].
    + apply bool_decide_false. lia.
    + apply Hcmp. lia.
    + transitivity (v + n <=? first + 127); [apply Hcmp; lia|]. apply Bool.eq_true_iff_eq. rewrite !Z.leb_le. lia.
    + apply bool_decide_true. lia.
Qed.
End fields.

(** Reading a bit field back. *)
Lemma bit_field_spec {C : Context} {F : F64} {R : LeaderRng} (z : Zug) (first : Z) (vidxs : list Z) :
  len (vset z) < 2 ^ 32 -> 0 <= first < len (vset z) -> (forall v, v ∈ vidxs -> 0 <= v < len (vset z)) ->
  forall v, v ∈ iter_validator_bit_field z first (validator_bit_field z first vidxs) <-> v ∈ vidxs /\ validator_bit_field_includes z first v = true.
Proof.
  intros Hn Hf Hv v. destruct (validator_bit_field_spec z first Hn Hf vidxs Hv) as [H0 Hspec].
  rewrite (iter_subfield z first Hn Hf vidxs _ v Hv H0) by done. split.
  - intros [Hin Ht]. split; [done|]. rewrite validator_bit_field_includes_spec by auto. apply bool_decide_true.
    apply Hspec in Ht as [? _]; [done|]. apply Z.mod_pos_bound. lia.
  - intros [Hin Hi]. split; [done|]. rewrite validator_bit_field_includes_spec in Hi by auto. apply bool_decide_eq_true in Hi.
    apply Hspec; [apply Z.mod_pos_bound; lia|]. split; [done|]. by exists v.
Qed.

(** ** Answering a request *)

Section answer.
Context {C : Context} {F : F64} {R : LeaderRng} {HO : HashOrder}.
Context {S0 : Setup} {honest : Z -> bool} {lead : Z -> Z} {me : option Z} {others : History}.
Hypothesis Hera : era_ok S0 honest lead.
Abbreviation vs := (validator_set S0).
Abbreviation hist := (hist me others).
Abbreviation Inv := (Inv S0 honest lead me others None).
Abbreviation round_ok := (round_ok S0 honest lead).
Abbreviation quiet := (quiet (honest := honest)).

Lemma btree_entries_elem {A} (m : gmap Z A) p : p ∈ btree_entries m -> m !! p.1 = Some p.2.
Proof. intros (k & _ & Hk)%list_elem_of_omap. destruct (m !! k) as [a|] eqn:E; cbn in Hk; by simplify_eq. Qed.

Lemma pick_sigs_ok (get_sig : Z -> option Signature) (l : list Z) :
  (forall v, v ∈ l -> is_Some (get_sig v)) -> exists m, pick_sigs get_sig l = Ok m /\ forall v, is_Some (m !! v) -> v ∈ l.
Proof.
  intros Hl. unfold pick_sigs.
  assert (forall acc : gmap Z Signature, exists m, foldl (fun (acc : result NodeId (gmap Z Signature)) v => acc ← acc; s ← expect (get_sig v); Ok (<[v := s]> acc)) (Ok acc) l = Ok m /\
    forall v, is_Some (m !! v) -> is_Some (acc !! v) \/ v ∈ l) as Hfold.
  2: { destruct (Hfold ∅) as (m & Hm & Hv). exists m. split; [done|]. intros v Hs. destruct (Hv v Hs) as [[? He]|?]; [by rewrite lookup_empty in He|done]. }
  induction l as [|v l IH]; intros acc; cbn [foldl]; [exists acc; split; [done|by left]|].
  destruct (Hl v ltac:(left)) as [s Hs]. cbn [mbind result_bind]. rewrite Hs. cbn [expect mbind result_bind].
  destruct (IH ltac:(intros u Hu; apply Hl; by right) (<[v := s]> acc)) as (m & Hm & Hin). exists m. split; [done|]. intros u Hu.
  destruct (Hin u Hu) as [Hacc|?]; [|right; by right]. destruct (decide (v = u)) as [<-|Hne]; [right; by left|]. rewrite lookup_insert_ne in Hacc by done. by left.
Qed.

(** What is left of one of the node's own bit fields after removing the requester's. *)
Lemma missing_elem z first vidxs b v :
  Inv z -> 0 <= first < len vs -> (forall v, v ∈ vidxs -> 0 <= v < len vs) ->
  v ∈ iter_validator_bit_field z first (and_not (validator_bit_field z first vidxs) b) -> v ∈ vidxs.
Proof.
  intros Hi Hf Hv. assert (vset z = vs) as Hvs by (unfold vset; by rewrite (inv_setup _ Hi)).
  pose proof (vo_len _ (eo_validators Hera)) as Hn. rewrite <- Hvs in *. destruct (validator_bit_field_spec z first Hn Hf vidxs Hv) as [H0 _].
  intros Hin. apply (iter_subfield z first Hn Hf vidxs) in Hin as [? _]; [done|done| |].
  - unfold and_not. apply Z.ldiff_nonneg. by left.
  - intros i Hi0. unfold and_not. rewrite Z.ldiff_spec, andb_true_iff. by intros [? _].
Qed.

Lemma missing_echoes_ok z r rd first eb fb ofb ph hp :
  Inv z -> rounds z !! r = Some rd -> 0 <= first < len vs ->
  exists poh sigs oe, missing_echoes z rd first eb fb ofb ph hp = Ok (poh, sigs, oe) /\
    forall v h, is_Some (sigs !! v) -> (poh = Some (inr h) \/ exists p, poh = Some (inl p) /\ hash_proposal p = h) ->
      exists em, echoes rd !! h = Some em /\ is_Some (em !! v).
Proof.
  intros Hi Hrd Hf. destruct (inv_rounds _ Hi _ _ Hrd) as [_ Hok]. unfold missing_echoes.
  destruct (h ← ph; m ← echoes rd !! h; Some (h, m)) as [[h em]|] eqn:E.
  2: { exists None, ∅, 0. split; [done|]. intros v h [? Hs]. by rewrite lookup_empty in Hs. }
  apply bind_Some in E as (h' & -> & E). apply bind_Some in E as (em' & Hem & [= -> ->]).
  assert (forall v, v ∈ (map_to_list em).*1 -> is_Some (em !! v)) as Hkeys by (intros v ([k s] & -> & Hs%elem_of_map_to_list)%list_elem_of_fmap; by eexists).
  assert (forall v, v ∈ (map_to_list em).*1 -> 0 <= v < len vs) as Hrange by (intros v Hv; by eapply (ro_echoes _ _ _ Hok h em), Hkeys).
  destruct (pick_sigs_ok (fun v => em !! v) (iter_validator_bit_field z first (and_not (validator_bit_field z first (map_to_list em).*1) (Z.lor eb (Z.lor fb ofb))))) as (sigs & Hsigs & Hin).
  { intros v Hv. by eapply Hkeys, missing_elem. }
  rewrite Hsigs. cbn [mbind result_bind]. assert (forall v, is_Some (sigs !! v) -> is_Some (em !! v)) as Hsub by (intros v Hv; by eapply Hkeys, missing_elem, Hin).
  destruct hp; [eexists _, _, _; split; [reflexivity|]; intros v h' Hv [[= <-]|(p & ? & _)]; [by exists em; auto|done]|].
  eexists _, _, _. split; [reflexivity|]. intros v h' Hv [Hc|(p & Hc & Hh)].
  { destruct (proposal rd); [case_bool_decide|]; done. }
  destruct (proposal rd) as [p'|] eqn:Ep; [|done]. case_bool_decide as Eh; [|done]. injection Hc as <-.
  destruct (ro_proposal _ _ _ Hok _ Ep) as (_ & Hph & _). exists em. split; [congruence|].
  destruct (negb _); [|by apply Hsub]. destruct (em !! leader_idx rd) as [s|] eqn:El; [|by apply Hsub].
  destruct (decide (leader_idx rd = v)) as [<-|Hne]; [by rewrite El|]. rewrite lookup_insert_ne in Hv by done. by apply Hsub.
Qed.

Lemma keys_some_elem {A} (l : list (option A)) v : Z.of_nat (length l) < 2 ^ 32 -> v ∈ keys_some l -> 0 <= v < Z.of_nat (length l) /\ exists a, vec_get l v = Some (Some a).
Proof.
  intros Hl (Hv & a & Ha)%keys_some_spec; [|done]. pose proof (vec_get_range _ _ _ Hv Ha). split; [lia|]. by exists a.
Qed.
Lemma missing_votes_ok z r rd b first vb fb ofb :
  Inv z -> rounds z !! r = Some rd -> 0 <= first < len vs ->
  exists sigs ov, missing_votes z rd b first vb fb ofb = Ok (sigs, ov) /\ forall v, is_Some (sigs !! v) -> in_round rd v (Vote b) /\ 0 <= v < len vs.
Proof.
  intros Hi Hrd Hf. destruct (inv_rounds _ Hi _ _ Hrd) as [_ Hok]. unfold missing_votes. pose proof (ro_votes_len _ _ _ Hok b) as Hl.
  pose proof (vo_len _ (eo_validators Hera)) as Hn.
  set (ov := if bool_decide _ then 0 else _). set (it := iter_validator_bit_field _ _ _).
  assert (forall v, v ∈ it -> v ∈ keys_some (votes rd b)) as Hit.
  { unfold it, ov. intros v Hv. case_bool_decide.
    - unfold and_not in Hv. rewrite Z.ldiff_0_l in Hv. by apply elem_of_nil in Hv.
    - eapply missing_elem; [done|exact Hf| |exact Hv]. intros u Hu. apply keys_some_elem in Hu; lia. }
  destruct (pick_sigs_ok (fun v => s ← vec_get (votes rd b) v; s) it) as (sigs & -> & Hin).
  { intros v Hv%Hit. apply keys_some_elem in Hv as (_ & a & Ha); [|lia]. rewrite Ha. by eexists. }
  eexists _, _. split; [reflexivity|]. intros v Hv%Hin%Hit. apply keys_some_elem in Hv as (? & a & Ha); [|lia]. split; [by exists a|lia].
Qed.

Lemma missing_evidence_ok z sender l :
  Inv z -> (forall v, v ∈ l -> is_Some (faults z !! v)) ->
  exists r, missing_evidence z sender l = Ok r /\ forall o e, r = Some (o, e) ->
    quiet (hist z) o /\ forall m c s, (m, c, s) ∈ e -> honest (validator_idx m) = false.
Proof.
  intros Hi Hl. induction l as [|v l IH]; cbn [missing_evidence].
  { eexists. split; [done|]. intros o e [= <- <-]. split; [apply quiet_nil|]. by intros ? ? ? ?%elem_of_nil. }
  destruct (Hl v ltac:(left)) as [f Hf]. rewrite Hf. cbn [expect mbind result_bind]. destruct IH as (r & Hr & Hspec); [intros u Hu; apply Hl; by right|].
  destruct (inv_faults _ Hi v ltac:(by rewrite Hf)) as [Hrange Hbad]. destruct f as [|m c s|].
  - by exists None.
  - rewrite Hr. cbn. eexists. split; [done|]. destruct r as [[o e]|]; [|done]. intros o' e' [= <- <-]. destruct (Hspec _ _ eq_refl) as [Hq He].
    split; [done|]. intros m' c' s' [[= -> -> ->]|Hin]%elem_of_cons; [|by eapply He]. by rewrite (inv_evidence _ Hi _ _ _ _ Hf).
  - assert (exists vid, id_of (vset z) v = Some vid) as [vid ->].
    { unfold vset. rewrite (inv_setup _ Hi). unfold id_of. destruct (vec_get_is_Some (validators vs) v Hrange) as [x ->]. by eexists. }
    cbn [expect mbind result_bind]. rewrite Hr. cbn. eexists. split; [done|]. destruct r as [[o e]|]; [|done]. intros o' e' [= <- <-].
    destruct (Hspec _ _ eq_refl) as [Hq He]. split; [|done]. apply (quiet_app _ [_]); [by apply quiet_one|done].
Qed.

Lemma signed_messages_ok z l :
  Inv z -> (forall v, v ∈ l -> 0 <= v < len vs) ->
  exists ms, foldr (fun v acc => m ← expect (vec_get (active z) v); acc ← acc; Ok (option_list m ++ acc)) (Ok [] : result NodeId (list SignedMessage)) l = Ok ms /\
    forall m, m ∈ ms -> honest (validator_idx m) = true -> hist z (validator_idx m) (round_id m) (content m).
Proof.
  intros Hi Hl. induction l as [|v l IH]; cbn [foldr]; [eexists; split; [done|]; by intros ? ?%elem_of_nil|].
  destruct IH as (ms & Hms & Hspec); [intros u Hu; apply Hl; by right|]. pose proof (Hl v ltac:(left)) as Hv.
  destruct (vec_get_is_Some (active z) v) as [o Ho]; [by rewrite (inv_active _ Hi)|]. rewrite Ho, Hms. cbn. eexists. split; [done|].
  intros m [Hm|Hm]%elem_of_app Hh; [|by apply Hspec]. destruct o as [m'|]; cbn in Hm; [|by apply elem_of_nil in Hm]. apply list_elem_of_singleton in Hm as ->.
  eapply (inv_seen _ Hi v); [lia|done|done].
Qed.

Lemma fault_keys_range z v : Inv z -> v ∈ (map_to_list (faults z)).*1 -> 0 <= v < len vs /\ is_Some (faults z !! v).
Proof.
  intros Hi ([k f] & -> & Hf%elem_of_map_to_list)%list_elem_of_fmap. cbn. assert (is_Some (faults z !! k)) as Hs by (by eexists).
  split; [by apply (inv_faults _ Hi)|done].
Qed.

(** The signatures of an answer are on messages that were signed. *)
Lemma response_signed z r rd poh es ts fs ms e inst sync s :
  Inv z -> rounds z !! r = Some rd ->
  (forall v h, is_Some (es !! v) -> (poh = Some (inr h) \/ exists p, poh = Some (inl p) /\ hash_proposal p = h) -> exists em, echoes rd !! h = Some em /\ is_Some (em !! v)) ->
  (forall v, is_Some (ts !! v) -> in_round rd v (Vote true) /\ 0 <= v < len vs) ->
  (forall v, is_Some (fs !! v) -> in_round rd v (Vote false) /\ 0 <= v < len vs) ->
  (forall m, m ∈ ms -> honest (validator_idx m) = true -> hist z (validator_idx m) (round_id m) (content m)) ->
  (forall m c s, (m, c, s) ∈ e -> honest (validator_idx m) = false) ->
  s ∈ message_signed (M_SyncResponse (mkSyncResponse r poh es ts fs ms e inst sync)) ->
  honest (validator_idx s) = true -> hist z (validator_idx s) (round_id s) (content s).
Proof.
  intros Hi Erd Hes Hts Hfs Hms Hbad. destruct (inv_rounds _ Hi _ _ Erd) as [_ Hok]. cbn [message_signed]. unfold response_messages.
  cbn [rs_signed_messages rs_echo_sigs rs_true_vote_sigs rs_false_vote_sigs rs_round_id rs_instance_id rs_proposal_or_hash rs_evidence].
  assert (forall v c, in_round rd v c -> 0 <= v < len vs -> honest v = true -> hist z v r c) as Hst.
  { intros v [h|b]; cbn; [intros (em & Hem & Hs) _ Hh; by apply (ro_echoes _ _ _ Hok h em v)|]. intros [sg Hs] Hv Hh. apply (ro_votes _ _ _ Hok b v sg); [lia|done|done]. }
  rewrite !elem_of_app. intros [[Hin|[Hin|[Hin|Hin]]]|Hin] Hh.
  - by apply Hms.
  - assert (exists h p, s = mkSignedMessage r inst (Echo h) p.1 p.2 /\ p ∈ btree_entries es /\
      (poh = Some (inr h) \/ exists q, poh = Some (inl q) /\ hash_proposal q = h)) as (h & p & -> & Hp%btree_entries_elem & Hpoh).
    { destruct poh as [[q|h]|]; [| |by apply elem_of_nil in Hin]; apply list_elem_of_fmap in Hin as (p & -> & Hp); eexists _, p;
        (split; [reflexivity|]; split; [done|]); [right; by exists q|by left]. }
    cbn [validator_idx round_id content] in *. destruct (Hes p.1 h ltac:(by rewrite Hp) Hpoh) as (em & Hem & Hs). by apply (ro_echoes _ _ _ Hok h em p.1).
  - apply list_elem_of_fmap in Hin as (p & -> & Hp%btree_entries_elem). cbn [validator_idx round_id content] in *. destruct (Hts p.1 ltac:(by rewrite Hp)). by apply Hst.
  - apply list_elem_of_fmap in Hin as (p & -> & Hp%btree_entries_elem). cbn [validator_idx round_id content] in *. destruct (Hfs p.1 ltac:(by rewrite Hp)). by apply Hst.
  - exfalso. apply list_elem_of_In, in_concat in Hin as (l & Hl & Hin). apply list_elem_of_In, list_elem_of_fmap in Hl as ([[m c] sg] & -> & He).
    specialize (Hbad _ _ _ He). apply list_elem_of_In, elem_of_cons in Hin.
    assert (validator_idx s = validator_idx m) as E by (destruct Hin as [->|Hin%list_elem_of_singleton]; [done|by rewrite Hin]).
    rewrite E, Hbad in Hh. discriminate.
Qed.

(** Rewriting, so that the outcome of a call is not computed. *)
Lemma bind_of_Ok {E A B} (a : A) (f : A -> result E B) : (Ok a ≫= f) = f a.
Proof. done. Qed.

(** A request is answered, and the signatures in the answer are on messages that were signed. *)
Lemma handle_sync_request_ok z rq sender :
  Inv z -> in_u 32 (rq_first_validator_idx rq) ->
  exists o r, handle_sync_request z rq sender = Ok (o, r) /\ quiet (hist z) o /\ forall m, r = Some m -> forall s, s ∈ message_signed m ->
    honest (validator_idx s) = true -> hist z (validator_idx s) (round_id s) (content s).
Proof.
  destruct rq as [r0 ph hp first eb tb fb ab faulty inst sync]. unfold handle_sync_request.
  cbn [rq_round_id rq_proposal_hash rq_has_proposal rq_first_validator_idx rq_echoes rq_true_votes rq_false_votes rq_active rq_faulty rq_instance_id rq_sync_id].
  intros Hi Hfirst. assert (vset z = vs) as Hvs by (unfold vset; by rewrite (inv_setup _ Hi)).
  pose proof (vo_len _ (eo_validators Hera)) as Hn.
  assert (validator_count z = len vs) as Hc by (rewrite <- Hvs in *; by apply validator_count_small || (unfold validator_count, as_u32; rewrite Z.mod_small; [done|unfold len in *; lia])).
  rewrite Hc. destruct (len vs <=? first) eqn:Ef; [eexists _, _; split; [done|]; split; [by apply quiet_one|done]|].
  assert (0 <= first < len vs) as Hf by (unfold in_u in Hfirst; lia).
  unfold round. destruct (rounds z !! r0) as [rd|] eqn:Erd; [|eexists _, _; split; [done|]; split; [apply quiet_nil|done]].
  destruct (inv_rounds _ Hi _ _ Erd) as [_ Hok].
  match goal with |- context [missing_echoes z rd first ?eb ?fb ?ofb ?ph ?hp] =>
    destruct (missing_echoes_ok z _ rd first eb fb ofb ph hp Hi Erd Hf) as (poh & es & oe & -> & Hes) end. rewrite bind_of_Ok; cbv beta iota.
  match goal with |- context [missing_votes z rd true first ?vb ?fb ?ofb] =>
    destruct (missing_votes_ok z _ rd true first vb fb ofb Hi Erd Hf) as (ts & ot & -> & Hts) end. rewrite bind_of_Ok; cbv beta iota.
  match goal with |- context [missing_votes z rd false first ?vb ?fb ?ofb] =>
    destruct (missing_votes_ok z _ rd false first vb fb ofb Hi Erd Hf) as (fs & ov & -> & Hfs) end. rewrite bind_of_Ok; cbv beta iota.
  destruct (missing_evidence_ok z sender (iter_validator_bit_field z first
    (and_not (validator_bit_field z first (map_to_list (faults z)).*1) faulty))) as (ev & -> & Hev); [done| |].
  { intros v Hv. apply (fault_keys_range z v Hi). eapply missing_elem; [done|exact Hf| |exact Hv]. intros u Hu. by apply (fault_keys_range z u Hi). }
  rewrite bind_of_Ok; cbv beta iota. destruct ev as [[o e]|]; [|eexists _, _; split; [done|]; split; [by apply quiet_one|done]].
  destruct (Hev _ _ eq_refl) as [Hq Hbad]. pose proof (inv_active _ Hi) as Hal.
  match goal with |- context [iter_validator_bit_field z first (and_not (validator_bit_field z first (keys_some (active z))) ?b)] =>
    destruct (signed_messages_ok z (iter_validator_bit_field z first (and_not (validator_bit_field z first (keys_some (active z))) b)) Hi) as (ms & -> & Hms) end.
  { intros v Hv. assert (forall u, u ∈ keys_some (active z) -> 0 <= u < len vs) as Hk.
    { intros u Hu. apply keys_some_elem in Hu as [? _]; lia. }
    eapply Hk, missing_elem; [done|exact Hf|exact Hk|exact Hv]. }
  rewrite bind_of_Ok; cbv beta iota. eexists _, _. split; [reflexivity|]. split; [done|]. intros m [= <-] s. by eapply response_signed.
Qed.
End answer.
