(* ===== verification/ZugReplay.v ===== *)
(** * The Zug consensus protocol: the log is replayed, and the events of a node

    Proposing, the answers of the block validator, replaying the log and activation; then
    every method of the trait as an event, with what the environment must satisfy for it. *)
From S2P Require Import Prelude Effects BTree Validators ZugTypes Zug ZugQuorum ZugInv ZugNode ZugFinal ZugUpdate ZugHandlers ZugSync.

Open Scope Z_scope.

(** ** Events *)

Section event.
Context {C : Context} {F : F64} {R : LeaderRng}.

(** A call of a method of [ConsensusProtocol] that changes the state or sends something, and
    the call of [open_wal] with which [new_boxed] ends the construction. *)
Inductive Event : Type :=
| E_OpenWal (w : WalOpen) (now : Z)
| E_Message (sender : NodeId) (msg : option Message) (now : Z)
| E_Request (sender : NodeId) (msg : option SyncRequest)
| E_Timer (ts now timer_id : Z) (d : SyncDraw)
| E_IsCurrent (now : Z)
| E_Propose (b : ProposedBlock) (now : Z)
| E_ResolveValidity (b : ProposedBlock) (valid : bool) (now : Z)
| E_Activate (our_id : ValidatorId) (sk : ValidatorSecret) (now : Z) (w : option WalOpen)
| E_Deactivate
| E_SetEvidenceOnly
| E_MarkFaulty (vid : ValidatorId)
| E_SendEvidence (peer : NodeId) (vid : ValidatorId)
| E_SetPaused (p : bool) (now : Z).

Definition dispatch {HO : HashOrder} (e : Event) : M Outcomes :=
  match e with
  | E_OpenWal w now => open_wal w now
  | E_Message sender msg now => handle_message sender msg now
  | E_Request sender msg =>
      z ← get;
      a ← lift (handle_request_message z sender msg);
      mret (a.1 ++ match a.2 with Some m => [CreatedTargetedMessage m sender] | None => [] end)
  | E_Timer ts now timer_id d => handle_timer ts now timer_id d
  | E_IsCurrent now => asks (fun z => handle_is_current z now)
  | E_Propose b now => propose b now
  | E_ResolveValidity b valid now => resolve_validity b valid now
  | E_Activate our_id sk now w => activate_validator our_id sk now w
  | E_Deactivate => _ ← deactivate_validator; mret []
  | E_SetEvidenceOnly => _ ← set_evidence_only_mode; mret []
  | E_MarkFaulty vid => _ ← mark_faulty vid; mret []
  | E_SendEvidence peer vid => asks (fun z => send_evidence z peer vid)
  | E_SetPaused p now => set_paused_mode p now
  end.
End event.

Section replay.
Context {C : Context} {F : F64} {R : LeaderRng} {HO : HashOrder}.
Context {S0 : Setup} {honest : Z -> bool} {lead : Z -> Z} {me : option Z} {others : History}.
Hypothesis Hera : era_ok S0 honest lead.
Hypothesis Hme : me_ok S0 honest me.
Hypothesis Hoth : others_ok (honest := honest) (me := me) (others := others).
Abbreviation vs := (validator_set S0).
Abbreviation hist := (hist me others).
Abbreviation Inv := (Inv S0 honest lead me others None).
Abbreviation Step := (Step S0 honest lead me others None).
Abbreviation Pure := (Pure S0 honest lead me others None).
Abbreviation Ext := (Ext (S0 := S0) (honest := honest) (lead := lead) (me := me) (others := others)).
Abbreviation quiet := (quiet (honest := honest)).
Abbreviation outcomes_ok := (outcomes_ok (S0 := S0) (honest := honest) (lead := lead)).
Abbreviation returns := (returns (S0 := S0) (honest := honest) (lead := lead) (me := me) (others := others)).
Abbreviation returns_quietly := (returns_quietly (S0 := S0) (honest := honest) (lead := lead) (me := me) (others := others)).
Abbreviation Good := (Good (S0 := S0) (honest := honest) (lead := lead) (me := me) (others := others)).
Abbreviation entry_ok := (entry_ok S0 honest).

(** ** Proposing and validation *)

Lemma unseen_total z (l : list (Z * ValidatorId)) :
  Inv z -> (forall e, e ∈ l -> 0 <= e.1 < len vs) ->
  exists u, foldr (fun e acc =>
      seen ← expect (vec_get (active z) e.1);
      acc ← acc;
      Ok (if bool_decide (seen = None /\ faults z !! e.1 = None) then {[e.1]} ∪ acc else acc)) (Ok ∅ : result NodeId (gset Z)) l = Ok u.
Proof.
  intros Hi Hl. induction l as [|e l IH]; cbn [foldr]; [by eexists|].
  destruct IH as [u ->]; [intros e' He'; apply Hl; by right|].
  destruct (vec_get_is_Some (active z) e.1) as [x Hx]; [rewrite (inv_active _ Hi); apply Hl; by left|]. rewrite Hx. by eexists.
Qed.

Lemma step_returns z z1 (m : M Outcomes) : Step z z1 -> returns m z1 -> ok m z1 (fun o z' => Good z o z').
Proof. intros Hs Hm. eapply ok_mono; [exact Hm|]. intros o z'. by apply Step_Good. Qed.

Lemma propose_ok z b now : Inv z -> returns (propose b now) z.
Proof.
  intros Hi. unfold propose, get, ZugUpdate.returns. ok_step. destruct (pending_proposal z) as [[[ctx r] maybe_parent]|] eqn:Ep; [|by apply ret_returns, quiet_nil].
  ok_step. set (z1 := set_pending_proposal None z). assert (Pure z z1) as P1 by (by apply set_pending_Pure). pose proof (Pure_inv _ _ P1) as Hi1.
  apply (step_returns _ _ _ (Pure_Step _ _ P1)). unfold ZugUpdate.returns. destruct (_ || _) eqn:Ec.
  - apply bind_returns; [apply modify_Step, Pure_Step, set_pending_Pure; [done|]|].
    { intros c r' parent [= <- <- ->]. by apply (inv_pending _ Hi _ _ _ Ep). }
    intros _ z2 S2. apply ret_returns; [apply S2|apply quiet_nil].
  - apply orb_false_iff in Ec as [_ Er]. apply negb_false_iff, Z.eqb_eq in Er. subst r.
    apply ok_lift_total; [apply (unseen_total z); [done|intros e; exact (enumerate_ids_range Hera z e Hi)]|]. intros u _.
    apply (append_returns _ _ _ (fun o => o)); [|intros o z2 S2; apply (zug_update_ok Hera Hme Hoth), S2|done].
    apply quietly_returns, (create_echo_and_proposal_ok Hera Hme); [done|]. split; [apply Hi|]. split; [done|]. cbn. intros parent ->.
    by apply (inv_pending _ Hi _ _ _ Ep).
Qed.

Lemma alist_get_elem {K A} `{EqDecision K} (k : K) (l : list (K * list A)) x : x ∈ alist_get k l -> exists w, (k, w) ∈ l /\ x ∈ w.
Proof.
  unfold alist_get. destruct (list_find _ l) as [[i [k' w]]|] eqn:E; [|by intros ?%elem_of_nil].
  apply list_find_Some in E as (Hl & Hk & _). cbn in *. subst. intros Hx. exists w. split; [by eapply list_elem_of_lookup_2|done].
Qed.
Lemma resolve_validity_ok z b valid now : Inv z -> returns (resolve_validity b valid now) z.
Proof.
  intros Hi. unfold resolve_validity, get, ZugUpdate.returns. ok_step. apply bind_returns.
  { apply modify_Step, Pure_Step, set_waiting_validation_Pure; [done|]. intros b' w r p s [_ Hw]%list_elem_of_filter. by eapply (inv_waiting_validation _ Hi). }
  intros _ z1 S1. pose proof (step_inv _ _ S1) as Hi1. destruct valid; [|by apply ret_returns, quiet_nil].
  apply (append_returns _ _ _ (fun o => o)); [|intros o z2 S2; apply (zug_update_ok Hera Hme Hoth), S2|done].
  apply quietly_returns, for_each_quietly; [done|]. intros [[r p] s] z2 Hin Hi2. cbn [fst snd].
  rewrite (hash_order_perm _ _) in Hin. apply alist_get_elem in Hin as (w & Hw & Hin). pose proof (inv_waiting_validation _ Hi _ _ _ _ _ Hw Hin) as Hp.
  apply bind_quietly; [by apply (insert_proposal_round Hera)|]. intros inserted z3 E3. pose proof (Ext_inv _ _ E3). destruct inserted; [|by apply ret_quietly, quiet_nil].
  apply bind_quietly; [by apply (record_proposal_ok Hera Hme)|]. intros _ z4 E4. apply bind_quietly; [apply mark_dirty_Ext; [by eapply Ext_inv|apply Hp]|]. intros _ z5 E5.
  apply bind_quietly; [by apply progress_Ext, (Ext_inv _ _ E5)|]. intros _ z6 E6. apply ret_quietly; [by eapply Ext_inv|by apply quiet_one].
Qed.

(** ** Replaying the log *)

Lemma wal_ancestors_total fuel z r : Inv z -> (Z.to_nat r < fuel)%nat -> exists o, wal_ancestors_from fuel z r = Ok o.
Proof.
  intros Hi. revert r. induction fuel as [|fuel IH]; intros r Hf; [lia|]. cbn [wal_ancestors_from].
  destruct (rd ← round z r; proposal rd) as [p|] eqn:Ep; [|by eexists]. case_bool_decide; [by eexists|].
  apply bind_Some in Ep as (rd & Hrd & Hp). destruct (inv_rounds _ Hi _ _ Hrd) as [_ Hok]. destruct (ro_proposal _ _ _ Hok _ Hp) as (_ & _ & Hpar).
  destruct (maybe_parent_round_id (inner p)) as [parent|]; [|by eexists]. specialize (Hpar _ eq_refl).
  destruct (IH parent ltac:(lia)) as [o ->]. by eexists.
Qed.

Lemma replay_entry_ok z e now :
  Inv z -> entry_ok (hist z) e ->
  ok (replay_entry e now) z (fun o z' => Good z (default [] o) z' /\
    forall m, e = W_SignedMessage m -> me = Some (validator_idx m) -> stored z' (validator_idx m) (round_id m) (content m)).
Proof.
  intros Hi He. assert (forall o, ok (mret o : M (option Outcomes)) z (fun o' z' => o' = o /\ z' = z)) as Hret by (intros o; by apply ok_ret).
  assert (forall o, quiet (hist z) o -> Good z o z) as Hgood by (intros o Ho; by apply Step_quiet_Good; [apply Step_refl|]).
  destruct e as [m|p r|m c s]; cbn [replay_entry].
  - eapply ok_bind; [exact (add_content_ok Hera Hme z m Hi He)|]. intros added z1 [P1 Hst]. apply ok_ret. split; [|by intros ? [= <-]].
    apply Step_quiet_Good; [by apply Pure_Step|]. destruct added; apply quiet_nil.
  - unfold get. ok_step. case_bool_decide; [eapply ok_mono; [apply Hret|]; intros ? ? [-> ->]; split; [apply Hgood, quiet_nil|done]|].
    destruct He as (Hr & _ & Hpar). apply ok_lift_total.
    { destruct (maybe_parent_round_id p) as [parent|]; [|by eexists]. apply wal_ancestors_total; [done|lia]. }
    intros [ancestors|] _; [|eapply ok_mono; [apply Hret|]; intros ? ? [-> ->]; split; [apply Hgood, quiet_nil|done]].
    assert (proposal_ok r (hashed_proposal_new p)) as Hp by done.
    eapply ok_bind; [exact (insert_proposal_round Hera z r _ Hi Hp)|]. intros inserted z1 E1. destruct inserted.
    + eapply ok_bind; [exact (mark_dirty_Ext z1 r (Ext_inv _ _ E1) Hr)|]. intros ? z2 E2. apply ok_ret. split; [|done].
      apply Step_quiet_Good; [apply Ext_Step; exact (Ext_trans _ _ _ E1 E2)|]. cbn. destruct (maybe_block p); [by apply quiet_one|apply quiet_nil].
    + apply ok_ret. split; [|done]. apply Step_quiet_Good; [by apply Ext_Step|apply quiet_nil].
  - destruct He as [Hrange Hh]. unfold get. ok_step. destruct (id_of _ _) as [vid|]; [|eapply ok_mono; [apply Hret|]; intros ? ? [-> ->]; split; [apply Hgood, quiet_nil|done]].
    eapply ok_bind; [exact (handle_fault_no_wal_ok Hera Hme Hoth z m vid c s now Hi Hrange Hh)|]. intros o z1 [S1 [O1 O2]]. apply ok_ret. split; [|done].
    split; [done|]. cbn. split; [intros b [_ Hb]%list_elem_of_filter; by apply O1|intros x [_ Hx]%list_elem_of_filter; by apply O2].
Qed.

Lemma replay_ok entries readable now z :
  Inv z -> (forall e, e ∈ entries -> entry_ok (hist z) e) ->
  ok (replay entries readable now) z (fun r z' => Good z r.2 z' /\
    (r.1 = true -> forall m, W_SignedMessage m ∈ entries -> me = Some (validator_idx m) -> stored z' (validator_idx m) (round_id m) (content m))).
Proof.
  revert readable z. induction entries as [|e entries IH]; intros readable z Hi He.
  - assert (Good z [] z) as G by (by apply Step_quiet_Good; [apply Step_refl|apply quiet_nil]).
    destruct readable as [[|n]|]; cbn [replay]; apply ok_ret; (split; [done|]); intros _ m Hm; by apply elem_of_nil in Hm.
  - assert (forall readable, ok (o ← replay_entry e now;
      match o with None => mret (false, []) | Some o => '(ended, os) ← replay entries (pred <$> readable) now; mret (ended, o ++ os) end) z
      (fun r z' => Good z r.2 z' /\ (r.1 = true -> forall m, W_SignedMessage m ∈ e :: entries -> me = Some (validator_idx m) ->
        stored z' (validator_idx m) (round_id m) (content m)))) as Hstep.
    { intros rdb. eapply ok_bind; [apply (replay_entry_ok z e now Hi), He; by left|]. intros [o|] z1 [G1 St1].
      2: { apply ok_ret. split; [|done]. split; [apply G1|]. apply quiet_ok, quiet_nil. }
      eapply ok_bind; [apply (IH (pred <$> rdb) z1); [by eapply Good_inv|]|].
      { intros e' He'. eapply entry_ok_mono; [apply G1|]. apply He. by right. }
      intros [ended os] z2 [G2 St2]. apply ok_ret. split; [exact (Good_app _ _ _ _ _ G1 G2)|]. cbn. intros -> m [Hm|Hm]%elem_of_cons Hown; [|by apply St2].
      subst e. by apply (proj1 G2), St1. }
    destruct readable as [[|n]|]; cbn [replay]; [|by apply (Hstep (Some (S n)))|by apply (Hstep None)].
    apply ok_ret. split; [|done]. by apply Step_quiet_Good; [apply Step_refl|apply quiet_nil].
Qed.

(** ** Activation and the rest of the trait *)

(** The invariant, a history that only grows, and outcomes that are true of it. *)
Definition Reach (z : Zug) (o : Outcomes) (z' : Zug) : Prop :=
  Inv z' /\ (forall v r c, hist z v r c -> hist z' v r c) /\ outcomes_ok (hist z') o.
Definition reaches (m : M Outcomes) (z : Zug) : Prop := ok m z (fun o z' => Reach z o z').
Lemma returns_reaches m z : returns m z -> reaches m z.
Proof. intros Hm. eapply ok_mono; [exact Hm|]. intros o z' [S1 O1]. split_and!; [apply S1|apply S1|exact O1]. Qed.
Lemma Reach_quiet z o z' : Inv z' -> (forall v r c, hist z v r c -> hist z' v r c) -> quiet (hist z') o -> Reach z o z'.
Proof. intros Hi Hh Hq. split; [done|]. split; [done|]. by apply quiet_ok. Qed.

Lemma open_wal_ok z w now :
  Inv z -> write_wal z = false ->
  ok (open_wal w now) z (fun o z' => Reach z o z' /\ evidence_only z' = evidence_only z).
Proof.
  intros Hi Hw. unfold open_wal, get.
  destruct (negb (wo_open w)); [apply ok_ret; split; [|done]; by apply Reach_quiet, quiet_nil|]. ok_step.
  eapply ok_bind; [exact (replay_ok (wal_file z) (wo_read w) now z Hi (inv_wal _ Hi))|]. intros [ended outcomes] z1 [[S1 O1] St]. cbn [fst snd] in *.
  eapply (ok_bind _ _ _ (fun _ z' => Inv z' /\ wal_file z' = wal_file z1 /\ evidence_only z' = evidence_only z1)).
  - destruct (ended && wo_append w) eqn:E; [|by apply ok_ret; split; [apply S1|]]. apply andb_true_iff in E as [-> _]. apply ok_modify. split; [|done].
    destruct (step_closed _ _ S1 Hw) as [_ Hfile]. pose proof (step_inv _ _ S1) as []. split; try done. cbn. intros v r c Hv _ _ (m & Hm & <- & <- & <-).
    left. rewrite Hfile in Hm. by apply St.
  - intros _ z2 (Hi2 & Hf2 & He2). apply ok_ret. assert (forall v r c, hist z1 v r c -> hist z2 v r c) as Hh by (unfold ZugInv.hist; by rewrite Hf2).
    split; [|rewrite He2; apply S1]. split; [done|]. split; [intros v r c Hz; by apply Hh, S1|]. by eapply outcomes_ok_mono.
Qed.

Lemma set_active_validator_inv z i sk : Inv z -> me = Some i -> evidence_only z = false -> Inv (set_active_validator (Some (mkActiveValidator i sk)) z).
Proof. intros Hi Hown He. destruct Hi. split; try done. by intros ? [= <-]. Qed.

Lemma activate_validator_ok z our_id sk now w :
  Inv z -> evidence_only z = false -> (forall i, get_index vs our_id = Some i -> me = Some i) -> reaches (activate_validator our_id sk now w) z.
Proof.
  intros Hi He Hid. unfold activate_validator, get, reaches. ok_step. eapply (ok_bind _ _ _ (fun o z' => Reach z o z' /\ evidence_only z' = false)).
  { destruct (write_wal z) eqn:Hw; [|destruct w as [w|]]; [by apply ok_ret; split; [apply Reach_quiet, quiet_nil|]| |by apply ok_ret; split; [apply Reach_quiet, quiet_nil|]].
    rewrite <- He. by apply open_wal_ok. }
  intros o z1 [(Hi1 & Hh1 & Ho1) He1]. ok_step. destruct (negb (write_wal z1)); [by apply ok_ret, Reach_quiet, quiet_nil|].
  unfold vset. rewrite (inv_setup _ Hi1). destruct (get_index vs our_id) as [i|] eqn:Ei; [|by apply ok_ret].
  case_bool_decide; [by apply ok_ret|]. ok_step. set (z2 := set_active_validator _ z1).
  assert (Inv z2) as Hi2 by (by apply set_active_validator_inv; [|apply Hid|]).
  eapply ok_bind; [exact (schedule_update_ok z2 _ Hi2)|]. intros o' z3 [E3 Q3]. apply ok_ret. destruct E3 as [S3 _].
  assert (forall v r c, hist z1 v r c -> hist z3 v r c) as Hh3 by (intros v r c Hz; by apply S3).
  split; [apply S3|]. split; [intros v r c Hz; by apply Hh3, Hh1|]. apply outcomes_ok_app; [by eapply outcomes_ok_mono|by apply quiet_ok].
Qed.

Lemma set_evidence_only_ok z : Inv z -> active_validator z = None -> reaches (_ ← set_evidence_only_mode; mret []) z.
Proof.
  intros Hi Ha. unfold set_evidence_only_mode, reaches. eapply (ok_bind _ _ _ (fun _ z' => Inv z' /\ wal_file z' = wal_file z)).
  - do 3 ok_step. apply ok_modify. split; [|done]. destruct Hi. split; try done; cbn; [|congruence].
    intros b l r p s Hb. by apply elem_of_nil in Hb.
  - intros _ z1 [Hi1 Hf]. apply ok_ret, Reach_quiet; [done| |apply quiet_nil]. unfold ZugInv.hist. by rewrite Hf.
Qed.

Lemma mark_faulty_ok z vid : Inv z -> (forall i, get_index vs vid = Some i -> honest i = false) -> returns (_ ← mark_faulty vid; mret []) z.
Proof.
  intros Hi Hh. unfold mark_faulty. apply bind_returns.
  - apply modify_Step. unfold vset. rewrite (inv_setup _ Hi). destruct (get_index vs vid) as [i|] eqn:Ei; [|by apply Step_refl].
    destruct (faults z !! i); [by apply Step_refl|]. apply set_faults_Step; [done| |by apply Hh|done].
    apply (vo_index _ (eo_validators Hera)) in Ei as [Hi0 Hid]. by eapply id_of_range.
  - intros _ z1 S1. apply ret_returns; [apply S1|apply quiet_nil].
Qed.

Lemma send_evidence_quiet z peer vid : Inv z -> quiet (hist z) (send_evidence z peer vid).
Proof.
  intros Hi. unfold send_evidence. destruct (i ← get_index (vset z) vid; faults z !! i) as [f|] eqn:E; [|apply quiet_nil].
  apply bind_Some in E as (i & _ & Hf). destruct f as [|m c s|]; [apply quiet_nil| |apply quiet_nil].
  constructor; [|constructor]. split; [done|]. cbn. intros m' Hm' Hh. exfalso. pose proof (inv_evidence _ Hi _ _ _ _ Hf) as Hv.
  destruct (inv_faults _ Hi i ltac:(by rewrite Hf)) as [_ Hbad]. apply elem_of_cons in Hm' as [-> | ->%list_elem_of_singleton]; cbn in *; congruence.
Qed.

Lemma handle_timer_ok z ts now timer_id d : Inv z -> draw_ok d z -> returns (handle_timer ts now timer_id d) z.
Proof.
  intros Hi Hd. unfold handle_timer, get. destruct (_ =? TIMER_ID_SYNC_PEER); [by apply (handle_sync_peer_timer_ok Hera)|]. destruct (_ =? TIMER_ID_UPDATE).
  - apply bind_returns; [apply modify_Step, Ext_Step; destruct (_ <=? _); [by apply core_Ext|by apply Ext_refl]|]. intros _ z1 S1.
    pose proof (step_inv _ _ S1) as Hi1. unfold ZugUpdate.returns. ok_step.
    apply bind_returns; [eapply ok_mono; [exact (mark_dirty_Ext z1 _ Hi1 (inv_current _ Hi1))|by intros ? ? []]|]. intros _ z2 S2. apply (zug_update_ok Hera Hme Hoth), S2.
  - destruct (_ =? TIMER_ID_LOG_PARTICIPATION); [|by apply ret_returns, quiet_nil]. unfold ZugUpdate.returns. ok_step. apply ret_returns; [done|].
    destruct (log_participation_interval _); [|apply quiet_nil]. destruct (_ && _); [by apply quiet_one|apply quiet_nil].
Qed.
Lemma set_paused_mode_ok z p now : Inv z -> returns (set_paused_mode p now) z.
Proof.
  intros Hi. unfold set_paused_mode, get, ZugUpdate.returns. ok_step. destruct (_ && _).
  - apply bind_returns; [by apply modify_Step, Ext_Step, core_Ext|]. intros _ z1 S1.
    apply bind_returns; [apply modify_Step, Ext_Step, core_Ext; [apply S1|done|done]|]. intros _ z2 S2.
    apply bind_returns; [eapply ok_mono; [exact (mark_dirty_Ext z2 _ (step_inv _ _ S2) (inv_current _ Hi))|by intros ? ? []]|]. intros _ z3 S3. apply (zug_update_ok Hera Hme Hoth), S3.
  - apply bind_returns; [by apply modify_Step, Ext_Step, core_Ext|]. intros _ z1 S1. apply ret_returns; [apply S1|apply quiet_nil].
Qed.

(** *** Messages *)

Definition message_arrives (H : History) (msg : Message) : Prop :=
  match msg with
  | M_SyncResponse rs => response_arrives (S0 := S0) (honest := honest) H rs
  | M_Proposal r _ p echo => arrives (S0 := S0) (honest := honest) H echo /\ proposal_arrives r p
  | M_Signed m => arrives (S0 := S0) (honest := honest) H m
  | M_Evidence m c s => evidence_arrives (S0 := S0) (honest := honest) H m c s
  end.
Lemma handle_message_ok z sender msg now : Inv z -> (forall m, msg = Some m -> message_arrives (hist z) m) -> returns (handle_message sender msg now) z.
Proof.
  intros Hi Hm. unfold handle_message, get, ZugUpdate.returns. ok_step. destruct msg as [msg|]; [|by apply ret_returns, quiet_one].
  specialize (Hm _ eq_refl). case_bool_decide; [by apply ret_returns, quiet_one|]. destruct msg as [rs|r i p echo|m|m c s]; cbn in Hm.
  - by apply (handle_sync_response_ok Hera Hme Hoth).
  - apply outcomes_or_disconnect_ok, append_settles; [exact (handle_signed_message_ok Hera Hme Hoth z echo sender now Hi (proj1 Hm))|].
    intros o z1 S1. apply (handle_proposal_ok Hera Hme Hoth); [apply S1|apply Hm].
  - by apply outcomes_or_disconnect_ok, (handle_signed_message_ok Hera Hme Hoth).
  - by apply outcomes_or_disconnect_ok, (handle_evidence_ok Hera Hme Hoth).
Qed.

Lemma handle_request_spec z sender msg :
  Inv z -> (forall rq, msg = Some rq -> in_u 32 (rq_first_validator_idx rq)) ->
  exists a, handle_request_message z sender msg = Ok a /\ quiet (hist z) a.1 /\
    forall m, a.2 = Some m -> forall s, s ∈ message_signed m -> honest (validator_idx s) = true -> hist z (validator_idx s) (round_id s) (content s).
Proof.
  intros Hi Hrq. unfold handle_request_message.
  assert (forall o : Outcomes, quiet (hist z) o -> exists a, Ok (o, None) = Ok a :> result NodeId (Outcomes * option Message) /\ quiet (hist z) a.1 /\
    forall m, a.2 = Some m -> forall s, s ∈ message_signed m -> honest (validator_idx s) = true -> hist z (validator_idx s) (round_id s) (content s)) as Hno.
  { intros o Ho. by exists (o, None). }
  destruct msg as [rq|]; [|by apply Hno, quiet_one]. case_bool_decide; [by apply Hno, quiet_one|].
  destruct (handle_sync_request_ok Hera z rq sender Hi (Hrq _ eq_refl)) as (o & r & Hr & Hq & Hs). by exists (o, r).
Qed.

(** What the environment must satisfy for an event: messages have the types of their fields and
    do not forge signatures of correct validators ([H] are the messages signed so far); the
    random identifiers drawn for a sync request include a fresh one; the log is not opened when
    it is open; the node's own validator is the one that is activated, and not in an era that
    only collects evidence; an era is set to collect only evidence after its validator was
    deactivated, since this forgets what the validator has signed; a validator that is reported
    faulty is not a correct one. *)
Definition admissible (H : History) (z : Zug) (e : Event) : Prop :=
  match e with
  | E_OpenWal _ _ => write_wal z = false
  | E_Message _ msg _ => forall m, msg = Some m -> message_arrives H m
  | E_Request _ msg => forall rq, msg = Some rq -> in_u 32 (rq_first_validator_idx rq)
  | E_Timer _ _ _ d => draw_ok d z
  | E_Activate our_id _ _ _ => evidence_only z = false /\ forall i, get_index vs our_id = Some i -> me = Some i
  | E_SetEvidenceOnly => active_validator z = None
  | E_MarkFaulty vid => forall i, get_index vs vid = Some i -> honest i = false
  | _ => True
  end.

Lemma admissible_mono (H H' : History) z e : (forall v r c, H v r c -> H' v r c) -> admissible H z e -> admissible H' z e.
Proof.
  intros HH. destruct e; cbn; try done. intros Hm m Em. specialize (Hm m Em). destruct m as [rs|r i p echo|m|m c s]; cbn in *.
  - destruct Hm as (Hm & He & Hp). split_and!; [intros h m Hin; eapply arrives_mono; [exact HH|by eapply Hm]| |done].
    intros m c s Hin. eapply evidence_arrives_mono; [exact HH|by apply He].
  - destruct Hm as [He Hp]. split; [by eapply arrives_mono|done].
  - by eapply arrives_mono.
  - by eapply evidence_arrives_mono.
Qed.

(** Every event returns, keeps the invariant, and its outcomes are true of the history. *)
Lemma dispatch_ok z e : Inv z -> admissible (hist z) z e -> reaches (dispatch e) z.
Proof.
  intros Hi Ha. destruct e; cbn [dispatch admissible] in *.
  - eapply ok_mono; [by apply open_wal_ok|]. by intros o z' [? _].
  - by apply returns_reaches, handle_message_ok.
  - unfold get, reaches. ok_step. destruct (handle_request_spec z sender msg Hi Ha) as ([o r] & Hr & Hq & Hs). eapply ok_lift_bind; [exact Hr|].
    apply ok_ret, Reach_quiet; [done|done|]. apply quiet_app; [done|]. cbn [snd] in *.
    destruct r as [m|]; [|apply quiet_nil]. constructor; [|constructor]. split; [done|]. exact (Hs m eq_refl).
  - by apply returns_reaches, handle_timer_ok.
  - apply ok_asks, Reach_quiet; [done|done|]. apply quiet_app; [destruct (sync_state_interval _)|destruct (log_participation_interval _)]; by apply quiet_one || apply quiet_nil.
  - by apply returns_reaches, propose_ok.
  - by apply returns_reaches, resolve_validity_ok.
  - destruct Ha. by apply activate_validator_ok.
  - apply returns_reaches, bind_returns; [by apply modify_Step, deactivate_Step|]. intros _ z1 S1. apply ret_returns; [apply S1|apply quiet_nil].
  - by apply set_evidence_only_ok.
  - by apply returns_reaches, mark_faulty_ok.
  - apply ok_asks, Reach_quiet; [done|done|by apply send_evidence_quiet].
  - by apply returns_reaches, set_paused_mode_ok.
Qed.
End replay.
