(* ===== verification/ZugNet.v ===== *)
(** * The Zug consensus protocol: a network of nodes

    Any number of nodes run the protocol on the same era. Messages are lost, repeated,
    reordered and made up by faulty validators; nodes crash at any write to their log and
    restart from it; the device may report errors. Every reachable state satisfies the invariant
    of each node, and what the nodes announced and sent is true of what was signed. *)
From S2P Require Import Prelude Effects BTree Validators ZugTypes Zug ZugQuorum ZugInv ZugNode ZugFinal ZugUpdate ZugHandlers ZugReplay.

Open Scope Z_scope.

Section net.
Context {C : Context} {F : F64} {R : LeaderRng}.

(** [own n] is the validator that node [n] runs, if any. *)
Variables (S0 : Setup) (honest : Z -> bool) (lead : Z -> Z) (own : nat -> option Z).
Abbreviation vs := (validator_set S0).

(** The faulty validators weigh at most the threshold, every node runs a correct validator of
    its own, and the validators banned from the start are not correct. *)
Record net_ok : Prop := {
  no_era : era_ok S0 honest lead;
  no_own : forall n, me_ok S0 honest (own n);
  no_injective : forall n m v, own n = Some v -> own m = Some v -> n = m;
  no_banned : forall i, i ∈ iter_banned_idx vs -> honest i = false
}.

(** ** States of the network *)

(** The nodes, the blocks they announced as final, the signed messages they sent. *)
Record World : Type := mkWorld {
  nodes : nat -> Zug;
  emitted : list (nat * FinalizedBlock);
  messages : list SignedMessage
}.

(** What correct validators have signed is what their nodes have logged. *)
Definition said (w : World) : History := fun v r c => exists n, own n = Some v /\ signed_in (wal_file (nodes w n)) v r c.
Definition others_of (w : World) (n : nat) : History := fun v r c => own n <> Some v /\ said w v r c.

Definition block_of (o : ProtocolOutcome) : option FinalizedBlock := match o with O_FinalizedBlock b => Some b | _ => None end.
Definition after (w : World) (n : nat) (z : Zug) (o : Outcomes) : World :=
  mkWorld (fun m => if decide (m = n) then z else nodes w m) (emitted w ++ (pair n <$> omap block_of o)) (messages w ++ concat (sent <$> o)).

(** A node that starts with a log: [Zug::new].  The construction in [new_boxed] goes on with the
    event [E_OpenWal], which replays the log. *)
Definition boots (file : list ZugWalEntry) (z : Zug) : Prop :=
  exists prev_timeout seed, new_with_params vs (params S0) (config S0) prev_timeout seed file = Ok z /\ setup z = S0.

(** The states that the network can be in. Every event may see the maps of the node in another
    order, and other answers from the device. *)
Inductive reachable : World -> Prop :=
| R_init w : (forall n, boots [] (nodes w n)) -> emitted w = [] -> messages w = [] -> reachable w
| R_event w n (HO : HashOrder) e io o z :
    reachable w -> admissible (S0 := S0) (honest := honest) (me := own n) (said w) (nodes w n) e ->
    dispatch e (set_wal_io io (nodes w n)) = (Ok o, z) ->
    reachable (after w n z o)
| R_crash w n (HO : HashOrder) e io o z file z' :
    reachable w -> admissible (S0 := S0) (honest := honest) (me := own n) (said w) (nodes w n) e ->
    dispatch e (set_wal_io io (nodes w n)) = (o, z) ->
    wal_file (nodes w n) `prefix_of` file -> file `prefix_of` wal_file z -> boots file z' ->
    reachable (after w n z' []).

(** ** The invariant *)

Record NetInv (w : World) : Prop := {
  ni_node : forall n, Inv S0 honest lead (own n) (others_of w n) None (nodes w n);
  ni_emitted : forall n b, (n, b) ∈ emitted w -> finalized (S0 := S0) (honest := honest) (lead := lead) (said w) b;
  ni_sent : forall m, m ∈ messages w -> honest (validator_idx m) = true -> said w (validator_idx m) (round_id m) (content m)
}.

Lemma Inv_others_mono me (o o' : History) z :
  (forall v r c, o v r c -> o' v r c) -> Inv S0 honest lead me o None z -> Inv S0 honest lead me o' None z.
Proof.
  intros Ho Hi. assert (forall v r c, hist me o z v r c -> hist me o' z v r c) as Hh by (intros v r c [?|?]; [left; auto|by right]).
  destruct Hi. split; try done.
  - intros v m Hv Hm Hhon. apply Hh. by eapply inv_seen.
  - intros r rd Hrd. destruct (inv_rounds r rd Hrd). split; [done|]. by eapply round_ok_mono.
  - intros e He. eapply entry_ok_mono; [exact Hh|]. by apply inv_wal.
Qed.

Hypothesis Hnet : net_ok.

Lemma hist_said w n v r c : hist (own n) (others_of w n) (nodes w n) v r c <-> said w v r c.
Proof.
  split.
  - intros [[_ ?]|[Hv Hs]]; [done|]. by exists n.
  - intros (m & Hm & Hs). destruct (decide (own n = Some v)) as [Hn|Hn].
    + right. split; [done|]. by rewrite (no_injective Hnet n m v Hn Hm).
    + left. split; [done|]. by exists m.
Qed.
Lemma others_of_ok w n : NetInv w -> others_ok (honest := honest) (me := own n) (others := others_of w n).
Proof.
  intros Hw. split; [|by intros v r c Hv [? _]]. intros v r c1 c2 _ [_ (n1 & H1 & S1)] [_ (n2 & H2 & S2)].
  rewrite (no_injective Hnet n2 n1 v H2 H1) in *. exact (inv_own _ (ni_node w Hw n1) _ _ _ _ H1 S1 S2).
Qed.

(** The log of one node changes. *)
Lemma said_after w n z o v r c :
  said (after w n z o) v r c <-> (if decide (own n = Some v) then signed_in (wal_file z) v r c else said w v r c).
Proof.
  unfold said. cbn [nodes after]. case_decide as Hn.
  - split; [|intros Hs; exists n; by rewrite decide_True]. intros (m & Hm & Hs). rewrite (no_injective Hnet m n v Hm Hn) in Hs. by rewrite decide_True in Hs.
  - split; intros (m & Hm & Hs); exists m; (rewrite decide_False in * by congruence || rewrite decide_False by congruence); done.
Qed.
Lemma said_grows w n z o :
  (forall v r c, own n = Some v -> signed_in (wal_file (nodes w n)) v r c -> signed_in (wal_file z) v r c) ->
  forall v r c, said w v r c -> said (after w n z o) v r c.
Proof.
  intros Hz v r c Hs. rewrite said_after. case_decide as Hn; [|done]. apply Hz; [done|]. destruct Hs as (m & Hm & Hs).
  by rewrite (no_injective Hnet m n v Hm Hn) in Hs.
Qed.

(** Changing one node keeps the invariant when the node's own invariant holds. *)
Lemma after_inv w n z o :
  NetInv w -> Inv S0 honest lead (own n) (others_of w n) None z ->
  (forall v r c, own n = Some v -> signed_in (wal_file (nodes w n)) v r c -> signed_in (wal_file z) v r c) ->
  outcomes_ok (S0 := S0) (honest := honest) (lead := lead) (hist (own n) (others_of w n) z) o ->
  NetInv (after w n z o).
Proof.
  intros Hw Hz Hgrow [Hb Hs]. pose proof (said_grows w n z o Hgrow) as Hsaid.
  assert (forall v r c, hist (own n) (others_of w n) z v r c -> said (after w n z o) v r c) as Hhist.
  { intros v r c [[Hn ?]|[Hn ?]]; rewrite said_after; [by rewrite decide_False|by rewrite decide_True]. }
  split.
  - intros m. cbn [nodes after]. case_decide as Hm; [subst m|]; (eapply Inv_others_mono; [|first [exact Hz|apply Hw]]);
      intros v r c [Hne ?]; (split; [done|]); by apply Hsaid.
  - intros m b. cbn [emitted after]. rewrite elem_of_app. intros [Hin|Hin].
    + eapply finalized_mono; [exact Hsaid|]. by eapply (ni_emitted w Hw).
    + apply list_elem_of_fmap in Hin as (b' & [= -> <-] & (x & Hx & Hxb)%list_elem_of_omap). destruct x; cbn in Hxb; simplify_eq.
      eapply finalized_mono; [exact Hhist|]. by apply Hb.
  - intros m. cbn [messages after]. rewrite elem_of_app. intros [Hin|Hin] Hh.
    + by apply Hsaid, (ni_sent w Hw).
    + apply list_elem_of_In, in_concat in Hin as (l & Hl & Hm). apply list_elem_of_In, list_elem_of_fmap in Hl as (x & -> & Hx).
      apply Hhist, (Hs x Hx); [by apply list_elem_of_In|done].
Qed.

(** ** Starting *)

Lemma banned_range i : i ∈ iter_banned_idx vs -> 0 <= i < len vs.
Proof.
  pose proof (vo_len _ (eo_validators (no_era Hnet))) as Hlen. unfold iter_banned_idx, len in *.
  intros ([k v] & -> & [_ Hin]%list_elem_of_filter)%list_elem_of_fmap. apply elem_of_enumerate in Hin as [Hk Hin]; [|lia]. cbn in *.
  pose proof (vec_get_range _ _ _ Hk Hin). lia.
Qed.

Lemma boots_inv me others file z :
  boots file z -> (forall e, e ∈ file -> entry_ok S0 honest (hist_of me others file) e) ->
  (forall v r c1 c2, me = Some v -> signed_in file v r c1 -> signed_in file v r c2 -> contradicts c1 c2 = false) ->
  Inv S0 honest lead me others None z /\ wal_file z = file.
Proof.
  intros (prev & seed & Hnew & Hset) He Hown. unfold new_with_params in Hnew.
  destruct (leader_sequence_new _ _ _) as [ls|e| |]; cbn in Hnew; try done. injection Hnew as <-. cbn in Hset. split; [|done].
  assert (forall v f, list_to_map (M := gmap Z Fault) ((fun i => (i, Banned)) <$> iter_banned_idx vs) !! v = Some f -> v ∈ iter_banned_idx vs /\ f = Banned) as Hban.
  { intros v f Hf. apply elem_of_list_to_map_2 in Hf. apply list_elem_of_fmap in Hf as (i & [= -> ->] & ?). done. }
  split; cbn; try done.
  - unfold validator_weights. by rewrite length_replicate, length_fmap.
  - intros v m Hv. unfold vec_get. intros Hm. by apply lookup_replicate in Hm as [? _].
  - intros v [f Hf]. apply Hban in Hf as [Hf _]. split; [by apply banned_range|by apply (no_banned Hnet)].
  - intros v m c s Hf. by apply Hban in Hf as [_ ?].
  - intros b l r p s Hb. by apply elem_of_nil in Hb.
Qed.

Lemma init_inv w : (forall n, boots [] (nodes w n)) -> emitted w = [] -> messages w = [] -> NetInv w.
Proof.
  intros Hb He Hm. split; [|rewrite He; by intros ? ? ?%elem_of_nil|rewrite Hm; by intros ? ?%elem_of_nil].
  intros n. apply (boots_inv (own n) (others_of w n) []); [done|by intros e ?%elem_of_nil|].
  intros v r c1 c2 _ (m & Hin & _). by apply elem_of_nil in Hin.
Qed.

(** ** Every step *)

Lemma set_io_inv me others io z : Inv S0 honest lead me others None z -> Inv S0 honest lead me others None (set_wal_io io z).
Proof. intros []. by split. Qed.

(** An event returns, with the node's invariant and a log that only grows. *)
Lemma event_ok w n (HO : HashOrder) e io :
  NetInv w -> admissible (S0 := S0) (honest := honest) (me := own n) (said w) (nodes w n) e ->
  exists o z, dispatch e (set_wal_io io (nodes w n)) = (Ok o, z) /\ Inv S0 honest lead (own n) (others_of w n) None z /\
    (forall v r c, own n = Some v -> signed_in (wal_file (nodes w n)) v r c -> signed_in (wal_file z) v r c) /\
    outcomes_ok (S0 := S0) (honest := honest) (lead := lead) (hist (own n) (others_of w n) z) o.
Proof.
  intros Hw Ha. pose proof (others_of_ok w n Hw) as Hoth.
  destruct (dispatch_ok (no_era Hnet) (no_own Hnet n) Hoth (set_wal_io io (nodes w n)) e) as (o & z & Hd & Hi & Hh & Ho).
  - apply set_io_inv, Hw.
  - eapply admissible_mono; [|exact Ha]. intros v r c. apply hist_said.
  - exists o, z. split_and!; [done|done| |done]. intros v r c Hv Hs. destruct (Hh v r c) as [Hot|[_ ?]]; [right; by split| |done].
    by apply (proj2 Hoth v r c) in Hot.
Qed.

Lemma signed_in_incl file file' v r c : file ⊆ file' -> signed_in file v r c -> signed_in file' v r c.
Proof. intros Hf (m & Hm & ?). exists m. split; [by apply Hf|done]. Qed.
Lemma prefix_incl {A} (l l' : list A) : l `prefix_of` l' -> l ⊆ l'.
Proof. intros Hp x Hx. by eapply elem_of_prefix. Qed.

Lemma reachable_inv w : reachable w -> NetInv w.
Proof.
  induction 1 as [w Hb He Hm|w n HO e io o z Hr IH Ha Hd|w n HO e io o z file z' Hr IH Ha Hd Hpre Hpost Hb]; [by apply init_inv| |].
  - destruct (event_ok w n HO e io IH Ha) as (o' & z' & Hd' & Hi & Hgrow & Ho). rewrite Hd in Hd'. injection Hd' as -> ->. by apply after_inv.
  - destruct (event_ok w n HO e io IH Ha) as (o' & z0 & Hd' & Hi & _ & _). rewrite Hd in Hd'. injection Hd' as -> ->.
    apply prefix_incl in Hpre, Hpost. destruct (boots_inv (own n) (others_of w n) file z' Hb) as [Hi' Hfile].
    + intros e' He'. pose proof (inv_wal _ Hi e' (Hpost _ He')) as Hok. destruct e' as [m|p r|m c s]; [|done|done].
      destruct Hok as (Hrange & Hround & Hsig). split; [done|]. split; [done|]. intros Hh. destruct (Hsig Hh) as [?|[Hown _]]; [by left|].
      right. split; [done|]. by exists m.
    + intros v r c1 c2 Hv H1 H2. eapply (inv_own _ Hi); [exact Hv|by eapply signed_in_incl|by eapply signed_in_incl].
    + apply after_inv; [done|done| |by apply quiet_ok, quiet_nil]. rewrite Hfile. intros v r c _. by apply signed_in_incl.
Qed.

Lemma said_consistent w : NetInv w -> consistent honest (said w).
Proof.
  intros Hw v r c1 c2 _ (n1 & H1 & S1) (n2 & H2 & S2). rewrite (no_injective Hnet n2 n1 v H2 H1) in *.
  exact (inv_own _ (ni_node w Hw n1) _ _ _ _ H1 S1 S2).
Qed.
End net.
