(* ===== verification/ZugSafety.v ===== *)
(** * The Zug consensus protocol: safety

    A new instance starts in a state to which the theorems apply; the network agrees on the
    finalized blocks, correct validators do not equivocate, and handlers return. The witnesses
    run a network of a correct and a faulty validator and an observer. *)
From S2P Require Import Prelude Effects BTree Validators ZugTypes Zug ZugQuorum ZugInv ZugNode ZugFinal ZugUpdate ZugHandlers ZugSync ZugReplay ZugNet.

Open Scope Z_scope.

(** ** Construction *)

Section construct.
Context {C : Context} {F : F64} {R : LeaderRng} {HO : HashOrder}.

(** The flags that exclude validators from leading. *)
Lemma exclude_spec (l : list Z) (flags : list bool) i :
  (forall j, j ∈ l -> 0 <= j) -> 0 <= i < Z.of_nat (length flags) -> vec_get flags i = Some true ->
  length (foldl (fun l i => vec_set i false l) flags l) = length flags /\
  vec_get (foldl (fun l i => vec_set i false l) flags l) i = Some (negb (bool_decide (i ∈ l))).
Proof.
  revert flags. assert (forall flags b, (forall j, j ∈ l -> 0 <= j) -> 0 <= i < Z.of_nat (length flags) -> vec_get flags i = Some b ->
    length (foldl (fun l i => vec_set i false l) flags l) = length flags /\
    vec_get (foldl (fun l i => vec_set i false l) flags l) i = Some (b && negb (bool_decide (i ∈ l)))) as Hgen.
  2: { intros flags Hl Hi Hf. by destruct (Hgen flags true Hl Hi Hf). }
  induction l as [|j l IH]; intros flags b Hl Hi Hf; cbn [foldl].
  - split; [done|]. rewrite Hf. rewrite bool_decide_false by apply not_elem_of_nil. by rewrite andb_true_r.
  - assert (length (vec_set j false flags) = length flags) as Hlen by apply vec_set_length.
    assert (vec_get (vec_set j false flags) i = Some (b && negb (bool_decide (i = j)))) as Hset.
    { destruct (decide (i = j)) as [->|Hne].
      - rewrite vec_get_set by lia. rewrite decide_True, bool_decide_true by done. by rewrite andb_false_r.
      - rewrite bool_decide_false by done. rewrite andb_true_r, <- Hf. unfold vec_get, vec_set. assert (0 <= j) by (apply Hl; left).
        rewrite list_lookup_insert_ne; [done|lia]. }
    destruct (IH (vec_set j false flags) _ ltac:(intros k Hk; apply Hl; by right) ltac:(by rewrite Hlen) Hset) as [IH1 IH2]. split; [lia|].
    rewrite IH2. f_equal. rewrite <- andb_assoc, <- negb_orb. f_equal. f_equal. rewrite <- bool_decide_or. apply bool_decide_ext. by rewrite elem_of_cons.
Qed.

(** The leader of each round. *)
Definition leads (S0 : Setup) (r : Z) : Z :=
  match leader std_binary_search chacha_range (leader_sequence S0) r with Ok v => v | _ => 0 end.

Lemma new_with_params_ok vs ps cfg prev seed file :
  search_contract std_binary_search -> range_contract chacha_range -> validators_ok vs -> proposer_exists vs ->
  exists z, new_with_params vs ps cfg prev seed file = Ok z /\ params (setup z) = ps /\ config (setup z) = cfg /\ validator_set (setup z) = vs /\
    forall r, exists v, leader std_binary_search chacha_range (leader_sequence (setup z)) r = Ok (leads (setup z) r) /\
      vec_get (validators vs) (leads (setup z) r) = Some v /\ can_propose v = true /\ 0 < weight v /\ 0 <= leads (setup z) r < len vs.
Proof.
  intros Hsearch Hrange Hok (v0 & Hv0 & Hw0 & Hc0 & _). pose proof (vo_len _ Hok) as Hl. unfold len in Hl.
  set (ws := validator_weights vs). assert (length ws = length (validators vs)) as Hws by apply length_fmap.
  set (flags := foldl (fun l i => vec_set i false l) (replicate (length ws) true) (iter_cannot_propose_idx vs)).
  assert (forall i v, 0 <= i -> vec_get (validators vs) i = Some v -> vec_get flags i = Some (can_propose v) /\ length flags = length ws) as Hflags.
  { intros i v Hi Hv. pose proof (vec_get_range _ _ _ Hi Hv) as Hr.
    destruct (exclude_spec (iter_cannot_propose_idx vs) (replicate (length ws) true) i) as [Hlen Hget].
    - intros j ([k x] & -> & [_ Hin]%list_elem_of_filter)%list_elem_of_fmap. by apply elem_of_enumerate in Hin as [? _].
    - rewrite length_replicate. lia.
    - unfold vec_get. apply lookup_replicate. split; [done|]. rewrite Hws. lia.
    - fold flags in Hlen, Hget. rewrite Hget, Hlen, length_replicate. split; [|done]. f_equal. unfold iter_cannot_propose_idx.
      destruct (can_propose v) eqn:Ec.
      + apply negb_true_iff, bool_decide_false. intros ([k x] & -> & [Hx Hin]%list_elem_of_filter)%list_elem_of_fmap.
        apply elem_of_enumerate in Hin as [_ Hin]; [|done]. cbn in *. congruence.
      + apply negb_false_iff, bool_decide_true. apply list_elem_of_fmap. exists (i, v). split; [done|]. apply list_elem_of_filter. split; [done|].
        by apply elem_of_enumerate. }
  apply list_elem_of_lookup in Hv0 as [i0 Hi0].
  assert (vec_get (validators vs) (Z.of_nat i0) = Some v0) as Hget0 by (unfold vec_get; by rewrite Nat2Z.id).
  assert (forall i v, vec_get (validators vs) i = Some v -> vec_get ws i = Some (weight v)) as Hweight.
  { intros i v Hv. unfold vec_get in *. unfold ws, validator_weights. by rewrite list_lookup_fmap, Hv. }
  destruct (Hflags (Z.of_nat i0) v0 ltac:(lia) Hget0) as [Hf0 Hlen].
  destruct (leader_spec Hsearch Hrange seed ws flags) as (ls & Hls & Hlead).
  - apply Hok.
  - unfold ws. rewrite <- (vo_total _ Hok). apply Hok.
  - done.
  - by rewrite Hws.
  - exists (Z.of_nat i0), (weight v0). split_and!; [lia|by apply Hweight|done|by rewrite Hf0, Hc0].
  - eexists. unfold new_with_params. fold ws. fold flags. rewrite Hls. split; [reflexivity|]. split_and!; [done|done|done|]. cbn [setup leader_sequence].
    intros r. destruct (Hlead r) as (v & w & Ev & Hv & Hfv & Hwv & Hpos & _). unfold leads. cbn [leader_sequence]. rewrite Ev. rewrite Hws in Hv.
    destruct (vec_get_is_Some (validators vs) v Hv) as [x Hx]. exists x. destruct (Hflags v x ltac:(lia) Hx) as [Hfx _].
    rewrite (Hweight _ _ Hx) in Hwv. unfold len. simplify_eq. split_and!; [done|done|congruence|done|lia|lia].
Qed.

Lemma ftt_bound (vs : Validators ValidatorId) fraction :
  validators_ok vs -> 0 <= fraction.1 < fraction.2 -> ftt fraction vs = Ok (total_weight vs * fraction.1 / fraction.2) /\
    0 <= total_weight vs * fraction.1 / fraction.2 < 2 ^ 64.
Proof.
  intros Hok Hf. pose proof (weigh_le_total vs (fun _ => true) Hok) as Ht. rewrite weigh_all in Ht by done. pose proof (vo_bound _ Hok) as Hb.
  assert (0 <= total_weight vs * fraction.1 / fraction.2 < 2 ^ 64) as Hr.
  { split; [apply Z.div_pos; lia|]. apply Z.div_lt_upper_bound; [lia|]. nia. }
  split; [|done]. unfold ftt. destruct (fraction.1 <? fraction.2) eqn:E; [|lia]. cbn. f_equal. unfold as_u64. by apply Z.mod_small.
Qed.
End construct.

Lemma zug_new_spec {C : Context} {F : F64} {R : LeaderRng} {HO : HashOrder} `{!TotalOrd ValidatorId} `{!TotalOrdLaws ValidatorId}
  (inst : InstanceId) (stakes : list (ValidatorId * Z)) (faulty inactive : list ValidatorId) (fraction : Z * Z)
  (block_time era_height duration start : Z) (cfg : Config) (prev : option f64) (seed : Z) (file : list ZugWalEntry) :
  search_contract std_binary_search -> range_contract chacha_range ->
  btree_sorted stakes -> Forall (in_u 512) stakes.*2 -> Z.of_nat (length stakes) < 2 ^ 32 -> 0 <= fraction.1 -> 0 < fraction.2 ->
  let built := zug_new inst stakes faulty inactive fraction block_time era_height duration start cfg prev seed file in
  if decide (0 < zsum stakes.*2 <= u_max 512 /\ fraction.1 < fraction.2) then
    exists z vs, built = Ok z /\ era_validators faulty inactive stakes = Ok vs /\ validator_set (setup z) = vs /\ wal_file z = file /\
      params_ftt (params (setup z)) = total_weight vs * fraction.1 / fraction.2 /\
      (forall r, exists v, vec_get (validators vs) (leads (setup z) r) = Some v /\ can_propose v = true /\ 0 < weight v) /\
      boots (setup z) file z /\
      forall honest, (forall p q, hash_proposal p = hash_proposal q -> p = q) -> weigh vs (fun v => negb (honest v)) <= params_ftt (params (setup z)) ->
        era_ok (setup z) honest (leads (setup z))
  else built = Panic.
Proof.
  intros Hsearch Hrange Hs Hst Hl Hn Hd built. pose proof (era_validators_spec faulty inactive stakes Hs Hst Hl) as Hspec. cbv zeta in Hspec.
  subst built. unfold zug_new. destruct (decide (0 < zsum stakes.*2 <= u_max 512)) as [Hsum|Hsum]; [|by rewrite decide_False, Hspec by tauto].
  destruct Hspec as (vs & Hvs & Hok & _ & _ & Hprop & _). rewrite Hvs. cbn [mbind result_bind].
  case_decide as Hf; [|unfold ftt; by rewrite (proj2 (Z.ltb_ge fraction.1 fraction.2)) by (destruct (Z.lt_ge_cases fraction.1 fraction.2); tauto)].
  destruct (ftt_bound vs fraction Hok ltac:(lia)) as [Hftt Hb]. rewrite Hftt. cbn [mbind result_bind].
  match goal with |- context [new_with_params vs ?ps cfg prev seed file] =>
    destruct (new_with_params_ok vs ps cfg prev seed file Hsearch Hrange Hok Hprop) as (z & Hz & Hps & Hcfg & Hset & Hlead) end.
  exists z, vs. rewrite Hz. split_and!; [done|done|done| |by rewrite Hps| | |].
  - unfold new_with_params in Hz. destruct (leader_sequence_new _ _ _); cbn in Hz; try done. by injection Hz as <-.
  - intros r. destruct (Hlead r) as (v & _ & Hv & Hc & Hw & _). by exists v.
  - exists prev, seed. by rewrite Hset, Hps, Hcfg, Hz.
  - intros honest Hinj Hbyz. split; rewrite ?Hset; [done|by rewrite Hps|done| |done].
    intros r _. destruct (Hlead r) as (v & Hv & _ & _ & _ & Hr). done.
Qed.

(** ** A network to run

    A correct validator with three quarters of the stake, a faulty one with the rest, and an
    observer. Hashes are encodings, so they are injective; a signature names its signer. *)

Definition toy_hash_proposal (p : ProposalOf Z) : positive := encode (timestamp p, maybe_block p, maybe_parent_round_id p, inactive p).
Definition toy_content (c : ContentOf positive) : positive + bool := match c with Echo h => inl h | Vote b => inr b end.
#[local] Instance toy_context : Context := {|
  ConsensusValue := Z; ValidatorId := Z; ValidatorSecret := Z; Signature := Z * positive; Hash := positive; InstanceId := Z; NodeId := Z;
  needs_validation := fun _ => false;
  hash_fields := fun r i c idx => encode (r, i, toy_content c, idx);
  hash_proposal := toy_hash_proposal;
  sign := fun sk h => (sk, h);
  verify_signature := fun h vid s => bool_decide (s = (vid, h))
|}.
#[local] Instance toy_f64 : F64 := {|
  f64 := Z; f64_of := fun x => x; f64_as_u64 := fun x => x; f64_add := Z.add; f64_sub := Z.sub; f64_mul := Z.mul; f64_div := Z.div;
  f64_opp := Z.opp; f64_exp2 := fun x => x; f64_min := Z.min; f64_max := Z.max; f64_gt := Z.gtb
|}.
#[local] Instance toy_rng : LeaderRng := {| std_binary_search := linear_search; chacha_range := fun _ _ => 0 |}.
#[local] Instance toy_order : HashOrder := {| hash_order := fun _ l => l; hash_order_perm := fun _ _ => reflexivity _ |}.

Lemma toy_hash_inj (p q : ProposalOf Z) : toy_hash_proposal p = toy_hash_proposal q -> p = q.
Proof. unfold toy_hash_proposal. intros H%(inj encode). destruct p, q; cbn in H. by simplify_eq. Qed.
Lemma toy_range : range_contract (fun _ _ : Z => 0).
Proof. intros upper seed Hu. lia. Qed.

Definition toy_config : Config := mkConfig (Some 1000) None 10000 20 10 60000.
Definition toy_stakes : list (Z * Z) := [(1, 300); (2, 100)].
Definition toy_new : result () Zug := zug_new 7 toy_stakes [] [] (1, 3) 1000 20 600000 5000 toy_config None 11 [].
Definition toy_honest (v : Z) : bool := v =? 0.
Definition toy_own (n : nat) : option Z := if decide (n = 0%nat) then Some 0 else None.

(** Running a script whose events are checked to be admissible. *)
Definition logged (z : Zug) (m : SignedMessage) : bool :=
  existsb (fun e => match e with
                    | W_SignedMessage m' => bool_decide (validator_idx m' = validator_idx m /\ round_id m' = round_id m /\ content m' = content m)
                    | _ => false
                    end) (wal_file z).
Definition arrives_b (w : World) (m : SignedMessage) : bool :=
  bool_decide (in_u 32 (round_id m)) && bool_decide (validator_idx m = 0) && logged (nodes w 0%nat) m.
Definition admissible_b (w : World) (n : nat) (e : Event) : bool :=
  match e with
  | E_OpenWal _ _ => negb (write_wal (nodes w n))
  | E_Message _ (Some (M_Signed m)) _ => arrives_b w m
  | E_Message _ (Some (M_Proposal r _ p echo)) _ =>
      arrives_b w echo && bool_decide (in_u 32 r) && bool_decide (maybe_parent_round_id p = None)
  | E_Timer _ _ _ d => existsb (fun i => bool_decide (prune_old (draw_now d) (sent_sync_requests (nodes w n)) !! i = None)) (draw_ids d)
  | E_Activate our_id _ _ _ => negb (evidence_only (nodes w n)) && bool_decide (get_index (vset (nodes w n)) our_id = toy_own n)
  | E_Propose _ _ => true
  | _ => false
  end.
Definition step_to (w : World) (n : nat) (e : Event) : option World :=
  if admissible_b w n e then
    match dispatch e (set_wal_io [] (nodes w n)) with (Ok o, z) => Some (after w n z o) | _ => None end
  else None.
Fixpoint run (w : World) (script : list (nat * Event)) : option World :=
  match script with
  | [] => Some w
  | (n, e) :: script => match step_to w n e with Some w => run w script | None => None end
  end.

Definition toy_draw : SyncDraw := mkSyncDraw 0 0 [5] 6000.
Definition toy_block : ProposedBlock := mkProposedBlock 42 (mkBlockContext 6000 []).
Definition toy_proposal : ProposalOf Z := mkProposal 6000 (Some 42) None None.
Definition toy_echo : SignedMessage := sign_new 0 7 (Echo (hash_proposal toy_proposal)) 0 1.
Definition toy_vote : SignedMessage := sign_new 0 7 (Vote true) 0 1.
(** The validator proposes and finalizes a block; the observer receives its messages. *)
Definition toy_script : list (nat * Event) :=
  [ (0%nat, E_OpenWal (mkWalOpen true None true) 6000);
    (1%nat, E_OpenWal (mkWalOpen true None true) 6000);
    (0%nat, E_Activate 1 1 6000 None);
    (0%nat, E_Timer 6000 6000 TIMER_ID_UPDATE toy_draw);
    (0%nat, E_Propose toy_block 6000);
    (1%nat, E_Message 9 (Some (M_Proposal 0 7 toy_proposal toy_echo)) 6100);
    (1%nat, E_Message 9 (Some (M_Signed toy_vote)) 6200) ].
Definition toy_run : option World :=
  match toy_new with Ok z => run (mkWorld (fun _ => z) [] []) toy_script | _ => None end.
Definition toy_emitted : list (nat * Z * Z) := match toy_run with Some w => map (fun p => (p.1, relative_height p.2, fb_value p.2)) (emitted w) | None => [] end.
Lemma toy_runs : toy_emitted = [(0%nat, 0, 42); (1%nat, 0, 42)].
Proof. vm_compute. reflexivity. Qed.

Lemma logged_spec z m : logged z m = true -> signed_in (wal_file z) (validator_idx m) (round_id m) (content m).
Proof.
  unfold logged. rewrite existsb_exists. intros (e & He%list_elem_of_In & Hm). destruct e as [m'| |]; [|done|done].
  apply bool_decide_eq_true in Hm as (H1 & H2 & H3). by exists m'.
Qed.
Lemma arrives_b_sound S0 w m : arrives_b w m = true -> arrives (S0 := S0) (honest := toy_honest) (said toy_own w) m.
Proof.
  unfold arrives_b. rewrite !andb_true_iff, !bool_decide_eq_true. intros [[Hr Hv] Hl]. split; [done|]. rewrite Hv. split; [done|].
  intros _ _ _ _ _. exists 0%nat. split; [done|]. rewrite <- Hv. by apply logged_spec.
Qed.
Lemma admissible_b_sound S0 w n e :
  setup (nodes w n) = S0 -> admissible_b w n e = true ->
  admissible (S0 := S0) (honest := toy_honest) (me := toy_own n) (said toy_own w) (nodes w n) e.
Proof.
  intros Hs. destruct e as [w0 now|sender [m|] now| | | | | | | | | | |]; cbn [admissible_b admissible]; try done.
  - apply negb_true_iff.
  - intros Hm ? [= <-]. destruct m as [rs|r i p echo|m|m c s]; [done| | |done]; cbn [message_arrives].
    + rewrite !andb_true_iff, !bool_decide_eq_true in Hm. destruct Hm as [[He Hr] Hp]. split; [by apply arrives_b_sound|].
      split; [done|]. intros parent. by rewrite Hp.
    + by apply arrives_b_sound.
  - rewrite existsb_exists. intros (i & Hi%list_elem_of_In & Hn%bool_decide_eq_true). by exists i.
  - rewrite andb_true_iff, negb_true_iff, bool_decide_eq_true. intros [He Hid]. split; [done|]. unfold vset in Hid. rewrite Hs in Hid. congruence.
Qed.
Lemma run_reachable S0 script w w' :
  net_ok S0 toy_honest (leads S0) toy_own -> reachable S0 toy_honest toy_own w -> run w script = Some w' -> reachable S0 toy_honest toy_own w'.
Proof.
  intros Hnet. revert w. induction script as [|[n e] script IH]; intros w Hr; cbn [run]; [by intros [= <-]|].
  unfold step_to. destruct (admissible_b w n e) eqn:Ha; [|done]. destruct (dispatch e (set_wal_io [] (nodes w n))) as [[o|x| |] z] eqn:Ed; [|done..].
  apply IH. eapply R_event; [done| |exact Ed]. apply admissible_b_sound; [|done].
  apply (inv_setup _ (ni_node _ _ _ _ _ (reachable_inv _ _ _ _ Hnet w Hr) n)).
Qed.

Lemma toy_net : exists z, toy_new = Ok z /\ net_ok (setup z) toy_honest (leads (setup z)) toy_own /\ boots (setup z) [] z.
Proof.
  pose proof (zug_new_spec 7 toy_stakes [] [] (1, 3) 1000 20 600000 5000 toy_config None 11 []) as H. cbv zeta in H.
  rewrite decide_True in H by done. destruct H as (z & vs & Hz & Hvs & Hset & _ & Hftt & _ & Hboots & Hera).
  - exact linear_search_contract.
  - exact toy_range.
  - repeat constructor.
  - by repeat constructor.
  - done.
  - done.
  - done.
  - exists z. split; [exact Hz|]. split; [|exact Hboots].
    pose proof Hvs as Evs. vm_compute in Evs. injection Evs as Evs.
    split.
    + apply Hera; [exact toy_hash_inj|]. rewrite Hftt, <- Evs. vm_compute. done.
    + intros n v. unfold toy_own. case_decide; [|done]. intros [= <-]. split; [done|]. rewrite Hset, <- Evs. vm_compute. done.
    + intros n m v. unfold toy_own. repeat case_decide; [congruence|done..].
    + rewrite Hset, <- Evs. vm_compute. intros i Hi. by apply elem_of_nil in Hi.
Qed.
(** The final state of the script. *)
Lemma toy_reachable : exists S0 w, net_ok S0 toy_honest (leads S0) toy_own /\ reachable S0 toy_honest toy_own w /\ toy_run = Some w.
Proof.
  destruct toy_net as (z & Hz & Hnet & Hboots). exists (setup z). pose proof toy_runs as Hrun. unfold toy_emitted, toy_run in *. rewrite Hz in *.
  destruct (run _ toy_script) as [w|] eqn:E; [|done]. exists w. split; [done|]. split; [|done]. eapply run_reachable; [done| |exact E]. by apply R_init.
Qed.

(** What the script announced and sent. *)
Definition toy_sent : list SignedMessage := match toy_run with Some w => messages w | None => [] end.
Lemma toy_len : match toy_new with Ok z => len (vset z) =? 2 | _ => false end = true.
Proof. vm_compute. reflexivity. Qed.
Definition toy_next : Event := E_Timer 7000 7000 TIMER_ID_UPDATE toy_draw.
Lemma toy_sent_both : toy_echo ∈ toy_sent /\ toy_vote ∈ toy_sent.
Proof. apply (bool_decide_unpack _). vm_compute. exact I. Qed.
Lemma toy_next_admissible : match toy_run with Some w => admissible_b w 0 toy_next | None => false end = true.
Proof. vm_compute. reflexivity. Qed.
Lemma toy_blocks : match toy_run with Some w => exists b1 b2, emitted w = [(0%nat, b1); (1%nat, b2)] /\ relative_height b1 = relative_height b2 /\ fb_value b1 = 42 | None => False end.
Proof.
  pose proof toy_runs as H. unfold toy_emitted in H. destruct toy_run as [w|]; [|done].
  destruct (emitted w) as [|[n1 b1] [|[n2 b2] [|? ?]]]; try done. cbn in H. injection H as -> H1 V1 -> H2 V2. exists b1, b2. split_and!; [done|congruence|done].
Qed.

(** A message that carries the deciding vote in place of an echo, with a proposal that is its own
    parent: the observer finalizes the round, then rejects the sender, and the block is never
    announced. *)
Definition lossy_script : list (nat * Event) :=
  take 6 toy_script ++ [(1%nat, E_Message 9 (Some (M_Proposal 0 7 (mkProposal 6000 (Some 43) (Some 0) (Some ∅)) toy_vote)) 6200)].
Fixpoint replay_script (w : World) (script : list (nat * Event)) : option World :=
  match script with
  | [] => Some w
  | (n, e) :: script =>
      match dispatch e (nodes w n) with (Ok o, z) => replay_script (after w n z o) script | _ => None end
  end.
Lemma lost_block :
  match toy_new with
  | Ok z => match replay_script (mkWorld (fun _ => z) [] []) lossy_script with
            | Some w => (map fst (emitted w), first_non_finalized_round_id (nodes w 1%nat), finalized_switch_block (nodes w 1%nat)) = ([0%nat], 1, false)
            | None => False
            end
  | _ => False
  end.
Proof. vm_compute. reflexivity. Qed.

(** Why an era that still has an active validator must not be set to collect only evidence: a
    validator proposes, restarts, replays its log and is activated again; then its rounds are
    cleared, and when the update timer fires it proposes, and echoes, another block in the
    same round. *)
Definition restart_script : list (nat * Event) :=
  [ (0%nat, E_OpenWal (mkWalOpen true None true) 6000);
    (0%nat, E_Activate 1 1 6000 None);
    (0%nat, E_SetEvidenceOnly);
    (0%nat, E_Timer 6500 6500 TIMER_ID_UPDATE toy_draw);
    (0%nat, E_Propose (mkProposedBlock 43 (mkBlockContext 6500 [])) 6500) ].
Definition echoes (w : World) : list (Z * Z * positive) :=
  omap (fun m => match content m with Echo h => Some (validator_idx m, round_id m, h) | Vote _ => None end) (messages w).
Lemma evidence_only_forgets :
  match toy_run with
  | Some w =>
      match zug_new 7 toy_stakes [] [] (1, 3) 1000 20 600000 5000 toy_config None 11 (wal_file (nodes w 0%nat)) with
      | Ok z => match replay_script (mkWorld (fun _ => z) [] []) restart_script with
                | Some w' => echoes w ++ echoes w' =
                    [(0, 0, hash_proposal toy_proposal); (0, 0, hash_proposal (mkProposal 6500 (Some 43) None None))]
                | None => False
                end
      | _ => False
      end
  | None => False
  end.
Proof. vm_compute. reflexivity. Qed.

(** ** The theorems *)

(** C26: [Zug::new] builds an instance for every era whose stakes sum to a positive 512-bit
    number when the finality threshold fraction is less than one, and panics otherwise. The
    instance starts with the given log and is one to which the theorems about the protocol
    apply: validator weights add up without overflow, every
    round has a leader of positive weight that may propose, and the fault tolerance threshold
    is the given fraction of the total weight, rounded down - whatever the random generator
    draws, as long as it stays in the range asked for. *)
Theorem zug_new_correct {C : Context} {F : F64} {R : LeaderRng} {HO : HashOrder} `{!TotalOrd ValidatorId} `{!TotalOrdLaws ValidatorId}
  (inst : InstanceId) (stakes : list (ValidatorId * Z)) (faulty inactive : list ValidatorId) (fraction : Z * Z)
  (block_time era_height duration start : Z) (cfg : Config) (prev : option f64) (seed : Z) (file : list ZugWalEntry) :
  search_contract std_binary_search -> range_contract chacha_range ->
  btree_sorted stakes -> Forall (in_u 512) stakes.*2 -> Z.of_nat (length stakes) < 2 ^ 32 -> 0 <= fraction.1 -> 0 < fraction.2 ->
  let built := zug_new inst stakes faulty inactive fraction block_time era_height duration start cfg prev seed file in
  if decide (0 < zsum stakes.*2 <= u_max 512 /\ fraction.1 < fraction.2) then
    exists z vs, built = Ok z /\ era_validators faulty inactive stakes = Ok vs /\ validator_set (setup z) = vs /\ wal_file z = file /\
      params_ftt (params (setup z)) = total_weight vs * fraction.1 / fraction.2 /\
      (forall r, exists v, vec_get (validators vs) (leads (setup z) r) = Some v /\ can_propose v = true /\ 0 < weight v) /\
      boots (setup z) file z /\
      forall honest, (forall p q, hash_proposal p = hash_proposal q -> p = q) -> weigh vs (fun v => negb (honest v)) <= params_ftt (params (setup z)) ->
        era_ok (setup z) honest (leads (setup z))
  else built = Panic.
Proof. apply zug_new_spec. Qed.
Lemma zug_new_correct_witness :
  exists z, toy_new = Ok z /\ params_ftt (params (setup z)) = 133 /\ era_ok (setup z) toy_honest (leads (setup z)).
Proof.
  pose proof (zug_new_correct 7 toy_stakes [] [] (1, 3) 1000 20 600000 5000 toy_config None 11 []) as H. cbv zeta in H.
  rewrite decide_True in H by done. destruct H as (z & vs & Hz & Hvs & Hset & _ & Hftt & _ & _ & Hera).
  - exact linear_search_contract.
  - exact toy_range.
  - repeat constructor.
  - by repeat constructor.
  - done.
  - done.
  - done.
  - exists z. pose proof Hvs as Evs. vm_compute in Evs. injection Evs as Evs.
    split; [exact Hz|]. rewrite Hftt, <- Evs in *. split; [done|]. apply Hera; [exact toy_hash_inj|]. vm_compute. done.
Defined.

(** C1: Agreement. In every reachable state of the network - faulty validators weigh at most the
    fault tolerance threshold and send anything but forged signatures, messages are lost,
    repeated and reordered, nodes crash at any write and restart from their log - any two blocks
    that nodes announce as final at the same height are the same block, with the same value,
    timestamp, proposer and terminal data. This holds across restarts and for one node as well
    as for two. *)
Theorem zug_agreement {C : Context} {F : F64} {R : LeaderRng} (S0 : Setup) (honest : Z -> bool) (lead : Z -> Z) (own : nat -> option Z) (w : World) :
  net_ok S0 honest lead own -> reachable S0 honest own w ->
  forall n1 n2 b1 b2, (n1, b1) ∈ emitted w -> (n2, b2) ∈ emitted w -> relative_height b1 = relative_height b2 -> b1 = b2.
Proof.
  intros Hnet Hr n1 n2 b1 b2 H1 H2. pose proof (reachable_inv _ _ _ _ Hnet w Hr) as Hw.
  eapply (finalized_agree (no_era _ _ _ _ Hnet) (said own w)); [by eapply said_consistent|by eapply ni_emitted|by eapply ni_emitted].
Qed.

(** Two nodes announce the block with value 42. *)
Lemma zug_agreement_witness :
  exists w b1 b2, toy_run = Some w /\ (0%nat, b1) ∈ emitted w /\ (1%nat, b2) ∈ emitted w /\ b1 = b2 /\ fb_value b1 = 42.
Proof.
  destruct toy_reachable as (S0 & w & Hnet & Hr & Hrun). pose proof toy_blocks as Hb. rewrite Hrun in Hb. destruct Hb as (b1 & b2 & He & Hh & Hv).
  exists w, b1, b2. assert ((0%nat, b1) ∈ emitted w) as H1 by (rewrite He; left). assert ((1%nat, b2) ∈ emitted w) as H2 by (rewrite He; right; left).
  split_and!; [done|done|done| |done]. exact (zug_agreement S0 toy_honest (leads S0) toy_own w Hnet Hr 0%nat 1%nat b1 b2 H1 H2 Hh).
Defined.

(** C4: A correct validator never equivocates: of all signed messages that nodes ever send,
    their own or relayed, no two of a correct validator in one round contradict each other,
    although nodes crash, lose writes that failed and restart. *)
Theorem zug_no_equivocation {C : Context} {F : F64} {R : LeaderRng} (S0 : Setup) (honest : Z -> bool) (lead : Z -> Z) (own : nat -> option Z) (w : World) :
  net_ok S0 honest lead own -> reachable S0 honest own w ->
  forall m1 m2, m1 ∈ messages w -> m2 ∈ messages w -> validator_idx m1 = validator_idx m2 -> round_id m1 = round_id m2 ->
    honest (validator_idx m1) = true -> contradicts (content m1) (content m2) = false.
Proof.
  intros Hnet Hr m1 m2 H1 H2 Hv Hround Hh. pose proof (reachable_inv _ _ _ _ Hnet w Hr) as Hw.
  pose proof (ni_sent _ _ _ _ _ Hw _ H1 Hh) as S1. rewrite Hv in Hh. pose proof (ni_sent _ _ _ _ _ Hw _ H2 Hh) as S2.
  rewrite Hv, Hround in S1. exact (said_consistent _ _ _ _ Hnet w Hw _ _ _ _ Hh S1 S2).
Qed.

Lemma zug_no_equivocation_witness :
  toy_echo ∈ toy_sent /\ toy_vote ∈ toy_sent /\ contradicts (content toy_echo) (content toy_vote) = false.
Proof.
  destruct toy_sent_both as [He Hv]. split; [exact He|]. split; [exact Hv|]. destruct toy_reachable as (S0 & w & Hnet & Hr & Hrun).
  unfold toy_sent in He, Hv. rewrite Hrun in He, Hv. by apply (zug_no_equivocation S0 toy_honest (leads S0) toy_own w Hnet Hr).
Defined.

(** C7: No handler of a correct node panics, loops or lets an error escape: in every reachable
    state every admissible event, with any order of the node's hash maps and any answers of the
    log device, returns outcomes and a new state, and the network can take that step. *)
Theorem zug_handlers_return {C : Context} {F : F64} {R : LeaderRng} (S0 : Setup) (honest : Z -> bool) (lead : Z -> Z) (own : nat -> option Z) (w : World) :
  net_ok S0 honest lead own -> reachable S0 honest own w ->
  forall n (HO : HashOrder) e io, admissible (S0 := S0) (honest := honest) (me := own n) (said own w) (nodes w n) e ->
    exists o z, dispatch e (set_wal_io io (nodes w n)) = (Ok o, z) /\ reachable S0 honest own (after w n z o).
Proof.
  intros Hnet Hr n HO e io Ha. destruct (event_ok _ _ _ _ Hnet w n HO e io (reachable_inv _ _ _ _ Hnet w Hr) Ha) as (o & z & Hd & _).
  exists o, z. split; [done|]. by eapply R_event.
Qed.
Lemma zug_handlers_return_witness :
  exists w o z, toy_run = Some w /\ dispatch toy_next (set_wal_io [IoFailed true] (nodes w 0%nat)) = (Ok o, z).
Proof.
  destruct toy_reachable as (S0 & w & Hnet & Hr & Hrun). pose proof toy_next_admissible as Ha. rewrite Hrun in Ha.
  destruct (zug_handlers_return S0 toy_honest (leads S0) toy_own w Hnet Hr 0%nat toy_order toy_next [IoFailed true]) as (o & z & Hd & _).
  - apply admissible_b_sound; [|exact Ha]. apply (inv_setup _ (ni_node _ _ _ _ _ (reachable_inv _ _ _ _ Hnet w Hr) 0%nat)).
  - exists w, o, z. split; [exact Hrun|exact Hd].
Defined.

(** A bit field of a sync request reads back as the members of the set that lie among the 128
    validators from the first one on, around the end of the validator list, for any validator
    count below [2^32]: [iter_validator_bit_field] after [validator_bit_field] is the set
    restricted to [validator_bit_field_includes]. *)
Theorem bit_field_roundtrip {C : Context} {F : F64} {R : LeaderRng} (z : Zug) (first : Z) (vidxs : list Z) :
  len (vset z) < 2 ^ 32 -> 0 <= first < len (vset z) -> (forall v, v ∈ vidxs -> 0 <= v < len (vset z)) ->
  forall v, v ∈ iter_validator_bit_field z first (validator_bit_field z first vidxs) <-> v ∈ vidxs /\ validator_bit_field_includes z first v = true.
Proof. apply bit_field_spec. Qed.
(** The set of both validators, read from the second one on. *)
Lemma bit_field_roundtrip_witness :
  exists z, toy_new = Ok z /\ forall v, v ∈ iter_validator_bit_field z 1 (validator_bit_field z 1 [0; 1]) <-> v ∈ [0; 1] /\ validator_bit_field_includes z 1 v = true.
Proof.
  pose proof toy_len as Hl. destruct toy_new as [z|e| |]; [|done..]. apply Z.eqb_eq in Hl. exists z. split; [done|].
  apply (bit_field_roundtrip z 1 [0; 1]); [by rewrite Hl|by rewrite Hl|]. rewrite Hl. intros v Hv. apply elem_of_cons in Hv as [->|Hv]; [lia|].
  apply list_elem_of_singleton in Hv as ->. lia.
Defined.
